(* ===== verification/_CoqProject ===== *)
-Q . S2P
Prelude.v
External.v
Marshal.v
Concrete.v
Mvcc.v
MvccOps.v
MvccView.v
MvccRead.v
MvccScan.v
MvccSpec.v
MvccExample.v
MvccTxn.v
MvccLock.v
MvccStatus.v
MvccGC.v
MvccReverse.v
MvccEffects.v
MvccSafety.v
MvccProtocol.v
Cluster.v
ClusterRegions.v
ClusterSplit.v
Rpc.v
RpcGuard.v
Fidel.v
ClusterWitness.v
MvccWitness.v
GoHeap.v
GoMonad.v
Tracker.v
TrackerTree.v
TrackerRun.v
Bind.v
BindSpec.v
InfoSchema.v
InfoBuilder.v
InfoBuckets.v
InfoView.v
InfoOps.v
InfoTables.v
InfoDiff.v
InfoSpec.v
InfoInit.v
SlowQuery.v
SlowQuerySpec.v
Schema.v
SchemaSpec.v
InfoLoad.v
InfoReload.v
InfoSafety.v
SchemaWitness.v
KvUnion.v
KvKey.v
MemArena.v
MemVlog.v
MemTree.v
MemTreeRep.v
MemTreeInsert.v
MemTreeDelete.v
Memdb.v
MemWalk.v
MemInv.v
MemSpec.v
MemRefine.v
MemCleanup.v
MemdbSpec.v
MemWitness.v
Interlock.v
InterlockExec.v
InterlockRuns.v
InterlockTopN.v
InterlockAgg.v
InterlockStore.v
InterlockScan.v
InterlockKeeps.v
InterlockDag.v
InterlockRange.v
InterlockSpec.v
InterlockQuery.v
InterlockWitness.v
