(* ===== verification/Prelude.v ===== *)
(** * MilevaDB: a verification library

    MilevaDB is a SQL database written in Go; the repository holds its storage
    side and part of its schema side.  This library models the parts that
    decide what is stored and what is read, and proves them correct:

    - the mock EinsteinDB server that transactions run against: a multi-version
      store over LevelDB, the regions that the store is divided into, the
      placement-driver client and the request handlers that tie them together;
    - the transaction side of the same protocol: the buffer that a transaction
      writes to, the union of that buffer with a snapshot, and the check that
      no schema changed under a transaction;
    - the information schema: the copy-on-write description of databases and
      tables that every transaction starts with, and the loader that keeps it
      at the version of the store and tells the check of each change;
    - two parts beside them: the cache of plan bindings, which every server
      loads from a system table, and the trackers that count memory.

    ** How the parts interact

    A client takes timestamps and looks regions up through [Fidel]; it sends a
    request to a store's address, [Rpc] checks the request against the region
    metadata of [Cluster] and runs the operation of [MvccOps] on the shared
    store, which encodes its records with [Marshal].  A transaction reads
    through the union store of [KvUnion], whose buffer is the [Memdb] buffer
    and whose snapshot is the store; before it commits, [Schema] decides
    whether the tables it touched have changed.  [InfoLoad] reads the metadata
    of a snapshot, builds the next replicant with [InfoBuilder], puts it into
    the handle and tells the validator of [Schema] which tables changed;
    [InfoSafety] is about the two together.  A query that is pushed down goes
    from [Rpc]'s client through [InterlockDag] to scans of the same store.

    ** Files

    - [Prelude]: byte strings in Go's order, machine integers, lemmas on lists,
      the hint database [mdb].
    - [External]: classes for the code that is not in the repository (the key
      codec, LevelDB, protobuf enum numbers, the oracle, the deadlock detector,
      the hash of the debug interface), each with a class of laws.
      [Concrete] has one instance of each.
    - Records and store, mockstore/mockeinsteindb/mvcc.go and
      mvcc_leveldb.go: [Marshal] (the binary format), [Mvcc] (versioned keys,
      decoders over an iterator), [MvccOps] (every operation of the stores);
      then the layers of the proofs: [MvccView] (a well-formed store as locks
      and versions), [MvccRead], [MvccScan], [MvccReverse] (reads),
      [MvccSpec] (the abstract store), [MvccTxn], [MvccLock], [MvccStatus]
      (with the resolution of locks), [MvccGC] (each operation against it), [MvccEffects],
      [MvccSafety] (what a transaction may rely on), [MvccProtocol] (the
      transition system of a store and its clients); [MvccExample] and
      [MvccWitness] are the concrete stores.
    - Cluster, mockeinsteindb/cluster.go and cluster_manipulate.go: [Cluster],
      with [ClusterRegions] and [ClusterSplit] on the partition of the key space into
      regions and their scans, and [ClusterWitness].
    - Requests, mockeinsteindb/rpc.go and errors.go: [Rpc], [RpcGuard]; the
      witnesses are in [ClusterWitness].  Placement driver, mockeinsteindb/fidel.go: [Fidel].
    - Schema validation, petri/schema_validator.go and schema_checker.go:
      [Schema], [SchemaSpec], [SchemaWitness].
    - Keys and union store, solomonkey/key.go, union_iter.go, union_store.go,
      iter.go, utils.go: [KvKey], [KvUnion], [MemWitness].
    - Transaction buffer: [MemArena] and [MemVlog] (causetstore/memdb_arena.go), [MemTree], [MemTreeRep], [MemTreeInsert],
      [MemTreeDelete] (the red-black tree of schemareplicant/memdb.go),
      [Memdb] (its operations, causetstore/memdb_iterator.go and
      spacetime/memdb_snapshot.go), [MemWalk] (walks and iterators), [MemInv] (the
      invariant), [MemSpec] (the abstract buffer), [MemRefine], [MemCleanup]
      (stages undone, iterators, snapshots), [MemdbSpec] (the theorems), [MemWitness].
    - Slow-query log, petri/topn_slow_query.go and petri.go: [GoHeap]
      (container/heap over any type with its five methods), [SlowQuery],
      [SlowQuerySpec], [SchemaWitness].
    - Pushed-down queries, mockeinsteindb/interlocking_directorate.go,
      topn.go, aggregate.go: [Interlock] (scans), [InterlockExec] (the other
      executors and the chains of them), [InterlockRuns] (what an executor
      yields, selections and limits), [InterlockTopN], [InterlockAgg],
      [InterlockStore] (the laws of the store that scans need, and that
      [MvccOps] has them), [InterlockScan] (what scans yield),
      [InterlockKeeps] (what a chain leaves alone).  Their requests and
      responses, mockeinsteindb/interlocking_handler_dag.go and rpc.go:
      [InterlockDag] (plans, responses, streams), [InterlockRange] (the ranges of
      a request, encoding, blocks, the commands and batches), [InterlockSpec] and
      [InterlockQuery] (the theorems), [InterlockWitness].
    - Information schema, schemareplicant/infoschema.go and builder.go:
      [GoMonad] (computations with a heap, slices that share arrays),
      [InfoSchema] (the replicant and its lookups), [InfoBuilder] (every
      change); [InfoBuckets] (sorted buckets), [InfoView] (what a replicant,
      in the heap or not, says, and the changes as functions of that), [InfoOps], [InfoTables], [InfoDiff] (the changes refine
      those of the view), [InfoSpec] (the identifiers that a change reports),
      [InfoInit] (a full load).
    - Loading it, petri/petri.go: [InfoLoad] (loads, reloads, the loop),
      [InfoReload] (what a load and a reload do), [InfoSafety] (the loader and the validator
      together).  The instances are in [SchemaWitness].
    - Plan bindings, spacetime/table/cache.go and handle.go: [Bind] (records, the
      cache, the handle over a session), [BindSpec] (what the cache holds after
      loads and changes, with the instance in [BindEx]).
    - Memory trackers, spacetime/table/util/mem/tracker.go and mmap.go: [Tracker],
      [TrackerTree] (the tree and its sums), [TrackerRun] ([Consume] as atomic
      steps of goroutines, examples).

    ** State and operations

    A Go object is a record of its fields and a method a function from the
    record to its results and the new record.  A method that can fail returns
    the sum [res] with the constructors of [External.goerror]; a panic is
    [None].  Objects that the code links by pointers or addresses (the nodes
    of the buffer, its value log, the replicants, databases and slices of the
    information schema) live in an explicit heap; two replicants may share what
    they point to, and a theorem that one is not changed is about that heap.  Every method of
    the store, the cluster, the validator, the buffer and the reload takes the lock of its
    object from entry to return, so an interleaving of calls is a sequence of
    them: [MvccProtocol] and [MemSpec] make that sequence explicit.  The order
    of a range over a Go map is an argument that is only known to enumerate
    the map.  Machine integers are [Z] with their wrap-around written out
    where a value can reach it.

    ** What the theorems show

    - Store: in every reachable store a transaction has at most one record on
      a key and none where it holds a lock; what a commit made durable stays;
      a read returns the newest version at or below its timestamp unless a lock
      blocks it, and no later commit, garbage collection or other transaction
      changes what a snapshot reads; prewrite applies all its mutations or
      none; commit, rollback and status checks refine the abstract store; scans
      in both directions equal point reads over the range; the binary format
      round-trips.
    - Cluster: splits, merges and range splits keep the regions a partition of
      the keys (the one that does not is among the findings), a key finds the
      region that owns it, a scan of regions returns exactly those that meet
      the range.
    - Requests: a region-checked command runs only where the guard allows it,
      and a read routed through the region metadata is answered with the
      store's read.  Timestamps of the placement driver increase.
    - Schema: where the lease is not zero, a transaction of an older schema that
      passes the check has touched no table that changed since it began; a failed
      check reports what changed; the retry loop ends, and the first decided
      check decides.
    - Union store: its iterators enumerate buffer over snapshot in key order,
      and agree with [Get].
    - Buffer: the arenas, the log and the tree refine a stack of maps with flags
      under every operation, a cleanup restores what its stage found, iterators
      and snapshots read that stack, the tree stays red-black with logarithmic
      search, allocations are disjoint.
    - Slow-query log: whatever its clients and the scheduler do, the heaps hold
      the slowest queries received and not expired; its goroutine panics only
      on a count that is negative as an [int].
    - Pushed-down queries: a table scan with a condition and a limit is answered
      with the rows that point reads of the keys of its ranges in the region
      give, in order; sent to all regions of a cluster, it reads each key of its
      ranges in exactly one of them, and each answers for its own keys; a
      top-N yields the first rows in the order of its keys, a hash
      aggregation one row per group in the order of their first rows; a stream
      serves the chunks of the response; a batch answers for every region or
      fails with the first error.
    - Information schema: a change of a replicant refines the change of what it
      says, reports the tables that are not the same, and leaves every published
      replicant as it was, whatever arrays and maps they share; a full load
      finds exactly the public tables of the metadata, or fails with the error of
      the metadata or of the constructor of a table; as long as etcd is told of
      every version, and with a lease that is not zero, when a check passes for a
      transaction of an older version, its tables are the same in the current
      replicant.  Two theorems show where that last fact fails: when etcd
      cannot be told of a version, and when the session with etcd is lost.
    - Plan bindings: a full load, and a load of the newer rows on top of an
      earlier one, give the bindings in force in the table, for every statement,
      database and text the newest row unless it is deleted, in tables where the
      rows of a binding have different times and different texts different hints;
      a change that fails
      leaves the cache alone, one that returns changes the bindings of its
      statement and database as it says.
    - Memory trackers: in every tree made by operations that keep to the rules of
      [TrackerTree.top_ok] and return, a tracker has consumed what was consumed
      through it and what its children have, modulo 2^64, and every such
      operation returns or ends with the panic of an action; goroutines that
      consume at the same time lose no update.

    ** Fuel and bounds

    Loops over a LevelDB iterator take as fuel the number of pairs of the
    store plus one: every turn consumes a pair ([MvccScan]).  Loops over the
    tree take the number of its nodes; [MemWalk], [MemTreeInsert] and
    [MemTreeDelete] show that it is enough, [traverse_logarithmic] that the
    search uses twice the logarithm.  The retries of the schema checker are
    the ten of the code.  No theorem assumes that a loop returns.
    The executors take fuel for the height of their chain and for each of
    their loops; [InterlockRuns.yields] asks for a result with any fuel from some
    amount on, and the theorems show that this amount exists, for the
    handler of a request as well.
    [Consume] and [SearchTracker] take the number of trackers, which no chain of
    ancestors exceeds ([TrackerTree]).
    The attempts of [mustReload] are the list of the worlds that they meet,
    [splitForConcurrentFetch] takes the number of databases plus one.

    ** Not modelled

    - I/O, logging, metrics, tracing and failpoints, and the opening and
      closing of databases.
    - Mutexes: see above.
    - The values, codecs, expressions and aggregate functions that the executors
      call, which are packages outside the repository, are classes of [Interlock];
      analyze.go and checksum.go build statistics with such packages.
    - entangledstore/: glue around the Unistore library.
    - petri/petri.go: the constructor, the session pool, and the goroutines that
      load privileges and bindings or update statistics from a timer, which only
      call packages outside the repository; [mustRestartSyncer], a retry loop
      around an etcd client, is an argument of the event that follows it.
    - schemareplicant/: the constructors of replicants for tests, and the
      registration of the tables of information_schema, whose databases are an
      argument of the load.
    - schemareplicant/tables.go, metric_table_def.go, metrics_schema.go and
      BerolinaSQL/: tables of constants, definitions of system tables and their row
      producers.
    - spacetime/: keys of meta data structures over packages that are not in
      the repository, interfaces and tables of a SQL engine; of the plan bindings
      their capture from the statements that ran and the evolution of plans,
      which measures running times; of the trackers their printing and the memory
      of the machine; dagger/: lock tables and test helpers over etcd. *)

From stdpp Require Import base gmap list sorting strings.
From Stdlib Require Import Strings.Byte ZArith Lia Sorted.

Create HintDb mdb.
Create Rewrite HintDb mdb.

(** ** Bytes and byte strings *)

(** A Go [byte] is one of the 256 constructors of [Byte.byte]; a Go [[]byte]
    is a list of them.  A [nil] slice and an empty one are both [[]]; the
    functions that tell them apart return an [option]. *)
Abbreviation bytes := (list byte).

#[export] Instance byte_eq_dec : EqDecision byte := Byte.byte_eq_dec.

Lemma byte_of_to_N (b : byte) : Byte.of_N (Byte.to_N b) = Some b.
Proof. apply Byte.of_to_N. Qed.

#[export] Instance byte_countable : Countable byte :=
  inj_countable Byte.to_N Byte.of_N byte_of_to_N.

(** [bytes.Compare] of the Go library: lexicographic order on byte values. *)
Fixpoint bytes_compare (a b : bytes) : comparison :=
  match a, b with
  | [], [] => Eq
  | [], _ :: _ => Lt
  | _ :: _, [] => Gt
  | x :: a', y :: b' =>
      match N.compare (Byte.to_N x) (Byte.to_N y) with
      | Eq => bytes_compare a' b'
      | c => c
      end
  end.

Definition blt (a b : bytes) : Prop := bytes_compare a b = Lt.
Definition ble (a b : bytes) : Prop := bytes_compare a b <> Gt.

Definition bltb (a b : bytes) : bool :=
  match bytes_compare a b with Lt => true | _ => false end.
Definition bleb (a b : bytes) : bool :=
  match bytes_compare a b with Gt => false | _ => true end.

Declare Scope bytes_scope.
Delimit Scope bytes_scope with bytes.
Infix "<b" := blt (at level 70) : bytes_scope.
Infix "<=b" := ble (at level 70) : bytes_scope.
Open Scope bytes_scope.

(** ** Machine integers *)

(** A Go [uint64] is a [Z] in [0, 2^64); its arithmetic wraps. *)
Definition u64_mod : Z := 18446744073709551616%Z.
Definition MaxUint64 : Z := 18446744073709551615%Z.
Definition u64 (z : Z) : Prop := (0 <= z < u64_mod)%Z.
Definition u64_wrap (z : Z) : Z := (z mod u64_mod)%Z.
Definition u64_add (a b : Z) : Z := u64_wrap (a + b).
Definition u64_sub (a b : Z) : Z := u64_wrap (a - b).

(** A signed integer of [w] bits from its unsigned reading. *)
Definition signed_of (w : Z) (z : Z) : Z :=
  if (z <? 2 ^ (w - 1))%Z then z else (z - 2 ^ w)%Z.

#[export] Instance u64_dec z : Decision (u64 z).
Proof. unfold u64. apply _. Defined.

(** A Go [int64] is a [Z] in [-2^63, 2^63); its arithmetic wraps. *)
Definition i64 (z : Z) : Prop := (-9223372036854775808 <= z < 9223372036854775808)%Z.
Definition i64_wrap (z : Z) : Z := signed_of 64 (u64_wrap z).

(** Equal as integers of 64 bits. *)
Definition eq64 (a b : Z) : Prop := (a mod u64_mod = b mod u64_mod)%Z.

Declare Scope int64_scope.
Delimit Scope int64_scope with int64.
Infix "≡64" := eq64 (at level 70) : int64_scope.
Open Scope int64_scope.

#[export] Instance eq64_equiv : Equivalence eq64.
Proof. unfold eq64. split; [done|by intros a b|intros a b c; congruence]. Qed.

#[export] Instance eq64_add : Proper (eq64 ==> eq64 ==> eq64) Z.add.
Proof. intros a a' Ha b b' Hb. unfold eq64 in *. by rewrite Z.add_mod, Ha, Hb, <- Z.add_mod. Qed.

#[export] Instance eq64_opp : Proper (eq64 ==> eq64) Z.opp.
Proof.
  intros a a' Ha. unfold eq64 in *. replace (- a)%Z with (0 - a)%Z by lia. replace (- a')%Z with (0 - a')%Z by lia.
  by rewrite Zminus_mod, Ha, <- Zminus_mod.
Qed.

#[export] Instance eq64_sub : Proper (eq64 ==> eq64 ==> eq64) Z.sub.
Proof. intros a a' Ha b b' Hb. unfold Z.sub. by rewrite Ha, Hb. Qed.

Lemma i64_wrap_eq64 z : i64_wrap z ≡64 z.
Proof.
  unfold eq64, i64_wrap, signed_of, u64_wrap. change (2 ^ 64)%Z with u64_mod.
  destruct (_ <? _)%Z; [by rewrite Z.mod_mod|]. rewrite Zminus_mod, Z.mod_same, Z.sub_0_r by done. by rewrite !Z.mod_mod.
Qed.

Lemma i64_wrap_i64 z : i64 (i64_wrap z).
Proof.
  unfold i64, i64_wrap, signed_of, u64_wrap. change (2 ^ 64)%Z with u64_mod. change (2 ^ (64 - 1))%Z with 9223372036854775808%Z.
  pose proof (Z.mod_pos_bound z u64_mod eq_refl) as B. unfold u64_mod in *.
  destruct (Z.ltb_spec (z mod 18446744073709551616) 9223372036854775808); lia.
Qed.

Lemma eq64_i64 a b : i64 a -> i64 b -> a ≡64 b -> a = b.
Proof.
  unfold i64, eq64, u64_mod. intros A B E. pose proof (Z.div_mod a 18446744073709551616 ltac:(lia)).
  pose proof (Z.div_mod b 18446744073709551616 ltac:(lia)). lia.
Qed.

Lemma i64_wrap_id z : i64 z -> i64_wrap z = z.
Proof. intros Hz. apply eq64_i64; [apply i64_wrap_i64|done|apply i64_wrap_eq64]. Qed.

Lemma i64_wrap_proper a b : a ≡64 b -> i64_wrap a = i64_wrap b.
Proof. intros E. apply eq64_i64; [apply i64_wrap_i64..|]. by rewrite !i64_wrap_eq64. Qed.

(** ** Results: the value or the error a Go function returns *)

Inductive result (E A : Type) : Type :=
| Ok (a : A)
| Err (e : E).
Arguments Ok {E A} _.
Arguments Err {E A} _.

#[export] Instance result_mret {E} : MRet (result E) := fun A a => Ok a.
#[export] Instance result_mbind {E} : MBind (result E) := fun A B f r =>
  match r with Ok a => f a | Err e => Err e end.
#[export] Instance result_fmap {E} : FMap (result E) := fun A B f r =>
  match r with Ok a => Ok (f a) | Err e => Err e end.

Definition ok_option {E A} (r : result E A) : option A :=
  match r with Ok a => Some a | Err _ => None end.

(** Run the binds of a [result] computation without unfolding anything else. *)
Ltac step_res := cbn [mbind result_mbind fmap result_fmap mret result_mret].

Ltac step_opt := cbn [mbind option_bind fmap option_fmap option_map].

(** ** Lemmas on the byte order *)

Lemma to_N_inj (x y : byte) : Byte.to_N x = Byte.to_N y -> x = y.
Proof.
  intros H. apply (f_equal Byte.of_N) in H.
  rewrite !byte_of_to_N in H. congruence.
Qed.

Lemma bytes_compare_refl (a : bytes) : bytes_compare a a = Eq.
Proof. induction a as [|x a IH]; simpl; [done|]. by rewrite N.compare_refl. Qed.

Lemma bytes_compare_eq (a b : bytes) : bytes_compare a b = Eq <-> a = b.
Proof.
  split; [|intros ->; apply bytes_compare_refl].
  revert b. induction a as [|x a IH]; intros [|y b] H; simpl in H; try done.
  destruct (N.compare_spec (Byte.to_N x) (Byte.to_N y)) as [E| |]; try done.
  apply to_N_inj in E as ->. f_equal. by apply IH.
Qed.

Lemma bytes_compare_antisym (a b : bytes) :
  bytes_compare b a = CompOpp (bytes_compare a b).
Proof.
  revert b. induction a as [|x a IH]; intros [|y b]; simpl; try done.
  rewrite (N.compare_antisym (Byte.to_N x) (Byte.to_N y)).
  destruct (N.compare _ _); simpl; auto.
Qed.

Lemma blt_irrefl (a : bytes) : ~ a <b a.
Proof. unfold blt. by rewrite bytes_compare_refl. Qed.

Lemma blt_trans (a b c : bytes) : a <b b -> b <b c -> a <b c.
Proof.
  unfold blt. revert b c. induction a as [|x a IH]; intros [|y b] [|z c] H1 H2;
    simpl in *; try done.
  destruct (N.compare_spec (Byte.to_N x) (Byte.to_N y)) as [E1|L1|]; try done;
  destruct (N.compare_spec (Byte.to_N y) (Byte.to_N z)) as [E2|L2|]; try done.
  - rewrite E1, E2, N.compare_refl. eauto.
  - rewrite E1. by apply N.compare_lt_iff in L2 as ->.
  - rewrite <- E2. by apply N.compare_lt_iff in L1 as ->.
  - assert (Byte.to_N x < Byte.to_N z)%N as L by lia.
    by apply N.compare_lt_iff in L as ->.
Qed.

#[export] Instance blt_strict : StrictOrder blt.
Proof. split; [intros a; apply blt_irrefl | intros a b c; apply blt_trans]. Qed.

Lemma bytes_compare_Lt (a b : bytes) : bytes_compare a b = Lt <-> a <b b.
Proof. done. Qed.

Lemma bytes_compare_Gt (a b : bytes) : bytes_compare a b = Gt <-> b <b a.
Proof.
  unfold blt. rewrite (bytes_compare_antisym a b).
  destruct (bytes_compare a b); simpl; split; congruence.
Qed.

(** Case analysis on a comparison in its three readings. *)
Lemma bytes_compare_spec (a b : bytes) :
  CompareSpec (a = b) (a <b b) (b <b a) (bytes_compare a b).
Proof.
  destruct (bytes_compare a b) eqn:E; constructor.
  - by apply bytes_compare_eq.
  - done.
  - by apply bytes_compare_Gt.
Qed.

Lemma ble_iff (a b : bytes) : a <=b b <-> a <b b \/ a = b.
Proof.
  unfold ble. destruct (bytes_compare_spec a b) as [->|H|H]; split; intros K;
    auto; try done.
  destruct K as [K| ->]; [|by apply blt_irrefl in H].
  exfalso. eapply blt_irrefl, blt_trans; eauto.
Qed.

Lemma not_blt (a b : bytes) : ~ a <b b <-> b <=b a.
Proof.
  unfold ble, blt. rewrite (bytes_compare_antisym a b).
  destruct (bytes_compare a b); simpl; intuition congruence.
Qed.

Lemma not_ble (a b : bytes) : ~ a <=b b <-> b <b a.
Proof.
  rewrite <- bytes_compare_Gt. unfold ble.
  destruct (bytes_compare a b); intuition congruence.
Qed.

Lemma ble_refl (a : bytes) : a <=b a.
Proof. apply ble_iff. by right. Qed.

Lemma ble_trans (a b c : bytes) : a <=b b -> b <=b c -> a <=b c.
Proof.
  rewrite !ble_iff. intros [H1| ->] [H2| ->]; auto.
  left. by eapply blt_trans.
Qed.

Lemma ble_blt_trans (a b c : bytes) : a <=b b -> b <b c -> a <b c.
Proof. rewrite ble_iff. intros [H| ->] K; [by eapply blt_trans|done]. Qed.

Lemma blt_ble_trans (a b c : bytes) : a <b b -> b <=b c -> a <b c.
Proof. rewrite ble_iff. intros H [K|K]; [by eapply blt_trans|by subst]. Qed.

Lemma blt_ble (a b : bytes) : a <b b -> a <=b b.
Proof. rewrite ble_iff. auto. Qed.

Lemma ble_antisym (a b : bytes) : a <=b b -> b <=b a -> a = b.
Proof.
  rewrite !ble_iff. intros [H|H] [K|K]; try congruence.
  exfalso. eapply blt_irrefl, blt_trans; eauto.
Qed.

Lemma blt_neq (a b : bytes) : a <b b -> a <> b.
Proof. intros H ->. by apply blt_irrefl in H. Qed.

Lemma nil_ble (a : bytes) : [] <=b a.
Proof. by destruct a. Qed.

Lemma nil_blt (a : bytes) : [] <b a <-> a <> [].
Proof. by destruct a. Qed.

Lemma bltb_spec (a b : bytes) : reflect (a <b b) (bltb a b).
Proof. unfold bltb, blt. destruct (bytes_compare a b); constructor; congruence. Qed.

Lemma bleb_spec (a b : bytes) : reflect (a <=b b) (bleb a b).
Proof. unfold bleb, ble. destruct (bytes_compare a b); constructor; congruence. Qed.

#[export] Instance blt_dec a b : Decision (a <b b).
Proof. unfold blt. apply _. Defined.
#[export] Instance ble_dec a b : Decision (a <=b b).
Proof. unfold ble. apply _. Defined.

#[export] Hint Resolve ble_refl blt_ble nil_ble : mdb.

(** ** Lists *)

Lemma list_filter_all {A} (P : A -> Prop) `{forall x, Decision (P x)} (l : list A) :
  (forall x, x ∈ l -> P x) -> filter P l = l.
Proof.
  induction l as [|x l IH]; intros F; [done|]. rewrite filter_cons, decide_True by (apply F; by left).
  f_equal. apply IH. intros y Hy. apply F. by right.
Qed.

Lemma list_filter_none {A} (P : A -> Prop) `{forall x, Decision (P x)} (l : list A) :
  (forall x, x ∈ l -> ~ P x) -> filter P l = [].
Proof.
  induction l as [|x l IH]; intros F; [done|]. rewrite filter_cons, decide_False by (apply F; by left).
  apply IH. intros y Hy. apply F. by right.
Qed.

Lemma list_filter_ext {A} (P Q : A -> Prop) `{forall x, Decision (P x)} `{forall x, Decision (Q x)}
    (l : list A) :
  (forall x, x ∈ l -> P x <-> Q x) -> filter P l = filter Q l.
Proof.
  induction l as [|x l IH]; intros F; [done|]. rewrite !filter_cons.
  rewrite IH by (intros y Hy; apply F; by right).
  assert (P x <-> Q x) as E by (apply F; by left). destruct (decide (P x)), (decide (Q x)); tauto.
Qed.

Lemma StronglySorted_filter {A} (R : A -> A -> Prop) (P : A -> Prop)
    `{forall x, Decision (P x)} (l : list A) :
  StronglySorted R l -> StronglySorted R (filter P l).
Proof.
  induction 1 as [|x l S IH F]; [constructor|].
  rewrite filter_cons. case_decide; [|done]. constructor; [done|].
  rewrite Forall_forall in F |- *. intros y Hy. apply list_elem_of_filter in Hy as [_ Hy].
  by apply F.
Qed.

Lemma filter_rev {A} (P : A -> Prop) `{forall x, Decision (P x)} (l : list A) :
  filter P (rev l) = rev (filter P l).
Proof.
  induction l as [|x l IH]; [done|]. cbn [rev]. rewrite filter_app, IH, !filter_cons, filter_nil.
  case_decide; cbn [rev]; [done|]. by rewrite app_nil_r.
Qed.

Lemma rev_bind {A B} (f : A -> list B) (l : list A) :
  rev (l ≫= f) = rev l ≫= (fun x => rev (f x)).
Proof.
  induction l as [|x l IH]; [done|]. cbn [mbind list_bind rev]. rewrite rev_app_distr, IH, bind_app.
  cbn [mbind list_bind]. by rewrite app_nil_r.
Qed.

Lemma StronglySorted_rev {A} (R : A -> A -> Prop) (l : list A) :
  StronglySorted R l -> StronglySorted (fun x y => R y x) (rev l).
Proof.
  induction 1 as [|x l S IH F]; [constructor|]. cbn [rev].
  rewrite Forall_forall in F.
  assert (forall y, In y l -> R x y) as F' by (intros y Hy; apply F; by apply list_elem_of_In).
  apply StronglySorted_app_2; [|done|repeat constructor].
  intros y z Hy Hz. apply list_elem_of_singleton in Hz as ->. apply F'.
  apply in_rev. by apply list_elem_of_In.
Qed.

Lemma elem_of_rev {A} (l : list A) x : x ∈ rev l <-> x ∈ l.
Proof. rewrite !list_elem_of_In. symmetry. apply in_rev. Qed.

(** Filtering an association list keeps its keys distinct. *)
Lemma NoDup_fst_filter {A B} (P : A * B -> Prop) `{forall x, Decision (P x)} (l : list (A * B)) :
  NoDup l.*1 -> NoDup (filter P l).*1.
Proof.
  induction l as [|p l IH]; [done|]. rewrite filter_cons, fmap_cons, NoDup_cons.
  intros [N ND]. case_decide; [|by apply IH]. rewrite fmap_cons. constructor; [|by apply IH].
  intros Hp. apply N. apply list_elem_of_fmap in Hp as (q & E & Hq). rewrite E.
  apply list_elem_of_filter in Hq as [_ Hq]. apply list_elem_of_fmap. eauto.
Qed.

(** A filter in two steps. *)
Lemma filter_both {A} (P Q R : A -> Prop) `{forall x, Decision (P x)} `{forall x, Decision (Q x)}
    `{forall x, Decision (R x)} (l : list A) :
  (forall x, R x <-> P x /\ Q x) -> filter R l = filter Q (filter P l).
Proof. intros E. rewrite list_filter_filter. apply list_filter_iff. intros x. rewrite E. tauto. Qed.

Lemma filter_none {A} (P : A -> Prop) `{forall x, Decision (P x)} (l : list A) :
  (forall x, x ∈ l -> ~ P x) -> filter P l = [].
Proof.
  induction l as [|x l IH]; intros N; [done|]. rewrite filter_cons_False by (apply N; left).
  apply IH. intros y Hy. apply N. by right.
Qed.

Lemma filter_every {A} (P : A -> Prop) `{forall x, Decision (P x)} (l : list A) :
  (forall x, x ∈ l -> P x) -> filter P l = l.
Proof.
  induction l as [|x l IH]; intros N; [done|]. rewrite filter_cons_True by (apply N; left).
  f_equal. apply IH. intros y Hy. apply N. by right.
Qed.

(** ** sort.Search

    The search of the Go library: the first index at which [f] holds. *)

Fixpoint search_loop (fuel i j : nat) (f : nat -> bool) : nat :=
  match fuel with
  | O => i
  | S fuel =>
      if decide (i < j)%nat then
        let h := ((i + j) / 2)%nat in
        if negb (f h) then search_loop fuel (S h) j f else search_loop fuel i h f
      else i
  end.

Definition sort_Search (n : nat) (f : nat -> bool) : nat := search_loop n 0 n f.

Lemma search_loop_spec f n : (forall a b, (a <= b < n)%nat -> f a = true -> f b = true) ->
  forall fuel i j, (j - i <= fuel)%nat -> (i <= j <= n)%nat ->
  (forall k, (k < i)%nat -> f k = false) -> (forall k, (j <= k < n)%nat -> f k = true) ->
  let r := search_loop fuel i j f in
  (r <= n)%nat /\ (forall k, (k < r)%nat -> f k = false) /\ (forall k, (r <= k < n)%nat -> f k = true).
Proof.
  intros Mono. induction fuel as [|fuel IH]; intros i j Lf Lj Lo Hi; cbn [search_loop].
  { assert (i = j) as -> by lia. split; [lia|]. auto. }
  case_decide as D; [|assert (i = j) as -> by lia; split; [lia|]; auto].
  pose proof (Nat.div_mod_eq (i + j) 2) as E. pose proof (Nat.mod_upper_bound (i + j) 2 ltac:(lia)) as U.
  set (h := ((i + j) / 2)%nat) in *. destruct (f h) eqn:Fh; cbn [negb].
  - apply IH; [lia|lia|done|]. intros k Hk. apply (Mono h k); [lia|done].
  - apply IH; [lia|lia| |done]. intros k Hk. destruct (f k) eqn:Fk; [|done].
    rewrite (Mono k h) in Fh; [done|lia|done].
Qed.

Lemma sort_Search_least n f : (forall a b, (a <= b < n)%nat -> f a = true -> f b = true) ->
  let r := sort_Search n f in
  (r <= n)%nat /\ (forall k, (k < r)%nat -> f k = false) /\ (forall k, (r <= k < n)%nat -> f k = true).
Proof. intros Mono. apply search_loop_spec; [done|lia|lia|lia|lia]. Qed.
