(* ===== verification/External.v ===== *)
(** * Interfaces of the code that is not in the repository

    The sources call a key codec, a LevelDB engine, the generated protobuf
    package [kvrpcpb], a timestamp oracle, a deadlock detector and a hash
    function whose code is not under src/.  Each is a class of operations;
    what the sources rely on is a second class of laws, stated from the
    documentation of the package.  [Concrete.v] gives an instance of every
    class, so that no law is vacuous. *)

From stdpp Require Import base gmap list strings.
From Stdlib Require Import Strings.Byte ZArith Lia Sorted.
From S2P Require Import Prelude.

(** ** Errors

    The error types of mockeinsteindb/errors.go, one constructor each.
    [errors.Trace] wraps an error and [errors.Cause] unwraps it: both are the
    identity here.  [ErrOther] is an error made from a message with
    [errors.New] or [errors.Errorf], [ErrExternal] one returned by a package
    outside the repository. *)
Inductive goerror : Type :=
| ErrLocked (Key Primary : bytes) (StartTS ForUFIDelateTS TTL TxnSize LockType : Z)
| ErrKeyAlreadyExist (Key : bytes)
| ErrRetryable (msg : string)
| ErrAbort (msg : string)
| ErrAlreadyCommitted (commitTS : Z)
| ErrAlreadyRollbacked (startTS : Z) (key : bytes)
| ErrConflict (StartTS ConflictTS ConflictCommitTS : Z) (Key : bytes)
| ErrDeadlock (LockTS : Z) (LockKey : bytes) (DealockKeyHash : Z)
| ErrCommitTSExpired (StartTs AttemptedCommitTs : Z) (Key : bytes) (MinCommitTs : Z)
| ErrTxnNotFound (StartTs : Z) (PrimaryKey : bytes)
| ErrOther (msg : string)
| ErrExternal (msg : string).

Abbreviation res := (result goerror).

(** ** The memory-comparable codec (soliton/codec)

    [EncodeBytes b d] appends an encoding of [d] to [b]; [DecodeBytes]
    returns the undecoded rest and the decoded bytes (its scratch-buffer
    argument is always [nil] in the sources). *)
Class Codec : Type := {
  EncodeBytes : bytes -> bytes -> bytes;
  DecodeBytes : bytes -> res (bytes * bytes);
  EncodeUintDesc : bytes -> Z -> bytes;
  DecodeUintDesc : bytes -> res (bytes * Z);
}.

(** The codec appends, decodes what it encoded and leaves the rest, compares
    like the encoded data (for [EncodeBytes] whatever follows) and, for
    [EncodeUintDesc], in the reverse order of the integers. *)
Class CodecLaws `{Codec} : Prop := {
  EncodeBytes_app b d : EncodeBytes b d = b ++ EncodeBytes [] d;
  EncodeUintDesc_app b v : EncodeUintDesc b v = b ++ EncodeUintDesc [] v;
  DecodeBytes_Encode d r : DecodeBytes (EncodeBytes [] d ++ r) = Ok (r, d);
  DecodeUintDesc_Encode v r :
    u64 v -> DecodeUintDesc (EncodeUintDesc [] v ++ r) = Ok (r, v);
  EncodeUintDesc_nonempty v : EncodeUintDesc [] v <> [];
  EncodeBytes_nonempty d : EncodeBytes [] d <> [];
  EncodeBytes_order d e r s :
    d <> e ->
    bytes_compare (EncodeBytes [] d ++ r) (EncodeBytes [] e ++ s) = bytes_compare d e;
  EncodeUintDesc_order v w :
    u64 v -> u64 w ->
    bytes_compare (EncodeUintDesc [] v) (EncodeUintDesc [] w) = Z.compare w v;
}.

(** ** LevelDB (goleveldb) *)

Inductive batch_op : Type :=
| BatchPut (key value : bytes)
| BatchDelete (key : bytes).

(** A [leveldb.Batch]: its records in the order they were added. *)
Abbreviation Batch := (list batch_op).

(** [NewIterator db start limit] lists the pairs of the snapshot of [db] with
    [start <= key < limit] that the iterator visits from first to last, with
    the error [iter.Error()] returns after the last one; an empty [start] or
    [limit] stands for the absent bound.  [Write] applies a batch. *)
Class LevelDB : Type := {
  DB : Type;
  NewIterator : DB -> bytes -> bytes -> list (bytes * bytes) * option goerror;
  DBGet : DB -> bytes -> res bytes;
  Write : DB -> Batch -> option goerror * DB;
}.

Definition in_range (start limit key : bytes) : Prop :=
  start <=b key /\ (limit = [] \/ key <b limit).

#[export] Instance in_range_dec s l k : Decision (in_range s l k).
Proof. unfold in_range. apply _. Defined.

Definition apply_op (m : gmap bytes bytes) (op : batch_op) : gmap bytes bytes :=
  match op with
  | BatchPut k v => <[k := v]> m
  | BatchDelete k => delete k m
  end.

(** The records of a batch take effect one after the other. *)
Definition apply_batch (b : Batch) (m : gmap bytes bytes) : gmap bytes bytes :=
  fold_left apply_op b m.

Definition pair_lt (p q : bytes * bytes) : Prop := p.1 <b q.1.

(** What an engine that reads and writes without I/O failures promises about
    the finite map [contents db]. *)
Class LevelDBLaws `{LevelDB} : Type := {
  contents : DB -> gmap bytes bytes;
  NewIterator_error db s l : (NewIterator db s l).2 = None;
  NewIterator_sorted db s l : StronglySorted pair_lt (NewIterator db s l).1;
  NewIterator_elem db s l k v :
    (k, v) ∈ (NewIterator db s l).1 <-> contents db !! k = Some v /\ in_range s l k;
  DBGet_ok db k v : DBGet db k = Ok v <-> contents db !! k = Some v;
  Write_ok db b : (Write db b).1 = None;
  Write_contents db b : contents (Write db b).2 = apply_batch b (contents db);
}.

(** ** kvrpcpb: the enum values the sources name *)

Class Kvrpcpb : Type := {
  Op_Put : Z; Op_Del : Z; Op_Lock : Z; Op_Rollback : Z; Op_Insert : Z;
  Op_PessimisticLock : Z; Op_CheckNotExists : Z;
  Assertion_NotExist : Z;
  IsolationLevel_SI : Z;
  CausetAction_NoCausetAction : Z;
  CausetAction_TTLExpireRollback : Z;
  CausetAction_LockNotExistRollback : Z;
  CausetAction_MinCommitTSPushed : Z;
}.

Definition int32 (z : Z) : Prop := (- 2 ^ 31 <= z < 2 ^ 31)%Z.

Class KvrpcpbLaws `{Kvrpcpb} : Prop := {
  Op_NoDup : NoDup [Op_Put; Op_Del; Op_Lock; Op_Rollback; Op_Insert;
                    Op_PessimisticLock; Op_CheckNotExists];
  Op_int32 : Forall int32 [Op_Put; Op_Del; Op_Lock; Op_Rollback; Op_Insert;
                    Op_PessimisticLock; Op_CheckNotExists];
  CausetAction_NoDup : NoDup [CausetAction_NoCausetAction;
    CausetAction_TTLExpireRollback; CausetAction_LockNotExistRollback;
    CausetAction_MinCommitTSPushed];
}.

(** ** Formatting: [%q] of a byte string, [%v] of an integer and of an [Op] *)

Class GoFmt : Type := {
  Quote : bytes -> string;
  FormatInt : Z -> string;
  OpString : Z -> string;
}.

(** ** Oracle, deadlock detector, hash *)

(** [oracle.ExtractPhysical] gives the physical part of a timestamp, an
    [int64]; [farm.Fingerprint64] hashes a key. *)
Class Oracle : Type := {
  ExtractPhysical : Z -> Z;
  Fingerprint64 : bytes -> Z;
}.

(** [Detect d txn wait hash] adds the wait-for edge and reports the key hash
    of a cycle; [CleanUp] forgets the edges of a transaction. *)
Class Deadlock : Type := {
  Detector : Type;
  NewDetector : Detector;
  Detect : Detector -> Z -> Z -> Z -> option Z * Detector;
  CleanUp : Detector -> Z -> Detector;
}.
