(* ===== verification/Marshal.v ===== *)
(** * Binary format of locks and values (mockeinsteindb/mvcc.go)

    [marshalHelper], the varint functions of encoding/binary it uses, and the
    [MarshalBinary]/[UnmarshalBinary] pairs of [mvccLock] and [mvccValue].  The
    helper carries an error field and every method returns at once when it is
    set: that is the bind of the [res] monad, which the model uses instead.
    The module shows that unmarshalling a marshalled record gives it back. *)

From stdpp Require Import base gmap list strings numbers.
From Stdlib Require Import Strings.Byte ZArith Lia.
From S2P Require Import Prelude External.
Open Scope Z_scope.

(** ** Data *)

(** [mvccValueType] is a Go [int] with four named values. *)
Definition typePut : Z := 0.
Definition typeDelete : Z := 1.
Definition typeRollback : Z := 2.
Definition typeLock : Z := 3.

Record mvccValue : Type := MkValue {
  val_valueType : Z;
  val_startTS : Z;
  val_commitTS : Z;
  val_value : bytes;
}.

Record mvccLock : Type := MkLock {
  lock_startTS : Z;
  lock_primary : bytes;
  lock_value : bytes;
  lock_op : Z;
  lock_ttl : Z;
  lock_forUFIDelateTS : Z;
  lock_txnSize : Z;
  lock_minCommitTS : Z;
}.

#[export] Instance mvccValue_eq_dec : EqDecision mvccValue.
Proof. solve_decision. Defined.
#[export] Instance mvccLock_eq_dec : EqDecision mvccLock.
Proof. solve_decision. Defined.

(** ** encoding/binary *)

Definition byte_of_Z (z : Z) : byte :=
  match Byte.of_N (Z.to_N (z mod 256)) with Some b => b | None => x00 end.
Definition byte_to_Z (b : byte) : Z := Z.of_N (Byte.to_N b).

(** The [n] little-endian bytes of an integer, and back. *)
Fixpoint le_bytes (n : nat) (z : Z) : bytes :=
  match n with
  | O => []
  | S n' => byte_of_Z z :: le_bytes n' (z / 256)
  end.

Fixpoint le_Z (l : bytes) : Z :=
  match l with
  | [] => 0
  | b :: l' => byte_to_Z b + 256 * le_Z l'
  end.

(** [binary.MaxVarintLen64], [binary.PutUvarint] and [binary.ReadUvarint]. *)
Definition MaxVarintLen64 : nat := 10.

Fixpoint PutUvarint_loop (fuel : nat) (x : Z) : bytes :=
  match fuel with
  | O => [byte_of_Z x]
  | S fuel' =>
      if 128 <=? x
      then byte_of_Z (Z.lor (x mod 256) 128) :: PutUvarint_loop fuel' (Z.shiftr x 7)
      else [byte_of_Z x]
  end.

Definition PutUvarint (x : Z) : bytes := PutUvarint_loop (MaxVarintLen64 - 1) x.

(** [i] counts the bytes read, [s] is the shift [7 * i]. *)
Fixpoint ReadUvarint_loop (fuel : nat) (i s x : Z) (r : bytes) : res (Z * bytes) :=
  match fuel with
  | O => Err (ErrExternal "binary: varint overflows a 64-bit integer")
  | S fuel' =>
      match r with
      | [] => Err (ErrExternal "EOF")
      | b :: r' =>
          if byte_to_Z b <? 128
          then if (i =? 9) && (1 <? byte_to_Z b)
               then Err (ErrExternal "binary: varint overflows a 64-bit integer")
               else Ok (Z.lor x (Z.shiftl (byte_to_Z b) s), r')
          else ReadUvarint_loop fuel' (i + 1) (s + 7)
                 (Z.lor x (Z.shiftl (Z.land (byte_to_Z b) 127) s)) r'
      end
  end.

Definition ReadUvarint (r : bytes) : res (Z * bytes) :=
  ReadUvarint_loop MaxVarintLen64 0 0 0 r.

(** ** marshalHelper *)

(** [bytes.Buffer.Write] appends everything and reports no error. *)
Definition buffer_Write (w p : bytes) : bytes * nat * option goerror :=
  (w ++ p, length p, None).

Fixpoint writeFull_loop (fuel : nat) (w slice : bytes) (written : nat) : res bytes :=
  if decide (written < length slice)%nat then
    match fuel with
    | O => Err (ErrOther "out of fuel")
    | S fuel' =>
        match buffer_Write w (drop written slice) with
        | (_, _, Some err) => Err err
        | (w', n, None) => writeFull_loop fuel' w' slice (written + n)
        end
    end
  else Ok w.

Definition writeFull (w slice : bytes) : res bytes :=
  writeFull_loop (S (length slice)) w slice 0.

Definition WriteSlice (buf slice : bytes) : res bytes :=
  buf ← writeFull buf (PutUvarint (Z.of_nat (length slice)));
  writeFull buf slice.

(** [binary.Write] of an integer of [n] bytes. *)
Definition WriteNumber (n : nat) (buf : bytes) (z : Z) : res bytes :=
  Ok (buf ++ le_bytes n z).

(** [io.ReadFull] of [n] bytes from the buffer. *)
Definition ReadFull (r : bytes) (n : nat) : res (bytes * bytes) :=
  if decide (length r < n)%nat then Err (ErrExternal "unexpected EOF")
  else Ok (take n r, drop n r).

(** [binary.Read] of an unsigned integer of [n] bytes. *)
Definition ReadNumber (n : nat) (r : bytes) : res (Z * bytes) :=
  '(data, r) ← ReadFull r n;
  Ok (le_Z data, r).

(** [binary.Read] of a signed integer of [n] bytes. *)
Definition ReadSigned (n : nat) (r : bytes) : res (Z * bytes) :=
  '(z, r) ← ReadNumber n r;
  Ok (signed_of (8 * Z.of_nat n) z, r).

Definition c10M : Z := 10 * 1024 * 1024.

Definition ReadSlice (r : bytes) : res (bytes * bytes) :=
  '(sz, r) ← ReadUvarint r;
  if c10M <? sz
  then Err (ErrOther "too large slice, maybe something wrong")
  else ReadFull r (Z.to_nat sz).

(** ** MarshalBinary and UnmarshalBinary *)

Definition lock_MarshalBinary (l : mvccLock) : res bytes :=
  buf ← WriteNumber 8 [] (lock_startTS l);
  buf ← WriteSlice buf (lock_primary l);
  buf ← WriteSlice buf (lock_value l);
  buf ← WriteNumber 4 buf (lock_op l);
  buf ← WriteNumber 8 buf (lock_ttl l);
  buf ← WriteNumber 8 buf (lock_forUFIDelateTS l);
  buf ← WriteNumber 8 buf (lock_txnSize l);
  WriteNumber 8 buf (lock_minCommitTS l).

Definition lock_UnmarshalBinary (data : bytes) : res mvccLock :=
  '(startTS, buf) ← ReadNumber 8 data;
  '(primary, buf) ← ReadSlice buf;
  '(value, buf) ← ReadSlice buf;
  '(op, buf) ← ReadSigned 4 buf;
  '(ttl, buf) ← ReadNumber 8 buf;
  '(forUFIDelateTS, buf) ← ReadNumber 8 buf;
  '(txnSize, buf) ← ReadNumber 8 buf;
  '(minCommitTS, buf) ← ReadNumber 8 buf;
  Ok (MkLock startTS primary value op ttl forUFIDelateTS txnSize minCommitTS).

Definition value_MarshalBinary (v : mvccValue) : res bytes :=
  buf ← WriteNumber 8 [] (val_valueType v);
  buf ← WriteNumber 8 buf (val_startTS v);
  buf ← WriteNumber 8 buf (val_commitTS v);
  WriteSlice buf (val_value v).

Definition value_UnmarshalBinary (data : bytes) : res mvccValue :=
  '(vt, buf) ← ReadSigned 8 data;
  '(startTS, buf) ← ReadNumber 8 buf;
  '(commitTS, buf) ← ReadNumber 8 buf;
  '(value, buf) ← ReadSlice buf;
  Ok (MkValue vt startTS commitTS value).

(** ** Records the format can hold *)

Definition small (s : bytes) : Prop := Z.of_nat (length s) <= c10M.

Definition int64 (z : Z) : Prop := (- 2 ^ 63 <= z < 2 ^ 63).

Record lock_ok (l : mvccLock) : Prop := {
  lock_ok_startTS : u64 (lock_startTS l);
  lock_ok_primary : small (lock_primary l);
  lock_ok_value : small (lock_value l);
  lock_ok_op : int32 (lock_op l);
  lock_ok_ttl : u64 (lock_ttl l);
  lock_ok_forUFIDelateTS : u64 (lock_forUFIDelateTS l);
  lock_ok_txnSize : u64 (lock_txnSize l);
  lock_ok_minCommitTS : u64 (lock_minCommitTS l);
}.

Record value_ok (v : mvccValue) : Prop := {
  value_ok_valueType : int64 (val_valueType v);
  value_ok_startTS : u64 (val_startTS v);
  value_ok_commitTS : u64 (val_commitTS v);
  value_ok_value : small (val_value v);
}.

(** ** Little-endian integers *)

Lemma byte_to_Z_range (b : byte) : 0 <= byte_to_Z b < 256.
Proof. unfold byte_to_Z. pose proof (Byte.to_N_bounded b). lia. Qed.

Lemma byte_to_of_Z (z : Z) : byte_to_Z (byte_of_Z z) = z mod 256.
Proof.
  unfold byte_to_Z, byte_of_Z.
  pose proof (Z.mod_pos_bound z 256 ltac:(lia)) as R.
  destruct (Byte.of_N (Z.to_N (z mod 256))) as [b|] eqn:E.
  - apply Byte.to_of_N in E. rewrite E. lia.
  - apply Byte.of_N_None_iff in E. lia.
Qed.

Lemma length_le_bytes n z : length (le_bytes n z) = n.
Proof. revert z. induction n; intros; simpl; auto. Qed.

Lemma le_Z_le_bytes n z : le_Z (le_bytes n z) = z mod 2 ^ (8 * Z.of_nat n).
Proof.
  revert z. induction n as [|n IH]; intros z.
  - simpl. by rewrite Z.mod_1_r.
  - cbn [le_bytes le_Z]. rewrite byte_to_of_Z, IH.
    replace (8 * Z.of_nat (S n)) with (8 + 8 * Z.of_nat n) by lia.
    rewrite Z.pow_add_r, Z.rem_mul_r by lia.
    change (2 ^ 8) with 256. lia.
Qed.

Lemma signed_of_mod w z :
  0 < w -> - 2 ^ (w - 1) <= z < 2 ^ (w - 1) -> signed_of w (z mod 2 ^ w) = z.
Proof.
  intros Hw R. unfold signed_of.
  assert (2 ^ w = 2 * 2 ^ (w - 1)) as E.
  { replace w with (1 + (w - 1)) at 1 by lia. rewrite Z.pow_add_r by lia. lia. }
  destruct (decide (0 <= z)) as [P|N].
  - rewrite Z.mod_small by lia. destruct (Z.ltb_spec z (2 ^ (w - 1))); lia.
  - replace (z mod 2 ^ w) with (z + 2 ^ w).
    + destruct (Z.ltb_spec (z + 2 ^ w) (2 ^ (w - 1))); lia.
    + apply (Z.mod_unique_pos _ _ (-1)); lia.
Qed.

(** ** Round trips of the helper's methods *)

Lemma writeFull_buffer w slice : writeFull w slice = Ok (w ++ slice).
Proof.
  unfold writeFull. destruct slice as [|x s].
  - simpl. by rewrite app_nil_r.
  - cbn -[length Nat.add]. rewrite decide_True by (simpl; lia).
    destruct (length (x :: s)) eqn:E; [done|]. simpl in E.
    cbn -[length Nat.add]. rewrite decide_False by (simpl; lia). done.
Qed.

Lemma lor_shiftl_add x y s :
  0 <= s -> 0 <= x < 2 ^ s -> 0 <= y -> Z.lor x (Z.shiftl y s) = x + y * 2 ^ s.
Proof.
  intros Hs Hx Hy. rewrite <- Z.shiftl_mul_pow2 by done.
  assert (Z.land x (Z.shiftl y s) = 0) as D.
  { apply Z.bits_inj'. intros n Hn. rewrite Z.land_spec, Z.bits_0.
    destruct (decide (n < s)) as [L|G].
    - rewrite Z.shiftl_spec_low by done. by rewrite andb_false_r.
    - rewrite (Z.bounded_iff_bits_nonneg s x) in Hx by lia.
      rewrite (proj2 Hx n) by lia. done. }
  rewrite Z.add_nocarry_lxor by done. symmetry. by apply Z.lxor_lor.
Qed.

Lemma byte_of_cont_byte x :
  0 <= x -> byte_to_Z (byte_of_Z (Z.lor (x mod 256) 128)) = 128 + x mod 128.
Proof.
  intros Hx. rewrite byte_to_of_Z.
  assert (x mod 128 = (x mod 256) mod 128) as ->.
  { rewrite <- (Z.mod_mod_divide x 256 128); [done|]. by exists 2. }
  pose proof (Z.mod_pos_bound x 256 ltac:(lia)) as R. revert R.
  generalize (x mod 256) as y. intros y R.
  assert (forall n : nat, (n < 256)%nat ->
    Z.lor (Z.of_nat n) 128 mod 256 = 128 + Z.of_nat n mod 128) as A.
  { intros n Hn. do 256 (destruct n as [|n]; [reflexivity|]). lia. }
  rewrite <- (Z2Nat.id y) by lia. apply A. lia.
Qed.

Lemma land_cont_byte m : 0 <= m < 128 -> Z.land (128 + m) 127 = m.
Proof.
  intros R. change 127 with (Z.ones 7). rewrite Z.land_ones by lia.
  change (2 ^ 7) with 128. rewrite <- (Z.mod_small m 128) at 2 by lia.
  rewrite Z.add_mod by lia. change (128 mod 128) with 0.
  rewrite Z.add_0_l. apply Z.mod_mod. lia.
Qed.

Lemma ReadUvarint_loop_cons k i s x b r :
  ReadUvarint_loop (S k) i s x (b :: r) =
    if byte_to_Z b <? 128
    then if (i =? 9) && (1 <? byte_to_Z b)
         then Err (ErrExternal "binary: varint overflows a 64-bit integer")
         else Ok (Z.lor x (Z.shiftl (byte_to_Z b) s), r)
    else ReadUvarint_loop k (i + 1) (s + 7)
           (Z.lor x (Z.shiftl (Z.land (byte_to_Z b) 127) s)) r.
Proof. done. Qed.

(** Reading after [i] bytes with accumulator [x] what [PutUvarint] wrote for
    the remaining value [v]. *)
Lemma ReadUvarint_PutUvarint_loop (k : nat) x v r :
  (k <= 9)%nat ->
  let i := 9 - Z.of_nat k in
  0 <= x < 2 ^ (7 * i) -> 0 <= v < 2 ^ (64 - 7 * i) ->
  ReadUvarint_loop (S k) i (7 * i) x (PutUvarint_loop k v ++ r)
  = Ok (x + v * 2 ^ (7 * i), r).
Proof.
  revert x v. induction k as [|k IH]; intros x v Hk i Hx Hv; subst i.
  - simpl Z.of_nat in *. cbn [PutUvarint_loop app ReadUvarint_loop].
    change (9 - 0) with 9 in *. change (64 - 7 * 9) with 1 in Hv.
    rewrite byte_to_of_Z, Z.mod_small by lia.
    destruct (Z.ltb_spec v 128); [|lia].
    destruct (Z.ltb_spec 1 v); [lia|]. simpl andb. cbv iota.
    rewrite lor_shiftl_add by lia. done.
  - cbn [PutUvarint_loop]. set (i := 9 - Z.of_nat (S k)) in *.
    assert (0 <= i < 9) as Hi by lia.
    destruct (Z.leb_spec 128 v) as [L|L].
    + change ((?b :: ?l) ++ r) with (b :: (l ++ r)).
      rewrite ReadUvarint_loop_cons, byte_of_cont_byte by lia.
      pose proof (Z.mod_pos_bound v 128 ltac:(lia)) as M.
      destruct (Z.ltb_spec (128 + v mod 128) 128); [lia|].
      rewrite land_cont_byte, lor_shiftl_add by lia.
      replace (i + 1) with (9 - Z.of_nat k) by lia.
      replace (7 * i + 7) with (7 * (9 - Z.of_nat k)) by lia.
      assert (2 ^ (7 * (9 - Z.of_nat k)) = 2 ^ (7 * i) * 128) as E.
      { replace (7 * (9 - Z.of_nat k)) with (7 * i + 7) by lia.
        rewrite Z.pow_add_r by lia. done. }
      assert (2 ^ (64 - 7 * i) = 2 ^ (64 - 7 * (9 - Z.of_nat k)) * 128) as E'.
      { replace (64 - 7 * i) with ((64 - 7 * (9 - Z.of_nat k)) + 7) by lia.
        rewrite Z.pow_add_r by lia. done. }
      assert (Z.shiftr v 7 = v / 128) as Sh by (by rewrite Z.shiftr_div_pow2).
      assert (0 < 2 ^ (7 * i)) by (apply Z.pow_pos_nonneg; lia).
      rewrite Sh, IH; [|lia| |].
      * rewrite E. f_equal. f_equal.
        rewrite (Z.div_mod v 128) at 3 by lia. nia.
      * rewrite E. nia.
      * split; [apply Z.div_pos; lia|]. apply Z.div_lt_upper_bound; lia.
    + simpl app. rewrite ReadUvarint_loop_cons.
      rewrite byte_to_of_Z, Z.mod_small by lia.
      destruct (Z.ltb_spec v 128); [|lia].
      destruct (Z.eqb_spec i 9); [lia|]. simpl andb. cbv iota.
      rewrite lor_shiftl_add by lia. done.
Qed.

Lemma ReadUvarint_PutUvarint v r : u64 v -> ReadUvarint (PutUvarint v ++ r) = Ok (v, r).
Proof.
  intros Hv. unfold u64, u64_mod in Hv.
  etransitivity; [apply (ReadUvarint_PutUvarint_loop 9 0 v r); simpl; lia|].
  f_equal. f_equal. simpl. lia.
Qed.

Lemma ReadFull_app a r : ReadFull (a ++ r) (length a) = Ok (a, r).
Proof.
  unfold ReadFull. rewrite length_app, decide_False by lia.
  by rewrite take_app_length, drop_app_length.
Qed.

Lemma ReadSlice_WriteSlice s r :
  small s ->
  ReadSlice (PutUvarint (Z.of_nat (length s)) ++ s ++ r) = Ok (s, r).
Proof.
  intros Hs. unfold ReadSlice, small, c10M in *.
  rewrite ReadUvarint_PutUvarint by (unfold u64, u64_mod; lia). step_res.
  destruct (Z.ltb_spec (10 * 1024 * 1024) (Z.of_nat (length s))); [lia|].
  by rewrite Nat2Z.id, ReadFull_app.
Qed.

Lemma ReadNumber_WriteNumber n z r :
  ReadNumber n (le_bytes n z ++ r) = Ok (z mod 2 ^ (8 * Z.of_nat n), r).
Proof.
  unfold ReadNumber. pose proof (ReadFull_app (le_bytes n z) r) as E.
  rewrite length_le_bytes in E. rewrite E. step_res. by rewrite le_Z_le_bytes.
Qed.

Lemma ReadNumber_u64 z r : u64 z -> ReadNumber 8 (le_bytes 8 z ++ r) = Ok (z, r).
Proof.
  intros Hz. rewrite ReadNumber_WriteNumber, Z.mod_small; [done|].
  unfold u64, u64_mod in Hz. simpl. lia.
Qed.

Lemma ReadSigned_WriteNumber n z r :
  (0 < n)%nat ->
  - 2 ^ (8 * Z.of_nat n - 1) <= z < 2 ^ (8 * Z.of_nat n - 1) ->
  ReadSigned n (le_bytes n z ++ r) = Ok (z, r).
Proof.
  intros Hn R. unfold ReadSigned. rewrite ReadNumber_WriteNumber. step_res.
  by rewrite signed_of_mod by lia.
Qed.

Lemma WriteSlice_app buf s :
  WriteSlice buf s = Ok (buf ++ PutUvarint (Z.of_nat (length s)) ++ s).
Proof.
  unfold WriteSlice. rewrite writeFull_buffer. step_res.
  by rewrite writeFull_buffer, app_assoc.
Qed.

(** ** The marshalled bytes *)

Definition slice_bytes (s : bytes) : bytes := PutUvarint (Z.of_nat (length s)) ++ s.

Definition lock_bytes (l : mvccLock) : bytes :=
  le_bytes 8 (lock_startTS l) ++ slice_bytes (lock_primary l) ++
  slice_bytes (lock_value l) ++ le_bytes 4 (lock_op l) ++ le_bytes 8 (lock_ttl l) ++
  le_bytes 8 (lock_forUFIDelateTS l) ++ le_bytes 8 (lock_txnSize l) ++
  le_bytes 8 (lock_minCommitTS l).

Definition value_bytes (v : mvccValue) : bytes :=
  le_bytes 8 (val_valueType v) ++ le_bytes 8 (val_startTS v) ++
  le_bytes 8 (val_commitTS v) ++ slice_bytes (val_value v).

Lemma lock_MarshalBinary_ok l : lock_MarshalBinary l = Ok (lock_bytes l).
Proof.
  unfold lock_MarshalBinary, WriteNumber, lock_bytes, slice_bytes. step_res.
  rewrite WriteSlice_app. step_res. rewrite WriteSlice_app. step_res.
  by rewrite <- !app_assoc, app_nil_l.
Qed.

Lemma value_MarshalBinary_ok v : value_MarshalBinary v = Ok (value_bytes v).
Proof.
  unfold value_MarshalBinary, WriteNumber, value_bytes, slice_bytes. step_res.
  by rewrite WriteSlice_app, <- !app_assoc, app_nil_l.
Qed.

Lemma lock_Unmarshal_bytes l : lock_ok l -> lock_UnmarshalBinary (lock_bytes l) = Ok l.
Proof.
  intros [H1 H2 H3 H4 H5 H6 H7 H8]. unfold lock_UnmarshalBinary, lock_bytes, slice_bytes.
  rewrite ReadNumber_u64 by done. step_res. rewrite <- !app_assoc.
  rewrite ReadSlice_WriteSlice by done. step_res.
  rewrite ReadSlice_WriteSlice by done. step_res.
  rewrite ReadSigned_WriteNumber by (done || lia). step_res.
  do 3 (rewrite ReadNumber_u64 by done; step_res).
  rewrite <- (app_nil_r (le_bytes 8 (lock_minCommitTS l))).
  rewrite ReadNumber_u64 by done. step_res. by destruct l.
Qed.

Lemma value_Unmarshal_bytes v : value_ok v -> value_UnmarshalBinary (value_bytes v) = Ok v.
Proof.
  intros [H1 H2 H3 H4]. unfold value_UnmarshalBinary, value_bytes, slice_bytes.
  rewrite ReadSigned_WriteNumber by (done || lia). step_res.
  do 2 (rewrite ReadNumber_u64 by done; step_res).
  rewrite <- (app_nil_r (_ ++ val_value v)), <- app_assoc.
  rewrite ReadSlice_WriteSlice by done. step_res. by destruct v.
Qed.

#[export] Hint Rewrite lock_MarshalBinary_ok value_MarshalBinary_ok : mdb.

(** C34: Locks and versions survive the store: [UnmarshalBinary] of what
    [MarshalBinary] wrote gives the record back, for every record whose fields
    fit their types and whose slices hold at most [c10M] bytes. *)
Theorem records_roundtrip l v :
  lock_ok l -> value_ok v ->
  (exists data, lock_MarshalBinary l = Ok data /\ lock_UnmarshalBinary data = Ok l) /\
  (exists data, value_MarshalBinary v = Ok data /\ value_UnmarshalBinary data = Ok v).
Proof.
  intros Hl Hv. split.
  - exists (lock_bytes l). by rewrite lock_MarshalBinary_ok, lock_Unmarshal_bytes.
  - exists (value_bytes v). by rewrite value_MarshalBinary_ok, value_Unmarshal_bytes.
Qed.
