(* ===== verification/Concrete.v ===== *)
(** * Concrete instances of the external interfaces

    One executable instance of every class of [External], with its laws: an
    escaping key codec, an in-memory ordered store, the protobuf enum numbers,
    an oracle that drops the logical bits, and a deadlock detector that keeps
    its wait-for edges.  The witnesses of the development run on them. *)

From stdpp Require Import base gmap list sorting strings pretty.
From Stdlib Require Import Strings.Byte ZArith Lia Sorted.
From S2P Require Import Prelude External Marshal.
Open Scope Z_scope.

(** ** Codec *)

(** Every byte is preceded by 1 and the end is marked by 0. *)
Fixpoint escape (d : bytes) : bytes :=
  match d with
  | [] => [x00]
  | b :: d' => x01 :: b :: escape d'
  end.

Fixpoint unescape (b : bytes) : res (bytes * bytes) :=
  match b with
  | x00 :: r => Ok (r, [])
  | x01 :: c :: r => '(rest, d) ← unescape r; Ok (rest, c :: d)
  | _ => Err (ErrExternal "invalid encoded bytes")
  end.

Fixpoint be_bytes (n : nat) (z : Z) : bytes :=
  match n with
  | O => []
  | S n' => byte_of_Z (z / 256 ^ Z.of_nat n') :: be_bytes n' z
  end.

Fixpoint be_Z (bs : bytes) (acc : Z) : Z :=
  match bs with
  | [] => acc
  | b :: bs' => be_Z bs' (256 * acc + byte_to_Z b)
  end.

#[export] Instance concrete_codec : Codec := {
  EncodeBytes b d := b ++ escape d;
  DecodeBytes := unescape;
  EncodeUintDesc b v := b ++ be_bytes 8 (MaxUint64 - v);
  DecodeUintDesc b :=
    if decide (8 <= length b)%nat
    then Ok (drop 8 b, MaxUint64 - be_Z (take 8 b) 0)
    else Err (ErrExternal "insufficient bytes to decode value");
}.

Lemma unescape_escape d r : unescape (escape d ++ r) = Ok (r, d).
Proof. induction d as [|b d IH]; [done|]. cbn [escape app unescape]. by rewrite IH. Qed.

Lemma escape_order d e r s :
  d <> e -> bytes_compare (escape d ++ r) (escape e ++ s) = bytes_compare d e.
Proof.
  revert e. induction d as [|b d IH]; intros [|c e] N; try done.
  cbn [escape app bytes_compare]. rewrite N.compare_refl.
  destruct (N.compare_spec (Byte.to_N b) (Byte.to_N c)) as [E| |]; try done.
  apply IH. apply to_N_inj in E. congruence.
Qed.

Lemma length_be_bytes n z : length (be_bytes n z) = n.
Proof. induction n; simpl; congruence. Qed.

Lemma be_Z_be_bytes n z acc :
  be_Z (be_bytes n z) acc = acc * 256 ^ Z.of_nat n + z mod 256 ^ Z.of_nat n.
Proof.
  revert acc. induction n as [|n IH]; intros acc; cbn [be_bytes be_Z].
  - rewrite Z.mod_1_r. lia.
  - rewrite IH, byte_to_of_Z, Nat2Z.inj_succ, Z.pow_succ_r by lia.
    pose proof (Z.pow_pos_nonneg 256 (Z.of_nat n) ltac:(lia) ltac:(lia)).
    rewrite (Z.mul_comm 256 (256 ^ _)), Z.rem_mul_r by lia. ring.
Qed.

Lemma byte_compare_Z a b :
  (Byte.to_N a ?= Byte.to_N b)%N = (byte_to_Z a ?= byte_to_Z b).
Proof. unfold byte_to_Z. by rewrite N2Z.inj_compare. Qed.

Lemma be_bytes_order n a b :
  0 <= a < 256 ^ Z.of_nat n -> 0 <= b < 256 ^ Z.of_nat n ->
  bytes_compare (be_bytes n a) (be_bytes n b) = (a ?= b).
Proof.
  intros Ha Hb.
  enough (forall m, bytes_compare (be_bytes m a) (be_bytes m b) =
            (a mod 256 ^ Z.of_nat m ?= b mod 256 ^ Z.of_nat m)) as E.
  { rewrite E, !Z.mod_small by done. done. }
  clear. induction m as [|m IH]; cbn [be_bytes bytes_compare].
  - by rewrite !Z.mod_1_r.
  - rewrite byte_compare_Z, !byte_to_of_Z, IH, Nat2Z.inj_succ, Z.pow_succ_r by lia.
    pose proof (Z.pow_pos_nonneg 256 (Z.of_nat m) ltac:(lia) ltac:(lia)) as P.
    set (p := 256 ^ Z.of_nat m) in *.
    rewrite (Z.mul_comm 256 p), !Z.rem_mul_r by lia.
    pose proof (Z.mod_pos_bound a p P). pose proof (Z.mod_pos_bound b p P).
    destruct (Z.compare_spec ((a / p) mod 256) ((b / p) mod 256)) as [E|L|L].
    + rewrite E. destruct (Z.compare_spec (a mod p) (b mod p)); symmetry.
      * apply Z.compare_eq_iff. lia.
      * apply Z.compare_lt_iff. lia.
      * apply Z.compare_gt_iff. lia.
    + symmetry. apply Z.compare_lt_iff. nia.
    + symmetry. apply Z.compare_gt_iff. nia.
Qed.

#[export] Instance concrete_codec_laws : CodecLaws.
Proof.
  split; cbn [EncodeBytes DecodeBytes EncodeUintDesc DecodeUintDesc concrete_codec app].
  - done.
  - done.
  - apply unescape_escape.
  - intros v r Hv. rewrite length_app, length_be_bytes, decide_True by lia.
    rewrite drop_app_length', take_app_length' by by rewrite length_be_bytes.
    rewrite be_Z_be_bytes, Z.mod_small; [f_equal; f_equal; lia|].
    unfold u64, u64_mod, MaxUint64 in *. change (256 ^ Z.of_nat 8) with 18446744073709551616. lia.
  - done.
  - by destruct d.
  - apply escape_order.
  - intros v w Hv Hw. rewrite be_bytes_order.
    + destruct (Z.compare_spec w v); [apply Z.compare_eq_iff|apply Z.compare_lt_iff|
        apply Z.compare_gt_iff]; lia.
    + change (256 ^ Z.of_nat 8) with 18446744073709551616. unfold u64, u64_mod, MaxUint64 in *. lia.
    + change (256 ^ Z.of_nat 8) with 18446744073709551616. unfold u64, u64_mod, MaxUint64 in *. lia.
Qed.

(** ** Store *)

Definition pair_le (p q : bytes * bytes) : Prop := p.1 <=b q.1.

#[export] Instance pair_le_dec p q : Decision (pair_le p q).
Proof. unfold pair_le. apply _. Defined.

#[export] Instance pair_le_total : Total pair_le.
Proof.
  intros p q. unfold pair_le. destruct (decide (p.1 <b q.1)) as [L|L].
  - left. by apply blt_ble.
  - right. by apply not_blt.
Qed.

#[export] Instance pair_le_trans : Transitive pair_le.
Proof. intros p q r. apply ble_trans. Qed.

Definition sorted_pairs (m : gmap bytes bytes) : list (bytes * bytes) :=
  merge_sort pair_le (map_to_list m).

#[export] Instance concrete_leveldb : LevelDB := {
  DB := gmap bytes bytes;
  NewIterator db s l := (filter (fun p => in_range s l p.1) (sorted_pairs db), None);
  DBGet db k := match db !! k with Some v => Ok v | None => Err (ErrExternal "leveldb: not found") end;
  Write db b := (None, apply_batch b db);
}.

Lemma sorted_pairs_strict m : StronglySorted pair_lt (sorted_pairs m).
Proof.
  assert (StronglySorted pair_le (sorted_pairs m)) as S.
  { apply Sorted_StronglySorted; [exact pair_le_trans|]. apply Sorted_merge_sort. apply _. }
  assert (NoDup (sorted_pairs m).*1) as N.
  { unfold sorted_pairs. rewrite merge_sort_Permutation. apply NoDup_fst_map_to_list. }
  induction S as [|p l S IH F]; [constructor|].
  rewrite fmap_cons in N. apply NoDup_cons in N as [Np N].
  constructor; [by apply IH|]. rewrite Forall_forall in F |- *. intros q Hq.
  specialize (F q Hq). unfold pair_le in F. apply ble_iff in F as [L|E]; [done|].
  destruct Np. rewrite E. by apply list_elem_of_fmap_2.
Qed.

#[export] Instance concrete_leveldb_laws : LevelDBLaws.
Proof.
  refine {| contents := fun db : @DB concrete_leveldb => db |}.
  - done.
  - intros db s l. apply StronglySorted_filter, sorted_pairs_strict.
  - intros db s l k v. cbn [NewIterator concrete_leveldb fst].
    rewrite list_elem_of_filter. unfold sorted_pairs. rewrite merge_sort_Permutation.
    rewrite elem_of_map_to_list. simpl. tauto.
  - intros db k v.
    assert (forall o : option bytes,
      match o with Some v => Ok v | None => Err (ErrExternal "leveldb: not found") end = Ok v <->
      o = Some v) as A by (intros [w|]; split; congruence).
    apply A.
  - done.
  - done.
Defined.

(** ** Protobuf enums, oracle, detector, formatting *)

#[export] Instance concrete_kvrpcpb : Kvrpcpb := {
  Op_Put := 0; Op_Del := 1; Op_Lock := 2; Op_Rollback := 3; Op_Insert := 4;
  Op_PessimisticLock := 5; Op_CheckNotExists := 6;
  Assertion_NotExist := 2;
  IsolationLevel_SI := 0;
  CausetAction_NoCausetAction := 0;
  CausetAction_TTLExpireRollback := 1;
  CausetAction_LockNotExistRollback := 2;
  CausetAction_MinCommitTSPushed := 3;
}.

#[export] Instance concrete_kvrpcpb_laws : KvrpcpbLaws.
Proof.
  split.
  - by apply (bool_decide_unpack _).
  - repeat constructor; done.
  - by apply (bool_decide_unpack _).
Qed.

#[export] Instance concrete_oracle : Oracle := {
  ExtractPhysical ts := Z.shiftr ts 18;
  Fingerprint64 k := Z.of_nat (length k);
}.

(** The detector keeps (waiting transaction, awaited transaction, key hash). *)
#[export] Instance concrete_deadlock : Deadlock := {
  Detector := list (Z * Z * Z);
  NewDetector := [];
  Detect d txn wait hash :=
    match List.find (fun e => (e.1.1 =? wait) && (e.1.2 =? txn)) d with
    | Some e => (Some e.2, d)
    | None => (None, (txn, wait, hash) :: d)
    end;
  CleanUp d txn := List.filter (fun e => negb (e.1.1 =? txn)) d;
}.

#[export] Instance concrete_fmt : GoFmt := {
  Quote b := String.concat EmptyString (pretty ∘ Byte.to_N <$> b);
  FormatInt z := pretty z;
  OpString z := pretty z;
}.

(** Keys and values of the examples. *)
Definition bytes_of (s : string) : bytes := String.list_byte_of_string s.
