(* ===== verification/Mvcc.v ===== *)
(** * Multi-version keys, locks and iterators

    The parts of mockeinsteindb/mvcc.go and mvcc_leveldb.go below the
    transaction operations: versioned keys, the visibility check of a lock,
    the in-memory entry of the reverse scan, the iterator over LevelDB and the
    three decoders that read it. *)

From stdpp Require Import base gmap list strings.
From Stdlib Require Import Strings.Byte ZArith Lia Sorted.
From S2P Require Import Prelude External Marshal.
Open Scope Z_scope.

(** Timestamps are [uint64]; the largest is reserved for locks. *)
Definition lockVer : Z := MaxUint64.

Record Pair : Type := MkPair {
  pair_Key : bytes;
  pair_Value : option bytes;
  pair_Err : option goerror;
}.

Record mvccEntry : Type := MkEntry {
  entry_key : bytes;
  entry_values : list mvccValue;
  entry_dagger : option mvccLock;
}.

Section mvcc.
Context `{Codec} `{Kvrpcpb}.

(** ** Keys *)

Definition mvccEncode (key : bytes) (ver : Z) : bytes :=
  let b := EncodeBytes [] key in
  EncodeUintDesc b ver.

Definition ErrInvalidEncodedKey : goerror := ErrOther "invalid encoded key".

Definition mvccDecode (encodedKey : bytes) : res (bytes * Z) :=
  '(remainBytes, key) ← DecodeBytes encodedKey;
  if decide (remainBytes = []) then Ok (key, 0)
  else
    '(remainBytes, ver) ← DecodeUintDesc remainBytes;
    if decide (remainBytes = []) then Ok (key, ver)
    else Err ErrInvalidEncodedKey.

Definition NewMvccKey (key : bytes) : bytes :=
  if decide (key = []) then [] else EncodeBytes [] key.

(** [None] is the panic on an invalid key. *)
Definition MvccKey_Raw (key : bytes) : option bytes :=
  if decide (key = []) then Some []
  else match DecodeBytes key with
       | Err _ => None
       | Ok (_, k) => Some k
       end.

Definition regionContains (startKey endKey key : bytes) : bool :=
  bleb startKey key && (bltb key endKey || bool_decide (endKey = [])).

(** ** Locks *)

Definition lockErr (l : mvccLock) (key : bytes) : goerror :=
  ErrLocked (mvccEncode key lockVer) (lock_primary l) (lock_startTS l)
    (lock_forUFIDelateTS l) (lock_ttl l) (lock_txnSize l) (lock_op l).

(** The timestamp to read at, or the lock error. *)
Definition lock_check (l : mvccLock) (ts : Z) (key : bytes) (resolvedLocks : list Z)
    : res Z :=
  if (ts <? lock_startTS l) || (lock_op l =? Op_Lock)
     || (lock_op l =? Op_PessimisticLock)
  then Ok ts
  else if (ts =? MaxUint64) && bool_decide (lock_primary l = key)
  then Ok (u64_sub (lock_startTS l) 1)
  else if existsb (fun resolved => lock_startTS l =? resolved) resolvedLocks
  then Ok ts
  else Err (lockErr l key).

(** ** Entries *)

Fixpoint entry_Get_loop (ts : Z) (values : list mvccValue) : option bytes :=
  match values with
  | [] => None
  | v :: values' =>
      if (val_commitTS v <=? ts) && negb (val_valueType v =? typeRollback)
         && negb (val_valueType v =? typeLock)
      then Some (val_value v)
      else entry_Get_loop ts values'
  end.

(** The outer [option] is the panic of [e.key.Raw()]. *)
Definition entry_Get (e : mvccEntry) (ts isoLevel : Z) (resolvedLocks : list Z)
    : option (res (option bytes)) :=
  match entry_dagger e with
  | Some l =>
      if isoLevel =? IsolationLevel_SI then
        k ← MvccKey_Raw (entry_key e);
        Some (ts ← lock_check l ts k resolvedLocks;
              Ok (entry_Get_loop ts (entry_values e)))
      else Some (Ok (entry_Get_loop ts (entry_values e)))
  | None => Some (Ok (entry_Get_loop ts (entry_values e)))
  end.

End mvcc.

(** ** Iterators

    [newIterator] positions the iterator on the first pair.  [it_items] are the
    pairs from the current position on; [it_err] is the error that ended the
    iteration, which [Error] reports once the pairs are exhausted. *)
Record Iterator : Type := MkIter {
  it_items : list (bytes * bytes);
  it_err : option goerror;
}.

Definition it_Valid (it : Iterator) : bool :=
  match it_items it with [] => false | _ => true end.
Definition it_Next (it : Iterator) : Iterator :=
  MkIter (tail (it_items it)) (it_err it).
Definition it_Key (it : Iterator) : bytes :=
  match it_items it with [] => [] | (k, _) :: _ => k end.
Definition it_Value (it : Iterator) : bytes :=
  match it_items it with [] => [] | (_, v) :: _ => v end.
Definition it_Error (it : Iterator) : option goerror :=
  match it_items it with [] => it_err it | _ => None end.

Section iter.
Context `{Codec} `{LevelDB}.

Definition newIterator (db : DB) (start limit : bytes) : Iterator :=
  let '(items, err) := NewIterator db start limit in MkIter items err.

(** The iterator over [startKey, endKey) and the key of the first entry: an
    empty [startKey] is replaced by the first key of the store. *)
Definition newScanIterator (db : DB) (startKey endKey : bytes) : res (Iterator * bytes) :=
  let start := if decide (startKey = []) then [] else mvccEncode startKey lockVer in
  let end' := if decide (endKey = []) then [] else mvccEncode endKey lockVer in
  let iter := newIterator db start end' in
  if bool_decide (startKey = []) && it_Valid iter then
    '(key, _) ← mvccDecode (it_Key iter);
    Ok (iter, key)
  else Ok (iter, startKey).

(** Each decoder returns [Some] record and moves the iterator when the pair
    under it is what it expects. *)
Definition lockDecode (expectKey : bytes) (iter : Iterator)
    : res (option mvccLock) * Iterator :=
  if bool_decide (it_Error iter <> None) || negb (it_Valid iter) then
    (match it_Error iter with Some e => Err e | None => Ok None end, iter)
  else
    match mvccDecode (it_Key iter) with
    | Err e => (Err e, iter)
    | Ok (key, ver) =>
        if negb (bool_decide (key = expectKey)) then (Ok None, iter)
        else if negb (ver =? lockVer) then (Ok None, iter)
        else match lock_UnmarshalBinary (it_Value iter) with
             | Err e => (Err e, iter)
             | Ok dagger => (Ok (Some dagger), it_Next iter)
             end
    end.

Definition valueDecode (expectKey : bytes) (iter : Iterator)
    : res (option mvccValue) * Iterator :=
  if bool_decide (it_Error iter <> None) || negb (it_Valid iter) then
    (match it_Error iter with Some e => Err e | None => Ok None end, iter)
  else
    match mvccDecode (it_Key iter) with
    | Err e => (Err e, iter)
    | Ok (key, ver) =>
        if negb (bool_decide (key = expectKey)) then (Ok None, iter)
        else if ver =? lockVer then (Ok None, iter)
        else match value_UnmarshalBinary (it_Value iter) with
             | Err e => (Err e, iter)
             | Ok value => (Ok (Some value), it_Next iter)
             end
    end.

(** The new current key when a pair of another key is reached, [None] when
    the iterator is exhausted. *)
Fixpoint skip_loop (currKey : bytes) (items : list (bytes * bytes))
    : res (option bytes) * list (bytes * bytes) :=
  match items with
  | [] => (Ok None, [])
  | (k, _) :: items' =>
      match mvccDecode k with
      | Err e => (Err e, items)
      | Ok (key, _) =>
          if negb (bool_decide (key = currKey)) then (Ok (Some key), items)
          else skip_loop currKey items'
      end
  end.

Definition skipDecode (currKey : bytes) (iter : Iterator)
    : res (option bytes) * Iterator :=
  match it_Error iter with
  | Some e => (Err e, iter)
  | None =>
      let '(r, items) := skip_loop currKey (it_items iter) in
      (r, MkIter items (it_err iter))
  end.

End iter.
