(* ===== verification/MvccOps.v ===== *)
(** * The transaction operations of MVCCLevelDB (mockeinsteindb/mvcc_leveldb.go)

    One definition per method, with the helper methods it calls.  Every method
    holds the mutex of the store from entry to return, so a method is one
    function from the store to the store.  Loops over an iterator carry fuel;
    the fuel is computed from the number of pairs under the iterator and
    [MvccScan.v] shows that it never runs out. *)

From stdpp Require Import base gmap list strings.
From Stdlib Require Import Strings.Byte ZArith Lia Sorted.
From S2P Require Import Prelude External Marshal Mvcc.
Open Scope Z_scope.

(** ** Requests (the kvrpcpb fields the store reads) *)

Record Mutation : Type := MkMutation {
  m_Op : Z;
  m_Key : bytes;
  m_Value : bytes;
  m_Assertion : Z;
}.

Record PrewriteRequest : Type := MkPrewrite {
  pw_Mutations : list Mutation;
  pw_PrimaryLock : bytes;
  pw_StartVersion : Z;
  pw_ForUFIDelateTs : Z;
  pw_LockTtl : Z;
  pw_MinCommitTs : Z;
  pw_TxnSize : Z;
  pw_IsPessimisticLock : list bool;
  pw_ResolvedLocks : list Z;
}.

Record PessimisticLockRequest : Type := MkPessimisticLock {
  pl_Mutations : list Mutation;
  pl_StartVersion : Z;
  pl_ForUFIDelateTs : Z;
  pl_PrimaryLock : bytes;
  pl_LockTtl : Z;
  pl_MinCommitTs : Z;
  pl_ReturnValues : bool;
  pl_WaitTimeout : Z;
}.

Record PessimisticLockResponse : Type := MkPessimisticLockResponse {
  plr_Errors : list goerror;
  plr_Values : list (option bytes);
}.

Record LockInfo : Type := MkLockInfo {
  li_PrimaryLock : bytes;
  li_LockVersion : Z;
  li_Key : bytes;
}.

Record MvccLockInfo : Type := MkMvccLock {
  ml_Type : Z;
  ml_StartTs : Z;
  ml_Primary : bytes;
  ml_ShortValue : bytes;
}.

Record MvccWrite : Type := MkMvccWrite {
  mw_Type : Z;
  mw_StartTs : Z;
  mw_CommitTs : Z;
  mw_ShortValue : bytes;
}.

Record MvccInfo : Type := MkMvccInfo {
  mi_Lock : option MvccLockInfo;
  mi_Writes : list MvccWrite;
  mi_Values : list (Z * bytes);
}.

Record lockCtx : Type := MkLockCtx {
  lc_startTS : Z;
  lc_forUFIDelateTS : Z;
  lc_primary : bytes;
  lc_ttl : Z;
  lc_minCommitTs : Z;
  lc_returnValues : bool;
  lc_values : list (option bytes);
}.

(** [kv.LockNoWait]. *)
Definition LockNoWait : Z := -1.

(** Whether a Go error is nil. *)
Definition is_err (e : option goerror) : bool :=
  match e with Some _ => true | None => false end.

Definition is_ErrLocked (e : option goerror) : bool :=
  match e with Some (ErrLocked _ _ _ _ _ _ _) => true | _ => false end.

Section ops.
Context `{Codec} `{LevelDB} `{Kvrpcpb} `{Oracle} `{Deadlock}.

(** ** The store *)

Record MVCCLevelDB : Type := MkStore {
  EDB : DB;
  deadlockDetector : Detector;
}.

Definition out_of_fuel : goerror := ErrOther "out of fuel".

(** An upper bound of the iterations of a loop over [iter]: two per pair and
    two more to leave. *)
Definition iter_fuel (iter : Iterator) : nat := 2 * length (it_items iter) + 2.

(** ** Reads *)

Fixpoint getValue_loop (fuel : nat) (key : bytes) (startTS : Z) (iter : Iterator)
    : res (option bytes) * Iterator :=
  match fuel with
  | O => (Err out_of_fuel, iter)
  | S fuel' =>
      if it_Valid iter then
        match valueDecode key iter with
        | (Err e, iter) => (Err e, iter)
        | (Ok None, iter) => (Ok None, iter)
        | (Ok (Some value), iter) =>
            if (val_valueType value =? typeRollback) || (val_valueType value =? typeLock)
            then getValue_loop fuel' key startTS iter
            else if val_commitTS value <=? startTS
            then if val_valueType value =? typeDelete
                 then (Ok None, iter)
                 else (Ok (Some (val_value value)), iter)
            else getValue_loop fuel' key startTS iter
        end
      else (Ok None, iter)
  end.

(** The value and where it leaves the iterator. *)
Definition getValue_iter (iter : Iterator) (key : bytes) (startTS isoLevel : Z)
    (resolvedLocks : list Z) : res (option bytes) * Iterator :=
  match lockDecode key iter with
  | (Err e, iter) => (Err e, iter)
  | (Ok dec1, iter) =>
      let checked :=
        match dec1 with
        | Some dagger =>
            if isoLevel =? IsolationLevel_SI
            then lock_check dagger startTS key resolvedLocks
            else Ok startTS
        | None => Ok startTS
        end in
      match checked with
      | Err e => (Err e, iter)
      | Ok startTS => getValue_loop (iter_fuel iter) key startTS iter
      end
  end.

Definition getValue (mvcc : MVCCLevelDB) (key : bytes) (startTS isoLevel : Z)
    (resolvedLocks : list Z) : res (option bytes) :=
  let startKey := mvccEncode key lockVer in
  let iter := newIterator (EDB mvcc) startKey [] in
  (getValue_iter iter key startTS isoLevel resolvedLocks).1.

Definition Get (mvcc : MVCCLevelDB) (key : bytes) (startTS isoLevel : Z)
    (resolvedLocks : list Z) : res (option bytes) :=
  getValue mvcc key startTS isoLevel resolvedLocks.

Definition BatchGet (mvcc : MVCCLevelDB) (ks : list bytes) (startTS isoLevel : Z)
    (resolvedLocks : list Z) : list Pair :=
  fold_left (fun pairs k =>
    match getValue mvcc k startTS isoLevel resolvedLocks with
    | Ok None => pairs
    | Ok (Some v) => pairs ++ [MkPair k (Some v) None]
    | Err e => pairs ++ [MkPair k None (Some e)]
    end) ks [].

Fixpoint Scan_loop (fuel : nat) (iter : Iterator) (currKey : bytes) (limit : Z)
    (startTS isoLevel : Z) (resolvedLock : list Z) (pairs : list Pair) : list Pair :=
  match fuel with
  | O => pairs
  | S fuel' =>
      if Z.of_nat (length pairs) <? limit then
        let '(r, iter) := getValue_iter iter currKey startTS isoLevel resolvedLock in
        let pairs :=
          match r with
          | Err e => pairs ++ [MkPair currKey None (Some e)]
          | Ok (Some value) => pairs ++ [MkPair currKey (Some value) None]
          | Ok None => pairs
          end in
        match skipDecode currKey iter with
        | (Err _, _) => pairs
        | (Ok None, _) => pairs
        | (Ok (Some currKey), iter) =>
            Scan_loop fuel' iter currKey limit startTS isoLevel resolvedLock pairs
        end
      else pairs
  end.

Definition Scan (mvcc : MVCCLevelDB) (startKey endKey : bytes) (limit : Z)
    (startTS isoLevel : Z) (resolvedLock : list Z) : list Pair :=
  match newScanIterator (EDB mvcc) startKey endKey with
  | Err _ => []
  | Ok (iter, currKey) =>
      Scan_loop (iter_fuel iter) iter currKey limit startTS isoLevel resolvedLock []
  end.

(** *** Reverse scan *)

Record reverseScanHelper : Type := MkHelper {
  rs_startTS : Z;
  rs_isoLevel : Z;
  rs_resolvedLocks : list Z;
  rs_currKey : bytes;
  rs_entry : mvccEntry;
  rs_pairs : list Pair;
}.

Definition empty_entry : mvccEntry := MkEntry [] [] None.

(** [reverse] swaps from both ends towards the middle. *)
Fixpoint reverse_loop (fuel : nat) (i j : nat) (values : list mvccValue)
    : list mvccValue :=
  match fuel with
  | O => values
  | S fuel' =>
      if decide (i < j)%nat then
        match values !! i, values !! j with
        | Some vi, Some vj =>
            reverse_loop fuel' (S i) (j - 1) (<[j := vi]> (<[i := vj]> values))
        | _, _ => values
        end
      else values
  end.

Definition reverse (values : list mvccValue) : list mvccValue :=
  reverse_loop (length values) 0 (length values - 1) values.

Definition finishEntry (h : reverseScanHelper) : option reverseScanHelper :=
  let values := reverse (entry_values (rs_entry h)) in
  let entry := MkEntry (NewMvccKey (rs_currKey h)) values (entry_dagger (rs_entry h)) in
  r ← entry_Get entry (rs_startTS h) (rs_isoLevel h) (rs_resolvedLocks h);
  let pairs :=
    match r with
    | Err e => rs_pairs h ++ [MkPair (rs_currKey h) None (Some e)]
    | Ok (Some (x :: v)) => rs_pairs h ++ [MkPair (rs_currKey h) (Some (x :: v)) None]
    | Ok _ => rs_pairs h
    end in
  Some (MkHelper (rs_startTS h) (rs_isoLevel h) (rs_resolvedLocks h) (rs_currKey h)
          empty_entry pairs).

(** The loop visits the pairs from last to first.  [None] stands for a panic,
    and for a record that does not unmarshal (Go then goes on with the fields
    it has read). *)
Fixpoint ReverseScan_loop (items : list (bytes * bytes)) (startKey : bytes) (limit : Z)
    (h : reverseScanHelper) : option reverseScanHelper :=
  match items with
  | [] => Some h
  | (k, rv) :: items' =>
      if Z.of_nat (length (rs_pairs h)) <? limit then
        match mvccDecode k with
        | Err _ => Some h
        | Ok (key, ver) =>
            if bltb key startKey then Some h
            else
              h ← (if negb (bool_decide (key = rs_currKey h))
                   then h' ← finishEntry h;
                        Some (MkHelper (rs_startTS h') (rs_isoLevel h') (rs_resolvedLocks h')
                                key (rs_entry h') (rs_pairs h'))
                   else Some h);
              let e := rs_entry h in
              e ← (if ver =? lockVer
                   then dagger ← ok_option (lock_UnmarshalBinary rv);
                        Some (MkEntry (entry_key e) (entry_values e) (Some dagger))
                   else value ← ok_option (value_UnmarshalBinary rv);
                        Some (MkEntry (entry_key e) (entry_values e ++ [value])
                                (entry_dagger e)));
              ReverseScan_loop items' startKey limit
                (MkHelper (rs_startTS h) (rs_isoLevel h) (rs_resolvedLocks h) (rs_currKey h)
                   e (rs_pairs h))
        end
      else Some h
  end.

Definition ReverseScan (mvcc : MVCCLevelDB) (startKey endKey : bytes) (limit : Z)
    (startTS isoLevel : Z) (resolvedLocks : list Z) : option (list Pair) :=
  let mvccEnd := if decide (endKey = []) then [] else mvccEncode endKey lockVer in
  let items := rev (NewIterator (EDB mvcc) [] mvccEnd).1 in
  let currKey := match items with
                 | [] => []
                 | (k, _) :: _ => match mvccDecode k with Ok (key, _) => key | Err _ => [] end
                 end in
  h ← ReverseScan_loop items startKey limit
        (MkHelper startTS isoLevel resolvedLocks currKey empty_entry []);
  if Z.of_nat (length (rs_pairs h)) <? limit
  then h ← finishEntry h; Some (rs_pairs h)
  else Some (rs_pairs h).

(** ** Conflict check *)

(** The loop body for the value [v] under the decoder. *)
Fixpoint checkConflictValue_loop (fuel : nat) (iter : Iterator) (m : Mutation)
    (startTS : Z) (v : mvccValue)
    (needGetVal needCheckAssertion needCheckRollback : bool) (retVal : option bytes)
    : res (option bytes) :=
  match fuel with
  | O => Err out_of_fuel
  | S fuel' =>
      if needCheckRollback && (val_valueType v =? typeRollback)
         && (val_commitTS v =? startTS)
      then Err (ErrAlreadyRollbacked startTS (m_Key m))
      else
        let needCheckRollback := needCheckRollback && negb (val_commitTS v <? startTS) in
        let exists_type := (val_valueType v =? typePut) || (val_valueType v =? typeLock) in
        if needCheckAssertion && exists_type && (m_Op m =? Op_PessimisticLock)
        then Err (ErrKeyAlreadyExist (m_Key m))
        else
          let needCheckAssertion :=
            needCheckAssertion && (exists_type || negb (val_valueType v =? typeDelete)) in
          let has_val := (val_valueType v =? typeDelete) || (val_valueType v =? typePut) in
          let retVal := if needGetVal && has_val then Some (val_value v) else retVal in
          let needGetVal := needGetVal && negb has_val in
          if negb needCheckAssertion && negb needGetVal && negb needCheckRollback
          then Ok retVal
          else match valueDecode (m_Key m) iter with
               | (Err e, _) => Err e
               | (Ok None, _) => Ok retVal
               | (Ok (Some v), iter) =>
                   checkConflictValue_loop fuel' iter m startTS v
                     needGetVal needCheckAssertion needCheckRollback retVal
               end
  end.

Definition checkConflictValue (iter : Iterator) (m : Mutation)
    (forUFIDelateTS startTS : Z) (getVal : bool) : res (option bytes) :=
  match valueDecode (m_Key m) iter with
  | (Err e, _) => Err e
  | (Ok None, _) => Ok None
  | (Ok (Some v), iter) =>
      if forUFIDelateTS <? val_commitTS v
      then Err (ErrConflict forUFIDelateTS (val_startTS v) (val_commitTS v) (m_Key m))
      else
        let needCheckAssertion := m_Assertion m =? Assertion_NotExist in
        retVal ← checkConflictValue_loop (iter_fuel iter) iter m startTS v
                   getVal needCheckAssertion true None;
        Ok (if getVal then retVal else None)
  end.

(** ** Pessimistic locks *)

(** The error, and the batch, context and detector as they are then. *)
Definition pessimisticLockMutation (db : DB) (det : Detector) (batch : Batch)
    (m : Mutation) (lctx : lockCtx) : option goerror * (Batch * lockCtx * Detector) :=
  let startTS := lc_startTS lctx in
  let forUFIDelateTS := lc_forUFIDelateTS lctx in
  let startKey := mvccEncode (m_Key m) lockVer in
  let iter := newIterator db startKey [] in
  match lockDecode (m_Key m) iter with
  | (Err e, _) => (Some e, (batch, lctx, det))
  | (Ok (Some dagger), _) =>
      if negb (lock_startTS dagger =? startTS) then
        let '(errDeadlock, det) :=
          Detect det startTS (lock_startTS dagger) (Fingerprint64 (m_Key m)) in
        match errDeadlock with
        | Some KeyHash =>
            (Some (ErrDeadlock (lock_startTS dagger) (m_Key m) KeyHash), (batch, lctx, det))
        | None => (Some (lockErr dagger (m_Key m)), (batch, lctx, det))
        end
      else (None, (batch, lctx, det))
  | (Ok None, iter) =>
      match checkConflictValue iter m forUFIDelateTS startTS true with
      | Err e => (Some e, (batch, lctx, det))
      | Ok val =>
          let lctx :=
            if lc_returnValues lctx
            then MkLockCtx (lc_startTS lctx) (lc_forUFIDelateTS lctx) (lc_primary lctx)
                   (lc_ttl lctx) (lc_minCommitTs lctx) (lc_returnValues lctx)
                   (lc_values lctx ++ [val])
            else lctx in
          let dagger :=
            MkLock startTS (lc_primary lctx) [] Op_PessimisticLock (lc_ttl lctx)
              forUFIDelateTS 0 (lc_minCommitTs lctx) in
          let writeKey := mvccEncode (m_Key m) lockVer in
          match lock_MarshalBinary dagger with
          | Err e => (Some e, (batch, lctx, det))
          | Ok writeValue => (None, (batch ++ [BatchPut writeKey writeValue], lctx, det))
          end
      end
  end.

Fixpoint PessimisticLock_loop (db : DB) (mutations : list Mutation) (lockWaitTime : Z)
    (errs : list (option goerror)) (st : Batch * lockCtx * Detector)
    : list (option goerror) * (Batch * lockCtx * Detector) :=
  match mutations with
  | [] => (errs, st)
  | m :: mutations' =>
      let '(batch, lctx, det) := st in
      let '(err, st) := pessimisticLockMutation db det batch m lctx in
      let errs := errs ++ [err] in
      if (lockWaitTime =? LockNoWait) && is_ErrLocked err
      then (errs, st)
      else PessimisticLock_loop db mutations' lockWaitTime errs st
  end.

(** The response keeps the errors that are not nil ([convertToKeyErrors]). *)
Definition non_nil_errors (errs : list (option goerror)) : list goerror :=
  omap id errs.

Definition PessimisticLock (mvcc : MVCCLevelDB) (req : PessimisticLockRequest)
    : PessimisticLockResponse * MVCCLevelDB :=
  let lCtx := MkLockCtx (pl_StartVersion req) (pl_ForUFIDelateTs req)
                (pl_PrimaryLock req) (pl_LockTtl req) (pl_MinCommitTs req)
                (pl_ReturnValues req) [] in
  let '(errs, (batch, lCtx, det)) :=
    PessimisticLock_loop (EDB mvcc) (pl_Mutations req) (pl_WaitTimeout req) []
      ([], lCtx, deadlockDetector mvcc) in
  if existsb is_err errs then
    (MkPessimisticLockResponse (non_nil_errors errs) [], MkStore (EDB mvcc) det)
  else
    match Write (EDB mvcc) batch with
    | (Some err, db) => (MkPessimisticLockResponse [err] [], MkStore db det)
    | (None, db) =>
        (MkPessimisticLockResponse []
           (if pl_ReturnValues req then lc_values lCtx else []), MkStore db det)
    end.

Definition pessimisticRollbackKey (db : DB) (batch : Batch) (key : bytes)
    (startTS forUFIDelateTS : Z) : option goerror * Batch :=
  let startKey := mvccEncode key lockVer in
  let iter := newIterator db startKey [] in
  match lockDecode key iter with
  | (Err e, _) => (Some e, batch)
  | (Ok (Some dagger), _) =>
      if (lock_op dagger =? Op_PessimisticLock) && (lock_startTS dagger =? startTS)
         && (lock_forUFIDelateTS dagger <=? forUFIDelateTS)
      then (None, batch ++ [BatchDelete startKey])
      else (None, batch)
  | (Ok None, _) => (None, batch)
  end.

Fixpoint PessimisticRollback_loop (db : DB) (keys : list bytes) (startTS forUFIDelateTS : Z)
    (errs : list (option goerror)) (batch : Batch) : list (option goerror) * Batch :=
  match keys with
  | [] => (errs, batch)
  | key :: keys' =>
      let '(err, batch) := pessimisticRollbackKey db batch key startTS forUFIDelateTS in
      PessimisticRollback_loop db keys' startTS forUFIDelateTS (errs ++ [err]) batch
  end.

Definition PessimisticRollback (mvcc : MVCCLevelDB) (keys : list bytes)
    (startTS forUFIDelateTS : Z) : list (option goerror) * MVCCLevelDB :=
  let '(errs, batch) :=
    PessimisticRollback_loop (EDB mvcc) keys startTS forUFIDelateTS [] [] in
  if existsb is_err errs then (errs, mvcc)
  else match Write (EDB mvcc) batch with
       | (Some err, db) => ([Some err], MkStore db (deadlockDetector mvcc))
       | (None, db) => (errs, MkStore db (deadlockDetector mvcc))
       end.

(** ** Prewrite *)

Definition prewriteMutation (db : DB) (batch : Batch) (m : Mutation) (startTS : Z)
    (primary : bytes) (ttl txnSize : Z) (isPessimisticLock : bool) (minCommitTS : Z)
    : option goerror * Batch :=
  let startKey := mvccEncode (m_Key m) lockVer in
  let iter := newIterator db startKey [] in
  let write ttl minCommitTS :=
    let op := if m_Op m =? Op_Insert then Op_Put else m_Op m in
    let dagger :=
      MkLock startTS primary (m_Value m) op ttl 0 txnSize
        (if bool_decide (primary = m_Key m) then minCommitTS else 0) in
    let writeKey := mvccEncode (m_Key m) lockVer in
    match lock_MarshalBinary dagger with
    | Err e => (Some e, batch)
    | Ok writeValue => (None, batch ++ [BatchPut writeKey writeValue])
    end in
  match lockDecode (m_Key m) iter with
  | (Err e, _) => (Some e, batch)
  | (Ok (Some dagger), _) =>
      if negb (lock_startTS dagger =? startTS) then
        let dagger :=
          if isPessimisticLock
          then MkLock (lock_startTS dagger) (lock_primary dagger) (lock_value dagger)
                 (lock_op dagger) 0 (lock_forUFIDelateTS dagger) (lock_txnSize dagger)
                 (lock_minCommitTS dagger)
          else dagger in
        (Some (lockErr dagger (m_Key m)), batch)
      else if negb (lock_op dagger =? Op_PessimisticLock) then (None, batch)
      else
        let ttl := if ttl <? lock_ttl dagger then lock_ttl dagger else ttl in
        let minCommitTS :=
          if minCommitTS <? lock_minCommitTS dagger then lock_minCommitTS dagger
          else minCommitTS in
        write ttl minCommitTS
  | (Ok None, iter) =>
      if isPessimisticLock then (Some (ErrAbort "pessimistic dagger not found"), batch)
      else match checkConflictValue iter m startTS startTS false with
           | Err e => (Some e, batch)
           | Ok _ => write ttl minCommitTS
           end
  end.

(** The mutation loop; [i] is its index.  [None] is the panic of
    [req.IsPessimisticLock[i]] out of range. *)
Fixpoint Prewrite_loop (mvcc : MVCCLevelDB) (req : PrewriteRequest) (i : nat)
    (mutations : list Mutation) (errs : list (option goerror)) (batch : Batch)
    : option (list (option goerror) * Batch) :=
  match mutations with
  | [] => Some (errs, batch)
  | m :: mutations' =>
      let op := m_Op m in
      let checked :=
        if ((op =? Op_Insert) || (op =? Op_CheckNotExists)) && (pw_ForUFIDelateTs req =? 0)
        then match getValue mvcc (m_Key m) (pw_StartVersion req) IsolationLevel_SI
                     (pw_ResolvedLocks req) with
             | Err e => Some e
             | Ok (Some _) => Some (ErrKeyAlreadyExist (m_Key m))
             | Ok None => None
             end
        else None in
      match checked with
      | Some e => Prewrite_loop mvcc req (S i) mutations' (errs ++ [Some e]) batch
      | None =>
          if op =? Op_CheckNotExists
          then Prewrite_loop mvcc req (S i) mutations' errs batch
          else
            isPessimisticLock ←
              (match pw_IsPessimisticLock req with
               | [] => Some false
               | _ => pw_IsPessimisticLock req !! i
               end);
            let '(err, batch) :=
              prewriteMutation (EDB mvcc) batch m (pw_StartVersion req)
                (pw_PrimaryLock req) (pw_LockTtl req) (pw_TxnSize req)
                isPessimisticLock (pw_MinCommitTs req) in
            Prewrite_loop mvcc req (S i) mutations' (errs ++ [err]) batch
      end
  end.

Definition Prewrite (mvcc : MVCCLevelDB) (req : PrewriteRequest)
    : option (list (option goerror) * MVCCLevelDB) :=
  '(errs, batch) ← Prewrite_loop mvcc req 0 (pw_Mutations req) [] [];
  if existsb is_err errs then Some (errs, mvcc)
  else match Write (EDB mvcc) batch with
       | (Some err, db) => Some ([Some err], MkStore db (deadlockDetector mvcc))
       | (None, db) => Some (errs, MkStore db (deadlockDetector mvcc))
       end.

(** ** Commit and rollback *)

Fixpoint getTxnCommitInfo_loop (fuel : nat) (iter : Iterator) (expectKey : bytes)
    (startTS : Z) : res (option mvccValue) :=
  match fuel with
  | O => Err out_of_fuel
  | S fuel' =>
      if it_Valid iter then
        match valueDecode expectKey iter with
        | (Err e, _) => Err e
        | (Ok None, _) => Ok None
        | (Ok (Some value), iter) =>
            if val_startTS value =? startTS then Ok (Some value)
            else getTxnCommitInfo_loop fuel' iter expectKey startTS
        end
      else Ok None
  end.

Definition getTxnCommitInfo (iter : Iterator) (expectKey : bytes) (startTS : Z)
    : res (option mvccValue) :=
  getTxnCommitInfo_loop (iter_fuel iter) iter expectKey startTS.

Definition commitLock (batch : Batch) (dagger : mvccLock) (key : bytes)
    (startTS commitTS : Z) : res Batch :=
  let valueType :=
    if lock_op dagger =? Op_Put then typePut
    else if lock_op dagger =? Op_Lock then typeLock
    else typeDelete in
  let value := MkValue valueType startTS commitTS (lock_value dagger) in
  let writeKey := mvccEncode key commitTS in
  writeValue ← value_MarshalBinary value;
  Ok (batch ++ [BatchPut writeKey writeValue] ++ [BatchDelete (mvccEncode key lockVer)]).

Definition commitKey (db : DB) (batch : Batch) (key : bytes) (startTS commitTS : Z)
    : res Batch :=
  let startKey := mvccEncode key lockVer in
  let iter := newIterator db startKey [] in
  let not_found iter :=
    c ← getTxnCommitInfo iter key startTS;
    match c with
    | Some c =>
        if negb (val_valueType c =? typeRollback) then Ok batch
        else Err (ErrRetryable "txn not found")
    | None => Err (ErrRetryable "txn not found")
    end in
  match lockDecode key iter with
  | (Err e, _) => Err e
  | (Ok None, iter) => not_found iter
  | (Ok (Some dagger), iter) =>
      if negb (lock_startTS dagger =? startTS) then not_found iter
      else if commitTS <? lock_minCommitTS dagger
      then Err (ErrCommitTSExpired startTS commitTS key (lock_minCommitTS dagger))
      else commitLock batch dagger key startTS commitTS
  end.

Fixpoint Commit_loop (db : DB) (keys : list bytes) (startTS commitTS : Z) (batch : Batch)
    : res Batch :=
  match keys with
  | [] => Ok batch
  | k :: keys' =>
      batch ← commitKey db batch k startTS commitTS;
      Commit_loop db keys' startTS commitTS batch
  end.

(** The deferred [CleanUp] of the detector runs on every return. *)
Definition Commit (mvcc : MVCCLevelDB) (keys : list bytes) (startTS commitTS : Z)
    : option goerror * MVCCLevelDB :=
  let det := CleanUp (deadlockDetector mvcc) startTS in
  match Commit_loop (EDB mvcc) keys startTS commitTS [] with
  | Err e => (Some e, MkStore (EDB mvcc) det)
  | Ok batch => let '(err, db) := Write (EDB mvcc) batch in (err, MkStore db det)
  end.

Definition writeRollback (batch : Batch) (key : bytes) (startTS : Z) : res Batch :=
  let tomb := MkValue typeRollback startTS startTS [] in
  let writeKey := mvccEncode key startTS in
  writeValue ← value_MarshalBinary tomb;
  Ok (batch ++ [BatchPut writeKey writeValue]).

Definition rollbackLock (batch : Batch) (key : bytes) (startTS : Z) : res Batch :=
  batch ← writeRollback batch key startTS;
  Ok (batch ++ [BatchDelete (mvccEncode key lockVer)]).

Definition rollbackKey (db : DB) (batch : Batch) (key : bytes) (startTS : Z) : res Batch :=
  let startKey := mvccEncode key lockVer in
  let iter := newIterator db startKey [] in
  let not_prewritten :=
    let value := MkValue typeRollback startTS startTS [] in
    let writeKey := mvccEncode key startTS in
    writeValue ← value_MarshalBinary value;
    Ok (batch ++ [BatchPut writeKey writeValue]) in
  if it_Valid iter then
    match lockDecode key iter with
    | (Err e, _) => Err e
    | (Ok dec, iter) =>
        if (match dec with Some dagger => lock_startTS dagger =? startTS | None => false end)
        then rollbackLock batch key startTS
        else
          c ← getTxnCommitInfo iter key startTS;
          match c with
          | Some c =>
              if negb (val_valueType c =? typeRollback)
              then Err (ErrAlreadyCommitted (val_commitTS c))
              else Ok batch
          | None => not_prewritten
          end
    end
  else not_prewritten.

Fixpoint Rollback_loop (db : DB) (keys : list bytes) (startTS : Z) (batch : Batch)
    : res Batch :=
  match keys with
  | [] => Ok batch
  | k :: keys' =>
      batch ← rollbackKey db batch k startTS;
      Rollback_loop db keys' startTS batch
  end.

Definition Rollback (mvcc : MVCCLevelDB) (keys : list bytes) (startTS : Z)
    : option goerror * MVCCLevelDB :=
  let det := CleanUp (deadlockDetector mvcc) startTS in
  match Rollback_loop (EDB mvcc) keys startTS [] with
  | Err e => (Some e, MkStore (EDB mvcc) det)
  | Ok batch => let '(err, db) := Write (EDB mvcc) batch in (err, MkStore db det)
  end.

(** Whether the physical time of [currentTS] is past the lock's time to live. *)
Definition lock_expired (l : mvccLock) (currentTS : Z) : bool :=
  u64_add (u64_wrap (ExtractPhysical (lock_startTS l))) (lock_ttl l)
  <? u64_wrap (ExtractPhysical currentTS).

(** Write a computed batch, or return its error. *)
Definition write_or_err (mvcc : MVCCLevelDB) (det : Detector) (b : res Batch)
    : option goerror * MVCCLevelDB :=
  match b with
  | Err e => (Some e, MkStore (EDB mvcc) det)
  | Ok batch => let '(err, db) := Write (EDB mvcc) batch in (err, MkStore db det)
  end.

(** The rollback record of the last branch goes into a batch that the method
    returns without writing. *)
Definition Cleanup (mvcc : MVCCLevelDB) (key : bytes) (startTS currentTS : Z)
    : option goerror * MVCCLevelDB :=
  let det := CleanUp (deadlockDetector mvcc) startTS in
  let ret (e : option goerror) := (e, MkStore (EDB mvcc) det) in
  let startKey := mvccEncode key lockVer in
  let iter := newIterator (EDB mvcc) startKey [] in
  let not_prewritten :=
    let value := MkValue typeRollback startTS startTS [] in
    let writeKey := mvccEncode key startTS in
    match value_MarshalBinary value with
    | Err e => ret (Some e)
    | Ok writeValue => let batch := [BatchPut writeKey writeValue] in ret None
    end in
  if it_Valid iter then
    match lockDecode key iter with
    | (Err e, _) => ret (Some e)
    | (Ok dec, iter) =>
        match (match dec with
               | Some dagger => if lock_startTS dagger =? startTS then Some dagger else None
               | None => None
               end) with
        | Some dagger =>
            if (currentTS =? 0) || lock_expired dagger currentTS
            then write_or_err mvcc det (rollbackLock [] key startTS)
            else ret (Some (lockErr dagger key))
        | None =>
            match getTxnCommitInfo iter key startTS with
            | Err e => ret (Some e)
            | Ok (Some c) =>
                if negb (val_valueType c =? typeRollback)
                then ret (Some (ErrAlreadyCommitted (val_commitTS c)))
                else ret None
            | Ok None => not_prewritten
            end
        end
    end
  else not_prewritten.

(** ** CheckTxnStatus and TxnHeartBeat *)

Record TxnStatus : Type := MkTxnStatus {
  ts_ttl : Z;
  ts_commitTS : Z;
  ts_action : Z;
  ts_err : option goerror;
}.

Definition CheckTxnStatus (mvcc : MVCCLevelDB) (primaryKey : bytes)
    (lockTS callerStartTS currentTS : Z) (rollbackIfNotExist : bool)
    : TxnStatus * MVCCLevelDB :=
  let det := deadlockDetector mvcc in
  let action := CausetAction_NoCausetAction in
  let startKey := mvccEncode primaryKey lockVer in
  let iter := newIterator (EDB mvcc) startKey [] in
  let not_found :=
    if rollbackIfNotExist then
      match write_or_err mvcc det (writeRollback [] primaryKey lockTS) with
      | (Some err, mvcc) => (MkTxnStatus 0 0 action (Some err), mvcc)
      | (None, mvcc) => (MkTxnStatus 0 0 CausetAction_LockNotExistRollback None, mvcc)
      end
    else (MkTxnStatus 0 0 action (Some (ErrTxnNotFound lockTS primaryKey)), mvcc) in
  if it_Valid iter then
    match lockDecode primaryKey iter with
    | (Err e, _) => (MkTxnStatus 0 0 action (Some e), mvcc)
    | (Ok dec, iter) =>
        match (match dec with
               | Some dagger => if lock_startTS dagger =? lockTS then Some dagger else None
               | None => None
               end) with
        | Some dagger =>
            if lock_expired dagger currentTS then
              match write_or_err mvcc det (rollbackLock [] primaryKey lockTS) with
              | (Some err, mvcc) => (MkTxnStatus 0 0 action (Some err), mvcc)
              | (None, mvcc) => (MkTxnStatus 0 0 CausetAction_TTLExpireRollback None, mvcc)
              end
            else if callerStartTS =? MaxUint64 then
              (MkTxnStatus (lock_ttl dagger) 0 CausetAction_MinCommitTSPushed None, mvcc)
            else if 0 <? lock_minCommitTS dagger then
              let action := CausetAction_MinCommitTSPushed in
              if lock_minCommitTS dagger <? u64_add callerStartTS 1 then
                let minCommitTS := u64_add callerStartTS 1 in
                let minCommitTS := if minCommitTS <? currentTS then currentTS else minCommitTS in
                let dagger :=
                  MkLock (lock_startTS dagger) (lock_primary dagger) (lock_value dagger)
                    (lock_op dagger) (lock_ttl dagger) (lock_forUFIDelateTS dagger)
                    (lock_txnSize dagger) minCommitTS in
                let writeKey := mvccEncode primaryKey lockVer in
                match write_or_err mvcc det
                        (writeValue ← lock_MarshalBinary dagger;
                         Ok [BatchPut writeKey writeValue]) with
                | (Some err, mvcc) => (MkTxnStatus 0 0 action (Some err), mvcc)
                | (None, mvcc) => (MkTxnStatus (lock_ttl dagger) 0 action None, mvcc)
                end
              else (MkTxnStatus (lock_ttl dagger) 0 action None, mvcc)
            else (MkTxnStatus (lock_ttl dagger) 0 action None, mvcc)
        | None =>
            match getTxnCommitInfo iter primaryKey lockTS with
            | Err e => (MkTxnStatus 0 0 action (Some e), mvcc)
            | Ok (Some c) =>
                if negb (val_valueType c =? typeRollback)
                then (MkTxnStatus 0 (val_commitTS c) action None, mvcc)
                else (MkTxnStatus 0 0 CausetAction_NoCausetAction None, mvcc)
            | Ok None => not_found
            end
        end
    end
  else not_found.

Definition TxnHeartBeat (mvcc : MVCCLevelDB) (key : bytes) (startTS adviseTTL : Z)
    : res Z * MVCCLevelDB :=
  let det := deadlockDetector mvcc in
  let startKey := mvccEncode key lockVer in
  let iter := newIterator (EDB mvcc) startKey [] in
  let no_lock := (Err (ErrOther "dagger doesn't exist"), mvcc) in
  if it_Valid iter then
    match lockDecode key iter with
    | (Err e, _) => (Err e, mvcc)
    | (Ok (Some dagger), _) =>
        if lock_startTS dagger =? startTS then
          if negb (bool_decide (lock_primary dagger = key)) then
            (Err (ErrOther "txnHeartBeat on non-primary key, the code should not run here"),
             mvcc)
          else if lock_ttl dagger <? adviseTTL then
            let dagger :=
              MkLock (lock_startTS dagger) (lock_primary dagger) (lock_value dagger)
                (lock_op dagger) adviseTTL (lock_forUFIDelateTS dagger)
                (lock_txnSize dagger) (lock_minCommitTS dagger) in
            let writeKey := mvccEncode key lockVer in
            match write_or_err mvcc det
                    (writeValue ← lock_MarshalBinary dagger;
                     Ok [BatchPut writeKey writeValue]) with
            | (Some err, mvcc) => (Err err, mvcc)
            | (None, mvcc) => (Ok (lock_ttl dagger), mvcc)
            end
          else (Ok (lock_ttl dagger), mvcc)
        else no_lock
    | (Ok None, _) => no_lock
    end
  else no_lock.

(** ** Range operations on locks *)

Fixpoint ScanLock_loop (fuel : nat) (iter : Iterator) (currKey : bytes) (maxTS : Z)
    (locks : list LockInfo) : res (list LockInfo) :=
  match fuel with
  | O => Err out_of_fuel
  | S fuel' =>
      if it_Valid iter then
        match lockDecode currKey iter with
        | (Err e, _) => Err e
        | (Ok dec, iter) =>
            let locks :=
              match dec with
              | Some dagger =>
                  if lock_startTS dagger <=? maxTS
                  then locks ++ [MkLockInfo (lock_primary dagger) (lock_startTS dagger) currKey]
                  else locks
              | None => locks
              end in
            match skipDecode currKey iter with
            | (Err e, _) => Err e
            | (Ok next, iter) =>
                ScanLock_loop fuel' iter (default currKey next) maxTS locks
            end
        end
      else Ok locks
  end.

Definition ScanLock (mvcc : MVCCLevelDB) (startKey endKey : bytes) (maxTS : Z)
    : res (list LockInfo) :=
  '(iter, currKey) ← newScanIterator (EDB mvcc) startKey endKey;
  ScanLock_loop (iter_fuel iter) iter currKey maxTS [].

(** [txnInfos] gives the commit timestamp of the transactions to resolve, 0
    for a rollback. *)
Fixpoint BatchResolveLock_loop (fuel : nat) (iter : Iterator) (currKey : bytes)
    (txnInfos : gmap Z Z) (batch : Batch) : res Batch :=
  match fuel with
  | O => Err out_of_fuel
  | S fuel' =>
      if it_Valid iter then
        match lockDecode currKey iter with
        | (Err e, _) => Err e
        | (Ok dec, iter) =>
            batch ←
              match dec with
              | Some dagger =>
                  match txnInfos !! lock_startTS dagger with
                  | Some commitTS =>
                      if 0 <? commitTS
                      then commitLock batch dagger currKey (lock_startTS dagger) commitTS
                      else rollbackLock batch currKey (lock_startTS dagger)
                  | None => Ok batch
                  end
              | None => Ok batch
              end;
            match skipDecode currKey iter with
            | (Err e, _) => Err e
            | (Ok next, iter) =>
                BatchResolveLock_loop fuel' iter (default currKey next) txnInfos batch
            end
        end
      else Ok batch
  end.

Definition BatchResolveLock (mvcc : MVCCLevelDB) (startKey endKey : bytes)
    (txnInfos : gmap Z Z) : option goerror * MVCCLevelDB :=
  write_or_err mvcc (deadlockDetector mvcc)
    ('(iter, currKey) ← newScanIterator (EDB mvcc) startKey endKey;
     BatchResolveLock_loop (iter_fuel iter) iter currKey txnInfos []).

Fixpoint ResolveLock_loop (fuel : nat) (iter : Iterator) (currKey : bytes)
    (startTS commitTS : Z) (batch : Batch) : res Batch :=
  match fuel with
  | O => Err out_of_fuel
  | S fuel' =>
      if it_Valid iter then
        match lockDecode currKey iter with
        | (Err e, _) => Err e
        | (Ok dec, iter) =>
            batch ←
              match dec with
              | Some dagger =>
                  if lock_startTS dagger =? startTS then
                    if 0 <? commitTS
                    then commitLock batch dagger currKey startTS commitTS
                    else rollbackLock batch currKey startTS
                  else Ok batch
              | None => Ok batch
              end;
            match skipDecode currKey iter with
            | (Err e, _) => Err e
            | (Ok next, iter) =>
                ResolveLock_loop fuel' iter (default currKey next) startTS commitTS batch
            end
        end
      else Ok batch
  end.

Definition ResolveLock (mvcc : MVCCLevelDB) (startKey endKey : bytes)
    (startTS commitTS : Z) : option goerror * MVCCLevelDB :=
  write_or_err mvcc (deadlockDetector mvcc)
    ('(iter, currKey) ← newScanIterator (EDB mvcc) startKey endKey;
     ResolveLock_loop (iter_fuel iter) iter currKey startTS commitTS []).

(** ** Garbage collection *)

Definition gc_lock_error : goerror := ErrOther "key has dagger with startTs under safePoint".

(** The versions of one key.  [Some] key is the key of the pair that ended the
    loop, [None] the end of the iterator. *)
Fixpoint GC_values (fuel : nat) (iter : Iterator) (currKey : bytes) (safePoint : Z)
    (keepNext : bool) (batch : Batch) : res (option bytes * Iterator * Batch) :=
  match fuel with
  | O => Err out_of_fuel
  | S fuel' =>
      if it_Valid iter then
        match valueDecode currKey iter with
        | (Err e, _) => Err e
        | (Ok None, iter) =>
            '(currKey, _) ← mvccDecode (it_Key iter);
            Ok (Some currKey, iter, batch)
        | (Ok (Some value), iter) =>
            if safePoint <? val_commitTS value
            then GC_values fuel' iter currKey safePoint keepNext batch
            else if (val_valueType value =? typePut) || (val_valueType value =? typeDelete)
            then
              let batch :=
                if negb keepNext || (val_valueType value =? typeDelete)
                then batch ++ [BatchDelete (mvccEncode currKey (val_commitTS value))]
                else batch in
              GC_values fuel' iter currKey safePoint false batch
            else
              GC_values fuel' iter currKey safePoint keepNext
                (batch ++ [BatchDelete (mvccEncode currKey (val_commitTS value))])
        end
      else Ok (None, iter, batch)
  end.

Fixpoint GC_loop (fuel : nat) (iter : Iterator) (currKey : bytes) (safePoint : Z)
    (batch : Batch) : res Batch :=
  match fuel with
  | O => Err out_of_fuel
  | S fuel' =>
      if it_Valid iter then
        match lockDecode currKey iter with
        | (Err e, _) => Err e
        | (Ok dec, iter) =>
            if (match dec with
                | Some dagger => lock_startTS dagger <=? safePoint
                | None => false
                end)
            then Err gc_lock_error
            else
              '(next, iter, batch) ← GC_values (iter_fuel iter) iter currKey safePoint true batch;
              GC_loop fuel' iter (default currKey next) safePoint batch
        end
      else Ok batch
  end.

Definition GC (mvcc : MVCCLevelDB) (startKey endKey : bytes) (safePoint : Z)
    : option goerror * MVCCLevelDB :=
  write_or_err mvcc (deadlockDetector mvcc)
    ('(iter, currKey) ← newScanIterator (EDB mvcc) startKey endKey;
     GC_loop (iter_fuel iter) iter currKey safePoint []).

(** ** Raw key-value operations *)

Definition write_log (mvcc : MVCCLevelDB) (batch : Batch) : MVCCLevelDB :=
  MkStore (Write (EDB mvcc) batch).2 (deadlockDetector mvcc).

(** Errors of the raw operations are logged and dropped. *)
Definition RawPut (mvcc : MVCCLevelDB) (key value : bytes) : MVCCLevelDB :=
  write_log mvcc [BatchPut key value].

(** [None] is the panic of [values[i]] out of range. *)
Fixpoint RawBatchPut_batch (keys values : list bytes) : option Batch :=
  match keys, values with
  | [], _ => Some []
  | key :: keys', value :: values' =>
      batch ← RawBatchPut_batch keys' values';
      Some (BatchPut key value :: batch)
  | _ :: _, [] => None
  end.

Definition RawBatchPut (mvcc : MVCCLevelDB) (keys values : list bytes)
    : option MVCCLevelDB :=
  batch ← RawBatchPut_batch keys values;
  Some (write_log mvcc batch).

Definition RawGet (mvcc : MVCCLevelDB) (key : bytes) : option bytes :=
  ok_option (DBGet (EDB mvcc) key).

Definition RawBatchGet (mvcc : MVCCLevelDB) (keys : list bytes) : list (option bytes) :=
  (fun key => ok_option (DBGet (EDB mvcc) key)) <$> keys.

Definition RawDelete (mvcc : MVCCLevelDB) (key : bytes) : MVCCLevelDB :=
  write_log mvcc [BatchDelete key].

Definition RawBatchDelete (mvcc : MVCCLevelDB) (keys : list bytes) : MVCCLevelDB :=
  write_log mvcc (BatchDelete <$> keys).

Fixpoint RawScan_loop (items : list (bytes * bytes)) (endKey : bytes) (limit : Z)
    (pairs : list Pair) : list Pair :=
  match items with
  | [] => pairs
  | (key, value) :: items' =>
      if Z.of_nat (length pairs) <? limit then
        if negb (bool_decide (endKey = [])) && bleb endKey key then pairs
        else RawScan_loop items' endKey limit (pairs ++ [MkPair key (Some value) None])
      else pairs
  end.

Definition RawScan (mvcc : MVCCLevelDB) (startKey endKey : bytes) (limit : Z) : list Pair :=
  RawScan_loop (NewIterator (EDB mvcc) startKey []).1 endKey limit [].

Fixpoint RawReverseScan_loop (items : list (bytes * bytes)) (endKey : bytes) (limit : Z)
    (pairs : list Pair) : list Pair :=
  match items with
  | [] => pairs
  | (key, value) :: items' =>
      if Z.of_nat (length pairs) <? limit then
        if bltb key endKey then pairs
        else RawReverseScan_loop items' endKey limit (pairs ++ [MkPair key (Some value) None])
      else pairs
  end.

Definition RawReverseScan (mvcc : MVCCLevelDB) (startKey endKey : bytes) (limit : Z)
    : list Pair :=
  RawReverseScan_loop (rev (NewIterator (EDB mvcc) [] startKey).1) endKey limit [].

Definition doRawDeleteRange (mvcc : MVCCLevelDB) (startKey endKey : bytes)
    : option goerror * MVCCLevelDB :=
  let batch := (fun p : bytes * bytes => BatchDelete p.1)
                 <$> (NewIterator (EDB mvcc) startKey endKey).1 in
  write_or_err mvcc (deadlockDetector mvcc) (Ok batch).

Definition RawDeleteRange (mvcc : MVCCLevelDB) (startKey endKey : bytes) : MVCCLevelDB :=
  (doRawDeleteRange mvcc startKey endKey).2.

Definition DeleteRange (mvcc : MVCCLevelDB) (startKey endKey : bytes)
    : option goerror * MVCCLevelDB :=
  doRawDeleteRange mvcc (EncodeBytes [] startKey) (EncodeBytes [] endKey).

(** ** Debugging *)

Definition shortValueMaxLen : nat := 64.

Definition isShortValue (value : bytes) : bool := bool_decide (length value <= shortValueMaxLen)%nat.

Definition short_value (value : bytes) : bytes := if isShortValue value then value else [].

(** [None] is an index out of range. *)
Definition valueTypeOpMap (t : Z) : option Z :=
  if t =? typePut then Some Op_Put
  else if t =? typeDelete then Some Op_Del
  else if t =? typeRollback then Some Op_Rollback
  else if t =? typeLock then Some Op_Lock
  else None.

(** [None] is a panic, [Some (Err _)] the nil result after a decoding error. *)
Fixpoint MvccGetByKey_loop (fuel : nat) (iter : Iterator) (key : bytes)
    (writes : list MvccWrite) (values : list (Z * bytes))
    : option (res (list MvccWrite * list (Z * bytes))) :=
  match fuel with
  | O => Some (Err out_of_fuel)
  | S fuel' =>
      if it_Valid iter then
        match valueDecode key iter with
        | (Err e, _) => Some (Err e)
        | (Ok None, _) => Some (Ok (writes, values))
        | (Ok (Some value), iter) =>
            tp ← valueTypeOpMap (val_valueType value);
            MvccGetByKey_loop fuel' iter key
              (writes ++ [MkMvccWrite tp (val_startTS value) (val_commitTS value)
                            (short_value (val_value value))])
              (values ++ [(val_startTS value, val_value value)])
        end
      else Some (Ok (writes, values))
  end.

Definition MvccGetByKey (mvcc : MVCCLevelDB) (key : bytes) : option (res MvccInfo) :=
  let startKey := mvccEncode key lockVer in
  let iter := newIterator (EDB mvcc) startKey [] in
  match lockDecode key iter with
  | (Err e, _) => Some (Err e)
  | (Ok dec1, iter) =>
      let lock := (fun dagger =>
        MkMvccLock (lock_op dagger) (lock_startTS dagger) (lock_primary dagger)
          (short_value (lock_value dagger))) <$> dec1 in
      r ← MvccGetByKey_loop (iter_fuel iter) iter key [] [];
      Some ('(writes, values) ← r; Ok (MkMvccInfo lock writes values))
  end.

(** The first pair whose value reads as a write record of the transaction; the
    error is that of decoding its key. *)
Fixpoint find_startTS (items : list (bytes * bytes)) (starTS : Z) : option (res bytes) :=
  match items with
  | [] => None
  | (k, v) :: items' =>
      match value_UnmarshalBinary v with
      | Ok value =>
          if val_startTS value =? starTS
          then Some ('(_, key) ← DecodeBytes k; Ok key)
          else find_startTS items' starTS
      | Err _ => find_startTS items' starTS
      end
  end.

Definition MvccGetByStartTS (mvcc : MVCCLevelDB) (starTS : Z) : option (res MvccInfo * bytes) :=
  match find_startTS (it_items (newIterator (EDB mvcc) [] [])) starTS with
  | Some (Err e) => Some (Err e, [])
  | Some (Ok key) => r ← MvccGetByKey mvcc key; Some (r, key)
  | None => r ← MvccGetByKey mvcc []; Some (r, [])
  end.

End ops.
