(* ===== verification/MvccView.v ===== *)
(** * The logical view of the store

    The LevelDB pairs of a well-formed store are the encodings of typed items:
    the lock of a key, or one committed version of it.  This module decodes
    the contents of the store into [lock_at] and [write_at], shows that an
    iterator over a well-formed store enumerates typed items in the order of
    the key layout, and gives the behaviour of the decoders on them. *)

From stdpp Require Import base gmap list strings.
From Stdlib Require Import Strings.Byte ZArith Lia Sorted.
From S2P Require Import Prelude External Marshal Mvcc MvccOps.
Open Scope Z_scope.

Inductive item : Type :=
| ILock (key : bytes) (l : mvccLock)
| IVal (key : bytes) (v : mvccValue).

Definition item_key (i : item) : bytes :=
  match i with ILock k _ => k | IVal k _ => k end.
Definition item_ver (i : item) : Z :=
  match i with ILock _ _ => lockVer | IVal _ v => val_commitTS v end.
Definition item_bytes (i : item) : bytes :=
  match i with ILock _ l => lock_bytes l | IVal _ v => value_bytes v end.

(** A version is never at the lock's place and has one of the four types. *)
Definition item_ok (i : item) : Prop :=
  match i with
  | ILock _ l => lock_ok l
  | IVal _ v =>
      value_ok v /\ (val_commitTS v < lockVer /\ typePut <= val_valueType v <= typeLock)
  end.

(** Keys ascend, versions of one key descend: the key layout of the store. *)
Definition item_lt (i j : item) : Prop :=
  item_key i <b item_key j \/ (item_key i = item_key j /\ item_ver j < item_ver i).

Definition ver_gt (v w : mvccValue) : Prop := val_commitTS w < val_commitTS v.

Section view.
Context `{CodecLaws} `{LevelDBLaws}.

Definition raw_item (i : item) : bytes * bytes :=
  (mvccEncode (item_key i) (item_ver i), item_bytes i).

(** The iterator over a list of items. *)
Definition iter_of (T : list item) : Iterator := MkIter (raw_item <$> T) None.

Definition wf (db : DB) : Prop :=
  map_Forall (fun rk rv => exists i, item_ok i /\ raw_item i = (rk, rv)) (contents db).

Definition lock_at (db : DB) (k : bytes) : option mvccLock :=
  raw ← contents db !! mvccEncode k lockVer; ok_option (lock_UnmarshalBinary raw).

Definition write_at (db : DB) (k : bytes) (ts : Z) : option mvccValue :=
  if decide (0 <= ts < lockVer) then
    raw ← contents db !! mvccEncode k ts; ok_option (value_UnmarshalBinary raw)
  else None.

Definition has_item (db : DB) (i : item) : Prop :=
  match i with
  | ILock k l => lock_at db k = Some l
  | IVal k v => write_at db k (val_commitTS v) = Some v
  end.

(** The versions of a key, newest first. *)
Definition is_versions (db : DB) (k : bytes) (vs : list mvccValue) : Prop :=
  StronglySorted ver_gt vs /\
  forall v, v ∈ vs <-> write_at db k (val_commitTS v) = Some v.

(** ** Encoded keys *)

Lemma lockVer_u64 : u64 lockVer.
Proof. unfold u64, lockVer, MaxUint64, u64_mod. lia. Qed.

Lemma mvccEncode_app k v : mvccEncode k v = EncodeBytes [] k ++ EncodeUintDesc [] v.
Proof. unfold mvccEncode. apply EncodeUintDesc_app. Qed.

Lemma mvccDecode_Encode k v : u64 v -> mvccDecode (mvccEncode k v) = Ok (k, v).
Proof.
  intros Hv. unfold mvccDecode. rewrite mvccEncode_app, DecodeBytes_Encode. step_res.
  rewrite decide_False by apply EncodeUintDesc_nonempty.
  rewrite <- (app_nil_r (EncodeUintDesc [] v)), DecodeUintDesc_Encode by done.
  step_res. by rewrite decide_True.
Qed.

Lemma bytes_compare_app_same (a r s : bytes) :
  bytes_compare (a ++ r) (a ++ s) = bytes_compare r s.
Proof. induction a as [|x a IH]; simpl; [done|]. by rewrite N.compare_refl. Qed.

Lemma mvccEncode_order k v k' v' :
  u64 v -> u64 v' ->
  bytes_compare (mvccEncode k v) (mvccEncode k' v') =
  match bytes_compare k k' with Eq => Z.compare v' v | c => c end.
Proof.
  intros Hv Hv'. rewrite !mvccEncode_app.
  destruct (bytes_compare_spec k k') as [->|L|L].
  - by rewrite bytes_compare_app_same, EncodeUintDesc_order.
  - rewrite EncodeBytes_order by (by apply blt_neq). done.
  - rewrite EncodeBytes_order by (intros ->; by apply blt_irrefl in L).
    by apply bytes_compare_Gt.
Qed.

Lemma mvccEncode_inj k v k' v' :
  u64 v -> u64 v' -> mvccEncode k v = mvccEncode k' v' -> k = k' /\ v = v'.
Proof.
  intros Hv Hv' E. apply (f_equal mvccDecode) in E.
  rewrite !mvccDecode_Encode in E by done. by injection E as -> ->.
Qed.

Lemma mvccEncode_nonempty k v : mvccEncode k v <> [].
Proof.
  rewrite mvccEncode_app. intros E. apply app_nil in E as [E _].
  by apply EncodeBytes_nonempty in E.
Qed.

(** ** Items *)

Lemma item_ver_u64 i : item_ok i -> u64 (item_ver i).
Proof. destruct i as [k l|k v]; [intros; apply lockVer_u64|intros [[] ?]; done]. Qed.

Lemma raw_item_lt i j : item_ok i -> item_ok j ->
  pair_lt (raw_item i) (raw_item j) <-> item_lt i j.
Proof.
  intros Hi Hj. apply item_ver_u64 in Hi, Hj. unfold pair_lt, item_lt, raw_item, blt.
  cbn [fst]. rewrite mvccEncode_order by done.
  destruct (bytes_compare_spec (item_key i) (item_key j)) as [E|L|L].
  - rewrite Z.compare_lt_iff. split; [by right|intros [A|A]; [done|lia]].
  - split; [by left|done].
  - split; [done|intros [A|[A _]]; [done|]].
    rewrite A in L. by apply blt_irrefl in L.
Qed.

Lemma decode_item_key i : item_ok i -> mvccDecode (raw_item i).1 = Ok (item_key i, item_ver i).
Proof. intros Hi. apply mvccDecode_Encode. by apply item_ver_u64. Qed.

Lemma item_ok_bytes_inj i j :
  item_ok i -> item_ok j -> raw_item i = raw_item j -> i = j.
Proof.
  intros Hi Hj E. injection E as Ek Eb.
  apply mvccEncode_inj in Ek as [Ek Ev]; [|by apply item_ver_u64..].
  destruct i as [k l|k v], j as [k' l'|k' v']; simpl in *; subst.
  - apply (f_equal lock_UnmarshalBinary) in Eb. rewrite !lock_Unmarshal_bytes in Eb by done.
    congruence.
  - destruct Hj. unfold lockVer, MaxUint64 in *. lia.
  - destruct Hi. unfold lockVer, MaxUint64 in *. lia.
  - destruct Hi, Hj. apply (f_equal value_UnmarshalBinary) in Eb.
    rewrite !value_Unmarshal_bytes in Eb by done. congruence.
Qed.

(** What is stored under the encoded key of an item, in the logical view. *)
Lemma wf_lookup_item db i :
  wf db -> item_ok i ->
  contents db !! (raw_item i).1 = Some (raw_item i).2 <-> has_item db i.
Proof.
  intros W Hi. destruct i as [k l|k v]; cbn [raw_item fst snd item_key item_ver has_item item_bytes].
  - unfold lock_at. split.
    + intros E. unfold item_ver, item_bytes. rewrite E. step_opt. by rewrite lock_Unmarshal_bytes.
    + destruct (contents db !! mvccEncode k lockVer) as [raw|] eqn:E; [|done].
      step_opt. intros U. destruct (W _ _ E) as (j & Hj & Rj). injection Rj as Rk Rb.
      apply mvccEncode_inj in Rk as [Rk Rv]; [|by apply item_ver_u64|apply lockVer_u64].
      destruct j as [k' l'|k' v']; simpl in *; [|destruct Hj; lia].
      subst. rewrite lock_Unmarshal_bytes in U by done. by injection U as ->.
  - destruct Hi as [Hv Hc]. unfold write_at.
    pose proof (value_ok_commitTS _ Hv) as [? _].
    rewrite decide_True by lia. split.
    + intros E. unfold item_ver, item_bytes. rewrite E. step_opt. by rewrite value_Unmarshal_bytes.
    + destruct (contents db !! mvccEncode k (val_commitTS v)) as [raw|] eqn:E; [|done].
      step_opt. intros U. destruct (W _ _ E) as (j & Hj & Rj). injection Rj as Rk Rb.
      apply mvccEncode_inj in Rk as [Rk Rv];
        [|by apply item_ver_u64|by destruct Hv].
      destruct j as [k' l'|k' v']; simpl in *; [lia|].
      subst. destruct Hj as [Hv' _].
      rewrite value_Unmarshal_bytes in U by done. by injection U as ->.
Qed.

Lemma wf_has_item_ok db i : wf db -> has_item db i -> item_ok i.
Proof.
  intros W. destruct i as [k l|k v]; cbn [has_item item_ok].
  - unfold lock_at. destruct (contents db !! _) as [raw|] eqn:E; [|done]. step_opt.
    destruct (W _ _ E) as (j & Hj & Rj). injection Rj as Rk Rb.
    apply mvccEncode_inj in Rk as [Rk Rv]; [|by apply item_ver_u64|apply lockVer_u64].
    destruct j as [k' l'|k' v']; simpl in *; [|destruct Hj; lia].
    subst. rewrite lock_Unmarshal_bytes by done. intros U. by injection U as <-.
  - unfold write_at. destruct (decide _) as [R|]; [|done].
    destruct (contents db !! _) as [raw|] eqn:E; [|done]. step_opt.
    destruct (W _ _ E) as (j & Hj & Rj). injection Rj as Rk Rb.
    assert (u64 (val_commitTS v)) by (unfold u64, u64_mod, lockVer, MaxUint64 in *; lia).
    apply mvccEncode_inj in Rk as [Rk Rv]; [|by apply item_ver_u64|done].
    destruct j as [k' l'|k' v']; simpl in *; [lia|].
    subst. destruct Hj. rewrite value_Unmarshal_bytes by done. intros U.
    by injection U as <-.
Qed.

Lemma write_at_commitTS db k ts v : wf db -> write_at db k ts = Some v -> val_commitTS v = ts.
Proof.
  intros W. unfold write_at. destruct (decide _) as [R|]; [|done].
  destruct (contents db !! _) as [raw|] eqn:E; [|done]. step_opt.
  destruct (W _ _ E) as (j & Hj & Rj). injection Rj as Rk Rb.
  assert (u64 ts) by (unfold u64, u64_mod, lockVer, MaxUint64 in *; lia).
  apply mvccEncode_inj in Rk as [Rk Rv]; [|by apply item_ver_u64|done].
  destruct j as [k' l'|k' v']; simpl in *; [lia|].
  subst. destruct Hj. rewrite value_Unmarshal_bytes by done. intros U. by injection U as <-.
Qed.

Lemma write_at_has db k ts v :
  wf db -> write_at db k ts = Some v -> has_item db (IVal k v) /\ val_commitTS v = ts.
Proof.
  intros W E. pose proof (write_at_commitTS _ _ _ _ W E) as <-. done.
Qed.

(** ** What an iterator enumerates *)

Lemma Forall_decode (L : list (bytes * bytes)) :
  Forall (fun p => exists i, item_ok i /\ raw_item i = p) L ->
  exists T, L = raw_item <$> T /\ Forall item_ok T.
Proof.
  induction 1 as [|p L (i & Hi & <-) _ (T & -> & HT)].
  - by exists [].
  - exists (i :: T). by split; [|constructor].
Qed.

Lemma sorted_items T :
  Forall item_ok T -> StronglySorted pair_lt (raw_item <$> T) -> StronglySorted item_lt T.
Proof.
  induction T as [|i T IH]; intros HT S; [constructor|].
  apply Forall_cons in HT as [Hi HT]. rewrite fmap_cons in S.
  apply StronglySorted_inv in S as [S F].
  constructor; [by apply IH|].
  rewrite Forall_fmap in F. rewrite Forall_forall in F, HT |- *.
  intros j Hj. apply raw_item_lt; [done|by apply HT|by apply F].
Qed.

Lemma iterator_items db s l :
  wf db ->
  exists T, (NewIterator db s l).1 = raw_item <$> T /\ Forall item_ok T /\
    StronglySorted item_lt T /\
    forall i, i ∈ T <-> has_item db i /\ in_range s l (raw_item i).1.
Proof.
  intros W.
  destruct (Forall_decode (NewIterator db s l).1) as (T & E & HT).
  { apply Forall_forall. intros [k v] Hin. apply NewIterator_elem in Hin as [Hc _].
    by apply W in Hc. }
  pose proof (NewIterator_sorted db s l) as S. rewrite E in S.
  exists T. split_and!; [done|done|by apply sorted_items|].
  intros i. split.
  - intros Hi. assert (item_ok i) as Ok by (rewrite Forall_forall in HT; by apply HT).
    assert (raw_item i ∈ (NewIterator db s l).1) as M
      by (rewrite E; by apply list_elem_of_fmap_2).
    destruct (raw_item i) as [rk rv] eqn:Er. apply NewIterator_elem in M as [Hc Hr].
    split; [|done]. apply wf_lookup_item; [done..|]. by rewrite Er.
  - intros [Hh Hr]. pose proof (wf_has_item_ok _ _ W Hh) as Ok.
    apply wf_lookup_item in Hh; [|done..].
    assert (raw_item i ∈ (NewIterator db s l).1) as M.
    { destruct (raw_item i) as [rk rv]. by apply NewIterator_elem. }
    rewrite E in M. apply list_elem_of_fmap in M as (j & Ej & Hj).
    rewrite Forall_forall in HT.
    by rewrite (item_ok_bytes_inj i j Ok (HT _ Hj) Ej).
Qed.

Lemma newIterator_items db s l :
  wf db ->
  exists T, newIterator db s l = iter_of T /\ Forall item_ok T /\
    StronglySorted item_lt T /\
    forall i, i ∈ T <-> has_item db i /\ in_range s l (raw_item i).1.
Proof.
  intros W. destruct (iterator_items db s l W) as (T & E & HT & S & M).
  exists T. split_and!; try done. unfold newIterator, iter_of.
  pose proof (NewIterator_error db s l) as Er.
  destruct (NewIterator db s l) as [L e]. by simpl in *; subst.
Qed.

(** ** Range bounds *)

Lemma in_range_start k i :
  item_ok i ->
  in_range (mvccEncode k lockVer) [] (raw_item i).1 <-> k <=b item_key i.
Proof.
  intros Hi. apply item_ver_u64 in Hi as U. unfold in_range, raw_item, ble. cbn [fst].
  rewrite mvccEncode_order by (done || apply lockVer_u64).
  assert (item_ver i <= lockVer).
  { unfold u64, u64_mod, lockVer, MaxUint64 in *. lia. }
  destruct (bytes_compare k (item_key i)); [|by intuition auto..].
  split; [done|]. intros _. split; [|by left].
  rewrite Z.compare_gt_iff. lia.
Qed.

Lemma before_limit k i :
  item_ok i -> (raw_item i).1 <b mvccEncode k lockVer <-> item_key i <b k.
Proof.
  intros Hi. apply item_ver_u64 in Hi as U. unfold raw_item, blt. cbn [fst].
  rewrite mvccEncode_order by (done || apply lockVer_u64).
  assert (item_ver i <= lockVer).
  { unfold u64, u64_mod, lockVer, MaxUint64 in *. lia. }
  destruct (bytes_compare (item_key i) k); [|done..].
  rewrite Z.compare_lt_iff. split; [lia|done].
Qed.

(** ** The items of the first key *)

Lemma sorted_split k T :
  Forall item_ok T -> StronglySorted item_lt T -> Forall (fun i => k <=b item_key i) T ->
  exists ol vs rest,
    T = (ILock k <$> option_list ol) ++ (IVal k <$> vs) ++ rest /\
    Forall (fun i => k <b item_key i) rest /\ StronglySorted ver_gt vs.
Proof.
  induction T as [|i T IH]; intros HT S B.
  { exists None, [], []. split_and!; [done|constructor|constructor]. }
  apply Forall_cons in HT as [Hi HT]. apply StronglySorted_inv in S as [S F].
  apply Forall_cons in B as [Bi B].
  destruct (IH HT S B) as (ol & vs & rest & -> & Hrest & Svs).
  apply ble_iff in Bi as [L|E].
  - exists None, [], (i :: (ILock k <$> option_list ol) ++ (IVal k <$> vs) ++ rest).
    split_and!; [done| |constructor].
    constructor; [done|]. eapply Forall_impl; [exact F|].
    intros j [Lj|[Ej _]]; [by eapply blt_trans|by rewrite <- Ej].
  - assert (ol = None) as ->.
    { destruct ol as [l'|]; [|done]. simpl in F. apply Forall_cons in F as [[A|[_ A]] _].
      - simpl in A. rewrite E in A. by apply blt_irrefl in A.
      - apply item_ver_u64 in Hi. simpl in A. unfold u64, u64_mod, lockVer, MaxUint64 in *. lia. }
    simpl in *. destruct i as [k' l|k' v]; simpl in E; subst k'.
    + by exists (Some l), vs, rest.
    + exists None, (v :: vs), rest. split_and!; [done|done|].
      constructor; [done|]. apply Forall_app in F as [F _].
      rewrite Forall_fmap in F. eapply Forall_impl; [exact F|].
      intros w [A|[_ A]]; [by apply blt_irrefl in A|done].
Qed.

(** Seeking to the lock of [k]: its lock if any, its versions, then the items
    of larger keys. *)
Lemma seek_items db k :
  wf db ->
  exists vs rest,
    is_versions db k vs /\
    newIterator db (mvccEncode k lockVer) [] =
      iter_of ((ILock k <$> option_list (lock_at db k)) ++ (IVal k <$> vs) ++ rest) /\
    Forall item_ok ((ILock k <$> option_list (lock_at db k)) ++ (IVal k <$> vs) ++ rest) /\
    Forall (fun i => k <b item_key i) rest.
Proof.
  intros W. destruct (newIterator_items db (mvccEncode k lockVer) [] W)
    as (T & E & HT & S & M).
  destruct (sorted_split k T HT S) as (ol & vs & rest & -> & Hrest & Svs).
  { apply Forall_forall. intros i Hi. apply in_range_start.
    - rewrite Forall_forall in HT. by apply HT.
    - by apply M. }
  assert (forall i, item_key i = k -> i ∈ rest -> False) as Nr.
  { intros i Ei Hi. rewrite Forall_forall in Hrest. apply Hrest in Hi.
    rewrite Ei in Hi. by apply blt_irrefl in Hi. }
  assert (forall i, item_key i = k ->
    has_item db i <-> i ∈ (ILock k <$> option_list ol) ++ (IVal k <$> vs)) as Mk.
  { intros i Ei. split.
    - intros Hh. assert (i ∈ (ILock k <$> option_list ol) ++ (IVal k <$> vs) ++ rest) as Hi.
      { apply M. split; [done|]. apply in_range_start; [by eapply wf_has_item_ok|].
        rewrite Ei. apply ble_refl. }
      rewrite app_assoc in Hi. apply elem_of_app in Hi as [Hi|Hi]; [done|].
      by apply Nr in Hi.
    - intros Hi. apply M. rewrite app_assoc. apply elem_of_app. by left. }
  assert (lock_at db k = ol) as ->.
  { destruct ol as [l|].
    - apply (Mk (ILock k l)); [done|]. apply elem_of_cons. by left.
    - destruct (lock_at db k) as [l|] eqn:El; [|done].
      apply (Mk (ILock k l)) in El; [|done]. simpl in El.
      apply list_elem_of_fmap in El as (? & ? & _). done. }
  exists vs, rest. split_and!; try done.
  split; [done|]. intros v. change (write_at _ _ _ = _) with (has_item db (IVal k v)).
  rewrite (Mk (IVal k v)), elem_of_app, !list_elem_of_fmap by done. split.
  - intros Hv. right. eauto.
  - intros [(? & ? & _)|(w & Ew & Hw)]; [done|]. by injection Ew as ->.
Qed.

(** ** Decoders on items *)

Definition other_key (k : bytes) (T : list item) : Prop :=
  match T with [] => True | i :: _ => item_key i <> k end.

Lemma lockDecode_cons k rk rv L :
  lockDecode k (MkIter ((rk, rv) :: L) None) =
    match mvccDecode rk with
    | Err e => (Err e, MkIter ((rk, rv) :: L) None)
    | Ok (key, ver) =>
        if negb (bool_decide (key = k)) then (Ok None, MkIter ((rk, rv) :: L) None)
        else if negb (ver =? lockVer) then (Ok None, MkIter ((rk, rv) :: L) None)
        else match lock_UnmarshalBinary rv with
             | Err e => (Err e, MkIter ((rk, rv) :: L) None)
             | Ok dagger => (Ok (Some dagger), MkIter L None)
             end
    end.
Proof. done. Qed.

Lemma valueDecode_cons k rk rv L :
  valueDecode k (MkIter ((rk, rv) :: L) None) =
    match mvccDecode rk with
    | Err e => (Err e, MkIter ((rk, rv) :: L) None)
    | Ok (key, ver) =>
        if negb (bool_decide (key = k)) then (Ok None, MkIter ((rk, rv) :: L) None)
        else if ver =? lockVer then (Ok None, MkIter ((rk, rv) :: L) None)
        else match value_UnmarshalBinary rv with
             | Err e => (Err e, MkIter ((rk, rv) :: L) None)
             | Ok value => (Ok (Some value), MkIter L None)
             end
    end.
Proof. done. Qed.

Lemma iter_of_cons i T :
  iter_of (i :: T) =
    MkIter ((mvccEncode (item_key i) (item_ver i), item_bytes i) :: (raw_item <$> T)) None.
Proof. done. Qed.

Lemma lockDecode_lock k l T :
  lock_ok l -> lockDecode k (iter_of (ILock k l :: T)) = (Ok (Some l), iter_of T).
Proof.
  intros Hl. rewrite iter_of_cons, lockDecode_cons.
  rewrite mvccDecode_Encode by apply lockVer_u64. cbn [item_key item_ver item_bytes].
  by rewrite bool_decide_true, lock_Unmarshal_bytes.
Qed.

Lemma lockDecode_none k T :
  Forall item_ok T -> (match T with ILock k' _ :: _ => k' <> k | _ => True end) ->
  lockDecode k (iter_of T) = (Ok None, iter_of T).
Proof.
  intros HT N. destruct T as [|i T]; [done|].
  apply Forall_cons in HT as [Hi _]. rewrite iter_of_cons, lockDecode_cons.
  rewrite mvccDecode_Encode by by apply item_ver_u64.
  destruct i as [k' l|k' v]; cbn [item_key item_ver].
  - by rewrite bool_decide_false.
  - case_bool_decide; [|done]. destruct Hi.
    by rewrite (proj2 (Z.eqb_neq _ _)) by lia.
Qed.

Lemma valueDecode_val k v T :
  item_ok (IVal k v) -> valueDecode k (iter_of (IVal k v :: T)) = (Ok (Some v), iter_of T).
Proof.
  intros Hv. rewrite iter_of_cons, valueDecode_cons.
  rewrite mvccDecode_Encode by by apply (item_ver_u64 (IVal k v)).
  cbn [item_key item_ver item_bytes]. destruct Hv as [Hv L].
  rewrite bool_decide_true, (proj2 (Z.eqb_neq _ _)) by (done || lia).
  by rewrite value_Unmarshal_bytes.
Qed.

Lemma valueDecode_none k T :
  Forall item_ok T -> (match T with IVal k' _ :: _ => k' <> k | _ => True end) ->
  valueDecode k (iter_of T) = (Ok None, iter_of T).
Proof.
  intros HT N. destruct T as [|i T]; [done|].
  apply Forall_cons in HT as [Hi _]. rewrite iter_of_cons, valueDecode_cons.
  rewrite mvccDecode_Encode by by apply item_ver_u64.
  destruct i as [k' l|k' v]; cbn [item_key item_ver].
  - by case_bool_decide.
  - by rewrite bool_decide_false.
Qed.

(** Skipping the current key stops at the first item of another key. *)
Definition head_key (T : list item) : option bytes :=
  match T with [] => None | i :: _ => Some (item_key i) end.

Lemma skipDecode_app k T1 T2 :
  Forall item_ok (T1 ++ T2) -> Forall (fun i => item_key i = k) T1 -> other_key k T2 ->
  skipDecode k (iter_of (T1 ++ T2)) = (Ok (head_key T2), iter_of T2).
Proof.
  intros HT F1 O2.
  assert (skip_loop k (raw_item <$> T1 ++ T2) = (Ok (head_key T2), raw_item <$> T2)) as E.
  { induction F1 as [|i T1 E F1 IH].
    - destruct T2 as [|i T2]; [done|]. apply Forall_cons in HT as [Hi _].
      cbn [app]. rewrite fmap_cons. cbn [skip_loop]. unfold raw_item at 1 2.
      rewrite mvccDecode_Encode by by apply item_ver_u64. by rewrite bool_decide_false.
    - apply Forall_cons in HT as [Hi HT].
      cbn [app]. rewrite fmap_cons. cbn [skip_loop]. unfold raw_item at 1.
      rewrite mvccDecode_Encode by by apply item_ver_u64.
      rewrite bool_decide_true by done. by apply IH. }
  unfold skipDecode, iter_of. cbn [it_items it_err]. rewrite E.
  unfold it_Error. cbn [it_items it_err]. by destruct (raw_item <$> T1 ++ T2).
Qed.

(** ** The effect of a batch on the view *)

Inductive lop : Type :=
| PutLock (key : bytes) (l : mvccLock)
| PutVal (key : bytes) (v : mvccValue)
| DelLock (key : bytes)
| DelVal (key : bytes) (ts : Z).

Definition raw_op (op : lop) : batch_op :=
  match op with
  | PutLock k l => BatchPut (mvccEncode k lockVer) (lock_bytes l)
  | PutVal k v => BatchPut (mvccEncode k (val_commitTS v)) (value_bytes v)
  | DelLock k => BatchDelete (mvccEncode k lockVer)
  | DelVal k ts => BatchDelete (mvccEncode k ts)
  end.

Definition lop_ok (op : lop) : Prop :=
  match op with
  | PutLock _ l => lock_ok l
  | PutVal _ v =>
      value_ok v /\ (val_commitTS v < lockVer /\ typePut <= val_valueType v <= typeLock)
  | DelLock _ => True
  | DelVal _ ts => 0 <= ts < lockVer
  end.

Definition lock_eff (k : bytes) (o : option mvccLock) (op : lop) : option mvccLock :=
  match op with
  | PutLock k' l => if decide (k' = k) then Some l else o
  | DelLock k' => if decide (k' = k) then None else o
  | _ => o
  end.

Definition write_eff (k : bytes) (ts : Z) (o : option mvccValue) (op : lop) : option mvccValue :=
  match op with
  | PutVal k' v => if decide (k' = k /\ val_commitTS v = ts) then Some v else o
  | DelVal k' ts' => if decide (k' = k /\ ts' = ts) then None else o
  | _ => o
  end.

Definition lock_in (m : gmap bytes bytes) (k : bytes) : option mvccLock :=
  raw ← m !! mvccEncode k lockVer; ok_option (lock_UnmarshalBinary raw).

Definition write_in (m : gmap bytes bytes) (k : bytes) (ts : Z) : option mvccValue :=
  if decide (0 <= ts < lockVer) then
    raw ← m !! mvccEncode k ts; ok_option (value_UnmarshalBinary raw)
  else None.

Definition wf_map (m : gmap bytes bytes) : Prop :=
  map_Forall (fun rk rv => exists i, item_ok i /\ raw_item i = (rk, rv)) m.

Lemma ver_u64 ts : 0 <= ts < lockVer -> u64 ts.
Proof. unfold u64, u64_mod, lockVer, MaxUint64. lia. Qed.

Lemma mvccEncode_eq_dec k v k' v' :
  u64 v -> u64 v' -> mvccEncode k v = mvccEncode k' v' <-> k = k' /\ v = v'.
Proof. intros. split; [by apply mvccEncode_inj|by intros [-> ->]]. Qed.

Lemma lock_in_apply_op m op k :
  lop_ok op -> lock_in (apply_op m (raw_op op)) k = lock_eff k (lock_in m k) op.
Proof.
  intros Hop. pose proof lockVer_u64. unfold lock_in.
  destruct op as [k' l|k' v|k'|k' ts]; cbn [raw_op apply_op lock_eff lop_ok] in *.
  - case_decide as E.
    + subst. rewrite lookup_insert_eq. step_opt. by rewrite lock_Unmarshal_bytes.
    + rewrite lookup_insert_ne; [done|]. rewrite mvccEncode_eq_dec by done. by intros [].
  - destruct Hop as [[] L]. rewrite lookup_insert_ne; [done|].
    rewrite mvccEncode_eq_dec by done. intros []. lia.
  - case_decide as E.
    + subst. by rewrite lookup_delete_eq.
    + rewrite lookup_delete_ne; [done|]. rewrite mvccEncode_eq_dec by done. by intros [].
  - rewrite lookup_delete_ne; [done|].
    rewrite mvccEncode_eq_dec by (done || by apply ver_u64). intros []. lia.
Qed.

Lemma write_in_apply_op m op k ts :
  lop_ok op -> write_in (apply_op m (raw_op op)) k ts =
    if decide (0 <= ts < lockVer) then write_eff k ts (write_in m k ts) op else None.
Proof.
  intros Hop. pose proof lockVer_u64. unfold write_in.
  case_decide as R; [|done]. apply ver_u64 in R as Ur.
  destruct op as [k' l|k' v|k'|k' ts']; cbn [raw_op apply_op write_eff lop_ok] in *.
  - rewrite lookup_insert_ne; [done|]. rewrite mvccEncode_eq_dec by done. intros []. lia.
  - destruct Hop as [Hv L]. pose proof (value_ok_commitTS _ Hv). case_decide as E.
    + destruct E as [-> <-]. rewrite lookup_insert_eq. step_opt.
      by rewrite value_Unmarshal_bytes.
    + rewrite lookup_insert_ne; [done|]. by rewrite mvccEncode_eq_dec.
  - rewrite lookup_delete_ne; [done|]. rewrite mvccEncode_eq_dec by done. intros []. lia.
  - case_decide as E.
    + destruct E as [-> ->]. by rewrite lookup_delete_eq.
    + rewrite lookup_delete_ne; [done|]. by rewrite mvccEncode_eq_dec by (by apply ver_u64).
Qed.

Lemma wf_apply_op m op : wf_map m -> lop_ok op -> wf_map (apply_op m (raw_op op)).
Proof.
  intros W Hop. destruct op as [k l|k v|k|k ts]; cbn [raw_op apply_op].
  - apply map_Forall_insert_2; [|done]. by exists (ILock k l).
  - apply map_Forall_insert_2; [|done]. by exists (IVal k v).
  - by apply map_Forall_delete.
  - by apply map_Forall_delete.
Qed.

Lemma wf_apply_batch b m :
  wf_map m -> Forall lop_ok b -> wf_map (apply_batch (raw_op <$> b) m).
Proof.
  intros W Hb. revert m W. induction Hb as [|op b Hop _ IH]; intros m W; [done|].
  rewrite fmap_cons. by apply IH, wf_apply_op.
Qed.

Lemma lock_in_apply_batch b m k :
  Forall lop_ok b ->
  lock_in (apply_batch (raw_op <$> b) m) k = fold_left (lock_eff k) b (lock_in m k).
Proof.
  intros Hb. revert m. induction Hb as [|op b Hop _ IH]; intros m; [done|].
  rewrite fmap_cons. cbn [apply_batch fold_left].
  rewrite <- lock_in_apply_op by done. apply IH.
Qed.

Lemma write_in_apply_batch b m k ts :
  Forall lop_ok b -> 0 <= ts < lockVer ->
  write_in (apply_batch (raw_op <$> b) m) k ts =
    fold_left (write_eff k ts) b (write_in m k ts).
Proof.
  intros Hb R. revert m. induction Hb as [|op b Hop _ IH]; intros m; [done|].
  rewrite fmap_cons. change (apply_batch (?x :: ?l) m) with (apply_batch l (apply_op m x)).
  rewrite IH, write_in_apply_op, decide_True by done. done.
Qed.

(** The store after a successful write of logical operations. *)
Lemma Write_view db b :
  wf db -> Forall lop_ok b ->
  (Write db (raw_op <$> b)).1 = None /\
  let db' := (Write db (raw_op <$> b)).2 in
  wf db' /\
  (forall k, lock_at db' k = fold_left (lock_eff k) b (lock_at db k)) /\
  (forall k ts, 0 <= ts < lockVer ->
     write_at db' k ts = fold_left (write_eff k ts) b (write_at db k ts)).
Proof.
  intros W Hb. split; [apply Write_ok|]. cbv zeta.
  pose proof (Write_contents db (raw_op <$> b)) as E. split_and!.
  - unfold wf. rewrite E. by apply wf_apply_batch.
  - intros k. change (lock_in (contents (Write db (raw_op <$> b)).2) k = 
                      fold_left (lock_eff k) b (lock_in (contents db) k)).
    rewrite E. by apply lock_in_apply_batch.
  - intros k ts R. change (write_in (contents (Write db (raw_op <$> b)).2) k ts = 
                      fold_left (write_eff k ts) b (write_in (contents db) k ts)).
    rewrite E. by apply write_in_apply_batch.
Qed.

Lemma write_at_range db k ts v : write_at db k ts = Some v -> 0 <= ts < lockVer.
Proof. unfold write_at. by case_decide. Qed.

(** The key layout: a versioned key decodes to the key and the version it
    was made of, and versioned keys are ordered by key and, for one key, from
    the newest version to the oldest, so that the lock comes first. *)
Theorem mvccKey_layout k v k' v' :
  u64 v -> u64 v' ->
  mvccDecode (mvccEncode k v) = Ok (k, v) /\
  (mvccEncode k v <b mvccEncode k' v' <-> k <b k' \/ (k = k' /\ v' < v)) /\
  (mvccEncode k lockVer <=b mvccEncode k v).
Proof.
  intros Hv Hv'. split; [by apply mvccDecode_Encode|]. split.
  - unfold blt at 1. rewrite mvccEncode_order by done.
    destruct (bytes_compare_spec k k') as [->|L|L].
    + rewrite Z.compare_lt_iff. split; [auto|]. intros [L|[_ L]]; [by apply blt_irrefl in L|done].
    + split; [auto|done].
    + split; [done|]. intros [A|[-> _]]; [|by apply blt_irrefl in L].
      exfalso. eapply blt_irrefl, blt_trans; eauto.
  - unfold ble. rewrite mvccEncode_order, bytes_compare_refl by (done || apply lockVer_u64).
    rewrite Z.compare_gt_iff. unfold u64, u64_mod, lockVer, MaxUint64 in *. lia.
Qed.

End view.
