(* ===== verification/MvccScan.v ===== *)
(** * Range operations over the iterator

    A scan iterator over a well-formed store enumerates the present keys of
    the range in order, each with its lock and its versions ([scan_groups]).
    From that decomposition: [Scan] is [BatchGet] over the keys of the range,
    [ScanLock] lists exactly the locks of the range, and the fuel of their
    loops never runs out. *)

From stdpp Require Import base gmap list sorting strings.
From Stdlib Require Import Strings.Byte ZArith Lia Sorted.
From S2P Require Import Prelude External Marshal Mvcc MvccOps MvccView MvccRead.
Open Scope Z_scope.

(** The lock and the versions of one key as an iterator meets them. *)
Record group : Type := MkGroup {
  g_key : bytes;
  g_lock : option mvccLock;
  g_vals : list mvccValue;
}.

Definition g_items (g : group) : list item := group_items (g_key g) (g_lock g) (g_vals g).

Definition group_lt (g h : group) : Prop := g_key g <b g_key h.

Definition g_nonempty (g : group) : Prop := g_items g <> [].

(** A key of the range of a request: an empty [endKey] is no bound. *)
Definition key_range (startKey endKey k : bytes) : Prop :=
  startKey <=b k /\ (endKey = [] \/ k <b endKey).

#[export] Instance key_range_dec s e k : Decision (key_range s e k).
Proof. unfold key_range. apply _. Defined.

Section scan.
Context `{CodecLaws} `{LevelDBLaws} `{Kvrpcpb} `{Oracle} `{Deadlock}.

(** A key with a lock or a version. *)
Definition present (db : DB) (k : bytes) : Prop :=
  exists i, has_item db i /\ item_key i = k.

Definition group_of (db : DB) (g : group) : Prop :=
  lock_at db (g_key g) = g_lock g /\ is_versions db (g_key g) (g_vals g).

(** ** Items fall into groups *)

Lemma sorted_groups_len n T :
  (length T <= n)%nat -> Forall item_ok T -> StronglySorted item_lt T ->
  exists G, T = G ≫= g_items /\ StronglySorted group_lt G /\ Forall g_nonempty G /\
    Forall (fun g => StronglySorted ver_gt (g_vals g)) G.
Proof.
  revert T. induction n as [|n IH]; intros T L HT S.
  { destruct T; [|simpl in L; lia]. exists []. by repeat constructor. }
  destruct T as [|i T']; [exists []; by repeat constructor|].
  pose proof (StronglySorted_inv S) as [_ F].
  destruct (sorted_split (item_key i) (i :: T') HT S) as (ol & vs & rest & E & R & Sv).
  { constructor; [apply ble_refl|]. eapply Forall_impl; [exact F|].
    intros j [A|[<- _]]; auto with mdb. }
  assert (group_items (item_key i) ol vs <> []) as N.
  { unfold group_items. intros N. destruct ol, vs; try done. simpl in E.
    rewrite <- E in R. apply Forall_cons in R as [A _]. by apply blt_irrefl in A. }
  destruct (IH rest) as (G & -> & SG & NG & VG).
  - rewrite E in L. rewrite app_assoc, length_app in L.
    change (_ ++ _) with (group_items (item_key i) ol vs) in L at 1.
    destruct (group_items _ _ _); [done|]. simpl in L. lia.
  - rewrite E in HT. by do 2 apply Forall_app in HT as [_ HT].
  - rewrite E in S. apply StronglySorted_app_1_r in S.
    by apply StronglySorted_app_1_r in S.
  - exists (MkGroup (item_key i) ol vs :: G). split_and!; [|..|by constructor|by constructor].
    + by rewrite E, app_assoc.
    + constructor; [done|]. rewrite Forall_forall in R. rewrite Forall_forall in NG.
      apply Forall_forall. intros g Hg.
      unfold group_lt. simpl. specialize (NG g Hg). unfold g_nonempty in NG.
      destruct (g_items g) as [|j js] eqn:Ej; [done|].
      assert (item_key j = g_key g) as <-.
      { assert (j ∈ g_items g) as Hj by (rewrite Ej; by left).
        unfold g_items, group_items in Hj.
        apply elem_of_app in Hj as [Hj|Hj]; apply list_elem_of_fmap in Hj as (? & -> & _); done. }
      apply R. apply list_elem_of_bind. exists g. split; [|done]. rewrite Ej. by left.
Qed.

Lemma g_items_key g i : i ∈ g_items g -> item_key i = g_key g.
Proof.
  intros Hi. unfold g_items, group_items in Hi.
  apply elem_of_app in Hi as [Hi|Hi]; by apply list_elem_of_fmap in Hi as (? & -> & _).
Qed.

Lemma g_items_lock g l : ILock (g_key g) l ∈ g_items g <-> g_lock g = Some l.
Proof.
  unfold g_items, group_items. rewrite elem_of_app, !list_elem_of_fmap. split.
  - intros [(l' & [= ->] & Hl)|(? & ? & _)]; [|done].
    destruct (g_lock g); simpl in Hl; [|by inversion Hl].
    by apply list_elem_of_singleton in Hl as ->.
  - intros ->. left. exists l. split; [done|]. by apply list_elem_of_singleton.
Qed.

Lemma g_items_val g v : IVal (g_key g) v ∈ g_items g <-> v ∈ g_vals g.
Proof.
  unfold g_items, group_items. rewrite elem_of_app, !list_elem_of_fmap. split.
  - intros [(? & ? & _)|(w & [= ->] & Hw)]; done.
  - intros Hv. right. eauto.
Qed.

Lemma group_lt_eq G g h :
  StronglySorted group_lt G -> g ∈ G -> h ∈ G -> g_key g = g_key h -> g = h.
Proof.
  induction 1 as [|x G S IH F]; intros Hg Hh E; [by inversion Hg|].
  rewrite Forall_forall in F.
  apply elem_of_cons in Hg as [->|Hg], Hh as [->|Hh]; try done.
  - apply F in Hh. unfold group_lt in Hh. rewrite E in Hh. by apply blt_irrefl in Hh.
  - apply F in Hg. unfold group_lt in Hg. rewrite E in Hg. by apply blt_irrefl in Hg.
  - by apply IH.
Qed.

Definition scan_start (s : bytes) : bytes :=
  if decide (s = []) then [] else mvccEncode s lockVer.

Lemma scan_in_range s e i :
  item_ok i -> in_range (scan_start s) (scan_start e) (raw_item i).1 <-> key_range s e (item_key i).
Proof.
  intros Hi. unfold key_range, scan_start.
  assert (in_range (mvccEncode s lockVer) [] (raw_item i).1 <-> s <=b item_key i) as Es
    by by apply in_range_start.
  assert ((raw_item i).1 <b mvccEncode e lockVer <-> item_key i <b e) as Ee
    by by apply before_limit.
  unfold in_range in *. pose proof (mvccEncode_nonempty e lockVer) as Ne.
  destruct (decide (s = [])) as [->|Ns], (decide (e = [])) as [->|Ne'];
    split; intros [A B]; split; auto using nil_ble; try tauto.
Qed.

(** The groups of a range. *)
Record range_view (db : DB) (s e : bytes) (G : list group) : Prop := {
  rv_sorted : StronglySorted group_lt G;
  rv_ok : Forall item_ok (G ≫= g_items);
  rv_nonempty : Forall g_nonempty G;
  rv_in g : g ∈ G -> key_range s e (g_key g) /\ group_of db g;
  rv_complete k : key_range s e k -> present db k -> exists g, g ∈ G /\ g_key g = k;
}.

Lemma range_groups db s e :
  wf db -> exists G, newIterator db (scan_start s) (scan_start e) = iter_of (G ≫= g_items) /\
    range_view db s e G.
Proof.
  intros W.
  destruct (newIterator_items db (scan_start s) (scan_start e) W) as (T & E & HT & S & M).
  destruct (sorted_groups_len (length T) T) as (G & -> & SG & NG & VG); [lia|done|done|].
  exists G. split; [done|].
  assert (forall i, i ∈ G ≫= g_items <-> has_item db i /\ key_range s e (item_key i)) as M'.
  { intros i. rewrite M. split; intros [A B]; (split; [done|]);
      apply (scan_in_range s e i); try done; by eapply wf_has_item_ok. }
  assert (forall g i, g ∈ G -> item_key i = g_key g ->
            i ∈ g_items g <-> has_item db i /\ key_range s e (g_key g)) as Mg.
  { intros g i Hg Ei. rewrite <- Ei, <- M', list_elem_of_bind. split; [by exists g|].
    intros (h & Hi & Hh). pose proof (g_items_key _ _ Hi) as Eh.
    rewrite (group_lt_eq G g h); [done..|congruence]. }
  assert (forall g, g ∈ G -> key_range s e (g_key g)) as KG.
  { intros g Hg. rewrite Forall_forall in NG. specialize (NG g Hg).
    unfold g_nonempty in NG. destruct (g_items g) as [|i is'] eqn:Ei; [done|].
    assert (i ∈ g_items g) as Hi by (rewrite Ei; by left).
    apply (Mg g i Hg); [by apply g_items_key|done]. }
  split; try done.
  - intros g Hg. pose proof (KG g Hg) as K. split; [done|]. split.
    + assert (forall l, lock_at db (g_key g) = Some l <-> g_lock g = Some l) as L.
      { intros l. rewrite <- g_items_lock, Mg by done. simpl. tauto. }
      destruct (g_lock g) as [l|]; [by apply L|].
      destruct (lock_at db (g_key g)) as [l|]; [|done]. symmetry. by apply L.
    + split; [rewrite Forall_forall in VG; by apply VG|].
      intros v. rewrite <- g_items_val, Mg by done. simpl. tauto.
  - intros k K (i & Hi & <-). assert (i ∈ G ≫= g_items) as Hin by by apply M'.
    apply list_elem_of_bind in Hin as (g & Hig & Hg). exists g.
    split; [done|]. symmetry. by apply g_items_key.
Qed.

(** ** The scan iterator *)

(** The groups a loop over the scan iterator meets: those of the range, after
    an empty one when [startKey] itself is not present. *)
Record scan_view (db : DB) (s e : bytes) (g0 : group) (G0 G : list group) : Prop := {
  sv_range : range_view db s e G;
  sv_head : g0 :: G0 = G \/ (g_lock g0 = None /\ g_vals g0 = [] /\ G0 = G);
  sv_sorted : StronglySorted group_lt (g0 :: G0);
  sv_ok : Forall item_ok ((g0 :: G0) ≫= g_items);
  sv_nonempty : Forall g_nonempty G0;
}.

Lemma head_key_groups G :
  Forall g_nonempty G ->
  head_key (G ≫= g_items) = match G with [] => None | g :: _ => Some (g_key g) end.
Proof.
  destruct 1 as [|g G N _]; [done|]. cbn [mbind list_bind].
  unfold g_nonempty in N. destruct (g_items g) as [|i is'] eqn:E; [done|].
  simpl. f_equal. apply g_items_key. rewrite E. by left.
Qed.

Lemma other_key_groups g G :
  StronglySorted group_lt (g :: G) -> other_key (g_key g) (G ≫= g_items).
Proof.
  intros S. apply StronglySorted_inv in S as [_ F].
  destruct (G ≫= g_items) as [|i T] eqn:E; [done|]. simpl.
  assert (i ∈ G ≫= g_items) as Hi by (rewrite E; by left).
  apply list_elem_of_bind in Hi as (h & Hi & Hh). rewrite (g_items_key _ _ Hi).
  rewrite Forall_forall in F. apply F in Hh. intros A. unfold group_lt in Hh.
  rewrite A in Hh. by apply blt_irrefl in Hh.
Qed.

Lemma empty_head_view db s e k G :
  range_view db s e G -> Forall (fun g => k <b g_key g) G ->
  scan_view db s e (MkGroup k None []) G G.
Proof.
  intros R F. destruct R as [S O N I C]. split; [by split|by right| | |done].
  - by constructor.
  - done.
Qed.

Lemma full_head_view db s e g G :
  range_view db s e (g :: G) -> scan_view db s e g G (g :: G).
Proof.
  intros R. pose proof R as [S O N I C]. split; [done|by left|done|done|].
  by apply Forall_cons in N as [_ N].
Qed.

Lemma scan_groups db s e :
  wf db -> exists g0 G0 G,
    newScanIterator db s e = Ok (iter_of ((g0 :: G0) ≫= g_items), g_key g0) /\
    scan_view db s e g0 G0 G.
Proof.
  intros W. destruct (range_groups db s e W) as (G & E & R).
  unfold newScanIterator. fold (scan_start s) (scan_start e). rewrite E.
  case_bool_decide as Es; cbn [andb].
  - subst s. destruct G as [|g G].
    + exists (MkGroup [] None []), [], []. split; [done|]. by apply empty_head_view.
    + exists g, G, (g :: G). split; [|by apply full_head_view].
      pose proof (rv_nonempty _ _ _ _ R) as N. pose proof (rv_ok _ _ _ _ R) as O.
      pose proof (head_key_groups _ N) as Hk.
      destruct ((g :: G) ≫= g_items) as [|i T] eqn:Ei; [done|]. injection Hk as <-.
      rewrite it_Valid_cons, iter_of_cons. cbn [it_Key it_items].
      apply Forall_cons in O as [Oi _].
      rewrite mvccDecode_Encode by by apply item_ver_u64. done.
  - destruct G as [|g G].
    + exists (MkGroup s None []), [], []. split; [done|]. by apply empty_head_view.
    + destruct (decide (g_key g = s)) as [<-|Ng].
      * exists g, G, (g :: G). split; [done|]. by apply full_head_view.
      * exists (MkGroup s None []), (g :: G), (g :: G). split; [done|].
        apply empty_head_view; [done|]. apply Forall_forall. intros h Hh.
        assert (s <b g_key g) as Lg.
        { destruct (rv_in _ _ _ _ R g) as [[B _] _]; [by left|].
          apply ble_iff in B as [B|B]; [done|congruence]. }
        apply elem_of_cons in Hh as [->|Hh]; [done|].
        pose proof (StronglySorted_inv (rv_sorted _ _ _ _ R)) as [_ F].
        rewrite Forall_forall in F. apply F in Hh. by eapply blt_trans.
Qed.

(** The length of the iterator bounds the number of groups left. *)
Lemma length_groups G : Forall g_nonempty G -> (length G <= length (G ≫= g_items))%nat.
Proof.
  induction 1 as [|g G N _ IH]; [done|]. cbn [mbind list_bind].
  rewrite length_app. unfold g_nonempty in N. destruct (g_items g); [done|]. simpl. 
  change (mbind g_items G) with (G ≫= g_items) in IH. simpl in *. lia.
Qed.

Lemma iter_fuel_groups g0 G0 :
  Forall g_nonempty G0 -> (length G0 + 1 < iter_fuel (iter_of ((g0 :: G0) ≫= g_items)))%nat.
Proof.
  intros N. apply length_groups in N. unfold iter_fuel. rewrite length_iter_of.
  cbn [mbind list_bind]. rewrite length_app. simpl in *. lia.
Qed.

(** ** Scan is BatchGet over the keys of the range *)

Lemma is_versions_unique db k vs vs' :
  is_versions db k vs -> is_versions db k vs' -> vs = vs'.
Proof.
  intros [S M] [S' M'].
  assert (AntiSymm (=) ver_gt) by (intros v w A B; unfold ver_gt in *; lia).
  assert (forall l, StronglySorted ver_gt l -> NoDup l) as ND.
  { induction 1 as [|v l _ IH F]; constructor; [|done]. intros Hv.
    rewrite Forall_forall in F. apply F in Hv. unfold ver_gt in Hv. lia. }
  apply (StronglySorted_unique ver_gt); [done..|].
  apply NoDup_Permutation; [by apply ND..|]. intros v. by rewrite M, M'.
Qed.

Lemma group_read mvcc g ts iso rl :
  wf (EDB mvcc) -> group_of (EDB mvcc) g ->
  read_key (g_lock g) (g_vals g) (g_key g) ts iso rl = getValue mvcc (g_key g) ts iso rl.
Proof.
  intros W [L V]. destruct (getValue_read mvcc (g_key g) ts iso rl W) as (vs & V' & ->).
  by rewrite L, (is_versions_unique _ _ _ _ V V').
Qed.

(** The pair a read contributes to a result: nothing for an absent key. *)
Definition pair_of (k : bytes) (r : res (option bytes)) : list Pair :=
  match r with
  | Ok None => []
  | Ok (Some v) => [MkPair k (Some v) None]
  | Err e => [MkPair k None (Some e)]
  end.

Lemma length_pair_of k r : (length (pair_of k r) <= 1)%nat.
Proof. destruct r as [[]|]; simpl; lia. Qed.

Lemma BatchGet_bind mvcc ks ts iso rl :
  BatchGet mvcc ks ts iso rl = ks ≫= (fun k => pair_of k (getValue mvcc k ts iso rl)).
Proof.
  unfold BatchGet. set (f := fun pairs k => _).
  assert (forall acc, fold_left f ks acc =
    acc ++ (ks ≫= (fun k => pair_of k (getValue mvcc k ts iso rl)))) as E; [|apply E].
  induction ks as [|k ks IH]; intros acc; simpl; [by rewrite app_nil_r|].
  rewrite IH, app_assoc. f_equal. unfold f.
  destruct (getValue mvcc k ts iso rl) as [[v|]|e]; simpl; by rewrite ?app_nil_r.
Qed.

Lemma Forall_g_items_suffix g vs rest :
  Forall item_ok (g_items g ++ rest) -> vs `suffix_of` g_vals g ->
  Forall item_ok ((IVal (g_key g) <$> vs) ++ rest).
Proof.
  intros HT [pre E]. apply Forall_app in HT as [A B]. apply Forall_app. split; [|done].
  unfold g_items, group_items in A. rewrite E, fmap_app in A.
  apply Forall_app in A as [_ A]. by apply Forall_app in A as [_ A].
Qed.

Lemma skipDecode_vals k vs G :
  Forall item_ok ((IVal k <$> vs) ++ (G ≫= g_items)) ->
  other_key k (G ≫= g_items) -> Forall g_nonempty G ->
  skipDecode k (iter_of ((IVal k <$> vs) ++ (G ≫= g_items))) =
    (Ok (match G with [] => None | g :: _ => Some (g_key g) end), iter_of (G ≫= g_items)).
Proof.
  intros HT O N. rewrite skipDecode_app; [by rewrite head_key_groups|done| |done].
  apply Forall_fmap, Forall_forall. done.
Qed.

Lemma take_app_full {A} (n : nat) (l k : list A) : (n <= length l)%nat -> take n (l ++ k) = take n l.
Proof. intros L. by rewrite take_app_le. Qed.

Definition group_pair (ts iso : Z) (rl : list Z) (g : group) : list Pair :=
  pair_of (g_key g) (read_key (g_lock g) (g_vals g) (g_key g) ts iso rl).

Lemma Scan_loop_step g G fuel limit ts iso rl pairs :
  StronglySorted group_lt (g :: G) -> Forall item_ok ((g :: G) ≫= g_items) ->
  Forall g_nonempty G -> Z.of_nat (length pairs) < limit ->
  Scan_loop (S fuel) (iter_of ((g :: G) ≫= g_items)) (g_key g) limit ts iso rl pairs =
    match G with
    | [] => pairs ++ group_pair ts iso rl g
    | h :: _ => Scan_loop fuel (iter_of (G ≫= g_items)) (g_key h) limit ts iso rl
                  (pairs ++ group_pair ts iso rl g)
    end.
Proof.
  intros S HT N Ll. pose proof (other_key_groups _ _ S) as O. cbn [Scan_loop].
  rewrite (proj2 (Z.ltb_lt _ _) Ll).
  change ((g :: G) ≫= g_items) with (g_items g ++ (G ≫= g_items)) in *.
  destruct (getValue_iter_group (g_key g) (g_lock g) (g_vals g) (G ≫= g_items) ts iso rl HT O)
    as (vs' & Sf & E).
  fold (g_items g) in E. rewrite E.
  rewrite skipDecode_vals by first [done|by eapply Forall_g_items_suffix].
  unfold group_pair. set (r := read_key _ _ _ _ _ _).
  replace (pairs ++ pair_of (g_key g) r) with
    (match r with
     | Ok (Some value) => pairs ++ [MkPair (g_key g) (Some value) None]
     | Ok None => pairs
     | Err e => pairs ++ [MkPair (g_key g) None (Some e)]
     end) by (destruct r as [[]|]; simpl; by rewrite ?app_nil_r).
  by destruct G.
Qed.

Lemma Scan_loop_groups g G fuel limit ts iso rl pairs :
  StronglySorted group_lt (g :: G) -> Forall item_ok ((g :: G) ≫= g_items) ->
  Forall g_nonempty G -> (length G < fuel)%nat -> (length pairs <= Z.to_nat limit)%nat ->
  Scan_loop fuel (iter_of ((g :: G) ≫= g_items)) (g_key g) limit ts iso rl pairs =
    take (Z.to_nat limit) (pairs ++ ((g :: G) ≫= group_pair ts iso rl)).
Proof.
  revert g fuel pairs. induction G as [|h G IH]; intros g fuel pairs S HT N Lf Lp;
    (destruct fuel as [|fuel]; [simpl in Lf; lia|]);
    (destruct (Z.lt_ge_cases (Z.of_nat (length pairs)) limit) as [Ll|Ll];
      [rewrite Scan_loop_step by done; pose proof (length_pair_of (g_key g)
         (read_key (g_lock g) (g_vals g) (g_key g) ts iso rl)) as L1
      |cbn [Scan_loop]; rewrite (proj2 (Z.ltb_ge _ _) Ll), take_app_full, take_ge by lia; done]).
  - cbn [mbind list_bind]. rewrite app_nil_r, take_ge; [done|].
    unfold group_pair. rewrite length_app. lia.
  - apply StronglySorted_inv in S as [S _]. apply Forall_app in HT as [_ HT].
    apply Forall_cons in N as [_ N]. cbn [mbind list_bind].
    rewrite app_assoc. apply IH; [done..| |].
    + simpl in Lf. lia.
    + unfold group_pair. rewrite length_app. lia.
Qed.

(** The keys of the range, in order. *)
Definition range_keys (db : DB) (s e : bytes) (ks : list bytes) : Prop :=
  StronglySorted blt ks /\ forall k, k ∈ ks <-> key_range s e k /\ present db k.

Lemma range_view_keys db s e G :
  range_view db s e G -> range_keys db s e (g_key <$> G).
Proof.
  intros [S O N I C]. split.
  - clear -S. induction S as [|g G _ IH F]; [constructor|].
    rewrite fmap_cons. constructor; [done|]. by apply Forall_fmap.
  - intros k. rewrite list_elem_of_fmap. split.
    + intros (g & -> & Hg). destruct (I g Hg) as [K [L V]]. split; [done|].
      rewrite Forall_forall in N. specialize (N g Hg). unfold g_nonempty in N.
      destruct (g_items g) as [|i is'] eqn:Ei; [done|]. exists i.
      assert (i ∈ g_items g) as Hi by (rewrite Ei; by left).
      pose proof (g_items_key g i Hi) as Ek. split; [|done].
      destruct i as [k l|k v]; simpl in Ek; subst k.
      * apply g_items_lock in Hi. simpl. congruence.
      * apply g_items_val in Hi. by apply V.
    + intros [K P]. destruct (C k K P) as (g & Hg & <-). eauto.
Qed.

(** The pairs of a scan, key by key. *)
Lemma Scan_outcome mvcc s e limit ts iso rl :
  wf (EDB mvcc) -> exists G, range_view (EDB mvcc) s e G /\
    Scan mvcc s e limit ts iso rl = take (Z.to_nat limit) (G ≫= group_pair ts iso rl).
Proof.
  intros W. destruct (scan_groups (EDB mvcc) s e W) as (g0 & G0 & G & E & [R Hd S O N]).
  exists G. split; [done|].
  unfold Scan. rewrite E. rewrite Scan_loop_groups; [|done|done|done| |simpl; lia].
  2:{ pose proof (iter_fuel_groups g0 G0 N). lia. }
  f_equal. destruct Hd as [->|(El & Ev & ->)]; [done|]. cbn [mbind list_bind app].
  unfold group_pair at 1. by rewrite El, Ev.
Qed.

Lemma group_pair_key ts iso rl g p : p ∈ group_pair ts iso rl g -> pair_Key p = g_key g.
Proof.
  unfold group_pair. destruct (read_key _ _ _ _ _ _) as [[v|]|er]; cbn [pair_of];
    rewrite ?list_elem_of_singleton; try (intros ->; done). by inversion 1.
Qed.

(** The keys of the result are in the range, in strict order. *)
Lemma Scan_keys mvcc s e limit ts iso rl :
  wf (EDB mvcc) ->
  StronglySorted blt (pair_Key <$> Scan mvcc s e limit ts iso rl) /\
  Forall (key_range s e) (pair_Key <$> Scan mvcc s e limit ts iso rl).
Proof.
  intros W. destruct (Scan_outcome mvcc s e limit ts iso rl W) as (G & R & ->).
  pose proof (rv_in _ _ _ _ R) as I. destruct R as [S _ _ _ _]. rewrite fmap_take.
  assert (StronglySorted blt (pair_Key <$> (G ≫= group_pair ts iso rl)) /\
    (forall k, k ∈ pair_Key <$> (G ≫= group_pair ts iso rl) -> exists g, g ∈ G /\ k = g_key g))
    as [SS K].
  { clear I W. induction S as [|g G S IH F]; [split; [constructor|by inversion 1]|].
    destruct IH as [SS K]. cbn [mbind list_bind]. rewrite fmap_app.
    change (mbind (group_pair ts iso rl) G) with (G ≫= group_pair ts iso rl).
    assert (forall k, k ∈ pair_Key <$> group_pair ts iso rl g -> k = g_key g) as Kg.
    { intros k Hk. apply list_elem_of_fmap in Hk as (p & -> & Hp). by eapply group_pair_key. }
    assert (length (group_pair ts iso rl g) <= 1)%nat as L by apply length_pair_of.
    split.
    - destruct (group_pair ts iso rl g) as [|p [|]]; [done| |simpl in L; lia].
      cbn. constructor; [done|]. apply Forall_forall. intros k Hk.
      apply K in Hk as (h & Hh & ->). rewrite Forall_forall in F.
      rewrite (Kg (pair_Key p)) by (by left). by apply F.
    - intros k Hk. apply elem_of_app in Hk as [Hk|Hk].
      + exists g. split; [by left|by apply Kg].
      + destruct (K k Hk) as (h & Hh & ->). exists h. split; [by right|done]. }
  split.
  - rewrite <- (take_drop (Z.to_nat limit) (pair_Key <$> _)) in SS.
    by apply StronglySorted_app_1_l in SS.
  - apply Forall_take, Forall_forall. intros k Hk. destruct (K k Hk) as (g & Hg & ->).
    by apply I.
Qed.

(** The pairs of a scan are the reads of the keys of its range. *)
Lemma Scan_reads mvcc s e limit ts iso rl :
  wf (EDB mvcc) -> exists ks, range_keys (EDB mvcc) s e ks /\
    Scan mvcc s e limit ts iso rl =
      take (Z.to_nat limit) (ks ≫= (fun k => pair_of k (getValue mvcc k ts iso rl))).
Proof.
  intros W. destruct (Scan_outcome mvcc s e limit ts iso rl W) as (G & R & ->). exists (g_key <$> G).
  split; [by apply range_view_keys|]. f_equal.
  pose proof (rv_in _ _ _ _ R) as I. clear R.
  induction G as [|g G IH]; [done|]. rewrite fmap_cons. cbn [mbind list_bind].
  f_equal; [|apply IH; intros; apply I; by right].
  unfold group_pair. rewrite (group_read mvcc) by (done || by apply I; left). done.
Qed.

(** C31: [Scan] returns the first [limit] pairs that a [BatchGet] of
    the keys of the range, in order, returns; the fuel of its loop suffices. *)
Theorem Scan_BatchGet mvcc s e limit ts iso rl :
  wf (EDB mvcc) -> exists ks, range_keys (EDB mvcc) s e ks /\
    Scan mvcc s e limit ts iso rl = take (Z.to_nat limit) (BatchGet mvcc ks ts iso rl).
Proof.
  intros W. destruct (Scan_reads mvcc s e limit ts iso rl W) as (ks & R & ->). exists ks.
  split; [done|]. by rewrite BatchGet_bind.
Qed.

(** ** Loops over the locks of a range *)

Lemma lockDecode_step g G :
  StronglySorted group_lt (g :: G) -> Forall item_ok ((g :: G) ≫= g_items) ->
  Forall g_nonempty G ->
  lockDecode (g_key g) (iter_of ((g :: G) ≫= g_items)) =
    (Ok (g_lock g), iter_of ((IVal (g_key g) <$> g_vals g) ++ (G ≫= g_items))) /\
  skipDecode (g_key g) (iter_of ((IVal (g_key g) <$> g_vals g) ++ (G ≫= g_items))) =
    (Ok (match G with [] => None | h :: _ => Some (g_key h) end), iter_of (G ≫= g_items)).
Proof.
  intros S HT N. pose proof (other_key_groups _ _ S) as O.
  change ((g :: G) ≫= g_items) with (g_items g ++ (G ≫= g_items)) in *. split.
  - by apply lockDecode_group.
  - apply skipDecode_vals; [|done..]. by eapply Forall_g_items_suffix.
Qed.

Lemma it_Valid_groups g G :
  g_nonempty g -> it_Valid (iter_of ((g :: G) ≫= g_items)) = true.
Proof.
  intros N. cbn [mbind list_bind]. unfold g_nonempty in N. by destruct (g_items g).
Qed.

Lemma groups_nil_head g (G : list group) :
  ~ g_nonempty g -> (g :: G) ≫= g_items = G ≫= g_items.
Proof.
  intros N. cbn [mbind list_bind]. unfold g_nonempty in N.
  destruct (g_items g); [done|]. by destruct N.
Qed.

Lemma g_nonempty_dec g : Decision (g_nonempty g).
Proof. unfold g_nonempty. destruct (g_items g); [by right; intros []|by left]. Qed.

Lemma empty_group_fields g : ~ g_nonempty g -> g_lock g = None /\ g_vals g = [].
Proof.
  unfold g_nonempty, g_items, group_items. destruct (g_lock g), (g_vals g); simpl; try done.
  - intros N. by destruct N.
  - intros N. by destruct N.
  - intros N. by destruct N.
Qed.

(** The loops of ScanLock, ResolveLock and BatchResolveLock: each decodes the
    lock of the current key, adds what [h] makes of it to the result and skips
    to the next key, until the iterator is exhausted. *)
Lemma lock_loop_groups {A} (loop : nat -> Iterator -> bytes -> list A -> res (list A))
    (h : bytes -> option mvccLock -> list A) :
  (forall k, h k None = []) ->
  (forall fuel iter k acc, it_Valid iter = false -> loop (S fuel) iter k acc = Ok acc) ->
  (forall fuel iter iter' iter'' k acc dec next, it_Valid iter = true ->
     lockDecode k iter = (Ok dec, iter') -> skipDecode k iter' = (Ok next, iter'') ->
     loop (S fuel) iter k acc = loop fuel iter'' (default k next) (acc ++ h k dec)) ->
  forall G g fuel acc,
  StronglySorted group_lt (g :: G) -> Forall item_ok ((g :: G) ≫= g_items) ->
  Forall g_nonempty G -> (length G + 1 < fuel)%nat ->
  loop fuel (iter_of ((g :: G) ≫= g_items)) (g_key g) acc =
    Ok (acc ++ ((g :: G) ≫= fun g => h (g_key g) (g_lock g))).
Proof.
  intros H0' Hend Hstep G.
  induction G as [|g' G IH]; intros g fuel acc S HT N Lf;
    (destruct fuel as [|fuel]; [simpl in Lf; lia|]);
    destruct (lockDecode_step _ _ S HT N) as [E1 E2]; destruct (g_nonempty_dec g) as [Ng|Ng].
  - erewrite Hstep; [|by apply it_Valid_groups|exact E1|exact E2].
    destruct fuel as [|fuel]; [simpl in Lf; lia|]. rewrite Hend by done.
    cbn [mbind list_bind]. by rewrite app_nil_r.
  - rewrite Hend by by rewrite groups_nil_head. cbn [mbind list_bind].
    destruct (empty_group_fields _ Ng) as [-> _]. by rewrite H0', !app_nil_r.
  - apply StronglySorted_inv in S as [S _]. apply Forall_app in HT as [_ HT].
    apply Forall_cons in N as [_ N].
    erewrite Hstep; [|by apply it_Valid_groups|exact E1|exact E2]. cbn [default].
    rewrite IH; [|done..|simpl in Lf; lia]. cbn [mbind list_bind]. by rewrite <- app_assoc.
  - apply Forall_cons in N as [Ng' N].
    erewrite Hstep; [| |exact E1|exact E2].
    2:{ rewrite groups_nil_head by done. by apply it_Valid_groups. }
    apply StronglySorted_inv in S as [S _]. apply Forall_app in HT as [_ HT]. cbn [default].
    rewrite IH; [|done..|simpl in Lf; lia]. cbn [mbind list_bind]. by rewrite <- app_assoc.
Qed.

(** What ScanLock reports of the lock of a key. *)
Definition lockinfo (maxTS : Z) (k : bytes) (ol : option mvccLock) : list LockInfo :=
  match ol with
  | Some l => if lock_startTS l <=? maxTS
              then [MkLockInfo (lock_primary l) (lock_startTS l) k] else []
  | None => []
  end.

Lemma ScanLock_loop_groups G g fuel maxTS locks :
  StronglySorted group_lt (g :: G) -> Forall item_ok ((g :: G) ≫= g_items) ->
  Forall g_nonempty G -> (length G + 1 < fuel)%nat ->
  ScanLock_loop fuel (iter_of ((g :: G) ≫= g_items)) (g_key g) maxTS locks =
    Ok (locks ++ ((g :: G) ≫= fun g => lockinfo maxTS (g_key g) (g_lock g))).
Proof.
  apply (lock_loop_groups (fun fuel iter k acc => ScanLock_loop fuel iter k maxTS acc)
           (lockinfo maxTS)).
  - done.
  - intros fl iter k acc V. cbn [ScanLock_loop]. by rewrite V.
  - intros fl iter iter' iter'' k acc dec next V E1 E2. cbn [ScanLock_loop].
    rewrite V, E1, E2. f_equal. unfold lockinfo. destruct dec as [l|]; [|by rewrite app_nil_r].
    destruct (_ <=? maxTS); by rewrite ?app_nil_r.
Qed.

Definition lockinfo_lt (i j : LockInfo) : Prop := li_Key i <b li_Key j.

(** [ScanLock] succeeds and lists, in key order, exactly the
    locks of the range with a start timestamp of at most [maxTS]. *)
Theorem ScanLock_exact mvcc s e maxTS :
  wf (EDB mvcc) -> exists L, ScanLock mvcc s e maxTS = Ok L /\
    StronglySorted lockinfo_lt L /\
    forall i, i ∈ L <-> exists k l, key_range s e k /\ lock_at (EDB mvcc) k = Some l /\
      lock_startTS l <= maxTS /\ i = MkLockInfo (lock_primary l) (lock_startTS l) k.
Proof.
  intros W. destruct (scan_groups (EDB mvcc) s e W) as (g0 & G0 & G & E & [R Hd S O N]).
  unfold ScanLock. rewrite E. step_res.
  rewrite ScanLock_loop_groups by first [done|by apply iter_fuel_groups].
  eexists. split; [reflexivity|]. cbn [app].
  set (f := fun g => lockinfo maxTS (g_key g) (g_lock g)).
  assert ((g0 :: G0) ≫= f = G ≫= f) as ->.
  { destruct Hd as [->|(El & Ev & ->)]; [done|]. cbn [mbind list_bind].
    unfold f at 1. by rewrite El. }
  assert (forall g i, i ∈ f g <-> exists l, g_lock g = Some l /\
    lock_startTS l <= maxTS /\ i = MkLockInfo (lock_primary l) (lock_startTS l) (g_key g)) as M.
  { intros g i. unfold f, lockinfo. destruct (g_lock g) as [l|].
    - destruct (Z.leb_spec (lock_startTS l) maxTS) as [Ll|Ll].
      + rewrite list_elem_of_singleton. split; [eauto|]. by intros (l' & [= <-] & _ & ->).
      + split; [by inversion 1|]. intros (l' & [= <-] & ? & _). lia.
    - split; [by inversion 1|]. by intros (l & ? & _). }
  split.
  - pose proof (rv_sorted _ _ _ _ R) as SG. clear -SG M.
    induction SG as [|g G _ IH F]; [constructor|]. cbn [mbind list_bind].
    apply StronglySorted_app_2; [|by unfold f, lockinfo; repeat case_match; repeat constructor|done].
    intros i j Hi Hj. apply M in Hi as (l & _ & _ & ->).
    apply list_elem_of_bind in Hj as (h & Hj & Hh). apply M in Hj as (l' & _ & _ & ->).
    rewrite Forall_forall in F. by apply F.
  - intros i. rewrite list_elem_of_bind. split.
    + intros (g & Hi & Hg). apply M in Hi as (l & Hl & Ll & ->).
      destruct (rv_in _ _ _ _ R g Hg) as [K [L _]]. exists (g_key g), l.
      split_and!; [done|congruence|done|done].
    + intros (k & l & K & L & Ll & ->).
      destruct (rv_complete _ _ _ _ R k K) as (g & Hg & <-); [by exists (ILock k l)|].
      exists g. split; [|done]. apply M. exists l. split; [|done].
      destruct (rv_in _ _ _ _ R g Hg) as [_ [L' _]]. congruence.
Qed.

End scan.
