(* ===== verification/MvccSpec.v ===== *)
(** * An abstract store: locks and histories

    [astore] maps every key to its lock and to its versions, newest first.
    [rep db st] says that the LevelDB store [db] holds exactly the records of
    [st]; every well-formed store has an abstract state, and a batch of
    records acts on both sides alike ([rep_write]).  The theorems of
    [MvccTxn] and later files relate each operation of the code to a function
    on the abstract state. *)

From stdpp Require Import base gmap list sorting strings.
From Stdlib Require Import Strings.Byte ZArith Lia Sorted.
From S2P Require Import Prelude External Marshal Mvcc MvccOps MvccView MvccRead MvccScan.
Open Scope Z_scope.

Record astore : Type := MkAStore {
  a_locks : gmap bytes mvccLock;
  a_hist : gmap bytes (list mvccValue);
}.

Definition a_lock (st : astore) (k : bytes) : option mvccLock := a_locks st !! k.
Definition a_vers (st : astore) (k : bytes) : list mvccValue := default [] (a_hist st !! k).

(** One version per commit timestamp, newest first. *)
Fixpoint insert_version (v : mvccValue) (vs : list mvccValue) : list mvccValue :=
  match vs with
  | [] => [v]
  | w :: vs' =>
      if val_commitTS w <? val_commitTS v then v :: vs
      else if val_commitTS w =? val_commitTS v then v :: vs'
      else w :: insert_version v vs'
  end.

Definition remove_version (ts : Z) (vs : list mvccValue) : list mvccValue :=
  filter (fun w => val_commitTS w <> ts) vs.

Definition set_vers (st : astore) (k : bytes) (vs : list mvccValue) : astore :=
  MkAStore (a_locks st) (<[k := vs]> (a_hist st)).

Definition apply_lop (st : astore) (op : lop) : astore :=
  match op with
  | PutLock k l => MkAStore (<[k := l]> (a_locks st)) (a_hist st)
  | DelLock k => MkAStore (delete k (a_locks st)) (a_hist st)
  | PutVal k v => set_vers st k (insert_version v (a_vers st k))
  | DelVal k ts => set_vers st k (remove_version ts (a_vers st k))
  end.

Definition apply_lops (b : list lop) (st : astore) : astore := fold_left apply_lop b st.

(** ** Histories *)

Lemma elem_of_insert_version v vs w :
  StronglySorted ver_gt vs ->
  w ∈ insert_version v vs <-> w = v \/ (w ∈ vs /\ val_commitTS w <> val_commitTS v).
Proof.
  induction 1 as [|u vs S IH F]; simpl.
  - rewrite list_elem_of_singleton. split; [by left|]. intros [|[Hw _]]; [done|by inversion Hw].
  - rewrite Forall_forall in F. unfold ver_gt in F.
    destruct (Z.ltb_spec (val_commitTS u) (val_commitTS v)) as [L|L].
    + rewrite !elem_of_cons. split; [|tauto].
      intros [->|[->|Hw]]; [by left|right; split; [by left|lia]|].
      right. split; [by right|]. apply F in Hw. lia.
    + destruct (Z.eqb_spec (val_commitTS u) (val_commitTS v)) as [E|N].
      * rewrite !elem_of_cons. split.
        -- intros [->|Hw]; [by left|]. right. split; [by right|]. apply F in Hw. lia.
        -- intros [->|[[->|Hw] N]]; [by left|lia|by right].
      * rewrite !elem_of_cons, IH. split.
        -- intros [->|[->|[Hw Nw]]]; [right; split; [by left|lia]|by left|].
           right. split; [by right|done].
        -- intros [->|[[->|Hw] Nw]]; [right; by left|by left|]. right. right. done.
Qed.

Lemma insert_version_sorted v vs :
  StronglySorted ver_gt vs -> StronglySorted ver_gt (insert_version v vs).
Proof.
  induction 1 as [|u vs S IH F]; simpl; [repeat constructor|].
  destruct (Z.ltb_spec (val_commitTS u) (val_commitTS v)) as [L|L].
  - constructor; [by constructor|]. constructor; [done|].
    eapply Forall_impl; [exact F|]. unfold ver_gt. intros; lia.
  - destruct (Z.eqb_spec (val_commitTS u) (val_commitTS v)) as [E|N].
    + constructor; [done|]. eapply Forall_impl; [exact F|]. unfold ver_gt. intros; lia.
    + constructor; [done|]. rewrite Forall_forall in F |- *. intros w Hw.
      apply elem_of_insert_version in Hw as [->|[Hw _]]; [|by apply F|done].
      unfold ver_gt. lia.
Qed.

Lemma remove_version_sorted ts vs :
  StronglySorted ver_gt vs -> StronglySorted ver_gt (remove_version ts vs).
Proof.
  induction 1 as [|u vs S IH F]; [constructor|]. unfold remove_version.
  rewrite filter_cons. case_decide; [|done]. constructor; [done|].
  rewrite Forall_forall in F |- *. intros w Hw. apply list_elem_of_filter in Hw as [_ Hw].
  by apply F.
Qed.

Lemma elem_of_remove_version ts vs w :
  w ∈ remove_version ts vs <-> w ∈ vs /\ val_commitTS w <> ts.
Proof. unfold remove_version. rewrite list_elem_of_filter. tauto. Qed.

Lemma a_vers_set st k vs k' :
  a_vers (set_vers st k vs) k' = if decide (k = k') then vs else a_vers st k'.
Proof.
  unfold a_vers, set_vers. cbn [a_hist]. case_decide as E.
  - subst. by rewrite lookup_insert_eq.
  - by rewrite lookup_insert_ne.
Qed.

(** ** One key of a batch *)

Definition lop_key (op : lop) : bytes :=
  match op with PutLock k _ => k | PutVal k _ => k | DelLock k => k | DelVal k _ => k end.

(** The lock and the versions of one key, and what a record does to them. *)
Definition kstate (st : astore) (k : bytes) : option mvccLock * list mvccValue :=
  (a_lock st k, a_vers st k).

Definition kstep (s : option mvccLock * list mvccValue) (op : lop)
    : option mvccLock * list mvccValue :=
  match op with
  | PutLock _ l => (Some l, s.2)
  | DelLock _ => (None, s.2)
  | PutVal _ v => (s.1, insert_version v s.2)
  | DelVal _ ts => (s.1, remove_version ts s.2)
  end.

Definition ksteps (ops : list lop) (s : option mvccLock * list mvccValue)
    : option mvccLock * list mvccValue := fold_left kstep ops s.

Definition key_ops (k : bytes) (b : list lop) : list lop := filter (fun op => lop_key op = k) b.

Lemma kstate_apply_lop op st k :
  kstate (apply_lop st op) k = if decide (lop_key op = k) then kstep (kstate st k) op else kstate st k.
Proof.
  unfold kstate, a_lock.
  destruct op as [k' l|k' v|k'|k' ts]; cbn [apply_lop lop_key kstep fst snd];
    try (rewrite a_vers_set; by case_decide; subst); case_decide as E; subst;
    cbn [a_locks]; by rewrite ?lookup_insert_eq, ?lookup_delete_eq, ?lookup_insert_ne, ?lookup_delete_ne.
Qed.

Lemma kstate_apply b st k : kstate (apply_lops b st) k = ksteps (key_ops k b) (kstate st k).
Proof.
  revert st. induction b as [|op b IH]; intros st; [done|].
  change (apply_lops (op :: b) st) with (apply_lops b (apply_lop st op)).
  rewrite IH, kstate_apply_lop. unfold key_ops. rewrite filter_cons. by case_decide.
Qed.

Definition block_local (f : bytes -> list lop) : Prop := forall k op, op ∈ f k -> lop_key op = k.

Definition block_idem (ops : list lop) : Prop := forall s, ksteps ops (ksteps ops s) = ksteps ops s.

(** A batch made of one block per key acts on each key as its block, however
    often the key is listed. *)
Lemma kstate_blocks f ks st k :
  block_local f -> block_idem (f k) ->
  kstate (apply_lops (ks ≫= f) st) k =
    if decide (k ∈ ks) then ksteps (f k) (kstate st k) else kstate st k.
Proof.
  intros L I. rewrite kstate_apply. generalize (kstate st k) as s.
  induction ks as [|k' ks IH]; intros s; [done|]. cbn [mbind list_bind].
  unfold key_ops in *. rewrite filter_app. unfold ksteps in *. rewrite fold_left_app, IH.
  destruct (decide (k' = k)) as [->|N].
  - rewrite (list_filter_all _ (f k)) by (intros op; apply L).
    rewrite (decide_True (P := k ∈ k :: ks)) by by left. case_decide; [apply I|done].
  - rewrite (list_filter_none _ (f k')) by (intros op Hop; by rewrite (L k' op Hop)).
    cbn [fold_left]. destruct (decide (k ∈ ks)) as [M|M].
    + by rewrite decide_True by by right.
    + rewrite decide_False; [done|]. intros A. by apply elem_of_cons in A as [->|A].
Qed.

Lemma insert_version_idem v vs : insert_version v (insert_version v vs) = insert_version v vs.
Proof.
  induction vs as [|w vs IH]; simpl; [by rewrite Z.ltb_irrefl, Z.eqb_refl|].
  destruct (val_commitTS w <? val_commitTS v) eqn:L; simpl; [by rewrite Z.ltb_irrefl, Z.eqb_refl|].
  destruct (val_commitTS w =? val_commitTS v) eqn:E; simpl; [by rewrite Z.ltb_irrefl, Z.eqb_refl|].
  by rewrite L, E, IH.
Qed.

Section spec.
Context `{CodecLaws} `{LevelDBLaws} `{Kvrpcpb} `{Oracle} `{Deadlock}.

Record rep (db : DB) (st : astore) : Prop := {
  rep_wf : wf db;
  rep_lock k : lock_at db k = a_lock st k;
  rep_vers k : is_versions db k (a_vers st k);
}.

Lemma is_versions_ext db db' k vs :
  (forall ts, 0 <= ts < lockVer -> write_at db' k ts = write_at db k ts) ->
  is_versions db k vs -> is_versions db' k vs.
Proof.
  intros E [S M]. split; [done|]. intros v. rewrite M.
  unfold write_at in *. specialize (E (val_commitTS v)).
  case_decide; [by rewrite E|done].
Qed.

Lemma rep_sorted db st k : rep db st -> StronglySorted ver_gt (a_vers st k).
Proof. intros R. by destruct (rep_vers _ _ R k). Qed.

Lemma rep_elem db st k v :
  rep db st -> v ∈ a_vers st k <-> write_at db k (val_commitTS v) = Some v.
Proof. intros R. by destruct (rep_vers _ _ R k). Qed.

Lemma rep_ok_vers db st k : rep db st -> Forall (fun v => item_ok (IVal k v)) (a_vers st k).
Proof.
  intros R. apply Forall_forall. intros v Hv. apply (rep_elem db st) in Hv; [|done].
  apply (wf_has_item_ok db (IVal k v)); [by apply (rep_wf _ _ R)|done].
Qed.

Lemma rep_ok_lock db st k l : rep db st -> a_lock st k = Some l -> lock_ok l.
Proof.
  intros R. rewrite <- (rep_lock _ _ R k). intros E.
  apply (wf_has_item_ok db (ILock k l)); [by apply (rep_wf _ _ R)|done].
Qed.

(** ** A batch acts alike on both sides *)

Definition models (f : Z -> option mvccValue) (vs : list mvccValue) : Prop :=
  StronglySorted ver_gt vs /\ forall w, w ∈ vs <-> f (val_commitTS w) = Some w.

Lemma models_step k f st op :
  models f (a_vers st k) ->
  models (fun ts => write_eff k ts (f ts) op) (a_vers (apply_lop st op) k).
Proof.
  intros [S M]. destruct op as [k' l|k' v|k'|k' ts']; cbn [apply_lop write_eff]; try done.
  - rewrite a_vers_set. case_decide as E; [subst k'|].
    + split; [by apply insert_version_sorted|]. intros w.
      rewrite elem_of_insert_version, M by done. case_decide as E.
      * destruct E as [_ E]. split; [intros [->|[_ N]]; congruence|]. intros [= ->]. by left.
      * split; [intros [->|[Hw _]]; [by destruct E|done]|]. intros Hw. right.
        split; [done|]. intros E'. by destruct E.
    + split; [done|]. intros w. rewrite decide_False; [apply M|tauto].
  - rewrite a_vers_set. case_decide as E; [subst k'|].
    + split; [by apply remove_version_sorted|]. intros w.
      rewrite elem_of_remove_version, M. case_decide as E.
      * destruct E as [_ E]. split; [intros [_ N]; congruence|done].
      * split; [by intros [? _]|]. intros Hw. split; [done|]. intros E'. by destruct E.
    + split; [done|]. intros w. rewrite decide_False; [apply M|tauto].
Qed.

Lemma models_steps k f st b :
  models f (a_vers st k) ->
  models (fun ts => fold_left (write_eff k ts) b (f ts)) (a_vers (apply_lops b st) k).
Proof.
  revert f st. induction b as [|op b IH]; intros f st M; [done|].
  apply (IH (fun ts => write_eff k ts (f ts) op)). by apply models_step.
Qed.

Lemma apply_lops_lock k b st :
  a_lock (apply_lops b st) k = fold_left (lock_eff k) b (a_lock st k).
Proof.
  revert st. induction b as [|op b IH]; intros st; [done|].
  change (apply_lops (op :: b) st) with (apply_lops b (apply_lop st op)).
  rewrite IH. cbn [fold_left]. f_equal. unfold a_lock.
  destruct op as [k' l|k' v|k'|k' ts]; cbn [apply_lop lock_eff a_locks set_vers]; try done.
  - case_decide as E; [subst; by rewrite lookup_insert_eq|by rewrite lookup_insert_ne].
  - case_decide as E; [subst; by rewrite lookup_delete_eq|by rewrite lookup_delete_ne].
Qed.

Lemma write_eff_range k ts b :
  Forall lop_ok b -> ~ (0 <= ts < lockVer) -> fold_left (write_eff k ts) b None = None.
Proof.
  intros Hb R. induction Hb as [|op b Hop _ IH]; [done|]. cbn [fold_left].
  replace (write_eff k ts None op) with (@None mvccValue); [done|].
  destruct op as [k' l|k' v|k'|k' ts']; cbn [write_eff lop_ok] in *; try done.
  - rewrite decide_False; [done|]. intros [_ <-]. apply R.
    destruct Hop as [Hv L]. apply value_ok_commitTS in Hv. unfold u64 in Hv. lia.
  - by destruct (decide (k' = k /\ ts' = ts)).
Qed.

Lemma rep_write db st b :
  rep db st -> Forall lop_ok b ->
  (Write db (raw_op <$> b)).1 = None /\ rep (Write db (raw_op <$> b)).2 (apply_lops b st).
Proof.
  intros [W L V] Hb. destruct (Write_view db b W Hb) as (E & W' & L' & V'). split; [done|].
  split; [done| |].
  - intros k. by rewrite L', L, apply_lops_lock.
  - intros k. pose proof (models_steps k (write_at db k) st b (V k)) as [S M].
    split; [done|]. intros w. rewrite M.
    destruct (decide (0 <= val_commitTS w < lockVer)) as [R|R]; [by rewrite V'|].
    unfold write_at at 1 2. rewrite !decide_False by done.
    by rewrite write_eff_range.
Qed.

(** Every well-formed store represents an abstract state. *)
Lemma key_range_all k : key_range [] [] k.
Proof. split; [apply nil_ble|by left]. Qed.

Lemma rep_exists db : wf db -> exists st, rep db st.
Proof.
  intros W. destruct (range_groups db [] [] W) as (G & _ & [S O N I C]).
  exists (MkAStore
    (list_to_map (G ≫= fun g => (fun l => (g_key g, l)) <$> option_list (g_lock g)))
    (list_to_map ((fun g => (g_key g, g_vals g)) <$> G))).
  assert (forall k, ~ (exists g, g ∈ G /\ g_key g = k) -> lock_at db k = None /\ is_versions db k []) as A.
  { intros k Nk. split.
    - destruct (lock_at db k) as [l|] eqn:E; [|done]. destruct Nk. apply C; [apply key_range_all|].
      by exists (ILock k l).
    - split; [constructor|]. intros v. split; [by inversion 1|]. intros E. destruct Nk.
      apply C; [apply key_range_all|]. by exists (IVal k v). }
  assert (NoDup (g_key <$> G)) as ND.
  { clear -S. induction S as [|g G _ IH F]; [constructor|]. rewrite fmap_cons.
    constructor; [|done]. intros Hk. apply list_elem_of_fmap in Hk as (h & E & Hh).
    rewrite Forall_forall in F. apply F in Hh. unfold group_lt in Hh. rewrite E in Hh.
    by apply blt_irrefl in Hh. }
  split; [done| |]; intros k; unfold a_lock, a_vers; cbn [a_locks a_hist].
  - set (L := G ≫= _).
    assert (forall l, (k, l) ∈ L <-> exists g, g ∈ G /\ g_key g = k /\ g_lock g = Some l) as ML.
    { intros l. unfold L. rewrite list_elem_of_bind. split.
      - intros (g & Hg & Hin). apply list_elem_of_fmap in Hg as (l' & [= -> ->] & Hl).
        exists g. destruct (g_lock g); [|by inversion Hl].
        by apply list_elem_of_singleton in Hl as ->.
      - intros (g & Hg & <- & El). exists g. split; [|done].
        apply list_elem_of_fmap. exists l. split; [done|]. rewrite El. by left. }
    assert (NoDup L.*1) as NL.
    { unfold L. clear -ND. induction G as [|g G IH]; [constructor|].
      rewrite fmap_cons in ND. apply NoDup_cons in ND as [Ng ND]. cbn [mbind list_bind].
      rewrite fmap_app. apply NoDup_app. split_and!; [|..|by apply IH].
      - destruct (g_lock g); simpl; [by apply NoDup_singleton|constructor].
      - intros x Hx Hx'. apply Ng. apply list_elem_of_fmap in Hx as (? & -> & Hx).
        apply list_elem_of_fmap in Hx' as (y & E & Hy).
        apply list_elem_of_fmap in Hx as (? & -> & _).
        apply list_elem_of_bind in Hy as (h & Hy & Hh).
        apply list_elem_of_fmap in Hy as (? & -> & _). simpl in E. rewrite E.
        by apply list_elem_of_fmap_2. }
    destruct (list_to_map L !! k) as [l|] eqn:E.
    + apply elem_of_list_to_map in E; [|done]. apply ML in E as (g & Hg & <- & El).
      rewrite <- El. by apply I.
    + apply not_elem_of_list_to_map in E.
      destruct (lock_at db k) as [l|] eqn:El; [|done]. destruct E.
      destruct (C k) as (g & Hg & <-); [apply key_range_all|by exists (ILock k l)|].
      apply list_elem_of_fmap. exists (g_key g, l). split; [done|]. apply ML. exists g.
      split_and!; [done..|]. destruct (I g Hg) as [_ [E _]]. congruence.
  - assert (((fun g => (g_key g, g_vals g)) <$> G).*1 = g_key <$> G) as EG
      by (rewrite <- list_fmap_compose; done).
    destruct (list_to_map _ !! k) as [vs|] eqn:E; cbn [default].
    + apply elem_of_list_to_map in E; [|by rewrite EG].
      apply list_elem_of_fmap in E as (g & [= -> ->] & Hg). by apply I.
    + apply not_elem_of_list_to_map in E. rewrite EG in E. apply A. intros (g & Hg & <-).
      apply E. by apply list_elem_of_fmap_2.
Qed.

(** ** Reads on the abstract state *)

Definition a_read (st : astore) (k : bytes) (ts iso : Z) (rl : list Z) : res (option bytes) :=
  read_key (a_lock st k) (a_vers st k) k ts iso rl.

Lemma rep_getValue mvcc st k ts iso rl :
  rep (EDB mvcc) st -> getValue mvcc k ts iso rl = a_read st k ts iso rl.
Proof.
  intros R. destruct (getValue_read mvcc k ts iso rl (rep_wf _ _ R)) as (vs & V & ->).
  unfold a_read. by rewrite (rep_lock _ _ R), (is_versions_unique _ _ _ _ V (rep_vers _ _ R k)).
Qed.

(** ** Back to the view *)

(** Nothing changed on a key. *)
Definition same_key (db db' : DB) (k : bytes) : Prop :=
  lock_at db' k = lock_at db k /\ forall ts, write_at db' k ts = write_at db k ts.

Lemma rep_write_at db st k ts v :
  rep db st -> write_at db k ts = Some v <-> v ∈ a_vers st k /\ val_commitTS v = ts.
Proof.
  intros R. split.
  - intros E. apply write_at_has in E as [Hh <-]; [|by apply (rep_wf _ _ R)].
    split; [by apply (rep_elem db st)|done].
  - intros [Hv <-]. by apply (rep_elem db st).
Qed.

Lemma rep_same_key db db' st st' k :
  rep db st -> rep db' st' -> kstate st' k = kstate st k -> same_key db db' k.
Proof.
  intros R R' K. injection K as Kl Kv. split.
  - by rewrite (rep_lock _ _ R), (rep_lock _ _ R').
  - intros ts. apply option_eq. intros v.
    by rewrite (rep_write_at db' st'), (rep_write_at db st), Kv by done.
Qed.

(** The versions of a key after one was inserted, and possibly replaced. *)
Lemma rep_inserted db db' st st' k v :
  rep db st -> rep db' st' -> a_vers st' k = insert_version v (a_vers st k) ->
  write_at db' k (val_commitTS v) = Some v /\
  forall ts, ts <> val_commitTS v -> write_at db' k ts = write_at db k ts.
Proof.
  intros R R' E. pose proof (rep_sorted _ _ k R) as S. split.
  - apply (rep_write_at db' st'); [done|]. rewrite E. split; [|done].
    apply elem_of_insert_version; [done|by left].
  - intros ts N. apply option_eq. intros w.
    rewrite (rep_write_at db' st'), (rep_write_at db st), E, elem_of_insert_version by done.
    split; [intros [[->|[Hw _]] <-]; done|]. intros [Hw <-]. auto.
Qed.

(** ** Where an operation on one key starts *)

(** After seeking to the lock of [k] the lock decoder returns the lock and
    leaves the versions of [k] under the iterator. *)
Lemma rep_seek db st k :
  rep db st -> exists rest,
    Forall item_ok ((IVal k <$> a_vers st k) ++ rest) /\ other_key k rest /\
    lockDecode k (newIterator db (mvccEncode k lockVer) []) =
      (Ok (a_lock st k), iter_of ((IVal k <$> a_vers st k) ++ rest)) /\
    (it_Valid (newIterator db (mvccEncode k lockVer) []) = false ->
     a_lock st k = None /\ a_vers st k = []).
Proof.
  intros R. destruct (seek_items db k (rep_wf _ _ R)) as (vs & rest & V & E & HT & O).
  rewrite (is_versions_unique _ _ _ _ V (rep_vers _ _ R k)) in *.
  rewrite (rep_lock _ _ R) in *. rewrite app_assoc in E, HT.
  change (_ ++ (IVal k <$> a_vers st k)) with (group_items k (a_lock st k) (a_vers st k)) in E, HT.
  exists rest. apply other_key_gt in O. split_and!; [by eapply Forall_group_vals|done| |].
  - rewrite E. by apply lockDecode_group.
  - rewrite E. unfold group_items. by destruct (a_lock st k), (a_vers st k), rest.
Qed.

End spec.
