(* ===== verification/MvccExample.v ===== *)
(** * A concrete store

    The instances of [Concrete] applied to a store with three keys: committed
    values, a rollback record, a deletion and a lock.  The witnesses of the
    store's theorems run on it. *)

From stdpp Require Import base gmap list sorting strings.
From Stdlib Require Import Strings.Byte ZArith Lia Sorted.
From S2P Require Import Prelude External Marshal Concrete Mvcc MvccOps MvccView MvccRead MvccScan MvccSpec.
Open Scope Z_scope.

Definition key_a : bytes := [x61].
Definition key_b : bytes := [x62].
Definition key_c : bytes := [x63].
Definition key_d : bytes := [x64].

Definition lock_b : mvccLock := MkLock 30 key_b [x7a] Op_Put 100 0 1 31.

Definition ex_ops : list lop :=
  [ PutVal key_a (MkValue typePut 5 10 [x78]);
    PutVal key_a (MkValue typeRollback 20 20 []);
    PutVal key_b (MkValue typePut 11 15 [x79]);
    PutLock key_b lock_b;
    PutVal key_c (MkValue typePut 5 8 [x77]);
    PutVal key_c (MkValue typeDelete 9 12 []) ].

Definition empty_db : DB := (∅ : gmap bytes bytes).
Definition empty_astore : astore := MkAStore ∅ ∅.

Definition ex_db : DB := (Write empty_db (raw_op <$> ex_ops)).2.
Definition ex_mvcc : MVCCLevelDB := MkStore ex_db NewDetector.
Definition ex_st : astore := apply_lops ex_ops empty_astore.

(** Records of the examples are well formed: every bound is a comparison of
    constants. *)
Ltac solve_ok := repeat constructor; by vm_compute.

Lemma rep_empty : rep empty_db empty_astore.
Proof.
  split.
  - intros rk rv E. discriminate E.
  - done.
  - intros k. split; [constructor|]. intros v. split; [by inversion 1|].
    unfold write_at. case_decide; [|done]. intros E. discriminate E.
Qed.

Lemma ex_ops_ok : Forall lop_ok ex_ops.
Proof. solve_ok. Qed.

Lemma ex_rep : rep (EDB ex_mvcc) ex_st.
Proof. apply rep_write; [apply rep_empty|apply ex_ops_ok]. Qed.

Lemma ex_wf : wf (EDB ex_mvcc).
Proof. apply (rep_wf _ _ ex_rep). Qed.

(** ** Witnesses of the reads *)

Lemma Get_visible_witness :
  wf (EDB ex_mvcc) /\ read_ts (lock_at (EDB ex_mvcc) key_a) key_a 25 IsolationLevel_SI [] = Ok 25 /\
  exists ov, visible (EDB ex_mvcc) key_a 25 ov /\
    Get ex_mvcc key_a 25 IsolationLevel_SI [] = Ok (read_value ov).
Proof.
  split; [apply ex_wf|]. split; [by vm_compute|].
  exact (Get_visible ex_mvcc key_a 25 IsolationLevel_SI [] ex_wf).
Defined.

Lemma Scan_BatchGet_witness :
  Scan ex_mvcc [] [] 2 25 IsolationLevel_SI [] =
    [MkPair key_a (Some [x78]) None; MkPair key_b (Some [x79]) None] /\
  exists ks, range_keys (EDB ex_mvcc) [] [] ks /\
    Scan ex_mvcc [] [] 2 25 IsolationLevel_SI [] =
      take (Z.to_nat 2) (BatchGet ex_mvcc ks 25 IsolationLevel_SI []).
Proof.
  split; [by vm_compute|].
  exact (Scan_BatchGet ex_mvcc [] [] 2 25 IsolationLevel_SI [] ex_wf).
Defined.

Lemma ScanLock_exact_witness :
  ScanLock ex_mvcc [] key_d 40 = Ok [MkLockInfo key_b 30 key_b] /\
  exists L, ScanLock ex_mvcc [] key_d 40 = Ok L /\
    StronglySorted lockinfo_lt L /\
    forall i, i ∈ L <-> exists k l, key_range [] key_d k /\ lock_at (EDB ex_mvcc) k = Some l /\
      lock_startTS l <= 40 /\ i = MkLockInfo (lock_primary l) (lock_startTS l) k.
Proof.
  split; [by vm_compute|]. exact (ScanLock_exact ex_mvcc [] key_d 40 ex_wf).
Defined.
