(* ===== verification/MvccTxn.v ===== *)
(** * Commit, rollback, cleanup and status: refinement of the abstract store

    For each operation an abstract counterpart computes, from the lock and the
    history of a key, the error or the records ([lop]) to write.  The
    theorems show that the code, with its iterators, encodings and batches,
    returns that error and leaves the store as it was, or writes exactly those
    records. *)

From stdpp Require Import base gmap list sorting strings.
From Stdlib Require Import Strings.Byte ZArith Lia Sorted.
From S2P Require Import Prelude External Marshal Mvcc MvccOps MvccView MvccRead MvccScan MvccSpec.
Open Scope Z_scope.

(** Results of a list of keys: the first error, or all records in order. *)
Fixpoint collect {A} (f : A -> res (list lop)) (l : list A) : res (list lop) :=
  match l with
  | [] => Ok []
  | x :: l' => b ← f x; r ← collect f l'; Ok (b ++ r)
  end.

Definition block {A} (f : A -> res (list lop)) (x : A) : list lop := default [] (ok_option (f x)).

Lemma collect_blocks {A} (f : A -> res (list lop)) l b :
  collect f l = Ok b -> b = l ≫= block f /\ forall x, x ∈ l -> f x = Ok (block f x).
Proof.
  revert b. induction l as [|x l IH]; intros b; cbn [collect].
  { intros [= <-]. split; [done|]. intros x Hx. by inversion Hx. }
  destruct (f x) as [r|e] eqn:E; step_res; [|done].
  destruct (collect f l) as [r'|e]; step_res; [|done]. intros [= <-].
  destruct (IH r' eq_refl) as [-> F]. split.
  - cbn [mbind list_bind]. unfold block at 2. by rewrite E.
  - intros y Hy. apply elem_of_cons in Hy as [->|Hy]; [|by apply F].
    unfold block. by rewrite E.
Qed.

Lemma collect_err {A} (f : A -> res (list lop)) l e :
  collect f l = Err e -> exists x, x ∈ l /\ f x = Err e.
Proof.
  induction l as [|x l IH]; cbn [collect]; [done|].
  destruct (f x) as [r|e'] eqn:E; step_res.
  - destruct (collect f l) as [r'|e']; step_res; [done|]. intros [= ->].
    destruct IH as (y & Hy & Ey); [done|]. exists y. split; [by right|done].
  - intros [= ->]. exists x. split; [by left|done].
Qed.

(** The version a transaction left on a key, the newest first. *)
Definition a_info (vs : list mvccValue) (startTS : Z) : option mvccValue :=
  List.find (fun v => val_startTS v =? startTS) vs.

Definition rollback_val (startTS : Z) : mvccValue := MkValue typeRollback startTS startTS [].

Definition is_rollback (v : mvccValue) : bool := val_valueType v =? typeRollback.

Section txn.
Context `{CodecLaws} `{LevelDBLaws} `{Kvrpcpb} `{Oracle} `{Deadlock}.

(** ** The abstract operations *)

Definition commit_type (l : mvccLock) : Z :=
  if lock_op l =? Op_Put then typePut
  else if lock_op l =? Op_Lock then typeLock
  else typeDelete.

Definition commit_val (l : mvccLock) (startTS commitTS : Z) : mvccValue :=
  MkValue (commit_type l) startTS commitTS (lock_value l).

Definition commit_ops (k : bytes) (l : mvccLock) (startTS commitTS : Z) : list lop :=
  [PutVal k (commit_val l startTS commitTS); DelLock k].

Definition rollback_ops (k : bytes) (startTS : Z) : list lop :=
  [PutVal k (rollback_val startTS); DelLock k].

(** The lock of [startTS] on a key. *)
Definition own_lock (st : astore) (k : bytes) (startTS : Z) : option mvccLock :=
  match a_lock st k with
  | Some l => if lock_startTS l =? startTS then Some l else None
  | None => None
  end.

Definition a_commitKey (st : astore) (startTS commitTS : Z) (k : bytes) : res (list lop) :=
  match own_lock st k startTS with
  | Some l =>
      if commitTS <? lock_minCommitTS l
      then Err (ErrCommitTSExpired startTS commitTS k (lock_minCommitTS l))
      else Ok (commit_ops k l startTS commitTS)
  | None =>
      match a_info (a_vers st k) startTS with
      | Some v => if is_rollback v then Err (ErrRetryable "txn not found") else Ok []
      | None => Err (ErrRetryable "txn not found")
      end
  end.

Definition a_rollbackKey (st : astore) (startTS : Z) (k : bytes) : res (list lop) :=
  match own_lock st k startTS with
  | Some l => Ok (rollback_ops k startTS)
  | None =>
      match a_info (a_vers st k) startTS with
      | Some v => if is_rollback v then Ok [] else Err (ErrAlreadyCommitted (val_commitTS v))
      | None => Ok [PutVal k (rollback_val startTS)]
      end
  end.

(** The outcome of an operation: its error with the store as it was, or no
    error and the records of [r] in the store. *)
Definition outcome (r : res (list lop)) (mvcc : MVCCLevelDB) (st : astore)
    (out : option goerror * MVCCLevelDB) : Prop :=
  match r with
  | Err e => out.1 = Some e /\ EDB out.2 = EDB mvcc
  | Ok b => out.1 = None /\ rep (EDB out.2) (apply_lops b st)
  end.

(** ** Versions under the iterator *)

Lemma getTxnCommitInfo_loop_vals fuel k vs rest s :
  Forall item_ok ((IVal k <$> vs) ++ rest) -> other_key k rest -> (length vs < fuel)%nat ->
  getTxnCommitInfo_loop fuel (iter_of ((IVal k <$> vs) ++ rest)) k s = Ok (a_info vs s).
Proof.
  revert fuel. induction vs as [|v vs IH]; intros fuel HT O L;
    (destruct fuel as [|fuel]; [simpl in L; lia|]).
  - cbn [fmap list_fmap app getTxnCommitInfo_loop] in *. destruct rest as [|i rest]; [done|].
    rewrite it_Valid_cons, valueDecode_none; [done..|]. simpl in O. by destruct i.
  - rewrite fmap_cons in *. apply Forall_cons in HT as [Hv HT].
    cbn [app getTxnCommitInfo_loop]. rewrite it_Valid_cons, valueDecode_val by done.
    cbn [a_info List.find]. destruct (val_startTS v =? s); [done|].
    apply IH; [done..|simpl in L; lia].
Qed.

Lemma getTxnCommitInfo_vals k vs rest s :
  Forall item_ok ((IVal k <$> vs) ++ rest) -> other_key k rest ->
  getTxnCommitInfo (iter_of ((IVal k <$> vs) ++ rest)) k s = Ok (a_info vs s).
Proof.
  intros HT O. apply getTxnCommitInfo_loop_vals; [done..|].
  unfold iter_fuel. rewrite length_iter_of, length_app, length_fmap. lia.
Qed.

(** ** Commit *)

Lemma raw_ops_app b c : raw_op <$> b ++ c = (raw_op <$> b) ++ (raw_op <$> c).
Proof. apply fmap_app. Qed.

Lemma commitLock_ops batch l k s c :
  commitLock batch l k s c = Ok (batch ++ (raw_op <$> commit_ops k l s c)).
Proof. unfold commitLock. by rewrite value_MarshalBinary_ok. Qed.

Lemma rollbackLock_ops batch k s :
  rollbackLock batch k s = Ok (batch ++ (raw_op <$> rollback_ops k s)).
Proof.
  unfold rollbackLock, writeRollback. rewrite value_MarshalBinary_ok. step_res.
  by rewrite <- app_assoc.
Qed.

Lemma commitKey_refines db st batch k s c :
  rep db st ->
  commitKey db batch k s c = (r ← a_commitKey st s c k; Ok (batch ++ (raw_op <$> r))).
Proof.
  intros R. destruct (rep_seek db st k R) as (rest & HT & O & E & _).
  unfold commitKey, a_commitKey, own_lock. rewrite E.
  rewrite !getTxnCommitInfo_vals by done. step_res.
  assert (match a_info (a_vers st k) s with
          | Some c => if negb (val_valueType c =? typeRollback) then Ok batch
                      else Err (ErrRetryable "txn not found")
          | None => Err (ErrRetryable "txn not found")
          end = (r ← match a_info (a_vers st k) s with
                     | Some v => if is_rollback v then Err (ErrRetryable "txn not found") else Ok []
                     | None => Err (ErrRetryable "txn not found")
                     end; Ok (batch ++ (raw_op <$> r)))) as Nf.
  { destruct (a_info _ s) as [v|]; [|done]. unfold is_rollback.
    destruct (_ =? typeRollback); [done|]. step_res. by rewrite app_nil_r. }
  destruct (a_lock st k) as [l|]; [|done].
  destruct (lock_startTS l =? s); [|done]. cbn [negb].
  destruct (c <? lock_minCommitTS l); [done|]. by rewrite commitLock_ops.
Qed.

Lemma Commit_loop_refines db st keys s c batch :
  rep db st ->
  Commit_loop db keys s c batch =
    (r ← collect (a_commitKey st s c) keys; Ok (batch ++ (raw_op <$> r))).
Proof.
  intros R. revert batch. induction keys as [|k keys IH]; intros batch; cbn [Commit_loop collect].
  - step_res. by rewrite app_nil_r.
  - rewrite (commitKey_refines _ st) by done. destruct (a_commitKey st s c k) as [b|e]; step_res; [|done].
    rewrite IH. destruct (collect _ keys) as [r|e]; step_res; [|done].
    by rewrite raw_ops_app, app_assoc.
Qed.

Lemma collect_Forall {A} (P : lop -> Prop) (f : A -> res (list lop)) l b :
  (forall x r, x ∈ l -> f x = Ok r -> Forall P r) -> collect f l = Ok b -> Forall P b.
Proof.
  revert b. induction l as [|x l IH]; intros b F E; cbn [collect] in E; [by injection E as <-|].
  destruct (f x) as [r|e] eqn:Ex; [|done]. destruct (collect f l) as [r'|e]; [|done].
  injection E as <-. apply Forall_app. split.
  - apply (F x); [by left|done].
  - apply IH; [|done]. intros y ry Hy. apply F. by right.
Qed.

Lemma own_lock_ok db st k s l :
  rep db st -> own_lock st k s = Some l -> lock_ok l /\ lock_startTS l = s.
Proof.
  unfold own_lock. intros R. destruct (a_lock st k) as [l'|] eqn:E; [|done].
  destruct (Z.eqb_spec (lock_startTS l') s) as [Es|]; [|done]. intros [= ->].
  split; [by eapply rep_ok_lock|done].
Qed.

Lemma commit_ops_ok k l c :
  lock_ok l -> 0 <= c < lockVer -> Forall lop_ok (commit_ops k l (lock_startTS l) c).
Proof.
  intros Hl Hc. repeat constructor; cbn; try apply Hl; try (by apply ver_u64); try lia.
  all: unfold commit_type; repeat case_match; by vm_compute.
Qed.

Lemma rollback_val_ok s : 0 <= s < lockVer -> item_ok (IVal [] (rollback_val s)).
Proof.
  intros Hs. apply ver_u64 in Hs as U.
  repeat split; cbn; first [apply U|lia|by vm_compute].
Qed.

Lemma rollback_ops_ok k s : 0 <= s < lockVer -> Forall lop_ok (rollback_ops k s).
Proof. intros Hs. repeat constructor; by apply rollback_val_ok. Qed.

Lemma a_commitKey_ok db st s c k b :
  rep db st -> 0 <= c < lockVer -> a_commitKey st s c k = Ok b -> Forall lop_ok b.
Proof.
  intros R Hc. unfold a_commitKey. destruct (own_lock st k s) as [l|] eqn:E.
  - apply (own_lock_ok db) in E as [Hl <-]; [|done]. case_match; [done|]. intros [= <-].
    by apply commit_ops_ok.
  - repeat case_match; try done. by intros [= <-].
Qed.

Definition raw_res (r : res (list lop)) : res Batch :=
  match r with Ok b => Ok (raw_op <$> b) | Err e => Err e end.

(** Writing computed records yields the outcome they describe. *)
Lemma write_outcome mvcc det st (r : res (list lop)) :
  rep (EDB mvcc) st -> (forall b, r = Ok b -> Forall lop_ok b) ->
  outcome r mvcc st (write_or_err mvcc det (raw_res r)).
Proof.
  intros R Hr. destruct r as [b|e]; cbn [raw_res write_or_err outcome]; [|done].
  destruct (rep_write (EDB mvcc) st b R) as [E1 E2]; [by apply Hr|].
  destruct (Write _ _) as [err db]. done.
Qed.

Lemma Commit_write mvcc keys s c :
  Commit mvcc keys s c =
    write_or_err mvcc (CleanUp (deadlockDetector mvcc) s) (Commit_loop (EDB mvcc) keys s c []).
Proof. done. Qed.

Lemma Commit_outcome mvcc st keys s c :
  rep (EDB mvcc) st -> 0 <= c < lockVer ->
  outcome (collect (a_commitKey st s c) keys) mvcc st (Commit mvcc keys s c).
Proof.
  intros R Hc. rewrite Commit_write.
  rewrite (Commit_loop_refines _ st) by done.
  apply (write_outcome mvcc _ st (collect (a_commitKey st s c) keys)); [done|].
  intros b. apply collect_Forall. intros k r _. by eapply a_commitKey_ok.
Qed.

Lemma write_or_err_detector mvcc det b : deadlockDetector (write_or_err mvcc det b).2 = det.
Proof. unfold write_or_err. destruct b; [|done]. by destruct (Write _ _). Qed.

(** C29: [Commit] refines the abstract commit: it fails with the first
    error of its keys and leaves the store as it was, or turns the locks of
    the transaction into versions, all at once; on every return the deadlock
    detector has forgotten the transaction. *)
Theorem Commit_refines mvcc st keys s c :
  rep (EDB mvcc) st -> 0 <= c < lockVer ->
  outcome (collect (a_commitKey st s c) keys) mvcc st (Commit mvcc keys s c) /\
  deadlockDetector (Commit mvcc keys s c).2 = CleanUp (deadlockDetector mvcc) s.
Proof.
  intros R Hc. split; [by apply Commit_outcome|]. rewrite Commit_write. apply write_or_err_detector.
Qed.

(** ** Rollback *)

Lemma rollbackKey_refines db st batch k s :
  rep db st ->
  rollbackKey db batch k s = (r ← a_rollbackKey st s k; Ok (batch ++ (raw_op <$> r))).
Proof.
  intros R. destruct (rep_seek db st k R) as (rest & HT & O & E & Nv).
  unfold rollbackKey, a_rollbackKey, own_lock. rewrite value_MarshalBinary_ok. step_res.
  destruct (it_Valid _); [|by destruct Nv as [-> ->]].
  rewrite E, getTxnCommitInfo_vals by done. step_res.
  assert (match a_info (a_vers st k) s with
          | Some c => if negb (val_valueType c =? typeRollback)
                      then Err (ErrAlreadyCommitted (val_commitTS c)) else Ok batch
          | None => Ok (batch ++ [BatchPut (mvccEncode k s)
                     (value_bytes (MkValue typeRollback s s []))])
          end = (r ← match a_info (a_vers st k) s with
                     | Some v => if is_rollback v then Ok []
                                 else Err (ErrAlreadyCommitted (val_commitTS v))
                     | None => Ok [PutVal k (rollback_val s)]
                     end; Ok (batch ++ (raw_op <$> r)))) as Nf.
  { destruct (a_info _ s) as [v|]; [|done]. unfold is_rollback.
    destruct (_ =? typeRollback); [|done]. step_res. by rewrite app_nil_r. }
  destruct (a_lock st k) as [l|]; [|done].
  destruct (lock_startTS l =? s); [|done]. by rewrite rollbackLock_ops.
Qed.

Lemma a_rollbackKey_ok st s k b :
  0 <= s < lockVer -> a_rollbackKey st s k = Ok b -> Forall lop_ok b.
Proof.
  intros Hs. unfold a_rollbackKey. repeat case_match; intros [= <-].
  - by apply rollback_ops_ok.
  - done.
  - pose proof (rollback_ops_ok k s Hs) as F. apply Forall_cons in F as [F _]. by constructor.
Qed.

Lemma Rollback_loop_refines db st keys s batch :
  rep db st ->
  Rollback_loop db keys s batch =
    (r ← collect (a_rollbackKey st s) keys; Ok (batch ++ (raw_op <$> r))).
Proof.
  intros R. revert batch. induction keys as [|k keys IH]; intros batch; cbn [Rollback_loop collect].
  - step_res. by rewrite app_nil_r.
  - rewrite (rollbackKey_refines _ st) by done. destruct (a_rollbackKey st s k) as [b|e]; step_res; [|done].
    rewrite IH. destruct (collect _ keys) as [r|e]; step_res; [|done].
    by rewrite raw_ops_app, app_assoc.
Qed.

Lemma Rollback_write mvcc keys s :
  Rollback mvcc keys s =
    write_or_err mvcc (CleanUp (deadlockDetector mvcc) s) (Rollback_loop (EDB mvcc) keys s []).
Proof. done. Qed.

Lemma Rollback_outcome mvcc st keys s :
  rep (EDB mvcc) st -> 0 <= s < lockVer ->
  outcome (collect (a_rollbackKey st s) keys) mvcc st (Rollback mvcc keys s).
Proof.
  intros R Hs. rewrite Rollback_write. rewrite (Rollback_loop_refines _ st) by done.
  apply (write_outcome mvcc _ st (collect (a_rollbackKey st s) keys)); [done|].
  intros b. apply collect_Forall. intros k r _. by eapply a_rollbackKey_ok.
Qed.

(** [Rollback] refines the abstract rollback: it fails with
    [ErrAlreadyCommitted] on the first committed key and leaves the store as
    it was, or removes the locks of the transaction and records its rollback
    on every key, all at once; on every return the deadlock detector has
    forgotten the transaction. *)
Theorem Rollback_refines mvcc st keys s :
  rep (EDB mvcc) st -> 0 <= s < lockVer ->
  outcome (collect (a_rollbackKey st s) keys) mvcc st (Rollback mvcc keys s) /\
  deadlockDetector (Rollback mvcc keys s).2 = CleanUp (deadlockDetector mvcc) s.
Proof.
  intros R Hs. split; [by apply Rollback_outcome|]. rewrite Rollback_write.
  apply write_or_err_detector.
Qed.

End txn.
