(* ===== verification/MvccLock.v ===== *)
(** * Prewrite and pessimistic locks: refinement of the abstract store

    The write-conflict check, prewrite, pessimistic lock and pessimistic
    rollback as functions on the lock and the history of a key. *)

From stdpp Require Import base gmap list sorting strings.
From Stdlib Require Import Strings.Byte ZArith Lia Sorted.
From S2P Require Import Prelude External Marshal Mvcc MvccOps MvccView MvccRead MvccScan MvccSpec MvccTxn.
Open Scope Z_scope.

Section lock.
Context `{CodecLaws} `{LevelDBLaws} `{KvrpcpbLaws} `{Oracle} `{Deadlock}.

(** ** The conflict check on a history *)

Definition exists_type (v : mvccValue) : bool :=
  (val_valueType v =? typePut) || (val_valueType v =? typeLock).
Definition has_value (v : mvccValue) : bool :=
  (val_valueType v =? typeDelete) || (val_valueType v =? typePut).

(** [gv], [asn] and [rb]: whether the value, the assertion and the rollback
    record are still looked for. *)
Fixpoint a_check_loop (vs : list mvccValue) (m : Mutation) (startTS : Z)
    (gv asn rb : bool) (ret : option bytes) : res (option bytes) :=
  match vs with
  | [] => Ok ret
  | v :: vs' =>
      if rb && is_rollback v && (val_commitTS v =? startTS)
      then Err (ErrAlreadyRollbacked startTS (m_Key m))
      else if asn && exists_type v && (m_Op m =? Op_PessimisticLock)
      then Err (ErrKeyAlreadyExist (m_Key m))
      else a_check_loop vs' m startTS (gv && negb (has_value v))
             (asn && (exists_type v || negb (val_valueType v =? typeDelete)))
             (rb && negb (val_commitTS v <? startTS))
             (if gv && has_value v then Some (val_value v) else ret)
  end.

Definition a_check (vs : list mvccValue) (m : Mutation) (forTS startTS : Z) (getVal : bool)
    : res (option bytes) :=
  match vs with
  | [] => Ok None
  | v :: _ =>
      if forTS <? val_commitTS v
      then Err (ErrConflict forTS (val_startTS v) (val_commitTS v) (m_Key m))
      else r ← a_check_loop vs m startTS getVal (m_Assertion m =? Assertion_NotExist) true None;
           Ok (if getVal then r else None)
  end.

(** Once nothing is looked for the rest of the history does not matter: the
    code leaves the loop there. *)
Lemma a_check_loop_done vs m s ret : a_check_loop vs m s false false false ret = Ok ret.
Proof. induction vs as [|v vs IH]; [done|]. cbn. apply IH. Qed.

Lemma checkConflictValue_loop_vals fuel k vs rest m s v gv asn rb ret :
  k = m_Key m -> Forall item_ok ((IVal k <$> vs) ++ rest) -> other_key k rest ->
  (length vs < fuel)%nat ->
  checkConflictValue_loop fuel (iter_of ((IVal k <$> vs) ++ rest)) m s v gv asn rb ret =
    a_check_loop (v :: vs) m s gv asn rb ret.
Proof.
  intros ->. revert fuel v gv asn rb ret.
  induction vs as [|w vs IH]; intros fuel v gv asn rb ret HT O L;
    (destruct fuel as [|fuel]; [simpl in L; lia|]); cbn [checkConflictValue_loop].
  all: change ((val_valueType v =? typePut) || (val_valueType v =? typeLock)) with (exists_type v).
  all: change ((val_valueType v =? typeDelete) || (val_valueType v =? typePut)) with (has_value v).
  all: change (val_valueType v =? typeRollback) with (is_rollback v).
  - cbn [fmap list_fmap app a_check_loop] in *.
    destruct (rb && is_rollback v && _); [done|].
    destruct (asn && exists_type v && _); [done|].
    destruct (negb _ && negb _ && negb _); [done|].
    rewrite valueDecode_none; [done|done|]. destruct rest as [|[] ?]; done.
  - rewrite fmap_cons in *. apply Forall_cons in HT as [Hw HT]. cbn [app].
    set (vs' := w :: vs). cbn [a_check_loop]. subst vs'.
    destruct (rb && is_rollback v && _); [done|].
    destruct (asn && exists_type v && _); [done|].
    set (asn' := asn && _). set (gv' := gv && negb _). set (rb' := rb && negb _).
    destruct (negb asn' && negb gv' && negb rb') eqn:D.
    + destruct asn', gv', rb'; try done. by rewrite a_check_loop_done.
    + rewrite valueDecode_val by done. apply IH; [done..|]. simpl in L. lia.
Qed.

Lemma checkConflictValue_vals k vs rest m forTS s gv :
  k = m_Key m -> Forall item_ok ((IVal k <$> vs) ++ rest) -> other_key k rest ->
  checkConflictValue (iter_of ((IVal k <$> vs) ++ rest)) m forTS s gv =
    a_check vs m forTS s gv.
Proof.
  intros -> HT O. unfold checkConflictValue. destruct vs as [|v vs].
  - cbn [fmap list_fmap app] in *. rewrite valueDecode_none; [done|done|].
    destruct rest as [|[] ?]; done.
  - rewrite fmap_cons in *. apply Forall_cons in HT as [Hv HT]. cbn [app].
    rewrite valueDecode_val by done. cbn [a_check].
    destruct (forTS <? val_commitTS v); [done|].
    rewrite checkConflictValue_loop_vals; [done..|].
    unfold iter_fuel. rewrite length_iter_of, length_app, length_fmap. lia.
Qed.

(** The check of a mutation that does not take a pessimistic lock: a version
    newer than the check timestamp, or a rollback record of the transaction. *)
Definition rolled_back (vs : list mvccValue) (startTS : Z) : bool :=
  existsb (fun v => is_rollback v && (val_commitTS v =? startTS)) vs.

Lemma a_check_loop_rolled_back vs m s asn rb :
  StronglySorted ver_gt vs -> (m_Op m =? Op_PessimisticLock) = false ->
  a_check_loop vs m s false asn rb None =
    if rb && rolled_back vs s then Err (ErrAlreadyRollbacked s (m_Key m)) else Ok None.
Proof.
  intros S Hop. revert asn rb. induction S as [|v vs S IH F]; intros asn rb.
  - cbn. by rewrite andb_false_r.
  - cbn [a_check_loop rolled_back existsb]. rewrite Hop, !andb_false_r.
    destruct rb; cbn [andb]; [|by rewrite IH].
    destruct (is_rollback v && (val_commitTS v =? s)); [done|]. cbn [orb]. rewrite IH.
    destruct (Z.ltb_spec (val_commitTS v) s) as [L|L]; [|done]. cbn [negb andb].
    destruct (existsb _ vs) eqn:E; [|done]. apply existsb_exists in E as (w & Hw & E).
    apply list_elem_of_In in Hw. rewrite Forall_forall in F. apply F in Hw.
    unfold ver_gt in Hw. apply andb_true_iff in E as [_ E]. apply Z.eqb_eq in E. lia.
Qed.

Lemma a_check_loop_ok vs m s gv asn ret r :
  StronglySorted ver_gt vs ->
  a_check_loop vs m s gv asn true ret = Ok r -> rolled_back vs s = false.
Proof.
  intros S. revert gv asn ret. induction S as [|v vs S IH F]; intros gv asn ret; [done|].
  cbn [a_check_loop rolled_back existsb andb].
  destruct (is_rollback v && (val_commitTS v =? s)); [done|].
  destruct (asn && exists_type v && _); [done|]. cbn [orb].
  destruct (Z.ltb_spec (val_commitTS v) s) as [L|L]; [|apply IH].
  intros _. destruct (existsb _ vs) eqn:E; [|done]. apply existsb_exists in E as (w & Hw & E).
  apply list_elem_of_In in Hw. rewrite Forall_forall in F. apply F in Hw.
  unfold ver_gt in Hw. apply andb_true_iff in E as [_ E]. apply Z.eqb_eq in E. lia.
Qed.

(** A passed check: no version is newer, and the transaction was not rolled
    back on the key. *)
Lemma a_check_ok vs m forTS s gv r :
  StronglySorted ver_gt vs -> a_check vs m forTS s gv = Ok r ->
  Forall (fun v => val_commitTS v <= forTS) vs /\ rolled_back vs s = false.
Proof.
  intros S. unfold a_check. destruct vs as [|v vs]; [done|].
  destruct (Z.ltb_spec forTS (val_commitTS v)) as [L|L]; [done|].
  destruct (a_check_loop _ _ _ _ _ _ _) eqn:E; [|done]. intros _.
  split; [|by eapply a_check_loop_ok]. apply StronglySorted_inv in S as [_ F].
  constructor; [done|]. eapply Forall_impl; [exact F|]. unfold ver_gt. intros; lia.
Qed.

(** ** Prewrite *)

(** The lock a mutation writes. *)
Definition prewrite_lock (m : Mutation) (startTS : Z) (primary : bytes)
    (ttl txnSize minCommitTS : Z) : mvccLock :=
  MkLock startTS primary (m_Value m) (if m_Op m =? Op_Insert then Op_Put else m_Op m)
    ttl 0 txnSize (if bool_decide (primary = m_Key m) then minCommitTS else 0).

(** A lock error of a pessimistic transaction reports no time to live. *)
Definition no_ttl (l : mvccLock) : mvccLock :=
  MkLock (lock_startTS l) (lock_primary l) (lock_value l) (lock_op l) 0
    (lock_forUFIDelateTS l) (lock_txnSize l) (lock_minCommitTS l).

Definition a_prewriteMutation (st : astore) (m : Mutation) (startTS : Z) (primary : bytes)
    (ttl txnSize : Z) (isPess : bool) (minCommitTS : Z) : res (list lop) :=
  match a_lock st (m_Key m) with
  | Some l =>
      if negb (lock_startTS l =? startTS)
      then Err (lockErr (if isPess then no_ttl l else l) (m_Key m))
      else if negb (lock_op l =? Op_PessimisticLock) then Ok []
      else Ok [PutLock (m_Key m) (prewrite_lock m startTS primary (Z.max ttl (lock_ttl l)) txnSize
                 (Z.max minCommitTS (lock_minCommitTS l)))]
  | None =>
      if isPess then Err (ErrAbort "pessimistic dagger not found")
      else r ← a_check (a_vers st (m_Key m)) m startTS startTS false;
           Ok [PutLock (m_Key m) (prewrite_lock m startTS primary ttl txnSize minCommitTS)]
  end.

(** The error of a mutation and its records, in the shape of the code. *)
Definition err_and (batch : Batch) (r : res (list lop)) : option goerror * Batch :=
  match r with
  | Ok b => (None, batch ++ (raw_op <$> b))
  | Err e => (Some e, batch)
  end.

Lemma max_if a b : (if a <? b then b else a) = Z.max a b.
Proof. destruct (Z.ltb_spec a b); lia. Qed.

Lemma prewriteMutation_refines db st batch m s primary ttl size isPess minc :
  rep db st ->
  prewriteMutation db batch m s primary ttl size isPess minc =
    err_and batch (a_prewriteMutation st m s primary ttl size isPess minc).
Proof.
  intros R. destruct (rep_seek db st (m_Key m) R) as (rest & HT & O & E & _).
  unfold prewriteMutation, a_prewriteMutation. rewrite E.
  destruct (a_lock st (m_Key m)) as [l|].
  - destruct (lock_startTS l =? s); cbn [negb]; [|by destruct isPess].
    destruct (lock_op l =? Op_PessimisticLock); cbn [negb];
      [|by cbn [err_and fmap list_fmap]; rewrite app_nil_r].
    rewrite !max_if. by rewrite lock_MarshalBinary_ok.
  - destruct isPess; [done|]. rewrite checkConflictValue_vals by done.
    destruct (a_check _ _ _ _ _); [|done]. by rewrite lock_MarshalBinary_ok.
Qed.

(** The errors and the records of the mutation at index [i]; [None] is the
    panic on a short [IsPessimisticLock]. *)
Definition a_insert_check (st : astore) (req : PrewriteRequest) (m : Mutation) : option goerror :=
  if ((m_Op m =? Op_Insert) || (m_Op m =? Op_CheckNotExists)) && (pw_ForUFIDelateTs req =? 0)
  then match a_read st (m_Key m) (pw_StartVersion req) IsolationLevel_SI (pw_ResolvedLocks req) with
       | Err e => Some e
       | Ok (Some _) => Some (ErrKeyAlreadyExist (m_Key m))
       | Ok None => None
       end
  else None.

Definition a_prewrite_one (st : astore) (req : PrewriteRequest) (i : nat) (m : Mutation)
    : option (list (option goerror) * list lop) :=
  match a_insert_check st req m with
  | Some e => Some ([Some e], [])
  | None =>
      if m_Op m =? Op_CheckNotExists then Some ([], [])
      else
        isPess ← (match pw_IsPessimisticLock req with
                  | [] => Some false
                  | _ => pw_IsPessimisticLock req !! i
                  end);
        Some (match a_prewriteMutation st m (pw_StartVersion req) (pw_PrimaryLock req)
                      (pw_LockTtl req) (pw_TxnSize req) isPess (pw_MinCommitTs req) with
              | Ok b => ([None], b)
              | Err e => ([Some e], [])
              end)
  end.

Fixpoint a_prewrite (st : astore) (req : PrewriteRequest) (i : nat) (ms : list Mutation)
    : option (list (option goerror) * list lop) :=
  match ms with
  | [] => Some ([], [])
  | m :: ms' =>
      '(e1, b1) ← a_prewrite_one st req i m;
      '(e2, b2) ← a_prewrite st req (S i) ms';
      Some (e1 ++ e2, b1 ++ b2)
  end.

Lemma Prewrite_loop_refines mvcc st req i ms errs batch :
  rep (EDB mvcc) st ->
  Prewrite_loop mvcc req i ms errs batch =
    ('(e, b) ← a_prewrite st req i ms; Some (errs ++ e, batch ++ (raw_op <$> b))).
Proof.
  intros R. revert i errs batch.
  induction ms as [|m ms IH]; intros i errs batch; cbn [Prewrite_loop a_prewrite].
  { step_opt. by rewrite !app_nil_r. }
  rewrite (rep_getValue mvcc st) by done. unfold a_prewrite_one.
  change (if _ && _ then _ else None) with (a_insert_check st req m).
  destruct (a_insert_check st req m) as [e|]; step_opt.
  { rewrite IH. destruct (a_prewrite st req (S i) ms) as [[e2 b2]|]; step_opt; [|done].
    by rewrite <- app_assoc. }
  destruct (m_Op m =? Op_CheckNotExists).
  { step_opt. rewrite IH. by destruct (a_prewrite st req (S i) ms) as [[e2 b2]|]. }
  destruct (match pw_IsPessimisticLock req with [] => _ | _ => _ end) as [isPess|]; step_opt; [|done].
  rewrite (prewriteMutation_refines _ st) by done.
  destruct (a_prewriteMutation _ _ _ _ _ _ _ _) as [b|e]; cbn [err_and]; rewrite IH;
    destruct (a_prewrite st req (S i) ms) as [[e2 b2]|]; step_opt; try done.
  - by rewrite raw_ops_app, <- !app_assoc.
  - by rewrite <- !app_assoc.
Qed.

(** The fields of a request fit their types, and the values and the primary
    key fit the record format. *)
Record prewrite_ok (req : PrewriteRequest) : Prop := {
  pw_ok_start : u64 (pw_StartVersion req);
  pw_ok_primary : small (pw_PrimaryLock req);
  pw_ok_ttl : u64 (pw_LockTtl req);
  pw_ok_size : u64 (pw_TxnSize req);
  pw_ok_min : u64 (pw_MinCommitTs req);
  pw_ok_ops : Forall (fun m => int32 (m_Op m) /\ small (m_Value m)) (pw_Mutations req);
}.

Lemma u64_0 : u64 0.
Proof. done. Qed.

Lemma u64_max a b : u64 a -> u64 b -> u64 (Z.max a b).
Proof. unfold u64. lia. Qed.

Lemma prewrite_lock_ok m s primary ttl size minc :
  u64 s -> small primary -> u64 ttl -> u64 size -> u64 minc -> int32 (m_Op m) -> small (m_Value m) ->
  lock_ok (prewrite_lock m s primary ttl size minc).
Proof.
  intros. split; cbn; auto using u64_0.
  - destruct (m_Op m =? Op_Insert); [|done].
    pose proof Op_int32 as O. by apply Forall_cons in O as [O _].
  - case_bool_decide; auto using u64_0.
Qed.

Lemma a_prewriteMutation_ok db st req m isPess b :
  rep db st -> prewrite_ok req -> m ∈ pw_Mutations req ->
  a_prewriteMutation st m (pw_StartVersion req) (pw_PrimaryLock req) (pw_LockTtl req)
    (pw_TxnSize req) isPess (pw_MinCommitTs req) = Ok b -> Forall lop_ok b.
Proof.
  intros R [Hs Hp Ht Hz Hm Ho] Hin. rewrite Forall_forall in Ho. destruct (Ho m Hin).
  unfold a_prewriteMutation. destruct (a_lock st (m_Key m)) as [l|] eqn:E.
  - apply (rep_ok_lock db) in E; [|done].
    repeat case_match; intros [= <-]; [done|]. constructor; [|done].
    apply prewrite_lock_ok; auto; apply u64_max; try done; apply E.
  - destruct isPess; [done|]. destruct (a_check _ _ _ _ _); [|done]. intros [= <-].
    constructor; [|done]. by apply prewrite_lock_ok.
Qed.

(** A property of the records of every mutation holds of all records. *)
Lemma a_prewrite_Forall (P : lop -> Prop) st req i ms e b :
  (forall m isPess r, m ∈ ms -> a_prewriteMutation st m (pw_StartVersion req) (pw_PrimaryLock req)
     (pw_LockTtl req) (pw_TxnSize req) isPess (pw_MinCommitTs req) = Ok r -> Forall P r) ->
  a_prewrite st req i ms = Some (e, b) -> Forall P b.
Proof.
  revert i e b. induction ms as [|m ms IH]; intros i e b Hm; cbn [a_prewrite].
  { by intros [= <- <-]. }
  destruct (a_prewrite_one st req i m) as [[e1 b1]|] eqn:E1; step_opt; [|done].
  destruct (a_prewrite st req (S i) ms) as [[e2 b2]|] eqn:E2; step_opt; [|done].
  intros [= <- <-]. apply Forall_app. split.
  - unfold a_prewrite_one in E1. destruct (a_insert_check _ _ _); [by injection E1 as <- <-|].
    destruct (_ =? Op_CheckNotExists); [by injection E1 as <- <-|].
    destruct (match pw_IsPessimisticLock req with [] => _ | _ => _ end) as [p|]; [|done].
    cbn [mbind option_bind] in E1. case_match eqn:E; injection E1 as <- <-; [|done].
    eapply Hm; [by left|exact E].
  - apply (IH (S i) e2); [|done]. intros m' p r Hm'. apply Hm. by right.
Qed.

Lemma Prewrite_outcome mvcc st req :
  rep (EDB mvcc) st -> prewrite_ok req ->
  match a_prewrite st req 0 (pw_Mutations req) with
  | None => Prewrite mvcc req = None
  | Some (errs, b) =>
      exists mvcc', Prewrite mvcc req = Some (errs, mvcc') /\
        if existsb is_err errs then mvcc' = mvcc
        else deadlockDetector mvcc' = deadlockDetector mvcc /\ rep (EDB mvcc') (apply_lops b st)
  end.
Proof.
  intros R P. unfold Prewrite. rewrite (Prewrite_loop_refines mvcc st) by done.
  destruct (a_prewrite st req 0 (pw_Mutations req)) as [[errs b]|] eqn:E; step_opt; [|done].
  cbn [app]. destruct (existsb is_err errs); [by exists mvcc|].
  destruct (rep_write (EDB mvcc) st b R) as [E1 E2].
  { eapply a_prewrite_Forall; [|exact E]. intros m p r Hm. by apply (a_prewriteMutation_ok (EDB mvcc)). }
  destruct (Write (EDB mvcc) (raw_op <$> b)) as [er db]. cbn in E1, E2. subst er.
  by eexists.
Qed.

(** ** Pessimistic locks *)

Definition pess_lock (lctx : lockCtx) : mvccLock :=
  MkLock (lc_startTS lctx) (lc_primary lctx) [] Op_PessimisticLock (lc_ttl lctx)
    (lc_forUFIDelateTS lctx) 0 (lc_minCommitTs lctx).

Definition add_value (lctx : lockCtx) (v : option bytes) : lockCtx :=
  if lc_returnValues lctx
  then MkLockCtx (lc_startTS lctx) (lc_forUFIDelateTS lctx) (lc_primary lctx) (lc_ttl lctx)
         (lc_minCommitTs lctx) (lc_returnValues lctx) (lc_values lctx ++ [v])
  else lctx.

(** The error, the records, and the context and detector afterwards. *)
Definition a_pessMutation (st : astore) (det : Detector) (lctx : lockCtx) (m : Mutation)
    : option goerror * (list lop * lockCtx * Detector) :=
  match a_lock st (m_Key m) with
  | Some l =>
      if lock_startTS l =? lc_startTS lctx then (None, ([], lctx, det))
      else
        let '(cycle, det) := Detect det (lc_startTS lctx) (lock_startTS l) (Fingerprint64 (m_Key m)) in
        (Some (match cycle with
               | Some h => ErrDeadlock (lock_startTS l) (m_Key m) h
               | None => lockErr l (m_Key m)
               end), ([], lctx, det))
  | None =>
      match a_check (a_vers st (m_Key m)) m (lc_forUFIDelateTS lctx) (lc_startTS lctx) true with
      | Err e => (Some e, ([], lctx, det))
      | Ok v => (None, ([PutLock (m_Key m) (pess_lock lctx)], add_value lctx v, det))
      end
  end.

Fixpoint a_pessLock (st : astore) (wait : Z) (ms : list Mutation) (lctx : lockCtx) (det : Detector)
    : list (option goerror) * (list lop * lockCtx * Detector) :=
  match ms with
  | [] => ([], ([], lctx, det))
  | m :: ms' =>
      let '(err, (b1, lctx, det)) := a_pessMutation st det lctx m in
      if (wait =? LockNoWait) && is_ErrLocked err then ([err], (b1, lctx, det))
      else let '(errs, (b2, lctx, det)) := a_pessLock st wait ms' lctx det in
           (err :: errs, (b1 ++ b2, lctx, det))
  end.

Lemma pessimisticLockMutation_refines db st det batch m lctx :
  rep db st ->
  pessimisticLockMutation db det batch m lctx =
    let '(err, (b, lctx', det')) := a_pessMutation st det lctx m in
    (err, (batch ++ (raw_op <$> b), lctx', det')).
Proof.
  intros R. destruct (rep_seek db st (m_Key m) R) as (rest & HT & O & E & _).
  unfold pessimisticLockMutation, a_pessMutation. rewrite E.
  destruct (a_lock st (m_Key m)) as [l|].
  - destruct (lock_startTS l =? lc_startTS lctx); cbn [negb];
      [by cbn [fmap list_fmap]; rewrite app_nil_r|].
    destruct (Detect _ _ _ _) as [[h|] det']; cbn [fmap list_fmap]; by rewrite app_nil_r.
  - rewrite checkConflictValue_vals by done.
    destruct (a_check _ _ _ _ _) as [v|e]; [|cbn [fmap list_fmap]; by rewrite app_nil_r].
    unfold add_value. destruct (lc_returnValues lctx); by rewrite lock_MarshalBinary_ok.
Qed.

Lemma PessimisticLock_loop_refines db st wait ms errs batch lctx det :
  rep db st ->
  PessimisticLock_loop db ms wait errs (batch, lctx, det) =
    let '(e, (b, lctx', det')) := a_pessLock st wait ms lctx det in
    (errs ++ e, (batch ++ (raw_op <$> b), lctx', det')).
Proof.
  intros R. revert errs batch lctx det.
  induction ms as [|m ms IH]; intros errs batch lctx det; cbn [PessimisticLock_loop a_pessLock].
  { by rewrite !app_nil_r. }
  rewrite (pessimisticLockMutation_refines db st) by done.
  destruct (a_pessMutation st det lctx m) as [err [[b1 lctx1] det1]].
  destruct ((wait =? LockNoWait) && is_ErrLocked err); [done|]. rewrite IH.
  destruct (a_pessLock st wait ms lctx1 det1) as [e [[b2 lctx2] det2]].
  by rewrite raw_ops_app, <- !app_assoc.
Qed.

(** The fields of a request fit their types and the record format. *)
Record pess_ok (lctx : lockCtx) : Prop := {
  pc_ok_start : u64 (lc_startTS lctx);
  pc_ok_for : u64 (lc_forUFIDelateTS lctx);
  pc_ok_primary : small (lc_primary lctx);
  pc_ok_ttl : u64 (lc_ttl lctx);
  pc_ok_min : u64 (lc_minCommitTs lctx);
}.

Lemma pess_lock_ok lctx : pess_ok lctx -> lock_ok (pess_lock lctx).
Proof.
  intros []. split; cbn; auto using u64_0; [by vm_compute|].
  pose proof Op_int32 as O. do 5 apply Forall_cons in O as [_ O]. by apply Forall_cons in O as [O _].
Qed.

Lemma a_pessMutation_ok st det lctx m err b lctx' det' :
  pess_ok lctx -> a_pessMutation st det lctx m = (err, (b, lctx', det')) ->
  Forall lop_ok b /\ pess_ok lctx'.
Proof.
  intros P. unfold a_pessMutation. destruct (a_lock st (m_Key m)) as [l|].
  - case_match; [by intros [= _ <- <- _]|]. destruct (Detect _ _ _ _). by intros [= _ <- <- _].
  - destruct (a_check _ _ _ _ _); intros [= _ <- <- _]; split; try done.
    + constructor; [|done]. by apply pess_lock_ok.
    + unfold add_value. destruct (lc_returnValues lctx); [|done]. by destruct P.
Qed.

Lemma a_pessLock_Forall (P : lop -> Prop) (Q : lockCtx -> Prop) st wait ms lctx det e b lctx' det' :
  (forall det lctx m err r lctx' det', Q lctx -> a_pessMutation st det lctx m = (err, (r, lctx', det')) ->
     Forall P r /\ Q lctx') ->
  Q lctx -> a_pessLock st wait ms lctx det = (e, (b, lctx', det')) -> Forall P b.
Proof.
  intros Hm. revert lctx det e b lctx' det'.
  induction ms as [|m ms IH]; intros lctx det e b lctx' det' HQ; cbn [a_pessLock].
  { by intros [= _ <- _ _]. }
  destruct (a_pessMutation st det lctx m) as [err [[b1 lctx1] det1]] eqn:E1.
  apply Hm in E1 as [F1 P1]; [|done].
  destruct (_ && is_ErrLocked err); [by intros [= _ <- _ _]|].
  destruct (a_pessLock st wait ms lctx1 det1) as [e2 [[b2 lctx2] det2]] eqn:E2.
  intros [= _ <- _ _]. apply Forall_app. split; [done|]. by eapply IH.
Qed.

Definition req_ctx (req : PessimisticLockRequest) : lockCtx :=
  MkLockCtx (pl_StartVersion req) (pl_ForUFIDelateTs req) (pl_PrimaryLock req) (pl_LockTtl req)
    (pl_MinCommitTs req) (pl_ReturnValues req) [].

Lemma PessimisticLock_outcome mvcc st req :
  rep (EDB mvcc) st -> pess_ok (req_ctx req) ->
  let '(errs, (b, lctx, det)) :=
    a_pessLock st (pl_WaitTimeout req) (pl_Mutations req) (req_ctx req) (deadlockDetector mvcc) in
  let '(resp, mvcc') := PessimisticLock mvcc req in
  deadlockDetector mvcc' = det /\
  if existsb is_err errs
  then resp = MkPessimisticLockResponse (non_nil_errors errs) [] /\ EDB mvcc' = EDB mvcc
  else resp = MkPessimisticLockResponse [] (if pl_ReturnValues req then lc_values lctx else []) /\
       rep (EDB mvcc') (apply_lops b st).
Proof.
  intros R P. unfold PessimisticLock. fold (req_ctx req).
  rewrite (PessimisticLock_loop_refines _ st) by done.
  destruct (a_pessLock _ _ _ _ _) as [errs [[b lctx] det]] eqn:E. cbn [app].
  destruct (existsb is_err errs); [done|].
  destruct (rep_write (EDB mvcc) st b R) as [E1 E2]; [eapply (a_pessLock_Forall _ pess_ok); [|done..]; intros; by eapply a_pessMutation_ok|].
  destruct (Write (EDB mvcc) (raw_op <$> b)) as [er db]. cbn in E1, E2. subst er. done.
Qed.

(** ** Pessimistic rollback *)

(** A pessimistic lock of the transaction taken at or before the timestamp. *)
Definition pess_locked (st : astore) (startTS forTS : Z) (k : bytes) : bool :=
  match a_lock st k with
  | Some l => (lock_op l =? Op_PessimisticLock) && (lock_startTS l =? startTS)
              && (lock_forUFIDelateTS l <=? forTS)
  | None => false
  end.

Definition pess_rollback_ops (st : astore) (startTS forTS : Z) (keys : list bytes) : list lop :=
  keys ≫= fun k => if pess_locked st startTS forTS k then [DelLock k] else [].

Lemma pessimisticRollbackKey_refines db st batch k s f :
  rep db st ->
  pessimisticRollbackKey db batch k s f =
    (None, batch ++ (raw_op <$> if pess_locked st s f k then [DelLock k] else [])).
Proof.
  intros R. destruct (rep_seek db st k R) as (rest & HT & O & E & _).
  unfold pessimisticRollbackKey, pess_locked. rewrite E.
  destruct (a_lock st k) as [l|]; [|by rewrite app_nil_r].
  destruct (_ && _ && _); [done|]. by rewrite app_nil_r.
Qed.

Lemma PessimisticRollback_loop_refines db st keys s f errs batch :
  rep db st ->
  PessimisticRollback_loop db keys s f errs batch =
    (errs ++ replicate (length keys) None, batch ++ (raw_op <$> pess_rollback_ops st s f keys)).
Proof.
  intros R. revert errs batch. induction keys as [|k keys IH]; intros errs batch;
    cbn [PessimisticRollback_loop].
  { cbn. by rewrite !app_nil_r. }
  rewrite (pessimisticRollbackKey_refines _ st), IH by done.
  unfold pess_rollback_ops. cbn [mbind list_bind length replicate].
  by rewrite raw_ops_app, <- !app_assoc.
Qed.

Lemma PessimisticRollback_outcome mvcc st keys s f :
  rep (EDB mvcc) st ->
  exists mvcc', PessimisticRollback mvcc keys s f = (replicate (length keys) None, mvcc') /\
    rep (EDB mvcc') (apply_lops (pess_rollback_ops st s f keys) st).
Proof.
  intros R. unfold PessimisticRollback. rewrite (PessimisticRollback_loop_refines _ st) by done.
  cbn [app]. assert (existsb is_err (replicate (length keys) None) = false) as ->
    by (induction keys; done).
  destruct (rep_write (EDB mvcc) st (pess_rollback_ops st s f keys) R) as [E1 E2].
  { apply Forall_forall. intros op Hop. apply list_elem_of_bind in Hop as (k & Hop & _).
    destruct (pess_locked _ _ _ _); [|by inversion Hop].
    by apply list_elem_of_singleton in Hop as ->. }
  destruct (Write _ _) as [er db]. cbn in E1, E2. subst er. by eexists.
Qed.

End lock.
