(* ===== verification/MvccStatus.v ===== *)
(** * Cleanup, CheckTxnStatus, TxnHeartBeat and the resolution of locks in a
    range: refinement of the abstract store *)

From stdpp Require Import base gmap list sorting strings.
From Stdlib Require Import Strings.Byte ZArith Lia Sorted.
From S2P Require Import Prelude External Marshal Mvcc MvccOps MvccView MvccRead MvccScan MvccSpec MvccTxn MvccLock.

Open Scope Z_scope.

Section status.
Context `{CodecLaws} `{LevelDBLaws} `{KvrpcpbLaws} `{Oracle} `{Deadlock}.

(** ** Cleanup *)

(** The last branch prepares a rollback record that it never writes. *)
Definition a_cleanup (st : astore) (startTS currentTS : Z) (k : bytes) : res (list lop) :=
  match own_lock st k startTS with
  | Some l =>
      if (currentTS =? 0) || lock_expired l currentTS then Ok (rollback_ops k startTS)
      else Err (lockErr l k)
  | None =>
      match a_info (a_vers st k) startTS with
      | Some v => if is_rollback v then Ok [] else Err (ErrAlreadyCommitted (val_commitTS v))
      | None => Ok []
      end
  end.

Lemma own_lock_unfold st k s :
  match a_lock st k with
  | Some l => if lock_startTS l =? s then Some l else None
  | None => None
  end = own_lock st k s.
Proof. done. Qed.

Lemma Cleanup_outcome mvcc st k s cur :
  rep (EDB mvcc) st -> 0 <= s < lockVer ->
  outcome (a_cleanup st s cur k) mvcc st (Cleanup mvcc k s cur).
Proof.
  intros R Hs. destruct (rep_seek (EDB mvcc) st k R) as (rest & HT & O & E & Nv).
  unfold Cleanup, a_cleanup. rewrite value_MarshalBinary_ok.
  destruct (it_Valid _).
  2:{ destruct Nv as [El Ev]; [done|]. unfold own_lock. rewrite El, Ev. done. }
  rewrite E, own_lock_unfold. destruct (own_lock st k s) as [l|].
  - destruct ((cur =? 0) || lock_expired l cur); [|done]. rewrite rollbackLock_ops.
    apply (write_outcome mvcc _ st (Ok (rollback_ops k s))); [done|].
    intros b [= <-]. by apply rollback_ops_ok.
  - rewrite getTxnCommitInfo_vals by done. unfold is_rollback.
    destruct (a_info _ s) as [v|]; [|done]. by destruct (_ =? typeRollback).
Qed.

(** ** CheckTxnStatus *)

Definition push_min (l : mvccLock) (minCommitTS : Z) : mvccLock :=
  MkLock (lock_startTS l) (lock_primary l) (lock_value l) (lock_op l) (lock_ttl l)
    (lock_forUFIDelateTS l) (lock_txnSize l) minCommitTS.

(** The status and the records to write. *)
Definition a_status (st : astore) (k : bytes) (lockTS callerStartTS currentTS : Z)
    (rollbackIfNotExist : bool) : TxnStatus * list lop :=
  match own_lock st k lockTS with
  | Some l =>
      if lock_expired l currentTS
      then (MkTxnStatus 0 0 CausetAction_TTLExpireRollback None, rollback_ops k lockTS)
      else if (callerStartTS =? MaxUint64)
      then (MkTxnStatus (lock_ttl l) 0 CausetAction_MinCommitTSPushed None, [])
      else if 0 <? lock_minCommitTS l
      then (MkTxnStatus (lock_ttl l) 0 CausetAction_MinCommitTSPushed None,
            if lock_minCommitTS l <? callerStartTS + 1
            then [PutLock k (push_min l (Z.max (callerStartTS + 1) currentTS))] else [])
      else (MkTxnStatus (lock_ttl l) 0 CausetAction_NoCausetAction None, [])
  | None =>
      match a_info (a_vers st k) lockTS with
      | Some v =>
          if is_rollback v then (MkTxnStatus 0 0 CausetAction_NoCausetAction None, [])
          else (MkTxnStatus 0 (val_commitTS v) CausetAction_NoCausetAction None, [])
      | None =>
          if rollbackIfNotExist
          then (MkTxnStatus 0 0 CausetAction_LockNotExistRollback None,
                [PutVal k (rollback_val lockTS)])
          else (MkTxnStatus 0 0 CausetAction_NoCausetAction (Some (ErrTxnNotFound lockTS k)), [])
      end
  end.

Lemma push_min_ok l m : lock_ok l -> u64 m -> lock_ok (push_min l m).
Proof. intros [] Hm. by split. Qed.

(** The store after a successful write of the records. *)
Lemma write_ok mvcc det st b :
  rep (EDB mvcc) st -> Forall lop_ok b ->
  exists db, write_or_err mvcc det (Ok (raw_op <$> b)) = (None, MkStore db det) /\
    rep db (apply_lops b st).
Proof.
  intros R Hb. destruct (rep_write (EDB mvcc) st b R Hb) as [E1 E2].
  unfold write_or_err. destruct (Write _ _) as [er db]. cbn in E1, E2. subst er. by exists db.
Qed.

Lemma rollback_rec_ok k s : 0 <= s < lockVer -> Forall lop_ok [PutVal k (rollback_val s)].
Proof.
  intros Hs. pose proof (rollback_ops_ok k s Hs) as F. apply Forall_cons in F as [F _].
  by constructor.
Qed.

(** The answer of the code and the store it leaves. *)
Definition status_refines (mvcc : MVCCLevelDB) (st : astore) (spec : TxnStatus * list lop)
    (out : TxnStatus * MVCCLevelDB) : Prop :=
  out.1 = spec.1 /\ rep (EDB out.2) (apply_lops spec.2 st).

Lemma CheckTxnStatus_outcome mvcc st k s caller cur rb :
  rep (EDB mvcc) st -> 0 <= s < lockVer -> u64 caller -> u64 cur ->
  status_refines mvcc st (a_status st k s caller cur rb) (CheckTxnStatus mvcc k s caller cur rb).
Proof.
  intros R Hs Hc Hcur. destruct (rep_seek (EDB mvcc) st k R) as (rest & HT & O & E & Nv).
  unfold CheckTxnStatus, a_status.
  unfold writeRollback. rewrite value_MarshalBinary_ok. step_res.
  change ([] ++ [BatchPut (mvccEncode k s) (value_bytes (MkValue typeRollback s s []))])
    with (raw_op <$> [PutVal k (rollback_val s)]).
  destruct (write_ok mvcc (deadlockDetector mvcc) st [PutVal k (rollback_val s)] R)
    as (db & Ew & Rw); [by apply rollback_rec_ok|]. rewrite Ew.
  destruct (it_Valid _).
  2:{ destruct Nv as [El Ev]; [done|]. unfold own_lock. rewrite El, Ev. cbn. by destruct rb. }
  rewrite E, own_lock_unfold. destruct (own_lock st k s) as [l|] eqn:El.
  - apply (own_lock_ok (EDB mvcc)) in El as [Hl _]; [|done].
    destruct (lock_expired l cur).
    { rewrite rollbackLock_ops. cbn [app].
      destruct (write_ok mvcc (deadlockDetector mvcc) st (rollback_ops k s) R)
        as (db' & -> & R'); [by apply rollback_ops_ok|]. done. }
    destruct (Z.eqb_spec caller MaxUint64) as [Ec|Nc]; [done|].
    assert (u64_add caller 1 = caller + 1) as ->.
    { unfold u64_add, u64_wrap. rewrite Z.mod_small; [done|].
      unfold u64, u64_mod, MaxUint64 in *. lia. }
    destruct (0 <? lock_minCommitTS l); [|done].
    destruct (lock_minCommitTS l <? caller + 1); [|done].
    rewrite max_if, lock_MarshalBinary_ok. step_res.
    fold (push_min l (Z.max (caller + 1) cur)).
    destruct (write_ok mvcc (deadlockDetector mvcc) st
      [PutLock k (push_min l (Z.max (caller + 1) cur))] R) as (db' & Ew' & R').
    { constructor; [|done]. apply push_min_ok; [done|].
      unfold u64, u64_mod, MaxUint64 in *. lia. }
    cbn [fmap list_fmap raw_op] in Ew'. rewrite Ew'. done.
  - rewrite getTxnCommitInfo_vals by done. unfold is_rollback.
    destruct (a_info _ s) as [v|]; [by destruct (_ =? typeRollback)|]. by destruct rb.
Qed.

Lemma CheckTxnStatus_detector mvcc k s caller cur rb :
  deadlockDetector (CheckTxnStatus mvcc k s caller cur rb).2 = deadlockDetector mvcc.
Proof.
  unfold CheckTxnStatus, write_or_err. repeat case_match; simplify_eq/=; done.
Qed.

(** C33: [CheckTxnStatus] refines the abstract status: it reports an active
    lock (pushing its [minCommitTS] past the caller's start timestamp), the
    commit timestamp, or a rollback; it rolls back an expired lock, and, when
    asked to, records the rollback of a transaction that left nothing.  It
    writes nothing else and leaves the deadlock detector alone. *)
Theorem CheckTxnStatus_refines mvcc st k s caller cur rb :
  rep (EDB mvcc) st -> 0 <= s < lockVer -> u64 caller -> u64 cur ->
  status_refines mvcc st (a_status st k s caller cur rb) (CheckTxnStatus mvcc k s caller cur rb) /\
  deadlockDetector (CheckTxnStatus mvcc k s caller cur rb).2 = deadlockDetector mvcc.
Proof.
  intros R Hs Hc Hcur. split; [by apply CheckTxnStatus_outcome|apply CheckTxnStatus_detector].
Qed.

(** ** TxnHeartBeat *)

Definition set_ttl (l : mvccLock) (ttl : Z) : mvccLock :=
  MkLock (lock_startTS l) (lock_primary l) (lock_value l) (lock_op l) ttl
    (lock_forUFIDelateTS l) (lock_txnSize l) (lock_minCommitTS l).

Definition a_heartbeat (st : astore) (k : bytes) (startTS adviseTTL : Z) : res Z * list lop :=
  match own_lock st k startTS with
  | Some l =>
      if negb (bool_decide (lock_primary l = k))
      then (Err (ErrOther "txnHeartBeat on non-primary key, the code should not run here"), [])
      else (Ok (Z.max (lock_ttl l) adviseTTL),
            if lock_ttl l <? adviseTTL then [PutLock k (set_ttl l adviseTTL)] else [])
  | None => (Err (ErrOther "dagger doesn't exist"), [])
  end.

Lemma TxnHeartBeat_outcome mvcc st k s ttl :
  rep (EDB mvcc) st -> u64 ttl ->
  let '(r, b) := a_heartbeat st k s ttl in
  (TxnHeartBeat mvcc k s ttl).1 = r /\ rep (EDB (TxnHeartBeat mvcc k s ttl).2) (apply_lops b st).
Proof.
  intros R Ht. destruct (rep_seek (EDB mvcc) st k R) as (rest & HT & O & E & Nv).
  unfold TxnHeartBeat, a_heartbeat.
  destruct (it_Valid _).
  2:{ destruct Nv as [El Ev]; [done|]. unfold own_lock. by rewrite El. }
  rewrite E. unfold own_lock. destruct (a_lock st k) as [l|] eqn:El; [|done].
  apply (rep_ok_lock (EDB mvcc)) in El; [|done].
  destruct (lock_startTS l =? s); [|done].
  case_bool_decide; cbn [negb]; [|done].
  destruct (Z.ltb_spec (lock_ttl l) ttl) as [L|L]; [|cbn; split; [f_equal; lia|done]].
  rewrite lock_MarshalBinary_ok. step_res. fold (set_ttl l ttl).
  destruct (write_ok mvcc (deadlockDetector mvcc) st [PutLock k (set_ttl l ttl)] R)
    as (db' & Ew' & R').
  { constructor; [|done]. destruct El. by split. }
  cbn [fmap list_fmap raw_op] in Ew'. rewrite Ew'. cbn. split; [f_equal; lia|done].
Qed.

End status.

(** * Resolving locks and collecting garbage over a range *)

Section range.
Context `{CodecLaws} `{LevelDBLaws} `{Kvrpcpb} `{Oracle} `{Deadlock}.

(** ** ResolveLock *)

(** The decision about the transaction of a lock: [Some] timestamp commits it
    there, or rolls it back when 0; [None] leaves it. *)
Definition resolve_ops (decide_txn : Z -> option Z) (k : bytes) (ol : option mvccLock) : list lop :=
  match ol with
  | Some l =>
      match decide_txn (lock_startTS l) with
      | Some c => if 0 <? c then commit_ops k l (lock_startTS l) c else rollback_ops k (lock_startTS l)
      | None => []
      end
  | None => []
  end.

Definition a_resolve (st : astore) (decide_txn : Z -> option Z) (ks : list bytes) : list lop :=
  ks ≫= fun k => resolve_ops decide_txn k (a_lock st k).

Lemma ResolveLock_loop_groups s c G g fuel b :
  StronglySorted group_lt (g :: G) -> Forall item_ok ((g :: G) ≫= g_items) ->
  Forall g_nonempty G -> (length G + 1 < fuel)%nat ->
  ResolveLock_loop fuel (iter_of ((g :: G) ≫= g_items)) (g_key g) s c b =
    Ok (b ++ ((g :: G) ≫= fun g => raw_op <$>
      resolve_ops (fun t => if t =? s then Some c else None) (g_key g) (g_lock g))).
Proof.
  apply (lock_loop_groups (fun fuel iter k acc => ResolveLock_loop fuel iter k s c acc)
    (fun k ol => raw_op <$> resolve_ops (fun t => if t =? s then Some c else None) k ol)).
  - done.
  - intros fl iter k acc V. cbn [ResolveLock_loop]. by rewrite V.
  - intros fl iter iter' iter'' k acc dec next V E1 E2. cbn [ResolveLock_loop].
    rewrite V, E1. unfold resolve_ops. destruct dec as [l|].
    + destruct (Z.eqb_spec (lock_startTS l) s) as [->|].
      * destruct (0 <? c); rewrite ?commitLock_ops, ?rollbackLock_ops; step_res; by rewrite E2.
      * step_res. rewrite E2. cbn [fmap list_fmap]. by rewrite app_nil_r.
    + step_res. rewrite E2. cbn [fmap list_fmap]. by rewrite app_nil_r.
Qed.

Lemma BatchResolveLock_loop_groups infos G g fuel b :
  StronglySorted group_lt (g :: G) -> Forall item_ok ((g :: G) ≫= g_items) ->
  Forall g_nonempty G -> (length G + 1 < fuel)%nat ->
  BatchResolveLock_loop fuel (iter_of ((g :: G) ≫= g_items)) (g_key g) infos b =
    Ok (b ++ ((g :: G) ≫= fun g => raw_op <$>
      resolve_ops (fun t => infos !! t) (g_key g) (g_lock g))).
Proof.
  apply (lock_loop_groups (fun fuel iter k acc => BatchResolveLock_loop fuel iter k infos acc)
    (fun k ol => raw_op <$> resolve_ops (fun t => infos !! t) k ol)).
  - done.
  - intros fl iter k acc V. cbn [BatchResolveLock_loop]. by rewrite V.
  - intros fl iter iter' iter'' k acc dec next V E1 E2. cbn [BatchResolveLock_loop].
    rewrite V, E1. unfold resolve_ops. destruct dec as [l|].
    + destruct (infos !! lock_startTS l) as [c|].
      * destruct (0 <? c); rewrite ?commitLock_ops, ?rollbackLock_ops; step_res; by rewrite E2.
      * step_res. rewrite E2. cbn [fmap list_fmap]. by rewrite app_nil_r.
    + step_res. rewrite E2. cbn [fmap list_fmap]. by rewrite app_nil_r.
Qed.

(** Every decision can be stored: a commit timestamp or, for a rollback, the
    start timestamp of the transaction is a version. *)
Definition decisions_ok (decide_txn : Z -> option Z) : Prop :=
  forall t c, decide_txn t = Some c -> if 0 <? c then c < lockVer else t < lockVer.

Lemma a_resolve_ok db st f ks :
  rep db st -> decisions_ok f -> Forall lop_ok (a_resolve st f ks).
Proof.
  intros R D. apply Forall_forall. intros op Hop.
  apply list_elem_of_bind in Hop as (k & Hop & _). unfold resolve_ops in Hop.
  destruct (a_lock st k) as [l|] eqn:El; [|by inversion Hop].
  apply (rep_ok_lock db) in El; [|done].
  destruct (f (lock_startTS l)) as [c|] eqn:Ef; [|by inversion Hop].
  specialize (D _ _ Ef). destruct (Z.ltb_spec 0 c).
  - eapply Forall_forall; [|exact Hop]. apply commit_ops_ok; [done|lia].
  - eapply Forall_forall; [|exact Hop]. apply rollback_ops_ok.
    destruct El as [[] _ _ _ _ _ _ _]. lia.
Qed.

(** The groups of a range and its keys give the same records. *)
Lemma resolve_groups db st s e g0 G0 G f :
  rep db st -> scan_view db s e g0 G0 G ->
  ((g0 :: G0) ≫= fun g => raw_op <$> resolve_ops f (g_key g) (g_lock g)) =
    raw_op <$> a_resolve st f (g_key <$> G).
Proof.
  intros R [RV Hd _ _ _]. set (h := fun g => _).
  assert ((g0 :: G0) ≫= h = G ≫= h) as ->.
  { destruct Hd as [->|(El & _ & ->)]; [done|]. cbn [mbind list_bind].
    unfold h at 1. by rewrite El. }
  pose proof (rv_in _ _ _ _ RV) as I. clear - R I. unfold a_resolve.
  induction G as [|g G IH]; [done|]. rewrite fmap_cons. cbn [mbind list_bind].
  rewrite raw_ops_app. f_equal; [|apply IH; intros; apply I; by right].
  unfold h. destruct (I g) as [_ [<- _]]; [by left|]. by rewrite (rep_lock _ _ R).
Qed.

Lemma ResolveLock_outcome mvcc st s e startTS c :
  rep (EDB mvcc) st -> decisions_ok (fun t => if t =? startTS then Some c else None) ->
  exists ks, range_keys (EDB mvcc) s e ks /\
    outcome (Ok (a_resolve st (fun t => if t =? startTS then Some c else None) ks)) mvcc st
      (ResolveLock mvcc s e startTS c).
Proof.
  intros R D. destruct (scan_groups (EDB mvcc) s e (rep_wf _ _ R)) as (g0 & G0 & G & E & V).
  exists (g_key <$> G). split; [apply range_view_keys, V|].
  unfold ResolveLock. rewrite E. step_res.
  rewrite ResolveLock_loop_groups by first [apply V|by apply iter_fuel_groups, V].
  rewrite (resolve_groups (EDB mvcc) st s e g0 G0 G) by done.
  apply (write_outcome mvcc _ st (Ok (a_resolve st _ (g_key <$> G)))); [done|].
  intros b [= <-]. by apply (a_resolve_ok (EDB mvcc)).
Qed.

Lemma BatchResolveLock_outcome mvcc st s e (infos : gmap Z Z) :
  rep (EDB mvcc) st -> decisions_ok (fun t => infos !! t) ->
  exists ks, range_keys (EDB mvcc) s e ks /\
    outcome (Ok (a_resolve st (fun t => infos !! t) ks)) mvcc st
      (BatchResolveLock mvcc s e infos).
Proof.
  intros R D. destruct (scan_groups (EDB mvcc) s e (rep_wf _ _ R)) as (g0 & G0 & G & E & V).
  exists (g_key <$> G). split; [apply range_view_keys, V|].
  unfold BatchResolveLock. rewrite E. step_res.
  rewrite BatchResolveLock_loop_groups by first [apply V|by apply iter_fuel_groups, V].
  rewrite (resolve_groups (EDB mvcc) st s e g0 G0 G) by done.
  apply (write_outcome mvcc _ st (Ok (a_resolve st _ (g_key <$> G)))); [done|].
  intros b [= <-]. by apply (a_resolve_ok (EDB mvcc)).
Qed.

End range.
