(* ===== verification/MvccGC.v ===== *)
(** * Garbage collection

    [GC] removes, on every key of the range, the versions at or below the safe
    point that no read at or after it can need. *)

From stdpp Require Import base gmap list sorting strings.
From Stdlib Require Import Strings.Byte ZArith Lia Sorted.
From S2P Require Import Prelude External Marshal Mvcc MvccOps MvccView MvccRead MvccScan MvccSpec MvccTxn.
Open Scope Z_scope.

(** The versions of a key that stay: those after the safe point and, unless
    it is a deletion, the newest one at or before it.  [keep] tells whether
    that one is still to come. *)
Fixpoint gc_kept (safePoint : Z) (keep : bool) (vs : list mvccValue) : list mvccValue :=
  match vs with
  | [] => []
  | v :: vs' =>
      if safePoint <? val_commitTS v then v :: gc_kept safePoint keep vs'
      else if val_valueType v =? typePut
      then if keep then v :: gc_kept safePoint false vs' else gc_kept safePoint false vs'
      else if val_valueType v =? typeDelete then gc_kept safePoint false vs'
      else gc_kept safePoint keep vs'
  end.

Fixpoint gc_removed (safePoint : Z) (keep : bool) (vs : list mvccValue) : list mvccValue :=
  match vs with
  | [] => []
  | v :: vs' =>
      if safePoint <? val_commitTS v then gc_removed safePoint keep vs'
      else if (val_valueType v =? typePut) || (val_valueType v =? typeDelete)
      then (if negb keep || (val_valueType v =? typeDelete) then [v] else [])
           ++ gc_removed safePoint false vs'
      else v :: gc_removed safePoint keep vs'
  end.

Definition gc_ops (safePoint : Z) (keep : bool) (k : bytes) (vs : list mvccValue) : list lop :=
  (fun v => DelVal k (val_commitTS v)) <$> gc_removed safePoint keep vs.

Definition gc_locked (safePoint : Z) (ol : option mvccLock) : bool :=
  match ol with Some l => lock_startTS l <=? safePoint | None => false end.

(** What [GC] does to one key. *)
Definition a_gcKey (st : astore) (safePoint : Z) (k : bytes) : res (list lop) :=
  if gc_locked safePoint (a_lock st k) then Err gc_lock_error
  else Ok (gc_ops safePoint true k (a_vers st k)).

Lemma gc_removed_subset sp keep vs v : v ∈ gc_removed sp keep vs -> v ∈ vs /\ val_commitTS v <= sp.
Proof.
  revert keep. induction vs as [|w vs IH]; intros keep; simpl; [by inversion 1|].
  rewrite elem_of_cons. destruct (Z.ltb_spec sp (val_commitTS w)) as [L|L].
  { intros Hv. apply IH in Hv. tauto. }
  destruct ((val_valueType w =? typePut) || (val_valueType w =? typeDelete)).
  - rewrite elem_of_app. intros [Hv|Hv]; [|apply IH in Hv; tauto].
    destruct (negb keep || _); [|by inversion Hv].
    apply list_elem_of_singleton in Hv as ->. auto.
  - rewrite elem_of_cons. intros [->|Hv]; [auto|apply IH in Hv; tauto].
Qed.

(** Removing versions one by one is a filter. *)
Lemma ksteps_del k (rs : list mvccValue) lo us :
  ksteps ((fun v => DelVal k (val_commitTS v)) <$> rs) (lo, us) =
    (lo, filter (fun w => val_commitTS w ∉ val_commitTS <$> rs) us).
Proof.
  revert us. induction rs as [|r rs IH]; intros us.
  - cbn. rewrite list_filter_all; [done|]. intros w _ Hw. by inversion Hw.
  - rewrite !fmap_cons. unfold ksteps in *. cbn [fold_left kstep fst snd]. rewrite IH.
    f_equal. unfold remove_version. rewrite list_filter_filter.
    apply list_filter_iff. intros w. rewrite not_elem_of_cons. tauto.
Qed.

Lemma gc_ops_idem sp keep k vs : block_idem (gc_ops sp keep k vs).
Proof.
  intros [lo us]. unfold gc_ops. rewrite !ksteps_del. f_equal.
  rewrite list_filter_filter. apply list_filter_iff. tauto.
Qed.

Lemma filter_gc_kept sp keep vs :
  StronglySorted ver_gt vs ->
  filter (fun w => val_commitTS w ∉ val_commitTS <$> gc_removed sp keep vs) vs = gc_kept sp keep vs.
Proof.
  intros S. revert keep. induction S as [|v vs S IH F]; intros keep; [done|].
  rewrite Forall_forall in F.
  assert (forall keep', val_commitTS v ∉ val_commitTS <$> gc_removed sp keep' vs) as Nv.
  { intros keep' Hv. apply list_elem_of_fmap in Hv as (w & E & Hw).
    apply gc_removed_subset in Hw as [Hw _]. apply F in Hw. unfold ver_gt in Hw. lia. }
  assert (forall keep', filter (fun w => val_commitTS w ∉
            val_commitTS <$> v :: gc_removed sp keep' vs) vs = gc_kept sp keep' vs) as Skip.
  { intros keep'. rewrite <- IH. apply list_filter_ext. intros w Hw.
    rewrite fmap_cons, not_elem_of_cons. apply F in Hw. unfold ver_gt in Hw.
    split; [by intros []|]. split; [lia|done]. }
  cbn [gc_removed gc_kept]. destruct (sp <? val_commitTS v).
  { rewrite filter_cons, decide_True by apply Nv. f_equal. apply IH. }
  destruct (val_valueType v =? typePut) eqn:Ep.
  - assert ((val_valueType v =? typeDelete) = false) as ->.
    { apply Z.eqb_eq in Ep. apply Z.eqb_neq. rewrite Ep. done. }
    destruct keep; cbn [orb negb app].
    + rewrite filter_cons, decide_True by apply Nv. f_equal. apply IH.
    + rewrite filter_cons, decide_False; [apply Skip|]. intros A. apply A. by left.
  - destruct (val_valueType v =? typeDelete); cbn [orb].
    + rewrite orb_true_r. cbn [app].
      rewrite filter_cons, decide_False; [apply Skip|]. intros A. apply A. by left.
    + rewrite filter_cons, decide_False; [apply Skip|]. intros A. apply A. by left.
Qed.

(** The kept versions of a history answer every read at or after the safe
    point as the whole history. *)
Lemma find_visible_gc sp ts vs k :
  StronglySorted ver_gt vs -> Forall (fun v => item_ok (IVal k v)) vs -> sp <= ts ->
  read_value (find_visible ts (gc_kept sp true vs)) = read_value (find_visible ts vs).
Proof.
  intros S HT Hts. induction S as [|v vs S IH F]; [done|].
  apply Forall_cons in HT as [[_ Hv] HT]. cbn [gc_kept].
  destruct (Z.ltb_spec sp (val_commitTS v)) as [L|L].
  { cbn [find_visible List.find]. destruct (is_data v && _); [done|]. by apply IH. }
  assert (gc_kept sp false vs = []) as E.
  { clear IH S HT. induction F as [|w vs Lw F IH]; [done|]. cbn [gc_kept].
    unfold ver_gt in Lw. rewrite (proj2 (Z.ltb_ge _ _)) by lia.
    by repeat case_match. }
  destruct (Z.eqb_spec (val_valueType v) typePut) as [Ep|Np].
  { cbn [find_visible List.find]. unfold is_data.
    rewrite Ep, (proj2 (Z.leb_le _ _)) by lia. cbn. unfold read_value. by rewrite Ep. }
  destruct (Z.eqb_spec (val_valueType v) typeDelete) as [Ed|Nd].
  { rewrite E. cbn [find_visible List.find]. unfold is_data.
    rewrite Ed, (proj2 (Z.leb_le _ _)) by lia. cbn. unfold read_value. by rewrite Ed. }
  rewrite IH by done. cbn [find_visible List.find].
  assert (is_data v = false) as ->; [|done].
  unfold is_data, typePut, typeDelete, typeRollback, typeLock in *.
  destruct (Z.eqb_spec (val_valueType v) 2), (Z.eqb_spec (val_valueType v) 3); try done. lia.
Qed.

Section gc.
Context `{CodecLaws} `{LevelDBLaws} `{Kvrpcpb} `{Oracle} `{Deadlock}.

(** ** The loops *)

Lemma it_Key_groups G g :
  Forall item_ok ((g :: G) ≫= g_items) -> g_nonempty g ->
  mvccDecode (it_Key (iter_of ((g :: G) ≫= g_items))) =
    Ok (g_key g, match g_items g with i :: _ => item_ver i | [] => 0 end).
Proof.
  intros HT N. unfold g_nonempty in N. cbn [mbind list_bind] in *.
  destruct (g_items g) as [|i is'] eqn:E; [done|]. cbn [app] in *.
  apply Forall_cons in HT as [Hi _]. rewrite iter_of_cons. cbn [it_Key it_items].
  rewrite mvccDecode_Encode by by apply item_ver_u64.
  f_equal. f_equal. apply g_items_key. rewrite E. by left.
Qed.

Lemma GC_values_vals fuel k vs G sp keep b :
  Forall item_ok ((IVal k <$> vs) ++ (G ≫= g_items)) -> other_key k (G ≫= g_items) ->
  Forall g_nonempty G -> (length vs < fuel)%nat ->
  GC_values fuel (iter_of ((IVal k <$> vs) ++ (G ≫= g_items))) k sp keep b =
    Ok (match G with [] => None | g :: _ => Some (g_key g) end, iter_of (G ≫= g_items),
        b ++ (raw_op <$> gc_ops sp keep k vs)).
Proof.
  revert fuel keep b. induction vs as [|v vs IH]; intros fuel keep b HT O N L;
    (destruct fuel as [|fuel]; [simpl in L; lia|]); cbn [GC_values].
  - cbn [fmap list_fmap app] in *. unfold gc_ops. cbn [gc_removed fmap list_fmap]. rewrite app_nil_r.
    destruct G as [|g G]; [done|]. apply Forall_cons in N as [Ng N].
    rewrite it_Valid_groups, valueDecode_none, it_Key_groups; [done|done|done|done| |done].
    destruct ((g :: G) ≫= g_items) as [|[] ?]; done.
  - rewrite fmap_cons in *. apply Forall_cons in HT as [Hv HT]. cbn [app].
    rewrite it_Valid_cons, valueDecode_val by done. simpl in L.
    unfold gc_ops. cbn [gc_removed].
    destruct (sp <? val_commitTS v); [apply IH; [done..|lia]|].
    destruct ((val_valueType v =? typePut) || (val_valueType v =? typeDelete)).
    + rewrite IH by (done || lia). unfold gc_ops. do 2 f_equal.
      destruct (negb keep || (val_valueType v =? typeDelete)); [|done].
      rewrite !fmap_app. by rewrite <- app_assoc.
    + rewrite IH by (done || lia). unfold gc_ops. do 2 f_equal. by rewrite <- app_assoc.
Qed.

(** What [GC] does to the group of a key. *)
Definition group_gc (sp : Z) (g : group) : res (list lop) :=
  if gc_locked sp (g_lock g) then Err gc_lock_error else Ok (gc_ops sp true (g_key g) (g_vals g)).

Lemma GC_loop_step sp G g fuel b :
  StronglySorted group_lt (g :: G) -> Forall item_ok ((g :: G) ≫= g_items) ->
  Forall g_nonempty G -> it_Valid (iter_of ((g :: G) ≫= g_items)) = true ->
  GC_loop (S fuel) (iter_of ((g :: G) ≫= g_items)) (g_key g) sp b =
    r ← group_gc sp g;
    GC_loop fuel (iter_of (G ≫= g_items)) (match G with [] => g_key g | h :: _ => g_key h end) sp
      (b ++ (raw_op <$> r)).
Proof.
  intros S HT N V. cbn [GC_loop]. rewrite V.
  destruct (lockDecode_step _ _ S HT N) as [E1 _]. rewrite E1. unfold group_gc.
  change (match g_lock g with Some _ => _ | None => _ end) with (gc_locked sp (g_lock g)).
  destruct (gc_locked sp (g_lock g)); [done|]. step_res.
  rewrite GC_values_vals; [by destruct G| | |done|].
  - by eapply Forall_g_items_suffix.
  - by apply other_key_groups.
  - unfold iter_fuel. rewrite length_iter_of, length_app, length_fmap. lia.
Qed.

Lemma GC_loop_groups sp G g fuel b :
  StronglySorted group_lt (g :: G) -> Forall item_ok ((g :: G) ≫= g_items) ->
  Forall g_nonempty G -> (length G + 1 < fuel)%nat ->
  GC_loop fuel (iter_of ((g :: G) ≫= g_items)) (g_key g) sp b =
    r ← collect (group_gc sp) (g :: G); Ok (b ++ (raw_op <$> r)).
Proof.
  revert g fuel b. induction G as [|h G IH]; intros g fuel b S HT N Lf;
    (destruct fuel as [|fuel]; [simpl in Lf; lia|]).
  - cbn [collect]. destruct (g_nonempty_dec g) as [Ng|Ng].
    + rewrite GC_loop_step by (done || by apply it_Valid_groups).
      destruct (group_gc sp g) as [r|e]; step_res; [|done].
      destruct fuel as [|fuel]; [simpl in Lf; lia|]. cbn. by rewrite app_nil_r.
    + rewrite groups_nil_head by done. cbn. destruct (empty_group_fields _ Ng) as [El Ev].
      unfold group_gc. rewrite El, Ev. cbn. by rewrite app_nil_r.
  - assert (it_Valid (iter_of ((g :: h :: G) ≫= g_items)) = true) as V.
    { destruct (g_nonempty_dec g) as [Ng|Ng]; [by apply it_Valid_groups|].
      rewrite groups_nil_head by done. apply it_Valid_groups. by apply Forall_cons in N as [Nh _]. }
    rewrite GC_loop_step by done. cbn [collect].
    destruct (group_gc sp g) as [r|e]; step_res; [|done].
    apply StronglySorted_inv in S as [S _]. apply Forall_app in HT as [_ HT].
    apply Forall_cons in N as [_ N]. rewrite IH by (done || simpl in Lf; lia). cbn [collect].
    destruct (group_gc sp h) as [r'|e]; step_res; [|done].
    destruct (collect (group_gc sp) G) as [r''|e]; step_res; [|done].
    by rewrite !raw_ops_app, <- !app_assoc.
Qed.

(** ** GC *)

Lemma GC_batch mvcc st s e sp :
  rep (EDB mvcc) st ->
  exists ks, range_keys (EDB mvcc) s e ks /\
    GC mvcc s e sp =
      write_or_err mvcc (deadlockDetector mvcc) (raw_res (collect (a_gcKey st sp) ks)).
Proof.
  intros R. destruct (scan_groups (EDB mvcc) s e (rep_wf _ _ R)) as (g0 & G0 & G & E & V).
  exists (g_key <$> G). split; [apply range_view_keys, V|].
  unfold GC. rewrite E. step_res.
  rewrite GC_loop_groups by first [apply V|by apply iter_fuel_groups, V]. cbn [app].
  assert (collect (group_gc sp) (g0 :: G0) = collect (a_gcKey st sp) (g_key <$> G)) as ->;
    [|by destruct (collect _ _)].
  destruct V as [RV Hd _ _ _].
  assert (collect (group_gc sp) (g0 :: G0) = collect (group_gc sp) G) as ->.
  { destruct Hd as [->|(El & Ev & ->)]; [done|]. cbn [collect].
    assert (group_gc sp g0 = Ok []) as -> by (unfold group_gc; by rewrite El, Ev).
    step_res. by destruct (collect _ G). }
  pose proof (rv_in _ _ _ _ RV) as I. clear - R I.
  induction G as [|g G IH]; [done|]. rewrite fmap_cons. cbn [collect].
  rewrite IH by (intros; apply I; by right).
  assert (group_gc sp g = a_gcKey st sp (g_key g)) as ->; [|done].
  destruct (I g) as [_ [L V]]; [by left|]. unfold group_gc, a_gcKey.
  rewrite <- (rep_lock _ _ R), L, <- (is_versions_unique _ _ _ _ V (rep_vers _ _ R _)). done.
Qed.

Lemma a_gcKey_ok db st sp k b : rep db st -> a_gcKey st sp k = Ok b -> Forall lop_ok b.
Proof.
  intros R. unfold a_gcKey. destruct (gc_locked _ _); [done|]. intros [= <-].
  apply Forall_forall. intros op Hop. apply list_elem_of_fmap in Hop as (v & -> & Hv).
  apply gc_removed_subset in Hv as [Hv _]. cbn. apply (rep_elem db) in Hv; [|done].
  by apply write_at_range in Hv.
Qed.

(** The state of every key after a successful collection. *)
Lemma GC_kstate mvcc st s e sp :
  rep (EDB mvcc) st ->
  match (GC mvcc s e sp).1 with
  | Some er => er = gc_lock_error /\ EDB (GC mvcc s e sp).2 = EDB mvcc /\
      exists k l, key_range s e k /\ a_lock st k = Some l /\ lock_startTS l <= sp
  | None => exists st', rep (EDB (GC mvcc s e sp).2) st' /\
      forall k, if decide (key_range s e k)
        then gc_locked sp (a_lock st k) = false /\
             kstate st' k = (a_lock st k, gc_kept sp true (a_vers st k))
        else kstate st' k = kstate st k
  end.
Proof.
  intros R. destruct (GC_batch mvcc st s e sp R) as (ks & [_ Hks] & ->).
  assert (forall b, collect (a_gcKey st sp) ks = Ok b -> Forall lop_ok b) as Hok.
  { intros b. apply collect_Forall. intros k r _. by apply (a_gcKey_ok (EDB mvcc)). }
  pose proof (write_outcome mvcc (deadlockDetector mvcc) st _ R Hok) as W.
  destruct (collect (a_gcKey st sp) ks) as [b|er] eqn:E; cbn [outcome] in W.
  - destruct W as [-> W]. exists (apply_lops b st). split; [done|].
    apply collect_blocks in E as [-> F]. intros k.
    assert (kstate (apply_lops (ks ≫= block (a_gcKey st sp)) st) k =
      if decide (k ∈ ks) then ksteps (block (a_gcKey st sp) k) (kstate st k) else kstate st k) as ->.
    { apply kstate_blocks.
      - intros k' op. unfold block, a_gcKey. destruct (gc_locked _ _); [by inversion 1|].
        cbn. intros Hop. by apply list_elem_of_fmap in Hop as (v & -> & _).
      - unfold block, a_gcKey. destruct (gc_locked _ _); [by intros []|]. apply gc_ops_idem. }
    case_decide as K; case_decide as M.
    + specialize (F k M). unfold block, a_gcKey in *. destruct (gc_locked sp (a_lock st k)); [done|].
      split; [done|]. cbn. unfold kstate. unfold gc_ops. rewrite ksteps_del.
      by rewrite filter_gc_kept by by eapply rep_sorted.
    + destruct (decide (a_lock st k = None /\ a_vers st k = [])) as [[El Ev]|N].
      { unfold kstate. by rewrite El, Ev. }
      destruct M. apply Hks. split; [done|].
      destruct (a_lock st k) as [l|] eqn:El.
      { exists (ILock k l). split; [|done]. simpl. by rewrite (rep_lock _ _ R). }
      destruct (a_vers st k) as [|v vs] eqn:Ev; [by destruct N|].
      exists (IVal k v). split; [|done]. simpl. apply (rep_elem _ st); [done|].
      rewrite Ev. by left.
    + apply Hks in M as [M _]. done.
    + done.
  - destruct W as [-> W]. apply collect_err in E as (k & Hk & Ek).
    unfold a_gcKey in Ek. destruct (gc_locked sp (a_lock st k)) eqn:L; [|done].
    injection Ek as <-. split; [done|]. split; [done|].
    unfold gc_locked in L. destruct (a_lock st k) as [l|] eqn:El; [|done].
    exists k, l. apply Hks in Hk as [Hk _]. split_and!; [done..|by apply Z.leb_le].
Qed.

(** C30: [GC] fails, and changes nothing, only when a key of the range has a
    lock that started at or before the safe point; otherwise every read at or
    after the safe point, of any key, gives what it gave before. *)
Theorem GC_preserves_reads mvcc s e sp :
  wf (EDB mvcc) -> 0 <= sp ->
  match (GC mvcc s e sp).1 with
  | Some _ => EDB (GC mvcc s e sp).2 = EDB mvcc /\
      exists k l, key_range s e k /\ lock_at (EDB mvcc) k = Some l /\ lock_startTS l <= sp
  | None => forall k ts iso rl, sp <= ts ->
      Get (GC mvcc s e sp).2 k ts iso rl = Get mvcc k ts iso rl
  end.
Proof.
  intros W Hsp. destruct (rep_exists _ W) as (st & R).
  pose proof (GC_kstate mvcc st s e sp R) as G. destruct (GC mvcc s e sp).1 as [er|].
  { destruct G as (_ & E & k & l & K & L & B). split; [done|]. exists k, l.
    by rewrite (rep_lock _ _ R). }
  destruct G as (st' & R' & Hk). intros k ts iso rl Hts. unfold Get.
  rewrite (rep_getValue _ st'), (rep_getValue _ st) by done. unfold a_read.
  specialize (Hk k). case_decide as K.
  - destruct Hk as [Hl [= -> ->]]. unfold read_key.
    destruct (read_ts (a_lock st k) k ts iso rl) as [ts'|er] eqn:Er; step_res; [|done].
    rewrite (find_visible_gc _ _ _ k); [done|by eapply rep_sorted|by eapply rep_ok_vers|].
    unfold read_ts in Er. destruct (a_lock st k) as [l|] eqn:El; [|by injection Er as <-].
    destruct (iso =? IsolationLevel_SI); [|by injection Er as <-].
    unfold gc_locked in Hl. apply Z.leb_gt in Hl.
    apply (rep_ok_lock (EDB mvcc)) in El; [|done]. destruct El as [Hu _ _ _ _ _ _ _].
    unfold lock_check in Er. destruct (_ || _); [by injection Er as <-|].
    destruct (_ && _); [|by destruct (existsb _ rl); [injection Er as <-|]].
    injection Er as <-. unfold u64_sub, u64_wrap, u64, u64_mod in *.
    rewrite Z.mod_small by lia. lia.
  - by injection Hk as -> ->.
Qed.

End gc.
