(* ===== verification/MvccReverse.v ===== *)
(** * The reverse scan

    [ReverseScan] collects the records of a key into an entry while it walks
    the pairs backwards, and reads the entry when the key changes.  On stores
    whose empty values are exactly the deletions it returns the pairs of the
    forward reads, in descending order of keys. *)

From stdpp Require Import base gmap list sorting strings.
From Stdlib Require Import Strings.Byte ZArith Lia Sorted.
From S2P Require Import Prelude External Marshal Mvcc MvccOps MvccView MvccRead MvccScan MvccSpec.
Open Scope Z_scope.

(** ** reverse is List.rev *)

Lemma reverse_loop_lookup fuel i j (vs : list mvccValue) :
  (j < i + 2 * fuel)%nat -> (j < length vs)%nat ->
  length (reverse_loop fuel i j vs) = length vs /\
  forall n, reverse_loop fuel i j vs !! n =
    if decide (i <= n <= j)%nat then vs !! (i + j - n)%nat else vs !! n.
Proof.
  revert i j vs. induction fuel as [|fuel IH]; intros i j vs Lf Lj; cbn [reverse_loop].
  { split; [done|]. intros n. rewrite decide_False by lia. done. }
  destruct (decide (i < j)%nat) as [L|L].
  2:{ split; [done|]. intros n. case_decide; [|done]. f_equal. lia. }
  destruct (lookup_lt_is_Some_2 vs i) as [vi Ei]; [lia|].
  destruct (lookup_lt_is_Some_2 vs j) as [vj Ej]; [lia|]. rewrite Ei, Ej.
  destruct (IH (S i) (j - 1)%nat (<[j := vi]> (<[i := vj]> vs))) as [E1 E2];
    [lia|rewrite !length_insert; lia|].
  split; [by rewrite E1, !length_insert|]. intros n. rewrite E2.
  destruct (decide (S i <= n <= j - 1)%nat) as [D|D].
  - rewrite decide_True by lia. rewrite !list_lookup_insert_ne by lia. f_equal. lia.
  - destruct (decide (n = j)) as [->|Nj].
    + rewrite list_lookup_insert_eq by (rewrite length_insert; lia).
      rewrite decide_True by lia. by replace (i + j - j)%nat with i by lia.
    + rewrite list_lookup_insert_ne by done. destruct (decide (n = i)) as [->|Ni].
      * rewrite list_lookup_insert_eq by lia. rewrite decide_True by lia.
        by replace (i + j - i)%nat with j by lia.
      * rewrite list_lookup_insert_ne by done. by rewrite decide_False by lia.
Qed.

Lemma rev_lookup {A} (l : list A) n : (n < length l)%nat -> rev l !! n = l !! (length l - S n)%nat.
Proof. intros L. rewrite rev_alt. exact (reverse_lookup l n L). Qed.

Lemma reverse_rev (vs : list mvccValue) : reverse vs = rev vs.
Proof.
  unfold reverse. destruct vs as [|v vs]; [done|].
  destruct (reverse_loop_lookup (length (v :: vs)) 0 (length (v :: vs) - 1) (v :: vs)) as [E1 E2];
    [simpl; lia|simpl; lia|].
  apply list_eq. intros n. rewrite E2. destruct (decide (n < length (v :: vs))%nat) as [L|L].
  - rewrite rev_lookup, decide_True by (simpl in *; lia). f_equal. simpl in *. lia.
  - rewrite decide_False by (simpl in *; lia).
    rewrite !lookup_ge_None_2; [done|rewrite length_rev; lia|lia].
Qed.

Section reverse_scan.
Context `{CodecLaws} `{LevelDBLaws} `{Kvrpcpb} `{Oracle} `{Deadlock}.

(** ** One key *)

Definition rev_read (ol : option mvccLock) (vs : list mvccValue) (k : bytes)
    (ts iso : Z) (rl : list Z) : res (option bytes) :=
  ts ← read_ts ol k ts iso rl; Ok (entry_Get_loop ts vs).

(** An empty value is dropped. *)
Definition rev_pair_of (k : bytes) (r : res (option bytes)) : list Pair :=
  match r with
  | Ok (Some (x :: v)) => [MkPair k (Some (x :: v)) None]
  | Ok _ => []
  | Err e => [MkPair k None (Some e)]
  end.

Lemma length_rev_pair_of k r : (length (rev_pair_of k r) <= 1)%nat.
Proof. destruct r as [[[]|]|]; simpl; lia. Qed.

Lemma MvccKey_Raw_New k : MvccKey_Raw (NewMvccKey k) = Some k.
Proof.
  unfold MvccKey_Raw, NewMvccKey. destruct (decide (k = [])) as [->|N]; [done|].
  rewrite decide_False by apply EncodeBytes_nonempty.
  rewrite <- (app_nil_r (EncodeBytes [] k)), DecodeBytes_Encode. done.
Qed.

Lemma finishEntry_group h k ol vs :
  rs_currKey h = k -> rs_entry h = MkEntry [] (rev vs) ol ->
  finishEntry h = Some (MkHelper (rs_startTS h) (rs_isoLevel h) (rs_resolvedLocks h) k empty_entry
    (rs_pairs h ++ rev_pair_of k (rev_read ol vs k (rs_startTS h) (rs_isoLevel h) (rs_resolvedLocks h)))).
Proof.
  intros Ek Ee. unfold finishEntry. rewrite Ek, Ee. cbn [entry_values entry_dagger].
  rewrite reverse_rev, rev_involutive. unfold entry_Get. cbn [entry_values entry_dagger entry_key].
  rewrite MvccKey_Raw_New. unfold rev_read, read_ts. destruct ol as [l|].
  - destruct (rs_isoLevel h =? IsolationLevel_SI); step_opt; step_res.
    + destruct (lock_check l _ k _) as [ts|e]; step_res; [|done].
      destruct (entry_Get_loop ts vs) as [[|x v]|]; by rewrite ?app_nil_r.
    + destruct (entry_Get_loop _ vs) as [[|x v]|]; by rewrite ?app_nil_r.
  - step_opt. step_res. destruct (entry_Get_loop _ vs) as [[|x v]|]; by rewrite ?app_nil_r.
Qed.

(** ** The loop within a key *)

Definition entry_add (e : mvccEntry) (i : item) : mvccEntry :=
  match i with
  | ILock _ l => MkEntry (entry_key e) (entry_values e) (Some l)
  | IVal _ v => MkEntry (entry_key e) (entry_values e ++ [v]) (entry_dagger e)
  end.

Definition set_entry (h : reverseScanHelper) (e : mvccEntry) : reverseScanHelper :=
  MkHelper (rs_startTS h) (rs_isoLevel h) (rs_resolvedLocks h) (rs_currKey h) e (rs_pairs h).

Lemma entry_add_group k ol vs :
  fold_left entry_add (rev (group_items k ol vs)) empty_entry = MkEntry [] (rev vs) ol.
Proof.
  unfold group_items. rewrite rev_app_distr, fold_left_app.
  assert (forall e, fold_left entry_add (rev (IVal k <$> vs)) e =
    MkEntry (entry_key e) (entry_values e ++ rev vs) (entry_dagger e)) as ->.
  { induction vs as [|v vs IH]; intros e; cbn [fmap list_fmap rev fold_left].
    - rewrite app_nil_r. by destruct e.
    - rewrite fold_left_app, IH. cbn [fold_left entry_add entry_key entry_values entry_dagger].
      by rewrite <- app_assoc. }
  by destruct ol.
Qed.

(** The items of the current key are added to the entry. *)
Lemma ReverseScan_loop_key js rest s limit h :
  Forall item_ok js -> Forall (fun i => item_key i = rs_currKey h) js ->
  Z.of_nat (length (rs_pairs h)) < limit -> s <=b rs_currKey h ->
  ReverseScan_loop ((raw_item <$> js) ++ rest) s limit h =
    ReverseScan_loop rest s limit (set_entry h (fold_left entry_add js (rs_entry h))).
Proof.
  intros HT F L Hs. revert h F L Hs. induction HT as [|i js Hi HT IH]; intros h F L Hs.
  { cbn [fmap list_fmap app fold_left]. by destruct h. }
  apply Forall_cons in F as [Ei F]. rewrite fmap_cons. cbn [app ReverseScan_loop fold_left].
  rewrite (proj2 (Z.ltb_lt _ _) L). unfold raw_item at 1.
  rewrite mvccDecode_Encode by by apply item_ver_u64.
  rewrite Ei. assert (bltb (rs_currKey h) s = false) as ->.
  { destruct (bltb_spec (rs_currKey h) s) as [B|]; [|done]. by apply not_blt in Hs. }
  rewrite bool_decide_true by done. cbn [negb]. step_opt.
  destruct i as [k l|k v]; cbn [item_ver item_bytes item_ok] in *.
  - rewrite Z.eqb_refl, lock_Unmarshal_bytes by done. cbn [ok_option]. step_opt.
    exact (IH (set_entry h (entry_add (rs_entry h) (ILock k l))) F L Hs).
  - destruct Hi as [Hv Hb]. rewrite (proj2 (Z.eqb_neq _ _)) by lia.
    rewrite value_Unmarshal_bytes by done. cbn [ok_option]. step_opt.
    exact (IH (set_entry h (entry_add (rs_entry h) (IVal k v))) F L Hs).
Qed.

(** ** The loop over the keys *)

Definition rev_items (g : group) : list item := rev (g_items g).

Definition rev_group (ts iso : Z) (rl : list Z) (g : group) : list Pair :=
  rev_pair_of (g_key g) (rev_read (g_lock g) (g_vals g) (g_key g) ts iso rl).

(** The last entry is read when the limit is not reached. *)
Definition rev_finish (limit : Z) (h : reverseScanHelper) : option (list Pair) :=
  if Z.of_nat (length (rs_pairs h)) <? limit then h ← finishEntry h; Some (rs_pairs h)
  else Some (rs_pairs h).

Definition full_entry (g : group) : mvccEntry := MkEntry [] (rev (g_vals g)) (g_lock g).

Lemma ReverseScan_loop_limit items s limit h :
  limit <= Z.of_nat (length (rs_pairs h)) -> ReverseScan_loop items s limit h = Some h.
Proof.
  intros L. destruct items as [|[k v] items]; [done|]. cbn [ReverseScan_loop].
  by rewrite (proj2 (Z.ltb_ge _ _) L).
Qed.

(** The first item of another key ends the entry of the current one. *)
Lemma ReverseScan_loop_next i js rest s limit h h' :
  item_ok i -> item_key i <> rs_currKey h -> s <=b item_key i ->
  Z.of_nat (length (rs_pairs h)) < limit -> finishEntry h = Some h' ->
  ReverseScan_loop ((raw_item <$> i :: js) ++ rest) s limit h =
    ReverseScan_loop ((raw_item <$> js) ++ rest) s limit
      (MkHelper (rs_startTS h') (rs_isoLevel h') (rs_resolvedLocks h') (item_key i)
         (entry_add (rs_entry h') i) (rs_pairs h')).
Proof.
  intros Hi N Hs L E. rewrite fmap_cons. cbn [app ReverseScan_loop].
  rewrite (proj2 (Z.ltb_lt _ _) L). unfold raw_item at 1.
  rewrite mvccDecode_Encode by by apply item_ver_u64.
  assert (bltb (item_key i) s = false) as ->.
  { destruct (bltb_spec (item_key i) s) as [B|]; [|done]. by apply not_blt in Hs. }
  rewrite bool_decide_false by done. cbn [negb]. rewrite E. step_opt.
  destruct i as [k l|k v]; cbn [item_ver item_bytes item_ok item_key] in *.
  - rewrite Z.eqb_refl, lock_Unmarshal_bytes by done. done.
  - destruct Hi as [Hv Hb]. rewrite (proj2 (Z.eqb_neq _ _)) by lia.
    by rewrite value_Unmarshal_bytes by done.
Qed.

Lemma ReverseScan_loop_stop i rest s limit h :
  item_ok i -> item_key i <b s -> ReverseScan_loop (raw_item i :: rest) s limit h = Some h.
Proof.
  intros Hi B. cbn [ReverseScan_loop]. unfold raw_item.
  rewrite mvccDecode_Encode by by apply item_ver_u64.
  destruct (bltb_spec (item_key i) s); [|done]. by destruct (_ <? limit).
Qed.

Lemma rev_items_spec g i :
  i ∈ rev_items g -> i ∈ g_items g.
Proof. unfold rev_items. intros Hi. apply list_elem_of_In, in_rev. by apply list_elem_of_In. Qed.

Definition group_gt (g h : group) : Prop := g_key h <b g_key g.

Lemma ReverseScan_loop_groups D g s limit ts iso rl pairs :
  StronglySorted group_gt (g :: D) -> Forall item_ok (D ≫= rev_items) -> Forall g_nonempty D ->
  Z.of_nat (length pairs) < limit ->
  (h ← ReverseScan_loop (raw_item <$> D ≫= rev_items) s limit
         (MkHelper ts iso rl (g_key g) (full_entry g) pairs); rev_finish limit h) =
  Some (take (Z.to_nat limit) (pairs ++ rev_group ts iso rl g ++
          (filter (fun h => s <=b g_key h) D ≫= rev_group ts iso rl))).
Proof.
  revert g pairs. induction D as [|g' D IH]; intros g pairs S HT N L.
  all: set (h := MkHelper ts iso rl (g_key g) (full_entry g) pairs).
  all: assert (finishEntry h = Some (MkHelper ts iso rl (g_key g) empty_entry
         (pairs ++ rev_group ts iso rl g))) as Ef
         by by apply (finishEntry_group h (g_key g) (g_lock g) (g_vals g)).
  all: pose proof (length_rev_pair_of (g_key g)
         (rev_read (g_lock g) (g_vals g) (g_key g) ts iso rl)) as L1; fold (rev_group ts iso rl g) in L1.
  - cbn. unfold rev_finish. cbn [rs_pairs h]. rewrite (proj2 (Z.ltb_lt _ _) L), Ef. step_opt.
    cbn [rs_pairs]. rewrite app_nil_r, take_ge; [done|]. rewrite length_app. lia.
  - apply Forall_cons in N as [Ng N]. apply StronglySorted_inv in S as [S F].
    apply Forall_cons in F as [Lg F]. unfold group_gt in Lg.
    cbn [mbind list_bind] in *. apply Forall_app in HT as [HT1 HT].
    destruct (rev_items g') as [|i js] eqn:Ei.
    { destruct Ng. unfold rev_items in Ei. destruct (g_items g') as [|a l]; [done|].
      simpl in Ei. by destruct (rev l). }
    assert (forall j, j ∈ i :: js -> item_key j = g_key g') as Kj
      by (intros j Hj; apply g_items_key, rev_items_spec; by rewrite Ei).
    apply Forall_cons in HT1 as [Hi HT1].
    assert (item_key i = g_key g') as Ki by (apply Kj; by left).
    destruct (decide (s <=b g_key g')) as [Hs|Hs].
    + rewrite filter_cons, decide_True by done. rewrite fmap_app.
      erewrite ReverseScan_loop_next; [|done| |by rewrite Ki|done|exact Ef].
      2:{ rewrite Ki. cbn. intros E. rewrite E in Lg. by apply blt_irrefl in Lg. }
      cbn [rs_startTS rs_isoLevel rs_resolvedLocks rs_entry rs_pairs]. rewrite Ki.
      destruct (Z.lt_ge_cases (Z.of_nat (length (pairs ++ rev_group ts iso rl g))) limit) as [L'|L'].
      * rewrite ReverseScan_loop_key; [|done| |done|done].
        2:{ apply Forall_forall. intros j Hj. apply Kj. by right. }
        cbn [rs_entry rs_startTS rs_isoLevel rs_resolvedLocks rs_currKey rs_pairs].
        change (fold_left entry_add js (entry_add empty_entry i))
          with (fold_left entry_add (i :: js) empty_entry).
        assert (fold_left entry_add (i :: js) empty_entry = full_entry g') as ->
          by (rewrite <- Ei; apply entry_add_group).
        unfold set_entry. cbn [rs_startTS rs_isoLevel rs_resolvedLocks rs_currKey rs_pairs].
        rewrite (IH g' (pairs ++ rev_group ts iso rl g)) by done.
        by rewrite <- !app_assoc.
      * rewrite ReverseScan_loop_limit by done. step_opt. unfold rev_finish. cbn [rs_pairs].
        rewrite (proj2 (Z.ltb_ge _ _)) by done. f_equal.
        rewrite app_assoc, take_app_full, take_ge; [done| |]; rewrite length_app in *; lia.
    + rewrite fmap_app, fmap_cons. cbn [app].
      rewrite ReverseScan_loop_stop; [|done|rewrite Ki; by apply not_ble]. step_opt.
      unfold rev_finish. cbn [rs_pairs h]. rewrite (proj2 (Z.ltb_lt _ _) L), Ef. step_opt.
      cbn [rs_pairs]. rewrite list_filter_none.
      * cbn. rewrite app_nil_r, take_ge; [done|]. rewrite length_app. lia.
      * intros h' Hh'. apply not_ble in Hs. apply elem_of_cons in Hh' as [->|Hh'].
        -- by apply not_ble.
        -- apply not_ble. rewrite Forall_forall in F. apply StronglySorted_inv in S as [_ F'].
           rewrite Forall_forall in F'. eapply blt_trans; [by apply F'|done].
Qed.

(** ** ReverseScan *)

Lemma raw_items_rev G : rev (raw_item <$> G ≫= g_items) = raw_item <$> rev G ≫= rev_items.
Proof. by rewrite <- map_rev, rev_bind. Qed.

Lemma rev_groups_ok G : Forall item_ok (G ≫= g_items) -> Forall item_ok (rev G ≫= rev_items).
Proof.
  unfold rev_items. rewrite <- (rev_bind g_items G). rewrite !Forall_forall.
  intros F i Hi. apply F. by rewrite elem_of_rev in Hi.
Qed.

(** The pairs of the descending keys of the range, from their entries. *)
Lemma ReverseScan_groups mvcc s e limit ts iso rl :
  wf (EDB mvcc) -> exists G, range_view (EDB mvcc) [] e G /\
    ReverseScan mvcc s e limit ts iso rl =
      Some (take (Z.to_nat limit)
        (filter (fun g => s <=b g_key g) (rev G) ≫= rev_group ts iso rl)).
Proof.
  intros W. destruct (range_groups (EDB mvcc) [] e W) as (G & E & V).
  exists G. split; [done|]. unfold ReverseScan. fold (scan_start e).
  change (scan_start []) with (@nil byte) in E. unfold newIterator in E.
  destruct (NewIterator (EDB mvcc) [] (scan_start e)) as [items er]. injection E as E _.
  cbn [fst]. rewrite E, raw_items_rev.
  pose proof (StronglySorted_rev _ _ (rv_sorted _ _ _ _ V)) as S.
  pose proof (rev_groups_ok _ (rv_ok _ _ _ _ V)) as HT.
  assert (Forall g_nonempty (rev G)) as N.
  { apply Forall_forall. intros g Hg. rewrite elem_of_rev in Hg.
    pose proof (rv_nonempty _ _ _ _ V) as N. rewrite Forall_forall in N. by apply N. }
  clear E V W. destruct (rev G) as [|g D].
  { cbn [mbind list_bind fmap list_fmap ReverseScan_loop]. step_opt. cbn [rs_pairs length].
    destruct (Z.of_nat 0 <? limit); [|by destruct (Z.to_nat limit)].
    rewrite (finishEntry_group _ [] None []) by done. step_opt. cbn. by destruct (Z.to_nat limit). }
  apply Forall_cons in N as [Ng N]. cbn [mbind list_bind] in *. apply Forall_app in HT as [HT1 HT].
  pose proof (fun j Hj => g_items_key g j (rev_items_spec g j Hj)) as Kj.
  assert (fold_left entry_add (rev_items g) empty_entry = full_entry g) as Ee
    by apply entry_add_group.
  destruct (rev_items g) as [|i js] eqn:Ei.
  { destruct Ng. unfold rev_items in Ei. destruct (g_items g) as [|a l]; [done|].
    simpl in Ei. by destruct (rev l). }
  assert (item_key i = g_key g) as Ki by (apply Kj; by left).
  pose proof HT1 as HT1'. apply Forall_cons in HT1' as [Hi _].
  rewrite fmap_app. set (rest := raw_item <$> D ≫= rev_items) in *.
  assert (match (raw_item <$> i :: js) ++ rest with
          | [] => []
          | (k, _) :: _ => match mvccDecode k with Ok (key, _) => key | Err _ => [] end
          end = g_key g) as ->.
  { rewrite fmap_cons. cbn [app]. unfold raw_item at 1.
    rewrite mvccDecode_Encode by by apply item_ver_u64. done. }
  change (fun h => if Z.of_nat (length (rs_pairs h)) <? limit then _ else _) with (fun h => rev_finish limit h).
  destruct (Z.lt_ge_cases 0 limit) as [L|L].
  2:{ rewrite ReverseScan_loop_limit by done. step_opt. unfold rev_finish. cbn.
      rewrite (proj2 (Z.ltb_ge _ _)) by done. by replace (Z.to_nat limit) with 0%nat by lia. }
  destruct (decide (s <=b g_key g)) as [Hs|Hs].
  - rewrite ReverseScan_loop_key; [|done| |done|done].
    2:{ apply Forall_forall. intros j Hj. by apply Kj. }
    cbn [rs_entry]. rewrite Ee. unfold set_entry.
    cbn [rs_startTS rs_isoLevel rs_resolvedLocks rs_currKey rs_pairs].
    unfold rest. rewrite (ReverseScan_loop_groups D g s limit ts iso rl []) by done.
    by rewrite filter_cons, decide_True.
  - rewrite fmap_cons. cbn [app]. rewrite ReverseScan_loop_stop; [|done|rewrite Ki; by apply not_ble].
    step_opt. unfold rev_finish. cbn [rs_pairs length].
    rewrite (proj2 (Z.ltb_lt _ _)) by lia.
    rewrite (finishEntry_group _ (g_key g) None []) by done. step_opt.
    rewrite list_filter_none; [cbn; by destruct (Z.to_nat limit)|].
    intros h' Hh'. apply not_ble in Hs. apply elem_of_cons in Hh' as [->|Hh']; apply not_ble; [done|].
    apply StronglySorted_inv in S as [_ F]. rewrite Forall_forall in F.
    eapply blt_trans; [by apply F|done].
Qed.

(** The values of the data versions are empty exactly for the deletions. *)
Definition plain_values (db : DB) : Prop :=
  forall k c v, write_at db k c = Some v -> is_data v = true ->
    (val_valueType v = typeDelete <-> val_value v = []).

Lemma entry_Get_loop_read vs ts k :
  Forall (fun v => is_data v = true -> (val_valueType v = typeDelete <-> val_value v = [])) vs ->
  rev_pair_of k (Ok (entry_Get_loop ts vs)) = pair_of k (Ok (read_value (find_visible ts vs))).
Proof.
  intros F. induction F as [|v vs Hv F IH]; [done|]. cbn [entry_Get_loop find_visible List.find].
  rewrite <- andb_assoc. change (negb _ && negb _) with (is_data v). rewrite (andb_comm (is_data v)).
  destruct ((val_commitTS v <=? ts) && is_data v) eqn:E; [|exact IH].
  apply andb_true_iff in E as [_ E]. specialize (Hv E). unfold read_value.
  destruct (Z.eqb_spec (val_valueType v) typeDelete) as [Ed|Nd].
  - apply Hv in Ed. by rewrite Ed.
  - destruct (val_value v) as [|x w]; [|done]. by destruct Nd; apply Hv.
Qed.

Lemma rev_group_read mvcc ts iso rl g :
  wf (EDB mvcc) -> plain_values (EDB mvcc) -> group_of (EDB mvcc) g ->
  rev_group ts iso rl g = pair_of (g_key g) (getValue mvcc (g_key g) ts iso rl).
Proof.
  intros W P Gg. rewrite <- (group_read mvcc g ts iso rl W Gg). unfold rev_group, rev_read, read_key.
  destruct (read_ts _ _ _ _ _) as [ts'|er]; step_res; [|done].
  apply entry_Get_loop_read. apply Forall_forall. intros v Hv Hd.
  destruct Gg as [_ [_ M]]. apply M in Hv. by eapply P.
Qed.

(** The pairs of a reverse scan are the reads of the keys of its range. *)
Lemma ReverseScan_reads mvcc s e limit ts iso rl :
  wf (EDB mvcc) -> plain_values (EDB mvcc) ->
  exists ks, range_keys (EDB mvcc) s e ks /\
    ReverseScan mvcc s e limit ts iso rl =
      Some (take (Z.to_nat limit) (rev ks ≫= (fun k => pair_of k (getValue mvcc k ts iso rl)))).
Proof.
  intros W P. destruct (ReverseScan_groups mvcc s e limit ts iso rl W) as (G & V & ->).
  exists (filter (fun k => s <=b k) (g_key <$> G)).
  destruct (range_view_keys _ _ _ _ V) as [Sk Mk]. split.
  { split; [by apply StronglySorted_filter|]. intros k. rewrite list_elem_of_filter, Mk.
    unfold key_range. pose proof (nil_ble k). tauto. }
  do 2 f_equal. rewrite <- filter_rev, <- map_rev.
  assert (forall g, g ∈ rev G -> group_of (EDB mvcc) g) as Hg.
  { intros g Hg. rewrite elem_of_rev in Hg. by destruct (rv_in _ _ _ _ V g Hg). }
  revert Hg. generalize (rev G). intros D Hg. clear V Sk Mk. induction D as [|g D IH]; [done|].
  cbn [map]. rewrite !filter_cons.
  destruct (decide (s <=b g_key g)); [|apply IH; intros; apply Hg; by right].
  cbn [mbind list_bind]. rewrite (rev_group_read mvcc) by (done || by apply Hg; left). f_equal.
  apply IH; intros; apply Hg; by right.
Qed.

(** C32: On a store whose empty values are exactly the deletions,
    [ReverseScan] returns the first [limit] pairs of a [BatchGet] of the keys
    of the range in descending order, and never panics. *)
Theorem ReverseScan_BatchGet mvcc s e limit ts iso rl :
  wf (EDB mvcc) -> plain_values (EDB mvcc) ->
  exists ks, range_keys (EDB mvcc) s e ks /\
    ReverseScan mvcc s e limit ts iso rl =
      Some (take (Z.to_nat limit) (BatchGet mvcc (rev ks) ts iso rl)).
Proof.
  intros W P. destruct (ReverseScan_reads mvcc s e limit ts iso rl W P) as (ks & R & ->).
  exists ks. split; [done|]. by rewrite BatchGet_bind.
Qed.

End reverse_scan.
