(* ===== verification/MvccEffects.v ===== *)
(** * Effects on the view

    What the operations on locks do to [lock_at] and [write_at], key by key. *)

From stdpp Require Import base gmap list sorting strings.
From Stdlib Require Import Strings.Byte ZArith Lia Sorted.
From S2P Require Import Prelude External Marshal Mvcc MvccOps MvccView MvccRead MvccScan MvccSpec MvccTxn MvccLock MvccStatus.
Open Scope Z_scope.

(** Records that lock keys for the transaction that started at [s]. *)
Definition locks_for (s : Z) (keys : list bytes) (b : list lop) : Prop :=
  Forall (fun op => exists k l, op = PutLock k l /\ k ∈ keys /\ lock_startTS l = s) b.

Lemma locks_for_app s ks1 ks2 b1 b2 :
  locks_for s ks1 b1 -> locks_for s ks2 b2 -> locks_for s (ks1 ++ ks2) (b1 ++ b2).
Proof.
  intros F1 F2. apply Forall_app. split; eapply Forall_impl; try done;
    intros op (k & l & -> & Hk & Hl); exists k, l; rewrite elem_of_app; auto.
Qed.

(** Locking leaves the versions alone; a key that gets a record ends up locked
    by the transaction, another one keeps its lock. *)
Lemma ksteps_locks s keys b k s0 :
  locks_for s keys b ->
  (ksteps (key_ops k b) s0).2 = s0.2 /\
  ((exists l, (ksteps (key_ops k b) s0).1 = Some l /\ lock_startTS l = s /\ k ∈ keys) \/
   ((ksteps (key_ops k b) s0).1 = s0.1 /\ forall l, PutLock k l ∉ b)).
Proof.
  intros F. revert s0. induction F as [|op b (k' & l & -> & Hk & Hl) F IH]; intros s0.
  { split; [done|]. right. split; [done|]. intros l Hl. by inversion Hl. }
  unfold key_ops. rewrite filter_cons. case_decide as E; cbn [lop_key] in E.
  - subst k'. specialize (IH (kstep s0 (PutLock k l))) as [IH1 IH2].
    unfold ksteps, key_ops in *. cbn [fold_left]. split; [by rewrite IH1|]. left.
    destruct IH2 as [(l' & El & H')|[El _]]; [by exists l'|]. exists l. by rewrite El.
  - specialize (IH s0) as [IH1 IH2]. split; [done|].
    destruct IH2 as [IH2|[El N]]; [by left|]. right. split; [done|].
    intros l' Hl'. apply elem_of_cons in Hl' as [Hl'|Hl']; [congruence|by eapply N].
Qed.

Section effects.
Context `{CodecLaws} `{LevelDBLaws} `{KvrpcpbLaws} `{Oracle} `{Deadlock}.

Lemma own_lock_lock st k s l : own_lock st k s = Some l -> a_lock st k = Some l /\ lock_startTS l = s.
Proof.
  unfold own_lock. destruct (a_lock st k) as [l'|]; [|done].
  destruct (Z.eqb_spec (lock_startTS l') s); [|done]. by intros [= ->].
Qed.

(** The keys are locked by the transaction and nothing else changed. *)
Definition locked_all (db db' : DB) (s : Z) (keys : list bytes) : Prop :=
  wf db' /\
  (forall k, k ∈ keys -> exists l, lock_at db' k = Some l /\ lock_startTS l = s) /\
  (forall k, k ∉ keys -> lock_at db' k = lock_at db k) /\
  (forall k ts, write_at db' k ts = write_at db k ts).

Lemma locked_all_intro db st db' b s keys :
  rep db st -> rep db' (apply_lops b st) -> locks_for s keys b ->
  (forall k, k ∈ keys -> (exists l, PutLock k l ∈ b) \/ own_lock st k s <> None) ->
  locked_all db db' s keys.
Proof.
  intros R R' F C. split; [by apply (rep_wf _ _ R')|].
  assert (forall k, a_vers (apply_lops b st) k = a_vers st k /\
    ((exists l, a_lock (apply_lops b st) k = Some l /\ lock_startTS l = s /\ k ∈ keys) \/
     (a_lock (apply_lops b st) k = a_lock st k /\ forall l, PutLock k l ∉ b))) as A.
  { intros k. pose proof (kstate_apply b st k) as K.
    destruct (ksteps_locks s keys b k (kstate st k) F) as [A1 A2].
    rewrite <- K in A1, A2. done. }
  split_and!.
  - intros k Hk. rewrite (rep_lock _ _ R'). destruct (A k) as [_ [(l & El & Es & _)|[El N]]]; [eauto|].
    destruct (C k Hk) as [(l & Hl)|O]; [by destruct (N l)|].
    destruct (own_lock st k s) as [l|] eqn:E; [|done]. apply own_lock_lock in E as [E Es].
    exists l. by rewrite El.
  - intros k Hk. rewrite (rep_lock _ _ R'), (rep_lock _ _ R).
    by destruct (A k) as [_ [(l & _ & _ & ?)|[El _]]].
  - intros k ts. apply option_eq. intros v.
    rewrite (rep_write_at db' _ _ _ _ R'), (rep_write_at db _ _ _ _ R). by destruct (A k) as [-> _].
Qed.

(** ** Prewrite *)

Lemma a_prewriteMutation_locks st m s primary ttl size isPess minc b :
  a_prewriteMutation st m s primary ttl size isPess minc = Ok b ->
  locks_for s [m_Key m] b /\ ((exists l, PutLock (m_Key m) l ∈ b) \/ own_lock st (m_Key m) s <> None).
Proof.
  unfold a_prewriteMutation, own_lock.
  assert (forall t sz mc, locks_for s [m_Key m] [PutLock (m_Key m) (prewrite_lock m s primary t sz mc)])
    as L.
  { intros. constructor; [|constructor]. do 2 eexists. split; [done|]. split; [by left|done]. }
  destruct (a_lock st (m_Key m)) as [l|].
  - destruct (lock_startTS l =? s); [|done]. cbn [negb].
    destruct (_ =? Op_PessimisticLock); cbn [negb]; intros [= <-]; (split; [|by right]); [apply L|constructor].
  - destruct isPess; [done|]. destruct (a_check _ _ _ _ _); [|done]. intros [= <-].
    split; [apply L|]. left. eexists. by left.
Qed.

(** The keys a prewrite request locks. *)
Definition written_keys (req : PrewriteRequest) (ms : list Mutation) : list bytes :=
  m_Key <$> filter (fun m => m_Op m <> Op_CheckNotExists) ms.

Lemma a_prewrite_locks st req i ms errs b :
  a_prewrite st req i ms = Some (errs, b) -> existsb is_err errs = false ->
  locks_for (pw_StartVersion req) (written_keys req ms) b /\
  forall k, k ∈ written_keys req ms ->
    (exists l, PutLock k l ∈ b) \/ own_lock st k (pw_StartVersion req) <> None.
Proof.
  revert i errs b. induction ms as [|m ms IH]; intros i errs b; cbn [a_prewrite].
  { intros [= <- <-] _. split; [constructor|]. intros k Hk. by inversion Hk. }
  destruct (a_prewrite_one st req i m) as [[e1 b1]|] eqn:E1; step_opt; [|done].
  destruct (a_prewrite st req (S i) ms) as [[e2 b2]|] eqn:E2; step_opt; [|done].
  intros [= <- <-] Er. rewrite existsb_app in Er. apply orb_false_iff in Er as [Er1 Er2].
  destruct (IH _ _ _ E2 Er2) as [F C]. unfold written_keys in *. rewrite filter_cons.
  unfold a_prewrite_one in E1. destruct (a_insert_check st req m); [by injection E1 as <- <-|].
  case_decide as Hop.
  - rewrite (proj2 (Z.eqb_neq _ _)) in E1 by done. rewrite fmap_cons.
    destruct (match pw_IsPessimisticLock req with [] => _ | _ => _ end) as [p|]; [|done].
    cbn [mbind option_bind] in E1. case_match eqn:Em; injection E1 as <- <-; [|done].
    apply a_prewriteMutation_locks in Em as [F1 C1]. split.
    + by apply (locks_for_app _ [m_Key m]).
    + intros k Hk. apply elem_of_cons in Hk as [->|Hk].
      * destruct C1 as [(l & Hl)|]; [|by right]. left. exists l. apply elem_of_app. by left.
      * destruct (C k Hk) as [(l & Hl)|]; [|by right]. left. exists l. apply elem_of_app. by right.
  - assert ((m_Op m =? Op_CheckNotExists) = true) as Ec.
    { apply Z.eqb_eq. destruct (Z.eq_dec (m_Op m) Op_CheckNotExists); [done|by destruct Hop]. }
    rewrite Ec in E1. injection E1 as <- <-. done.
Qed.

(** C5: [Prewrite] is all or nothing: when it returns an error the store is as
    it was, and otherwise every key it writes is locked by the transaction, no
    other lock and no version changed. *)
Theorem Prewrite_all_or_nothing mvcc req errs mvcc' :
  wf (EDB mvcc) -> prewrite_ok req -> Prewrite mvcc req = Some (errs, mvcc') ->
  if existsb is_err errs then mvcc' = mvcc
  else locked_all (EDB mvcc) (EDB mvcc') (pw_StartVersion req) (written_keys req (pw_Mutations req)).
Proof.
  intros W P E. destruct (rep_exists _ W) as (st & R).
  pose proof (Prewrite_outcome mvcc st req R P) as O.
  destruct (a_prewrite st req 0 (pw_Mutations req)) as [[errs' b]|] eqn:Ea; [|congruence].
  destruct O as (m' & E' & O). rewrite E in E'. injection E' as <- <-.
  destruct (existsb is_err errs) eqn:Er; [done|]. destruct O as [_ R'].
  apply a_prewrite_locks in Ea as [F C]; [|done]. by eapply locked_all_intro.
Qed.

(** ** Pessimistic locks *)

Lemma a_pessMutation_start st det lctx m e b lctx' det' :
  a_pessMutation st det lctx m = (e, (b, lctx', det')) -> lc_startTS lctx' = lc_startTS lctx.
Proof.
  unfold a_pessMutation, add_value. intros E. repeat case_match; by injection E as <- <- <- <-.
Qed.

Lemma a_pessLock_locks st wait ms lctx det errs b lctx' det' :
  a_pessLock st wait ms lctx det = (errs, (b, lctx', det')) -> existsb is_err errs = false ->
  locks_for (lc_startTS lctx) (m_Key <$> ms) b /\
  forall k, k ∈ m_Key <$> ms ->
    (exists l, PutLock k l ∈ b) \/ own_lock st k (lc_startTS lctx) <> None.
Proof.
  revert lctx det errs b. induction ms as [|m ms IH]; intros lctx det errs b; cbn [a_pessLock].
  { intros [= <- <- _ _] _. split; [constructor|]. intros k Hk. by inversion Hk. }
  destruct (a_pessMutation st det lctx m) as [err [[b1 lctx1] det1]] eqn:E1.
  pose proof (a_pessMutation_start _ _ _ _ _ _ _ _ E1) as Es.
  destruct (_ && is_ErrLocked err) eqn:Ew.
  { intros [= <- <- _ _]. apply andb_true_iff in Ew as [_ Ew]. by destruct err. }
  destruct (a_pessLock st wait ms lctx1 det1) as [e2 [[b2 lctx2] det2]] eqn:E2.
  intros [= <- <- -> ->] Er. cbn [existsb] in Er. apply orb_false_iff in Er as [Er1 Er2].
  destruct (IH _ _ _ _ E2 Er2) as [F C]. rewrite Es in *. rewrite fmap_cons.
  assert (locks_for (lc_startTS lctx) [m_Key m] b1 /\
    ((exists l, PutLock (m_Key m) l ∈ b1) \/ own_lock st (m_Key m) (lc_startTS lctx) <> None))
    as [F1 C1].
  { unfold a_pessMutation, own_lock in *. destruct (a_lock st (m_Key m)) as [l|].
    - destruct (lock_startTS l =? lc_startTS lctx).
      + injection E1 as <- <- <- <-. split; [constructor|by right].
      + destruct (Detect _ _ _ _). by injection E1 as <- <- <- <-.
    - destruct (a_check _ _ _ _ _); injection E1 as <- <- <- <-; [|done]. split.
      + constructor; [|constructor]. do 2 eexists. split; [done|]. split; [by left|done].
      + left. eexists. by left. }
  split; [by apply (locks_for_app _ [m_Key m])|].
  intros k Hk. apply elem_of_cons in Hk as [->|Hk].
  - destruct C1 as [(l & Hl)|]; [|by right]. left. exists l. apply elem_of_app. by left.
  - destruct (C k Hk) as [(l & Hl)|]; [|by right]. left. exists l. apply elem_of_app. by right.
Qed.

(** [PessimisticLock] is all or nothing: with an error in its response the
    store is as it was, and otherwise every key of the request is locked by
    the transaction, no other lock and no version changed. *)
Theorem PessimisticLock_all_or_nothing mvcc req :
  wf (EDB mvcc) -> pess_ok (req_ctx req) ->
  let '(resp, mvcc') := PessimisticLock mvcc req in
  match plr_Errors resp with
  | [] => locked_all (EDB mvcc) (EDB mvcc') (pl_StartVersion req) (m_Key <$> pl_Mutations req)
  | _ => EDB mvcc' = EDB mvcc /\ plr_Values resp = []
  end.
Proof.
  intros W P. destruct (rep_exists _ W) as (st & R).
  pose proof (PessimisticLock_outcome mvcc st req R P) as O.
  destruct (a_pessLock _ _ _ _ _) as [errs [[b lctx] det]] eqn:Ea.
  destruct (PessimisticLock mvcc req) as [resp mvcc']. destruct O as [_ O].
  destruct (existsb is_err errs) eqn:Er.
  - destruct O as [-> ->]. cbn. destruct (non_nil_errors errs) as [|e es] eqn:En; [|done].
    exfalso. apply existsb_exists in Er as ([e|] & He & Er); [|done].
    apply list_elem_of_In in He.
    assert (e ∈ non_nil_errors errs) as A by (apply list_elem_of_omap; by exists (Some e)).
    rewrite En in A. by inversion A.
  - destruct O as [-> R']. cbn. apply a_pessLock_locks in Ea as [F C]; [|done].
    by eapply locked_all_intro.
Qed.

(** ** Pessimistic rollback *)

(** [PessimisticRollback] never fails: it removes exactly the pessimistic
    locks of the transaction on the keys that were taken at or before the
    timestamp, and touches no other lock and no version. *)
Theorem PessimisticRollback_effect mvcc keys s f :
  wf (EDB mvcc) ->
  exists mvcc', PessimisticRollback mvcc keys s f = (replicate (length keys) None, mvcc') /\
    wf (EDB mvcc') /\
    forall k, (forall ts, write_at (EDB mvcc') k ts = write_at (EDB mvcc) k ts) /\
      lock_at (EDB mvcc') k =
        match lock_at (EDB mvcc) k with
        | Some l => if bool_decide (k ∈ keys) && (lock_op l =? Op_PessimisticLock)
                       && (lock_startTS l =? s) && (lock_forUFIDelateTS l <=? f)
                    then None else Some l
        | None => None
        end.
Proof.
  intros W. destruct (rep_exists _ W) as (st & R).
  destruct (PessimisticRollback_outcome mvcc st keys s f R) as (mvcc' & E & R').
  exists mvcc'. split; [done|]. split; [by apply (rep_wf _ _ R')|]. intros k.
  set (g := fun k => if pess_locked st s f k then [DelLock k] else []).
  assert (kstate (apply_lops (keys ≫= g) st) k =
    if decide (k ∈ keys) then ksteps (g k) (kstate st k) else kstate st k) as K.
  { apply kstate_blocks; unfold g.
    - intros k' op Hop. destruct (pess_locked st s f k'); [|by inversion Hop].
      by apply list_elem_of_singleton in Hop as ->.
    - intros [lo vs]. by destruct (pess_locked st s f k). }
  change (keys ≫= g) with (pess_rollback_ops st s f keys) in K.
  assert (a_vers (apply_lops (pess_rollback_ops st s f keys) st) k = a_vers st k) as Kv.
  { case_decide; unfold g in K; [destruct (pess_locked st s f k)|]; by injection K. }
  split.
  - intros ts. apply option_eq. intros v.
    by rewrite (rep_write_at _ _ _ _ _ R'), (rep_write_at _ _ _ _ _ R), Kv.
  - rewrite (rep_lock _ _ R'), (rep_lock _ _ R). unfold g, pess_locked in K.
    destruct (a_lock st k) as [l|] eqn:El.
    + rewrite <- andb_assoc. case_decide as Hk.
      * rewrite bool_decide_true by done. cbn [andb]. rewrite andb_assoc.
        destruct (_ && _ && _); injection K as -> _; done.
      * rewrite bool_decide_false by done. cbn [andb]. by injection K as ->.
    + by case_decide; injection K as ->.
Qed.

(** ** Heartbeat *)

(** [TxnHeartBeat] on the primary lock of the transaction returns the
    larger of the lock's and the advised time to live, and the lock keeps it;
    otherwise it fails.  No other field, lock or version changes, so that the
    time to live of a lock never decreases. *)
Theorem TxnHeartBeat_effect mvcc k s ttl :
  wf (EDB mvcc) -> u64 ttl ->
  let mvcc' := (TxnHeartBeat mvcc k s ttl).2 in
  wf (EDB mvcc') /\
  (forall k', k' <> k -> same_key (EDB mvcc) (EDB mvcc') k') /\
  (forall ts, write_at (EDB mvcc') k ts = write_at (EDB mvcc) k ts) /\
  match lock_at (EDB mvcc) k with
  | Some l =>
      if (lock_startTS l =? s) && bool_decide (lock_primary l = k)
      then (TxnHeartBeat mvcc k s ttl).1 = Ok (Z.max (lock_ttl l) ttl) /\
           lock_at (EDB mvcc') k = Some (set_ttl l (Z.max (lock_ttl l) ttl))
      else (exists e, (TxnHeartBeat mvcc k s ttl).1 = Err e) /\ lock_at (EDB mvcc') k = Some l
  | None => (exists e, (TxnHeartBeat mvcc k s ttl).1 = Err e) /\ lock_at (EDB mvcc') k = None
  end.
Proof.
  intros W Ht. cbv zeta. destruct (rep_exists _ W) as (st & R).
  pose proof (TxnHeartBeat_outcome mvcc st k s ttl R Ht) as O.
  destruct (a_heartbeat st k s ttl) as [r b] eqn:Eh. destruct O as [-> R'].
  split; [by apply (rep_wf _ _ R')|].
  assert (b = [] \/ exists l, b = [PutLock k l]) as Hb.
  { revert Eh. unfold a_heartbeat. repeat case_match; intros [= <- <-]; eauto. }
  assert (forall k', k' <> k -> kstate (apply_lops b st) k' = kstate st k') as Ko.
  { intros k' N. rewrite kstate_apply. destruct Hb as [->|(l & ->)]; [done|].
    unfold key_ops. by rewrite filter_cons, decide_False. }
  assert (a_vers (apply_lops b st) k = a_vers st k) as Kv by (destruct Hb as [->|(l & ->)]; done).
  split_and!.
  - intros k' N. eapply rep_same_key; [done..|by apply Ko].
  - intros ts. apply option_eq. intros v.
    by rewrite (rep_write_at _ _ _ _ _ R'), (rep_write_at _ _ _ _ _ R), Kv.
  - rewrite (rep_lock _ _ R'), (rep_lock _ _ R). revert Eh. unfold a_heartbeat, own_lock.
    destruct (a_lock st k) as [l|] eqn:El; [|intros [= <- <-]; split; [by eexists|exact El]].
    destruct (lock_startTS l =? s); [|intros [= <- <-]; split; [by eexists|exact El]]. cbn [andb].
    case_bool_decide; cbn [negb]; intros [= <- <-]; [|split; [by eexists|exact El]].
    split; [done|]. destruct (Z.ltb_spec (lock_ttl l) ttl) as [L|L].
    + unfold a_lock. cbn. rewrite lookup_insert_eq. by rewrite Z.max_r by lia.
    + cbn. rewrite El, Z.max_l by lia. by destruct l.
Qed.

(** ** Cleanup *)

(** When the transaction has neither a lock nor a version on the key,
    [Cleanup] returns no error and changes no lock and no version: the
    rollback record that its last branch prepares is never written (a later
    prewrite of the transaction is not refused), whereas [Rollback] of the key
    writes it. *)
Theorem Cleanup_absent mvcc k s cur :
  wf (EDB mvcc) -> 0 <= s < lockVer ->
  (forall l, lock_at (EDB mvcc) k = Some l -> lock_startTS l <> s) ->
  (forall c v, write_at (EDB mvcc) k c = Some v -> val_startTS v <> s) ->
  (Cleanup mvcc k s cur).1 = None /\
  (forall k', same_key (EDB mvcc) (EDB (Cleanup mvcc k s cur).2) k') /\
  (Rollback mvcc [k] s).1 = None /\
  write_at (EDB (Rollback mvcc [k] s).2) k s = Some (rollback_val s).
Proof.
  intros W Hs Hl Hw. destruct (rep_exists _ W) as (st & R).
  assert (own_lock st k s = None) as El.
  { destruct (own_lock st k s) as [l|] eqn:El; [|done]. apply own_lock_lock in El as [El Es].
    by destruct (Hl l); [rewrite (rep_lock _ _ R)|]. }
  assert (a_info (a_vers st k) s = None) as Ei.
  { destruct (a_info (a_vers st k) s) as [v|] eqn:Ev; [|done].
    apply List.find_some in Ev as [Hv Ev]. apply list_elem_of_In in Hv.
    apply (rep_elem (EDB mvcc) st) in Hv; [|done]. apply Z.eqb_eq in Ev. by destruct (Hw _ _ Hv). }
  pose proof (Cleanup_outcome mvcc st k s cur R Hs) as O.
  unfold a_cleanup in O. rewrite El, Ei in O. destruct O as [O1 O2].
  pose proof (Rollback_outcome mvcc st [k] s R Hs) as P. cbn [collect] in P.
  assert (a_rollbackKey st s k = Ok [PutVal k (rollback_val s)]) as Er
    by (unfold a_rollbackKey; by rewrite El, Ei).
  rewrite Er in P. destruct P as [P1 P2]. split_and!; [done| |done|].
  - intros k'. by eapply rep_same_key.
  - cbn [app] in P2.
    destruct (rep_inserted _ _ _ _ k (rollback_val s) R P2) as [Hv _]; [|done].
    cbn. by rewrite a_vers_set, decide_True.
Qed.

(** ** Resolving locks *)

Lemma resolve_ops_idem f k ol : block_idem (resolve_ops f k ol).
Proof.
  intros [lo vs]. unfold resolve_ops. repeat case_match; try done; cbn; by rewrite insert_version_idem.
Qed.

(** What the decision about its lock makes of a key. *)
Definition resolved (db db' : DB) (f : Z -> option Z) (k : bytes) : Prop :=
  match lock_at db k with
  | Some l =>
      match f (lock_startTS l) with
      | Some c =>
          let v := if 0 <? c then commit_val l (lock_startTS l) c
                   else rollback_val (lock_startTS l) in
          lock_at db' k = None /\ write_at db' k (val_commitTS v) = Some v /\
          forall ts, ts <> val_commitTS v -> write_at db' k ts = write_at db k ts
      | None => same_key db db' k
      end
  | None => same_key db db' k
  end.

Lemma a_resolve_effect db db' st f s e ks :
  rep db st -> range_keys db s e ks -> rep db' (apply_lops (a_resolve st f ks) st) ->
  forall k, if decide (key_range s e k) then resolved db db' f k else same_key db db' k.
Proof.
  intros R [_ Hks] R' k.
  assert (kstate (apply_lops (a_resolve st f ks) st) k =
    if decide (k ∈ ks) then ksteps (resolve_ops f k (a_lock st k)) (kstate st k) else kstate st k) as K.
  { apply (kstate_blocks (fun k => resolve_ops f k (a_lock st k))); [|apply resolve_ops_idem].
    intros k' op. unfold resolve_ops, commit_ops, rollback_ops. repeat case_match; cbn; rewrite ?elem_of_cons; try by inversion 1.
    all: intros [->|[->|Hop]]; [done|done|by inversion Hop]. }
  destruct (decide (key_range s e k)) as [Kr|Kr], (decide (k ∈ ks)) as [M|M].
  - unfold resolved. rewrite (rep_lock _ _ R).
    destruct (a_lock st k) as [l|] eqn:El; [|by eapply rep_same_key].
    unfold resolve_ops in K. destruct (f (lock_startTS l)) as [c|]; [|by eapply rep_same_key].
    cbv zeta. rewrite (rep_lock _ _ R').
    destruct (0 <? c); unfold kstate in K; cbn in K; injection K as Kl Kv; (split; [done|]);
      by eapply rep_inserted.
  - unfold resolved. rewrite (rep_lock _ _ R).
    destruct (a_lock st k) as [l|] eqn:El; [|by eapply rep_same_key].
    destruct M. apply Hks. split; [done|]. exists (ILock k l). split; [|done]. simpl.
    by rewrite (rep_lock _ _ R).
  - apply Hks in M as [M _]. done.
  - by eapply rep_same_key.
Qed.

(** [ResolveLock] always succeeds: on every key of the range locked by the
    transaction the lock becomes the version committed at [commitTS], or a
    rollback record when that is 0, and nothing else changes. *)
Theorem ResolveLock_effect mvcc s e startTS c :
  wf (EDB mvcc) -> (if 0 <? c then c < lockVer else startTS < lockVer) ->
  (ResolveLock mvcc s e startTS c).1 = None /\
  wf (EDB (ResolveLock mvcc s e startTS c).2) /\
  forall k, if decide (key_range s e k)
    then resolved (EDB mvcc) (EDB (ResolveLock mvcc s e startTS c).2)
           (fun t => if t =? startTS then Some c else None) k
    else same_key (EDB mvcc) (EDB (ResolveLock mvcc s e startTS c).2) k.
Proof.
  intros W Hc. destruct (rep_exists _ W) as (st & R).
  destruct (ResolveLock_outcome mvcc st s e startTS c R) as (ks & Hks & E & R').
  { intros t c'. destruct (Z.eqb_spec t startTS) as [->|]; [|done]. by intros [= <-]. }
  split; [done|]. split; [by apply (rep_wf _ _ R')|]. by apply (a_resolve_effect _ _ st _ s e ks).
Qed.

(** [BatchResolveLock] always succeeds: every lock of the range whose
    transaction is in the map becomes the committed version or the rollback
    record that the map says, and nothing else changes. *)
Theorem BatchResolveLock_effect mvcc s e (infos : gmap Z Z) :
  wf (EDB mvcc) -> decisions_ok (fun t => infos !! t) ->
  (BatchResolveLock mvcc s e infos).1 = None /\
  wf (EDB (BatchResolveLock mvcc s e infos).2) /\
  forall k, if decide (key_range s e k)
    then resolved (EDB mvcc) (EDB (BatchResolveLock mvcc s e infos).2) (fun t => infos !! t) k
    else same_key (EDB mvcc) (EDB (BatchResolveLock mvcc s e infos).2) k.
Proof.
  intros W Hc. destruct (rep_exists _ W) as (st & R).
  destruct (BatchResolveLock_outcome mvcc st s e infos R Hc) as (ks & Hks & E & R').
  split; [done|]. split; [by apply (rep_wf _ _ R')|]. by apply (a_resolve_effect _ _ st _ s e ks).
Qed.

(** ** DeleteRange *)

Lemma apply_batch_delete (l : list (bytes * bytes)) (m : gmap bytes bytes) rk :
  apply_batch ((fun p : bytes * bytes => BatchDelete p.1) <$> l) m !! rk =
    if decide (rk ∈ l.*1) then None else m !! rk.
Proof.
  unfold apply_batch. revert m. induction l as [|[k v] l IH]; intros m; [done|].
  rewrite !fmap_cons. cbn [fold_left apply_op fst]. rewrite IH.
  destruct (decide (rk ∈ l.*1)) as [M|M].
  - by rewrite decide_True by (by right).
  - destruct (decide (rk = k)) as [->|N].
    + rewrite lookup_delete_eq. by rewrite decide_True by by left.
    + rewrite lookup_delete_ne by done. rewrite decide_False; [done|].
      intros A. by apply elem_of_cons in A as [->|A].
Qed.

Lemma EncodeBytes_ble s k v : EncodeBytes [] s <=b mvccEncode k v <-> s <=b k.
Proof.
  rewrite mvccEncode_app. unfold ble. destruct (decide (s = k)) as [->|N].
  - rewrite <- (app_nil_r (EncodeBytes [] k)) at 1. rewrite bytes_compare_app_same, bytes_compare_refl.
    split; [done|]. intros _. by destruct (EncodeUintDesc [] v).
  - rewrite <- (app_nil_r (EncodeBytes [] s)). by rewrite EncodeBytes_order.
Qed.

Lemma mvccEncode_blt k v e : mvccEncode k v <b EncodeBytes [] e <-> k <b e.
Proof.
  rewrite mvccEncode_app. unfold blt. destruct (decide (k = e)) as [->|N].
  - rewrite <- (app_nil_r (EncodeBytes [] e)) at 2. rewrite bytes_compare_app_same, bytes_compare_refl.
    split; [|done]. pose proof (EncodeUintDesc_nonempty v). by destruct (EncodeUintDesc [] v).
  - rewrite <- (app_nil_r (EncodeBytes [] e)). by rewrite EncodeBytes_order.
Qed.

(** [DeleteRange] never fails and removes the lock and every version of
    the keys [k] with [startKey <= k < endKey], and of no other key; an empty
    [endKey] is no bound elsewhere but makes this range empty. *)
Theorem DeleteRange_effect mvcc s e k :
  wf (EDB mvcc) ->
  (DeleteRange mvcc s e).1 = None /\ wf (EDB (DeleteRange mvcc s e).2) /\
  if decide (s <=b k /\ k <b e)
  then lock_at (EDB (DeleteRange mvcc s e).2) k = None /\
       forall ts, write_at (EDB (DeleteRange mvcc s e).2) k ts = None
  else same_key (EDB mvcc) (EDB (DeleteRange mvcc s e).2) k.
Proof.
  intros W. unfold DeleteRange, doRawDeleteRange, write_or_err.
  set (l := (NewIterator (EDB mvcc) (EncodeBytes [] s) (EncodeBytes [] e)).1).
  set (b := (fun p : bytes * bytes => BatchDelete p.1) <$> l).
  pose proof (Write_ok (EDB mvcc) b) as E1. pose proof (Write_contents (EDB mvcc) b) as E2.
  destruct (Write (EDB mvcc) b) as [er db]. cbn [fst snd EDB] in *.
  assert (forall rk, contents db !! rk =
    if decide (EncodeBytes [] s <=b rk /\ rk <b EncodeBytes [] e) then None
    else contents (EDB mvcc) !! rk) as C.
  { intros rk. rewrite E2. unfold b. rewrite apply_batch_delete.
    assert (rk ∈ l.*1 <-> is_Some (contents (EDB mvcc) !! rk) /\
              EncodeBytes [] s <=b rk /\ rk <b EncodeBytes [] e) as M.
    { rewrite list_elem_of_fmap. unfold l. split.
      - intros ([k' v] & -> & Hin). apply NewIterator_elem in Hin as [Hc [A [B|B]]]; [|eauto].
        by apply EncodeBytes_nonempty in B.
      - intros [[v Hv] [A B]]. exists (rk, v). split; [done|]. apply NewIterator_elem.
        split; [done|]. split; auto. }
    destruct (decide (rk ∈ l.*1)) as [D|D]; destruct (decide (_ /\ _)) as [D'|D']; try done.
    - apply M in D as [_ D]. done.
    - destruct (contents (EDB mvcc) !! rk) eqn:Er; [|done]. destruct D. apply M. split; [eauto|done]. }
  split; [done|]. split.
  { intros rk rv Er. rewrite C in Er. case_decide; [done|]. by apply W in Er. }
  assert (forall v, contents db !! mvccEncode k v =
    if decide (s <=b k /\ k <b e) then None else contents (EDB mvcc) !! mvccEncode k v) as C'.
  { intros v. rewrite C. rewrite (decide_ext _ (s <=b k /\ k <b e)); [done|].
    by rewrite EncodeBytes_ble, mvccEncode_blt. }
  case_decide as D; unfold same_key, lock_at, write_at.
  - rewrite C'. split; [done|]. intros ts. case_decide; [|done]. by rewrite C'.
  - rewrite C'. split; [done|]. intros ts. case_decide; [|done]. by rewrite C'.
Qed.

End effects.
