(* ===== verification/MvccSafety.v ===== *)
(** * What transactions may rely on

    Consequences of the refinements, stated on the code: snapshots are stable
    under later commits, a committed value is read back, conflicting writes
    are refused, and commit and rollback of a transaction exclude each other. *)

From stdpp Require Import base gmap list sorting strings.
From Stdlib Require Import Strings.Byte ZArith Lia Sorted.
From S2P Require Import Prelude External Marshal Mvcc MvccOps MvccView MvccRead MvccScan MvccSpec MvccTxn MvccLock MvccStatus.
Open Scope Z_scope.

(** A new version above the read timestamp is not seen. *)
Lemma find_visible_insert_above ts v vs :
  ts < val_commitTS v -> find_visible ts (insert_version v vs) = find_visible ts vs.
Proof.
  intros L. assert (is_data v && (val_commitTS v <=? ts) = false) as Nv
    by (rewrite (proj2 (Z.leb_gt _ _)) by lia; apply andb_false_r).
  induction vs as [|w vs IH]; cbn [insert_version find_visible List.find]; [by rewrite Nv|].
  destruct (val_commitTS w <? val_commitTS v).
  { cbn [find_visible List.find]. by rewrite Nv. }
  destruct (Z.eqb_spec (val_commitTS w) (val_commitTS v)) as [E|N]; cbn [find_visible List.find].
  - rewrite Nv. rewrite E, (proj2 (Z.leb_gt _ _)) by lia. by rewrite andb_false_r.
  - destruct (is_data w && (val_commitTS w <=? ts)); [done|]. apply IH.
Qed.

(** A new newest version is seen from its timestamp on. *)
Lemma find_visible_insert_newest ts v vs :
  is_data v = true -> val_commitTS v <= ts -> Forall (fun w => val_commitTS w < val_commitTS v) vs ->
  find_visible ts (insert_version v vs) = Some v.
Proof.
  intros D L F. destruct F as [|w vs Lw F]; cbn [insert_version].
  - cbn [find_visible List.find]. by rewrite D, (proj2 (Z.leb_le _ _)).
  - rewrite (proj2 (Z.ltb_lt _ _)) by done. cbn [find_visible List.find].
    by rewrite D, (proj2 (Z.leb_le _ _)).
Qed.

Section safety.
Context `{CodecLaws} `{LevelDBLaws} `{KvrpcpbLaws} `{Oracle} `{Deadlock}.

(** ** The keys after commit and rollback *)

Lemma commit_ops_idem k l s c : block_idem (commit_ops k l s c).
Proof. intros [lo vs]. cbn. by rewrite insert_version_idem. Qed.

Lemma rollback_ops_idem k s : block_idem (rollback_ops k s).
Proof. intros [lo vs]. cbn. by rewrite insert_version_idem. Qed.

Lemma nil_idem : block_idem [].
Proof. by intros s. Qed.

Definition commit_kstate (st : astore) (s c : Z) (k : bytes) : option mvccLock * list mvccValue :=
  match own_lock st k s with
  | Some l => (None, insert_version (commit_val l s c) (a_vers st k))
  | None => kstate st k
  end.

Lemma Commit_kstate mvcc st keys s c :
  rep (EDB mvcc) st -> 0 <= c < lockVer -> (Commit mvcc keys s c).1 = None ->
  exists st', rep (EDB (Commit mvcc keys s c).2) st' /\
    (forall k, k ∈ keys -> a_commitKey st s c k <> Err (ErrRetryable "txn not found")) /\
    forall k, kstate st' k = if decide (k ∈ keys) then commit_kstate st s c k else kstate st k.
Proof.
  intros R Hc. rewrite Commit_write, (Commit_loop_refines _ st) by done. intros E.
  pose proof (write_outcome mvcc (CleanUp (deadlockDetector mvcc) s) st
                (collect (a_commitKey st s c) keys) R) as W.
  destruct (collect (a_commitKey st s c) keys) as [b|er] eqn:Ec; [|done].
  destruct W as [_ W].
  { intros b' [= <-]. revert Ec. apply collect_Forall. intros k r _. by eapply a_commitKey_ok. }
  exists (apply_lops b st). split; [done|]. apply collect_blocks in Ec as [-> F].
  split; [intros k Hk; by rewrite F|]. intros k. rewrite kstate_blocks.
  - case_decide as M; [|done]. specialize (F k M). unfold commit_kstate, block, a_commitKey in *.
    destruct (own_lock st k s) as [l|].
    + destruct (c <? lock_minCommitTS l); [done|]. done.
    + by repeat case_match.
  - intros k' op. unfold block, a_commitKey, commit_ops.
    repeat case_match; cbn; rewrite ?elem_of_cons; try by inversion 1.
    intros [->|[->|Hop]]; [done|done|by inversion Hop].
  - unfold block, a_commitKey. repeat case_match; cbn [ok_option default];
      first [apply nil_idem|apply commit_ops_idem].
Qed.

Definition rollback_kstate (st : astore) (s : Z) (k : bytes) : option mvccLock * list mvccValue :=
  match own_lock st k s with
  | Some l => (None, insert_version (rollback_val s) (a_vers st k))
  | None => match a_info (a_vers st k) s with
            | Some v => kstate st k
            | None => (a_lock st k, insert_version (rollback_val s) (a_vers st k))
            end
  end.

Lemma Rollback_kstate mvcc st keys s :
  rep (EDB mvcc) st -> 0 <= s < lockVer -> (Rollback mvcc keys s).1 = None ->
  exists st', rep (EDB (Rollback mvcc keys s).2) st' /\
    (forall k, k ∈ keys -> exists b, a_rollbackKey st s k = Ok b) /\
    forall k, kstate st' k = if decide (k ∈ keys) then rollback_kstate st s k else kstate st k.
Proof.
  intros R Hs.
  change (Rollback mvcc keys s) with (write_or_err mvcc (CleanUp (deadlockDetector mvcc) s)
    (Rollback_loop (EDB mvcc) keys s [])).
  rewrite (Rollback_loop_refines _ st) by done. intros E.
  pose proof (write_outcome mvcc (CleanUp (deadlockDetector mvcc) s) st
                (collect (a_rollbackKey st s) keys) R) as W.
  destruct (collect (a_rollbackKey st s) keys) as [b|er] eqn:Ec; [|done].
  destruct W as [_ W].
  { intros b' [= <-]. revert Ec. apply collect_Forall. intros k r _. by eapply a_rollbackKey_ok. }
  exists (apply_lops b st). split; [done|]. apply collect_blocks in Ec as [-> F].
  split; [intros k Hk; rewrite F by done; eauto|]. intros k. rewrite kstate_blocks.
  - case_decide as M; [|done]. specialize (F k M). unfold rollback_kstate, block, a_rollbackKey in *.
    destruct (own_lock st k s); [done|]. destruct (a_info _ s) as [v|]; [|done].
    by destruct (is_rollback v).
  - intros k' op. unfold block, a_rollbackKey, rollback_ops.
    repeat case_match; cbn; rewrite ?elem_of_cons; try by inversion 1.
    + intros [->|[->|Hop]]; [done|done|by inversion Hop].
    + intros [->|Hop]; [done|by inversion Hop].
  - unfold block, a_rollbackKey. repeat case_match; cbn [ok_option default];
      try first [apply nil_idem|apply rollback_ops_idem].
    intros [lo vs]. cbn. by rewrite insert_version_idem.
Qed.

(** ** Snapshot stability *)

Lemma read_ts_unlocked l k ts iso rl ts' c :
  ts < c -> c < lockVer -> read_ts (Some l) k ts iso rl = Ok ts' -> ts' = ts.
Proof.
  intros L1 L2. cbn [read_ts]. destruct (iso =? _); [|by intros [= <-]]. unfold lock_check.
  destruct (_ || _); [by intros [= <-]|].
  rewrite (proj2 (Z.eqb_neq ts MaxUint64)) by (unfold lockVer in *; lia). cbn [andb].
  destruct (existsb _ rl); [|done]. by intros [= <-].
Qed.

(** C3: A read that succeeded at [ts] gives the same value after a transaction
    commits above [ts], whatever keys it commits. *)
Theorem Commit_snapshot mvcc keys s c k ts iso rl v :
  wf (EDB mvcc) -> 0 <= c < lockVer -> ts < c ->
  (Commit mvcc keys s c).1 = None ->
  Get mvcc k ts iso rl = Ok v -> Get (Commit mvcc keys s c).2 k ts iso rl = Ok v.
Proof.
  intros W Hc L E. destruct (rep_exists _ W) as (st & R).
  destruct (Commit_kstate mvcc st keys s c R Hc E) as (st' & R' & _ & K).
  unfold Get. rewrite (rep_getValue (Commit mvcc keys s c).2 st'), (rep_getValue mvcc st) by done. unfold a_read.
  specialize (K k). unfold kstate, commit_kstate in K.
  case_decide; [|by injection K as -> ->].
  unfold own_lock in K. destruct (a_lock st k) as [l|] eqn:El; [|unfold kstate in K; injection K as -> ->; by rewrite El].
  destruct (lock_startTS l =? s); [|unfold kstate in K; injection K as -> ->; by rewrite El].
  injection K as -> ->. unfold read_key.
  destruct (read_ts (Some l) k ts iso rl) as [ts'|] eqn:Er; [|done].
  apply (read_ts_unlocked _ _ _ _ _ _ c) in Er as ->; [|done|lia]. cbn [read_ts]. step_res.
  by rewrite find_visible_insert_above.
Qed.

(** After a successful commit at [c] of a key that the transaction had
    locked for a put, every read from [c] on sees its value when no other
    version of the key is as new. *)
Theorem Commit_read_back mvcc keys s c k l ts iso rl :
  wf (EDB mvcc) -> 0 <= c < lockVer -> (Commit mvcc keys s c).1 = None ->
  k ∈ keys -> lock_at (EDB mvcc) k = Some l -> lock_startTS l = s -> lock_op l = Op_Put ->
  (forall d w, write_at (EDB mvcc) k d = Some w -> d < c) -> c <= ts ->
  Get (Commit mvcc keys s c).2 k ts iso rl = Ok (Some (lock_value l)).
Proof.
  intros W Hc E Hk Hl Hs Hop Hnew Hts. destruct (rep_exists _ W) as (st & R).
  destruct (Commit_kstate mvcc st keys s c R Hc E) as (st' & R' & _ & K).
  unfold Get. rewrite (rep_getValue _ st') by done. unfold a_read.
  specialize (K k). rewrite decide_True in K by done. unfold kstate, commit_kstate, own_lock in K.
  rewrite (rep_lock _ _ R) in Hl. rewrite Hl, Hs, Z.eqb_refl in K. injection K as -> ->.
  unfold read_key. cbn [read_ts]. step_res.
  assert (commit_type l = typePut) as T by (unfold commit_type; by rewrite Hop, Z.eqb_refl).
  rewrite find_visible_insert_newest; [|by unfold is_data; cbn; rewrite T|done|].
  - unfold read_value. cbn. by rewrite T.
  - apply Forall_forall. intros w Hw. apply (rep_elem (EDB mvcc) st) in Hw; [|done].
    cbn. by eapply Hnew.
Qed.

(** ** Commit and rollback exclude each other *)

(** The versions of a key hold a rollback record of the transaction and no
    version that it committed. *)
Definition a_rolled (vs : list mvccValue) (s : Z) : Prop :=
  exists v, a_info vs s = Some v /\ is_rollback v = true.

Lemma a_info_insert_new v vs s :
  val_startTS v = s -> a_info vs s = None -> a_info (insert_version v vs) s = Some v.
Proof.
  intros Es. induction vs as [|w vs IH]; cbn [insert_version a_info List.find].
  - by rewrite Es, Z.eqb_refl.
  - destruct (val_startTS w =? s) eqn:Ew; [done|]. intros E.
    destruct (val_commitTS w <? val_commitTS v); [cbn; by rewrite Es, Z.eqb_refl|].
    destruct (val_commitTS w =? val_commitTS v); cbn [a_info List.find].
    + by rewrite Es, Z.eqb_refl.
    + rewrite Ew. by apply IH.
Qed.

(** Once a transaction is rolled back on a key, committing the key fails. *)
Lemma a_commitKey_rolled st s c k :
  own_lock st k s = None -> a_rolled (a_vers st k) s ->
  a_commitKey st s c k = Err (ErrRetryable "txn not found").
Proof. intros L (v & E & Rv). unfold a_commitKey. by rewrite L, E, Rv. Qed.

(** After a successful [Rollback] of a key on which the transaction had
    left no version, every [Commit] of the transaction that includes the key
    fails and changes nothing. *)
Theorem Rollback_then_Commit mvcc keys s k keys' c :
  wf (EDB mvcc) -> 0 <= s < lockVer -> 0 <= c < lockVer -> (Rollback mvcc keys s).1 = None ->
  k ∈ keys -> k ∈ keys' ->
  (forall d w, write_at (EDB mvcc) k d = Some w -> val_startTS w <> s) ->
  let mvcc' := (Rollback mvcc keys s).2 in
  exists e, (Commit mvcc' keys' s c).1 = Some e /\ EDB (Commit mvcc' keys' s c).2 = EDB mvcc'.
Proof.
  intros W Hs Hc E Hk Hk' Hno. cbv zeta. destruct (rep_exists _ W) as (st & R).
  destruct (Rollback_kstate mvcc st keys s R Hs E) as (st' & R' & _ & K).
  set (mvcc' := (Rollback mvcc keys s).2) in *.
  assert (a_info (a_vers st k) s = None) as En.
  { destruct (a_info (a_vers st k) s) as [v|] eqn:Ev; [|done].
    apply List.find_some in Ev as [Hv Ev]. apply list_elem_of_In in Hv.
    apply (rep_elem (EDB mvcc) st) in Hv; [|done]. apply Z.eqb_eq in Ev. by destruct (Hno _ _ Hv). }
  assert (own_lock st' k s = None /\ a_rolled (a_vers st' k) s) as [Lk Rk].
  { specialize (K k). rewrite decide_True in K by done. unfold kstate, rollback_kstate in K.
    assert (a_rolled (insert_version (rollback_val s) (a_vers st k)) s) as A
      by (exists (rollback_val s); split; [by apply a_info_insert_new|done]).
    destruct (own_lock st k s) as [l|] eqn:El.
    - injection K as Kl ->. split; [unfold own_lock; by rewrite Kl|done].
    - rewrite En in K. injection K as Kl ->. split; [|done]. unfold own_lock in *. by rewrite Kl. }
  rewrite Commit_write, (Commit_loop_refines _ st') by done.
  pose proof (write_outcome mvcc' (CleanUp (deadlockDetector mvcc') s) st'
                (collect (a_commitKey st' s c) keys') R') as O.
  destruct (collect (a_commitKey st' s c) keys') as [b|e] eqn:Ec.
  - apply collect_blocks in Ec as [_ F]. specialize (F k Hk').
    by rewrite a_commitKey_rolled in F.
  - destruct O as [O1 O2]; [done|]. by exists e.
Qed.

(** After a successful [Commit] of a key that the transaction had locked,
    [Rollback] of the key fails with [ErrAlreadyCommitted] and the commit
    timestamp, and changes nothing, while committing the key again (at any
    timestamp) succeeds and changes no lock and no version. *)
Theorem Commit_then_Rollback mvcc keys s k l c c' :
  wf (EDB mvcc) -> 0 <= s < lockVer -> 0 <= c < lockVer -> 0 <= c' < lockVer ->
  (Commit mvcc keys s c).1 = None ->
  k ∈ keys -> lock_at (EDB mvcc) k = Some l -> lock_startTS l = s ->
  (forall d w, write_at (EDB mvcc) k d = Some w -> val_startTS w <> s) ->
  let mvcc' := (Commit mvcc keys s c).2 in
  (Rollback mvcc' [k] s).1 = Some (ErrAlreadyCommitted c) /\
  EDB (Rollback mvcc' [k] s).2 = EDB mvcc' /\
  exists st', rep (EDB mvcc') st' /\
    (Commit mvcc' [k] s c').1 = None /\ rep (EDB (Commit mvcc' [k] s c').2) st'.
Proof.
  intros W Hs Hc Hc' E Hk Hl Hls Hno. cbv zeta. destruct (rep_exists _ W) as (st & R).
  destruct (Commit_kstate mvcc st keys s c R Hc E) as (st' & R' & _ & K).
  set (mvcc' := (Commit mvcc keys s c).2) in *.
  assert (own_lock st' k s = None /\ a_info (a_vers st' k) s = Some (commit_val l s c)) as [Lk Ik].
  { specialize (K k). rewrite decide_True in K by done.
    unfold kstate, commit_kstate in K. unfold own_lock at 1 in K.
    rewrite <- (rep_lock _ _ R), Hl, Hls, Z.eqb_refl in K. injection K as Kl ->.
    split; [unfold own_lock; by rewrite Kl|]. apply a_info_insert_new; [done|].
    destruct (a_info (a_vers st k) s) as [v|] eqn:Ev; [|done].
    apply List.find_some in Ev as [Hv Ev]. apply list_elem_of_In in Hv.
    apply (rep_elem (EDB mvcc) st) in Hv; [|done]. apply Z.eqb_eq in Ev. by destruct (Hno _ _ Hv). }
  assert (is_rollback (commit_val l s c) = false) as Nr
    by (unfold is_rollback, commit_val, commit_type; cbn; by repeat case_match).
  change (Rollback mvcc' [k] s) with (write_or_err mvcc' (CleanUp (deadlockDetector mvcc') s)
    (Rollback_loop (EDB mvcc') [k] s [])).
  rewrite (Rollback_loop_refines _ st') by done.
  assert (a_rollbackKey st' s k = Err (ErrAlreadyCommitted c)) as Ea
    by (unfold a_rollbackKey; by rewrite Lk, Ik, Nr).
  cbn [collect]. rewrite Ea. step_res. split_and!; [done|done|].
  exists st'. split; [done|]. rewrite Commit_write, (Commit_loop_refines _ st') by done.
  assert (a_commitKey st' s c' k = Ok []) as Ec
    by (unfold a_commitKey; by rewrite Lk, Ik, Nr).
  cbn [collect]. rewrite Ec. step_res.
  apply (write_outcome mvcc' (CleanUp (deadlockDetector mvcc') s) st' (Ok [])); [done|].
  by intros b [= <-].
Qed.

(** ** Write conflicts *)

Lemma a_prewrite_errs_one st req i m r :
  a_prewrite_one st req i m = Some r -> existsb is_err r.1 = true ->
  forall ms1 ms2 j errs b, i = (j + length ms1)%nat ->
  a_prewrite st req j (ms1 ++ m :: ms2) = Some (errs, b) -> existsb is_err errs = true.
Proof.
  intros E1 Er ms1. induction ms1 as [|m1 ms1 IH]; intros ms2 j errs b Ei; cbn [app a_prewrite].
  - simpl in Ei. rewrite Nat.add_0_r in Ei. subst i. rewrite E1. destruct r as [e1 b1]. step_opt.
    destruct (a_prewrite st req (S j) ms2) as [[e2 b2]|]; step_opt; [|done].
    intros [= <- <-]. rewrite existsb_app. simpl in Er. by rewrite Er.
  - destruct (a_prewrite_one st req j m1) as [[e1 b1]|]; step_opt; [|done].
    destruct (a_prewrite st req (S j) (ms1 ++ m :: ms2)) as [[e2 b2]|] eqn:E2; step_opt; [|done].
    intros [= <- <-]. rewrite existsb_app. apply orb_true_iff. right.
    eapply IH; [|exact E2]. simpl in Ei. lia.
Qed.

(** [Prewrite] of an optimistic transaction never overwrites a newer write
    nor revives itself: when one of its mutations is of a key that it has not
    locked and that has a version committed after its start, or a rollback
    record of it, an error is returned and nothing is written. *)
Theorem Prewrite_conflict mvcc req m c v :
  wf (EDB mvcc) -> prewrite_ok req -> pw_IsPessimisticLock req = [] ->
  m ∈ pw_Mutations req -> m_Op m <> Op_CheckNotExists -> m_Op m <> Op_PessimisticLock ->
  (forall l, lock_at (EDB mvcc) (m_Key m) = Some l -> lock_startTS l <> pw_StartVersion req) ->
  write_at (EDB mvcc) (m_Key m) c = Some v ->
  (pw_StartVersion req < c \/ (c = pw_StartVersion req /\ val_valueType v = typeRollback)) ->
  exists errs, Prewrite mvcc req = Some (errs, mvcc) /\ existsb is_err errs = true.
Proof.
  intros W P Np Hm Nc Nl Hl Hv Hc. destruct (rep_exists _ W) as (st & R).
  apply list_elem_of_split in Hm as (ms1 & ms2 & Hm).
  assert (exists r, a_prewrite_one st req (0 + length ms1) m = Some r /\ existsb is_err r.1 = true)
    as (r & E1 & Er).
  { unfold a_prewrite_one. destruct (a_insert_check st req m) as [e|]; [eexists; done|].
    rewrite (proj2 (Z.eqb_neq _ _) Nc), Np. step_opt.
    enough (exists e, a_prewriteMutation st m (pw_StartVersion req) (pw_PrimaryLock req)
      (pw_LockTtl req) (pw_TxnSize req) false (pw_MinCommitTs req) = Err e) as (e & ->) by by eexists.
    unfold a_prewriteMutation. rewrite (rep_lock _ _ R) in Hl.
    destruct (a_lock st (m_Key m)) as [l|].
    { rewrite (proj2 (Z.eqb_neq _ _) (Hl l eq_refl)). by eexists. }
    pose proof (write_at_commitTS _ _ _ _ W Hv) as Ev. subst c.
    apply (rep_elem (EDB mvcc) st) in Hv; [|done].
    pose proof (rep_sorted _ _ (m_Key m) R) as S. unfold a_check.
    destruct (a_vers st (m_Key m)) as [|w vs]; [by inversion Hv|].
    destruct (Z.ltb_spec (pw_StartVersion req) (val_commitTS w)) as [L|L]; [by eexists|].
    rewrite a_check_loop_rolled_back by (done || by apply Z.eqb_neq).
    assert (rolled_back (w :: vs) (pw_StartVersion req) = true) as ->; [|by eexists].
    apply existsb_exists. exists v. split; [by apply list_elem_of_In|].
    assert (val_commitTS v <= val_commitTS w) as Lw.
    { apply elem_of_cons in Hv as [->|Hv]; [lia|]. apply StronglySorted_inv in S as [_ F].
      rewrite Forall_forall in F. apply F in Hv. unfold ver_gt in Hv. lia. }
    destruct Hc as [Hc|[Hc Ht]]; [lia|]. unfold is_rollback. by rewrite Ht, Hc, !Z.eqb_refl. }
  unfold Prewrite. rewrite (Prewrite_loop_refines mvcc st) by done.
  destruct (a_prewrite st req 0 (pw_Mutations req)) as [[errs b]|] eqn:E.
  - rewrite Hm in E. pose proof (a_prewrite_errs_one _ _ _ _ _ E1 Er ms1 ms2 0 errs b eq_refl E) as A.
    step_opt. cbn [app]. rewrite A. by exists errs.
  - exfalso. clear - E Np. revert E. generalize 0%nat as i.
    induction (pw_Mutations req) as [|m ms IH]; intros i; cbn [a_prewrite]; [done|].
    unfold a_prewrite_one. rewrite Np.
    destruct (a_insert_check st req m); step_opt;
      [|destruct (m_Op m =? Op_CheckNotExists); step_opt];
      [| |destruct (a_prewriteMutation _ _ _ _ _ _ _ _)];
      destruct (a_prewrite st req (S i) ms) as [[]|] eqn:E; step_opt; try done; intros _; by eapply IH.
Qed.

(** ** Pushed commit timestamps *)

Lemma pushed_distinct :
  CausetAction_MinCommitTSPushed <> CausetAction_NoCausetAction /\
  CausetAction_MinCommitTSPushed <> CausetAction_TTLExpireRollback /\
  CausetAction_MinCommitTSPushed <> CausetAction_LockNotExistRollback.
Proof.
  pose proof CausetAction_NoDup as ND. rewrite !NoDup_cons, !not_elem_of_cons in ND.
  split_and!; intros E; rewrite E in ND; tauto.
Qed.

(** When [CheckTxnStatus] answers a reader that starts at [callerStartTS]
    that the commit timestamp was pushed, no [Commit] of the transaction at or
    below [callerStartTS] succeeds on the primary key afterwards. *)
Theorem CheckTxnStatus_pushed mvcc k s caller cur rb ttl c :
  wf (EDB mvcc) -> 0 <= s < lockVer -> 0 <= caller < MaxUint64 -> u64 cur -> 0 <= c <= caller ->
  (CheckTxnStatus mvcc k s caller cur rb).1 = MkTxnStatus ttl 0 CausetAction_MinCommitTSPushed None ->
  exists m, caller < m /\
    (Commit (CheckTxnStatus mvcc k s caller cur rb).2 [k] s c).1 =
      Some (ErrCommitTSExpired s c k m).
Proof.
  intros W Hs Hcl Hcur Hc E. destruct (rep_exists _ W) as (st & R).
  destruct (CheckTxnStatus_outcome mvcc st k s caller cur rb R Hs) as [E1 R1];
    [unfold u64, u64_mod, MaxUint64 in *; lia|done|].
  set (mvcc' := (CheckTxnStatus mvcc k s caller cur rb).2) in *. rewrite E in E1.
  destruct pushed_distinct as (N1 & N2 & N3).
  assert (exists l, own_lock (apply_lops (a_status st k s caller cur rb).2 st) k s = Some l /\
            caller < lock_minCommitTS l) as (l & El & Ll).
  { revert E1 R1. unfold a_status. destruct (own_lock st k s) as [l|] eqn:El.
    - destruct (lock_expired l cur); [by intros [= _ Ea]|].
      rewrite (proj2 (Z.eqb_neq _ _)) by lia.
      destruct (Z.ltb_spec 0 (lock_minCommitTS l)); [|by intros [= _ Ea]].
      intros _ _. cbn [snd]. destruct (Z.ltb_spec (lock_minCommitTS l) (caller + 1)).
      + exists (push_min l (Z.max (caller + 1) cur)). split; [|cbn; lia].
        assert (a_lock (apply_lops [PutLock k (push_min l (Z.max (caller + 1) cur))] st) k =
          Some (push_min l (Z.max (caller + 1) cur))) as Kl by apply lookup_insert_eq.
        unfold own_lock in *. rewrite Kl. cbn. destruct (a_lock st k) as [l'|]; [|done].
        destruct (lock_startTS l' =? s) eqn:Es; [|done]. injection El as ->. by rewrite Es.
      + exists l. split; [done|lia].
    - destruct (a_info (a_vers st k) s) as [v|]; [destruct (is_rollback v)|destruct rb];
        intros E1; by inversion E1. }
  exists (lock_minCommitTS l). split; [done|].
  rewrite Commit_write, (Commit_loop_refines _ _ _ _ _ _ R1). cbn [collect].
  assert (a_commitKey (apply_lops (a_status st k s caller cur rb).2 st) s c k =
    Err (ErrCommitTSExpired s c k (lock_minCommitTS l))) as ->; [|done].
  unfold a_commitKey. rewrite El. by rewrite (proj2 (Z.ltb_lt _ _)) by lia.
Qed.

End safety.
