(* ===== verification/MvccProtocol.v ===== *)
(** * The transaction protocol: invariants of every reachable store

    A store starts empty and serves transaction requests in any order.  The
    clients keep the obligations of the protocol: start and commit timestamps
    are distinct, a commit timestamp belongs to one transaction and is larger
    than its start and than the timestamps it locks at.  Then in every
    reachable store a transaction has at most one record on a key, and none
    where it holds a lock. *)

From stdpp Require Import base gmap list sorting strings relations.
From Stdlib Require Import Strings.Byte ZArith Lia Sorted.
From S2P Require Import Prelude External Marshal Mvcc MvccOps MvccView MvccRead MvccScan MvccSpec MvccTxn MvccLock MvccStatus MvccGC MvccEffects MvccSafety.
Open Scope Z_scope.

Section protocol.
Context `{CodecLaws} `{LevelDBLaws} `{KvrpcpbLaws} `{Oracle} `{Deadlock}.

(** The start timestamps, and the transaction of each commit timestamp. *)
Context (start_ts : Z -> Prop) (owner : Z -> Z).

(** ** The invariant of a key *)

Definition rec_inv (v : mvccValue) : Prop :=
  if is_rollback v
  then val_commitTS v = val_startTS v /\ start_ts (val_startTS v)
  else ~ start_ts (val_commitTS v) /\ owner (val_commitTS v) = val_startTS v /\
       val_startTS v < val_commitTS v.

(** No version of the transaction that started at [s]. *)
Definition no_record (vs : list mvccValue) (s : Z) : Prop := Forall (fun v => val_startTS v <> s) vs.

Record key_inv (ks : option mvccLock * list mvccValue) : Prop := {
  ki_rec : Forall rec_inv ks.2;
  ki_unique v w : v ∈ ks.2 -> w ∈ ks.2 -> val_startTS v = val_startTS w -> v = w;
  ki_lock l : ks.1 = Some l -> no_record ks.2 (lock_startTS l);
}.

Definition inv (st : astore) : Prop := forall k, key_inv (kstate st k).

(** ** Steps of a key *)

(** What a request may do to a key: lock or unlock it, add the only record of
    a transaction, and, for a collection, drop versions. *)
Inductive key_step (gc : bool) :
    option mvccLock * list mvccValue -> option mvccLock * list mvccValue -> Prop :=
| ks_same s : key_step gc s s
| ks_lock lo vs l : no_record vs (lock_startTS l) -> key_step gc (lo, vs) (Some l, vs)
| ks_unlock lo vs : key_step gc (lo, vs) (None, vs)
| ks_record lo lo' vs v :
    rec_inv v -> no_record vs (val_startTS v) ->
    (forall l, lo' = Some l -> lo = Some l /\ lock_startTS l <> val_startTS v) ->
    key_step gc (lo, vs) (lo', insert_version v vs)
| ks_collect lo vs us :
    gc = true -> (forall v, v ∈ us -> v ∈ vs) -> key_step gc (lo, vs) (lo, us).

Lemma elem_of_insert_weak v vs w : w ∈ insert_version v vs -> w = v \/ w ∈ vs.
Proof.
  induction vs as [|u vs IH]; simpl; [rewrite list_elem_of_singleton; auto|].
  repeat case_match; rewrite ?elem_of_cons; tauto.
Qed.

Lemma key_step_inv gc s s' : key_step gc s s' -> key_inv s -> key_inv s'.
Proof.
  intros St [Hr Hu Hl].
  destruct St as [s|lo vs l N|lo vs|lo lo' vs v Hv N Hlo|lo vs us _ S]; cbn [fst snd] in *;
    unfold no_record in *.
  - done.
  - split; cbn [fst snd]; [done|done|]. by intros l' [= <-].
  - by split.
  - rewrite Forall_forall in Hr, N. split; cbn [fst snd].
    + apply Forall_forall. intros w Hw. apply elem_of_insert_weak in Hw as [->|Hw]; [done|by apply Hr].
    + intros w1 w2 H1' H2' E. apply elem_of_insert_weak in H1' as [->|H1'], H2' as [->|H2']; try done.
      * by destruct (N _ H2').
      * by destruct (N _ H1').
      * by apply Hu.
    + intros l El. destruct (Hlo l El) as [El' Nl]. specialize (Hl l El').
      rewrite Forall_forall in Hl. apply Forall_forall. intros w Hw.
      apply elem_of_insert_weak in Hw as [->|Hw]; [done|by apply Hl].
  - split; cbn [fst snd]; [|by auto|].
    + rewrite Forall_forall in Hr |- *. auto.
    + intros l El. specialize (Hl l El). rewrite Forall_forall in Hl. apply Forall_forall. auto.
Qed.

(** Records of different transactions have different timestamps. *)
Lemma rec_inv_distinct v w :
  rec_inv v -> rec_inv w -> val_startTS v <> val_startTS w -> val_commitTS v <> val_commitTS w.
Proof.
  unfold rec_inv. intros Hv Hw N E. destruct (is_rollback v), (is_rollback w).
  - destruct Hv as [A _], Hw as [B _]. congruence.
  - destruct Hv as [A Sv], Hw as [B _]. rewrite <- E, A in B. done.
  - destruct Hv as [A _], Hw as [B Sw]. rewrite E, B in A. done.
  - destruct Hv as (_ & A & _), Hw as (_ & B & _). congruence.
Qed.

(** Outside a collection no record is lost or changed. *)
Lemma key_step_durable s s' v :
  key_step false s s' -> key_inv s -> StronglySorted ver_gt s.2 -> v ∈ s.2 -> v ∈ s'.2.
Proof.
  intros St [Hr _ _] S Hv.
  destruct St as [s|lo vs l N|lo vs|lo lo' vs w Hw N Hlo|lo vs us [=] _]; cbn [fst snd] in *; try done.
  apply elem_of_insert_version; [done|]. right. split; [done|].
  unfold no_record in N. rewrite Forall_forall in Hr, N. apply rec_inv_distinct; auto.
Qed.

(** ** What the obligations say of an operation *)

Definition commit_allowed (s c : Z) : Prop :=
  0 <= c < lockVer /\ ~ start_ts c /\ owner c = s /\ s < c.

Definition rollback_allowed (s : Z) : Prop := 0 <= s < lockVer /\ start_ts s.

Lemma a_info_none vs s : a_info vs s = None -> no_record vs s.
Proof.
  intros E. apply Forall_forall. intros v Hv Es. apply list_elem_of_In in Hv.
  pose proof (List.find_none _ _ E _ Hv) as N. simpl in N. rewrite Es, Z.eqb_refl in N. done.
Qed.

Lemma commit_val_inv l s c : commit_allowed s c -> rec_inv (commit_val l s c).
Proof.
  intros (_ & Hc & Ho & L). unfold rec_inv.
  assert (is_rollback (commit_val l s c) = false) as ->
    by (unfold is_rollback, commit_val, commit_type; cbn; by repeat case_match).
  done.
Qed.

Lemma rollback_val_inv s : start_ts s -> rec_inv (rollback_val s).
Proof. done. Qed.

(** Committing and rolling back the lock of a transaction. *)
Lemma key_step_commit gc l vs c :
  key_inv (Some l, vs) -> commit_allowed (lock_startTS l) c ->
  key_step gc (Some l, vs) (None, insert_version (commit_val l (lock_startTS l) c) vs).
Proof. intros I Hc. apply ks_record; [by apply commit_val_inv|by apply (ki_lock _ I)|done]. Qed.

Lemma key_step_rollback gc l vs :
  key_inv (Some l, vs) -> start_ts (lock_startTS l) ->
  key_step gc (Some l, vs) (None, insert_version (rollback_val (lock_startTS l)) vs).
Proof. intros I Hc. apply ks_record; [by apply rollback_val_inv|by apply (ki_lock _ I)|done]. Qed.

Lemma key_step_rollback_absent gc st k s :
  own_lock st k s = None -> a_info (a_vers st k) s = None -> start_ts s ->
  key_step gc (kstate st k) (a_lock st k, insert_version (rollback_val s) (a_vers st k)).
Proof.
  intros El Ei Hs. apply ks_record; [by apply rollback_val_inv|by apply a_info_none|].
  intros l E. split; [done|]. unfold own_lock in El. rewrite E in El.
  by destruct (Z.eqb_spec (lock_startTS l) s).
Qed.

(** Every key makes a step from the abstract state to the one of [db']. *)
Definition simulated (gc : bool) (st : astore) (db' : DB) : Prop :=
  exists st', rep db' st' /\ forall k, key_step gc (kstate st k) (kstate st' k).

Lemma simulated_same gc st db : rep db st -> simulated gc st db.
Proof. intros R. exists st. split; [done|]. intros k. apply ks_same. Qed.

(** ** The requests *)

Lemma own_lock_kstate st k s l :
  own_lock st k s = Some l -> kstate st k = (Some l, a_vers st k) /\ lock_startTS l = s.
Proof. intros E. apply own_lock_lock in E as [E Es]. unfold kstate. by rewrite E. Qed.

Lemma Commit_simulated mvcc st keys s c :
  rep (EDB mvcc) st -> inv st -> commit_allowed s c ->
  simulated false st (EDB (Commit mvcc keys s c).2).
Proof.
  intros R I Hc. pose proof Hc as [Hr _].
  destruct (Commit mvcc keys s c).1 as [e|] eqn:E.
  - pose proof (Commit_outcome mvcc st keys s c R Hr) as O.
    destruct (collect _ _); destruct O as [O1 O2]; [congruence|]. rewrite O2.
    by apply simulated_same.
  - destruct (Commit_kstate mvcc st keys s c R Hr E) as (st' & R' & _ & K).
    exists st'. split; [done|]. intros k. rewrite K. case_decide; [|apply ks_same].
    unfold commit_kstate. destruct (own_lock st k s) as [l|] eqn:El; [|apply ks_same].
    apply own_lock_kstate in El as [El <-]. specialize (I k). rewrite El in *.
    by apply key_step_commit.
Qed.

Lemma Rollback_simulated mvcc st keys s :
  rep (EDB mvcc) st -> inv st -> rollback_allowed s ->
  simulated false st (EDB (Rollback mvcc keys s).2).
Proof.
  intros R I [Hr Hs]. destruct (Rollback mvcc keys s).1 as [e|] eqn:E.
  - pose proof (Rollback_outcome mvcc st keys s R Hr) as O.
    destruct (collect _ _); destruct O as [O1 O2]; [congruence|]. rewrite O2.
    by apply simulated_same.
  - destruct (Rollback_kstate mvcc st keys s R Hr E) as (st' & R' & _ & K).
    exists st'. split; [done|]. intros k. rewrite K. case_decide; [|apply ks_same].
    unfold rollback_kstate. destruct (own_lock st k s) as [l|] eqn:El.
    + apply own_lock_kstate in El as [El <-]. specialize (I k). rewrite El in *.
      by apply key_step_rollback.
    + destruct (a_info (a_vers st k) s) eqn:Ei; [apply ks_same|]. by apply key_step_rollback_absent.
Qed.

(** Records of one key, as a batch: the others do not change. *)
Lemma simulated_one gc st db' b k :
  rep db' (apply_lops b st) -> Forall (fun op => lop_key op = k) b ->
  key_step gc (kstate st k) (ksteps b (kstate st k)) -> simulated gc st db'.
Proof.
  intros R' F St. exists (apply_lops b st). split; [done|]. intros k'.
  rewrite kstate_apply. unfold key_ops. rewrite Forall_forall in F.
  destruct (decide (k = k')) as [<-|N].
  - rewrite list_filter_all by done. done.
  - rewrite list_filter_none; [apply ks_same|]. intros op Hop. by rewrite (F op Hop).
Qed.

Lemma rollback_ops_simulated st db' k s l :
  inv st -> own_lock st k s = Some l -> start_ts s ->
  rep db' (apply_lops (rollback_ops k s) st) -> simulated false st db'.
Proof.
  intros I El Hs R'. apply (simulated_one false st db' (rollback_ops k s) k R').
  - repeat constructor.
  - apply own_lock_kstate in El as [El <-]. specialize (I k). rewrite El in *.
    cbn. by apply key_step_rollback.
Qed.

Lemma Cleanup_simulated mvcc st k s cur :
  rep (EDB mvcc) st -> inv st -> rollback_allowed s ->
  simulated false st (EDB (Cleanup mvcc k s cur).2).
Proof.
  intros R I [Hr Hs]. pose proof (Cleanup_outcome mvcc st k s cur R Hr) as O.
  unfold a_cleanup in O. destruct (own_lock st k s) as [l|] eqn:El.
  - destruct ((cur =? 0) || lock_expired l cur); destruct O as [_ O].
    + by eapply rollback_ops_simulated.
    + rewrite O. by apply simulated_same.
  - destruct (a_info (a_vers st k) s) as [v|]; [destruct (is_rollback v)|];
      destruct O as [_ O]; try (by apply simulated_same); rewrite O; by apply simulated_same.
Qed.

Lemma CheckTxnStatus_simulated mvcc st k s caller cur rb :
  rep (EDB mvcc) st -> inv st -> rollback_allowed s -> u64 caller -> u64 cur ->
  simulated false st (EDB (CheckTxnStatus mvcc k s caller cur rb).2).
Proof.
  intros R I [Hr Hs] Hcl Hcur.
  destruct (CheckTxnStatus_outcome mvcc st k s caller cur rb R Hr Hcl Hcur) as [_ R'].
  revert R'. unfold a_status. destruct (own_lock st k s) as [l|] eqn:El.
  - destruct (lock_expired l cur); [by eapply rollback_ops_simulated|].
    repeat case_match; cbn [snd]; intros R'; try by apply simulated_same.
    eapply (simulated_one _ _ _ _ k R'); [by repeat constructor|].
    apply own_lock_kstate in El as [El <-]. specialize (I k). rewrite El in *.
    cbn. apply ks_lock. exact (ki_lock _ I l eq_refl).
  - destruct (a_info (a_vers st k) s) as [v|] eqn:Ei; [destruct (is_rollback v)|destruct rb];
      cbn [snd]; intros R'; try by apply simulated_same.
    eapply (simulated_one _ _ _ _ k R'); [by repeat constructor|].
    by apply key_step_rollback_absent.
Qed.

Lemma TxnHeartBeat_simulated mvcc st k s ttl :
  rep (EDB mvcc) st -> inv st -> u64 ttl ->
  simulated false st (EDB (TxnHeartBeat mvcc k s ttl).2).
Proof.
  intros R I Ht. pose proof (TxnHeartBeat_outcome mvcc st k s ttl R Ht) as O.
  destruct (a_heartbeat st k s ttl) as [r b] eqn:Eh. destruct O as [_ R'].
  revert Eh. unfold a_heartbeat. destruct (own_lock st k s) as [l|] eqn:El.
  - repeat case_match; intros [= <- <-]; try by apply simulated_same.
    eapply (simulated_one _ _ _ _ k R'); [by repeat constructor|].
    apply own_lock_kstate in El as [El <-]. specialize (I k). rewrite El in *.
    cbn. apply ks_lock. exact (ki_lock _ I l eq_refl).
  - intros [= <- <-]. by apply simulated_same.
Qed.

(** *** Locking requests *)

(** The records lock keys for transactions without a record there. *)
Definition safe_locks (st : astore) (b : list lop) : Prop :=
  Forall (fun op => exists k l, op = PutLock k l /\ no_record (a_vers st k) (lock_startTS l)) b.

Lemma ksteps_safe st k b lo :
  safe_locks st b -> exists lo', ksteps (key_ops k b) (lo, a_vers st k) = (lo', a_vers st k) /\
    (lo' = lo \/ exists l, lo' = Some l /\ no_record (a_vers st k) (lock_startTS l)).
Proof.
  intros F. revert lo. induction F as [|op b (k' & l & -> & N) F IH]; intros lo.
  { exists lo. split; [done|by left]. }
  unfold key_ops in *. rewrite filter_cons. case_decide as E; [|apply IH]. cbn [lop_key] in E.
  subst k'. destruct (IH (Some l)) as (lo' & E' & Hlo). exists lo'. split; [exact E'|].
  destruct Hlo as [->|Hlo]; right; [by exists l|done].
Qed.

Lemma safe_locks_simulated gc st db' b :
  rep db' (apply_lops b st) -> safe_locks st b -> simulated gc st db'.
Proof.
  intros R' F. exists (apply_lops b st). split; [done|]. intros k. rewrite kstate_apply.
  destruct (ksteps_safe st k b (a_lock st k) F) as (lo' & E & Hlo). unfold kstate. rewrite E.
  destruct Hlo as [->|(l & -> & N)]; [apply ks_same|by apply ks_lock].
Qed.

(** A passed conflict check leaves no record of the transaction on the key. *)
Lemma a_check_no_record db st k m forTS s gv r :
  rep db st -> inv st -> (forall c, ~ start_ts c -> owner c = s -> forTS < c) ->
  a_check (a_vers st k) m forTS s gv = Ok r -> no_record (a_vers st k) s.
Proof.
  intros R I Hf E. apply a_check_ok in E as [F Nr]; [|by eapply rep_sorted].
  destruct (I k) as [Hr _ _]. cbn [snd kstate] in Hr. rewrite Forall_forall in F, Hr.
  apply Forall_forall. intros v Hv Es. specialize (F v Hv). specialize (Hr v Hv).
  unfold rec_inv in Hr. destruct (is_rollback v) eqn:Ev.
  - destruct Hr as [Ec _]. assert (rolled_back (a_vers st k) s = true) as A; [|congruence].
    apply existsb_exists. exists v. split; [by apply list_elem_of_In|].
    rewrite Ev, Ec, Es. apply Z.eqb_refl.
  - destruct Hr as (Hn & Ho & _). specialize (Hf _ Hn). rewrite Ho in Hf. specialize (Hf Es). lia.
Qed.

Lemma safe_lock_one st k l :
  no_record (a_vers st k) (lock_startTS l) -> safe_locks st [PutLock k l].
Proof. intros N. constructor; [|constructor]. by exists k, l. Qed.

(** The commit timestamps of a transaction are above its start. *)
Definition commits_above (s forTS : Z) : Prop := forall c, ~ start_ts c -> owner c = s -> forTS < c.

Lemma Prewrite_simulated mvcc st req errs mvcc' :
  rep (EDB mvcc) st -> inv st -> prewrite_ok req ->
  commits_above (pw_StartVersion req) (pw_StartVersion req) ->
  Prewrite mvcc req = Some (errs, mvcc') -> simulated false st (EDB mvcc').
Proof.
  intros R I P Hc E. pose proof (Prewrite_outcome mvcc st req R P) as O.
  destruct (a_prewrite st req 0 (pw_Mutations req)) as [[errs' b]|] eqn:Ea; [|congruence].
  destruct O as (m' & E' & O). rewrite E in E'. injection E' as <- <-.
  destruct (existsb is_err errs); [subst mvcc'; by apply simulated_same|]. destruct O as [_ R'].
  apply (safe_locks_simulated _ _ _ _ R'). eapply a_prewrite_Forall; [|exact Ea].
  intros m isPess r _. unfold a_prewriteMutation. destruct (a_lock st (m_Key m)) as [l|] eqn:El.
  - destruct (Z.eqb_spec (lock_startTS l) (pw_StartVersion req)) as [Es|]; [|done]. cbn [negb].
    destruct (_ =? Op_PessimisticLock); cbn [negb]; intros [= <-]; [|constructor].
    apply safe_lock_one. cbn. rewrite <- Es. apply (ki_lock _ (I (m_Key m))). by rewrite <- El.
  - destruct isPess; [done|]. destruct (a_check _ _ _ _ _) eqn:Ec; [|done]. intros [= <-].
    apply safe_lock_one. cbn. by eapply a_check_no_record.
Qed.

Lemma PessimisticLock_simulated mvcc st req :
  rep (EDB mvcc) st -> inv st -> pess_ok (req_ctx req) ->
  commits_above (pl_StartVersion req) (pl_ForUFIDelateTs req) ->
  simulated false st (EDB (PessimisticLock mvcc req).2).
Proof.
  intros R I P Hc. pose proof (PessimisticLock_outcome mvcc st req R P) as O.
  destruct (a_pessLock _ _ _ _ _) as [errs [[b lctx] det]] eqn:Ea.
  destruct (PessimisticLock mvcc req) as [resp mvcc']. destruct O as [_ O]. cbn [snd].
  destruct (existsb is_err errs); destruct O as [_ O]; [rewrite O; by apply simulated_same|].
  apply (safe_locks_simulated _ _ _ _ O).
  eapply (a_pessLock_Forall _ (fun lctx => commits_above (lc_startTS lctx) (lc_forUFIDelateTS lctx)));
    [|refine (_ : (fun lctx => commits_above (lc_startTS lctx) (lc_forUFIDelateTS lctx)) (req_ctx req));
      exact Hc|exact Ea].
  clear - R I. intros det lctx m err r lctx' det' Q. unfold a_pessMutation.
  destruct (a_lock st (m_Key m)) as [l|].
  - destruct (_ =? _); [intros [= _ <- <- _]; split; [constructor|done]|].
    destruct (Detect _ _ _ _). intros [= _ <- <- _]. split; [constructor|done].
  - destruct (a_check _ _ _ _ _) eqn:Ec; intros [= _ <- <- _].
    + split; [|unfold add_value; by destruct (lc_returnValues lctx)].
      apply safe_lock_one. cbn. by eapply a_check_no_record.
    + split; [constructor|done].
Qed.

Lemma PessimisticRollback_simulated mvcc st keys s f :
  rep (EDB mvcc) st -> simulated false st (EDB (PessimisticRollback mvcc keys s f).2).
Proof.
  intros R. destruct (PessimisticRollback_outcome mvcc st keys s f R) as (mvcc' & -> & R').
  exists (apply_lops (pess_rollback_ops st s f keys) st). split; [done|]. intros k.
  set (g := fun k => if pess_locked st s f k then [DelLock k] else []).
  change (pess_rollback_ops st s f keys) with (keys ≫= g). rewrite kstate_blocks; unfold g.
  - destruct (decide (k ∈ keys)), (pess_locked st s f k); first [apply ks_unlock|apply ks_same].
  - intros k' op Hop. destruct (pess_locked st s f k'); [|by inversion Hop].
    by apply list_elem_of_singleton in Hop as ->.
  - intros [lo vs]. by destruct (pess_locked st s f k).
Qed.

(** *** Range requests *)

(** The decisions about transactions keep the obligations. *)
Definition decisions_allowed (f : Z -> option Z) : Prop :=
  forall t c, f t = Some c -> if 0 <? c then commit_allowed t c else rollback_allowed t.

Lemma decisions_allowed_ok f : decisions_allowed f -> decisions_ok f.
Proof.
  intros D t c E. specialize (D t c E). destruct (0 <? c); [destruct D as [[] _]|destruct D as [[] _]]; done.
Qed.

Lemma a_resolve_simulated st db' f ks :
  inv st -> decisions_allowed f -> rep db' (apply_lops (a_resolve st f ks) st) ->
  simulated false st db'.
Proof.
  intros I D R'. exists (apply_lops (a_resolve st f ks) st). split; [done|]. intros k.
  unfold a_resolve. rewrite (kstate_blocks (fun k => resolve_ops f k (a_lock st k))).
  - case_decide; [|apply ks_same]. unfold resolve_ops. specialize (I k). unfold kstate in *.
    destruct (a_lock st k) as [l|]; [|apply ks_same].
    destruct (f (lock_startTS l)) as [c|] eqn:Ef; [|apply ks_same]. specialize (D _ _ Ef).
    destruct (0 <? c); cbn; [by apply key_step_commit|]. destruct D. by apply key_step_rollback.
  - intros k' op. unfold resolve_ops, commit_ops, rollback_ops.
    repeat case_match; cbn; rewrite ?elem_of_cons; try by inversion 1.
    all: intros [->|[->|Hop]]; [done|done|by inversion Hop].
  - apply resolve_ops_idem.
Qed.

Lemma gc_kept_subset sp keep vs v : v ∈ gc_kept sp keep vs -> v ∈ vs.
Proof.
  revert keep. induction vs as [|w vs IH]; intros keep; simpl; [done|].
  repeat case_match; rewrite ?elem_of_cons; intros Hv;
    first [destruct Hv as [->|Hv]; [by left|]|idtac]; right; by eapply IH.
Qed.

Lemma GC_simulated mvcc st s e sp :
  rep (EDB mvcc) st -> simulated true st (EDB (GC mvcc s e sp).2).
Proof.
  intros R. pose proof (GC_kstate mvcc st s e sp R) as G.
  destruct (GC mvcc s e sp).1 as [er|].
  - destruct G as (_ & -> & _). by apply simulated_same.
  - destruct G as (st' & R' & Hk). exists st'. split; [done|]. intros k. specialize (Hk k).
    case_decide; [destruct Hk as [_ ->]|rewrite Hk; apply ks_same].
    apply ks_collect; [done|]. intros v. apply gc_kept_subset.
Qed.

(** ** Reachable stores *)

(** A request served by the store, with what its client must respect; [gc]
    tells a garbage collection from the requests of transactions. *)
Inductive step (gc : bool) (mvcc : MVCCLevelDB) : MVCCLevelDB -> Prop :=
| step_prewrite req errs mvcc' :
    prewrite_ok req -> commits_above (pw_StartVersion req) (pw_StartVersion req) ->
    Prewrite mvcc req = Some (errs, mvcc') -> step gc mvcc mvcc'
| step_pessimistic_lock req :
    pess_ok (req_ctx req) -> commits_above (pl_StartVersion req) (pl_ForUFIDelateTs req) ->
    step gc mvcc (PessimisticLock mvcc req).2
| step_pessimistic_rollback keys s f : step gc mvcc (PessimisticRollback mvcc keys s f).2
| step_commit keys s c : commit_allowed s c -> step gc mvcc (Commit mvcc keys s c).2
| step_rollback keys s : rollback_allowed s -> step gc mvcc (Rollback mvcc keys s).2
| step_cleanup k s cur : rollback_allowed s -> step gc mvcc (Cleanup mvcc k s cur).2
| step_check_txn_status k s caller cur rb :
    rollback_allowed s -> u64 caller -> u64 cur ->
    step gc mvcc (CheckTxnStatus mvcc k s caller cur rb).2
| step_heart_beat k s ttl : u64 ttl -> step gc mvcc (TxnHeartBeat mvcc k s ttl).2
| step_resolve_lock s e t c :
    (if 0 <? c then commit_allowed t c else rollback_allowed t) ->
    step gc mvcc (ResolveLock mvcc s e t c).2
| step_batch_resolve_lock s e (infos : gmap Z Z) :
    decisions_allowed (fun t => infos !! t) -> step gc mvcc (BatchResolveLock mvcc s e infos).2
| step_gc s e sp : gc = true -> step gc mvcc (GC mvcc s e sp).2.

Inductive reachable : MVCCLevelDB -> Prop :=
| reachable_init db det : contents db = ∅ -> reachable (MkStore db det)
| reachable_step gc mvcc mvcc' : reachable mvcc -> step gc mvcc mvcc' -> reachable mvcc'.

Lemma simulated_weaken gc st db : simulated false st db -> simulated gc st db.
Proof.
  intros (st' & R & K). exists st'. split; [done|]. intros k.
  destruct (K k) as [s|lo vs l N|lo vs|lo lo' vs v Hv N Hlo|lo vs us [=] _];
    by econstructor.
Qed.

Lemma step_simulated gc mvcc mvcc' st :
  rep (EDB mvcc) st -> inv st -> step gc mvcc mvcc' -> simulated gc st (EDB mvcc').
Proof.
  intros R I S. destruct S as [req errs mvcc'| | | | | | | |s e t c Hc|s e infos D|s e sp Hg];
    [apply simulated_weaken..|].
  - by eapply Prewrite_simulated.
  - by apply PessimisticLock_simulated.
  - by apply PessimisticRollback_simulated.
  - by apply Commit_simulated.
  - by apply Rollback_simulated.
  - by apply Cleanup_simulated.
  - by apply CheckTxnStatus_simulated.
  - by apply TxnHeartBeat_simulated.
  - assert (decisions_allowed (fun t' => if t' =? t then Some c else None)) as D.
    { intros t' c'. destruct (Z.eqb_spec t' t) as [->|]; [|done]. by intros [= <-]. }
    destruct (ResolveLock_outcome mvcc st s e t c R) as (ks & _ & _ & R');
      [by apply decisions_allowed_ok|]. by eapply a_resolve_simulated.
  - destruct (BatchResolveLock_outcome mvcc st s e infos R) as (ks & _ & _ & R');
      [by apply decisions_allowed_ok|]. by eapply a_resolve_simulated.
  - subst gc. by apply GC_simulated.
Qed.

Lemma rep_init db : contents db = ∅ -> rep db (MkAStore ∅ ∅).
Proof.
  intros E. split.
  - intros rk rv Er. rewrite E in Er. by rewrite lookup_empty in Er.
  - intros k. unfold lock_at. by rewrite E, lookup_empty.
  - intros k. split; [constructor|]. intros v. split; [by inversion 1|].
    unfold write_at. case_decide; [|done]. by rewrite E, lookup_empty.
Qed.

Lemma reachable_inv mvcc : reachable mvcc -> exists st, rep (EDB mvcc) st /\ inv st.
Proof.
  induction 1 as [db det E|gc mvcc mvcc' _ (st & R & I) S].
  - exists (MkAStore ∅ ∅). split; [by apply rep_init|]. intros k. split; cbn; [constructor|..].
    + intros v w Hv. by inversion Hv.
    + intros l. unfold a_lock. cbn. by rewrite lookup_empty.
  - destruct (step_simulated gc mvcc mvcc' st R I S) as (st' & R' & K).
    exists st'. split; [done|]. intros k. by eapply key_step_inv.
Qed.

(** C1: In every reachable store a transaction has at most one record on a
    key: it is never both committed and rolled back there, nor committed
    twice; and it has no record where it holds a lock. *)
Theorem reachable_one_record mvcc k :
  reachable mvcc ->
  (forall c c' v v', write_at (EDB mvcc) k c = Some v -> write_at (EDB mvcc) k c' = Some v' ->
     val_startTS v = val_startTS v' -> c = c' /\ v = v') /\
  (forall l c v, lock_at (EDB mvcc) k = Some l -> write_at (EDB mvcc) k c = Some v ->
     val_startTS v <> lock_startTS l).
Proof.
  intros Hr. destruct (reachable_inv mvcc Hr) as (st & R & I). destruct (I k) as [_ Hu Hl].
  cbn [fst snd kstate] in Hu, Hl. split.
  - intros c c' v v' Hv Hv' E. apply (rep_write_at _ _ _ _ _ R) in Hv as [Hv <-], Hv' as [Hv' <-].
    by rewrite (Hu v v' Hv Hv' E).
  - intros l c v El Hv. rewrite (rep_lock _ _ R) in El. specialize (Hl l El).
    apply (rep_write_at _ _ _ _ _ R) in Hv as [Hv _]. unfold no_record in Hl.
    rewrite Forall_forall in Hl. by apply Hl.
Qed.

(** C2: No request of a transaction, whatever its outcome, loses or changes a
    committed version or a rollback record of a reachable store: only garbage
    collection does. *)
Theorem reachable_durable mvcc mvcc' k c v :
  reachable mvcc -> step false mvcc mvcc' ->
  write_at (EDB mvcc) k c = Some v -> write_at (EDB mvcc') k c = Some v.
Proof.
  intros Hr S Hv. destruct (reachable_inv mvcc Hr) as (st & R & I).
  destruct (step_simulated false mvcc mvcc' st R I S) as (st' & R' & K).
  destruct (proj1 (rep_write_at (EDB mvcc) st k c v R) Hv) as [Hv' <-].
  apply (rep_write_at _ _ _ _ _ R'). split; [|done]. change (v ∈ (kstate st' k).2).
  eapply (key_step_durable (kstate st k)); [apply K|apply I| |done].
  by eapply rep_sorted.
Qed.

End protocol.
