(* ===== verification/Cluster.v ===== *)
(** * The region metadata of the mock cluster (mockeinsteindb/cluster.go)

    A cluster maps region identifiers to regions and store identifiers to
    stores.  Go visits a map in an unspecified order: [range_regions] and
    [range_stores] stand for the order of one visit and are only known to
    enumerate the map.  [None] is a panic. *)

From stdpp Require Import base gmap list sorting strings.
From Stdlib Require Import Strings.Byte ZArith Lia Sorted.
From S2P Require Import Prelude External Marshal Mvcc MvccOps.
Open Scope Z_scope.

(** ** Data: the metapb records and the cluster *)

Record Peer : Type := MkPeer {
  peer_Id : Z;
  peer_StoreId : Z;
}.

Record RegionEpoch : Type := MkEpoch {
  ConfVer : Z;
  Version : Z;
}.

Record RegionMeta : Type := MkRegionMeta {
  rm_Id : Z;
  rm_StartKey : bytes;
  rm_EndKey : bytes;
  rm_RegionEpoch : option RegionEpoch;
  rm_Peers : list Peer;
}.

Record Region : Type := MkRegion {
  Meta : RegionMeta;
  leader : Z;
}.

Record StoreMeta : Type := MkStoreMeta {
  sm_Id : Z;
  sm_Address : string;
  sm_State : Z;
  sm_Labels : list (string * string);
}.

Record CausetStore : Type := MkCausetStore {
  cs_meta : StoreMeta;
  cs_cancel : bool;
  cs_tokenCount : Z;
}.

(** The states of metapb that the code sets. *)
Class Metapb : Type := {
  StoreState_Up : Z;
  StoreState_Offline : Z;
}.

(** [context.Canceled]. *)
Definition context_Canceled : goerror := ErrExternal "context canceled".

(** ** Regions *)

Definition newPeerMeta (peerID storeID : Z) : Peer := MkPeer peerID storeID.

Definition GetConfVer (e : option RegionEpoch) : Z := match e with Some e => ConfVer e | None => 0 end.
Definition GetVersion (e : option RegionEpoch) : Z := match e with Some e => Version e | None => 0 end.

Definition newRegion (regionID : Z) (storeIDs peerIDs : list Z) (leaderPeerID : Z) : option Region :=
  if decide (length storeIDs = length peerIDs) then
    Some (MkRegion (MkRegionMeta regionID [] [] None (zip_with newPeerMeta peerIDs storeIDs))
            leaderPeerID)
  else None.

Definition set_epoch (r : Region) (e : RegionEpoch) : Region :=
  MkRegion (MkRegionMeta (rm_Id (Meta r)) (rm_StartKey (Meta r)) (rm_EndKey (Meta r)) (Some e)
              (rm_Peers (Meta r))) (leader r).

Definition incConfVer (r : Region) : Region :=
  let e := rm_RegionEpoch (Meta r) in set_epoch r (MkEpoch (u64_add (GetConfVer e) 1) (GetVersion e)).

Definition incVersion (r : Region) : Region :=
  let e := rm_RegionEpoch (Meta r) in set_epoch r (MkEpoch (GetConfVer e) (u64_add (GetVersion e) 1)).

Definition set_peers (r : Region) (ps : list Peer) (l : Z) : Region :=
  MkRegion (MkRegionMeta (rm_Id (Meta r)) (rm_StartKey (Meta r)) (rm_EndKey (Meta r))
              (rm_RegionEpoch (Meta r)) ps) l.

Definition addPeer (r : Region) (peerID storeID : Z) : Region :=
  incConfVer (set_peers r (rm_Peers (Meta r) ++ [newPeerMeta peerID storeID]) (leader r)).

(** The loop stops at the first peer with the identifier. *)
Fixpoint remove_first_peer (peerID : Z) (ps : list Peer) : list Peer :=
  match ps with
  | [] => []
  | p :: ps' => if peer_Id p =? peerID then ps' else p :: remove_first_peer peerID ps'
  end.

Definition removePeer (r : Region) (peerID : Z) : Region :=
  incConfVer (set_peers r (remove_first_peer peerID (rm_Peers (Meta r)))
                (if leader r =? peerID then 0 else leader r)).

Definition changeLeader (r : Region) (leaderID : Z) : Region := MkRegion (Meta r) leaderID.

Definition leaderPeer (r : Region) : option Peer :=
  List.find (fun p => peer_Id p =? leader r) (rm_Peers (Meta r)).

Definition updateKeyRange (r : Region) (start end' : bytes) : Region :=
  incVersion (MkRegion (MkRegionMeta (rm_Id (Meta r)) start end' (rm_RegionEpoch (Meta r))
                          (rm_Peers (Meta r))) (leader r)).

(** The new region, and the old one with its range cut. *)
Definition split (r : Region) (newRegionID : Z) (key : bytes) (peerIDs : list Z) (leaderPeerID : Z)
    : option (Region * Region) :=
  if decide (length (rm_Peers (Meta r)) = length peerIDs) then
    let storeIDs := peer_StoreId <$> rm_Peers (Meta r) in
    region ← newRegion newRegionID storeIDs peerIDs leaderPeerID;
    Some (updateKeyRange region key (rm_EndKey (Meta r)), updateKeyRange r (rm_StartKey (Meta r)) key)
  else None.

Definition merge (r : Region) (endKey : bytes) : Region :=
  incVersion (MkRegion (MkRegionMeta (rm_Id (Meta r)) (rm_StartKey (Meta r)) endKey
                          (rm_RegionEpoch (Meta r)) (rm_Peers (Meta r))) (leader r)).

Definition region_contains (r : Region) (k : bytes) : bool :=
  regionContains (rm_StartKey (Meta r)) (rm_EndKey (Meta r)) k.

Section cluster.
Context `{Codec} `{LevelDB} `{Kvrpcpb} `{Oracle} `{Deadlock} `{Metapb}.

Record Cluster : Type := MkCluster {
  c_id : Z;
  c_stores : gmap Z CausetStore;
  c_regions : gmap Z Region;
  c_mvccStore : MVCCLevelDB;
  c_delayEvents : gmap (Z * Z) Z;
}.

(** The visiting order of a map. *)
Context (range_regions : gmap Z Region -> list (Z * Region)).
Context (range_stores : gmap Z CausetStore -> list (Z * CausetStore)).

Definition set_regions (c : Cluster) (m : gmap Z Region) : Cluster :=
  MkCluster (c_id c) (c_stores c) m (c_mvccStore c) (c_delayEvents c).
Definition set_stores (c : Cluster) (m : gmap Z CausetStore) : Cluster :=
  MkCluster (c_id c) m (c_regions c) (c_mvccStore c) (c_delayEvents c).

Definition NewCluster (mvccStore : MVCCLevelDB) : Cluster := MkCluster 0 ∅ ∅ mvccStore ∅.

Definition allocID (c : Cluster) : Z * Cluster :=
  let id := u64_add (c_id c) 1 in
  (id, MkCluster id (c_stores c) (c_regions c) (c_mvccStore c) (c_delayEvents c)).

Definition AllocID (c : Cluster) : Z * Cluster := allocID c.

Fixpoint AllocIDs (c : Cluster) (n : nat) : list Z * Cluster :=
  match n with
  | O => ([], c)
  | S n' => let '(id, c) := allocID c in let '(ids, c) := AllocIDs c n' in (id :: ids, c)
  end.

Definition GetAllRegions (c : Cluster) : list Region := (range_regions (c_regions c)).*2.

(** ** Stores *)

Definition newStore (storeID : Z) (addr : string) (labels : list (string * string)) : CausetStore :=
  MkCausetStore (MkStoreMeta storeID addr 0 labels) false 0.

Definition GetStore (c : Cluster) (storeID : Z) : option StoreMeta := cs_meta <$> c_stores c !! storeID.

Definition GetAllStores (c : Cluster) : list StoreMeta := cs_meta <$> (range_stores (c_stores c)).*2.

Definition set_state (state : Z) (s : CausetStore) : CausetStore :=
  MkCausetStore (MkStoreMeta (sm_Id (cs_meta s)) (sm_Address (cs_meta s)) state (sm_Labels (cs_meta s)))
    (cs_cancel s) (cs_tokenCount s).
Definition set_cancel (b : bool) (s : CausetStore) : CausetStore :=
  MkCausetStore (cs_meta s) b (cs_tokenCount s).

Definition StopStore (c : Cluster) (storeID : Z) : Cluster :=
  set_stores c (alter (set_state StoreState_Offline) storeID (c_stores c)).
Definition StartStore (c : Cluster) (storeID : Z) : Cluster :=
  set_stores c (alter (set_state StoreState_Up) storeID (c_stores c)).
Definition CancelStore (c : Cluster) (storeID : Z) : Cluster :=
  set_stores c (alter (set_cancel true) storeID (c_stores c)).
Definition UnCancelStore (c : Cluster) (storeID : Z) : Cluster :=
  set_stores c (alter (set_cancel false) storeID (c_stores c)).

Definition GetStoreByAddr (c : Cluster) (addr : string) : option StoreMeta :=
  cs_meta <$> List.find (fun s => String.eqb (sm_Address (cs_meta s)) addr)
                (range_stores (c_stores c)).*2.

Fixpoint GetAndCheckStoreByAddr_loop (ss : list CausetStore) (addr : string) : res (option StoreMeta) :=
  match ss with
  | [] => Ok None
  | s :: ss' =>
      if cs_cancel s then Err context_Canceled
      else if String.eqb (sm_Address (cs_meta s)) addr then Ok (Some (cs_meta s))
      else GetAndCheckStoreByAddr_loop ss' addr
  end.

Definition GetAndCheckStoreByAddr (c : Cluster) (addr : string) : res (option StoreMeta) :=
  GetAndCheckStoreByAddr_loop (range_stores (c_stores c)).*2 addr.

Definition AddStore (c : Cluster) (storeID : Z) (addr : string) : Cluster :=
  set_stores c (<[storeID := newStore storeID addr []]> (c_stores c)).
Definition RemoveStore (c : Cluster) (storeID : Z) : Cluster :=
  set_stores c (delete storeID (c_stores c)).
Definition UpdateStoreAddr (c : Cluster) (storeID : Z) (addr : string)
    (labels : list (string * string)) : Cluster :=
  set_stores c (<[storeID := newStore storeID addr labels]> (c_stores c)).

(** ** Looking regions up *)

Definition GetRegion (c : Cluster) (regionID : Z) : option (RegionMeta * Z) :=
  (fun r => (Meta r, leader r)) <$> c_regions c !! regionID.

Definition meta_and_leader (r : Region) : RegionMeta * option Peer := (Meta r, leaderPeer r).

Definition GetRegionByKey (c : Cluster) (key : bytes) : option (RegionMeta * option Peer) :=
  meta_and_leader <$> List.find (fun r => region_contains r key) (range_regions (c_regions c)).*2.

(** The outer [option] is the panic when no region contains the key. *)
Definition GetPrevRegionByKey (c : Cluster) (key : bytes)
    : option (option (RegionMeta * option Peer)) :=
  '(currentRegion, _) ← GetRegionByKey c key;
  if decide (rm_StartKey currentRegion = []) then Some None
  else Some (meta_and_leader <$>
         List.find (fun r => bool_decide (rm_EndKey (Meta r) = rm_StartKey currentRegion))
           (range_regions (c_regions c)).*2).

Definition GetRegionByID (c : Cluster) (regionID : Z) : option (RegionMeta * option Peer) :=
  meta_and_leader <$> List.find (fun r => rm_Id (Meta r) =? regionID) (range_regions (c_regions c)).*2.

(** *** ScanRegions *)

Definition start_le (r s : Region) : Prop := rm_StartKey (Meta r) <=b rm_StartKey (Meta s).

#[export] Instance start_le_dec r s : Decision (start_le r s).
Proof. unfold start_le. apply _. Defined.

(** [sort.Slice] by the start key; regions with equal start keys would come in
    an unspecified order. *)
Definition sort_regions (rs : list Region) : list Region := merge_sort start_le rs.

Definition at_region (rs : list Region) (P : Region -> bool) (i : nat) : bool :=
  match rs !! i with Some r => P r | None => false end.

Definition ScanRegions (c : Cluster) (startKey endKey : bytes) (limit : Z)
    : list (RegionMeta * Peer) :=
  let regions := sort_regions (range_regions (c_regions c)).*2 in
  let startPos := sort_Search (length regions) (at_region regions (fun r =>
    bool_decide (rm_EndKey (Meta r) = []) || bltb startKey (rm_EndKey (Meta r)))) in
  let regions := drop startPos regions in
  let regions :=
    if decide (endKey = []) then regions
    else
      let endPos := sort_Search (length regions) (at_region regions (fun r =>
        bleb endKey (rm_StartKey (Meta r)))) in
      if decide (0 < endPos)%nat then take endPos regions else regions in
  let regions :=
    if (0 <? limit) && (limit <? Z.of_nat (length regions)) then take (Z.to_nat limit) regions
    else regions in
  (fun r => (Meta r, default (MkPeer 0 0) (leaderPeer r))) <$> regions.

(** ** Changing regions *)

Definition Bootstrap (c : Cluster) (regionID : Z) (storeIDs peerIDs : list Z) (leaderPeerID : Z)
    : option Cluster :=
  r ← newRegion regionID storeIDs peerIDs leaderPeerID;
  Some (set_regions c (<[regionID := r]> (c_regions c))).

(** Run a method on a region of the map; a missing region is a nil pointer. *)
Definition on_region (c : Cluster) (regionID : Z) (f : Region -> Region) : option Cluster :=
  r ← c_regions c !! regionID;
  Some (set_regions c (<[regionID := f r]> (c_regions c))).

Definition AddPeer (c : Cluster) (regionID storeID peerID : Z) : option Cluster :=
  on_region c regionID (fun r => addPeer r peerID storeID).

Definition RemovePeer (c : Cluster) (regionID storeID : Z) : option Cluster :=
  on_region c regionID (fun r => removePeer r storeID).

Definition ChangeLeader (c : Cluster) (regionID leaderPeerID : Z) : option Cluster :=
  on_region c regionID (fun r => changeLeader r leaderPeerID).

Definition GiveUpLeader (c : Cluster) (regionID : Z) : option Cluster := ChangeLeader c regionID 0.

Definition SplitRaw (c : Cluster) (regionID newRegionID : Z) (rawKey : bytes) (peerIDs : list Z)
    (leaderPeerID : Z) : option (RegionMeta * Cluster) :=
  r ← c_regions c !! regionID;
  '(newR, r) ← split r newRegionID rawKey peerIDs leaderPeerID;
  Some (Meta newR, set_regions c (<[newRegionID := newR]> (<[regionID := r]> (c_regions c)))).

Definition Split (c : Cluster) (regionID newRegionID : Z) (key : bytes) (peerIDs : list Z)
    (leaderPeerID : Z) : option Cluster :=
  '(_, c) ← SplitRaw c regionID newRegionID (NewMvccKey key) peerIDs leaderPeerID;
  Some c.

Definition Merge (c : Cluster) (regionID1 regionID2 : Z) : option Cluster :=
  r1 ← c_regions c !! regionID1;
  r2 ← c_regions c !! regionID2;
  Some (set_regions c
          (delete regionID2 (<[regionID1 := merge r1 (rm_EndKey (Meta r2))]> (c_regions c)))).

(** *** Splitting a range *)

Definition firstStoreID (c : Cluster) : Z :=
  match range_stores (c_stores c) with [] => 0 | (id, _) :: _ => id end.

Definition getRegionsCoverRange (c : Cluster) (start end' : bytes) : list (Z * Region) :=
  filter (fun p : Z * Region =>
    let r := p.2 in
    let onRight := bleb end' (rm_StartKey (Meta r)) in
    let onLeft := bleb (rm_EndKey (Meta r)) start && negb (bool_decide (rm_EndKey (Meta r) = [])) in
    ~ (onLeft || onRight = true)) (range_regions (c_regions c)).

Definition put_region (c : Cluster) (id : Z) (r : Region) : Cluster :=
  set_regions c (<[id := r]> (c_regions c)).

(** A fresh region with one peer, on the first store. *)
Definition alloc_region (c : Cluster) (start end' : bytes) : option (Region * Cluster) :=
  let '(peerID, c) := allocID c in
  let '(regionID, c) := allocID c in
  r ← newRegion regionID [firstStoreID c] [peerID] peerID;
  Some (updateKeyRange r start end', c).

(** The visited region [p.2] is the one stored under [p.1]. *)
Definition evacuate_one (start end' : bytes) (c : Cluster) (p : Z * Region) : option Cluster :=
  let oldRegion := p.2 in
  let s := rm_StartKey (Meta oldRegion) in
  let e := rm_EndKey (Meta oldRegion) in
  let endCmp := if decide (e = []) then Gt else bytes_compare e end' in
  let startCmp := bytes_compare s start in
  if (match startCmp with Lt => false | _ => true end) && (match endCmp with Gt => false | _ => true end)
  then Some (set_regions c (delete (rm_Id (Meta oldRegion)) (c_regions c)))
  else if (match startCmp with Lt => true | _ => false end)
          && (match endCmp with Gt => true | _ => false end)
  then
    let c := put_region c p.1 (updateKeyRange oldRegion s start) in
    '(newR, c) ← alloc_region c end' e;
    Some (put_region c (rm_Id (Meta newR)) newR)
  else if (match startCmp with Lt => true | _ => false end)
  then Some (put_region c p.1 (updateKeyRange oldRegion s start))
  else Some (put_region c p.1 (updateKeyRange oldRegion end' e)).

Fixpoint evacuate_loop (start end' : bytes) (c : Cluster) (ps : list (Z * Region)) : option Cluster :=
  match ps with
  | [] => Some c
  | p :: ps' => c ← evacuate_one start end' c p; evacuate_loop start end' c ps'
  end.

Definition evacuateOldRegionRanges (c : Cluster) (start end' : bytes) : option Cluster :=
  evacuate_loop start end' c (getRegionsCoverRange c start end').

Definition MaxInt32 : Z := 2147483647.

(** Chunks of [quotient] pairs, one more in the first [remainder] of them. *)
Fixpoint group_pairs (fuel : nat) (quotient remainder : nat) (pairs : list Pair) : list (list Pair) :=
  match fuel with
  | O => []
  | S fuel' =>
      match pairs with
      | [] => []
      | _ =>
          let n := (if decide (0 < remainder)%nat then S quotient else quotient) in
          take n pairs :: group_pairs fuel' quotient (remainder - 1) (drop n pairs)
      end
  end.

(** A [count] of 0 is a division by zero. *)
Definition getEntriesGroupByRegions (mvccStore : MVCCLevelDB) (start end' : bytes) (count : nat)
    : option (list (list Pair)) :=
  startRaw ← MvccKey_Raw start;
  endRaw ← MvccKey_Raw end';
  let pairs := Scan mvccStore startRaw endRaw MaxInt32 MaxUint64 IsolationLevel_SI [] in
  if decide (count = 0%nat) then None
  else Some (group_pairs (length pairs) (length pairs / count) (length pairs mod count) pairs).

(** The key of [regionPairs[i][0]]; an empty group would be out of range. *)
Definition first_key (g : list Pair) : option bytes :=
  match g with [] => None | p :: _ => Some (NewMvccKey (pair_Key p)) end.

(** Each group starts a region that ends at the first key of the next one;
    [from] is the start key of the first group. *)
Fixpoint createNewRegions_loop (c : Cluster) (regionPairs : list (list Pair)) (from end' : bytes)
    : option Cluster :=
  match regionPairs with
  | [] => Some c
  | g :: gs =>
      regionEndKey ← (match gs with [] => Some end' | g' :: _ => first_key g' end);
      '(newR, c) ← alloc_region c from regionEndKey;
      createNewRegions_loop (put_region c (rm_Id (Meta newR)) newR) gs regionEndKey end'
  end.

Definition createNewRegions (c : Cluster) (regionPairs : list (list Pair)) (start end' : bytes)
    : option Cluster := createNewRegions_loop c regionPairs start end'.

Definition splitRange (c : Cluster) (start end' : bytes) (count : nat) : option Cluster :=
  c ← evacuateOldRegionRanges c start end';
  regionPairs ← getEntriesGroupByRegions (c_mvccStore c) start end' count;
  createNewRegions c regionPairs start end'.

Definition SplitKeys (c : Cluster) (start end' : bytes) (count : nat) : option Cluster :=
  splitRange c (NewMvccKey start) (NewMvccKey end') count.

(** ** Delays *)

Definition ScheduleDelay (c : Cluster) (startTS regionID dur : Z) : Cluster :=
  MkCluster (c_id c) (c_stores c) (c_regions c) (c_mvccStore c)
    (<[(startTS, regionID) := dur]> (c_delayEvents c)).

(** How long the call sleeps, if it does. *)
Definition handleDelay (c : Cluster) (startTS regionID : Z) : option Z * Cluster :=
  match c_delayEvents c !! (startTS, regionID) with
  | Some dur =>
      (Some dur, MkCluster (c_id c) (c_stores c) (c_regions c) (c_mvccStore c)
                   (delete (startTS, regionID) (c_delayEvents c)))
  | None => (None, c)
  end.

(** ** Bootstrapping (cluster_manipulate.go) *)

Context `{GoFmt}.

Definition store_name (storeID : Z) : string := String.append "causetstore" (FormatInt storeID).

Definition BootstrapWithSingleStore (c : Cluster) : option ((Z * Z * Z) * Cluster) :=
  let '(ids, c) := AllocIDs c 3 in
  match ids with
  | [storeID; peerID; regionID] =>
      let c := AddStore c storeID (store_name storeID) in
      c ← Bootstrap c regionID [storeID] [peerID] peerID;
      Some ((storeID, peerID, regionID), c)
  | _ => None
  end.

(** [peerIDs[0]] of no peers is out of range. *)
Definition BootstrapWithMultiStores (c : Cluster) (n : nat)
    : option ((list Z * list Z * Z * Z) * Cluster) :=
  let '(storeIDs, c) := AllocIDs c n in
  let '(peerIDs, c) := AllocIDs c n in
  leaderPeer ← head peerIDs;
  let '(regionID, c) := AllocID c in
  let c := fold_left (fun c storeID => AddStore c storeID (store_name storeID)) storeIDs c in
  c ← Bootstrap c regionID storeIDs peerIDs leaderPeer;
  Some ((storeIDs, peerIDs, regionID, leaderPeer), c).

Fixpoint split_each (c : Cluster) (regionIDs peerIDs : list Z) (splitKeys : list bytes)
    : option Cluster :=
  match splitKeys with
  | [] => Some c
  | k :: ks =>
      match regionIDs, peerIDs with
      | r0 :: (r1 :: _) as rs, p0 :: ps =>
          c ← Split c r0 r1 k [p0] p0; split_each c rs ps ks
      | _, _ => None
      end
  end.

Definition BootstrapWithMultiRegions (c : Cluster) (splitKeys : list bytes)
    : option ((Z * list Z * list Z) * Cluster) :=
  '((storeID, firstPeerID, firstRegionID), c) ← BootstrapWithSingleStore c;
  let '(ids, c) := AllocIDs c (length splitKeys) in
  let regionIDs := firstRegionID :: ids in
  let '(ids, c) := AllocIDs c (length splitKeys) in
  let peerIDs := firstPeerID :: ids in
  c ← split_each c regionIDs peerIDs splitKeys;
  Some ((storeID, regionIDs, peerIDs), c).

End cluster.
