(* ===== verification/ClusterRegions.v ===== *)
(** * Regions partition the key space

    The regions of a cluster cover a set of keys, each key once ([cover]).
    Two lemmas, on setting and on deleting a region, carry the proofs that
    splits, merges and range splits keep every key in exactly one region.  A
    scan of the regions, in the second part, returns those that meet a range. *)

From stdpp Require Import base gmap list sorting strings.
From Stdlib Require Import Strings.Byte ZArith Lia Sorted.
From S2P Require Import Prelude External Marshal Mvcc MvccOps MvccView MvccScan Cluster.

Open Scope Z_scope.

(** ** Ranges *)

Lemma region_contains_spec r k :
  region_contains r k = true <->
  rm_StartKey (Meta r) <=b k /\ (rm_EndKey (Meta r) = [] \/ k <b rm_EndKey (Meta r)).
Proof.
  unfold region_contains, regionContains. rewrite andb_true_iff, orb_true_iff, bool_decide_eq_true.
  destruct (bleb_spec (rm_StartKey (Meta r)) k), (bltb_spec k (rm_EndKey (Meta r))); intuition congruence.
Qed.

(** The key is in the region stored under the identifier. *)
Definition owned (m : gmap Z Region) (id : Z) (k : bytes) : Prop :=
  exists r, m !! id = Some r /\ region_contains r k = true.

(** The regions cover the keys of [P], each exactly once. *)
Record cover (m : gmap Z Region) (P : bytes -> Prop) : Prop := {
  cover_in k : P k <-> exists id, owned m id k;
  cover_unique k id id' : owned m id k -> owned m id' k -> id = id';
}.

(** Regions are stored under their own identifier and are not empty. *)
Definition regions_wf (m : gmap Z Region) : Prop :=
  map_Forall (fun id r => rm_Id (Meta r) = id /\
    (rm_EndKey (Meta r) = [] \/ rm_StartKey (Meta r) <b rm_EndKey (Meta r))) m.

Definition partition (m : gmap Z Region) : Prop := regions_wf m /\ cover m (fun _ => True).

Lemma owned_insert m id r id' k :
  owned (<[id := r]> m) id' k <->
  (id' = id /\ region_contains r k = true) \/ (id' <> id /\ owned m id' k).
Proof.
  unfold owned. destruct (decide (id' = id)) as [->|N].
  - rewrite lookup_insert_eq. split; [intros (r' & [= ->] & Hk); auto|].
    intros [[_ Hk]|[N _]]; [eauto|done].
  - rewrite lookup_insert_ne by done. split; [auto|]. intros [[-> _]|[_ O]]; done.
Qed.

Lemma owned_delete m id id' k : owned (delete id m) id' k <-> id' <> id /\ owned m id' k.
Proof.
  unfold owned. destruct (decide (id' = id)) as [->|N].
  - rewrite lookup_delete_eq. split; [by intros (? & ? & _)|by intros []].
  - rewrite lookup_delete_ne by done. tauto.
Qed.

(** Setting a region whose new keys were free takes its old keys away and adds
    the new ones. *)
Lemma cover_insert m P id r :
  cover m P -> (forall k, region_contains r k = true -> P k -> owned m id k) ->
  cover (<[id := r]> m) (fun k => (P k /\ ~ owned m id k) \/ region_contains r k = true).
Proof.
  intros [Ci Cu] Hr. split.
  - intros k. split.
    + intros [[HP No]|Hk].
      * apply Ci in HP as (id' & O). exists id'. apply owned_insert. right.
        split; [by intros ->|done].
      * exists id. apply owned_insert. auto.
    + intros (id' & O). apply owned_insert in O as [[-> Hk]|[N O]]; [by right|].
      destruct (region_contains r k) eqn:Hk; [by right|]. left. split; [apply Ci; eauto|].
      intros O'. by apply N, (Cu k).
  - intros k id1 id2 O1 O2.
    apply owned_insert in O1 as [[-> H1]|[N1 O1]], O2 as [[-> H2]|[N2 O2]]; try done.
    + destruct N2. symmetry. apply (Cu k); [|done]. apply Hr; [done|]. apply Ci. eauto.
    + destruct N1. symmetry. apply (Cu k); [|done]. apply Hr; [done|]. apply Ci. eauto.
    + by apply (Cu k).
Qed.

Lemma cover_delete m P id :
  cover m P -> cover (delete id m) (fun k => P k /\ ~ owned m id k).
Proof.
  intros [Ci Cu]. split.
  - intros k. split.
    + intros [HP No]. apply Ci in HP as (id' & O). exists id'. apply owned_delete.
      split; [by intros ->|done].
    + intros (id' & O). apply owned_delete in O as [N O]. split; [apply Ci; eauto|].
      intros O'. by apply N, (Cu k).
  - intros k id1 id2 O1 O2. apply owned_delete in O1 as [_ O1], O2 as [_ O2]. by apply (Cu k).
Qed.

Lemma cover_ext m P Q : (forall k, P k <-> Q k) -> cover m P -> cover m Q.
Proof. intros E [Ci Cu]. split; [|done]. intros k. by rewrite <- E. Qed.

Lemma regions_wf_insert m id r :
  regions_wf m -> rm_Id (Meta r) = id ->
  (rm_EndKey (Meta r) = [] \/ rm_StartKey (Meta r) <b rm_EndKey (Meta r)) ->
  regions_wf (<[id := r]> m).
Proof. intros W Hi He. by apply map_Forall_insert_2. Qed.

Lemma regions_wf_delete m id : regions_wf m -> regions_wf (delete id m).
Proof. apply map_Forall_delete. Qed.

Section regions.
Context `{CodecLaws} `{LevelDBLaws} `{Kvrpcpb} `{Oracle} `{Deadlock} `{Metapb}.

(** A visit of a map enumerates it, in any order. *)
Context (range_regions : gmap Z Region -> list (Z * Region)).
Context (range_stores : gmap Z CausetStore -> list (Z * CausetStore)).
Context (range_regions_perm : forall m, range_regions m ≡ₚ map_to_list m).

Lemma elem_of_range m id r : (id, r) ∈ range_regions m <-> m !! id = Some r.
Proof. rewrite range_regions_perm. apply elem_of_map_to_list. Qed.

Lemma elem_of_range_2 m r : r ∈ (range_regions m).*2 <-> exists id, m !! id = Some r.
Proof.
  rewrite list_elem_of_fmap. split.
  - intros ([id r'] & -> & Hr). apply elem_of_range in Hr. eauto.
  - intros (id & Hr). exists (id, r). split; [done|]. by apply elem_of_range.
Qed.

(** ** Locating a key *)

Lemma GetRegionByKey_find (c : Cluster) id r key :
  partition (c_regions c) -> c_regions c !! id = Some r -> region_contains r key = true ->
  GetRegionByKey range_regions c key = Some (meta_and_leader r).
Proof.
  intros [_ [_ Cu]] Hr Hk. unfold GetRegionByKey.
  destruct (List.find (fun r => region_contains r key) (range_regions (c_regions c)).*2) as [r'|] eqn:E.
  - apply List.find_some in E as [Hr' Hk']. apply list_elem_of_In, elem_of_range_2 in Hr' as (id' & Hr').
    assert (id' = id) as -> by (apply (Cu key); [by exists r'|by exists r]).
    rewrite Hr in Hr'. by injection Hr' as ->.
  - assert (In r (range_regions (c_regions c)).*2) as Hin by (apply list_elem_of_In, elem_of_range_2; eauto).
    pose proof (List.find_none _ _ E _ Hin) as A. simpl in A. congruence.
Qed.

(** In a cluster whose regions partition the keys, [GetRegionByKey]
    returns the metadata and the leader of the one region that contains the
    key, whatever the order in which the map is visited; it never misses. *)
Theorem GetRegionByKey_owner (c : Cluster) key :
  partition (c_regions c) ->
  exists id r, c_regions c !! id = Some r /\ region_contains r key = true /\
    GetRegionByKey range_regions c key = Some (meta_and_leader r) /\
    forall id' r', c_regions c !! id' = Some r' -> region_contains r' key = true -> id' = id.
Proof.
  intros P. pose proof P as [_ [Ci Cu]]. destruct (proj1 (Ci key) I) as (id & r & Hr & Hk).
  exists id, r. split_and!; [done|done|by eapply GetRegionByKey_find|].
  intros id' r' Hr' Hk'. apply (Cu key); [by exists r'|by exists r].
Qed.

(** ** Splitting and merging regions *)

Lemma updateKeyRange_contains r s e k :
  region_contains (updateKeyRange r s e) k = true <-> s <=b k /\ (e = [] \/ k <b e).
Proof. apply region_contains_spec. Qed.

(** [SplitRaw] of a region at a key strictly inside it, with a fresh
    identifier and one peer per store, keeps the partition: the keys from the
    split key on move to the new region, and no other key moves. *)
Theorem SplitRaw_partition (c : Cluster) regionID newRegionID key peerIDs leaderID r :
  partition (c_regions c) -> c_regions c !! regionID = Some r ->
  c_regions c !! newRegionID = None -> length (rm_Peers (Meta r)) = length peerIDs ->
  rm_StartKey (Meta r) <b key -> (rm_EndKey (Meta r) = [] \/ key <b rm_EndKey (Meta r)) ->
  exists meta c', SplitRaw c regionID newRegionID key peerIDs leaderID = Some (meta, c') /\
    partition (c_regions c') /\
    forall id k, owned (c_regions c') id k <->
      if decide (id = newRegionID) then owned (c_regions c) regionID k /\ key <=b k
      else owned (c_regions c) id k /\ (id = regionID -> k <b key).
Proof.
  intros [W C] Hr Hn Hp Ls Le. unfold SplitRaw. rewrite Hr. cbn [mbind option_bind].
  unfold split. rewrite decide_True by done. unfold newRegion.
  rewrite decide_True by (by rewrite length_fmap). cbn [mbind option_bind]. cbn [Meta rm_EndKey].
  set (newR := updateKeyRange _ key _). set (oldR := updateKeyRange r _ key).
  exists (Meta newR). eexists. split; [reflexivity|]. cbn [set_regions c_regions].
  assert (key <> []) as Nk by (intros ->; by apply (proj2 (not_blt (rm_StartKey (Meta r)) [])) in Ls; [|apply nil_ble]).
  assert (regionID <> newRegionID) as Nid by (intros ->; congruence).
  assert (forall k, region_contains oldR k = true <-> region_contains r k = true /\ k <b key) as Ho.
  { intros k. unfold oldR. rewrite updateKeyRange_contains, region_contains_spec. split.
    - intros [A [B|B]]; [done|]. split; [split; [done|]|done]. destruct Le as [->|Le]; [by left|].
      right. by eapply blt_trans.
    - intros [[A _] B]. auto. }
  assert (forall k, region_contains newR k = true <-> region_contains r k = true /\ key <=b k) as Hw.
  { intros k. unfold newR. rewrite updateKeyRange_contains, region_contains_spec. split.
    - intros [A B]. split; [split; [|done]|done]. by eapply ble_trans; [apply blt_ble|].
    - intros [[_ A] B]. auto. }
  assert (forall k, owned (c_regions c) regionID k <-> region_contains r k = true) as Or.
  { intros k. unfold owned. rewrite Hr. split; [by intros (? & [= <-] & ?)|eauto]. }
  assert (forall k, ~ owned (c_regions c) newRegionID k) as On.
  { intros k (? & E & _). congruence. }
  pose proof (cover_insert _ _ regionID oldR C) as C1.
  specialize (C1 (fun k Hk _ => proj2 (Or k) (proj1 (proj1 (Ho k) Hk)))).
  pose proof (cover_insert _ _ newRegionID newR C1) as C2.
  assert (forall k, region_contains newR k = true ->
    ((True /\ ~ owned (c_regions c) regionID k) \/ region_contains oldR k = true) ->
    owned (<[regionID:=oldR]> (c_regions c)) newRegionID k) as Fr.
  { intros k Hk [[_ A]|A]; exfalso; apply Hw in Hk as [Hk Lk].
    - apply A. by apply Or.
    - apply Ho in A as [_ A]. by apply not_blt in Lk. }
  specialize (C2 Fr). split; [split|].
  - apply regions_wf_insert; [apply regions_wf_insert|..]; [done|by apply (W _ _ Hr)|by right|done|done].
  - eapply cover_ext; [|exact C2]. intros k. cbn. split; [done|]. intros _.
    rewrite Hw, Ho, Or, owned_insert. destruct (region_contains r k) eqn:Ek.
    + destruct (decide (key <=b k)) as [D|D]; [by right|]. apply not_ble in D. left.
      split; [by right|]. intros [[E _]|[_ O]]; [done|by apply On in O].
    + left. split; [by left; split|]. intros [[E _]|[_ O]]; [done|by apply On in O].
  - intros id k. rewrite !owned_insert. case_decide as D.
    + subst id. rewrite Hw, Or. split; [intros [[_ A]|[A _]]; done|]. auto.
    + rewrite Ho. split.
      * intros [[A _]|[_ [[-> [A B]]|[A B]]]]; [done| |]; (split; [|done]); [by apply Or|done].
      * intros [A B]. right. split; [done|]. destruct (decide (id = regionID)) as [->|N]; [|by right].
        left. split; [done|]. split; [by apply Or|by apply B].
Qed.

(** [Merge] of two adjacent regions keeps the partition: the keys of the
    second region move to the first one, and no other key moves. *)
Theorem Merge_partition (c : Cluster) id1 id2 r1 r2 :
  partition (c_regions c) -> c_regions c !! id1 = Some r1 -> c_regions c !! id2 = Some r2 ->
  rm_EndKey (Meta r1) = rm_StartKey (Meta r2) -> rm_EndKey (Meta r1) <> [] ->
  exists c', Merge c id1 id2 = Some c' /\ partition (c_regions c') /\
    forall id k, owned (c_regions c') id k <->
      id <> id2 /\ (owned (c_regions c) id k \/ (id = id1 /\ owned (c_regions c) id2 k)).
Proof.
  intros [W C] H1' H2' Adj Ne. unfold Merge. rewrite H1', H2'. cbn [mbind option_bind].
  eexists. split; [reflexivity|]. cbn [set_regions c_regions].
  set (mr := merge r1 _).
  destruct (W _ _ H1') as [I1 [E1|L1]]; [done|]. destruct (W _ _ H2') as [I2 L2].
  assert (id1 <> id2) as N.
  { intros <-. rewrite H1' in H2'. injection H2' as <-. rewrite Adj in L1. by apply blt_irrefl in L1. }
  assert (forall k, region_contains mr k = true <->
            region_contains r1 k = true \/ region_contains r2 k = true) as Hm.
  { intros k. unfold mr. rewrite !region_contains_spec. cbn [merge incVersion set_epoch Meta rm_StartKey rm_EndKey].
    rewrite <- Adj. split.
    - intros [A B]. destruct (decide (k <b rm_EndKey (Meta r1))) as [D|D]; [by left; auto|].
      right. by apply not_blt in D.
    - intros [[A [B|B]]|[A B]]; [done| |].
      + split; [done|]. destruct L2 as [->|L2]; [by left|]. right. rewrite <- Adj in L2.
        by eapply blt_trans.
      + split; [|done]. by eapply ble_trans; [apply blt_ble|]. }
  assert (forall k, owned (c_regions c) id1 k <-> region_contains r1 k = true) as O1.
  { intros k. unfold owned. rewrite H1'. split; [by intros (? & [= <-] & ?)|eauto]. }
  assert (forall k, owned (c_regions c) id2 k <-> region_contains r2 k = true) as O2.
  { intros k. unfold owned. rewrite H2'. split; [by intros (? & [= <-] & ?)|eauto]. }
  rewrite delete_insert_ne by done.
  pose proof (cover_delete _ _ id2 C) as C1. pose proof (cover_insert _ _ id1 mr C1) as C2.
  assert (forall k, region_contains mr k = true -> (True /\ ~ owned (c_regions c) id2 k) ->
    owned (delete id2 (c_regions c)) id1 k) as Fr.
  { intros k Hk [_ A]. apply owned_delete. split; [done|]. apply O1.
    apply Hm in Hk as [Hk|Hk]; [done|]. destruct A. by apply O2. }
  specialize (C2 Fr). split; [split|].
  - apply regions_wf_insert; [by apply regions_wf_delete|done|].
    cbn. destruct L2 as [L2|L2]; [by left|]. right. rewrite <- Adj in L2. by eapply blt_trans.
  - eapply cover_ext; [|exact C2]. intros k. cbn. split; [done|]. intros _.
    rewrite Hm, owned_delete, O1, O2. destruct (region_contains r1 k), (region_contains r2 k); naive_solver.
  - intros id k. rewrite owned_insert, owned_delete, Hm.
    destruct (decide (id = id1)) as [->|D].
    + rewrite O1, O2. naive_solver.
    + naive_solver.
Qed.

End regions.

(** * Scanning regions in key order

    [ScanRegions] sorts the regions by start key and finds both ends of the
    requested range by binary search.  On a partition the searches are exact:
    the result is the list of the regions that meet the range, in key order. *)

(** ** Binary search in a list *)

Definition monotone (P : Region -> bool) (l : list Region) : Prop :=
  forall i j r s, (i <= j)%nat -> l !! i = Some r -> l !! j = Some s -> P r = true -> P s = true.

(** On a list where [P] becomes true once, the search cuts the list into the
    regions without and with [P]. *)
Lemma search_cut P l :
  monotone P l ->
  take (sort_Search (length l) (at_region l P)) l = filter (fun r => P r = false) l /\
  drop (sort_Search (length l) (at_region l P)) l = filter (fun r => P r = true) l.
Proof.
  intros M. destruct (sort_Search_least (length l) (at_region l P)) as (L & Lo & Hi).
  { intros a b [Lab Lb] Ha. unfold at_region in *.
    destruct (l !! a) as [r|] eqn:Er; [|done].
    destruct (lookup_lt_is_Some_2 l b Lb) as [s Es]. rewrite Es. by apply (M a b r s). }
  set (n := sort_Search _ _) in *.
  assert (filter (fun r => P r = false) l =
    filter (fun r => P r = false) (take n l) ++ filter (fun r => P r = false) (drop n l)) as ->
    by (by rewrite <- filter_app, take_drop).
  assert (filter (fun r => P r = true) l =
    filter (fun r => P r = true) (take n l) ++ filter (fun r => P r = true) (drop n l)) as ->
    by (by rewrite <- filter_app, take_drop).
  assert (Forall (fun r => P r = false) (take n l)) as Ft.
  { apply Forall_lookup. intros i r Hr. apply lookup_take_Some in Hr as [Hr Li].
    specialize (Lo i Li). unfold at_region in Lo. by rewrite Hr in Lo. }
  assert (Forall (fun r => P r = true) (drop n l)) as Fd.
  { apply Forall_lookup. intros i r Hr. rewrite lookup_drop in Hr.
    specialize (Hi (n + i)%nat). unfold at_region in Hi. rewrite Hr in Hi. apply Hi.
    split; [lia|]. by eapply lookup_lt_Some. }
  rewrite Forall_forall in Ft. rewrite Forall_forall in Fd.
  rewrite (list_filter_all _ (take n l)), (list_filter_none _ (drop n l)),
    (list_filter_none _ (take n l)), (list_filter_all _ (drop n l)); try done.
  1: by rewrite app_nil_r.
  1,2: intros r Hr; (apply Ft in Hr || apply Fd in Hr); congruence.
Qed.

(** ** The sorted regions *)

Definition before (r s : Region) : Prop :=
  rm_StartKey (Meta r) <b rm_StartKey (Meta s) /\
  rm_EndKey (Meta r) <> [] /\ rm_EndKey (Meta r) <=b rm_StartKey (Meta s).

Section scan_regions.
Context `{CodecLaws} `{LevelDBLaws} `{Kvrpcpb} `{Oracle} `{Deadlock} `{Metapb}.
Context (range_regions : gmap Z Region -> list (Z * Region)).
Context (range_regions_perm : forall m, range_regions m ≡ₚ map_to_list m).

Definition sorted_regions (c : Cluster) : list Region :=
  sort_regions (range_regions (c_regions c)).*2.

(** A region that starts no later than another one ends before it. *)
Lemma partition_before m id r id' r' :
  partition m -> m !! id = Some r -> m !! id' = Some r' -> id <> id' ->
  start_le r r' -> before r r'.
Proof.
  intros [W [_ Cu]] Hr Hr' N Le. unfold start_le in Le.
  pose proof (W _ _ Hr) as [_ Ne]. pose proof (W _ _ Hr') as [_ Ne'].
  set (a := rm_StartKey (Meta r)) in *. set (a' := rm_StartKey (Meta r')) in *.
  assert (region_contains r' a' = true) as C' by (apply region_contains_spec; split; [apply ble_refl|done]).
  assert (~ region_contains r a' = true) as NC.
  { intros C. apply N, (Cu a'); [by exists r|by exists r']. }
  rewrite region_contains_spec in NC. fold a in NC. unfold before. fold a a'.
  destruct (decide (rm_EndKey (Meta r) = [])) as [E|E]; [destruct NC; auto|].
  assert (rm_EndKey (Meta r) <=b a') as L by (apply not_blt; intros ?; apply NC; auto).
  split; [|done]. destruct Ne as [Ne|Ne]; [done|]. by eapply blt_ble_trans.
Qed.

Lemma sorted_regions_spec c :
  partition (c_regions c) ->
  StronglySorted before (sorted_regions c) /\
  forall r, r ∈ sorted_regions c <-> exists id, c_regions c !! id = Some r.
Proof.
  intros P. unfold sorted_regions, sort_regions.
  set (l := (range_regions (c_regions c)).*2).
  assert (Total start_le) as T.
  { intros r s. unfold start_le. destruct (decide (rm_StartKey (Meta r) <=b rm_StartKey (Meta s))); [by left|].
    right. apply blt_ble. by apply not_ble. }
  assert (Transitive start_le) as Tr by (intros x y z; unfold start_le; apply ble_trans).
  assert (forall r, r ∈ merge_sort start_le l <-> exists id, c_regions c !! id = Some r) as El.
  { intros r. rewrite merge_sort_Permutation. apply elem_of_range_2, range_regions_perm. }
  split; [|exact El].
  assert (NoDup (merge_sort start_le l)) as ND.
  { rewrite merge_sort_Permutation. unfold l. rewrite range_regions_perm.
    apply NoDup_fmap_2_strong; [|apply NoDup_map_to_list].
    intros [i r] [j s] Hi Hj E. cbn in E. subst s.
    apply elem_of_map_to_list in Hi, Hj. f_equal.
    destruct P as [W _]. destruct (W _ _ Hi) as [<- _], (W _ _ Hj) as [? _]. congruence. }
  pose proof (StronglySorted_merge_sort start_le l) as S.
  revert S ND El. generalize (merge_sort start_le l). clear l.
  assert (forall l, StronglySorted start_le l -> NoDup l ->
    (forall r, r ∈ l -> exists id, c_regions c !! id = Some r) -> StronglySorted before l) as Main.
  { induction 1 as [|r l S IH F]; intros ND El; constructor.
    - apply IH; [by apply NoDup_cons in ND as [_ ND]|]. intros s Hs. apply El. by right.
    - apply NoDup_cons in ND as [Nin _]. apply Forall_forall. intros s Hs.
      destruct (El r) as [id Hr]; [by left|]. destruct (El s) as [id' Hs']; [by right|].
      apply (partition_before (c_regions c) id r id' s); [done|done|done| |].
      + intros <-. rewrite Hr in Hs'. by injection Hs' as ->.
      + rewrite Forall_forall in F. by apply F. }
  intros l S ND El. apply Main; [done|done|]. intros r. apply El.
Qed.

(** What [ScanRegions] returns for a region. *)
Definition scan_result (r : Region) : RegionMeta * Peer :=
  (Meta r, default (MkPeer 0 0) (leaderPeer r)).

Definition ends_after (k : bytes) (r : Region) : bool :=
  bool_decide (rm_EndKey (Meta r) = []) || bltb k (rm_EndKey (Meta r)).
Definition starts_from (k : bytes) (r : Region) : bool := bleb k (rm_StartKey (Meta r)).

Lemma ends_after_spec k r :
  ends_after k r = true <-> rm_EndKey (Meta r) = [] \/ k <b rm_EndKey (Meta r).
Proof.
  unfold ends_after. rewrite orb_true_iff, bool_decide_eq_true.
  by destruct (bltb_spec k (rm_EndKey (Meta r))); intuition.
Qed.

Lemma starts_from_spec k r : starts_from k r = false <-> rm_StartKey (Meta r) <b k.
Proof.
  unfold starts_from. rewrite <- not_ble.
  destruct (bleb_spec k (rm_StartKey (Meta r))); split; (done || intros; congruence).
Qed.

Lemma before_monotone P l :
  StronglySorted before l -> (forall r s, s ∈ l -> before r s -> P r = true -> P s = true) ->
  monotone P l.
Proof.
  intros S M i j r s Lij Hi Hj Hr. destruct (decide (i = j)) as [->|N]; [congruence|].
  apply (M r s); [by eapply list_elem_of_lookup_2| |done].
  assert (l = take j l ++ drop j l) as E by (symmetry; apply take_drop).
  rewrite E in S. apply (StronglySorted_app_1_elem_of _ _ _ r s) in S; [done| |].
  - apply list_elem_of_lookup. exists i. rewrite lookup_take_lt; [done|lia].
  - apply list_elem_of_lookup. exists 0%nat. rewrite lookup_drop. by rewrite Nat.add_0_r.
Qed.

Lemma limit_take {A} (limit : Z) (l : list A) :
  (if (0 <? limit) && (limit <? Z.of_nat (length l)) then take (Z.to_nat limit) l else l) =
  if decide (0 < limit) then take (Z.to_nat limit) l else l.
Proof.
  case_decide; destruct (Z.ltb_spec 0 limit); try lia; cbn [andb]; [|done].
  destruct (Z.ltb_spec limit (Z.of_nat (length l))); [done|]. rewrite take_ge; [done|lia].
Qed.

(** On a partition [ScanRegions] of [startKey, endKey) (to the end of the
    keys for an empty [endKey]) returns, in key order, the first [limit] of the
    regions that meet the range, all of them when [limit] is not positive. *)
Theorem ScanRegions_exact c startKey endKey limit :
  partition (c_regions c) -> (endKey = [] \/ startKey <b endKey) ->
  exists rs, StronglySorted before rs /\
    (forall r, r ∈ rs <-> (exists id, c_regions c !! id = Some r) /\
       (rm_EndKey (Meta r) = [] \/ startKey <b rm_EndKey (Meta r)) /\
       (endKey = [] \/ rm_StartKey (Meta r) <b endKey)) /\
    ScanRegions range_regions c startKey endKey limit =
      scan_result <$> (if decide (0 < limit) then take (Z.to_nat limit) rs else rs).
Proof.
  intros Hp Hse. destruct (sorted_regions_spec c Hp) as [S El].
  set (L := filter (fun r => ends_after startKey r = true) (sorted_regions c)).
  set (rs := if decide (endKey = []) then L else filter (fun r => starts_from endKey r = false) L).
  assert (StronglySorted before L) as SL by by apply StronglySorted_filter.
  assert (forall r, r ∈ L <-> (exists id, c_regions c !! id = Some r) /\
    (rm_EndKey (Meta r) = [] \/ startKey <b rm_EndKey (Meta r))) as InL.
  { intros r. unfold L. rewrite list_elem_of_filter, ends_after_spec, El. tauto. }
  exists rs. split_and!.
  - unfold rs. case_decide; [done|]. by apply StronglySorted_filter.
  - intros r. unfold rs. case_decide as De; [rewrite InL; tauto|].
    rewrite list_elem_of_filter, starts_from_spec, InL. tauto.
  - unfold ScanRegions. fold (sorted_regions c).
    change (fun r => bool_decide (rm_EndKey (Meta r) = []) || bltb startKey (rm_EndKey (Meta r)))
      with (ends_after startKey).
    change (fun r => bleb endKey (rm_StartKey (Meta r))) with (starts_from endKey).
    destruct (search_cut (ends_after startKey) (sorted_regions c)) as [_ ->].
    { apply before_monotone; [done|]. intros r s Hs (A & B & C). rewrite !ends_after_spec.
      intros [E|E]; [done|]. apply El in Hs as [id Hs]. destruct Hp as [W _].
      destruct (W _ _ Hs) as [_ [X|X]]; [by left|]. right.
      eapply blt_trans; [exact E|]. by eapply ble_blt_trans. }
    fold L. unfold rs. destruct (decide (endKey = [])) as [De|De]; [by rewrite limit_take|].
    destruct (search_cut (starts_from endKey) L) as [Et _].
    { apply before_monotone; [done|]. intros r s _ (A & _ & _).
      unfold starts_from. destruct (bleb_spec endKey (rm_StartKey (Meta r))) as [B|B]; [|done].
      intros _. destruct (bleb_spec endKey (rm_StartKey (Meta s))) as [D|D]; [done|]. destruct D.
      eapply ble_trans; [exact B|]. by apply blt_ble. }
    assert (sort_Search (length L) (at_region L (starts_from endKey)) <> 0%nat) as N0.
    { intros E0. rewrite E0 in Et. cbn [take] in Et.
      destruct Hse as [|Hse]; [done|]. destruct Hp as [_ [Ci _]].
      destruct (proj1 (Ci startKey) I) as (id & r & Hr & Hk). apply region_contains_spec in Hk as [A B].
      assert (r ∈ filter (fun r => starts_from endKey r = false) L) as X; [|rewrite <- Et in X; by inversion X].
      apply list_elem_of_filter. rewrite starts_from_spec, InL. split; [by eapply ble_blt_trans|]. eauto. }
    rewrite decide_True by lia. by rewrite Et, limit_take.
Qed.
End scan_regions.
