(* ===== verification/ClusterSplit.v ===== *)
(** * Splitting a range evenly

    [SplitKeys] cuts the regions that meet a range, groups the pairs of the
    range and gives each group a new region.  The proofs follow the three
    steps: [cinv] is the invariant that they keep, with the set of covered
    keys as its index. *)

From stdpp Require Import base gmap list sorting strings.
From Stdlib Require Import Strings.Byte ZArith Lia Sorted.
From S2P Require Import Prelude External Marshal Mvcc MvccOps MvccView MvccRead MvccScan MvccReverse Cluster ClusterRegions.
Open Scope Z_scope.

Lemma region_contains_range r k :
  region_contains r k = true <-> key_range (rm_StartKey (Meta r)) (rm_EndKey (Meta r)) k.
Proof. apply region_contains_spec. Qed.

(** ** Groups of pairs *)

Lemma group_pairs_spec fuel q m pairs :
  (length pairs <= fuel)%nat -> (q <> 0 \/ m = length pairs)%nat ->
  let gs := group_pairs fuel q m pairs in
  gs ≫= id = pairs /\ Forall (fun g => g <> [] /\ (length g <= S q)%nat) gs /\
  (length gs <= length pairs)%nat.
Proof.
  revert m pairs. induction fuel as [|fuel IH]; intros m pairs Lf Lq; cbn [group_pairs].
  { destruct pairs; [|simpl in Lf; lia]. by split_and!. }
  destruct pairs as [|p ps]; [by split_and!|].
  set (n := if decide (0 < m)%nat then S q else q).
  assert (0 < n <= S q)%nat as Ln by (unfold n; case_decide; simpl in Lq; lia).
  destruct (IH (m - 1)%nat (drop n (p :: ps))) as (E & F & L).
  { rewrite length_drop. simpl in *. lia. }
  { destruct Lq as [Lq| ->]; [by left|]. destruct (decide (q = 0)%nat) as [->|]; [right|by left].
    rewrite length_drop. unfold n. rewrite decide_True by (simpl; lia). simpl. lia. }
  rewrite length_drop in L. cbn [mbind list_bind].
  change (mbind id (group_pairs fuel q (m - 1) (drop n (p :: ps)))) with
    (group_pairs fuel q (m - 1) (drop n (p :: ps)) ≫= id).
  rewrite E. split_and!.
  - apply take_drop.
  - constructor; [|done]. split; [|rewrite length_take; lia].
    destruct n; [lia|done].
  - simpl in *. lia.
Qed.

(** The number of groups, and their least size. *)
Lemma group_pairs_count fuel q m count pairs :
  (length pairs <= fuel)%nat -> (m <= count)%nat -> (length pairs = count * q + m)%nat ->
  (0 < count)%nat -> (q <> 0)%nat ->
  length (group_pairs fuel q m pairs) = count /\
  Forall (fun g => (q <= length g)%nat) (group_pairs fuel q m pairs).
Proof.
  revert m count pairs. induction fuel as [|fuel IH]; intros m count pairs Lf Lm E Lc Lq.
  { simpl in *. nia. }
  cbn [group_pairs]. destruct pairs as [|p ps]; [simpl in E; nia|].
  set (n := if decide (0 < m)%nat then S q else q).
  assert (n <= length (p :: ps))%nat as Ln by (unfold n; case_decide; nia).
  destruct (decide (count = 1)%nat) as [->|Nc].
  - assert (drop n (p :: ps) = []) as ->.
    { apply drop_ge. unfold n. case_decide; lia. }
    split; [destruct fuel; reflexivity|].
    constructor; [|destruct fuel; constructor]. rewrite length_take. unfold n. case_decide; lia.
  - destruct (IH (m - 1)%nat (count - 1)%nat (drop n (p :: ps))) as [L F].
    { rewrite length_drop. unfold n. simpl in *. case_decide; lia. }
    { lia. }
    { rewrite length_drop. unfold n. case_decide; nia. }
    { lia. }
    { done. }
    split; [simpl; lia|]. constructor; [|done]. rewrite length_take. unfold n in *. case_decide; lia.
Qed.

Section split.
Context `{CodecLaws} `{LevelDBLaws} `{Kvrpcpb} `{Oracle} `{Deadlock} `{Metapb}.
Context (range_regions : gmap Z Region -> list (Z * Region)).
Context (range_stores : gmap Z CausetStore -> list (Z * CausetStore)).
Context (range_regions_perm : forall m, range_regions m ≡ₚ map_to_list m).

(** [getEntriesGroupByRegions] cuts the pairs of a scan of the range into
    consecutive groups that together are all the pairs, none of them empty;
    when there are at least [count] pairs there are exactly [count] groups
    and their sizes differ by at most one. *)
Theorem getEntriesGroupByRegions_even mvcc s e count :
  (0 < count)%nat ->
  let pairs := Scan mvcc s e MaxInt32 MaxUint64 IsolationLevel_SI [] in
  let q := (length pairs / count)%nat in
  exists gs, getEntriesGroupByRegions mvcc (NewMvccKey s) (NewMvccKey e) count = Some gs /\
    gs ≫= id = pairs /\ Forall (fun g => g <> [] /\ (length g <= S q)%nat) gs /\
    ((count <= length pairs)%nat -> length gs = count /\ Forall (fun g => (q <= length g)%nat) gs).
Proof.
  intros Lc pairs q. unfold getEntriesGroupByRegions. rewrite !MvccKey_Raw_New. cbn [mbind option_bind].
  rewrite decide_False by lia. fold pairs. fold q. eexists. split; [reflexivity|].
  pose proof (Nat.div_mod_eq (length pairs) count) as D.
  pose proof (Nat.mod_upper_bound (length pairs) count ltac:(lia)) as B.
  destruct (group_pairs_spec (length pairs) q (length pairs mod count) pairs) as (E & F & _); [done| |].
  { destruct (decide (q = 0)%nat) as [Q|]; [right|by left]. unfold q in Q. rewrite Q in D. lia. }
  split_and!; [done|done|]. intros Lp. apply group_pairs_count; [done|lia|done|done|].
  unfold q. intros Q. rewrite Q in D. lia.
Qed.

(** ** The invariant of a split *)

(** The regions cover the keys of [P], once each, and have identifiers that
    were allocated. *)
Record cinv (c : Cluster) (P : bytes -> Prop) : Prop := {
  ci_wf : regions_wf (c_regions c);
  ci_cover : cover (c_regions c) P;
  ci_ids : map_Forall (fun id _ => id <= c_id c) (c_regions c);
}.

Definition extends (c c' : Cluster) (n : Z) : Prop :=
  c_id c' <= c_id c + n /\ 0 <= c_id c' /\ c_mvccStore c' = c_mvccStore c.

Lemma cinv_ext c P Q : (forall k, P k <-> Q k) -> cinv c P -> cinv c Q.
Proof. intros E [W C I]. split; [done|by eapply cover_ext|done]. Qed.

Lemma owned_at c id r k :
  c_regions c !! id = Some r -> owned (c_regions c) id k <-> region_contains r k = true.
Proof. intros Hr. unfold owned. rewrite Hr. split; [by intros (? & [= <-] & ?)|eauto]. Qed.

(** A new region for keys no region covers. *)
Lemma cinv_alloc c P from to :
  cinv c P -> 0 <= c_id c -> c_id c + 2 < u64_mod -> (to = [] \/ from <b to) ->
  (forall k, key_range from to k -> ~ P k) ->
  exists r c', alloc_region range_stores c from to = Some (r, c') /\
    rm_Id (Meta r) = c_id c + 2 /\
    let c2 := put_region c' (rm_Id (Meta r)) r in
    cinv c2 (fun k => P k \/ key_range from to k) /\ extends c c2 2 /\
    forall id, id <= c_id c -> c_regions c2 !! id = c_regions c !! id.
Proof.
  intros [W C I] L0 L2 Lft Fr. unfold alloc_region, allocID, newRegion. rewrite decide_True by done.
  cbn [mbind option_bind c_id c_stores c_regions c_mvccStore c_delayEvents].
  assert (u64_add (u64_add (c_id c) 1) 1 = c_id c + 2) as U.
  { unfold u64_add, u64_wrap. unfold u64_mod in *. rewrite (Z.mod_small (c_id c + 1)), Z.mod_small; lia. }
  rewrite U. set (r := updateKeyRange _ from to). eexists r, _. split; [reflexivity|].
  split; [done|]. change (rm_Id (Meta r)) with (c_id c + 2). split; [|split].
  - split; cbn [put_region set_regions c_regions c_id].
    + by apply regions_wf_insert.
    + eapply cover_ext; [|apply cover_insert; [exact C|]].
      * intros k. cbn beta. rewrite (region_contains_range r). fold (key_range from to k).
        assert (~ owned (c_regions c) (c_id c + 2) k) as No; [|naive_solver].
        intros (r' & Hr' & _). apply I in Hr'. lia.
      * intros k Hk HP. by apply region_contains_range, Fr in Hk.
    + apply map_Forall_insert_2; [cbn; lia|]. eapply map_Forall_impl; [exact I|]. cbn; lia.
  - split_and!; cbn; [lia|lia|done].
  - intros id Hid. cbn. rewrite lookup_insert_ne by lia. done.
Qed.

(** A region whose range shrinks. *)
Lemma cinv_shrink c P id r from to :
  cinv c P -> c_regions c !! id = Some r -> (to = [] \/ from <b to) ->
  (forall k, key_range from to k -> region_contains r k = true) ->
  cinv (put_region c id (updateKeyRange r from to))
    (fun k => P k /\ (region_contains r k = true -> key_range from to k)).
Proof.
  intros [W C I] Hr Lft Sub. split; cbn [put_region set_regions c_regions c_id].
  - apply regions_wf_insert; [done|by apply (W _ _ Hr)|done].
  - eapply cover_ext; [|apply cover_insert; [exact C|]].
    + intros k. cbn. rewrite (owned_at c id r k Hr), updateKeyRange_contains.
      fold (key_range from to k). specialize (Sub k).
      assert (region_contains r k = true -> P k) as HP.
      { intros Hk. apply (cover_in _ _ C). exists id. by exists r. }
      destruct (decide (key_range from to k)); naive_solver.
    + intros k Hk _. exists r. split; [done|]. by apply Sub, (updateKeyRange_contains r).
  - apply map_Forall_insert_2; [by apply (I _ _ Hr)|done].
Qed.

Lemma cinv_remove c P id r :
  cinv c P -> c_regions c !! id = Some r ->
  cinv (set_regions c (delete id (c_regions c))) (fun k => P k /\ region_contains r k <> true).
Proof.
  intros [W C I] Hr. split; cbn [set_regions c_regions c_id].
  - by apply regions_wf_delete.
  - eapply cover_ext; [|by apply cover_delete]. intros k. cbn. by rewrite (owned_at c id r k Hr).
  - by apply map_Forall_delete.
Qed.

(** ** Evacuation *)

(** The region meets [s, e). *)
Definition meets (r : Region) (s e : bytes) : Prop :=
  rm_StartKey (Meta r) <b e /\ (rm_EndKey (Meta r) = [] \/ s <b rm_EndKey (Meta r)).

Definition evacuated (P : bytes -> Prop) (r : Region) (s e k : bytes) : Prop :=
  P k /\ ~ (region_contains r k = true /\ key_range s e k).

Lemma evacuate_one_spec c P id r s e :
  cinv c P -> 0 <= c_id c -> c_id c + 2 < u64_mod -> c_regions c !! id = Some r ->
  s <b e -> meets r s e ->
  exists c', evacuate_one range_stores s e c (id, r) = Some c' /\ cinv c' (evacuated P r s e) /\
    extends c c' 2 /\
    forall id', id' <= c_id c -> id' <> id -> c_regions c' !! id' = c_regions c !! id'.
Proof.
  intros Inv L0 L2 Hr Lse [Ms Me]. unfold evacuate_one. cbn [fst snd].
  assert (e <> []) as Ne by (intros ->; by apply (proj2 (not_blt s [])) in Lse; [|apply nil_ble]).
  pose proof (ci_wf _ _ Inv _ _ Hr) as [Hid Hne]. rewrite Hid. clear Hid.
  set (a := rm_StartKey (Meta r)) in *. set (b := rm_EndKey (Meta r)) in *.
  assert (forall k, region_contains r k = true <-> a <=b k /\ (b = [] \/ k <b b)) as Rk
    by (intros k; apply region_contains_spec).
  assert (forall k, key_range s e k <-> s <=b k /\ k <b e) as Kr by (intros k; unfold key_range; naive_solver).
  set (ec := if decide (b = []) then Gt else bytes_compare b e).
  assert ((match ec with Gt => true | _ => false end) = bool_decide (b = [] \/ e <b b)) as Ec.
  { unfold ec. destruct (decide (b = [])) as [->|Nb]; [by rewrite bool_decide_true by (by left)|].
    destruct (bytes_compare_spec b e) as [->|L|L].
    - rewrite bool_decide_false; [done|]. intros [?|X]; [done|]. by apply blt_irrefl in X.
    - rewrite bool_decide_false; [done|]. intros [?|X]; [done|]. by apply (blt_irrefl b), (blt_trans b e b).
    - by rewrite bool_decide_true by (by right). }
  assert ((match ec with Gt => false | _ => true end) = negb (bool_decide (b = [] \/ e <b b))) as Ec'
    by (rewrite <- Ec; by destruct ec).
  rewrite Ec, Ec'. clear Ec Ec'. clearbody ec. clear ec.
  change (match bytes_compare a s with Lt => true | _ => false end) with (bltb a s).
  assert ((match bytes_compare a s with Lt => false | _ => true end) = negb (bltb a s)) as ->
    by (unfold bltb; by destruct (bytes_compare a s)).
  destruct (bltb_spec a s) as [La|La]; case_bool_decide as Db; cbn [negb andb].
  - assert (key_range a s = fun k => a <=b k /\ (s = [] \/ k <b s)) as Kas by done.
    assert (s <> []) as Ns by (intros ->; by apply (proj2 (not_blt a [])) in La; [|apply nil_ble]).
    pose proof (cinv_shrink c P id r a s Inv Hr (or_intror La)) as I1.
    destruct (cinv_alloc (put_region c id (updateKeyRange r a s))
      (fun k => P k /\ (region_contains r k = true -> key_range a s k)) e b)
      as (r' & c' & E & Ei & I2 & X & Lk); [|done|done|by destruct Db; auto| |].
    + apply I1. intros k [K1 [K2|K2]]; [done|]. apply Rk. split; [done|].
      destruct Db as [->|Db]; [by left|]. right. eauto using blt_trans.
    + intros k [K1 K2] [_ Q]. destruct Q as [_ [Q|Q]]; [|done|].
      * apply Rk. split; [|done]. eapply ble_trans; [by apply blt_ble, Ms|done].
      * apply (blt_irrefl k). eapply blt_trans; [exact Q|]. by eapply blt_ble_trans.
    + eexists. rewrite E. cbn [mbind option_bind]. split; [reflexivity|]. split; [|split; [done|]].
      * eapply cinv_ext; [|exact I2]. intros k. cbn. unfold evacuated. rewrite Rk, Kr, Kas.
        unfold key_range. pose proof (not_ble s k) as N1. pose proof (not_blt k e) as N2.
        assert (e <=b k -> a <=b k) as N3 by (intros; eapply ble_trans; [by apply blt_ble, Ms|done]).
        assert (a <=b k /\ (b = [] \/ k <b b) -> P k) as HP.
        { intros Hk. apply (cover_in _ _ (ci_cover _ _ Inv)). exists id, r. split; [done|]. by apply Rk. }
        clear -HP N1 N2 N3 Ns.
        destruct (decide (s <=b k)), (decide (e <=b k)), (decide (b = [] \/ k <b b)); tauto.
      * intros id' Li N. rewrite Lk by done. cbn. by rewrite lookup_insert_ne.
  - assert (s <> []) as Ns by (intros ->; by apply (proj2 (not_blt a [])) in La; [|apply nil_ble]).
    assert (b <> [] /\ b <=b e) as [Nb Lbe].
    { split; [by intros E; destruct Db; left|]. apply not_blt. intros ?. by destruct Db; right. }
    eexists. split; [reflexivity|]. split; [|split].
    + eapply cinv_ext; [|apply cinv_shrink; [exact Inv|done|by right|]].
      * intros k. unfold evacuated. rewrite Rk, Kr. unfold key_range. pose proof (not_ble s k) as N1.
        assert (k <b b -> k <b e) as N2 by (intros; by eapply blt_ble_trans).
        clear -N1 N2 Nb Ns. destruct (decide (s <=b k)), (decide (k <b b)); tauto.
      * intros k [K1 [K2|K2]]; [done|]. apply Rk. split; [done|].
        destruct Me as [|Me]; [by left|]. right. eauto using blt_trans.
    + split_and!; cbn; lia || done.
    + intros id' _ N. cbn. by rewrite lookup_insert_ne.
  - apply not_blt in La. eexists. split; [reflexivity|]. split; [|split].
    + eapply cinv_ext; [|apply cinv_shrink; [exact Inv|done|by destruct Db; auto|]].
      * intros k. unfold evacuated. rewrite Rk, Kr. unfold key_range.
        pose proof (ble_trans s a k La) as N1. pose proof (not_blt k e) as N2.
        clear -N1 N2. destruct (decide (k <b e)); tauto.
      * intros k [K1 K2]. apply Rk. split; [by eapply ble_trans; [apply blt_ble|]|done].
    + split_and!; cbn; lia || done.
    + intros id' _ N. cbn. by rewrite lookup_insert_ne.
  - apply not_blt in La. assert (b <> [] /\ b <=b e) as [Nb Lbe].
    { split; [by intros E; destruct Db; left|]. apply not_blt. intros ?. by destruct Db; right. }
    eexists. split; [reflexivity|]. split; [|split].
    + eapply cinv_ext; [|apply cinv_remove; [exact Inv|exact Hr]].
      intros k. unfold evacuated. cbn beta. rewrite Rk, Kr.
      pose proof (ble_trans s a k La). pose proof (blt_ble_trans k b e). naive_solver.
    + split_and!; cbn; lia || done.
    + intros id' _ N. cbn. by rewrite lookup_delete_ne.
Qed.

Lemma extends_trans c1 c2 c3 m n : extends c1 c2 m -> extends c2 c3 n -> extends c1 c3 (m + n).
Proof. intros (A1 & A2 & A3) (B1 & B2 & B3). split_and!; [lia|done|congruence]. Qed.

Lemma extends_refl c : 0 <= c_id c -> extends c c 0.
Proof. intros L. split_and!; [lia|done|done]. Qed.

Lemma evacuate_loop_spec ps c P s e :
  cinv c P -> 0 <= c_id c -> c_id c + 2 * Z.of_nat (length ps) < u64_mod -> s <b e ->
  NoDup ps.*1 -> Forall (fun p => c_regions c !! p.1 = Some p.2 /\ meets p.2 s e) ps ->
  exists c', evacuate_loop range_stores s e c ps = Some c' /\
    cinv c' (fun k => P k /\ ~ (key_range s e k /\ Exists (fun p => region_contains p.2 k = true) ps)) /\
    extends c c' (2 * Z.of_nat (length ps)).
Proof.
  revert c P. induction ps as [|[id r] ps IH]; intros c P Inv L0 L2 Lse ND F.
  { exists c. split; [done|]. split; [|by apply extends_refl].
    eapply cinv_ext; [|exact Inv]. intros k. rewrite Exists_nil. tauto. }
  cbn [length] in L2. apply Forall_cons in F as [[Hr M] F]. cbn [fst snd] in Hr, M.
  cbn [fmap list_fmap fst] in ND. apply NoDup_cons in ND as [Nin ND].
  destruct (evacuate_one_spec c P id r s e Inv L0 ltac:(lia) Hr Lse M) as (c1 & E1 & I1 & X1 & Lk).
  destruct (IH c1 (evacuated P r s e)) as (c2 & E2 & I2 & X2); [done|by apply X1| |done|done| |].
  { destruct X1 as [X1 _]. lia. }
  { apply Forall_forall. intros [id' r'] Hp. rewrite Forall_forall in F.
    destruct (F _ Hp) as [Hr' M']. cbn in *. split; [|done].
    assert (id' ∈ ps.*1) as Hid by (apply list_elem_of_fmap; by exists (id', r')).
    rewrite Lk; [done|by apply (ci_ids _ _ Inv _ _ Hr')|]. by intros ->. }
  exists c2. cbn [evacuate_loop]. rewrite E1. cbn [mbind option_bind]. split; [done|]. split.
  - eapply cinv_ext; [|exact I2]. intros k. rewrite Exists_cons. unfold evacuated. cbn [snd]. tauto.
  - cbn [length]. replace (2 * Z.of_nat (S (length ps))) with (2 + 2 * Z.of_nat (length ps)) by lia.
    by eapply extends_trans.
Qed.

Lemma getRegionsCoverRange_meets c s e id r :
  (id, r) ∈ getRegionsCoverRange range_regions c s e <-> c_regions c !! id = Some r /\ meets r s e.
Proof.
  unfold getRegionsCoverRange. rewrite list_elem_of_filter, (elem_of_range range_regions range_regions_perm).
  cbn [snd]. unfold meets.
  destruct (bleb_spec e (rm_StartKey (Meta r))) as [A|A], (bleb_spec (rm_EndKey (Meta r)) s) as [B|B];
    case_bool_decide as C; cbn [andb orb negb]; rewrite ?not_ble in *;
    rewrite <- ?not_blt in *; naive_solver.
Qed.

(** [evacuateOldRegionRanges] frees the keys of the range, and no other. *)
Lemma evacuateOldRegionRanges_spec c s e :
  cinv c (fun _ => True) -> 0 <= c_id c ->
  c_id c + 2 * Z.of_nat (size (c_regions c)) < u64_mod -> s <b e ->
  exists c', evacuateOldRegionRanges range_regions range_stores c s e = Some c' /\
    cinv c' (fun k => ~ key_range s e k) /\ extends c c' (2 * Z.of_nat (size (c_regions c))).
Proof.
  intros Inv L0 L2 Lse. unfold evacuateOldRegionRanges.
  assert (length (getRegionsCoverRange range_regions c s e) <= size (c_regions c))%nat as Ls.
  { unfold getRegionsCoverRange. etransitivity; [apply length_filter|].
    rewrite range_regions_perm. by rewrite length_map_to_list. }
  destruct (evacuate_loop_spec (getRegionsCoverRange range_regions c s e) c (fun _ => True) s e)
    as (c' & E & I & X); [done|done|lia|done| | |].
  - unfold getRegionsCoverRange. apply NoDup_fst_filter.
    rewrite range_regions_perm. apply NoDup_fst_map_to_list.
  - apply Forall_forall. intros [id r] Hp. by apply getRegionsCoverRange_meets in Hp.
  - exists c'. split; [done|]. split.
    + eapply cinv_ext; [|exact I]. intros k. cbn. split; [|tauto]. intros [_ N] K. apply N.
      split; [done|]. destruct (proj1 (cover_in _ _ (ci_cover _ _ Inv) k) Logic.I) as (id & r & Hr & Hk).
      apply Exists_exists. exists (id, r). split; [|done]. apply getRegionsCoverRange_meets.
      split; [done|]. apply region_contains_spec in Hk as [A B]. destruct K as [K1 K2].
      assert (e <> []) as Ne by (intros ->; by apply (proj2 (not_blt s [])) in Lse; [|apply nil_ble]).
      destruct K2 as [K2|K2]; [done|]. split; [by eapply ble_blt_trans|].
      destruct B as [B|B]; [by left|]. right. by eapply ble_blt_trans.
    + destruct X as (X1 & X2 & X3). split_and!; [lia|done|done].
Qed.

(** ** New regions *)

(** The first keys of the groups after the first one cut [from, to). *)
Fixpoint cuts (from to : bytes) (gs : list (list Pair)) : Prop :=
  match gs with
  | [] => True
  | g :: gs' =>
      match gs' with
      | [] => from <b to
      | g' :: _ => exists k, first_key g' = Some k /\ from <b k /\ k <b to /\ cuts k to gs'
      end
  end.

Lemma createNewRegions_spec gs c P from to :
  cinv c P -> 0 <= c_id c -> c_id c + 2 * Z.of_nat (length gs) < u64_mod ->
  gs <> [] -> cuts from to gs -> (forall k, key_range from to k -> ~ P k) -> to <> [] ->
  exists c', createNewRegions range_stores c gs from to = Some c' /\
    cinv c' (fun k => P k \/ key_range from to k) /\ c_mvccStore c' = c_mvccStore c.
Proof.
  unfold createNewRegions. revert c P from.
  induction gs as [|g gs IH]; intros c P from Inv L0 L2 Ne Cu Fr Nt; [done|].
  cbn [length] in L2. cbn [createNewRegions_loop].
  destruct gs as [|g' gs].
  - cbn [mbind option_bind]. destruct (cinv_alloc c P from to) as (r & c1 & E & Ei & I1 & X & _);
      [done|done|simpl in L2; lia|by right|done|].
    rewrite E. cbn [mbind option_bind createNewRegions_loop]. eexists. split; [reflexivity|].
    split; [done|]. apply X.
  - destruct Cu as (k & Ek & Lk & Lt & Cu). rewrite Ek. cbn [mbind option_bind].
    destruct (cinv_alloc c P from k) as (r & c1 & E & Ei & I1 & X & _);
      [done|done|simpl in L2; lia|by right| |].
    { intros x [X1 X2]. apply Fr. split; [done|]. right. destruct X2 as [->|X2].
      - by apply (proj2 (not_blt from [])) in Lk; [|apply nil_ble].
      - by eapply blt_trans. }
    rewrite E. cbn [mbind option_bind].
    destruct (IH _ _ k I1) as (c2 & E2 & I2 & S2); [by apply X| |done|done| |done|].
    + destruct X as [X _]. simpl in L2 |- *. simpl in X. lia.
    + assert (k <> []) as Nk by (intros ->; by apply (proj2 (not_blt from [])) in Lk; [|apply nil_ble]).
      intros x [X1 X2] [Q|[Q1 [Q2|Q2]]]; [|done|by apply not_blt in X1].
      apply (Fr x); [|done]. split; [|done]. eapply ble_trans; [by apply blt_ble|done].
    + exists c2. split; [done|]. split; [|destruct X as (_ & _ & X); congruence].
      eapply cinv_ext; [|exact I2]. intros x. cbn. unfold key_range.
      pose proof (not_blt x k). pose proof (blt_trans x k to).
      pose proof (ble_trans from k x (blt_ble _ _ Lk)).
      destruct (decide (x <b k)), (decide (k = [])) as [->|]; try tauto.
      by apply (proj2 (not_blt from [])) in Lk; [|apply nil_ble].
Qed.

Lemma NewMvccKey_lt k k' : k <b k' -> NewMvccKey k <b NewMvccKey k'.
Proof.
  intros L. unfold NewMvccKey. destruct (decide (k' = [])) as [->|N'].
  { by apply (proj2 (not_blt k [])) in L; [|apply nil_ble]. }
  case_decide; [apply nil_blt, EncodeBytes_nonempty|].
  unfold blt. rewrite <- (app_nil_r (EncodeBytes [] k)), <- (app_nil_r (EncodeBytes [] k')).
  rewrite EncodeBytes_order; [done|]. by apply blt_neq.
Qed.

Lemma NewMvccKey_le k k' : k <=b k' -> NewMvccKey k <=b NewMvccKey k'.
Proof. intros [L| ->]%ble_iff; [by apply blt_ble, NewMvccKey_lt|apply ble_refl]. Qed.

(** Groups of pairs in key order cut the range of their keys. *)
Lemma cuts_sorted gs from to :
  Forall (fun g => g <> []) gs -> StronglySorted blt (pair_Key <$> (gs ≫= id)) ->
  Forall (fun k => k <b to) (pair_Key <$> (gs ≫= id)) ->
  match gs with [] => True | g :: _ => exists k, first_key g = Some k /\ from <=b k end ->
  cuts from (NewMvccKey to) gs.
Proof.
  revert from. induction gs as [|g gs IH]; intros from N S F Hf; [done|].
  apply Forall_cons in N as [Ng N]. cbn [mbind list_bind] in S, F.
  change (mbind id gs) with (gs ≫= id) in S, F. unfold id at 1 in S. unfold id at 1 in F.
  rewrite fmap_app in S, F. destruct Hf as (k & Ek & Lk).
  destruct g as [|p g]; [done|]. injection Ek as <-.
  assert (pair_Key p <b to) as Lp by (apply Forall_app in F as [F _]; cbn in F; by apply Forall_cons in F as [F _]).
  apply NewMvccKey_lt in Lp as Lp'. cbn [cuts].
  destruct gs as [|g' gs]; [by eapply ble_blt_trans|].
  apply Forall_cons in N as N'. destruct N' as [Ng' N']. destruct g' as [|p' g']; [done|].
  exists (NewMvccKey (pair_Key p')). split; [done|].
  assert (pair_Key p <b pair_Key p') as Lpp.
  { apply (StronglySorted_app_1_elem_of _ _ _ (pair_Key p) (pair_Key p') S);
      cbn; by left. }
  split; [by eapply ble_blt_trans, NewMvccKey_lt|]. split.
  { apply NewMvccKey_lt. apply Forall_app in F as [_ F]. cbn in F. by apply Forall_cons in F as [F _]. }
  apply IH; [done|by apply StronglySorted_app_1_r in S|by apply Forall_app in F as [_ F]|].
  eexists. split; [reflexivity|]. apply ble_refl.
Qed.

Context (c : Cluster) (s e : bytes) (count : nat).
Context (Hwf : wf (EDB (c_mvccStore c))) (Hp : partition (c_regions c)).
Context (Hid : 0 <= c_id c) (Hids : map_Forall (fun id _ => id <= c_id c) (c_regions c)).
Context (Hse : s <b e) (Hc : (0 < count)%nat).

Definition range_pairs : list Pair := Scan (c_mvccStore c) s e MaxInt32 MaxUint64 IsolationLevel_SI [].

Context (Hroom : c_id c + 2 * Z.of_nat (size (c_regions c) + length range_pairs) < u64_mod).

(** The first two steps of the split. *)
Lemma SplitKeys_groups :
  exists c1 gs, SplitKeys range_regions range_stores c s e count =
      createNewRegions range_stores c1 gs (NewMvccKey s) (NewMvccKey e) /\
    cinv c1 (fun k => ~ key_range (NewMvccKey s) (NewMvccKey e) k) /\
    extends c c1 (2 * Z.of_nat (size (c_regions c))) /\
    gs ≫= id = range_pairs /\ Forall (fun g => g <> []) gs /\ (length gs <= length range_pairs)%nat.
Proof.
  unfold SplitKeys, splitRange.
  destruct (evacuateOldRegionRanges_spec c (NewMvccKey s) (NewMvccKey e)) as (c1 & E1 & I1 & X1);
    [by split; [apply Hp..|]|done|lia|by apply NewMvccKey_lt|].
  rewrite E1. cbn [mbind option_bind]. unfold getEntriesGroupByRegions.
  rewrite !MvccKey_Raw_New. cbn [mbind option_bind]. rewrite decide_False by lia.
  pose proof X1 as (_ & _ & ->). fold range_pairs.
  pose proof (Nat.div_mod_eq (length range_pairs) count) as D.
  destruct (group_pairs_spec (length range_pairs) (length range_pairs / count)
    (length range_pairs mod count) range_pairs) as (E & F & L); [done| |].
  { destruct (decide (length range_pairs / count = 0)%nat) as [Q|]; [right|by left]. rewrite Q in D. lia. }
  eexists c1, _. split; [reflexivity|]. split_and!; [done|done|done| |done].
  by eapply Forall_impl; [exact F|intros ? []].
Qed.

(** C35: [SplitKeys] of a range that holds data keeps the partition: it
    succeeds, and afterwards every key is again in exactly one region. *)
Theorem SplitKeys_partition :
  range_pairs <> [] ->
  exists c', SplitKeys range_regions range_stores c s e count = Some c' /\
    partition (c_regions c') /\ c_mvccStore c' = c_mvccStore c.
Proof.
  intros Np. destruct SplitKeys_groups as (c1 & gs & -> & I1 & X1 & Eg & Ng & Lg).
  destruct (Scan_keys (c_mvccStore c) s e MaxInt32 MaxUint64 IsolationLevel_SI [] Hwf) as [S K].
  fold range_pairs in S, K. rewrite <- Eg in S, K.
  assert (gs <> []) as Ngs by (intros ->; done).
  assert (NewMvccKey e <> []) as Ne.
  { apply NewMvccKey_lt in Hse. intros E. rewrite E in Hse.
    by apply (proj2 (not_blt (NewMvccKey s) [])) in Hse; [|apply nil_ble]. }
  assert (e <> []) as Ne' by (intros ->; done).
  destruct (createNewRegions_spec gs c1 (fun k => ~ key_range (NewMvccKey s) (NewMvccKey e) k)
    (NewMvccKey s) (NewMvccKey e)) as (c2 & E2 & I2 & S2); [done|by apply X1| |done| | |done|].
  - destruct X1 as [X1 _]. lia.
  - apply cuts_sorted; [done|done| |].
    + eapply Forall_impl; [exact K|]. by intros k [_ [?|?]].
    + destruct gs as [|g gs]; [done|]. apply Forall_cons in Ng as [Ng _].
      destruct g as [|p g]; [done|]. eexists. split; [reflexivity|]. apply NewMvccKey_le.
      cbn in K. apply Forall_cons in K as [[K _] _]. done.
  - intros k Hk N. by apply N.
  - exists c2. split; [done|]. split; [split; [apply I2|]|destruct X1 as (_ & _ & X1); congruence].
    eapply cover_ext; [|apply I2]. intros k. cbn. split; [done|]. intros _.
    destruct (decide (key_range (NewMvccKey s) (NewMvccKey e) k)); auto.
Qed.

(** [SplitKeys] of a range without data evacuates the range and creates
    no region: afterwards the keys of the range are in no region. *)
Theorem SplitKeys_hole :
  range_pairs = [] ->
  exists c', SplitKeys range_regions range_stores c s e count = Some c' /\
    cover (c_regions c') (fun k => ~ key_range (NewMvccKey s) (NewMvccKey e) k).
Proof.
  intros Ep. destruct SplitKeys_groups as (c1 & gs & -> & I1 & X1 & Eg & Ng & Lg).
  rewrite Ep in Lg. destruct gs; [|simpl in Lg; lia]. exists c1. split; [done|apply I1].
Qed.

End split.
