(* ===== verification/Rpc.v ===== *)
(** * Requests to the mock cluster (mockeinsteindb/rpc.go, errors.go)

    [SendRequest] finds the store at an address, checks the request against the
    region it names and runs a handler on the store.  The client and the
    cluster share one store ([NewEinsteinDBAndFIDelClient]), so the state of a
    handler is the cluster, with the store inside it.  [None] is a panic.

    Not modelled: the interlock (coprocessor) commands, the redirection of
    requests to MilevaDB's own servers, tracing and the failpoints, which do
    nothing unless a test enables them. *)

From stdpp Require Import base gmap list strings.
From Stdlib Require Import Strings.Byte ZArith Lia Sorted.
From S2P Require Import Prelude External Marshal Mvcc MvccOps Cluster.
Open Scope Z_scope.

(** ** Requests and responses (the protobuf fields the handlers use) *)

Record Context : Type := MkContext {
  ctx_RegionId : Z;
  ctx_RegionEpoch : option RegionEpoch;
  ctx_Peer : option Peer;
  ctx_IsolationLevel : Z;
  ctx_ResolvedLocks : list Z;
}.

Inductive KeyError : Type :=
| KE_Locked (Key PrimaryLock : bytes) (LockVersion LockTtl TxnSize LockType LockForUFIDelateTs : Z)
| KE_AlreadyExist (Key : bytes)
| KE_Conflict (Key : bytes) (ConflictTs ConflictCommitTs StartTs : Z)
| KE_Deadlock (LockTs : Z) (LockKey : bytes) (DeadlockKeyHash : Z)
| KE_Retryable (msg : string)
| KE_CommitTsExpired (StartTs AttemptedCommitTs : Z) (Key : bytes) (MinCommitTs : Z)
| KE_TxnNotFound (StartTs : Z) (PrimaryKey : bytes)
| KE_Abort (msg : string).

Inductive RegionErrorKind : Type :=
| StoreNotMatch
| RegionNotFound (RegionId : Z)
| NotLeader (RegionId : Z) (Leader : option Peer)
| EpochNotMatch (CurrentRegions : list RegionMeta)
| RaftEntryTooLarge.

Record RegionError : Type := MkRegionError {
  re_Message : string;
  re_Kind : RegionErrorKind;
}.

Record KvPair : Type := MkKvPair {
  kp_Error : option KeyError;
  kp_Key : bytes;
  kp_Value : option bytes;
}.

(** The commands with a case in [SendRequest].  [ctx] is the context attached
    to the inner request. *)
Inductive Command : Type :=
| CmdGet (ctx : option Context) (Key : bytes) (Version : Z)
| CmdScan (ctx : option Context) (StartKey EndKey : bytes) (Limit Version : Z) (Reverse : bool)
| CmdPrewrite (ctx : option Context) (req : PrewriteRequest)
| CmdPessimisticLock (ctx : option Context) (req : PessimisticLockRequest)
| CmdPessimisticRollback (Keys : list bytes) (StartVersion ForUFIDelateTs : Z)
| CmdCommit (Keys : list bytes) (StartVersion CommitVersion : Z)
| CmdCleanup (Key : bytes) (StartVersion CurrentTs : Z)
| CmdCheckTxnStatus (PrimaryKey : bytes) (LockTs CallerStartTs CurrentTs : Z) (RollbackIfNotExist : bool)
| CmdTxnHeartBeat (PrimaryLock : bytes) (StartVersion AdviseLockTtl : Z)
| CmdBatchGet (ctx : option Context) (Keys : list bytes) (Version : Z)
| CmdBatchRollback (Keys : list bytes) (StartVersion : Z)
| CmdScanLock (MaxVersion : Z)
| CmdResolveLock (StartVersion CommitVersion : Z)
| CmdGC (SafePoint : Z)
| CmdDeleteRange (StartKey EndKey : bytes)
| CmdRawGet (Key : bytes)
| CmdRawBatchGet (Keys : list bytes)
| CmdRawPut (Key Value : bytes)
| CmdRawBatchPut (Pairs : list (bytes * bytes))
| CmdRawDelete (Key : bytes)
| CmdRawBatchDelete (Keys : list bytes)
| CmdRawDeleteRange (StartKey EndKey : bytes)
| CmdRawScan (StartKey EndKey : bytes) (Limit : Z) (Reverse : bool)
| CmdUnsafeDestroyRange
| CmdRegisterLockObserver
| CmdCheckLockObserver
| CmdRemoveLockObserver
| CmdPhysicalScanLock
| CmdMvccGetByKey (Key : bytes)
| CmdMvccGetByStartTs (StartTs : Z)
| CmdSplitRegion (SplitKeys : list bytes)
| CmdDebugGetRegionProperties (RegionId : Z).

(** [RegionErrorResponse] is the response of the command's own type in which
    only the field [RegionError] is set. *)
Inductive Response : Type :=
| RegionErrorResponse (e : RegionError)
| GetResponse (err : option KeyError) (value : option bytes)
| ScanResponse (pairs : list KvPair)
| PrewriteResponse (errs : list KeyError)
| PessimisticLockResp (errs : list KeyError) (values : list (option bytes))
| PessimisticRollbackResponse (errs : list KeyError)
| CommitResponse (err : option KeyError)
| CleanupResponse (err : option KeyError) (commitVersion : Z)
| CheckTxnStatusResponse (err : option KeyError) (lockTtl commitVersion action : Z)
| TxnHeartBeatResponse (err : option KeyError) (lockTtl : Z)
| BatchGetResponse (pairs : list KvPair)
| BatchRollbackResponse (err : option KeyError)
| ScanLockResponse (err : option KeyError) (locks : list LockInfo)
| ResolveLockResponse (err : option KeyError)
| GCResponse (err : option KeyError)
| DeleteRangeResponse (err : option string)
| RawGetResponse (value : option bytes)
| RawBatchGetResponse (pairs : list (bytes * option bytes))
| RawPutResponse
| RawBatchPutResponse
| RawDeleteResponse
| RawBatchDeleteResponse
| RawDeleteRangeResponse
| RawScanResponse (pairs : list KvPair)
| MvccGetByKeyResponse (info : option MvccInfo)
| MvccGetByStartTsResponse (info : option MvccInfo) (key : bytes)
| SplitRegionResponse (regions : list RegionMeta)
| GetRegionPropertiesResponse (num_rows : Z).

(** A request: its context, its body and the size of the encoded body. *)
Record Request : Type := MkRequest {
  rq_Context : Context;
  rq_Cmd : Command;
  rq_Size : Z;
}.

(** ** Error messages (errors.go) *)

Definition hex_digit (n : N) : Ascii.ascii :=
  Ascii.ascii_of_N (if (n <? 10)%N then 48 + n else 87 + n)%N.

(** [hex.EncodeToString]. *)
Fixpoint hex_encode (b : bytes) : string :=
  match b with
  | [] => EmptyString
  | x :: b' =>
      String (hex_digit (N.div (Byte.to_N x) 16))
        (String (hex_digit (N.modulo (Byte.to_N x) 16)) (hex_encode b'))
  end.

Section error_string.
Context `{GoFmt}.
Local Open Scope string_scope.

(** The [Error] method of each error type. *)
Definition error_string (e : goerror) : string :=
  match e with
  | ErrLocked Key Primary StartTS ForUFIDelateTS _ _ LockType =>
      "key is locked, key: " +:+ Quote Key +:+ ", primary: " +:+ Quote Primary +:+
      ", txnStartTS: " +:+ FormatInt StartTS +:+ ", forUFIDelateTs: " +:+ FormatInt ForUFIDelateTS +:+
      ", LockType: " +:+ OpString LockType
  | ErrKeyAlreadyExist Key => "key already exist, key: " +:+ Quote Key
  | ErrRetryable msg => "retryable: " +:+ msg
  | ErrAbort msg => "abort: " +:+ msg
  | ErrAlreadyCommitted _ => "txn already committed"
  | ErrAlreadyRollbacked startTS key =>
      "txn=" +:+ FormatInt startTS +:+ " on key=" +:+ hex_encode key +:+ " is already rolled back"
  | ErrConflict _ _ _ _ => "write conflict"
  | ErrDeadlock _ _ _ => "deadlock"
  | ErrCommitTSExpired _ _ _ _ => "commit ts expired"
  | ErrTxnNotFound _ _ => "txn not found"
  | ErrOther msg => msg
  | ErrExternal msg => msg
  end.
End error_string.

Section rpc.
Context `{Codec} `{LevelDB} `{Kvrpcpb} `{Oracle} `{Deadlock} `{Metapb} `{GoFmt}.
Context (range_regions : gmap Z Region -> list (Z * Region)).
Context (range_stores : gmap Z CausetStore -> list (Z * CausetStore)).

(** [metapb.StoreState_Tombstone]. *)
Context (StoreState_Tombstone : Z).

(** ** Conversions *)

Definition convertToKeyError (err : goerror) : option KeyError :=
  match err with
  | ErrLocked Key Primary StartTS ForUFIDelateTS TTL TxnSize LockType =>
      key ← MvccKey_Raw Key;
      Some (KE_Locked key Primary StartTS TTL TxnSize LockType ForUFIDelateTS)
  | ErrKeyAlreadyExist Key => Some (KE_AlreadyExist Key)
  | ErrConflict StartTS ConflictTS ConflictCommitTS Key =>
      Some (KE_Conflict Key ConflictTS ConflictCommitTS StartTS)
  | ErrDeadlock LockTS LockKey DealockKeyHash => Some (KE_Deadlock LockTS LockKey DealockKeyHash)
  | ErrRetryable _ => Some (KE_Retryable (error_string err))
  | ErrCommitTSExpired StartTs AttemptedCommitTs Key MinCommitTs =>
      Some (KE_CommitTsExpired StartTs AttemptedCommitTs Key MinCommitTs)
  | ErrTxnNotFound StartTs PrimaryKey => Some (KE_TxnNotFound StartTs PrimaryKey)
  | _ => Some (KE_Abort (error_string err))
  end.

(** The errors of a list that are not nil, converted. *)
Definition convertToKeyErrors (errs : list (option goerror)) : option (list KeyError) :=
  mapM convertToKeyError (non_nil_errors errs).

(** The error field of a response; nil stays nil. *)
Definition convert_err (err : option goerror) : option (option KeyError) :=
  match err with None => Some None | Some e => k ← convertToKeyError e; Some (Some k) end.

Definition convertToPbPair (p : Pair) : option KvPair :=
  match pair_Err p with
  | None => Some (MkKvPair None (pair_Key p) (pair_Value p))
  | Some e => k ← convertToKeyError e; Some (MkKvPair (Some k) [] None)
  end.

Definition convertToPbPairs (pairs : list Pair) : option (list KvPair) := mapM convertToPbPair pairs.

(** ** The handler and its checks *)

Record rpcHandler : Type := MkHandler {
  h_cluster : Cluster;
  h_storeID : Z;
  h_startKey : bytes;
  h_endKey : bytes;
  h_isolationLevel : Z;
  h_resolvedLocks : list Z;
}.

Definition isTiFlashStore (causetstore : option StoreMeta) : bool :=
  match causetstore with
  | None => false
  | Some s => existsb (fun l : string * string => String.eqb l.1 "engine" && String.eqb l.2 "tiflash")
                (sm_Labels s)
  end.

(** The last peer of a list with the property, as the loop leaves it. *)
Definition last_peer (f : Peer -> bool) (ps : list Peer) : option Peer :=
  fold_left (fun acc p => if f p then Some p else acc) ps None.

#[export] Instance RegionEpoch_eq_dec : EqDecision RegionEpoch.
Proof. solve_decision. Defined.

(** The error of the check, or the handler set up for the region. *)
Definition checkRequestContext (h : rpcHandler) (ctx : Context) : option RegionError * rpcHandler :=
  let err msg kind := (Some (MkRegionError msg kind), h) in
  let not_found := err "region not found"%string (RegionNotFound (ctx_RegionId ctx)) in
  if (match ctx_Peer ctx with Some p => negb (peer_StoreId p =? h_storeID h) | None => false end)
  then err "causetstore not match"%string StoreNotMatch
  else
    match GetRegion (h_cluster h) (ctx_RegionId ctx) with
    | None => not_found
    | Some (region, leaderID) =>
        let storePeer := last_peer (fun p => peer_StoreId p =? h_storeID h) (rm_Peers region) in
        let leaderPeer := last_peer (fun p => peer_Id p =? leaderID) (rm_Peers region) in
        match storePeer with
        | None => not_found
        | Some storePeer =>
            match leaderPeer with
            | None => err "no leader"%string (NotLeader (ctx_RegionId ctx) None)
            | Some leaderPeer =>
                if negb (peer_Id storePeer =? peer_Id leaderPeer)
                   && negb (isTiFlashStore (GetStore (h_cluster h) (peer_StoreId storePeer)))
                then err "not leader"%string (NotLeader (ctx_RegionId ctx) (Some leaderPeer))
                else if negb (bool_decide (rm_RegionEpoch region = ctx_RegionEpoch ctx)) then
                  let nextRegion := GetRegionByKey range_regions (h_cluster h) (rm_EndKey region) in
                  err "epoch not match"%string
                    (EpochNotMatch (region :: match nextRegion with
                                              | Some (m, _) => [m]
                                              | None => []
                                              end))
                else
                  (None, MkHandler (h_cluster h) (h_storeID h) (rm_StartKey region) (rm_EndKey region)
                           (ctx_IsolationLevel ctx) (ctx_ResolvedLocks ctx))
            end
        end
    end.

Definition requestMaxSize : Z := 8 * 1024 * 1024.

Definition checkRequestSize (size : Z) : option RegionError :=
  if requestMaxSize <=? size then Some (MkRegionError ""%string RaftEntryTooLarge) else None.

Definition checkRequest (h : rpcHandler) (ctx : Context) (size : Z) : option RegionError * rpcHandler :=
  match checkRequestContext h ctx with
  | (Some err, h) => (Some err, h)
  | (None, h) => (checkRequestSize size, h)
  end.

Definition checkKeyInRegion (h : rpcHandler) (key : bytes) : bool :=
  regionContains (h_startKey h) (h_endKey h) (NewMvccKey key).

(** [if !h.checkKeyInRegion(key) { panic }], for one key and for a loop. *)
Definition key_in_region (h : rpcHandler) (key : bytes) : option unit :=
  if checkKeyInRegion h key then Some tt else None.
Definition keys_in_region (h : rpcHandler) (keys : list bytes) : option unit :=
  if forallb (checkKeyInRegion h) keys then Some tt else None.

Definition set_store (c : Cluster) (mvcc : MVCCLevelDB) : Cluster :=
  MkCluster (c_id c) (c_stores c) (c_regions c) mvcc (c_delayEvents c).

Definition h_mvcc (h : rpcHandler) : MVCCLevelDB := c_mvccStore (h_cluster h).

(** The result of a handler: the response and the cluster afterwards. *)
Abbreviation handled := (option (Response * Cluster)).

Definition reply (h : rpcHandler) (r : Response) : handled := Some (r, h_cluster h).
Definition reply_store (h : rpcHandler) (mvcc : MVCCLevelDB) (r : Response) : handled :=
  Some (r, set_store (h_cluster h) mvcc).

(** [ctx.GetResolvedLocks()] of a possibly nil context. *)
Definition GetResolvedLocks (ctx : option Context) : list Z :=
  match ctx with Some c => ctx_ResolvedLocks c | None => [] end.

(** ** Handlers *)

Definition handleKvGet (h : rpcHandler) (ctx : option Context) (Key : bytes) (Version : Z) : handled :=
  _ ← key_in_region h Key;
  match Get (h_mvcc h) Key Version (h_isolationLevel h) (GetResolvedLocks ctx) with
  | Err err => k ← convertToKeyError err; reply h (GetResponse (Some k) None)
  | Ok val => reply h (GetResponse None val)
  end.

(** The pairs of a scan; [ctx.ResolvedLocks] of a nil context panics. *)
Definition handleKvScan (h : rpcHandler) (ctx : option Context) (StartKey EndKey : bytes)
    (Limit Version : Z) (Reverse : bool) : option (list KvPair) :=
  endKey ← MvccKey_Raw (h_endKey h);
  let clip (k : bytes) :=
    if negb (bool_decide (k = [])) &&
       (bool_decide (endKey = []) || bltb (NewMvccKey k) (h_endKey h))
    then k else endKey in
  pairs ←
    (if negb Reverse then
       _ ← key_in_region h StartKey;
       c ← ctx;
       Some (Scan (h_mvcc h) StartKey (clip EndKey) Limit Version (h_isolationLevel h)
               (ctx_ResolvedLocks c))
     else
       _ ← key_in_region h EndKey;
       c ← ctx;
       ReverseScan (h_mvcc h) EndKey (clip StartKey) Limit Version (h_isolationLevel h)
         (ctx_ResolvedLocks c));
  convertToPbPairs pairs.

Definition handleKvPrewrite (h : rpcHandler) (ctx : option Context) (req : PrewriteRequest) : handled :=
  c ← ctx;
  let '(_, cluster) := handleDelay (h_cluster h) (pw_StartVersion req) (ctx_RegionId c) in
  _ ← keys_in_region h (m_Key <$> pw_Mutations req);
  '(errs, mvcc) ← Prewrite (h_mvcc h) req;
  errs ← convertToKeyErrors errs;
  Some (PrewriteResponse errs, set_store cluster mvcc).

(** The store's [PessimisticLock] converts its errors itself. *)
Definition handleKvPessimisticLock (h : rpcHandler) (ctx : option Context)
    (req : PessimisticLockRequest) : handled :=
  _ ← keys_in_region h (m_Key <$> pl_Mutations req);
  c ← ctx;
  let '(_, cluster) := handleDelay (h_cluster h) (pl_StartVersion req) (ctx_RegionId c) in
  let '(resp, mvcc) := PessimisticLock (h_mvcc h) req in
  errs ← mapM convertToKeyError (plr_Errors resp);
  Some (PessimisticLockResp errs (plr_Values resp), set_store cluster mvcc).

Definition handleKvPessimisticRollback (h : rpcHandler) (Keys : list bytes)
    (StartVersion ForUFIDelateTs : Z) : handled :=
  _ ← keys_in_region h Keys;
  let '(errs, mvcc) := PessimisticRollback (h_mvcc h) Keys StartVersion ForUFIDelateTs in
  errs ← convertToKeyErrors errs;
  reply_store h mvcc (PessimisticRollbackResponse errs).

Definition handleKvCommit (h : rpcHandler) (Keys : list bytes) (StartVersion CommitVersion : Z) : handled :=
  _ ← keys_in_region h Keys;
  let '(err, mvcc) := Commit (h_mvcc h) Keys StartVersion CommitVersion in
  err ← convert_err err;
  reply_store h mvcc (CommitResponse err).

Definition handleKvCleanup (h : rpcHandler) (Key : bytes) (StartVersion CurrentTs : Z) : handled :=
  _ ← key_in_region h Key;
  let '(err, mvcc) := Cleanup (h_mvcc h) Key StartVersion CurrentTs in
  match err with
  | Some (ErrAlreadyCommitted commitTS) => reply_store h mvcc (CleanupResponse None commitTS)
  | _ => err ← convert_err err; reply_store h mvcc (CleanupResponse err 0)
  end.

Definition handleKvCheckTxnStatus (h : rpcHandler) (PrimaryKey : bytes)
    (LockTs CallerStartTs CurrentTs : Z) (RollbackIfNotExist : bool) : handled :=
  _ ← key_in_region h PrimaryKey;
  let '(st, mvcc) :=
    CheckTxnStatus (h_mvcc h) PrimaryKey LockTs CallerStartTs CurrentTs RollbackIfNotExist in
  match ts_err st with
  | Some err =>
      k ← convertToKeyError err; reply_store h mvcc (CheckTxnStatusResponse (Some k) 0 0 0)
  | None => reply_store h mvcc (CheckTxnStatusResponse None (ts_ttl st) (ts_commitTS st) (ts_action st))
  end.

Definition handleTxnHeartBeat (h : rpcHandler) (PrimaryLock : bytes) (StartVersion AdviseLockTtl : Z) : handled :=
  _ ← key_in_region h PrimaryLock;
  let '(r, mvcc) := TxnHeartBeat (h_mvcc h) PrimaryLock StartVersion AdviseLockTtl in
  match r with
  | Err err => k ← convertToKeyError err; reply_store h mvcc (TxnHeartBeatResponse (Some k) 0)
  | Ok ttl => reply_store h mvcc (TxnHeartBeatResponse None ttl)
  end.

Definition handleKvBatchGet (h : rpcHandler) (ctx : option Context) (Keys : list bytes) (Version : Z) : handled :=
  _ ← keys_in_region h Keys;
  pairs ← convertToPbPairs
    (BatchGet (h_mvcc h) Keys Version (h_isolationLevel h) (GetResolvedLocks ctx));
  reply h (BatchGetResponse pairs).

Definition handleMvccGetByKey (h : rpcHandler) (Key : bytes) : handled :=
  _ ← key_in_region h Key;
  info ← MvccGetByKey (h_mvcc h) Key;
  reply h (MvccGetByKeyResponse (ok_option info)).

Definition handleMvccGetByStartTS (h : rpcHandler) (StartTs : Z) : handled :=
  '(info, key) ← MvccGetByStartTS (h_mvcc h) StartTs;
  reply h (MvccGetByStartTsResponse (ok_option info) key).

Definition handleKvBatchRollback (h : rpcHandler) (Keys : list bytes) (StartVersion : Z) : handled :=
  let '(err, mvcc) := Rollback (h_mvcc h) Keys StartVersion in
  err ← convert_err err;
  reply_store h mvcc (BatchRollbackResponse err).

Definition handleKvScanLock (h : rpcHandler) (MaxVersion : Z) : handled :=
  startKey ← MvccKey_Raw (h_startKey h);
  endKey ← MvccKey_Raw (h_endKey h);
  match ScanLock (h_mvcc h) startKey endKey MaxVersion with
  | Err err => k ← convertToKeyError err; reply h (ScanLockResponse (Some k) [])
  | Ok locks => reply h (ScanLockResponse None locks)
  end.

Definition handleKvResolveLock (h : rpcHandler) (StartVersion CommitVersion : Z) : handled :=
  startKey ← MvccKey_Raw (h_startKey h);
  endKey ← MvccKey_Raw (h_endKey h);
  let '(err, mvcc) := ResolveLock (h_mvcc h) startKey endKey StartVersion CommitVersion in
  err ← convert_err err;
  reply_store h mvcc (ResolveLockResponse err).

Definition handleKvGC (h : rpcHandler) (SafePoint : Z) : handled :=
  startKey ← MvccKey_Raw (h_startKey h);
  endKey ← MvccKey_Raw (h_endKey h);
  let '(err, mvcc) := GC (h_mvcc h) startKey endKey SafePoint in
  err ← convert_err err;
  reply_store h mvcc (GCResponse err).

Definition handleKvDeleteRange (h : rpcHandler) (StartKey EndKey : bytes) : handled :=
  _ ← key_in_region h StartKey;
  let '(err, mvcc) := DeleteRange (h_mvcc h) StartKey EndKey in
  reply_store h mvcc (DeleteRangeResponse (error_string <$> err)).

(** *** Raw commands *)

Definition handleKvRawGet (h : rpcHandler) (Key : bytes) : handled :=
  reply h (RawGetResponse (RawGet (h_mvcc h) Key)).

Definition handleKvRawBatchGet (h : rpcHandler) (Keys : list bytes) : handled :=
  reply h (RawBatchGetResponse (zip Keys (RawBatchGet (h_mvcc h) Keys))).

Definition handleKvRawPut (h : rpcHandler) (Key Value : bytes) : handled :=
  reply_store h (RawPut (h_mvcc h) Key Value) RawPutResponse.

Definition handleKvRawBatchPut (h : rpcHandler) (Pairs : list (bytes * bytes)) : handled :=
  mvcc ← RawBatchPut (h_mvcc h) Pairs.*1 Pairs.*2;
  reply_store h mvcc RawBatchPutResponse.

Definition handleKvRawDelete (h : rpcHandler) (Key : bytes) : handled :=
  reply_store h (RawDelete (h_mvcc h) Key) RawDeleteResponse.

Definition handleKvRawBatchDelete (h : rpcHandler) (Keys : list bytes) : handled :=
  reply_store h (RawBatchDelete (h_mvcc h) Keys) RawBatchDeleteResponse.

Definition handleKvRawDeleteRange (h : rpcHandler) (StartKey EndKey : bytes) : handled :=
  reply_store h (RawDeleteRange (h_mvcc h) StartKey EndKey) RawDeleteRangeResponse.

Definition handleKvRawScan (h : rpcHandler) (StartKey EndKey : bytes) (Limit : Z) (Reverse : bool) : handled :=
  let pairs :=
    if Reverse then
      let lowerBound := if bltb (h_startKey h) EndKey then EndKey else h_startKey h in
      RawReverseScan (h_mvcc h) StartKey lowerBound Limit
    else
      let upperBound :=
        if negb (bool_decide (EndKey = [])) &&
           (bool_decide (h_endKey h = []) || bltb EndKey (h_endKey h))
        then EndKey else h_endKey h in
      RawScan (h_mvcc h) StartKey upperBound Limit in
  kvs ← convertToPbPairs pairs;
  reply h (RawScanResponse kvs).

(** *** Splitting regions *)

(** [first] is whether the key is the first one of the request. *)
Fixpoint handleSplitRegion_loop (c : Cluster) (first : bool) (keys : list bytes)
    (regions : list RegionMeta) : option (list RegionMeta * Cluster) :=
  match keys with
  | [] => Some (regions, c)
  | key :: keys' =>
      let k := NewMvccKey key in
      '(region, _) ← GetRegionByKey range_regions c k;
      if decide (rm_StartKey region = key) then handleSplitRegion_loop c false keys' regions
      else
        let regions := if first then regions ++ [region] else regions in
        let '(newRegionID, c) := AllocID c in
        let '(newPeerIDs, c) := AllocIDs c (length (rm_Peers region)) in
        leader ← head newPeerIDs;
        '(newRegion, c) ← SplitRaw c (rm_Id region) newRegionID k newPeerIDs leader;
        handleSplitRegion_loop c false keys' (regions ++ [newRegion])
  end.

Definition handleSplitRegion (h : rpcHandler) (SplitKeys : list bytes) : handled :=
  '(regions, c) ← handleSplitRegion_loop (h_cluster h) true SplitKeys [];
  Some (SplitRegionResponse regions, c).

(** ** SendRequest *)

Definition getAndCheckStoreByAddr (c : Cluster) (addr : string) : res StoreMeta :=
  causetstore ← GetAndCheckStoreByAddr range_stores c addr;
  match causetstore with
  | None => Err (ErrOther "connect fail")
  | Some s =>
      if (sm_State s =? StoreState_Offline) || (sm_State s =? StoreState_Tombstone)
      then Err (ErrOther "connection refused")
      else Ok s
  end.

(** [ctxErr] is the error of the Go context, if it is done. *)
Definition checkArgs (ctxErr : option goerror) (c : Cluster) (addr : string) : res rpcHandler :=
  match ctxErr with
  | Some err => Err err
  | None =>
      causetstore ← getAndCheckStoreByAddr c addr;
      Ok (MkHandler c (sm_Id causetstore) [] [] 0 [])
  end.

Definition MaxUint32 : Z := 4294967295.

(** The case of a command: a region error ends it, otherwise [handle] runs. *)
Definition checked (h : rpcHandler) (req : Request) (handle : rpcHandler -> handled)
    : option (res Response * Cluster) :=
  match checkRequest h (rq_Context req) (rq_Size req) with
  | (Some err, h) => Some (Ok (RegionErrorResponse err), h_cluster h)
  | (None, h) => '(resp, c) ← handle h; Some (Ok resp, c)
  end.

Definition SendRequest (ctxErr : option goerror) (c : Cluster) (addr : string) (req : Request)
    : option (res Response * Cluster) :=
  match checkArgs ctxErr c addr with
  | Err err => Some (Err err, c)
  | Ok handler =>
      let checked := checked handler req in
      let unimplemented := Some (Err (ErrOther "unimplemented"), c) in
      match rq_Cmd req with
      | CmdGet ctx k v => checked (fun h => handleKvGet h ctx k v)
      | CmdScan ctx s e l v r => checked (fun h =>
          pairs ← handleKvScan h ctx s e l v r; reply h (ScanResponse pairs))
      | CmdPrewrite ctx r => checked (fun h => handleKvPrewrite h ctx r)
      | CmdPessimisticLock ctx r => checked (fun h => handleKvPessimisticLock h ctx r)
      | CmdPessimisticRollback ks s f => checked (fun h => handleKvPessimisticRollback h ks s f)
      | CmdCommit ks s v => checked (fun h => handleKvCommit h ks s v)
      | CmdCleanup k s t => checked (fun h => handleKvCleanup h k s t)
      | CmdCheckTxnStatus k l s t r => checked (fun h => handleKvCheckTxnStatus h k l s t r)
      | CmdTxnHeartBeat k s t => checked (fun h => handleTxnHeartBeat h k s t)
      | CmdBatchGet ctx ks v => checked (fun h => handleKvBatchGet h ctx ks v)
      | CmdBatchRollback ks s => checked (fun h => handleKvBatchRollback h ks s)
      | CmdScanLock v => checked (fun h => handleKvScanLock h v)
      | CmdResolveLock s v => checked (fun h => handleKvResolveLock h s v)
      | CmdGC p => checked (fun h => handleKvGC h p)
      | CmdDeleteRange s e => checked (fun h => handleKvDeleteRange h s e)
      | CmdRawGet k => checked (fun h => handleKvRawGet h k)
      | CmdRawBatchGet ks => checked (fun h => handleKvRawBatchGet h ks)
      | CmdRawPut k v => checked (fun h => handleKvRawPut h k v)
      | CmdRawBatchPut ps => checked (fun h => handleKvRawBatchPut h ps)
      | CmdRawDelete k => checked (fun h => handleKvRawDelete h k)
      | CmdRawBatchDelete ks =>
          (* the case sets the region error but does not return *)
          let '(_, h) := checkRequest handler (rq_Context req) (rq_Size req) in
          '(resp, c) ← handleKvRawBatchDelete h ks;
          Some (Ok resp, c)
      | CmdRawDeleteRange s e => checked (fun h => handleKvRawDeleteRange h s e)
      | CmdRawScan s e l r => checked (fun h => handleKvRawScan h s e l r)
      | CmdUnsafeDestroyRange => None
      | CmdRegisterLockObserver => unimplemented
      | CmdCheckLockObserver => unimplemented
      | CmdRemoveLockObserver => unimplemented
      | CmdPhysicalScanLock => unimplemented
      | CmdMvccGetByKey k => checked (fun h => handleMvccGetByKey h k)
      | CmdMvccGetByStartTs s => checked (fun h => handleMvccGetByStartTS h s)
      | CmdSplitRegion ks => checked (fun h => handleSplitRegion h ks)
      | CmdDebugGetRegionProperties regionID =>
          '(region, _) ← GetRegion c regionID;
          startKey ← MvccKey_Raw (rm_StartKey region);
          endKey ← MvccKey_Raw (rm_EndKey region);
          pairs ← handleKvScan handler (Some (MkContext 0 None None 0 [])) startKey endKey
                    MaxUint32 MaxUint64 false;
          Some (Ok (GetRegionPropertiesResponse (Z.of_nat (length pairs))), c)
      end
  end.
End rpc.
