(* ===== verification/RpcGuard.v ===== *)
(** * What a request may do

    Region-checked commands run only in the region, on the leader and with the
    epoch the request names ([SendRequest_guard]); a client that routes a read
    by [GetRegionByKey] is answered from the store ([SendRequest_Get]); two
    commands do not do what the others do ([RawBatchDelete_unguarded],
    [SplitRegion_twice]). *)

From stdpp Require Import base gmap list sorting strings.
From Stdlib Require Import Strings.Byte ZArith Lia Sorted.
From S2P Require Import Prelude External Marshal Mvcc MvccOps MvccView MvccRead MvccScan MvccReverse Cluster ClusterRegions Rpc.
Open Scope Z_scope.

(** The commands whose case runs a handler only after [checkRequest]. *)
Definition region_checked (cmd : Command) : bool :=
  match cmd with
  | CmdRawBatchDelete _ | CmdUnsafeDestroyRange | CmdRegisterLockObserver | CmdCheckLockObserver
  | CmdRemoveLockObserver | CmdPhysicalScanLock | CmdDebugGetRegionProperties _ => false
  | _ => true
  end.

Lemma last_peer_acc (f : Peer -> bool) ps acc :
  fold_left (fun (acc : option Peer) p => if f p then Some p else acc) ps acc =
  match last_peer f ps with Some p => Some p | None => acc end.
Proof.
  revert acc. induction ps as [|p ps IH]; intros acc; [done|]. unfold last_peer. simpl.
  rewrite !IH. by destruct (last_peer f ps), (f p).
Qed.

Lemma last_peer_cons f p ps :
  last_peer f (p :: ps) =
  match last_peer f ps with Some q => Some q | None => if f p then Some p else None end.
Proof. unfold last_peer at 1. simpl. apply last_peer_acc. Qed.

Lemma last_peer_Some f ps p : last_peer f ps = Some p -> p ∈ ps /\ f p = true.
Proof.
  induction ps as [|q ps IH]; [done|]. rewrite last_peer_cons. intros E.
  destruct (last_peer f ps) as [p'|].
  - injection E as ->. destruct (IH eq_refl). split; [by right|done].
  - destruct (f q) eqn:F; [|done]. injection E as ->. split; [by left|done].
Qed.

(** The only peer with a field is the last one. *)
Lemma last_peer_unique (g : Peer -> Z) ps p :
  NoDup (g <$> ps) -> p ∈ ps -> last_peer (fun q => g q =? g p) ps = Some p.
Proof.
  intros ND Hp. destruct (last_peer (fun q => g q =? g p) ps) as [q|] eqn:E.
  - apply last_peer_Some in E as [Hq Eq]. apply Z.eqb_eq in Eq. f_equal.
    clear -ND Hp Hq Eq. induction ps as [|r ps IH]; [by inversion Hp|].
    rewrite fmap_cons in ND. apply NoDup_cons in ND as [Nin ND].
    assert (forall x, x ∈ ps -> g x <> g r) as D.
    { intros x Hx Ex. apply Nin. rewrite <- Ex. by apply list_elem_of_fmap_2. }
    apply elem_of_cons in Hp as [->|Hp], Hq as [->|Hq]; [done| | |by apply IH].
    + by apply D in Hq.
    + symmetry in Eq. by apply D in Hp.
  - exfalso. clear ND. revert E. induction ps as [|r ps IH]; [by inversion Hp|].
    rewrite last_peer_cons. apply elem_of_cons in Hp as [->|Hp].
    + rewrite Z.eqb_refl. by destruct (last_peer _ ps).
    + destruct (last_peer _ ps); [done|]. by intros _; apply IH.
Qed.

Section guard.
Context `{CodecLaws} `{LevelDBLaws} `{Kvrpcpb} `{Oracle} `{Deadlock} `{Metapb} `{GoFmt}.
Context (range_regions : gmap Z Region -> list (Z * Region)).
Context (range_stores : gmap Z CausetStore -> list (Z * CausetStore)).
Context (range_regions_perm : forall m, range_regions m ≡ₚ map_to_list m).
Context (StoreState_Tombstone : Z).

(** The store may serve the request: it has a peer of the region with the
    request's epoch, the region has a leader, and that is the peer, unless
    the store is a TiFlash store. *)
Record admitted (c : Cluster) (storeID : Z) (ctx : Context) (r : Region) : Prop := {
  ad_region : c_regions c !! ctx_RegionId ctx = Some r;
  ad_epoch : rm_RegionEpoch (Meta r) = ctx_RegionEpoch ctx;
  ad_store p : ctx_Peer ctx = Some p -> peer_StoreId p = storeID;
  ad_leader : exists sp lp, sp ∈ rm_Peers (Meta r) /\ lp ∈ rm_Peers (Meta r) /\
    peer_StoreId sp = storeID /\ peer_Id lp = leader r /\
    (peer_Id sp = peer_Id lp \/ isTiFlashStore (GetStore c storeID) = true);
}.

Definition set_region (h : rpcHandler) (ctx : Context) (r : Region) : rpcHandler :=
  MkHandler (h_cluster h) (h_storeID h) (rm_StartKey (Meta r)) (rm_EndKey (Meta r))
    (ctx_IsolationLevel ctx) (ctx_ResolvedLocks ctx).

Lemma checkRequestContext_spec h ctx :
  (exists err, checkRequestContext range_regions h ctx = (Some err, h)) \/
  (exists r, checkRequestContext range_regions h ctx = (None, set_region h ctx r) /\
     admitted (h_cluster h) (h_storeID h) ctx r).
Proof.
  unfold checkRequestContext.
  destruct (match ctx_Peer ctx with
    | Some p => negb (peer_StoreId p =? h_storeID h) | None => false end) eqn:Es; [left; eauto|].
  unfold GetRegion. destruct (c_regions (h_cluster h) !! ctx_RegionId ctx) as [r|] eqn:Er;
    cbn [fmap option_fmap option_map]; [|left; eauto].
  destruct (last_peer (fun p => peer_StoreId p =? h_storeID h) (rm_Peers (Meta r))) as [sp|] eqn:Esp;
    [|left; eauto].
  destruct (last_peer (fun p => peer_Id p =? leader r) (rm_Peers (Meta r))) as [lp|] eqn:Elp;
    [|left; eauto].
  apply last_peer_Some in Esp as [Hsp Esp], Elp as [Hlp Elp]. apply Z.eqb_eq in Esp, Elp.
  rewrite Esp. destruct (negb (peer_Id sp =? peer_Id lp) && negb (isTiFlashStore (GetStore (h_cluster h) (h_storeID h))))
    eqn:El; [left; eauto|].
  case_bool_decide as Ee; cbn [negb]; [|left; eauto].
  right. exists r. split; [done|]. split; [done|done| |].
  - intros p Ep. rewrite Ep in Es. apply negb_false_iff in Es. by apply Z.eqb_eq.
  - exists sp, lp. split_and!; [done..|]. apply andb_false_iff in El as [El|El].
    + left. apply negb_false_iff in El. by apply Z.eqb_eq.
    + right. by apply negb_false_iff in El.
Qed.

(** A region-checked command that reaches its handler was admitted. *)
Lemma checked_spec h req handle x :
  checked range_regions h req handle = Some x ->
  (exists err, x = (Ok (RegionErrorResponse err), h_cluster h)) \/
  (exists r resp c, x = (Ok resp, c) /\ admitted (h_cluster h) (h_storeID h) (rq_Context req) r /\
     rq_Size req < requestMaxSize /\ handle (set_region h (rq_Context req) r) = Some (resp, c)).
Proof.
  unfold checked, checkRequest. intros E.
  destruct (checkRequestContext_spec h (rq_Context req)) as [(err & R)|(r & R & A)].
  - rewrite R in E. injection E as <-. left. eauto.
  - rewrite R in E. unfold checkRequestSize in E.
    destruct (requestMaxSize <=? rq_Size req) eqn:Ez.
    + injection E as <-. left. eauto.
    + right. destruct (handle _) as [[resp c]|] eqn:Eh; [|done]. injection E as <-.
      exists r, resp, c. split_and!; [done|done|by apply Z.leb_gt|done].
Qed.

(** A region-checked command either fails, with an error or with a region
    error, and leaves the cluster and its store as they were, or was admitted:
    the addressed store holds the leader of the region the request names (or
    is a TiFlash store with a peer), the epoch is the current one and the
    request is below the size limit. *)
Theorem SendRequest_guard ctxErr c addr req resp c' :
  region_checked (rq_Cmd req) = true ->
  SendRequest range_regions range_stores StoreState_Tombstone ctxErr c addr req = Some (resp, c') ->
  (c' = c /\ ((exists err, resp = Err err) \/ exists err, resp = Ok (RegionErrorResponse err))) \/
  (exists store r, getAndCheckStoreByAddr range_stores StoreState_Tombstone c addr = Ok store /\
     admitted c (sm_Id store) (rq_Context req) r /\ rq_Size req < requestMaxSize).
Proof.
  intros K E. unfold SendRequest, checkArgs in E.
  destruct ctxErr as [err|]; [injection E as <- <-; left; eauto|].
  destruct (getAndCheckStoreByAddr range_stores StoreState_Tombstone c addr) as [store|err];
    cbn [mbind result_mbind] in E; [|injection E as <- <-; left; eauto].
  destruct (rq_Cmd req); try discriminate K;
    (apply checked_spec in E as [(err & [= -> ->])|(r & resp' & c2 & _ & A & L & _)];
      [left; cbn; eauto|right; cbn in A; eauto]).
Qed.

(** [CmdRawBatchDelete] is the exception: whatever region error its check
    reports, the keys are deleted and the response shows no error. *)
Theorem RawBatchDelete_unguarded c addr ctx size keys store err h' :
  getAndCheckStoreByAddr range_stores StoreState_Tombstone c addr = Ok store ->
  checkRequest range_regions (MkHandler c (sm_Id store) [] [] 0 []) ctx size = (Some err, h') ->
  SendRequest range_regions range_stores StoreState_Tombstone None c addr
    (MkRequest ctx (CmdRawBatchDelete keys) size) =
  Some (Ok RawBatchDeleteResponse, set_store c (RawBatchDelete (c_mvccStore c) keys)).
Proof.
  intros Es Ec. unfold SendRequest, checkArgs. rewrite Es. cbn [mbind result_mbind rq_Cmd rq_Context rq_Size].
  rewrite Ec. assert (h_cluster h' = c) as Eh.
  { unfold checkRequest in Ec.
    destruct (checkRequestContext_spec (MkHandler c (sm_Id store) [] [] 0 []) ctx) as [(err' & E)|(r & E & _)];
      rewrite E in Ec; by injection Ec as _ <-. }
  unfold handleKvRawBatchDelete, reply_store, h_mvcc. rewrite Eh. done.
Qed.

(** ** Splitting at a boundary *)

Lemma AllocIDs_spec c n :
  length (AllocIDs c n).1 = n /\ c_regions (AllocIDs c n).2 = c_regions c.
Proof.
  revert c. induction n as [|n IH]; intros c; [done|]. cbn [AllocIDs]. unfold allocID.
  destruct (IH (MkCluster (u64_add (c_id c) 1) (c_stores c) (c_regions c) (c_mvccStore c) (c_delayEvents c)))
    as [L R]. destruct (AllocIDs _ n) as [ids c2]. cbn in *. by rewrite L.
Qed.

(** [handleSplitRegion] means to skip a key that already starts a region,
    but it compares the encoded start key with the key itself: splitting again
    at a boundary leaves the region that started there without any key. *)
Theorem SplitRegion_twice h id r key :
  partition (c_regions (h_cluster h)) -> c_regions (h_cluster h) !! id = Some r ->
  rm_StartKey (Meta r) = NewMvccKey key -> NewMvccKey key <> key -> rm_Peers (Meta r) <> [] ->
  id < c_id (h_cluster h) + 1 < u64_mod -> 0 <= c_id (h_cluster h) ->
  exists resp c' r', handleSplitRegion range_regions h [key] = Some (resp, c') /\
    c_regions c' !! id = Some r' /\ forall k, region_contains r' k = false.
Proof.
  intros P Hr Es Ne Np Lid L0. set (c := h_cluster h) in *. pose proof P as [W _].
  destruct (W _ _ Hr) as [Ei Er].
  assert (region_contains r (NewMvccKey key) = true) as Hk.
  { apply region_contains_spec. rewrite Es. split; [apply ble_refl|]. by rewrite <- Es. }
  unfold handleSplitRegion. cbn [handleSplitRegion_loop]. fold c.
  rewrite (GetRegionByKey_find range_regions range_regions_perm c id r) by done.
  cbn [mbind option_bind meta_and_leader]. rewrite decide_False by (by rewrite Es).
  unfold AllocID, allocID.
  set (c1 := MkCluster (u64_add (c_id c) 1) (c_stores c) (c_regions c) (c_mvccStore c) (c_delayEvents c)).
  pose proof (AllocIDs_spec c1 (length (rm_Peers (Meta r)))) as [La Ra].
  destruct (AllocIDs c1 (length (rm_Peers (Meta r)))) as [ids c2]. cbn in La, Ra.
  destruct ids as [|p0 ids]; [by destruct (rm_Peers (Meta r))|]. cbn [head mbind option_bind].
  unfold SplitRaw. rewrite Ei, Ra, Hr. cbn [mbind option_bind]. unfold split. rewrite decide_True by done.
  unfold newRegion. rewrite decide_True by (by rewrite length_fmap). cbn [mbind option_bind].
  eexists _, _, _. split; [reflexivity|]. cbn [set_regions c_regions]. split.
  - rewrite lookup_insert_ne; [by rewrite lookup_insert_eq|].
    unfold u64_add, u64_wrap. rewrite Z.mod_small; lia.
  - intros k. apply not_true_is_false. rewrite updateKeyRange_contains, Es. intros [A [B|B]].
    + apply Ne. rewrite B. unfold NewMvccKey in B. case_decide as D; [done|].
      by apply EncodeBytes_nonempty in B.
    + by apply not_blt in A.
Qed.

(** ** Reading through the client *)

Lemma MvccKey_Raw_mvccEncode k v : MvccKey_Raw (mvccEncode k v) = Some k.
Proof.
  unfold MvccKey_Raw. rewrite decide_False by apply mvccEncode_nonempty.
  by rewrite mvccEncode_app, DecodeBytes_Encode.
Qed.

Lemma find_NoDup (ps : list Peer) p :
  List.find (fun q => peer_Id q =? peer_Id p) ps = Some p ->
  p ∈ ps.
Proof. intros E. apply List.find_some in E as [E _]. by apply list_elem_of_In. Qed.

(** What the response to a read carries: the value, or the lock in the way. *)
Definition get_response (mvcc : MVCCLevelDB) (key : bytes) (r : res (option bytes)) (resp : Response) : Prop :=
  match r with
  | Ok v => resp = GetResponse None v
  | Err _ => exists l, lock_at (EDB mvcc) key = Some l /\
      resp = GetResponse (Some (KE_Locked key (lock_primary l) (lock_startTS l) (lock_ttl l)
               (lock_txnSize l) (lock_op l) (lock_forUFIDelateTS l))) None
  end.

(** C36: A client that asks the cluster for the region of a key, takes the
    epoch and the leader it is told and sends the read to the leader's store is
    answered: the response holds the result of [Get] on the store, or the lock
    that blocks it under the key of the request, and nothing changes. *)
Theorem SendRequest_Get c key ts iso rl size addr store meta p :
  partition (c_regions c) -> wf (EDB (c_mvccStore c)) ->
  GetRegionByKey range_regions c (NewMvccKey key) = Some (meta, Some p) ->
  NoDup (peer_Id <$> rm_Peers meta) -> NoDup (peer_StoreId <$> rm_Peers meta) ->
  getAndCheckStoreByAddr range_stores StoreState_Tombstone c addr = Ok store ->
  sm_Id store = peer_StoreId p -> size < requestMaxSize ->
  let ctx := MkContext (rm_Id meta) (rm_RegionEpoch meta) (Some p) iso rl in
  exists resp, SendRequest range_regions range_stores StoreState_Tombstone None c addr
      (MkRequest ctx (CmdGet (Some ctx) key ts) size) = Some (Ok resp, c) /\
    get_response (c_mvccStore c) key (Get (c_mvccStore c) key ts iso rl) resp.
Proof.
  intros P Wf Eg NDi NDs Es Ei Lz ctx. pose proof P as [W [Ci _]].
  destruct (proj1 (Ci (NewMvccKey key)) I) as (id & r & Hr & Hk).
  rewrite (GetRegionByKey_find range_regions range_regions_perm c id r) in Eg by done.
  injection Eg as <- Ep. destruct (W _ _ Hr) as [Eid _].
  unfold leaderPeer in Ep. apply List.find_some in Ep as [Hp El]. apply list_elem_of_In in Hp.
  apply Z.eqb_eq in El.
  unfold SendRequest, checkArgs. rewrite Es. cbn [mbind result_mbind rq_Cmd].
  unfold checked, checkRequest, checkRequestContext. cbn [rq_Context rq_Size h_cluster h_storeID ctx ctx_Peer ctx_RegionId ctx_RegionEpoch].
  rewrite Ei, Z.eqb_refl. cbn [negb]. unfold GetRegion. rewrite Eid, Hr. cbn [fmap option_fmap option_map].
  rewrite (last_peer_unique peer_StoreId _ p) by done.
  rewrite <- El, (last_peer_unique peer_Id _ p) by done. rewrite Z.eqb_refl. cbn [negb andb].
  rewrite bool_decide_true by done. cbn [negb]. unfold checkRequestSize.
  destruct (requestMaxSize <=? size) eqn:Ez; [apply Z.leb_le in Ez; lia|].
  unfold handleKvGet, key_in_region, checkKeyInRegion. cbn [h_startKey h_endKey].
  change (regionContains _ _ _) with (region_contains r (NewMvccKey key)). rewrite Hk.
  cbn [mbind option_bind h_mvcc h_cluster h_isolationLevel GetResolvedLocks ctx_IsolationLevel ctx_ResolvedLocks].
  change (ctx_IsolationLevel ctx) with iso. change (ctx_ResolvedLocks ctx) with rl.
  destruct (getValue_read (c_mvccStore c) key ts iso rl Wf) as (vs & _ & Eg).
  unfold Get, h_mvcc. cbn [h_cluster]. rewrite Eg. unfold read_key, read_ts.
  destruct (lock_at (EDB (c_mvccStore c)) key) as [l|] eqn:Ek; step_res; [|eexists; split; reflexivity].
  destruct (iso =? IsolationLevel_SI); step_res; [|eexists; split; reflexivity].
  unfold lock_check.
  destruct ((ts <? lock_startTS l) || _ || _); step_res; [eexists; split; reflexivity|].
  destruct ((ts =? MaxUint64) && _); step_res; [eexists; split; reflexivity|].
  destruct (existsb _ rl); step_res; [eexists; split; reflexivity|].
  unfold lockErr, convertToKeyError. rewrite MvccKey_Raw_mvccEncode. cbn [mbind option_bind].
  eexists. split; [reflexivity|]. exists l. done.
Qed.
End guard.
