(* ===== verification/Fidel.v ===== *)
(** * The placement-driver client (mockeinsteindb/fidel.go)

    Timestamps, the lookups that pass through to the cluster, and the two
    garbage-collection safe points.  The clock is an argument: the
    milliseconds that [time.Now] gives. *)

From stdpp Require Import base gmap list strings.
From Stdlib Require Import Strings.Byte ZArith Lia Sorted.
From S2P Require Import Prelude External Marshal Mvcc MvccOps Cluster.
Open Scope Z_scope.

(** ** Timestamps *)

(** The global [tsMu]: two [int64]. *)
Record tsMu : Type := MkTs {
  physicalTS : Z;
  logicalTS : Z;
}.

Definition tsMu_init : tsMu := MkTs 0 0.

Definition i64_incr (z : Z) : Z := signed_of 64 (u64_wrap (z + 1)).

Definition GetTS (mu : tsMu) (ts : Z) : (Z * Z) * tsMu :=
  let mu := if ts <=? physicalTS mu then MkTs (physicalTS mu) (i64_incr (logicalTS mu))
            else MkTs ts 0 in
  ((physicalTS mu, logicalTS mu), mu).

Record mockTSFuture : Type := MkFuture {
  used : bool;
}.

Definition GetTSAsync : mockTSFuture := MkFuture false.

Definition Wait (m : mockTSFuture) (mu : tsMu) (ts : Z) : res (Z * Z) * mockTSFuture * tsMu :=
  if used m then (Err (ErrOther "cannot wait tso twice"), m, mu)
  else let '(r, mu) := GetTS mu ts in (Ok r, MkFuture true, mu).

Section fidel.
Context `{Codec} `{LevelDB} `{Kvrpcpb} `{Oracle} `{Deadlock} `{Metapb}.
Context (range_regions : gmap Z Region -> list (Z * Region)).
Context (range_stores : gmap Z CausetStore -> list (Z * CausetStore)).

(** ** The client *)

Record FIDelClient : Type := MkFIDelClient {
  fc_cluster : Cluster;
  gcSafePoint : Z;
  serviceSafePoints : gmap string Z;
}.

Definition NewFIDelClient (cluster : Cluster) : FIDelClient := MkFIDelClient cluster 0 ∅.

Definition GetClusterID : Z := 1.

(** The region and its leader; the option of the cluster's lookup stands for
    two nil results. *)
Definition FIDelGetRegion (c : FIDelClient) (key : bytes) : option (RegionMeta * option Peer) :=
  GetRegionByKey range_regions (fc_cluster c) key.

Definition GetPrevRegion (c : FIDelClient) (key : bytes) : option (option (RegionMeta * option Peer)) :=
  GetPrevRegionByKey range_regions (fc_cluster c) key.

Definition FIDelGetRegionByID (c : FIDelClient) (regionID : Z) : option (RegionMeta * option Peer) :=
  GetRegionByID range_regions (fc_cluster c) regionID.

Definition FIDelScanRegions (c : FIDelClient) (startKey endKey : bytes) (limit : Z)
    : list (RegionMeta * Peer) :=
  ScanRegions range_regions (fc_cluster c) startKey endKey limit.

Definition FIDelGetStore (ctxErr : option goerror) (c : FIDelClient) (storeID : Z)
    : res (option StoreMeta) :=
  match ctxErr with
  | Some err => Err err
  | None => Ok (GetStore (fc_cluster c) storeID)
  end.

Definition FIDelGetAllStores (c : FIDelClient) : list StoreMeta :=
  GetAllStores range_stores (fc_cluster c).

(** ** Safe points *)

Definition UpdateGCSafePoint (c : FIDelClient) (safePoint : Z) : Z * FIDelClient :=
  let sp := if gcSafePoint c <? safePoint then safePoint else gcSafePoint c in
  (sp, MkFIDelClient (fc_cluster c) sp (serviceSafePoints c)).

(** The least of the safe points; the order of the visit does not matter. *)
Definition minSafePoint (m : gmap string Z) : Z :=
  map_fold (fun _ ssp acc => if ssp <? acc then ssp else acc) MaxUint64 m.

Definition UpdateServiceGCSafePoint (c : FIDelClient) (serviceID : string) (ttl safePoint : Z)
    : Z * FIDelClient :=
  let m := serviceSafePoints c in
  let m :=
    if ttl =? 0 then delete serviceID m
    else if bool_decide (m = ∅) || (minSafePoint m <=? safePoint)
    then <[serviceID := safePoint]> m
    else m in
  (minSafePoint m, MkFIDelClient (fc_cluster c) (gcSafePoint c) m).

(** ** Timestamps increase *)

(** A run of the oracle on the readings of the clock. *)
Fixpoint GetTS_run (mu : tsMu) (clock : list Z) : list (Z * Z) :=
  match clock with
  | [] => []
  | ts :: clock' => let '(r, mu) := GetTS mu ts in r :: GetTS_run mu clock'
  end.

(** The order of [oracle.ComposeTS]: physical part first. *)
Definition ts_lt (a b : Z * Z) : Prop := a.1 < b.1 \/ (a.1 = b.1 /\ a.2 < b.2).

Lemma i64_incr_small z : 0 <= z < 2 ^ 63 - 1 -> i64_incr z = z + 1.
Proof.
  intros Hz. unfold i64_incr, signed_of, u64_wrap, u64_mod.
  rewrite Z.mod_small by lia. rewrite (proj2 (Z.ltb_lt _ _)); [done|]. cbn. lia.
Qed.

Lemma GetTS_run_bound mu clock :
  0 <= logicalTS mu -> logicalTS mu + Z.of_nat (length clock) < 2 ^ 63 ->
  StronglySorted ts_lt (GetTS_run mu clock) /\
  Forall (ts_lt (physicalTS mu, logicalTS mu)) (GetTS_run mu clock).
Proof.
  revert mu. induction clock as [|ts clock IH]; intros mu L0 L; [by repeat constructor|].
  cbn [length] in L. cbn [GetTS_run]. unfold GetTS. cbn zeta.
  set (mu' := if ts <=? physicalTS mu then _ else _).
  assert (ts_lt (physicalTS mu, logicalTS mu) (physicalTS mu', logicalTS mu') /\
    0 <= logicalTS mu' <= logicalTS mu + 1) as [Lt [B1 B2]].
  { unfold mu', ts_lt. destruct (ts <=? physicalTS mu) eqn:E; cbn [physicalTS logicalTS fst snd].
    - rewrite i64_incr_small by lia. lia.
    - apply Z.leb_gt in E. lia. }
  destruct (IH mu') as [S F]; [done|lia|].
  split; constructor; try done. eapply Forall_impl; [exact F|].
  intros [p l]. revert Lt. unfold ts_lt. cbn. lia.
Qed.

(** Whatever the clock shows, even when it stands still or runs back, the
    timestamps of the mock oracle strictly increase (as long as the logical
    part stays below 2^63). *)
Theorem GetTS_increasing clock :
  Z.of_nat (length clock) < 2 ^ 63 -> StronglySorted ts_lt (GetTS_run tsMu_init clock).
Proof. intros L. by apply GetTS_run_bound. Qed.

(** ** Service safe points *)

Lemma minSafePoint_spec m :
  (forall s p, m !! s = Some p -> minSafePoint m <= p) /\ minSafePoint m <= MaxUint64 /\
  (minSafePoint m = MaxUint64 \/ exists s, m !! s = Some (minSafePoint m)).
Proof.
  unfold minSafePoint.
  apply (map_fold_weak_ind (fun r m => (forall s p, m !! s = Some p -> r <= p) /\ r <= MaxUint64 /\
    (r = MaxUint64 \/ exists s, m !! s = Some r))).
  - split; [done|]. split; [lia|by left].
  - intros s p m' r Hs (A & B & C).
    assert (p < r \/ r <= p) as D by lia.
    destruct (p <? r) eqn:E; [apply Z.ltb_lt in E|apply Z.ltb_ge in E]; (split; [|split; [lia|]]).
    + intros s' p' [[<- <-]|[_ Hs']]%lookup_insert_Some; [lia|]. apply A in Hs'. lia.
    + right. exists s. apply lookup_insert_eq.
    + intros s' p' [[<- <-]|[_ Hs']]%lookup_insert_Some; [done|by apply A in Hs'].
    + destruct C as [->|[s' C]]; [by left|]. right. exists s'.
      rewrite lookup_insert_ne; [done|]. intros ->. congruence.
Qed.

(** While some service keeps a safe point, no update by a service makes
    the least safe point go back, so no data a service still needs becomes
    collectable by it; the answer is the least safe point afterwards. *)
Theorem UpdateServiceGCSafePoint_monotone c serviceID ttl safePoint :
  serviceSafePoints c <> ∅ -> 0 <= safePoint <= MaxUint64 ->
  let '(r, c') := UpdateServiceGCSafePoint c serviceID ttl safePoint in
  minSafePoint (serviceSafePoints c) <= r /\
  (forall s p, serviceSafePoints c' !! s = Some p -> r <= p) /\
  (forall s, s <> serviceID -> serviceSafePoints c' !! s = serviceSafePoints c !! s).
Proof.
  intros Ne B. unfold UpdateServiceGCSafePoint. cbn zeta.
  rewrite bool_decide_false by done. cbn [orb].
  set (m := serviceSafePoints c) in *. destruct (minSafePoint_spec m) as (A & Bm & _).
  set (m' := if ttl =? 0 then _ else _). destruct (minSafePoint_spec m') as (A' & _ & C').
  cbn [serviceSafePoints]. split_and!; [|done|].
  - destruct C' as [->|[s C']]; [done|]. revert C'. unfold m' at 1.
    destruct (ttl =? 0); [intros [_ E]%lookup_delete_Some; by apply A in E|].
    destruct (minSafePoint m <=? safePoint) eqn:E; [|by intros E'%A].
    apply Z.leb_le in E. intros [[_ <-]|[_ E']]%lookup_insert_Some; [done|by apply A in E'].
  - intros s N. unfold m'. destruct (ttl =? 0); [by apply lookup_delete_ne|].
    destruct (minSafePoint m <=? safePoint); [by apply lookup_insert_ne|done].
Qed.
End fidel.
