(* ===== verification/ClusterWitness.v ===== *)
(** * A concrete cluster

    The witnesses of the theorems about regions: a cluster with one region,
    and one with two, over the store of [MvccExample]; requests to it; maps are
    visited in the order of [map_to_list]. *)

From stdpp Require Import base gmap list sorting strings.
From Stdlib Require Import Strings.Byte ZArith Lia Sorted.
From S2P Require Import Prelude External Marshal Concrete Mvcc MvccOps MvccView MvccRead MvccScan MvccSpec MvccExample Cluster ClusterRegions ClusterSplit Rpc RpcGuard Fidel.

Open Scope Z_scope.

#[export] Instance metapb : Metapb := {| StoreState_Up := 0; StoreState_Offline := 1 |}.

Definition visit_regions (m : gmap Z Region) : list (Z * Region) := map_to_list m.
Definition visit_stores (m : gmap Z CausetStore) : list (Z * CausetStore) := map_to_list m.

Lemma visit_regions_perm m : visit_regions m ≡ₚ map_to_list m.
Proof. done. Qed.

Definition ex_region (id : Z) (s e : bytes) : Region :=
  MkRegion (MkRegionMeta id s e None [MkPeer 2 1]) 2.

Definition one_region : gmap Z Region := {[ 3 := ex_region 3 [] [] ]}.
Definition two_regions_at (b : bytes) : gmap Z Region :=
  <[3 := ex_region 3 [] b]> {[ 5 := ex_region 5 b [] ]}.
Definition two_regions : gmap Z Region := two_regions_at key_b.

Definition ex_cluster (m : gmap Z Region) : Cluster := MkCluster 5 ∅ m ex_mvcc ∅.

Lemma one_partition : partition one_region.
Proof.
  split.
  - apply map_Forall_singleton. split; [done|by left].
  - assert (forall id k, owned one_region id k <-> id = 3) as O.
    { intros id k. unfold owned, one_region. split.
      - intros (r & Hr & _). by apply lookup_singleton_Some in Hr as [<- _].
      - intros ->. exists (ex_region 3 [] []). split; [apply lookup_singleton_eq|]. apply region_contains_spec. split; [apply nil_ble|by left]. }
    split; [|intros k id id'; rewrite !O; congruence].
    intros k. split; [|done]. intros _. exists 3. by apply O.
Qed.

Lemma two_partition_at b : b <> [] -> partition (two_regions_at b).
Proof.
  intros Nb. split.
  - apply map_Forall_insert_2; [split; [done|right; by apply nil_blt]|].
    apply map_Forall_singleton. split; [done|by left].
  - assert (forall id k, owned (two_regions_at b) id k <-> (id = 3 /\ k <b b) \/ (id = 5 /\ b <=b k)) as O.
    { intros id k. unfold two_regions_at. rewrite owned_insert, region_contains_spec. cbn.
      unfold owned. setoid_rewrite lookup_singleton_Some. pose proof (nil_ble k). split.
      - intros [[-> [_ [?|?]]]|[_ (r & [<- <-] & Hk)]]; [done|by left|right].
        by apply region_contains_spec in Hk as [? _].
      - intros [[-> L]|[-> L]]; [by left; auto|right]. split; [done|].
        eexists. split; [done|]. apply region_contains_spec. split; [done|by left]. }
    split.
    + intros k. split; [|done]. intros _. destruct (decide (b <=b k)) as [D|D].
      * exists 5. apply O. by right.
      * exists 3. apply O. left. split; [done|by apply not_ble].
    + intros k id id'. rewrite !O. intros [[-> A]|[-> A]] [[-> B]|[-> B]]; try done.
      * by apply not_blt in B.
      * by apply not_blt in A.
Qed.

Lemma two_partition : partition two_regions.
Proof. by apply two_partition_at. Qed.

Lemma GetRegionByKey_owner_witness :
  partition two_regions /\
  exists id r, two_regions !! id = Some r /\ region_contains r key_c = true /\
    GetRegionByKey visit_regions (ex_cluster two_regions) key_c = Some (meta_and_leader r) /\
    forall id' r', two_regions !! id' = Some r' -> region_contains r' key_c = true -> id' = id.
Proof.
  split; [apply two_partition|].
  exact (GetRegionByKey_owner visit_regions visit_regions_perm (ex_cluster two_regions) key_c two_partition).
Defined.

Lemma SplitRaw_partition_witness :
  exists meta c', SplitRaw (ex_cluster one_region) 3 7 key_b [6] 6 = Some (meta, c') /\
    partition (c_regions c') /\
    forall id k, owned (c_regions c') id k <->
      if decide (id = 7) then owned one_region 3 k /\ key_b <=b k
      else owned one_region id k /\ (id = 3 -> k <b key_b).
Proof.
  apply (SplitRaw_partition (ex_cluster one_region) 3 7 key_b [6] 6 (ex_region 3 [] []) one_partition);
    [apply lookup_singleton_eq|by apply lookup_singleton_ne|done|done|by left].
Defined.

Lemma Merge_partition_witness :
  exists c', Merge (ex_cluster two_regions) 3 5 = Some c' /\ partition (c_regions c') /\
    forall id k, owned (c_regions c') id k <->
      id <> 5 /\ (owned two_regions id k \/ (id = 3 /\ owned two_regions 5 k)).
Proof.
  apply (Merge_partition (ex_cluster two_regions) 3 5 (ex_region 3 [] key_b) (ex_region 5 key_b []) two_partition);
    done.
Defined.

Lemma ScanRegions_exact_witness :
  partition two_regions /\
  exists rs, StronglySorted before rs /\
    (forall r, r ∈ rs <-> (exists id, two_regions !! id = Some r) /\
       (rm_EndKey (Meta r) = [] \/ key_a <b rm_EndKey (Meta r)) /\
       (key_c = [] \/ rm_StartKey (Meta r) <b key_c)) /\
    ScanRegions visit_regions (ex_cluster two_regions) key_a key_c 1 =
      scan_result <$> (if decide (0 < 1) then take (Z.to_nat 1) rs else rs).
Proof.
  split; [apply two_partition|].
  apply (ScanRegions_exact visit_regions visit_regions_perm (ex_cluster two_regions) key_a key_c 1
    two_partition). by right.
Defined.

Lemma getEntriesGroupByRegions_even_witness :
  (0 < 2)%nat /\
  exists gs, getEntriesGroupByRegions ex_mvcc (NewMvccKey []) (NewMvccKey key_d) 2 = Some gs /\
    gs ≫= id = Scan ex_mvcc [] key_d MaxInt32 MaxUint64 IsolationLevel_SI [].
Proof.
  split; [lia|].
  destruct (getEntriesGroupByRegions_even ex_mvcc [] key_d 2 ltac:(lia)) as (gs & E & C & _).
  exact (ex_intro _ gs (conj E C)).
Defined.

Lemma SplitKeys_partition_witness :
  range_pairs (ex_cluster one_region) [] key_d <> [] /\
  exists c', SplitKeys visit_regions visit_stores (ex_cluster one_region) [] key_d 2 = Some c' /\
    partition (c_regions c') /\ c_mvccStore c' = ex_mvcc.
Proof.
  assert (range_pairs (ex_cluster one_region) [] key_d <> []) as N by by vm_compute.
  split; [done|].
  apply (SplitKeys_partition visit_regions visit_stores visit_regions_perm (ex_cluster one_region)
    [] key_d 2); [apply ex_wf|apply one_partition|done| |done|lia|by vm_compute|exact N].
  apply map_Forall_singleton. done.
Defined.

Lemma SplitKeys_hole_witness :
  range_pairs (ex_cluster one_region) key_d [x65] = [] /\
  exists c', SplitKeys visit_regions visit_stores (ex_cluster one_region) key_d [x65] 2 = Some c' /\
    cover (c_regions c') (fun k => ~ key_range (NewMvccKey key_d) (NewMvccKey [x65]) k).
Proof.
  assert (range_pairs (ex_cluster one_region) key_d [x65] = []) as N by by vm_compute.
  split; [done|].
  apply (SplitKeys_hole visit_regions visit_stores visit_regions_perm (ex_cluster one_region)
    key_d [x65] 2); [apply one_partition|done| |done|lia|by vm_compute|exact N].
  apply map_Forall_singleton. done.
Defined.

(** * Concrete requests

    The witnesses of the theorems about [SendRequest], on the cluster of
    [ClusterWitness] with one store, and about the placement-driver client. *)

Definition ex_addr : string := "store1".
Definition ex_store : CausetStore := newStore 1 ex_addr [].
Definition rpc_cluster (m : gmap Z Region) : Cluster := MkCluster 5 {[ 1 := ex_store ]} m ex_mvcc ∅.

Definition good_ctx : Context := MkContext 3 None (Some (MkPeer 2 1)) IsolationLevel_SI [].
Definition wrong_store_ctx : Context := MkContext 3 None (Some (MkPeer 2 9)) IsolationLevel_SI [].

Lemma ex_store_found m :
  getAndCheckStoreByAddr visit_stores 2 (rpc_cluster m) ex_addr = Ok (cs_meta ex_store).
Proof. reflexivity. Qed.

Lemma SendRequest_guard_witness :
  exists resp, SendRequest visit_regions visit_stores 2 None (rpc_cluster two_regions) ex_addr
      (MkRequest good_ctx (CmdRawGet key_a) 10) = Some (resp, rpc_cluster two_regions) /\
    ((rpc_cluster two_regions = rpc_cluster two_regions /\
      ((exists err, resp = Err err) \/ exists err, resp = Ok (RegionErrorResponse err))) \/
     (exists store r, getAndCheckStoreByAddr visit_stores 2 (rpc_cluster two_regions) ex_addr = Ok store /\
       admitted (rpc_cluster two_regions) (sm_Id store) good_ctx r /\ 10 < requestMaxSize)).
Proof.
  eexists (Ok (RawGetResponse _)). split; [reflexivity|].
  apply (SendRequest_guard visit_regions visit_stores 2 None (rpc_cluster two_regions) ex_addr
    (MkRequest good_ctx (CmdRawGet key_a) 10)); reflexivity.
Defined.

Lemma RawBatchDelete_unguarded_witness :
  SendRequest visit_regions visit_stores 2 None (rpc_cluster two_regions) ex_addr
    (MkRequest wrong_store_ctx (CmdRawBatchDelete [key_a]) 10) =
  Some (Ok RawBatchDeleteResponse,
        set_store (rpc_cluster two_regions) (RawBatchDelete ex_mvcc [key_a])).
Proof.
  eapply (RawBatchDelete_unguarded visit_regions visit_stores 2 (rpc_cluster two_regions) ex_addr
    wrong_store_ctx 10 [key_a] (cs_meta ex_store)); [apply ex_store_found|reflexivity].
Defined.

Lemma SplitRegion_twice_witness :
  let b := NewMvccKey key_b in
  exists resp c' r', handleSplitRegion visit_regions
      (MkHandler (rpc_cluster (two_regions_at b)) 1 [] [] 0 []) [key_b] = Some (resp, c') /\
    c_regions c' !! 5 = Some r' /\ forall k, region_contains r' k = false.
Proof.
  intros b. apply (SplitRegion_twice visit_regions visit_regions_perm
    (MkHandler (rpc_cluster (two_regions_at b)) 1 [] [] 0 []) 5 (ex_region 5 b []) key_b);
    [by apply two_partition_at|done|done|done|done|by vm_compute|done].
Defined.

Lemma SendRequest_Get_witness :
  exists resp, SendRequest visit_regions visit_stores 2 None (rpc_cluster two_regions) ex_addr
      (MkRequest good_ctx (CmdGet (Some good_ctx) key_a 25) 10) = Some (Ok resp, rpc_cluster two_regions) /\
    get_response ex_mvcc key_a (Get ex_mvcc key_a 25 IsolationLevel_SI []) resp.
Proof.
  apply (SendRequest_Get visit_regions visit_stores visit_regions_perm 2 (rpc_cluster two_regions)
    key_a 25 IsolationLevel_SI [] 10 ex_addr (cs_meta ex_store) (Meta (ex_region 3 [] key_b)) (MkPeer 2 1));
    [apply two_partition|apply ex_wf|by vm_compute| | |apply ex_store_found|done|done];
    repeat constructor; by inversion 1.
Defined.

Lemma GetTS_increasing_witness :
  GetTS_run tsMu_init [5; 5; 3; 9] = [(5, 0); (5, 1); (5, 2); (9, 0)] /\
  StronglySorted ts_lt (GetTS_run tsMu_init [5; 5; 3; 9]).
Proof. split; [reflexivity|]. apply (GetTS_increasing [5; 5; 3; 9]). by vm_compute. Defined.

Definition ex_fidel : FIDelClient :=
  MkFIDelClient (rpc_cluster two_regions) 0 {[ "gc"%string := 10 ]}.

Lemma UpdateServiceGCSafePoint_monotone_witness :
  let '(r, c') := UpdateServiceGCSafePoint ex_fidel "br"%string 60 15 in
  minSafePoint (serviceSafePoints ex_fidel) <= r /\
  (forall s p, serviceSafePoints c' !! s = Some p -> r <= p) /\
  (forall s, s <> "br"%string -> serviceSafePoints c' !! s = serviceSafePoints ex_fidel !! s).
Proof.
  apply (UpdateServiceGCSafePoint_monotone ex_fidel "br"%string 60 15);
    [apply insert_non_empty|by vm_compute].
Defined.
