(* ===== verification/MvccWitness.v ===== *)
(** * Witnesses: the theorems on transactions at a concrete store *)

From stdpp Require Import base gmap list sorting strings.
From Stdlib Require Import Strings.Byte ZArith Lia Sorted.
From S2P Require Import Prelude External Marshal Concrete Mvcc MvccOps MvccView MvccRead MvccScan MvccSpec MvccExample MvccTxn MvccLock MvccStatus MvccGC MvccReverse MvccEffects MvccSafety MvccProtocol.
Open Scope Z_scope.

(** ** Records and keys *)

Lemma records_roundtrip_witness :
  (exists data, lock_MarshalBinary lock_b = Ok data /\ lock_UnmarshalBinary data = Ok lock_b) /\
  (exists data, value_MarshalBinary (rollback_val 7) = Ok data /\
     value_UnmarshalBinary data = Ok (rollback_val 7)).
Proof. apply records_roundtrip; solve_ok. Defined.

Lemma mvccKey_layout_witness :
  mvccDecode (mvccEncode key_a 7) = Ok (key_a, 7) /\
  (mvccEncode key_a 7 <b mvccEncode key_a 5 <-> key_a <b key_a \/ (key_a = key_a /\ 5 < 7)) /\
  mvccEncode key_a lockVer <=b mvccEncode key_a 7.
Proof. apply (mvccKey_layout key_a 7 key_a 5); by vm_compute. Defined.

(** ** Commit and rollback *)

Lemma Commit_refines_witness :
  (Commit ex_mvcc [key_b] 30 40).1 = None /\
  outcome (collect (a_commitKey ex_st 30 40) [key_b]) ex_mvcc ex_st (Commit ex_mvcc [key_b] 30 40) /\
  deadlockDetector (Commit ex_mvcc [key_b] 30 40).2 = CleanUp (deadlockDetector ex_mvcc) 30.
Proof.
  split; [by vm_compute|]. apply (Commit_refines ex_mvcc ex_st [key_b] 30 40); [apply ex_rep|].
  by vm_compute.
Defined.

Lemma Rollback_refines_witness :
  (Rollback ex_mvcc [key_b; key_a] 30).1 = None /\
  outcome (collect (a_rollbackKey ex_st 30) [key_b; key_a]) ex_mvcc ex_st
    (Rollback ex_mvcc [key_b; key_a] 30) /\
  deadlockDetector (Rollback ex_mvcc [key_b; key_a] 30).2 = CleanUp (deadlockDetector ex_mvcc) 30.
Proof.
  split; [by vm_compute|].
  apply (Rollback_refines ex_mvcc ex_st [key_b; key_a] 30); [apply ex_rep|by vm_compute].
Defined.

Lemma Commit_snapshot_witness :
  Get ex_mvcc key_b 25 IsolationLevel_SI [] = Ok (Some [x79]) /\
  Get (Commit ex_mvcc [key_b] 30 40).2 key_b 25 IsolationLevel_SI [] = Ok (Some [x79]).
Proof.
  split; [by vm_compute|].
  apply (Commit_snapshot ex_mvcc [key_b] 30 40 key_b 25 IsolationLevel_SI [] (Some [x79])).
  - apply ex_wf.
  - by vm_compute.
  - by vm_compute.
  - by vm_compute.
  - by vm_compute.
Defined.

(** The versions of a key of the example, read off its abstract state. *)
Lemma ex_write_at k c v : write_at (EDB ex_mvcc) k c = Some v -> v ∈ a_vers ex_st k /\ val_commitTS v = c.
Proof. apply (rep_write_at _ _ _ _ _ ex_rep). Qed.

Lemma ex_vers_b : a_vers ex_st key_b = [MkValue typePut 11 15 [x79]].
Proof. by vm_compute. Qed.

Lemma Commit_read_back_witness :
  Get (Commit ex_mvcc [key_b] 30 40).2 key_b 50 IsolationLevel_SI [] = Ok (Some [x7a]).
Proof.
  apply (Commit_read_back ex_mvcc [key_b] 30 40 key_b lock_b 50 IsolationLevel_SI []).
  - apply ex_wf.
  - by vm_compute.
  - by vm_compute.
  - by left.
  - by vm_compute.
  - done.
  - done.
  - intros d w E. apply ex_write_at in E as [E <-]. rewrite ex_vers_b in E.
    apply list_elem_of_singleton in E as ->. done.
  - done.
Defined.

Lemma Rollback_then_Commit_witness :
  let mvcc' := (Rollback ex_mvcc [key_b] 30).2 in
  exists e, (Commit mvcc' [key_b] 30 40).1 = Some e /\ EDB (Commit mvcc' [key_b] 30 40).2 = EDB mvcc'.
Proof.
  apply (Rollback_then_Commit ex_mvcc [key_b] 30 key_b [key_b] 40).
  - apply ex_wf.
  - by vm_compute.
  - by vm_compute.
  - by vm_compute.
  - by left.
  - by left.
  - intros d w E. apply ex_write_at in E as [E <-]. rewrite ex_vers_b in E.
    apply list_elem_of_singleton in E as ->. done.
Defined.

Lemma Commit_then_Rollback_witness :
  let mvcc' := (Commit ex_mvcc [key_b] 30 40).2 in
  (Rollback mvcc' [key_b] 30).1 = Some (ErrAlreadyCommitted 40) /\
  EDB (Rollback mvcc' [key_b] 30).2 = EDB mvcc' /\
  exists st', rep (EDB mvcc') st' /\
    (Commit mvcc' [key_b] 30 45).1 = None /\ rep (EDB (Commit mvcc' [key_b] 30 45).2) st'.
Proof.
  apply (Commit_then_Rollback ex_mvcc [key_b] 30 key_b lock_b 40 45).
  - apply ex_wf.
  - by vm_compute.
  - by vm_compute.
  - by vm_compute.
  - by vm_compute.
  - by left.
  - by vm_compute.
  - done.
  - intros d w E. apply ex_write_at in E as [E <-]. rewrite ex_vers_b in E.
    apply list_elem_of_singleton in E as ->. done.
Defined.

(** ** Prewrite and pessimistic locks *)

(** A put of key a and a delete of key d at start 50; the same at start 9,
    which conflicts with the version 10 of key a. *)
Definition ex_prewrite (s : Z) : PrewriteRequest :=
  MkPrewrite [MkMutation Op_Put key_a [x71] 0; MkMutation Op_Del key_d [] 0] key_a s 0 100 51 2 [] [].

Lemma ex_prewrite_ok s : u64 s -> prewrite_ok (ex_prewrite s).
Proof. intros Hs. split; try done; solve_ok. Qed.

Definition after_prewrite (mvcc : MVCCLevelDB) (req : PrewriteRequest) : MVCCLevelDB :=
  match Prewrite mvcc req with Some (_, m) => m | None => mvcc end.

Lemma after_prewrite_eq mvcc req errs :
  fst <$> Prewrite mvcc req = Some errs -> Prewrite mvcc req = Some (errs, after_prewrite mvcc req).
Proof. unfold after_prewrite. destruct (Prewrite mvcc req) as [[e m]|]; [|done]. by intros [= ->]. Qed.

Lemma Prewrite_all_or_nothing_witness :
  locked_all (EDB ex_mvcc) (EDB (after_prewrite ex_mvcc (ex_prewrite 50))) 50
    (written_keys (ex_prewrite 50) (pw_Mutations (ex_prewrite 50))).
Proof.
  apply (Prewrite_all_or_nothing ex_mvcc (ex_prewrite 50) [None; None]
           (after_prewrite ex_mvcc (ex_prewrite 50))).
  - apply ex_wf.
  - by apply ex_prewrite_ok.
  - apply after_prewrite_eq. by vm_compute.
Defined.

Lemma Prewrite_conflict_witness :
  exists errs, Prewrite ex_mvcc (ex_prewrite 9) = Some (errs, ex_mvcc) /\ existsb is_err errs = true.
Proof.
  apply (Prewrite_conflict ex_mvcc (ex_prewrite 9) (MkMutation Op_Put key_a [x71] 0) 10
           (MkValue typePut 5 10 [x78])).
  - apply ex_wf.
  - by apply ex_prewrite_ok.
  - done.
  - by left.
  - done.
  - done.
  - intros l E. by vm_compute in E.
  - by vm_compute.
  - left. done.
Defined.

Definition ex_pess : PessimisticLockRequest :=
  MkPessimisticLock [MkMutation Op_PessimisticLock key_a [] 0] 50 55 key_a 100 51 true 0.

Lemma PessimisticLock_all_or_nothing_witness :
  plr_Values (PessimisticLock ex_mvcc ex_pess).1 = [Some [x78]] /\
  let '(resp, mvcc') := PessimisticLock ex_mvcc ex_pess in
  match plr_Errors resp with
  | [] => locked_all (EDB ex_mvcc) (EDB mvcc') (pl_StartVersion ex_pess) (m_Key <$> pl_Mutations ex_pess)
  | _ => EDB mvcc' = EDB ex_mvcc /\ plr_Values resp = []
  end.
Proof.
  split; [by vm_compute|].
  apply (PessimisticLock_all_or_nothing ex_mvcc ex_pess); [apply ex_wf|solve_ok].
Defined.

Lemma PessimisticRollback_effect_witness :
  exists mvcc', PessimisticRollback ex_mvcc [key_b; key_d] 30 60 = (replicate 2 None, mvcc') /\
    wf (EDB mvcc') /\
    forall k, (forall ts, write_at (EDB mvcc') k ts = write_at (EDB ex_mvcc) k ts) /\
      lock_at (EDB mvcc') k =
        match lock_at (EDB ex_mvcc) k with
        | Some l => if bool_decide (k ∈ [key_b; key_d]) && (lock_op l =? Op_PessimisticLock)
                       && (lock_startTS l =? 30) && (lock_forUFIDelateTS l <=? 60)
                    then None else Some l
        | None => None
        end.
Proof. apply (PessimisticRollback_effect ex_mvcc [key_b; key_d] 30 60). apply ex_wf. Defined.

(** ** Status *)

Lemma CheckTxnStatus_pushed_witness :
  exists m, 60 < m /\
    (Commit (CheckTxnStatus ex_mvcc key_b 30 60 61 false).2 [key_b] 30 40).1 =
      Some (ErrCommitTSExpired 30 40 key_b m).
Proof.
  apply (CheckTxnStatus_pushed ex_mvcc key_b 30 60 61 false 100 40).
  - apply ex_wf.
  - by vm_compute.
  - by vm_compute.
  - by vm_compute.
  - done.
  - by vm_compute.
Defined.

Lemma CheckTxnStatus_refines_witness :
  status_refines ex_mvcc ex_st (a_status ex_st key_b 30 60 61 false)
    (CheckTxnStatus ex_mvcc key_b 30 60 61 false) /\
  deadlockDetector (CheckTxnStatus ex_mvcc key_b 30 60 61 false).2 = deadlockDetector ex_mvcc.
Proof.
  apply (CheckTxnStatus_refines ex_mvcc ex_st key_b 30 60 61 false);
    [apply ex_rep|by vm_compute..].
Defined.

Lemma TxnHeartBeat_effect_witness :
  let mvcc' := (TxnHeartBeat ex_mvcc key_b 30 500).2 in
  wf (EDB mvcc') /\
  (forall k', k' <> key_b -> same_key (EDB ex_mvcc) (EDB mvcc') k') /\
  (forall ts, write_at (EDB mvcc') key_b ts = write_at (EDB ex_mvcc) key_b ts) /\
  (TxnHeartBeat ex_mvcc key_b 30 500).1 = Ok (Z.max 100 500) /\
  lock_at (EDB mvcc') key_b = Some (set_ttl lock_b (Z.max 100 500)).
Proof.
  pose proof (TxnHeartBeat_effect ex_mvcc key_b 30 500 ex_wf ltac:(by vm_compute)) as E.
  assert (lock_at (EDB ex_mvcc) key_b = Some lock_b) as L by by vm_compute.
  cbv zeta in E. rewrite L in E. rewrite bool_decide_true in E by done. exact E.
Defined.

Lemma Cleanup_absent_witness :
  (Cleanup ex_mvcc key_d 7 0).1 = None /\
  (forall k', same_key (EDB ex_mvcc) (EDB (Cleanup ex_mvcc key_d 7 0).2) k') /\
  (Rollback ex_mvcc [key_d] 7).1 = None /\
  write_at (EDB (Rollback ex_mvcc [key_d] 7).2) key_d 7 = Some (rollback_val 7).
Proof.
  apply (Cleanup_absent ex_mvcc key_d 7 0).
  - apply ex_wf.
  - by vm_compute.
  - intros l E. by vm_compute in E.
  - intros c v E. apply ex_write_at in E as [E _]. by inversion E.
Defined.

(** ** Ranges *)

Lemma ResolveLock_effect_witness :
  (ResolveLock ex_mvcc [] [] 30 40).1 = None /\
  wf (EDB (ResolveLock ex_mvcc [] [] 30 40).2) /\
  forall k, if decide (key_range [] [] k)
    then resolved (EDB ex_mvcc) (EDB (ResolveLock ex_mvcc [] [] 30 40).2)
           (fun t => if t =? 30 then Some 40 else None) k
    else same_key (EDB ex_mvcc) (EDB (ResolveLock ex_mvcc [] [] 30 40).2) k.
Proof. apply (ResolveLock_effect ex_mvcc [] [] 30 40); [apply ex_wf|by vm_compute]. Defined.

Lemma BatchResolveLock_effect_witness :
  (BatchResolveLock ex_mvcc [] [] {[30 := 0]}).1 = None /\
  wf (EDB (BatchResolveLock ex_mvcc [] [] {[30 := 0]}).2) /\
  forall k, if decide (key_range [] [] k)
    then resolved (EDB ex_mvcc) (EDB (BatchResolveLock ex_mvcc [] [] {[30 := 0]}).2)
           (fun t => ({[30 := 0]} : gmap Z Z) !! t) k
    else same_key (EDB ex_mvcc) (EDB (BatchResolveLock ex_mvcc [] [] {[30 := 0]}).2) k.
Proof.
  apply (BatchResolveLock_effect ex_mvcc [] [] {[30 := 0]}); [apply ex_wf|].
  intros t c E. apply lookup_singleton_Some in E as [<- <-]. by vm_compute.
Defined.

Lemma GC_preserves_reads_witness :
  (GC ex_mvcc [] [] 25).1 = None /\
  match (GC ex_mvcc [] [] 25).1 with
  | Some _ => EDB (GC ex_mvcc [] [] 25).2 = EDB ex_mvcc /\
      exists k l, key_range [] [] k /\ lock_at (EDB ex_mvcc) k = Some l /\ lock_startTS l <= 25
  | None => forall k ts iso rl, 25 <= ts ->
      Get (GC ex_mvcc [] [] 25).2 k ts iso rl = Get ex_mvcc k ts iso rl
  end.
Proof.
  split; [by vm_compute|]. apply (GC_preserves_reads ex_mvcc [] [] 25); [apply ex_wf|done].
Defined.

Lemma ex_vers k : a_vers ex_st k =
  if decide (k = key_a) then [MkValue typeRollback 20 20 []; MkValue typePut 5 10 [x78]]
  else if decide (k = key_b) then [MkValue typePut 11 15 [x79]]
  else if decide (k = key_c) then [MkValue typeDelete 9 12 []; MkValue typePut 5 8 [x77]]
  else [].
Proof.
  destruct (decide (k = key_a)) as [->|Na]; [by vm_compute|].
  destruct (decide (k = key_b)) as [->|Nb]; [by vm_compute|].
  destruct (decide (k = key_c)) as [->|Nc]; [by vm_compute|].
  unfold a_vers, ex_st, apply_lops, ex_ops. cbn [fold_left apply_lop a_hist set_vers].
  by rewrite !lookup_insert_ne by done.
Qed.

(** The keys of the example. *)
Lemma ex_present k : present (EDB ex_mvcc) k -> k ∈ [key_a; key_b; key_c].
Proof.
  intros (i & Hi & <-). destruct i as [k l|k v]; cbn [has_item item_key] in *.
  - rewrite (rep_lock _ _ ex_rep) in Hi. unfold a_lock in Hi.
    destruct (decide (k = key_b)) as [->|N]; [by right; left|]. exfalso.
    unfold ex_st, apply_lops, ex_ops in Hi. cbn [fold_left apply_lop a_locks set_vers] in Hi.
    by rewrite lookup_insert_ne in Hi by done.
  - apply ex_write_at in Hi as [Hi _]. rewrite ex_vers in Hi.
    repeat case_decide; subst; rewrite ?elem_of_cons; auto. by inversion Hi.
Qed.

Lemma ex_plain : plain_values (EDB ex_mvcc).
Proof.
  intros k c v E D. apply ex_write_at in E as [E _]. rewrite ex_vers in E.
  repeat case_decide; rewrite ?elem_of_cons in E;
    repeat (destruct E as [->|E]; [done|]); by inversion E.
Qed.

Lemma ReverseScan_BatchGet_witness :
  ReverseScan ex_mvcc key_a [] 5 25 IsolationLevel_SI [] =
    Some [MkPair key_b (Some [x79]) None; MkPair key_a (Some [x78]) None] /\
  exists ks, range_keys (EDB ex_mvcc) key_a [] ks /\
    ReverseScan ex_mvcc key_a [] 5 25 IsolationLevel_SI [] =
      Some (take (Z.to_nat 5) (BatchGet ex_mvcc (rev ks) 25 IsolationLevel_SI [])).
Proof.
  split; [by vm_compute|].
  apply (ReverseScan_BatchGet ex_mvcc key_a [] 5 25 IsolationLevel_SI []); [apply ex_wf|apply ex_plain].
Defined.

Lemma DeleteRange_effect_witness :
  (DeleteRange ex_mvcc key_b key_c).1 = None /\ wf (EDB (DeleteRange ex_mvcc key_b key_c).2) /\
  lock_at (EDB (DeleteRange ex_mvcc key_b key_c).2) key_b = None /\
  forall ts, write_at (EDB (DeleteRange ex_mvcc key_b key_c).2) key_b ts = None.
Proof.
  pose proof (DeleteRange_effect ex_mvcc key_b key_c key_b ex_wf) as E.
  rewrite decide_True in E by (split; by vm_compute). exact E.
Defined.

(** ** A run of the protocol *)

(** Start timestamps are odd, and the commit timestamp of a transaction is the
    next even number. *)
Definition run_start (t : Z) : Prop := Z.odd t = true.
Definition run_owner (c : Z) : Z := c - 1.

Definition run0 : MVCCLevelDB := MkStore empty_db NewDetector.
Definition run1 : MVCCLevelDB := after_prewrite run0 (ex_prewrite 51).
Definition run2 : MVCCLevelDB := (Commit run1 [key_a] 51 52).2.
Definition run3 : MVCCLevelDB := (Rollback run2 [key_d] 51).2.

Lemma run2_reachable : reachable run_start run_owner run2.
Proof.
  apply (reachable_step _ _ false run1 run2).
  - apply (reachable_step _ _ false run0 run1); [by apply reachable_init|].
    apply (step_prewrite _ _ _ _ (ex_prewrite 51) [None; None]).
    + by apply ex_prewrite_ok.
    + intros c _ E. unfold run_owner in E. simpl in *. lia.
    + apply after_prewrite_eq. by vm_compute.
  - apply step_commit. split; [done|]. split; [|split; done]. by vm_compute.
Qed.

Lemma reachable_one_record_witness :
  reachable run_start run_owner run2 /\
  (forall c c' v v', write_at (EDB run2) key_a c = Some v -> write_at (EDB run2) key_a c' = Some v' ->
     val_startTS v = val_startTS v' -> c = c' /\ v = v') /\
  (forall l c v, lock_at (EDB run2) key_a = Some l -> write_at (EDB run2) key_a c = Some v ->
     val_startTS v <> lock_startTS l).
Proof.
  split; [apply run2_reachable|].
  apply (reachable_one_record run_start run_owner run2 key_a run2_reachable).
Defined.

Lemma reachable_durable_witness :
  write_at (EDB run3) key_a 52 = Some (MkValue typePut 51 52 [x71]).
Proof.
  apply (reachable_durable run_start run_owner run2 run3 key_a 52 (MkValue typePut 51 52 [x71])).
  - apply run2_reachable.
  - apply step_rollback. split; by vm_compute.
  - by vm_compute.
Defined.
