(* ===== verification/GoHeap.v ===== *)
(** * Binary heaps and sorting as the Go library does them

    [container/heap] works on any type with the five methods of its interface;
    [down], [up], [Init], [Push], [Pop] and [Fix] are its functions, over a class for
    that interface.  [HeapLaws] says what the methods of an implementation do
    to the list of its items; under it the functions keep the heap order and
    the items.  [sort.Sort] is not stable and its result on equal items is not
    specified: [Sorter] only says that it sorts. *)

From stdpp Require Import base list sorting option.
From Stdlib Require Import Lia.
From S2P Require Import Prelude.

(** ** The interface and the functions of container/heap *)

(** [heap.Interface]; [None] is a panic (an index out of range).  [Less] may
    change the state: the sorter of a query records a failed comparison. *)
Class HeapInterface (S A : Type) := {
  Len : S -> nat;
  Less : nat -> nat -> S -> option (bool * S);
  Swap : nat -> nat -> S -> option S;
  Push : A -> S -> S;
  Pop : S -> option (option A * S);
}.

Section functions.
Context {S A : Type} `{HeapInterface S A}.

(** [(j - 1) / 2] with Go's truncating division, so 0 is its own parent. *)
Definition parent (j : nat) : nat := (j - 1) / 2.

Fixpoint up (fuel : nat) (j : nat) (h : S) : option S :=
  match fuel with
  | O => None
  | Datatypes.S fuel =>
      let i := parent j in
      if decide (i = j) then Some h else
      '(l, h) ← Less j i h;
      if negb l then Some h else
      h ← Swap i j h;
      up fuel i h
  end.

Fixpoint down_loop (fuel : nat) (i n : nat) (h : S) : option (nat * S) :=
  match fuel with
  | O => None
  | Datatypes.S fuel =>
      let j1 := 2 * i + 1 in
      if decide (n <= j1) then Some (i, h) else
      '(j, h) ← (if decide (j1 + 1 < n)
                 then '(l, h) ← Less (j1 + 1) j1 h; Some (if l : bool then j1 + 1 else j1, h)
                 else Some (j1, h));
      '(l, h) ← Less j i h;
      if negb l then Some (i, h) else
      h ← Swap i j h;
      down_loop fuel j n h
  end.

(** Reports whether the item moved. *)
Definition down (i0 n : nat) (h : S) : option (bool * S) :=
  '(i, h) ← down_loop (Datatypes.S n) i0 n h;
  Some (bool_decide (i0 < i), h).

(** [for i := n/2 - 1; i >= 0; i--]: the argument is one more than [i]. *)
Fixpoint init_loop (k n : nat) (h : S) : option S :=
  match k with
  | O => Some h
  | Datatypes.S i => '(_, h) ← down i n h; init_loop i n h
  end.

Definition heap_Init (h : S) : option S :=
  let n := Len h in init_loop (n / 2) n h.

Definition heap_Push (x : A) (h : S) : option S :=
  let h := Push x h in
  let j := Len h - 1 in
  up (Datatypes.S j) j h.

Definition heap_Pop (h : S) : option (option A * S) :=
  if decide (Len h = 0) then None else
  let n := Len h - 1 in
  h ← Swap 0 n h;
  '(_, h) ← down 0 n h;
  Pop h.

Definition heap_Fix (i : nat) (h : S) : option S :=
  '(moved, h) ← down i (Len h) h;
  if moved : bool then Some h else up (Datatypes.S i) i h.
End functions.

Arguments heap_Init : simpl never.
Arguments heap_Push : simpl never.
Arguments heap_Pop : simpl never.
Arguments heap_Fix : simpl never.
Arguments parent : simpl never.

(** ** sort.Sort *)

(** [sort.Sort] on a slice: some permutation of it, sorted. *)
Class Sorter := sort_Sort : forall {A}, (A -> A -> bool) -> list A -> list A.

(** A strict weak order on the items with [P]: not less is a total preorder. *)
Class StrictWeak {A} (P : A -> Prop) (lt : A -> A -> bool) : Prop := {
  sw_asym : forall x y, P x -> P y -> lt x y = true -> lt y x = false;
  sw_trans : forall x y z, P x -> P y -> P z ->
    lt y x = false -> lt z y = false -> lt z x = false;
}.

Class SorterLaws `{Sorter} : Prop := {
  sort_perm : forall {A} (lt : A -> A -> bool) l, sort_Sort lt l ≡ₚ l;
  sort_sorted : forall {A} (P : A -> Prop) (lt : A -> A -> bool) l, StrictWeak P lt -> Forall P l ->
    StronglySorted (fun x y => lt y x = false) (sort_Sort lt l);
}.

(** ** Swapping items of a list *)

Definition swap {A} (i j : nat) (l : list A) : option (list A) :=
  x ← l !! i; y ← l !! j; Some (<[j := x]> (<[i := y]> l)).

Definition transp (i j k : nat) : nat :=
  if decide (k = i) then j else if decide (k = j) then i else k.

Lemma transp_inj i j : Inj (=) (=) (transp i j).
Proof. intros a b. unfold transp. repeat case_decide; lia. Qed.

Section swap.
Context {A : Type}.
Implicit Types l : list A.

Lemma swap_is_Some i j l : i < length l -> j < length l -> is_Some (swap i j l).
Proof.
  intros [x Hx]%lookup_lt_is_Some_2 [y Hy]%lookup_lt_is_Some_2.
  unfold swap. rewrite Hx; simpl. rewrite Hy. eauto.
Qed.

Lemma swap_lookup i j l l' : swap i j l = Some l' -> forall k, l' !! k = l !! transp i j k.
Proof.
  unfold swap. intros E k. destruct (l !! i) as [x|] eqn:Hx; simplify_eq/=.
  destruct (l !! j) as [y|] eqn:Hy; simplify_eq/=.
  pose proof (lookup_lt_Some _ _ _ Hx). pose proof (lookup_lt_Some _ _ _ Hy).
  unfold transp. destruct (decide (k = j)) as [->|].
  - rewrite list_lookup_insert_eq by (rewrite length_insert; lia).
    case_decide; congruence.
  - rewrite list_lookup_insert_ne by done. case_decide as D.
    + subst. rewrite list_lookup_insert_eq by lia. congruence.
    + rewrite list_lookup_insert_ne by done. done.
Qed.

Lemma swap_length i j l l' : swap i j l = Some l' -> length l' = length l.
Proof.
  unfold swap. destruct (l !! i); simpl; [|done]. destruct (l !! j); simpl; [|done].
  intros [= <-]. by rewrite !length_insert.
Qed.

Lemma swap_perm i j l l' : swap i j l = Some l' -> l' ≡ₚ l.
Proof.
  intros E. apply Permutation_inj. split; [by eapply swap_length|].
  exists (transp i j). split; [apply transp_inj|]. by apply swap_lookup.
Qed.
End swap.

(** ** The heap order *)

Section order.
Context {A : Type} (P : A -> Prop) (lt : A -> A -> bool) `{!StrictWeak P lt}.
Implicit Types l : list A.

Lemma Forall_at l i x : Forall P l -> l !! i = Some x -> P x.
Proof. intros F E. by eapply (Forall_lookup_1 P). Qed.

(** Item [i] is not above item [j]. *)
Definition le_at l (i j : nat) : Prop :=
  forall x y, l !! i = Some x -> l !! j = Some y -> lt y x = false.

(** The first [n] items are in heap order below every index from [k] on,
    except that the items above and below [hole] are not compared with it,
    but with each other. *)
Definition heap_from (k n : nat) l : Prop :=
  forall j, 0 < j < n -> k <= parent j -> le_at l (parent j) j.

Definition is_heap (n : nat) l : Prop := heap_from 0 n l.

Definition heap_down (k hole n : nat) l : Prop :=
  (forall j, 0 < j < n -> k <= parent j -> parent j <> hole -> le_at l (parent j) j) /\
  (0 < hole -> k <= parent hole -> forall j, 0 < j < n -> parent j = hole -> le_at l (parent hole) j).

Definition heap_up (hole n : nat) l : Prop :=
  (forall j, 0 < j < n -> j <> hole -> le_at l (parent j) j) /\
  (0 < hole -> forall j, 0 < j < n -> parent j = hole -> le_at l (parent hole) j).

Lemma parent_iff j p : 0 < j -> parent j = p <-> j = 2 * p + 1 \/ j = 2 * p + 2.
Proof.
  intros. unfold parent. pose proof (Nat.div_mod_eq (j - 1) 2).
  pose proof (Nat.mod_upper_bound (j - 1) 2). lia.
Qed.

Lemma parent_lt j : 0 < j -> parent j < j.
Proof. intros. pose proof (proj1 (parent_iff j _ H) eq_refl). lia. Qed.

Lemma parent_0 : parent 0 = 0.
Proof. done. Qed.

Lemma le_at_trans l i j k :
  Forall P l -> j < length l -> le_at l i j -> le_at l j k -> le_at l i k.
Proof.
  intros F [y Hy]%lookup_lt_is_Some_2 H1 H2 x z Hx Hz.
  eapply (sw_trans x y z); [by eapply Forall_at..| |]; [by apply (H1 x y)|by apply (H2 y z)].
Qed.

(** A sorted list is in heap order. *)
Lemma sorted_is_heap n l : StronglySorted (fun x y => lt y x = false) l -> is_heap n l.
Proof.
  intros S j Hj _ x y Hx Hy. pose proof (parent_lt j ltac:(lia)).
  rewrite <- (take_drop j l) in S. eapply (StronglySorted_app_1_elem_of _ _ _ x y S).
  - apply list_elem_of_lookup. exists (parent j). by rewrite lookup_take_lt by lia.
  - apply list_elem_of_lookup. exists 0. by rewrite lookup_drop, Nat.add_0_r.
Qed.

Lemma heap_root n l : Forall P l -> n <= length l -> is_heap n l -> forall j, j < n -> le_at l 0 j.
Proof.
  intros F Hn H j. induction (lt_wf j) as [j _ IH]. intros Hj.
  destruct (decide (j = 0)) as [->|].
  - intros x y Hx Hy. assert (x = y) as <- by congruence.
    destruct (lt x x) eqn:E; [|done].
    assert (Px : P x) by by eapply Forall_at.
    pose proof (sw_asym _ _ Px Px E). congruence.
  - pose proof (parent_lt j ltac:(lia)).
    eapply (le_at_trans _ _ (parent j)); [done|lia|apply IH; lia|apply H; lia].
Qed.

(** What a swap does to a comparison. *)
Lemma swap_le_at i j l l' a b :
  swap i j l = Some l' -> le_at l (transp i j a) (transp i j b) -> le_at l' a b.
Proof. intros E. unfold le_at. by rewrite !(swap_lookup _ _ _ _ E). Qed.

Lemma le_at_asym l i j x y :
  Forall P l -> l !! i = Some x -> l !! j = Some y -> lt x y = true -> le_at l i j.
Proof.
  intros F Hi Hj E ?? ??. simplify_eq. apply sw_asym; [by eapply Forall_at..|done].
Qed.

Lemma le_at_not l i j x y : l !! i = Some x -> l !! j = Some y -> lt y x = false -> le_at l i j.
Proof. intros Hi Hj E ?? ??. by simplify_eq. Qed.

Ltac transposed := unfold transp; repeat case_decide; try lia; try done; try congruence.

(** One step of [down]: the item of [i] goes below its lesser child [j]. *)
Lemma down_step k i j n l l' :
  n <= length l -> 0 < j < n -> parent j = i ->
  (forall m, 0 < m < n -> parent m = i -> m <> j -> le_at l j m) ->
  le_at l j i -> swap i j l = Some l' -> heap_down k i n l -> heap_down k j n l'.
Proof.
  intros Hn Hj Hp Hsib Hji E [H1 H2]. pose proof (parent_lt j ltac:(lia)). split.
  - intros m Hm Hk Hpm. pose proof (parent_lt m ltac:(lia)). apply (swap_le_at _ _ _ _ _ _ E).
    destruct (decide (parent m = i)) as [Ei|].
    + destruct (decide (m = j)) as [->|]; transposed. by apply Hsib.
    + destruct (decide (m = i)) as [->|]; transposed; [|by apply H1]. apply H2; lia.
  - intros _ Hk m Hm Hpm. pose proof (parent_lt m ltac:(lia)). apply (swap_le_at _ _ _ _ _ _ E).
    transposed. rewrite <- Hpm. apply H1; lia.
Qed.

(** Where [down] stops. *)
Lemma down_stop k i n l :
  (forall m, 0 < m < n -> parent m = i -> le_at l i m) -> heap_down k i n l -> heap_from k n l.
Proof.
  intros Hi [H1 _] m Hm Hk. destruct (decide (parent m = i)) as [E|]; [|by apply H1].
  rewrite E. by apply Hi.
Qed.

(** One step of [up]. *)
Lemma up_step j n l l' :
  Forall P l -> j < n -> n <= length l -> 0 < j -> le_at l j (parent j) -> swap (parent j) j l = Some l' ->
  heap_up j n l -> heap_up (parent j) n l'.
Proof.
  intros F Hj Hn H0 Hle E [H1 H2]. pose proof (parent_lt j H0). split.
  - intros m Hm Hpm. pose proof (parent_lt m ltac:(lia)). apply (swap_le_at _ _ _ _ _ _ E).
    destruct (decide (m = j)) as [->|]; [by transposed|].
    destruct (decide (parent m = j)) as [Ej|]; [transposed; by apply H2|].
    destruct (decide (parent m = parent j)) as [Ei|]; transposed; [|by apply H1].
    apply (le_at_trans _ _ (parent j)); [done|lia|done|]. rewrite <- Ei. by apply H1.
  - intros H0' m Hm Hpm. pose proof (parent_lt m ltac:(lia)).
    pose proof (parent_lt (parent j) H0'). apply (swap_le_at _ _ _ _ _ _ E).
    assert (le_at l (parent (parent j)) (parent j)) by (apply H1; lia).
    destruct (decide (m = j)) as [->|]; transposed.
    apply (le_at_trans _ _ (parent j)); [done|lia|done|]. rewrite <- Hpm. apply H1; lia.
Qed.

Lemma up_stop j n l : le_at l (parent j) j -> heap_up j n l -> is_heap n l.
Proof. intros Hj [H1 _] m Hm _. destruct (decide (m = j)) as [->|]; [done|by apply H1]. Qed.
End order.

(** ** Implementations of the interface *)

(** [items] are the items behind the indices, at least [Len] of them; [Inv] is
    what the methods keep.  [Less] answers by [lt]. *)
Class HeapLaws {S A} `{HeapInterface S A} (items : S -> list A) (lt : A -> A -> bool)
    (P : A -> Prop) (Inv : S -> Prop) : Prop := {
  items_law s : Inv s -> Forall P (items s);
  less_law s i j x y : Inv s -> items s !! i = Some x -> items s !! j = Some y ->
    exists s', Less i j s = Some (lt x y, s') /\ Inv s' /\ items s' = items s /\ Len s' = Len s;
  swap_law s i j l : Inv s -> swap i j (items s) = Some l ->
    exists s', Swap i j s = Some s' /\ Inv s' /\ items s' = l /\ Len s' = Len s;
}.

Section laws.
Context {S A : Type} `{HI : HeapInterface S A} (items : S -> list A) (lt : A -> A -> bool)
  (P : A -> Prop) (Inv : S -> Prop) `{!HeapLaws items lt P Inv} `{!StrictWeak P lt}.

(** [s'] holds the items of [s], the same ones from [n] on. *)
Definition rearranged (n : nat) (s s' : S) : Prop :=
  Inv s' /\ Len s' = Len s /\ items s' ≡ₚ items s /\ forall m, n <= m -> items s' !! m = items s !! m.

Lemma rearranged_same n s s' :
  Inv s' -> items s' = items s -> Len s' = Len s -> rearranged n s s'.
Proof. intros I E L. repeat split; try done; rewrite E; done. Qed.

Lemma rearranged_trans n s1 s2 s3 : rearranged n s1 s2 -> rearranged n s2 s3 -> rearranged n s1 s3.
Proof.
  intros (I1 & L1 & Q1 & K1) (I2 & L2 & Q2 & K2).
  repeat split; [done|congruence|by rewrite Q2|]. intros. rewrite K2, K1; done.
Qed.

Lemma rearranged_length n s s' : rearranged n s s' -> length (items s') = length (items s).
Proof. by intros (_ & _ & Q & _); rewrite Q. Qed.

Lemma swap_rearranged n i j s :
  Inv s -> i < n -> j < n -> n <= length (items s) ->
  exists s', Swap i j s = Some s' /\ rearranged n s s' /\ swap i j (items s) = Some (items s').
Proof.
  intros I Hi Hj Hn. destruct (swap_is_Some i j (items s)) as [l E]; [lia..|].
  destruct (swap_law s i j l I E) as (s' & ES & I' & El & EL).
  exists s'. split; [done|]. rewrite El. split; [|done]. repeat split; [done|done| |].
  - rewrite El. by eapply swap_perm.
  - intros m Hm. rewrite El, (swap_lookup _ _ _ _ E). unfold transp. repeat case_decide; lia || done.
Qed.

Lemma less_at s i j : Inv s -> i < length (items s) -> j < length (items s) ->
  exists b s', Less i j s = Some (b, s') /\ Inv s' /\ items s' = items s /\ Len s' = Len s /\
  if b : bool then le_at lt (items s) i j else le_at lt (items s) j i.
Proof.
  intros I [x Hx]%lookup_lt_is_Some_2 [y Hy]%lookup_lt_is_Some_2.
  destruct (less_law s i j x y I Hx Hy) as (s' & ? & ? & ? & ?).
  exists (lt x y), s'. repeat split; try done. destruct (lt x y) eqn:E.
  - eapply (le_at_asym P); try done. by apply items_law.
  - by eapply le_at_not.
Qed.

(** The child that [down] compares with. *)
Lemma lesser_child n i s :
  Inv s -> n <= length (items s) -> 2 * i + 1 < n ->
  exists j s', (if decide (2 * i + 1 + 1 < n)
                then '(l, h) ← Less (2 * i + 1 + 1) (2 * i + 1) s;
                     Some (if l : bool then 2 * i + 1 + 1 else 2 * i + 1, h)
                else Some (2 * i + 1, s)) = Some (j, s') /\
  Inv s' /\ items s' = items s /\ Len s' = Len s /\ 0 < j < n /\ parent j = i /\
  forall m, 0 < m < n -> parent m = i -> m <> j -> le_at lt (items s) j m.
Proof.
  intros I Hn Hi. case_decide as D.
  - destruct (less_at s (2 * i + 1 + 1) (2 * i + 1) I) as (b & s' & -> & I' & Ei & EL & Hb); [lia..|].
    simpl. eexists _, _. split; [done|]. do 3 (split; [done|]).
    split; [destruct b; lia|]. split; [apply parent_iff; destruct b; lia|].
    intros m Hm Hp Hne. apply parent_iff in Hp; [|lia].
    assert (m = if b then 2 * i + 1 else 2 * i + 1 + 1) as -> by (destruct b; lia).
    destruct b; done.
  - exists (2 * i + 1), s. do 4 (split; [done|]). split; [lia|].
    split; [apply parent_iff; lia|]. intros m Hm Hp Hne. apply parent_iff in Hp; lia.
Qed.

Lemma down_loop_spec k n : forall fuel i s,
  Inv s -> n <= length (items s) -> heap_down lt k i n (items s) -> n - i < fuel ->
  exists i' s', down_loop fuel i n s = Some (i', s') /\ rearranged n s s' /\ i <= i' /\
    heap_from lt k n (items s') /\ (i' = i -> items s' = items s).
Proof.
  induction fuel as [|fuel IH]; intros i s I Hn H Hf; [lia|]. cbn [down_loop].
  case_decide as D.
  - exists i, s. split; [done|]. split; [by apply rearranged_same|]. split; [done|]. split; [|done].
    apply (down_stop lt k i n); [|done]. intros m Hm Hp. apply parent_iff in Hp; lia.
  - destruct (lesser_child n i s I Hn) as (j & s1 & -> & I1 & E1 & L1 & Hj & Hp & Hsib); [lia|].
    simpl. pose proof (parent_lt j ltac:(lia)).
    destruct (less_at s1 j i I1) as (b & s2 & -> & I2 & E2 & L2 & Hb); [rewrite E1; lia..|]. simpl.
    destruct b; simpl.
    + destruct (swap_rearranged n i j s2 I2) as (s3 & -> & R & E); [lia|lia|congruence|]. simpl.
      destruct R as (I3 & R). rewrite E2, E1 in E.
      destruct (IH j s3 I3) as (i' & s' & -> & R' & Hi' & Hh & _).
      { by rewrite (swap_length _ _ _ _ E). }
      { apply (down_step lt k i j n (items s)); try done; by rewrite <- E1. }
      { lia. }
      exists i', s'. split; [done|]. split; [|split; [lia|split; [done|lia]]].
      eapply rearranged_trans; [|done]. eapply rearranged_trans; [|by split].
      apply rearranged_same; congruence.
    + exists i, s2. split; [done|]. split; [apply rearranged_same; congruence|].
      split; [done|]. split; [|congruence]. rewrite E2, E1.
      apply (down_stop lt k i n); [|done]. rewrite E1 in Hb. intros m Hm Hpm.
      destruct (decide (m = j)) as [->|]; [done|].
      apply (le_at_trans P lt _ i j); [by apply items_law|lia|done|by apply Hsib].
Qed.

Lemma down_spec k n i s :
  Inv s -> n <= length (items s) -> heap_down lt k i n (items s) ->
  exists b s', down i n s = Some (b, s') /\ rearranged n s s' /\
    heap_from lt k n (items s') /\ (b = false -> items s' = items s).
Proof.
  intros I Hn H. unfold down.
  destruct (down_loop_spec k n (Datatypes.S n) i s I Hn H) as (i' & s' & -> & R & Hi & Hh & He); [lia|].
  simpl. eexists _, _. split; [done|]. do 2 (split; [done|]).
  intros E. apply He. apply bool_decide_eq_false in E. lia.
Qed.

Lemma up_spec n : forall fuel j s,
  Inv s -> n <= length (items s) -> j < n -> heap_up lt j n (items s) -> j < fuel ->
  exists s', up fuel j s = Some s' /\ rearranged n s s' /\ is_heap lt n (items s').
Proof.
  induction fuel as [|fuel IH]; intros j s I Hn Hj H Hf; [lia|]. cbn [up].
  case_decide as D.
  - exists s. split; [done|]. split; [by apply rearranged_same|].
    destruct H as [H _]. intros m Hm _. apply H; [done|]. intros ->.
    pose proof (parent_lt j ltac:(lia)). lia.
  - assert (0 < j) by (destruct j; [done|lia]). pose proof (parent_lt j ltac:(lia)).
    destruct (less_at s j (parent j) I) as (b & s2 & -> & I2 & E2 & L2 & Hb); [lia..|]. simpl.
    destruct b; simpl.
    + destruct (swap_rearranged n (parent j) j s2 I2) as (s3 & -> & R & E); [lia|lia|congruence|]. simpl.
      destruct R as (I3 & R). rewrite E2 in E.
      destruct (IH (parent j) s3 I3) as (s' & -> & R' & Hh).
      { by rewrite (swap_length _ _ _ _ E). }
      { lia. }
      { apply (up_step P lt j n (items s)); try done. by apply items_law. }
      { lia. }
      exists s'. split; [done|]. split; [|done].
      eapply rearranged_trans; [|done]. eapply rearranged_trans; [|by split].
      apply rearranged_same; congruence.
    + exists s2. split; [done|]. split; [apply rearranged_same; congruence|].
      rewrite E2. by apply (up_stop lt j).
Qed.

Lemma heap_from_end n l : heap_from lt (n / 2) n l.
Proof.
  intros j Hj Hk. pose proof (proj1 (parent_iff j _ ltac:(lia)) eq_refl).
  pose proof (Nat.div_mod_eq n 2). pose proof (Nat.mod_upper_bound n 2). lia.
Qed.

Lemma init_loop_spec n : forall k s,
  Inv s -> n <= length (items s) -> heap_from lt k n (items s) ->
  exists s', init_loop k n s = Some s' /\ rearranged n s s' /\ is_heap lt n (items s').
Proof.
  induction k as [|k IH]; intros s I Hn H; cbn [init_loop].
  - exists s. split; [done|]. split; [by apply rearranged_same|done].
  - destruct (down_spec k n k s I Hn) as (b & s1 & -> & R1 & H1 & _).
    { split; [intros j Hj Hk Hp; apply H; lia|].
      intros H0 Hk. pose proof (parent_lt k H0). lia. }
    simpl. pose proof R1 as (I1 & _).
    destruct (IH s1 I1) as (s' & -> & R' & Hh); [by rewrite (rearranged_length _ _ _ R1)|done|].
    exists s'. split; [done|]. split; [by eapply rearranged_trans|done].
Qed.

(** ** The four functions *)

Lemma heap_Init_spec s :
  Inv s -> Len s <= length (items s) ->
  exists s', heap_Init s = Some s' /\ rearranged (Len s) s s' /\ is_heap lt (Len s) (items s').
Proof. intros I Hn. apply init_loop_spec; [done|done|apply heap_from_end]. Qed.

Lemma heap_Push_spec x s s' :
  Push x s = s' -> Inv s' -> Len s' <= length (items s') -> 0 < Len s' ->
  is_heap lt (Len s' - 1) (items s') ->
  exists s'', heap_Push x s = Some s'' /\ rearranged (Len s') s' s'' /\ is_heap lt (Len s') (items s'').
Proof.
  intros <- I Hn H0 H. apply up_spec; [done|done|lia| |lia]. split.
  - intros j Hj Hne. apply H; lia.
  - intros _ j Hj Hp. pose proof (parent_lt j ltac:(lia)). lia.
Qed.

Lemma heap_Pop_spec s :
  Inv s -> 0 < Len s <= length (items s) -> is_heap lt (Len s) (items s) ->
  exists s', heap_Pop s = Pop s' /\ rearranged (Len s) s s' /\ is_heap lt (Len s - 1) (items s') /\
    items s' !! (Len s - 1) = items s !! 0.
Proof.
  intros I Hn H. unfold heap_Pop. rewrite decide_False by lia.
  destruct (swap_rearranged (Len s) 0 (Len s - 1) s I) as (s1 & -> & R1 & E); [lia..|]. simpl.
  pose proof R1 as (I1 & L1 & _). pose proof (rearranged_length _ _ _ R1).
  destruct (down_spec 0 (Len s - 1) 0 s1 I1) as (b & s2 & -> & R2 & H2 & _); [lia| |].
  { split; [|lia]. intros j Hj _ Hp. pose proof (parent_lt j ltac:(lia)).
    eapply swap_le_at; [done|]. unfold transp. repeat case_decide; try lia. apply H; lia. }
  simpl. exists s2. split; [done|]. split; [|split; [done|]].
  - eapply rearranged_trans; [done|]. destruct R2 as (? & ? & ? & K). repeat split; try done.
    intros m Hm. apply K. lia.
  - destruct R2 as (_ & _ & _ & K). rewrite K by lia. rewrite (swap_lookup _ _ _ _ E).
    unfold transp. repeat case_decide; try lia; f_equal; lia.
Qed.

(** [Fix] at the root, after any change of the item there. *)
Lemma heap_Fix_root s :
  Inv s -> 0 < Len s <= length (items s) -> heap_down lt 0 0 (Len s) (items s) ->
  exists s', heap_Fix 0 s = Some s' /\ rearranged (Len s) s s' /\ is_heap lt (Len s) (items s').
Proof.
  intros I Hn H. unfold heap_Fix.
  destruct (down_spec 0 (Len s) 0 s I) as (b & s1 & -> & R1 & H1 & Hb); [lia|done|]. simpl.
  destruct b; exists s1; done.
Qed.
End laws.

(** A sorter, so that [SorterLaws] can hold: insertion sort. *)
Fixpoint insert_sorted {A} (lt : A -> A -> bool) (x : A) (l : list A) : list A :=
  match l with
  | [] => [x]
  | y :: l' => if lt y x then y :: insert_sorted lt x l' else x :: l
  end.

Definition insertion_sorter : Sorter := fun A lt l => foldr (insert_sorted lt) [] l.

Lemma insert_sorted_perm {A} (lt : A -> A -> bool) x l : insert_sorted lt x l ≡ₚ x :: l.
Proof.
  induction l as [|y l IH]; [done|]. cbn. destruct (lt y x); [|done]. rewrite IH. apply Permutation_swap.
Qed.

Lemma insertion_sorter_laws : @SorterLaws insertion_sorter.
Proof.
  split.
  - intros A lt l. induction l as [|x l IH]; [done|]. cbn. by rewrite insert_sorted_perm, IH.
  - intros A P lt l W F. unfold sort_Sort, insertion_sorter. induction F as [|x l Px F IH]; [constructor|]. cbn.
    assert (FS : Forall P (foldr (insert_sorted lt) [] l)).
    { clear IH. induction F as [|y l Py F IH]; [done|]. cbn. rewrite insert_sorted_perm. by constructor. }
    revert IH FS. generalize (foldr (insert_sorted lt) [] l) as s. clear l F.
    intros s Ss Fs. induction s as [|y s IH]; cbn; [repeat constructor|].
    pose proof (Forall_inv Fs) as Py. apply Forall_inv_tail in Fs. apply StronglySorted_inv in Ss as [Ss Fy].
    destruct (lt y x) eqn:E.
    + constructor; [by apply IH|]. rewrite insert_sorted_perm. constructor; [|done]. by apply sw_asym.
    + constructor; [by constructor|]. constructor; [done|]. rewrite Forall_forall in Fy, Fs |- *.
      intros z Hz. apply (sw_trans x y z); auto.
Qed.
