(* ===== verification/GoMonad.v ===== *)
(** * Computations: a value, an error or a panic, and the state they leave

    The monad of the methods that change their object and can fail, with the
    lemmas and tactics that run them; and slices: a slice is an array, a length
    and, in the array, a capacity, and appending writes into the array that it
    shares with other slices as long as the capacity allows. *)

From stdpp Require Import base gmap list option.
From Stdlib Require Import Strings.Byte ZArith Lia.
From S2P Require Import Prelude External.

Local Open Scope Z_scope.

(** [NoFuel] is the end of the fuel of the model; the theorems show that it
    does not happen. *)

Inductive out (A : Type) : Type :=
| Ret (a : A)
| Fail (e : goerror)
| Panic
| NoFuel.
Arguments Ret {A} _.
Arguments Fail {A} _.
Arguments Panic {A}.
Arguments NoFuel {A}.

Definition M (S A : Type) : Type := S -> out A * S.

#[export] Instance M_ret {S} : MRet (M S) := fun A a s => (Ret a, s).

#[export] Instance M_bind {S} : MBind (M S) := fun A B k m s =>
  match m s with
  | (Ret a, s) => k a s
  | (Fail e, s) => (Fail e, s)
  | (Panic, s) => (Panic, s)
  | (NoFuel, s) => (NoFuel, s)
  end.

Definition ret {S A} (a : A) : M S A := mret a.
Definition get {S} : M S S := fun s => (Ret s, s).
Definition modify {S} (f : S -> S) : M S unit := fun s => (Ret tt, f s).
Definition fail {S A} (e : goerror) : M S A := fun s => (Fail e, s).
Definition panic {S A} : M S A := fun s => (Panic, s).

Definition lift_res {S A} (r : res A) : M S A :=
  match r with Ok a => ret a | Err e => fail e end.

Definition lift_out {S A} (o : out A) : M S A := fun s => (o, s).

(** A value, or the panic of an index out of range. *)
Definition lift_opt {S A} (o : option A) : M S A :=
  match o with Some a => ret a | None => panic end.

(** Run a computation on a part of the state. *)
Definition zoom {S T A} (part : S -> T) (put : T -> S -> S) (m : M T A) : M S A := fun s =>
  let '(o, t) := m (part s) in (o, put t s).

(** The error of a computation as a value. *)
Definition catch {S A} (m : M S A) : M S (res A) := fun s =>
  match m s with
  | (Ret a, s') => (Ret (Ok a), s')
  | (Fail e, s') => (Ret (Err e), s')
  | (Panic, s') => (Panic, s')
  | (NoFuel, s') => (NoFuel, s')
  end.

(** [a[i]] for an [int]. *)
Definition at_ {A} (l : list A) (i : Z) : option A :=
  if decide (0 <= i) then l !! Z.to_nat i else None.

(** [a[i] = x]. *)
Definition put_ {A} (l : list A) (i : Z) (x : A) : option (list A) :=
  if decide (0 <= i < Z.of_nat (length l)) then Some (<[Z.to_nat i := x]> l) else None.

(** ** Running computations *)

Section monad.
Context {S A B : Type}.
Implicit Types (m : M S A) (k : A -> M S B) (s : S).

Lemma bind_Ret m k s a s' : m s = (Ret a, s') -> (m ≫= k) s = k a s'.
Proof. intros E. unfold mbind, M_bind. by rewrite E. Qed.

Lemma bind_Fail m k s e s' : m s = (Fail e, s') -> (m ≫= k) s = (Fail e, s').
Proof. intros E. unfold mbind, M_bind. by rewrite E. Qed.

Lemma bind_Panic m k s s' : m s = (Panic, s') -> (m ≫= k) s = (Panic, s').
Proof. intros E. unfold mbind, M_bind. by rewrite E. Qed.
End monad.

(** Computes the binds of a computation whose parts are values. *)
Ltac step_exec :=
  unfold mbind, M_bind, mret, M_ret, ret, get, modify, fail, panic, lift_res, lift_opt, lift_out, zoom;
  unfold mret, M_ret; cbn beta iota zeta.

(** ** Computations that keep a predicate of the state *)

Definition keeps {S A} (Q : S -> Prop) (m : M S A) : Prop := forall s, Q s -> Q (m s).2.

Create HintDb keeps.

Section keeps.
Context {S : Type} (Q : S -> Prop).

Lemma keeps_ret {A} (a : A) : keeps Q (ret a).
Proof. by intros s. Qed.

Lemma keeps_get : keeps Q get.
Proof. by intros s. Qed.

Lemma keeps_lift_res {A} (r : res A) : keeps Q (lift_res r).
Proof. by destruct r; intros s. Qed.

Lemma keeps_lift_opt {A} (o : option A) : keeps Q (lift_opt o).
Proof. by destruct o; intros s. Qed.

Lemma keeps_lift_out {A} (o : out A) : keeps Q (lift_out o).
Proof. by intros s. Qed.

Lemma keeps_fail {A} (e : goerror) : keeps Q (fail (A := A) e).
Proof. by intros s. Qed.

Lemma keeps_nofuel {A} : keeps Q (fun s => (NoFuel : out A, s)).
Proof. by intros s. Qed.

Lemma keeps_modify (f : S -> S) : (forall s, Q s -> Q (f s)) -> keeps Q (modify f).
Proof. intros F s. apply F. Qed.

Lemma keeps_bind {A B} (m : M S A) (k : A -> M S B) :
  keeps Q m -> (forall a, keeps Q (k a)) -> keeps Q (m ≫= k).
Proof.
  intros Hm Hk s Hs. specialize (Hm s Hs). unfold mbind, M_bind. destruct (m s) as [[a|e| |] s']; [|done..].
  by apply Hk.
Qed.

(** A part of the state that [Q] does not look at. *)
Lemma keeps_zoom_off {T A} (part : S -> T) (put : T -> S -> S) (m : M T A) :
  (forall t s, Q s -> Q (put t s)) -> keeps Q (zoom part put m).
Proof. intros F s Hs. unfold zoom. destruct (m (part s)). by apply F. Qed.

Lemma keeps_if {A} (b : bool) (m1 m2 : M S A) :
  keeps Q m1 -> keeps Q m2 -> keeps Q (if b then m1 else m2).
Proof. by destruct b. Qed.

Lemma keeps_decide {A} (P : Prop) `{Decision P} (m1 m2 : M S A) :
  keeps Q m1 -> keeps Q m2 -> keeps Q (if decide P then m1 else m2).
Proof. by case_decide. Qed.
End keeps.

#[export] Hint Resolve keeps_ret keeps_get keeps_lift_res keeps_lift_opt keeps_lift_out keeps_fail
  keeps_nofuel : keeps.

(** The structure of a computation: binds, cases, and what is known to keep. *)
Ltac step_keeps :=
  repeat first
    [ progress (eauto with keeps; fail)
    | apply keeps_bind; [|intros ?]
    | apply keeps_if
    | apply keeps_decide
    | apply keeps_modify; [intros ? ?; assumption]
    | apply keeps_zoom_off; [intros ? ? ?; assumption]
    | match goal with |- keeps _ (match ?x with _ => _ end) => destruct x end
    | progress eauto with keeps ].

(** ** Computations and what they establish

    [R] of the value and the state of a computation that returns, [E] of the
    state that an error or a panic leaves. *)

Definition hoare {S A} (P : S -> Prop) (m : M S A) (R : A -> S -> Prop) (E : S -> Prop) : Prop :=
  forall s, P s -> match m s with (Ret a, s') => R a s' | (_, s') => E s' end.

Section hoare.
Context {S : Type} (E : S -> Prop).

Lemma hoare_bind {A B} P (m : M S A) (k : A -> M S B) Q R :
  hoare P m Q E -> (forall a, hoare (Q a) (k a) R E) -> hoare P (m ≫= k) R E.
Proof.
  intros Hm Hk s Hs. specialize (Hm s Hs). unfold mbind, M_bind. destruct (m s) as [[a|e| |] s']; [|done..].
  by apply Hk.
Qed.

Lemma hoare_ret {A} P (a : A) (R : A -> S -> Prop) : (forall s, P s -> R a s) -> hoare P (ret a) R E.
Proof. intros F s Hs. by apply F. Qed.

Lemma hoare_weaken {A} (P P' : S -> Prop) (m : M S A) (R R' : A -> S -> Prop) :
  hoare P' m R' E -> (forall s, P s -> P' s) -> (forall a s, R' a s -> R a s) -> hoare P m R E.
Proof. intros Hm HP HR s Hs. specialize (Hm s (HP s Hs)). destruct (m s) as [[a|e| |] s']; auto. Qed.

Lemma hoare_keeps {A} P (m : M S A) R : hoare P m R E -> (forall a s, R a s -> E s) -> forall s, P s -> E (m s).2.
Proof. intros Hm HR s Hs. specialize (Hm s Hs). destruct (m s) as [[a|e| |] s']; [by eapply HR|done..]. Qed.
End hoare.

(** * Slices over shared arrays, and binary search

    A Go slice is a window on an array that other slices may share: an append
    that fits the capacity writes into the array, one that does not moves the
    items to a new array.  The slices here start at the first item of their
    array.  The cells of an array beyond those that were written are never
    read. *)

Record slice : Type := MkSlice { sl_arr : Z; sl_len : nat }.

Record array (A : Type) : Type := MkArray { cells : list A; cap : nat }.
Arguments MkArray {A} _ _.
Arguments cells {A} _.
Arguments cap {A} _.

(** A [nil] slice has no array; no array has the address 0. *)
Definition nil_slice : slice := MkSlice 0 0.

(** The capacity that [append] gives to a new array, from the old one and the
    length that is needed: the language leaves it open. *)
Class Growth : Type := grow : nat -> nat -> nat.
Class GrowthLaws `{Growth} : Prop := grow_enough : forall c n, (n <= grow c n)%nat.

Section slices.
Context {A : Type}.
Abbreviation arrays := (gmap Z (array A)).
Implicit Types (h : arrays) (s : slice) (xs : list A).

Definition sl_cells h s : list A := match h !! sl_arr s with Some a => cells a | None => [] end.
Definition sl_cap h s : nat := match h !! sl_arr s with Some a => cap a | None => 0 end.

Definition sl_read h s : list A := take (sl_len s) (sl_cells h s).

(** Write items over the cells from the index [i]. *)
Definition sl_write h s (i : nat) xs : arrays :=
  <[sl_arr s := MkArray (take i (sl_cells h s) ++ xs ++ drop (i + length xs) (sl_cells h s)) (sl_cap h s)]> h.

(** [make([]T, n)] filled with the items. *)
Definition sl_new (loc : Z) xs h : slice * arrays :=
  (MkSlice loc (length xs), <[loc := MkArray xs (length xs)]> h).

(** [s[0:n]]. *)
Definition sl_take (n : nat) s : slice := MkSlice (sl_arr s) n.

(** [append(s, xs...)]; [loc] is the address of the array that it may need. *)
Definition sl_append `{Growth} (loc : Z) h s xs : slice * arrays :=
  let n := (sl_len s + length xs)%nat in
  if decide (xs = []) then (s, h)
  else if decide (n <= sl_cap h s)%nat then (MkSlice (sl_arr s) n, sl_write h s (sl_len s) xs)
  else (MkSlice loc n, <[loc := MkArray (sl_read h s ++ xs) (grow (sl_cap h s) n)]> h).

(** The window of a slice is in the written part of its array. *)
Definition sl_ok h s : Prop := (sl_len s <= length (sl_cells h s))%nat.

Lemma sl_read_length h s : sl_ok h s -> length (sl_read h s) = sl_len s.
Proof. intros O. unfold sl_read. rewrite length_take. unfold sl_ok in O. lia. Qed.

Lemma sl_cells_insert h s loc a : sl_cells (<[loc := a]> h) s = if decide (sl_arr s = loc) then cells a else sl_cells h s.
Proof.
  unfold sl_cells. case_decide as D; [by rewrite D, lookup_insert_eq|by rewrite lookup_insert_ne].
Qed.

(** An append that fits is in place. *)
Lemma sl_append_fits `{Growth} loc h s xs : sl_ok h s -> (sl_len s + length xs <= sl_cap h s)%nat ->
  let p := sl_append loc h s xs in
  sl_read p.2 p.1 = sl_read h s ++ xs /\ sl_ok p.2 p.1 /\ sl_arr p.1 = sl_arr s /\
  (forall l, l <> sl_arr s -> p.2 !! l = h !! l).
Proof.
  intros O C. unfold sl_append. destruct (decide (xs = [])) as [->|N]; [by rewrite app_nil_r|].
  rewrite decide_True by done. unfold sl_ok in *. cbn [fst snd sl_arr]. unfold sl_read at 1, sl_write.
  rewrite !sl_cells_insert. cbn [sl_arr sl_len]. rewrite !decide_True by done. cbn [cells].
  split; [|split; [rewrite !length_app, length_take, length_drop; lia|split; [done|]]].
  - rewrite app_assoc. rewrite take_app_le by (rewrite length_app, length_take; lia).
    by rewrite take_ge by (rewrite length_app, length_take; lia).
  - intros l Nl. by rewrite lookup_insert_ne.
Qed.

Lemma sl_append_read `{GrowthLaws} loc h s xs : sl_ok h s ->
  let p := sl_append loc h s xs in
  sl_read p.2 p.1 = sl_read h s ++ xs /\ sl_ok p.2 p.1.
Proof.
  intros O. destruct (decide (sl_len s + length xs <= sl_cap h s)%nat) as [C|C].
  { by destruct (sl_append_fits loc h s xs O C) as (? & ? & _). }
  unfold sl_append. destruct (decide (xs = [])) as [->|N]; [by rewrite app_nil_r|].
  rewrite decide_False by done. unfold sl_ok in *. cbn [fst snd]. unfold sl_read at 1.
  rewrite !sl_cells_insert. cbn [sl_arr sl_len]. rewrite !decide_True by done. cbn [cells].
  rewrite length_app, sl_read_length by done. split; [|lia].
  by rewrite take_ge by (rewrite length_app, sl_read_length by done; lia).
Qed.

(** An append changes the slice's own array or the new one. *)
Lemma sl_append_other `{Growth} loc h s xs l : l <> sl_arr s -> l <> loc -> (sl_append loc h s xs).2 !! l = h !! l.
Proof.
  intros N1 N2. unfold sl_append. repeat case_decide; [done| |]; cbn [snd]; unfold sl_write; by rewrite lookup_insert_ne.
Qed.

Lemma sl_append_arr `{Growth} loc h s xs : sl_arr (sl_append loc h s xs).1 = sl_arr s \/ sl_arr (sl_append loc h s xs).1 = loc.
Proof. unfold sl_append. repeat case_decide; cbn; auto. Qed.

Lemma sl_append_cap `{GrowthLaws} loc h s xs : (sl_len s <= sl_cap h s)%nat ->
  let p := sl_append loc h s xs in (sl_len p.1 <= sl_cap p.2 p.1)%nat.
Proof.
  intros C. unfold sl_append. repeat case_decide; cbn [fst snd]; [done| |].
  - unfold sl_write, sl_cap at 1. cbn [sl_arr sl_len]. by rewrite lookup_insert_eq.
  - unfold sl_cap at 1. cbn [sl_arr sl_len]. rewrite lookup_insert_eq. apply grow_enough.
Qed.

(** [append(s[0:i], s[i+1:]...)] takes an item out, in place. *)
Lemma sl_delete_read `{Growth} loc h s i : sl_ok h s -> (sl_len s <= sl_cap h s)%nat -> (i < sl_len s)%nat ->
  let p := sl_append loc h (sl_take i s) (drop (S i) (sl_read h s)) in
  sl_read p.2 p.1 = delete i (sl_read h s) /\ sl_ok p.2 p.1 /\ sl_arr p.1 = sl_arr s /\
  (forall l, l <> sl_arr s -> p.2 !! l = h !! l).
Proof.
  intros O C Li. pose proof (sl_read_length h s O) as Lr. unfold sl_ok in *. set (s' := sl_take i s).
  assert (Cc : sl_cells h s' = sl_cells h s) by done. assert (Cp : sl_cap h s' = sl_cap h s) by done.
  assert (Rd : sl_read h s' = take i (sl_read h s)).
  { unfold sl_read. rewrite Cc, take_take. cbn [s' sl_take sl_len]. by rewrite Nat.min_l by lia. }
  destruct (sl_append_fits loc h s' (drop (S i) (sl_read h s))) as (R & Ok & L & N).
  { unfold sl_ok. rewrite Cc. cbn. lia. }
  { rewrite Cp, length_drop, Lr. cbn. lia. }
  rewrite delete_take_drop, <- Rd. auto.
Qed.
End slices.

