(* ===== verification/Tracker.v ===== *)
(** * Memory trackers (spacetime/table/util/mem/tracker.go, mmap.go)

    A tracker counts the bytes that a part of the program holds; trackers form
    trees, and what a tracker counts is also counted by its ancestors.  A
    tracker with a limit has an action that runs when the limit is reached.

    Trackers and actions are objects that others point to: the model is a heap
    of each.  What the actions report is a log. *)

From stdpp Require Import base gmap list option strings.
From Stdlib Require Import ZArith Lia.
From S2P Require Import Prelude External GoMonad.

Local Open Scope Z_scope.

(** ** The state *)

Record Tracker : Type := MkTracker {
  t_label : string;
  bytesConsumed : Z;
  bytesLimit : Z;
  maxConsumed : Z;
  t_parent : option Z;
  isGlobal : bool;
  t_children : list Z;
  actionOnExceed : option Z;
}.

(** [LogOnExceed] and [PanicOnExceed], the implementations of
    [ActionOnExceed] in mmap.go.  A hook is known by a number. *)
Inductive actionKind : Type := LogOnExceed | PanicOnExceed.

Record ActionOnExceed : Type := MkAction {
  a_kind : actionKind;
  acted : bool;
  ConnID : Z;
  logHook : option Z;
}.

(** What an action does outside: a call of its hook, or a warning in the log
    of the server. *)
Inductive report : Type :=
| Hooked (hook conn : Z)
| Warned (t consumed limit : Z).

Record mem : Type := MkMem {
  m_next : Z;
  trackers : gmap Z Tracker;
  actions : gmap Z ActionOnExceed;
  reports : list report;
}.

Definition set_trackers (ts : gmap Z Tracker) (h : mem) : mem := MkMem (m_next h) ts (actions h) (reports h).
Definition set_actions (acts : gmap Z ActionOnExceed) (h : mem) : mem := MkMem (m_next h) (trackers h) acts (reports h).

(** A use of a nil pointer panics. *)
Definition load (t : Z) : M mem Tracker := h ← get; lift_opt (trackers h !! t).
Definition save (t : Z) (tr : Tracker) : M mem unit := modify (fun h => set_trackers (<[t := tr]> (trackers h)) h).
Definition load_action (a : Z) : M mem ActionOnExceed := h ← get; lift_opt (actions h !! a).
Definition save_action (a : Z) (ac : ActionOnExceed) : M mem unit :=
  modify (fun h => set_actions (<[a := ac]> (actions h)) h).
Definition tell (r : report) : M mem unit :=
  modify (fun h => MkMem (m_next h) (trackers h) (actions h) (reports h ++ [r])).
Definition alloc_addr : M mem Z := fun h => (Ret (m_next h), MkMem (m_next h + 1) (trackers h) (actions h) (reports h)).

Definition set_consumed (c m : Z) (tr : Tracker) : Tracker :=
  MkTracker (t_label tr) c (bytesLimit tr) m (t_parent tr) (isGlobal tr) (t_children tr) (actionOnExceed tr).
Definition set_limit (l : Z) (tr : Tracker) : Tracker :=
  MkTracker (t_label tr) (bytesConsumed tr) l (maxConsumed tr) (t_parent tr) (isGlobal tr) (t_children tr) (actionOnExceed tr).
Definition set_label (l : string) (tr : Tracker) : Tracker :=
  MkTracker l (bytesConsumed tr) (bytesLimit tr) (maxConsumed tr) (t_parent tr) (isGlobal tr) (t_children tr) (actionOnExceed tr).
Definition set_parent (p : option Z) (tr : Tracker) : Tracker :=
  MkTracker (t_label tr) (bytesConsumed tr) (bytesLimit tr) (maxConsumed tr) p (isGlobal tr) (t_children tr) (actionOnExceed tr).
Definition set_children (c : list Z) (tr : Tracker) : Tracker :=
  MkTracker (t_label tr) (bytesConsumed tr) (bytesLimit tr) (maxConsumed tr) (t_parent tr) (isGlobal tr) c (actionOnExceed tr).
Definition set_action (a : option Z) (tr : Tracker) : Tracker :=
  MkTracker (t_label tr) (bytesConsumed tr) (bytesLimit tr) (maxConsumed tr) (t_parent tr) (isGlobal tr) (t_children tr) a.

Definition change (t : Z) (f : Tracker -> Tracker) : M mem unit := tr ← load t; save t (f tr).

(** ** Constructors and fields *)

Definition new_tracker (global : bool) (label : string) (limit : Z) : M mem Z :=
  a ← alloc_addr;
  save_action a (MkAction LogOnExceed false 0 None);;
  t ← alloc_addr;
  save t (MkTracker label 0 limit 0 None global [] (Some a));;
  ret t.

Definition NewTracker : string -> Z -> M mem Z := new_tracker false.
Definition NewGlobalTracker : string -> Z -> M mem Z := new_tracker true.

Definition CheckBytesLimit (t val : Z) : M mem bool := tr ← load t; ret (bytesLimit tr =? val).
Definition SetBytesLimit (t limit : Z) : M mem unit := change t (set_limit limit).
Definition GetBytesLimit (t : Z) : M mem Z := tr ← load t; ret (bytesLimit tr).
Definition SetActionOnExceed (t : Z) (a : option Z) : M mem unit := change t (set_action a).
Definition SetLabel (t : Z) (label : string) : M mem unit := change t (set_label label).
Definition Label (t : Z) : M mem string := tr ← load t; ret (t_label tr).
Definition BytesConsumed (t : Z) : M mem Z := tr ← load t; ret (bytesConsumed tr).
Definition MaxConsumed (t : Z) : M mem Z := tr ← load t; ret (maxConsumed tr).

(** ** Actions *)

(** [SetFallback] of both actions does nothing. *)
Definition SetFallback (a : Z) (fallback : option Z) : M mem unit := load_action a;; ret tt.

Definition FallbackOldAndSetNewAction (t : Z) (a : Z) : M mem unit :=
  tr ← load t;
  SetFallback a (actionOnExceed tr);;
  change t (set_action (Some a)).

Definition SetLogHook (a : Z) (hook : option Z) : M mem unit :=
  ac ← load_action a; save_action a (MkAction (a_kind ac) (acted ac) (ConnID ac) hook).

Definition Action (a t : Z) : M mem unit :=
  ac ← load_action a;
  if acted ac then ret tt
  else
    save_action a (MkAction (a_kind ac) true (ConnID ac) (logHook ac));;
    match a_kind ac with
    | LogOnExceed =>
        match logHook ac with
        | None => tr ← load t; tell (Warned t (bytesConsumed tr) (bytesLimit tr))
        | Some hook => tell (Hooked hook (ConnID ac))
        end
    | PanicOnExceed =>
        match logHook ac with Some hook => tell (Hooked hook (ConnID ac)) | None => ret tt end;;
        panic
    end.

(** ** Consume *)

(** Up the ancestors; the last of those that exceed their limit. *)
Fixpoint consume_loop (fuel : nat) (tracker : option Z) (bytes : Z) (rootExceed : option Z) : M mem (option Z) :=
  match tracker with
  | None => ret rootExceed
  | Some t =>
      match fuel with
      | O => lift_out NoFuel
      | S fuel =>
          tr ← load t;
          let consumed := i64_wrap (bytesConsumed tr + bytes) in
          let rootExceed := if (bytesLimit tr <=? consumed) && (0 <? bytesLimit tr) then Some t else rootExceed in
          save t (set_consumed consumed (if maxConsumed tr <? consumed then consumed else maxConsumed tr) tr);;
          consume_loop fuel (t_parent tr) bytes rootExceed
      end
  end.

(** A chain of ancestors has at most as many trackers as there are. *)
Definition Consume (t bytes : Z) : M mem unit :=
  h ← get;
  rootExceed ← consume_loop (size (trackers h)) (Some t) bytes None;
  match rootExceed with
  | None => ret tt
  | Some r =>
      tr ← load r;
      match actionOnExceed tr with
      | None => ret tt
      | Some a => Action a r
      end
  end.

(** ** The tree *)

(** The first position of a child. *)
Fixpoint child_index (l : list Z) (c : Z) : option nat :=
  match l with
  | [] => None
  | x :: l => if x =? c then Some 0%nat else S <$> child_index l c
  end.

Definition remove (t oldChild : Z) : M mem unit :=
  tr ← load t;
  match child_index (t_children tr) oldChild with
  | None => ret tt
  | Some i =>
      c ← BytesConsumed oldChild;
      Consume t (i64_wrap (- c));;
      change oldChild (set_parent None);;
      change t (fun tr => set_children (delete i (t_children tr)) tr)
  end.

Definition AttachTo (t parent : Z) : M mem unit :=
  tr ← load t;
  match t_parent tr with Some q => remove q t | None => ret tt end;;
  change parent (fun p => set_children (t_children p ++ [t]) p);;
  change t (set_parent (Some parent));;
  c ← BytesConsumed t;
  Consume parent c.

Definition Detach (t : Z) : M mem unit :=
  tr ← load t;
  match t_parent tr with
  | None => ret tt
  | Some q => remove q t;; change t (set_parent None)
  end.

Definition ReplaceChild (t oldChild : Z) (newChild : option Z) : M mem unit :=
  match newChild with
  | None => remove t oldChild
  | Some newChild =>
      newConsumed ← BytesConsumed newChild;
      change newChild (set_parent (Some t));;
      tr ← load t;
      newConsumed ←
        match child_index (t_children tr) oldChild with
        | None => ret newConsumed
        | Some i =>
            c ← BytesConsumed oldChild;
            change oldChild (set_parent None);;
            change t (fun tr => set_children (<[i := newChild]> (t_children tr)) tr);;
            ret (i64_wrap (newConsumed - c))
        end;
      Consume t newConsumed
  end.

(** [first] of the results of the children, each asked in turn. *)
Fixpoint search_children (search : Z -> M mem (option Z)) (l : list Z) : M mem (option Z) :=
  match l with
  | [] => ret None
  | c :: l =>
      r ← search c;
      match r with Some t => ret (Some t) | None => search_children search l end
  end.

Fixpoint search_tracker (fuel : nat) (label : string) (t : Z) : M mem (option Z) :=
  match fuel with
  | O => lift_out NoFuel
  | S fuel =>
      tr ← load t;
      if decide (t_label tr = label) then ret (Some t)
      else search_children (search_tracker fuel label) (t_children tr)
  end.

(** A path down has at most as many trackers as there are. *)
Definition SearchTracker (t : Z) (label : string) : M mem (option Z) :=
  h ← get; search_tracker (size (trackers h)) label t.

(** ** Global trackers *)

Definition AttachToGlobalTracker (t : Z) (globalTracker : option Z) : M mem unit :=
  match globalTracker with
  | None => ret tt
  | Some g =>
      gt ← load g;
      if negb (isGlobal gt) then panic
      else
        tr ← load t;
        match t_parent tr with
        | None => ret tt
        | Some q =>
            qt ← load q;
            if isGlobal qt then c ← BytesConsumed t; Consume q (i64_wrap (- c)) else remove q t
        end;;
        change t (set_parent (Some g));;
        c ← BytesConsumed t;
        Consume g c
  end.

Definition DetachFromGlobalTracker (t : Z) : M mem unit :=
  tr ← load t;
  match t_parent tr with
  | None => ret tt
  | Some q =>
      qt ← load q;
      if negb (isGlobal qt) then panic
      else
        c ← BytesConsumed t;
        Consume q (i64_wrap (- c));;
        change t (set_parent None)
  end.
