(* ===== verification/TrackerTree.v ===== *)
(** * Trackers add up

    What a tracker has consumed is what was consumed through it and what its
    children have, in 64 bits, in every state that the operations reach. *)

From stdpp Require Import base gmap list option strings.
From Stdlib Require Import ZArith Lia.
From S2P Require Import Prelude External GoMonad Tracker.

Local Open Scope Z_scope.

(** Equal integers are equal in 64 bits. *)
Ltac eq64_lia := unfold eq64; f_equal; lia.

Lemma alter_insert (f : Tracker -> Tracker) (ts : gmap Z Tracker) c :
  alter f c ts = match ts !! c with Some tr => <[c := f tr]> ts | None => ts end.
Proof.
  apply map_eq. intros v. destruct (decide (v = c)) as [->|Ne].
  - rewrite lookup_alter_eq. destruct (ts !! c) as [tr|] eqn:E; [by rewrite lookup_insert_eq|done].
  - rewrite lookup_alter_ne by done. destruct (ts !! c); [by rewrite lookup_insert_ne|done].
Qed.

(** ** The sum of the children *)

Definition contrib (t : Z) (tr : Tracker) : Z := if decide (t_parent tr = Some t) then bytesConsumed tr else 0.

(** What the trackers whose parent is [t] have consumed. *)
Definition kids (ts : gmap Z Tracker) (t : Z) : Z := map_fold (fun _ tr acc => contrib t tr + acc) 0 ts.

Lemma kids_new ts t c tr : ts !! c = None -> kids (<[c := tr]> ts) t = contrib t tr + kids ts t.
Proof. intros N. unfold kids. rewrite map_fold_insert_L; [done| |done]. intros. lia. Qed.

Lemma kids_update ts t c tr tr' : ts !! c = Some tr ->
  kids (<[c := tr']> ts) t = kids ts t - contrib t tr + contrib t tr'.
Proof.
  intros L. rewrite <- (insert_id ts c tr) at 2 by done. rewrite <- !(insert_delete_eq ts c).
  rewrite !kids_new by apply lookup_delete_eq. lia.
Qed.

(** ** The ancestors *)

Inductive chain (ts : gmap Z Tracker) : option Z -> list Z -> Prop :=
| ch_nil : chain ts None []
| ch_cons t tr l : ts !! t = Some tr -> chain ts (t_parent tr) l -> chain ts (Some t) (t :: l).

Lemma chain_unique ts o l l' : chain ts o l -> chain ts o l' -> l = l'.
Proof.
  intros C. revert l'. induction C as [|t tr l E C IH]; intros l' C'; inversion C' as [|? ? ? E' C2]; subst; [done|].
  rewrite E in E'. injection E' as <-. f_equal. by apply IH.
Qed.

Lemma chain_suffix ts o l t : chain ts o l -> t ∈ l -> exists l1 l2, l = l1 ++ t :: l2 /\ chain ts (Some t) (t :: l2).
Proof.
  intros C. induction C as [|u tr l E C IH]; intros Ht; [by apply elem_of_nil in Ht|].
  apply elem_of_cons in Ht as [->|Ht]; [exists [], l; split; [done|by econstructor]|].
  destruct (IH Ht) as (l1 & l2 & -> & C2). by exists (u :: l1), l2.
Qed.

Lemma chain_NoDup ts o l : chain ts o l -> NoDup l.
Proof.
  intros C. induction C as [|t tr l E C IH]; constructor; [|done]. intros Ht.
  destruct (chain_suffix _ _ _ _ C Ht) as (l1 & l2 & El & C2).
  assert (t :: l = t :: l2) as X by (eapply chain_unique; [by econstructor|done]). injection X as X.
  rewrite X in El. apply (f_equal length) in El. rewrite length_app in El. cbn in El. lia.
Qed.

Lemma chain_known ts o l t : chain ts o l -> t ∈ l -> is_Some (ts !! t).
Proof.
  intros C Ht. destruct (chain_suffix _ _ _ _ C Ht) as (l1 & l2 & _ & C2). inversion C2; subst. eauto.
Qed.

Lemma chain_size ts o l : chain ts o l -> (length l <= size ts)%nat.
Proof.
  intros C. rewrite <- (size_dom (D := gset Z)). rewrite <- (size_list_to_set (C := gset Z) l) by by eapply chain_NoDup.
  apply subseteq_size. intros t Ht. apply elem_of_list_to_set in Ht. apply elem_of_dom. by eapply chain_known.
Qed.

(** Only the parents matter. *)
Lemma chain_ext ts ts' o l : (forall t, t ∈ l -> t_parent <$> ts' !! t = t_parent <$> ts !! t) ->
  chain ts o l -> chain ts' o l.
Proof.
  intros F C. induction C as [|t tr l E C IH]; [constructor|].
  pose proof (F t ltac:(left)) as Ft. rewrite E in Ft. cbn in Ft. apply fmap_Some in Ft as (tr' & E' & P).
  apply (ch_cons _ _ tr'); [done|]. rewrite <- P. apply IH. intros u Hu. apply F. by right.
Qed.

(** ** What [Consume] does to the trackers *)

Definition consumed_by (n : Z) (tr : Tracker) : Tracker :=
  let c := i64_wrap (bytesConsumed tr + n) in set_consumed c (if maxConsumed tr <? c then c else maxConsumed tr) tr.

Fixpoint bump (n : Z) (l : list Z) (ts : gmap Z Tracker) : gmap Z Tracker :=
  match l with [] => ts | t :: l => bump n l (alter (consumed_by n) t ts) end.

Definition exceeds (n : Z) (tr : Tracker) : bool :=
  let c := i64_wrap (bytesConsumed tr + n) in (bytesLimit tr <=? c) && (0 <? bytesLimit tr).

(** The last of the trackers [l] that exceed their limit. *)
Fixpoint root_exceed (n : Z) (ts : gmap Z Tracker) (l : list Z) (r : option Z) : option Z :=
  match l with
  | [] => r
  | t :: l => root_exceed n ts l (match ts !! t with Some tr => if exceeds n tr then Some t else r | None => r end)
  end.

Lemma bump_lookup n l ts t : NoDup l -> bump n l ts !! t = if decide (t ∈ l) then consumed_by n <$> ts !! t else ts !! t.
Proof.
  revert ts. induction l as [|u l IH]; intros ts Nd; cbn [bump]; [by rewrite decide_False by apply not_elem_of_nil|].
  apply NoDup_cons in Nd as [Nu Nd]. rewrite IH by done. destruct (decide (t = u)) as [->|Ne].
  - rewrite (decide_False (P := u ∈ l)) by done. rewrite (decide_True (P := u ∈ u :: l)) by left. by rewrite lookup_alter_eq.
  - rewrite lookup_alter_ne by done. destruct (decide (t ∈ l)) as [H|H].
    + by rewrite decide_True by by right.
    + by rewrite decide_False by by rewrite not_elem_of_cons.
Qed.

Lemma root_exceed_ext n ts ts' l r : (forall t, t ∈ l -> ts' !! t = ts !! t) -> root_exceed n ts' l r = root_exceed n ts l r.
Proof.
  revert r. induction l as [|t l IH]; intros r F; [done|]. cbn [root_exceed]. rewrite F by left. apply IH. intros u Hu. apply F. by right.
Qed.

Lemma set_trackers_twice a b h : set_trackers a (set_trackers b h) = set_trackers a h.
Proof. done. Qed.

Lemma consume_loop_run n l : forall fuel o r h, chain (trackers h) o l -> (length l <= fuel)%nat ->
  consume_loop fuel o n r h = (Ret (root_exceed n (trackers h) l r), set_trackers (bump n l (trackers h)) h).
Proof.
  induction l as [|t l IH]; intros fuel o r h C Lf.
  - inversion C; subst. by destruct fuel, h.
  - pose proof (chain_NoDup _ _ _ C) as Nd. apply NoDup_cons in Nd as [Nt _]. inversion C as [|? tr ? E C']; subst.
    destruct fuel as [|fuel]; cbn [length] in Lf; [lia|]. cbn [consume_loop].
    erewrite bind_Ret by (unfold load; erewrite bind_Ret by reflexivity; by rewrite E). cbv zeta.
    erewrite bind_Ret by reflexivity. cbv beta.
    assert (B : <[t := consumed_by n tr]> (trackers h) = alter (consumed_by n) t (trackers h)) by by rewrite alter_insert, E.
    unfold consumed_by in B at 1. cbv zeta in B. rewrite B. rewrite IH; [|cbn [trackers set_trackers]|lia].
    + cbn [trackers set_trackers root_exceed bump]. rewrite E. f_equal. f_equal. apply root_exceed_ext.
      intros u Hu. apply lookup_alter_ne. by intros ->.
    + eapply chain_ext; [|exact C']. intros u Hu. rewrite lookup_alter_ne by by intros ->. done.
Qed.

(** ** The invariant *)

(** What a tracker has consumed is what was consumed through it, [own], and what
    its children have; short of [n] for the tracker [o]. *)
Definition sums_off (ts : gmap Z Tracker) (own : Z -> Z) (o : option Z) (n : Z) : Prop :=
  forall t tr, ts !! t = Some tr ->
    bytesConsumed tr + (if decide (o = Some t) then n else 0) ≡64 own t + kids ts t.

Definition sums (ts : gmap Z Tracker) (own : Z -> Z) : Prop :=
  forall t tr, ts !! t = Some tr -> bytesConsumed tr ≡64 own t + kids ts t.

Definition own_add (t n : Z) (own : Z -> Z) : Z -> Z := fun u => if decide (u = t) then own u + n else own u.

Lemma sums_off_none ts own n : sums_off ts own None n <-> sums ts own.
Proof. unfold sums_off, sums. split; intros S t tr E; specialize (S t tr E); rewrite decide_False, Z.add_0_r in * by done; done. Qed.

Lemma sums_own ts own t n : sums ts own -> sums_off ts (own_add t n own) (Some t) n.
Proof.
  intros S u tr E. specialize (S u tr E). unfold own_add. destruct (decide (u = t)) as [->|Ne].
  - rewrite decide_True by done. rewrite S. eq64_lia.
  - rewrite decide_False by congruence. by rewrite Z.add_0_r.
Qed.

Lemma contrib_consumed n p tr : contrib p (consumed_by n tr) ≡64 contrib p tr + (if decide (t_parent tr = Some p) then n else 0).
Proof. unfold contrib, consumed_by. cbn. destruct (decide _); [apply i64_wrap_eq64|done]. Qed.

Lemma bump_step ts own t tr n : ts !! t = Some tr -> t_parent tr <> Some t -> sums_off ts own (Some t) n ->
  sums_off (alter (consumed_by n) t ts) own (t_parent tr) n.
Proof.
  intros E Ne S u tr' E'.
  assert (K : kids (alter (consumed_by n) t ts) u = kids ts u - contrib u tr + contrib u (consumed_by n tr)).
  { by rewrite alter_insert, E, (kids_update ts u t tr). }
  rewrite K, contrib_consumed. destruct (decide (u = t)) as [->|Nu].
  - rewrite lookup_alter_eq, E in E'. injection E' as <-. specialize (S t tr E). rewrite decide_True in S by done.
    rewrite !decide_False by done. unfold consumed_by. cbn [bytesConsumed set_consumed]. rewrite i64_wrap_eq64.
    rewrite Z.add_0_r, S. eq64_lia.
  - rewrite lookup_alter_ne in E' by done. specialize (S u tr' E'). rewrite decide_False in S by congruence.
    rewrite Z.add_0_r in S. rewrite S. destruct (decide (t_parent tr = Some u)); eq64_lia.
Qed.

Lemma bump_sums n own l : forall o ts, chain ts o l -> sums_off ts own o n -> sums (bump n l ts) own.
Proof.
  induction l as [|t l IH]; intros o ts C S.
  - inversion C; subst. by apply sums_off_none in S.
  - pose proof (chain_NoDup _ _ _ C) as Nd. apply NoDup_cons in Nd as [Nt _]. inversion C as [|? tr ? E C']; subst.
    cbn [bump]. apply (IH (t_parent tr)).
    + eapply chain_ext; [|exact C']. intros u Hu. by rewrite lookup_alter_ne by by intros ->.
    + apply bump_step; [done| |done]. intros P. rewrite P in C'. inversion C'; subst. apply Nt. left.
Qed.

(** The shape of the trees: a tracker that is not global lists its children. *)
Record shape (ts : gmap Z Tracker) : Prop := {
  sh_chain t : is_Some (ts !! t) -> exists l, chain ts (Some t) l;
  sh_children t tr : ts !! t = Some tr -> isGlobal tr = false ->
    NoDup (t_children tr) /\ forall c, c ∈ t_children tr <-> exists cr, ts !! c = Some cr /\ t_parent cr = Some t;
  sh_global t tr : ts !! t = Some tr -> isGlobal tr = true -> t_children tr = [];
}.

Definition ranges (ts : gmap Z Tracker) : Prop :=
  map_Forall (fun _ tr => i64 (bytesConsumed tr) /\ i64 (maxConsumed tr) /\ bytesConsumed tr <= maxConsumed tr) ts.

Record wf (h : mem) : Prop := {
  wf_shape : shape (trackers h);
  wf_ranges : ranges (trackers h);
  wf_fresh t : m_next h <= t -> trackers h !! t = None /\ actions h !! t = None;
  wf_action t tr a : trackers h !! t = Some tr -> actionOnExceed tr = Some a -> is_Some (actions h !! a);
}.

(** Changes of other fields. *)
Definition links (tr : Tracker) : option Z * bool * list Z := (t_parent tr, isGlobal tr, t_children tr).

Lemma chain_links ts ts' o l : (forall t, links <$> ts' !! t = links <$> ts !! t) -> chain ts o l -> chain ts' o l.
Proof.
  intros L. apply chain_ext. intros t _. specialize (L t). destruct (ts' !! t), (ts !! t); try done. cbn. injection L. congruence.
Qed.

Lemma shape_ext ts ts' : (forall t, links <$> ts' !! t = links <$> ts !! t) -> shape ts -> shape ts'.
Proof.
  intros L [A B C].
  assert (F : forall t tr', ts' !! t = Some tr' -> exists tr, ts !! t = Some tr /\ links tr' = links tr).
  { intros t tr' Et. specialize (L t). rewrite Et in L. symmetry in L. apply fmap_Some in L as (tr & Er & El). by exists tr. }
  assert (F' : forall t tr, ts !! t = Some tr -> exists tr', ts' !! t = Some tr' /\ links tr' = links tr).
  { intros t tr Et. specialize (L t). rewrite Et in L. apply fmap_Some in L as (tr' & Er & El). by exists tr'. }
  split.
  - intros t [tr' Et]. destruct (F _ _ Et) as (tr & Er & _). destruct (A t) as [k Hk]; [by eexists|]. exists k. by eapply chain_links.
  - intros t tr' Et Gl. destruct (F _ _ Et) as (tr & Er & [= _ G Ch]). destruct (B t tr Er ltac:(congruence)) as [Nd M].
    rewrite Ch. split; [done|]. intros c. rewrite M. split; intros (cr & Ec & Ep).
    + destruct (F' _ _ Ec) as (cr' & Ec' & [= P _ _]). exists cr'. split; [done|congruence].
    + destruct (F _ _ Ec) as (cr' & Ec' & [= P _ _]). exists cr'. split; [done|congruence].
  - intros t tr' Et Gl. destruct (F _ _ Et) as (tr & Er & [= _ G Ch]). rewrite Ch. eapply C; [exact Er|congruence].
Qed.

Lemma links_bump n l ts t : NoDup l -> links <$> bump n l ts !! t = links <$> ts !! t.
Proof. intros Nd. rewrite bump_lookup by done. destruct (decide _), (ts !! t); done. Qed.

Lemma ranges_bump n l ts : NoDup l -> ranges ts -> ranges (bump n l ts).
Proof.
  intros Nd R t tr' Et. rewrite bump_lookup in Et by done. destruct (decide _); [|by apply (R t)].
  apply fmap_Some in Et as (tr & Er & ->). destruct (R _ _ Er) as (F1 & F2 & F3). unfold consumed_by. cbn.
  pose proof (i64_wrap_i64 (bytesConsumed tr + n)) as W.
  destruct (Z.ltb_spec (maxConsumed tr) (i64_wrap (bytesConsumed tr + n))); (split; [done|split; [done|lia]]).
Qed.

(** ** [Consume] *)

Lemma load_run t tr h : trackers h !! t = Some tr -> load t h = (Ret tr, h).
Proof. intros E. unfold load. erewrite bind_Ret by reflexivity. by rewrite E. Qed.

Lemma load_action_run a ac h : actions h !! a = Some ac -> load_action a h = (Ret ac, h).
Proof. intros E. unfold load_action. erewrite bind_Ret by reflexivity. by rewrite E. Qed.

(** An action that has acted does nothing; the first time, a log action reports
    and a panic action panics. *)
Lemma Action_run a t ac tr h : actions h !! a = Some ac -> trackers h !! t = Some tr ->
  exists h', Action a t h = (if acted ac then Ret tt else match a_kind ac with LogOnExceed => Ret tt | PanicOnExceed => Panic end, h') /\
    trackers h' = trackers h /\ m_next h' = m_next h /\
    actions h' = <[a := MkAction (a_kind ac) true (ConnID ac) (logHook ac)]> (actions h).
Proof.
  intros Ea Et. unfold Action. erewrite bind_Ret by by apply load_action_run. destruct (acted ac) eqn:Ac.
  - exists h. split; [done|]. split; [done|]. split; [done|]. rewrite insert_id; [done|]. rewrite Ea. f_equal. destruct ac; cbn in *. by subst.
  - erewrite bind_Ret by reflexivity. cbv beta. destruct (a_kind ac), (logHook ac) as [hook|].
    + eexists. split; [reflexivity|done].
    + erewrite bind_Ret by by apply load_run. eexists. split; [reflexivity|done].
    + erewrite bind_Ret by reflexivity. eexists. split; [reflexivity|done].
    + erewrite bind_Ret by reflexivity. eexists. split; [reflexivity|done].
Qed.

(** The action that a tracker calls, if any. *)
Definition run_action (r : option Z) : M mem unit :=
  match r with
  | None => ret tt
  | Some r => tr ← load r; match actionOnExceed tr with None => ret tt | Some a => Action a r end
  end.

Lemma root_exceed_elem n ts l r t : root_exceed n ts l r = Some t -> r = Some t \/ t ∈ l.
Proof.
  revert r. induction l as [|u l IH]; intros r E; [by left|]. cbn [root_exceed] in E. destruct (IH _ E) as [Er|Ht]; [|right; by right].
  destruct (ts !! u); [|by left]. destruct (exceeds _ _); [|by left]. injection Er as ->. right. left.
Qed.

(** The panic of an action that had not acted. *)
Definition panicked (h h' : mem) : Prop :=
  exists a ac, actions h !! a = Some ac /\ a_kind ac = PanicOnExceed /\ acted ac = false /\
    actions h' !! a = Some (MkAction PanicOnExceed true (ConnID ac) (logHook ac)).

(** No panic action changed. *)
Definition calm (h h' : mem) : Prop :=
  forall a ac, actions h' !! a = Some ac -> a_kind ac = PanicOnExceed -> actions h !! a = Some ac.

Lemma calm_trans h1 h2 h3 : calm h1 h2 -> calm h2 h3 -> calm h1 h3.
Proof. intros A B a ac Ea Ek. apply A; [|done]. by apply B. Qed.

Lemma panicked_calm h1 h2 h3 : calm h1 h2 -> panicked h2 h3 -> panicked h1 h3.
Proof. intros C (a & ac & E1 & E2 & E3 & E4). exists a, ac. split; [by apply C|done]. Qed.

(** One action at most is called: the one of the last ancestor that exceeds its
    limit. *)
Lemma Consume_is t n h l : chain (trackers h) (Some t) l ->
  Consume t n h = run_action (root_exceed n (trackers h) l None) (set_trackers (bump n l (trackers h)) h).
Proof.
  intros C. unfold Consume. erewrite bind_Ret by reflexivity. cbv beta.
  erewrite bind_Ret by (apply consume_loop_run; [done|by eapply chain_size]). reflexivity.
Qed.

Lemma Consume_run t n h : wf h -> is_Some (trackers h !! t) ->
  exists l h', chain (trackers h) (Some t) l /\ trackers h' = bump n l (trackers h) /\ m_next h' = m_next h /\ wf h' /\
    (Consume t n h = (Ret tt, h') /\ calm h h' \/ Consume t n h = (Panic, h') /\ panicked h h').
Proof.
  intros [Sh Ra Fr Ac] Ht. destruct (sh_chain _ Sh t Ht) as [l C]. pose proof (chain_NoDup _ _ _ C) as Nd. exists l.
  set (h1 := set_trackers (bump n l (trackers h)) h).
  assert (W1 : wf h1).
  { split; cbn.
    - eapply shape_ext; [|exact Sh]. intros u. by apply links_bump.
    - by apply ranges_bump.
    - intros u Hu. split; [|by apply Fr]. rewrite bump_lookup by done. destruct (Fr u Hu) as [-> _]. by destruct (decide _).
    - intros u tr a Eu Ea. rewrite bump_lookup in Eu by done. destruct (decide _); [|by eapply Ac].
      apply fmap_Some in Eu as (tr0 & E0 & ->). by eapply Ac. }
  pose proof (Consume_is t n h l C) as R. fold h1 in R.
  destruct (root_exceed n (trackers h) l None) as [r|] eqn:Er; [|exists h1; do 4 (split; [done|]); left; split; [done|by intros ? ?]].
  destruct (root_exceed_elem _ _ _ _ _ Er) as [|Hr]; [done|].
  assert (is_Some (trackers h1 !! r)) as [tr Etr].
  { cbn. rewrite bump_lookup, decide_True by done. apply fmap_is_Some. by eapply chain_known. }
  cbn [run_action] in R. erewrite bind_Ret in R by by apply load_run.
  destruct (actionOnExceed tr) as [a|] eqn:Ea; [|exists h1; do 4 (split; [done|]); left; split; [done|by intros ? ?]].
  destruct (wf_action _ W1 _ _ _ Etr Ea) as [ac Eac]. destruct (Action_run a r ac tr h1 Eac Etr) as (h2 & E2 & T2 & N2 & A2).
  exists h2. split; [done|]. split; [by rewrite T2|]. split; [by rewrite N2|]. split.
  - destruct W1 as [V1 V2 V3 V4]. split; rewrite ?T2, ?N2; try done.
    + intros u Hu. destruct (V3 u Hu) as [V31 V32]. split; [done|]. rewrite A2, lookup_insert_ne; [done|]. intros <-. congruence.
    + intros u ur b Eu Eb. rewrite A2. destruct (decide (b = a)) as [->|]; [rewrite lookup_insert_eq; by eexists|].
      rewrite lookup_insert_ne by done. by eapply V4.
  - rewrite R, E2. assert (Cm : acted ac = true \/ a_kind ac = LogOnExceed -> calm h h2).
    { intros Or b bc Eb Ek. rewrite A2 in Eb. destruct (decide (b = a)) as [->|]; [|by rewrite lookup_insert_ne in Eb].
      rewrite lookup_insert_eq in Eb. injection Eb as <-. cbn in Ek. destruct Or as [Or|]; [|congruence].
      change (actions h !! a = Some ac) in Eac. rewrite Eac. f_equal. destruct ac. cbn in *. by subst. }
    destruct (acted ac) eqn:Eacted; [left; split; [done|by apply Cm; left]|].
    destruct (a_kind ac) eqn:Ek; [left; split; [done|by apply Cm; right]|]. right. split; [done|].
    exists a, ac. split; [done|]. split; [done|]. split; [done|]. rewrite A2, lookup_insert_eq. congruence.
Qed.

(** ** Moves *)

(** A tracker gets another parent. *)
Definition moved (ts ts' : gmap Z Tracker) (c : Z) (p' : option Z) : Prop :=
  forall u, (fun tr => (t_parent tr, isGlobal tr)) <$> ts' !! u =
    (fun tr => (if decide (u = c) then p' else t_parent tr, isGlobal tr)) <$> ts !! u.

Lemma moved_back ts ts' c p' u ur' : moved ts ts' c p' -> ts' !! u = Some ur' ->
  exists ur, ts !! u = Some ur /\ t_parent ur' = (if decide (u = c) then p' else t_parent ur) /\ isGlobal ur' = isGlobal ur.
Proof.
  intros Mv E. specialize (Mv u). rewrite E in Mv. symmetry in Mv. apply fmap_Some in Mv as (ur & Eu & [= P G]). by exists ur.
Qed.

Lemma moved_forth ts ts' c p' u ur : moved ts ts' c p' -> ts !! u = Some ur ->
  exists ur', ts' !! u = Some ur' /\ t_parent ur' = (if decide (u = c) then p' else t_parent ur) /\ isGlobal ur' = isGlobal ur.
Proof.
  intros Mv E. specialize (Mv u). rewrite E in Mv. apply fmap_Some in Mv as (ur' & Eu & [= P G]). by exists ur'.
Qed.

Lemma chain_moved_off ts ts' c p' o l : moved ts ts' c p' -> chain ts o l -> c ∉ l -> chain ts' o l.
Proof.
  intros Mv Ch Nc. eapply chain_ext; [|exact Ch]. intros t Ht. specialize (Mv t).
  destruct (ts' !! t), (ts !! t); try done. cbn in Mv |- *. rewrite decide_False in Mv by by intros ->. congruence.
Qed.

Lemma chain_moved ts ts' c p' o l : moved ts ts' c p' ->
  (forall p, p' = Some p -> exists lp, chain ts (Some p) lp /\ c ∉ lp) -> chain ts o l -> exists l', chain ts' o l'.
Proof.
  intros Mv Cp Ch. induction Ch as [|t tr l E Ch (l' & IH)]; [exists []; constructor|].
  destruct (moved_forth _ _ _ _ _ _ Mv E) as (tr' & E' & P & _). destruct (decide (t = c)) as [->|Ne].
  - destruct p' as [p|]; [|exists [c]; econstructor; [exact E'|rewrite P; constructor]].
    destruct (Cp p eq_refl) as (lp & Hp & Nc). exists (c :: lp). econstructor; [exact E'|]. rewrite P. by eapply chain_moved_off.
  - exists (t :: l'). econstructor; [exact E'|]. by rewrite P.
Qed.

Lemma shape_moved ts ts' c p' : shape ts -> moved ts ts' c p' ->
  (forall p, p' = Some p -> exists lp, chain ts (Some p) lp /\ c ∉ lp) -> is_Some (ts !! c) ->
  (forall u ur ur', ts !! u = Some ur -> ts' !! u = Some ur' ->
    if isGlobal ur then t_children ur' = [] else NoDup (t_children ur') /\
      forall x, x ∈ t_children ur' <-> if decide (x = c) then p' = Some u else x ∈ t_children ur) -> shape ts'.
Proof.
  intros [A B C] Mv Cp [cr Ec] Mem. split.
  - intros t [tr' Et]. destruct (moved_back _ _ _ _ _ _ Mv Et) as (tr & Er & _). destruct (A t) as [l Hl]; [by eexists|].
    by eapply chain_moved.
  - intros t tr' Et Gl. destruct (moved_back _ _ _ _ _ _ Mv Et) as (tr & Er & _ & G). specialize (Mem _ _ _ Er Et).
    rewrite Gl in G. rewrite <- G in Mem. destruct Mem as [Nd Mem]. split; [done|]. intros x. rewrite Mem.
    destruct (B _ _ Er (eq_sym G)) as [_ M]. destruct (decide (x = c)) as [->|Ne].
    + destruct (moved_forth _ _ _ _ _ _ Mv Ec) as (cr' & Ec' & P & _). rewrite decide_True in P by done.
      split; [intros ->; by exists cr'|]. intros (? & E2 & P2). congruence.
    + rewrite M. split; intros (xr & Ex & P).
      * destruct (moved_forth _ _ _ _ _ _ Mv Ex) as (xr' & Ex' & P' & _). rewrite decide_False in P' by done. exists xr'. split; [done|congruence].
      * destruct (moved_back _ _ _ _ _ _ Mv Ex) as (xr' & Ex' & P' & _). rewrite decide_False in P' by done. exists xr'. split; [done|congruence].
  - intros t tr' Et Gl. destruct (moved_back _ _ _ _ _ _ Mv Et) as (tr & Er & _ & G). specialize (Mem _ _ _ Er Et).
    rewrite Gl in G. by rewrite <- G in Mem.
Qed.

Definition own_opt (o : option Z) (n : Z) (own : Z -> Z) : Z -> Z :=
  match o with Some t => own_add t n own | None => own end.

Lemma own_opt_at o n own u : own_opt o n own u = own u + (if decide (o = Some u) then n else 0).
Proof.
  destruct o as [t|]; cbn; [|rewrite decide_False by done; lia]. unfold own_add. destruct (decide (u = t)) as [->|Ne].
  - by rewrite decide_True.
  - rewrite decide_False by congruence. lia.
Qed.

Lemma sums_ext ts own own' : (forall u, own u ≡64 own' u) -> sums ts own -> sums ts own'.
Proof. intros E S t tr Et. by rewrite (S t tr Et), (E t). Qed.

(** Another parent: what the tracker consumed is no more among the children of
    the old one. *)
Lemma sums_parent ts own c cr p' : ts !! c = Some cr -> t_parent cr <> Some c -> p' <> Some c -> sums ts own ->
  sums (alter (set_parent p') c ts) (own_opt p' (- bytesConsumed cr) (own_opt (t_parent cr) (bytesConsumed cr) own)).
Proof.
  intros E N1 N2 S u ur Eu. assert (I : alter (set_parent p') c ts = <[c := set_parent p' cr]> ts) by by rewrite alter_insert, E.
  rewrite I in Eu |- *. rewrite (kids_update ts u c cr) by done. rewrite !own_opt_at. unfold contrib. cbn [t_parent set_parent bytesConsumed].
  assert (exists ur0, ts !! u = Some ur0 /\ bytesConsumed ur = bytesConsumed ur0) as (ur0 & E0 & ->).
  { destruct (decide (u = c)) as [->|Ne]; [rewrite lookup_insert_eq in Eu; injection Eu as <-; by exists cr|].
    rewrite lookup_insert_ne in Eu by done. by exists ur. }
  rewrite (S u ur0 E0). destruct (decide (p' = Some u)), (decide (t_parent cr = Some u)); eq64_lia.
Qed.

(** Changes of the other fields. *)
Lemma sums_alter ts own f c : (forall tr, t_parent (f tr) = t_parent tr /\ bytesConsumed (f tr) = bytesConsumed tr) ->
  sums ts own -> sums (alter f c ts) own.
Proof.
  intros F S u ur Eu. assert (K : kids (alter f c ts) u = kids ts u).
  { rewrite alter_insert. destruct (ts !! c) as [cr|] eqn:Ec; [|done]. rewrite (kids_update _ _ _ cr) by done.
    unfold contrib. destruct (F cr) as [-> ->]. lia. }
  rewrite K. destruct (decide (u = c)) as [->|Ne].
  - rewrite lookup_alter_eq in Eu. apply fmap_Some in Eu as (ur0 & E0 & ->). destruct (F ur0) as [_ ->]. by apply S.
  - rewrite lookup_alter_ne in Eu by done. by apply S.
Qed.

(** ** Operations that end well, or with the panic of an action *)

Definition tracked (h : mem) (own : Z -> Z) : Prop := wf h /\ sums (trackers h) own.

Definition ends (m : M mem unit) (h : mem) (Q : mem -> Prop) : Prop :=
  exists h', (m h = (Ret tt, h') /\ calm h h' /\ Q h') \/ (m h = (Panic, h') /\ panicked h h').

Lemma ends_bind m (k : unit -> M mem unit) h Q R : ends m h Q -> (forall h', Q h' -> ends (k tt) h' R) -> ends (m ≫= k) h R.
Proof.
  intros (h1 & [(E & C & HQ)|(E & P)]) K; [|exists h1; right; split; [by apply bind_Panic|done]].
  destruct (K h1 HQ) as (h2 & [(E2 & C2 & HR)|(E2 & P2)]); exists h2.
  - left. erewrite bind_Ret by exact E. split; [done|]. split; [by eapply calm_trans|done].
  - right. erewrite bind_Ret by exact E. split; [done|by eapply panicked_calm].
Qed.

Lemma ends_ret m h h' (Q : mem -> Prop) : m h = (Ret tt, h') -> actions h' = actions h -> Q h' -> ends m h Q.
Proof. intros E A HQ. exists h'. left. split; [done|]. split; [|done]. intros a ac Ea _. by rewrite <- A. Qed.

Lemma ends_weaken m h (Q R : mem -> Prop) : ends m h Q -> (forall h', Q h' -> R h') -> ends m h R.
Proof. intros (h' & [(E & C & HQ)|P]) F; exists h'; [left|by right]. auto. Qed.

Lemma ends_load {A} (m : M mem A) (k : A -> M mem unit) a h R : m h = (Ret a, h) -> ends (k a) h R -> ends (m ≫= k) h R.
Proof. intros E (h' & K). exists h'. by erewrite bind_Ret by exact E. Qed.

Lemma Consume_ends t n h own : tracked h own -> is_Some (trackers h !! t) ->
  ends (Consume t n) h (fun h' => tracked h' (own_add t n own) /\
    exists l, chain (trackers h) (Some t) l /\ trackers h' = bump n l (trackers h)).
Proof.
  intros [W S] Ht. destruct (Consume_run t n h W Ht) as (l & h' & C & T & _ & W' & R). exists h'.
  destruct R as [[R Cm]|R]; [left|by right]. split; [done|]. split; [done|]. split; [|by exists l].
  split; [done|]. rewrite T. eapply bump_sums; [exact C|by apply sums_own].
Qed.

Lemma change_run t tr f h : trackers h !! t = Some tr -> change t f h = (Ret tt, set_trackers (alter f t (trackers h)) h).
Proof. intros E. unfold change. erewrite bind_Ret by by apply load_run. unfold save, modify. by rewrite alter_insert, E. Qed.

Definition rest (tr : Tracker) : Z * Z * option Z := (bytesConsumed tr, maxConsumed tr, actionOnExceed tr).

Lemma wf_trackers h ts' : wf h -> shape ts' -> (forall t, rest <$> ts' !! t = rest <$> trackers h !! t) -> wf (set_trackers ts' h).
Proof.
  intros [A B C D] Sh R.
  assert (F : forall t tr', ts' !! t = Some tr' -> exists tr, trackers h !! t = Some tr /\ rest tr' = rest tr).
  { intros t tr' Et. specialize (R t). rewrite Et in R. symmetry in R. apply fmap_Some in R as (tr & Er & El). by exists tr. }
  split; cbn; [done| | |].
  - intros t tr' Et. destruct (F _ _ Et) as (tr & Er & [= -> -> _]). by apply (B t).
  - intros t Ht. destruct (C t Ht) as [N1 N2]. split; [|done]. specialize (R t). rewrite N1 in R. by destruct (ts' !! t).
  - intros t tr' a Et Ea. destruct (F _ _ Et) as (tr & Er & [= _ _ X]). eapply D; [exact Er|congruence].
Qed.

Lemma child_index_Some l c : c ∈ l -> exists i, child_index l c = Some i /\ l !! i = Some c.
Proof.
  induction l as [|x l IH]; [by intros ?%elem_of_nil|]. cbn. destruct (Z.eqb_spec x c) as [->|Ne]; [by exists 0%nat|].
  intros [->|H]%elem_of_cons; [done|]. destruct (IH H) as (i & -> & L). by exists (S i).
Qed.

Lemma delete_NoDup (l : list Z) i c : NoDup l -> l !! i = Some c ->
  NoDup (delete i l) /\ forall x, x ∈ delete i l <-> x <> c /\ x ∈ l.
Proof.
  intros Nd L. pose proof (delete_Permutation l i c L) as P. rewrite P in Nd. apply NoDup_cons in Nd as [Nc Nd].
  split; [done|]. intros x.
  assert (M : x ∈ c :: delete i l <-> x ∈ l) by by rewrite <- P. rewrite <- M, elem_of_cons.
  split; [|by intros [Ne [->|]]]. intros H. split; [by intros ->|by right].
Qed.


(** ** Removal *)

Lemma chain_of_child ts c cr q l : ts !! c = Some cr -> t_parent cr = Some q -> chain ts (Some q) l -> c ∉ l /\ c <> q.
Proof.
  intros E P C. assert (N : NoDup (c :: l)) by (eapply chain_NoDup, ch_cons; [exact E|by rewrite P]).
  apply NoDup_cons in N as [N _]. split; [done|]. intros ->. apply N. inversion C. left.
Qed.

Lemma moved_bump n l ts : NoDup l -> forall ts' c p', moved (bump n l ts) ts' c p' -> moved ts ts' c p'.
Proof.
  intros Nd ts' c p' Mv u. rewrite (Mv u), bump_lookup by done. destruct (decide (u ∈ l)), (ts !! u); done.
Qed.

(** A tracker leaves the list of a parent that is not global. *)
Lemma shape_unlink ts q qr c i : shape ts -> ts !! q = Some qr -> isGlobal qr = false -> t_children qr !! i = Some c ->
  let ts' := alter (fun tr => set_children (delete i (t_children tr)) tr) q (alter (set_parent None) c ts) in
  moved ts ts' c None /\ shape ts'.
Proof.
  intros Sh Eq Gq Li ts'. pose proof (sh_children _ Sh _ _ Eq Gq) as [Nd M].
  destruct (proj1 (M c) ltac:(by eapply list_elem_of_lookup_2)) as (cr & Ec & Pc).
  destruct (sh_chain _ Sh q ltac:(by eexists)) as [lq Hq]. destruct (chain_of_child _ _ _ _ _ Ec Pc Hq) as [_ Ncq].
  assert (L : forall u, ts' !! u = (fun tr => set_children (if decide (u = q) then delete i (t_children tr) else t_children tr)
    (set_parent (if decide (u = c) then None else t_parent tr) tr)) <$> ts !! u).
  { intros u. unfold ts'. destruct (decide (u = q)) as [->|Nq].
    - rewrite lookup_alter_eq, lookup_alter_ne by done. rewrite Eq. cbn. rewrite decide_False by done. by destruct qr.
    - rewrite lookup_alter_ne by done. destruct (decide (u = c)) as [->|Nc].
      + rewrite lookup_alter_eq, Ec. cbn. by destruct cr.
      + rewrite lookup_alter_ne by done. destruct (ts !! u) as [[]|]; done. }
  assert (Mv : moved ts ts' c None).
  { intros u. rewrite L. destruct (ts !! u); done. }
  split; [done|]. apply (shape_moved ts _ c None); [done|done|done|by eexists|].
  intros u ur ur' Eu Eu'. rewrite L, Eu in Eu'. injection Eu' as <-. cbn [t_children set_children].
  destruct (isGlobal ur) eqn:Gu.
  - rewrite (sh_global _ Sh _ _ Eu Gu). destruct (decide (u = q)); done.
  - destruct (sh_children _ Sh _ _ Eu Gu) as [Ndu Mu]. destruct (decide (u = q)) as [->|Nq].
    + assert (ur = qr) as -> by congruence. destruct (delete_NoDup _ _ _ Nd Li) as [Nd' M']. split; [done|].
      intros x. rewrite M'. destruct (decide (x = c)); naive_solver.
    + split; [done|]. intros x. destruct (decide (x = c)) as [->|]; [|done]. rewrite Mu. split; [|done].
      intros (cr2 & E2 & P2). assert (cr2 = cr) as -> by congruence. congruence.
Qed.

Lemma rest_alter (f : Tracker -> Tracker) (ts : gmap Z Tracker) c t : (forall tr, rest (f tr) = rest tr) -> rest <$> alter f c ts !! t = rest <$> ts !! t.
Proof.
  intros F. destruct (decide (t = c)) as [->|]; [|by rewrite lookup_alter_ne]. rewrite lookup_alter_eq.
  destruct (ts !! c) as [tr|]; [|done]. cbn. by rewrite F.
Qed.

Lemma remove_ends q qr c h own : tracked h own -> trackers h !! q = Some qr -> isGlobal qr = false -> c ∈ t_children qr ->
  ends (remove q c) h (fun h' => tracked h' own /\ moved (trackers h) (trackers h') c None).
Proof.
  intros T Eq Gq Hc. pose proof T as [W S]. pose proof (wf_shape _ W) as Sh.
  destruct (proj1 (proj2 (sh_children _ Sh _ _ Eq Gq) c) Hc) as (cr & Ec & Pc).
  destruct (child_index_Some _ _ Hc) as (i & Ei & Li). unfold remove.
  eapply ends_load; [by apply load_run|]. cbv beta. rewrite Ei.
  eapply ends_load; [unfold BytesConsumed; erewrite bind_Ret by (by apply load_run); reflexivity|]. cbv beta.
  eapply ends_bind; [by eapply Consume_ends|]. intros h1 [[W1 S1] (l & Cl & T1)]. cbv beta.
  pose proof (chain_NoDup _ _ _ Cl) as Nd. destruct (chain_of_child _ _ _ _ _ Ec Pc Cl) as [Ncl Ncq].
  assert (Ec1 : trackers h1 !! c = Some cr) by by rewrite T1, bump_lookup, decide_False.
  assert (exists qr1, trackers h1 !! q = Some qr1 /\ isGlobal qr1 = false /\ t_children qr1 = t_children qr) as (qr1 & Eq1 & Gq1 & Ch1).
  { rewrite T1, bump_lookup by done. exists (consumed_by (i64_wrap (- bytesConsumed cr)) qr).
    rewrite decide_True by (inversion Cl; left). by rewrite Eq. }
  destruct (shape_unlink (trackers h1) q qr1 c i (wf_shape _ W1) Eq1 Gq1 ltac:(by rewrite Ch1)) as [Mv Sh'].
  eapply ends_ret.
  { erewrite bind_Ret by (by apply (change_run c cr)). cbv beta.
    erewrite (change_run q qr1) by (cbn [trackers set_trackers]; by rewrite lookup_alter_ne).
    rewrite set_trackers_twice. cbn [trackers set_trackers]. reflexivity. }
  { done. }
  cbn [trackers set_trackers]. split; [|eapply moved_bump; [exact Nd|rewrite <- T1; exact Mv]]. split.
  - apply wf_trackers; [done|done|]. intros t. rewrite !rest_alter; done.
  - cbn [trackers set_trackers]. apply sums_alter; [done|].
    eapply sums_ext; [|eapply (sums_parent _ _ c cr None Ec1); [by rewrite Pc; intros [= ->]|done|exact S1]].
    intros u. cbn [own_opt]. rewrite Pc. unfold own_opt, own_add. destruct (decide (u = q)); [|done].
    rewrite i64_wrap_eq64. eq64_lia.
Qed.

(** ** Attachment *)

Lemma moved_trans ts ts1 ts2 c p1 p2 : moved ts ts1 c p1 -> moved ts1 ts2 c p2 -> moved ts ts2 c p2.
Proof.
  intros M1 M2 u. rewrite (M2 u). specialize (M1 u). destruct (ts1 !! u), (ts !! u); try done.
  cbn in *. injection M1 as P G. rewrite P, G. by destruct (decide (u = c)).
Qed.

Lemma moved_refl ts c cr : ts !! c = Some cr -> moved ts ts c (t_parent cr).
Proof. intros E u. destruct (decide (u = c)) as [->|]; [by rewrite E|]. by destruct (ts !! u). Qed.

(** A tracker without parent enters the list of one that is not global. *)
Lemma shape_link ts p pr c cr lp : shape ts -> ts !! c = Some cr -> t_parent cr = None -> ts !! p = Some pr ->
  isGlobal pr = false -> chain ts (Some p) lp -> c ∉ lp ->
  let ts' := alter (set_parent (Some p)) c (alter (fun tr => set_children (t_children tr ++ [c]) tr) p ts) in
  moved ts ts' c (Some p) /\ shape ts'.
Proof.
  intros Sh Ec Pc Ep Gp Cp Nc ts'. assert (Ncp : c <> p) by (intros ->; apply Nc; inversion Cp; left).
  assert (L : forall u, ts' !! u = (fun tr => set_children (if decide (u = p) then t_children tr ++ [c] else t_children tr)
    (set_parent (if decide (u = c) then Some p else t_parent tr) tr)) <$> ts !! u).
  { intros u. unfold ts'. destruct (decide (u = c)) as [->|Nu].
    - rewrite lookup_alter_eq, lookup_alter_ne by done. rewrite Ec. cbn. rewrite decide_False by done. by destruct cr.
    - rewrite lookup_alter_ne by done. destruct (decide (u = p)) as [->|Np].
      + rewrite lookup_alter_eq, Ep. cbn. by destruct pr.
      + rewrite lookup_alter_ne by done. destruct (ts !! u) as [[]|]; done. }
  assert (Mv : moved ts ts' c (Some p)).
  { intros u. rewrite L. destruct (ts !! u); done. }
  split; [done|]. apply (shape_moved ts _ c (Some p)); [done|done|intros ? [= <-]; by exists lp|by eexists|].
  intros u ur ur' Eu Eu'. rewrite L, Eu in Eu'. injection Eu' as <-. cbn [t_children set_children].
  destruct (isGlobal ur) eqn:Gu.
  - rewrite decide_False by (intros ->; congruence). by apply (sh_global _ Sh _ _ Eu).
  - destruct (sh_children _ Sh _ _ Eu Gu) as [Ndu Mu].
    assert (Ncu : c ∉ t_children ur) by (rewrite Mu; intros (cr2 & E2 & P2); congruence).
    destruct (decide (u = p)) as [->|Nq].
    + split; [apply NoDup_app; split; [done|]; split; [intros x Hx ->%list_elem_of_singleton; done|apply NoDup_singleton]|].
      intros x. rewrite elem_of_app, list_elem_of_singleton. destruct (decide (x = c)); naive_solver.
    + split; [done|]. intros x. destruct (decide (x = c)) as [->|]; [|done]. split; [done|]. intros [= ->]. done.
Qed.

(** A tracker whose parent is global, or that has none, gets another such parent. *)
Lemma shape_global ts c cr p' : shape ts -> ts !! c = Some cr ->
  (forall q qr, t_parent cr = Some q -> ts !! q = Some qr -> isGlobal qr = true) ->
  (forall p, p' = Some p -> exists pr lp, ts !! p = Some pr /\ isGlobal pr = true /\ chain ts (Some p) lp /\ c ∉ lp) ->
  moved ts (alter (set_parent p') c ts) c p' /\ shape (alter (set_parent p') c ts).
Proof.
  intros Sh Ec Old New.
  assert (Mv : moved ts (alter (set_parent p') c ts) c p').
  { intros u. destruct (decide (u = c)) as [->|Nu]; [by rewrite lookup_alter_eq, Ec|]. rewrite lookup_alter_ne by done. by destruct (ts !! u). }
  split; [done|]. apply (shape_moved ts _ c p'); [done|done| |by eexists|].
  - intros p Hp. destruct (New p Hp) as (? & lp & _ & _ & H). by exists lp.
  - intros u ur ur' Eu Eu'. assert (t_children ur' = t_children ur) as ->.
    { destruct (decide (u = c)) as [->|Nu]; [rewrite lookup_alter_eq, Ec in Eu'; injection Eu' as <-; by assert (ur = cr) as -> by congruence|].
      rewrite lookup_alter_ne in Eu' by done. congruence. }
    destruct (isGlobal ur) eqn:Gu; [by apply (sh_global _ Sh _ _ Eu)|]. destruct (sh_children _ Sh _ _ Eu Gu) as [Ndu Mu].
    split; [done|]. intros x. destruct (decide (x = c)) as [->|]; [|done]. rewrite Mu. split.
    + intros (cr2 & E2 & P2). assert (cr2 = cr) as -> by congruence. rewrite (Old u ur P2 Eu) in Gu. done.
    + intros Hp. destruct (New u Hp) as (pr & _ & Ep & Gp & _). congruence.
Qed.

Lemma BytesConsumed_run t tr h : trackers h !! t = Some tr -> BytesConsumed t h = (Ret (bytesConsumed tr), h).
Proof. intros E. unfold BytesConsumed. by erewrite bind_Ret by by apply load_run. Qed.

(** [t] may become a child of [p]: it is not above [p]. *)
Definition not_above (ts : gmap Z Tracker) (t p : Z) : Prop := forall l, chain ts (Some p) l -> t ∉ l.

(** The new parent counts what the tracker has consumed. *)
Lemma give_ends h t tr p own : tracked h (own_add p (- bytesConsumed tr) own) ->
  trackers h !! t = Some tr -> is_Some (trackers h !! p) ->
  ends (c ← BytesConsumed t; Consume p c) h (fun h' => tracked h' own /\ forall ts c p', moved ts (trackers h) c p' -> moved ts (trackers h') c p').
Proof.
  intros T Et Ep. eapply ends_load; [by apply (BytesConsumed_run t tr)|]. cbv beta.
  eapply ends_weaken; [by apply (Consume_ends p _ _ _ T)|]. intros h3 [[W3 S3] (l & Cl & T3)]. cbn [trackers set_trackers] in Cl, T3. split.
  - split; [done|]. eapply sums_ext; [|exact S3]. intros u. unfold own_add. destruct (decide (u = p)); [eq64_lia|done].
  - intros ts c p' Mv u. rewrite <- (Mv u), T3, bump_lookup by by eapply chain_NoDup. destruct (decide (u ∈ l)), (trackers h !! u); done.
Qed.

Lemma link_ends h t tr p pr lp own : tracked h own -> trackers h !! t = Some tr -> t_parent tr = None ->
  trackers h !! p = Some pr -> isGlobal pr = false -> chain (trackers h) (Some p) lp -> t ∉ lp ->
  ends (change p (fun pr => set_children (t_children pr ++ [t]) pr);; change t (set_parent (Some p));;
    (c ← BytesConsumed t; Consume p c)) h (fun h' => tracked h' own /\ moved (trackers h) (trackers h') t (Some p)).
Proof.
  intros [W S] Et Pt Ep Gp Cp Nt. assert (Ntp : p <> t) by (intros ->; apply Nt; inversion Cp; left).
  destruct (shape_link _ p pr t tr lp (wf_shape _ W) Et Pt Ep Gp Cp Nt) as [Mv Sh].
  set (ts2 := alter _ t (alter _ p (trackers h))) in *.
  assert (Et2 : ts2 !! t = Some (set_parent (Some p) tr)) by (unfold ts2; rewrite lookup_alter_eq, lookup_alter_ne, Et; done).
  eapply (ends_bind _ _ _ (fun h1 => h1 = set_trackers (alter (fun tr => set_children (t_children tr ++ [t]) tr) p (trackers h)) h)).
  { eapply ends_ret; [by apply (change_run p pr)|done|done]. }
  intros h1 ->. eapply (ends_bind _ _ _ (fun h1 => h1 = set_trackers ts2 h)).
  { apply (ends_ret _ _ (set_trackers ts2 h)); [|done|done].
    erewrite (change_run t tr) by (cbn [trackers set_trackers]; by rewrite lookup_alter_ne). by rewrite set_trackers_twice. }
  intros h1 ->. eapply ends_weaken; [apply (give_ends _ t (set_parent (Some p) tr) p own)|].
  - split.
    + apply wf_trackers; [done|done|]. intros u. unfold ts2. rewrite !rest_alter; done.
    + cbn [trackers set_trackers]. eapply sums_ext; [|apply (sums_parent _ own t tr (Some p));
        [by rewrite lookup_alter_ne|by rewrite Pt|by intros [= ->]|apply sums_alter; [done|exact S]]].
      intros u. by rewrite Pt.
  - done.
  - cbn. unfold ts2. rewrite lookup_alter_ne, lookup_alter_eq, Ep by done. by eexists.
  - intros h3 [T3 K]. split; [done|]. by apply K.
Qed.

Lemma AttachTo_ends t tr p pr h own : tracked h own -> trackers h !! t = Some tr -> trackers h !! p = Some pr ->
  isGlobal pr = false -> (forall q qr, t_parent tr = Some q -> trackers h !! q = Some qr -> isGlobal qr = false) ->
  not_above (trackers h) t p ->
  ends (AttachTo t p) h (fun h' => tracked h' own /\ moved (trackers h) (trackers h') t (Some p)).
Proof.
  intros T Et Ep Gp Old Na. unfold AttachTo. eapply ends_load; [by apply load_run|]. cbv beta.
  destruct (sh_chain _ (wf_shape _ (proj1 T)) p ltac:(by eexists)) as [lp Hp]. pose proof (Na _ Hp) as Nt.
  eapply (ends_bind _ _ _ (fun h1 => tracked h1 own /\ moved (trackers h) (trackers h1) t None)).
  - destruct (t_parent tr) as [q|] eqn:Pt.
    + destruct (sh_chain _ (wf_shape _ (proj1 T)) t ltac:(by eexists)) as [lt Ht]. inversion Ht as [|? tr0 ? E0 Ct]; subst.
      assert (tr0 = tr) as -> by congruence. rewrite Pt in Ct. inversion Ct as [|? qr ? Eq]; subst.
      specialize (Old q qr eq_refl Eq). eapply remove_ends; [done..|].
      apply (proj2 (sh_children _ (wf_shape _ (proj1 T)) _ _ Eq Old)). by exists tr.
    + eapply ends_ret; [done|done|]. split; [done|]. rewrite <- Pt. by apply moved_refl.
  - intros h1 [T1 Mv]. destruct (moved_forth _ _ _ _ _ _ Mv Et) as (tr1 & Et1 & Pt1 & _). rewrite decide_True in Pt1 by done.
    destruct (moved_forth _ _ _ _ _ _ Mv Ep) as (pr1 & Ep1 & _ & Gp1).
    eapply ends_weaken; [apply (link_ends h1 t tr1 p pr1 lp own); [done..|congruence|by eapply chain_moved_off|done]|].
    intros h2 [T2 Mv2]. split; [done|by eapply moved_trans].
Qed.

(** ** Detachment *)

Lemma tracked_ext h h' own own' : tracked h own -> h' = h -> (forall u, own u ≡64 own' u) -> tracked h' own'.
Proof. intros [W S] -> E. split; [done|by eapply sums_ext]. Qed.

Lemma Detach_ends t tr h own : tracked h own -> trackers h !! t = Some tr ->
  (forall q qr, t_parent tr = Some q -> trackers h !! q = Some qr -> isGlobal qr = false) ->
  ends (Detach t) h (fun h' => tracked h' own /\ moved (trackers h) (trackers h') t None).
Proof.
  intros T Et Old. unfold Detach. eapply ends_load; [by apply load_run|]. cbv beta. destruct (t_parent tr) as [q|] eqn:Pt.
  2:{ eapply ends_ret; [done|done|]. split; [done|]. rewrite <- Pt. by apply moved_refl. }
  destruct (sh_chain _ (wf_shape _ (proj1 T)) t ltac:(by eexists)) as [lt Ht]. inversion Ht as [|? tr0 ? E0 Ct]; subst.
  assert (tr0 = tr) as -> by congruence. rewrite Pt in Ct. inversion Ct as [|? qr ? Eq]; subst.
  eapply ends_bind; [eapply remove_ends; [done..|by eapply Old|]; apply (proj2 (sh_children _ (wf_shape _ (proj1 T)) _ _ Eq (Old _ _ eq_refl Eq))); by exists tr|].
  intros h1 [T1 Mv]. destruct (moved_forth _ _ _ _ _ _ Mv Et) as (tr1 & Et1 & Pt1 & _). rewrite decide_True in Pt1 by done.
  assert (A : alter (set_parent None) t (trackers h1) = trackers h1).
  { rewrite alter_insert, Et1. apply insert_id. rewrite Et1. destruct tr1. cbn in *. by subst. }
  eapply ends_ret; [by apply (change_run t tr1)|done|]. rewrite A. cbn [trackers set_trackers]. split; [|done].
  eapply tracked_ext; [exact T1|by destruct h1|done].
Qed.

(** A new parent, for a tracker that is in no list, and its counters. *)
Lemma reparent_ends h t tr p' own : tracked h own -> trackers h !! t = Some tr -> t_parent tr <> Some t ->
  (forall q qr, t_parent tr = Some q -> trackers h !! q = Some qr -> isGlobal qr = true) ->
  (forall p, p' = Some p -> exists pr lp, trackers h !! p = Some pr /\ isGlobal pr = true /\ chain (trackers h) (Some p) lp /\ t ∉ lp) ->
  ends (change t (set_parent p')) h (fun h' =>
    tracked h' (own_opt p' (- bytesConsumed tr) (own_opt (t_parent tr) (bytesConsumed tr) own)) /\
    trackers h' = alter (set_parent p') t (trackers h) /\ moved (trackers h) (trackers h') t p').
Proof.
  intros [W S] Et Np Old New. destruct (shape_global _ t tr p' (wf_shape _ W) Et Old New) as [Mv Sh].
  eapply ends_ret; [by apply (change_run t tr)|done|]. cbn [trackers set_trackers]. split; [|done]. split.
  - apply wf_trackers; [done|done|]. intros u. by rewrite rest_alter.
  - apply sums_parent; [done|done| |done]. intros ->. destruct (New t eq_refl) as (pr & lp & _ & _ & C & N). apply N. inversion C. left.
Qed.

(** The old parent, when it is global, forgets the tracker. *)
Lemma take_ends h t tr q qr own : tracked h own -> trackers h !! t = Some tr -> t_parent tr = Some q -> trackers h !! q = Some qr ->
  ends (Consume q (i64_wrap (- bytesConsumed tr))) h (fun h' =>
    tracked h' (own_add q (- bytesConsumed tr) own) /\ trackers h' !! t = Some tr /\ (forall u, links <$> trackers h' !! u = links <$> trackers h !! u)).
Proof.
  intros T Et Pt Eq. eapply ends_weaken; [by apply (Consume_ends q _ _ _ T)|]. intros h1 [[W1 S1] (l & Cl & T1)].
  destruct (chain_of_child _ _ _ _ _ Et Pt Cl) as [Nt _]. pose proof (chain_NoDup _ _ _ Cl) as Nd. split; [|split].
  - split; [done|]. eapply sums_ext; [|exact S1]. intros u. unfold own_add. destruct (decide (u = q)); [|done]. rewrite i64_wrap_eq64. eq64_lia.
  - by rewrite T1, bump_lookup, decide_False.
  - intros u. rewrite T1. by apply links_bump.
Qed.

Lemma links_moved (ts ts1 ts2 : gmap Z Tracker) c p' : (forall u, links <$> ts1 !! u = links <$> ts !! u) -> moved ts1 ts2 c p' -> moved ts ts2 c p'.
Proof.
  intros L Mv u. rewrite (Mv u). specialize (L u). destruct (ts1 !! u), (ts !! u); try done. cbn in *. injection L as L1 L2 _. by rewrite L1, L2.
Qed.

Lemma links_lookup (ts ts1 : gmap Z Tracker) u ur : (forall u, links <$> ts1 !! u = links <$> ts !! u) -> ts !! u = Some ur ->
  exists ur1, ts1 !! u = Some ur1 /\ t_parent ur1 = t_parent ur /\ isGlobal ur1 = isGlobal ur.
Proof. intros L E. specialize (L u). rewrite E in L. apply fmap_Some in L as (ur1 & E1 & [= P G _]). by exists ur1. Qed.

Lemma parent_not_self ts t tr : shape ts -> ts !! t = Some tr -> t_parent tr <> Some t.
Proof.
  intros Sh E P. destruct (sh_chain _ Sh t ltac:(by eexists)) as [l C]. by destruct (chain_of_child _ _ _ _ _ E P C).
Qed.

Lemma DetachFromGlobalTracker_ends t tr h own : tracked h own -> trackers h !! t = Some tr ->
  (forall q qr, t_parent tr = Some q -> trackers h !! q = Some qr -> isGlobal qr = true) ->
  ends (DetachFromGlobalTracker t) h (fun h' => tracked h' own /\ moved (trackers h) (trackers h') t None).
Proof.
  intros T Et Old. unfold DetachFromGlobalTracker. eapply ends_load; [by apply load_run|]. cbv beta. pose proof (wf_shape _ (proj1 T)) as Sh.
  destruct (t_parent tr) as [q|] eqn:Pt.
  2:{ eapply ends_ret; [done|done|]. split; [done|]. rewrite <- Pt. by apply moved_refl. }
  destruct (sh_chain _ Sh t ltac:(by eexists)) as [lt Ht]. inversion Ht as [|? tr0 ? E0 Ct]; subst.
  assert (tr0 = tr) as -> by congruence. rewrite Pt in Ct. inversion Ct as [|? qr ? Eq]; subst.
  eapply ends_load; [by apply load_run|]. cbv beta. rewrite (Old _ _ eq_refl Eq). cbn [negb].
  eapply ends_load; [by apply (BytesConsumed_run t tr)|]. cbv beta.
  eapply ends_bind; [by eapply take_ends|]. intros h1 (T1 & Et1 & L).
  eapply ends_weaken; [apply (reparent_ends h1 t tr None _ T1 Et1)|].
  - by eapply parent_not_self.
  - intros q2 qr2 P2 E2. assert (q2 = q) as -> by congruence. destruct (links_lookup _ _ _ _ L Eq) as (qr1 & Eq1 & _ & G1).
    assert (qr1 = qr2) as -> by congruence. rewrite G1. by eapply Old.
  - done.
  - intros h2 (T2 & _ & Mv). split; [|by eapply links_moved]. eapply tracked_ext; [exact T2|done|]. intros u.
    rewrite Pt. cbn [own_opt]. unfold own_add. destruct (decide (u = q)); [eq64_lia|done].
Qed.

(** [t] is in no list and not among the children that are counted. *)
Definition loose (h : mem) (t : Z) (own : Z -> Z) (h1 : mem) : Prop := exists tr1 own1,
  tracked h1 own1 /\ trackers h1 !! t = Some tr1 /\
  (forall q qr, t_parent tr1 = Some q -> trackers h1 !! q = Some qr -> isGlobal qr = true) /\
  (forall u, own_opt (t_parent tr1) (bytesConsumed tr1) own1 u ≡64 own u) /\
  (forall ts2 p', moved (trackers h1) ts2 t p' -> moved (trackers h) ts2 t p') /\
  (forall g l, chain (trackers h) (Some g) l -> t ∉ l -> chain (trackers h1) (Some g) l) /\
  (forall u ur, trackers h !! u = Some ur -> exists ur1, trackers h1 !! u = Some ur1 /\ isGlobal ur1 = isGlobal ur).

Lemma leave_ends t tr h own : tracked h own -> trackers h !! t = Some tr ->
  ends (match t_parent tr with
        | None => ret tt
        | Some q => qt ← load q; if isGlobal qt then c ← BytesConsumed t; Consume q (i64_wrap (- c)) else remove q t
        end) h (loose h t own).
Proof.
  intros T Et. pose proof (wf_shape _ (proj1 T)) as Sh. destruct (t_parent tr) as [q|] eqn:Pt.
  2:{ eapply ends_ret; [done|done|]. exists tr, own. do 2 (split; [done|]). rewrite Pt. repeat (split; [done|]). intros u ur Eu. by exists ur. }
  destruct (sh_chain _ Sh t ltac:(by eexists)) as [lt Ht]. inversion Ht as [|? tr0 ? E0 Ct]; subst.
  assert (tr0 = tr) as -> by congruence. rewrite Pt in Ct. inversion Ct as [|? qr ? Eq]; subst.
  eapply ends_load; [by apply load_run|]. cbv beta. destruct (isGlobal qr) eqn:Gq.
  - eapply ends_load; [by apply (BytesConsumed_run t tr)|]. cbv beta.
    eapply ends_weaken; [by eapply take_ends|]. intros h1 (T1 & Et1 & L). exists tr, (own_add q (- bytesConsumed tr) own).
    split; [done|]. split; [done|]. split; [|split; [|split; [|split]]].
    + intros q2 qr2 P2 E2. assert (q2 = q) as -> by congruence. destruct (links_lookup _ _ _ _ L Eq) as (qr1 & Eq1 & _ & G1). congruence.
    + intros u. rewrite Pt. cbn [own_opt]. unfold own_add. destruct (decide (u = q)); [eq64_lia|done].
    + intros ts2 p'. by apply links_moved.
    + intros g l C _. by eapply chain_links.
    + intros u ur Eu. destruct (links_lookup _ _ _ _ L Eu) as (ur1 & Eu1 & _ & G1). by exists ur1.
  - eapply ends_weaken; [eapply (remove_ends q qr t); [done..|]; apply (proj2 (sh_children _ Sh _ _ Eq Gq)); by exists tr|].
    intros h1 [T1 Mv]. destruct (moved_forth _ _ _ _ _ _ Mv Et) as (tr1 & Et1 & Pt1 & _). rewrite decide_True in Pt1 by done.
    exists tr1, own. do 2 (split; [done|]). rewrite Pt1. do 2 (split; [done|]). split; [intros ts2 p' M2; by eapply moved_trans|].
    split; [intros g l C N; by eapply chain_moved_off|]. intros u ur Eu.
    destruct (moved_forth _ _ _ _ _ _ Mv Eu) as (ur1 & Eu1 & _ & G1). by exists ur1.
Qed.

Lemma AttachToGlobalTracker_ends t tr g gr h own : tracked h own -> trackers h !! t = Some tr -> trackers h !! g = Some gr ->
  isGlobal gr = true -> not_above (trackers h) t g ->
  ends (AttachToGlobalTracker t (Some g)) h (fun h' => tracked h' own /\ moved (trackers h) (trackers h') t (Some g)).
Proof.
  intros T Et Eg Gg Na. unfold AttachToGlobalTracker.
  eapply ends_load; [by apply load_run|]. cbv beta. rewrite Gg. cbn [negb]. eapply ends_load; [by apply load_run|]. cbv beta.
  destruct (sh_chain _ (wf_shape _ (proj1 T)) g ltac:(by eexists)) as [lg Hg]. pose proof (Na _ Hg) as Ng.
  eapply ends_bind; [by apply leave_ends|]. intros h1 (tr1 & own1 & T1 & Et1 & Old & Ow & Mv & Ch & Gl). cbv beta.
  destruct (Gl g gr Eg) as (gr1 & Eg1 & Gg1). rewrite Gg in Gg1. eapply ends_bind; [apply (reparent_ends h1 t tr1 (Some g) own1 T1 Et1)|].
  - eapply parent_not_self; [apply T1|done].
  - done.
  - intros p [= <-]. exists gr1, lg. by auto.
  - intros h2 (T2 & E2 & Mv2). eapply ends_weaken; [apply (give_ends h2 t (set_parent (Some g) tr1) g own)|].
    + eapply tracked_ext; [exact T2|done|]. intros u. cbn [own_opt bytesConsumed set_parent]. unfold own_add.
      destruct (decide (u = g)); by rewrite (Ow u).
    + by rewrite E2, lookup_alter_eq, Et1.
    + destruct (moved_forth _ _ _ _ _ _ Mv2 Eg1) as (? & -> & _). by eexists.
    + intros h3 [T3 K]. split; [done|]. apply K. by apply Mv.
Qed.

(** ** Replacement *)

Lemma insert_Permutation (l : list Z) i c x : l !! i = Some c -> <[i := x]> l ≡ₚ x :: delete i l.
Proof.
  intros L. pose proof (lookup_lt_Some _ _ _ L) as Li. rewrite insert_take_drop by done. rewrite delete_take_drop.
  by rewrite Permutation_middle.
Qed.

Lemma shape_replace ts t tr o i n nr lt : shape ts -> ts !! t = Some tr -> isGlobal tr = false -> t_children tr !! i = Some o ->
  ts !! n = Some nr -> t_parent nr = None -> chain ts (Some t) lt -> n ∉ lt ->
  let ts' := alter (fun tr => set_children (<[i := n]> (t_children tr)) tr) t
    (alter (set_parent None) o (alter (set_parent (Some t)) n ts)) in shape ts'.
Proof.
  intros Sh Et Gt Li En Pn Ct Nn ts'.
  destruct (shape_unlink ts t tr o i Sh Et Gt Li) as [Mv Sh1]. set (ts1 := alter _ t (alter _ o ts)) in *.
  destruct (sh_children _ Sh _ _ Et Gt) as [Nd M]. destruct (proj1 (M o) ltac:(by eapply list_elem_of_lookup_2)) as (cr & Eo & Po).
  assert (Nno : n <> o) by congruence. assert (Nnt : n <> t) by (intros ->; apply Nn; inversion Ct; left).
  destruct (chain_of_child _ _ _ _ _ Eo Po Ct) as [No Not].
  assert (L : forall u, ts' !! u = (fun tr1 => set_children (if decide (u = t) then <[i := n]> (t_children tr) else t_children tr1)
    (set_parent (if decide (u = n) then Some t else t_parent tr1) tr1)) <$> ts1 !! u).
  { intros u. unfold ts', ts1. destruct (decide (u = t)) as [->|Nt].
    - rewrite !lookup_alter_eq, !lookup_alter_ne by done. rewrite Et. cbn. by rewrite decide_False.
    - rewrite !(lookup_alter_ne _ _ t) by done. destruct (decide (u = o)) as [->|Nuo].
      + rewrite !lookup_alter_eq, lookup_alter_ne, Eo by done. cbn. by rewrite decide_False.
      + rewrite !(lookup_alter_ne _ _ o) by done. destruct (decide (u = n)) as [->|Nun]; [rewrite lookup_alter_eq, En; by destruct nr|].
        rewrite lookup_alter_ne by done. destruct (ts !! u) as [[]|]; done. }
  apply (shape_moved ts1 _ n (Some t)); [done| | | |].
  - intros u. rewrite L. destruct (ts1 !! u); done.
  - intros p [= <-]. exists lt. split; [|done]. by eapply chain_moved_off.
  - destruct (moved_forth _ _ _ _ _ _ Mv En) as (? & -> & _). by eexists.
  - intros u ur ur' Eu Eu'. rewrite L, Eu in Eu'. injection Eu' as <-. cbn [t_children set_children].
    destruct (isGlobal ur) eqn:Gu.
    + rewrite decide_False; [by apply (sh_global _ Sh1 _ _ Eu)|]. intros ->. destruct (moved_back _ _ _ _ _ _ Mv Eu) as (? & E2 & _ & G2). congruence.
    + destruct (sh_children _ Sh1 _ _ Eu Gu) as [Ndu Mu].
      assert (Nnu : n ∉ t_children ur).
      { rewrite Mu. intros (xr & Ex & Px). destruct (moved_back _ _ _ _ _ _ Mv Ex) as (xr0 & Ex0 & Px0 & _). rewrite decide_False in Px0 by done. congruence. }
      destruct (decide (u = t)) as [->|Nut].
      * assert (Ch : t_children ur = delete i (t_children tr)).
        { unfold ts1 in Eu. rewrite lookup_alter_eq, lookup_alter_ne, Et in Eu by done. by injection Eu as <-. }
        rewrite Ch in *. pose proof (insert_Permutation _ _ _ n Li) as P. split; [by rewrite P; constructor|].
        intros x. rewrite P, elem_of_cons. destruct (decide (x = n)); naive_solver.
      * split; [done|]. intros x. destruct (decide (x = n)) as [->|]; [|done]. split; [done|]. intros [= ->]. done.
Qed.

Lemma ReplaceChild_ends t tr o n nr h own : tracked h own -> trackers h !! t = Some tr -> isGlobal tr = false -> o ∈ t_children tr ->
  trackers h !! n = Some nr -> t_parent nr = None -> not_above (trackers h) n t ->
  ends (ReplaceChild t o (Some n)) h (fun h' => tracked h' own).
Proof.
  intros [W S] Et Gt Ho En Pn Na. pose proof (wf_shape _ W) as Sh. destruct (sh_chain _ Sh t ltac:(by eexists)) as [lt Ht].
  pose proof (Na _ Ht) as Nn. destruct (child_index_Some _ _ Ho) as (i & Ei & Li).
  destruct (proj1 (proj2 (sh_children _ Sh _ _ Et Gt) o) Ho) as (cr & Eo & Po).
  assert (Nno : n <> o) by congruence. assert (Nnt : n <> t) by (intros ->; apply Nn; inversion Ht; left).
  destruct (chain_of_child _ _ _ _ _ Eo Po Ht) as [No Not].
  pose proof (shape_replace _ t tr o i n nr lt Sh Et Gt Li En Pn Ht Nn) as Sh'. cbv zeta in Sh'.
  set (ts1 := alter (set_parent (Some t)) n (trackers h)) in *. set (ts2 := alter (set_parent None) o ts1) in *.
  set (ts3 := alter _ t ts2) in *.
  assert (Eo1 : ts1 !! o = Some cr) by (unfold ts1; by rewrite lookup_alter_ne).
  assert (Et1 : ts1 !! t = Some tr) by (unfold ts1; by rewrite lookup_alter_ne).
  assert (Et2 : ts2 !! t = Some tr) by (unfold ts2; by rewrite lookup_alter_ne).
  assert (T3 : tracked (set_trackers ts3 h) (own_add t (- (bytesConsumed nr - bytesConsumed cr)) own)).
  { split; [apply wf_trackers; [done|done|intros u; unfold ts3, ts2, ts1; rewrite !rest_alter; done]|].
    cbn [trackers set_trackers]. eapply sums_ext; [|apply sums_alter; [done|]; eapply (sums_parent ts1 _ o cr None Eo1);
      [by rewrite Po; intros [= ->]|done|apply (sums_parent _ own n nr (Some t) En); [by rewrite Pn|by intros [= ->]|exact S]]].
    intros u. rewrite Pn, Po. cbn [own_opt]. unfold own_add. destruct (decide (u = t)); [eq64_lia|done]. }
  unfold ReplaceChild. eapply ends_load; [by apply (BytesConsumed_run n nr)|]. cbv beta.
  eapply (ends_bind _ _ _ (fun h1 => h1 = set_trackers ts1 h)); [eapply ends_ret; [by apply (change_run n nr)|done|done]|].
  intros h1 ->. eapply ends_load; [by apply (load_run t tr)|]. cbv beta. rewrite Ei.
  assert (R : (c ← BytesConsumed o; change o (set_parent None);; change t (fun tr => set_children (<[i := n]> (t_children tr)) tr);;
    ret (i64_wrap (bytesConsumed nr - c))) (set_trackers ts1 h) = (Ret (i64_wrap (bytesConsumed nr - bytesConsumed cr)), set_trackers ts3 h)).
  { erewrite bind_Ret by by apply (BytesConsumed_run o cr). cbv beta. erewrite bind_Ret by by apply (change_run o cr).
    cbv beta. erewrite bind_Ret by by apply (change_run t tr). done. }
  cut (ends (Consume t (i64_wrap (bytesConsumed nr - bytesConsumed cr))) (set_trackers ts3 h) (fun h' => tracked h' own)).
  { intros (h' & K). exists h'. erewrite bind_Ret by exact R. exact K. }
  eapply ends_weaken; [apply (Consume_ends _ _ _ _ T3); cbn; unfold ts3; rewrite lookup_alter_eq, Et2; by eexists|].
  intros h4 [[W4 S4] _]. split; [done|]. eapply sums_ext; [|exact S4]. intros u. unfold own_add. destruct (decide (u = t)); [|done].
  rewrite i64_wrap_eq64. eq64_lia.
Qed.

(** ** Reachable states *)

Inductive top : Type :=
| ONew (global : bool) (label : string) (limit : Z)
| ONewAction (kind : actionKind) (conn : Z) (hook : option Z)
| OConsume (t bytes : Z)
| OAttachTo (t parent : Z)
| ODetach (t : Z)
| OReplace (t oldChild : Z) (newChild : option Z)
| OAttachToGlobal (t : Z) (g : option Z)
| ODetachFromGlobal (t : Z)
| OLimit (t limit : Z)
| OLabel (t : Z) (label : string)
| OAction (t : Z) (a : option Z)
| OFallback (t a : Z)
| OHook (a : Z) (hook : option Z).

(** A composite literal of an action, as clients write it. *)
Definition new_action (kind : actionKind) (conn : Z) (hook : option Z) : M mem Z :=
  a ← alloc_addr; save_action a (MkAction kind false conn hook);; ret a.

Definition run_top (op : top) : M mem unit :=
  match op with
  | ONew global label limit => new_tracker global label limit;; ret tt
  | ONewAction kind conn hook => new_action kind conn hook;; ret tt
  | OConsume t bytes => Consume t bytes
  | OAttachTo t parent => AttachTo t parent
  | ODetach t => Detach t
  | OReplace t oldChild newChild => ReplaceChild t oldChild newChild
  | OAttachToGlobal t g => AttachToGlobalTracker t g
  | ODetachFromGlobal t => DetachFromGlobalTracker t
  | OLimit t limit => SetBytesLimit t limit
  | OLabel t label => SetLabel t label
  | OAction t a => SetActionOnExceed t a
  | OFallback t a => FallbackOldAndSetNewAction t a
  | OHook a hook => SetLogHook a hook
  end.

Definition parent_is (h : mem) (t : Z) (global : bool) : Prop :=
  exists tr, trackers h !! t = Some tr /\
    forall q qr, t_parent tr = Some q -> trackers h !! q = Some qr -> isGlobal qr = global.

Definition known (h : mem) (t : Z) (global : bool) : Prop := exists tr, trackers h !! t = Some tr /\ isGlobal tr = global.

(** What the callers keep to: a tracker is not put below itself, it leaves a
    global parent by the functions for those, a new child comes without a
    parent and an old one is a child. *)
Definition top_ok (h : mem) (op : top) : Prop :=
  match op with
  | ONew _ _ _ | ONewAction _ _ _ => True
  | OConsume t _ | OLimit t _ | OLabel t _ => is_Some (trackers h !! t)
  | OAttachTo t p => parent_is h t false /\ known h p false /\ not_above (trackers h) t p
  | ODetach t => parent_is h t false
  | OReplace t o n =>
      (exists tr, trackers h !! t = Some tr /\ isGlobal tr = false /\ o ∈ t_children tr) /\
      forall n', n = Some n' -> (exists nr, trackers h !! n' = Some nr /\ t_parent nr = None) /\ not_above (trackers h) n' t
  | OAttachToGlobal t g => is_Some (trackers h !! t) /\ forall g', g = Some g' -> known h g' true /\ not_above (trackers h) t g'
  | ODetachFromGlobal t => parent_is h t true
  | OAction t a => is_Some (trackers h !! t) /\ forall a', a = Some a' -> is_Some (actions h !! a')
  | OFallback t a => is_Some (trackers h !! t) /\ is_Some (actions h !! a)
  | OHook a _ => is_Some (actions h !! a)
  end.

(** What was consumed through each tracker, after an operation. *)
Definition own_after (op : top) (h : mem) (own : Z -> Z) : Z -> Z :=
  match op with
  | OConsume t n => own_add t n own
  | ONew _ _ _ => fun u => if decide (u = m_next h + 1) then 0 else own u
  | _ => own
  end.

Inductive reach : mem -> (Z -> Z) -> Prop :=
| r_start next : reach (MkMem next ∅ ∅ []) (fun _ => 0)
| r_op h own op h' : reach h own -> top_ok h op -> run_top op h = (Ret tt, h') -> reach h' (own_after op h own)
| r_panic h own t n h' : reach h own -> is_Some (trackers h !! t) -> Consume t n h = (Panic, h') -> reach h' (own_add t n own).

Lemma kids_none ts t : (forall c tr, ts !! c = Some tr -> t_parent tr <> Some t) -> kids ts t = 0.
Proof.
  induction ts as [|c tr ts N IH] using map_ind; intros F; [done|]. rewrite kids_new by done. rewrite IH.
  - unfold contrib. rewrite decide_False; [done|]. eapply F. apply lookup_insert_eq.
  - intros d dr Ed. eapply F. rewrite lookup_insert_ne; [done|]. intros ->. congruence.
Qed.

Lemma shape_new ts t tr : shape ts -> ts !! t = None -> t_parent tr = None -> t_children tr = [] -> shape (<[t := tr]> ts).
Proof.
  intros [A B C] N P Ch. assert (Nc : forall o l, chain ts o l -> chain (<[t := tr]> ts) o l).
  { intros o l H. eapply chain_ext; [|exact H]. intros u Hu. destruct (chain_known _ _ _ _ H Hu) as [ur Eu].
    rewrite lookup_insert_ne; [done|]. intros <-. congruence. }
  split.
  - intros u [ur Eu]. destruct (decide (u = t)) as [->|Ne].
    + exists [t]. econstructor; [apply lookup_insert_eq|]. rewrite P. constructor.
    + rewrite lookup_insert_ne in Eu by done. destruct (A u ltac:(by eexists)) as [l H]. exists l. by apply Nc.
  - intros u ur Eu G. destruct (decide (u = t)) as [->|Ne].
    + rewrite lookup_insert_eq in Eu. injection Eu as <-. rewrite Ch. split; [constructor|]. intros c. rewrite elem_of_nil. split; [done|].
      intros (cr & Ec & Pc). destruct (decide (c = t)) as [->|Nt]; [rewrite lookup_insert_eq in Ec; congruence|].
      rewrite lookup_insert_ne in Ec by done. destruct (A c ltac:(by eexists)) as [l H]. inversion H as [|? cr2 ? E2 H2]; subst.
      assert (cr2 = cr) as -> by congruence. rewrite Pc in H2. inversion H2; congruence.
    + rewrite lookup_insert_ne in Eu by done. destruct (B u ur Eu G) as [Nd M]. split; [done|]. intros c. rewrite M. split; intros (cr & Ec & Pc).
      * exists cr. split; [|done]. rewrite lookup_insert_ne; [done|]. intros <-. congruence.
      * exists cr. split; [|done]. destruct (decide (c = t)) as [->|Nt]; [rewrite lookup_insert_eq in Ec; congruence|]. by rewrite lookup_insert_ne in Ec.
  - intros u ur Eu G. destruct (decide (u = t)) as [->|Ne]; [rewrite lookup_insert_eq in Eu; congruence|].
    rewrite lookup_insert_ne in Eu by done. by eapply C.
Qed.

Lemma sums_new ts own t tr : shape ts -> sums ts own -> ts !! t = None -> t_parent tr = None -> bytesConsumed tr = 0 ->
  sums (<[t := tr]> ts) (fun u => if decide (u = t) then 0 else own u).
Proof.
  intros Sh S N P B u ur Eu. rewrite kids_new by done.
  assert (contrib u tr = 0) as -> by (unfold contrib; destruct (decide _); [congruence|done]).
  destruct (decide (u = t)) as [->|Ne].
  - rewrite lookup_insert_eq in Eu. injection Eu as <-. rewrite B, kids_none; [eq64_lia|]. intros c cr Ec Pc.
    destruct (sh_chain _ Sh c ltac:(by eexists)) as [l H]. inversion H as [|? cr2 ? E2 H2]; subst.
    assert (cr2 = cr) as -> by congruence. rewrite Pc in H2. inversion H2; congruence.
  - rewrite lookup_insert_ne in Eu by done. by rewrite (S u ur Eu).
Qed.

Lemma field_ends h own t tr f : tracked h own -> trackers h !! t = Some tr ->
  (forall tr, links (f tr) = links tr /\ bytesConsumed (f tr) = bytesConsumed tr /\ maxConsumed (f tr) = maxConsumed tr) ->
  (forall a, actionOnExceed (f tr) = Some a -> is_Some (actions h !! a)) ->
  ends (change t f) h (fun h' => tracked h' own).
Proof.
  intros [[A B C D] S] Et F Fa. eapply ends_ret; [by apply (change_run t tr)|done|].
  assert (L : alter f t (trackers h) = <[t := f tr]> (trackers h)) by by rewrite alter_insert, Et.
  split.
  - split; cbn [trackers actions m_next set_trackers].
    + eapply shape_ext; [|exact A]. intros u. rewrite L. destruct (decide (u = t)) as [->|]; [|by rewrite lookup_insert_ne].
      rewrite lookup_insert_eq, Et. cbn. by destruct (F tr) as [-> _].
    + rewrite L. apply map_Forall_insert_2; [|done]. destruct (F tr) as (_ & -> & ->). by apply (B t).
    + intros u Hu. destruct (C u Hu) as [N1 N2]. split; [|done]. rewrite L, lookup_insert_ne; [done|]. intros <-. congruence.
    + intros u ur a Eu Ea. rewrite L in Eu. destruct (decide (u = t)) as [->|]; [rewrite lookup_insert_eq in Eu; injection Eu as <-; by apply Fa|].
      rewrite lookup_insert_ne in Eu by done. by eapply D.
  - cbn [trackers set_trackers]. apply sums_alter; [|done]. intros x. destruct (F x) as ([= P _ _] & -> & _). done.
Qed.

Lemma ONew_ends global label limit h own : tracked h own ->
  ends (run_top (ONew global label limit)) h (fun h' => tracked h' (own_after (ONew global label limit) h own)).
Proof.
  intros [[A B C D] S]. destruct (C (m_next h) ltac:(lia)) as [_ Na]. destruct (C (m_next h + 1) ltac:(lia)) as [Nt _].
  exists (MkMem (m_next h + 1 + 1) (<[m_next h + 1 := MkTracker label 0 limit 0 None global [] (Some (m_next h))]> (trackers h))
    (<[m_next h := MkAction LogOnExceed false 0 None]> (actions h)) (reports h)). left. split; [reflexivity|]. split.
  - intros a ac Ea Ek. cbn in Ea. destruct (decide (a = m_next h)) as [->|]; [rewrite lookup_insert_eq in Ea; injection Ea as <-; done|].
    by rewrite lookup_insert_ne in Ea.
  - split; [split|]; cbn [trackers actions m_next].
    + by apply shape_new.
    + apply map_Forall_insert_2; [|done]. cbn. unfold i64. lia.
    + intros u Hu. destruct (C u ltac:(lia)) as [N1 N2]. rewrite !lookup_insert_ne by lia. done.
    + intros u ur a Eu Ea. destruct (decide (a = m_next h)) as [->|]; [rewrite lookup_insert_eq; by eexists|]. rewrite lookup_insert_ne by done.
      destruct (decide (u = m_next h + 1)) as [->|]; [rewrite lookup_insert_eq in Eu; injection Eu as <-; cbn in Ea; congruence|].
      rewrite lookup_insert_ne in Eu by done. by eapply D.
    + by apply sums_new.
Qed.

Lemma actions_tracked h own acts next : tracked h own -> (forall a, is_Some (actions h !! a) -> is_Some (acts !! a)) ->
  m_next h <= next -> (forall a, next <= a -> acts !! a = None) ->
  tracked (MkMem next (trackers h) acts (reports h)) own.
Proof.
  intros [[A B C D] S] K Ln N. split; [|done]. split; cbn; [done|done| |].
  - intros t Ht. split; [by apply C; lia|by apply N].
  - intros t tr a Et Ea. apply K. by eapply D.
Qed.

Lemma Action_known h own t tr a : tracked h own -> trackers h !! t = Some tr -> actionOnExceed tr = Some a -> is_Some (actions h !! a).
Proof. intros [W _]. by apply (wf_action _ W). Qed.

(** The computation returns, or an action that had not acted panics. *)
Definition returns (m : M mem unit) (h : mem) (Q : mem -> Prop) : Prop :=
  exists h', (m h = (Ret tt, h') /\ Q h') \/ (m h = (Panic, h') /\ panicked h h').

Lemma ends_returns m h Q : ends m h Q -> returns m h Q.
Proof. intros (h' & [(E & _ & HQ)|P]); exists h'; [by left|by right]. Qed.

Lemma ops_end h own op : tracked h own -> top_ok h op -> returns (run_top op) h (fun h' => tracked h' (own_after op h own)).
Proof.
  intros T Ok_. destruct op; cbn [run_top own_after top_ok] in *.
  - by apply ends_returns, ONew_ends.
  - exists (MkMem (m_next h + 1) (trackers h) (<[m_next h := MkAction kind false conn hook]> (actions h)) (reports h)). left.
    split; [reflexivity|]. apply actions_tracked; [done| |lia|].
    + intros a Ha. destruct (decide (a = m_next h)) as [->|]; [rewrite lookup_insert_eq; by eexists|]. by rewrite lookup_insert_ne.
    + intros a Ha. rewrite lookup_insert_ne by lia. apply (wf_fresh _ (proj1 T)). lia.
  - apply ends_returns. eapply ends_weaken; [by apply Consume_ends|]. by intros h' [? _].
  - destruct Ok_ as ((tr & Et & Old) & (pr & Ep & Gp) & Na). apply ends_returns.
    eapply ends_weaken; [by eapply AttachTo_ends|]. by intros h' [? _].
  - destruct Ok_ as (tr & Et & Old). apply ends_returns. eapply ends_weaken; [by eapply Detach_ends|]. by intros h' [? _].
  - destruct Ok_ as ((tr & Et & Gt & Ho) & New). apply ends_returns. destruct newChild as [n|].
    + destruct (New n eq_refl) as ((nr & En & Pn) & Na). by eapply ReplaceChild_ends.
    + eapply ends_weaken; [by eapply remove_ends|]. by intros h' [? _].
  - destruct Ok_ as ((tr & Et) & New). apply ends_returns. destruct g as [g|]; [|by eapply ends_ret].
    destruct (New g eq_refl) as ((gr & Eg & Gg) & Na). eapply ends_weaken; [by eapply AttachToGlobalTracker_ends|]. by intros h' [? _].
  - destruct Ok_ as (tr & Et & Old). apply ends_returns. eapply ends_weaken; [by eapply DetachFromGlobalTracker_ends|]. by intros h' [? _].
  - destruct Ok_ as [tr Et]. apply ends_returns. eapply field_ends; [done..|]. intros a. by apply (Action_known h own t tr a T Et).
  - destruct Ok_ as [tr Et]. apply ends_returns. eapply field_ends; [done..|]. intros a. by apply (Action_known h own t tr a T Et).
  - destruct Ok_ as [[tr Et] Ha]. apply ends_returns. by eapply field_ends.
  - destruct Ok_ as [[tr Et] [ac Ea]]. apply ends_returns. eapply ends_load; [by apply load_run|]. cbv beta.
    eapply ends_load; [unfold SetFallback; by erewrite bind_Ret by by apply load_action_run|]. cbv beta.
    eapply field_ends; [done..|]. intros b [= <-]. by exists ac.
  - destruct Ok_ as [ac Ea]. exists (set_actions (<[a := MkAction (a_kind ac) (acted ac) (ConnID ac) hook]> (actions h)) h). left.
    split; [unfold SetLogHook; by erewrite bind_Ret by by apply load_action_run|]. apply actions_tracked; [done| |lia|].
    + intros b Hb. destruct (decide (b = a)) as [->|]; [rewrite lookup_insert_eq; by eexists|]. by rewrite lookup_insert_ne.
    + intros b Hb. destruct (wf_fresh _ (proj1 T) b Hb) as [_ Nb]. rewrite lookup_insert_ne; [done|]. intros <-. congruence.
Qed.

Lemma reach_tracked h own : reach h own -> tracked h own.
Proof.
  induction 1 as [next|h own op h' R T Ok_ E|h own t n h' R T Ht E].
  - split; [split|]; cbn; try done. split; [by intros t [? ?]|done|done].
  - destruct (ops_end h own op T Ok_) as (h2 & [(E2 & T2)|(E2 & _)]); rewrite E in E2; [|done]. by injection E2 as ->.
  - destruct (Consume_run t n h (proj1 T) Ht) as (l & h2 & C & T2 & _ & W2 & R2).
    assert (h2 = h') as -> by (destruct R2 as [[E2 _]|[E2 _]]; rewrite E in E2; congruence).
    split; [done|]. rewrite T2. eapply bump_sums; [exact C|by apply sums_own; destruct T].
Qed.

(** C22: In every state that trackers reach by operations that keep to the rules
    of [top_ok] (attaching makes no loop; the operations for ordinary parents are
    not used on a tracker with a global one, nor [DetachFromGlobalTracker] on one
    with an ordinary one; only a child is replaced, by a tracker without a parent)
    and return, or by a [Consume] whose action panics: a tracker has consumed, as an
    [int64] with its overflow, what was consumed through it plus what the
    trackers whose parent it is have; its maximum is at least that; its list,
    unless it is global, is the trackers whose parent it is.  And every
    operation that keeps to the rules returns to such a state, or ends with the
    panic of an action that had not acted: in particular the walk up the
    ancestors ends.  (When an action panics inside another operation, or outside
    the rules, the sums need not hold: [TrackerRun] has examples.) *)
Theorem trackers_add_up h own : reach h own ->
  (forall t tr, trackers h !! t = Some tr ->
    bytesConsumed tr = i64_wrap (own t + kids (trackers h) t) /\ bytesConsumed tr <= maxConsumed tr /\
    (isGlobal tr = false -> NoDup (t_children tr) /\
      forall c, c ∈ t_children tr <-> exists cr, trackers h !! c = Some cr /\ t_parent cr = Some t)) /\
  (forall op, top_ok h op -> returns (run_top op) h (fun h' => reach h' (own_after op h own))).
Proof.
  intros R. pose proof (reach_tracked h own R) as T. destruct T as [W S]. split.
  - intros t tr Et. destruct (wf_ranges _ W t tr Et) as (B & _ & Mx). split; [|split; [done|]].
    + apply eq64_i64; [done|apply i64_wrap_i64|]. rewrite i64_wrap_eq64. by apply S.
    + intros G. by apply (sh_children _ (wf_shape _ W) t tr).
  - intros op Ok_. destruct (ops_end h own op (conj W S) Ok_) as (h' & [(E & T')|P]); exists h'; [left|by right].
    split; [done|]. by eapply r_op.
Qed.

(** ** Search *)

(** The trackers of the tree under [t], by the lists of children. *)
Inductive below (ts : gmap Z Tracker) (t : Z) : Z -> Prop :=
| be_self : below ts t t
| be_child tr c d : ts !! t = Some tr -> c ∈ t_children tr -> below ts c d -> below ts t d.

Lemma search_children_spec ts label search h l :
  (forall c, c ∈ l -> match search c h with
     | (Ret (Some d), h') => h' = h /\ below ts c d /\ exists dr, ts !! d = Some dr /\ t_label dr = label
     | (Ret None, h') => h' = h /\ forall d dr, below ts c d -> ts !! d = Some dr -> t_label dr <> label
     | _ => False end) ->
  match search_children search l h with
  | (Ret (Some d), h') => h' = h /\ (exists c, c ∈ l /\ below ts c d) /\ exists dr, ts !! d = Some dr /\ t_label dr = label
  | (Ret None, h') => h' = h /\ forall c d dr, c ∈ l -> below ts c d -> ts !! d = Some dr -> t_label dr <> label
  | _ => False end.
Proof.
  induction l as [|c l IH]; intros F; [by split; [|intros c d dr []%elem_of_nil]|]. cbn [search_children].
  pose proof (F c ltac:(left)) as Fc. destruct (search c h) as [o h1] eqn:E. destruct o as [[d|]| | |]; try done.
  - destruct Fc as (-> & B & L). erewrite bind_Ret by exact E. split; [done|]. split; [|done]. exists c. split; [left|done].
  - destruct Fc as (-> & N). erewrite bind_Ret by exact E. specialize (IH ltac:(intros x Hx; apply F; by right)).
    destruct (search_children search l h) as [[[d|]| | |] h2]; try done.
    + destruct IH as (-> & (x & Hx & B) & L). split; [done|]. split; [|done]. exists x. split; [by right|done].
    + destruct IH as (-> & N2). split; [done|]. intros x d dr [->|Hx]%elem_of_cons; [by apply N|by eapply N2].
Qed.

(** The search ends, and finds a tracker of the tree with the label when there is
    one. *)
Lemma SearchTracker_finds h own t label : reach h own -> is_Some (trackers h !! t) ->
  match SearchTracker t label h with
  | (Ret (Some d), h') => h' = h /\ below (trackers h) t d /\ exists dr, trackers h !! d = Some dr /\ t_label dr = label
  | (Ret None, h') => h' = h /\ forall d dr, below (trackers h) t d -> trackers h !! d = Some dr -> t_label dr <> label
  | _ => False end.
Proof.
  intros R Ht. destruct (reach_tracked h own R) as [W _]. pose proof (wf_shape _ W) as Sh.
  unfold SearchTracker. erewrite bind_Ret by reflexivity.
  assert (G : forall fuel u l, chain (trackers h) (Some u) l -> (size (trackers h) < fuel + length l)%nat ->
    match search_tracker fuel label u h with
    | (Ret (Some d), h') => h' = h /\ below (trackers h) u d /\ exists dr, trackers h !! d = Some dr /\ t_label dr = label
    | (Ret None, h') => h' = h /\ forall d dr, below (trackers h) u d -> trackers h !! d = Some dr -> t_label dr <> label
    | _ => False end).
  { induction fuel as [|fuel IH]; intros u l C Lf; [pose proof (chain_size _ _ _ C); lia|]. cbn [search_tracker].
    inversion C as [|? ur l' Eu C']; subst. rewrite (bind_Ret _ _ _ _ _ (load_run u ur h Eu)). cbv beta.
    destruct (decide (t_label ur = label)) as [L|L].
    { split; [done|]. split; [constructor|by exists ur]. }
    pose proof (search_children_spec (trackers h) label (search_tracker fuel label) h (t_children ur)) as S.
    assert (F : forall c, c ∈ t_children ur -> exists cr, trackers h !! c = Some cr /\ t_parent cr = Some u).
    { intros c Hc. destruct (isGlobal ur) eqn:Gu; [rewrite (sh_global _ Sh _ _ Eu Gu) in Hc; by apply elem_of_nil in Hc|].
      by apply (sh_children _ Sh _ _ Eu Gu). }
    destruct (search_children _ _ _) as [o h2]. cut (match o with
      | Ret (Some d) => h2 = h /\ (exists c, c ∈ t_children ur /\ below (trackers h) c d) /\ exists dr, trackers h !! d = Some dr /\ t_label dr = label
      | Ret None => h2 = h /\ forall c d dr, c ∈ t_children ur -> below (trackers h) c d -> trackers h !! d = Some dr -> t_label dr <> label
      | _ => False end).
    { destruct o as [[d|]| | |]; try done.
      - intros (-> & (c & Hc & B) & Ld). split; [done|]. split; [by eapply be_child|done].
      - intros (-> & N). split; [done|]. intros d dr B. inversion B as [|? c ? E2 Hc B2]; subst; [congruence|].
        assert (tr = ur) as -> by congruence. by eapply N. }
    destruct o as [[d|]| | |]; apply S; intros c Hc; destruct (F c Hc) as (cr & Ec & Pc); apply (IH c (c :: u :: l')).
    all: try (econstructor; [exact Ec|rewrite Pc; exact C]).
    all: cbn [length] in *; lia. }
  destruct (sh_chain _ Sh t Ht) as [l C]. apply (G _ t l C). inversion C; subst. cbn [length]. lia.
Qed.
