(* ===== verification/TrackerRun.v ===== *)
(** * Trackers at work

    Calls of [Consume] that run at the same time; what goes wrong outside the
    rules of [TrackerTree.top_ok]; and concrete trackers. *)

From stdpp Require Import base gmap list option strings relations.
From Stdlib Require Import ZArith Lia.
From S2P Require Import Prelude External GoMonad Tracker TrackerTree.

Local Open Scope Z_scope.

(** ** Concurrent calls of [Consume]

    The loop of [Consume] as the atomic operations of a goroutine: the addition,
    and the loads and the compare-and-swap of the maximum. *)

Inductive pc : Type :=
| AtAdd (tracker : option Z) (rootExceed : option Z)
| AtLoadMax (t : Z) (rootExceed : option Z)
| AtLoadConsumed (t maxNow : Z) (rootExceed : option Z)
| AtSwap (t maxNow consumed : Z) (rootExceed : option Z)
| Finished (rootExceed : option Z).

Definition thread_step (bytes : Z) (ts : gmap Z Tracker) (p : pc) : option (gmap Z Tracker * pc) :=
  match p with
  | AtAdd None r => Some (ts, Finished r)
  | AtAdd (Some t) r =>
      tr ← ts !! t;
      let consumed := i64_wrap (bytesConsumed tr + bytes) in
      Some (<[t := set_consumed consumed (maxConsumed tr) tr]> ts,
        AtLoadMax t (if (bytesLimit tr <=? consumed) && (0 <? bytesLimit tr) then Some t else r))
  | AtLoadMax t r => tr ← ts !! t; Some (ts, AtLoadConsumed t (maxConsumed tr) r)
  | AtLoadConsumed t maxNow r =>
      tr ← ts !! t;
      Some (ts, if maxNow <? bytesConsumed tr then AtSwap t maxNow (bytesConsumed tr) r else AtAdd (t_parent tr) r)
  | AtSwap t maxNow consumed r =>
      tr ← ts !! t;
      if maxConsumed tr =? maxNow
      then Some (<[t := set_consumed (bytesConsumed tr) consumed tr]> ts, AtAdd (t_parent tr) r)
      else Some (ts, AtLoadMax t r)
  | Finished _ => None
  end.

(** Some goroutine makes a step. *)
Definition sched (s s' : gmap Z Tracker * list (Z * pc)) : Prop :=
  exists i bytes p p', s.2 !! i = Some (bytes, p) /\ thread_step bytes s.1 p = Some (s'.1, p') /\ s'.2 = <[i := (bytes, p')]> s.2.

Fixpoint total {A} (f : A -> Z) (l : list A) : Z := match l with [] => 0 | x :: l => f x + total f l end.

Lemma total_insert {A} (f : A -> Z) l i x y : l !! i = Some x -> total f (<[i := y]> l) = total f l - f x + f y.
Proof.
  revert i. induction l as [|z l IH]; intros [|i] E; [done|done|cbn in E; injection E as ->; cbn; lia|].
  change (<[S i := y]> (z :: l)) with (z :: <[i := y]> l). cbn [total]. rewrite (IH i E). lia.
Qed.

Lemma total_ext {A} (f g : A -> Z) l : (forall x, x ∈ l -> f x = g x) -> total f l = total g l.
Proof. induction l as [|x l IH]; intros F; [done|]. cbn. rewrite F by left. rewrite IH; [done|]. intros y Hy. apply F. by right. Qed.

(** The trackers that a goroutine has still to add to. *)
Definition remaining (ts : gmap Z Tracker) (p : pc) (l : list Z) : Prop :=
  match p with
  | AtAdd o _ => chain ts o l
  | AtLoadMax t _ | AtLoadConsumed t _ _ | AtSwap t _ _ _ => exists tr, ts !! t = Some tr /\ chain ts (t_parent tr) l
  | Finished _ => l = []
  end.

Definition adds (t : Z) (g : Z * pc * list Z) : Z := if decide (t ∈ g.2) then g.1.1 else 0.

(** The values that a goroutine carries. *)
Definition carries (ts : gmap Z Tracker) (p : pc) : Prop :=
  match p with
  | AtLoadConsumed t m _ => exists tr, ts !! t = Some tr /\ m <= maxConsumed tr
  | AtSwap t m c _ => m < c
  | _ => True
  end.

(** A goroutine that will see to the maximum of a tracker. *)
Definition watches (t : Z) (tr : Tracker) (p : pc) : Prop :=
  match p with
  | AtLoadMax u _ | AtLoadConsumed u _ _ => u = t
  | AtSwap u _ c _ => u = t /\ bytesConsumed tr <= c
  | _ => False
  end.

Record cinv (ts0 : gmap Z Tracker) (goal : Z -> Z) (ts : gmap Z Tracker) (gs : list (Z * pc * list Z)) : Prop := {
  ci_links t : links <$> ts !! t = links <$> ts0 !! t;
  ci_sum t tr : ts !! t = Some tr -> bytesConsumed tr + total (adds t) gs ≡64 goal t;
  ci_range t tr : ts !! t = Some tr -> i64 (bytesConsumed tr);
  ci_mono t tr tr0 : ts !! t = Some tr -> ts0 !! t = Some tr0 -> maxConsumed tr0 <= maxConsumed tr;
  ci_max t tr : ts !! t = Some tr -> bytesConsumed tr <= maxConsumed tr \/ exists g, g ∈ gs /\ watches t tr g.1.2;
  ci_carries g : g ∈ gs -> carries ts g.1.2;
  ci_remaining g : g ∈ gs -> remaining ts g.1.2 g.2;
}.

(** What one step does, seen from the other goroutines. *)
Record local (n : Z) (ts ts' : gmap Z Tracker) (p p' : pc) (l l' : list Z) : Prop := {
  lo_links t : links <$> ts' !! t = links <$> ts !! t;
  lo_sum t tr tr' : ts !! t = Some tr -> ts' !! t = Some tr' ->
    bytesConsumed tr' + (if decide (t ∈ l') then n else 0) ≡64 bytesConsumed tr + (if decide (t ∈ l) then n else 0);
  lo_range t tr tr' : ts !! t = Some tr -> ts' !! t = Some tr' -> i64 (bytesConsumed tr) -> i64 (bytesConsumed tr');
  lo_mono t tr tr' : ts !! t = Some tr -> ts' !! t = Some tr' -> maxConsumed tr <= maxConsumed tr';
  lo_max t tr tr' : ts !! t = Some tr -> ts' !! t = Some tr' -> bytesConsumed tr' <= maxConsumed tr' \/ watches t tr' p' \/
    (bytesConsumed tr' = bytesConsumed tr /\ ~ watches t tr p);
  lo_carries : carries ts' p';
  lo_remaining : remaining ts' p' l';
}.

Lemma local_same n ts p p' l l' : carries ts p' -> remaining ts p' l' -> (forall t, t ∈ l' <-> t ∈ l) ->
  (forall t tr, ts !! t = Some tr -> watches t tr p -> bytesConsumed tr <= maxConsumed tr \/ watches t tr p') ->
  local n ts ts p p' l l'.
Proof.
  intros C R L W. split; [done| | | | |done|done].
  - intros t tr tr' E E'. assert (tr' = tr) as -> by congruence. destruct (decide (t ∈ l)) as [H|H].
    + by rewrite decide_True by by apply L.
    + by rewrite decide_False by by rewrite L.
  - intros t tr tr' E E'. by assert (tr' = tr) as -> by congruence.
  - intros t tr tr' E E'. by assert (tr' = tr) as -> by congruence.
  - intros t tr tr' E E'. assert (tr' = tr) as -> by congruence.
    assert (watches t tr p \/ ~ watches t tr p) as [Wp|Nw].
    { destruct p as [o r|u r|u m r|u m c r|r]; cbn; try tauto; try (destruct (decide (u = t)); tauto).
      destruct (decide (u = t)), (decide (bytesConsumed tr <= c)); tauto. }
    + destruct (W t tr E Wp); [by left|by right; left].
    + right. right. done.
Qed.

(** One tracker's counters change. *)
Lemma links_counters (ts : gmap Z Tracker) t tr c m u : ts !! t = Some tr ->
  links <$> <[t := set_consumed c m tr]> ts !! u = links <$> ts !! u.
Proof. intros E. destruct (decide (u = t)) as [->|]; [by rewrite lookup_insert_eq, E|by rewrite lookup_insert_ne]. Qed.

Lemma lookup_one (ts : gmap Z Tracker) t tr tr1 u ur ur' : ts !! t = Some tr -> ts !! u = Some ur -> <[t := tr1]> ts !! u = Some ur' ->
  (u = t /\ ur = tr /\ ur' = tr1) \/ (u <> t /\ ur' = ur).
Proof.
  intros E Eu Eu'. destruct (decide (u = t)) as [->|Ne]; [left|right].
  - rewrite lookup_insert_eq in Eu'. split; [done|]. split; congruence.
  - rewrite lookup_insert_ne in Eu' by done. split; [done|congruence].
Qed.

(** The addition: the maximum is now to be seen to. *)
Lemma add_local n ts t tr r r' l : ts !! t = Some tr -> chain ts (t_parent tr) l -> t ∉ l ->
  local n ts (<[t := set_consumed (i64_wrap (bytesConsumed tr + n)) (maxConsumed tr) tr]> ts) (AtAdd (Some t) r) (AtLoadMax t r') (t :: l) l.
Proof.
  intros E R Nt. split.
  - intros u. by apply links_counters.
  - intros u ur ur' Eu Eu'. destruct (lookup_one _ _ _ _ _ _ _ E Eu Eu') as [(-> & -> & ->)|(Ne & ->)].
    + cbn [bytesConsumed set_consumed]. rewrite decide_False by done. rewrite decide_True by left. rewrite Z.add_0_r. apply i64_wrap_eq64.
    + destruct (decide (u ∈ l)) as [H|H]; [by rewrite decide_True by by right|]. by rewrite decide_False by by rewrite not_elem_of_cons.
  - intros u ur ur' Eu Eu'. destruct (lookup_one _ _ _ _ _ _ _ E Eu Eu') as [(-> & -> & ->)|(Ne & ->)]; [|done]. intros _. apply i64_wrap_i64.
  - intros u ur ur' Eu Eu'. destruct (lookup_one _ _ _ _ _ _ _ E Eu Eu') as [(-> & -> & ->)|(Ne & ->)]; cbn; lia.
  - intros u ur ur' Eu Eu'. destruct (lookup_one _ _ _ _ _ _ _ E Eu Eu') as [(-> & -> & ->)|(Ne & ->)]; [right; by left|]. right. right.
    split; [done|by intros []].
  - done.
  - exists (set_consumed (i64_wrap (bytesConsumed tr + n)) (maxConsumed tr) tr). rewrite lookup_insert_eq. split; [done|].
    eapply chain_links; [|exact R]. intros u. by apply links_counters.
Qed.

(** The compare-and-swap that succeeds. *)
Lemma swap_local n ts t tr c r l : ts !! t = Some tr -> maxConsumed tr < c -> chain ts (t_parent tr) l ->
  local n ts (<[t := set_consumed (bytesConsumed tr) c tr]> ts) (AtSwap t (maxConsumed tr) c r) (AtAdd (t_parent tr) r) l l.
Proof.
  intros E Lc R. split.
  - intros u. by apply links_counters.
  - intros u ur ur' Eu Eu'. by destruct (lookup_one _ _ _ _ _ _ _ E Eu Eu') as [(-> & -> & ->)|(Ne & ->)].
  - intros u ur ur' Eu Eu'. by destruct (lookup_one _ _ _ _ _ _ _ E Eu Eu') as [(-> & -> & ->)|(Ne & ->)].
  - intros u ur ur' Eu Eu'. destruct (lookup_one _ _ _ _ _ _ _ E Eu Eu') as [(-> & -> & ->)|(Ne & ->)]; cbn; lia.
  - intros u ur ur' Eu Eu'. destruct (lookup_one _ _ _ _ _ _ _ E Eu Eu') as [(-> & -> & ->)|(Ne & ->)]; cbn.
    + destruct (decide (bytesConsumed tr <= c)); [by left|]. right. right. split; [done|tauto].
    + right. right. split; [done|]. intros [-> _]. done.
  - done.
  - cbn. eapply chain_links; [|exact R]. intros u. by apply links_counters.
Qed.

Lemma step_local n ts p ts' p' l : thread_step n ts p = Some (ts', p') -> carries ts p -> remaining ts p l ->
  exists l', local n ts ts' p p' l l'.
Proof.
  intros St C R. destruct p as [[t|] r|t r|t m r|t m c r|r]; cbn in St.
  - destruct (ts !! t) as [tr|] eqn:E; cbn in St; [|done]. injection St as <- <-. cbn in R. pose proof (chain_NoDup _ _ _ R) as Nd.
    inversion R as [|? tr0 l' E0 R']; subst. assert (tr0 = tr) as -> by congruence. apply NoDup_cons in Nd as [Nt _].
    exists l'. by apply add_local.
  - injection St as <- <-. exists l. inversion R; subst. apply local_same; [done|done|done|]. by intros ? ? ? [].
  - destruct (ts !! t) as [tr|] eqn:E; cbn in St; [|done]. injection St as <- <-. exists l. apply local_same; [|done|done|].
    + exists tr. split; [done|lia].
    + intros u ur Eu Wu. by right.
  - destruct C as (tr & E & Lm). rewrite E in St. cbn in St. injection St as <- <-. exists l. destruct R as (tr0 & E0 & R).
    assert (tr0 = tr) as -> by congruence. destruct (Z.ltb_spec m (bytesConsumed tr)).
    + apply local_same; [done|by exists tr|done|]. intros u ur Eu Wu. cbn in Wu. subst u. assert (ur = tr) as -> by congruence. right. cbn. lia.
    + apply local_same; [done|done|done|]. intros u ur Eu Wu. cbn in Wu. subst u. assert (ur = tr) as -> by congruence. left. lia.
  - destruct R as (tr & E & R). rewrite E in St. cbn in St, C. destruct (Z.eqb_spec (maxConsumed tr) m) as [<-|Nm].
    + injection St as <- <-. exists l. by apply swap_local.
    + injection St as <- <-. exists l. apply local_same; [done|by exists tr|done|]. intros u ur Eu [-> Wu]. by right.
  - done.
Qed.

Lemma links_some (ts ts' : gmap Z Tracker) t tr : (forall t, links <$> ts' !! t = links <$> ts !! t) -> ts !! t = Some tr ->
  exists tr', ts' !! t = Some tr' /\ t_parent tr' = t_parent tr.
Proof. intros L E. specialize (L t). rewrite E in L. apply fmap_Some in L as (tr' & E' & [= P _ _]). by exists tr'. Qed.

(** The step of a goroutine, seen by another. *)
Lemma others_step n ts ts' p p' l l' q k : local n ts ts' p p' l l' -> carries ts q -> remaining ts q k ->
  carries ts' q /\ remaining ts' q k.
Proof.
  intros Lo C R. pose proof (lo_links _ _ _ _ _ _ _ Lo) as L. split.
  - destruct q; try done. destruct C as (tr & E & Lm). destruct (links_some _ _ _ _ L E) as (tr' & E' & _). exists tr'. split; [done|].
    pose proof (lo_mono _ _ _ _ _ _ _ Lo _ _ _ E E'). lia.
  - destruct q; cbn in *; try done; [by eapply chain_links|..].
    all: destruct R as (tr & E & R); destruct (links_some _ _ _ _ L E) as (tr' & E' & P); exists tr'; split; [done|].
    all: rewrite P; by eapply chain_links.
Qed.

Lemma cinv_step ts0 goal ts gs i n p l ts' p' : cinv ts0 goal ts gs -> gs !! i = Some (n, p, l) -> thread_step n ts p = Some (ts', p') ->
  exists l', cinv ts0 goal ts' (<[i := (n, p', l')]> gs).
Proof.
  intros [Ln Su Ra Mo Ma Ca Re] Ei St. pose proof (list_elem_of_lookup_2 _ _ _ Ei) as Hi.
  destruct (step_local n ts p ts' p' l St (Ca _ Hi) (Re _ Hi)) as [l' Lo]. exists l'.
  assert (Back : forall t tr', ts' !! t = Some tr' -> exists tr, ts !! t = Some tr).
  { intros t tr' E. pose proof (lo_links _ _ _ _ _ _ _ Lo t) as L. rewrite E in L. destruct (ts !! t) as [tr|]; [by exists tr|done]. }
  assert (Elem : forall g, g ∈ <[i := (n, p', l')]> gs -> g = (n, p', l') \/ g ∈ gs).
  { intros g [j Ej]%list_elem_of_lookup. apply list_lookup_insert_Some in Ej as [(-> & <- & _)|[_ Ej]]; [by left|right]. by eapply list_elem_of_lookup_2. }
  split.
  - intros t. by rewrite (lo_links _ _ _ _ _ _ _ Lo).
  - intros t tr' E'. destruct (Back _ _ E') as [tr E]. rewrite (total_insert _ _ _ _ _ Ei). unfold adds at 2 3. cbn [fst snd].
    pose proof (lo_sum _ _ _ _ _ _ _ Lo t tr tr' E E') as S1. pose proof (Su t tr E) as S0.
    set (a := if decide (t ∈ l) then n else 0) in *. set (a' := if decide (t ∈ l') then n else 0) in *. set (T := total (adds t) gs) in *.
    transitivity (bytesConsumed tr' + a' + (T - a)); [eq64_lia|]. rewrite S1. transitivity (bytesConsumed tr + T); [eq64_lia|done].
  - intros t tr' E'. destruct (Back _ _ E') as [tr E]. eapply (lo_range _ _ _ _ _ _ _ Lo); [exact E|exact E'|]. by apply (Ra t).
  - intros t tr' tr0 E' E0. destruct (Back _ _ E') as [tr E]. pose proof (Mo t tr tr0 E E0). pose proof (lo_mono _ _ _ _ _ _ _ Lo t tr tr' E E'). lia.
  - intros t tr' E'. destruct (Back _ _ E') as [tr E]. assert (Hn : (n, p', l') ∈ <[i := (n, p', l')]> gs).
    { apply (list_elem_of_lookup_2 _ i). apply list_lookup_insert_eq. by eapply lookup_lt_Some. }
    destruct (lo_max _ _ _ _ _ _ _ Lo t tr tr' E E') as [H|[H|[Eb Nw]]]; [by left|right; by exists (n, p', l')|].
    destruct (Ma t tr E) as [H|(g & Hg & Wg)].
    + left. pose proof (lo_mono _ _ _ _ _ _ _ Lo t tr tr' E E'). lia.
    + right. exists g. apply list_elem_of_lookup in Hg as [j Ej]. assert (j <> i).
      { intros ->. assert (g = (n, p, l)) as -> by congruence. done. }
      split; [apply (list_elem_of_lookup_2 _ j); by rewrite list_lookup_insert_ne|]. destruct g as [[gn gp] gl]. cbn in *.
      destruct gp; cbn in *; try done. by rewrite Eb.
  - intros g [->|Hg]%Elem; [by apply (lo_carries _ _ _ _ _ _ _ Lo)|]. by eapply (others_step n ts ts' p p' l l'); [|apply Ca|apply Re].
  - intros g [->|Hg]%Elem; [by apply (lo_remaining _ _ _ _ _ _ _ Lo)|]. by eapply (others_step n ts ts' p p' l l'); [|apply Ca|apply Re].
Qed.

(** A goroutine that calls [Consume] on a tracker. *)
Definition called (c : Z * Z) : Z * pc := (c.2, AtAdd (Some c.1) None).

(** The bytes of the calls on [t] and below it. *)
Definition charged (t : Z) (cls : list (Z * Z * list Z)) : Z := total (fun cl => if decide (t ∈ cl.2) then cl.1.2 else 0) cls.

Definition charged_up (ts : gmap Z Tracker) (cls : list (Z * Z * list Z)) (t : Z) : Z :=
  match ts !! t with Some tr => bytesConsumed tr + charged t cls | None => 0 end.

Lemma cinv_start h calls ls : wf h -> Forall2 (fun c l => chain (trackers h) (Some c.1) l) calls ls ->
  cinv (trackers h) (charged_up (trackers h) (zip calls ls)) (trackers h) (zip (called <$> calls) ls).
Proof.
  intros W Hls. split; try done.
  - intros t tr E. unfold charged_up. rewrite E.
    assert (total (adds t) (zip (called <$> calls) ls) = charged t (zip calls ls)) as ->; [|done].
    clear -Hls. induction Hls as [|c l calls ls]; [done|]. cbn. by rewrite IHHls.
  - intros t tr E. by apply (wf_ranges _ W t).
  - intros t tr tr0 E E0. by assert (tr0 = tr) as -> by congruence.
  - intros t tr E. left. by apply (wf_ranges _ W t).
  - intros [[n p] l] Hg. apply elem_of_zip_l in Hg. apply list_elem_of_fmap in Hg as (c & [= -> ->] & _). done.
  - clear -Hls. induction Hls as [|c l calls ls Hc]; [by intros g ?%elem_of_nil|]. intros g [->|Hg]%elem_of_cons; [done|]. by apply IHHls.
Qed.

Lemma cinv_run ts0 goal s s' gs : rtc sched s s' -> cinv ts0 goal s.1 gs -> s.2 = gs.*1 ->
  exists gs', cinv ts0 goal s'.1 gs' /\ s'.2 = gs'.*1.
Proof.
  intros Run. revert gs. induction Run as [s|s s2 s3 (i & n & p & p' & Ei & St & Ep) _ IH]; intros gs I Eg; [by exists gs|].
  rewrite Eg, list_lookup_fmap in Ei. destruct (gs !! i) as [[[gn gp] gl]|] eqn:Egi; [|done].
  injection Ei as -> ->. destruct (cinv_step _ _ _ _ _ _ _ _ _ _ I Egi St) as [l' I'].
  apply (IH _ I'). by rewrite Ep, Eg, list_fmap_insert.
Qed.

(** Goroutines that have finished have nothing to add and watch nothing. *)
Lemma cinv_finished ts0 goal ts gs : cinv ts0 goal ts gs -> (forall n p, (n, p) ∈ gs.*1 -> exists r, p = Finished r) ->
  forall t tr, ts !! t = Some tr -> bytesConsumed tr ≡64 goal t /\ bytesConsumed tr <= maxConsumed tr.
Proof.
  intros [Ln Su Ra Mo Ma Ca Re] Fin t tr E.
  assert (Done_ : forall g, g ∈ gs -> exists r, g.1.2 = Finished r).
  { intros [[n p] l] Hg. apply (Fin n). apply list_elem_of_fmap. by exists (n, p, l). }
  assert (T0 : total (adds t) gs = 0).
  { rewrite (total_ext _ (fun _ => 0)); [clear; induction gs; [done|by cbn]|]. intros g Hg. destruct (Done_ g Hg) as [r Er].
    pose proof (Re g Hg) as Rg. rewrite Er in Rg. cbn in Rg. unfold adds. rewrite Rg. by rewrite decide_False by apply not_elem_of_nil. }
  split; [pose proof (Su t tr E) as S; by rewrite T0, Z.add_0_r in S|].
  destruct (Ma t tr E) as [|(g & Hg & Wg)]; [done|]. destruct (Done_ g Hg) as [r Er]. by rewrite Er in Wg.
Qed.

(** C23: Goroutines that call [Consume] at the same time on trackers of a tree:
    whatever the order of their atomic operations, when all of them have
    finished every tracker has consumed what it had and the bytes of every call
    that it is an ancestor of, as after the calls one by one; no update is lost;
    its maximum did not go down and is at least what it has consumed; and the
    tree is as it was. *)
Theorem Consume_interleaved h own calls ts' ths : reach h own -> Forall (fun c => is_Some (trackers h !! c.1)) calls ->
  rtc sched (trackers h, called <$> calls) (ts', ths) -> (forall n p, (n, p) ∈ ths -> exists r, p = Finished r) ->
  exists ls, Forall2 (fun c l => chain (trackers h) (Some c.1) l) calls ls /\
    forall t tr, trackers h !! t = Some tr -> exists tr', ts' !! t = Some tr' /\ links tr' = links tr /\
      bytesConsumed tr' = i64_wrap (bytesConsumed tr + charged t (zip calls ls)) /\
      bytesConsumed tr' <= maxConsumed tr' /\ maxConsumed tr <= maxConsumed tr'.
Proof.
  intros R Known Run Fin. destruct (reach_tracked h own R) as [W _].
  assert (exists ls, Forall2 (fun c l => chain (trackers h) (Some c.1) l) calls ls) as [ls Hls].
  { clear -Known W. induction Known as [|c calls Hc _ [ls IH]]; [by exists []|].
    destruct (sh_chain _ (wf_shape _ W) c.1 Hc) as [l Cl]. exists (l :: ls). by constructor. }
  exists ls. split; [done|].
  destruct (cinv_run _ _ _ _ _ Run (cinv_start h calls ls W Hls)) as (gs & I & Eg).
  { cbn [snd]. rewrite fst_zip; [done|]. rewrite length_fmap. by rewrite (Forall2_length _ _ _ Hls). }
  cbn [fst snd] in I, Eg. subst ths. intros t tr E. pose proof (ci_links _ _ _ _ I t) as Ln. rewrite E in Ln.
  apply fmap_Some in Ln as (tr' & E' & El). exists tr'. split; [done|]. split; [done|].
  destruct (cinv_finished _ _ _ _ I Fin t tr' E') as [Su Mx]. split; [|split; [done|by apply (ci_mono _ _ _ _ I t)]].
  apply eq64_i64; [by apply (ci_range _ _ _ _ I t)|apply i64_wrap_i64|]. rewrite i64_wrap_eq64, Su. unfold charged_up. by rewrite E.
Qed.

(** ** Concrete trackers *)

Module TrackerEx.
(** A root with a limit of 100 bytes, a child, and a global tracker. *)
Definition h0 : mem := MkMem 1 ∅ ∅ [].

Fixpoint run_ops (ops : list top) (h : mem) : out unit * mem :=
  match ops with
  | [] => (Ret tt, h)
  | op :: ops => match run_top op h with (Ret _, h') => run_ops ops h' | r => r end
  end.

Definition setup : list top := [ONew false "root" 100; ONew false "query" (-1); OConsume 4 30].
Definition h1 : mem := (run_ops setup h0).2.
Definition h2 : mem := (run_top (OAttachTo 4 2) h1).2.

Definition own1 : Z -> Z := own_add 4 30 (own_after (ONew false "query" (-1)) (run_top (ONew false "root" 100) h0).2
  (own_after (ONew false "root" 100) h0 (fun _ => 0))).

Lemma h1_reached : reach h1 own1.
Proof.
  pose proof (r_op _ _ (ONew false "root" 100) _ (r_start 1) I eq_refl) as R1.
  pose proof (r_op _ _ (ONew false "query" (-1)) _ R1 I eq_refl) as R2.
  refine (r_op _ _ (OConsume 4 30) _ R2 _ eq_refl). by eexists.
Qed.

Lemma attach_ok : top_ok h1 (OAttachTo 4 2).
Proof.
  split; [|split].
  - eexists. split; [reflexivity|]. done.
  - eexists. split; reflexivity.
  - intros l C. inversion C as [|? tr l' E C']; subst. injection E as <-. inversion C'; subst.
    intros H%list_elem_of_singleton. done.
Qed.

Lemma h2_reached : reach h2 own1.
Proof. exact (r_op h1 own1 (OAttachTo 4 2) h2 h1_reached attach_ok eq_refl). Qed.

(** Two goroutines, one on each tracker, step by step. *)
Definition sched_at (i : nat) (s : gmap Z Tracker * list (Z * pc)) : option (gmap Z Tracker * list (Z * pc)) :=
  '(n, p) ← s.2 !! i;
  '(ts', p') ← thread_step n s.1 p;
  Some (ts', <[i := (n, p')]> s.2).

Fixpoint sched_all (l : list nat) (s : gmap Z Tracker * list (Z * pc)) : option (gmap Z Tracker * list (Z * pc)) :=
  match l with [] => Some s | i :: l => sched_at i s ≫= sched_all l end.

Lemma sched_all_rtc l s s' : sched_all l s = Some s' -> rtc sched s s'.
Proof.
  revert s. induction l as [|i l IH]; intros s E; cbn in E; [injection E as ->; apply rtc_refl|].
  destruct (sched_at i s) as [s1|] eqn:E1; [|done]. eapply rtc_l; [|by apply IH].
  unfold sched_at in E1. destruct (s.2 !! i) as [[n p]|] eqn:Ei; [|done]. cbn in E1.
  destruct (thread_step n s.1 p) as [[ts p']|] eqn:Es; [|done]. injection E1 as <-. by exists i, n, p, p'.
Qed.

Definition calls : list (Z * Z) := [(4, 50); (2, 7)].
(** The swap of the second one fails once. *)
Definition order : list nat := [0; 0; 0; 0; 0; 1; 1; 0; 0; 1; 0; 1; 1; 1; 1; 0]%nat.
Definition ended : gmap Z Tracker * list (Z * pc) := default (∅, []) (sched_all order (trackers h2, called <$> calls)).

Lemma ran : rtc sched (trackers h2, called <$> calls) (ended.1, ended.2).
Proof. apply (sched_all_rtc order). vm_compute. reflexivity. Qed.

(** ** Outside the rules *)

(** A tracker that is attached to another one while its parent is global stays
    among what the global one has consumed: [remove] looks for it in a list in
    which it is not. *)
Definition moved_away : mem :=
  (run_ops [ONewAction LogOnExceed 0 None; ONew true "global" (-1); OAttachToGlobal 4 (Some 7); OAttachTo 4 2] h1).2.

Example global_keeps_counting :
  (run_ops [ONewAction LogOnExceed 0 None; ONew true "global" (-1); OAttachToGlobal 4 (Some 7); OAttachTo 4 2] h1).1 = Ret tt /\
  t_parent <$> trackers moved_away !! 4 = Some (Some 2) /\
  bytesConsumed <$> trackers moved_away !! 7 = Some 30 /\ kids (trackers moved_away) 7 = 0.
Proof. by vm_compute. Qed.

(** A new child in the place of one that is not a child: the parent counts it,
    but neither [Detach] nor [remove] finds it again. *)
Definition half_attached : mem := (run_ops [OReplace 2 9 (Some 4); ODetach 4] h1).2.

Example replaced_unknown :
  (run_ops [OReplace 2 9 (Some 4); ODetach 4] h1).1 = Ret tt /\
  t_parent <$> trackers half_attached !! 4 = Some None /\
  bytesConsumed <$> trackers half_attached !! 2 = Some 30 /\ kids (trackers half_attached) 2 = 0.
Proof. by vm_compute. Qed.

(** Within the rules: when the parent still exceeds its limit without the child,
    the action of the parent runs in the middle of the removal; if it panics, the
    child is still in the list and its bytes are gone, and the next [Detach] takes
    them away again. *)
Definition over : mem :=
  (run_ops [OAttachTo 4 2; OConsume 2 15; ONewAction PanicOnExceed 1 None; OAction 2 (Some 5); OLimit 2 10] h1).2.
Definition halfway : mem := (run_top (ODetach 4) over).2.

Example detach_panics :
  (run_top (ODetach 4) over).1 = Panic /\ t_children <$> trackers halfway !! 2 = Some [4] /\
  bytesConsumed <$> trackers halfway !! 2 = Some 15 /\ kids (trackers halfway) 2 = 30 /\
  bytesConsumed <$> trackers (run_top (ODetach 4) halfway).2 !! 2 = Some (-15).
Proof. by vm_compute. Qed.
End TrackerEx.

Lemma trackers_add_up_witness :
  (bytesConsumed <$> trackers TrackerEx.h2 !! 2 = Some 30) /\
  returns (run_top (ODetach 4)) TrackerEx.h2 (fun h' => reach h' (own_after (ODetach 4) TrackerEx.h2 TrackerEx.own1)).
Proof.
  split; [reflexivity|]. apply (proj2 (trackers_add_up TrackerEx.h2 TrackerEx.own1 TrackerEx.h2_reached)).
  eexists. split; [reflexivity|]. intros q qr [= <-] [= <-]. done.
Defined.

Lemma Consume_interleaved_witness :
  exists ls, Forall2 (fun c l => chain (trackers TrackerEx.h2) (Some c.1) l) TrackerEx.calls ls /\
    exists tr, TrackerEx.ended.1 !! 2 = Some tr /\ bytesConsumed tr = 87 /\ bytesConsumed tr <= maxConsumed tr.
Proof.
  destruct (Consume_interleaved TrackerEx.h2 TrackerEx.own1 TrackerEx.calls TrackerEx.ended.1 TrackerEx.ended.2
    TrackerEx.h2_reached) as (ls & Hls & C).
  - repeat constructor; by eexists.
  - exact TrackerEx.ran.
  - intros n p H. vm_compute in H. repeat (apply elem_of_cons in H as [[= -> ->]|H]; [by eexists|]). by apply elem_of_nil in H.
  - exists ls. split; [exact Hls|]. destruct (C 2 _ eq_refl) as (tr & E & _ & _ & Mx & _). exists tr. split; [exact E|].
    split; [|exact Mx]. vm_compute in E. by injection E as <-.
Defined.
