(* ===== verification/Bind.v ===== *)
(** * Plan bindings (spacetime/table/cache.go, handle.go)

    A binding tells the optimizer to plan a statement as another text of it
    says.  The bindings are rows of a system table; every server keeps a cache
    of them, which it brings up to date from the rows that are newer than the
    newest it has seen.

    Records of bindings are shared by pointers, but nothing is written into a
    record once it is in the cache: a record is a value here.  The operations of
    the cache write into copies of its slices, and the new cache is published at
    the end: it is a value too.  The capture of bindings from the statements that
    ran and the evolution of plans, which run statements and measure their time,
    are left out, and so are the metrics.  A record that a caller passes gets its
    hints and times in place in the code, and is a result here; after a panic
    inside a load, whose deferred function publishes what it has so far, the cache
    here is the old one, and no theorem looks at that state. *)

From stdpp Require Import base gmap list option strings.
From Stdlib Require Import ZArith Lia Ascii.
From S2P Require Import Prelude External GoMonad.

Local Open Scope Z_scope.

(** A row of the table, as the query of [UFIDelate] selects it. *)
Record BindRow (Time : Type) : Type := MkRow {
  r_original_sql : string; r_bind_sql : string; r_default_db : string; r_status : string;
  r_create_time : Time; r_update_time : Time; r_charset : string; r_collation : string; r_source : string;
}.
Arguments MkRow {Time} _ _ _ _ _ _ _ _ _.
Arguments r_original_sql {Time} _.
Arguments r_bind_sql {Time} _.
Arguments r_default_db {Time} _.
Arguments r_status {Time} _.
Arguments r_create_time {Time} _.
Arguments r_update_time {Time} _.
Arguments r_charset {Time} _.
Arguments r_collation {Time} _.
Arguments r_source {Time} _.

(** ** Packages outside the repository

    The session, which executes statements in text, and its transaction; the
    digest of a statement and the parser of hints; times and their text. *)

Class BindPkgs : Type := {
  Time : Type;
  Compare : Time -> Time -> Z;
  ZeroTimestamp : Time;
  TimeString : Time -> string;
  TimeFromTS : Z -> Time;
  Quote : string -> string;
  DigestNormalized : string -> string;
  HintsSet : Type;
  ParseHintsSet : string -> string -> string -> string -> res (HintsSet * list goerror);
  HintsRestore : HintsSet -> res string;
  Session : Type;
  RecordSet : Type;
  ExecuteInternal : string -> M Session (list RecordSet);
  FirstString : RecordSet -> out string;
  StartTS : Session -> res Z;
  UsePlanBaselines : Session -> bool;
  set_UsePlanBaselines : bool -> Session -> Session;
  set_CurrentDB : string -> Session -> Session;
  ExecRestrictedALLEGROSQL : string -> Session -> res (list (BindRow Time));
}.

(** The statuses of bindings that the code here gives and tests. *)
Definition Using : string := "using".
Definition deleted : string := "deleted".
Definition PendingVerify : string := "pending verify".

Section bind.
Context `{BindPkgs}.

Record Binding : Type := MkBinding {
  BindSQL : string;
  Status : string;
  CreateTime : Time;
  UFIDelateTime : Time;
  Source : string;
  Charset : string;
  DefCauslation : string;
  Hint : option HintsSet;
  ID : string;
}.

Record BindRecord : Type := MkRecord {
  OriginalSQL : string;
  EDB : string;
  Bindings : list Binding;
}.

(** ** Records of bindings *)

Definition empty (s : string) : bool := bool_decide (s = EmptyString).

Definition binding_isSame (b rb : Binding) : bool :=
  if negb (empty (ID b)) && negb (empty (ID rb)) then bool_decide (ID b = ID rb)
  else bool_decide (BindSQL b = BindSQL rb).

Definition HasUsingBinding (br : BindRecord) : bool := existsb (fun b => bool_decide (Status b = Using)) (Bindings br).

Definition FindBinding (br : BindRecord) (hint : string) : option Binding :=
  List.find (fun b => bool_decide (ID b = hint)) (Bindings br).

(** Every binding of [l] in turn takes the place of the first one of [old] that
    is the same, in [result], unless it is older; or it is appended.  [old] are
    the first bindings of [result] as they were. *)
Fixpoint same_index (old : list Binding) (rb : Binding) : option nat :=
  match old with
  | [] => None
  | lb :: old => if binding_isSame lb rb then Some 0%nat else S <$> same_index old rb
  end.

Fixpoint merge_bindings (old result l : list Binding) : list Binding :=
  match l with
  | [] => result
  | rb :: l =>
      let result :=
        match same_index old rb with
        | Some j =>
            match old !! j with
            | Some lb => if 0 <=? Compare (UFIDelateTime rb) (UFIDelateTime lb) then <[j := rb]> result else result
            | None => result
            end
        | None => result ++ [rb]
        end in
      merge_bindings old result l
  end.

Definition bind_merge (l r : option BindRecord) : option BindRecord :=
  match l, r with
  | None, r => r
  | l, None => l
  | Some l, Some r => Some (MkRecord (OriginalSQL l) (EDB l) (merge_bindings (Bindings l) (Bindings l) (Bindings r)))
  end.

Fixpoint remove_bindings (result l : list Binding) : list Binding :=
  match l with
  | [] => result
  | db :: l => remove_bindings (match same_index result db with Some i => delete i result | None => result end) l
  end.

Definition record_remove (br del : BindRecord) : BindRecord :=
  match Bindings del with
  | [] => MkRecord (OriginalSQL br) (EDB br) []
  | l => MkRecord (OriginalSQL br) (EDB br) (remove_bindings (Bindings br) l)
  end.

Definition removeDeletedBindings (br : BindRecord) : BindRecord :=
  MkRecord (OriginalSQL br) (EDB br) (filter (fun b => Status b <> deleted) (Bindings br)).

Definition record_isSame (br other : BindRecord) : bool :=
  bool_decide (OriginalSQL br = OriginalSQL other) && bool_decide (EDB br = EDB other).

(** ** The cache *)

Definition cache : Type := gmap string (list BindRecord).

Fixpoint find_record (l : list BindRecord) (sql db : string) : option BindRecord :=
  match l with
  | [] => None
  | br :: l => if bool_decide (OriginalSQL br = sql) && bool_decide (EDB br = db) then Some br else find_record l sql db
  end.

Definition getBindRecord (c : cache) (hash sql db : string) : option BindRecord :=
  find_record (default [] (c !! hash)) sql db.

Fixpoint set_record (l : list BindRecord) (meta : BindRecord) : list BindRecord :=
  match l with
  | [] => [meta]
  | br :: l =>
      if bool_decide (EDB br = EDB meta) && bool_decide (OriginalSQL br = OriginalSQL meta) then meta :: l
      else br :: set_record l meta
  end.

Definition setBindRecord (c : cache) (hash : string) (meta : BindRecord) : cache :=
  <[hash := set_record (default [] (c !! hash)) meta]> c.

(** From the last index, [n] - 1, down; [None] when no record is left. *)
Fixpoint remove_loop (n : nat) (metas : list BindRecord) (meta : BindRecord) : option (list BindRecord) :=
  match n with
  | O => Some metas
  | S i =>
      match metas !! i with
      | Some br =>
          if record_isSame br meta then
            let br := record_remove br meta in
            let metas := if bool_decide (Bindings br = []) then delete i metas else <[i := br]> metas in
            if bool_decide (metas = []) then None else remove_loop i metas meta
          else remove_loop i metas meta
      | None => remove_loop i metas meta
      end
  end.

Definition removeDeletedBindRecord (c : cache) (hash : string) (meta : BindRecord) : cache :=
  match c !! hash with
  | None => c
  | Some metas =>
      match remove_loop (length metas) metas meta with
      | None => delete hash c
      | Some metas => <[hash := metas]> c
      end
  end.

(** ** The handle *)

(** A change that waits to be written to the store; no time until it was. *)
Record bindRecordUFIDelate : Type := MkUpdate { bu_record : BindRecord; bu_time : option Z }.

Record BindHandle : Type := MkHandle {
  h_sctx : Session;
  bindInfo : cache;
  lastUFIDelateTime : Time;
  invalidBindRecordMap : gmap string bindRecordUFIDelate;
  pendingVerifyBindRecordMap : gmap string bindRecordUFIDelate;
  h_reads : nat;
}.

(** [time.Now()], by the number of the call, in nanoseconds; the order of a
    range over a map. *)
Context (clock : nat -> Z).
Context (range_updates : gmap string bindRecordUFIDelate -> list (string * bindRecordUFIDelate)).

Definition set_sctx (s : Session) (h : BindHandle) : BindHandle :=
  MkHandle s (bindInfo h) (lastUFIDelateTime h) (invalidBindRecordMap h) (pendingVerifyBindRecordMap h) (h_reads h).
Definition set_bindInfo (c : cache) (h : BindHandle) : BindHandle :=
  MkHandle (h_sctx h) c (lastUFIDelateTime h) (invalidBindRecordMap h) (pendingVerifyBindRecordMap h) (h_reads h).
Definition set_last (t : Time) (h : BindHandle) : BindHandle :=
  MkHandle (h_sctx h) (bindInfo h) t (invalidBindRecordMap h) (pendingVerifyBindRecordMap h) (h_reads h).

Definition on_sctx {A} (m : M Session A) : M BindHandle A := zoom h_sctx set_sctx m.
Definition exec (sql : string) : M BindHandle unit := on_sctx (ExecuteInternal sql);; ret tt.

Definition time_Now : M BindHandle Z := fun h =>
  (Ret (clock (h_reads h)), MkHandle (h_sctx h) (bindInfo h) (lastUFIDelateTime h) (invalidBindRecordMap h)
    (pendingVerifyBindRecordMap h) (S (h_reads h))).

(** *** Hints *)

Definition getHintsForALLEGROSQL (sql : string) : M Session string :=
  s ← get;
  let origVals := UsePlanBaselines s in
  modify (set_UsePlanBaselines false);;
  r ← catch (ExecuteInternal ("explain format='hint' " +:+ sql));
  modify (set_UsePlanBaselines origVals);;
  match r with
  | Err e => fail e
  | Ok [] => panic
  | Ok (rs :: _) => lift_out (FirstString rs)
  end.

Definition has_hint (b : Binding) : bool := (if Hint b then true else false) && negb (empty (ID b)).

(** [check] is what is done in the session before the hints are parsed. *)
Definition prepare_binding {S} (check : string -> M S unit) (db : string) (b : Binding) : M S Binding :=
  if has_hint b || bool_decide (Status b = deleted) then ret b
  else
    check (BindSQL b);;
    '(hintsSet, warns) ← lift_res (ParseHintsSet (BindSQL b) (Charset b) (DefCauslation b) db);
    hintsStr ← lift_res (HintsRestore hintsSet);
    match warns with
    | w :: _ => if empty hintsStr then fail w else ret tt
    | [] => ret tt
    end;;
    ret (MkBinding (BindSQL b) (Status b) (CreateTime b) (UFIDelateTime b) (Source b) (Charset b) (DefCauslation b)
      (Some hintsSet) hintsStr).

Fixpoint prepare_bindings {S} (check : string -> M S unit) (db : string) (l : list Binding) : M S (list Binding) :=
  match l with
  | [] => ret []
  | b :: l => b ← prepare_binding check db b; l ← prepare_bindings check db l; ret (b :: l)
  end.

Definition prepareHints {S} (check : string -> M S unit) (br : BindRecord) : M S BindRecord :=
  l ← prepare_bindings check (EDB br) (Bindings br); ret (MkRecord (OriginalSQL br) (EDB br) l).

Definition check_in_session (sql : string) : M Session unit := getHintsForALLEGROSQL sql;; ret tt.

(** In the session of the caller, if it comes with one. *)
Definition prepare_client (client : option Session) (br : BindRecord) : M BindHandle BindRecord :=
  match client with
  | Some s => lift_out (prepareHints check_in_session br s).1
  | None => prepareHints (fun _ => ret tt) br
  end.

(** *** Statements *)

Definition deleteBindInfoALLEGROSQL (normdOrigSQL db bindSQL : string) : string :=
  "DELETE FROM allegrosql.bind_info WHERE original_sql=" +:+ Quote normdOrigSQL +:+ " AND default_db=" +:+ Quote db +:+
  " AND bind_sql=" +:+ Quote bindSQL.

Definition insertBindInfoALLEGROSQL (originalSQL db : string) (info : Binding) : string :=
  "INSERT INTO allegrosql.bind_info VALUES (" +:+ Quote originalSQL +:+ ", " +:+ Quote (BindSQL info) +:+ ", " +:+ Quote db +:+
  ", " +:+ Quote (Status info) +:+ ", " +:+ Quote (TimeString (CreateTime info)) +:+ ", " +:+
  Quote (TimeString (UFIDelateTime info)) +:+ ", " +:+ Quote (Charset info) +:+ ", " +:+ Quote (DefCauslation info) +:+ ", " +:+
  Quote (Source info) +:+ ")".

Definition logicalDeleteBindInfoALLEGROSQL (originalSQL db : string) (uFIDelateTs : Time) (bindingSQL : string) : string :=
  "UFIDelATE allegrosql.bind_info SET status=" +:+ Quote deleted +:+ ",uFIDelate_time=" +:+ Quote (TimeString uFIDelateTs) +:+
  " WHERE original_sql=" +:+ Quote originalSQL +:+ " and default_db=" +:+ Quote db +:+
  (if empty bindingSQL then EmptyString else " and bind_sql = " +:+ Quote bindingSQL).

(** *** The cache of the handle *)

Definition GetBindRecord (hash sql db : string) : M BindHandle (option BindRecord) :=
  h ← get; ret (getBindRecord (bindInfo h) hash sql db).

Definition appendBindRecord (hash : string) (meta : BindRecord) : M BindHandle unit :=
  h ← get;
  let oldRecord := getBindRecord (bindInfo h) hash (OriginalSQL meta) (EDB meta) in
  newRecord ← lift_opt (bind_merge oldRecord (Some meta));
  modify (set_bindInfo (setBindRecord (bindInfo h) hash newRecord)).

Definition removeBindRecord (hash : string) (meta : BindRecord) : M BindHandle unit :=
  modify (fun h => set_bindInfo (removeDeletedBindRecord (bindInfo h) hash meta) h).

(** *** Changes of bindings

    The deferred function of each: the transaction is rolled back after an
    error, and committed otherwise, and then the cache changes. *)
Definition in_transaction {A} (body : M BindHandle A) (after : A -> M BindHandle unit) : M BindHandle unit :=
  r ← catch body;
  match r with
  | Err e => catch (exec "ROLLBACK");; fail e
  | Ok a => exec "COMMIT";; after a
  end.

Definition txn_time : M BindHandle Time :=
  h ← get; ts ← lift_res (StartTS (h_sctx h)); ret (TimeFromTS ts).

Definition with_times (create update : Time) (b : Binding) : Binding :=
  MkBinding (BindSQL b) (Status b) create update (Source b) (Charset b) (DefCauslation b) (Hint b) (ID b).

Fixpoint insert_bindings (sql db : string) (create now : Time) (l : list Binding) : M BindHandle (list Binding) :=
  match l with
  | [] => ret []
  | b :: l =>
      let b := with_times create now b in
      exec (insertBindInfoALLEGROSQL sql db b);;
      l ← insert_bindings sql db create now l;
      ret (b :: l)
  end.

(** The code asks whether [err] is an error, which it is not, and not [err1]:
    the errors of these statements are lost. *)
Fixpoint delete_old (sql db : string) (now : Time) (l : list Binding) : M BindHandle unit :=
  match l with
  | [] => ret tt
  | b :: l => catch (exec (logicalDeleteBindInfoALLEGROSQL sql db now (BindSQL b)));; delete_old sql db now l
  end.

Definition create_body (record : BindRecord) (oldRecord : option BindRecord) : M BindHandle BindRecord :=
  now ← txn_time;
  match oldRecord with
  | Some old => delete_old (OriginalSQL record) (EDB record) now (Bindings old)
  | None => ret tt
  end;;
  l ← insert_bindings (OriginalSQL record) (EDB record) now now (Bindings record);
  ret (MkRecord (OriginalSQL record) (EDB record) l).

Definition CreateBindRecord (client : option Session) (record : BindRecord) : M BindHandle unit :=
  record ← prepare_client client record;
  exec "BEGIN";;
  let normalizedSQL := DigestNormalized (OriginalSQL record) in
  oldRecord ← GetBindRecord normalizedSQL (OriginalSQL record) (EDB record);
  in_transaction (create_body record oldRecord) (fun record =>
    match oldRecord with Some old => removeBindRecord normalizedSQL old | None => ret tt end;;
    appendBindRecord normalizedSQL record).

Definition add_body (record : BindRecord) (duplicateBinding : option Binding) : M BindHandle BindRecord :=
  now ← txn_time;
  match duplicateBinding with
  | Some d => exec (deleteBindInfoALLEGROSQL (OriginalSQL record) (EDB record) (BindSQL d))
  | None => ret tt
  end;;
  let create := match duplicateBinding with Some d => CreateTime d | None => now end in
  l ← insert_bindings (OriginalSQL record) (EDB record) create now (Bindings record);
  ret (MkRecord (OriginalSQL record) (EDB record) l).

Definition AddBindRecord (client : option Session) (record : BindRecord) : M BindHandle unit :=
  record ← prepare_client client record;
  let hash := DigestNormalized (OriginalSQL record) in
  oldRecord ← GetBindRecord hash (OriginalSQL record) (EDB record);
  duplicateBinding ←
    match oldRecord with
    | Some old => b ← lift_opt (head (Bindings record)); ret (FindBinding old (ID b))
    | None => ret None
    end;
  cancel ←
    match duplicateBinding with
    | Some _ => b ← lift_opt (head (Bindings record)); ret (bool_decide (Status b = PendingVerify))
    | None => ret false
    end;
  if (cancel : bool) then ret tt
  else
    exec "BEGIN";;
    in_transaction (add_body record duplicateBinding) (appendBindRecord hash).

Definition DropBindRecord (originalSQL db : string) (binding : option Binding) : M BindHandle unit :=
  exec "BEGIN";;
  in_transaction
    (uFIDelateTs ← txn_time;
     exec (logicalDeleteBindInfoALLEGROSQL originalSQL db uFIDelateTs
       match binding with Some b => BindSQL b | None => EmptyString end))
    (fun _ => removeBindRecord (DigestNormalized originalSQL)
       (MkRecord originalSQL db match binding with Some b => [b] | None => [] end)).

(** *** The cache and the store *)

Definition row_binding (event : BindRow Time) : Binding :=
  MkBinding (r_bind_sql event) (r_status event) (r_create_time event) (r_update_time event) (r_source event)
    (r_charset event) (r_collation event) None EmptyString.

Definition row_record (event : BindRow Time) : BindRecord :=
  MkRecord (r_original_sql event) (r_default_db event) [row_binding event].

(** The record of a row, or the error of its hints. *)
Definition newBindRecord (event : BindRow Time) : M BindHandle (string * res BindRecord) :=
  let bindRecord := row_record event in
  modify (fun h => set_sctx (set_CurrentDB (EDB bindRecord) (h_sctx h)) h);;
  r ← catch (on_sctx (prepareHints check_in_session bindRecord));
  ret (DigestNormalized (OriginalSQL bindRecord), r).

(** One row: the newest time so far, and the cache. *)
Definition apply_record (c : cache) (hash : string) (meta : BindRecord) : option cache :=
  merged ← bind_merge (getBindRecord c hash (OriginalSQL meta) (EDB meta)) (Some meta);
  let newRecord := removeDeletedBindings merged in
  Some (if bool_decide (Bindings newRecord = []) then removeDeletedBindRecord c hash newRecord
        else setBindRecord c hash newRecord).

Fixpoint apply_rows (rows : list (BindRow Time)) (last : Time) (c : cache) : M BindHandle (Time * cache) :=
  match rows with
  | [] => ret (last, c)
  | event :: rows =>
      '(hash, r) ← newBindRecord event;
      let last := if 0 <? Compare (r_update_time event) last then r_update_time event else last in
      match r with
      | Err _ => apply_rows rows last c
      | Ok meta => c ← lift_opt (apply_record c hash meta); apply_rows rows last c
      end
  end.

Definition dquote : string := String (Ascii.ascii_of_nat 34) EmptyString.

Definition load_sql (fullLoad : bool) (last : Time) : string :=
  "select original_sql, bind_sql, default_db, status, create_time, uFIDelate_time, charset, collation, source from allegrosql.bind_info" +:+
  (if fullLoad then EmptyString else " where uFIDelate_time > " +:+ dquote +:+ TimeString last +:+ dquote) +:+
  " order by uFIDelate_time".

Definition UFIDelate (fullLoad : bool) : M BindHandle unit :=
  h ← get;
  rows ← lift_res (ExecRestrictedALLEGROSQL (load_sql fullLoad (lastUFIDelateTime h)) (h_sctx h));
  h ← get;
  '(last, c) ← apply_rows rows (lastUFIDelateTime h) (bindInfo h);
  modify (fun h => set_last last (set_bindInfo c h)).

(** *** Changes that wait *)

Definition Add (m : gmap string bindRecordUFIDelate) (bindRecord : BindRecord) : option (gmap string bindRecordUFIDelate) :=
  b ← head (Bindings bindRecord);
  let key := OriginalSQL bindRecord +:+ ":" +:+ EDB bindRecord +:+ ":" +:+ ID b in
  Some (if m !! key then m else <[key := MkUpdate bindRecord None]> m).

(** Six seconds. *)
Definition flush_delay : Z := 6000000000.

Fixpoint flush_loop (flushFunc : BindRecord -> M BindHandle unit) (l : list (string * bindRecordUFIDelate))
    (newMap : gmap string bindRecordUFIDelate) : M BindHandle (gmap string bindRecordUFIDelate) :=
  match l with
  | [] => ret newMap
  | (key, u) :: l =>
      match bu_time u with
      | None =>
          catch (flushFunc (bu_record u));;
          now ← time_Now;
          flush_loop flushFunc l (<[key := MkUpdate (bu_record u) (Some now)]> newMap)
      | Some t =>
          now ← time_Now;
          flush_loop flushFunc l (if flush_delay <? now - t then delete key newMap else newMap)
      end
  end.

Definition set_invalid (m : gmap string bindRecordUFIDelate) (h : BindHandle) : BindHandle :=
  MkHandle (h_sctx h) (bindInfo h) (lastUFIDelateTime h) m (pendingVerifyBindRecordMap h) (h_reads h).
Definition set_pending (m : gmap string bindRecordUFIDelate) (h : BindHandle) : BindHandle :=
  MkHandle (h_sctx h) (bindInfo h) (lastUFIDelateTime h) (invalidBindRecordMap h) m (h_reads h).

(** The [flushFunc]s of [NewBindHandle]. *)
Definition flush_invalid (record : BindRecord) : M BindHandle unit :=
  b ← lift_opt (head (Bindings record)); DropBindRecord (OriginalSQL record) (EDB record) (Some b).
Definition flush_pending (record : BindRecord) : M BindHandle unit := AddBindRecord None record.

Definition DropInvalidBindRecord : M BindHandle unit :=
  h ← get;
  m ← flush_loop flush_invalid (range_updates (invalidBindRecordMap h)) (invalidBindRecordMap h);
  modify (set_invalid m).

Definition SaveEvolveTasksToStore : M BindHandle unit :=
  h ← get;
  m ← flush_loop flush_pending (range_updates (pendingVerifyBindRecordMap h)) (pendingVerifyBindRecordMap h);
  modify (set_pending m).

Definition AddDropInvalidBindTask (invalidBindRecord : BindRecord) : M BindHandle unit :=
  h ← get; m ← lift_opt (Add (invalidBindRecordMap h) invalidBindRecord); modify (set_invalid m).

Definition AddEvolvePlanTask (originalSQL db : string) (binding : Binding) : M BindHandle unit :=
  h ← get; m ← lift_opt (Add (pendingVerifyBindRecordMap h) (MkRecord originalSQL db [binding])); modify (set_pending m).

Definition FlushBindings : M BindHandle unit :=
  DropInvalidBindRecord;; SaveEvolveTasksToStore;; UFIDelate false.

Definition ReloadBindings : M BindHandle unit :=
  modify (fun h => set_last ZeroTimestamp (set_bindInfo ∅ h));; UFIDelate true.

Definition NewBindHandle (ctx : Session) : BindHandle := MkHandle ctx ∅ ZeroTimestamp ∅ ∅ 0.

Definition Clear : M BindHandle unit :=
  modify (fun h => set_invalid ∅ (set_pending ∅ (set_last ZeroTimestamp (set_bindInfo ∅ h)))).

Definition handle_Size (h : BindHandle) : nat := map_fold (fun _ (l : list BindRecord) n => (length l + n)%nat) 0%nat (bindInfo h).

End bind.
