(* ===== verification/BindSpec.v ===== *)
(** * What the cache of bindings holds

    A record is found under the digest of its statement, by the statement and
    the database.  Loading the rows of the table, from nothing or from a cache
    that was loaded before, gives what is in force: for every statement,
    database and text, the newest row, unless it is deleted.  A change of a
    binding changes the cache as it says, or, when it fails, not at all.  The
    instance of the examples is in [BindEx]. *)

From stdpp Require Import base gmap list option strings sorting.
From Stdlib Require Import ZArith Lia.
From S2P Require Import Prelude External GoMonad Bind.

Local Open Scope Z_scope.

Section cache.
Context `{BindPkgs}.

Definition rec_key (br : BindRecord) : string * string := (OriginalSQL br, EDB br).

(** In a bucket, the records are of different statements and databases, and of
    statements with the digest of the bucket. *)
Definition cache_ok (c : gmap string (list BindRecord)) : Prop :=
  forall hash l, c !! hash = Some l ->
    NoDup (rec_key <$> l) /\ forall br, br ∈ l -> DigestNormalized (OriginalSQL br) = hash.

Definition lookup_bindings (c : gmap string (list BindRecord)) (sql db : string) : list Binding :=
  match getBindRecord c (DigestNormalized sql) sql db with Some br => Bindings br | None => [] end.

(** ** Buckets *)

Lemma find_record_key l sql db br : find_record l sql db = Some br -> br ∈ l /\ rec_key br = (sql, db).
Proof.
  induction l as [|x l IH]; simpl; [done|]. destruct (bool_decide_reflect (OriginalSQL x = sql)); simpl.
  - destruct (bool_decide_reflect (EDB x = db)); simpl; [intros [= ->]; split; [left|by unfold rec_key; subst]|].
    intros E. destruct (IH E) as [? ?]. split; [by right|done].
  - intros E. destruct (IH E) as [? ?]. split; [by right|done].
Qed.

Lemma find_set l meta sql db :
  find_record (set_record l meta) sql db =
  if decide (rec_key meta = (sql, db)) then Some meta else find_record l sql db.
Proof.
  unfold rec_key. induction l as [|x l IH]; simpl.
  - repeat case_bool_decide; simpl; case_decide; simplify_eq; done.
  - repeat case_bool_decide; simpl; repeat case_bool_decide; simpl; rewrite ?IH; case_decide; simplify_eq; try done; congruence.
Qed.

Lemma set_record_keys l meta : exists l1 l2 k, rec_key <$> l = l1 ++ k ++ l2 /\
  rec_key <$> set_record l meta = l1 ++ [rec_key meta] ++ l2 /\ (k = [rec_key meta] \/ k = [] /\ l2 = [] /\ rec_key meta ∉ l1).
Proof.
  induction l as [|x l (l1 & l2 & k & E1 & E2 & Hk)]; simpl.
  - exists [], [], []. repeat split. right. repeat split. set_solver.
  - destruct (decide (rec_key x = rec_key meta)) as [Ek|Ek].
    + exists [], (rec_key <$> l), [rec_key meta]. unfold rec_key in *. simplify_eq. rewrite !bool_decide_true by done.
      repeat split; [|by left]. csimpl. by f_equal; unfold rec_key; congruence.
    + assert (bool_decide (EDB x = EDB meta) && bool_decide (OriginalSQL x = OriginalSQL meta) = false) as ->.
      { unfold rec_key in Ek. repeat case_bool_decide; simpl; try done. congruence. }
      exists (rec_key x :: l1), l2, k. csimpl. rewrite E1, E2. repeat split.
      destruct Hk as [->|(-> & -> & Hn)]; [by left|right]. repeat split. set_solver.
Qed.

Lemma NoDup_set l meta : NoDup (rec_key <$> l) -> NoDup (rec_key <$> set_record l meta).
Proof.
  destruct (set_record_keys l meta) as (l1 & l2 & k & E1 & E2 & Hk). rewrite E1, E2.
  destruct Hk as [->|(-> & -> & Hn)]; [done|]. simpl. rewrite !app_nil_r. intros Hd. apply NoDup_app. split; [done|].
  split; [intros x Hx E; apply list_elem_of_singleton in E; by subst|apply NoDup_singleton].
Qed.

Lemma elem_of_set l meta br : br ∈ set_record l meta -> br = meta \/ br ∈ l.
Proof.
  induction l as [|x l IH]; simpl; [set_solver|]. destruct (_ && _); set_solver.
Qed.

(** ** Removing a record *)

Definition takes (meta : BindRecord) (br : BindRecord) : Prop := rec_key br = rec_key meta.

#[local] Instance takes_dec meta br : Decision (takes meta br).
Proof. unfold takes. apply _. Defined.

Lemma record_isSame_spec br meta : record_isSame br meta = bool_decide (takes meta br).
Proof. unfold record_isSame, takes, rec_key. repeat case_bool_decide; simpl; congruence. Qed.

Lemma remove_loop_skip meta l n m : (forall i br, (n <= i < n + m)%nat -> l !! i = Some br -> rec_key br <> rec_key meta) ->
  remove_loop (n + m) l meta = remove_loop n l meta.
Proof.
  induction m as [|m IH]; intros Hn; [by rewrite Nat.add_0_r|]. rewrite <- plus_n_Sm. simpl.
  rewrite <- IH by (intros; eapply Hn; [|done]; lia).
  destruct (l !! (n + m)%nat) as [br|] eqn:E; [|done].
  rewrite record_isSame_spec, bool_decide_false; [done|]. apply (Hn (n + m)%nat); [lia|done].
Qed.

(** The bucket without the bindings of [meta]. *)
Fixpoint remove_rec (l : list BindRecord) (meta : BindRecord) : list BindRecord :=
  match l with
  | [] => []
  | br :: l =>
      if bool_decide (takes meta br) then
        match Bindings (record_remove br meta) with [] => l | _ => record_remove br meta :: l end
      else br :: remove_rec l meta
  end.

Lemma remove_rec_at l1 br l2 meta : (forall x, x ∈ l1 -> rec_key x <> rec_key meta) -> rec_key br = rec_key meta ->
  remove_rec (l1 ++ br :: l2) meta = l1 ++ match Bindings (record_remove br meta) with [] => l2 | _ => record_remove br meta :: l2 end.
Proof.
  intros H1 Hb. induction l1 as [|x l1 IH]; simpl; [by rewrite bool_decide_true by done|].
  rewrite bool_decide_false by (apply H1; by left). rewrite IH; [done|]. intros y Hy. apply H1. by right.
Qed.

Lemma remove_rec_none l meta : (forall x, x ∈ l -> rec_key x <> rec_key meta) -> remove_rec l meta = l.
Proof.
  induction l as [|x l IH]; simpl; intros H1; [done|]. rewrite bool_decide_false by (apply H1; by left).
  f_equal. apply IH. intros y Hy. apply H1. by right.
Qed.

Lemma remove_loop_is l meta : NoDup (rec_key <$> l) -> l <> [] ->
  remove_loop (length l) l meta = match remove_rec l meta with [] => None | l' => Some l' end.
Proof.
  intros Hd Hl. destruct (decide (Exists (takes meta) l)) as [He|He].
  - apply Exists_exists in He as (br & Hbr & Hk). unfold takes in Hk.
    apply list_elem_of_split in Hbr as (l1 & l2 & ->). rewrite fmap_app, fmap_cons in Hd.
    apply NoDup_app in Hd as (_ & Hn & Hd2). apply NoDup_cons in Hd2 as [Hn2 _].
    assert (H1 : forall x, x ∈ l1 -> rec_key x <> rec_key meta).
    { intros x Hx E. apply (Hn (rec_key x)); [by apply list_elem_of_fmap_2|]. rewrite E, <- Hk. left. }
    rewrite remove_rec_at by done. rewrite length_app. simpl.
    replace (length l1 + S (length l2))%nat with (S (length l1) + length l2)%nat by lia.
    rewrite remove_loop_skip.
    2:{ intros i x Hi Ex E. rewrite lookup_app_r in Ex by lia. destruct (i - length l1)%nat as [|j] eqn:Ej; [lia|].
        simpl in Ex. apply Hn2. rewrite Hk, <- E. by eapply list_elem_of_fmap_2, list_elem_of_lookup_2. }
    simpl. rewrite list_lookup_middle by done. rewrite record_isSame_spec, bool_decide_true by done.
    assert (H2 : forall l3, remove_loop (length l1) (l1 ++ l3) meta = Some (l1 ++ l3)).
    { intros l3. replace (length l1) with (0 + length l1)%nat by lia. rewrite remove_loop_skip; [done|].
      intros i x Hi Ex. rewrite lookup_app_l in Ex by lia. eapply H1, list_elem_of_lookup_2, Ex. }
    destruct (Bindings (record_remove br meta)) as [|b bs] eqn:Eb.
    + rewrite (bool_decide_true (@nil Binding = [])) by done. rewrite delete_middle.
      case_bool_decide as E0; [by rewrite E0|]. rewrite H2. by destruct (l1 ++ l2).
    + rewrite (bool_decide_false (b :: bs = [])) by done. rewrite insert_app_r_alt, Nat.sub_diag by done. simpl.
      rewrite bool_decide_false by (by destruct l1). rewrite H2. by destruct l1.
  - assert (H1 : forall x, x ∈ l -> rec_key x <> rec_key meta) by (intros x Hx E; apply He, Exists_exists; eauto).
    rewrite remove_rec_none by done. replace (length l) with (0 + length l)%nat by lia.
    rewrite remove_loop_skip; [by destruct l|]. intros i x _ Ex. eapply H1, list_elem_of_lookup_2, Ex.
Qed.

Lemma record_remove_key br meta : rec_key (record_remove br meta) = rec_key br.
Proof. unfold record_remove. by destruct (Bindings meta). Qed.

Lemma find_record_none l sql db : (sql, db) ∉ rec_key <$> l -> find_record l sql db = None.
Proof.
  intros Hn. destruct (find_record l sql db) as [br|] eqn:E; [|done]. apply find_record_key in E as [Hbr E].
  destruct Hn. rewrite <- E. by apply list_elem_of_fmap_2.
Qed.

Lemma find_record_cons br l sql db :
  find_record (br :: l) sql db = if decide (rec_key br = (sql, db)) then Some br else find_record l sql db.
Proof. unfold rec_key. simpl. repeat case_bool_decide; simpl; case_decide; simplify_eq; done. Qed.

Lemma find_remove l meta sql db : NoDup (rec_key <$> l) ->
  default [] (Bindings <$> find_record (remove_rec l meta) sql db) =
  if decide (rec_key meta = (sql, db)) then default [] (br ← find_record l sql db; Some (Bindings (record_remove br meta)))
  else default [] (Bindings <$> find_record l sql db).
Proof.
  induction l as [|x l IH]; intros Hd; [simpl; by case_decide|]. rewrite fmap_cons in Hd.
  apply NoDup_cons in Hd as [Hn Hd]. rewrite (find_record_cons x). simpl. case_bool_decide as Ex; unfold takes in Ex.
  - destruct (Bindings (record_remove x meta)) as [|b bs] eqn:Eb.
    + case_decide as Em; destruct (decide (rec_key x = (sql, db))) as [E|E]; try congruence.
      * simpl. rewrite Eb. rewrite find_record_none; [done|]. by rewrite <- E.
    + rewrite find_record_cons, record_remove_key, Ex. case_decide as Em; [|done]. simpl. by rewrite Eb.
  - rewrite find_record_cons. destruct (decide (rec_key x = (sql, db))); [|by apply IH].
    by rewrite decide_False by congruence.
Qed.

Lemma remove_rec_sublist l meta : sublist (rec_key <$> remove_rec l meta) (rec_key <$> l).
Proof.
  induction l as [|x l IH]; simpl; [done|]. case_bool_decide.
  - destruct (Bindings (record_remove x meta)); csimpl; [by apply sublist_cons|]. by rewrite record_remove_key.
  - csimpl. by apply sublist_skip.
Qed.

(** ** The cache *)

Lemma lookup_bindings_is c sql db :
  lookup_bindings c sql db = default [] (Bindings <$> find_record (default [] (c !! DigestNormalized sql)) sql db).
Proof. unfold lookup_bindings, getBindRecord. by destruct (find_record _ sql db). Qed.

Definition set_at (meta : BindRecord) (c : cache) : cache := setBindRecord c (DigestNormalized (OriginalSQL meta)) meta.
Definition remove_at (meta : BindRecord) (c : cache) : cache :=
  removeDeletedBindRecord c (DigestNormalized (OriginalSQL meta)) meta.

Lemma cache_ok_empty : cache_ok ∅.
Proof. intros hash l E. by apply (lookup_empty_Some (M := gmap string)) in E. Qed.

Lemma cache_ok_set meta c : cache_ok c -> cache_ok (set_at meta c).
Proof.
  intros Hc hash l. unfold set_at, setBindRecord, cache in *. destruct (decide (DigestNormalized (OriginalSQL meta) = hash)) as [<-|Hh].
  - rewrite lookup_insert_eq. intros [= <-].
    assert (Hl : NoDup (rec_key <$> default [] (c !! DigestNormalized (OriginalSQL meta))) /\
      forall br, br ∈ default [] (c !! DigestNormalized (OriginalSQL meta)) ->
        DigestNormalized (OriginalSQL br) = DigestNormalized (OriginalSQL meta)).
    { destruct (c !! _) as [l|] eqn:E; [by apply (Hc _ l)|]. simpl. split; [constructor|set_solver]. }
    split; [apply NoDup_set, Hl|]. intros br [->|Hbr]%elem_of_set; [done|by apply Hl].
  - rewrite lookup_insert_ne by done. apply Hc.
Qed.

Lemma lookup_set meta c sql db :
  lookup_bindings (set_at meta c) sql db =
  if decide (rec_key meta = (sql, db)) then Bindings meta else lookup_bindings c sql db.
Proof.
  rewrite !lookup_bindings_is. unfold set_at, setBindRecord, cache in *.
  destruct (decide (DigestNormalized (OriginalSQL meta) = DigestNormalized sql)) as [Eh|Eh].
  - rewrite Eh, lookup_insert_eq. simpl. rewrite find_set. by case_decide.
  - rewrite lookup_insert_ne by done. rewrite decide_False; [done|]. unfold rec_key. congruence.
Qed.

Lemma remove_at_is meta c : cache_ok c ->
  remove_at meta c = match c !! DigestNormalized (OriginalSQL meta) with
  | None | Some [] => c
  | Some l => match remove_rec l meta with
      | [] => delete (DigestNormalized (OriginalSQL meta)) c
      | l' => <[DigestNormalized (OriginalSQL meta) := l']> c
      end
  end.
Proof.
  intros Hc. unfold remove_at, removeDeletedBindRecord, cache in *. destruct (c !! _) as [[|x l]|] eqn:E; [| |done].
  - simpl. by apply insert_id.
  - rewrite remove_loop_is; [by destruct (remove_rec _ _)|by eapply Hc|done].
Qed.

Lemma cache_ok_remove meta c : cache_ok c -> cache_ok (remove_at meta c).
Proof.
  intros Hc. rewrite remove_at_is by done. unfold cache in *. destruct (c !! _) as [[|x l]|] eqn:E; [done| |done].
  destruct (Hc _ _ E) as [Hd Hh]. destruct (remove_rec (x :: l) meta) as [|y l'] eqn:Er.
  - intros hash l0 [_ El]%lookup_delete_Some. by apply Hc.
  - intros hash l0 [[<- <-]|[_ El]]%lookup_insert_Some; [|by apply Hc]. rewrite <- Er.
    split; [eapply sublist_NoDup; [done|apply remove_rec_sublist]|].
    intros br Hbr. assert (Hk : rec_key br ∈ rec_key <$> x :: l).
    { eapply elem_of_submseteq; [|apply sublist_submseteq, remove_rec_sublist]. by apply list_elem_of_fmap_2. }
    apply list_elem_of_fmap in Hk as (br' & Ek & Hbr'). rewrite <- (Hh _ Hbr'). unfold rec_key in Ek. congruence.
Qed.

(** What is left of the bindings of a record when those of [meta] are removed. *)
Definition rest_bindings (meta : BindRecord) (l : list Binding) : list Binding :=
  match Bindings meta with [] => [] | del => remove_bindings l del end.

Lemma record_remove_rest br meta : Bindings (record_remove br meta) = rest_bindings meta (Bindings br).
Proof. unfold record_remove, rest_bindings. by destruct (Bindings meta). Qed.

Lemma rest_bindings_nil meta : rest_bindings meta [] = [].
Proof. unfold rest_bindings. destruct (Bindings meta) as [|b l]; [done|]. simpl. by induction l. Qed.

Lemma lookup_remove meta c sql db : cache_ok c ->
  lookup_bindings (remove_at meta c) sql db =
  if decide (rec_key meta = (sql, db)) then rest_bindings meta (lookup_bindings c sql db) else lookup_bindings c sql db.
Proof.
  intros Hc. rewrite remove_at_is by done. unfold cache in *. destruct (decide (DigestNormalized (OriginalSQL meta) = DigestNormalized sql)) as [Eh|Eh].
  - rewrite !lookup_bindings_is, Eh. destruct (c !! DigestNormalized sql) as [[|x l]|] eqn:E.
    + rewrite E. simpl. rewrite rest_bindings_nil. by case_decide.
    + destruct (Hc _ _ E) as [Hd _]. pose proof (find_remove _ meta sql db Hd) as F.
      replace (default [] (match remove_rec (x :: l) meta with [] => delete (DigestNormalized sql) c
        | b :: l0 => <[DigestNormalized sql := b :: l0]> c end !! DigestNormalized sql)) with (remove_rec (x :: l) meta)
        by (destruct (remove_rec (x :: l) meta); [by rewrite lookup_delete_eq|by rewrite lookup_insert_eq]).
      rewrite F. change (default [] (Some (x :: l))) with (x :: l). case_decide; [|done].
      destruct (find_record (x :: l) sql db) as [br|]; csimpl;
        [apply record_remove_rest|by rewrite rest_bindings_nil].
    + rewrite E. simpl. rewrite rest_bindings_nil. by case_decide.
  - rewrite decide_False by (unfold rec_key; congruence). rewrite !lookup_bindings_is.
    destruct (c !! DigestNormalized (OriginalSQL meta)) as [[|x l]|]; [done| |done].
    destruct (remove_rec (x :: l) meta); [by rewrite lookup_delete_ne|by rewrite lookup_insert_ne].
Qed.

(** ** One row *)

Lemma merge_bindings_nil result l : merge_bindings [] result l = result ++ l.
Proof. revert result. induction l as [|b l IH]; intros result; simpl; [by rewrite app_nil_r|]. by rewrite IH, <- app_assoc. Qed.

Lemma merged_is meta sql db c : rec_key meta = (sql, db) ->
  exists br, bind_merge (getBindRecord c (DigestNormalized sql) sql db) (Some meta) = Some br /\
    rec_key br = rec_key meta /\
    Bindings br = merge_bindings (lookup_bindings c sql db) (lookup_bindings c sql db) (Bindings meta).
Proof.
  intros Em. unfold lookup_bindings. destruct (getBindRecord _ _ _ _) as [br|] eqn:E.
  - apply find_record_key in E as [_ E]. eexists. split; [done|]. split; [|done]. rewrite Em, <- E. done.
  - exists meta. by rewrite merge_bindings_nil.
Qed.

Lemma apply_record_is c meta : cache_ok c ->
  exists c', apply_record c (DigestNormalized (OriginalSQL meta)) meta = Some c' /\ cache_ok c' /\
    forall sql db, lookup_bindings c' sql db =
      if decide (rec_key meta = (sql, db)) then
        filter (fun b => Status b <> deleted) (merge_bindings (lookup_bindings c sql db) (lookup_bindings c sql db) (Bindings meta))
      else lookup_bindings c sql db.
Proof.
  intros Hc. destruct (merged_is meta (OriginalSQL meta) (EDB meta) c eq_refl) as (br & Em & Ek & Eb).
  unfold apply_record. rewrite Em. csimpl. eexists. split; [done|].
  assert (Eh : DigestNormalized (OriginalSQL meta) = DigestNormalized (OriginalSQL (removeDeletedBindings br))).
  { f_equal. unfold rec_key in Ek. simpl. congruence. }
  rewrite Eh. fold (remove_at (removeDeletedBindings br) c) (set_at (removeDeletedBindings br) c).
  assert (Ek' : rec_key (removeDeletedBindings br) = rec_key meta) by done.
  case_bool_decide as E0; (split; [by apply cache_ok_remove || by apply cache_ok_set|]); intros sql db.
  - rewrite (lookup_remove (removeDeletedBindings br)) by done. rewrite Ek'. case_decide as E; [|done].
    injection E as <- <-. rewrite <- Eb. unfold rest_bindings. simpl. by rewrite E0.
  - rewrite (lookup_set (removeDeletedBindings br)), Ek'. case_decide as E; [|done].
    injection E as <- <-. by rewrite <- Eb.
Qed.

Lemma same_index_spec l rb :
  match same_index l rb with
  | Some j => exists l1 lb l2, l = l1 ++ lb :: l2 /\ length l1 = j /\ binding_isSame lb rb = true
  | None => forall x, x ∈ l -> binding_isSame x rb = false
  end.
Proof.
  induction l as [|x l IH]; simpl; [set_solver|]. destruct (binding_isSame x rb) eqn:E.
  - by exists [], x, l.
  - destruct (same_index l rb) as [j|]; csimpl.
    + destruct IH as (l1 & lb & l2 & -> & <- & Hs). by exists (x :: l1), lb, l2.
    + intros y [->|Hy]%elem_of_cons; [done|by apply IH].
Qed.

(** Bindings that are the same when their texts are. *)
Definition same_text (x y : Binding) : Prop := binding_isSame x y = bool_decide (BindSQL x = BindSQL y).

Lemma merge_one l rb : NoDup (BindSQL <$> l) -> (forall x, x ∈ l -> same_text x rb) ->
  (forall x, x ∈ l -> 0 <= Compare (UFIDelateTime rb) (UFIDelateTime x)) ->
  NoDup (BindSQL <$> merge_bindings l l [rb]) /\
  forall b, b ∈ merge_bindings l l [rb] <-> b = rb \/ b ∈ l /\ BindSQL b <> BindSQL rb.
Proof.
  intros Hd Hs Ht. simpl. pose proof (same_index_spec l rb) as Hi. destruct (same_index l rb) as [j|].
  - destruct Hi as (l1 & lb & l2 & -> & <- & E). rewrite list_lookup_middle by done.
    assert (Hl : lb ∈ l1 ++ lb :: l2) by set_solver.
    assert (Ht' : 0 <= Compare (UFIDelateTime rb) (UFIDelateTime lb)) by auto. apply Z.leb_le in Ht'. rewrite Ht'.
    rewrite (Hs lb Hl) in E. apply bool_decide_eq_true in E.
    rewrite insert_app_r_alt, Nat.sub_diag by done. simpl.
    rewrite fmap_app, fmap_cons in Hd. rewrite fmap_app, fmap_cons, <- E. split; [done|].
    apply NoDup_app in Hd as (_ & Hn & [Hn2 _]%NoDup_cons). intros b. split.
    + rewrite elem_of_app, elem_of_cons. intros [Hb|[->|Hb]]; [right|by left|right]; (split; [set_solver|]).
      * intros Eb. apply (Hn (BindSQL b)); [by apply list_elem_of_fmap_2|]. rewrite Eb. left.
      * intros Eb. apply Hn2. rewrite <- Eb. by apply list_elem_of_fmap_2.
    + rewrite !elem_of_app, !elem_of_cons. intros [->|[[Hb|[->|Hb]] En]]; auto. congruence.
  - assert (Hn : BindSQL rb ∉ BindSQL <$> l).
    { intros (x & Ex & Hx)%list_elem_of_fmap. specialize (Hi x Hx). rewrite (Hs x Hx) in Hi.
      apply bool_decide_eq_false in Hi. congruence. }
    split.
    + rewrite fmap_app. apply NoDup_app. split; [done|]. split; [|apply NoDup_singleton].
      intros q Hq E%list_elem_of_singleton. by subst.
    + intros b. rewrite elem_of_app, list_elem_of_singleton. split.
      * intros [Hb| ->]; [right|by left]. split; [done|]. intros E. apply Hn. rewrite <- E. by apply list_elem_of_fmap_2.
      * intros [->|[Hb _]]; auto.
Qed.
End cache.

(** ** The rows of the table *)

(** Times are in a total order. *)
Class TimeLaws `{BindPkgs} : Prop := {
  Compare_self : forall t, Compare t t = 0;
  Compare_flip : forall a b, 0 < Compare a b <-> Compare b a < 0;
  Compare_trans : forall a b c, 0 <= Compare a b -> 0 <= Compare b c -> 0 <= Compare a c;
}.

Section rows.
Context `{BindPkgs} `{!TimeLaws}.
Implicit Types (r : BindRow Time) (tbl old : list (BindRow Time)) (h : BindHandle).

Lemma Compare_le a b : 0 <= Compare a b <-> ~ 0 < Compare b a.
Proof. rewrite Compare_flip. lia. Qed.


(** What a session says of a statement in a database: that it has no plan, or
    nothing.  The statement that asks returns a row or an error. *)
Context (explained : string -> string -> res unit).

Definition session_explains : Prop := forall db q s,
  match ExecuteInternal ("explain format='hint' " +:+ q) (set_UsePlanBaselines false (set_CurrentDB db s)) with
  | (Ret (rs :: _), _) =>
      match FirstString rs with
      | Ret _ => explained db q = Ok tt
      | Fail e => explained db q = Err e
      | _ => False
      end
  | (Fail e, _) => explained db q = Err e
  | _ => False
  end.

(** The binding of a row, with its hints. *)
Definition prep r : res Binding :=
  match (catch (prepare_binding (fun q => lift_res (explained (r_default_db r) q)) (r_default_db r) (row_binding r)) tt).1 with
  | Ret b => b
  | _ => Err (ErrOther EmptyString)
  end.

Definition prepared r : res BindRecord := b ← prep r; Ok (MkRecord (r_original_sql r) (r_default_db r) [b]).

Lemma check_in_session_is db q s : session_explains ->
  exists s', catch (check_in_session q) (set_CurrentDB db s) = (Ret (explained db q), s').
Proof.
  intros E. specialize (E db q s). unfold check_in_session, getHintsForALLEGROSQL, catch. step_exec.
  destruct (ExecuteInternal _ _) as [[[|rs l]|e| |] s']; [done| |rewrite E; eauto|done..].
  destruct (FirstString rs); rewrite ?E; eauto; done.
Qed.

Lemma prepare_binding_is db b (check : string -> M Session unit) s x s' :
  catch (check (BindSQL b)) s = (Ret x, s') ->
  exists (y : res Binding) s'',
    catch (prepare_binding check db b) s = (Ret y, s'') /\
    catch (prepare_binding (fun _ => lift_res x) db b) tt = (Ret y, tt).
Proof.
  unfold catch, prepare_binding. destruct (_ || _); [intros _; by exists (Ok b), s|]. step_exec.
  destruct (check (BindSQL b) s) as [[[]|e| |] s1]; [intros [= <- <-]|intros [= <- <-]|done..]; [|eexists _, _; split; reflexivity].
  destruct (ParseHintsSet _ _ _ _) as [[hintsSet warns]|e]; step_exec; [|eexists _, _; split; reflexivity].
  destruct (HintsRestore hintsSet) as [hintsStr|e]; step_exec; [|eexists _, _; split; reflexivity].
  destruct warns as [|w warns]; [|destruct (empty hintsStr)]; step_exec; eexists _, _; split; reflexivity.
Qed.

Lemma prepare_binding_in_session r s : session_explains ->
  exists s', catch (prepare_binding check_in_session (r_default_db r) (row_binding r)) (set_CurrentDB (r_default_db r) s) =
    (Ret (prep r), s').
Proof.
  intros E. destruct (check_in_session_is (r_default_db r) (r_bind_sql r) s E) as [s1 Es].
  destruct (prepare_binding_is (r_default_db r) (row_binding r) _ _ _ _ Es) as (y & s2 & E1 & E2).
  exists s2. rewrite E1.
  change (prep r) with (match (catch (prepare_binding (fun _ => lift_res (explained (r_default_db r) (r_bind_sql r)))
    (r_default_db r) (row_binding r)) tt).1 with Ret b => b | _ => Err (ErrOther EmptyString) end).
  by rewrite E2.
Qed.
Lemma catch_Ret {S A} (m : M S A) s x s' :
  catch m s = (Ret x, s') <-> m s = (match x with Ok a => Ret a | Err e => Fail e end, s').
Proof. unfold catch. destruct x, (m s) as [[]]; naive_solver. Qed.

Lemma newBindRecord_is r h : session_explains ->
  exists s, newBindRecord r h = (Ret (DigestNormalized (r_original_sql r), prepared r), set_sctx s h).
Proof.
  intros E. destruct (prepare_binding_in_session r (h_sctx h) E) as [s Es]. apply catch_Ret in Es.
  assert (Eh : catch (on_sctx (prepareHints check_in_session (row_record r)))
    (set_sctx (set_CurrentDB (r_default_db r) (h_sctx h)) h) = (Ret (prepared r), set_sctx s h)).
  { apply catch_Ret. unfold on_sctx, zoom. simpl. unfold prepareHints. step_exec. simpl. step_exec. rewrite Es.
    unfold prepared. by destruct (prep r). }
  exists s. unfold newBindRecord. step_exec. change (EDB (row_record r)) with (r_default_db r). by rewrite Eh.
Qed.

(** A prepared binding is the row's, with hints. *)
Lemma prep_fields r b : prep r = Ok b ->
  BindSQL b = r_bind_sql r /\ Status b = r_status r /\ UFIDelateTime b = r_update_time r.
Proof.
  unfold prep, prepare_binding, catch. destruct (_ || _); [by intros [= <-]|]. step_exec.
  destruct (explained _ _); [|done]. step_exec. destruct (ParseHintsSet _ _ _ _) as [[hintsSet warns]|]; [|done].
  step_exec. destruct (HintsRestore hintsSet) as [hintsStr|]; [|done]. step_exec.
  destruct warns; [|destruct (empty hintsStr)]; step_exec; [by intros [= <-]|done|by intros [= <-]].
Qed.
(** ** What is in force *)

Definition row_key r : string * string * string := (r_original_sql r, r_default_db r, r_bind_sql r).

(** Rows whose hints could be prepared; the others are skipped. *)
Definition ready r : Prop := exists b, prep r = Ok b.

Definition later r t : Prop := 0 < Compare (r_update_time r) t.

Definition newest tbl r : Prop :=
  r ∈ tbl /\ ready r /\
  forall r', r' ∈ tbl -> ready r' -> row_key r' = row_key r -> r' = r \/ later r (r_update_time r').

Definition in_force tbl (sql db : string) (b : Binding) : Prop :=
  exists r, newest tbl r /\ r_original_sql r = sql /\ r_default_db r = db /\ prep r = Ok b /\ r_status r <> deleted.

(** The cache holds the bindings in force, one for every text. *)
Record loaded_cache tbl (c : gmap string (list BindRecord)) : Prop := {
  lc_ok : cache_ok c;
  lc_texts : forall sql db, NoDup (BindSQL <$> lookup_bindings c sql db);
  lc_holds : forall sql db b, b ∈ lookup_bindings c sql db <-> in_force tbl sql db b;
}.

Record loaded tbl h : Prop := {
  l_cache : loaded_cache tbl (bindInfo h);
  l_last : forall r, r ∈ tbl -> 0 <= Compare (lastUFIDelateTime h) (r_update_time r);
}.

(** Two rows in the order of their times; rows of the same binding have
    different times. *)
Definition before r r' : Prop :=
  0 <= Compare (r_update_time r') (r_update_time r) /\
  (ready r -> ready r' -> row_key r = row_key r' -> later r' (r_update_time r)).

(** The hints of the bindings of a statement differ when their texts do. *)
Definition ids_agree tbl : Prop := forall r r' b b', r ∈ tbl -> r' ∈ tbl ->
  r_original_sql r = r_original_sql r' -> r_default_db r = r_default_db r' ->
  prep r = Ok b -> prep r' = Ok b' -> same_text b b'.

Lemma later_self r : ~ later r (r_update_time r).
Proof. unfold later. rewrite Compare_self. lia. Qed.

Lemma later_asym r r' : later r (r_update_time r') -> ~ later r' (r_update_time r).
Proof. unfold later. rewrite Compare_flip. lia. Qed.

Lemma newest_row_snoc tbl r x : (forall y, y ∈ tbl -> before y r) ->
  newest (tbl ++ [r]) x <-> x = r /\ ready r \/ newest tbl x /\ (ready r -> row_key x <> row_key r).
Proof.
  intros Hb. unfold newest. setoid_rewrite elem_of_app. setoid_rewrite list_elem_of_singleton. split.
  - intros ([Hx| ->] & Rx & Hn); [right|by left]. split; [by eauto 6|]. intros Rr Ek.
    destruct (Hb x Hx) as [_ Hl]. specialize (Hl Rx Rr Ek).
    destruct (Hn r (or_intror eq_refl) Rr (eq_sym Ek)) as [->|Hn']; [by apply (later_self x)|by apply (later_asym x r)].
  - intros [[-> Rr]|[(Hx & Rx & Hn) Hk]].
    + split; [by right|]. split; [done|]. intros y [Hy| ->] Ry Ek; [right|by left]. by apply Hb.
    + split; [by left|]. split; [done|]. intros y [Hy| ->] Ry Ek; [by apply Hn|]. destruct (Hk Ry). done.
Qed.

Lemma in_force_fields tbl sql db b : in_force tbl sql db b ->
  exists r, r ∈ tbl /\ r_original_sql r = sql /\ r_default_db r = db /\ prep r = Ok b /\
    BindSQL b = r_bind_sql r /\ UFIDelateTime b = r_update_time r /\ Status b <> deleted.
Proof.
  intros (r & (Hr & _ & _) & E1 & E2 & Ep & Hd). exists r. destruct (prep_fields _ _ Ep) as (F1 & F2 & F3).
  by rewrite F2.
Qed.

(** Applying a row that could be prepared. *)
Lemma apply_row tbl c r b : loaded_cache tbl c -> (forall y, y ∈ tbl -> before y r) -> ids_agree (tbl ++ [r]) -> prep r = Ok b ->
  exists c', apply_record c (DigestNormalized (r_original_sql r)) (MkRecord (r_original_sql r) (r_default_db r) [b]) = Some c' /\
    loaded_cache (tbl ++ [r]) c'.
Proof.
  intros [Hok Ht Hh] Hb Ha Ep. destruct (prep_fields _ _ Ep) as (F1 & F2 & F3).
  destruct (apply_record_is c (MkRecord (r_original_sql r) (r_default_db r) [b]) Hok) as (c' & E & Hok' & El).
  exists c'. split; [done|]. simpl in El. unfold rec_key in El. simpl in El.
  set (l := lookup_bindings c (r_original_sql r) (r_default_db r)) in *.
  destruct (merge_one l b) as [Hd Hm].
  { apply Ht. }
  { intros x Hx. apply Hh, in_force_fields in Hx as (rx & Hrx & E1 & E2 & Epx & _).
    apply (Ha rx r); [set_solver..|done|done|done|done]. }
  { intros x Hx. apply Hh, in_force_fields in Hx as (rx & Hrx & E1 & E2 & Epx & _ & E3 & _).
    rewrite F3, E3. by apply Hb. }
  split; [done| |].
  - intros sql db. rewrite El. case_decide; [|apply Ht]. simplify_eq. fold l.
    eapply sublist_NoDup; [exact Hd|]. apply fmap_sublist, sublist_filter.
  - intros sql db b'. rewrite El. unfold in_force. setoid_rewrite newest_row_snoc; [|done]. case_decide as Ek; simplify_eq.
    + fold l. rewrite list_elem_of_filter, Hm. split.
      * intros [Hnd [->|[Hb' Hq]]].
        -- exists r. rewrite <- F2. repeat split; try done. left. split; [done|by exists b].
        -- apply Hh in Hb' as (x & Hx & E1 & E2 & Epx & Hdx). exists x. repeat split; try done. right. split; [done|].
           intros _ Ekx. unfold row_key in Ekx. simplify_eq. destruct (prep_fields _ _ Epx) as (G1 & _). congruence.
      * intros (x & [[-> _]|[Hx Hk]] & E1 & E2 & Epx & Hdx).
        -- rewrite Ep in Epx. simplify_eq. rewrite F2. split; [done|by left].
        -- destruct (prep_fields _ _ Epx) as (G1 & G2 & _). rewrite G2. split; [done|]. right. split; [apply Hh; by exists x|].
           rewrite F1, G1. intros Eq. apply Hk; [by exists b|]. unfold row_key. congruence.
    + rewrite Hh. split.
      * intros (x & Hx & E1 & E2 & Epx & Hdx). exists x. repeat split; try done. right. split; [done|].
        unfold row_key. congruence.
      * intros (x & [[-> _]|[Hx Hk]] & E1 & E2 & Epx & Hdx); [congruence|]. by exists x.
Qed.
(** A row that could not be prepared changes nothing. *)
Lemma skip_row tbl c r : loaded_cache tbl c -> (forall y, y ∈ tbl -> before y r) -> ~ ready r -> loaded_cache (tbl ++ [r]) c.
Proof.
  intros [Hok Ht Hh] Hb Hr. split; [done..|]. intros sql db b. rewrite Hh. unfold in_force.
  setoid_rewrite newest_row_snoc; [|done]. split; intros (x & Hx & E); exists x; (split; [|done]).
  - right. by split.
  - by destruct Hx as [[_ ?]|[? _]].
Qed.

(** ** All rows *)

Lemma loaded_cache_nil : loaded_cache [] ∅.
Proof.
  split; [apply cache_ok_empty| |].
  - intros sql db. rewrite lookup_bindings_is, (lookup_empty (M := gmap string)). constructor.
  - intros sql db b. rewrite lookup_bindings_is, (lookup_empty (M := gmap string)). simpl. split; [set_solver|].
    intros (r & (Hr & _) & _). set_solver.
Qed.

Lemma ids_agree_sub tbl tbl' : (forall r, r ∈ tbl -> r ∈ tbl') -> ids_agree tbl' -> ids_agree tbl.
Proof. intros Hs Ha r r' b b' Hr Hr'. apply Ha; auto. Qed.

Lemma newest_time_ge r last : 
  0 <= Compare (if 0 <? Compare (r_update_time r) last then r_update_time r else last) (r_update_time r) /\
  0 <= Compare (if 0 <? Compare (r_update_time r) last then r_update_time r else last) last.
Proof.
  destruct (Z.ltb_spec 0 (Compare (r_update_time r) last)); rewrite ?Compare_self; (split; [|lia || done]); [lia|].
  apply Compare_le. lia.
Qed.

Lemma apply_rows_is rows : session_explains -> forall seen last c h,
  loaded_cache seen c -> StronglySorted before rows -> (forall x r, x ∈ seen -> r ∈ rows -> before x r) ->
  ids_agree (seen ++ rows) ->
  exists s last' c', apply_rows rows last c h = (Ret (last', c'), set_sctx s h) /\ loaded_cache (seen ++ rows) c' /\
    (forall r, r ∈ rows -> 0 <= Compare last' (r_update_time r)) /\ 0 <= Compare last' last /\
    (last' = last \/ exists r, r ∈ rows /\ last' = r_update_time r).
Proof.
  intros Hex. induction rows as [|r rows IH]; intros seen last c h Hc Hs Hb Ha.
  - exists (h_sctx h), last, c. rewrite app_nil_r. split; [by destruct h|]. split; [done|].
    split; [set_solver|]. split; [by rewrite Compare_self|by left].
  - apply StronglySorted_inv in Hs as [Hs Hr]. rewrite Forall_forall in Hr.
    destruct (newBindRecord_is r h Hex) as [s1 E1]. destruct (newest_time_ge r last) as [T1 T2].
    set (last1 := if 0 <? Compare (r_update_time r) last then r_update_time r else last) in *.
    assert (Hseen : forall y, y ∈ seen -> before y r) by (intros y Hy; apply Hb; [done|left]).
    assert (Hc1 : exists c1, match prepared r with Ok meta => apply_record c (DigestNormalized (r_original_sql r)) meta = Some c1
      | Err _ => c1 = c end /\ loaded_cache (seen ++ [r]) c1).
    { unfold prepared. destruct (prep r) as [b|e] eqn:Ep.
      - apply apply_row; try done. eapply ids_agree_sub; [|exact Ha]. set_solver.
      - exists c. split; [done|]. apply skip_row; try done. intros [b Eb]. congruence. }
    destruct Hc1 as (c1 & Ec1 & Hc1).
    destruct (IH (seen ++ [r]) last1 c1 (set_sctx s1 h) Hc1 Hs) as (s & last' & c' & E & Hc' & Hle & Hge & Hl).
    { intros x y [Hx| ->%list_elem_of_singleton]%elem_of_app Hy; [apply Hb; [done|by right]|by apply Hr]. }
    { by rewrite <- app_assoc. }
    exists s, last', c'. rewrite <- app_assoc in Hc'. split; [|split; [done|]].
    + simpl. rewrite (bind_Ret _ _ _ _ _ E1). fold last1. destruct (prepared r) as [meta|e].
      * rewrite Ec1. exact E.
      * by subst c1.
    + split; [|split].
      * intros y [->|Hy]%elem_of_cons; [|by apply Hle]. by eapply Compare_trans.
      * by eapply Compare_trans.
      * destruct Hl as [->|(y & Hy & ->)]; [|right; exists y; by split; [right|]].
        unfold last1. destruct (0 <? _); [right; exists r; by split; [left|]|by left].
Qed.

Lemma UFIDelate_is full h seen rows : session_explains ->
  ExecRestrictedALLEGROSQL (load_sql full (lastUFIDelateTime h)) (h_sctx h) = Ok rows ->
  loaded_cache seen (bindInfo h) -> StronglySorted before rows -> (forall x r, x ∈ seen -> r ∈ rows -> before x r) ->
  ids_agree (seen ++ rows) ->
  exists h', UFIDelate full h = (Ret tt, h') /\ loaded_cache (seen ++ rows) (bindInfo h') /\
    (forall r, r ∈ rows -> 0 <= Compare (lastUFIDelateTime h') (r_update_time r)) /\
    0 <= Compare (lastUFIDelateTime h') (lastUFIDelateTime h).
Proof.
  intros Hex Er Hc Hs Hb Ha.
  destruct (apply_rows_is rows Hex seen (lastUFIDelateTime h) (bindInfo h) h Hc Hs Hb Ha) as (s & last & c & E & Hc' & Hle & Hge & _).
  exists (set_last last (set_bindInfo c (set_sctx s h))). split; [|split; [exact Hc'|split; [exact Hle|exact Hge]]].
  unfold UFIDelate. step_exec. rewrite Er. step_exec. by rewrite E.
Qed.

Lemma load_all_rows tbl h : session_explains -> bindInfo h = ∅ ->
  ExecRestrictedALLEGROSQL (load_sql true (lastUFIDelateTime h)) (h_sctx h) = Ok tbl ->
  StronglySorted before tbl -> ids_agree tbl ->
  exists h', UFIDelate true h = (Ret tt, h') /\ loaded tbl h'.
Proof.
  intros Hex E0 Er Hs Ha. destruct (UFIDelate_is true h [] tbl Hex Er) as (h' & E & Hc & Hle & _);
    [rewrite E0; apply loaded_cache_nil|done|set_solver|done|].
  exists h'. split; [exact E|]. by split.
Qed.

(** C25: When the query of the rows succeeds, clearing the cache and loading all
    rows succeeds whatever the cache held, and then the cache holds the bindings
    in force in the table, for every statement and database: of every text the
    newest of the rows whose hints could be prepared, unless it is deleted.  The
    rows come in the order of their times, and the table is one in which the rows
    of one binding have different times ([before]; [BindEx.recreated_is_lost]
    shows why) and texts of one statement have equal hints only when they are
    equal ([ids_agree]: the code takes bindings with equal hints for the same). *)
Theorem ReloadBindings_loads tbl h : session_explains ->
  ExecRestrictedALLEGROSQL (load_sql true ZeroTimestamp) (h_sctx h) = Ok tbl ->
  StronglySorted before tbl -> ids_agree tbl ->
  exists h', ReloadBindings h = (Ret tt, h') /\ loaded tbl h'.
Proof. intros Hex Er. by apply (load_all_rows tbl (set_last ZeroTimestamp (set_bindInfo ∅ h))). Qed.


#[local] Instance later_dec r t : Decision (later r t).
Proof. unfold later. apply _. Defined.



End rows.

(** ** Changes of bindings

    What the statements of a change do is the session's business; of the cache:
    a change that fails leaves it alone, and one that returns has changed the
    bindings of its statement and database, and no others. *)

(** Every value that a computation returns. *)
Definition yields {S A} (m : M S A) (V : A -> Prop) : Prop := forall s a s', m s = (Ret a, s') -> V a.

Lemma yields_ret {S A} (a : A) (V : A -> Prop) : V a -> yields (ret (S := S) a) V.
Proof. intros Ha s b s' [= <- _]. done. Qed.

Lemma yields_any {S A} (m : M S A) : yields m (fun _ => True).
Proof. done. Qed.

Lemma yields_bind {S A B} (m : M S A) (k : A -> M S B) V W :
  yields m V -> (forall a, V a -> yields (k a) W) -> yields (m ≫= k) W.
Proof.
  intros Hm Hk s b s'. unfold mbind, M_bind. destruct (m s) as [[a|e| |] s1] eqn:E; try done.
  intros Eb. eapply Hk; [|exact Eb]. by eapply Hm.
Qed.

Lemma hoare_yields {S A} (Q : S -> Prop) (m : M S A) V :
  keeps Q m -> yields m V -> hoare Q m (fun a s => V a /\ Q s) Q.
Proof.
  intros Hk Hy s Hs. specialize (Hk s Hs). specialize (Hy s). destruct (m s) as [[a|e| |] s'] eqn:E; [|done..].
  split; [by eapply Hy|done].
Qed.

Lemma keeps_catch {S A} (Q : S -> Prop) (m : M S A) : keeps Q m -> keeps Q (catch m).
Proof. intros Hk s Hs. specialize (Hk s Hs). unfold catch. by destruct (m s) as [[]]. Qed.

Section changes.
Context `{BindPkgs}.
Implicit Types (h : BindHandle).

(** The binding with its hints or its times. *)
Definition same_statement (b b' : Binding) : Prop :=
  BindSQL b' = BindSQL b /\ Status b' = Status b /\ Source b' = Source b /\ Charset b' = Charset b.

Lemma prepare_binding_yields {S} (check : string -> M S unit) db b : yields (prepare_binding check db b) (same_statement b).
Proof.
  unfold prepare_binding. destruct (_ || _); [by apply yields_ret|].
  eapply yields_bind; [apply yields_any|intros _ _]. eapply yields_bind; [apply yields_any|intros [hs ws] _].
  eapply yields_bind; [apply yields_any|intros hstr _]. eapply yields_bind; [apply yields_any|intros _ _].
  by apply yields_ret.
Qed.

Lemma prepareHints_yields {S} (check : string -> M S unit) br :
  yields (prepareHints check br) (fun br' => rec_key br' = rec_key br /\ Forall2 same_statement (Bindings br) (Bindings br')).
Proof.
  unfold prepareHints. apply (yields_bind _ _ (fun l => Forall2 same_statement (Bindings br) l)); [|intros l Hl; by apply yields_ret].
  induction (Bindings br) as [|b l IH]; simpl; [by apply yields_ret|].
  eapply yields_bind; [apply prepare_binding_yields|intros b' Hb]. eapply yields_bind; [apply IH|intros l' Hl].
  apply yields_ret. by constructor.
Qed.

Lemma prepare_client_yields client br :
  yields (prepare_client client br) (fun br' => rec_key br' = rec_key br /\ Forall2 same_statement (Bindings br) (Bindings br')).
Proof.
  unfold prepare_client. destruct client as [s|]; [|apply prepareHints_yields].
  intros h br' h'. unfold lift_out. intros [= E _].
  destruct (prepareHints check_in_session br s) as [o s'] eqn:E'. simpl in E. subst o. by eapply prepareHints_yields.
Qed.

(** The cache and the newest time are as they were. *)
Definition same_cache (c : gmap string (list BindRecord)) (t : Time) h : Prop := bindInfo h = c /\ lastUFIDelateTime h = t.

Lemma keeps_on_sctx {A} c t (m : M Session A) : keeps (same_cache c t) (on_sctx m).
Proof. apply keeps_zoom_off. done. Qed.

Lemma keeps_exec c t sql : keeps (same_cache c t) (exec sql).
Proof. apply keeps_bind; [apply keeps_on_sctx|intros _; apply keeps_ret]. Qed.
Hint Resolve keeps_on_sctx keeps_exec keeps_catch : keeps.

Lemma keeps_prepare_client c t client br : keeps (same_cache c t) (prepare_client client br).
Proof.
  unfold prepare_client. destruct client as [s|]; [apply keeps_lift_out|]. unfold prepareHints.
  apply keeps_bind; [|intros l; apply keeps_ret]. induction (Bindings br) as [|b l IH]; simpl; [apply keeps_ret|].
  apply keeps_bind; [unfold prepare_binding; step_keeps|intros b']. step_keeps.
Qed.

Lemma keeps_txn_time c t : keeps (same_cache c t) txn_time.
Proof. unfold txn_time. step_keeps. Qed.

Lemma keeps_GetBindRecord c t hash sql db : keeps (same_cache c t) (GetBindRecord hash sql db).
Proof. unfold GetBindRecord. step_keeps. Qed.

Lemma keeps_insert_bindings c t sql db create now l : keeps (same_cache c t) (insert_bindings sql db create now l).
Proof. induction l as [|b l IH]; simpl; step_keeps. Qed.

Lemma insert_bindings_yields sql db create now l :
  yields (insert_bindings sql db create now l) (fun l' => l' = with_times create now <$> l).
Proof.
  induction l as [|b l IH]; simpl; [by apply yields_ret|]. eapply yields_bind; [apply yields_any|intros _ _].
  eapply yields_bind; [apply IH|intros l' ->]. by apply yields_ret.
Qed.

Lemma keeps_delete_old c t sql db now l : keeps (same_cache c t) (delete_old sql db now l).
Proof. induction l as [|b l IH]; simpl; step_keeps. Qed.
Hint Resolve keeps_prepare_client keeps_txn_time keeps_GetBindRecord keeps_insert_bindings keeps_delete_old : keeps.

(** Creating a record over another one goes on when a statement that marks an
    old row as deleted fails. *)
Lemma delete_old_no_error sql db now l h e : (delete_old sql db now l h).1 <> Fail e.
Proof.
  revert h. induction l as [|b l IH]; intros h; simpl; [done|]. unfold mbind, M_bind.
  unfold catch. by destruct (exec _ h) as [[]].
Qed.

(** The deferred function. *)
Lemma in_transaction_hoare {A} c t (body : M BindHandle A) after V R :
  keeps (same_cache c t) body -> yields body V ->
  (forall a h, V a -> same_cache c t h -> exists h', after a h = (Ret tt, h') /\ R h') ->
  hoare (same_cache c t) (in_transaction body after) (fun _ => R) (same_cache c t).
Proof.
  intros Hk Hy Ha. unfold in_transaction.
  eapply (hoare_bind _ _ _ _ (fun r h => match r with Ok a => V a | Err _ => True end /\ same_cache c t h)).
  - apply hoare_yields; [by apply keeps_catch|]. intros s r s' E. apply catch_Ret in E. destruct r; [by eapply Hy|done].
  - intros [a|e].
    + intros h [Hv Hs]. eapply (hoare_bind _ (fun h => same_cache c t h) _ _ (fun _ => same_cache c t)); [| |exact Hs].
      * eapply hoare_weaken; [apply (hoare_yields _ _ (fun _ => True)); [apply keeps_exec|done]|done|by intros ? ? [_ ?]].
      * intros _ h1 Hs1. destruct (Ha a h1 Hv Hs1) as (h' & -> & Hr). done.
    + intros h [_ Hs]. pose proof (keeps_bind (same_cache c t) (catch (exec "ROLLBACK")) (fun _ => fail (A := unit) e)
        (keeps_catch _ _ (keeps_exec c t _)) (fun _ => keeps_fail _ _) h Hs) as Hk'.
      unfold mbind, M_bind in *. destruct (catch (exec "ROLLBACK") h) as [[]]; done.
Qed.

(** *** The operations *)

Inductive change : Type :=
| Creates (client : option Session) (record : BindRecord)
| Adds (client : option Session) (record : BindRecord)
| Drops (sql db : string) (binding : option Binding).

Definition run_change (ch : change) : M BindHandle unit :=
  match ch with
  | Creates client record => CreateBindRecord client record
  | Adds client record => AddBindRecord client record
  | Drops sql db binding => DropBindRecord sql db binding
  end.

Definition change_key (ch : change) : string * string :=
  match ch with Creates _ record | Adds _ record => rec_key record | Drops sql db _ => (sql, db) end.

(** The bindings of the statement and database before and after: created ones
    replace all, added ones are merged in, unless the plan is known already and
    waits to be verified, and dropped ones go, all when none is named. *)
Definition effect (ch : change) (old new : list Binding) : Prop :=
  match ch with
  | Creates _ record => Forall2 same_statement (Bindings record) new
  | Adds _ record =>
      (exists b l, Bindings record = b :: l /\ Status b = PendingVerify /\ new = old) \/
      exists l, Forall2 same_statement (Bindings record) l /\ new = merge_bindings old old l
  | Drops _ _ None => new = []
  | Drops _ _ (Some b) => new = remove_bindings old [b]
  end.

Definition changed (ch : change) (c : gmap string (list BindRecord)) (t : Time) h : Prop :=
  cache_ok (bindInfo h) /\ lastUFIDelateTime h = t /\
  (forall sql db, (sql, db) <> change_key ch -> lookup_bindings (bindInfo h) sql db = lookup_bindings c sql db) /\
  effect ch (lookup_bindings c (change_key ch).1 (change_key ch).2)
    (lookup_bindings (bindInfo h) (change_key ch).1 (change_key ch).2).

Lemma binding_isSame_refl b : binding_isSame b b = true.
Proof. unfold binding_isSame. destruct (_ && _); by apply bool_decide_true. Qed.

Lemma remove_bindings_self l : remove_bindings l l = [].
Proof. induction l as [|b l IH]; simpl; [done|]. by rewrite binding_isSame_refl. Qed.

Lemma rest_bindings_self br : rest_bindings br (Bindings br) = [].
Proof. unfold rest_bindings. pose proof (remove_bindings_self (Bindings br)). by destruct (Bindings br). Qed.

Lemma appendBindRecord_run meta h : cache_ok (bindInfo h) ->
  exists c, appendBindRecord (DigestNormalized (OriginalSQL meta)) meta h = (Ret tt, set_bindInfo c h) /\ cache_ok c /\
    forall sql db, lookup_bindings c sql db =
      if decide (rec_key meta = (sql, db)) then
        merge_bindings (lookup_bindings (bindInfo h) sql db) (lookup_bindings (bindInfo h) sql db) (Bindings meta)
      else lookup_bindings (bindInfo h) sql db.
Proof.
  intros Hc. destruct (merged_is meta (OriginalSQL meta) (EDB meta) (bindInfo h) eq_refl) as (br & Em & Ek & Eb).
  assert (Eh : DigestNormalized (OriginalSQL meta) = DigestNormalized (OriginalSQL br)) by (unfold rec_key in Ek; congruence).
  exists (set_at br (bindInfo h)). split; [|split].
  - unfold appendBindRecord. step_exec. rewrite Em. unfold set_at. by rewrite <- Eh.
  - by apply cache_ok_set.
  - intros sql db. rewrite lookup_set, Ek. case_decide as E; [|done]. injection E as <- <-. done.
Qed.

Lemma Forall2_with_times create now l l' : Forall2 same_statement l l' -> Forall2 same_statement l (with_times create now <$> l').
Proof. intros F. induction F; csimpl; by constructor. Qed.

Lemma keeps_create_body c t record old : keeps (same_cache c t) (create_body record old).
Proof. unfold create_body. destruct old; step_keeps. Qed.

Lemma keeps_add_body c t record d : keeps (same_cache c t) (add_body record d).
Proof. unfold add_body. destruct d; step_keeps. Qed.

Lemma create_body_yields record old :
  yields (create_body record old) (fun r => rec_key r = rec_key record /\ forall l, Forall2 same_statement l (Bindings record) ->
    Forall2 same_statement l (Bindings r)).
Proof.
  unfold create_body. eapply yields_bind; [apply yields_any|intros now _]. eapply yields_bind; [apply yields_any|intros _ _].
  eapply yields_bind; [apply insert_bindings_yields|intros l' ->]. apply yields_ret. split; [done|].
  intros l. apply Forall2_with_times.
Qed.

Lemma add_body_yields record d :
  yields (add_body record d) (fun r => rec_key r = rec_key record /\ forall l, Forall2 same_statement l (Bindings record) ->
    Forall2 same_statement l (Bindings r)).
Proof.
  unfold add_body. eapply yields_bind; [apply yields_any|intros now _]. eapply yields_bind; [apply yields_any|intros _ _].
  eapply yields_bind; [apply insert_bindings_yields|intros l' ->]. apply yields_ret. split; [done|].
  intros l. apply Forall2_with_times.
Qed.

Lemma remove_old_run sql db h : cache_ok (bindInfo h) ->
  exists c, match getBindRecord (bindInfo h) (DigestNormalized sql) sql db with
    | Some old => removeBindRecord (DigestNormalized sql) old
    | None => ret tt
    end h = (Ret tt, set_bindInfo c h) /\ cache_ok c /\
    forall sql' db', lookup_bindings c sql' db' =
      if decide ((sql, db) = (sql', db')) then [] else lookup_bindings (bindInfo h) sql' db'.
Proof.
  intros Hc. destruct (getBindRecord _ _ _ _) as [old|] eqn:E.
  - pose proof (find_record_key _ _ _ _ E) as [_ Ek]. unfold rec_key in Ek. injection Ek as Ek1 Ek2.
    exists (remove_at old (bindInfo h)). split; [|split].
    + unfold remove_at. by rewrite Ek1.
    + by apply cache_ok_remove.
    + intros sql' db'. rewrite lookup_remove by done. unfold rec_key. rewrite Ek1, Ek2. case_decide as Ed; [|done].
      injection Ed as <- <-. unfold lookup_bindings. rewrite E. apply rest_bindings_self.
  - exists (bindInfo h). split; [by destruct h|]. split; [done|]. intros sql' db'. case_decide as Ed; [|done].
    injection Ed as <- <-. unfold lookup_bindings. by rewrite E.
Qed.

Lemma Create_hoare client record c t : cache_ok c ->
  hoare (same_cache c t) (CreateBindRecord client record) (fun _ => changed (Creates client record) c t) (same_cache c t).
Proof.
  intros Hc. unfold CreateBindRecord.
  eapply hoare_bind; [apply hoare_yields; [apply keeps_prepare_client|apply prepare_client_yields]|intros r].
  intros h [[Ek Hf] Hs]. revert h Hs.
  eapply (hoare_bind _ _ _ _ (fun _ => same_cache c t)).
  { eapply hoare_weaken; [apply (hoare_yields _ _ (fun _ => True)); [apply keeps_exec|done]|done|by intros ? ? [_ ?]]. }
  intros _ h Hs. rewrite (bind_Ret (GetBindRecord _ _ _) _ h _ h eq_refl).
  destruct Hs as [<- <-].
  apply (in_transaction_hoare _ _ _ _ _ _ (keeps_create_body _ _ _ _) (create_body_yields _ _)); [|done].
  intros a h1 [Ea Hb] [E1 E2]. specialize (Hb _ Hf).
  assert (Eq : OriginalSQL a = OriginalSQL r) by (unfold rec_key in Ea; congruence).
  rewrite <- E1 in *. destruct (remove_old_run (OriginalSQL r) (EDB r) h1 Hc) as (c1 & Er & Hc1 & L1).
  destruct (appendBindRecord_run a (set_bindInfo c1 h1) Hc1) as (c2 & Ep & Hc2 & L2). rewrite <- Eq in *.
  eexists. rewrite (bind_Ret _ _ _ _ _ Er). split; [exact Ep|].
  assert (Er' : (OriginalSQL a, EDB r) = rec_key record) by (rewrite <- Ek, <- Ea; unfold rec_key in *; congruence).
  assert (Ea' : rec_key a = rec_key record) by congruence. rewrite Er' in L1. rewrite Ea' in L2.
  split; [done|]. split; [done|]. split.
  - intros sql db Hn. simpl. rewrite L2, decide_False by (simpl in *; congruence). simpl. by rewrite L1, decide_False.
  - simpl. rewrite L2, decide_True by done. simpl. rewrite L1, decide_True by done. by rewrite merge_bindings_nil.
Qed.

Lemma Drop_hoare sql db b c t : cache_ok c ->
  hoare (same_cache c t) (DropBindRecord sql db b) (fun _ => changed (Drops sql db b) c t) (same_cache c t).
Proof.
  intros Hc. unfold DropBindRecord. eapply (hoare_bind _ _ _ _ (fun _ => same_cache c t)).
  { eapply hoare_weaken; [apply (hoare_yields _ _ (fun _ => True)); [apply keeps_exec|done]|done|by intros ? ? [_ ?]]. }
  intros _. apply (in_transaction_hoare _ _ _ _ (fun _ => True)); [step_keeps|done|].
  intros _ h _ [<- <-]. set (meta := MkRecord sql db match b with Some b => [b] | None => [] end).
  exists (set_bindInfo (remove_at meta (bindInfo h)) h). split; [done|]. split; [by apply cache_ok_remove|].
  split; [done|]. split.
  - intros sql' db' Hn. simpl in *. rewrite lookup_remove by done. unfold rec_key. simpl. by rewrite decide_False by congruence.
  - simpl. rewrite lookup_remove by done. unfold rec_key. simpl. rewrite decide_True by done. by destruct b.
Qed.

Lemma Add_hoare client record c t : cache_ok c ->
  hoare (same_cache c t) (AddBindRecord client record) (fun _ => changed (Adds client record) c t) (same_cache c t).
Proof.
  intros Hc. unfold AddBindRecord.
  eapply hoare_bind; [apply hoare_yields; [apply keeps_prepare_client|apply prepare_client_yields]|intros r].
  intros h [[Ek Hf] Hs]. revert h Hs. eapply (hoare_bind _ _ _ _ (fun _ => same_cache c t)).
  { eapply hoare_weaken; [apply (hoare_yields _ _ (fun _ => True)); [apply keeps_GetBindRecord|done]|done|by intros ? ? [_ ?]]. }
  intros old. eapply (hoare_bind _ _ _ _ (fun _ => same_cache c t)).
  { eapply hoare_weaken; [apply (hoare_yields _ _ (fun _ => True)); [step_keeps|done]|done|by intros ? ? [_ ?]]. }
  intros d. eapply hoare_bind.
  { apply (hoare_yields _ _ (fun cancel : bool => cancel = true -> exists b l, Bindings r = b :: l /\ Status b = PendingVerify)); [step_keeps|].
    destruct d as [d|]; [|by apply yields_ret]. intros h x h'. destruct (Bindings r) as [|b1 l]; [done|]. step_exec. intros [= <- _] Ex.
    apply bool_decide_eq_true in Ex. eauto. }
  intros cancel h [Hx Hs]. destruct cancel; [|clear Hx; revert h Hs].
  - destruct (Hx eq_refl) as (b & l & Eb & Es), Hs as [<- <-]. simpl. split; [done|]. split; [done|]. split; [done|]. left.
    rewrite Eb in Hf. destruct (Bindings record) as [|b0 l0]; [by inversion Hf|]. apply Forall2_cons_1 in Hf as [(_ & Es' & _) _].
    exists b0, l0. split; [done|]. split; [congruence|done].
  - eapply (hoare_bind _ _ _ _ (fun _ => same_cache c t)).
    { eapply hoare_weaken; [apply (hoare_yields _ _ (fun _ => True)); [apply keeps_exec|done]|done|by intros ? ? [_ ?]]. }
    intros _. apply (in_transaction_hoare _ _ _ _ _ _ (keeps_add_body _ _ _ _) (add_body_yields _ _)).
    intros a h [Ea Hb] [<- <-]. specialize (Hb _ Hf). assert (Ea' : rec_key a = rec_key record) by congruence.
    assert (Eq : OriginalSQL r = OriginalSQL a) by (unfold rec_key in *; congruence). rewrite Eq.
    destruct (appendBindRecord_run a h Hc) as (c2 & Ep & Hc2 & L2). eexists. split; [exact Ep|]. rewrite Ea' in L2.
    split; [done|]. split; [done|]. split.
    + intros sql db Hn. simpl in *. by rewrite L2, decide_False by congruence.
    + simpl. right. exists (Bindings a). split; [done|]. by rewrite L2, decide_True.
Qed.

(** C24: a change of a binding that ends in an error leaves the cache and the
    newest time as they were; one that returns has created, merged in or removed
    the bindings of its statement and database and left all others alone, and
    keeps the buckets well-formed. *)
Theorem change_or_nothing ch h : cache_ok (bindInfo h) ->
  match run_change ch h with
  | (Ret _, h') => changed ch (bindInfo h) (lastUFIDelateTime h) h'
  | (_, h') => bindInfo h' = bindInfo h /\ lastUFIDelateTime h' = lastUFIDelateTime h
  end.
Proof.
  intros Hc. destruct ch as [client record|client record|sql db b]; simpl;
    [apply Create_hoare|apply Add_hoare|apply Drop_hoare]; done.
Qed.
End changes.

(** ** Examples

    A session that is the table: it answers the queries of the rows, and takes
    all other statements.  Times are numbers, written as so many characters. *)
Module BindEx.

Definition tally (t : Z) : string := Nat.iter (Z.to_nat t) (String (Ascii.ascii_of_nat 73)) EmptyString.

(** The time in a query of the rows that are newer. *)
Definition asked (sql : string) : Z :=
  if bool_decide ((String.length sql <= 160)%nat) then -1 else Z.of_nat (String.length sql) - 182.

#[local] Instance ex_pkgs : BindPkgs := {|
  Time := Z;
  Compare := Z.sub;
  ZeroTimestamp := 0;
  TimeString := tally;
  TimeFromTS := fun ts => ts;
  Quote := fun q => q;
  DigestNormalized := fun q => q;
  HintsSet := string;
  ParseHintsSet := fun q _ _ _ => Ok (q, []);
  HintsRestore := fun q => Ok q;
  Session := list (BindRow Z);
  RecordSet := unit;
  ExecuteInternal := fun _ s => (Ret [tt], s);
  FirstString := fun _ => Ret EmptyString;
  StartTS := fun _ => Ok 9;
  UsePlanBaselines := fun _ => true;
  set_UsePlanBaselines := fun _ s => s;
  set_CurrentDB := fun _ s => s;
  ExecRestrictedALLEGROSQL := fun sql s => Ok (filter (fun r => asked sql < r_update_time r) s);
|}.

Definition row (sql text status : string) (t : Time) : BindRow Time := MkRow sql text "test" status (1 : Z) t "utf8" "bin" "manual".

#[local] Instance ex_laws : TimeLaws.
Proof. split; simpl; intros; lia. Qed.

Definition yes (_ _ : string) : res unit := Ok tt.

Lemma ex_explains : session_explains yes.
Proof. by intros db q s. Qed.

(** A handle whose session is a table, and one that comes to see another. *)
Definition handle (t : list (BindRow Time)) : BindHandle := @NewBindHandle ex_pkgs t.
Definition sees (t : list (BindRow Time)) (h : BindHandle) : BindHandle := @set_sctx ex_pkgs t h.

(** Later, one text is deleted and another one comes. *)
Definition table1 : list (BindRow Time) := [row "q" "t1" Using 2; row "q" "t2" Using 3].
Definition table2 : list (BindRow Time) := [row "q" "t2" Using 3; row "q" "t1" deleted 4; row "q" "t3" Using 5].

Lemma prep_yes r b : prep yes r = Ok b -> ID b = EmptyString \/ ID b = BindSQL b.
Proof. unfold prep, prepare_binding, catch. destruct (_ || _); simpl; intros [= <-]; simpl; auto. Qed.

Lemma ids_agree_yes tbl : ids_agree yes tbl.
Proof.
  intros r r' b b' _ _ _ _ [E|E]%prep_yes [E'|E']%prep_yes; unfold same_text, binding_isSame; rewrite E, E'; simpl;
    rewrite ?andb_false_r; try done. by destruct (_ && _).
Qed.

Ltac ex_sorted := repeat constructor; vm_compute; done.

Example loads_then_updates :
  let h1 := (ReloadBindings (handle table1)).2 in
  let h2 := (UFIDelate false (sees table2 h1)).2 in
  (BindSQL <$> lookup_bindings (bindInfo h1) "q" "test", BindSQL <$> lookup_bindings (bindInfo h2) "q" "test", lastUFIDelateTime h2) =
  (["t1"; "t2"], ["t2"; "t3"], 5).
Proof. vm_compute. reflexivity. Qed.

Lemma ReloadBindings_loads_witness :
  exists h', ReloadBindings (handle table1) = (Ret tt, h') /\ loaded yes table1 h'.
Proof.
  apply (ReloadBindings_loads yes table1 (handle table1)); [exact ex_explains|vm_compute; reflexivity|ex_sorted|apply ids_agree_yes].
Defined.




Lemma drop_runs sql db b h : exists h', DropBindRecord sql db b h = (Ret tt, h').
Proof. by eexists. Qed.

(** A loaded handle drops all bindings of a statement. *)
Lemma change_or_nothing_witness :
  exists h h', loaded yes table1 h /\ run_change (Drops "q" "test" None) h = (Ret tt, h') /\
    changed (Drops "q" "test" None) (bindInfo h) (lastUFIDelateTime h) h'.
Proof.
  destruct (load_all_rows yes table1 (handle table1) ex_explains eq_refl eq_refl) as (h1 & E1 & Hl);
    [ex_sorted|apply ids_agree_yes|].
  pose proof (change_or_nothing (Drops "q" "test" None) h1 (lc_ok _ _ _ (l_cache _ _ _ Hl))) as W.
  destruct (drop_runs "q" "test" None h1) as [h' E]. simpl run_change in *. rewrite E in W.
  exact (ex_intro _ h1 (ex_intro _ h' (conj Hl (conj E W)))).
Defined.

(** Creating a binding that exists already marks its row as deleted and inserts
    a new one, both with the time of the transaction, which is all that the rows
    are ordered by: when the deleted one comes last, another server, which loads
    them, loses the binding. *)
Definition recreated : list (BindRow Time) := [row "q" "t1" Using 4; row "q" "t1" deleted 4].

Example recreated_is_lost :
  let h1 := (ReloadBindings (handle [row "q" "t1" Using 2])).2 in
  let h2 := (UFIDelate false (sees recreated h1)).2 in
  let h2' := (UFIDelate false (sees (rev recreated) h1)).2 in
  (BindSQL <$> lookup_bindings (bindInfo h2) "q" "test", BindSQL <$> lookup_bindings (bindInfo h2') "q" "test") = ([], ["t1"]).
Proof. vm_compute. reflexivity. Qed.
End BindEx.
