(* ===== verification/InfoSchema.v ===== *)
(** * The information schema (schemareplicant/infoschema.go)

    A schema replicant is the set of databases and tables at one version of the
    schema: databases by name, each with its tables by name, and the tables by
    identifier in 512 sorted buckets.  Replicants of successive versions share
    their databases, tables and buckets through pointers, so the objects live in
    a heap.

    Tables, their column and table descriptions and their allocators are
    packages that are not in the repository. *)

From stdpp Require Import base gmap list option strings.
From Stdlib Require Import ZArith Lia.
From S2P Require Import Prelude External GoMonad GoHeap.

Local Open Scope Z_scope.

(** ** Descriptions *)

(** [perceptron.CIStr]: a name as it was written and in lower case. *)
Record CIStr : Type := MkCIStr { cs_O : string; cs_L : string }.

Record DeferredCausetInfo : Type := MkColumnInfo {
  dci_Name : CIStr; dci_Version : Z; dci_Charset : string; dci_DefCauslate : string; dci_Flag : Z }.

(** [perceptron.BlockInfo]: the fields that the code reads.  [bi_Partition] is
    what [GetPartitionInfo] gives: the identifiers of the partitions. *)
Record BlockInfo : Type := MkBlockInfo {
  bi_ID : Z;
  bi_Name : CIStr;
  bi_Version : Z;
  bi_Charset : string;
  bi_DefCauslate : string;
  bi_DeferredCausets : list DeferredCausetInfo;
  bi_Partition : option (list Z);
  bi_IsView : bool;
  bi_IsSequence : bool;
  bi_State : Z;
}.

(** [perceptron.DBInfo]; its blocks are a slice of pointers. *)
Record DBInfo : Type := MkDBInfo {
  db_ID : Z;
  db_Name : CIStr;
  db_Charset : string;
  db_DefCauslate : string;
  db_State : Z;
  db_Blocks : slice;
}.

(** Packages causet, autoid, blocks, charset, config and mysql. *)
Class InfoPkgs : Type := {
  SlabPredictor : Type;
  GetType : SlabPredictor -> Z;
  EventIDAllocType : Z;
  AutoIncrementType : Z;
  AutoRandomType : Z;
  NewSlabPredictorsFromTblInfo : Z -> BlockInfo -> list SlabPredictor;
  NewSlabPredictor : Z -> bool -> Z -> SlabPredictor;
  IsAutoIncDefCausUnsigned : BlockInfo -> bool;
  IsAutoRandomBitDefCausUnsigned : BlockInfo -> bool;
  Block : Type;
  Meta : Block -> BlockInfo;
  SlabPredictors : Block -> list SlabPredictor;
  BlockFromMeta : list SlabPredictor -> BlockInfo -> res Block;
  BlockInfoVersion2 : Z;
  BlockInfoVersion3 : Z;
  DeferredCausetInfoVersion2 : Z;
  CharsetUTF8 : string;
  CharsetUTF8MB4 : string;
  DefCauslationUTF8MB4 : string;
  TreatOldVersionUTF8AsUTF8MB4 : bool;
  ToLower : string -> string;
  HasAutoIncrementFlag : Z -> bool;
  StatePublic : Z;
}.

(** ** The heap *)

Section infoschema.
Context `{InfoPkgs} `{Growth} `{Sorter}.

Record schemaBlocks : Type := MkSchemaBlocks { sb_dbInfo : Z; sb_blocks : gmap string Block }.

Record schemaReplicant : Type := MkReplicant {
  schemaMap : gmap string Z;
  sortedBlocksBuckets : list slice;
  schemaMetaVersion : Z;
}.

(** Objects by address; addresses from [hp_next] on are free. *)
Record heap : Type := MkHeap {
  hp_next : Z;
  hp_is : gmap Z schemaReplicant;
  hp_sb : gmap Z schemaBlocks;
  hp_db : gmap Z DBInfo;
  hp_blocks : gmap Z (array Block);
  hp_infos : gmap Z (array BlockInfo);
}.

Definition with_is (f : gmap Z schemaReplicant -> gmap Z schemaReplicant) (h : heap) : heap :=
  MkHeap (hp_next h) (f (hp_is h)) (hp_sb h) (hp_db h) (hp_blocks h) (hp_infos h).
Definition with_sb (f : gmap Z schemaBlocks -> gmap Z schemaBlocks) (h : heap) : heap :=
  MkHeap (hp_next h) (hp_is h) (f (hp_sb h)) (hp_db h) (hp_blocks h) (hp_infos h).
Definition with_db (f : gmap Z DBInfo -> gmap Z DBInfo) (h : heap) : heap :=
  MkHeap (hp_next h) (hp_is h) (hp_sb h) (f (hp_db h)) (hp_blocks h) (hp_infos h).
Definition with_blocks (f : gmap Z (array Block) -> gmap Z (array Block)) (h : heap) : heap :=
  MkHeap (hp_next h) (hp_is h) (hp_sb h) (hp_db h) (f (hp_blocks h)) (hp_infos h).
Definition with_infos (f : gmap Z (array BlockInfo) -> gmap Z (array BlockInfo)) (h : heap) : heap :=
  MkHeap (hp_next h) (hp_is h) (hp_sb h) (hp_db h) (hp_blocks h) (f (hp_infos h)).

(** A new address. *)
Definition new_loc : M heap Z := fun h =>
  (Ret (hp_next h), MkHeap (hp_next h + 1) (hp_is h) (hp_sb h) (hp_db h) (hp_blocks h) (hp_infos h)).

(** Loads; a [nil] pointer panics. *)
Definition load_is (l : Z) : M heap schemaReplicant := h ← get; lift_opt (hp_is h !! l).
Definition load_sb (l : Z) : M heap schemaBlocks := h ← get; lift_opt (hp_sb h !! l).
Definition load_db (l : Z) : M heap DBInfo := h ← get; lift_opt (hp_db h !! l).
Definition read_blocks (s : slice) : M heap (list Block) := h ← get; ret (sl_read (hp_blocks h) s).
Definition read_infos (s : slice) : M heap (list BlockInfo) := h ← get; ret (sl_read (hp_infos h) s).

Definition store_is (l : Z) (v : schemaReplicant) : M heap unit := modify (with_is <[l := v]>).
Definition store_sb (l : Z) (v : schemaBlocks) : M heap unit := modify (with_sb <[l := v]>).
Definition store_db (l : Z) (v : DBInfo) : M heap unit := modify (with_db <[l := v]>).

(** [append] on the two kinds of slices. *)
Definition append_blocks (s : slice) (xs : list Block) : M heap slice :=
  loc ← new_loc;
  h ← get;
  modify (with_blocks (fun m => (sl_append loc m s xs).2));;
  ret (sl_append loc (hp_blocks h) s xs).1.
Definition append_infos (s : slice) (xs : list BlockInfo) : M heap slice :=
  loc ← new_loc;
  h ← get;
  modify (with_infos (fun m => (sl_append loc m s xs).2));;
  ret (sl_append loc (hp_infos h) s xs).1.

(** ** Sorted tables *)

Definition block_less (a b : Block) : bool := bi_ID (Meta a) <? bi_ID (Meta b).

(** [sort.Sort] of the tables of a bucket, in place. *)
Definition sort_blocks (s : slice) : M heap unit :=
  tbls ← read_blocks s;
  if decide (tbls = []) then ret tt else modify (with_blocks (fun m => sl_write m s 0 (sort_Sort block_less tbls))).

(** The index of the table, [None] for -1. *)
Definition searchBlock (s : list Block) (id : Z) : option nat :=
  let idx := sort_Search (length s) (fun i => match s !! i with Some b => id <=? bi_ID (Meta b) | None => false end) in
  match s !! idx with
  | Some b => if negb (bi_ID (Meta b) =? id) then None else Some idx
  | None => None
  end.

Definition bucketCount : nat := 512.

(** [%] of Go keeps the sign. *)
Definition blockBucketIdx (blockID : Z) : Z := Z.rem blockID (Z.of_nat bucketCount).

(** ** Lookups *)

(** The orders in which ranges over maps and sets visit them. *)
Context (range_schemas : gmap string Z -> list (string * Z)).
Context (range_blocks : gmap string Block -> list (string * Block)).

Definition ErrDatabaseNotExists : goerror := ErrOther "database does not exist"%string.
Definition ErrBlockNotExists : goerror := ErrOther "table does not exist"%string.
Definition ErrWrongObject : goerror := ErrOther "not a sequence"%string.

Definition SchemaByName (info : Z) (name : CIStr) : M heap (option Z) :=
  v ← load_is info;
  match schemaMap v !! cs_L name with
  | None => ret None
  | Some blockNames => sb ← load_sb blockNames; ret (Some (sb_dbInfo sb))
  end.

Definition SchemaMetaVersion (info : Z) : M heap Z := v ← load_is info; ret (schemaMetaVersion v).

Definition SchemaExists (info : Z) (name : CIStr) : M heap bool :=
  v ← load_is info; ret (bool_decide (is_Some (schemaMap v !! cs_L name))).

(** The table of the name, if there is one. *)
Definition block_named (info : Z) (schema causet : CIStr) : M heap (option Block) :=
  v ← load_is info;
  match schemaMap v !! cs_L schema with
  | None => ret None
  | Some tbNames => sb ← load_sb tbNames; ret (sb_blocks sb !! cs_L causet)
  end.

Definition BlockByName (info : Z) (schema causet : CIStr) : M heap Block :=
  t ← block_named info schema causet;
  match t with Some t => ret t | None => fail ErrBlockNotExists end.

Definition BlockIsView (info : Z) (schema causet : CIStr) : M heap bool :=
  t ← block_named info schema causet;
  ret (match t with Some t => bi_IsView (Meta t) | None => false end).

Definition BlockIsSequence (info : Z) (schema causet : CIStr) : M heap bool :=
  t ← block_named info schema causet;
  ret (match t with Some t => bi_IsSequence (Meta t) | None => false end).

Definition BlockExists (info : Z) (schema causet : CIStr) : M heap bool :=
  t ← block_named info schema causet;
  ret (bool_decide (is_Some t)).

Definition SequenceByName (info : Z) (schema sequence : CIStr) : M heap Block :=
  tbl ← BlockByName info schema sequence;
  if negb (bi_IsSequence (Meta tbl)) then fail ErrWrongObject else ret tbl.

Fixpoint schema_with_id (schemas : list (string * Z)) (id : Z) : M heap (option Z) :=
  match schemas with
  | [] => ret None
  | (_, v) :: schemas =>
      sb ← load_sb v;
      di ← load_db (sb_dbInfo sb);
      if db_ID di =? id then ret (Some (sb_dbInfo sb)) else schema_with_id schemas id
  end.

Definition SchemaByID (info : Z) (id : Z) : M heap (option Z) :=
  v ← load_is info; schema_with_id (range_schemas (schemaMap v)) id.

Fixpoint schema_with_block (schemas : list (string * Z)) (blockInfo : BlockInfo) : M heap (option Z) :=
  match schemas with
  | [] => ret None
  | (_, v) :: schemas =>
      sb ← load_sb v;
      match sb_blocks sb !! cs_L (bi_Name blockInfo) with
      | Some tbl =>
          if bi_ID (Meta tbl) =? bi_ID blockInfo then ret (Some (sb_dbInfo sb)) else schema_with_block schemas blockInfo
      | None => schema_with_block schemas blockInfo
      end
  end.

Definition SchemaByBlock (info : Z) (blockInfo : option BlockInfo) : M heap (option Z) :=
  match blockInfo with
  | None => ret None
  | Some blockInfo => v ← load_is info; schema_with_block (range_schemas (schemaMap v)) blockInfo
  end.

Definition BlockByID (info : Z) (id : Z) : M heap (option Block) :=
  v ← load_is info;
  slice ← lift_opt (at_ (sortedBlocksBuckets v) (blockBucketIdx id));
  tbls ← read_blocks slice;
  ret (idx ← searchBlock tbls id; tbls !! idx).

Definition AllocByID (info : Z) (id : Z) : M heap (option (list SlabPredictor)) :=
  tbl ← BlockByID info id; ret (SlabPredictors <$> tbl).

(** The databases in the order of the range. *)
Fixpoint all_schemas (schemas : list (string * Z)) : M heap (list Z) :=
  match schemas with
  | [] => ret []
  | (_, v) :: schemas => sb ← load_sb v; l ← all_schemas schemas; ret (sb_dbInfo sb :: l)
  end.

Definition AllSchemas (info : Z) : M heap (list Z) :=
  v ← load_is info; all_schemas (range_schemas (schemaMap v)).

Fixpoint schema_names (dbs : list Z) : M heap (list string) :=
  match dbs with
  | [] => ret []
  | l :: dbs => di ← load_db l; names ← schema_names dbs; ret (cs_O (db_Name di) :: names)
  end.

Definition AllSchemaNames (info : Z) : M heap (list string) := dbs ← AllSchemas info; schema_names dbs.

Definition SchemaBlocks (info : Z) (schema : CIStr) : M heap (list Block) :=
  v ← load_is info;
  match schemaMap v !! cs_L schema with
  | None => ret []
  | Some l => sb ← load_sb l; ret ((range_blocks (sb_blocks sb)).*2)
  end.

(** The first table with the partition, among those of a database. *)
Definition has_partition (partitionID : Z) (tbl : Block) : bool :=
  match bi_Partition (Meta tbl) with
  | None => false
  | Some defs => bool_decide (partitionID ∈ defs)
  end.

Fixpoint find_partition (schemas : list (string * Z)) (partitionID : Z) : M heap (option (Block * Z)) :=
  match schemas with
  | [] => ret None
  | (_, v) :: schemas =>
      sb ← load_sb v;
      match list_find (fun p => has_partition partitionID p.2 = true) (range_blocks (sb_blocks sb)) with
      | Some (_, (_, tbl)) => ret (Some (tbl, sb_dbInfo sb))
      | None => find_partition schemas partitionID
      end
  end.

Definition FindBlockByPartitionID (info : Z) (partitionID : Z) : M heap (option (Block * Z)) :=
  v ← load_is info; find_partition (range_schemas (schemaMap v)) partitionID.

Fixpoint HasAutoIncrement (defcaus : list DeferredCausetInfo) : bool * string :=
  match defcaus with
  | [] => (false, EmptyString)
  | c :: defcaus => if HasAutoIncrementFlag (dci_Flag c) then (true, cs_L (dci_Name c)) else HasAutoIncrement defcaus
  end.

Definition HasAutoIncrementDeferredCauset (tbInfo : BlockInfo) : bool * string :=
  HasAutoIncrement (bi_DeferredCausets tbInfo).
End infoschema.
