(* ===== verification/InfoBuilder.v ===== *)
(** * Building information schemas (schemareplicant/builder.go)

    A builder makes the replicant of a newer version from the published one
    and the changes in between, or from a full list of databases.  The
    published replicant stays as it is for its readers: the builder copies what
    it changes. *)

From stdpp Require Import base gmap list option strings.
From Stdlib Require Import ZArith Lia.
From S2P Require Import Prelude External GoMonad GoHeap InfoSchema.

Local Open Scope Z_scope.

(** ** Changes *)

Inductive CausetActionType : Type :=
| CausetActionCreateSchema | CausetActionDropSchema | CausetActionModifySchemaCharsetAndDefCauslate
| CausetActionCreateBlock | CausetActionCreateSequence | CausetActionRecoverBlock
| CausetActionDropBlock | CausetActionDropView | CausetActionDropSequence
| CausetActionTruncateBlock | CausetActionCreateView | CausetActionExchangeBlockPartition
| CausetActionRenameBlock | CausetActionRepairBlock
| CausetActionRebaseAutoID | CausetActionModifyBlockAutoIdCache | CausetActionRebaseAutoRandomBase
| CausetActionUFIDelateTiFlashReplicaStatus | CausetActionSetTiFlashReplica
| OtherAction (n : Z).

#[export] Instance CausetActionType_eq_dec : EqDecision CausetActionType.
Proof. solve_decision. Defined.

Record AffectedOption : Type := MkAffected {
  ao_SchemaID : Z; ao_BlockID : Z; ao_OldBlockID : Z; ao_OldSchemaID : Z }.

Record SchemaDiff : Type := MkDiff {
  Version : Z;
  Type_ : CausetActionType;
  SchemaID : Z;
  BlockID : Z;
  OldSchemaID : Z;
  OldBlockID : Z;
  AffectedOpts : list AffectedOption;
}.

(** What a [meta.Meta] reads from its snapshot; a database comes without its
    blocks. *)
Record MetaSnapshot : Type := MkMeta {
  GetSchemaVersion : res Z;
  GetSchemaDiff : Z -> res (option SchemaDiff);
  GetDatabase : Z -> res (option DBInfo);
  GetBlock : Z -> Z -> res (option BlockInfo);
  ListDatabases : res (list DBInfo);
  ListBlocks : Z -> res (list BlockInfo);
}.

Section builder.
Context `{InfoPkgs} `{Growth} `{Sorter}.

(** [INTERLOCKy] and [Clone] of a database: package perceptron. *)
Class DBCopies : Type := {
  DB_INTERLOCKy : Z -> M heap Z;
  DB_Clone : Z -> M heap Z;
}.

Context `{!DBCopies}.
Context (range_schemas : gmap string Z -> list (string * Z)).
Context (range_buckets : gset Z -> list Z).

(** The replicant that the builder [b] makes is its only field that changes;
    [b] is the address of that replicant. *)
Definition NewBuilder : M heap Z :=
  b ← new_loc;
  store_is b (MkReplicant ∅ (replicate bucketCount nil_slice) 0);;
  ret b.

(** ** Descriptions of older versions *)

Definition lower_column (defCaus : DeferredCausetInfo) : DeferredCausetInfo :=
  MkColumnInfo (dci_Name defCaus) (dci_Version defCaus) (ToLower (dci_Charset defCaus))
    (ToLower (dci_DefCauslate defCaus)) (dci_Flag defCaus).

Definition set_charset (charset defCauslate : string) (defcaus : list DeferredCausetInfo) (t : BlockInfo) : BlockInfo :=
  MkBlockInfo (bi_ID t) (bi_Name t) (bi_Version t) charset defCauslate defcaus (bi_Partition t) (bi_IsView t)
    (bi_IsSequence t) (bi_State t).

Definition ConvertCharsetDefCauslateToLowerCaseIfNeed (tbInfo : BlockInfo) : BlockInfo :=
  if BlockInfoVersion3 <=? bi_Version tbInfo then tbInfo
  else set_charset (ToLower (bi_Charset tbInfo)) (ToLower (bi_DefCauslate tbInfo))
         (lower_column <$> bi_DeferredCausets tbInfo) tbInfo.

Definition utf8mb4_column (defCaus : DeferredCausetInfo) : DeferredCausetInfo :=
  if (dci_Version defCaus <? DeferredCausetInfoVersion2) && bool_decide (dci_Charset defCaus = CharsetUTF8)
  then MkColumnInfo (dci_Name defCaus) (dci_Version defCaus) CharsetUTF8MB4 DefCauslationUTF8MB4 (dci_Flag defCaus)
  else defCaus.

Definition ConvertOldVersionUTF8ToUTF8MB4IfNeed (tbInfo : BlockInfo) : BlockInfo :=
  if (BlockInfoVersion2 <=? bi_Version tbInfo) || negb TreatOldVersionUTF8AsUTF8MB4 then tbInfo
  else
    let cols := utf8mb4_column <$> bi_DeferredCausets tbInfo in
    if decide (bi_Charset tbInfo = CharsetUTF8)
    then set_charset CharsetUTF8MB4 DefCauslationUTF8MB4 cols tbInfo
    else set_charset (bi_Charset tbInfo) (bi_DefCauslate tbInfo) cols tbInfo.

(** Both, in the order of a created table. *)
Definition convert_info (i : BlockInfo) : BlockInfo :=
  ConvertOldVersionUTF8ToUTF8MB4IfNeed (ConvertCharsetDefCauslateToLowerCaseIfNeed i).

(** ** Copies *)

Definition blockIDIsValid (blockID : Z) : bool := negb (blockID =? 0).

Definition set_bucket (b idx : Z) (s : slice) : M heap unit :=
  r ← load_is b;
  buckets ← lift_opt (put_ (sortedBlocksBuckets r) idx s);
  store_is b (MkReplicant (schemaMap r) buckets (schemaMetaVersion r)).

Definition bucket_of (b idx : Z) : M heap slice :=
  r ← load_is b; lift_opt (at_ (sortedBlocksBuckets r) idx).

Definition INTERLOCKySortedBlocksBucket (b bucketIdx : Z) : M heap unit :=
  oldSortedBlocks ← bucket_of b bucketIdx;
  tbls ← read_blocks oldSortedBlocks;
  loc ← new_loc;
  modify (with_blocks (fun m => (sl_new loc tbls m).2));;
  set_bucket b bucketIdx (sl_new loc tbls ∅).1.

Definition INTERLOCKySortedBlocks (b oldBlockID newBlockID : Z) : M heap unit :=
  (if blockIDIsValid oldBlockID then INTERLOCKySortedBlocksBucket b (blockBucketIdx oldBlockID) else ret tt);;
  (if blockIDIsValid newBlockID && negb (newBlockID =? oldBlockID)
   then INTERLOCKySortedBlocksBucket b (blockBucketIdx newBlockID) else ret tt).

Definition set_schemaMap (b : Z) (f : gmap string Z -> gmap string Z) : M heap unit :=
  r ← load_is b; store_is b (MkReplicant (f (schemaMap r)) (sortedBlocksBuckets r) (schemaMetaVersion r)).

(** The new description of the database, which may be changed. *)
Definition INTERLOCKySchemaBlocks (b : Z) (dbName : string) : M heap Z :=
  r ← load_is b;
  old ← lift_opt (schemaMap r !! dbName);
  oldSchemaBlocks ← load_sb old;
  dbInfo ← DB_INTERLOCKy (sb_dbInfo oldSchemaBlocks);
  loc ← new_loc;
  store_sb loc (MkSchemaBlocks dbInfo (sb_blocks oldSchemaBlocks));;
  set_schemaMap b <[dbName := loc]>;;
  ret dbInfo.

(** ** Tables *)

Definition appendAffectedIDs (affected : list Z) (tblInfo : BlockInfo) : list Z :=
  affected ++ bi_ID tblInfo :: default [] (bi_Partition tblInfo).

Definition set_Blocks (s : slice) (d : DBInfo) : DBInfo :=
  MkDBInfo (db_ID d) (db_Name d) (db_Charset d) (db_DefCauslate d) (db_State d) s.

(** The first description with the identifier leaves the list of the database. *)
Definition remove_info (dbInfo blockID : Z) : M heap unit :=
  di ← load_db dbInfo;
  infos ← read_infos (db_Blocks di);
  match list_find (fun t => bi_ID t = blockID) infos with
  | None => ret tt
  | Some (i, _) =>
      if decide (i = length infos - 1)%nat
      then store_db dbInfo (set_Blocks (sl_take i (db_Blocks di)) di)
      else
        s ← append_infos (sl_take i (db_Blocks di)) (drop (S i) infos);
        store_db dbInfo (set_Blocks s di)
  end.

(** [append(sortedTbls[0:idx], sortedTbls[idx+1:]...)] in the bucket. *)
Definition remove_block (b bucketIdx : Z) (sortedTbls : slice) (tbls : list Block) (idx : nat) : M heap unit :=
  s ← append_blocks (sl_take idx sortedTbls) (drop (S idx) tbls);
  set_bucket b bucketIdx s.

Definition applyDropBlock (b dbInfo blockID : Z) (affected : list Z) : M heap (list Z) :=
  let bucketIdx := blockBucketIdx blockID in
  sortedTbls ← bucket_of b bucketIdx;
  tbls ← read_blocks sortedTbls;
  match searchBlock tbls blockID with
  | None => ret affected
  | Some idx =>
      di ← load_db dbInfo;
      r ← load_is b;
      affected ←
        match schemaMap r !! cs_L (db_Name di) with
        | None => ret affected
        | Some blockNames =>
            tbl ← lift_opt (tbls !! idx);
            sb ← load_sb blockNames;
            store_sb blockNames (MkSchemaBlocks (sb_dbInfo sb) (delete (cs_L (bi_Name (Meta tbl))) (sb_blocks sb)));;
            ret (appendAffectedIDs affected (Meta tbl))
        end;
      remove_block b bucketIdx sortedTbls tbls idx;;
      remove_info dbInfo blockID;;
      ret affected
  end.

Definition filterSlabPredictors (diff : SchemaDiff) (oldAllocs : list SlabPredictor) : list SlabPredictor :=
  match Type_ diff with
  | CausetActionRebaseAutoID | CausetActionModifyBlockAutoIdCache =>
      filter (fun alloc => GetType alloc <> EventIDAllocType /\ GetType alloc <> AutoIncrementType) oldAllocs
  | CausetActionRebaseAutoRandomBase => filter (fun alloc => GetType alloc <> AutoRandomType) oldAllocs
  | _ => oldAllocs
  end.

(** The allocators of a created table: the old ones that are kept, or new ones. *)
Definition block_allocs (dbID : Z) (tblInfo : BlockInfo) (allocs : list SlabPredictor) (tp : CausetActionType)
    : list SlabPredictor :=
  if decide (length allocs = 0%nat) then NewSlabPredictorsFromTblInfo dbID tblInfo
  else
    match tp with
    | CausetActionRebaseAutoID | CausetActionModifyBlockAutoIdCache =>
        allocs ++ [NewSlabPredictor dbID (IsAutoIncDefCausUnsigned tblInfo) EventIDAllocType]
    | CausetActionRebaseAutoRandomBase =>
        allocs ++ [NewSlabPredictor dbID (IsAutoRandomBitDefCausUnsigned tblInfo) AutoRandomType]
    | _ => allocs
    end.

(** A table enters the bucket, which is sorted again. *)
Definition add_sorted (b bucketIdx : Z) (tbl : Block) : M heap unit :=
  sortedTbls ← bucket_of b bucketIdx;
  sortedTbls ← append_blocks sortedTbls [tbl];
  sort_blocks sortedTbls;;
  set_bucket b bucketIdx sortedTbls.

Definition append_info (dbInfo : Z) (info : BlockInfo) : M heap unit :=
  di ← load_db dbInfo;
  s ← append_infos (db_Blocks di) [info];
  store_db dbInfo (set_Blocks s di).

Definition applyCreateBlock (b : Z) (m : MetaSnapshot) (dbInfo blockID : Z) (allocs : list SlabPredictor)
    (tp : CausetActionType) (affected : list Z) : M heap (list Z) :=
  di ← load_db dbInfo;
  tblInfo ← lift_res (GetBlock m (db_ID di) blockID);
  match tblInfo with
  | None => fail ErrBlockNotExists
  | Some tblInfo =>
      let affected := appendAffectedIDs affected tblInfo in
      let tblInfo := convert_info tblInfo in
      tbl ← lift_res (BlockFromMeta (block_allocs (db_ID di) tblInfo allocs tp) tblInfo);
      r ← load_is b;
      blockNames ← lift_opt (schemaMap r !! cs_L (db_Name di));
      sb ← load_sb blockNames;
      store_sb blockNames (MkSchemaBlocks (sb_dbInfo sb) (<[cs_L (bi_Name tblInfo) := tbl]> (sb_blocks sb)));;
      add_sorted b (blockBucketIdx blockID) tbl;;
      newTbl ← BlockByID b blockID;
      match newTbl with
      | None => ret affected
      | Some newTbl =>
          append_info dbInfo (Meta newTbl);;
          ret affected
      end
  end.

(** ** Databases *)

Definition applyCreateSchema (b : Z) (m : MetaSnapshot) (diff : SchemaDiff) : M heap unit :=
  di ← lift_res (GetDatabase m (SchemaID diff));
  match di with
  | None => fail ErrDatabaseNotExists
  | Some di =>
      dbInfo ← new_loc;
      store_db dbInfo (set_Blocks nil_slice di);;
      loc ← new_loc;
      store_sb loc (MkSchemaBlocks dbInfo ∅);;
      set_schemaMap b <[cs_L (db_Name di) := loc]>
  end.

Definition applyModifySchemaCharsetAndDefCauslate (b : Z) (m : MetaSnapshot) (diff : SchemaDiff) : M heap unit :=
  di ← lift_res (GetDatabase m (SchemaID diff));
  match di with
  | None => fail ErrDatabaseNotExists
  | Some di =>
      newDbInfo ← INTERLOCKySchemaBlocks b (cs_L (db_Name di));
      d ← load_db newDbInfo;
      store_db newDbInfo (MkDBInfo (db_ID d) (db_Name d) (db_Charset di) (db_DefCauslate di) (db_State d) (db_Blocks d))
  end.

Fixpoint INTERLOCKy_buckets (b : Z) (buckets : list Z) : M heap unit :=
  match buckets with
  | [] => ret tt
  | idx :: buckets => INTERLOCKySortedBlocksBucket b idx;; INTERLOCKy_buckets b buckets
  end.

Fixpoint drop_blocks (b di : Z) (blockIDs : list Z) : M heap unit :=
  match blockIDs with
  | [] => ret tt
  | id :: blockIDs => applyDropBlock b di id [];; drop_blocks b di blockIDs
  end.

Definition applyDropSchema (b schemaID : Z) : M heap (list Z) :=
  di ← SchemaByID range_schemas b schemaID;
  match di with
  | None => ret []
  | Some di =>
      d ← load_db di;
      set_schemaMap b (delete (cs_L (db_Name d)));;
      tbls ← read_infos (db_Blocks d);
      let bucketIdxMap : gset Z := list_to_set ((fun tbl => blockBucketIdx (bi_ID tbl)) <$> tbls) in
      let blockIDs := foldl appendAffectedIDs [] tbls in
      INTERLOCKy_buckets b (range_buckets bucketIdxMap);;
      di ← DB_Clone di;
      drop_blocks b di blockIDs;;
      ret blockIDs
  end.

(** ** Changes of a table *)

(** The identifiers of the table that goes and the one that comes. *)
Definition old_new (diff : SchemaDiff) : Z * Z :=
  match Type_ diff with
  | CausetActionCreateBlock | CausetActionCreateSequence | CausetActionRecoverBlock => (0, BlockID diff)
  | CausetActionDropBlock | CausetActionDropView | CausetActionDropSequence => (BlockID diff, 0)
  | CausetActionTruncateBlock | CausetActionCreateView | CausetActionExchangeBlockPartition =>
      (OldBlockID diff, BlockID diff)
  | _ => (BlockID diff, BlockID diff)
  end.

(** The old allocators are kept, except in these changes. *)
Definition keeps_allocs (diff : SchemaDiff) : bool :=
  match Type_ diff with
  | CausetActionRenameBlock | CausetActionExchangeBlockPartition | CausetActionRepairBlock => false
  | _ => true
  end.

(** The table that goes is taken out of [dbInfo], or in a renaming of the
    database that it was in. *)
Definition drop_old (b dbInfo oldBlockID : Z) (diff : SchemaDiff) : M heap (list Z) :=
  if bool_decide (Type_ diff = CausetActionRenameBlock) && negb (OldSchemaID diff =? SchemaID diff) then
    oldRoDBInfo ← SchemaByID range_schemas b (OldSchemaID diff);
    match oldRoDBInfo with
    | None => fail ErrDatabaseNotExists
    | Some oldRoDBInfo =>
        d ← load_db oldRoDBInfo;
        oldDBInfo ← INTERLOCKySchemaBlocks b (cs_L (db_Name d));
        applyDropBlock b oldDBInfo oldBlockID []
    end
  else applyDropBlock b dbInfo oldBlockID [].

Definition affected_diff (diff : SchemaDiff) (opt : AffectedOption) : SchemaDiff :=
  MkDiff (Version diff) (Type_ diff) (ao_SchemaID opt) (ao_BlockID opt) (ao_OldSchemaID opt) (ao_OldBlockID opt) [].

Fixpoint apply_affected (apply : SchemaDiff -> M heap (list Z)) (diff : SchemaDiff) (opts : list AffectedOption)
    (tblIDs : list Z) : M heap (list Z) :=
  match opts with
  | [] => ret tblIDs
  | opt :: opts =>
      affectedIDs ← apply (affected_diff diff opt);
      apply_affected apply diff opts (tblIDs ++ affectedIDs)
  end.

(** The change of a table: from the lookup of the database to the tables that
    were affected, without the other tables of the change. *)
Definition apply_block_diff (b : Z) (m : MetaSnapshot) (diff : SchemaDiff) : M heap (list Z) :=
  roDBInfo ← SchemaByID range_schemas b (SchemaID diff);
  match roDBInfo with
  | None => fail ErrDatabaseNotExists
  | Some roDBInfo =>
      let '(oldBlockID, newBlockID) := old_new diff in
      d ← load_db roDBInfo;
      dbInfo ← INTERLOCKySchemaBlocks b (cs_L (db_Name d));
      INTERLOCKySortedBlocks b oldBlockID newBlockID;;
      '(allocs, tblIDs) ←
        (if blockIDIsValid oldBlockID then
           allocs ←
             (if (oldBlockID =? newBlockID) && keeps_allocs diff then
                oldAllocs ← AllocByID b oldBlockID; ret (filterSlabPredictors diff (default [] oldAllocs))
              else ret []);
           tmpIDs ← drop_old b dbInfo oldBlockID diff;
           ret (allocs, if negb (oldBlockID =? newBlockID) then tmpIDs else [])
         else ret ([], []));
      if blockIDIsValid newBlockID then applyCreateBlock b m dbInfo newBlockID allocs (Type_ diff) tblIDs
      else ret tblIDs
  end.

(** [ApplyDiff], with [apply] for the other tables of the change. *)
Definition apply_diff (apply : SchemaDiff -> M heap (list Z)) (b : Z) (m : MetaSnapshot) (diff : SchemaDiff)
    : M heap (list Z) :=
  r ← load_is b;
  store_is b (MkReplicant (schemaMap r) (sortedBlocksBuckets r) (Version diff));;
  match Type_ diff with
  | CausetActionCreateSchema => applyCreateSchema b m diff;; ret []
  | CausetActionDropSchema => applyDropSchema b (SchemaID diff)
  | CausetActionModifySchemaCharsetAndDefCauslate => applyModifySchemaCharsetAndDefCauslate b m diff;; ret []
  | _ =>
      tblIDs ← apply_block_diff b m diff;
      apply_affected apply diff (AffectedOpts diff) tblIDs
  end.

(** The other tables of a change have no others: one recursive call is enough. *)
Definition ApplyDiff (b : Z) (m : MetaSnapshot) (diff : SchemaDiff) : M heap (list Z) :=
  apply_diff (apply_diff (fun _ => ret []) b m) b m diff.

(** ** Initialisation *)

Definition InitWithOldSchemaReplicant (b oldIS : Z) : M heap unit :=
  old ← load_is oldIS;
  r ← load_is b;
  let n := length (sortedBlocksBuckets r) in
  store_is b (MkReplicant (schemaMap old ∪ schemaMap r)
    (take n (sortedBlocksBuckets old) ++ drop (length (sortedBlocksBuckets old)) (sortedBlocksBuckets r))
    (schemaMetaVersion old)).

(** The tables of a database enter its map and the buckets. *)
Fixpoint add_blocks (b loc dbID : Z) (blockFromMeta : list SlabPredictor -> BlockInfo -> res Block)
    (infos : list BlockInfo) : M heap unit :=
  match infos with
  | [] => ret tt
  | t :: infos =>
      tbl ← lift_res (blockFromMeta (NewSlabPredictorsFromTblInfo dbID t) t);
      sb ← load_sb loc;
      store_sb loc (MkSchemaBlocks (sb_dbInfo sb) (<[cs_L (bi_Name t) := tbl]> (sb_blocks sb)));;
      sortedTbls ← bucket_of b (blockBucketIdx (bi_ID t));
      sortedTbls ← append_blocks sortedTbls [tbl];
      set_bucket b (blockBucketIdx (bi_ID t)) sortedTbls;;
      add_blocks b loc dbID blockFromMeta infos
  end.

Definition createSchemaBlocksForDB (b di : Z) (blockFromMeta : list SlabPredictor -> BlockInfo -> res Block)
    : M heap unit :=
  loc ← new_loc;
  store_sb loc (MkSchemaBlocks di ∅);;
  d ← load_db di;
  set_schemaMap b <[cs_L (db_Name d) := loc]>;;
  infos ← read_infos (db_Blocks d);
  add_blocks b loc (db_ID d) blockFromMeta infos.

Fixpoint create_all (b : Z) (dbs : list (Z * (list SlabPredictor -> BlockInfo -> res Block))) : M heap unit :=
  match dbs with
  | [] => ret tt
  | (di, blockFromMeta) :: dbs => createSchemaBlocksForDB b di blockFromMeta;; create_all b dbs
  end.

Fixpoint sort_all (buckets : list slice) : M heap unit :=
  match buckets with
  | [] => ret tt
  | s :: buckets => sort_blocks s;; sort_all buckets
  end.

(** [drivers]: the databases of virtual tables, each with its own constructor. *)
Definition InitWithDBInfos (b : Z) (drivers : list (Z * (list SlabPredictor -> BlockInfo -> res Block)))
    (dbInfos : list Z) (schemaVersion : Z) : M heap unit :=
  r ← load_is b;
  store_is b (MkReplicant (schemaMap r) (sortedBlocksBuckets r) schemaVersion);;
  create_all b ((fun di => (di, BlockFromMeta)) <$> dbInfos);;
  create_all b drivers;;
  r ← load_is b;
  sort_all (sortedBlocksBuckets r).
End builder.
