(* ===== verification/InfoBuckets.v ===== *)
(** * Buckets of sorted tables

    The 512 buckets of a replicant stand for a map from identifiers to tables:
    search, copy, removal and insertion on the shared arrays, against that map. *)

From stdpp Require Import base gmap list sorting option strings.
From Stdlib Require Import ZArith Lia Sorted.
From S2P Require Import Prelude External GoMonad GoHeap InfoSchema InfoBuilder.

Local Open Scope Z_scope.

Section buckets.
Context `{InfoPkgs} `{GrowthLaws} `{SorterLaws}.

(** The identifier of a table. *)
Definition bid (t : Block) : Z := bi_ID (Meta t).

Abbreviation by_id := (fun a b : Block => bid a < bid b).

(** ** Search *)

Lemma sorted_lookup_le (l : list Block) : StronglySorted by_id l -> forall i j a b,
  l !! i = Some a -> l !! j = Some b -> (i < j)%nat -> bid a < bid b.
Proof.
  induction 1 as [|x l S IH F]; intros i j a b Ha Hb L; [done|].
  rewrite Forall_forall in F. destruct j as [|j]; [lia|]. destruct i as [|i]; cbn in Ha, Hb.
  - injection Ha as <-. apply F. by eapply list_elem_of_lookup_2.
  - eapply IH; [exact Ha|exact Hb|lia].
Qed.

Lemma searchBlock_spec (l : list Block) id : StronglySorted by_id l ->
  match searchBlock l id with
  | Some idx => exists t, l !! idx = Some t /\ bid t = id
  | None => forall t, t ∈ l -> bid t <> id
  end.
Proof.
  intros S. unfold searchBlock. set (f := fun i => match l !! i with Some b => id <=? bi_ID (Meta b) | None => false end).
  destruct (sort_Search_least (length l) f) as (Lr & Lo & Hi).
  { intros a b Lab Fa. unfold f in *. destruct (l !! a) as [x|] eqn:Ex; [|done].
    destruct (lookup_lt_is_Some_2 l b) as [y Ey]; [lia|]. rewrite Ey. apply Z.leb_le in Fa. apply Z.leb_le.
    destruct (decide (a = b)) as [->|N]; [congruence|].
    pose proof (sorted_lookup_le l S a b x y Ex Ey ltac:(lia)) as L. unfold bid in L. lia. }
  set (r := sort_Search (length l) f) in *.
  assert (Out : forall t k, l !! k = Some t -> (k < r)%nat -> bid t <> id).
  { intros t k Et Lk. specialize (Lo k Lk). unfold f in Lo. rewrite Et in Lo. apply Z.leb_gt in Lo. unfold bid. lia. }
  destruct (l !! r) as [b|] eqn:Eb.
  - destruct (Z.eqb_spec (bi_ID (Meta b)) id) as [E|E]; cbn [negb]; [by exists b|].
    intros t [k Et]%list_elem_of_lookup. destruct (decide (k < r)%nat) as [Lk|Lk]; [by eapply Out|].
    assert (Fr : f r = true) by (apply Hi; split; [lia|by eapply lookup_lt_Some]).
    unfold f in Fr. rewrite Eb in Fr. apply Z.leb_le in Fr.
    destruct (decide (k = r)) as [->|N]; [unfold bid; congruence|].
    pose proof (sorted_lookup_le l S r k b t Eb Et ltac:(lia)) as L. unfold bid in *. lia.
  - intros t [k Et]%list_elem_of_lookup. apply (Out t k Et). apply lookup_lt_Some in Et.
    apply lookup_ge_None in Eb. lia.
Qed.

(** ** One bucket *)

(** The bucket [i] holds the tables of [T] that belong there. *)
Record bucket_ok (m : gmap Z (array Block)) (i : Z) (T : gmap Z Block) (s : slice) : Prop := {
  bo_ok : sl_ok m s;
  bo_cap : (sl_len s <= sl_cap m s)%nat;
  bo_sorted : StronglySorted by_id (sl_read m s);
  bo_mem t : t ∈ sl_read m s <-> T !! bid t = Some t /\ blockBucketIdx (bid t) = i;
}.

Lemma sl_cells_ext {A} (m m' : gmap Z (array A)) s : m' !! sl_arr s = m !! sl_arr s -> sl_cells m' s = sl_cells m s.
Proof. intros E. unfold sl_cells. by rewrite E. Qed.

Lemma sl_read_ext {A} (m m' : gmap Z (array A)) s : m' !! sl_arr s = m !! sl_arr s -> sl_read m' s = sl_read m s.
Proof. intros E. unfold sl_read. by rewrite (sl_cells_ext m). Qed.

Lemma sl_cap_ext {A} (m m' : gmap Z (array A)) s : m' !! sl_arr s = m !! sl_arr s -> sl_cap m' s = sl_cap m s.
Proof. intros E. unfold sl_cap. by rewrite E. Qed.

Lemma sl_ok_ext {A} (m m' : gmap Z (array A)) s : m' !! sl_arr s = m !! sl_arr s -> sl_ok m s -> sl_ok m' s.
Proof. intros E O. unfold sl_ok. by rewrite (sl_cells_ext m). Qed.

Lemma bucket_ok_ext m m' i T T' s :
  m' !! sl_arr s = m !! sl_arr s -> (forall id, blockBucketIdx id = i -> T' !! id = T !! id) ->
  bucket_ok m i T s -> bucket_ok m' i T' s.
Proof.
  intros E Et [O C S M]. split.
  - by eapply sl_ok_ext.
  - by rewrite (sl_cap_ext m).
  - by rewrite (sl_read_ext m).
  - intros t. rewrite (sl_read_ext m) by done. rewrite M. split; intros [A B]; (split; [|done]).
    + by rewrite Et.
    + by rewrite <- Et.
Qed.

(** The table of an identifier, by the search. *)
Lemma bucket_find m T s id t : bucket_ok m (blockBucketIdx id) T s -> (forall id t, T !! id = Some t -> bid t = id) ->
  (idx ← searchBlock (sl_read m s) id; sl_read m s !! idx) = Some t <-> T !! id = Some t.
Proof.
  intros [O C S M] Ti. pose proof (searchBlock_spec _ id S) as Sp. destruct (searchBlock (sl_read m s) id) as [idx|]; cbn.
  - destruct Sp as (t' & E & <-). rewrite E. apply list_elem_of_lookup_2 in E. apply M in E as [E _].
    rewrite E. done.
  - split; [done|]. intros E. pose proof (Ti _ _ E) as I. exfalso. apply (Sp t); [|done]. apply M. by rewrite I.
Qed.

Lemma by_id_inj m i T s t t' : bucket_ok m i T s -> t ∈ sl_read m s -> t' ∈ sl_read m s -> bid t = bid t' -> t = t'.
Proof. intros [_ _ _ M] [E _]%M [E' _]%M I. rewrite I in E. congruence. Qed.

Lemma StronglySorted_delete {A} (R : A -> A -> Prop) l i : StronglySorted R l -> StronglySorted R (delete i l).
Proof.
  intros S. revert i. induction S as [|x l S IH F]; intros [|i]; [constructor|constructor|exact S|]. cbn. constructor; [apply IH|].
  rewrite Forall_forall in F |- *. intros y Hy. apply F. eapply elem_of_submseteq; [exact Hy|].
  apply sublist_submseteq, sublist_delete.
Qed.

Lemma StronglySorted_NoDup (l : list Block) : StronglySorted by_id l -> NoDup l.
Proof.
  induction 1 as [|x l S IH F]; constructor; [|done]. intros I. rewrite Forall_forall in F. specialize (F x I). lia.
Qed.

Lemma elem_of_delete_NoDup {A} (l : list A) i x t : NoDup l -> l !! i = Some x ->
  t ∈ delete i l <-> t ∈ l /\ t <> x.
Proof.
  intros N E. pose proof (take_drop_middle l i x E) as El. rewrite delete_take_drop.
  assert (t ∈ l <-> t ∈ take i l ++ x :: drop (S i) l) as -> by by rewrite El.
  rewrite <- El in N. apply NoDup_app in N as (_ & N1 & N2). apply NoDup_cons in N2 as [N2 _].
  rewrite !elem_of_app, elem_of_cons. split; [|naive_solver].
  intros [I|I]; (split; [by auto|]); intros ->; [|done]. by apply (N1 x I); left.
Qed.

(** ** A bucket that is not sorted yet *)

Record bucket_unsorted_ok (m : gmap Z (array Block)) (i : Z) (T : gmap Z Block) (s : slice) : Prop := {
  bu_ok : sl_ok m s;
  bu_cap : (sl_len s <= sl_cap m s)%nat;
  bu_nodup : NoDup (sl_read m s);
  bu_mem t : t ∈ sl_read m s <-> T !! bid t = Some t /\ blockBucketIdx (bid t) = i;
}.

Lemma bucket_unsorted m i T s : bucket_ok m i T s -> bucket_unsorted_ok m i T s.
Proof. intros [O C S M]. split; try done. by apply StronglySorted_NoDup. Qed.

Lemma bucket_unsorted_ext m m' i T T' s :
  m' !! sl_arr s = m !! sl_arr s -> (forall id, blockBucketIdx id = i -> T' !! id = T !! id) ->
  bucket_unsorted_ok m i T s -> bucket_unsorted_ok m' i T' s.
Proof.
  intros E Et [O C S M]. split.
  - by eapply sl_ok_ext.
  - by rewrite (sl_cap_ext m).
  - by rewrite (sl_read_ext m).
  - intros t. rewrite (sl_read_ext m) by done. rewrite M. split; intros [A B]; (split; [|done]).
    + by rewrite Et.
    + by rewrite <- Et.
Qed.

Lemma bucket_append m id T s : bucket_unsorted_ok m (blockBucketIdx id) T s -> forall loc t, T !! id = None -> bid t = id ->
  let p := sl_append loc m s [t] in
  sl_read p.2 p.1 <> [] /\ bucket_unsorted_ok p.2 (blockBucketIdx id) (<[id := t]> T) p.1 /\
  (sl_arr p.1 = sl_arr s \/ sl_arr p.1 = loc) /\ forall l, l <> sl_arr s -> l <> loc -> p.2 !! l = m !! l.
Proof using H1.
  intros [O C S M] loc t En I p. destruct (sl_append_read loc m s [t] O) as [R Ok]. fold p in R, Ok.
  split; [rewrite R; by destruct (sl_read m s)|]. split; [|split; [apply sl_append_arr|intros l N1 N2; by apply sl_append_other]].
  split; [done|by apply sl_append_cap|rewrite R|intros t'; rewrite R, elem_of_app, list_elem_of_singleton, M].
  - apply NoDup_app. split; [done|]. split; [|apply NoDup_singleton].
    intros x Hx Ex%list_elem_of_singleton. subst x. apply M in Hx as [Hx _]. rewrite I in Hx. congruence.
  - split.
    + intros [[E J]| ->]; [|by rewrite I, lookup_insert_eq]. split; [|done].
      rewrite lookup_insert_ne; [done|]. intros Eq. congruence.
    + intros [E J]. destruct (decide (bid t' = id)) as [Eq|Nq].
      { rewrite Eq, lookup_insert_eq in E. injection E as ->. by right. }
      rewrite lookup_insert_ne in E by done. by left.
Qed.

Lemma sort_by_id (l : list Block) : NoDup l -> (forall a b, a ∈ l -> b ∈ l -> bid a = bid b -> a = b) ->
  StronglySorted by_id (sort_Sort block_less l).
Proof using H3.
  intros Nd Inj. assert (Pm : sort_Sort block_less l ≡ₚ l) by apply sort_perm.
  assert (Sw : StrictWeak (fun _ => True) block_less).
  { unfold block_less. split; intros; repeat match goal with H : (_ <? _) = true |- _ => apply Z.ltb_lt in H
      | H : (_ <? _) = false |- _ => apply Z.ltb_ge in H end; apply Z.ltb_ge; lia. }
  pose proof (sort_sorted (fun _ => True) block_less l Sw ltac:(by apply Forall_true)) as St.
  assert (Nds : NoDup (sort_Sort block_less l)) by by rewrite Pm.
  assert (Ins : forall a, a ∈ sort_Sort block_less l -> a ∈ l) by (intros a; by rewrite Pm).
  revert St Nds Ins. clear -Inj. induction 1 as [|x k St IH F]; intros Nds Ins; constructor.
  - apply IH; [by apply NoDup_cons in Nds as [_ Nds]|]. intros a Ha. apply Ins. by right.
  - rewrite Forall_forall in F |- *. intros y Hy. specialize (F y Hy). unfold block_less in F. apply Z.ltb_ge in F.
    unfold bid in *. apply NoDup_cons in Nds as [Nx _].
    assert (bi_ID (Meta x) <> bi_ID (Meta y)); [|lia]. intros Eq. apply Nx.
    rewrite (Inj x y); [done|apply Ins; left|apply Ins; by right|done].
Qed.

(** Sorting in place makes the bucket. *)
Lemma bucket_sort m i T s : bucket_unsorted_ok m i T s ->
  let m' := sl_write m s 0 (sort_Sort block_less (sl_read m s)) in
  bucket_ok m' i T s /\ forall l, l <> sl_arr s -> m' !! l = m !! l.
Proof using H1 H3.
  intros [O C S M] m'. set (l := sl_read m s) in *.
  assert (Pm : sort_Sort block_less l ≡ₚ l) by apply sort_perm.
  assert (Ll : length l = sl_len s) by by apply sl_read_length.
  assert (Ls : length (sort_Sort block_less l) = length l) by by apply Permutation_length.
  assert (Cm : sl_cells m' s = sort_Sort block_less l ++ drop (length (sort_Sort block_less l)) (sl_cells m s)).
  { unfold m', sl_write. by rewrite sl_cells_insert, decide_True. }
  assert (Rm : sl_read m' s = sort_Sort block_less l).
  { unfold sl_read. rewrite Cm, take_app_le by lia. rewrite take_ge by lia. done. }
  split; [|intros l' N; unfold m', sl_write; by rewrite lookup_insert_ne]. split.
  - unfold sl_ok. rewrite Cm, length_app. lia.
  - unfold m', sl_write, sl_cap at 1. by rewrite lookup_insert_eq.
  - rewrite Rm. apply sort_by_id; [done|]. intros a b [Ha _]%M [Hb _]%M E. rewrite E in Ha. congruence.
  - intros t. by rewrite Rm, Pm, M.
Qed.

Section ops.
Context (m : gmap Z (array Block)) (id : Z) (T : gmap Z Block) (s : slice).
Context (B : bucket_ok m (blockBucketIdx id) T s) (Ti : forall id t, T !! id = Some t -> bid t = id).

(** A fresh copy. *)
Lemma bucket_copy loc : bucket_ok (sl_new loc (sl_read m s) m).2 (blockBucketIdx id) T (sl_new loc (sl_read m s) m).1.
Proof using B.
  destruct B as [O C S M]. unfold sl_new. cbn [fst snd].
  assert (R : sl_read (<[loc:=MkArray (sl_read m s) (length (sl_read m s))]> m) (MkSlice loc (length (sl_read m s))) = sl_read m s).
  { unfold sl_read at 1. rewrite sl_cells_insert, decide_True by done. cbn. by rewrite take_ge. }
  split.
  - unfold sl_ok. rewrite sl_cells_insert, decide_True by done. done.
  - unfold sl_cap. cbn. by rewrite lookup_insert_eq.
  - by rewrite R.
  - by rewrite R.
Qed.

(** The table with the identifier goes, in place. *)
Lemma bucket_delete loc idx t : sl_read m s !! idx = Some t -> bid t = id ->
  let p := sl_append loc m (sl_take idx s) (drop (S idx) (sl_read m s)) in
  bucket_ok p.2 (blockBucketIdx id) (delete id T) p.1 /\ sl_arr p.1 = sl_arr s /\
  forall l, l <> sl_arr s -> p.2 !! l = m !! l.
Proof using B Ti H1.
  intros E I. destruct B as [O C S M]. apply lookup_lt_Some in E as L. rewrite sl_read_length in L by done.
  destruct (sl_delete_read loc m s idx O C L) as (R & Ok & Ar & Fr). set (p := sl_append _ _ _ _) in *.
  split; [|done]. split; [done| | |].
  - apply sl_append_cap. change (sl_cap m (sl_take idx s)) with (sl_cap m s). cbn. lia.
  - rewrite R. by apply StronglySorted_delete.
  - intros t'. rewrite R, (elem_of_delete_NoDup _ _ t) by (try done; by apply StronglySorted_NoDup).
    rewrite M. split.
    + intros [[E' J] N]. split; [|done]. rewrite lookup_delete_ne; [done|]. intros Eq.
      apply N. assert (T !! bid t = Some t) as Et by (apply M; by eapply list_elem_of_lookup_2). congruence.
    + intros [E' J]. apply lookup_delete_Some in E' as [Ne E']. split; [done|]. intros ->. by apply Ne.
Qed.

(** A table with a new identifier enters, and the bucket is sorted again. *)
Lemma bucket_insert loc t : T !! id = None -> bid t = id ->
  let p := sl_append loc m s [t] in
  let m' := sl_write p.2 p.1 0 (sort_Sort block_less (sl_read p.2 p.1)) in
  sl_read p.2 p.1 <> [] /\
  bucket_ok m' (blockBucketIdx id) (<[id := t]> T) p.1 /\ (sl_arr p.1 = sl_arr s \/ sl_arr p.1 = loc) /\
  forall l, l <> sl_arr s -> l <> loc -> m' !! l = m !! l.
Proof using B Ti H1 H3.
  intros En I p m'. destruct (bucket_append m id T s (bucket_unsorted _ _ _ _ B) loc t En I) as (Ne & U & Ar & Fr).
  fold p in Ne, U, Ar, Fr. split; [done|]. destruct (bucket_sort p.2 _ _ p.1 U) as [Bs Fs]. split; [done|]. split; [done|].
  intros l N1 N2. rewrite <- (Fr l N1 N2). apply Fs. destruct Ar as [->| ->]; done.
Qed.
End ops.
End buckets.
