(* ===== verification/InfoView.v ===== *)
(** * What an information schema says

    A replicant without its heap: the databases by name and the tables by
    identifier; the changes of [InfoBuilder] as functions of it; and, in the
    second part, what a replicant in the heap says. *)

From stdpp Require Import base gmap list option strings.
From Stdlib Require Import ZArith Lia Sorted.
From S2P Require Import Prelude External GoHeap GoMonad InfoSchema InfoBuilder InfoBuckets.

Local Open Scope Z_scope.

Section view.
Context `{InfoPkgs}.

(** A database: its description without the list of tables, its tables by
    name, and that list. *)
Record dbview : Type := MkDbView {
  dv_head : DBInfo;
  dv_blocks : gmap string Block;
  dv_infos : list BlockInfo;
}.

Record view : Type := MkView {
  v_version : Z;
  v_dbs : gmap string dbview;
  v_tables : gmap Z Block;
}.

Definition db_head (d : DBInfo) : DBInfo := set_Blocks nil_slice d.

(** The name of the database with an identifier. *)
Definition v_schema_by_id (v : view) (id : Z) : option string :=
  fst <$> head (filter (fun p : string * dbview => db_ID (dv_head p.2) = id) (map_to_list (v_dbs v))).

(** The first description with the identifier goes. *)
Definition remove_first (id : Z) (infos : list BlockInfo) : list BlockInfo :=
  match list_find (fun t => bi_ID t = id) infos with
  | None => infos
  | Some (i, _) => delete i infos
  end.

Definition v_drop (k : string) (id : Z) (ids : list Z) (v : view) : list Z * view :=
  match v_tables v !! id with
  | None => (ids, v)
  | Some t =>
      match v_dbs v !! k with
      | None => (ids, MkView (v_version v) (v_dbs v) (delete id (v_tables v)))
      | Some dv =>
          (appendAffectedIDs ids (Meta t),
           MkView (v_version v)
             (<[k := MkDbView (dv_head dv) (delete (cs_L (bi_Name (Meta t))) (dv_blocks dv)) (remove_first id (dv_infos dv))]> (v_dbs v))
             (delete id (v_tables v)))
      end
  end.

Definition v_create (k : string) (m : MetaSnapshot) (id : Z) (allocs : list SlabPredictor) (tp : CausetActionType)
    (ids : list Z) (v : view) : res (list Z * view) :=
  match v_dbs v !! k with
  | None => Err ErrDatabaseNotExists
  | Some dv =>
      let dbID := db_ID (dv_head dv) in
      info ← GetBlock m dbID id;
      match info with
      | None => Err ErrBlockNotExists
      | Some i =>
          let info := convert_info i in
          tbl ← BlockFromMeta (block_allocs dbID info allocs tp) info;
          Ok (appendAffectedIDs ids i,
              MkView (v_version v)
                (<[k := MkDbView (dv_head dv) (<[cs_L (bi_Name info) := tbl]> (dv_blocks dv)) (dv_infos dv ++ [Meta tbl])]> (v_dbs v))
                (<[id := tbl]> (v_tables v)))
      end
  end.

(** The database that a table is taken out of. *)
Definition v_drop_from (v : view) (k : string) (diff : SchemaDiff) : res string :=
  if bool_decide (Type_ diff = CausetActionRenameBlock) && negb (OldSchemaID diff =? SchemaID diff) then
    match v_schema_by_id v (OldSchemaID diff) with Some k' => Ok k' | None => Err ErrDatabaseNotExists end
  else Ok k.

Definition v_allocs (v : view) (diff : SchemaDiff) (old new : Z) : list SlabPredictor :=
  if (old =? new) && keeps_allocs diff
  then filterSlabPredictors diff (default [] (SlabPredictors <$> v_tables v !! old)) else [].

Definition v_block_diff (m : MetaSnapshot) (diff : SchemaDiff) (v : view) : res (list Z * view) :=
  match v_schema_by_id v (SchemaID diff) with
  | None => Err ErrDatabaseNotExists
  | Some k =>
      let '(old, new) := old_new diff in
      '(allocs, ids, v) ←
        (if blockIDIsValid old then
           k' ← v_drop_from v k diff;
           let '(tmp, v') := v_drop k' old [] v in
           Ok (v_allocs v diff old new, if negb (old =? new) then tmp else [], v')
         else Ok ([], [], v));
      if blockIDIsValid new then v_create k m new allocs (Type_ diff) ids v else Ok (ids, v)
  end.

Definition v_create_schema (m : MetaSnapshot) (diff : SchemaDiff) (v : view) : res view :=
  di ← GetDatabase m (SchemaID diff);
  match di with
  | None => Err ErrDatabaseNotExists
  | Some di => Ok (MkView (v_version v) (<[cs_L (db_Name di) := MkDbView (db_head di) ∅ []]> (v_dbs v)) (v_tables v))
  end.

(** The identifiers of the tables of a database and of their partitions. *)
Definition infos_ids (infos : list BlockInfo) : list Z := foldl appendAffectedIDs [] infos.

Definition v_drop_schema (id : Z) (v : view) : list Z * view :=
  match v_schema_by_id v id with
  | None => ([], v)
  | Some k =>
      let ids := infos_ids (default [] (dv_infos <$> v_dbs v !! k)) in
      (ids, MkView (v_version v) (delete k (v_dbs v)) (foldl (fun T id => delete id T) (v_tables v) ids))
  end.

Definition set_collation (di d : DBInfo) : DBInfo :=
  MkDBInfo (db_ID d) (db_Name d) (db_Charset di) (db_DefCauslate di) (db_State d) (db_Blocks d).

(** The database must be there: the code panics otherwise. *)
Definition v_modify_schema (m : MetaSnapshot) (diff : SchemaDiff) (v : view) : res view :=
  di ← GetDatabase m (SchemaID diff);
  match di with
  | None => Err ErrDatabaseNotExists
  | Some di =>
      Ok (MkView (v_version v)
            (alter (fun dv => MkDbView (set_collation di (dv_head dv)) (dv_blocks dv) (dv_infos dv))
               (cs_L (db_Name di)) (v_dbs v))
            (v_tables v))
  end.

Fixpoint v_affected (apply : SchemaDiff -> view -> res (list Z * view)) (diff : SchemaDiff)
    (opts : list AffectedOption) (ids : list Z) (v : view) : res (list Z * view) :=
  match opts with
  | [] => Ok (ids, v)
  | opt :: opts =>
      '(ids', v) ← apply (affected_diff diff opt) v;
      v_affected apply diff opts (ids ++ ids') v
  end.

Definition set_version (n : Z) (v : view) : view := MkView n (v_dbs v) (v_tables v).

Definition v_apply (apply : SchemaDiff -> view -> res (list Z * view)) (m : MetaSnapshot) (diff : SchemaDiff)
    (v : view) : res (list Z * view) :=
  let v := set_version (Version diff) v in
  match Type_ diff with
  | CausetActionCreateSchema => v ← v_create_schema m diff v; Ok ([], v)
  | CausetActionDropSchema => Ok (v_drop_schema (SchemaID diff) v)
  | CausetActionModifySchemaCharsetAndDefCauslate => v ← v_modify_schema m diff v; Ok ([], v)
  | _ =>
      '(ids, v) ← v_block_diff m diff v;
      v_affected apply diff (AffectedOpts diff) ids v
  end.

Definition v_diff (m : MetaSnapshot) (diff : SchemaDiff) (v : view) : res (list Z * view) :=
  v_apply (v_apply (fun _ v => Ok ([], v)) m) m diff v.
End view.

(** * Replicants in the heap

    What a replicant in the heap says, as a view; which of its objects a
    builder may change, because it made them after the address [n]; and the
    lookups. *)

Section rep.
Context `{InfoPkgs} `{GrowthLaws} `{SorterLaws}.

(** ** Buckets *)

Record buckets_rep (next : Z) (m : gmap Z (array Block)) (bs : list slice) (T : gmap Z Block) : Prop := {
  br_len : length bs = bucketCount;
  br_tables id t : T !! id = Some t -> bid t = id /\ 0 < id;
  br_bucket (i : nat) s : bs !! i = Some s -> bucket_ok m (Z.of_nat i) T s;
  br_disjoint (i j : nat) s s' : i <> j -> bs !! i = Some s -> bs !! j = Some s' -> sl_arr s <> sl_arr s' \/ sl_arr s = 0;
  br_below (i : nat) s : bs !! i = Some s -> 0 <= sl_arr s < next;
  br_zero : m !! 0 = None;
}.

Lemma bucket_index id : 0 < id -> (Z.to_nat (blockBucketIdx id) < bucketCount)%nat /\ 0 <= blockBucketIdx id.
Proof.
  intros P. unfold blockBucketIdx. pose proof (Z.rem_bound_pos id (Z.of_nat bucketCount) ltac:(lia) ltac:(unfold bucketCount; lia)).
  unfold bucketCount in *. lia.
Qed.

Lemma buckets_at next m bs T id : buckets_rep next m bs T -> 0 < id ->
  exists s, bs !! Z.to_nat (blockBucketIdx id) = Some s /\ at_ bs (blockBucketIdx id) = Some s /\
    bucket_ok m (blockBucketIdx id) T s.
Proof.
  intros R P. destruct (bucket_index id P) as [L N]. rewrite <- (br_len _ _ _ _ R) in L.
  destruct (lookup_lt_is_Some_2 _ _ L) as [s E]. exists s. split; [done|]. unfold at_. rewrite decide_True by done.
  split; [done|]. pose proof (br_bucket _ _ _ _ R _ _ E) as B. by rewrite Z2Nat.id in B.
Qed.

(** A bucket is replaced by one on its own array or on a new one. *)
Lemma buckets_set next next' m m' bs T T' (i : nat) s s' :
  buckets_rep next m bs T -> bs !! i = Some s ->
  (forall l, l < next -> l <> sl_arr s -> m' !! l = m !! l) ->
  (sl_arr s = 0 -> m' !! 0 = None) ->
  bucket_ok m' (Z.of_nat i) T' s' ->
  (forall id, blockBucketIdx id <> Z.of_nat i -> T' !! id = T !! id) ->
  (forall id t, T' !! id = Some t -> bid t = id /\ 0 < id) ->
  sl_arr s' = sl_arr s \/ next <= sl_arr s' < next' -> 0 < next <= next' ->
  buckets_rep next' m' (<[i := s']> bs) T'.
Proof.
  intros R E Fr Z0 B' Ft T'ok A N. pose proof (lookup_lt_Some _ _ _ E) as Li.
  assert (As : 0 <= sl_arr s < next) by by eapply br_below.
  assert (Other : forall (j : nat) u, j <> i -> (<[i := s']> bs) !! j = Some u ->
    bs !! j = Some u /\ bucket_ok m' (Z.of_nat j) T' u /\ 0 <= sl_arr u < next).
  { intros j u N' Eu. rewrite list_lookup_insert_ne in Eu by done. pose proof (br_below _ _ _ _ R _ _ Eu) as Bu.
    split; [done|]. split; [|done]. apply (bucket_ok_ext m _ _ T); [|intros id Hid; apply Ft; lia|by eapply br_bucket].
    destruct (br_disjoint _ _ _ _ R j i u s N' Eu E) as [D|D]; [by apply Fr; [lia|]|].
    rewrite D. destruct (decide (sl_arr s = 0)) as [Es|Es]; [rewrite Z0 by done; symmetry; by eapply br_zero|].
    apply Fr; [lia|done]. }
  split.
  - rewrite length_insert. by eapply br_len.
  - done.
  - intros j u Eu. destruct (decide (j = i)) as [->|N']; [|by apply Other].
    rewrite list_lookup_insert_eq in Eu by done. by injection Eu as <-.
  - assert (New : forall (j : nat) u, j <> i -> (<[i := s']> bs) !! j = Some u -> sl_arr u <> sl_arr s' \/ sl_arr u = 0).
    { intros j u N' Eu. destruct (Other j u N' Eu) as (Eu' & _ & Bu). destruct A as [A|A]; [|left; lia].
      rewrite A. by apply (br_disjoint _ _ _ _ R j i). }
    intros j k u w N' Eu Ew. destruct (decide (j = i)) as [->|Nj].
    + rewrite list_lookup_insert_eq in Eu by done. injection Eu as <-. destruct (New k w) as [D|D]; [done|done|by left|].
      destruct (decide (sl_arr s' = 0)); [by right|left; lia].
    + destruct (decide (k = i)) as [->|Nk].
      * rewrite list_lookup_insert_eq in Ew by done. injection Ew as <-. by apply (New j).
      * destruct (Other j u Nj Eu) as (Eu' & _). destruct (Other k w Nk Ew) as (Ew' & _).
        by apply (br_disjoint _ _ _ _ R j k).
  - intros j u Eu. destruct (decide (j = i)) as [->|N']; [|destruct (Other j u N' Eu); lia].
    rewrite list_lookup_insert_eq in Eu by done. injection Eu as <-. lia.
  - destruct (decide (sl_arr s = 0)) as [Es|Es]; [by apply Z0|]. rewrite Fr by lia. by eapply br_zero.
Qed.

Lemma buckets_next next next' m bs T : buckets_rep next m bs T -> next <= next' -> buckets_rep next' m bs T.
Proof. intros [? ? ? ? Bl ?] N. split; try done. intros i s E. specialize (Bl i s E). lia. Qed.

(** ** Replicants *)

(** The objects of a database, and its description. *)
Record foot : Type := MkFoot { f_sb : Z; f_db : Z; f_di : DBInfo }.

Definition f_arr (f : foot) : Z := sl_arr (db_Blocks (f_di f)).

Record db_at (h : heap) (k : string) (f : foot) (dv : dbview) : Prop := {
  da_sb : hp_sb h !! f_sb f = Some (MkSchemaBlocks (f_db f) (dv_blocks dv));
  da_db : hp_db h !! f_db f = Some (f_di f);
  da_head : db_head (f_di f) = dv_head dv;
  da_key : cs_L (db_Name (f_di f)) = k;
  da_ok : sl_ok (hp_infos h) (db_Blocks (f_di f));
  da_cap : (sl_len (db_Blocks (f_di f)) <= sl_cap (hp_infos h) (db_Blocks (f_di f)))%nat;
  da_infos : sl_read (hp_infos h) (db_Blocks (f_di f)) = dv_infos dv;
}.

(** No object of two databases is the same. *)
Record apart (f1 f2 : foot) : Prop := {
  ap_sb : f_sb f1 <> f_sb f2;
  ap_db : f_db f1 <> f_db f2;
  ap_arr : f_arr f1 <> f_arr f2 \/ f_arr f1 = 0;
}.

(** The replicant at [b] says [v]; the databases [K] and the buckets [I] are
    made of objects from [n] on. *)
Record rep (n : Z) (K : gset string) (I : gset Z) (F : gmap string foot) (bs : list slice) (h : heap) (b : Z) (v : view)
    : Prop := {
  rp_is : hp_is h !! b = Some (MkReplicant (f_sb <$> F) bs (v_version v));
  rp_next : 0 < n <= hp_next h;
  rp_dom k : is_Some (F !! k) <-> is_Some (v_dbs v !! k);
  rp_db k f dv : F !! k = Some f -> v_dbs v !! k = Some dv -> db_at h k f dv;
  rp_apart k1 k2 f1 f2 : k1 <> k2 -> F !! k1 = Some f1 -> F !! k2 = Some f2 -> apart f1 f2;
  rp_below k f : F !! k = Some f -> f_sb f < hp_next h /\ f_db f < hp_next h /\ 0 <= f_arr f < hp_next h;
  rp_own k f : k ∈ K -> F !! k = Some f -> n <= f_sb f /\ n <= f_db f /\ n <= f_arr f;
  rp_zero : hp_infos h !! 0 = None;
  rp_buckets : buckets_rep (hp_next h) (hp_blocks h) bs (v_tables v);
  rp_ownb i s : i ∈ I -> at_ bs i = Some s -> n <= sl_arr s;
}.

(** Nothing below [n] has changed, nor any replicant but [b]. *)
Record frame (n b : Z) (h h' : heap) : Prop := {
  fr_next : hp_next h <= hp_next h';
  fr_is l : l <> b -> hp_is h' !! l = hp_is h !! l;
  fr_sb l : l < n -> hp_sb h' !! l = hp_sb h !! l;
  fr_db l : l < n -> hp_db h' !! l = hp_db h !! l;
  fr_blocks l : l < n -> hp_blocks h' !! l = hp_blocks h !! l;
  fr_infos l : l < n -> hp_infos h' !! l = hp_infos h !! l;
}.

#[export] Instance frame_preorder n b : PreOrder (frame n b).
Proof.
  split; [by split|]. intros h1 h2 h3 A B. split.
  - pose proof (fr_next _ _ _ _ A). pose proof (fr_next _ _ _ _ B). lia.
  - intros l Hl. by rewrite (fr_is _ _ _ _ B), (fr_is _ _ _ _ A).
  - intros l Hl. by rewrite (fr_sb _ _ _ _ B), (fr_sb _ _ _ _ A).
  - intros l Hl. by rewrite (fr_db _ _ _ _ B), (fr_db _ _ _ _ A).
  - intros l Hl. by rewrite (fr_blocks _ _ _ _ B), (fr_blocks _ _ _ _ A).
  - intros l Hl. by rewrite (fr_infos _ _ _ _ B), (fr_infos _ _ _ _ A).
Qed.

(** A replicant of which nothing is said but its view. *)
Definition says (h : heap) (l : Z) (v : view) : Prop := l < hp_next h /\ exists n F bs, rep n ∅ ∅ F bs h l v.

Lemma sl_ext_all {A} (m m' : gmap Z (array A)) s : m' !! sl_arr s = m !! sl_arr s ->
  sl_read m' s = sl_read m s /\ sl_cap m' s = sl_cap m s /\ (sl_ok m s -> sl_ok m' s).
Proof. intros E. split; [by apply sl_read_ext|]. split; [by apply sl_cap_ext|]. by apply sl_ok_ext. Qed.

Lemma db_at_ext h h' k f dv : db_at h k f dv ->
  hp_sb h' !! f_sb f = hp_sb h !! f_sb f -> hp_db h' !! f_db f = hp_db h !! f_db f ->
  hp_infos h' !! f_arr f = hp_infos h !! f_arr f -> db_at h' k f dv.
Proof.
  intros [] Es Ed Ei. destruct (sl_ext_all _ _ _ Ei) as (R & C & O).
  split; [by rewrite Es|by rewrite Ed|done|done|by apply O|by rewrite C|by rewrite R].
Qed.

(** A replicant whose objects are as they were. *)
Lemma rep_agree n K I F bs h h' b v :
  rep n K I F bs h b v -> hp_next h <= hp_next h' -> hp_is h' !! b = hp_is h !! b ->
  (forall k f, F !! k = Some f -> hp_sb h' !! f_sb f = hp_sb h !! f_sb f /\
    hp_db h' !! f_db f = hp_db h !! f_db f /\ hp_infos h' !! f_arr f = hp_infos h !! f_arr f) ->
  (forall (i : nat) s, bs !! i = Some s -> hp_blocks h' !! sl_arr s = hp_blocks h !! sl_arr s) ->
  hp_blocks h' !! 0 = None -> hp_infos h' !! 0 = None -> rep n K I F bs h' b v.
Proof.
  intros [Ri Rn Rd Rdb Ra Rb Ro Rz Rk Rw] Nx Eis Ef Eb Z1 Z2. split; try done.
  - by rewrite Eis.
  - lia.
  - intros k f dv E Ev. destruct (Ef k f E) as (A & B & C). eapply db_at_ext; [by apply Rdb|done..].
  - intros k f E. destruct (Rb k f E). lia.
  - apply (buckets_next (hp_next h)); [|done]. destruct Rk as [L T B D Bl Z]. split; try done.
    intros i s E. apply (bucket_ok_ext (hp_blocks h) _ _ (v_tables v)); [by apply (Eb i)|done|by apply B].
Qed.

(** A frame keeps what a replicant of before says. *)
Lemma rep_frame n K I F bs h h' b l v :
  rep n K I F bs h l v -> hp_is h' !! l = hp_is h !! l -> frame (hp_next h) b h h' -> rep n K I F bs h' l v.
Proof.
  intros R E Fr. pose proof (rp_next _ _ _ _ _ _ _ _ R) as Rn.
  eapply rep_agree; [exact R|by eapply fr_next|exact E|..].
  - intros k f Ef. destruct (rp_below _ _ _ _ _ _ _ _ R k f Ef) as (A & B & C).
    rewrite (fr_sb _ _ _ _ Fr), (fr_db _ _ _ _ Fr), (fr_infos _ _ _ _ Fr) by lia. done.
  - intros i s Es. apply (fr_blocks _ _ _ _ Fr). eapply br_below; [by eapply rp_buckets|done].
  - rewrite (fr_blocks _ _ _ _ Fr) by lia. by eapply br_zero, rp_buckets.
  - rewrite (fr_infos _ _ _ _ Fr) by lia. by eapply rp_zero.
Qed.

Lemma says_frame h h' b l v : says h l v -> l <> b -> frame (hp_next h) b h h' -> says h' l v.
Proof.
  intros (B & n & F & bs & R) N Fr. split; [pose proof (fr_next _ _ _ _ Fr); lia|]. exists n, F, bs. eapply rep_frame; [exact R|by apply (fr_is _ _ _ _ Fr)|exact Fr].
Qed.

Lemma frame_weaken n n' b h h' : n' <= n -> frame n b h h' -> frame n' b h h'.
Proof.
  intros L [A B C D E G]. split; try done; intros l Hl; [apply C|apply D|apply E|apply G]; lia.
Qed.
End rep.
