(* ===== verification/InfoOps.v ===== *)
(** * The builder's steps on a replicant

    The loads, stores and appends of a builder run, what they touch, and the
    steps made of them: each changes the view of its replicant as [InfoView]
    says, and touches only objects that the builder made. *)

From stdpp Require Import base gmap list option strings.
From Stdlib Require Import ZArith Lia Sorted.
From S2P Require Import Prelude External GoHeap GoMonad InfoSchema InfoBuilder InfoBuckets InfoView.

Local Open Scope Z_scope.

Section ops.
Context `{InfoPkgs} `{GrowthLaws} `{SorterLaws}.

(** ** Loads and stores *)

Lemma load_is_run b h r : hp_is h !! b = Some r -> load_is b h = (Ret r, h).
Proof. intros E. unfold load_is. step_exec. by rewrite E. Qed.

Lemma load_sb_run l h v : hp_sb h !! l = Some v -> load_sb l h = (Ret v, h).
Proof. intros E. unfold load_sb. step_exec. by rewrite E. Qed.

Lemma load_db_run l h v : hp_db h !! l = Some v -> load_db l h = (Ret v, h).
Proof. intros E. unfold load_db. step_exec. by rewrite E. Qed.

Lemma read_blocks_run s h : read_blocks s h = (Ret (sl_read (hp_blocks h) s), h).
Proof. done. Qed.

Lemma read_infos_run s h : read_infos s h = (Ret (sl_read (hp_infos h) s), h).
Proof. done. Qed.

Definition set_buckets (b : Z) (r : schemaReplicant) (bs : list slice) (h : heap) : heap :=
  with_is <[b := MkReplicant (schemaMap r) bs (schemaMetaVersion r)]> h.

Lemma set_bucket_run b i s h r s0 : hp_is h !! b = Some r -> at_ (sortedBlocksBuckets r) i = Some s0 ->
  set_bucket b i s h = (Ret tt, set_buckets b r (<[Z.to_nat i := s]> (sortedBlocksBuckets r)) h).
Proof.
  intros E A. unfold set_bucket. erewrite bind_Ret by by apply load_is_run.
  unfold at_ in A. case_decide as D; [|done]. apply lookup_lt_Some in A.
  unfold put_. rewrite decide_True by lia. done.
Qed.

Lemma bucket_of_run b i h r s : hp_is h !! b = Some r -> at_ (sortedBlocksBuckets r) i = Some s ->
  bucket_of b i h = (Ret s, h).
Proof. intros E A. unfold bucket_of. erewrite bind_Ret by by apply load_is_run. by rewrite A. Qed.

(** ** A database changes *)

Lemma rep_db n K I F bs h b v k f dv f' dv' h' :
  rep n K I F bs h b v -> F !! k = Some f -> v_dbs v !! k = Some dv -> k ∈ K ->
  hp_next h <= hp_next h' -> hp_is h' = hp_is h -> hp_blocks h' = hp_blocks h ->
  f_sb f' = f_sb f -> f_db f' = f_db f -> f_arr f' = f_arr f \/ hp_next h <= f_arr f' < hp_next h' ->
  (forall l, l <> f_sb f -> hp_sb h' !! l = hp_sb h !! l) ->
  (forall l, l <> f_db f -> hp_db h' !! l = hp_db h !! l) ->
  (forall l, l < hp_next h -> l <> f_arr f -> hp_infos h' !! l = hp_infos h !! l) ->
  db_at h' k f' dv' ->
  rep n K I (<[k := f']> F) bs h' b (MkView (v_version v) (<[k := dv']> (v_dbs v)) (v_tables v)) /\ frame n b h h'.
Proof.
  intros [Ri Rn Rd Rdb Ra Rb Ro Rz Rk Rw] Ef Ev Kk Nx Eis Ebl Esb Edb Ear Fs Fd Fi Da.
  destruct (Ro k f Kk Ef) as (O1 & O2 & O3). destruct (Rb k f Ef) as (B1 & B2 & B3). split.
  - split; cbn [v_version v_dbs v_tables].
    + assert (f_sb <$> <[k := f']> F = f_sb <$> F) as ->; [|by rewrite Eis].
      rewrite fmap_insert, Esb. apply insert_id. by rewrite lookup_fmap, Ef.
    + lia.
    + intros k2. destruct (decide (k2 = k)) as [->|N]; [by rewrite !lookup_insert_eq|by rewrite !lookup_insert_ne].
    + intros k2 f2 dv2. destruct (decide (k2 = k)) as [->|N].
      * rewrite !lookup_insert_eq. by intros [= <-] [= <-].
      * rewrite !lookup_insert_ne by done. intros E2 V2. destruct (Ra k2 k f2 f N E2 Ef) as [A1 A2 A3].
        destruct (Rb k2 f2 E2) as (C1 & C2 & C3). eapply db_at_ext; [by apply Rdb|by apply Fs|by apply Fd|].
        destruct A3 as [A3|A3]; [by apply Fi; [lia|]|]. apply Fi; lia.
    + assert (New : forall k2 f2, k2 <> k -> F !! k2 = Some f2 -> apart f' f2 /\ apart f2 f').
      { intros k2 f2 N E2. destruct (Ra k2 k f2 f N E2 Ef) as [A1 A2 A3]. destruct (Rb k2 f2 E2) as (C1 & C2 & C3).
        split; (split; [congruence|congruence|]); destruct Ear as [Ear|Ear]; lia. }
      intros k1 k2 f1 f2 N. destruct (decide (k1 = k)) as [->|N1], (decide (k2 = k)) as [->|N2];
        rewrite ?lookup_insert_eq, ?lookup_insert_ne by done; try done.
      * intros [= <-] E2. by apply (New k2).
      * intros E1 [= <-]. by apply (New k1).
      * by apply Ra.
    + intros k2 f2. destruct (decide (k2 = k)) as [->|N]; rewrite ?lookup_insert_eq, ?lookup_insert_ne by done.
      * intros [= <-]. lia.
      * intros E2. destruct (Rb k2 f2 E2). lia.
    + intros k2 f2 K2. destruct (decide (k2 = k)) as [->|N]; rewrite ?lookup_insert_eq, ?lookup_insert_ne by done.
      * intros [= <-]. lia.
      * intros E2. by apply (Ro k2).
    + rewrite Fi by lia. done.
    + rewrite Ebl. by apply (buckets_next (hp_next h)).
    + done.
  - split; [done|intros l Hl; by rewrite Eis|..].
    + intros l Hl. apply Fs. lia.
    + intros l Hl. apply Fd. lia.
    + intros l Hl. by rewrite Ebl.
    + intros l Hl. apply Fi; lia.
Qed.

(** The map of the tables of an owned database. *)
Lemma rep_store_sb n K I F bs h b v k f dv B :
  rep n K I F bs h b v -> F !! k = Some f -> v_dbs v !! k = Some dv -> k ∈ K ->
  exists h', store_sb (f_sb f) (MkSchemaBlocks (f_db f) B) h = (Ret tt, h') /\
    rep n K I F bs h' b (MkView (v_version v) (<[k := MkDbView (dv_head dv) B (dv_infos dv)]> (v_dbs v)) (v_tables v)) /\
    frame n b h h'.
Proof.
  intros R Ef Ev Kk. eexists. split; [reflexivity|]. rewrite <- (insert_id F k f) by done.
  eapply rep_db; try done; cbn; try (by left); try lia.
  - intros l Hl. by rewrite lookup_insert_ne.
  - destruct (rp_db _ _ _ _ _ _ _ _ R k f dv Ef Ev) as [Ds Dd Dh Dk Do Dc Di].
    split; cbn; try done. by rewrite lookup_insert_eq.
Qed.

(** The description of an owned database, with its list of tables. *)
Lemma rep_set_di n K I F bs h b v k f dv di' xs h' :
  rep n K I F bs h b v -> F !! k = Some f -> v_dbs v !! k = Some dv -> k ∈ K ->
  hp_next h <= hp_next h' -> hp_is h' = hp_is h -> hp_blocks h' = hp_blocks h -> hp_sb h' = hp_sb h ->
  hp_db h' = <[f_db f := di']> (hp_db h) -> cs_L (db_Name di') = k ->
  sl_arr (db_Blocks di') = f_arr f \/ hp_next h <= sl_arr (db_Blocks di') < hp_next h' ->
  (forall l, l < hp_next h -> l <> f_arr f -> hp_infos h' !! l = hp_infos h !! l) ->
  sl_ok (hp_infos h') (db_Blocks di') -> (sl_len (db_Blocks di') <= sl_cap (hp_infos h') (db_Blocks di'))%nat ->
  sl_read (hp_infos h') (db_Blocks di') = xs ->
  rep n K I (<[k := MkFoot (f_sb f) (f_db f) di']> F) bs h' b
    (MkView (v_version v) (<[k := MkDbView (db_head di') (dv_blocks dv) xs]> (v_dbs v)) (v_tables v)) /\
  frame n b h h'.
Proof.
  intros R Ef Ev Kk Nx Eis Ebl Esb Edb Nm Ar Fi Ok Cp Rd.
  destruct (rp_db _ _ _ _ _ _ _ _ R k f dv Ef Ev) as [Ds Dd Dh Dk Do Dc Di].
  eapply rep_db; try done; cbn.
  - intros l Hl. by rewrite Esb.
  - intros l Hl. by rewrite Edb, lookup_insert_ne.
  - split; cbn; try done; [by rewrite Esb|by rewrite Edb, lookup_insert_eq].
Qed.

(** ** A bucket changes *)

Lemma rep_bucket n K I F bs h b v (i : Z) s s' m' next' T' :
  rep n K I F bs h b v -> 0 <= i -> at_ bs i = Some s ->
  (forall l, l < hp_next h -> l <> sl_arr s -> m' !! l = hp_blocks h !! l) ->
  (n <= sl_arr s \/ m' !! sl_arr s = hp_blocks h !! sl_arr s) ->
  bucket_ok m' i T' s' ->
  (forall id, blockBucketIdx id <> i -> T' !! id = v_tables v !! id) ->
  (forall id t, T' !! id = Some t -> bid t = id /\ 0 < id) ->
  (n <= sl_arr s /\ sl_arr s' = sl_arr s) \/ hp_next h <= sl_arr s' < next' -> hp_next h <= next' ->
  let h' := MkHeap next' (<[b := MkReplicant (f_sb <$> F) (<[Z.to_nat i := s']> bs) (v_version v)]> (hp_is h))
              (hp_sb h) (hp_db h) m' (hp_infos h) in
  rep n K ({[i]} ∪ I) F (<[Z.to_nat i := s']> bs) h' b (MkView (v_version v) (v_dbs v) T') /\ frame n b h h'.
Proof.
  intros [Ri Rn Rd Rdb Ra Rb Ro Rz Rk Rw] Ni Es Fr Ow B' Ft T'ok A Nx h'.
  unfold at_ in Es. rewrite decide_True in Es by done.
  assert (As : 0 <= sl_arr s < hp_next h) by by eapply br_below. split.
  - split; cbn [hp_is hp_next hp_sb hp_db hp_blocks hp_infos h' v_version v_dbs v_tables]; try done.
    + by rewrite lookup_insert_eq.
    + lia.
    + intros k f dv Ef Ev. eapply db_at_ext; [by apply Rdb|done..].
    + intros k f Ef. destruct (Rb k f Ef). lia.
    + eapply (buckets_set (hp_next h)); [exact Rk|exact Es|done| |by rewrite Z2Nat.id|by rewrite Z2Nat.id|done|lia|lia].
      intros E0. destruct Ow as [Ow|Ow]; [lia|]. rewrite E0 in Ow. rewrite Ow. by eapply br_zero.
    + intros j u Hj. rewrite elem_of_union, elem_of_singleton in Hj. unfold at_. case_decide as Dj; [|done].
      destruct (decide (j = i)) as [->|Nj].
      * rewrite list_lookup_insert_eq by by eapply lookup_lt_Some. intros [= <-]. lia.
      * rewrite list_lookup_insert_ne by lia. intros Eu. apply (Rw j); [tauto|]. unfold at_. by rewrite decide_True.
  - split; cbn [hp_is hp_next hp_sb hp_db hp_blocks hp_infos h']; try done.
    + intros l Hl. by rewrite lookup_insert_ne.
    + intros l Hl. destruct (decide (l = sl_arr s)) as [->|Nl]; [|apply Fr; [lia|done]]. destruct Ow; [lia|done].
Qed.

Lemma rep_mono n K K' I I' F bs h b v :
  rep n K I F bs h b v -> K' ⊆ K -> I' ⊆ I -> rep n K' I' F bs h b v.
Proof.
  intros [Ri Rn Rd Rdb Ra Rb Ro Rz Rk Rw] SK SI. split; try done.
  - intros k f Hk. apply Ro. set_solver.
  - intros i s Hi. apply Rw. set_solver.
Qed.

(** Copying the bucket of an identifier makes it the builder's own. *)
Lemma copy_bucket_run n K I F bs h b v id :
  rep n K I F bs h b v -> 0 < id ->
  exists h' bs', INTERLOCKySortedBlocksBucket b (blockBucketIdx id) h = (Ret tt, h') /\
    rep n K ({[blockBucketIdx id]} ∪ I) F bs' h' b v /\ frame n b h h' /\
    hp_db h' = hp_db h /\ hp_infos h' = hp_infos h.
Proof.
  intros R P. destruct (buckets_at _ _ _ _ id (rp_buckets _ _ _ _ _ _ _ _ R) P) as (s & Es & Ea & B).
  pose proof (rp_is _ _ _ _ _ _ _ _ R) as Ri. pose proof (rp_next _ _ _ _ _ _ _ _ R) as Rn.
  assert (As : 0 <= sl_arr s < hp_next h) by (eapply br_below; [by eapply rp_buckets|done]).
  set (p := sl_new (hp_next h) (sl_read (hp_blocks h) s) (hp_blocks h)).
  assert (B' : bucket_ok p.2 (blockBucketIdx id) (v_tables v) p.1) by by apply bucket_copy.
  destruct (rep_bucket n K I F bs h b v (blockBucketIdx id) s p.1 p.2 (hp_next h + 1) (v_tables v)) as [R' Fr]; try done.
  - by apply bucket_index.
  - intros l Ll Nl. unfold p, sl_new. cbn [snd]. by rewrite lookup_insert_ne by lia.
  - right. unfold p, sl_new. cbn [snd]. by rewrite lookup_insert_ne by lia.
  - apply (br_tables _ _ _ _ (rp_buckets _ _ _ _ _ _ _ _ R)).
  - right. unfold p, sl_new. cbn. lia.
  - lia.
  - eexists _, _. split; [|split; [|split; [exact Fr|done]]].
    + unfold INTERLOCKySortedBlocksBucket. erewrite bind_Ret by by eapply bucket_of_run.
      unfold read_blocks. do 2 step_exec. unfold new_loc. do 2 step_exec.
      erewrite set_bucket_run; [|exact Ri|exact Ea]. reflexivity.
    + destruct v. exact R'.
Qed.
End ops.

(** * The builder's steps on tables and databases

    Lookups, the copy of a database, and the removal and creation of a table. *)

(** The table that is built from a description keeps it. *)
Class InfoLaws `{InfoPkgs} : Prop := {
  Meta_BlockFromMeta allocs i t : BlockFromMeta allocs i = Ok t -> Meta t = i;
}.

(** A copy of a database has its own list of the same tables. *)
Record db_copied `{InfoPkgs} (h : heap) (d : DBInfo) (o : out Z * heap) (l a : Z) (h' : heap) : Prop := {
  cp_run : o = (Ret l, h');
  cp_next : hp_next h <= l < hp_next h' /\ hp_next h <= a < hp_next h';
  cp_is : hp_is h' = hp_is h;
  cp_sb : hp_sb h' = hp_sb h;
  cp_blocks : hp_blocks h' = hp_blocks h;
  cp_db : hp_db h' = <[l := set_Blocks (MkSlice a (sl_len (db_Blocks d))) d]> (hp_db h);
  cp_infos : exists c, (sl_len (db_Blocks d) <= c)%nat /\
    hp_infos h' = <[a := MkArray (sl_read (hp_infos h) (db_Blocks d)) c]> (hp_infos h);
}.

Class DBCopyLaws `{InfoPkgs} `{!DBCopies} : Prop := {
  INTERLOCKy_copies h l d : hp_db h !! l = Some d -> sl_ok (hp_infos h) (db_Blocks d) ->
    exists l' a h', db_copied h d (DB_INTERLOCKy l h) l' a h';
  Clone_copies h l d : hp_db h !! l = Some d -> sl_ok (hp_infos h) (db_Blocks d) ->
    exists l' a h', db_copied h d (DB_Clone l h) l' a h';
}.

Section steps.
Context `{InfoPkgs} `{GrowthLaws} `{SorterLaws}.

(** ** Lookups *)

Lemma BlockByID_run n K I F bs h b v id :
  rep n K I F bs h b v -> 0 < id -> BlockByID b id h = (Ret (v_tables v !! id), h).
Proof.
  intros R P. destruct (buckets_at _ _ _ _ id (rp_buckets _ _ _ _ _ _ _ _ R) P) as (s & Es & Ea & B).
  unfold BlockByID. erewrite bind_Ret by (apply load_is_run; by eapply rp_is). cbn [sortedBlocksBuckets].
  rewrite Ea. do 2 step_exec. unfold read_blocks. do 2 step_exec. do 2 f_equal.
  pose proof (fun t => bucket_find _ _ _ id t B) as Bf.
  apply option_eq. intros t. apply Bf. intros id' t' E. by eapply br_tables in E as [E _]; [|by eapply rp_buckets].
Qed.

Lemma AllocByID_run n K I F bs h b v id :
  rep n K I F bs h b v -> 0 < id -> AllocByID b id h = (Ret (SlabPredictors <$> v_tables v !! id), h).
Proof. intros R P. unfold AllocByID. by erewrite bind_Ret by by eapply BlockByID_run. Qed.

Lemma block_named_run n K I F bs h b v schema causet :
  rep n K I F bs h b v ->
  block_named b schema causet h = (Ret (dv ← v_dbs v !! cs_L schema; dv_blocks dv !! cs_L causet), h).
Proof.
  intros R. unfold block_named. erewrite bind_Ret by (apply load_is_run; by eapply rp_is). cbn [schemaMap].
  rewrite lookup_fmap. pose proof (rp_dom _ _ _ _ _ _ _ _ R (cs_L schema)) as D.
  destruct (F !! cs_L schema) as [f|] eqn:Ef, (v_dbs v !! cs_L schema) as [dv|] eqn:Ev; cbn.
  - erewrite bind_Ret by (apply load_sb_run; by eapply rp_db in R as [Ds _]). done.
  - exfalso. destruct (proj1 D) as [x Hx]; [by eexists|done].
  - exfalso. destruct (proj2 D) as [x Hx]; [by eexists|done].
  - done.
Qed.

Context (range_schemas : gmap string Z -> list (string * Z)).
Context (range_schemas_perm : forall m, range_schemas m ≡ₚ map_to_list m).

(** Databases have their own identifiers. *)
Definition db_ids_unique (v : view) : Prop :=
  forall k1 k2 d1 d2, v_dbs v !! k1 = Some d1 -> v_dbs v !! k2 = Some d2 ->
    db_ID (dv_head d1) = db_ID (dv_head d2) -> k1 = k2.

Lemma v_schema_by_id_spec v id : db_ids_unique v -> forall k,
  v_schema_by_id v id = Some k <-> exists dv, v_dbs v !! k = Some dv /\ db_ID (dv_head dv) = id.
Proof.
  intros U k. unfold v_schema_by_id. set (l := filter _ _).
  assert (M : forall k dv, (k, dv) ∈ l <-> v_dbs v !! k = Some dv /\ db_ID (dv_head dv) = id).
  { intros k' dv. unfold l. rewrite list_elem_of_filter, elem_of_map_to_list. cbn. tauto. }
  destruct l as [|[k1 d1] l]; cbn.
  - split; [done|]. intros (dv & E). apply M in E. by inversion E.
  - destruct (proj1 (M k1 d1)) as [E1 I1]; [left|]. split.
    + intros [= <-]. eauto.
    + intros (dv & E & I). f_equal. eapply U; [exact E1|exact E|congruence].
Qed.

Lemma schema_with_id_run n K I F bs h b v id l :
  rep n K I F bs h b v -> (forall k s, (k, s) ∈ l -> exists f, F !! k = Some f /\ f_sb f = s) ->
  exists o, schema_with_id l id h = (Ret o, h) /\
    match o with
    | Some dl => exists k f dv, F !! k = Some f /\ v_dbs v !! k = Some dv /\ db_ID (dv_head dv) = id /\ dl = f_db f
    | None => forall k s dv, (k, s) ∈ l -> v_dbs v !! k = Some dv -> db_ID (dv_head dv) <> id
    end.
Proof.
  intros R. induction l as [|[k s] l IH]; intros Hl.
  { exists None. split; [done|]. intros k s dv []%elem_of_nil. }
  destruct (Hl k s) as (f & Ef & <-); [left|]. destruct (proj1 (rp_dom _ _ _ _ _ _ _ _ R k)) as [dv Ev]; [by exists f|].
  destruct (rp_db _ _ _ _ _ _ _ _ R k f dv Ef Ev) as [Ds Dd Dh _ _ _ _]. cbn [schema_with_id].
  erewrite bind_Ret by by apply load_sb_run. cbn [sb_dbInfo]. erewrite bind_Ret by by apply load_db_run.
  assert (Id : db_ID (f_di f) = db_ID (dv_head dv)) by by rewrite <- Dh.
  destruct (Z.eqb_spec (db_ID (f_di f)) id) as [E|E].
  - exists (Some (f_db f)). split; [done|]. exists k, f, dv. by rewrite <- Id.
  - destruct IH as (o & Eo & Ho); [intros k' s' Hk; apply Hl; by right|]. exists o. split; [done|].
    destruct o as [dl|]; [done|]. intros k' s' dv' Hk Ev'. apply elem_of_cons in Hk as [[= -> ->]|Hk]; [congruence|by eapply Ho].
Qed.

Lemma SchemaByID_run n K I F bs h b v id :
  rep n K I F bs h b v -> db_ids_unique v ->
  SchemaByID range_schemas b id h = (Ret (k ← v_schema_by_id v id; f ← F !! k; Some (f_db f)), h).
Proof using range_schemas_perm.
  intros R U. unfold SchemaByID. erewrite bind_Ret by (apply load_is_run; by eapply rp_is). cbn [schemaMap].
  assert (M : forall k s, (k, s) ∈ range_schemas (f_sb <$> F) <-> exists f, F !! k = Some f /\ f_sb f = s).
  { intros k s. rewrite range_schemas_perm, elem_of_map_to_list, lookup_fmap_Some. naive_solver. }
  destruct (schema_with_id_run n K I F bs h b v id (range_schemas (f_sb <$> F)) R) as (o & -> & Ho);
    [by intros k s Hk; apply M|].
  do 2 f_equal. destruct o as [dl|].
  - destruct Ho as (k & f & dv & Ef & Ev & Id & ->).
    rewrite (proj2 (v_schema_by_id_spec v id U k)) by eauto. cbn. by rewrite Ef.
  - destruct (v_schema_by_id v id) as [k|] eqn:E; [|done]. apply v_schema_by_id_spec in E as (dv & Ev & Id); [|done].
    destruct (proj2 (rp_dom _ _ _ _ _ _ _ _ R k)) as [f Ef]; [by exists dv|].
    exfalso. eapply (Ho k (f_sb f) dv); [apply M; eauto|done|done].
Qed.

End steps.

(** ** The copy of a database *)

Section copy.
Context `{InfoPkgs}.

Lemma rep_add_db n K I F bs h b v k f dv h' :
  rep n K I F bs h b v -> hp_next h <= hp_next h' ->
  hp_is h' = <[b := MkReplicant (<[k := f_sb f]> (f_sb <$> F)) bs (v_version v)]> (hp_is h) ->
  hp_blocks h' = hp_blocks h ->
  hp_next h <= f_sb f < hp_next h' -> hp_next h <= f_db f < hp_next h' ->
  f_arr f = 0 \/ hp_next h <= f_arr f < hp_next h' ->
  (forall l, l < hp_next h -> hp_sb h' !! l = hp_sb h !! l) ->
  (forall l, l < hp_next h -> hp_db h' !! l = hp_db h !! l) ->
  (forall l, l < hp_next h -> hp_infos h' !! l = hp_infos h !! l) ->
  db_at h' k f dv ->
  let K' := if decide (f_arr f = 0) then K ∖ {[k]} else {[k]} ∪ K in
  rep n K' I (<[k := f]> F) bs h' b (MkView (v_version v) (<[k := dv]> (v_dbs v)) (v_tables v)) /\ frame n b h h'.
Proof.
  intros [Ri Rn Rd Rdb Ra Rb Ro Rz Rk Rw] Nx Eis Ebl Ns Nd Na Fs Fd Fi Da K'. split.
  - split; cbn [v_version v_dbs v_tables].
    + by rewrite Eis, lookup_insert_eq, fmap_insert.
    + lia.
    + intros k2. destruct (decide (k2 = k)) as [->|N]; [by rewrite !lookup_insert_eq|by rewrite !lookup_insert_ne].
    + intros k2 f2 dv2. destruct (decide (k2 = k)) as [->|N].
      * rewrite !lookup_insert_eq. by intros [= <-] [= <-].
      * rewrite !lookup_insert_ne by done. intros E2 V2. destruct (Rb k2 f2 E2) as (C1 & C2 & C3).
        eapply db_at_ext; [by apply Rdb|apply Fs; lia|apply Fd; lia|apply Fi; lia].
    + assert (New : forall k2 f2, F !! k2 = Some f2 -> apart f f2 /\ apart f2 f).
      { intros k2 f2 E2. destruct (Rb k2 f2 E2) as (C1 & C2 & C3). split; (split; [lia|lia|lia]). }
      intros k1 k2 f1 f2 N. destruct (decide (k1 = k)) as [->|N1], (decide (k2 = k)) as [->|N2];
        rewrite ?lookup_insert_eq, ?lookup_insert_ne by done; try done.
      * intros [= <-] E2. by apply (New k2).
      * intros E1 [= <-]. by apply (New k1).
      * by apply Ra.
    + intros k2 f2. destruct (decide (k2 = k)) as [->|N]; rewrite ?lookup_insert_eq, ?lookup_insert_ne by done.
      * intros [= <-]. lia.
      * intros E2. destruct (Rb k2 f2 E2). lia.
    + intros k2 f2 K2. destruct (decide (k2 = k)) as [->|N]; rewrite ?lookup_insert_eq, ?lookup_insert_ne by done.
      * intros [= <-]. unfold K' in K2. case_decide; [set_solver|lia].
      * intros E2. apply (Ro k2); [|done]. unfold K' in K2. case_decide; set_solver.
    + rewrite Fi by lia. done.
    + rewrite Ebl. by apply (buckets_next (hp_next h)).
    + done.
  - split; [done|intros l Hl; by rewrite Eis, lookup_insert_ne|..].
    + intros l Hl. apply Fs. lia.
    + intros l Hl. apply Fd. lia.
    + intros l Hl. by rewrite Ebl.
    + intros l Hl. apply Fi; lia.
Qed.

Context `{!DBCopies} `{CL : !DBCopyLaws}.

Lemma copy_schema_run n K I F bs h b v k f dv :
  rep n K I F bs h b v -> F !! k = Some f -> v_dbs v !! k = Some dv ->
  exists h' f', INTERLOCKySchemaBlocks b k h = (Ret (f_db f'), h') /\
    rep n ({[k]} ∪ K) I (<[k := f']> F) bs h' b v /\ frame n b h h'.
Proof using CL.
  intros R Ef Ev. destruct (rp_db _ _ _ _ _ _ _ _ R k f dv Ef Ev) as [Ds Dd Dh Dk Do Dc Di].
  destruct (INTERLOCKy_copies h (f_db f) (f_di f) Dd Do) as (l & a & h1 & Cp). destruct Cp as [Er [[N1 N2] [N3 N4]] Ei Esb Ebl Edb (c & Lc & Ein)].
  pose proof (rp_next _ _ _ _ _ _ _ _ R) as Rn. pose proof (rp_is _ _ _ _ _ _ _ _ R) as Ri.
  set (d' := set_Blocks (MkSlice a (sl_len (db_Blocks (f_di f)))) (f_di f)) in *.
  set (f' := MkFoot (hp_next h1) l d').
  set (h' := MkHeap (hp_next h1 + 1)
    (<[b := MkReplicant (<[k := hp_next h1]> (f_sb <$> F)) bs (v_version v)]> (hp_is h1))
    (<[hp_next h1 := MkSchemaBlocks l (dv_blocks dv)]> (hp_sb h1)) (hp_db h1) (hp_blocks h1) (hp_infos h1)).
  assert (Ed : dv = MkDbView (dv_head dv) (dv_blocks dv) (dv_infos dv)) by by destruct dv.
  destruct (rep_add_db n K I F bs h b v k f' dv h') as [R' Fr]; try done; cbn [hp_next hp_is hp_sb hp_db hp_blocks hp_infos h' f' f_sb f_db].
  - lia.
  - by rewrite Ei.
  - lia.
  - lia.
  - right. unfold f_arr. cbn. lia.
  - intros x Hx. rewrite lookup_insert_ne by lia. by rewrite Esb.
  - intros x Hx. rewrite Edb, lookup_insert_ne by lia. done.
  - intros x Hx. rewrite Ein, lookup_insert_ne by lia. done.
  - assert (Rd : sl_read (hp_infos h1) (db_Blocks d') = dv_infos dv).
    { unfold sl_read at 1, sl_cells. cbn [d' set_Blocks db_Blocks sl_arr sl_len]. rewrite Ein, lookup_insert_eq. cbn [cells].
      rewrite <- Di. by rewrite take_ge by by rewrite sl_read_length. }
    split; cbn [f' f_sb f_db f_di h' hp_sb hp_db hp_infos].
    + by rewrite lookup_insert_eq.
    + by rewrite Edb, lookup_insert_eq.
    + done.
    + done.
    + unfold sl_ok, sl_cells. cbn [d' set_Blocks db_Blocks sl_arr sl_len]. rewrite Ein, lookup_insert_eq. cbn [cells].
      by rewrite sl_read_length.
    + unfold sl_cap. cbn [d' set_Blocks db_Blocks sl_arr sl_len]. by rewrite Ein, lookup_insert_eq.
    + done.
  - exists h', f'. split; [|split; [|done]].
    + unfold INTERLOCKySchemaBlocks. erewrite bind_Ret by by apply load_is_run. cbn [schemaMap].
      rewrite lookup_fmap, Ef. cbn [fmap option_fmap option_map lift_opt]. erewrite bind_Ret by done.
      erewrite bind_Ret by by apply load_sb_run. cbn [sb_dbInfo sb_blocks]. erewrite bind_Ret by exact Er.
      unfold new_loc. erewrite bind_Ret by done. unfold store_sb. erewrite bind_Ret by done.
      unfold set_schemaMap. erewrite bind_Ret; [done|]. erewrite bind_Ret by (apply load_is_run; cbn; by rewrite Ei).
      done.
    + rewrite decide_False in R' by (unfold f_arr; cbn; lia).
      assert (MkView (v_version v) (<[k:=dv]> (v_dbs v)) (v_tables v) = v) as Ev'; [|by rewrite Ev' in R'].
      rewrite insert_id by done. by destruct v.
Qed.
End copy.
