(* ===== verification/InfoTables.v ===== *)
(** * The removal and the creation of a table *)

From stdpp Require Import base gmap list option strings.
From Stdlib Require Import ZArith Lia Sorted.
From S2P Require Import Prelude External GoMonad GoHeap InfoSchema InfoBuilder InfoBuckets InfoView InfoOps.

Local Open Scope Z_scope.

Section tables.
Context `{InfoPkgs} `{GrowthLaws} `{SorterLaws}.

(** ** The list of a database *)

(** A change of a description and its list, in place or on a new array. *)
Record di_changed (h : heap) (c : Z) (d : DBInfo) (xs : list BlockInfo) (o : out unit * heap) (d' : DBInfo) (h' : heap)
    : Prop := {
  dc_run : o = (Ret tt, h');
  dc_head : db_head d' = db_head d;
  dc_next : hp_next h <= hp_next h';
  dc_is : hp_is h' = hp_is h;
  dc_sb : hp_sb h' = hp_sb h;
  dc_blocks : hp_blocks h' = hp_blocks h;
  dc_db : hp_db h' = <[c := d']> (hp_db h);
  dc_arr : sl_arr (db_Blocks d') = sl_arr (db_Blocks d) \/ hp_next h <= sl_arr (db_Blocks d') < hp_next h';
  dc_infos l : l < hp_next h -> l <> sl_arr (db_Blocks d) -> hp_infos h' !! l = hp_infos h !! l;
  dc_ok : sl_ok (hp_infos h') (db_Blocks d');
  dc_cap : (sl_len (db_Blocks d') <= sl_cap (hp_infos h') (db_Blocks d'))%nat;
  dc_read : sl_read (hp_infos h') (db_Blocks d') = xs;
}.

Lemma append_infos_run s xs h : append_infos s xs h =
  (Ret (sl_append (hp_next h) (hp_infos h) s xs).1,
   MkHeap (hp_next h + 1) (hp_is h) (hp_sb h) (hp_db h) (hp_blocks h) (sl_append (hp_next h) (hp_infos h) s xs).2).
Proof. reflexivity. Qed.

Lemma append_blocks_run s xs h : append_blocks s xs h =
  (Ret (sl_append (hp_next h) (hp_blocks h) s xs).1,
   MkHeap (hp_next h + 1) (hp_is h) (hp_sb h) (hp_db h) (sl_append (hp_next h) (hp_blocks h) s xs).2 (hp_infos h)).
Proof. reflexivity. Qed.

Lemma remove_info_run h c d id :
  hp_db h !! c = Some d -> sl_ok (hp_infos h) (db_Blocks d) ->
  (sl_len (db_Blocks d) <= sl_cap (hp_infos h) (db_Blocks d))%nat ->
  exists d' h', di_changed h c d (remove_first id (sl_read (hp_infos h) (db_Blocks d))) (remove_info c id h) d' h' /\
    sl_arr (db_Blocks d') = sl_arr (db_Blocks d).
Proof.
  intros E O C. set (s := db_Blocks d) in *. set (infos := sl_read (hp_infos h) s).
  pose proof (sl_read_length _ _ O) as Ln. fold infos in Ln.
  assert (Run : remove_info c id h =
    match list_find (fun t => bi_ID t = id) infos with
    | None => (Ret tt, h)
    | Some (i, _) =>
        if decide (i = length infos - 1)%nat then store_db c (set_Blocks (sl_take i s) d) h
        else (s' ← append_infos (sl_take i s) (drop (S i) infos); store_db c (set_Blocks s' d)) h
    end).
  { unfold remove_info. erewrite bind_Ret by by apply load_db_run. unfold read_infos. do 2 step_exec.
    fold s infos. destruct (list_find _ infos) as [[i ?]|]; [|done]. by case_decide. }
  rewrite Run. unfold remove_first. destruct (list_find _ infos) as [[i x]|] eqn:Ef.
  2:{ exists d, h. split; [|done]. split; try done; [by rewrite insert_id|by left]. }
  apply list_find_Some in Ef as (Ei & _ & _). apply lookup_lt_Some in Ei as Li.
  case_decide as D.
  - exists (set_Blocks (sl_take i s) d), (with_db <[c := set_Blocks (sl_take i s) d]> h).
    split; [|done]. split; try done; cbn; [by left| | |].
    + unfold sl_ok in *. change (sl_cells (hp_infos h) (sl_take i s)) with (sl_cells (hp_infos h) s). cbn. lia.
    + change (sl_cap (hp_infos h) (sl_take i s)) with (sl_cap (hp_infos h) s). lia.
    + rewrite delete_take_drop, (drop_ge infos) by lia. rewrite app_nil_r.
      unfold infos, sl_read. cbn. rewrite take_take, Nat.min_l by lia. done.
  - destruct (sl_delete_read (hp_next h) (hp_infos h) s i O C ltac:(lia)) as (R & Ok & Ar & Fr).
    pose proof (sl_append_cap (hp_next h) (hp_infos h) (sl_take i s) (drop (S i) infos)) as Cp.
    fold infos in R, Ok, Ar, Fr. set (p := sl_append _ _ _ _) in *.
    eexists (set_Blocks p.1 d), _. split; [|exact Ar].
    split; [erewrite bind_Ret by apply append_infos_run; reflexivity|..]; try done; cbn; try lia.
    + by left.
    + intros l _ Nl. by apply Fr.
    + apply Cp. change (sl_cap (hp_infos h) (sl_take i s)) with (sl_cap (hp_infos h) s). cbn. lia.
Qed.

Lemma add_info_run h c d i :
  hp_db h !! c = Some d -> sl_ok (hp_infos h) (db_Blocks d) -> 0 <= sl_arr (db_Blocks d) < hp_next h ->
  (sl_len (db_Blocks d) <= sl_cap (hp_infos h) (db_Blocks d))%nat ->
  exists d' h', di_changed h c d (sl_read (hp_infos h) (db_Blocks d) ++ [i])
    (append_info c i h) d' h'.
Proof.
  intros E O B C. destruct (sl_append_read (hp_next h) (hp_infos h) (db_Blocks d) [i] O) as [R Ok].
  pose proof (sl_append_cap (hp_next h) (hp_infos h) (db_Blocks d) [i] C) as Cp.
  pose proof (sl_append_arr (hp_next h) (hp_infos h) (db_Blocks d) [i]) as Ar.
  assert (Run : append_info c i h = let p := sl_append (hp_next h) (hp_infos h) (db_Blocks d) [i] in
    (Ret tt, MkHeap (hp_next h + 1) (hp_is h) (hp_sb h) (<[c := set_Blocks p.1 d]> (hp_db h)) (hp_blocks h) p.2)).
  { unfold append_info. erewrite bind_Ret by by apply load_db_run. reflexivity. }
  rewrite Run. set (p := sl_append _ _ _ _) in *. eexists (set_Blocks p.1 d), _.
  split; [reflexivity|..]; try done; cbn; try lia.
  intros l Ll Nl. apply sl_append_other; [done|lia].
Qed.

(** An owned database whose description changed. *)
Lemma rep_di_changed n K I F bs h b v k f dv xs o d' h' :
  rep n K I F bs h b v -> F !! k = Some f -> v_dbs v !! k = Some dv -> k ∈ K ->
  di_changed h (f_db f) (f_di f) xs o d' h' ->
  rep n K I (<[k := MkFoot (f_sb f) (f_db f) d']> F) bs h' b
    (MkView (v_version v) (<[k := MkDbView (dv_head dv) (dv_blocks dv) xs]> (v_dbs v)) (v_tables v)) /\
  frame n b h h'.
Proof.
  intros R Ef Ev Kk [Er Eh Nx Ei Es Eb Ed Ar Fi Ok Cp Rd].
  destruct (rp_db _ _ _ _ _ _ _ _ R k f dv Ef Ev) as [Ds Dd Dh Dk Do Dc Di].
  destruct (rep_set_di n K I F bs h b v k f dv d' xs h') as [R' Fr]; try done.
  - assert (db_Name d' = db_Name (f_di f)) as ->; [|done]. by injection Eh.
  - split; [|done]. by rewrite Eh, Dh in R'.
Qed.

(** ** Removal *)

Lemma drop_tables_ok (T : gmap Z Block) id : (forall i t, T !! i = Some t -> bid t = i /\ 0 < i) ->
  forall i t, delete id T !! i = Some t -> bid t = i /\ 0 < i.
Proof. intros Ok i t [_ E]%lookup_delete_Some. by apply Ok. Qed.

(** The bucket of the table, with the table taken out. *)
Lemma drop_bucket_run n K I F bs h b v id t s idx :
  rep n K I F bs h b v -> 0 < id -> blockBucketIdx id ∈ I -> v_tables v !! id = Some t ->
  at_ bs (blockBucketIdx id) = Some s -> sl_read (hp_blocks h) s !! idx = Some t ->
  exists h' bs',
    remove_block b (blockBucketIdx id) s (sl_read (hp_blocks h) s) idx h = (Ret tt, h') /\
    rep n K I F bs' h' b (MkView (v_version v) (v_dbs v) (delete id (v_tables v))) /\ frame n b h h' /\
    hp_db h' = hp_db h /\ hp_infos h' = hp_infos h.
Proof.
  intros R P Hi Et Ea El. destruct (buckets_at _ _ _ _ id (rp_buckets _ _ _ _ _ _ _ _ R) P) as (s0 & Es & Ea' & B).
  assert (s0 = s) as -> by congruence. pose proof (rp_is _ _ _ _ _ _ _ _ R) as Ri.
  assert (Tok := br_tables _ _ _ _ (rp_buckets _ _ _ _ _ _ _ _ R)).
  destruct (bucket_delete (hp_blocks h) id (v_tables v) s B (fun i t E => proj1 (Tok i t E)) (hp_next h) idx t El)
    as (B' & Ar & Fr); [by apply Tok|]. set (p := sl_append _ _ _ _) in *.
  pose proof (rp_ownb _ _ _ _ _ _ _ _ R _ _ Hi Ea) as Ow.
  destruct (rep_bucket n K I F bs h b v (blockBucketIdx id) s p.1 p.2 (hp_next h + 1) (delete id (v_tables v)))
    as [R' Frm]; try done; try lia.
  - by apply bucket_index.
  - intros l _ Nl. by apply Fr.
  - intros i Hid. rewrite lookup_delete_ne; [done|]. by intros ->.
  - by apply drop_tables_ok.
  - eexists _, _. split; [|split; [|split; [exact Frm|done]]].
    + unfold remove_block. erewrite bind_Ret by apply append_blocks_run. fold p. erewrite set_bucket_run; [|exact Ri|exact Ea]. reflexivity.
    + eapply rep_mono; [exact R'|done|set_solver].
Qed.

(** A table of an owned database. *)
Lemma applyDropBlock_run n K I F bs h b v k f dv id ids :
  rep n K I F bs h b v -> F !! k = Some f -> v_dbs v !! k = Some dv -> k ∈ K -> blockBucketIdx id ∈ I -> 0 < id ->
  exists h' F' bs' f', applyDropBlock b (f_db f) id ids h = (Ret (v_drop k id ids v).1, h') /\
    rep n K I F' bs' h' b (v_drop k id ids v).2 /\ frame n b h h' /\
    F' = <[k := f']> F /\ f_sb f' = f_sb f /\ f_db f' = f_db f.
Proof.
  intros R Ef Ev Kk Hi P. destruct (buckets_at _ _ _ _ id (rp_buckets _ _ _ _ _ _ _ _ R) P) as (s & Es & Ea & B).
  pose proof (rp_is _ _ _ _ _ _ _ _ R) as Ri. assert (Tok := br_tables _ _ _ _ (rp_buckets _ _ _ _ _ _ _ _ R)).
  destruct (rp_db _ _ _ _ _ _ _ _ R k f dv Ef Ev) as [Ds Dd Dh Dk Do Dc Di].
  assert (Fd := fun x => bucket_find _ _ _ id x B (fun i y E => proj1 (Tok i y E))).
  unfold v_drop, applyDropBlock. erewrite bind_Ret by by eapply bucket_of_run.
  erewrite bind_Ret by apply read_blocks_run. cbv beta. set (tbls := sl_read (hp_blocks h) s) in *.
  destruct (v_tables v !! id) as [t|] eqn:Et.
  2:{ destruct (searchBlock tbls id) as [idx|] eqn:Sr.
      - exfalso. pose proof (searchBlock_spec tbls id (bo_sorted _ _ _ _ B)) as Sp. rewrite Sr in Sp.
        destruct Sp as (t & El & _). specialize (Fd t). cbn in Fd. apply Fd in El. done.
      - exists h, F, bs, f. split; [done|]. split; [done|]. split; [reflexivity|]. by rewrite insert_id. }
  rewrite Ev. destruct (searchBlock tbls id) as [idx|] eqn:Sr; [|by pose proof (proj2 (Fd t) eq_refl)].
  pose proof (proj2 (Fd t) eq_refl) as El. cbn in El.
  destruct (rep_store_sb n K I F bs h b v k f dv (delete (cs_L (bi_Name (Meta t))) (dv_blocks dv)) R Ef Ev Kk)
    as (h1 & E1 & R1 & Fr1).
  set (v1 := MkView _ _ _) in R1. assert (h1 = with_sb <[f_sb f := MkSchemaBlocks (f_db f) (delete (cs_L (bi_Name (Meta t))) (dv_blocks dv))]> h) as Eh1
    by by injection E1.
  destruct (drop_bucket_run n K I F bs h1 b v1 id t s idx R1 P Hi Et Ea) as (h2 & bs2 & E2 & R2 & Fr2 & Ed2 & Ei2).
  { by rewrite Eh1. }
  cbn [v_version v_dbs v_tables v1] in R2.
  destruct (remove_info_run h2 (f_db f) (f_di f) id) as (d' & h3 & Dc3 & Ar3).
  { by rewrite Ed2, Eh1. } { by rewrite Ei2, Eh1. } { by rewrite Ei2, Eh1. }
  rewrite Ei2, Eh1 in Dc3. cbn [hp_infos with_sb] in Dc3. rewrite Di in Dc3.
  assert (Dc3' := Dc3). eapply rep_di_changed in Dc3' as [R3 Fr3]; [|exact R2|exact Ef|apply lookup_insert_eq|done].
  cbn [v_version v_dbs v_tables dv_head dv_blocks] in R3. rewrite insert_insert_eq in R3.
  eexists h3, _, bs2, _. split; [|split; [exact R3|split; [by etransitivity; [exact Fr1|etransitivity; [exact Fr2|exact Fr3]]|done]]].
  erewrite bind_Ret by by apply load_db_run. erewrite bind_Ret by by apply load_is_run.
  cbn [schemaMap]. rewrite Dk, lookup_fmap, Ef. cbn [fmap option_fmap option_map].
  erewrite bind_Ret.
  2:{ rewrite El. cbn [lift_opt]. erewrite bind_Ret by done. erewrite bind_Ret by by apply load_sb_run.
      cbn [sb_dbInfo sb_blocks]. erewrite bind_Ret by exact E1. reflexivity. }
  cbv beta. assert (Etb : sl_read (hp_blocks h1) s = tbls) by by rewrite Eh1. rewrite Etb in E2.
  erewrite bind_Ret by exact E2. by erewrite bind_Ret by by eapply dc_run.
Qed.

(** ** Creation *)

Lemma add_sorted_run n K I F bs h b v id t :
  rep n K I F bs h b v -> 0 < id -> blockBucketIdx id ∈ I -> v_tables v !! id = None -> bid t = id ->
  exists h' bs', add_sorted b (blockBucketIdx id) t h = (Ret tt, h') /\
    rep n K I F bs' h' b (MkView (v_version v) (v_dbs v) (<[id := t]> (v_tables v))) /\ frame n b h h' /\
    hp_db h' = hp_db h /\ hp_infos h' = hp_infos h.
Proof.
  intros R P Hi En It. destruct (buckets_at _ _ _ _ id (rp_buckets _ _ _ _ _ _ _ _ R) P) as (s & Es & Ea & B).
  pose proof (rp_is _ _ _ _ _ _ _ _ R) as Ri. assert (Tok := br_tables _ _ _ _ (rp_buckets _ _ _ _ _ _ _ _ R)).
  destruct (bucket_insert (hp_blocks h) id (v_tables v) s B (fun i y E => proj1 (Tok i y E)) (hp_next h) t En It)
    as (Ne & B' & Ar & Fr). set (p := sl_append _ _ _ _) in *. set (m' := sl_write _ _ _ _) in *.
  pose proof (rp_ownb _ _ _ _ _ _ _ _ R _ _ Hi Ea) as Ow.
  assert (As : 0 <= sl_arr s < hp_next h) by (eapply br_below; [by eapply rp_buckets|done]).
  destruct (rep_bucket n K I F bs h b v (blockBucketIdx id) s p.1 m' (hp_next h + 1) (<[id := t]> (v_tables v)))
    as [R' Frm]; try done; try lia.
  - by apply bucket_index.
  - intros l Ll Nl. apply Fr; [done|lia].
  - intros i Hid. rewrite lookup_insert_ne; [done|]. by intros ->.
  - intros i y. rewrite lookup_insert_Some. intros [[<- <-]|[_ E]]; [done|by apply Tok].
  - eexists _, _. split; [|split; [|split; [exact Frm|done]]].
    + unfold add_sorted. erewrite bind_Ret by by eapply bucket_of_run. erewrite bind_Ret by apply append_blocks_run.
      fold p. unfold sort_blocks. erewrite bind_Ret.
      2:{ erewrite bind_Ret by apply read_blocks_run. cbn [hp_blocks]. by rewrite decide_False by done. }
      erewrite set_bucket_run; [|exact Ri|exact Ea]. reflexivity.
    + eapply rep_mono; [exact R'|done|set_solver].
Qed.

Context `{!InfoLaws}.

Lemma convert_info_id i : bi_ID (convert_info i) = bi_ID i.
Proof.
  unfold convert_info, ConvertOldVersionUTF8ToUTF8MB4IfNeed, ConvertCharsetDefCauslateToLowerCaseIfNeed, set_charset.
  repeat case_match; done.
Qed.

Lemma applyCreateBlock_run n K I F bs h b v k f dv m id allocs tp ids :
  rep n K I F bs h b v -> F !! k = Some f -> v_dbs v !! k = Some dv -> k ∈ K -> blockBucketIdx id ∈ I -> 0 < id ->
  v_tables v !! id = None ->
  (forall i, GetBlock m (db_ID (dv_head dv)) id = Ok (Some i) -> bi_ID i = id) ->
  match v_create k m id allocs tp ids v with
  | Ok (ids', v') => exists h' F' bs' f', applyCreateBlock b m (f_db f) id allocs tp ids h = (Ret ids', h') /\
      rep n K I F' bs' h' b v' /\ frame n b h h' /\ F' = <[k := f']> F /\ f_sb f' = f_sb f /\ f_db f' = f_db f
  | Err e => applyCreateBlock b m (f_db f) id allocs tp ids h = (Fail e, h)
  end.
Proof.
  intros R Ef Ev Kk Hi P En Gid. destruct (rp_db _ _ _ _ _ _ _ _ R k f dv Ef Ev) as [Ds Dd Dh Dk Do Dc Di].
  assert (Did : db_ID (f_di f) = db_ID (dv_head dv)) by by rewrite <- Dh.
  unfold v_create, applyCreateBlock. rewrite Ev. erewrite bind_Ret by by apply load_db_run. rewrite Did.
  destruct (GetBlock m (db_ID (dv_head dv)) id) as [[i|]|e]; cbn [mbind result_mbind]; [|by erewrite bind_Ret by done|by erewrite bind_Fail by done].
  erewrite bind_Ret by done. cbv beta zeta.
  destruct (BlockFromMeta _ (convert_info i)) as [t|e] eqn:Eb; rewrite ?Eb; cbn [mbind result_mbind]; [|by erewrite bind_Fail by done].
  pose proof (Meta_BlockFromMeta _ _ _ Eb) as Mt. specialize (Gid i eq_refl).
  assert (It : bid t = id) by by rewrite <- Gid, <- convert_info_id, <- Mt.
  destruct (rep_store_sb n K I F bs h b v k f dv (<[cs_L (bi_Name (convert_info i)) := t]> (dv_blocks dv)) R Ef Ev Kk)
    as (h1 & E1 & R1 & Fr1). set (v1 := MkView _ _ _) in R1.
  assert (h1 = with_sb <[f_sb f := MkSchemaBlocks (f_db f) (<[cs_L (bi_Name (convert_info i)) := t]> (dv_blocks dv))]> h) as Eh1
    by by injection E1.
  destruct (add_sorted_run n K I F bs h1 b v1 id t R1 P Hi En It) as (h2 & bs2 & E2 & R2 & Fr2 & Ed2 & Ei2).
  cbn [v_version v_dbs v_tables v1] in R2.
  pose proof (BlockByID_run _ _ _ _ _ _ _ _ id R2 P) as E3. cbn [v_tables] in E3. rewrite lookup_insert_eq in E3.
  destruct (rp_below _ _ _ _ _ _ _ _ R2 k f Ef) as (Bl1 & Bl2 & Bl3).
  destruct (add_info_run h2 (f_db f) (f_di f) (Meta t)) as (d' & h3 & Dc3).
  { by rewrite Ed2, Eh1. } { by rewrite Ei2, Eh1. } { done. } { by rewrite Ei2, Eh1. }
  assert (Rd : sl_read (hp_infos h2) (db_Blocks (f_di f)) = dv_infos dv) by by rewrite Ei2, Eh1. rewrite Rd in Dc3.
  assert (Dc3' := Dc3). eapply rep_di_changed in Dc3' as [R3 Fr3]; [|exact R2|exact Ef|apply lookup_insert_eq|done].
  cbn [v_version v_dbs v_tables dv_head dv_blocks] in R3. rewrite insert_insert_eq in R3.
  eexists h3, _, bs2, _. split; [|split; [exact R3|split; [by etransitivity; [exact Fr1|etransitivity; [exact Fr2|exact Fr3]]|done]]].
  erewrite bind_Ret by done. erewrite bind_Ret by (apply load_is_run; by eapply rp_is). cbn [schemaMap].
  rewrite Dk, lookup_fmap, Ef. cbn [fmap option_fmap option_map lift_opt]. erewrite bind_Ret by done.
  erewrite bind_Ret by by apply load_sb_run. cbn [sb_dbInfo sb_blocks]. erewrite bind_Ret by exact E1.
  erewrite bind_Ret by exact E2. erewrite bind_Ret by exact E3. cbv beta iota. by erewrite bind_Ret by by eapply dc_run.
Qed.
End tables.
