(* ===== verification/InfoDiff.v ===== *)
(** * The changes of a builder refine those of the view

    [ApplyDiff] on the heap returns what [v_diff] returns on the view, and
    touches only what the builder made during the call. *)

From stdpp Require Import base gmap list option strings.
From Stdlib Require Import ZArith Lia Sorted.
From S2P Require Import Prelude External GoHeap GoMonad InfoSchema InfoBuilder InfoBuckets InfoView InfoOps InfoTables.

Local Open Scope Z_scope.

Section diff.
Context `{InfoPkgs} `{!Growth} `{GL : !GrowthLaws} `{!Sorter} `{SL : !SorterLaws} `{!DBCopies} `{CL : !DBCopyLaws}.
Context (range_schemas : gmap string Z -> list (string * Z)).
Context (range_schemas_perm : forall m, range_schemas m ≡ₚ map_to_list m).

Lemma Ok_bind {E A B} (a : A) (f : A -> result E B) : (Ok a ≫= f) = f a.
Proof. done. Qed.

Lemma Err_bind {E A B} (e : E) (f : A -> result E B) : (Err e ≫= f) = Err e.
Proof. done. Qed.

(** The heap reaches [h'] with the result of the view, or fails as it does. *)
Definition refines {A} (n b : Z) (h : heap) (o : out A * heap) (r : res (A * view)) : Prop :=
  match r with
  | Ok (a, v') => exists h' K' I' F' bs', o = (Ret a, h') /\ rep n K' I' F' bs' h' b v' /\ frame n b h h'
  | Err e => exists h', o = (Fail e, h') /\ frame n b h h'
  end.

(** ** A table *)

Lemma copy_buckets_run n K I F bs h b v old new :
  rep n K I F bs h b v -> 0 <= old -> 0 <= new ->
  exists h' bs' I', INTERLOCKySortedBlocks b old new h = (Ret tt, h') /\ rep n K I' F bs' h' b v /\ frame n b h h' /\
    (0 < old -> blockBucketIdx old ∈ I') /\ (0 < new -> blockBucketIdx new ∈ I').
Proof.
  intros R Po Pn. unfold INTERLOCKySortedBlocks.
  assert (Ho : exists h1 bs1 I1, (if blockIDIsValid old then INTERLOCKySortedBlocksBucket b (blockBucketIdx old) else ret tt) h
    = (Ret tt, h1) /\ rep n K I1 F bs1 h1 b v /\ frame n b h h1 /\ (0 < old -> blockBucketIdx old ∈ I1)).
  { unfold blockIDIsValid. destruct (Z.eqb_spec old 0) as [E|E]; cbn [negb].
    - exists h, bs, I. split; [done|]. split; [done|]. split; [reflexivity|lia].
    - destruct (copy_bucket_run n K I F bs h b v old R ltac:(lia)) as (h1 & bs1 & E1 & R1 & Fr1 & _).
      exists h1, bs1, ({[blockBucketIdx old]} ∪ I). split; [done|]. split; [done|]. split; [done|set_solver]. }
  destruct Ho as (h1 & bs1 & I1 & E1 & R1 & Fr1 & Io). erewrite bind_Ret by exact E1.
  destruct (blockIDIsValid new && negb (new =? old)) eqn:Ec.
  - apply andb_true_iff in Ec as [Ec _]. unfold blockIDIsValid in Ec. apply negb_true_iff, Z.eqb_neq in Ec.
    destruct (copy_bucket_run n K I1 F bs1 h1 b v new R1 ltac:(lia)) as (h2 & bs2 & E2 & R2 & Fr2 & _).
    exists h2, bs2, ({[blockBucketIdx new]} ∪ I1). split; [done|]. split; [done|]. split; [by etransitivity|].
    split; [intros L; specialize (Io L)|intros L]; set_solver.
  - exists h1, bs1, I1. split; [done|]. split; [done|]. split; [done|]. split; [done|]. intros L.
    apply andb_false_iff in Ec as [Ec|Ec].
    + unfold blockIDIsValid in Ec. apply negb_false_iff, Z.eqb_eq in Ec. lia.
    + apply negb_false_iff, Z.eqb_eq in Ec as ->. by apply Io.
Qed.

Lemma v_drop_absent k id ids v : (forall i t, v_tables v !! i = Some t -> bid t = i /\ 0 < i) ->
  v_tables (v_drop k id ids v).2 !! id = None.
Proof.
  intros _. unfold v_drop. destruct (v_tables v !! id) as [t|] eqn:E; [|done].
  destruct (v_dbs v !! k); cbn; by rewrite lookup_delete_eq.
Qed.

Lemma v_drop_head k id ids v k' dv : v_dbs v !! k' = Some dv ->
  exists dv', v_dbs (v_drop k id ids v).2 !! k' = Some dv' /\ dv_head dv' = dv_head dv.
Proof.
  intros E. unfold v_drop. destruct (v_tables v !! id) as [t|]; [|by exists dv].
  destruct (v_dbs v !! k) as [dk|] eqn:Ek; cbn; [|by exists dv].
  destruct (decide (k' = k)) as [->|N]; [|rewrite lookup_insert_ne by done; by exists dv].
  rewrite lookup_insert_eq. eexists. split; [done|]. cbn. congruence.
Qed.

(** What a change of a table may rely on: the identifiers are not negative, the
    description that is read has the identifier, and a table that comes with a
    new identifier is not there yet. *)
Record block_diff_ok (m : MetaSnapshot) (diff : SchemaDiff) (v : view) : Prop := {
  bd_ids : 0 <= (old_new diff).1 /\ 0 <= (old_new diff).2;
  bd_meta db i : GetBlock m db (old_new diff).2 = Ok (Some i) -> bi_ID i = (old_new diff).2;
  bd_new : (old_new diff).2 <> (old_new diff).1 -> v_tables v !! (old_new diff).2 = None;
}.

Lemma foot_db_some (F : gmap string foot) k f : F !! k = Some f ->
  (Some k ≫= fun k => F !! k ≫= fun f => Some (f_db f)) = Some (f_db f).
Proof. intros E. cbn. by rewrite E. Qed.

Lemma drop_old_run n K I F bs h b v k f dv old diff :
  rep n K I F bs h b v -> F !! k = Some f -> v_dbs v !! k = Some dv -> k ∈ K -> blockBucketIdx old ∈ I -> 0 < old ->
  db_ids_unique v -> db_ID (dv_head dv) = SchemaID diff ->
  match v_drop_from v k diff with
  | Ok k' => exists h' K' F' bs' f', drop_old range_schemas b (f_db f) old diff h = (Ret (v_drop k' old [] v).1, h') /\
      rep n K' I F' bs' h' b (v_drop k' old [] v).2 /\ frame n b h h' /\ k ∈ K' /\ F' !! k = Some f' /\ f_db f' = f_db f
  | Err e => drop_old range_schemas b (f_db f) old diff h = (Fail e, h)
  end.
Proof using range_schemas_perm GL SL CL.
  intros R Ef Ev Kk Hi P U Id. unfold v_drop_from, drop_old.
  destruct (bool_decide _ && _) eqn:Ec.
  - erewrite bind_Ret by by eapply SchemaByID_run. destruct (v_schema_by_id v (OldSchemaID diff)) as [k'|] eqn:Ek; [|done].
    apply v_schema_by_id_spec in Ek as (dv' & Ev' & Id'); [|done].
    destruct (proj2 (rp_dom _ _ _ _ _ _ _ _ R k')) as [g Eg]; [by exists dv'|].
    destruct (rp_db _ _ _ _ _ _ _ _ R k' g dv' Eg Ev') as [_ Dd _ Dk _ _ _].
    rewrite (foot_db_some _ _ _ Eg). erewrite bind_Ret by by apply load_db_run. rewrite Dk.
    destruct (copy_schema_run n K I F bs h b v k' g dv' R Eg Ev') as (h1 & g' & E1 & R1 & Fr1).
    erewrite bind_Ret by exact E1.
    destruct (applyDropBlock_run n _ I _ bs h1 b v k' g' dv' old [] R1) as (h2 & F2 & bs2 & g2 & E2 & R2 & Fr2 & EF & _ & Eg2);
      [by rewrite lookup_insert_eq|done|set_solver|done|done|].
    apply andb_true_iff in Ec as [_ Ec]. apply negb_true_iff, Z.eqb_neq in Ec.
    assert (k' <> k) by congruence.
    exists h2, ({[k']} ∪ K), F2, bs2, f. split; [done|]. split; [done|]. split; [by etransitivity|]. split; [set_solver|].
    rewrite EF, !lookup_insert_ne by done. done.
  - destruct (applyDropBlock_run n K I F bs h b v k f dv old [] R Ef Ev Kk Hi P)
      as (h2 & F2 & bs2 & f2 & E2 & R2 & Fr2 & EF & _ & Eg2).
    exists h2, K, F2, bs2, f2. split; [done|]. split; [done|]. split; [done|]. split; [done|].
    rewrite EF, lookup_insert_eq. done.
Qed.

Context `{IL : !InfoLaws}.

Lemma apply_block_diff_run n K I F bs h b v m diff :
  rep n K I F bs h b v -> db_ids_unique v -> block_diff_ok m diff v ->
  refines n b h (apply_block_diff range_schemas b m diff h) (v_block_diff m diff v).
Proof using range_schemas_perm GL SL CL IL.
  intros R U [Pid Gid Nw]. unfold apply_block_diff, v_block_diff.
  erewrite bind_Ret by by eapply SchemaByID_run.
  destruct (v_schema_by_id v (SchemaID diff)) as [k|] eqn:Ek; [|exists h; split; [done|reflexivity]].
  apply v_schema_by_id_spec in Ek as (dv & Ev & Id); [|done].
  destruct (proj2 (rp_dom _ _ _ _ _ _ _ _ R k)) as [f Ef]; [by exists dv|].
  destruct (rp_db _ _ _ _ _ _ _ _ R k f dv Ef Ev) as [_ Dd _ Dk _ _ _].
  rewrite (foot_db_some _ _ _ Ef). destruct (old_new diff) as [old new]. cbn [fst snd] in Pid, Gid, Nw.
  erewrite bind_Ret by by apply load_db_run. rewrite Dk.
  destruct (copy_schema_run n K I F bs h b v k f dv R Ef Ev) as (h1 & f1 & E1 & R1 & Fr1). erewrite bind_Ret by exact E1.
  destruct (copy_buckets_run n _ I _ bs h1 b v old new R1) as (h2 & bs2 & I2 & E2 & R2 & Fr2 & Io & In); [lia|lia|].
  erewrite bind_Ret by exact E2. assert (Fr12 : frame n b h h2) by by etransitivity.
  assert (Ef1 : <[k:=f1]> F !! k = Some f1) by apply lookup_insert_eq. set (F1 := <[k:=f1]> F) in *.
  (* the table that comes *)
  assert (Create : forall h3 K3 F3 bs3 f3 v3 dv3 allocs ids, rep n K3 I2 F3 bs3 h3 b v3 -> frame n b h h3 ->
    k ∈ K3 -> F3 !! k = Some f3 -> f_db f3 = f_db f1 -> v_dbs v3 !! k = Some dv3 ->
    (0 < new -> v_tables v3 !! new = None) ->
    refines n b h ((if blockIDIsValid new then applyCreateBlock b m (f_db f1) new allocs (Type_ diff) ids else ret ids) h3)
      (if blockIDIsValid new then v_create k m new allocs (Type_ diff) ids v3 else Ok (ids, v3))).
  { intros h3 K3 F3 bs3 f3 v3 dv3 allocs ids R3 Fr3 K3k E3 Ed3 Ev3 Nn. unfold blockIDIsValid.
    destruct (Z.eqb_spec new 0) as [E|E]; cbn [negb].
    { exists h3, K3, I2, F3, bs3. split; [done|]. by split. }
    rewrite <- Ed3. pose proof (applyCreateBlock_run n K3 I2 F3 bs3 h3 b v3 k f3 dv3 m new allocs (Type_ diff) ids R3 E3 Ev3 K3k
      ltac:(apply In; lia) ltac:(lia) ltac:(apply Nn; lia) (fun i => Gid _ i)) as C.
    destruct (v_create _ _ _ _ _ _ _) as [[ids' v']|e].
    - destruct C as (h' & F' & bs' & f' & C & R' & Fr' & _). exists h', K3, I2, F', bs'. split; [done|]. split; [done|].
      by etransitivity.
    - exists h3. by split. }
  replace (blockIDIsValid old) with (negb (old =? 0)) by done. destruct (Z.eqb_spec old 0) as [Eo|Eo]; cbn [negb].
  { erewrite bind_Ret by reflexivity. rewrite Ok_bind. cbn beta iota.
    apply (Create h2 ({[k]} ∪ K) F1 bs2 f1 v dv); try done; [set_solver|]. intros L. apply Nw. lia. }
  pose proof (drop_old_run n _ I2 F1 bs2 h2 b v k f1 dv old diff R2 Ef1 Ev ltac:(set_solver) ltac:(apply Io; lia) ltac:(lia) U Id) as D.
  assert (Al : (if (old =? new) && keeps_allocs diff
     then oldAllocs ← AllocByID b old; ret (filterSlabPredictors diff (default [] oldAllocs)) else ret []) h2 =
     (Ret (v_allocs v diff old new), h2)).
  { unfold v_allocs. destruct (_ && _); [|done]. erewrite bind_Ret by (eapply AllocByID_run; [exact R2|lia]). done. }
  destruct (v_drop_from v k diff) as [k'|e]; rewrite ?Ok_bind, ?Err_bind.
  - destruct D as (h3 & K3 & F3 & bs3 & f3 & E3 & R3 & Fr3 & K3k & Ef3 & Ed3). destruct (v_drop k' old [] v) as [tmp v'] eqn:Edr.
    cbn [fst snd] in *. erewrite bind_Ret.
    2:{ erewrite bind_Ret by exact Al. erewrite bind_Ret by exact E3. reflexivity. }
    cbn beta iota. destruct (v_drop_head k' old [] v k dv Ev) as (dv3 & Ev3 & _). rewrite Edr in Ev3.
    apply (Create h3 K3 F3 bs3 f3 v' dv3); try done; [by etransitivity|]. intros L.
    destruct (decide (new = old)) as [->|N].
    + pose proof (v_drop_absent k' old [] v (br_tables _ _ _ _ (rp_buckets _ _ _ _ _ _ _ _ R))) as A. by rewrite Edr in A.
    + specialize (Nw N). unfold v_drop in Edr. destruct (v_tables v !! old); [|by injection Edr as _ <-].
      destruct (v_dbs v !! k'); injection Edr as _ <-; cbn; by rewrite lookup_delete_ne.
  - exists h2. split; [|done]. erewrite bind_Fail; [reflexivity|]. erewrite bind_Ret by exact Al.
    by erewrite bind_Fail by exact D.
Qed.
End diff.

(** * The changes of databases

    Creation, modification and removal of a database, the other tables of a
    change, and [ApplyDiff] itself. *)

Section apply.
Context `{InfoPkgs}.

(** ** The replicant's map *)

Lemma set_schemaMap_run b f h r : hp_is h !! b = Some r ->
  set_schemaMap b f h =
    (Ret tt, with_is <[b := MkReplicant (f (schemaMap r)) (sortedBlocksBuckets r) (schemaMetaVersion r)]> h).
Proof. intros E. unfold set_schemaMap. by erewrite bind_Ret by by apply load_is_run. Qed.

(** A database leaves the map. *)
Lemma rep_delete_db n K I F bs h b v k :
  rep n K I F bs h b v ->
  let h' := with_is <[b := MkReplicant (delete k (f_sb <$> F)) bs (v_version v)]> h in
  rep n K I (delete k F) bs h' b (MkView (v_version v) (delete k (v_dbs v)) (v_tables v)) /\ frame n b h h'.
Proof.
  intros [Ri Rn Rd Rdb Ra Rb Ro Rz Rk Rw] h'. split.
  - split; try done; cbn [v_dbs v_tables v_version].
    + by rewrite fmap_delete; cbn; rewrite lookup_insert_eq.
    + intros k'. destruct (decide (k' = k)) as [->|N].
      * rewrite !lookup_delete_eq. split; by intros [].
      * by rewrite !lookup_delete_ne.
    + intros k' f dv [_ E]%lookup_delete_Some [_ V]%lookup_delete_Some. eapply db_at_ext; [by apply Rdb|done..].
    + intros k1 k2 f1 f2 N [_ E1]%lookup_delete_Some [_ E2]%lookup_delete_Some. by eapply (Ra k1 k2).
    + intros k' f [_ E]%lookup_delete_Some. by eapply Rb.
    + intros k' f Kk [_ E]%lookup_delete_Some. by eapply Ro.
  - split; try done. intros l Nl. cbn. by rewrite lookup_insert_ne.
Qed.

Lemma rep_set_version n K I F bs h b v ver :
  rep n K I F bs h b v ->
  let h' := with_is <[b := MkReplicant (f_sb <$> F) bs ver]> h in
  rep n K I F bs h' b (set_version ver v) /\ frame n b h h'.
Proof.
  intros [Ri Rn Rd Rdb Ra Rb Ro Rz Rk Rw] h'. split.
  - split; try done; [by cbn; rewrite lookup_insert_eq|].
    intros k f dv E V. eapply db_at_ext; [by apply Rdb|done..].
  - split; try done. intros l Nl. cbn. by rewrite lookup_insert_ne.
Qed.

(** ** A database that no replicant holds *)

Record orphan (n : Z) (h : heap) (F : gmap string foot) (l : Z) (d : DBInfo) : Prop := {
  or_db : hp_db h !! l = Some d;
  or_ok : sl_ok (hp_infos h) (db_Blocks d);
  or_cap : (sl_len (db_Blocks d) <= sl_cap (hp_infos h) (db_Blocks d))%nat;
  or_own : n <= l /\ n <= sl_arr (db_Blocks d);
  or_apart k f : F !! k = Some f -> f_db f <> l /\ f_arr f <> sl_arr (db_Blocks d);
  or_name : F !! cs_L (db_Name d) = None;
}.

Lemma orphan_same n h h' F l d : orphan n h F l d -> hp_db h' = hp_db h -> hp_infos h' = hp_infos h -> orphan n h' F l d.
Proof. intros [A B C D E G] Ed Ei. split; try done; by rewrite ?Ed, ?Ei. Qed.

Lemma delete_absent (T : gmap Z Block) v id : T = v_tables v -> T !! id = None ->
  MkView (v_version v) (v_dbs v) (delete id T) = v.
Proof. intros -> E. rewrite delete_id by done. by destruct v. Qed.

Context `{!Growth} `{GL : !GrowthLaws} `{!Sorter} `{SL : !SorterLaws}.

(** The description of an orphan changes, and no replicant sees it. *)
Lemma orphan_remove_info n K I F bs h b v l d id :
  rep n K I F bs h b v -> orphan n h F l d ->
  exists h' d', remove_info l id h = (Ret tt, h') /\ rep n K I F bs h' b v /\ frame n b h h' /\ orphan n h' F l d'.
Proof using GL.
  intros R [Od Ook Oc [O1 O2] Oa On]. pose proof (rp_next _ _ _ _ _ _ _ _ R) as Rn.
  destruct (remove_info_run h l d id Od Ook Oc) as (d' & h' & [Er Eh Nx Ei Es Eb Ed Ar Fi Ok Cp Rd] & Ear).
  assert (Z0 : hp_infos h' !! 0 = hp_infos h !! 0) by (apply Fi; lia).
  exists h', d'. split; [done|]. split; [|split].
  - eapply rep_agree; [exact R|lia|by rewrite Ei|..].
    + intros k f Ef. destruct (rp_below _ _ _ _ _ _ _ _ R k f Ef) as (B1 & B2 & B3). destruct (Oa k f Ef) as [N1 N2].
      rewrite Es, Ed, lookup_insert_ne by congruence. split; [done|]. split; [done|]. apply Fi; [lia|done].
    + intros i s _. by rewrite Eb.
    + rewrite Eb. by eapply br_zero, rp_buckets.
    + rewrite Z0. by eapply rp_zero.
  - split; [done|by rewrite Ei|by rewrite Es|..].
    + intros x Hx. rewrite Ed, lookup_insert_ne by lia. done.
    + by rewrite Eb.
    + intros x Hx. apply Fi; lia.
  - split; try done.
    + by rewrite Ed, lookup_insert_eq.
    + lia.
    + intros k f Ef. rewrite Ear. by apply (Oa k f).
    + by assert (db_Name d' = db_Name d) as -> by (by injection Eh).
Qed.

Lemma orphan_drop_run n K I F bs h b v l d id :
  rep n K I F bs h b v -> orphan n h F l d -> 0 < id -> (is_Some (v_tables v !! id) -> blockBucketIdx id ∈ I) ->
  exists h' bs' d', applyDropBlock b l id [] h = (Ret [], h') /\
    rep n K I F bs' h' b (MkView (v_version v) (v_dbs v) (delete id (v_tables v))) /\ frame n b h h' /\ orphan n h' F l d'.
Proof using GL SL.
  intros R O P Hi. destruct (buckets_at _ _ _ _ id (rp_buckets _ _ _ _ _ _ _ _ R) P) as (s & Es & Ea & B).
  pose proof (rp_is _ _ _ _ _ _ _ _ R) as Ri. assert (Tok := br_tables _ _ _ _ (rp_buckets _ _ _ _ _ _ _ _ R)).
  assert (Fd := fun x => bucket_find _ _ _ id x B (fun i y E => proj1 (Tok i y E))).
  unfold applyDropBlock. erewrite bind_Ret by by eapply bucket_of_run.
  erewrite bind_Ret by apply read_blocks_run. cbv beta. set (tbls := sl_read (hp_blocks h) s) in *.
  destruct (searchBlock tbls id) as [idx|] eqn:Sr.
  2:{ exists h, bs, d. split; [done|]. split; [|split; [reflexivity|done]].
      rewrite (delete_absent _ v id eq_refl); [done|].
      destruct (v_tables v !! id) as [t|] eqn:Et; [|done]. by pose proof (proj2 (Fd t) eq_refl). }
  pose proof (searchBlock_spec tbls id (bo_sorted _ _ _ _ B)) as Sp. rewrite Sr in Sp. destruct Sp as (t & El & _).
  assert (Et : v_tables v !! id = Some t) by (apply (Fd t); by cbn).
  destruct (drop_bucket_run n K I F bs h b v id t s idx R P (Hi (ex_intro _ t Et)) Et Ea El)
    as (h1 & bs1 & E1 & R1 & Fr1 & Ed1 & Ei1).
  destruct (orphan_remove_info n K I F bs1 h1 b _ l d id R1 (orphan_same _ _ _ _ _ _ O Ed1 Ei1))
    as (h2 & d2 & E2 & R2 & Fr2 & O2).
  exists h2, bs1, d2. split; [|split; [done|split; [by etransitivity|done]]].
  erewrite bind_Ret by (apply load_db_run; by eapply or_db). erewrite bind_Ret by by apply load_is_run.
  cbn [schemaMap]. rewrite lookup_fmap, (or_name _ _ _ _ _ O). cbn [fmap option_fmap option_map].
  erewrite bind_Ret by done. cbv beta. erewrite bind_Ret by exact E1. by erewrite bind_Ret by exact E2.
Qed.

Lemma drop_blocks_run n K I F b l ids : forall bs h v d,
  rep n K I F bs h b v -> orphan n h F l d ->
  Forall (fun id => 0 < id /\ (is_Some (v_tables v !! id) -> blockBucketIdx id ∈ I)) ids ->
  exists h' bs', drop_blocks b l ids h = (Ret tt, h') /\
    rep n K I F bs' h' b (MkView (v_version v) (v_dbs v) (foldl (fun T id => delete id T) (v_tables v) ids)) /\
    frame n b h h'.
Proof using GL SL.
  induction ids as [|id ids IH]; intros bs h v d R O Hd.
  { exists h, bs. split; [done|]. split; [by destruct v|reflexivity]. }
  apply Forall_cons in Hd as [[P Hi] Hd].
  destruct (orphan_drop_run n K I F bs h b v l d id R O P Hi) as (h1 & bs1 & d1 & E1 & R1 & Fr1 & O1).
  destruct (IH bs1 h1 _ d1 R1 O1) as (h2 & bs2 & E2 & R2 & Fr2).
  { eapply Forall_impl; [exact Hd|]. intros x [Px Hx]. split; [done|]. cbn. intros [t [_ E]%lookup_delete_Some]. apply Hx. by exists t. }
  exists h2, bs2. split; [|split; [done|by etransitivity]]. cbn [drop_blocks]. by erewrite bind_Ret by exact E1.
Qed.

Lemma copy_all_buckets_run n K F b idxs : forall I bs h v,
  rep n K I F bs h b v -> (forall i, i ∈ idxs -> exists id, 0 < id /\ i = blockBucketIdx id) ->
  exists h' bs', INTERLOCKy_buckets b idxs h = (Ret tt, h') /\ rep n K (list_to_set idxs ∪ I) F bs' h' b v /\ frame n b h h' /\
    hp_db h' = hp_db h /\ hp_infos h' = hp_infos h.
Proof.
  induction idxs as [|i idxs IH]; intros I bs h v R Hi.
  { exists h, bs. split; [done|]. split; [by replace (list_to_set [] ∪ I) with I by set_solver|]. by split. }
  destruct (Hi i) as (id & P & ->); [left|].
  destruct (copy_bucket_run n K I F bs h b v id R P) as (h1 & bs1 & E1 & R1 & Fr1 & Ed1 & Ei1).
  destruct (IH _ bs1 h1 v R1) as (h2 & bs2 & E2 & R2 & Fr2 & Ed2 & Ei2); [intros j Hj; apply Hi; by right|].
  exists h2, bs2. split; [cbn [INTERLOCKy_buckets]; by erewrite bind_Ret by exact E1|].
  split; [eapply rep_mono; [exact R2|done|set_solver]|]. split; [by etransitivity|]. split; congruence.
Qed.

(** ** Creation and modification *)

Lemma alter_Some {A} (f : A -> A) k (m : gmap string A) x : m !! k = Some x -> alter f k m = <[k := f x]> m.
Proof.
  intros E. apply map_eq. intros j. destruct (decide (j = k)) as [->|N].
  - by rewrite lookup_alter_eq, lookup_insert_eq, E.
  - by rewrite lookup_alter_ne, lookup_insert_ne by done.
Qed.


Definition with_nil (v : res view) : res (list Z * view) := v ← v; Ok ([], v).

Lemma applyCreateSchema_run n K I F bs h b v m diff :
  rep n K I F bs h b v ->
  refines n b h ((applyCreateSchema b m diff;; ret []) h) (with_nil (v_create_schema m diff v)).
Proof.
  intros R. pose proof (rp_next _ _ _ _ _ _ _ _ R) as Rn. unfold applyCreateSchema, v_create_schema, with_nil.
  destruct (GetDatabase m (SchemaID diff)) as [[di|]|e]; rewrite ?Ok_bind, ?Err_bind; [|exists h; split; [done|reflexivity]..].
  set (k := cs_L (db_Name di)). set (f := MkFoot (hp_next h + 1) (hp_next h) (set_Blocks nil_slice di)).
  set (h' := MkHeap (hp_next h + 1 + 1) (<[b := MkReplicant (<[k := hp_next h + 1]> (f_sb <$> F)) bs (v_version v)]> (hp_is h))
    (<[hp_next h + 1 := MkSchemaBlocks (hp_next h) ∅]> (hp_sb h)) (<[hp_next h := set_Blocks nil_slice di]> (hp_db h))
    (hp_blocks h) (hp_infos h)).
  destruct (rep_add_db n K I F bs h b v k f (MkDbView (db_head di) ∅ []) h') as [R' Fr]; try done;
    cbn [hp_next hp_sb hp_db hp_infos h' f f_sb f_db]; try lia.
  - by left.
  - intros l Hl. by rewrite lookup_insert_ne by lia.
  - intros l Hl. by rewrite lookup_insert_ne by lia.
  - split; cbn; try done; [by rewrite lookup_insert_eq..|unfold sl_ok; cbn; lia|lia].
  - eexists h', _, I, _, bs. split; [|split; [exact R'|done]].
    erewrite bind_Ret; [reflexivity|]. unfold set_schemaMap, load_is, new_loc, store_db, store_sb, store_is. step_exec. cbn.
    by rewrite (rp_is _ _ _ _ _ _ _ _ R).
Qed.

Context `{!DBCopies} `{CL : !DBCopyLaws}.

Lemma applyModifySchema_run n K I F bs h b v m diff :
  rep n K I F bs h b v ->
  (forall di, GetDatabase m (SchemaID diff) = Ok (Some di) -> is_Some (v_dbs v !! cs_L (db_Name di))) ->
  refines n b h ((applyModifySchemaCharsetAndDefCauslate b m diff;; ret []) h) (with_nil (v_modify_schema m diff v)).
Proof using GL SL CL.
  intros R Hk. unfold applyModifySchemaCharsetAndDefCauslate, v_modify_schema, with_nil.
  destruct (GetDatabase m (SchemaID diff)) as [[di|]|e]; rewrite ?Ok_bind, ?Err_bind; [|exists h; split; [done|reflexivity]..].
  destruct (Hk di eq_refl) as [dv Ev]. set (k := cs_L (db_Name di)) in *.
  destruct (proj2 (rp_dom _ _ _ _ _ _ _ _ R k)) as [f Ef]; [by exists dv|].
  destruct (copy_schema_run n K I F bs h b v k f dv R Ef Ev) as (h1 & f1 & E1 & R1 & Fr1).
  assert (Ef1 : <[k:=f1]> F !! k = Some f1) by apply lookup_insert_eq.
  destruct (rp_db _ _ _ _ _ _ _ _ R1 k f1 dv Ef1 Ev) as [Ds Dd Dh Dk Do Dc Di].
  set (d' := MkDBInfo (db_ID (f_di f1)) (db_Name (f_di f1)) (db_Charset di) (db_DefCauslate di) (db_State (f_di f1)) (db_Blocks (f_di f1))).
  destruct (rep_set_di n _ I _ bs h1 b v k f1 dv d' (dv_infos dv) (with_db <[f_db f1 := d']> h1) R1 Ef1 Ev) as [R2 Fr2];
    try done; [set_solver|by left|].
  assert (Hd : db_head d' = set_collation di (dv_head dv)) by by rewrite <- Dh.
  rewrite Hd in R2. eexists _, _, I, _, bs. split; [|split; [|by etransitivity; [exact Fr1|exact Fr2]]].
  - erewrite bind_Ret; [reflexivity|]. erewrite bind_Ret by reflexivity. cbv beta iota. erewrite bind_Ret by exact E1.
    erewrite bind_Ret by by apply load_db_run. reflexivity.
  - by rewrite (alter_Some _ _ _ dv Ev).
Qed.

(** ** Removal of a database *)

Context (range_schemas : gmap string Z -> list (string * Z)).
Context (range_schemas_perm : forall m, range_schemas m ≡ₚ map_to_list m).
Context (range_buckets : gset Z -> list Z).
Context (range_buckets_perm : forall s, range_buckets s ≡ₚ elements s).

(** The tables of the database, and the buckets of what goes with it: a
    partition is no table, or one in the bucket of a table of the database. *)
Definition drop_schema_ok (id : Z) (v : view) : Prop :=
  forall k dv, v_dbs v !! k = Some dv -> db_ID (dv_head dv) = id ->
    (forall i, i ∈ dv_infos dv -> 0 < bi_ID i) /\
    Forall (fun id => 0 < id /\ (is_Some (v_tables v !! id) -> exists i, i ∈ dv_infos dv /\ blockBucketIdx id = blockBucketIdx (bi_ID i)))
      (infos_ids (dv_infos dv)).

(** The clone of the description is the builder's own. *)
Lemma clone_run n K I F bs h b v l d :
  rep n K I F bs h b v -> hp_db h !! l = Some d -> sl_ok (hp_infos h) (db_Blocks d) -> F !! cs_L (db_Name d) = None ->
  exists h' l' d', DB_Clone l h = (Ret l', h') /\ rep n K I F bs h' b v /\ frame n b h h' /\ orphan n h' F l' d'.
Proof using CL.
  intros R Ed Ok En. destruct (Clone_copies h l d Ed Ok) as (l' & a & h' & [Er [[N1 N2] [N3 N4]] Ei Es Eb Edb (c & Lc & Ein)]).
  pose proof (rp_next _ _ _ _ _ _ _ _ R) as Rn. set (d' := set_Blocks (MkSlice a (sl_len (db_Blocks d))) d) in *.
  assert (Fi : forall x, x < hp_next h -> hp_infos h' !! x = hp_infos h !! x)
    by (intros x Hx; rewrite Ein, lookup_insert_ne by lia; done).
  assert (Fd : forall x, x < hp_next h -> hp_db h' !! x = hp_db h !! x)
    by (intros x Hx; rewrite Edb, lookup_insert_ne by lia; done).
  exists h', l', d'. split; [done|]. split; [|split].
  - eapply rep_agree; [exact R|lia|by rewrite Ei|..].
    + intros k f Ef. destruct (rp_below _ _ _ _ _ _ _ _ R k f Ef) as (B1 & B2 & B3).
      rewrite Es. split; [done|]. split; [by apply Fd|apply Fi; lia].
    + intros i s _. by rewrite Eb.
    + rewrite Eb. by eapply br_zero, rp_buckets.
    + rewrite Fi by lia. by eapply rp_zero.
  - split; [lia|by rewrite Ei|by rewrite Es|..].
    + intros x Hx. apply Fd. lia.
    + by rewrite Eb.
    + intros x Hx. apply Fi. lia.
  - assert (Lr : length (sl_read (hp_infos h) (db_Blocks d)) = sl_len (db_Blocks d)) by by apply sl_read_length.
    split; cbn [d' set_Blocks db_Blocks sl_arr sl_len db_Name].
    + by rewrite Edb, lookup_insert_eq.
    + unfold sl_ok, sl_cells. cbn [sl_arr sl_len]. rewrite Ein, lookup_insert_eq. cbn [cells]. lia.
    + unfold sl_cap. cbn [sl_arr sl_len]. by rewrite Ein, lookup_insert_eq.
    + lia.
    + intros k f Ef. destruct (rp_below _ _ _ _ _ _ _ _ R k f Ef) as (B1 & B2 & B3). lia.
    + done.
Qed.

Lemma applyDropSchema_run n K I F bs h b v id :
  rep n K I F bs h b v -> db_ids_unique v -> drop_schema_ok id v ->
  refines n b h (applyDropSchema range_schemas range_buckets b id h) (Ok (v_drop_schema id v)).
Proof using range_schemas_perm range_buckets_perm GL SL CL.
  intros R U Dok. unfold applyDropSchema, v_drop_schema. erewrite bind_Ret by by eapply SchemaByID_run.
  destruct (v_schema_by_id v id) as [k|] eqn:Ek; [|exists h, K, I, F, bs; split; [done|]; by split].
  apply v_schema_by_id_spec in Ek as (dv & Ev & Id); [|done].
  destruct (proj2 (rp_dom _ _ _ _ _ _ _ _ R k)) as [f Ef]; [by exists dv|].
  destruct (rp_db _ _ _ _ _ _ _ _ R k f dv Ef Ev) as [Ds Dd Dh Dk Do Dc Di].
  rewrite (foot_db_some _ _ _ Ef), Ev. erewrite bind_Ret by by apply load_db_run. rewrite Dk.
  erewrite bind_Ret by (apply set_schemaMap_run; by eapply rp_is). cbn [schemaMap sortedBlocksBuckets schemaMetaVersion].
  destruct (rep_delete_db n K I F bs h b v k R) as [R1 Fr1]. set (h1 := with_is _ h) in *.
  erewrite bind_Ret by apply read_infos_run. cbn [hp_infos h1 with_is]. rewrite Di. cbv beta zeta.
  destruct (Dok k dv Ev Id) as [Pos Ids]. cbn [default fmap option_fmap option_map]. change (foldl appendAffectedIDs [] (dv_infos dv)) with (infos_ids (dv_infos dv)).
  set (S := list_to_set (_ <$> _) : gset Z).
  destruct (copy_all_buckets_run n K (delete k F) b (range_buckets S) I bs h1 _ R1) as (h2 & bs2 & E2 & R2 & Fr2 & Ed2 & Ei2).
  { intros i Hi. rewrite range_buckets_perm in Hi. apply elem_of_elements in Hi. unfold S in Hi.
    apply elem_of_list_to_set, list_elem_of_fmap in Hi as (t & -> & Ht). exists (bi_ID t). split; [by apply Pos|done]. }
  erewrite bind_Ret by exact E2. set (v1 := MkView _ _ _) in R2.
  destruct (clone_run n K _ (delete k F) bs2 h2 b v1 (f_db f) (f_di f) R2) as (h3 & l & d & E3 & R3 & Fr3 & O3);
    [by rewrite Ed2|by rewrite Ei2|by rewrite Dk, lookup_delete_eq|].
  erewrite bind_Ret by exact E3.
  destruct (drop_blocks_run n K _ (delete k F) b l (infos_ids (dv_infos dv)) bs2 h3 v1 d R3 O3) as (h4 & bs4 & E4 & R4 & Fr4).
  { eapply Forall_impl; [exact Ids|]. intros x [Px Hx]. split; [done|]. intros Sx. destruct (Hx Sx) as (i & Hi & ->).
    apply elem_of_union_l, elem_of_list_to_set. rewrite range_buckets_perm. apply elem_of_elements. unfold S.
    apply elem_of_list_to_set, list_elem_of_fmap. by exists i. }
  erewrite bind_Ret by exact E4. exists h4, K, (list_to_set (range_buckets S) ∪ I), (delete k F), bs4. split; [done|].
  split; [exact R4|]. do 3 (etransitivity; [eassumption|]). done.
Qed.

(** ** Any change *)

Context `{IL : !InfoLaws}.

(** The changes of tables keep the descriptions of the databases. *)
Definition heads (v : view) : gmap string DBInfo := dv_head <$> v_dbs v.

Lemma heads_unique v v' : heads v' = heads v -> db_ids_unique v -> db_ids_unique v'.
Proof.
  intros E U k1 k2 d1 d2 E1 E2 Id.
  assert (Back : forall k d, v_dbs v' !! k = Some d -> exists d0, v_dbs v !! k = Some d0 /\ dv_head d0 = dv_head d).
  { intros k d Ed. assert (X : heads v !! k = Some (dv_head d)) by by rewrite <- E; unfold heads; rewrite lookup_fmap, Ed.
    unfold heads in X. rewrite lookup_fmap in X. apply fmap_Some in X as (d0 & ? & ?). by exists d0. }
  destruct (Back k1 d1 E1) as (e1 & B1 & G1). destruct (Back k2 d2 E2) as (e2 & B2 & G2).
  eapply U; [exact B1|exact B2|congruence].
Qed.

Lemma insert_heads (m : gmap string dbview) k dv dv' : m !! k = Some dv -> dv_head dv' = dv_head dv ->
  dv_head <$> <[k := dv']> m = dv_head <$> m.
Proof. intros E Eh. rewrite fmap_insert, Eh. apply insert_id. by rewrite lookup_fmap, E. Qed.

Lemma v_drop_heads k id ids v : heads (v_drop k id ids v).2 = heads v.
Proof.
  unfold v_drop. destruct (v_tables v !! id) as [t|]; [|done]. destruct (v_dbs v !! k) as [dv|] eqn:Ek; [|done].
  by apply (insert_heads _ _ dv).
Qed.

Lemma v_create_heads k m id allocs tp ids v r : v_create k m id allocs tp ids v = Ok r -> heads r.2 = heads v.
Proof.
  unfold v_create. destruct (v_dbs v !! k) as [dv|] eqn:Ek; [|done].
  destruct (GetBlock _ _ _) as [[i|]|]; rewrite ?Ok_bind, ?Err_bind; [|done..].
  destruct (BlockFromMeta _ _) as [t|]; rewrite ?Ok_bind, ?Err_bind; [|done]. intros [= <-]. by apply (insert_heads _ _ dv).
Qed.

Lemma v_block_diff_heads m diff v r : v_block_diff m diff v = Ok r -> heads r.2 = heads v.
Proof.
  unfold v_block_diff. destruct (v_schema_by_id _ _) as [k|]; [|done]. destruct (old_new diff) as [old new].
  assert (C : forall allocs ids v0, heads v0 = heads v ->
    (if blockIDIsValid new then v_create k m new allocs (Type_ diff) ids v0 else Ok (ids, v0)) = Ok r -> heads r.2 = heads v).
  { intros allocs ids v0 E0. destruct (blockIDIsValid new); [|by intros [= <-]]. intros E%v_create_heads. by rewrite E. }
  destruct (blockIDIsValid old).
  - destruct (v_drop_from v k diff) as [k'|]; rewrite ?Ok_bind, ?Err_bind; [|done].
    pose proof (v_drop_heads k' old [] v) as Hd. destruct (v_drop k' old [] v) as [tmp v']. rewrite Ok_bind. by apply C.
  - rewrite Ok_bind. by apply C.
Qed.

Definition table_change (tp : CausetActionType) : Prop :=
  tp <> CausetActionCreateSchema /\ tp <> CausetActionDropSchema /\ tp <> CausetActionModifySchemaCharsetAndDefCauslate.

(** No other database has the identifier. *)
Definition db_new (di : DBInfo) (v : view) : Prop :=
  forall k dv, v_dbs v !! k = Some dv -> db_ID (dv_head dv) = db_ID di -> k = cs_L (db_Name di).

(** What a change may rely on; [sub] for the other tables of a change. *)
Fixpoint affected_ok (vapply : SchemaDiff -> view -> res (list Z * view)) (sub : SchemaDiff -> view -> Prop)
    (diff : SchemaDiff) (opts : list AffectedOption) (v : view) : Prop :=
  match opts with
  | [] => True
  | opt :: opts =>
      sub (affected_diff diff opt) v /\
      forall r, vapply (affected_diff diff opt) v = Ok r -> affected_ok vapply sub diff opts r.2
  end.

Definition apply_ok (vapply : SchemaDiff -> view -> res (list Z * view)) (sub : SchemaDiff -> view -> Prop)
    (m : MetaSnapshot) (diff : SchemaDiff) (v : view) : Prop :=
  let v := set_version (Version diff) v in
  match Type_ diff with
  | CausetActionCreateSchema =>
      forall di, GetDatabase m (SchemaID diff) = Ok (Some di) -> db_new di v
  | CausetActionDropSchema => drop_schema_ok (SchemaID diff) v
  | CausetActionModifySchemaCharsetAndDefCauslate =>
      forall di, GetDatabase m (SchemaID diff) = Ok (Some di) -> is_Some (v_dbs v !! cs_L (db_Name di))
  | _ =>
      block_diff_ok m diff v /\
      forall r, v_block_diff m diff v = Ok r -> affected_ok vapply sub diff (AffectedOpts diff) r.2
  end.

Definition diff_ok (m : MetaSnapshot) (diff : SchemaDiff) (v : view) : Prop :=
  apply_ok (v_apply (fun _ v => Ok ([], v)) m) (apply_ok (fun _ v => Ok ([], v)) (fun _ _ => True) m) m diff v.

(** What the other tables of a change do, on the heap and on the view. *)
Definition applies (b : Z) (apply : SchemaDiff -> M heap (list Z)) (vapply : SchemaDiff -> view -> res (list Z * view))
    (sub : SchemaDiff -> view -> Prop) : Prop :=
  forall d n K I F bs h v, table_change (Type_ d) -> rep n K I F bs h b v -> db_ids_unique v -> sub d v ->
    refines n b h (apply d h) (vapply d v) /\ forall r, vapply d v = Ok r -> db_ids_unique r.2.

Lemma refines_bind {A B} n b h (c : M heap A) (r : res (A * view)) (f : A -> M heap B) (g : A * view -> res (B * view)) :
  refines n b h (c h) r ->
  (forall a v h' K I F bs, r = Ok (a, v) -> rep n K I F bs h' b v -> refines n b h' (f a h') (g (a, v))) ->
  refines n b h ((c ≫= f) h) (r ≫= g).
Proof.
  destruct r as [[a v]|e]; cbn [refines].
  - intros (h1 & K1 & I1 & F1 & bs1 & E1 & R1 & Fr1) Hf. specialize (Hf a v h1 K1 I1 F1 bs1 eq_refl R1). rewrite Ok_bind.
    erewrite bind_Ret by exact E1. destruct (g (a, v)) as [[a' v']|e]; cbn [refines] in *.
    + destruct Hf as (h2 & K2 & I2 & F2 & bs2 & E2 & R2 & Fr2). exists h2, K2, I2, F2, bs2. split; [done|]. split; [done|]. by etransitivity.
    + destruct Hf as (h2 & E2 & Fr2). exists h2. split; [done|]. by etransitivity.
  - intros (h1 & E1 & Fr1) _. rewrite Err_bind. exists h1. split; [by erewrite bind_Fail by exact E1|done].
Qed.

Lemma apply_affected_run b apply vapply sub diff : applies b apply vapply sub -> table_change (Type_ diff) ->
  forall opts n K I F bs h v ids, rep n K I F bs h b v -> db_ids_unique v -> affected_ok vapply sub diff opts v ->
  refines n b h (apply_affected apply diff opts ids h) (v_affected vapply diff opts ids v).
Proof.
  intros Ap Tc opts. induction opts as [|opt opts IH]; intros n K I F bs h v ids R U Hok.
  { exists h, K, I, F, bs. split; [done|]. by split. }
  destruct Hok as [Ok1 Ok2]. destruct (Ap (affected_diff diff opt) n K I F bs h v Tc R U Ok1) as [Rf Un].
  cbn [apply_affected v_affected].
  apply (refines_bind n b h (apply (affected_diff diff opt)) _
    (fun ids' => apply_affected apply diff opts (ids ++ ids')) (fun p => let '(ids', v) := p in v_affected vapply diff opts (ids ++ ids') v) Rf).
  intros a v' h' K' I' F' bs' E R'. eapply IH; [exact R'|apply (Un _ E)|apply (Ok2 _ E)].
Qed.

Lemma refines_version n K I F bs h b v ver {A} (c : schemaReplicant -> M heap A) (r : res (A * view)) :
  rep n K I F bs h b v ->
  (forall h' rr, rep n K I F bs h' b (set_version ver v) -> refines n b h' (c rr h') r) ->
  refines n b h ((rr ← load_is b; store_is b (MkReplicant (schemaMap rr) (sortedBlocksBuckets rr) ver);; c rr) h) r.
Proof.
  intros R Hc. erewrite bind_Ret by (apply load_is_run; by eapply rp_is). cbn [schemaMap sortedBlocksBuckets].
  destruct (rep_set_version n K I F bs h b v ver R) as [R1 Fr1]. set (h1 := with_is _ h) in *.
  erewrite bind_Ret by (unfold store_is; reflexivity). fold h1.
  specialize (Hc h1 (MkReplicant (f_sb <$> F) bs (v_version v)) R1). destruct r as [[a v']|e]; cbn [refines] in *.
  - destruct Hc as (h2 & K2 & I2 & F2 & bs2 & E2 & R2 & Fr2). exists h2, K2, I2, F2, bs2. split; [done|]. split; [done|]. by etransitivity.
  - destruct Hc as (h2 & E2 & Fr2). exists h2. split; [done|]. by etransitivity.
Qed.

Lemma apply_diff_run n K I F bs h b v apply vapply sub m diff : applies b apply vapply sub ->
  rep n K I F bs h b v -> db_ids_unique v -> apply_ok vapply sub m diff v ->
  refines n b h (apply_diff range_schemas range_buckets apply b m diff h) (v_apply vapply m diff v).
Proof using range_schemas_perm range_buckets_perm GL SL CL IL.
  intros Ap R U Hok. apply (refines_version n K I F bs h b v (Version diff)); [done|]. intros h' _ R'.
  set (v1 := set_version (Version diff) v) in *. assert (U1 : db_ids_unique v1) by by apply (heads_unique v).
  unfold v_apply, apply_ok in *. fold v1 in Hok. fold v1.
  assert (T : table_change (Type_ diff) -> block_diff_ok m diff v1 ->
    (forall r, v_block_diff m diff v1 = Ok r -> affected_ok vapply sub diff (AffectedOpts diff) r.2) ->
    refines n b h' ((apply_block_diff range_schemas b m diff ≫= apply_affected apply diff (AffectedOpts diff)) h')
      ('(ids, v) ← v_block_diff m diff v1; v_affected vapply diff (AffectedOpts diff) ids v)).
  { intros Tc B A. eapply refines_bind; [by eapply apply_block_diff_run|]. intros ids v2 h2 K2 I2 F2 bs2 E2 R2.
    eapply apply_affected_run; [exact Ap|exact Tc|exact R2| |exact (A _ E2)].
    apply (heads_unique v1); [|done]. by apply (v_block_diff_heads m diff v1 _ E2). }
  destruct (Type_ diff) eqn:Et; try (destruct Hok as [B A]; apply T; [by split; [|split]|done|done]).
  - by eapply applyCreateSchema_run.
  - by eapply applyDropSchema_run.
  - by eapply applyModifySchema_run.
Qed.
End apply.
