(* ===== verification/InfoSpec.v ===== *)
(** * What a change of the schema does

    [ApplyDiff] refines the change of the view, a new builder starts from what
    the old replicant says, and every table that a change touches is among the
    identifiers it reports. *)

From stdpp Require Import base gmap list option strings.
From Stdlib Require Import ZArith Lia Sorted.
From S2P Require Import Prelude External GoMonad GoHeap InfoSchema InfoBuilder InfoBuckets InfoView InfoOps InfoTables InfoDiff.

Local Open Scope Z_scope.

(** ** The view *)

Section reports.
Context `{InfoPkgs} `{IL : !InfoLaws}.

Definition tables_ok (v : view) : Prop := forall id t, v_tables v !! id = Some t -> bid t = id /\ 0 < id.

(** A table that is not among [ids] is the same in two views. *)
Definition reports (v v' : view) (ids : list Z) : Prop :=
  forall id, id ∉ ids -> v_tables v' !! id = v_tables v !! id.

Lemma reports_refl v v' ids : v_tables v' = v_tables v -> reports v v' ids.
Proof. by intros E id; rewrite E. Qed.

Lemma reports_trans v1 v2 v3 ids ids' : reports v1 v2 ids -> reports v2 v3 ids' -> reports v1 v3 (ids ++ ids').
Proof. intros A B id [N1 N2]%not_elem_of_app. by rewrite B, A. Qed.

Lemma reports_weaken v v' ids ids' : reports v v' ids -> ids ⊆ ids' -> reports v v' ids'.
Proof. intros A S id N. apply A. by intros ?%S. Qed.

Lemma appendAffectedIDs_elem ids t : bi_ID t ∈ appendAffectedIDs ids t.
Proof. apply elem_of_app. right. left. Qed.

Lemma v_drop_reports k id v dv : tables_ok v -> v_dbs v !! k = Some dv ->
  reports v (v_drop k id [] v).2 (v_drop k id [] v).1 /\ tables_ok (v_drop k id [] v).2 /\
  forall i, i <> id -> v_tables (v_drop k id [] v).2 !! i = v_tables v !! i.
Proof.
  intros T Ek. unfold v_drop. destruct (v_tables v !! id) as [t|] eqn:Et; [|split; [by apply reports_refl|by split]].
  rewrite Ek. destruct (T _ _ Et) as [It P]. cbn. split; [|split].
  - intros i N. cbn. rewrite lookup_delete_ne; [done|]. intros <-. apply N. unfold bid in It. rewrite It. left.
  - intros i u. cbn. rewrite lookup_delete_Some. intros [_ E]. by apply T.
  - intros i Ni. by rewrite lookup_delete_ne by done.
Qed.

Lemma v_create_reports k m id allocs tp ids v r : tables_ok v -> 0 < id ->
  (forall db i, GetBlock m db id = Ok (Some i) -> bi_ID i = id) ->
  v_create k m id allocs tp ids v = Ok r ->
  ids ⊆ r.1 /\ id ∈ r.1 /\ tables_ok r.2 /\ forall i, i <> id -> v_tables r.2 !! i = v_tables v !! i.
Proof using IL.
  intros T P G. unfold v_create. destruct (v_dbs v !! k) as [dv|]; [|done].
  destruct (GetBlock m _ id) as [[i|]|e] eqn:Eg; rewrite ?Ok_bind, ?Err_bind; [|done..]. specialize (G _ _ Eg).
  destruct (BlockFromMeta _ _) as [t|e] eqn:Eb; rewrite ?Ok_bind, ?Err_bind; [|done]. intros [= <-]. cbn.
  assert (It : bid t = id) by (apply Meta_BlockFromMeta in Eb; unfold bid; by rewrite Eb, convert_info_id).
  split; [|split; [|split]].
  - intros x Hx. apply elem_of_app. by left.
  - rewrite <- G. apply appendAffectedIDs_elem.
  - intros j u. cbn. rewrite lookup_insert_Some. intros [[<- <-]|[_ E]]; [done|by apply T].
  - intros j Nj. by rewrite lookup_insert_ne.
Qed.

Lemma v_drop_from_is k v diff k' dv : db_ids_unique v -> v_dbs v !! k = Some dv ->
  v_drop_from v k diff = Ok k' -> exists dv', v_dbs v !! k' = Some dv'.
Proof.
  intros U Ek. unfold v_drop_from. destruct (bool_decide _ && _); [|by intros [= <-]; exists dv].
  destruct (v_schema_by_id v _) as [k0|] eqn:E0; [|done]. intros [= <-].
  apply v_schema_by_id_spec in E0 as (dv' & E' & _); [|done]. by exists dv'.
Qed.

Lemma v_block_diff_reports m diff v r : db_ids_unique v -> tables_ok v -> block_diff_ok m diff v ->
  v_block_diff m diff v = Ok r -> reports v r.2 r.1 /\ tables_ok r.2.
Proof using IL.
  intros U T [Pid Gid _]. unfold v_block_diff. destruct (v_schema_by_id v (SchemaID diff)) as [k|] eqn:Ek; [|done].
  apply v_schema_by_id_spec in Ek as (dv & Ev & _); [|done].
  destruct (old_new diff) as [old new]. cbn [fst snd] in Pid, Gid.
  assert (C : forall allocs tmp v0, tables_ok v0 -> reports v v0 (if negb (old =? new) then tmp else []) \/
      (old = new /\ 0 < new /\ forall i, i <> new -> v_tables v0 !! i = v_tables v !! i) ->
    (if blockIDIsValid new then v_create k m new allocs (Type_ diff) (if negb (old =? new) then tmp else []) v0
     else Ok (if negb (old =? new) then tmp else [], v0)) = Ok r -> reports v r.2 r.1 /\ tables_ok r.2).
  { intros allocs tmp v0 T0 R0. unfold blockIDIsValid. destruct (Z.eqb_spec new 0) as [E|E]; cbn [negb].
    { intros [= <-]. cbn. destruct R0 as [R0|(_ & P & _)]; [done|lia]. }
    intros (S & N & T' & D)%v_create_reports; [|done|lia|done]. split; [|done]. intros i Ni.
    assert (Nn : i <> new) by by intros ->. rewrite D by done.
    destruct R0 as [R0|(_ & _ & R0)]; [|by apply R0]. apply R0. by intros ?%S. }
  replace (blockIDIsValid old) with (negb (old =? 0)) by done. destruct (Z.eqb_spec old 0) as [Eo|Eo]; cbn [negb].
  - rewrite Ok_bind. intros E. apply (C [] [] v); [done|left; by apply reports_refl|by destruct (negb _)].
  - destruct (v_drop_from v k diff) as [k'|] eqn:Ef; rewrite ?Ok_bind, ?Err_bind; [|done].
    apply (v_drop_from_is k v diff k' dv U Ev) in Ef as (dv' & Ev').
    pose proof (v_drop_reports k' old v dv' T Ev') as (Rd & Td & Dd).
    destruct (v_drop k' old [] v) as [tmp v']. rewrite Ok_bind. cbn [fst snd] in *. apply C; [done|].
    destruct (Z.eqb_spec old new) as [->|N]; cbn [negb]; [right|by left]. split; [done|]. split; [lia|done].
Qed.

Lemma v_drop_schema_reports id v : db_ids_unique v -> tables_ok v ->
  let r := v_drop_schema id v in reports v r.2 r.1 /\ tables_ok r.2 /\ db_ids_unique r.2.
Proof.
  intros U T. unfold v_drop_schema. destruct (v_schema_by_id v id) as [k|]; [|split; [by apply reports_refl|by split]].
  cbn. set (ids := infos_ids _). clearbody ids.
  assert (D : forall (M : gmap Z Block) i, foldl (fun T id => delete id T) M ids !! i = if decide (i ∈ ids) then None else M !! i).
  { clear. induction ids as [|x ids IH]; intros M i; cbn; [by rewrite decide_False by apply not_elem_of_nil|].
    rewrite IH. destruct (decide (i = x)) as [->|N].
    - rewrite lookup_delete_eq. rewrite (decide_True (P := x ∈ x :: ids)) by left. by destruct (decide _).
    - rewrite lookup_delete_ne by done. do 2 destruct (decide _); set_solver. }
  split; [|split].
  - intros i N. cbn. rewrite D. by rewrite decide_False.
  - intros i t. cbn. rewrite D. destruct (decide _); [done|]. apply T.
  - intros k1 k2 d1 d2. cbn. rewrite !lookup_delete_Some. intros [_ E1] [_ E2]. by apply U.
Qed.

(** ** Any change of the view *)

Definition vinv (v : view) : Prop := db_ids_unique v /\ tables_ok v.

(** A change keeps the invariant, and says which tables it touches. *)
Definition honest (vapply : SchemaDiff -> view -> res (list Z * view)) (sub : SchemaDiff -> view -> Prop) : Prop :=
  forall d v r, vinv v -> sub d v -> vapply d v = Ok r -> reports v r.2 r.1 /\ vinv r.2.

Lemma v_affected_honest vapply sub diff : honest vapply sub -> forall opts v ids r, vinv v ->
  affected_ok vapply sub diff opts v -> v_affected vapply diff opts ids v = Ok r ->
  (exists ids', r.1 = ids ++ ids' /\ reports v r.2 ids') /\ vinv r.2.
Proof.
  intros Hs opts. induction opts as [|opt opts IH]; intros v ids r I A; cbn [v_affected].
  { intros [= <-]. cbn. split; [|done]. exists []. split; [by rewrite app_nil_r|by apply reports_refl]. }
  destruct A as [A1 A2]. destruct (vapply (affected_diff diff opt) v) as [[ids1 v1]|] eqn:E; rewrite ?Ok_bind, ?Err_bind; [|done].
  destruct (Hs _ _ _ I A1 E) as [R1 I1]. intros E2. destruct (IH _ _ _ I1 (A2 _ eq_refl) E2) as [(ids' & Er & R2) I2]. split; [|done].
  exists (ids1 ++ ids'). split; [by rewrite Er, app_assoc|by eapply reports_trans].
Qed.

Lemma vinv_heads v v' : heads v' = heads v -> tables_ok v' -> vinv v -> vinv v'.
Proof. intros E T [U _]. split; [by apply (heads_unique v)|done]. Qed.

Lemma create_schema_vinv m diff v v' : vinv v -> (forall di, GetDatabase m (SchemaID diff) = Ok (Some di) -> db_new di v) ->
  v_create_schema m diff v = Ok v' -> v_tables v' = v_tables v /\ vinv v'.
Proof.
  intros [U T] N. unfold v_create_schema. destruct (GetDatabase _ _) as [[di|]|]; rewrite ?Ok_bind, ?Err_bind; [|done..].
  intros [= <-]. split; [done|]. specialize (N di eq_refl). split; [|done].
  intros k1 k2 d1 d2. cbn. rewrite !lookup_insert_Some.
  intros [[<- <-]|[N1 E1]] [[<- <-]|[N2 E2]] Id; [done|symmetry; by eapply N|by eapply N|by eapply U].
Qed.

Lemma modify_schema_vinv m diff v v' : vinv v ->
  (forall di, GetDatabase m (SchemaID diff) = Ok (Some di) -> is_Some (v_dbs v !! cs_L (db_Name di))) ->
  v_modify_schema m diff v = Ok v' -> v_tables v' = v_tables v /\ vinv v'.
Proof.
  intros [U T] N. unfold v_modify_schema. destruct (GetDatabase _ _) as [[di|]|]; rewrite ?Ok_bind, ?Err_bind; [|done..].
  intros [= <-]. destruct (N di eq_refl) as [dv Ev]. split; [done|]. split; [|done].
  intros k1 k2 d1 d2. cbn. rewrite !lookup_alter_Some.
  intros [(<- & e1 & E1 & ->)|[N1 E1]] [(<- & e2 & E2 & ->)|[N2 E2]]; cbn; intros Id; by eapply U.
Qed.

Lemma v_apply_honest vapply sub m : honest vapply sub -> honest (v_apply vapply m) (apply_ok vapply sub m).
Proof using IL.
  intros Hs diff v r I A. unfold v_apply, apply_ok in *. set (v1 := set_version (Version diff) v) in *.
  assert (I1 : vinv v1) by (destruct I as [U T]; split; [by apply (heads_unique v)|done]).
  assert (W : reports v1 r.2 r.1 /\ vinv r.2 -> reports v r.2 r.1 /\ vinv r.2) by (intros [? ?]; by split).
  assert (B : block_diff_ok m diff v1 /\
      (forall r, v_block_diff m diff v1 = Ok r -> affected_ok vapply sub diff (AffectedOpts diff) r.2) ->
    ('(ids, v) ← v_block_diff m diff v1; v_affected vapply diff (AffectedOpts diff) ids v) = Ok r ->
    reports v r.2 r.1 /\ vinv r.2).
  { intros [Bo Af]. destruct (v_block_diff m diff v1) as [[ids v2]|] eqn:Eb; rewrite ?Ok_bind, ?Err_bind; [|done].
    destruct (v_block_diff_reports m diff v1 (ids, v2) (proj1 I1) (proj2 I1) Bo Eb) as [R T].
    pose proof (vinv_heads v1 v2 (v_block_diff_heads _ _ _ _ Eb) T I1) as I2. intros E. apply W.
    destruct (v_affected_honest vapply sub diff Hs _ _ _ _ I2 (Af _ eq_refl) E) as [(ids' & -> & R2) I3].
    split; [by eapply reports_trans|done]. }
  destruct (Type_ diff); try exact (B A).
  - destruct (v_create_schema m diff v1) as [v2|] eqn:Ec; rewrite ?Ok_bind, ?Err_bind; [|done]. intros [= <-].
    destruct (create_schema_vinv m diff v1 v2 I1 A Ec) as [E I2]. apply W. split; [by apply reports_refl|done].
  - intros [= <-]. destruct (v_drop_schema_reports (SchemaID diff) v1 (proj1 I1) (proj2 I1)) as (R & T & U).
    apply W. by split; [|split].
  - destruct (v_modify_schema m diff v1) as [v2|] eqn:Ec; rewrite ?Ok_bind, ?Err_bind; [|done]. intros [= <-].
    destruct (modify_schema_vinv m diff v1 v2 I1 A Ec) as [E I2]. apply W. split; [by apply reports_refl|done].
Qed.

Lemma none_honest : honest (fun _ v => Ok ([], v)) (fun _ _ => True).
Proof. intros d v r I _ [= <-]. split; [by apply reports_refl|done]. Qed.

Lemma v_diff_honest m : honest (v_diff m) (diff_ok m).
Proof using IL. apply v_apply_honest, v_apply_honest, none_honest. Qed.
End reports.

(** ** The heap *)

Section apply.
Context `{InfoPkgs} `{!Growth} `{GL : !GrowthLaws} `{!Sorter} `{SL : !SorterLaws} `{IL : !InfoLaws} `{!DBCopies} `{CL : !DBCopyLaws}.
Context (range_schemas : gmap string Z -> list (string * Z)).
Context (range_schemas_perm : forall m, range_schemas m ≡ₚ map_to_list m).
Context (range_buckets : gset Z -> list Z).
Context (range_buckets_perm : forall s, range_buckets s ≡ₚ elements s).

Lemma rep_vinv n K I F bs h b v : rep n K I F bs h b v -> db_ids_unique v -> vinv v.
Proof. intros R U. split; [done|]. intros id t. by eapply br_tables, rp_buckets. Qed.

Lemma none_applies b : applies b (fun _ => ret []) (fun _ v => Ok ([], v)) (fun _ _ => True).
Proof.
  intros d n K I F bs h v _ R U _. split; [|by intros r [= <-]].
  exists h, K, I, F, bs. split; [done|]. by split.
Qed.

Lemma once_applies b m :
  applies b (apply_diff range_schemas range_buckets (fun _ => ret []) b m)
    (v_apply (fun _ v => Ok ([], v)) m) (apply_ok (fun _ v => Ok ([], v)) (fun _ _ => True) m).
Proof using range_schemas_perm range_buckets_perm GL SL IL CL.
  intros d n K I F bs h v _ R U A. split.
  - eapply apply_diff_run; [done|done|done|apply none_applies|exact R|done|exact A].
  - intros r E. by apply (v_apply_honest _ _ m none_honest d v r (rep_vinv _ _ _ _ _ _ _ _ R U) A E).
Qed.

Lemma ApplyDiff_run n K I F bs h b v m diff : rep n K I F bs h b v -> db_ids_unique v -> diff_ok m diff v ->
  refines n b h (ApplyDiff range_schemas range_buckets b m diff h) (v_diff m diff v).
Proof using range_schemas_perm range_buckets_perm GL SL IL CL.
  intros R U A. eapply apply_diff_run; [done|done|done|apply once_applies|exact R|done|exact A].
Qed.

(** ** A new builder *)

Definition new_from (old : Z) : M heap Z := b ← NewBuilder; InitWithOldSchemaReplicant b old;; ret b.

(** The replicant of a new builder says what the old one does, with nothing of
    its own, and at a new address. *)
Lemma new_from_run h old v : says h old v ->
  exists h' F bs, new_from old h = (Ret (hp_next h), h') /\ rep (hp_next h) ∅ ∅ F bs h' (hp_next h) v /\
    frame (hp_next h) (hp_next h) h h' /\ hp_next h < hp_next h'.
Proof.
  intros (B & n & F & bs & R). pose proof (rp_is _ _ _ _ _ _ _ _ R) as Ri. pose proof (rp_next _ _ _ _ _ _ _ _ R) as Rn.
  pose proof (br_len _ _ _ _ (rp_buckets _ _ _ _ _ _ _ _ R)) as Lb.
  set (b := hp_next h) in *. set (h1 := MkHeap (b + 1) (<[b := MkReplicant ∅ (replicate bucketCount nil_slice) 0]> (hp_is h))
    (hp_sb h) (hp_db h) (hp_blocks h) (hp_infos h)).
  set (h2 := with_is <[b := MkReplicant (f_sb <$> F) bs (v_version v)]> h1).
  exists h2, F, bs. split; [|split; [|split; [|cbn; lia]]].
  - unfold new_from, NewBuilder. erewrite bind_Ret by reflexivity. erewrite bind_Ret.
    2:{ unfold InitWithOldSchemaReplicant. erewrite bind_Ret.
        2:{ apply load_is_run. cbn [hp_is with_is]. rewrite lookup_insert_ne by lia. exact Ri. }
        erewrite bind_Ret by (apply load_is_run; cbn [hp_is with_is]; apply lookup_insert_eq).
        cbn [sortedBlocksBuckets schemaMap schemaMetaVersion]. rewrite length_replicate.
        rewrite take_ge by lia. rewrite drop_ge by (rewrite length_replicate; lia). rewrite app_nil_r, (right_id_L ∅ (∪)). reflexivity. }
    reflexivity.
  - destruct R as [_ _ Rd Rdb Ra Rb Ro Rz Rk Rw]. split; try done; cbn.
    + by rewrite lookup_insert_eq.
    + lia.
    + intros k f dv E V. eapply db_at_ext; [by apply Rdb|done..].
    + intros k f E. destruct (Rb k f E). lia.
    + apply (buckets_next b); [done|lia].
  - split; try done; cbn; [lia|]. intros l Hl. by rewrite !lookup_insert_ne by done.
Qed.

(** A builder takes over the old replicant and applies a change. *)
Definition changed_from (old : Z) (m : MetaSnapshot) (diff : SchemaDiff) : M heap (Z * list Z) :=
  b ← new_from old; ids ← ApplyDiff range_schemas range_buckets b m diff; ret (b, ids).

(** C17: Where the metadata of a change fits the view that it is applied to, the
    change refines the change of the view: the builder that took over a
    replicant says, after [ApplyDiff], what the change makes of the view of that
    replicant, or fails with the same error; the identifiers it returns name
    every table that is not the same; and whether it succeeds or fails, every
    replicant that was published before, and may share databases, buckets and
    lists with the new one, says what it said. *)
Theorem ApplyDiff_copy_on_write h old v m diff : says h old v -> vinv v -> diff_ok m diff v ->
  match v_diff m diff v with
  | Ok (ids, v') => exists b h', changed_from old m diff h = (Ret (b, ids), h') /\ says h' b v' /\ reports v v' ids /\ vinv v' /\
      forall l w, says h l w -> says h' l w
  | Err e => exists h', changed_from old m diff h = (Fail e, h') /\ forall l w, says h l w -> says h' l w
  end.
Proof using range_schemas_perm range_buckets_perm GL SL IL CL.
  intros Sy Iv Dk. destruct (new_from_run h old v Sy) as (h1 & F & bs & E1 & R & Fr1 & Lt). set (b := hp_next h) in *.
  assert (Keep : forall h', frame b b h h' -> forall l w, says h l w -> says h' l w).
  { intros h' Fr l w Sl. eapply says_frame; [exact Sl| |exact Fr]. destruct Sl as [? _]. lia. }
  pose proof (ApplyDiff_run b ∅ ∅ F bs h1 b v m diff R (proj1 Iv) Dk) as A. unfold changed_from.
  pose proof (v_diff_honest m diff v) as Hn. destruct (v_diff m diff v) as [[ids v']|e].
  - destruct A as (h2 & K2 & I2 & F2 & bs2 & E2 & R2 & Fr2). exists b, h2. destruct (Hn _ Iv Dk eq_refl) as [Rp Iv'].
    split; [erewrite bind_Ret by exact E1; by erewrite bind_Ret by exact E2|]. split; [|split; [done|split; [done|]]].
    + split; [pose proof (fr_next _ _ _ _ Fr2); lia|]. exists b, F2, bs2. eapply rep_mono; [exact R2|set_solver..].
    + apply Keep. by etransitivity.
  - destruct A as (h2 & E2 & Fr2). exists h2. split; [erewrite bind_Ret by exact E1; by erewrite bind_Fail by exact E2|].
    apply Keep. by etransitivity.
Qed.
End apply.
