(* ===== verification/InfoInit.v ===== *)
(** * A full load

    [InitWithDBInfos] makes a replicant from a list of databases: what it says
    is the list, as a view.  The buckets are filled first and sorted at the
    end. *)

From stdpp Require Import base gmap list option strings.
From Stdlib Require Import ZArith Lia Sorted.
From S2P Require Import Prelude External GoMonad GoHeap InfoSchema InfoBuilder InfoBuckets InfoView InfoOps InfoTables InfoDiff InfoSpec.

Local Open Scope Z_scope.

(** ** The view *)

Section view.
Context `{InfoPkgs}.
Implicit Types (ctor : list SlabPredictor -> BlockInfo -> res Block).

Fixpoint v_add_blocks ctor (dbID : Z) (infos : list BlockInfo) (B : gmap string Block) (T : gmap Z Block)
    : res (gmap string Block * gmap Z Block) :=
  match infos with
  | [] => Ok (B, T)
  | t :: infos =>
      tbl ← ctor (NewSlabPredictorsFromTblInfo dbID t) t;
      v_add_blocks ctor dbID infos (<[cs_L (bi_Name t) := tbl]> B) (<[bi_ID t := tbl]> T)
  end.

(** A database with its tables, and their constructor. *)
Record dbsrc : Type := MkSrc {
  src_db : DBInfo;
  src_infos : list BlockInfo;
  src_ctor : list SlabPredictor -> BlockInfo -> res Block;
}.

Definition src_key (o : dbsrc) : string := cs_L (db_Name (src_db o)).

Definition v_add_db (o : dbsrc) (v : view) : res view :=
  '(B, T) ← v_add_blocks (src_ctor o) (db_ID (src_db o)) (src_infos o) ∅ (v_tables v);
  Ok (MkView (v_version v) (<[src_key o := MkDbView (db_head (src_db o)) B (src_infos o)]> (v_dbs v)) T).

Fixpoint v_add_dbs (os : list dbsrc) (v : view) : res view :=
  match os with [] => Ok v | o :: os => v ← v_add_db o v; v_add_dbs os v end.

Definition empty_view (version : Z) : view := MkView version ∅ ∅.

(** The tables have their identifiers, of their own. *)
Record srcs_ok (os : list dbsrc) : Prop := {
  so_keys : NoDup (src_key <$> os);
  so_ids : NoDup (os ≫= fun o => bi_ID <$> src_infos o);
  so_dbs : NoDup ((fun o => db_ID (src_db o)) <$> os);
  so_pos o i : o ∈ os -> i ∈ src_infos o -> 0 < bi_ID i;
  so_ctor o allocs i t : o ∈ os -> src_ctor o allocs i = Ok t -> Meta t = i;
}.
End view.

(** ** The replicant while its buckets are filled *)

Section init.
Context `{InfoPkgs} `{!Growth} `{GL : !GrowthLaws} `{!Sorter} `{SL : !SorterLaws}.
Implicit Types (ctor : list SlabPredictor -> BlockInfo -> res Block).

Record dbs_rep (h : heap) (F : gmap string foot) (D : gmap string dbview) : Prop := {
  dr_dom k : is_Some (F !! k) <-> is_Some (D !! k);
  dr_db k f dv : F !! k = Some f -> D !! k = Some dv -> db_at h k f dv;
  dr_apart k1 k2 f1 f2 : k1 <> k2 -> F !! k1 = Some f1 -> F !! k2 = Some f2 -> apart f1 f2;
  dr_below k f : F !! k = Some f -> f_sb f < hp_next h /\ f_db f < hp_next h /\ 0 <= f_arr f < hp_next h;
}.

(** The buckets, all of the builder's own. *)
Record filling (n next : Z) (m : gmap Z (array Block)) (bs : list slice) (T : gmap Z Block) : Prop := {
  fl_len : length bs = bucketCount;
  fl_tables id t : T !! id = Some t -> bid t = id /\ 0 < id;
  fl_bucket (i : nat) s : bs !! i = Some s -> bucket_unsorted_ok m (Z.of_nat i) T s;
  fl_disjoint (i j : nat) s s' : i <> j -> bs !! i = Some s -> bs !! j = Some s' -> sl_arr s <> sl_arr s' \/ sl_arr s = 0;
  fl_below (i : nat) s : bs !! i = Some s -> 0 <= sl_arr s < next;
  fl_own (i : nat) s : bs !! i = Some s -> sl_arr s = 0 \/ n <= sl_arr s;
  fl_zero : m !! 0 = None;
}.

Record half (n : Z) (F : gmap string foot) (bs : list slice) (h : heap) (b : Z) (v : view) : Prop := {
  hf_is : hp_is h !! b = Some (MkReplicant (f_sb <$> F) bs (v_version v));
  hf_next : 0 < n <= hp_next h;
  hf_dbs : dbs_rep h F (v_dbs v);
  hf_zero : hp_infos h !! 0 = None;
  hf_buckets : filling n (hp_next h) (hp_blocks h) bs (v_tables v);
}.

Lemma filling_at n next m bs T id : filling n next m bs T -> 0 < id ->
  exists s, at_ bs (blockBucketIdx id) = Some s /\ bs !! Z.to_nat (blockBucketIdx id) = Some s /\
    bucket_unsorted_ok m (blockBucketIdx id) T s.
Proof.
  intros Fl P. destruct (bucket_index id P) as [L Z]. destruct (lookup_lt_is_Some_2 bs (Z.to_nat (blockBucketIdx id))) as [s Es].
  { by rewrite (fl_len _ _ _ _ _ Fl). }
  exists s. split; [unfold at_; by rewrite decide_True by done|]. split; [done|].
  pose proof (fl_bucket _ _ _ _ _ Fl _ _ Es) as U. by rewrite Z2Nat.id in U.
Qed.

(** A table enters its bucket. *)
Lemma filling_append n next m bs T id t s :
  filling n next m bs T -> 0 < id -> 0 < n <= next -> T !! id = None -> bid t = id ->
  bs !! Z.to_nat (blockBucketIdx id) = Some s ->
  let p := sl_append next m s [t] in
  filling n (next + 1) p.2 (<[Z.to_nat (blockBucketIdx id) := p.1]> bs) (<[id := t]> T) /\
  forall l, l < n -> p.2 !! l = m !! l.
Proof using GL.
  intros Fl P Pn En It Es p. destruct (bucket_index id P) as [L Zi].
  destruct (filling_at n next m bs T id Fl P) as (s' & _ & Es' & U). rewrite Es in Es'. injection Es' as <-.
  destruct (bucket_append m id T s U next t En It) as (Ne & U' & Ar & Fr). fold p in Ne, U', Ar, Fr.
  destruct (fl_below _ _ _ _ _ Fl _ _ Es) as [A1 A2].
  assert (Z0 : p.2 !! 0 = None).
  { destruct (decide (sl_arr s = 0)) as [E|E]; [|rewrite Fr by lia; by eapply fl_zero].
    (* an append to a slice without an array makes one *)
    assert (C0 : sl_cap m s = 0%nat) by (unfold sl_cap; rewrite E, (fl_zero _ _ _ _ _ Fl); done).
    unfold p, sl_append. rewrite decide_False by done. rewrite decide_False by (cbn [length]; lia). cbn [snd]. rewrite lookup_insert_ne by lia. by eapply fl_zero. }
  assert (Nz : sl_arr p.1 <> 0).
  { intros E. destruct U' as [O _ _ _]. apply Ne. pose proof (sl_read_length _ _ O) as Lr. unfold sl_ok, sl_cells in O. rewrite E, Z0 in O.
    cbn in O. apply nil_length_inv. lia. }
  assert (Own : n <= sl_arr p.1).
  { destruct Ar as [Ea|Ea]; [|lia]. destruct (fl_own _ _ _ _ _ Fl _ _ Es); lia. }
  assert (Other : forall (j : nat) u, j <> Z.to_nat (blockBucketIdx id) -> bs !! j = Some u ->
    p.2 !! sl_arr u = m !! sl_arr u /\ (sl_arr p.1 <> sl_arr u)).
  { intros j u Nj Eu. destruct (fl_below _ _ _ _ _ Fl _ _ Eu) as [B1 B2].
    pose proof (fl_disjoint _ _ _ _ _ Fl _ _ _ _ Nj Eu Es) as D. split.
    - destruct (decide (sl_arr u = 0)) as [E|E]; [rewrite E, Z0; symmetry; by eapply fl_zero|]. apply Fr; lia.
    - destruct Ar as [Ea|Ea]; lia. }
  split; [split|].
  - rewrite length_insert. by eapply fl_len.
  - intros i u. rewrite lookup_insert_Some. intros [[<- <-]|[_ E]]; [done|by eapply fl_tables].
  - intros j u Eu. destruct (decide (j = Z.to_nat (blockBucketIdx id))) as [->|Nj].
    + rewrite list_lookup_insert_eq in Eu by (rewrite (fl_len _ _ _ _ _ Fl); done). injection Eu as <-. by rewrite Z2Nat.id.
    + rewrite list_lookup_insert_ne in Eu by done. destruct (Other j u Nj Eu) as [Ea _].
      eapply bucket_unsorted_ext; [exact Ea| |by eapply fl_bucket]. intros i Ei. rewrite lookup_insert_ne; [done|].
      intros <-. apply Nj. rewrite Ei. by rewrite Nat2Z.id.
  - assert (New : forall (j : nat) u, j <> Z.to_nat (blockBucketIdx id) ->
      <[Z.to_nat (blockBucketIdx id) := p.1]> bs !! j = Some u -> bs !! j = Some u)
      by (intros j u Nj; by rewrite list_lookup_insert_ne).
    assert (Lb : (Z.to_nat (blockBucketIdx id) < length bs)%nat) by by rewrite (fl_len _ _ _ _ _ Fl).
    intros i j u w Nij Eu Ew.
    destruct (decide (i = Z.to_nat (blockBucketIdx id))) as [->|Ni], (decide (j = Z.to_nat (blockBucketIdx id))) as [->|Nj]; [done|..].
    + rewrite list_lookup_insert_eq in Eu by done. injection Eu as <-. left. by apply (Other j w Nj (New _ _ Nj Ew)).
    + rewrite list_lookup_insert_eq in Ew by done. injection Ew as <-. left. apply not_eq_sym. by apply (Other i u Ni (New _ _ Ni Eu)).
    + by apply (fl_disjoint _ _ _ _ _ Fl i j u w Nij (New _ _ Ni Eu) (New _ _ Nj Ew)).
  - intros j u Eu. destruct (decide (j = Z.to_nat (blockBucketIdx id))) as [->|Nj].
    + rewrite list_lookup_insert_eq in Eu by (rewrite (fl_len _ _ _ _ _ Fl); done). injection Eu as <-. destruct Ar; lia.
    + rewrite list_lookup_insert_ne in Eu by done. destruct (fl_below _ _ _ _ _ Fl _ _ Eu). lia.
  - intros j u Eu. destruct (decide (j = Z.to_nat (blockBucketIdx id))) as [->|Nj].
    + rewrite list_lookup_insert_eq in Eu by (rewrite (fl_len _ _ _ _ _ Fl); done). injection Eu as <-. by right.
    + rewrite list_lookup_insert_ne in Eu by done. by eapply fl_own.
  - done.
  - intros l Hl. destruct (fl_own _ _ _ _ _ Fl _ _ Es) as [E|E]; [|apply Fr; lia].
    destruct (decide (l = 0)) as [->|Nl]; [|apply Fr; lia]. rewrite Z0. symmetry. by eapply fl_zero.
Qed.

(** ** The tables of a database *)

(** The map of tables of a database in the heap. *)
Definition put_sb (h : heap) (f : foot) (B : gmap string Block) : heap :=
  with_sb <[f_sb f := MkSchemaBlocks (f_db f) B]> h.

Lemma dbs_rep_ext h h' F D : dbs_rep h F D -> hp_next h <= hp_next h' ->
  (forall k f, F !! k = Some f -> hp_sb h' !! f_sb f = hp_sb h !! f_sb f) -> hp_db h' = hp_db h -> hp_infos h' = hp_infos h ->
  dbs_rep h' F D.
Proof.
  intros [Dm Db Ap Bl] Nx Es Ed Ei. split; try done.
  - intros k f dv E V. eapply db_at_ext; [by apply Db|by eapply Es|by rewrite Ed|by rewrite Ei].
  - intros k f E. specialize (Bl k f E). lia.
Qed.

Lemma dbs_rep_put h F D k f dv B : dbs_rep h F D -> F !! k = Some f -> D !! k = Some dv ->
  dbs_rep (put_sb h f B) F (<[k := MkDbView (dv_head dv) B (dv_infos dv)]> D).
Proof.
  intros [Dm Db Ap Bl] Ef Ed. split; try done.
  - intros k'. rewrite Dm. destruct (decide (k' = k)) as [->|N]; [|by rewrite lookup_insert_ne].
    rewrite lookup_insert_eq. split; [by eexists|by exists dv].
  - intros k' f' dv' Ef'. destruct (decide (k' = k)) as [->|N].
    + rewrite lookup_insert_eq. intros [= <-]. assert (f' = f) as -> by congruence.
      destruct (Db k f dv Ef Ed) as [? ? ? ? ? ? ?]. split; try done. cbn. by rewrite lookup_insert_eq.
    + rewrite lookup_insert_ne by done. intros V. eapply db_at_ext; [by apply Db|cbn|done..].
      rewrite lookup_insert_ne; [done|]. apply not_eq_sym. by eapply ap_sb, (Ap k' k).
Qed.

Lemma half_put n F bs h b v k f dv B : half n F bs h b v -> F !! k = Some f -> v_dbs v !! k = Some dv ->
  half n F bs (put_sb h f B) b
    (MkView (v_version v) (<[k := MkDbView (dv_head dv) B (dv_infos dv)]> (v_dbs v)) (v_tables v)).
Proof. intros [Hi Hn Hd Hz Hb] Ef Ed. split; try done. by apply dbs_rep_put. Qed.

(** The heap changes at and above [n], and its descriptions do not. *)
Definition grows (n b : Z) (h h' : heap) : Prop :=
  frame n b h h' /\ hp_db h' = hp_db h /\ hp_infos h' = hp_infos h.

#[export] Instance grows_preorder n b : PreOrder (grows n b).
Proof.
  split; [by split|]. intros h1 h2 h3 (A1 & A2 & A3) (B1 & B2 & B3). split; [by etransitivity|]. split; congruence.
Qed.

(** One table enters its bucket. *)
Lemma bucket_step n F bs h b v t : half n F bs h b v -> 0 < bid t -> v_tables v !! bid t = None ->
  exists h' bs',
    (sortedTbls ← bucket_of b (blockBucketIdx (bid t)); sortedTbls ← append_blocks sortedTbls [t];
     set_bucket b (blockBucketIdx (bid t)) sortedTbls : M heap unit) h = (Ret tt, h') /\
    half n F bs' h' b (MkView (v_version v) (v_dbs v) (<[bid t := t]> (v_tables v))) /\ grows n b h h' /\ hp_sb h' = hp_sb h.
Proof using GL.
  intros [Hi Hn Hd Hz Hb] P En. destruct (filling_at _ _ _ _ _ (bid t) Hb P) as (s & Ea & Es & _).
  destruct (filling_append _ _ _ _ _ (bid t) t s Hb P Hn En eq_refl Es) as [Fl Fr]. set (p := sl_append _ _ _ _) in *.
  eexists (MkHeap (hp_next h + 1) (<[b := MkReplicant (f_sb <$> F) (<[Z.to_nat (blockBucketIdx (bid t)) := p.1]> bs) (v_version v)]> (hp_is h))
    (hp_sb h) (hp_db h) p.2 (hp_infos h)), _. split; [|split; [|split; [split; [|done]|done]]].
  - erewrite bind_Ret by by eapply bucket_of_run. erewrite bind_Ret by apply append_blocks_run. fold p.
    erewrite set_bucket_run; [|exact Hi|exact Ea]. reflexivity.
  - split; cbn; [by rewrite lookup_insert_eq|lia| |done|exact Fl]. eapply dbs_rep_ext; [exact Hd|cbn; lia|done..].
  - split; try done; cbn; [lia|]. intros l Nl. by rewrite lookup_insert_ne.
Qed.

Lemma add_blocks_run n F b k f ctor dbID infos : (forall allocs i t, ctor allocs i = Ok t -> Meta t = i) ->
  forall bs h v dv, half n F bs h b v -> F !! k = Some f -> v_dbs v !! k = Some dv -> n <= f_sb f ->
  NoDup (bi_ID <$> infos) -> (forall i, i ∈ infos -> 0 < bi_ID i /\ v_tables v !! bi_ID i = None) ->
  match v_add_blocks ctor dbID infos (dv_blocks dv) (v_tables v) with
  | Ok (B, T) => exists h' bs', add_blocks b (f_sb f) dbID ctor infos h = (Ret tt, h') /\
      half n F bs' h' b (MkView (v_version v) (<[k := MkDbView (dv_head dv) B (dv_infos dv)]> (v_dbs v)) T) /\ grows n b h h'
  | Err e => exists h', add_blocks b (f_sb f) dbID ctor infos h = (Fail e, h') /\ grows n b h h'
  end.
Proof using GL.
  intros Law. induction infos as [|i infos IH]; intros bs h v dv Hf Ef Ed Own Nd Ok.
  { exists h, bs. split; [done|]. split; [|done]. destruct dv, v. cbn in *. by rewrite insert_id. }
  cbn [v_add_blocks add_blocks]. destruct (ctor _ i) as [t|e] eqn:Et; rewrite ?Ok_bind, ?Err_bind;
    [|exists h; split; [by erewrite bind_Fail by done|done]].
  pose proof (Law _ _ _ Et) as Mt. destruct (Ok i) as [P En]; [left|]. erewrite bind_Ret by done.
  apply NoDup_cons in Nd as [Ni Nd].
  destruct (dr_db _ _ _ (hf_dbs _ _ _ _ _ _ Hf) k f dv Ef Ed) as [Ds Dd Dh Dk Do Dc Di].
  erewrite bind_Ret by by apply load_sb_run. cbn [sb_dbInfo sb_blocks].
  set (B1 := <[cs_L (bi_Name i) := t]> (dv_blocks dv)). set (h1 := put_sb h f B1).
  pose proof (half_put n F bs h b v k f dv B1 Hf Ef Ed) as Hf1. fold h1 in Hf1. set (v1 := MkView _ (<[k := _]> _) _) in Hf1.
  assert (Gr1 : grows n b h h1).
  { split; [|done]. split; try done. intros l Hl. cbn. rewrite lookup_insert_ne; [done|lia]. }
  erewrite bind_Ret by reflexivity. change (with_sb <[f_sb f := MkSchemaBlocks (f_db f) B1]> h) with h1.
  assert (It : bid t = bi_ID i) by (unfold bid; by rewrite Mt).
  destruct (bucket_step n F bs h1 b v1 t Hf1) as (h2 & bs2 & E2 & Hf2 & Gr2 & _); [lia|by rewrite It|].
  rewrite It in E2. set (v2 := MkView _ _ (<[bid t := t]> _)) in Hf2. specialize (IH bs2 h2 v2 (MkDbView (dv_head dv) B1 (dv_infos dv)) Hf2 Ef).
  cbn [v2 v1 v_dbs v_tables v_version dv_blocks dv_head dv_infos] in IH. rewrite lookup_insert_eq, It in IH.
  specialize (IH eq_refl Own Nd).
  assert (Seq : forall (c : M heap unit), (sortedTbls ← bucket_of b (blockBucketIdx (bi_ID i)); sortedTbls ← append_blocks sortedTbls [t];
     set_bucket b (blockBucketIdx (bi_ID i)) sortedTbls;; c) h1 = c h2).
  { intros c. revert E2. unfold mbind, M_bind. destruct (bucket_of _ _ h1) as [[] ?]; try done. destruct (append_blocks _ _ _) as [[] ?]; try done.
    destruct (set_bucket _ _ _ _) as [[] ?]; try done. by intros [= -> ->]. }
  rewrite Seq. assert (Hok : forall j, j ∈ infos -> 0 < bi_ID j /\ <[bi_ID i := t]> (v_tables v) !! bi_ID j = None).
  { intros j Hj. destruct (Ok j) as [Pj Ej]; [by right|]. split; [done|]. rewrite lookup_insert_ne; [done|]. intros E.
    apply Ni. rewrite E. by apply list_elem_of_fmap_2. }
  specialize (IH Hok). destruct (v_add_blocks _ _ _ _ _) as [[B T]|e].
  - destruct IH as (h3 & bs3 & E3 & Hf3 & Gr3). rewrite insert_insert_eq in Hf3. exists h3, bs3. split; [done|]. split; [done|].
    etransitivity; [exact Gr1|]. by etransitivity.
  - destruct IH as (h3 & E3 & Gr3). exists h3. split; [done|]. etransitivity; [exact Gr1|]. by etransitivity.
Qed.

(** ** The databases *)

(** The object of a database that is loaded. *)
Record obj_at (h : heap) (l : Z) (d : DBInfo) (o : dbsrc) : Prop := {
  ob_db : hp_db h !! l = Some d;
  ob_head : db_head d = db_head (src_db o);
  ob_ok : sl_ok (hp_infos h) (db_Blocks d);
  ob_cap : (sl_len (db_Blocks d) <= sl_cap (hp_infos h) (db_Blocks d))%nat;
  ob_infos : sl_read (hp_infos h) (db_Blocks d) = src_infos o;
  ob_below : l < hp_next h /\ 0 <= sl_arr (db_Blocks d) < hp_next h;
}.

Lemma obj_grows n b h h' l d o : grows n b h h' -> obj_at h l d o -> obj_at h' l d o.
Proof.
  intros (Fr & Ed & Ei) [A B C D E G]. pose proof (fr_next _ _ _ _ Fr). split; rewrite ?Ed, ?Ei; try done. lia.
Qed.

Definition free_for (F : gmap string foot) (l : Z) (d : DBInfo) (o : dbsrc) : Prop :=
  F !! src_key o = None /\
  forall k f, F !! k = Some f -> f_db f <> l /\ (f_arr f <> sl_arr (db_Blocks d) \/ f_arr f = 0).

Lemma v_add_blocks_other ctor dbID infos : forall B T r, v_add_blocks ctor dbID infos B T = Ok r ->
  forall id, id ∉ bi_ID <$> infos -> r.2 !! id = T !! id.
Proof.
  induction infos as [|i infos IH]; intros B T r; cbn [v_add_blocks]; [by intros [= <-]|].
  destruct (ctor _ i) as [t|]; rewrite ?Ok_bind, ?Err_bind; [|done]. intros E id N. rewrite fmap_cons in N.
  apply not_elem_of_cons in N as [N1 N2]. rewrite (IH _ _ _ E id N2). by rewrite lookup_insert_ne.
Qed.

Lemma half_new n F bs h b v l d o : half n F bs h b v -> obj_at h l d o -> free_for F l d o ->
  let k := src_key o in let f := MkFoot (hp_next h) l d in
  let h' := MkHeap (hp_next h + 1) (<[b := MkReplicant (<[k := hp_next h]> (f_sb <$> F)) bs (v_version v)]> (hp_is h))
    (<[hp_next h := MkSchemaBlocks l ∅]> (hp_sb h)) (hp_db h) (hp_blocks h) (hp_infos h) in
  half n (<[k := f]> F) bs h' b
    (MkView (v_version v) (<[k := MkDbView (db_head (src_db o)) ∅ (src_infos o)]> (v_dbs v)) (v_tables v)) /\ grows n b h h'.
Proof.
  intros [Hi Hn [Dm Db Ap Bl] Hz Hb] [Od Oh Ook Oc Oi [Ob1 Ob2]] [Fk Ff] k f h'.
  assert (Key : cs_L (db_Name d) = k) by (unfold k, src_key; by injection Oh as _ -> _).
  split; [split|split; [split|done]]; cbn [v_dbs v_tables v_version].
  - cbn. by rewrite lookup_insert_eq, fmap_insert.
  - cbn. lia.
  - split.
    + intros k2. destruct (decide (k2 = k)) as [->|N]; [by rewrite !lookup_insert_eq|by rewrite !lookup_insert_ne].
    + intros k2 f2 dv2. destruct (decide (k2 = k)) as [->|N].
      * rewrite !lookup_insert_eq. intros [= <-] [= <-]. split; cbn; try done. by rewrite lookup_insert_eq.
      * rewrite !lookup_insert_ne by done. intros E2 V2. destruct (Bl k2 f2 E2) as (C1 & C2 & C3).
        eapply db_at_ext; [by apply Db|cbn|done..]. by rewrite lookup_insert_ne by lia.
    + assert (New : forall k2 f2, F !! k2 = Some f2 -> apart f f2 /\ apart f2 f).
      { intros k2 f2 E2. destruct (Bl k2 f2 E2) as (C1 & C2 & C3). destruct (Ff k2 f2 E2) as [N1 N2]. unfold f_arr in *. cbn.
        split; (split; unfold f_arr in *; cbn in *; try lia; try done). }
      intros k1 k2 f1 f2 N. destruct (decide (k1 = k)) as [->|N1], (decide (k2 = k)) as [->|N2];
        rewrite ?lookup_insert_eq, ?lookup_insert_ne by done; try done.
      * intros [= <-] E2. by apply (New k2).
      * intros E1 [= <-]. by apply (New k1).
      * by apply Ap.
    + intros k2 f2. destruct (decide (k2 = k)) as [->|N]; rewrite ?lookup_insert_eq, ?lookup_insert_ne by done.
      * intros [= <-]. unfold f_arr. cbn. lia.
      * intros E2. cbn. destruct (Bl k2 f2 E2). lia.
  - done.
  - cbn. destruct Hb as [L T Bu Dj B2 O Z0]. split; try done. intros i s E. specialize (B2 i s E). lia.
  - cbn. lia.
  - intros x Nx. cbn. by rewrite lookup_insert_ne.
  - intros x Hx. cbn. rewrite lookup_insert_ne; [done|lia].
  - done.
  - done.
  - done.
Qed.

Lemma createSchemaBlocksForDB_run n F bs h b v l d o : half n F bs h b v -> obj_at h l d o -> free_for F l d o ->
  (forall allocs i t, src_ctor o allocs i = Ok t -> Meta t = i) -> NoDup (bi_ID <$> src_infos o) ->
  (forall i, i ∈ src_infos o -> 0 < bi_ID i /\ v_tables v !! bi_ID i = None) ->
  match v_add_db o v with
  | Ok v' => exists h' bs', createSchemaBlocksForDB b l (src_ctor o) h = (Ret tt, h') /\
      half n (<[src_key o := MkFoot (hp_next h) l d]> F) bs' h' b v' /\ grows n b h h'
  | Err e => exists h', createSchemaBlocksForDB b l (src_ctor o) h = (Fail e, h') /\ grows n b h h'
  end.
Proof using GL.
  intros Hf Ob Fr Law Nd Ids. destruct (half_new n F bs h b v l d o Hf Ob Fr) as [Hf1 Gr1].
  set (k := src_key o) in *. set (f := MkFoot (hp_next h) l d) in *. set (h1 := MkHeap _ _ _ _ _ _) in *.
  destruct Ob as [Od Oh Ook Oc Oi [Ob1 Ob2]].
  assert (Key : cs_L (db_Name d) = k) by (unfold k, src_key; by injection Oh as _ -> _).
  assert (Did : db_ID d = db_ID (src_db o)) by by injection Oh.
  assert (Run : createSchemaBlocksForDB b l (src_ctor o) h = add_blocks b (f_sb f) (db_ID (src_db o)) (src_ctor o) (src_infos o) h1).
  { unfold createSchemaBlocksForDB. erewrite bind_Ret by (unfold new_loc; reflexivity). cbv beta.
    erewrite bind_Ret by (unfold store_sb; reflexivity). erewrite bind_Ret by (apply load_db_run; exact Od).
    erewrite bind_Ret by (apply set_schemaMap_run; cbn; by eapply hf_is). cbn [schemaMap sortedBlocksBuckets schemaMetaVersion].
    erewrite bind_Ret by apply read_infos_run. cbn [hp_infos with_is with_sb]. rewrite Oi, Key, Did. reflexivity. }
  rewrite Run. unfold v_add_db. fold k.
  pose proof (add_blocks_run n (<[k:=f]> F) b k f (src_ctor o) (db_ID (src_db o)) (src_infos o) Law bs h1 _ _ Hf1
    (lookup_insert_eq _ _ _) (lookup_insert_eq _ _ _)) as R. cbn [v_tables v_dbs v_version dv_blocks dv_head dv_infos] in R.
  specialize (R ltac:(pose proof (hf_next _ _ _ _ _ _ Hf); cbn; lia) Nd Ids).
  destruct (v_add_blocks _ _ _ _ _) as [[B T]|e]; rewrite ?Ok_bind, ?Err_bind.
  - destruct R as (h2 & bs2 & E2 & Hf2 & Gr2). rewrite insert_insert_eq in Hf2. exists h2, bs2. split; [done|]. split; [done|]. by etransitivity.
  - destruct R as (h2 & E2 & Gr2). exists h2. split; [done|]. by etransitivity.
Qed.

(** Several databases: their objects are apart, and their tables have their own
    identifiers. *)
Definition loaded : Type := Z * DBInfo * dbsrc.

Definition apart_objs (x y : loaded) : Prop :=
  x.1.1 <> y.1.1 /\ (sl_arr (db_Blocks x.1.2) <> sl_arr (db_Blocks y.1.2) \/ sl_arr (db_Blocks x.1.2) = 0) /\
  src_key x.2 <> src_key y.2.

Lemma create_all_run n b os : forall F bs h v, half n F bs h b v ->
  Forall (fun x : loaded => obj_at h x.1.1 x.1.2 x.2 /\ free_for F x.1.1 x.1.2 x.2) os -> ForallOrdPairs apart_objs os ->
  srcs_ok (snd <$> os) -> (forall x i, x ∈ os -> i ∈ src_infos x.2 -> v_tables v !! bi_ID i = None) ->
  match v_add_dbs (snd <$> os) v with
  | Ok v' => exists h' F' bs', create_all b ((fun x : loaded => (x.1.1, src_ctor x.2)) <$> os) h = (Ret tt, h') /\
      half n F' bs' h' b v' /\ grows n b h h'
  | Err e => exists h', create_all b ((fun x : loaded => (x.1.1, src_ctor x.2)) <$> os) h = (Fail e, h') /\ grows n b h h'
  end.
Proof using GL.
  induction os as [|[[l d] o] os IH]; intros F bs h v Hf Fo Po So Nt.
  { exists h, F, bs. by split. }
  apply Forall_cons in Fo as [[Ob Fr] Fo]. inversion_clear Po as [|? ? Pa Po']. rename Po' into Po. cbn [fst snd] in Ob, Fr.
  rewrite fmap_cons. cbn [v_add_dbs create_all snd fst]. rewrite fmap_cons. cbn [create_all fst snd].
  destruct So as [Sk Si Sb Sp Sc]. rewrite fmap_cons in Si, Sk. cbn [snd mbind list_bind] in Si. apply NoDup_app in Si as (Nd & Nx & Si).
  rewrite fmap_cons in Sk. apply NoDup_cons in Sk as [_ Sk]. rewrite fmap_cons in Sb. apply NoDup_cons in Sb as [_ Sb].
  pose proof (createSchemaBlocksForDB_run n F bs h b v l d o Hf Ob Fr) as R.
  specialize (R ltac:(intros; eapply Sc; [by left|done]) Nd).
  specialize (R ltac:(intros i Hi; split; [eapply Sp; [by left|done]|apply (Nt ((l, d), o)); [by left|done]])).
  destruct (v_add_db o v) as [v1|e] eqn:Ev; rewrite ?Ok_bind, ?Err_bind.
  2:{ destruct R as (h1 & E1 & Gr1). exists h1. split; [by erewrite bind_Fail by exact E1|done]. }
  destruct R as (h1 & bs1 & E1 & Hf1 & Gr1). erewrite bind_Ret by exact E1.
  specialize (IH _ bs1 h1 v1 Hf1).
  assert (T1 : forall id, id ∉ bi_ID <$> src_infos o -> v_tables v1 !! id = v_tables v !! id).
  { unfold v_add_db in Ev. destruct (v_add_blocks _ _ _ _ _) as [[B T]|] eqn:Eb; rewrite ?Ok_bind, ?Err_bind in Ev; [|done].
    injection Ev as <-. intros id N. apply (v_add_blocks_other _ _ _ _ _ _ Eb id N). }
  assert (IH' := IH). clear IH. destruct (v_add_dbs (snd <$> os) v1) as [v2|e]; rewrite ?Ok_bind, ?Err_bind.
  1: destruct IH' as (h2 & F2 & bs2 & E2 & Hf2 & Gr2); [..|exists h2, F2, bs2; split; [done|]; split; [done|by etransitivity]].
  5: destruct IH' as (h2 & E2 & Gr2); [..|exists h2; split; [done|by etransitivity]].
  all: try done.
  all: try (by split; [|done|done|intros; eapply Sp; [by right|done]|intros; eapply Sc; [by right|done]]).
  all: try (intros x i Hx Hi; rewrite T1; [eapply Nt; [by right|done]|];
    intros Hn; apply (Nx _ Hn), list_elem_of_bind; exists x.2; split; [by apply list_elem_of_fmap_2|by apply list_elem_of_fmap_2]).
  all: rewrite Forall_forall in Fo, Pa |- *; intros [[l2 d2] o2] H2; destruct (Fo _ H2) as [Ob2 [Fk Ff]], (Pa _ H2) as (P1 & P2 & P3);
    cbn [fst snd] in *; (split; [by eapply obj_grows|]); (split; [by rewrite lookup_insert_ne|]);
    intros k f; rewrite lookup_insert_Some; (intros [[<- <-]|[_ E]]; [by split|by eapply Ff]).
Qed.

(** ** Sorting *)

Definition sorted_in (m : gmap Z (array Block)) (s : slice) : gmap Z (array Block) :=
  sl_write m s 0 (sort_Sort block_less (sl_read m s)).

Lemma sort_all_run l : forall h,
  (forall (i j : nat) s s', i <> j -> l !! i = Some s -> l !! j = Some s' -> sl_arr s <> sl_arr s' \/ sl_arr s = 0) ->
  (forall s, s ∈ l -> sl_arr s = 0 -> sl_read (hp_blocks h) s = []) ->
  exists m', sort_all l h = (Ret tt, with_blocks (fun _ => m') h) /\
    (forall a, (forall s, s ∈ l -> sl_read (hp_blocks h) s <> [] -> sl_arr s <> a) -> m' !! a = hp_blocks h !! a) /\
    (forall s, s ∈ l -> sl_read (hp_blocks h) s <> [] -> m' !! sl_arr s = sorted_in (hp_blocks h) s !! sl_arr s).
Proof.
  induction l as [|s l IH]; intros h Dj Zr.
  { exists (hp_blocks h). split; [by destruct h|]. split; [done|]. by intros s []%elem_of_nil. }
  assert (Hd : forall s', s' ∈ l -> sl_arr s <> sl_arr s' \/ (sl_arr s = 0 /\ sl_arr s' = 0)).
  { intros s' [j Ej]%list_elem_of_lookup. pose proof (Dj O (S j) s s' ltac:(done) eq_refl Ej).
    pose proof (Dj (S j) O s' s ltac:(done) Ej eq_refl). lia. }
  set (m := hp_blocks h) in *. set (m1 := if decide (sl_read m s = []) then m else sorted_in m s).
  assert (Run : sort_blocks s h = (Ret tt, with_blocks (fun _ => m1) h)).
  { unfold sort_blocks. erewrite bind_Ret by apply read_blocks_run. fold m. unfold m1. case_decide; [by destruct h|done]. }
  assert (Oth : forall a, sl_arr s <> a \/ sl_read m s = [] -> m1 !! a = m !! a).
  { intros a D. unfold m1. case_decide as E; [done|]. unfold sorted_in, sl_write. rewrite lookup_insert_ne; [done|]. naive_solver. }
  assert (Rd : forall s', s' ∈ l -> m1 !! sl_arr s' = m !! sl_arr s').
  { intros s' Hs. apply Oth. destruct (Hd s' Hs) as [N|[Z1 Z2]]; [by left|right]. apply Zr; [left|done]. }
  destruct (IH (with_blocks (fun _ => m1) h)) as (m2 & E2 & A2 & B2).
  { intros i j u w N Eu Ew. by apply (Dj (S i) (S j) u w); [congruence|..]. }
  { intros u Hu Zu. cbn. rewrite (sl_read_ext m) by by apply Rd. apply Zr; [by right|done]. }
  cbn [hp_blocks with_blocks] in A2, B2. exists m2. split; [|split].
  - cbn [sort_all]. by erewrite bind_Ret by exact Run.
  - intros a Ha. rewrite A2.
    + apply Oth. destruct (decide (sl_read m s = [])) as [E|E]; [by right|left]. by apply Ha; [left|].
    + intros u Hu. rewrite (sl_read_ext m) by by apply Rd. apply Ha. by right.
  - intros u [->|Hu]%elem_of_cons Nu.
    + rewrite A2; [unfold m1; by rewrite decide_False|]. intros w Hw _ Ew.
      destruct (Hd w Hw) as [N|[Z1 _]]; [by apply N|]. apply Nu, Zr; [left|done].
    + rewrite B2 by (rewrite ?(sl_read_ext m) by (by apply Rd); done).
      unfold sorted_in, sl_write. rewrite !lookup_insert_eq, (sl_read_ext m), (sl_cells_ext m), (sl_cap_ext m) by by apply Rd. done.
Qed.

Lemma half_sorted n F bs h b v : half n F bs h b v ->
  exists h', sort_all bs h = (Ret tt, h') /\ rep n ∅ ∅ F bs h' b v /\ frame n b h h'.
Proof using GL SL.
  intros [Hi Hn [Dm Db Ap Bl] Hz Hb].
  assert (Zr : forall s, s ∈ bs -> sl_arr s = 0 -> sl_read (hp_blocks h) s = []).
  { intros s _ E. unfold sl_read, sl_cells. rewrite E, (fl_zero _ _ _ _ _ Hb). by destruct (sl_len s). }
  destruct (sort_all_run bs h (fl_disjoint _ _ _ _ _ Hb) Zr) as (m' & E & A & B).
  assert (Hd : forall i j s s', i <> j -> bs !! i = Some s -> bs !! j = Some s' -> sl_read (hp_blocks h) s' <> [] -> sl_arr s' <> sl_arr s).
  { intros i j s s' N Es Es' Nr Eq. destruct (fl_disjoint _ _ _ _ _ Hb j i s' s ltac:(done) Es' Es) as [?|Z]; [done|].
    apply Nr, Zr; [by eapply list_elem_of_lookup_2|done]. }
  assert (Low : forall a, a < n -> a <> 0 -> m' !! a = hp_blocks h !! a).
  { intros a La Na. apply A. intros s [i Es]%list_elem_of_lookup _ <-. destruct (fl_own _ _ _ _ _ Hb i s Es); lia. }
  assert (M0 : m' !! 0 = None).
  { rewrite A by (intros s Hs Nr Z; by apply Nr, Zr). by eapply fl_zero. }
  eexists. split; [exact E|]. split.
  - split; try done; [by intros k f dv Ef Ed; eapply db_at_ext; [by apply Db|..]|]. cbn [hp_blocks with_blocks hp_next].
    destruct Hb as [Lb Tb Ub Dj Bb Ob Z0]. split; try done. intros i s Es. specialize (Ub i s Es).
    assert (Hs : s ∈ bs) by by eapply list_elem_of_lookup_2.
    destruct (decide (sl_read (hp_blocks h) s = [])) as [Er|Er].
    + apply (bucket_ok_ext (hp_blocks h) _ _ (v_tables v)); [|done|].
      * apply A. intros u [j Eu]%list_elem_of_lookup Nr. destruct (decide (j = i)) as [->|N]; [congruence|].
        by apply (Hd i j s u).
      * destruct Ub as [O C ND M]. split; try done. rewrite Er. constructor.
    + destruct (bucket_sort _ _ _ _ Ub) as [Bs _]. apply (bucket_ok_ext (sorted_in (hp_blocks h) s) _ _ (v_tables v)); [|done|exact Bs].
      by apply B.
  - split; try done. intros l Hl. cbn. destruct (decide (l = 0)) as [->|N]; [|by apply Low].
    rewrite M0. symmetry. by eapply fl_zero.
Qed.

(** ** The whole load *)

Definition heap_ok (h : heap) : Prop := 0 < hp_next h /\ hp_blocks h !! 0 = None /\ hp_infos h !! 0 = None.

Lemma half_empty h ver : heap_ok h ->
  let b := hp_next h in
  half b ∅ (replicate bucketCount nil_slice)
    (MkHeap (b + 1) (<[b := MkReplicant ∅ (replicate bucketCount nil_slice) ver]> (hp_is h)) (hp_sb h) (hp_db h) (hp_blocks h) (hp_infos h))
    b (empty_view ver).
Proof.
  intros (P & Zb & Zi) b. split; cbn [empty_view v_dbs v_tables v_version hp_is hp_next hp_infos hp_blocks].
  - by rewrite lookup_insert_eq, fmap_empty.
  - lia.
  - split; [by intros k; rewrite !lookup_empty|..]; by intros *; rewrite !lookup_empty.
  - done.
  - split; [by rewrite length_replicate|by intros id t; rewrite lookup_empty|..|done]; try by intros i s [-> _]%lookup_replicate; left.
    + intros i s [-> _]%lookup_replicate. unfold nil_slice. split; [unfold sl_ok; cbn; lia|cbn; lia|constructor|].
      intros t. rewrite lookup_empty. split; [by intros []%elem_of_nil|by intros []].
    + by intros i j s s' _ [-> _]%lookup_replicate; right.
    + intros i s [-> _]%lookup_replicate. cbn. lia.
Qed.

Lemma create_all_app b l1 l2 h : create_all b (l1 ++ l2) h = (create_all b l1;; create_all b l2) h.
Proof.
  revert h. induction l1 as [|[di ctor] l1 IH]; intros h; [done|]. cbn [create_all app].
  unfold mbind, M_bind in *. destruct (createSchemaBlocksForDB b di ctor h) as [[] h']; try done.
Qed.

Definition full_load (drivers : list (Z * (list SlabPredictor -> BlockInfo -> res Block))) (dbInfos : list Z) (ver : Z) : M heap Z :=
  b ← NewBuilder; InitWithDBInfos b drivers dbInfos ver;; ret b.

Lemma full_load_run h ver (dbs ds : list loaded) : heap_ok h ->
  Forall (fun x : loaded => obj_at h x.1.1 x.1.2 x.2) (dbs ++ ds) -> ForallOrdPairs apart_objs (dbs ++ ds) ->
  Forall (fun x : loaded => src_ctor x.2 = BlockFromMeta) dbs -> srcs_ok (snd <$> dbs ++ ds) ->
  match v_add_dbs (snd <$> dbs ++ ds) (empty_view ver) with
  | Ok v => exists h', full_load ((fun x : loaded => (x.1.1, src_ctor x.2)) <$> ds) ((fun x : loaded => x.1.1) <$> dbs) ver h = (Ret (hp_next h), h') /\
      says h' (hp_next h) v /\ frame (hp_next h) (hp_next h) h h'
  | Err e => exists h', full_load ((fun x : loaded => (x.1.1, src_ctor x.2)) <$> ds) ((fun x : loaded => x.1.1) <$> dbs) ver h = (Fail e, h') /\
      frame (hp_next h) (hp_next h) h h'
  end.
Proof using GL SL.
  intros Hok Ob Ap Ct So. set (b := hp_next h). pose proof (half_empty h ver Hok) as Hf. cbn zeta in Hf. fold b in Hf. set (h1 := MkHeap _ _ _ _ _ _) in Hf.
  assert (Fr1 : frame b b h h1).
  { split; try done; cbn; [lia|]. intros l Nl. by rewrite lookup_insert_ne. }
  pose proof (create_all_run b b (dbs ++ ds) ∅ _ h1 _ Hf) as R.
  specialize (R ltac:(eapply Forall_impl; [exact Ob|]; intros [[l d] o] [A1 A2 A3 A4 A5 A6]; cbn in *; split;
    [split; try done; cbn; lia|split; [done|by intros k f; rewrite lookup_empty]]) Ap So).
  specialize (R ltac:(by intros x i _ _; cbn; rewrite lookup_empty)).
  assert (El : (fun x : loaded => (x.1.1, src_ctor x.2)) <$> (dbs ++ ds) =
    ((fun di => (di, BlockFromMeta)) <$> ((fun x : loaded => x.1.1) <$> dbs)) ++ ((fun x : loaded => (x.1.1, src_ctor x.2)) <$> ds)).
  { rewrite fmap_app. f_equal. rewrite <- list_fmap_compose. apply list_fmap_ext. intros i x Ex. cbn.
    rewrite Forall_forall in Ct. by rewrite (Ct x) by by eapply list_elem_of_lookup_2. }
  rewrite El in R. set (drv := (fun x : loaded => (x.1.1, src_ctor x.2)) <$> ds) in *. set (dl := (fun x : loaded => x.1.1) <$> dbs) in *.
  assert (Run : full_load drv dl ver h = ((create_all b (((fun di => (di, BlockFromMeta)) <$> dl) ++ drv);;
      r ← load_is b; sort_all (sortedBlocksBuckets r));; ret b) h1).
  { unfold full_load, NewBuilder. erewrite bind_Ret by reflexivity. unfold InitWithDBInfos. fold b.
    set (h0 := with_is _ _).
    assert (E0 : load_is b h0 = (Ret (MkReplicant ∅ (replicate bucketCount nil_slice) 0), h0)) by (apply load_is_run; apply lookup_insert_eq).
    assert (E1 : with_is <[b := MkReplicant ∅ (replicate bucketCount nil_slice) ver]> h0 = h1).
    { unfold h0, h1, with_is. cbn [hp_is hp_next hp_sb hp_db hp_blocks hp_infos]. by rewrite insert_insert_eq. }
    unfold mbind, M_bind in *. rewrite E0. cbn [sortedBlocksBuckets schemaMap]. unfold store_is, modify. rewrite E1.
    rewrite create_all_app. unfold mbind, M_bind. clear.
    destruct (create_all b ((fun di => (di, BlockFromMeta)) <$> dl) h1) as [[] h2]; done. }
  rewrite Run. destruct (v_add_dbs _ _) as [v|e].
  - destruct R as (h2 & F2 & bs2 & E2 & Hf2 & (Fr2 & _)). destruct (half_sorted b F2 bs2 h2 b v Hf2) as (h3 & E3 & R3 & Fr3).
    exists h3. split; [|split].
    + erewrite bind_Ret; [reflexivity|]. erewrite bind_Ret by exact E2. erewrite bind_Ret by (apply load_is_run; by eapply hf_is). exact E3.
    + split; [|by exists b, F2, bs2]. pose proof (fr_next _ _ _ _ Fr2). pose proof (fr_next _ _ _ _ Fr3). cbn in *. lia.
    + etransitivity; [exact Fr1|]. by etransitivity.
  - destruct R as (h2 & E2 & (Fr2 & _)). exists h2. split; [|by etransitivity].
    erewrite bind_Fail; [reflexivity|]. by erewrite bind_Fail by exact E2.
Qed.
End init.
