(* ===== verification/SlowQuery.v ===== *)
(** * The slowest queries (petri/topn_slow_query.go, petri/petri.go)

    The server keeps its recent queries in a queue, and its slowest ones in two
    bounded heaps with the quickest query on top, one for the users' queries
    and one for its own.  A goroutine serves a channel of new queries, a
    channel of requests and a ticker that expires old queries; [loop_step] is one
    turn of it, the case that [select] chose being an argument.

    Times and durations are nanoseconds; [None] is a panic.  Query records are
    shared by pointers but never written after they are made. *)

From stdpp Require Import base list sorting option strings.
From Stdlib Require Import ZArith Lia.
From S2P Require Import Prelude GoHeap.

Local Open Scope Z_scope.

(** What the code uses of the packages execdetails and ast: a type of details
    that it only stores, and the numbers of the kinds of SHOW SLOW requests. *)
Class SlowExternals := {
  ExecDetails : Type;
  ShowSlowTop : Z;
  ShowSlowRecent : Z;
  ShowSlowHoTTDefault : Z;
  ShowSlowHoTTInternal : Z;
  ShowSlowHoTTAll : Z;
}.

(** The cases of a [switch] are distinct constants. *)
Class SlowExternalsLaws `{SlowExternals} : Prop := {
  show_tp_ne : ShowSlowTop <> ShowSlowRecent;
  show_hott_ne1 : ShowSlowHoTTDefault <> ShowSlowHoTTInternal;
  show_hott_ne2 : ShowSlowHoTTDefault <> ShowSlowHoTTAll;
  show_hott_ne3 : ShowSlowHoTTInternal <> ShowSlowHoTTAll;
}.

Section slow.
Context `{SlowExternals} `{Sorter}.

Record SlowQueryInfo := mkSlowQueryInfo {
  ALLEGROALLEGROSQL : string;
  Start : Z;
  Duration : Z;
  Detail : ExecDetails;
  ConnID : Z;
  TxnTS : Z;
  User : string;
  EDB : string;
  BlockIDs : string;
  IndexNames : string;
  Digest : string;
  Internal : bool;
  Succ : bool;
}.

(** ** The heap *)

Record slowQueryHeap := mkHeap { heap_data : list SlowQueryInfo }.

Definition slow_less (x y : SlowQueryInfo) : bool := Duration x <? Duration y.

Definition slow_Len (h : slowQueryHeap) : nat := length (heap_data h).

Definition slow_Less (i j : nat) (h : slowQueryHeap) : option (bool * slowQueryHeap) :=
  x ← heap_data h !! i; y ← heap_data h !! j; Some (slow_less x y, h).

Definition slow_Swap (i j : nat) (h : slowQueryHeap) : option slowQueryHeap :=
  x ← heap_data h !! i; y ← heap_data h !! j;
  Some (mkHeap (<[j := x]> (<[i := y]> (heap_data h)))).

Definition slow_Push (x : SlowQueryInfo) (h : slowQueryHeap) : slowQueryHeap :=
  mkHeap (heap_data h ++ [x]).

Definition slow_Pop (h : slowQueryHeap) : option (option SlowQueryInfo * slowQueryHeap) :=
  let old := heap_data h in
  let n := length old in
  if decide (n = 0%nat) then None else
  x ← old !! (n - 1)%nat;
  Some (Some x, mkHeap (take (n - 1) old)).

#[export] Instance slow_heap : HeapInterface slowQueryHeap SlowQueryInfo := {
  Len := slow_Len; Less := slow_Less; Swap := slow_Swap; Push := slow_Push; Pop := slow_Pop }.

(** The loop of [RemoveExpired]: [todo] is [len(h.data) - i]. *)
Fixpoint expire_loop (now period : Z) (todo i idx : nat) (data : list SlowQueryInfo)
    : option (nat * list SlowQueryInfo) :=
  match todo with
  | O => Some (idx, data)
  | S todo =>
      x ← data !! i;
      if decide (now < Start x + period)
      then expire_loop now period todo (S i) (S idx) (<[idx := x]> data)
      else expire_loop now period todo (S i) idx data
  end.

Definition heap_RemoveExpired (now period : Z) (h : slowQueryHeap) : option slowQueryHeap :=
  '(idx, data) ← expire_loop now period (length (heap_data h)) 0 0 (heap_data h);
  if decide (length data = idx) then Some (mkHeap data) else
  heap_Init (mkHeap (take idx data)).

(** [takeLastN]: a negative capacity makes [make] panic. *)
Fixpoint take_loop (count i : nat) (data ret : list SlowQueryInfo) : option (list SlowQueryInfo) :=
  match i with
  | O => Some ret
  | S i =>
      if decide (length ret < count)%nat
      then x ← data !! i; take_loop count i data (ret ++ [x])
      else Some ret
  end.

Definition takeLastN (data : list SlowQueryInfo) (count : Z) : option (list SlowQueryInfo) :=
  let count := if decide (count > Z.of_nat (length data)) then Z.of_nat (length data) else count in
  if decide (count < 0) then None else
  take_loop (Z.to_nat count) (length data) data [].

(** [Query] sorts the heap in place. *)
Definition heap_Query (count : Z) (h : slowQueryHeap) : option (list SlowQueryInfo * slowQueryHeap) :=
  let h := mkHeap (sort_Sort slow_less (heap_data h)) in
  ret ← takeLastN (heap_data h) count;
  Some (ret, h).

(** ** The queue of recent queries *)

Record slowQueryQueue := mkQueue { queue_data : list SlowQueryInfo; queue_size : Z }.

Definition Enqueue (info : SlowQueryInfo) (q : slowQueryQueue) : slowQueryQueue :=
  if decide (Z.of_nat (length (queue_data q)) < queue_size q)
  then mkQueue (queue_data q ++ [info]) (queue_size q)
  else mkQueue (drop 1 (queue_data q ++ [info])) (queue_size q).

Definition queue_Query (count : Z) (q : slowQueryQueue) : option (list SlowQueryInfo) :=
  if decide (length (queue_data q) = 0%nat) then Some [] else takeLastN (queue_data q) count.

(** ** topNSlowQueries *)

Record showSlowMessage := mkMsg { req_Tp : Z; req_Count : Z; req_HoTT : Z }.

Record topNSlowQueries := mkTopN {
  recent : slowQueryQueue;
  user : slowQueryHeap;
  internal : slowQueryHeap;
  topN : Z;
  period : Z;
  ch : list SlowQueryInfo;
  msgCh : list showSlowMessage;
  closed : bool;
}.

Definition newTopNSlowQueries (topN period queueSize : Z) : topNSlowQueries :=
  mkTopN (mkQueue [] queueSize) (mkHeap []) (mkHeap []) topN period [] [] false.

(** The part of [Append] on the heap it chose. *)
Definition heap_append (topN : Z) (info : SlowQueryInfo) (h : slowQueryHeap) : option slowQueryHeap :=
  if decide (Z.of_nat (length (heap_data h)) < topN) then heap_Push info h else
  top ← heap_data h !! 0%nat;
  if decide (Duration info > Duration top)
  then '(_, h) ← heap_Pop h; heap_Push info h
  else Some h.

Definition slow_Append (info : SlowQueryInfo) (q : topNSlowQueries) : option topNSlowQueries :=
  let r := Enqueue info (recent q) in
  if Internal info
  then h ← heap_append (topN q) info (internal q);
       Some (mkTopN r (user q) h (topN q) (period q) (ch q) (msgCh q) (closed q))
  else h ← heap_append (topN q) info (user q);
       Some (mkTopN r h (internal q) (topN q) (period q) (ch q) (msgCh q) (closed q)).

Definition QueryAll (q : topNSlowQueries) : list SlowQueryInfo := queue_data (recent q).

Definition slow_RemoveExpired (now : Z) (q : topNSlowQueries) : option topNSlowQueries :=
  u ← heap_RemoveExpired now (period q) (user q);
  i ← heap_RemoveExpired now (period q) (internal q);
  Some (mkTopN (recent q) u i (topN q) (period q) (ch q) (msgCh q) (closed q)).

Definition QueryRecent (count : Z) (q : topNSlowQueries) : option (list SlowQueryInfo) :=
  queue_Query count (recent q).

Definition QueryTop (count HoTT : Z) (q : topNSlowQueries)
    : option (list SlowQueryInfo * topNSlowQueries) :=
  if decide (HoTT = ShowSlowHoTTDefault) then
    '(ret, h) ← heap_Query count (user q);
    Some (ret, mkTopN (recent q) h (internal q) (topN q) (period q) (ch q) (msgCh q) (closed q))
  else if decide (HoTT = ShowSlowHoTTInternal) then
    '(ret, h) ← heap_Query count (internal q);
    Some (ret, mkTopN (recent q) (user q) h (topN q) (period q) (ch q) (msgCh q) (closed q))
  else if decide (HoTT = ShowSlowHoTTAll) then
    let tmp := sort_Sort slow_less (heap_data (user q) ++ heap_data (internal q)) in
    ret ← takeLastN tmp count;
    Some (ret, q)
  else Some ([], q).

(** To close the channel a second time panics. *)
Definition slow_Close (q : topNSlowQueries) : option topNSlowQueries :=
  if closed q then None
  else Some (mkTopN (recent q) (user q) (internal q) (topN q) (period q) (ch q) (msgCh q) true).

(** ** The goroutine and its callers (petri.go) *)

(** The capacity of [ch]. *)
Definition ch_cap : nat := 1000.

Definition LogSlowQuery (query : SlowQueryInfo) (q : topNSlowQueries) : topNSlowQueries :=
  if closed q then q else
  if decide (length (ch q) < ch_cap)%nat
  then mkTopN (recent q) (user q) (internal q) (topN q) (period q) (ch q ++ [query]) (msgCh q) (closed q)
  else q.

(** The capacity of [msgCh]. *)
Definition msgCh_cap : nat := 10.

(** [ShowSlowQuery] up to its wait for the answer; while the channel is full
    ([None]) the caller waits. *)
Definition ShowSlowQuery (msg : showSlowMessage) (q : topNSlowQueries) : option topNSlowQueries :=
  if decide (length (msgCh q) < msgCh_cap)%nat
  then Some (mkTopN (recent q) (user q) (internal q) (topN q) (period q) (ch q) (msgCh q ++ [msg])
               (closed q))
  else None.

Inductive loop_case := Ticker (now : Z) | Info | Msg.

Inductive loop_result :=
| Blocked
| Returned
| Continue (q : topNSlowQueries) (answer : option (list SlowQueryInfo)).

(** [int(req.Count)] of a [uint64]. *)
Definition answer_msg (msg : showSlowMessage) (q : topNSlowQueries)
    : option (list SlowQueryInfo * topNSlowQueries) :=
  if decide (req_Tp msg = ShowSlowTop) then QueryTop (signed_of 64 (req_Count msg)) (req_HoTT msg) q
  else if decide (req_Tp msg = ShowSlowRecent) then
    ret ← QueryRecent (signed_of 64 (req_Count msg)) q; Some (ret, q)
  else Some (QueryAll q, q).

(** One turn of [topNSlowQueryLoop]. *)
Definition loop_step (c : loop_case) (q : topNSlowQueries) : option loop_result :=
  match c with
  | Ticker now => q ← slow_RemoveExpired now q; Some (Continue q None)
  | Info =>
      match ch q with
      | [] => Some (if closed q then Returned else Blocked)
      | info :: rest =>
          q ← slow_Append info
            (mkTopN (recent q) (user q) (internal q) (topN q) (period q) rest (msgCh q) (closed q));
          Some (Continue q None)
      end
  | Msg =>
      match msgCh q with
      | [] => Some Blocked
      | msg :: rest =>
          '(ret, q) ← answer_msg msg
            (mkTopN (recent q) (user q) (internal q) (topN q) (period q) (ch q) rest (closed q));
          Some (Continue q (Some ret))
      end
  end.
End slow.
