(* ===== verification/SlowQuerySpec.v ===== *)
(** * What the slow-query log keeps

    In every state the goroutine reaches, a query that it received is in the
    heap of its kind, or has expired, or more queries than the heap holds are
    at least as slow; without expiry the heaps hold exactly the slowest ones. *)

From stdpp Require Import base list sorting option strings sets.
From Stdlib Require Import ZArith Lia.
From S2P Require Import Prelude GoHeap SlowQuery.

Local Open Scope Z_scope.

Section spec.
Context `{SlowExternals} `{!SlowExternalsLaws} `{Sorter} `{!SorterLaws}.
Implicit Types (h : slowQueryHeap) (data : list SlowQueryInfo).

(** ** The heap's methods *)

#[export] Instance slow_less_weak : StrictWeak (fun _ => True) slow_less.
Proof. split; unfold slow_less; intros *; rewrite ?Z.ltb_lt, ?Z.ltb_ge; lia. Qed.

#[export] Instance slow_heap_laws : HeapLaws heap_data slow_less (fun _ => True) (fun _ => True).
Proof.
  split.
  - intros s _. by apply Forall_true.
  - intros s i j x y _ Hi Hj. exists s. split; [|done]. cbn. unfold slow_Less. by rewrite Hi; cbn; rewrite Hj.
  - intros s i j l _. unfold swap. cbn. unfold slow_Swap.
    destruct (heap_data s !! i); [|done]; cbn. destruct (heap_data s !! j); [|done]; cbn.
    intros [= <-]. eexists. split; [done|]. split; [done|]. split; [done|].
    unfold slow_Len. cbn. by rewrite !length_insert.
Qed.

Lemma slow_sorted data :
  StronglySorted (fun x y => slow_less y x = false) (sort_Sort slow_less data).
Proof. apply (sort_sorted (fun _ => True)); [apply _|by apply Forall_true]. Qed.

Definition heap_ok h : Prop := is_heap slow_less (length (heap_data h)) (heap_data h).

Lemma heap_top h x y : heap_ok h -> heap_data h !! 0%nat = Some x -> y ∈ heap_data h ->
  Duration x <= Duration y.
Proof.
  intros Hh Hx [i Hi]%list_elem_of_lookup. pose proof (lookup_lt_Some _ _ _ Hi).
  pose proof (heap_root (fun _ => True) slow_less _ _ (Forall_true _ _ (fun _ => I)) (Nat.le_refl _) Hh i ltac:(lia) x y Hx Hi) as L.
  unfold slow_less in L. apply Z.ltb_ge in L. done.
Qed.

Lemma rearranged_ok n h h' : rearranged heap_data (fun _ => True) n h h' ->
  is_heap slow_less (length (heap_data h)) (heap_data h') ->
  heap_ok h' /\ heap_data h' ≡ₚ heap_data h.
Proof. intros (_ & _ & P & _) Hh. split; [|done]. unfold heap_ok. by rewrite P at 1. Qed.

Lemma Push_ok info h : heap_ok h ->
  exists h', heap_Push info h = Some h' /\ heap_ok h' /\ heap_data h' ≡ₚ info :: heap_data h.
Proof.
  intros Hh. assert (EL : Len (Push info h) = S (length (heap_data h))).
  { cbn. unfold slow_Len. cbn. rewrite length_app. cbn. lia. }
  destruct (heap_Push_spec heap_data slow_less (fun _ => True) (fun _ => True) info h _ eq_refl I)
    as (h' & E & R & Hh').
  - rewrite EL. cbn. rewrite length_app. cbn. lia.
  - lia.
  - rewrite EL. intros j Hj _. assert (parent j < j)%nat by (apply parent_lt; lia).
    intros x y Hx Hy. cbn [Push slow_heap slow_Push heap_data] in Hx, Hy.
    rewrite lookup_app_l in Hx by lia. rewrite lookup_app_l in Hy by lia.
    apply (Hh j ltac:(lia) ltac:(lia) x y); done.
  - exists h'. split; [done|]. apply rearranged_ok in R as [? P]; [|done].
    split; [done|]. rewrite P. cbn. by rewrite <- Permutation_cons_append.
Qed.

Lemma Pop_ok top h : heap_ok h -> heap_data h !! 0%nat = Some top ->
  exists h', heap_Pop h = Some (Some top, h') /\ heap_ok h' /\ heap_data h ≡ₚ top :: heap_data h'.
Proof.
  intros Hh Ht. pose proof (lookup_lt_Some _ _ _ Ht) as Hl.
  destruct (heap_Pop_spec heap_data slow_less (fun _ => True) (fun _ => True) h I) as (s & -> & R & Hs & E).
  { change (Len h) with (length (heap_data h)). lia. }
  { done. }
  change (Len h) with (length (heap_data h)) in *. cbn [Pop slow_heap].
  destruct R as (_ & _ & P & _). pose proof (Permutation_length P) as L.
  unfold slow_Pop. rewrite decide_False by lia. rewrite L, E, Ht. cbn.
  eexists. split; [done|]. split.
  - intros j Hj _. cbn in Hj. rewrite length_take in Hj.
    assert (parent j < j)%nat by (apply parent_lt; lia).
    intros x y Hx Hy. cbn [heap_data] in Hx, Hy. rewrite lookup_take_lt in Hx by lia. rewrite lookup_take_lt in Hy by lia.
    apply (Hs j ltac:(lia) ltac:(lia) x y); done.
  - cbn. rewrite <- P. rewrite <- (take_drop (length (heap_data h) - 1) (heap_data s)) at 1.
    rewrite Permutation_app_comm. rewrite (drop_S _ top) by (by rewrite E).
    rewrite drop_ge by lia. by rewrite L.
Qed.

(** ** Append *)

(** What [Append] drops: nothing while there is room, else a quickest one. *)
Lemma heap_append_ok n info h :
  0 < n -> heap_ok h -> Z.of_nat (length (heap_data h)) <= n ->
  exists h' gone, heap_append n info h = Some h' /\ heap_ok h' /\
    info :: heap_data h ≡ₚ heap_data h' ++ gone /\ Z.of_nat (length (heap_data h')) <= n /\
    forall d, d ∈ gone -> Z.of_nat (length (heap_data h')) = n /\
      forall y, y ∈ heap_data h' -> Duration d <= Duration y.
Proof.
  intros Hn Hh Hl. unfold heap_append. case_decide as D.
  - destruct (Push_ok info h Hh) as (h' & -> & Hh' & P). exists h', [].
    do 2 (split; [done|]). rewrite app_nil_r. split; [done|].
    pose proof (Permutation_length P). cbn in *. split; [lia|]. intros d [] % elem_of_nil.
  - destruct (lookup_lt_is_Some_2 (heap_data h) 0) as [top Ht]; [lia|]. rewrite Ht. cbn.
    case_decide as Dt.
    + destruct (Pop_ok top h Hh Ht) as (h1 & -> & Hh1 & P1). step_opt.
      destruct (Push_ok info h1 Hh1) as (h2 & -> & Hh2 & P2). exists h2, [top].
      do 2 (split; [done|]). pose proof (Permutation_length P1). pose proof (Permutation_length P2).
      cbn in *. split; [rewrite P1, P2; by rewrite <- Permutation_cons_append, Permutation_swap|].
      split; [lia|]. intros d ->%list_elem_of_singleton. split; [lia|].
      intros y. rewrite P2, elem_of_cons. intros [->|Hy]; [lia|].
      apply (heap_top h); [done|done|]. rewrite P1. by right.
    + exists h, [info]. do 2 (split; [done|]). split; [by rewrite <- Permutation_cons_append|].
      split; [done|]. intros d ->%list_elem_of_singleton. split; [lia|].
      intros y Hy. pose proof (heap_top h top y Hh Ht Hy). lia.
Qed.

(** ** RemoveExpired *)

Definition alive (now period : Z) (x : SlowQueryInfo) : Prop := now < Start x + period.

#[export] Instance alive_dec now period x : Decision (alive now period x).
Proof. unfold alive. apply _. Defined.

Lemma expire_loop_spec now period : forall todo i idx data,
  (i + todo = length data)%nat -> (idx <= i)%nat ->
  exists idx' data', expire_loop now period todo i idx data = Some (idx', data') /\
    length data' = length data /\ (idx' <= length data)%nat /\
    take idx' data' = take idx data ++ filter (alive now period) (drop i data).
Proof.
  induction todo as [|todo IH]; intros i idx data Hi Hx; cbn [expire_loop].
  - exists idx, data. rewrite drop_ge by lia. rewrite filter_nil, app_nil_r. repeat split; lia.
  - destruct (lookup_lt_is_Some_2 data i) as [x E]; [lia|]. rewrite E. cbn.
    rewrite (drop_S _ _ _ E). case_decide as D.
    + destruct (IH (S i) (S idx) (<[idx := x]> data)) as (idx' & data' & -> & L & Lx & Et);
        [rewrite length_insert; lia|lia|]. rewrite length_insert in *.
      exists idx', data'. split; [done|]. split; [done|]. split; [done|]. rewrite Et.
      rewrite drop_insert_lt by lia. rewrite filter_cons_True by done.
      rewrite (take_S_r _ _ x) by (rewrite list_lookup_insert_eq; [done|lia]).
      rewrite take_insert_ge by lia. by rewrite <- app_assoc.
    + destruct (IH (S i) idx data) as (idx' & data' & -> & L & Lx & Et); [lia|lia|].
      exists idx', data'. split; [done|]. split; [done|]. split; [done|].
      rewrite filter_cons_False by done. done.
Qed.

Lemma filter_length_all {A} (P : A -> Prop) `{forall x, Decision (P x)} (l : list A) :
  length (filter P l) = length l -> filter P l = l.
Proof.
  induction l as [|x l IH]; [done|]. destruct (decide (P x)).
  - rewrite filter_cons_True by done. cbn. intros [= E]. f_equal. by apply IH.
  - rewrite filter_cons_False by done. pose proof (length_filter P l). cbn. lia.
Qed.

Lemma heap_RemoveExpired_ok now period h : heap_ok h ->
  exists h', heap_RemoveExpired now period h = Some h' /\ heap_ok h' /\
    heap_data h' ≡ₚ filter (alive now period) (heap_data h).
Proof.
  intros Hh. unfold heap_RemoveExpired.
  destruct (expire_loop_spec now period (length (heap_data h)) 0 0 (heap_data h))
    as (idx & data & -> & L & Lx & Et); [lia..|]. rewrite drop_0, take_0, app_nil_l in Et. step_opt.
  case_decide as D.
  - exists (mkHeap data). rewrite take_ge in Et by lia. split; [done|]. cbn.
    assert (EF : filter (alive now period) (heap_data h) = heap_data h)
      by (apply filter_length_all; rewrite <- Et; lia).
    rewrite EF in Et |- *. by subst data.
  - destruct (heap_Init_spec heap_data slow_less (fun _ => True) (fun _ => True) (mkHeap (take idx data)) I)
      as (h' & -> & R & Hh'); [done|].
    exists h'. split; [done|]. apply rearranged_ok in R as [? P]; [|done].
    split; [done|]. rewrite P. cbn. by rewrite Et.
Qed.

(** ** takeLastN and Query *)

Lemma take_loop_spec count data : forall i ret,
  (i <= length data)%nat -> (length ret <= count)%nat ->
  take_loop count i data ret = Some (ret ++ take (count - length ret) (reverse (take i data))).
Proof.
  induction i as [|i IH]; intros ret Hi Hr; cbn [take_loop].
  - by rewrite take_0, reverse_nil, take_nil, app_nil_r.
  - case_decide as D.
    + destruct (lookup_lt_is_Some_2 data i) as [x E]; [lia|]. rewrite E. step_opt.
      rewrite IH by (rewrite ?length_app; cbn; lia).
      rewrite (take_S_r _ _ _ E), reverse_app, <- app_assoc. cbn. do 2 f_equal.
      rewrite length_app. cbn. destruct (count - length ret)%nat as [|m] eqn:Em; [lia|].
      cbn. do 2 f_equal. lia.
    + replace (count - length ret)%nat with 0%nat by lia. by rewrite take_0, app_nil_r.
Qed.

Lemma takeLastN_spec data count :
  takeLastN data count = if decide (0 <= count) then Some (take (Z.to_nat count) (reverse data)) else None.
Proof.
  unfold takeLastN. repeat case_decide; try lia; try done.
  - rewrite take_loop_spec by (cbn; lia). cbn. rewrite firstn_all.
    rewrite !take_ge by (rewrite length_reverse; lia). done.
  - rewrite take_loop_spec by (cbn; lia). cbn. rewrite firstn_all. by rewrite Nat.sub_0_r.
Qed.

Lemma heap_Query_ok count h : 0 <= count ->
  exists h', heap_Query count h = Some (take (Z.to_nat count) (reverse (heap_data h')), h') /\
    heap_ok h' /\ heap_data h' ≡ₚ heap_data h /\
    StronglySorted Z.le (Duration <$> heap_data h').
Proof.
  intros Hc. unfold heap_Query. rewrite takeLastN_spec, decide_True by done. step_opt.
  pose proof (slow_sorted (heap_data h)) as S.
  eexists. split; [done|]. cbn. split; [|split; [apply sort_perm|]].
  - by apply sorted_is_heap.
  - eapply StronglySorted_fmap; [|exact S]. intros x y. unfold slow_less. rewrite Z.ltb_ge. done.
Qed.

(** ** The states of the log *)

(** [slow_reach n p s rs ts q]: the log made with capacity [n], period [p] and
    queue size [s] is in state [q] after it received the queries [rs] and the
    ticks [ts], with any calls of its clients in between. *)
Inductive slow_reach (n p s : Z) : list SlowQueryInfo -> list Z -> topNSlowQueries -> Prop :=
| reach_new : slow_reach n p s [] [] (newTopNSlowQueries n p s)
| reach_log rs ts q info :
    slow_reach n p s rs ts q -> slow_reach n p s rs ts (LogSlowQuery info q)
| reach_show rs ts q msg q' :
    slow_reach n p s rs ts q -> ShowSlowQuery msg q = Some q' -> slow_reach n p s rs ts q'
| reach_close rs ts q q' :
    slow_reach n p s rs ts q -> slow_Close q = Some q' -> slow_reach n p s rs ts q'
| reach_tick rs ts q now q' a :
    slow_reach n p s rs ts q -> loop_step (Ticker now) q = Some (Continue q' a) ->
    slow_reach n p s rs (now :: ts) q'
| reach_info rs ts q info q' a :
    slow_reach n p s rs ts q -> head (ch q) = Some info -> loop_step Info q = Some (Continue q' a) ->
    slow_reach n p s (rs ++ [info]) ts q'
| reach_msg rs ts q q' a :
    slow_reach n p s rs ts q -> loop_step Msg q = Some (Continue q' a) ->
    slow_reach n p s rs ts q'.

Definition of_kind (b : bool) (rs : list SlowQueryInfo) : list SlowQueryInfo :=
  filter (fun x => Internal x = b) rs.

Definition kind_heap (b : bool) (q : topNSlowQueries) : slowQueryHeap :=
  if b then internal q else user q.

(** More than [n] queries of [rs] are at least as slow as [x]. *)
Definition outranked (n : Z) (rs : list SlowQueryInfo) (x : SlowQueryInfo) : Prop :=
  n < Z.of_nat (length (filter (fun y => Duration x <= Duration y) rs)).

(** The heap [h] keeps the queries [rs] up to the expired and outranked ones. *)
Definition kept (n p : Z) (rs : list SlowQueryInfo) (ts : list Z) h : Prop :=
  exists dropped expired,
    rs ≡ₚ heap_data h ++ dropped ++ expired /\
    Z.of_nat (length (heap_data h)) <= n /\
    (forall d, d ∈ dropped -> outranked n rs d) /\
    (forall x, x ∈ expired -> exists now, now ∈ ts /\ ~ alive now p x) /\
    (ts = [] -> forall d, d ∈ dropped -> Z.of_nat (length (heap_data h)) = n /\
      forall y, y ∈ heap_data h -> Duration d <= Duration y).

Lemma kept_new n p : 0 < n -> kept n p [] [] (mkHeap []).
Proof. intros. exists [], []. cbn. repeat split; try lia; try set_solver. Qed.

Lemma kept_perm n p rs ts h h' : heap_data h' ≡ₚ heap_data h -> kept n p rs ts h -> kept n p rs ts h'.
Proof.
  intros P (dropped & expired & E & L & D & X & M). exists dropped, expired.
  rewrite P at 1 2. do 4 (split; [done|]). intros T d Hd. rewrite P.
  destruct (M T d Hd) as [? My]. split; [done|]. intros y. rewrite P. apply My.
Qed.

Lemma outranked_mono n rs x d : outranked n rs d -> outranked n (rs ++ [x]) d.
Proof. unfold outranked. rewrite filter_app, length_app. lia. Qed.

Lemma outranked_by n rs data rest d :
  rs ≡ₚ data ++ d :: rest -> Z.of_nat (length data) = n ->
  (forall y, y ∈ data -> Duration d <= Duration y) -> outranked n rs d.
Proof.
  intros P L Hy. unfold outranked. rewrite P, filter_app, filter_cons_True by lia.
  rewrite filter_every by done. rewrite length_app. cbn. lia.
Qed.

Lemma kept_append n p rs ts h info :
  0 < n -> heap_ok h -> kept n p rs ts h ->
  exists h', heap_append n info h = Some h' /\ heap_ok h' /\ kept n p (rs ++ [info]) ts h'.
Proof.
  intros Hn Hh (dropped & expired & E & L & D & X & M).
  destruct (heap_append_ok n info h Hn Hh L) as (h' & gone & -> & Hh' & P & L' & G).
  exists h'. do 2 (split; [done|]). exists (gone ++ dropped), expired.
  assert (E' : rs ++ [info] ≡ₚ heap_data h' ++ (gone ++ dropped) ++ expired).
  { rewrite <- Permutation_cons_append, E, app_comm_cons, P. by rewrite !app_assoc. }
  split; [done|]. split; [done|]. split; [|split; [done|]].
  - intros d [Hd|Hd]%elem_of_app; [|by apply outranked_mono, D].
    destruct (G d Hd) as [Ln Hy]. apply list_elem_of_split in Hd as (g1 & g2 & ->).
    eapply (outranked_by _ _ _ (g1 ++ g2 ++ dropped ++ expired)); [|exact Ln|exact Hy].
    rewrite E'. apply Permutation_app_head. rewrite <- !app_assoc. cbn.
    by rewrite <- Permutation_middle.
  - intros T d [Hd|Hd]%elem_of_app; [by apply G|]. destruct (M T d Hd) as [Ln Hy].
    pose proof (Permutation_length P) as LP. rewrite length_app in LP. cbn in LP.
    destruct gone as [|g gone]; [cbn in LP; lia|]. destruct (G g) as [Lg Gy]; [by left|].
    split; [done|]. intros y Hy'.
    assert (Hg : g ∈ info :: heap_data h) by (rewrite P; apply elem_of_app; right; by left).
    apply elem_of_cons in Hg as [->|Hg].
    + apply Hy. rewrite <- Permutation_middle in P. apply Permutation_cons_inv in P.
      rewrite P. apply elem_of_app. by left.
    + pose proof (Hy g Hg). pose proof (Gy y Hy'). lia.
Qed.

Lemma kept_expire n p now rs ts h :
  heap_ok h -> kept n p rs ts h ->
  exists h', heap_RemoveExpired now p h = Some h' /\ heap_ok h' /\ kept n p rs (now :: ts) h'.
Proof.
  intros Hh (dropped & expired & E & L & D & X & M).
  destruct (heap_RemoveExpired_ok now p h Hh) as (h' & -> & Hh' & P).
  exists h'. do 2 (split; [done|]).
  exists dropped, (filter (fun x => ~ alive now p x) (heap_data h) ++ expired).
  pose proof (Permutation_length P) as LP. pose proof (length_filter (alive now p) (heap_data h)).
  split; [|split; [lia|split; [done|split; [|done]]]].
  - rewrite E, P. rewrite <- (filter_app_complement (alive now p) (heap_data h)) at 1.
    rewrite <- !app_assoc. by rewrite (Permutation_app_swap_app dropped).
  - intros x [[Hx _]%list_elem_of_filter|Hx]%elem_of_app.
    + exists now. split; [by left|done].
    + destruct (X x Hx) as (t & ? & ?). exists t. split; [by right|done].
Qed.

(** ** The invariant *)

Definition heaps_ok (n p : Z) (rs : list SlowQueryInfo) (ts : list Z) (q : topNSlowQueries) : Prop :=
  forall b, heap_ok (kind_heap b q) /\ kept n p (of_kind b rs) ts (kind_heap b q).

(** The last [s] queries. *)
Definition queue_ok (s : Z) (rs : list SlowQueryInfo) (q : slowQueryQueue) : Prop :=
  queue_size q = s /\ queue_data q = drop (length rs - Z.to_nat s) rs.

Definition log_ok (n p s : Z) (rs : list SlowQueryInfo) (ts : list Z) (q : topNSlowQueries) : Prop :=
  topN q = n /\ period q = p /\ heaps_ok n p rs ts q /\ queue_ok s rs (recent q).

Lemma Enqueue_ok s rs q info :
  0 <= s -> queue_ok s rs q -> queue_ok s (rs ++ [info]) (Enqueue info q).
Proof.
  intros Hs [<- E]. unfold Enqueue. rewrite E, length_drop. case_decide as D; split; try done; cbn;
    rewrite length_app; cbn.
  - rewrite <- drop_app_le by lia. f_equal. lia.
  - rewrite <- drop_app_le by lia. rewrite drop_drop. f_equal. lia.
Qed.

Lemma of_kind_snoc b rs info :
  of_kind b (rs ++ [info]) = of_kind b rs ++ (if decide (Internal info = b) then [info] else []).
Proof. unfold of_kind. rewrite filter_app. f_equal. Qed.

Lemma slow_Append_ok n p s rs ts q info :
  0 < n -> 0 <= s -> log_ok n p s rs ts q ->
  exists q', slow_Append info q = Some q' /\ log_ok n p s (rs ++ [info]) ts q'.
Proof.
  intros Hn Hs (En & Ep & Hh & Hq). pose proof (Enqueue_ok s rs _ info Hs Hq) as Hq'.
  destruct (Hh (Internal info)) as [Hk K].
  destruct (kept_append n p (of_kind (Internal info) rs) ts _ info Hn Hk K) as (h & E & Hk' & K').
  assert (HK : forall b g, kind_heap b g = (if decide (b = Internal info) then h else kind_heap b q) ->
    heap_ok (kind_heap b g) /\ kept n p (of_kind b (rs ++ [info])) ts (kind_heap b g)).
  { intros b g ->. rewrite of_kind_snoc. repeat case_decide; subst; try done.
    rewrite app_nil_r. apply Hh. }
  unfold slow_Append. rewrite En. destruct (Internal info) eqn:Ei; cbn in E |- *; rewrite E; cbn;
    (eexists; split; [done|]; split; [done|]; split; [done|]; split; [|done]; intros b; apply HK;
     by destruct b).
Qed.

Lemma slow_RemoveExpired_ok n p s rs ts q now :
  log_ok n p s rs ts q ->
  exists q', slow_RemoveExpired now q = Some q' /\ log_ok n p s rs (now :: ts) q'.
Proof.
  intros (En & Ep & Hh & Hq). unfold slow_RemoveExpired. rewrite Ep.
  destruct (Hh false) as [Hu Ku], (Hh true) as [Hi Ki]. cbn in *.
  destruct (kept_expire n p now _ _ _ Hu Ku) as (u & -> & Hu' & Ku').
  destruct (kept_expire n p now _ _ _ Hi Ki) as (i & -> & Hi' & Ki'). cbn.
  eexists. split; [done|]. do 2 (split; [done|]). split; [|done]. by intros [].
Qed.

Lemma heap_Query_kept n p rs ts count h ret h' :
  heap_Query count h = Some (ret, h') -> kept n p rs ts h -> heap_ok h' /\ kept n p rs ts h'.
Proof.
  unfold heap_Query. rewrite takeLastN_spec. case_decide; [|done]. intros [= _ <-] K. split.
  - apply sorted_is_heap, slow_sorted.
  - eapply kept_perm; [|done]. apply sort_perm.
Qed.

Lemma QueryTop_ok n p s rs ts count k q ret q' :
  QueryTop count k q = Some (ret, q') -> log_ok n p s rs ts q -> log_ok n p s rs ts q'.
Proof.
  intros E (En & Ep & Hh & Hq). unfold QueryTop in E. repeat case_decide.
  - destruct (heap_Query count (user q)) as [[r h]|] eqn:Eq; [|done]. injection E as _ <-.
    do 2 (split; [done|]). split; [|done]. intros []; [by apply (Hh true)|].
    eapply heap_Query_kept; [done|]. apply (Hh false).
  - destruct (heap_Query count (internal q)) as [[r h]|] eqn:Eq; [|done]. injection E as _ <-.
    do 2 (split; [done|]). split; [|done]. intros []; [|by apply (Hh false)].
    eapply heap_Query_kept; [done|]. apply (Hh true).
  - rewrite takeLastN_spec in E. case_decide; [|done]. by injection E as _ <-.
  - by injection E as _ <-.
Qed.

Lemma slow_log_ok n p s rs ts q :
  0 < n -> 0 <= s -> slow_reach n p s rs ts q -> log_ok n p s rs ts q.
Proof.
  intros Hn Hs R. induction R as [|rs ts q info R IH|rs ts q msg q' R IH E|rs ts q q' R IH E
    |rs ts q now q' a R IH E|rs ts q info q' a R IH Hc E|rs ts q q' a R IH E].
  - split; [done|]. split; [done|]. split; [intros []; (split; [intros j Hj; cbn in Hj; lia|by apply kept_new])|done].
  - unfold LogSlowQuery. destruct (closed q); [done|]. by case_decide.
  - unfold ShowSlowQuery in E. case_decide; [|done]. by injection E as <-.
  - unfold slow_Close in E. destruct (closed q); [done|]. by injection E as <-.
  - cbn in E. destruct (slow_RemoveExpired_ok n p s rs ts q now IH) as (q1 & Eq & Hq).
    rewrite Eq in E. by injection E as <- _.
  - cbn in E. destruct (ch q) as [|i rest] eqn:Ec; [done|]. injection Hc as ->.
    destruct (slow_Append_ok n p s rs ts (mkTopN (recent q) (user q) (internal q) (topN q) (period q) rest
      (msgCh q) (closed q)) info Hn Hs IH) as (q1 & Eq & Hq).
    rewrite Eq in E. by injection E as <- _.
  - cbn in E. destruct (msgCh q) as [|msg rest]; [done|].
    destruct (answer_msg msg _) as [[ret q1]|] eqn:Ea; [|done]. injection E as <- _.
    unfold answer_msg in Ea. repeat case_decide.
    + eapply QueryTop_ok; [done|]. done.
    + destruct (QueryRecent _ _); [|done]. by injection Ea as _ <-.
    + by injection Ea as _ <-.
Qed.

(** ** What a client sees *)

(** The durations of some queries, the slowest first. *)
Definition slowest (rs : list SlowQueryInfo) : list Z :=
  reverse (merge_sort Z.le (Duration <$> rs)).

Lemma slowest_top rs kept rest :
  rs ≡ₚ kept ++ rest -> (forall d y, d ∈ rest -> y ∈ kept -> Duration d <= Duration y) ->
  StronglySorted Z.le (Duration <$> kept) ->
  reverse (Duration <$> kept) = take (length kept) (slowest rs).
Proof.
  intros P Hr S. pose proof (StronglySorted_merge_sort Z.le (Duration <$> rest)) as Sr.
  unfold slowest.
  rewrite (StronglySorted_unique Z.le (merge_sort Z.le (Duration <$> rs))
             (merge_sort Z.le (Duration <$> rest) ++ (Duration <$> kept))).
  - rewrite reverse_app, take_app_length'; [done|]. by rewrite length_reverse, length_fmap.
  - apply StronglySorted_merge_sort; apply _.
  - apply StronglySorted_app. split; [|done]. intros a b.
    rewrite merge_sort_Permutation, !list_elem_of_fmap. intros (d & -> & Hd) (y & -> & Hy). by apply Hr.
  - rewrite !merge_sort_Permutation, P, fmap_app. apply Permutation_app_comm.
Qed.

Lemma heap_Query_slowest n p rs h count :
  0 < n -> 0 <= count -> kept n p rs [] h ->
  exists ret h', heap_Query count h = Some (ret, h') /\
    ret ⊆ rs /\ Duration <$> ret = take (Z.to_nat (count `min` n)) (slowest rs).
Proof.
  intros Hn Hc (dropped & expired & E & L & _ & X & M).
  assert (expired = []) as ->.
  { destruct expired as [|x l]; [done|]. destruct (X x) as (now & []%elem_of_nil & _). by left. }
  rewrite app_nil_r in E. unfold heap_Query. rewrite takeLastN_spec, decide_True by done. step_opt. cbn [heap_data].
  set (l := sort_Sort slow_less (heap_data h)).
  assert (P : l ≡ₚ heap_data h) by apply sort_perm.
  eexists _, _. split; [done|]. split.
  { intros x Hx. assert (Hl : x ∈ reverse l).
    { rewrite <- (take_drop (Z.to_nat count) (reverse l)). apply elem_of_app. by left. }
    rewrite elem_of_reverse, P in Hl. rewrite E. apply elem_of_app. by left. }
  rewrite <- P in E. rewrite fmap_take, fmap_reverse, (slowest_top rs l dropped).
  - rewrite take_take. pose proof (Permutation_length P) as LP.
    destruct dropped as [|d l']; [|destruct (M eq_refl d) as [Ln _]; [by left|f_equal; lia]].
    rewrite app_nil_r in E. unfold slowest.
    assert (LR : length (reverse (merge_sort Z.le (Duration <$> rs))) = length l).
    { rewrite length_reverse, merge_sort_Permutation, length_fmap. by rewrite E. }
    destruct (decide (count <= Z.of_nat (length l))); [f_equal; lia|].
    rewrite !take_ge by (rewrite LR; lia). done.
  - done.
  - intros d y Hd. rewrite P. by apply M.
  - eapply StronglySorted_fmap; [|apply (slow_sorted (heap_data h))].
    intros x y. unfold slow_less. rewrite Z.ltb_ge. done.
Qed.

Definition kind_hott (b : bool) : Z := if b then ShowSlowHoTTInternal else ShowSlowHoTTDefault.

(** C28: Whatever its clients, its ticker and the scheduler do, the log keeps
    every query it received, users' and internal ones apart, in a bounded heap:
    the queries of a kind are, each once, those in the heap of the kind, those
    that had expired at some tick, and those that more queries than the heap
    may hold are at least as slow as.  The heap is in heap order, so that its
    top is the next to go. *)
Theorem slow_queries_kept n p s rs ts q b :
  0 < n -> 0 <= s -> slow_reach n p s rs ts q ->
  is_heap slow_less (length (heap_data (kind_heap b q))) (heap_data (kind_heap b q)) /\
  exists dropped expired,
    of_kind b rs ≡ₚ heap_data (kind_heap b q) ++ dropped ++ expired /\
    Z.of_nat (length (heap_data (kind_heap b q))) <= n /\
    (forall d, d ∈ dropped -> outranked n (of_kind b rs) d) /\
    (forall x, x ∈ expired -> exists now, now ∈ ts /\ ~ now < Start x + p).
Proof.
  intros Hn Hs R. destruct (slow_log_ok _ _ _ _ _ _ Hn Hs R) as (_ & _ & Hh & _).
  destruct (Hh b) as [Ho (dropped & expired & E & L & D & X & _)].
  split; [done|]. by exists dropped, expired.
Qed.

(** As long as the ticker has not fired, a request for the slowest
    queries of a kind is answered, with queries of that kind, and with the
    greatest durations among all of them in descending order: as many as the
    client asked for, up to the capacity of the heap. *)
Theorem QueryTop_slowest n p s rs q b count :
  0 < n -> 0 <= s -> 0 <= count -> slow_reach n p s rs [] q ->
  exists ret q', QueryTop count (kind_hott b) q = Some (ret, q') /\
    ret ⊆ of_kind b rs /\
    Duration <$> ret = take (Z.to_nat (count `min` n)) (slowest (of_kind b rs)).
Proof.
  intros Hn Hs Hc R. destruct (slow_log_ok _ _ _ _ _ _ Hn Hs R) as (_ & _ & Hh & _).
  destruct (Hh b) as [_ K]. destruct (heap_Query_slowest n p _ _ count Hn Hc K) as (ret & h & E & Sub & D).
  pose proof show_hott_ne1. unfold QueryTop, kind_hott. destruct b; cbn in E.
  - rewrite decide_False by done. rewrite decide_True, E by done. eauto.
  - rewrite decide_True, E by done. eauto.
Qed.

(** The recent queries are the last ones received, the newest first. *)
Theorem QueryRecent_last n p s rs ts q count :
  0 < n -> 0 <= s -> 0 <= count -> slow_reach n p s rs ts q ->
  QueryRecent count q = Some (take (Z.to_nat (count `min` s)) (reverse rs)) /\
  QueryAll q = drop (length rs - Z.to_nat s) rs.
Proof.
  intros Hn Hs Hc R. destruct (slow_log_ok _ _ _ _ _ _ Hn Hs R) as (_ & _ & _ & Es & Ed).
  split; [|done]. unfold QueryRecent, queue_Query. rewrite takeLastN_spec.
  assert (ER : take (Z.to_nat count) (reverse (queue_data (recent q))) =
    take (Z.to_nat (count `min` s)) (reverse rs)).
  { rewrite Ed, reverse_drop, take_take.
    destruct (decide (Z.to_nat s <= length rs)%nat); [f_equal; lia|].
    destruct (decide (count <= s)); [|rewrite !take_ge by (rewrite length_reverse; lia); done].
    replace (length rs - (length rs - Z.to_nat s))%nat with (length rs) by lia.
    rewrite <- take_take. rewrite (take_ge (reverse rs)) by (by rewrite length_reverse).
    f_equal. lia. }
  rewrite <- ER. case_decide as D.
  - apply nil_length_inv in D. by rewrite D, reverse_nil, take_nil.
  - by rewrite decide_True.
Qed.

(** C38: The goroutine never panics on a tick or a new query, and on a request
    only for a count of 2^63 or more, which becomes negative as an [int]. *)
Theorem loop_panics n p s rs ts q c :
  0 < n -> 0 <= s -> slow_reach n p s rs ts q -> loop_step c q = None ->
  c = Msg /\ exists msg, head (msgCh q) = Some msg /\ signed_of 64 (req_Count msg) < 0.
Proof.
  intros Hn Hs R. pose proof (slow_log_ok _ _ _ _ _ _ Hn Hs R) as I. destruct c as [now| |]; cbn.
  - destruct (slow_RemoveExpired_ok n p s rs ts q now I) as (q' & -> & _). done.
  - destruct (ch q) as [|info rest]; [done|].
    destruct (slow_Append_ok n p s rs ts (mkTopN (recent q) (user q) (internal q) (topN q) (period q) rest
      (msgCh q) (closed q)) info Hn Hs I) as (q' & -> & _). done.
  - destruct (msgCh q) as [|msg rest]; [done|]. intros E. split; [done|]. exists msg. split; [done|].
    destruct (decide (signed_of 64 (req_Count msg) < 0)); [done|exfalso; revert E].
    unfold answer_msg, QueryTop, QueryRecent, queue_Query, heap_Query.
    repeat case_decide; rewrite ?takeLastN_spec, ?decide_True by lia; done.
Qed.
End spec.
