(* ===== verification/Schema.v ===== *)
(** * The schema validator (petri/schema_validator.go, petri/schema_checker.go)

    A transaction that started under an old schema may commit only if none of
    the tables it touches changed since.  The validator keeps the latest
    schema version, until when it is known to be the latest, and a bounded
    queue of what the recent versions changed.

    A panic of an index out of range is [None]. *)

From stdpp Require Import base gmap list sorting strings.
From Stdlib Require Import ZArith Lia Sorted.
From S2P Require Import Prelude.
Open Scope Z_scope.

Inductive checkResult : Type :=
| ResultSucc
| ResultFail
| ResultUnknown.

#[export] Instance checkResult_eq_dec : EqDecision checkResult.
Proof. solve_decision. Defined.

Section schema.
(** The replicant of the schema; the millisecond-precise time, in
    nanoseconds, of a timestamp; [time.Millisecond]. *)
Context {SchemaReplicant : Type}.
Context (GetTimeFromTS : Z -> Z).

Definition Millisecond : Z := 1000000.

(** [einsteindb.RelatedSchemaChange]. *)
Record RelatedSchemaChange : Type := MkChange {
  PhyTblIDS : list Z;
  CausetActionTypes : list Z;
  LatestSchemaReplicant : option SchemaReplicant;
  Amendable : bool;
}.

Record deltaSchemaInfo : Type := MkDelta {
  schemaVersion : Z;
  relatedIDs : list Z;
  relatedCausetActions : list Z;
}.

(** [has_do] tells whether [do] is a petri; what [do.SchemaReplicant()] returns
    is an argument of the operation that calls it. *)
Record schemaValidator : Type := MkValidator {
  isStarted : bool;
  lease : Z;
  latestSchemaVer : Z;
  latestSchemaReplicant : option SchemaReplicant;
  has_do : bool;
  latestSchemaExpire : Z;
  deltaSchemaInfos : list deltaSchemaInfo;
}.

(** The zero [time.Time], year 1, in nanoseconds from the Unix epoch. *)
Definition zeroTime : Z := -62135596800000000000.

Definition NewSchemaValidator (lease : Z) (has_do : bool) : schemaValidator :=
  MkValidator true lease 0 None has_do zeroTime [].

Definition IsStarted (s : schemaValidator) : bool := isStarted s.
Definition LatestSchemaVersion (s : schemaValidator) : Z := latestSchemaVer s.

Definition Stop (s : schemaValidator) : schemaValidator :=
  MkValidator false (lease s) 0 (latestSchemaReplicant s) (has_do s) (latestSchemaExpire s) [].
Definition Restart (s : schemaValidator) : schemaValidator :=
  MkValidator true (lease s) (latestSchemaVer s) (latestSchemaReplicant s) (has_do s)
    (latestSchemaExpire s) (deltaSchemaInfos s).
Definition Reset (s : schemaValidator) : schemaValidator :=
  MkValidator true (lease s) 0 (latestSchemaReplicant s) (has_do s) (latestSchemaExpire s) [].

(** ** The queue of changes *)

(** The inner loop of [containIn]: is the identifier, with the action at the
    same index of the other slice, among the current ones? *)
Fixpoint contains_id (lastTblID : Z) (lastAction : option Z) (ids actions : list Z) : option bool :=
  match ids with
  | [] => Some false
  | curTblID :: ids' =>
      if lastTblID =? curTblID then
        last ← lastAction;
        cur ← head actions;
        if last =? cur then Some true else contains_id lastTblID lastAction ids' (tail actions)
      else contains_id lastTblID lastAction ids' (tail actions)
  end.

Fixpoint containIn_loop (ids actions : list Z) (curDelta : deltaSchemaInfo) : option bool :=
  match ids with
  | [] => Some true
  | lastTblID :: ids' =>
      isEqual ← contains_id lastTblID (head actions) (relatedIDs curDelta) (relatedCausetActions curDelta);
      if negb isEqual then Some false else containIn_loop ids' (tail actions) curDelta
  end.

Definition containIn (lastDelta curDelta : deltaSchemaInfo) : option bool :=
  if (length (relatedIDs curDelta) <? length (relatedIDs lastDelta))%nat then Some false
  else containIn_loop (relatedIDs lastDelta) (relatedCausetActions lastDelta) curDelta.

(** [maxCnt] is [variable.GetMaxDeltaSchemaCount()]. *)
Definition enqueue (maxCnt : Z) (q : list deltaSchemaInfo) (version : Z) (change : option RelatedSchemaChange)
    : option (list deltaSchemaInfo) :=
  if maxCnt <=? 0 then Some q
  else
    let delta := match change with
                 | Some c => MkDelta version (PhyTblIDS c) (CausetActionTypes c)
                 | None => MkDelta version [] []
                 end in
    match q with
    | [] => Some [delta]
    | first :: _ =>
        let lastOffset := (length q - 1)%nat in
        merge ← (if (lastOffset =? 0)%nat then Some false
                 else containIn (List.last q first) delta);
        let q := if (merge : bool) then <[lastOffset := delta]> q else q ++ [delta] in
        Some (if maxCnt <? Z.of_nat (length q) then tail q else q)
    end.

Definition Update (maxCnt : Z) (replicant : SchemaReplicant) (leaseGrantTS oldVer currVer : Z)
    (change : option RelatedSchemaChange) (s : schemaValidator) : option schemaValidator :=
  if negb (isStarted s) then Some s
  else
    let expire := GetTimeFromTS leaseGrantTS + (lease s - Millisecond) in
    let latest := if has_do s then Some replicant else latestSchemaReplicant s in
    q ← (if negb (currVer =? oldVer) then enqueue maxCnt (deltaSchemaInfos s) currVer change
         else Some (deltaSchemaInfos s));
    Some (MkValidator (isStarted s) (lease s) currVer latest (has_do s) expire q).

(** ** Checking *)

(** The longest suffix of newer changes; the argument is the reversed queue. *)
Fixpoint newer_loop (rq : list deltaSchemaInfo) (currVer : Z) : list deltaSchemaInfo :=
  match rq with
  | [] => []
  | d :: rq' => if currVer <? schemaVersion d then newer_loop rq' currVer ++ [d] else []
  end.

Definition findNewerDeltas (s : schemaValidator) (currVer : Z) : list deltaSchemaInfo :=
  newer_loop (rev (deltaSchemaInfos s)) currVer.

Fixpoint mark_id (tblID : Z) (action : option Z) (blockIDs : list Z) (changed : gmap Z Z) : option (gmap Z Z) :=
  match blockIDs with
  | [] => Some changed
  | relatedTblID :: blockIDs' =>
      changed ← (if tblID =? relatedTblID then
                   a ← action;
                   Some (<[tblID := Z.lor (default 0 (changed !! tblID)) a]> changed)
                 else Some changed);
      mark_id tblID action blockIDs' changed
  end.

Fixpoint mark_delta (ids actions : list Z) (blockIDs : list Z) (changed : gmap Z Z) : option (gmap Z Z) :=
  match ids with
  | [] => Some changed
  | tblID :: ids' =>
      changed ← mark_id tblID (head actions) blockIDs changed;
      mark_delta ids' (tail actions) blockIDs changed
  end.

Fixpoint mark_deltas (deltas : list deltaSchemaInfo) (blockIDs : list Z) (changed : gmap Z Z)
    : option (gmap Z Z) :=
  match deltas with
  | [] => Some changed
  | item :: deltas' =>
      changed ← mark_delta (relatedIDs item) (relatedCausetActions item) blockIDs changed;
      mark_deltas deltas' blockIDs changed
  end.

Definition no_change : RelatedSchemaChange := MkChange [] [] None false.

Definition isRelatedBlocksChanged (s : schemaValidator) (currVer : Z) (blockIDs : list Z)
    : option (RelatedSchemaChange * bool) :=
  match deltaSchemaInfos s with
  | [] => Some (no_change, true)
  | _ :: _ =>
      let newerDeltas := findNewerDeltas s currVer in
      if bool_decide (length newerDeltas = length (deltaSchemaInfos s)) then Some (no_change, true)
      else
        changedTblMap ← mark_deltas newerDeltas blockIDs ∅;
        if (0 <? size changedTblMap)%nat then
          let tblIds := merge_sort Z.le (map_to_list changedTblMap).*1 in
          let actionTypes := (fun tblID => default 0 (changedTblMap !! tblID)) <$> tblIds in
          Some (MkChange tblIds actionTypes None true, true)
        else Some (no_change, false)
  end.

Definition Check (s : schemaValidator) (txnTS schemaVer : Z) (relatedPhysicalBlockIDs : list Z)
    : option (option RelatedSchemaChange * checkResult) :=
  if negb (isStarted s) then Some (None, ResultUnknown)
  else if lease s =? 0 then Some (None, ResultSucc)
  else if schemaVer <? latestSchemaVer s then
    if bool_decide (relatedPhysicalBlockIDs = []) then Some (None, ResultFail)
    else
      '(relatedChanges, changed) ← isRelatedBlocksChanged s schemaVer relatedPhysicalBlockIDs;
      if (changed : bool) then
        if Amendable relatedChanges then
          Some (Some (MkChange (PhyTblIDS relatedChanges) (CausetActionTypes relatedChanges)
                        (latestSchemaReplicant s) true), ResultFail)
        else Some (None, ResultFail)
      else Some (None, ResultSucc)
  else
    let t := GetTimeFromTS txnTS in
    if latestSchemaExpire s <? t then Some (None, ResultUnknown)
    else Some (None, ResultSucc).

(** ** SchemaChecker *)

Inductive checkerError : Type :=
| ErrSchemaReplicantChanged
| ErrSchemaReplicantExpired.

(** [CheckBySchemaVer], over any validator: [check i] is what the [i]-th call
    of [Check] answers.  The checker sleeps between two calls, so other
    operations may change the validator. *)
Fixpoint CheckBySchemaVer_loop (times : nat) (i : nat)
    (check : nat -> option (option RelatedSchemaChange * checkResult))
    : option (option RelatedSchemaChange * option checkerError) :=
  match times with
  | O => Some (None, Some ErrSchemaReplicantExpired)
  | S times' =>
      '(relatedChange, CheckResult) ← check i;
      match CheckResult with
      | ResultSucc => Some (None, None)
      | ResultFail => Some (relatedChange, Some ErrSchemaReplicantChanged)
      | ResultUnknown => CheckBySchemaVer_loop times' (S i) check
      end
  end.

Record SchemaChecker : Type := MkChecker {
  chk_schemaVer : Z;
  relatedBlockIDs : list Z;
}.

(** [SchemaOutOfDateRetryTimes]. *)
Definition SchemaOutOfDateRetryTimes : Z := 10.

(** [vs i] is the state of the validator at the [i]-th check. *)
Definition CheckBySchemaVer (retryTimes : Z) (c : SchemaChecker) (vs : nat -> schemaValidator)
    (txnTS startSchemaVer : Z) : option (option RelatedSchemaChange * option checkerError) :=
  CheckBySchemaVer_loop (Z.to_nat retryTimes) 0
    (fun i => Check (vs i) txnTS startSchemaVer (relatedBlockIDs c)).

Definition SchemaChecker_Check (retryTimes : Z) (c : SchemaChecker) (vs : nat -> schemaValidator) (txnTS : Z)
    : option (option RelatedSchemaChange * option checkerError) :=
  CheckBySchemaVer retryTimes c vs txnTS (chk_schemaVer c).
End schema.
Arguments RelatedSchemaChange : clear implicits.
Arguments schemaValidator : clear implicits.
