(* ===== verification/SchemaSpec.v ===== *)
(** * What the schema validator promises

    Against the whole history of schema changes since the last [Stop] or
    [Reset], of which the validator keeps a bounded, merged queue: a passed
    check means that no related table changed, and a failed one reports
    exactly the related tables that changed, with the union of their actions. *)

From stdpp Require Import base gmap list sorting strings.
From Stdlib Require Import ZArith Lia Sorted.
From S2P Require Import Prelude Schema.
Open Scope Z_scope.

Section schema_spec.
Context {SchemaReplicant : Type} (GetTimeFromTS : Z -> Z).
Abbreviation validator := (schemaValidator SchemaReplicant).
Abbreviation change := (RelatedSchemaChange SchemaReplicant).

Definition pairs (d : deltaSchemaInfo) : list (Z * Z) := zip (relatedIDs d) (relatedCausetActions d).
Definition aligned (d : deltaSchemaInfo) : Prop := length (relatedIDs d) = length (relatedCausetActions d).

(** Some change after version [u] did action [a] to the table [id]. *)
Definition changed_since (h : list deltaSchemaInfo) (u id a : Z) : Prop :=
  exists d, d ∈ h /\ u < schemaVersion d /\ (id, a) ∈ pairs d.

(** The queue reaches back to version [u]. *)
Definition covered (q : list deltaSchemaInfo) (u : Z) : Prop :=
  exists d q', q = d :: q' /\ schemaVersion d <= u.

Definition delta_of (version : Z) (c : option change) : deltaSchemaInfo :=
  match c with
  | Some c => MkDelta version (PhyTblIDS c) (CausetActionTypes c)
  | None => MkDelta version [] []
  end.

(** The states a validator reaches, with the history since the last [Stop] or
    [Reset]: versions increase, the two slices of a change have one length, and
    the queue may hold between 1 and [M] changes. *)
Inductive vreach (M : Z) : validator -> list deltaSchemaInfo -> Prop :=
| vr_new lease has_do : vreach M (NewSchemaValidator lease has_do) []
| vr_stop s h : vreach M s h -> vreach M (Stop s) []
| vr_restart s h : vreach M s h -> vreach M (Restart s) h
| vr_reset s h : vreach M s h -> vreach M (Reset s) []
| vr_update maxCnt replicant ts oldVer currVer c s s' h :
    vreach M s h -> 0 < maxCnt <= M -> aligned (delta_of currVer c) ->
    (currVer <> oldVer -> Forall (fun d => schemaVersion d < currVer) h) ->
    Update GetTimeFromTS maxCnt replicant ts oldVer currVer c s = Some s' ->
    vreach M s' (if isStarted s && negb (currVer =? oldVer) then h ++ [delta_of currVer c] else h).

(** ** Containment *)

Lemma contains_id_spec id a ids actions :
  length ids = length actions ->
  contains_id id (Some a) ids actions = Some (bool_decide ((id, a) ∈ zip ids actions)).
Proof.
  revert actions. induction ids as [|i ids IH]; intros [|b actions] L; try done.
  cbn [contains_id head tail zip zip_with]. injection L as L. cbn [mbind option_bind].
  destruct (Z.eqb_spec id i) as [->|N]; [destruct (Z.eqb_spec a b) as [->|N]|].
  - rewrite bool_decide_eq_true_2; [done|]. left.
  - rewrite IH by done. f_equal. apply bool_decide_ext. rewrite elem_of_cons. naive_solver.
  - rewrite IH by done. f_equal. apply bool_decide_ext. rewrite elem_of_cons. naive_solver.
Qed.

Lemma containIn_loop_spec ids actions cur :
  length ids = length actions -> aligned cur ->
  exists b, containIn_loop ids actions cur = Some b /\
    (b = true -> forall p, p ∈ zip ids actions -> p ∈ pairs cur).
Proof.
  intros L A. revert actions L. induction ids as [|i ids IH]; intros [|a actions] L; try done.
  { exists true. split; [done|]. intros _ p []%not_elem_of_nil. }
  injection L as L. cbn [containIn_loop head tail]. rewrite contains_id_spec by done. cbn [mbind option_bind].
  case_bool_decide as D; [|by exists false]. cbn [negb].
  destruct (IH actions L) as (b & -> & Hb). exists b. split; [done|]. intros Tb p.
  cbn [zip zip_with]. rewrite elem_of_cons. intros [->|?]; [done|]. by apply Hb.
Qed.

Lemma containIn_spec last cur :
  aligned last -> aligned cur ->
  exists b, containIn last cur = Some b /\ (b = true -> forall p, p ∈ pairs last -> p ∈ pairs cur).
Proof.
  intros Al Ac. unfold containIn. destruct (_ <? _)%nat; [by exists false|].
  by apply containIn_loop_spec.
Qed.

(** ** Newer changes *)

Definition ver_lt (d d' : deltaSchemaInfo) : Prop := schemaVersion d < schemaVersion d'.

#[local] Instance newer_dec u d : Decision (u < schemaVersion d).
Proof. apply _. Defined.

Lemma sorted_snoc_inv q d :
  StronglySorted ver_lt (q ++ [d]) -> StronglySorted ver_lt q /\ forall x, x ∈ q -> schemaVersion x < schemaVersion d.
Proof.
  intros S. apply StronglySorted_app in S as (C & S & _). split; [done|].
  intros x Hx. apply (C x d Hx). left.
Qed.

Lemma sorted_snoc q d :
  StronglySorted ver_lt q -> (forall x, x ∈ q -> schemaVersion x < schemaVersion d) ->
  StronglySorted ver_lt (q ++ [d]).
Proof.
  intros S A. apply StronglySorted_app. split; [|split; [done|repeat constructor]].
  intros x y Hx ->%list_elem_of_singleton. by apply A.
Qed.

Lemma findNewerDeltas_filter (s : validator) u :
  StronglySorted ver_lt (deltaSchemaInfos s) ->
  findNewerDeltas s u = filter (fun d => u < schemaVersion d) (deltaSchemaInfos s).
Proof.
  unfold findNewerDeltas. generalize (deltaSchemaInfos s) as q. intros q.
  induction q as [|d q IH] using rev_ind; intros S; [done|].
  apply sorted_snoc_inv in S as [S A]. rewrite rev_app_distr, filter_app. cbn [rev app newer_loop].
  destruct (Z.ltb_spec u (schemaVersion d)) as [L|L].
  - rewrite IH by done. by rewrite filter_cons_True.
  - rewrite filter_cons_False by lia. rewrite app_nil_r. symmetry. apply filter_none.
    intros x Hx. apply A in Hx. lia.
Qed.

(** Every change is newer exactly when the queue does not reach back. *)
Lemma all_newer q u :
  StronglySorted ver_lt q -> q <> [] ->
  length (filter (fun d => u < schemaVersion d) q) = length q <-> ~ covered q u.
Proof.
  intros S N. destruct q as [|d q]; [done|]. split.
  - intros E (d' & q' & [= <- <-] & L). rewrite filter_cons_False in E by lia. simpl in E.
    pose proof (length_filter (fun d => u < schemaVersion d) q). lia.
  - intros C. assert (u < schemaVersion d) as L.
    { destruct (Z.lt_ge_cases u (schemaVersion d)); [done|]. exfalso. apply C. by exists d, q. }
    apply StronglySorted_inv in S as [_ F]. rewrite filter_every; [done|].
    intros x [->|Hx]%elem_of_cons; [done|]. rewrite Forall_forall in F. apply F in Hx. unfold ver_lt in Hx. lia.
Qed.

(** ** The queue *)

Lemma changed_since_app h h' u id a :
  changed_since (h ++ h') u id a <-> changed_since h u id a \/ changed_since h' u id a.
Proof. unfold changed_since. setoid_rewrite elem_of_app. naive_solver. Qed.

Lemma changed_since_cons d h u id a :
  changed_since (d :: h) u id a <-> (u < schemaVersion d /\ (id, a) ∈ pairs d) \/ changed_since h u id a.
Proof. unfold changed_since. setoid_rewrite elem_of_cons. naive_solver. Qed.

Lemma changed_since_nil u id a : ~ changed_since [] u id a.
Proof. by intros (d & []%not_elem_of_nil & _). Qed.

(** The queue is sorted and aligned, its versions are versions of the history,
    and where it reaches back it records the changes of the history. *)
Record qinv (q h : list deltaSchemaInfo) : Prop := {
  qi_sorted : StronglySorted ver_lt q;
  qi_aligned : Forall aligned q;
  qi_versions : forall d, d ∈ q -> exists e, e ∈ h /\ schemaVersion e = schemaVersion d;
  qi_changes : forall u id a, covered q u -> changed_since q u id a <-> changed_since h u id a;
}.

Lemma qinv_below q h v :
  qinv q h -> Forall (fun d => schemaVersion d < v) h -> forall d, d ∈ q -> schemaVersion d < v.
Proof.
  intros I F d Hd. destruct (qi_versions _ _ I d Hd) as (e & He & <-).
  rewrite Forall_forall in F. by apply F.
Qed.

Lemma qinv_nil h : qinv [] h.
Proof.
  split; [constructor|constructor|intros d []%not_elem_of_nil|].
  by intros u id a (d & q & ? & _).
Qed.

Lemma qinv_push q h d :
  qinv q h -> Forall (fun e => schemaVersion e < schemaVersion d) h -> aligned d -> qinv (q ++ [d]) (h ++ [d]).
Proof.
  intros I F A. pose proof (qinv_below _ _ _ I F) as B. destruct I as [S Al V C]. split.
  - by apply sorted_snoc.
  - apply Forall_app. by split; [|constructor].
  - intros x [Hx| ->%list_elem_of_singleton]%elem_of_app.
    + destruct (V x Hx) as (e & He & <-). exists e. by rewrite elem_of_app; auto.
    + exists d. rewrite elem_of_app, list_elem_of_singleton. auto.
  - intros u id a (d0 & q' & E & L). rewrite !changed_since_app. destruct q as [|d1 q].
    + injection E as <- <-. split; [by intros [[]%changed_since_nil|]; auto|].
      intros [(e & He & ? & _)|]; [|by auto]. rewrite Forall_forall in F. apply F in He. lia.
    + injection E as <- <-. rewrite C by by exists d1, q. done.
Qed.

Lemma qinv_replace q l h d :
  qinv (q ++ [l]) h -> q <> [] -> Forall (fun e => schemaVersion e < schemaVersion d) h -> aligned d ->
  (forall p, p ∈ pairs l -> p ∈ pairs d) -> qinv (q ++ [d]) (h ++ [d]).
Proof.
  intros I N F A P. pose proof (qinv_below _ _ _ I F) as B. destruct I as [S Al V C].
  apply sorted_snoc_inv in S as [S Bl]. apply Forall_app in Al as [Al _]. split.
  - apply sorted_snoc; [done|]. intros x Hx. apply B. rewrite elem_of_app. by left.
  - apply Forall_app. by split; [|constructor].
  - intros x [Hx| ->%list_elem_of_singleton]%elem_of_app.
    + destruct (V x) as (e & He & <-); [rewrite elem_of_app; by left|]. exists e. by rewrite elem_of_app; auto.
    + exists d. rewrite elem_of_app, list_elem_of_singleton. auto.
  - intros u id a (d0 & q' & E & L). destruct q as [|d1 q]; [done|]. injection E as <- <-.
    assert (covered ((d1 :: q) ++ [l]) u) as Cv by by exists d1, (q ++ [l]).
    specialize (C u id a Cv). rewrite changed_since_app in C. rewrite !changed_since_app, <- C.
    split; [tauto|]. intros [[?|(x & ->%list_elem_of_singleton & Lx & Px)]|?]; [by left| |by right].
    right. exists d. split; [left|]. split; [|by apply P].
    assert (schemaVersion l < schemaVersion d) by (apply B; rewrite elem_of_app, list_elem_of_singleton; by right). lia.
Qed.

Lemma qinv_tail q h : qinv q h -> qinv (tail q) h.
Proof.
  intros [S Al V C]. destruct q as [|d q]; [apply qinv_nil|]. cbn [tail].
  apply StronglySorted_inv in S as [S F]. apply Forall_cons in Al as [_ Al]. split; [done|done| |].
  - intros x Hx. apply V. by right.
  - intros u id a (d1 & q1 & -> & L). apply Forall_cons in F as [F _]. unfold ver_lt in F.
    rewrite <- C, (changed_since_cons d) by (exists d, (d1 :: q1); split; [done|lia]).
    split; [by right|]. intros [[? _]|?]; [lia|done].
Qed.

(** What [enqueue] appends or replaces, before the oldest change is dropped. *)
Lemma enqueue_qinv maxCnt q h v (c : option change) :
  0 < maxCnt -> qinv q h -> aligned (delta_of v c) -> Forall (fun d => schemaVersion d < v) h ->
  exists q', enqueue maxCnt q v c = Some q' /\ qinv q' (h ++ [delta_of v c]) /\
    Z.of_nat (length q') <= Z.max maxCnt (Z.of_nat (length q)).
Proof.
  intros M I A F. unfold enqueue. rewrite (proj2 (Z.leb_gt _ _)) by done.
  fold (delta_of v c).
  assert (schemaVersion (delta_of v c) = v) as Ev by by destruct c.
  pose proof F as F'. rewrite <- Ev in F'.
  destruct q as [|first q1].
  { exists [delta_of v c]. split; [done|]. split; [by apply (qinv_push [] h)|simpl; lia]. }
  remember (first :: q1) as q0 eqn:Eq. destruct (exists_last (l := q0)) as (qi & l & El); [by rewrite Eq|].
  assert (List.last q0 first = l) as -> by by rewrite El, last_last.
  assert ((length q0 - 1)%nat = length qi) as -> by (rewrite El, length_app; simpl; lia).
  assert (exists b q', (if (length qi =? 0)%nat then Some false else containIn l (delta_of v c)) = Some b /\
            (if (b : bool) then <[length qi := delta_of v c]> q0 else q0 ++ [delta_of v c]) = q' /\
            qinv q' (h ++ [delta_of v c]) /\ (length q' <= S (length q0))%nat /\
            (length q' = length q0 \/ length q' = S (length q0))) as (b & q' & -> & E' & I' & L' & L'').
  { destruct (Nat.eqb_spec (length qi) 0) as [E0|N0].
    - exists false. eexists. split_and!; [done|done|by apply qinv_push|rewrite length_app; simpl; lia..].
    - destruct (containIn_spec l (delta_of v c)) as (b & -> & P); [|done|].
      { pose proof (qi_aligned _ _ I) as Al. rewrite El in Al. by apply Forall_app in Al as [_ [? _]%Forall_cons]. }
      exists b. destruct b; eexists; split_and!; try done.
      + rewrite El, insert_app_r_alt, Nat.sub_diag by lia. cbn.
        apply (qinv_replace qi l); [by rewrite <- El| |done..|by apply P].
        by intros ->.
      + rewrite length_insert. lia.
      + rewrite length_insert. lia.
      + by apply qinv_push.
      + rewrite length_app. simpl. lia.
      + rewrite length_app. simpl. lia. }
  cbn [mbind option_bind]. rewrite E'.
  destruct (Z.ltb_spec maxCnt (Z.of_nat (length q'))) as [L|L]; eexists; (split; [done|]).
  - split; [by apply qinv_tail|]. destruct q' as [|x q']; simpl in *; lia.
  - split; [done|]. lia.
Qed.

(** ** The map of changed tables *)

(** [m'] adds to [m] the actions [acts] on the identifiers of [blockIDs]. *)
Definition marks (blockIDs : list Z) (acts : Z -> Z -> Prop) (m m' : gmap Z Z) : Prop :=
  forall id,
    (is_Some (m' !! id) <-> is_Some (m !! id) \/ (id ∈ blockIDs /\ exists a, acts id a)) /\
    (forall n, Z.testbit (default 0 (m' !! id)) n = true <->
       Z.testbit (default 0 (m !! id)) n = true \/ (id ∈ blockIDs /\ exists a, acts id a /\ Z.testbit a n = true)).

Lemma marks_trans blockIDs P Q m m1 m2 :
  marks blockIDs P m m1 -> marks blockIDs Q m1 m2 -> marks blockIDs (fun id a => P id a \/ Q id a) m m2.
Proof.
  intros A B id. destruct (A id) as [A1 A2], (B id) as [B1 B2]. split; [rewrite B1, A1|intros n; rewrite B2, A2];
    clear; firstorder.
Qed.

Lemma marks_ext blockIDs P Q m m' :
  (forall id a, P id a <-> Q id a) -> marks blockIDs P m m' -> marks blockIDs Q m m'.
Proof.
  intros E A id. destruct (A id) as [A1 A2]. split; [rewrite A1|intros n; rewrite A2]; by setoid_rewrite E.
Qed.

Lemma mark_id_marks id a blockIDs m :
  exists m', mark_id id (Some a) blockIDs m = Some m' /\ marks blockIDs (fun i b => i = id /\ b = a) m m'.
Proof.
  revert m. induction blockIDs as [|r blockIDs IH]; intros m; cbn [mark_id mbind option_bind].
  { exists m. split; [done|]. intros i. setoid_rewrite elem_of_nil. clear. firstorder. }
  destruct (Z.eqb_spec id r) as [<-|N]; cbn [mbind option_bind].
  - destruct (IH (<[id := Z.lor (default 0 (m !! id)) a]> m)) as (m' & -> & A). exists m'. split; [done|].
    intros i. destruct (A i) as [A1 A2]. setoid_rewrite elem_of_cons.
    destruct (decide (i = id)) as [->|Ni].
    + rewrite lookup_insert_eq in A1, A2. cbn in A2.
      split; [rewrite A1; split; [eauto 10|by left]|]. intros n. rewrite A2, Z.lor_spec, orb_true_iff. naive_solver.
    + rewrite lookup_insert_ne in A1, A2 by done.
      split; [rewrite A1|intros n; rewrite A2]; clear -Ni; naive_solver.
  - destruct (IH m) as (m' & -> & A). exists m'. split; [done|].
    intros i. destruct (A i) as [A1 A2]. setoid_rewrite elem_of_cons.
    split; [rewrite A1|intros n; rewrite A2]; clear -N; naive_solver.
Qed.

Lemma mark_delta_marks ids actions blockIDs m :
  length ids = length actions ->
  exists m', mark_delta ids actions blockIDs m = Some m' /\
    marks blockIDs (fun i b => (i, b) ∈ zip ids actions) m m'.
Proof.
  revert actions m. induction ids as [|id ids IH]; intros [|a actions] m L; try done; cbn [mark_delta head tail].
  { exists m. split; [done|]. intros i. setoid_rewrite elem_of_nil. clear. firstorder. }
  injection L as L. destruct (mark_id_marks id a blockIDs m) as (m1 & -> & A1). cbn [mbind option_bind].
  destruct (IH actions m1 L) as (m2 & -> & A2). exists m2. split; [done|].
  eapply marks_ext; [|exact (marks_trans _ _ _ _ _ _ A1 A2)].
  intros i b. cbn [zip zip_with]. rewrite elem_of_cons. naive_solver.
Qed.

Lemma mark_deltas_marks deltas blockIDs m :
  Forall aligned deltas ->
  exists m', mark_deltas deltas blockIDs m = Some m' /\
    marks blockIDs (fun i b => exists d, d ∈ deltas /\ (i, b) ∈ pairs d) m m'.
Proof.
  revert m. induction deltas as [|d deltas IH]; intros m F; cbn [mark_deltas].
  { exists m. split; [done|]. intros i. setoid_rewrite elem_of_nil. clear. firstorder. }
  apply Forall_cons in F as [Ad F].
  destruct (mark_delta_marks _ _ blockIDs m Ad) as (m1 & -> & A1). cbn [mbind option_bind].
  destruct (IH m1 F) as (m2 & -> & A2). exists m2. split; [done|].
  eapply marks_ext; [|exact (marks_trans _ _ _ _ _ _ A1 A2)].
  intros i b. cbn beta. setoid_rewrite elem_of_cons. unfold pairs. naive_solver.
Qed.

(** The report of the changed tables: which they are, in order, and for each
    the union of the actions. *)
Definition reports (c : change) (h : list deltaSchemaInfo) (u : Z) (blockIDs : list Z) : Prop :=
  StronglySorted Z.lt (PhyTblIDS c) /\
  (forall id, id ∈ PhyTblIDS c <-> id ∈ blockIDs /\ exists a, changed_since h u id a) /\
  length (PhyTblIDS c) = length (CausetActionTypes c) /\
  forall id acts, (id, acts) ∈ zip (PhyTblIDS c) (CausetActionTypes c) ->
    forall n, Z.testbit acts n = true <-> exists a, changed_since h u id a /\ Z.testbit a n = true.

Lemma sorted_lt_of_le (l : list Z) : StronglySorted Z.le l -> NoDup l -> StronglySorted Z.lt l.
Proof.
  induction 1 as [|x l S IH F]; intros ND; [constructor|]. apply NoDup_cons in ND as [N ND].
  constructor; [by apply IH|]. apply Forall_forall. intros y Hy. rewrite Forall_forall in F.
  pose proof (F y Hy). assert (x <> y) by (by intros ->). lia.
Qed.

Lemma elem_of_sorted_keys (m : gmap Z Z) id : id ∈ merge_sort Z.le (map_to_list m).*1 <-> is_Some (m !! id).
Proof.
  rewrite merge_sort_Permutation, list_elem_of_fmap. split.
  - intros ([i v] & -> & Hi%elem_of_map_to_list). by exists v.
  - intros [v Hv]. exists (id, v). split; [done|]. by apply elem_of_map_to_list.
Qed.

Lemma zip_fmap_elem {A B} (f : A -> B) (l : list A) x y : (x, y) ∈ zip l (f <$> l) -> y = f x /\ x ∈ l.
Proof.
  induction l as [|i l IH]; intros Hz; [by apply not_elem_of_nil in Hz|].
  cbn in Hz. apply elem_of_cons in Hz as [[= -> ->]|Hz]; [split; [done|left]|].
  apply IH in Hz as [-> ?]. split; [done|by right].
Qed.

Lemma marks_reports h u blockIDs m latest :
  marks blockIDs (changed_since h u) ∅ m ->
  let tblIds := merge_sort Z.le (map_to_list m).*1 in
  reports (MkChange tblIds ((fun id => default 0 (m !! id)) <$> tblIds) latest true) h u blockIDs.
Proof.
  intros A tblIds. unfold reports. cbn [PhyTblIDS CausetActionTypes]. split_and!.
  - apply sorted_lt_of_le; [apply StronglySorted_merge_sort; apply _|].
    unfold tblIds. rewrite merge_sort_Permutation. apply NoDup_fst_map_to_list.
  - intros id. unfold tblIds. rewrite elem_of_sorted_keys. destruct (A id) as [-> _].
    rewrite lookup_empty. split; [intros [[? [=]]|?]; done|by right].
  - by rewrite length_fmap.
  - intros id acts [-> Hl]%zip_fmap_elem n. apply elem_of_sorted_keys in Hl.
    destruct (A id) as [A1 A2]. rewrite A2, lookup_empty. cbn [default from_option]. rewrite Z.bits_0.
    apply A1 in Hl as [[? E]|[Hb _]]; [by rewrite lookup_empty in E|]. naive_solver.
Qed.

(** What the changed tables are when the queue reaches back. *)
Lemma isRelatedBlocksChanged_spec (s : validator) h u blockIDs :
  qinv (deltaSchemaInfos s) h ->
  exists c b, isRelatedBlocksChanged s u blockIDs = Some (c, b) /\
    ((~ covered (deltaSchemaInfos s) u /\ b = true /\ c = no_change) \/
     (covered (deltaSchemaInfos s) u /\ b = false /\ forall id a, id ∈ blockIDs -> ~ changed_since h u id a) \/
     (covered (deltaSchemaInfos s) u /\ b = true /\ Amendable c = true /\ PhyTblIDS c <> [] /\ reports c h u blockIDs)).
Proof.
  intros I. unfold isRelatedBlocksChanged. destruct (deltaSchemaInfos s) as [|d0 q0] eqn:Eq.
  { exists no_change, true. split; [done|]. left. split; [|done]. by intros (? & ? & ? & _). }
  rewrite <- Eq in *. assert (deltaSchemaInfos s <> []) as Nq by by rewrite Eq.
  rewrite findNewerDeltas_filter by apply (qi_sorted _ _ I).
  pose proof (all_newer _ u (qi_sorted _ _ I) Nq) as AN.
  case_bool_decide as D; [exists no_change, true; split; [done|]; left; by rewrite <- AN|].
  assert (covered (deltaSchemaInfos s) u) as Cv.
  { destruct (decide (Exists (fun d => schemaVersion d <= u) (take 1 (deltaSchemaInfos s)))) as [E|E].
    - rewrite Eq in E. cbn in E. apply Exists_cons in E as [E|E%Exists_nil]; [|done]. by exists d0, q0.
    - exfalso. apply D, AN. intros (d & q & E' & L). apply E. rewrite E'. cbn. by left. }
  destruct (mark_deltas_marks (filter (fun d => u < schemaVersion d) (deltaSchemaInfos s)) blockIDs ∅) as (m & -> & A).
  { apply Forall_forall. intros d [_ Hd]%list_elem_of_filter.
    pose proof (qi_aligned _ _ I) as F. rewrite Forall_forall in F. by apply F. }
  apply (marks_ext _ _ (changed_since h u)) in A.
  2: { intros id a. rewrite <- (qi_changes _ _ I u id a Cv). unfold changed_since.
       setoid_rewrite list_elem_of_filter. naive_solver. }
  cbn [mbind option_bind]. destruct (Nat.ltb_spec 0 (size m)) as [L|L]; eexists _, _; (split; [reflexivity|]); right.
  - right. do 3 (split; [done|]). split; [|by apply marks_reports]. cbn [PhyTblIDS].
    intros E. apply (f_equal length) in E. rewrite merge_sort_Permutation, length_fmap, length_map_to_list in E.
    simpl in E. lia.
  - left. split; [done|]. split; [done|]. intros id a Hid Hc. destruct (A id) as [A1 _].
    assert (is_Some (m !! id)) as [v Hv] by (apply A1; right; eauto).
    assert (size m = 0%nat) as Z0 by lia. apply map_size_empty_iff in Z0 as ->. by rewrite lookup_empty in Hv.
Qed.

(** ** Reachable validators *)

Lemma Update_qinv M maxCnt replicant ts oldVer currVer c (s : validator) h :
  qinv (deltaSchemaInfos s) h -> (length (deltaSchemaInfos s) <= Z.to_nat M)%nat -> 0 < maxCnt <= M ->
  aligned (delta_of currVer c) -> (currVer <> oldVer -> Forall (fun d => schemaVersion d < currVer) h) ->
  exists s', Update GetTimeFromTS maxCnt replicant ts oldVer currVer c s = Some s' /\
    qinv (deltaSchemaInfos s') (if isStarted s && negb (currVer =? oldVer) then h ++ [delta_of currVer c] else h) /\
    (length (deltaSchemaInfos s') <= Z.to_nat M)%nat.
Proof.
  intros I L [P B] A F. unfold Update. destruct (isStarted s); [|by exists s].
  cbn [negb andb]. destruct (Z.eqb_spec currVer oldVer) as [->|N]; cbn [negb mbind option_bind].
  - eexists. split; [done|]. done.
  - destruct (enqueue_qinv maxCnt _ h currVer c P I A (F N)) as (q' & -> & I' & L').
    eexists. split; [done|]. split; [done|]. cbn [deltaSchemaInfos]. lia.
Qed.

Lemma vreach_qinv M s h :
  vreach M s h -> qinv (deltaSchemaInfos s) h /\ (length (deltaSchemaInfos s) <= Z.to_nat M)%nat.
Proof.
  induction 1 as [|s h _ _|s h _ [I L]|s h _ _|maxCnt replicant ts oldVer currVer c s s' h _ [I L] B A F U];
    cbn [deltaSchemaInfos NewSchemaValidator Stop Restart Reset]; try (split; [apply qinv_nil|simpl; lia]).
  - done.
  - destruct (Update_qinv M maxCnt replicant ts oldVer currVer c s h I L B A F) as (s'' & U' & I' & L').
    rewrite U in U'. by injection U' as <-.
Qed.

Lemma Check_older (s : validator) txnTS u ids :
  isStarted s = true -> lease s <> 0 -> u < latestSchemaVer s -> ids <> [] ->
  Check GetTimeFromTS s txnTS u ids =
  ('(c, changed) ← isRelatedBlocksChanged s u ids;
   if (changed : bool) then
     if Amendable c then Some (Some (MkChange (PhyTblIDS c) (CausetActionTypes c) (latestSchemaReplicant s) true), ResultFail)
     else Some (None, ResultFail)
   else Some (None, ResultSucc)).
Proof.
  intros St Le Lt N. unfold Check. rewrite St. cbn [negb]. rewrite (proj2 (Z.eqb_neq _ _)) by done.
  rewrite (proj2 (Z.ltb_lt _ _)) by done. by rewrite bool_decide_eq_false_2.
Qed.

Lemma Check_succ_none (s : validator) txnTS u ids c :
  Check GetTimeFromTS s txnTS u ids = Some (c, ResultSucc) -> c = None.
Proof.
  unfold Check. destruct (negb _); [done|]. destruct (_ =? _); [by intros [= <-]|].
  destruct (_ <? _); [|destruct (_ <? _); by intros [= <-]]. destruct (bool_decide _); [done|].
  destruct (isRelatedBlocksChanged s u ids) as [[rc []]|]; cbn [mbind option_bind];
    [destruct (Amendable rc); done|by intros [= <-]|done].
Qed.

Lemma Check_pass M s h txnTS u ids c :
  vreach M s h -> lease s <> 0 -> u < latestSchemaVer s ->
  Check GetTimeFromTS s txnTS u ids = Some (c, ResultSucc) ->
  isStarted s = true /\ covered (deltaSchemaInfos s) u /\ (exists e, e ∈ h /\ schemaVersion e <= u) /\
  forall id a, id ∈ ids -> ~ changed_since h u id a.
Proof.
  intros R Le Lt E. destruct (isStarted s) eqn:St; [|by unfold Check in E; rewrite St in E].
  destruct (decide (ids = [])) as [->|N].
  { unfold Check in E. rewrite St in E. cbn [negb] in E. rewrite (proj2 (Z.eqb_neq _ _)) in E by done.
    by rewrite (proj2 (Z.ltb_lt _ _)) in E. }
  rewrite Check_older in E by done. destruct (vreach_qinv _ _ _ R) as [I _].
  destruct (isRelatedBlocksChanged_spec s h u ids I) as (c' & b & Eb & H). rewrite Eb in E. cbn [mbind option_bind] in E.
  destruct H as [(_ & -> & ->)|[(Cv & -> & H)|(_ & -> & Am & _)]]; [done| |by rewrite Am in E].
  injection E as <-. split; [done|]. split; [done|]. split; [|done].
  destruct Cv as (d & q & Eq & L). destruct (qi_versions _ _ I d) as (e & He & Ev); [rewrite Eq; left|].
  exists e. split; [done|]. lia.
Qed.

(** C26: Where the lease is not zero, a check that passes for a schema version
    older than the validator's latest is sound: the validator is running, its
    queue starts at that version or before it, with a version of the history,
    and no change of the whole history after that version touches a related
    table.  (With a lease of zero the check passes without looking.) *)
Theorem Check_sound M s h txnTS u ids c :
  vreach M s h -> lease s <> 0 -> u < latestSchemaVer s ->
  Check GetTimeFromTS s txnTS u ids = Some (c, ResultSucc) ->
  isStarted s = true /\ c = None /\ covered (deltaSchemaInfos s) u /\ (exists e, e ∈ h /\ schemaVersion e <= u) /\
  forall id a, id ∈ ids -> ~ changed_since h u id a.
Proof. intros R Le Lt E. pose proof (Check_succ_none _ _ _ _ _ E). by destruct (Check_pass M s h txnTS u ids c). Qed.

(** For an older schema version the check always answers, without a panic:
    when the queue reaches back to the version, it passes if no related table
    changed and else fails with the related tables that changed, in increasing
    order, each with the union of its actions over the whole history, and the
    latest replicant; when the queue does not reach back, it fails. *)
Theorem Check_changes M s h txnTS u ids :
  vreach M s h -> isStarted s = true -> lease s <> 0 -> u < latestSchemaVer s -> ids <> [] ->
  exists c r, Check GetTimeFromTS s txnTS u ids = Some (c, r) /\
    (covered (deltaSchemaInfos s) u ->
     (c = None /\ r = ResultSucc /\ forall id a, id ∈ ids -> ~ changed_since h u id a) \/
     (exists rc, c = Some rc /\ r = ResultFail /\ PhyTblIDS rc <> [] /\ reports rc h u ids /\
        LatestSchemaReplicant rc = latestSchemaReplicant s)) /\
    (~ covered (deltaSchemaInfos s) u -> c = None /\ r = ResultFail).
Proof.
  intros R St Le Lt N. destruct (vreach_qinv _ _ _ R) as [I _]. rewrite Check_older by done.
  destruct (isRelatedBlocksChanged_spec s h u ids I) as (c & b & -> & H). cbn [mbind option_bind].
  destruct H as [(Cv & -> & ->)|[(Cv & -> & H)|(Cv & -> & Am & Ne & Rp)]].
  - exists None, ResultFail. by repeat split.
  - exists None, ResultSucc. split; [done|]. split; [by left|done].
  - rewrite Am. eexists _, _. split; [done|]. split; [|done]. intros _. right. eexists. split; [done|].
    do 2 (split; [done|]). split; [exact Rp|done].
Qed.

(** The queue of changes never holds more than the largest limit in force,
    its versions increase strictly, and none of its changes is newer than the
    history. *)
Theorem queue_bounded M s h :
  vreach M s h ->
  (length (deltaSchemaInfos s) <= Z.to_nat M)%nat /\
  StronglySorted (fun d d' => schemaVersion d < schemaVersion d') (deltaSchemaInfos s) /\
  forall d, d ∈ deltaSchemaInfos s -> exists e, e ∈ h /\ schemaVersion e = schemaVersion d.
Proof. intros [I L]%vreach_qinv. destruct I. by split. Qed.

(** ** The checker *)

Lemma CheckBySchemaVer_loop_spec times i (check : nat -> option (option change * checkResult)) :
  (forall j, exists c r, check j = Some (c, r)) ->
  (exists j c r, (i <= j < i + times)%nat /\ check j = Some (c, r) /\ r <> ResultUnknown /\
     (forall k, (i <= k < j)%nat -> snd <$> check k = Some ResultUnknown) /\
     CheckBySchemaVer_loop times i check =
       Some (if decide (r = ResultSucc) then (None, None) else (c, Some ErrSchemaReplicantChanged))) \/
  ((forall k, (i <= k < i + times)%nat -> snd <$> check k = Some ResultUnknown) /\
   CheckBySchemaVer_loop times i check = Some (None, Some ErrSchemaReplicantExpired)).
Proof.
  intros T. revert i. induction times as [|times IH]; intros i; cbn [CheckBySchemaVer_loop].
  { right. split; [lia|done]. }
  destruct (T i) as (c & r & E). rewrite E. cbn [mbind option_bind].
  destruct r; [left; exists i, c, ResultSucc|left; exists i, c, ResultFail|].
  1-2: split_and!; [lia..|done|done|lia|done].
  destruct (IH (S i)) as [(j & c' & r' & B & E' & N & U & ->)|(U & ->)].
  - left. exists j, c', r'. split_and!; [lia..|done|done| |done]. intros k Hk.
    destruct (decide (k = i)) as [->|]; [by rewrite E|]. apply U. lia.
  - right. split; [|done]. intros k Hk. destruct (decide (k = i)) as [->|]; [by rewrite E|]. apply U. lia.
Qed.

Lemma Check_total M s h txnTS u ids :
  vreach M s h -> exists c r, Check GetTimeFromTS s txnTS u ids = Some (c, r).
Proof.
  intros [I _]%vreach_qinv. unfold Check.
  destruct (negb _); [by eexists _, _|]. destruct (_ =? _); [by eexists _, _|].
  destruct (_ <? _); [|destruct (_ <? _); by eexists _, _].
  destruct (bool_decide _); [by eexists _, _|].
  destruct (isRelatedBlocksChanged_spec s h u ids I) as (c & [] & -> & _); cbn [mbind option_bind];
    [destruct (Amendable c)|]; by eexists _, _.
Qed.

(** What a failed check says: the validator is running and knows a newer
    version; the related change is there, and complete, unless there are no
    related tables or the queue does not reach back. *)
Definition refused (s : validator) (h : list deltaSchemaInfo) (u : Z) (ids : list Z) (c : option change) : Prop :=
  isStarted s = true /\ lease s <> 0 /\ u < latestSchemaVer s /\
  match c with
  | None => ids = [] \/ ~ covered (deltaSchemaInfos s) u
  | Some rc => covered (deltaSchemaInfos s) u /\ PhyTblIDS rc <> [] /\ reports rc h u ids /\
      LatestSchemaReplicant rc = latestSchemaReplicant s
  end.

Lemma Check_refused M s h txnTS u ids c :
  vreach M s h -> Check GetTimeFromTS s txnTS u ids = Some (c, ResultFail) -> refused s h u ids c.
Proof.
  intros [I _]%vreach_qinv. unfold Check, refused. destruct (isStarted s); [|done]. cbn [negb].
  destruct (Z.eqb_spec (lease s) 0) as [|Le]; [done|].
  destruct (Z.ltb_spec u (latestSchemaVer s)) as [Lt|]; [|by destruct (_ <? _)]. case_bool_decide as En.
  { intros [= <-]. do 3 (split; [done|]). by left. }
  destruct (isRelatedBlocksChanged_spec s h u ids I) as (rc & b & -> & H). cbn [mbind option_bind].
  destruct H as [(Cv & -> & ->)|[(Cv & -> & H)|(Cv & -> & Am & Ne & Rp)]]; [|done|].
  - intros [= <-]. do 3 (split; [done|]). by right.
  - rewrite Am. intros [= <-]. do 3 (split; [done|]). split; [done|]. split; [done|]. by split; [exact Rp|].
Qed.

(** C27: The checker ends after at most the allowed number of checks, whatever
    the other operations do to the validator in between, and the first check
    that is decided decides: the transaction is let through when it passes, and
    then, where the lease is not zero and the schema of the transaction is older
    than the validator's, no related table changed in the history at that check;
    the schema is reported as changed when it fails, with the change that the
    check reports, which, where it reports one, names every related table that
    changed with all that was done to it; and the schema is reported as expired
    when no check is decided, and only then. *)
Theorem CheckBySchemaVer_decides M retryTimes chk vs hs txnTS u :
  (forall i, vreach M (vs i) (hs i)) ->
  let ids := relatedBlockIDs chk in
  let check i := Check GetTimeFromTS (vs i) txnTS u ids in
  let first i := (i < Z.to_nat retryTimes)%nat /\ forall k, (k < i)%nat -> snd <$> check k = Some ResultUnknown in
  exists c e, CheckBySchemaVer GetTimeFromTS retryTimes chk vs txnTS u = Some (c, e) /\
    match e with
    | None => c = None /\ exists i, first i /\ check i = Some (None, ResultSucc) /\
        (lease (vs i) <> 0 -> u < latestSchemaVer (vs i) ->
         covered (deltaSchemaInfos (vs i)) u /\ forall id a, id ∈ ids -> ~ changed_since (hs i) u id a)
    | Some ErrSchemaReplicantChanged =>
        exists i, first i /\ check i = Some (c, ResultFail) /\ refused (vs i) (hs i) u ids c
    | Some ErrSchemaReplicantExpired => c = None
    end /\
    (e = Some ErrSchemaReplicantExpired <->
     forall i, (i < Z.to_nat retryTimes)%nat -> snd <$> check i = Some ResultUnknown).
Proof.
  intros R ids check first. unfold CheckBySchemaVer.
  destruct (CheckBySchemaVer_loop_spec (Z.to_nat retryTimes) 0 check) as [(j & c & r & B & E & N & U & El)|(U & El)];
    [intros j; by apply (Check_total M _ (hs j))| |]; fold ids; fold check; rewrite El.
  - assert (F : first j) by (split; [lia|]; intros k Hk; apply U; lia).
    assert (X : ~ forall i, (i < Z.to_nat retryTimes)%nat -> snd <$> check i = Some ResultUnknown).
    { intros A. specialize (A j ltac:(lia)). rewrite E in A. by injection A as ->. }
    destruct r; [| |done]; eexists _, _; (split; [reflexivity|]); (split; [|by split]).
    + split; [done|]. exists j. split; [done|]. pose proof (Check_succ_none _ _ _ _ _ E) as ->. split; [done|].
      intros Le Lt. by destruct (Check_pass M (vs j) (hs j) txnTS u ids None) as (_ & ? & _ & ?).
    + exists j. split; [done|]. split; [done|]. by eapply Check_refused.
  - eexists _, _. split; [reflexivity|]. split; [done|]. split; [|done]. intros _ i Hi. apply U. lia.
Qed.
End schema_spec.
