(* ===== verification/InfoLoad.v ===== *)
(** * Loading the information schema (petri/petri.go)

    A petri keeps the current replicant in a handle and tells the schema
    validator of every new version.  It loads a version from the changes since
    the one it has, or in full when there are too many of them, one is missing
    or one cannot be applied.

    The store and its metadata, etcd and the repair mode are not in the
    repository; they are arguments of the calls. *)

From stdpp Require Import base gmap list option strings.
From Stdlib Require Import ZArith Lia.
From S2P Require Import Prelude External GoMonad GoHeap InfoSchema InfoBuilder Schema.

Local Open Scope Z_scope.

Section load.
Context `{InfoPkgs} `{!Growth} `{!Sorter} `{!DBCopies}.
Context (range_schemas : gmap string Z -> list (string * Z)).
Context (range_buckets : gset Z -> list Z).
(** The numbers of the changes, and [RepairInfo], which looks at the name of the
    database. *)
Context (action_code : CausetActionType -> Z).
Context (InRepairMode : bool) (CheckAndFetchRepairedBlock : DBInfo -> BlockInfo -> bool).
(** [oracle.GetTimeFromTS]. *)
Context (GetTimeFromTS : Z -> Z).
(** The databases of virtual tables, with their constructors. *)
Context (drivers : list (Z * (list SlabPredictor -> BlockInfo -> res Block))).

(** ** The state *)

(** Handles by address: a handle that was never set has no replicant. *)
Record petri : Type := MkPetri {
  pt_heap : heap;
  handles : gmap Z Z;
  infoHandle : Z;
  validator : schemaValidator Z;
}.

(** What the world answers during one load: the store, and etcd, which learns
    the version that this server uses. *)
Record world : Type := MkWorld {
  CurrentVersion : res Z;
  GetSnapshotMeta : Z -> res MetaSnapshot;
  UpdateSelfVersion : Z -> res unit;
  MaxDeltaSchemaCount : Z;
  isClose : bool;
}.

Definition on_heap {A} (m : M heap A) : M petri A :=
  zoom pt_heap (fun h p => MkPetri h (handles p) (infoHandle p) (validator p)) m.

Definition handle_Get (hd : Z) : M petri (option Z) := p ← get; ret (handles p !! hd).

Definition IsValid (hd : Z) : M petri bool := p ← get; ret (bool_decide (is_Some (handles p !! hd))).

Definition EmptyClone : M petri Z := on_heap new_loc.

(** The replicant that [b] makes is now the one of the handle. *)
Definition Build (hd b : Z) : M petri unit :=
  modify (fun p => MkPetri (pt_heap p) (<[hd := b]> (handles p)) (infoHandle p) (validator p)).

(** [do.SchemaReplicant()]. *)
Definition SchemaReplicant : M petri (option Z) := p ← get; handle_Get (infoHandle p).

Definition set_validator (v : schemaValidator Z) : M petri unit :=
  modify (fun p => MkPetri (pt_heap p) (handles p) (infoHandle p) v).

(** ** A full load *)

(** The tables of a database enter its list. *)
Fixpoint add_infos (di : Z) (blocks : list BlockInfo) : M heap unit :=
  match blocks with
  | [] => ret tt
  | tbl :: blocks =>
      if negb (bi_State tbl =? StatePublic) then add_infos di blocks
      else
        let tbl := ConvertCharsetDefCauslateToLowerCaseIfNeed tbl in
        d ← load_db di;
        if InRepairMode && CheckAndFetchRepairedBlock (set_Blocks nil_slice d) tbl then add_infos di blocks
        else append_info di tbl;; add_infos di blocks
  end.

(** [make([]*perceptron.BlockInfo, 0, n)]. *)
Definition make_infos (n : nat) : M heap slice :=
  loc ← new_loc;
  modify (with_infos <[loc := MkArray [] n]>);;
  ret (MkSlice loc 0).

Fixpoint fetchSchemasWithBlocks (schemas : list Z) (m : MetaSnapshot) : M heap unit :=
  match schemas with
  | [] => ret tt
  | di :: schemas =>
      d ← load_db di;
      if negb (db_State d =? StatePublic) then fetchSchemasWithBlocks schemas m
      else
        blocks ← lift_res (ListBlocks m (db_ID d));
        let blocks := if TreatOldVersionUTF8AsUTF8MB4 then ConvertOldVersionUTF8ToUTF8MB4IfNeed <$> blocks else blocks in
        s ← make_infos (length blocks);
        store_db di (set_Blocks s d);;
        add_infos di blocks;;
        fetchSchemasWithBlocks schemas m
  end.

Definition fetchSchemaConcurrency : nat := 1.

Fixpoint split_loop {A} (fuel groupSize i : nat) (schemas : list A) : list (list A) :=
  match fuel with
  | O => []
  | S fuel =>
      if (i <? length schemas)%nat then
        let end_ := if (length schemas <? i + groupSize)%nat then length schemas else (i + groupSize)%nat in
        drop i (take end_ schemas) :: split_loop fuel groupSize (i + groupSize) schemas
      else []
  end.

Definition splitForConcurrentFetch {A} (schemas : list A) : list (list A) :=
  let groupSize := ((length schemas + fetchSchemaConcurrency - 1) / fetchSchemaConcurrency)%nat in
  split_loop (S (length schemas)) groupSize 0 schemas.

(** One goroutine for each group; there is only one. *)
Fixpoint fetch_groups (groups : list (list Z)) (m : MetaSnapshot) : M heap unit :=
  match groups with
  | [] => ret tt
  | schemas :: groups => fetchSchemasWithBlocks schemas m;; fetch_groups groups m
  end.

(** The databases that the metadata gives are new objects. *)
Fixpoint new_dbs (dbs : list DBInfo) : M heap (list Z) :=
  match dbs with
  | [] => ret []
  | d :: dbs => di ← new_loc; store_db di (set_Blocks nil_slice d);; l ← new_dbs dbs; ret (di :: l)
  end.

Definition fetchAllSchemasWithBlocks (m : MetaSnapshot) : M heap (list Z) :=
  dbs ← lift_res (ListDatabases m);
  allSchemas ← new_dbs dbs;
  fetch_groups (splitForConcurrentFetch allSchemas) m;;
  ret allSchemas.

(** ** The changes since a version *)

Definition initialVersion : Z := 0.
Definition maxNumberOfDiffsToLoad : Z := 100.

Definition isTooOldSchema (usedVersion newVersion : Z) : bool :=
  (usedVersion =? initialVersion) || (maxNumberOfDiffsToLoad <? newVersion - usedVersion).

Definition canSkipSchemaCheckerDBS (tp : CausetActionType) : bool :=
  match tp with
  | CausetActionUFIDelateTiFlashReplicaStatus | CausetActionSetTiFlashReplica => true
  | _ => false
  end.

(** The next [n] changes after a version; nothing when one is missing. *)
Fixpoint load_diffs (m : MetaSnapshot) (usedVersion : Z) (n : nat) : res (option (list SchemaDiff)) :=
  match n with
  | O => Ok (Some [])
  | S n =>
      diff ← GetSchemaDiff m (usedVersion + 1);
      match diff with
      | None => Ok None
      | Some diff => rest ← load_diffs m (usedVersion + 1) n; Ok (rest ≫= fun diffs => Some (diff :: diffs))
      end
  end.

(** [uint64(1<<diff.Type)]. *)
Definition action_bit (tp : CausetActionType) : Z := Z.shiftl 1 (action_code tp) mod u64_mod.

Fixpoint apply_diffs (b : Z) (m : MetaSnapshot) (diffs : list SchemaDiff) (phyTblIDs actions : list Z)
    : M heap (list Z * list Z) :=
  match diffs with
  | [] => ret (phyTblIDs, actions)
  | diff :: diffs =>
      IDs ← ApplyDiff range_schemas range_buckets b m diff;
      if canSkipSchemaCheckerDBS (Type_ diff) then apply_diffs b m diffs phyTblIDs actions
      else apply_diffs b m diffs (phyTblIDs ++ IDs) (actions ++ replicate (length IDs) (action_bit (Type_ diff)))
  end.

(** [None] when the version cannot be loaded by changes. *)
Definition tryLoadSchemaDiffs (m : MetaSnapshot) (usedVersion newVersion : Z)
    : M petri (option (RelatedSchemaChange Z)) :=
  if isTooOldSchema usedVersion newVersion then ret None
  else
    diffs ← lift_res (load_diffs m usedVersion (Z.to_nat (newVersion - usedVersion)));
    match diffs with
    | None => ret None
    | Some diffs =>
        b ← on_heap NewBuilder;
        p ← get;
        old ← handle_Get (infoHandle p);
        old ← lift_opt old;
        on_heap (InitWithOldSchemaReplicant b old);;
        '(phyTblIDs, actions) ← on_heap (apply_diffs b m diffs [] []);
        Build (infoHandle p) b;;
        ret (Some (MkChange phyTblIDs actions None false))
    end.

(** ** Loads *)

(** The part of a load before the version goes to etcd. *)
Definition load_version (handle : Z) (m : MetaSnapshot) (usedSchemaVersion neededSchemaVersion : Z)
    : M petri (option (RelatedSchemaChange Z) * bool) :=
  r ← catch (tryLoadSchemaDiffs m usedSchemaVersion neededSchemaVersion);
  match r with
  | Ok (Some relatedChanges) => ret (Some relatedChanges, false)
  | _ =>
      schemas ← on_heap (fetchAllSchemasWithBlocks m);
      newISBuilder ← on_heap NewBuilder;
      on_heap (InitWithDBInfos newISBuilder drivers schemas neededSchemaVersion);;
      Build handle newISBuilder;;
      ret (None, true)
  end.

(** The needed version, the changes, and whether the load was full.  A load
    that fails after the replicant is in the handle, because etcd fails, leaves
    the replicant there. *)
Definition loadSchemaReplicant (w : world) (handle usedSchemaVersion startTS : Z)
    : M petri (Z * option (RelatedSchemaChange Z) * bool) :=
  m ← lift_res (GetSnapshotMeta w startTS);
  neededSchemaVersion ← lift_res (GetSchemaVersion m);
  if negb (usedSchemaVersion =? 0) && (usedSchemaVersion =? neededSchemaVersion)
  then ret (neededSchemaVersion, None, false)
  else
    '(relatedChanges, fullLoad) ← load_version handle m usedSchemaVersion neededSchemaVersion;
    cur ← SchemaReplicant;
    cur ← lift_opt cur;
    r ← on_heap (load_is cur);
    (if neededSchemaVersion <? schemaMetaVersion r then ret tt
     else lift_res (UpdateSelfVersion w neededSchemaVersion));;
    ret (neededSchemaVersion, relatedChanges, fullLoad).

Definition GetSnapshotSchemaReplicant (w : world) (snapshotTS : Z) : M petri (option Z) :=
  snapHandle ← EmptyClone;
  loadSchemaReplicant w snapHandle initialVersion snapshotTS;;
  handle_Get snapHandle.

Definition Reload (w : world) : M petri unit :=
  ver ← lift_res (CurrentVersion w);
  p ← get;
  old ← handle_Get (infoHandle p);
  schemaVersion ← match old with Some l => r ← on_heap (load_is l); ret (schemaMetaVersion r) | None => ret 0 end;
  '(neededSchemaVersion, relatedChanges, fullLoad) ← loadSchemaReplicant w (infoHandle p) schemaVersion ver;
  p ← get;
  cur ← SchemaReplicant;
  cur ← lift_opt cur;
  let v := if (fullLoad : bool) then Reset (validator p) else validator p in
  v ← lift_opt (Update GetTimeFromTS (MaxDeltaSchemaCount w) cur ver schemaVersion neededSchemaVersion relatedChanges v);
  set_validator v.

(** ** The loop *)

(** Reloads until one succeeds, [false], or the petri is closed, [true]; one
    world for each attempt. *)
Fixpoint mustReload (ws : list world) : M petri bool :=
  match ws with
  | [] => lift_out NoFuel
  | w :: ws =>
      r ← catch (Reload w);
      match r with
      | Ok _ => ret false
      | Err _ => if isClose w then ret true else mustReload ws
      end
  end.

(** The cases of [loadSchemaInLoop]: a tick or a version from etcd, and the end
    of the session with etcd, with whether it could be restarted. *)
Inductive loopEvent : Type :=
| OnReload (w : world)
| OnSyncerDone (restarted : bool) (ws : list world).

(** [true] when the loop ends. *)
Definition loop_step (ev : loopEvent) : M petri bool :=
  match ev with
  | OnReload w => catch (Reload w);; ret false
  | OnSyncerDone restarted ws =>
      p ← get;
      set_validator (Stop (validator p));;
      if negb restarted then ret false
      else
        exitLoop ← mustReload ws;
        if (exitLoop : bool) then ret true
        else
          p ← get;
          set_validator (Restart (validator p));;
          ret false
  end.
End load.
