(* ===== verification/InfoReload.v ===== *)
(** * What a load of the information schema gives

    A full load says what the metadata lists, a load of changes what they make
    of the old replicant, every published replicant stays as it is, and the
    validator hears of every version. *)

From stdpp Require Import base gmap list option strings.
From Stdlib Require Import ZArith Lia Sorted.
From S2P Require Import Prelude External GoMonad GoHeap InfoSchema InfoBuilder InfoBuckets InfoView InfoOps InfoTables InfoDiff InfoSpec InfoInit Schema InfoLoad.

Local Open Scope Z_scope.

Lemma split_one {A} (l : list A) : l <> [] -> splitForConcurrentFetch l = [l].
Proof.
  intros N. unfold splitForConcurrentFetch, fetchSchemaConcurrency.
  assert (L : (0 < length l)%nat) by (destruct l; [done|cbn; lia]).
  replace ((length l + 1 - 1) / 1)%nat with (length l) by (rewrite Nat.div_1_r; lia).
  cbn [split_loop]. rewrite (proj2 (Nat.ltb_lt _ _) L), Nat.add_0_l, Nat.ltb_irrefl, drop_0, firstn_all.
  f_equal. destruct (length l) as [|n] eqn:E; [lia|]. cbn [split_loop]. by rewrite E, Nat.ltb_irrefl.
Qed.

(** ** What is fetched *)

Section fetch.
Context `{InfoPkgs} `{!Growth} `{GL : !GrowthLaws}.
Context (InRepairMode : bool) (CheckAndFetchRepairedBlock : DBInfo -> BlockInfo -> bool).

(** The tables of a database that are loaded. *)
Definition kept (d : DBInfo) (blocks : list BlockInfo) : list BlockInfo :=
  omap (fun tbl =>
    if negb (bi_State tbl =? StatePublic) then None
    else let tbl := ConvertCharsetDefCauslateToLowerCaseIfNeed tbl in
      if InRepairMode && CheckAndFetchRepairedBlock d tbl then None else Some tbl) blocks.

Definition fetch_src (m : MetaSnapshot) (d : DBInfo) : res dbsrc :=
  if negb (db_State d =? StatePublic) then Ok (MkSrc (db_head d) [] BlockFromMeta)
  else
    blocks ← ListBlocks m (db_ID d);
    Ok (MkSrc (db_head d)
      (kept (db_head d) (if TreatOldVersionUTF8AsUTF8MB4 then ConvertOldVersionUTF8ToUTF8MB4IfNeed <$> blocks else blocks))
      BlockFromMeta).

Fixpoint fetch_srcs (m : MetaSnapshot) (dbs : list DBInfo) : res (list dbsrc) :=
  match dbs with
  | [] => Ok []
  | d :: dbs => o ← fetch_src m d; os ← fetch_srcs m dbs; Ok (o :: os)
  end.

(** The databases [ls] are changed, and new lists of tables are made. *)
Record fetched (ls : list Z) (h h' : heap) : Prop := {
  fe_next : hp_next h <= hp_next h';
  fe_is : hp_is h' = hp_is h;
  fe_sb : hp_sb h' = hp_sb h;
  fe_blocks : hp_blocks h' = hp_blocks h;
  fe_db l : l ∉ ls -> hp_db h' !! l = hp_db h !! l;
  fe_infos a : a < hp_next h -> hp_infos h' !! a = hp_infos h !! a;
}.

Lemma fetched_refl ls h : fetched ls h h.
Proof. by split. Qed.

Lemma fetched_trans ls1 ls2 ls h1 h2 h3 : fetched ls1 h1 h2 -> fetched ls2 h2 h3 -> ls1 ⊆ ls -> ls2 ⊆ ls -> fetched ls h1 h3.
Proof.
  intros [A1 A2 A3 A4 A5 A6] [B1 B2 B3 B4 B5 B6] S1 S2. split; [lia|congruence..| |].
  - intros l N. rewrite B5, A5; [done|by intros ?%S1|by intros ?%S2].
  - intros a La. rewrite B6, A6 by lia. done.
Qed.

(** A database object, as it is while it is fetched. *)
Record fetching (h : heap) (n l : Z) (d : DBInfo) (infos : list BlockInfo) : Prop := {
  fg_db : hp_db h !! l = Some d;
  fg_ok : sl_ok (hp_infos h) (db_Blocks d);
  fg_cap : (sl_len (db_Blocks d) <= sl_cap (hp_infos h) (db_Blocks d))%nat;
  fg_infos : sl_read (hp_infos h) (db_Blocks d) = infos;
  fg_arr : sl_arr (db_Blocks d) = 0 \/ n <= sl_arr (db_Blocks d) < hp_next h;
}.

Lemma fetching_kept ls h h' n l d infos : fetching h n l d infos -> fetched ls h h' -> l ∉ ls -> hp_infos h !! 0 = None ->
  0 < n <= hp_next h -> fetching h' n l d infos.
Proof.
  intros [A B C D E] Fe N Z0 Pn. assert (Ei : hp_infos h' !! sl_arr (db_Blocks d) = hp_infos h !! sl_arr (db_Blocks d))
    by (apply (fe_infos _ _ _ Fe); lia).
  destruct (sl_ext_all _ _ _ Ei) as (R & Cp & O). pose proof (fe_next _ _ _ Fe).
  split; [by rewrite (fe_db _ _ _ Fe)|by apply O|by rewrite Cp|by rewrite R|lia].
Qed.

Lemma add_infos_run n l blocks : forall h d infos, fetching h n l d infos -> n <= sl_arr (db_Blocks d) -> 0 < n <= hp_next h ->
  exists h' d', add_infos InRepairMode CheckAndFetchRepairedBlock l blocks h = (Ret tt, h') /\ db_head d' = db_head d /\
    fetching h' n l d' (infos ++ kept (db_head d) blocks) /\
    hp_is h' = hp_is h /\ hp_sb h' = hp_sb h /\ hp_blocks h' = hp_blocks h /\ hp_next h <= hp_next h' /\
    (forall l', l' <> l -> hp_db h' !! l' = hp_db h !! l') /\ (forall a, a < n -> hp_infos h' !! a = hp_infos h !! a).
Proof using GL.
  induction blocks as [|tbl blocks IH]; intros h d infos Fg Own Pn.
  { exists h, d. rewrite app_nil_r. split_and!; done. }
  cbn [add_infos kept omap list_omap]. change (list_omap _ ?l) with (omap (M := list) (fun tbl =>
    if negb (bi_State tbl =? StatePublic) then None
    else let tbl := ConvertCharsetDefCauslateToLowerCaseIfNeed tbl in
      if InRepairMode && CheckAndFetchRepairedBlock (db_head d) tbl then None else Some tbl) l). fold (kept (db_head d) blocks).
  destruct (bi_State tbl =? StatePublic); cbn [negb]; [|by apply IH].
  destruct Fg as [A B C D E]. erewrite bind_Ret by by apply load_db_run. change (set_Blocks nil_slice d) with (db_head d).
  set (tbl' := ConvertCharsetDefCauslateToLowerCaseIfNeed tbl). destruct (_ && _); [by apply IH|].
  destruct (add_info_run h l d tbl' A B ltac:(lia) C) as (d1 & h1 & [Er Eh Nx Ei Es Eb Ed Ar Fi Ok Cp Rd]).
  rewrite D in Rd. destruct (IH h1 d1 (infos ++ [tbl'])) as (h2 & d2 & E2 & Hd2 & Fg2 & I2 & S2 & B2 & N2 & D2 & F2).
  { split; [by rewrite Ed, lookup_insert_eq|done..|]. lia. }
  1-2: lia.
  rewrite Eh in Hd2, Fg2. rewrite <- app_assoc in Fg2. exists h2, d2. split; [by erewrite bind_Ret by exact Er|].
  split; [done|]. split; [exact Fg2|]. split_and!; try congruence; try lia.
  - intros l' N. rewrite D2, Ed, lookup_insert_ne by done. done.
  - intros a La. rewrite F2, Fi by lia. done.
Qed.

(** One database, and then the others. *)
Lemma fetch_run m : forall dbs ls h, Forall2 (fun l d => hp_db h !! l = Some (db_head d)) ls dbs -> NoDup ls -> heap_ok h ->
  match fetch_srcs m dbs with
  | Ok os => exists h' xs, fetchSchemasWithBlocks InRepairMode CheckAndFetchRepairedBlock ls m h = (Ret tt, h') /\
      fetched ls h h' /\ xs.*1.*1 = ls /\ xs.*2 = os /\
      Forall (fun x : loaded => fetching h' (hp_next h) x.1.1 x.1.2 (src_infos x.2) /\ db_head x.1.2 = db_head (src_db x.2)) xs /\
      ForallOrdPairs (fun x y : loaded => x.1.1 <> y.1.1 /\
        (sl_arr (db_Blocks x.1.2) <> sl_arr (db_Blocks y.1.2) \/ sl_arr (db_Blocks x.1.2) = 0)) xs
  | Err e => exists h', fetchSchemasWithBlocks InRepairMode CheckAndFetchRepairedBlock ls m h = (Fail e, h') /\ fetched ls h h'
  end.
Proof using GL.
  induction dbs as [|d dbs IH]; intros ls h Fo Nd Hok.
  { apply Forall2_nil_inv_r in Fo as ->. exists h, []. split; [done|]. split; [apply fetched_refl|]. do 2 (split; [done|]). by split; constructor. }
  apply Forall2_cons_inv_r in Fo as (l & ls' & El & Fo & ->). apply NoDup_cons in Nd as [Nl Nd].
  cbn [fetch_srcs]. destruct Hok as (Pn & Zb & Zi).
  (* the database itself *)
  assert (One : match fetch_src m d with
    | Ok o => exists h1 d1, fetching h1 (hp_next h) l d1 (src_infos o) /\ db_head d1 = db_head (src_db o) /\ fetched [l] h h1 /\
        (fetchSchemasWithBlocks InRepairMode CheckAndFetchRepairedBlock (l :: ls') m h =
         fetchSchemasWithBlocks InRepairMode CheckAndFetchRepairedBlock ls' m h1)
    | Err e => fetchSchemasWithBlocks InRepairMode CheckAndFetchRepairedBlock (l :: ls') m h = (Fail e, h)
    end).
  { unfold fetch_src. cbn [fetchSchemasWithBlocks]. erewrite bind_Ret by by apply load_db_run. cbn [db_head set_Blocks db_State db_ID].
    destruct (db_State d =? StatePublic); cbn [negb].
    2:{ exists h, (db_head d). split; [|split; [done|split; [apply fetched_refl|done]]].
        split; try done; unfold sl_ok, db_head; cbn; [lia|lia|by left]. }
    destruct (ListBlocks m (db_ID d)) as [blocks|e]; rewrite ?Ok_bind, ?Err_bind; [|by erewrite bind_Fail by done].
    erewrite bind_Ret by done. set (blocks' := if TreatOldVersionUTF8AsUTF8MB4 then _ else _).
    set (s := MkSlice (hp_next h) 0). set (d1 := set_Blocks s (db_head d)).
    set (h1 := MkHeap (hp_next h + 1) (hp_is h) (hp_sb h) (<[l := d1]> (hp_db h)) (hp_blocks h)
      (<[hp_next h := MkArray [] (length blocks')]> (hp_infos h))).
    destruct (add_infos_run (hp_next h) l blocks' h1 d1 []) as (h2 & d2 & E2 & Hd2 & Fg2 & I2 & S2 & B2 & N2 & D2 & F2).
    { split; cbn; [by rewrite lookup_insert_eq|unfold sl_ok; cbn; lia|lia|done|lia]. }
    1-2: cbn; lia.
    exists h2, d2. split; [exact Fg2|]. split; [by rewrite Hd2|]. split.
    - cbn in N2. split; [lia|done..| |].
      + intros l' N'. rewrite D2 by set_solver. cbn. rewrite lookup_insert_ne; [done|set_solver].
      + intros a La. rewrite F2 by done. cbn. rewrite lookup_insert_ne; [done|lia].
    - assert (Mk : make_infos (length blocks') h = (Ret s, MkHeap (hp_next h + 1) (hp_is h) (hp_sb h) (hp_db h) (hp_blocks h)
        (<[hp_next h := MkArray [] (length blocks')]> (hp_infos h)))) by reflexivity.
      erewrite bind_Ret by exact Mk. erewrite bind_Ret by (unfold store_db; reflexivity).
      erewrite bind_Ret by exact E2. done. }
  destruct (fetch_src m d) as [o|e]; rewrite ?Ok_bind, ?Err_bind; [|exists h; split; [done|apply fetched_refl]].
  destruct One as (h1 & d1 & Fg1 & Hd1 & Fe1 & ->). pose proof (fe_next _ _ _ Fe1) as N1.
  assert (Zi1 : hp_infos h1 !! 0 = None) by by rewrite (fe_infos _ _ _ Fe1).
  assert (Fo1 : Forall2 (fun l d => hp_db h1 !! l = Some (db_head d)) ls' dbs).
  { apply Forall2_same_length_lookup. split; [by eapply Forall2_length|]. intros i l2 d2 E1 E2.
    rewrite (fe_db _ _ _ Fe1); [exact (Forall2_lookup_lr _ _ _ _ _ _ Fo E1 E2)|]. intros ->%list_elem_of_singleton.
    apply Nl. by eapply list_elem_of_lookup_2. }
  assert (Hok1 : heap_ok h1) by (split; [lia|split; [by rewrite (fe_blocks _ _ _ Fe1)|done]]).
  specialize (IH ls' h1 Fo1 Nd Hok1). destruct (fetch_srcs m dbs) as [os|e]; rewrite ?Ok_bind, ?Err_bind.
  2:{ destruct IH as (h2 & E2 & Fe2). exists h2. split; [done|]. eapply fetched_trans; [done|done|set_solver..]. }
  destruct IH as (h2 & xs & E2 & Fe2 & X1 & X2 & Fx & Px). exists h2, (((l, d1), o) :: xs).
  split; [done|]. split; [eapply fetched_trans; [done|done|set_solver..]|].
  split; [by rewrite !fmap_cons, X1|]. split; [by rewrite fmap_cons, X2|].
  assert (In : forall x, x ∈ xs -> x.1.1 ∈ ls').
  { intros x Hx. rewrite <- X1. by do 2 apply list_elem_of_fmap_2. }
  rewrite Forall_forall in Fx. split.
  - apply Forall_cons. split; [split; [|done]|].
    + cbn [fst snd]. eapply fetching_kept; [exact Fg1|exact Fe2|done|done|lia].
    + apply Forall_forall. intros x Hx. destruct (Fx x Hx) as [[A B C D E] Hd]. split; [|done]. split; try done. lia.
  - constructor; [|done]. apply Forall_forall. intros x Hx. destruct (Fx x Hx) as [[A B C D E] Hd]. cbn [fst snd]. split.
    + intros ->. by apply Nl, In.
    + destruct (fg_arr _ _ _ _ _ Fg1); lia.
Qed.

Lemma new_dbs_run dbs : forall h, exists ls, new_dbs dbs h =
    (Ret ls, MkHeap (hp_next h + Z.of_nat (length dbs)) (hp_is h) (hp_sb h)
       (hp_db (new_dbs dbs h).2) (hp_blocks h) (hp_infos h)) /\
  Forall2 (fun l d => hp_db (new_dbs dbs h).2 !! l = Some (db_head d)) ls dbs /\ NoDup ls /\
  (forall l, l ∈ ls -> hp_next h <= l < hp_next h + Z.of_nat (length dbs)) /\
  forall l, l ∉ ls -> hp_db (new_dbs dbs h).2 !! l = hp_db h !! l.
Proof.
  induction dbs as [|d dbs IH]; intros h.
  { exists []. cbn. rewrite Z.add_0_r. split; [by destruct h|]. do 2 (split; [constructor|]). split; [by intros l []%elem_of_nil|done]. }
  set (h1 := MkHeap (hp_next h + 1) (hp_is h) (hp_sb h) (<[hp_next h := db_head d]> (hp_db h)) (hp_blocks h) (hp_infos h)).
  assert (Run : new_dbs (d :: dbs) h = (l ← new_dbs dbs; ret (hp_next h :: l)) h1) by reflexivity.
  destruct (IH h1) as (ls & E & Fo & Nd & Bd & Oth). set (D := hp_db (new_dbs dbs h1).2) in *.
  exists (hp_next h :: ls). assert (E' : new_dbs (d :: dbs) h = (Ret (hp_next h :: ls),
    MkHeap (hp_next h + Z.of_nat (length (d :: dbs))) (hp_is h) (hp_sb h) D (hp_blocks h) (hp_infos h))).
  { rewrite Run. erewrite bind_Ret by exact E. unfold ret, mret, M_ret. cbn [hp_next hp_is hp_sb hp_blocks hp_infos h1].
    do 2 f_equal. cbn [length]. lia. }
  rewrite E'. cbn [snd hp_db]. split; [done|]. cbn [hp_next hp_db h1] in *.
  assert (Nl : hp_next h ∉ ls) by (intros I%Bd; lia). split; [constructor; [by rewrite Oth, lookup_insert_eq|done]|].
  split; [by constructor|]. split.
  - intros l [->|I]%elem_of_cons; cbn [length]; [lia|]. specialize (Bd l I). lia.
  - intros l [N1 N2]%not_elem_of_cons. rewrite Oth by done. by rewrite lookup_insert_ne by done.
Qed.

Definition load_srcs (m : MetaSnapshot) : res (list dbsrc) := dbs ← ListDatabases m; fetch_srcs m dbs.

(** All databases, as objects of their own. *)
Lemma fetchAll_run m h b : heap_ok h ->
  match load_srcs m with
  | Ok os => exists h' xs, fetchAllSchemasWithBlocks InRepairMode CheckAndFetchRepairedBlock m h = (Ret (xs.*1.*1), h') /\
      frame (hp_next h) b h h' /\ xs.*2 = os /\
      Forall (fun x : loaded => obj_at h' x.1.1 x.1.2 x.2 /\ hp_next h <= x.1.1 /\
        (sl_arr (db_Blocks x.1.2) = 0 \/ hp_next h <= sl_arr (db_Blocks x.1.2))) xs /\
      ForallOrdPairs (fun x y : loaded => x.1.1 <> y.1.1 /\
        (sl_arr (db_Blocks x.1.2) <> sl_arr (db_Blocks y.1.2) \/ sl_arr (db_Blocks x.1.2) = 0)) xs
  | Err e => exists h', fetchAllSchemasWithBlocks InRepairMode CheckAndFetchRepairedBlock m h = (Fail e, h') /\ frame (hp_next h) b h h'
  end.
Proof using GL.
  intros (Pn & Zb & Zi). unfold load_srcs, fetchAllSchemasWithBlocks.
  destruct (ListDatabases m) as [dbs|e]; rewrite ?Ok_bind, ?Err_bind; [|exists h; split; [by erewrite bind_Fail by done|reflexivity]].
  erewrite bind_Ret by done. destruct (new_dbs_run dbs h) as (ls & E & Fo & Nd & Bd & Oth).
  set (D := hp_db (new_dbs dbs h).2) in *. set (h1 := MkHeap _ _ _ _ _ _) in E. erewrite bind_Ret by exact E.
  assert (Run : fetch_groups InRepairMode CheckAndFetchRepairedBlock (splitForConcurrentFetch ls) m h1 =
    fetchSchemasWithBlocks InRepairMode CheckAndFetchRepairedBlock ls m h1).
  { destruct (decide (ls = [])) as [->|N]; [done|]. rewrite split_one by done. cbn [fetch_groups].
    unfold mbind, M_bind. by destruct (fetchSchemasWithBlocks _ _ ls m h1) as [[[]| | |] ?]. }
  pose proof (fetch_run m dbs ls h1 Fo Nd ltac:(split; [cbn; lia|by split])) as R.
  assert (Fr : forall h2, fetched ls h1 h2 -> frame (hp_next h) b h h2).
  { intros h2 [A1 A2 A3 A4 A5 A6]. cbn in *. split; [lia|by rewrite A2|by rewrite A3|..|by rewrite A4|].
    - intros l Hl. assert (l ∉ ls) by (intros I%Bd; lia). by rewrite A5, Oth.
    - intros a Ha. apply A6. lia. }
  destruct (fetch_srcs m dbs) as [os|e].
  - destruct R as (h2 & xs & E2 & Fe2 & X1 & X2 & Fx & Px). rewrite <- Run in E2. exists h2, xs.
    split; [by erewrite bind_Ret by exact E2; rewrite X1|]. split; [by apply Fr|]. split; [done|]. split; [|done].
    apply Forall_forall. intros x Hx. rewrite Forall_forall in Fx. destruct (Fx x Hx) as [[A B C D' E'] Hd].
    assert (I : x.1.1 ∈ ls) by (rewrite <- X1; by do 2 apply list_elem_of_fmap_2). pose proof (Bd _ I).
    pose proof (fe_next _ _ _ Fe2) as Nx. cbn in Nx, E'. split; [|split; [lia|lia]]. split; try done. lia.
  - destruct R as (h2 & E2 & Fe2). rewrite <- Run in E2. exists h2. split; [by erewrite bind_Fail by exact E2|by apply Fr].
Qed.

(** ** A full load *)

Context `{!Sorter} `{SL : !SorterLaws}.

Definition v_load (m : MetaSnapshot) (ver : Z) (ds : list dbsrc) : res view :=
  os ← load_srcs m; v_add_dbs (os ++ ds) (empty_view ver).

Definition load_full (drivers : list (Z * (list SlabPredictor -> BlockInfo -> res Block))) (m : MetaSnapshot) (ver : Z) : M heap Z :=
  schemas ← fetchAllSchemasWithBlocks InRepairMode CheckAndFetchRepairedBlock m; full_load drivers schemas ver.

Lemma load_srcs_ctor m os : load_srcs m = Ok os -> Forall (fun o => src_ctor o = BlockFromMeta) os.
Proof.
  unfold load_srcs. destruct (ListDatabases m) as [dbs|]; rewrite ?Ok_bind, ?Err_bind; [|done].
  revert os. induction dbs as [|d dbs IH]; intros os; cbn [fetch_srcs]; [by intros [= <-]|].
  destruct (fetch_src m d) as [o|] eqn:Eo; rewrite ?Ok_bind, ?Err_bind; [|done].
  destruct (fetch_srcs m dbs) as [os'|]; rewrite ?Ok_bind, ?Err_bind; [|done]. intros [= <-]. constructor; [|by apply IH].
  unfold fetch_src in Eo. destruct (negb _); [by injection Eo as <-|].
  destruct (ListBlocks _ _); rewrite ?Ok_bind, ?Err_bind in Eo; [by injection Eo as <-|done].
Qed.

(** The databases of virtual tables are in the heap. *)
Record drivers_at (h : heap) (drivers : list (Z * (list SlabPredictor -> BlockInfo -> res Block))) (ds : list loaded) : Prop := {
  dv_list : drivers = (fun x : loaded => (x.1.1, src_ctor x.2)) <$> ds;
  dv_objs : Forall (fun x : loaded => obj_at h x.1.1 x.1.2 x.2) ds;
  dv_apart : ForallOrdPairs apart_objs ds;
}.

Lemma FOP_app {A} (R : A -> A -> Prop) l1 l2 : ForallOrdPairs R l1 -> ForallOrdPairs R l2 ->
  (forall x y, x ∈ l1 -> y ∈ l2 -> R x y) -> ForallOrdPairs R (l1 ++ l2).
Proof.
  induction 1 as [|x l1 Fx P1 IH]; intros P2 C; [done|]. cbn. constructor.
  - apply Forall_app. split; [done|]. apply Forall_forall. intros y Hy. apply C; [left|done].
  - apply IH; [done|]. intros a y Ha Hy. apply C; [by right|done].
Qed.

Lemma apart_keys (xs : list loaded) :
  ForallOrdPairs (fun x y : loaded => x.1.1 <> y.1.1 /\
    (sl_arr (db_Blocks x.1.2) <> sl_arr (db_Blocks y.1.2) \/ sl_arr (db_Blocks x.1.2) = 0)) xs ->
  NoDup (src_key <$> xs.*2) -> ForallOrdPairs apart_objs xs.
Proof.
  induction 1 as [|x l Fx P1 IH]; intros Nd; constructor; rewrite !fmap_cons in Nd; apply NoDup_cons in Nd as [N Nd]; [|by apply IH].
  rewrite Forall_forall in Fx |- *. intros y Hy. destruct (Fx y Hy). split; [done|]. split; [done|]. intros E. apply N. rewrite E.
  by do 2 apply list_elem_of_fmap_2.
Qed.

Lemma obj_frame n b h h' l d o : obj_at h l d o -> frame (hp_next h) b h h' -> n = hp_next h -> obj_at h' l d o.
Proof.
  intros [A B C D E [G1 G2]] Fr _. assert (Ei : hp_infos h' !! sl_arr (db_Blocks d) = hp_infos h !! sl_arr (db_Blocks d))
    by (apply (fr_infos _ _ _ _ Fr); lia).
  destruct (sl_ext_all _ _ _ Ei) as (R & Cp & O). pose proof (fr_next _ _ _ _ Fr).
  split; [by rewrite (fr_db _ _ _ _ Fr)|done|by apply O|by rewrite Cp|by rewrite R|lia].
Qed.

Lemma load_full_run m ver h drivers ds : heap_ok h -> drivers_at h drivers ds ->
  (forall os, load_srcs m = Ok os -> srcs_ok (os ++ ds.*2)) ->
  match v_load m ver ds.*2 with
  | Ok v => exists b h', load_full drivers m ver h = (Ret b, h') /\ says h' b v /\ hp_next h <= b /\ frame (hp_next h) b h h'
  | Err e => exists b h', load_full drivers m ver h = (Fail e, h') /\ hp_next h <= b /\ frame (hp_next h) b h h'
  end.
Proof using GL SL.
  intros Hok [El Ob Ap] So. unfold v_load, load_full. pose proof (fun b => fetchAll_run m h b Hok) as Fe.
  destruct (load_srcs m) as [os|e] eqn:Eo; rewrite ?Ok_bind, ?Err_bind.
  2:{ destruct (Fe (hp_next h)) as (h1 & E1 & Fr1). exists (hp_next h), h1. split; [by erewrite bind_Fail by exact E1|done]. }
  destruct (Fe 0) as (h1 & xs & E1 & _ & X2 & Fx & Px). pose proof (So os eq_refl) as S. assert (Ct := load_srcs_ctor m os).
  rewrite Eo in Ct. specialize (Ct eq_refl).
  assert (Fr1 : forall b, frame (hp_next h) b h h1).
  { intros b. destruct (Fe b) as (h1' & xs' & E1' & Fr1' & _). rewrite E1 in E1'. by injection E1' as _ <-. }
  pose proof (fr_next _ _ _ _ (Fr1 0)) as N1. pose proof Hok as (Pn & Zb & Zi).
  assert (Hok1 : heap_ok h1) by (split; [lia|]; split; [by rewrite (fr_blocks _ _ _ _ (Fr1 0))|by rewrite (fr_infos _ _ _ _ (Fr1 0))]).
  rewrite <- X2, <- fmap_app in S. rewrite Forall_forall in Fx, Ob.
  assert (Keys := so_keys _ S). rewrite fmap_app, fmap_app in Keys. apply NoDup_app in Keys as (K1 & K2 & _).
  pose proof (full_load_run h1 ver xs ds Hok1) as R.
  specialize (R ltac:(apply Forall_app; split; apply Forall_forall; intros x Hx;
    [by apply Fx|eapply obj_frame; [by apply Ob|apply (Fr1 0)|done]])).
  specialize (R ltac:(apply FOP_app; [by apply apart_keys|exact Ap|]; intros x y Hx Hy; destruct (Fx x Hx) as ([_ _ _ _ _ ?] & ? & ?),
    (Ob y Hy) as [_ _ _ _ _ ?]; split; [lia|split; [lia|intros Ek; apply (K2 (src_key x.2));
      [by do 2 apply list_elem_of_fmap_2|rewrite Ek; by do 2 apply list_elem_of_fmap_2]]])).
  rewrite <- X2, Forall_fmap in Ct. specialize (R Ct S).
  rewrite <- X2, <- fmap_app. destruct (v_add_dbs _ _) as [v|e].
  - destruct R as (h2 & E2 & Sy & Fr2). exists (hp_next h1), h2. split; [erewrite bind_Ret by exact E1; rewrite El|].
    { rewrite <- list_fmap_compose. exact E2. }
    split; [done|]. split; [done|]. etransitivity; [apply Fr1|]. by eapply frame_weaken.
  - destruct R as (h2 & E2 & Fr2). exists (hp_next h1), h2. split; [erewrite bind_Ret by exact E1; rewrite El|].
    { rewrite <- list_fmap_compose. exact E2. }
    split; [done|]. etransitivity; [apply Fr1|]. by eapply frame_weaken.
Qed.

(** A full load gives a view that changes can start from. *)
Lemma v_add_db_heads o v v' : v_add_db o v = Ok v' ->
  v_version v' = v_version v /\ heads v' = <[src_key o := db_head (src_db o)]> (heads v).
Proof.
  unfold v_add_db. destruct (v_add_blocks _ _ _ _ _) as [[B T]|]; rewrite ?Ok_bind, ?Err_bind; [|done].
  intros [= <-]. split; [done|]. unfold heads. cbn. by rewrite fmap_insert.
Qed.

Lemma v_add_dbs_heads os : forall v v', v_add_dbs os v = Ok v' ->
  v_version v' = v_version v /\
  forall k d, heads v' !! k = Some d -> heads v !! k = Some d \/ exists o, o ∈ os /\ k = src_key o /\ d = db_head (src_db o).
Proof.
  induction os as [|o os IH]; intros v v'; cbn [v_add_dbs]; [intros [= <-]; split; [done|by left]|].
  destruct (v_add_db o v) as [v1|] eqn:E1; rewrite ?Ok_bind, ?Err_bind; [|done]. intros E2.
  apply v_add_db_heads in E1 as [V1 H1']. destruct (IH _ _ E2) as [V2 H2']. split; [congruence|].
  intros k d Hd. destruct (H2' k d Hd) as [Hd1|(o' & Ho & ? & ?)]; [|right; exists o'; split; [by right|done]].
  rewrite H1', lookup_insert_Some in Hd1. destruct Hd1 as [[<- <-]|[_ ?]]; [|by left]. right. exists o. split; [left|done].
Qed.

Lemma fmap_NoDup_inj {A B} (f : A -> B) l x y : NoDup (f <$> l) -> x ∈ l -> y ∈ l -> f x = f y -> x = y.
Proof.
  intros Nd [i Ei]%list_elem_of_lookup [j Ej]%list_elem_of_lookup E.
  assert (i = j) as ->; [|congruence]. eapply NoDup_lookup; [exact Nd|..]; rewrite list_lookup_fmap; [by rewrite Ei|by rewrite Ej, E].
Qed.

Lemma v_load_unique m ver ds v : (forall os, load_srcs m = Ok os -> srcs_ok (os ++ ds)) -> v_load m ver ds = Ok v ->
  v_version v = ver /\ db_ids_unique v.
Proof.
  intros So. unfold v_load. destruct (load_srcs m) as [os|]; rewrite ?Ok_bind, ?Err_bind; [|done]. intros E.
  destruct (v_add_dbs_heads _ _ _ E) as [V Hd]. split; [done|]. pose proof (So os eq_refl) as S.
  intros k1 k2 d1 d2 E1 E2 Id.
  assert (Src : forall k d, v_dbs v !! k = Some d -> exists o, o ∈ os ++ ds /\ k = src_key o /\ dv_head d = db_head (src_db o)).
  { intros k d Ed. destruct (Hd k (dv_head d)) as [X|X]; [by unfold heads; rewrite lookup_fmap, Ed| |exact X].
    unfold heads in X. cbn in X. by rewrite lookup_fmap, lookup_empty in X. }
  destruct (Src _ _ E1) as (o1 & I1 & -> & D1), (Src _ _ E2) as (o2 & I2 & -> & D2).
  rewrite D1, D2 in Id. cbn in Id. assert (o1 = o2) as ->; [|done].
  by apply (fmap_NoDup_inj (fun o => db_ID (src_db o)) (os ++ ds) o1 o2 (so_dbs _ S)).
Qed.

(** The tables of a full load are the ones that are listed. *)
Lemma v_add_blocks_spec ctor dbID infos : (forall allocs i t, ctor allocs i = Ok t -> Meta t = i) -> NoDup (bi_ID <$> infos) ->
  forall B T r, v_add_blocks ctor dbID infos B T = Ok r -> forall i, i ∈ infos -> exists t, r.2 !! bi_ID i = Some t /\ Meta t = i.
Proof.
  intros Law. induction infos as [|i infos IH]; intros Nd B T r E j Hj; [by apply elem_of_nil in Hj|].
  cbn [v_add_blocks] in E. destruct (ctor _ i) as [t|] eqn:Et; rewrite ?Ok_bind, ?Err_bind in E; [|done].
  rewrite fmap_cons in Nd. apply NoDup_cons in Nd as [N Nd]. apply elem_of_cons in Hj as [->|Hj]; [|by eapply IH].
  exists t. rewrite (v_add_blocks_other _ _ _ _ _ _ E) by done. rewrite lookup_insert_eq. split; [done|by eapply Law].
Qed.

Lemma v_add_dbs_spec os : srcs_ok os -> forall v v', v_add_dbs os v = Ok v' ->
  (forall o i, o ∈ os -> i ∈ src_infos o -> exists t, v_tables v' !! bi_ID i = Some t /\ Meta t = i) /\
  (forall id, id ∉ (os ≫= fun o => bi_ID <$> src_infos o) -> v_tables v' !! id = v_tables v !! id).
Proof.
  induction os as [|o os IH]; intros [Sk Si Sb Sp Sc] v v'; cbn [v_add_dbs].
  { intros [= <-]. split; [by intros o i []%elem_of_nil|done]. }
  destruct (v_add_db o v) as [v1|] eqn:E1; rewrite ?Ok_bind, ?Err_bind; [|done]. intros E2.
  unfold v_add_db in E1. destruct (v_add_blocks _ _ _ _ _) as [[B T]|] eqn:Eb; rewrite ?Ok_bind, ?Err_bind in E1; [|done].
  injection E1 as E1. assert (T1 : v_tables v1 = T) by by rewrite <- E1.
  cbn [mbind list_bind] in Si |- *. apply NoDup_app in Si as (Nd & Nx & Si).
  rewrite fmap_cons in Sk. rewrite fmap_cons in Sb. apply NoDup_cons in Sk as [_ Sk]. apply NoDup_cons in Sb as [_ Sb].
  destruct (IH ltac:(split; [done|done|done|intros; eapply Sp; [by right|done]|intros; eapply Sc; [by right|done]]) _ _ E2) as [A1 A2].
  split.
  - intros o' i [->|Ho]%elem_of_cons Hi; [|by eapply A1]. rewrite A2.
    + rewrite T1. eapply (v_add_blocks_spec _ _ _ ltac:(intros; eapply Sc; [by left|done]) Nd _ _ _ Eb i Hi).
    + intros Hx. eapply Nx; [by apply list_elem_of_fmap_2|exact Hx].
  - intros id N. apply not_elem_of_app in N as [N1 N2]. rewrite A2, T1 by done. by apply (v_add_blocks_other _ _ _ _ _ _ Eb).
Qed.

(** The identifiers of the tables of some databases. *)
Definition src_ids (os : list dbsrc) : list Z := os ≫= fun o => bi_ID <$> src_infos o.

(** The constructor of some table of the databases fails with [e]. *)
Definition ctor_fails (os : list dbsrc) (e : goerror) : Prop :=
  exists o i, o ∈ os /\ i ∈ src_infos o /\ src_ctor o (NewSlabPredictorsFromTblInfo (db_ID (src_db o)) i) i = Err e.

Lemma v_add_blocks_err ctor dbID infos e : forall B T, v_add_blocks ctor dbID infos B T = Err e ->
  exists i, i ∈ infos /\ ctor (NewSlabPredictorsFromTblInfo dbID i) i = Err e.
Proof.
  induction infos as [|i infos IH]; intros B T; cbn [v_add_blocks]; [done|].
  destruct (ctor _ i) as [t|e'] eqn:Et; rewrite ?Ok_bind, ?Err_bind.
  - intros E. destruct (IH _ _ E) as (j & Hj & Ej). exists j. split; [by right|done].
  - intros [= ->]. exists i. split; [left|done].
Qed.

Lemma v_add_dbs_err os e : forall v, v_add_dbs os v = Err e -> ctor_fails os e.
Proof.
  induction os as [|o os IH]; intros v; cbn [v_add_dbs]; [done|].
  destruct (v_add_db o v) as [v1|e'] eqn:E1; rewrite ?Ok_bind, ?Err_bind.
  - intros E. destruct (IH _ E) as (o' & i & Ho & Hi & Ei). exists o', i. split; [by right|done].
  - intros [= ->]. unfold v_add_db in E1. destruct (v_add_blocks _ _ _ _ _) as [[B T]|] eqn:Eb;
      rewrite ?Ok_bind, ?Err_bind in E1; [done|]. injection E1 as ->.
    apply v_add_blocks_err in Eb as (i & Hi & Ei). exists o, i. split; [left|done].
Qed.

(** C18: A full load is right, from a well-formed heap and for metadata whose
    databases and tables have names and identifiers of their own.  When the
    metadata cannot be read it fails with that error.  Otherwise it either fails
    with the error of the constructor of one of the tables, and so only when one
    fails, or succeeds: then the replicant that
    [InitWithDBInfos] makes of what [fetchAllSchemasWithBlocks] read finds, by
    [BlockByID], every table that was read, with its description as it was read,
    and no other; its version is the one that was asked for.  In each case every
    replicant that was published before says what it said. *)
Theorem full_load_finds m ver h drivers ds : heap_ok h -> drivers_at h drivers ds ->
  (forall os, load_srcs m = Ok os -> srcs_ok (os ++ ds.*2)) ->
  match load_srcs m with
  | Err e => exists h', load_full drivers m ver h = (Fail e, h') /\ forall l w, says h l w -> says h' l w
  | Ok os =>
      (exists e h', load_full drivers m ver h = (Fail e, h') /\ ctor_fails (os ++ ds.*2) e /\
        forall l w, says h l w -> says h' l w) \/
      exists b h' v, load_full drivers m ver h = (Ret b, h') /\ says h' b v /\ v_version v = ver /\
        (forall o i, o ∈ os ++ ds.*2 -> i ∈ src_infos o -> exists t, BlockByID b (bi_ID i) h' = (Ret (Some t), h') /\ Meta t = i) /\
        (forall id, 0 < id -> id ∉ src_ids (os ++ ds.*2) -> BlockByID b id h' = (Ret None, h')) /\
        forall l w, says h l w -> says h' l w
  end.
Proof using GL SL.
  intros Hok Dr So. pose proof (load_full_run m ver h drivers ds Hok Dr So) as R.
  pose proof (v_load_unique m ver ds.*2) as Un. unfold v_load in R, Un. destruct (load_srcs m) as [os|e]; rewrite ?Ok_bind, ?Err_bind in R, Un.
  2:{ destruct R as (b & h' & E & Lb & Fr). exists h'. split; [done|].
      intros l w Sl. eapply says_frame; [exact Sl| |exact Fr]. destruct Sl. lia. }
  destruct (v_add_dbs (os ++ ds.*2) (empty_view ver)) as [v|e] eqn:Ev.
  2:{ left. destruct R as (b & h' & E & Lb & Fr). exists e, h'. split; [done|]. split; [by eapply v_add_dbs_err|].
      intros l w Sl. eapply says_frame; [exact Sl| |exact Fr]. destruct Sl. lia. }
  right. destruct R as (b & h' & E & Sy & Lb & Fr). exists b, h', v. split; [done|]. split; [done|].
  destruct (Un v So eq_refl) as [Vn _]. split; [done|]. pose proof (So os eq_refl) as S.
  destruct (v_add_dbs_spec _ S _ _ Ev) as [A1 A2]. destruct Sy as (_ & n & F & bs & R). split; [|split].
  - intros o i Ho Hi. destruct (A1 o i Ho Hi) as (t & Et & Mt). exists t. split; [|done].
    rewrite (BlockByID_run _ _ _ _ _ _ _ _ (bi_ID i) R) by by eapply so_pos. by rewrite Et.
  - intros id P N. rewrite (BlockByID_run _ _ _ _ _ _ _ _ id R P), (A2 id N). done.
  - intros l w Sl. eapply says_frame; [exact Sl| |exact Fr]. destruct Sl. lia.
Qed.
End fetch.

(** ** Heaps that only grow *)

Section extends.
Context `{InfoPkgs}.

(** What was there is as it was. *)
Record extends (h h' : heap) : Prop := {
  ex_next : hp_next h <= hp_next h';
  ex_is l : l < hp_next h -> hp_is h' !! l = hp_is h !! l;
  ex_sb l : l < hp_next h -> hp_sb h' !! l = hp_sb h !! l;
  ex_db l : l < hp_next h -> hp_db h' !! l = hp_db h !! l;
  ex_blocks l : l < hp_next h -> hp_blocks h' !! l = hp_blocks h !! l;
  ex_infos l : l < hp_next h -> hp_infos h' !! l = hp_infos h !! l;
}.

#[export] Instance extends_preorder : PreOrder extends.
Proof.
  split; [by split|]. intros h1 h2 h3 [A1 A2 A3 A4 A5 A6] [B1 B2 B3 B4 B5 B6].
  split; [lia|..]; intros l Hl; [rewrite B2, A2|rewrite B3, A3|rewrite B4, A4|rewrite B5, A5|rewrite B6, A6]; done || lia.
Qed.

Lemma frame_extends b h h' : frame (hp_next h) b h h' -> hp_next h <= b -> extends h h'.
Proof.
  intros [A B C D E G] N. split; [done| |done..]. intros l Hl. apply B. lia.
Qed.

Lemma extends_heap_ok h h' : extends h h' -> heap_ok h -> heap_ok h'.
Proof.
  intros [A1 A2 A3 A4 A5 A6] (P & Zb & Zi). split; [lia|]. by rewrite A5, A6 by lia.
Qed.

Lemma extends_drivers h h' drivers ds : extends h h' -> drivers_at h drivers ds -> drivers_at h' drivers ds.
Proof.
  intros [A1 A2 A3 A4 A5 A6] [B C D]. split; [done| |done]. eapply Forall_impl; [exact C|].
  intros x [Od Oh Ok Oc Oi [G1 G2]]. assert (Ei : hp_infos h' !! sl_arr (db_Blocks x.1.2) = hp_infos h !! sl_arr (db_Blocks x.1.2))
    by (apply A6; lia).
  destruct (sl_ext_all _ _ _ Ei) as (R & Cp & O). split; [by rewrite A4|done|by apply O|by rewrite Cp|by rewrite R|lia].
Qed.

(** A published replicant keeps what it says. *)
Lemma extends_says h h' l v : extends h h' -> says h l v -> says h' l v.
Proof.
  intros [A1 A2 A3 A4 A5 A6] (L & n & F & bs & R). split; [lia|]. exists n, F, bs.
  pose proof (rp_next _ _ _ _ _ _ _ _ R) as Rn. eapply rep_agree; [exact R|done|by apply A2|..].
  - intros k f Ef. destruct (rp_below _ _ _ _ _ _ _ _ R k f Ef) as (B1 & B2 & B3). rewrite A3, A4, A6 by lia. done.
  - intros i s Es. apply A5. eapply br_below; [by eapply rp_buckets|done].
  - rewrite A5 by lia. by eapply br_zero, rp_buckets.
  - rewrite A6 by lia. by eapply rp_zero.
Qed.
End extends.

(** ** A load of changes *)

Section changes.
Context `{InfoPkgs} `{IL : !InfoLaws}.
Context (action_code : CausetActionType -> Z).

Fixpoint v_diffs (m : MetaSnapshot) (diffs : list SchemaDiff) (phy actions : list Z) (v : view)
    : res ((list Z * list Z) * view) :=
  match diffs with
  | [] => Ok ((phy, actions), v)
  | diff :: diffs =>
      '(IDs, v) ← v_diff m diff v;
      if canSkipSchemaCheckerDBS (Type_ diff) then v_diffs m diffs phy actions v
      else v_diffs m diffs (phy ++ IDs) (actions ++ replicate (length IDs) (action_bit action_code (Type_ diff))) v
  end.

(** The tables of the changes that the validator does not hear of. *)
Fixpoint v_skipped (m : MetaSnapshot) (diffs : list SchemaDiff) (v : view) : list Z :=
  match diffs with
  | [] => []
  | diff :: diffs =>
      match v_diff m diff v with
      | Ok (IDs, v) => (if canSkipSchemaCheckerDBS (Type_ diff) then IDs else []) ++ v_skipped m diffs v
      | Err _ => []
      end
  end.

Fixpoint diffs_ok (m : MetaSnapshot) (diffs : list SchemaDiff) (v : view) : Prop :=
  match diffs with
  | [] => True
  | diff :: diffs => diff_ok m diff v /\ forall r, v_diff m diff v = Ok r -> diffs_ok m diffs r.2
  end.

(** Whatever is not among the reported and the skipped tables is as it was. *)
Lemma v_diffs_honest m diffs : forall v phy actions r, vinv v -> diffs_ok m diffs v -> v_diffs m diffs phy actions v = Ok r ->
  vinv r.2 /\ exists ids acts, r.1 = (phy ++ ids, actions ++ acts) /\ length ids = length acts /\
    reports v r.2 (ids ++ v_skipped m diffs v).
Proof using IL.
  induction diffs as [|diff diffs IH]; intros v phy actions r Iv Hd; cbn [v_diffs v_skipped].
  { intros [= <-]. split; [done|]. exists [], []. cbn. rewrite !app_nil_r. split; [done|]. split; [done|by apply reports_refl]. }
  destruct Hd as [D1 D2]. destruct (v_diff m diff v) as [[IDs v1]|e] eqn:E; rewrite ?Ok_bind, ?Err_bind; [|done].
  destruct (v_diff_honest m diff v _ Iv D1 E) as [R1 Iv1]. cbn [fst snd] in R1, Iv1. specialize (D2 _ eq_refl). cbn [snd] in D2.
  destruct (canSkipSchemaCheckerDBS _); intros E2; destruct (IH _ _ _ _ Iv1 D2 E2) as (Iv2 & ids & acts & Er & L & R2); (split; [done|]).
  - exists ids, acts. split; [done|]. split; [done|]. eapply reports_weaken; [by eapply reports_trans|]. set_solver.
  - exists (IDs ++ ids), (replicate (length IDs) (action_bit action_code (Type_ diff)) ++ acts). rewrite Er, !app_assoc. split; [done|].
    split; [by rewrite !length_app, length_replicate, L|].
    eapply reports_weaken; [by eapply reports_trans|]. set_solver.
Qed.

(** The version of a view after a change. *)
Lemma v_block_diff_version m diff v r : v_block_diff m diff v = Ok r -> v_version r.2 = v_version v.
Proof.
  assert (D : forall k id ids v, v_version (v_drop k id ids v).2 = v_version v).
  { intros k id ids v0. unfold v_drop. destruct (v_tables v0 !! id); [|done]. by destruct (v_dbs v0 !! k). }
  assert (C : forall k id allocs tp ids v r, v_create k m id allocs tp ids v = Ok r -> v_version r.2 = v_version v).
  { intros k id allocs tp ids v0 r0. unfold v_create. destruct (v_dbs v0 !! k); [|done].
    destruct (GetBlock _ _ _) as [[i|]|]; rewrite ?Ok_bind, ?Err_bind; [|done..].
    destruct (BlockFromMeta _ _) as [t|]; rewrite ?Ok_bind, ?Err_bind; [|done]. by intros [= <-]. }
  unfold v_block_diff. destruct (v_schema_by_id _ _) as [k|]; [|done]. destruct (old_new diff) as [old new].
  assert (G : forall allocs ids v0, v_version v0 = v_version v ->
    (if blockIDIsValid new then v_create k m new allocs (Type_ diff) ids v0 else Ok (ids, v0)) = Ok r -> v_version r.2 = v_version v).
  { intros allocs ids v0 E0. destruct (blockIDIsValid new); [|by intros [= <-]]. intros E%C. by rewrite E. }
  destruct (blockIDIsValid old).
  - destruct (v_drop_from v k diff) as [k'|]; rewrite ?Ok_bind, ?Err_bind; [|done].
    pose proof (D k' old [] v) as Hd. destruct (v_drop k' old [] v) as [tmp v']. rewrite Ok_bind. by apply G.
  - rewrite Ok_bind. by apply G.
Qed.

Lemma v_apply_version vapply m diff v r :
  (forall d v r, Version d = v_version v -> vapply d v = Ok r -> v_version r.2 = v_version v) ->
  v_apply vapply m diff v = Ok r -> v_version r.2 = Version diff.
Proof.
  intros Hv. unfold v_apply. set (v1 := set_version (Version diff) v).
  assert (A : forall opts ids v0, v_version v0 = Version diff -> v_affected vapply diff opts ids v0 = Ok r -> v_version r.2 = Version diff).
  { induction opts as [|opt opts IH]; intros ids v0 E0; cbn [v_affected]; [by intros [= <-]|].
    destruct (vapply _ v0) as [[ids1 v2]|] eqn:E2; rewrite ?Ok_bind, ?Err_bind; [|done].
    apply IH. rewrite <- E0. by apply (Hv (affected_diff diff opt) _ _ (eq_sym E0) E2). }
  assert (B : ('(ids, v) ← v_block_diff m diff v1; v_affected vapply diff (AffectedOpts diff) ids v) = Ok r ->
    v_version r.2 = Version diff).
  { destruct (v_block_diff m diff v1) as [[ids v2]|] eqn:E; rewrite ?Ok_bind, ?Err_bind; [|done].
    apply A. by apply (v_block_diff_version _ _ _ _ E). }
  destruct (Type_ diff); try exact B.
  - unfold v_create_schema. destruct (GetDatabase _ _) as [[di|]|]; rewrite ?Ok_bind, ?Err_bind; [|done..]. by intros [= <-].
  - intros [= <-]. unfold v_drop_schema. by destruct (v_schema_by_id v1 _).
  - unfold v_modify_schema. destruct (GetDatabase _ _) as [[di|]|]; rewrite ?Ok_bind, ?Err_bind; [|done..]. by intros [= <-].
Qed.

Lemma v_diff_version m diff v r : v_diff m diff v = Ok r -> v_version r.2 = Version diff.
Proof.
  apply v_apply_version. intros d v0 r0 Ev E. rewrite <- Ev. eapply v_apply_version; [|exact E].
  by intros d' v' r' _ [= <-].
Qed.

Lemma v_diffs_version m diffs : forall v phy actions r, v_diffs m diffs phy actions v = Ok r ->
  v_version r.2 = match last diffs with Some d => Version d | None => v_version v end.
Proof.
  induction diffs as [|diff diffs IH]; intros v phy actions r; cbn [v_diffs]; [by intros [= <-]|].
  destruct (v_diff m diff v) as [[IDs v1]|] eqn:E; rewrite ?Ok_bind, ?Err_bind; [|done].
  pose proof (v_diff_version _ _ _ _ E) as V1. cbn in V1.
  destruct (canSkipSchemaCheckerDBS _); intros E2; rewrite (IH _ _ _ _ E2), last_cons, V1; by destruct (last diffs).
Qed.

Lemma load_diffs_last m n : forall used diffs, (forall k d, GetSchemaDiff m k = Ok (Some d) -> Version d = k) ->
  load_diffs m used n = Ok (Some diffs) ->
  match last diffs with Some d => Version d = used + Z.of_nat n | None => n = O end.
Proof.
  induction n as [|n IH]; intros used diffs Hm; cbn [load_diffs]; [by intros [= <-]|].
  destruct (GetSchemaDiff m (used + 1)) as [[d|]|] eqn:E; rewrite ?Ok_bind, ?Err_bind; [|done..].
  destruct (load_diffs m (used + 1) n) as [[ds|]|] eqn:E2; rewrite ?Ok_bind, ?Err_bind; [|done..]. intros [= <-].
  specialize (IH _ _ Hm E2). rewrite last_cons. destruct (last ds) as [d'|]; [rewrite IH; lia|]. subst n.
  rewrite (Hm _ _ E). lia.
Qed.

Lemma load_diffs_keys m n : forall used diffs, (forall k d, GetSchemaDiff m k = Ok (Some d) -> Version d = k) ->
  load_diffs m used n = Ok (Some diffs) -> length diffs = n.
Proof.
  induction n as [|n IH]; intros used diffs Hm; cbn [load_diffs]; [by intros [= <-]|].
  destruct (GetSchemaDiff m (used + 1)) as [[d|]|]; rewrite ?Ok_bind, ?Err_bind; [|done..].
  destruct (load_diffs m (used + 1) n) as [[ds|]|] eqn:E2; rewrite ?Ok_bind, ?Err_bind; [|done..]. intros [= <-].
  cbn. by rewrite (IH _ _ Hm E2).
Qed.
End changes.

Section run.
Context `{InfoPkgs} `{!Growth} `{GL : !GrowthLaws} `{!Sorter} `{SL : !SorterLaws} `{IL : !InfoLaws} `{!DBCopies} `{CL : !DBCopyLaws}.
Context (range_schemas : gmap string Z -> list (string * Z)).
Context (range_schemas_perm : forall m, range_schemas m ≡ₚ map_to_list m).
Context (range_buckets : gset Z -> list Z).
Context (range_buckets_perm : forall s, range_buckets s ≡ₚ elements s).
Context (action_code : CausetActionType -> Z).

Lemma apply_diffs_run b m diffs : forall n K I F bs h v phy actions,
  rep n K I F bs h b v -> vinv v -> diffs_ok m diffs v ->
  refines n b h (apply_diffs range_schemas range_buckets action_code b m diffs phy actions h) (v_diffs action_code m diffs phy actions v).
Proof using range_schemas_perm range_buckets_perm GL SL IL CL.
  induction diffs as [|diff diffs IH]; intros n K I F bs h v phy actions R Iv Hd.
  { exists h, K, I, F, bs. split; [done|]. by split. }
  destruct Hd as [D1 D2]. cbn [apply_diffs v_diffs].
  eapply (refines_bind n b h _ _ _ (fun p => let '(IDs, v) := p in _)).
  { eapply ApplyDiff_run; [done|done|exact R|by destruct Iv|done]. }
  intros IDs v' h' K' I' F' bs' E R'. destruct (v_diff_honest m diff v _ Iv D1 E) as [_ Iv'].
  cbv beta iota. destruct (canSkipSchemaCheckerDBS _); eapply IH; try done; by apply (D2 _ E).
Qed.


Context (InRepairMode : bool) (CheckAndFetchRepairedBlock : DBInfo -> BlockInfo -> bool).
Context (GetTimeFromTS : Z -> Z).
Context (drivers : list (Z * (list SlabPredictor -> BlockInfo -> res Block))) (ds : list loaded).

(** ** On the petri *)

Definition put_heap (h : heap) (p : petri) : petri := MkPetri h (handles p) (infoHandle p) (validator p).

Lemma on_heap_run {A} (c : M heap A) p o h' : c (pt_heap p) = (o, h') -> on_heap c p = (o, put_heap h' p).
Proof. intros E. unfold on_heap, zoom. by rewrite E. Qed.

Lemma on_heap_seq {A B} (c : M heap A) (k : A -> M heap B) p : (on_heap c ≫= fun a => on_heap (k a)) p = on_heap (c ≫= k) p.
Proof. unfold on_heap, zoom, mbind, M_bind. by destruct (c (pt_heap p)) as [[] h]. Qed.

(** The changes since a version, where they can be loaded. *)
Definition v_try (m : MetaSnapshot) (used new : Z) (v : view) : option ((list Z * list Z) * view) :=
  if isTooOldSchema used new then None
  else match load_diffs m used (Z.to_nat (new - used)) with
       | Ok (Some diffs) => match v_diffs action_code m diffs [] [] v with Ok r => Some r | Err _ => None end
       | _ => None
       end.

Definition try_ok (m : MetaSnapshot) (used new : Z) (v : view) : Prop :=
  forall diffs, load_diffs m used (Z.to_nat (new - used)) = Ok (Some diffs) -> diffs_ok m diffs v.

Abbreviation tryLoad := (tryLoadSchemaDiffs range_schemas range_buckets action_code).

Lemma new_from_parts old h b h' : new_from old h = (Ret b, h') ->
  exists h1, NewBuilder h = (Ret b, h1) /\ InitWithOldSchemaReplicant b old h1 = (Ret tt, h').
Proof.
  unfold new_from, mbind, M_bind. destruct (NewBuilder h) as [[b'| | |] h1]; try done.
  destruct (InitWithOldSchemaReplicant b' old h1) as [[[]| | |] h2] eqn:E; try done. intros [= -> ->]. by exists h1.
Qed.

Lemma try_run p m used new old v :
  handles p !! infoHandle p = Some old -> says (pt_heap p) old v -> vinv v -> try_ok m used new v ->
  match v_try m used new v with
  | Some (ids, acts, v') => exists b h', tryLoad m used new p =
      (Ret (Some (MkChange ids acts None false)), MkPetri h' (<[infoHandle p := b]> (handles p)) (infoHandle p) (validator p)) /\
      says h' b v' /\ extends (pt_heap p) h'
  | None => exists o h', tryLoad m used new p = (o, put_heap h' p) /\ (o = Ret None \/ exists e, o = Fail e) /\ extends (pt_heap p) h'
  end.
Proof using range_schemas_perm range_buckets_perm GL SL IL CL.
  intros Eh Sy Iv Hd. unfold v_try, tryLoadSchemaDiffs.
  assert (Same : put_heap (pt_heap p) p = p) by by destruct p.
  destruct (isTooOldSchema used new); [by exists (Ret None), (pt_heap p); rewrite Same; split; [|split; [left|]]|].
  unfold try_ok in Hd. destruct (load_diffs _ _ _) as [[diffs|]|e].
  3:{ exists (Fail e), (pt_heap p). rewrite Same. split; [by erewrite bind_Fail by done|]. split; [right; by exists e|done]. }
  2:{ exists (Ret None), (pt_heap p). rewrite Same. split; [by erewrite bind_Ret by done|]. split; [by left|done]. }
  erewrite bind_Ret by done. cbv beta iota. specialize (Hd diffs eq_refl).
  destruct (new_from_run (pt_heap p) old v Sy) as (h1 & F & bs & En & R & Fr1 & Lt).
  apply new_from_parts in En as (h0 & En & Ei). set (b := hp_next (pt_heap p)) in *.
  assert (Fr01 : extends (pt_heap p) h1) by by eapply frame_extends.
  pose proof (apply_diffs_run b m diffs b ∅ ∅ F bs h1 v [] [] R Iv Hd) as A.
  erewrite bind_Ret by by apply on_heap_run. erewrite bind_Ret by reflexivity. cbv beta.
  erewrite bind_Ret by (unfold handle_Get; reflexivity). cbn [put_heap handles infoHandle]. rewrite Eh.
  erewrite bind_Ret by reflexivity. erewrite bind_Ret by (by apply on_heap_run).
  destruct (v_diffs _ _ _ _ _ _) as [[[ids acts] v']|e].
  - destruct A as (h2 & K2 & I2 & F2 & bs2 & E2 & R2 & Fr2). exists b, h2.
    erewrite bind_Ret by (apply on_heap_run; exact E2). split; [reflexivity|].
    assert (X2 : extends (pt_heap p) h2) by (eapply frame_extends; [by etransitivity|done]). split; [|done].
    split; [pose proof (fr_next _ _ _ _ Fr2); lia|]. exists b, F2, bs2. eapply rep_mono; [exact R2|set_solver..].
  - destruct A as (h2 & E2 & Fr2). exists (Fail e), h2. erewrite bind_Fail by (apply on_heap_run; exact E2).
    split; [done|]. split; [right; by exists e|]. eapply frame_extends; [by etransitivity|done].
Qed.

(** ** A version is loaded *)

Definition pok (p : petri) : Prop := heap_ok (pt_heap p) /\ drivers_at (pt_heap p) drivers ds.

(** Full loads of these metadata are well formed. *)
Definition meta_ok (m : MetaSnapshot) : Prop := forall os, load_srcs InRepairMode CheckAndFetchRepairedBlock m = Ok os -> srcs_ok (os ++ ds.*2).

(** What the handle holds: nothing, or a replicant that says a view. *)
Definition holds_view (p : petri) (hd : Z) (ov : option view) : Prop :=
  match handles p !! hd, ov with
  | Some l, Some v => says (pt_heap p) l v /\ vinv v
  | None, None => True
  | _, _ => False
  end.

(** The view of the needed version, what the validator is told, and whether the
    load was full. *)
Definition v_version_load (m : MetaSnapshot) (used needed : Z) (ov : option view)
    : res (view * option (RelatedSchemaChange Z) * bool) :=
  match ov ≫= v_try m used needed with
  | Some (ids, acts, v') => Ok (v', Some (MkChange ids acts None false), false)
  | None => v' ← v_load InRepairMode CheckAndFetchRepairedBlock m needed ds.*2; Ok (v', None, true)
  end.

Abbreviation loadVersion :=
  (load_version range_schemas range_buckets action_code InRepairMode CheckAndFetchRepairedBlock drivers).

Lemma full_part p m needed hd : pok p -> meta_ok m ->
  match v_load InRepairMode CheckAndFetchRepairedBlock m needed ds.*2 with
  | Ok v => exists b h', (schemas ← on_heap (fetchAllSchemasWithBlocks InRepairMode CheckAndFetchRepairedBlock m);
        newISBuilder ← on_heap NewBuilder; on_heap (InitWithDBInfos newISBuilder drivers schemas needed);;
        Build hd newISBuilder;; ret (None, true) : M petri (option (RelatedSchemaChange Z) * bool)) p =
        (Ret (None, true), MkPetri h' (<[hd := b]> (handles p)) (infoHandle p) (validator p)) /\
      says h' b v /\ extends (pt_heap p) h'
  | Err e => exists h', (schemas ← on_heap (fetchAllSchemasWithBlocks InRepairMode CheckAndFetchRepairedBlock m);
        newISBuilder ← on_heap NewBuilder; on_heap (InitWithDBInfos newISBuilder drivers schemas needed);;
        Build hd newISBuilder;; ret (None, true) : M petri (option (RelatedSchemaChange Z) * bool)) p =
        (Fail e, put_heap h' p) /\ extends (pt_heap p) h'
  end.
Proof using GL SL.
  intros [Hok Dr] Mk. pose proof (load_full_run InRepairMode CheckAndFetchRepairedBlock m needed (pt_heap p) drivers ds Hok Dr Mk) as R.
  assert (Run : (schemas ← on_heap (fetchAllSchemasWithBlocks InRepairMode CheckAndFetchRepairedBlock m);
        newISBuilder ← on_heap NewBuilder; on_heap (InitWithDBInfos newISBuilder drivers schemas needed);;
        Build hd newISBuilder;; ret (None, true) : M petri (option (RelatedSchemaChange Z) * bool)) p =
      (b ← on_heap (load_full InRepairMode CheckAndFetchRepairedBlock drivers m needed);
       Build hd b;; ret (None, true) : M petri (option (RelatedSchemaChange Z) * bool)) p).
  { unfold load_full, full_load, on_heap, zoom, mbind, M_bind.
    destruct (fetchAllSchemasWithBlocks _ _ _ (pt_heap p)) as [[ls| | |] h1]; try done. cbn [pt_heap].
    destruct (NewBuilder h1) as [[b| | |] h2]; try done. cbn [pt_heap].
    by destruct (InitWithDBInfos b drivers ls needed h2) as [[[]| | |] h3]. }
  rewrite Run. destruct (v_load _ _ _ _ _) as [v|e].
  - destruct R as (b & h' & E & Sy & Lb & Fr). exists b, h'. erewrite bind_Ret by (apply on_heap_run; exact E).
    split; [reflexivity|]. split; [done|]. by eapply frame_extends.
  - destruct R as (b & h' & E & Lb & Fr). exists h'. erewrite bind_Fail by (apply on_heap_run; exact E).
    split; [done|]. by eapply frame_extends.
Qed.

(** The handle [hd] holds the new replicant [b]. *)
Definition installed (h' : heap) (hd b : Z) (p : petri) : petri :=
  MkPetri h' (<[hd := b]> (handles p)) (infoHandle p) (validator p).

Definition set_v (vl : schemaValidator Z) (p : petri) : petri := MkPetri (pt_heap p) (handles p) (infoHandle p) vl.

Lemma says_tables_ok h l v : says h l v -> tables_ok v.
Proof. intros (_ & n & F & bs & R) id t. by eapply br_tables, rp_buckets. Qed.

Lemma load_version_run p m used needed ov : pok p -> meta_ok m -> holds_view p (infoHandle p) ov ->
  (ov = None -> used = 0) -> (forall v, ov = Some v -> try_ok m used needed v) ->
  match v_version_load m used needed ov with
  | Ok (v', ch, full) => exists b h', loadVersion (infoHandle p) m used needed p = (Ret (ch, full), installed h' (infoHandle p) b p) /\
      says h' b v' /\ vinv v' /\ extends (pt_heap p) h'
  | Err e => exists h', loadVersion (infoHandle p) m used needed p = (Fail e, put_heap h' p) /\ extends (pt_heap p) h'
  end.
Proof using range_schemas_perm range_buckets_perm GL SL IL CL.
  intros Pk Mk Hv Un Ht. unfold v_version_load, load_version.
  assert (Full : forall h1, extends (pt_heap p) h1 -> (forall r : res (option (RelatedSchemaChange Z)), (forall c, r <> Ok (Some c)) ->
    catch (tryLoad m used needed) p = (Ret r, put_heap h1 p) ->
    match v' ← v_load InRepairMode CheckAndFetchRepairedBlock m needed ds.*2; Ok (v', None, true) with
    | Ok (v', ch, full) => exists b h', loadVersion (infoHandle p) m used needed p = (Ret (ch, full), installed h' (infoHandle p) b p) /\
        says h' b v' /\ vinv v' /\ extends (pt_heap p) h'
    | Err e => exists h', loadVersion (infoHandle p) m used needed p = (Fail e, put_heap h' p) /\ extends (pt_heap p) h'
    end)).
  { intros h1 X1 r Nr Er. assert (Pk1 : pok (put_heap h1 p)).
    { destruct Pk. split; [by eapply extends_heap_ok|by eapply extends_drivers]. }
    pose proof (full_part (put_heap h1 p) m needed (infoHandle p) Pk1 Mk) as R.
    assert (Run : loadVersion (infoHandle p) m used needed p =
      (schemas ← on_heap (fetchAllSchemasWithBlocks InRepairMode CheckAndFetchRepairedBlock m);
        newISBuilder ← on_heap NewBuilder; on_heap (InitWithDBInfos newISBuilder drivers schemas needed);;
        Build (infoHandle p) newISBuilder;; ret (None, true) : M petri (option (RelatedSchemaChange Z) * bool)) (put_heap h1 p)).
    { unfold load_version. erewrite bind_Ret by exact Er. destruct r as [[c|]|]; [by destruct (Nr c)|done..]. }
    rewrite Run. destruct (v_load _ _ _ _ _) as [v'|e] eqn:El; rewrite ?Ok_bind, ?Err_bind.
    - destruct R as (b & h2 & E2 & Sy & X2). exists b, h2. split; [exact E2|]. split; [done|].
      split; [|by etransitivity]. split; [|by eapply says_tables_ok].
      by apply (v_load_unique InRepairMode CheckAndFetchRepairedBlock m needed ds.*2 v' Mk El).
    - destruct R as (h2 & E2 & X2). exists h2. split; [exact E2|by etransitivity]. }
  assert (Same : put_heap (pt_heap p) p = p) by by destruct p.
  destruct ov as [v|]; cbn [mbind option_bind].
  - unfold holds_view in Hv. destruct (handles p !! infoHandle p) as [old|] eqn:Eh; [|done]. destruct Hv as [Sy Iv].
    pose proof (try_run p m used needed old v Eh Sy Iv (Ht v eq_refl)) as T.
    destruct (v_try m used needed v) as [[[ids acts] v']|] eqn:Et.
    + destruct T as (b & h' & E & Sy' & X). exists b, h'. unfold catch. erewrite bind_Ret by (by rewrite E). cbv beta iota.
      split; [done|]. split; [done|]. split; [|done].
      unfold v_try in Et. destruct (isTooOldSchema _ _); [done|]. unfold try_ok in Ht.
      destruct (load_diffs _ _ _) as [[diffs|]|]; [|done..]. destruct (v_diffs _ _ _ _ _ _) as [r|] eqn:Ed; [|done].
      injection Et as ->. by apply (v_diffs_honest action_code m diffs v [] [] _ Iv (Ht v eq_refl diffs eq_refl) Ed).
    + destruct T as (o & h1 & E & Eo & X1).
      destruct Eo as [->|[e ->]]; [apply (Full h1 X1 (Ok None))|apply (Full h1 X1 (Err e))]; try done; unfold catch; by rewrite E.
  - specialize (Un eq_refl) as ->. apply (Full (pt_heap p) ltac:(done) (Ok None)); [done|]. rewrite Same. done.
Qed.

Abbreviation load_ :=
  (loadSchemaReplicant range_schemas range_buckets action_code InRepairMode CheckAndFetchRepairedBlock drivers).
Abbreviation Reload_ :=
  (Reload range_schemas range_buckets action_code InRepairMode CheckAndFetchRepairedBlock GetTimeFromTS drivers).

Definition used_version (ov : option view) : Z := match ov with Some v => v_version v | None => 0 end.

(** What etcd answers to a version. *)
Definition told (w : world) (needed : Z) (v' : view) : res unit :=
  if needed <? v_version v' then Ok tt else UpdateSelfVersion w needed.

(** The validator after a load. *)
Definition hears (w : world) (ts used needed cur : Z) (ch : option (RelatedSchemaChange Z)) (full : bool) (vl : schemaValidator Z)
    : option (schemaValidator Z) :=
  Update GetTimeFromTS (MaxDeltaSchemaCount w) cur ts used needed ch (if full then Reset vl else vl).

Definition heard (vl : option (schemaValidator Z)) (p : petri) : out unit * petri :=
  match vl with Some vl => (Ret tt, set_v vl p) | None => (Panic, p) end.

Lemma says_is h l v : says h l v -> exists r, hp_is h !! l = Some r /\ schemaMetaVersion r = v_version v.
Proof. intros (_ & n & F & bs & R). eexists. split; [by eapply rp_is|done]. Qed.

Lemma used_run p ov (k : Z -> M petri unit) : holds_view p (infoHandle p) ov ->
  (old ← handle_Get (infoHandle p);
   schemaVersion ← match old with Some l => r ← on_heap (load_is l); ret (schemaMetaVersion r) | None => ret 0 end;
   k schemaVersion) p = k (used_version ov) p.
Proof.
  intros Hv. unfold holds_view in Hv. erewrite bind_Ret by (unfold handle_Get; reflexivity).
  destruct (handles p !! infoHandle p) as [l|], ov as [v|]; try done. destruct Hv as [Sy _].
  destruct (says_is _ _ _ Sy) as (r & Er & Erv). cbn [used_version]. rewrite <- Erv. erewrite bind_Ret; [reflexivity|].
  erewrite bind_Ret by (apply on_heap_run; by apply load_is_run). by destruct p.
Qed.

Definition same_version (used needed : Z) : bool := negb (used =? 0) && (used =? needed).

(** [Reload] by cases: the version is the same; it cannot be loaded; it is
    loaded, and etcd and then the validator hear of it. *)
Lemma Reload_run p w ts m needed ov : pok p -> meta_ok m -> holds_view p (infoHandle p) ov ->
  CurrentVersion w = Ok ts -> GetSnapshotMeta w ts = Ok m -> GetSchemaVersion m = Ok needed ->
  (forall v, ov = Some v -> try_ok m (v_version v) needed v) ->
  if same_version (used_version ov) needed then
    exists l, handles p !! infoHandle p = Some l /\
      Reload_ w p = heard (hears w ts (used_version ov) needed l None false (validator p)) p
  else
    match v_version_load m (used_version ov) needed ov with
    | Err e => exists h', Reload_ w p = (Fail e, put_heap h' p) /\ extends (pt_heap p) h'
    | Ok (v', ch, full) => exists b h', says h' b v' /\ vinv v' /\ extends (pt_heap p) h' /\
        Reload_ w p =
          let p' := installed h' (infoHandle p) b p in
          match told w needed v' with
          | Err e => (Fail e, p')
          | Ok _ => heard (hears w ts (used_version ov) needed b ch full (validator p)) p'
          end
    end.
Proof using range_schemas_perm range_buckets_perm GL SL IL CL.
  intros Pk Mk Hv Ec Em Ev Ht. unfold Reload. erewrite bind_Ret by (rewrite Ec; reflexivity).
  erewrite bind_Ret by reflexivity. cbv beta.
  rewrite used_run with (ov := ov) by done. set (used := used_version ov) in *.
  assert (Tail : forall p' full ch l, handles p' !! infoHandle p' = Some l -> validator p' = validator p ->
    (p1 ← get; cur ← SchemaReplicant; cur ← lift_opt cur;
     v ← lift_opt (Update GetTimeFromTS (MaxDeltaSchemaCount w) cur ts used needed ch
                     (if (full : bool) then Reset (validator p1) else validator p1)); set_validator v : M petri unit) p'
    = heard (hears w ts used needed l ch full (validator p)) p').
  { intros p' full ch l El Vl. erewrite bind_Ret by reflexivity. erewrite bind_Ret by (unfold SchemaReplicant, handle_Get; reflexivity).
    rewrite El. erewrite bind_Ret by reflexivity. rewrite Vl. unfold hears.
    destruct (Update _ _ _ _ _ _ _ _) as [vl|]; [by erewrite bind_Ret by reflexivity|done]. }
  unfold loadSchemaReplicant. destruct (same_version used needed) eqn:Es.
  - assert (Hl : exists l, handles p !! infoHandle p = Some l).
    { unfold holds_view in Hv. unfold same_version in Es. destruct (handles p !! infoHandle p) as [l|]; [by exists l|].
      destruct ov as [v|]; [done|]. cbn in Es. done. }
    destruct Hl as [l El]. exists l. split; [done|]. erewrite bind_Ret.
    2:{ erewrite bind_Ret by (rewrite Em; reflexivity). erewrite bind_Ret by (rewrite Ev; reflexivity).
        unfold same_version in Es. rewrite Es. reflexivity. }
    cbv beta iota. by apply (Tail p false None l).
  - assert (Un : ov = None -> used = 0) by by intros ->.
    pose proof (load_version_run p m used needed ov Pk Mk Hv Un) as L. unfold used in L at 1. specialize (L ltac:(intros v ->; by apply Ht)).
    destruct (v_version_load m used needed ov) as [[[v' ch] full]|e].
    + destruct L as (b & h' & El & Sy & Iv & X). exists b, h'. split; [done|]. split; [done|]. split; [done|]. cbv zeta.
      destruct (says_is _ _ _ Sy) as (r & Er & Erv). set (p' := installed h' (infoHandle p) b p).
      assert (Hb : handles p' !! infoHandle p' = Some b) by apply lookup_insert_eq.
      assert (Load : load_ w (infoHandle p) used ts p = match told w needed v' with Ok _ => (Ret (needed, ch, full), p') | Err e => (Fail e, p') end).
      { unfold loadSchemaReplicant. erewrite bind_Ret by (rewrite Em; reflexivity). erewrite bind_Ret by (rewrite Ev; reflexivity).
        unfold same_version in Es. rewrite Es. erewrite bind_Ret by exact El. cbv beta iota.
        erewrite bind_Ret by (unfold SchemaReplicant, handle_Get; reflexivity). fold p'. rewrite Hb. erewrite bind_Ret by reflexivity.
        erewrite bind_Ret by (apply on_heap_run; by apply load_is_run). unfold told. rewrite Erv.
        replace (put_heap (pt_heap p') p') with p' by done. destruct (needed <? v_version v'); [done|].
        by destruct (UpdateSelfVersion w needed) as [[]|]. }
      unfold loadSchemaReplicant in Load. destruct (told w needed v') as [[]|e].
      * erewrite bind_Ret by exact Load. cbv beta iota. by apply (Tail p' full ch b).
      * by erewrite bind_Fail by exact Load.
    + destruct L as (h' & El & X). exists h'. split; [|done]. erewrite bind_Fail; [reflexivity|].
      erewrite bind_Ret by (rewrite Em; reflexivity). erewrite bind_Ret by (rewrite Ev; reflexivity).
      unfold same_version in Es. rewrite Es. by erewrite bind_Fail by exact El.
Qed.
End run.
