(* ===== verification/InfoSafety.v ===== *)
(** * The information schema and the validator together

    While no report to etcd fails, a check that passes for a transaction of an
    older version means that the tables it names are, in the current replicant,
    the ones of the replicant it started with.  Where one fails, or the session
    with etcd was lost, the check passes without that. *)

From stdpp Require Import base gmap list option strings.
From Stdlib Require Import ZArith Lia Sorted.
From S2P Require Import Prelude External GoMonad GoHeap InfoSchema InfoBuilder InfoBuckets InfoView InfoOps InfoTables InfoDiff InfoSpec InfoInit Schema SchemaSpec InfoLoad InfoReload.

Local Open Scope Z_scope.

Section safety.
Context `{InfoPkgs} `{!Growth} `{GL : !GrowthLaws} `{!Sorter} `{SL : !SorterLaws} `{IL : !InfoLaws} `{!DBCopies} `{CL : !DBCopyLaws}.
Context (range_schemas : gmap string Z -> list (string * Z)).
Context (range_schemas_perm : forall m, range_schemas m ≡ₚ map_to_list m).
Context (range_buckets : gset Z -> list Z).
Context (range_buckets_perm : forall s, range_buckets s ≡ₚ elements s).
Context (action_code : CausetActionType -> Z).
Context (InRepairMode : bool) (CheckAndFetchRepairedBlock : DBInfo -> BlockInfo -> bool).
Context (GetTimeFromTS : Z -> Z).
Context (drivers : list (Z * (list SlabPredictor -> BlockInfo -> res Block))) (ds : list loaded).
(** The largest limit of the validator's queue. *)
Context (M_ : Z).

Abbreviation Reload_ :=
  (Reload range_schemas range_buckets action_code InRepairMode CheckAndFetchRepairedBlock GetTimeFromTS drivers).
Abbreviation version_load := (v_version_load action_code InRepairMode CheckAndFetchRepairedBlock ds).
Abbreviation meta_fine := (meta_ok InRepairMode CheckAndFetchRepairedBlock ds).

(** What has happened: the view of the handle, the replicants that were
    published, the changes that the validator was told of since it was last
    reset, and those it was not told of because they cannot matter. *)
Record ghost : Type := MkGhost {
  g_view : option view;
  g_pub : list (Z * view);
  g_hist : list deltaSchemaInfo;
  g_skip : list (Z * list Z);
}.

(** A world in which a load succeeds up to etcd: versions do not go back, a
    change has the version it is stored under, and fits the view. *)
Record world_ok (g : ghost) (w : world) (ts : Z) (m : MetaSnapshot) (needed : Z) : Prop := {
  wo_ts : CurrentVersion w = Ok ts;
  wo_meta : GetSnapshotMeta w ts = Ok m;
  wo_version : GetSchemaVersion m = Ok needed;
  wo_full : meta_fine m;
  wo_diffs v : g_view g = Some v -> try_ok m (v_version v) needed v /\ v_version v <= needed;
  wo_keys k d : GetSchemaDiff m k = Ok (Some d) -> Version d = k;
  wo_count : 0 < MaxDeltaSchemaCount w <= M_;
}.

Definition skipped_ids (m : MetaSnapshot) (needed : Z) (v : view) : list Z :=
  match load_diffs m (v_version v) (Z.to_nat (needed - v_version v)) with
  | Ok (Some diffs) => v_skipped m diffs v
  | _ => []
  end.

(** What has happened after a load. *)
Definition after_load (g : ghost) (started : bool) (m : MetaSnapshot) (needed b : Z) (v' : view)
    (ch : option (RelatedSchemaChange Z)) (full : bool) : ghost :=
  let used := used_version (g_view g) in
  let hist := if full then [] else g_hist g in
  MkGhost (Some v') ((b, v') :: g_pub g)
    (if (started || full) && negb (needed =? used) then hist ++ [delta_of needed ch] else hist)
    (match g_view g with Some v => if full then [] else g_skip g ++ [(needed, skipped_ids m needed v)] | None => [] end).

(** The states a petri reaches when no report to etcd fails. *)
Inductive preach : petri -> ghost -> Prop :=
| pr_start p lease has_do : pok drivers ds p -> handles p !! infoHandle p = None ->
    validator p = NewSchemaValidator lease has_do -> preach p (MkGhost None [] [] [])
| pr_same p g w ts m needed p' : preach p g -> world_ok g w ts m needed ->
    same_version (used_version (g_view g)) needed = true -> Reload_ w p = (Ret tt, p') -> preach p' g
| pr_load p g w ts m needed v' ch full p' b : preach p g -> world_ok g w ts m needed ->
    same_version (used_version (g_view g)) needed = false ->
    version_load m (used_version (g_view g)) needed (g_view g) = Ok (v', ch, full) ->
    Reload_ w p = (Ret tt, p') -> handles p' !! infoHandle p' = Some b ->
    preach p' (after_load g (isStarted (validator p)) m needed b v' ch full)
| pr_fail p g w ts m needed e e' p' : preach p g -> world_ok g w ts m needed ->
    same_version (used_version (g_view g)) needed = false ->
    version_load m (used_version (g_view g)) needed (g_view g) = Err e' ->
    Reload_ w p = (Fail e, p') -> preach p' g
| pr_stop p g : preach p g -> preach (set_v (Stop (validator p)) p) (MkGhost (g_view g) (g_pub g) [] (g_skip g))
| pr_restart p g : preach p g -> preach (set_v (Restart (validator p)) p) g.

(** The tables of two views that the history does not tell apart. *)
Definition untouched (g : ghost) (u id : Z) : Prop :=
  (forall d, d ∈ g_hist g -> u < schemaVersion d -> id ∉ relatedIDs d) /\
  (forall ver ids, (ver, ids) ∈ g_skip g -> u < ver -> id ∉ ids).

Record pinv (p : petri) (g : ghost) : Prop := {
  pi_ok : pok drivers ds p;
  pi_view : holds_view p (infoHandle p) (g_view g);
  pi_vreach : vreach GetTimeFromTS M_ (validator p) (g_hist g);
  pi_aligned : Forall aligned (g_hist g);
  pi_stopped : isStarted (validator p) = false -> g_hist g = [];
  pi_versions : Forall (fun d => schemaVersion d <= used_version (g_view g)) (g_hist g);
  pi_pub l w : (l, w) ∈ g_pub g -> says (pt_heap p) l w /\ v_version w <= used_version (g_view g);
  pi_same l w e id : (l, w) ∈ g_pub g -> e ∈ g_hist g -> schemaVersion e <= v_version w -> untouched g (v_version w) id ->
    exists v, g_view g = Some v /\ v_tables v !! id = v_tables w !! id;
  pi_none : g_view g = None -> g_pub g = [] /\ g_hist g = [];
}.

Lemma started_update mc cur ts old new ch (vl vl' : schemaValidator Z) :
  Update GetTimeFromTS mc cur ts old new ch vl = Some vl' -> isStarted vl' = isStarted vl.
Proof.
  unfold Update. destruct (isStarted vl) eqn:E; cbn [negb]; [|by intros [= <-]].
  destruct (if negb (new =? old) then _ else _); cbn [mbind option_bind]; [by intros [= <-]|done].
Qed.

(** What a load gives. *)
Lemma load_facts g w ts m needed v' ch full : world_ok g w ts m needed ->
  same_version (used_version (g_view g)) needed = false -> (forall v, g_view g = Some v -> vinv v) ->
  version_load m (used_version (g_view g)) needed (g_view g) = Ok (v', ch, full) ->
  v_version v' = needed /\ aligned (delta_of needed ch) /\
  if full then ch = None
  else exists v, g_view g = Some v /\ v_version v < needed /\
    InfoSpec.reports v v' (relatedIDs (delta_of needed ch) ++ skipped_ids m needed v).
Proof using IL.
  intros [_ _ _ Mk Df Ky _] Sv Iv. unfold v_version_load. destruct (g_view g ≫= _) as [[[ids acts] v1]|] eqn:Et.
  - intros [= <- <- <-]. destruct (g_view g) as [v|]; [|done]. cbn [mbind option_bind used_version] in *.
    destruct (Df v eq_refl) as [Tk Le]. specialize (Iv v eq_refl). unfold v_try in Et.
    destruct (isTooOldSchema (v_version v) needed) eqn:Old; [done|].
    destruct (load_diffs _ _ _) as [[diffs|]|] eqn:El; [|done..]. destruct (v_diffs _ _ _ _ _ _) as [r|] eqn:Ed; [|done].
    injection Et as ->. destruct (v_diffs_honest action_code m diffs v [] [] _ Iv (Tk _ El) Ed) as (_ & ids' & acts' & Er & L & Rp).
    cbn in Er, Rp. injection Er as -> ->. pose proof (v_diffs_version action_code m diffs v [] [] _ Ed) as Vn. cbn [snd] in Vn.
    pose proof (load_diffs_last m _ _ _ Ky El) as La.
    assert (Lt : v_version v < needed).
    { unfold same_version in Sv. unfold isTooOldSchema, initialVersion in Old. apply orb_false_iff in Old as [O1 _].
      rewrite O1 in Sv. cbn in Sv. apply Z.eqb_neq in Sv. lia. }
    split; [|split; [exact L|]].
    + rewrite Vn. destruct (last diffs); [rewrite La; lia|lia].
    + exists v. split; [done|]. split; [done|]. unfold skipped_ids. by rewrite El.
  - destruct (v_load _ _ _ _ _) as [v1|] eqn:El; rewrite ?Ok_bind, ?Err_bind; [|done]. intros [= <- <- <-].
    split; [|done]. by apply (v_load_unique InRepairMode CheckAndFetchRepairedBlock m needed ds.*2 v1 Mk El).
Qed.

Lemma pinv_load p g w ts m needed v' ch full b h' vl : pinv p g -> world_ok g w ts m needed ->
  same_version (used_version (g_view g)) needed = false ->
  version_load m (used_version (g_view g)) needed (g_view g) = Ok (v', ch, full) ->
  says h' b v' -> vinv v' -> extends (pt_heap p) h' ->
  hears GetTimeFromTS w ts (used_version (g_view g)) needed b ch full (validator p) = Some vl ->
  pinv (set_v vl (installed h' (infoHandle p) b p)) (after_load g (isStarted (validator p)) m needed b v' ch full).
Proof using IL.
  intros [[Hok Dr] Hv Vr Al St Vs Pb Sm No] Wo Sv Vl Sy Iv X Hh.
  assert (Iv0 : forall v, g_view g = Some v -> vinv v).
  { intros v Ev. unfold holds_view in Hv. rewrite Ev in Hv. destruct (handles p !! infoHandle p); [by destruct Hv|done]. }
  destruct (load_facts g w ts m needed v' ch full Wo Sv Iv0 Vl) as (Vn & Ad & Fl). set (used := used_version (g_view g)) in *.
  set (hist := if full then [] else g_hist g).
  assert (Lt : Forall (fun d => schemaVersion d < needed) hist).
  { unfold hist. destruct full; [constructor|]. destruct Fl as (v & Ev & Lt & _). unfold used in Vs. rewrite Ev in Vs.
    eapply Forall_impl; [exact Vs|]. cbn. intros d. lia. }
  assert (Vd : schemaVersion (delta_of needed ch) = needed) by by destruct ch.
  set (hist' := if (isStarted (validator p) || full) && negb (needed =? used) then hist ++ [delta_of needed ch] else hist).
  assert (Sub : forall d, d ∈ hist' -> d ∈ hist \/ (d = delta_of needed ch /\ needed <> used)).
  { intros d. unfold hist'. destruct (_ && _) eqn:Eb; [|by left]. apply andb_true_iff in Eb as [_ Eb]. apply negb_true_iff, Z.eqb_neq in Eb.
    rewrite elem_of_app, list_elem_of_singleton. intros [?| ->]; [by left|by right]. }
  assert (Hst : isStarted vl = (isStarted (validator p) || full)).
  { unfold hears in Hh. rewrite (started_update _ _ _ _ _ _ _ _ Hh). by destruct full; [rewrite orb_true_r|rewrite orb_false_r]. }
  split; cbn [pt_heap set_v installed infoHandle handles g_view g_pub g_hist g_skip after_load validator].
  - split; [by eapply extends_heap_ok|by eapply extends_drivers].
  - unfold holds_view. cbn. by rewrite lookup_insert_eq.
  - fold used hist hist'. unfold hears in Hh. destruct Wo as [_ _ _ _ _ _ Mc].
    assert (Vr' : vreach GetTimeFromTS M_ (if full then Reset (validator p) else validator p) hist).
    { unfold hist. destruct full; [by eapply vr_reset|done]. }
    pose proof (vr_update GetTimeFromTS M_ (MaxDeltaSchemaCount w) b ts used needed ch _ vl _ Vr' Mc Ad (fun _ => Lt) Hh) as R.
    unfold hist'. destruct full; [cbn in R; by rewrite orb_true_r|by rewrite (orb_false_r (isStarted (validator p)))].
  - fold used hist hist'. apply Forall_forall. intros d Hd. destruct (Sub d Hd) as [Hd'|[-> _]]; [|done].
    unfold hist in Hd'. destruct full; [by apply elem_of_nil in Hd'|]. rewrite Forall_forall in Al. by apply Al.
  - fold used hist hist'. intros Ns. rewrite Hst in Ns. apply orb_false_iff in Ns as [N1 ->]. unfold hist', hist. rewrite N1. cbn. by apply St.
  - fold used hist hist'. cbn [used_version]. rewrite Vn. apply Forall_forall. intros d Hd. rewrite Forall_forall in Lt.
    destruct (Sub d Hd) as [Hd'|[-> _]]; [specialize (Lt d Hd')|]; lia.
  - fold used. cbn [used_version]. intros l w0 [[= -> ->]|Hw]%elem_of_cons; [split; [done|lia]|]. destruct (Pb l w0 Hw) as [S1 S2].
    split; [by eapply extends_says|]. unfold used in S2. destruct (g_view g) as [v|] eqn:Ev; cbn in S2.
    + destruct (wo_diffs _ _ _ _ _ Wo v Ev). lia.
    + destruct (No eq_refl) as [Np _]. rewrite Np in Hw. by apply elem_of_nil in Hw.
  - fold used hist hist'. cbn [used_version]. intros l w0 e id [[= -> ->]|Hw]%elem_of_cons He Le Un; [by exists v'|].
    exists v'. split; [done|]. destruct (Pb l w0 Hw) as [_ S2].
    destruct (g_view g) as [v|] eqn:Ev; [|destruct (No eq_refl) as [Np _]; rewrite Np in Hw; by apply elem_of_nil in Hw].
    destruct (wo_diffs _ _ _ _ _ Wo v Ev) as [_ Mono]. unfold used in *. cbn [used_version] in *.
    destruct (Sub e He) as [He'|[-> Nn]]; [|lia]. unfold hist in *. destruct full; [by apply elem_of_nil in He'|].
    destruct Fl as (v2 & [= <-] & Lt' & Rp). destruct Un as [U1 U2]. cbn [g_hist g_skip after_load used_version] in U1, U2.
    rewrite Ev in U1, U2. cbn [used_version] in U1. rewrite orb_false_r in U1.
    destruct (isStarted (validator p)) eqn:Est; [|rewrite (St eq_refl) in He'; by apply elem_of_nil in He'].
    rewrite ?Est in U1. cbn [andb] in U1. rewrite (proj2 (negb_true_iff _)) in U1 by (apply Z.eqb_neq; lia).
    rewrite (Rp id).
    + destruct (Sm l w0 e id Hw He' Le) as (v3 & [= <-] & ->); [|done]. split.
      * intros d Hd. apply U1. apply elem_of_app. by left.
      * intros ver ids Hi. apply U2. apply elem_of_app. by left.
    + rewrite not_elem_of_app. split.
      * apply U1; [apply elem_of_app; right; by left|]. rewrite Vd. lia.
      * apply (U2 needed); [apply elem_of_app; right; by left|lia].
  - done.
Qed.

(** The validator changes and the history with it. *)
Lemma pinv_validator p g vl hist : pinv p g -> vreach GetTimeFromTS M_ vl hist -> hist = g_hist g \/ hist = [] ->
  (isStarted vl = false -> hist = []) -> pinv (set_v vl p) (MkGhost (g_view g) (g_pub g) hist (g_skip g)).
Proof.
  intros [Ok Hv Vr Al St Vs Pb Sm No] R E St'. split; cbn; try done.
  - destruct E as [->| ->]; [done|constructor].
  - destruct E as [->| ->]; [done|constructor].
  - intros l w e id Hw He Le Un. destruct E as [->| ->]; [by apply (Sm l w e id)|by apply elem_of_nil in He].
  - intros Ev. destruct (No Ev) as [N1 N2]. split; [done|]. by destruct E as [->| ->].
Qed.

Lemma ghost_eta g : MkGhost (g_view g) (g_pub g) (g_hist g) (g_skip g) = g.
Proof. by destruct g. Qed.

Lemma reload_cases p g w ts m needed : pinv p g -> world_ok g w ts m needed ->
  if same_version (used_version (g_view g)) needed then
    exists l, handles p !! infoHandle p = Some l /\
      Reload_ w p = heard (hears GetTimeFromTS w ts (used_version (g_view g)) needed l None false (validator p)) p
  else
    match version_load m (used_version (g_view g)) needed (g_view g) with
    | Err e => exists h', Reload_ w p = (Fail e, put_heap h' p) /\ extends (pt_heap p) h'
    | Ok (v', ch, full) => exists b h', says h' b v' /\ vinv v' /\ extends (pt_heap p) h' /\
        Reload_ w p =
          let p' := installed h' (infoHandle p) b p in
          match told w needed v' with
          | Err e => (Fail e, p')
          | Ok _ => heard (hears GetTimeFromTS w ts (used_version (g_view g)) needed b ch full (validator p)) p'
          end
    end.
Proof using range_schemas_perm range_buckets_perm GL SL IL CL.
  intros I [W1 W2 W3 W4 W5 W6 W7]. apply Reload_run; try done; [by eapply pi_ok|by eapply pi_view|].
  intros v Ev. by apply W5.
Qed.

Lemma preach_pinv p g : preach p g -> pinv p g.
Proof using range_schemas_perm range_buckets_perm GL SL IL CL.
  induction 1 as [p lease has_do Ok Eh Ev|p g w ts m needed p' _ I Wo Sv Er|p g w ts m needed v' ch full p' b _ I Wo Sv El Er Eb
    |p g w ts m needed e e' p' _ I Wo Sv El Er|p g _ I|p g _ I].
  - split; cbn; try done.
    + unfold holds_view. by rewrite Eh.
    + rewrite Ev. constructor.
    + by intros l w []%elem_of_nil.
    + by intros l w e id []%elem_of_nil.
  - pose proof (reload_cases p g w ts m needed I Wo) as R. rewrite Sv in R. destruct R as (l & El & R). rewrite R in Er.
    destruct (hears _ _ _ _ _ _ _ _ _) as [vl|] eqn:Eh; [|done]. injection Er as <-. rewrite <- (ghost_eta g).
    assert (En : needed = used_version (g_view g)).
    { unfold same_version in Sv. apply andb_true_iff in Sv as [_ Sv]. by apply Z.eqb_eq in Sv. }
    unfold hears in Eh. pose proof (vr_update GetTimeFromTS M_ (MaxDeltaSchemaCount w) l ts (used_version (g_view g)) needed None _ vl _ (pi_vreach _ _ I)
      (wo_count _ _ _ _ _ Wo) ltac:(done) ltac:(by intros N; destruct N) Eh) as V.
    rewrite En, Z.eqb_refl, andb_false_r in V. apply pinv_validator; [done|done|by left|].
    rewrite (started_update _ _ _ _ _ _ _ _ Eh). by eapply pi_stopped.
  - pose proof (reload_cases p g w ts m needed I Wo) as R. rewrite Sv, El in R. destruct R as (b' & h' & Sy & Iv & X & R).
    rewrite R in Er. cbv zeta in Er. destruct (told w needed v'); [|done].
    destruct (hears _ _ _ _ _ _ _ _ _) as [vl|] eqn:Eh; [|done]. injection Er as <-.
    cbn in Eb. rewrite lookup_insert_eq in Eb. injection Eb as ->. by eapply pinv_load.
  - pose proof (reload_cases p g w ts m needed I Wo) as R. rewrite Sv, El in R. destruct R as (h' & R & X).
    rewrite R in Er. injection Er as _ <-. destruct I as [[Hok Dr] Hv Vr Al St Vs Pb Sm No]. split; cbn; try done.
    + split; [by eapply extends_heap_ok|by eapply extends_drivers].
    + unfold holds_view in *. cbn. destruct (handles p !! infoHandle p), (g_view g); try done.
      destruct Hv. split; [by eapply extends_says|done].
    + intros l w0 Hw. destruct (Pb l w0 Hw). split; [by eapply extends_says|done].
  - apply pinv_validator; [done|by eapply vr_stop, pi_vreach|by right|done].
  - rewrite <- (ghost_eta g). apply pinv_validator; [done|by apply vr_restart, pi_vreach|by left|done].
Qed.

(** ** A check that passes *)

(** C16: The composition of the loader and the validator, in every history of
    reloads, stops and restarts of the validator in which no report of a loaded
    version to etcd fails (a load itself may), and with a lease that is not
    zero: when a check passes for a transaction that started with the replicant
    [l], of a version older than the validator's latest, every table it names is
    in the current replicant the very table that it was in [l] (read in the heap,
    by the lookup of the code), unless a change of the TiFlash replicas touched
    it; the replicant [l] still says what it said when it was published. *)
Theorem Check_same_tables p g l w txnTS ids c : preach p g -> (l, w) ∈ g_pub g ->
  lease (validator p) <> 0 -> v_version w < latestSchemaVer (validator p) ->
  Check GetTimeFromTS (validator p) txnTS (v_version w) ids = Some (c, ResultSucc) ->
  says (pt_heap p) l w /\
  exists cur, handles p !! infoHandle p = Some cur /\
    forall id, id ∈ ids -> 0 < id -> (forall ver sk, (ver, sk) ∈ g_skip g -> v_version w < ver -> id ∉ sk) ->
      BlockByID cur id (pt_heap p) = BlockByID l id (pt_heap p).
Proof using range_schemas_perm range_buckets_perm GL SL IL CL.
  intros R Hp Le Lt E. pose proof (preach_pinv p g R) as I. destruct (pi_pub _ _ I l w Hp) as [Sy _].
  split; [done|]. destruct (Check_pass GetTimeFromTS M_ _ (g_hist g) txnTS _ _ c (pi_vreach _ _ I) Le Lt E) as (_ & _ & (e & He & Le') & Nc).
  pose proof (pi_view _ _ I) as Hv. unfold holds_view in Hv. pose proof (pi_none _ _ I) as No.
  destruct (g_view g) as [v|] eqn:Ev; [|destruct (No eq_refl) as [Np _]; rewrite Np in Hp; by apply elem_of_nil in Hp].
  destruct (handles p !! infoHandle p) as [cur|]; [|done]. destruct Hv as [Syc _]. exists cur. split; [done|].
  intros id Hid P Sk. destruct (pi_same _ _ I l w e id Hp He Le') as (v2 & Ev2 & Et).
  { split; [|done]. intros d Hd Ld Hi. pose proof (pi_aligned _ _ I) as Al. rewrite Forall_forall in Al. specialize (Al d Hd).
    apply list_elem_of_lookup in Hi as [i Ei]. destruct (lookup_lt_is_Some_2 (relatedCausetActions d) i) as [a Ea].
    { unfold aligned in Al. rewrite <- Al. by eapply lookup_lt_Some. }
    apply (Nc id a Hid). exists d. split; [done|]. split; [done|]. unfold pairs. apply list_elem_of_lookup. exists i.
    by rewrite lookup_zip_with, Ei; cbn; rewrite Ea. }
  assert (v2 = v) as -> by congruence. destruct Syc as (_ & n1 & F1 & bs1 & R1), Sy as (_ & n2 & F2 & bs2 & R2).
  rewrite (BlockByID_run _ _ _ _ _ _ _ _ id R1 P), (BlockByID_run _ _ _ _ _ _ _ _ id R2 P). by rewrite Et.
Qed.

(** ** Where it does not hold *)

Lemma hears_same w ts v cur (vl : schemaValidator Z) : isStarted vl = true ->
  exists vl', hears GetTimeFromTS w ts v v cur None false vl = Some vl' /\
    deltaSchemaInfos vl' = deltaSchemaInfos vl /\ latestSchemaVer vl' = v /\ lease vl' = lease vl /\ isStarted vl' = true.
Proof. intros St. unfold hears, Update. rewrite St, Z.eqb_refl. cbn. eexists. by split. Qed.

(** C19: When etcd fails after a load by changes, the new replicant is in the handle
    but the validator has not heard of the changes; the next reload finds the
    same version and tells the validator the version only.  Then the check
    passes for transactions of the older version whatever their tables. *)
Theorem etcd_failure_forgets p g w ts m needed v v' ch e w2 ts2 m2 : preach p g -> world_ok g w ts m needed ->
  g_view g = Some v -> 0 <= v_version v ->
  version_load m (v_version v) needed (Some v) = Ok (v', ch, false) -> same_version (v_version v) needed = false ->
  UpdateSelfVersion w needed = Err e ->
  CurrentVersion w2 = Ok ts2 -> GetSnapshotMeta w2 ts2 = Ok m2 -> GetSchemaVersion m2 = Ok needed -> meta_fine m2 ->
  isStarted (validator p) = true -> lease (validator p) <> 0 -> covered (deltaSchemaInfos (validator p)) (v_version v) ->
  exists p1 p2, Reload_ w p = (Fail e, p1) /\ Reload_ w2 p1 = (Ret tt, p2) /\
    holds_view p2 (infoHandle p2) (Some v') /\
    forall txnTS ids, ids <> [] -> Check GetTimeFromTS (validator p2) txnTS (v_version v) ids = Some (None, ResultSucc).
Proof using range_schemas_perm range_buckets_perm GL SL IL CL.
  intros R Wo Ev Nn Vl Sv Ee C2 M2 V2 F2 St Le Cov. pose proof (preach_pinv p g R) as I.
  pose proof (reload_cases p g w ts m needed I Wo) as Rc. rewrite Ev in Rc. cbn [used_version] in Rc. rewrite Sv, Vl in Rc.
  destruct Rc as (b & h' & Sy & Iv & X & Er). cbv zeta in Er.
  assert (Iv0 : forall v, g_view g = Some v -> vinv v).
  { intros v0 E0. pose proof (pi_view _ _ I) as Hv. unfold holds_view in Hv. rewrite E0 in Hv.
    destruct (handles p !! infoHandle p); [by destruct Hv|done]. }
  destruct (load_facts g w ts m needed v' ch false Wo) as (Vn & _ & (v0 & E0 & Lt & _)); [by rewrite Ev|done|by rewrite Ev|].
  assert (v0 = v) as -> by congruence.
  assert (Told : told w needed v' = Err e) by (unfold told; rewrite Vn, Z.ltb_irrefl; done).
  rewrite Told in Er. set (p1 := installed h' (infoHandle p) b p) in *. destruct I as [[Hok Dr] Hv Vr _ _ Vs _ _ _].
  pose proof (Reload_run range_schemas range_schemas_perm range_buckets range_buckets_perm action_code InRepairMode
    CheckAndFetchRepairedBlock GetTimeFromTS drivers ds p1 w2 ts2 m2 needed (Some v')) as R2.
  assert (Hv1 : holds_view p1 (infoHandle p1) (Some v')) by (unfold holds_view; cbn; by rewrite lookup_insert_eq).
  specialize (R2 ltac:(split; [by eapply extends_heap_ok|by eapply extends_drivers]) F2 Hv1 C2 M2 V2).
  specialize (R2 ltac:(intros v1 [= <-] diffs; rewrite Vn, Z.sub_diag; by intros [= <-])).
  cbn [used_version] in R2. rewrite Vn in R2. unfold same_version in R2. rewrite Z.eqb_refl, (proj2 (Z.eqb_neq needed 0)) in R2 by lia.
  destruct R2 as (l & El & R2). destruct (hears_same w2 ts2 needed l (validator p1) St) as (vl & Eh & Dq & Lv & Ll & Ls).
  rewrite Eh in R2. exists p1, (set_v vl p1). split; [done|]. split; [exact R2|]. split; [exact Hv1|].
  intros txnTS ids Ne. cbn [validator set_v]. rewrite Check_older; [|done|by rewrite Ll|by rewrite Lv|done].
  pose proof (vreach_qinv _ _ _ _ Vr) as [Q _]. cbn [validator p1 installed] in Dq.
  destruct (isRelatedBlocksChanged_spec GetTimeFromTS vl (g_hist g) (v_version v) ids) as (c & bb & -> & Cs); [by rewrite Dq|].
  rewrite Dq in Cs. cbn [mbind option_bind]. destruct Cs as [(Nc & _)|[(_ & -> & _)|(_ & -> & _ & Np & (_ & Rp & _))]]; [done|done|].
  exfalso. destruct (PhyTblIDS c) as [|i l0]; [done|]. destruct (proj1 (Rp i) ltac:(left)) as [_ (a & d & Hd & Ld & _)].
  rewrite Ev in Vs. cbn in Vs. rewrite Forall_forall in Vs. specialize (Vs d Hd). lia.
Qed.

Abbreviation loop_step_ :=
  (loop_step range_schemas range_buckets action_code InRepairMode CheckAndFetchRepairedBlock GetTimeFromTS drivers).

(** C20: When the session with etcd is lost, the validator is stopped, the newer
    version is loaded and the validator restarted: it has forgotten its version,
    so that until the next reload the check passes, within the old lease, for
    transactions of any older version and any tables. *)
Theorem restart_forgets p g w ts m needed v' ch : preach p g -> world_ok g w ts m needed ->
  same_version (used_version (g_view g)) needed = false ->
  version_load m (used_version (g_view g)) needed (g_view g) = Ok (v', ch, false) ->
  UpdateSelfVersion w needed = Ok tt -> lease (validator p) <> 0 ->
  exists p', loop_step_ (OnSyncerDone true [w]) p = (Ret false, p') /\ holds_view p' (infoHandle p') (Some v') /\
    forall txnTS u ids, 0 <= u -> GetTimeFromTS txnTS <= latestSchemaExpire (validator p) ->
      Check GetTimeFromTS (validator p') txnTS u ids = Some (None, ResultSucc).
Proof using range_schemas_perm range_buckets_perm GL SL IL CL.
  intros R Wo Sv Vl Ee Le. set (p1 := set_v (Stop (validator p)) p). pose proof (preach_pinv _ _ (pr_stop _ _ R)) as I.
  set (g1 := MkGhost _ _ _ _) in I. assert (Wo1 : world_ok g1 w ts m needed) by by destruct Wo.
  pose proof (reload_cases p1 g1 w ts m needed I Wo1) as Rc. cbn [g1 g_view] in Rc. rewrite Sv, Vl in Rc.
  destruct Rc as (b & h' & Sy & Iv & X & Er). cbv zeta in Er.
  assert (Told : told w needed v' = Ok tt) by (unfold told; by destruct (needed <? v_version v')).
  rewrite Told in Er. change (hears _ _ _ _ _ _ _ _ _) with (Some (Stop (validator p))) in Er. cbn [heard] in Er.
  eexists. split; [|split].
  - unfold loop_step. erewrite bind_Ret by reflexivity. cbv beta. erewrite bind_Ret by (unfold set_validator; reflexivity).
    cbn [negb]. change (MkPetri _ _ _ (Stop (validator p))) with p1.
    assert (Mr : mustReload range_schemas range_buckets action_code InRepairMode CheckAndFetchRepairedBlock GetTimeFromTS drivers [w] p1
      = (Ret false, set_v (Stop (validator p)) (installed h' (infoHandle p1) b p1))).
    { cbn [mustReload]. unfold catch. erewrite bind_Ret by (by rewrite Er). done. }
    erewrite bind_Ret by exact Mr. cbv beta iota. erewrite bind_Ret by reflexivity. cbv beta.
    erewrite bind_Ret by (unfold set_validator; reflexivity). reflexivity.
  - unfold holds_view. cbn. by rewrite lookup_insert_eq.
  - intros txnTS u ids Pu Lt. cbn. unfold Check. cbn. rewrite (proj2 (Z.eqb_neq _ _)) by done.
    rewrite (proj2 (Z.ltb_ge u 0)) by done. by rewrite (proj2 (Z.ltb_ge _ _)).
Qed.
End safety.
