(* ===== verification/SchemaWitness.v ===== *)
(** * Instances of the theorems on the slow-query log, the schema validator and
    the information schema: three changes of the validator, the last of which
    touches a table of the transactions that are checked; and a database of two
    tables, loaded, of which one is then dropped. *)

From stdpp Require Import base gmap list sorting strings option.
From Stdlib Require Import ZArith Lia Sorted.
From S2P Require Import Prelude External GoMonad GoHeap InfoSchema InfoBuilder InfoBuckets InfoView InfoOps InfoTables InfoDiff InfoSpec InfoInit InfoLoad InfoReload InfoSafety SlowQuery SlowQuerySpec Schema SchemaSpec.

Open Scope Z_scope.
Local Open Scope Z_scope.

Module SchemaEx.
Definition clock (ts : Z) : Z := ts.
Abbreviation V := (schemaValidator nat).
Abbreviation C := (RelatedSchemaChange nat).

Definition c1 : C := MkChange [7; 8] [1; 2] None false.
Definition c3 : C := MkChange [8; 9] [4; 1] None false.

Definition v0 : V := NewSchemaValidator 100 true.
Definition step (n : nat) (old cur : Z) (c : option C) (s : V) : V :=
  default s (Update clock 10 n 5 old cur c s).
Definition v1 : V := step 1 0 1 (Some c1) v0.
Definition v2 : V := step 2 1 2 None v1.
Definition v3 : V := step 3 2 3 (Some c3) v2.
Definition hist : list deltaSchemaInfo := [MkDelta 1 [7; 8] [1; 2]; MkDelta 2 [] []; MkDelta 3 [8; 9] [4; 1]].

Lemma v3_reach : vreach clock 10 v3 hist.
Proof.
  assert (R1 : vreach clock 10 v1 [MkDelta 1 [7; 8] [1; 2]]).
  { apply (vr_update clock 10 10 1%nat 5 0 1 (Some c1) v0 v1 []); [constructor|lia|done|by constructor|done]. }
  assert (R2 : vreach clock 10 v2 [MkDelta 1 [7; 8] [1; 2]; MkDelta 2 [] []]).
  { apply (vr_update clock 10 10 2%nat 5 1 2 None v1 v2 _ R1); [lia|done|by repeat constructor|done]. }
  apply (vr_update clock 10 10 3%nat 5 2 3 (Some c3) v2 v3 _ R2); [lia|done|by repeat constructor|done].
Qed.
End SchemaEx.

Lemma Check_sound_witness :
  Check SchemaEx.clock SchemaEx.v3 9 2 [7] = Some (None, ResultSucc) /\
  forall id a, id ∈ [7] -> ~ changed_since SchemaEx.hist 2 id a.
Proof.
  split; [by vm_compute|].
  refine (proj2 (proj2 (proj2 (proj2 (Check_sound SchemaEx.clock 10 SchemaEx.v3 SchemaEx.hist 9 2 [7] None SchemaEx.v3_reach _ _ _))))).
  - discriminate.
  - reflexivity.
  - by vm_compute.
Defined.

Lemma Check_changes_witness :
  Check SchemaEx.clock SchemaEx.v3 9 1 [9; 8] = Some (Some (MkChange [8; 9] [4; 1] (Some 3%nat) true), ResultFail) /\
  exists c r, Check SchemaEx.clock SchemaEx.v3 9 1 [9; 8] = Some (c, r) /\
    (covered (deltaSchemaInfos SchemaEx.v3) 1 ->
     (c = None /\ r = ResultSucc /\ forall id a, id ∈ [9; 8] -> ~ changed_since SchemaEx.hist 1 id a) \/
     (exists rc, c = Some rc /\ r = ResultFail /\ PhyTblIDS rc <> [] /\ SchemaSpec.reports rc SchemaEx.hist 1 [9; 8] /\
        LatestSchemaReplicant rc = latestSchemaReplicant SchemaEx.v3)) /\
    (~ covered (deltaSchemaInfos SchemaEx.v3) 1 -> c = None /\ r = ResultFail).
Proof.
  split; [by vm_compute|].
  apply (Check_changes SchemaEx.clock 10 SchemaEx.v3 SchemaEx.hist 9 1 [9; 8] SchemaEx.v3_reach);
    [done|discriminate|reflexivity|discriminate].
Defined.

Lemma queue_bounded_witness : (length (deltaSchemaInfos SchemaEx.v3) <= Z.to_nat 10)%nat.
Proof. exact (proj1 (queue_bounded SchemaEx.clock 10 SchemaEx.v3 SchemaEx.hist SchemaEx.v3_reach)). Defined.

Lemma CheckBySchemaVer_decides_witness :
  exists c e, CheckBySchemaVer SchemaEx.clock 10 (MkChecker 1 [8]) (fun _ => SchemaEx.v3) 9 1 = Some (c, e) /\
    e = Some ErrSchemaReplicantChanged.
Proof.
  destruct (CheckBySchemaVer_decides SchemaEx.clock 10 10 (MkChecker 1 [8]) (fun _ => SchemaEx.v3)
              (fun _ => SchemaEx.hist) 9 1 (fun _ => SchemaEx.v3_reach)) as (c & e & E & _).
  exists c, e. split; [exact E|]. vm_compute in E. congruence.
Defined.

(** * The slow-query log on concrete queries: two slots for the users' queries,
    three of them received, then a tick. *)

#[local] Existing Instance insertion_sorter.
#[local] Existing Instance insertion_sorter_laws.

#[local] Instance slow_ext : SlowExternals := {
  ExecDetails := unit; ShowSlowTop := 0; ShowSlowRecent := 1;
  ShowSlowHoTTDefault := 0; ShowSlowHoTTInternal := 1; ShowSlowHoTTAll := 2 }.

#[local] Instance slow_ext_laws : SlowExternalsLaws.
Proof. split; done. Qed.

Definition a_query (start duration : Z) : SlowQueryInfo :=
  mkSlowQueryInfo EmptyString start duration tt 0 0 EmptyString EmptyString EmptyString EmptyString
    EmptyString false true.

Definition three_queries : list SlowQueryInfo := [a_query 0 5; a_query 1 9; a_query 2 7].

(** The log after it received the three queries. *)
Definition three_log : topNSlowQueries :=
  mkTopN (mkQueue [a_query 1 9; a_query 2 7] 2) (mkHeap [a_query 2 7; a_query 1 9]) (mkHeap []) 2 10
    [] [] false.

Lemma three_reach : slow_reach 2 10 2 three_queries [] three_log.
Proof.
  change three_queries with ((([] ++ [a_query 0 5]) ++ [a_query 1 9]) ++ [a_query 2 7]).
  eapply reach_info; [eapply reach_log, reach_info; [eapply reach_log, reach_info;
    [eapply reach_log, reach_new| |]| |]| |]; vm_compute; reflexivity.
Qed.

(** The log after a tick at time 12, which expires the query that started at 1. *)
Definition ticked_log : topNSlowQueries :=
  mkTopN (mkQueue [a_query 1 9; a_query 2 7] 2) (mkHeap []) (mkHeap []) 2 10 [] [] false.

Lemma ticked_reach : slow_reach 2 10 2 three_queries [12] ticked_log.
Proof. eapply reach_tick; [apply three_reach|vm_compute; reflexivity]. Qed.

Lemma slow_queries_kept_witness :
  exists dropped expired, three_queries ≡ₚ dropped ++ expired /\
    (forall d, d ∈ dropped -> outranked 2 three_queries d).
Proof.
  destruct (slow_queries_kept 2 10 2 three_queries [12] ticked_log false) as (_ & d & x & P & _ & D & _).
  - lia.
  - lia.
  - apply ticked_reach.
  - exists d, x. split; [exact P|exact D].
Defined.

Lemma QueryTop_slowest_witness :
  exists ret q', QueryTop 1 ShowSlowHoTTDefault three_log = Some (ret, q') /\ Duration <$> ret = [9].
Proof.
  destruct (QueryTop_slowest 2 10 2 three_queries three_log false 1) as (ret & q' & E & _ & D).
  - lia.
  - lia.
  - lia.
  - apply three_reach.
  - exists ret, q'. split; [exact E|]. rewrite D. vm_compute. reflexivity.
Defined.

Lemma QueryRecent_last_witness : QueryRecent 1 three_log = Some [a_query 2 7].
Proof.
  destruct (QueryRecent_last 2 10 2 three_queries [] three_log 1) as [E _].
  - lia.
  - lia.
  - lia.
  - apply three_reach.
  - rewrite E. vm_compute. reflexivity.
Defined.

(** A request with the largest count. *)
Definition huge_msg : showSlowMessage := mkMsg 0 18446744073709551615 0.

Definition huge_log : topNSlowQueries :=
  mkTopN (recent three_log) (user three_log) (internal three_log) 2 10 [] [huge_msg] false.

Lemma huge_reach : slow_reach 2 10 2 three_queries [] huge_log.
Proof. eapply (reach_show _ _ _ _ _ _ huge_msg); [apply three_reach|vm_compute; reflexivity]. Qed.

Lemma loop_panics_witness : loop_step Msg huge_log = None /\ signed_of 64 (req_Count huge_msg) < 0.
Proof.
  split; [vm_compute; reflexivity|].
  destruct (loop_panics 2 10 2 three_queries [] huge_log Msg) as (_ & msg & E & N).
  - lia.
  - lia.
  - apply huge_reach.
  - vm_compute; reflexivity.
  - injection E as <-. exact N.
Defined.

(** * The information schema on a concrete store

    A database with two tables is loaded in full at version 1; version 2 drops
    the second table. *)

Module InfoEx.
#[global] Instance pkgs : InfoPkgs := {|
  SlabPredictor := Z; GetType := fun a => a; EventIDAllocType := 0; AutoIncrementType := 1; AutoRandomType := 2;
  NewSlabPredictorsFromTblInfo := fun _ _ => [0]; NewSlabPredictor := fun _ _ tp => tp;
  IsAutoIncDefCausUnsigned := fun _ => false; IsAutoRandomBitDefCausUnsigned := fun _ => false;
  Block := BlockInfo * list Z; Meta := fst; SlabPredictors := snd; BlockFromMeta := fun allocs i => Ok (i, allocs);
  BlockInfoVersion2 := 2; BlockInfoVersion3 := 3; DeferredCausetInfoVersion2 := 2;
  CharsetUTF8 := "utf8"; CharsetUTF8MB4 := "utf8mb4"; DefCauslationUTF8MB4 := "utf8mb4_bin";
  TreatOldVersionUTF8AsUTF8MB4 := false; ToLower := fun s => s; HasAutoIncrementFlag := fun _ => false; StatePublic := 5 |}.

#[global] Instance pkgs_laws : InfoLaws.
Proof. split. by intros allocs i t [= <-]. Qed.

#[global] Instance growth : Growth := fun c n => Nat.max (2 * c) n.
#[global] Instance growth_laws : GrowthLaws.
Proof. intros c n. unfold grow, growth. lia. Qed.

#[global] Existing Instance insertion_sorter.
#[global] Existing Instance insertion_sorter_laws.

(** A copy of a database, with a new list. *)
Definition copy_db (l : Z) : M heap Z :=
  d ← load_db l;
  infos ← read_infos (db_Blocks d);
  loc ← new_loc;
  arr ← new_loc;
  modify (with_infos (fun m => (sl_new arr infos m).2));;
  store_db loc (set_Blocks (sl_new arr infos ∅).1 d);;
  ret loc.

#[global] Instance copies : DBCopies := {| DB_INTERLOCKy := copy_db; DB_Clone := copy_db |}.

Lemma copy_db_copies h l d : hp_db h !! l = Some d -> sl_ok (hp_infos h) (db_Blocks d) ->
  exists l' a h', db_copied h d (copy_db l h) l' a h'.
Proof.
  intros Ed Ok. set (infos := sl_read (hp_infos h) (db_Blocks d)).
  assert (Ln : length infos = sl_len (db_Blocks d)) by by apply sl_read_length.
  exists (hp_next h), (hp_next h + 1),
    (MkHeap (hp_next h + 1 + 1) (hp_is h) (hp_sb h) (<[hp_next h := set_Blocks (MkSlice (hp_next h + 1) (sl_len (db_Blocks d))) d]> (hp_db h))
      (hp_blocks h) (<[hp_next h + 1 := MkArray infos (length infos)]> (hp_infos h))).
  split; cbn; try done; try lia.
  - unfold copy_db. erewrite bind_Ret by by apply load_db_run. rewrite <- Ln. reflexivity.
  - exists (length infos). split; [lia|done].
Qed.

#[global] Instance copies_laws : DBCopyLaws.
Proof. split; apply copy_db_copies. Qed.

Lemma schemas_perm (m : gmap string Z) : map_to_list m ≡ₚ map_to_list m.
Proof. done. Qed.
Lemma buckets_perm (s : gset Z) : elements s ≡ₚ elements s.
Proof. done. Qed.

Definition name (s : string) : CIStr := MkCIStr s s.
Definition table (id : Z) (s : string) : BlockInfo := MkBlockInfo id (name s) 3 "utf8mb4" "utf8mb4_bin" [] None false false 5.
Definition db : DBInfo := MkDBInfo 1 (name "test") "utf8mb4" "utf8mb4_bin" 5 nil_slice.

Definition meta1 : MetaSnapshot := {|
  GetSchemaVersion := Ok 1; GetSchemaDiff := fun _ => Ok None; GetDatabase := fun _ => Ok None; GetBlock := fun _ _ => Ok None;
  ListDatabases := Ok [db]; ListBlocks := fun _ => Ok [table 10 "a"; table 11 "b"] |}.

Definition drop_b : SchemaDiff := MkDiff 2 CausetActionDropBlock 1 11 0 0 [].

Definition meta2 : MetaSnapshot := {|
  GetSchemaVersion := Ok 2; GetSchemaDiff := fun v => Ok (if v =? 2 then Some drop_b else None);
  GetDatabase := fun _ => Ok None; GetBlock := fun _ _ => Ok None; ListDatabases := Ok [db]; ListBlocks := fun _ => Ok [table 10 "a"] |}.

Definition world_of (ts : Z) (m : MetaSnapshot) (etcd : res unit) : world := MkWorld (Ok ts) (fun _ => Ok m) (fun _ => etcd) 10 false.

Abbreviation ranges := (map_to_list : gmap string Z -> list (string * Z)).
Abbreviation buckets := (elements : gset Z -> list Z).
Definition code (tp : CausetActionType) : Z := 4.
Definition no_repair (d : DBInfo) (t : BlockInfo) : bool := false.
Definition clock (ts : Z) : Z := ts.
Definition reload : world -> M petri unit := Reload ranges buckets code false no_repair clock [].
Abbreviation reached := (preach ranges buckets code false no_repair clock [] [] 10).
Abbreviation fine g w ts m n := (world_ok false no_repair [] 10 g w ts m n).

Definition heap0 : heap := MkHeap 2 ∅ ∅ ∅ ∅ ∅.
Definition p0 : petri := MkPetri heap0 ∅ 1 (NewSchemaValidator 100 true).
Definition g0 : ghost := MkGhost None [] [] [].
Definition w1 : world := world_of 5 meta1 (Ok tt).
Definition w2 : world := world_of 6 meta2 (Ok tt).
Definition p1 : petri := (reload w1 p0).2.
Definition p2 : petri := (reload w2 p1).2.

Definition version_load_ (m : MetaSnapshot) (used needed : Z) (ov : option view) :=
  v_version_load code false no_repair [] m used needed ov.
Definition view1 : view := match version_load_ meta1 0 1 None with Ok (v, _, _) => v | Err _ => empty_view 0 end.
Definition view2 : view := match version_load_ meta2 1 2 (Some view1) with Ok (v, _, _) => v | Err _ => empty_view 0 end.
Definition cur1 : Z := default 0 (handles p1 !! 1).
Definition cur2 : Z := default 0 (handles p2 !! 1).
Definition g1 : ghost := after_load g0 true meta1 1 cur1 view1 None true.
Definition change2 : RelatedSchemaChange Z := MkChange [11] [16] None false.
Definition g2 : ghost := after_load g1 true meta2 2 cur2 view2 (Some change2) false.

Lemma p0_start : reached p0 g0.
Proof.
  eapply (pr_start) with (lease := 100) (has_do := true); [|done..]. split; [done|]. split; [done|constructor|constructor].
Qed.

Lemma reload1 : (reload w1 p0).1 = Ret tt /\ handles p1 !! infoHandle p1 = Some cur1.
Proof. by vm_compute. Qed.
Lemma reload2 : (reload w2 p1).1 = Ret tt /\ handles p2 !! infoHandle p2 = Some cur2.
Proof. by vm_compute. Qed.

Lemma srcs_ok1 : srcs_ok [MkSrc (db_head db) [table 10 "a"; table 11 "b"] BlockFromMeta].
Proof.
  split; [by apply (bool_decide_unpack _); vm_compute..| |].
  - intros o i ->%list_elem_of_singleton. cbn. intros [->|[->|[]%elem_of_nil]%elem_of_cons]%elem_of_cons; cbn; lia.
  - intros o allocs i t ->%list_elem_of_singleton. cbn. by intros [= <-].
Qed.

Lemma srcs_ok2 : srcs_ok [MkSrc (db_head db) [table 10 "a"] BlockFromMeta].
Proof.
  split; [by apply (bool_decide_unpack _); vm_compute..| |].
  - intros o i ->%list_elem_of_singleton. cbn. intros ->%list_elem_of_singleton. cbn. lia.
  - intros o allocs i t ->%list_elem_of_singleton. cbn. by intros [= <-].
Qed.

Lemma srcs1 : load_srcs false no_repair meta1 = Ok [MkSrc (db_head db) [table 10 "a"; table 11 "b"] BlockFromMeta].
Proof. reflexivity. Qed.
Lemma srcs2 : load_srcs false no_repair meta2 = Ok [MkSrc (db_head db) [table 10 "a"] BlockFromMeta].
Proof. reflexivity. Qed.

Lemma w1_ok : fine g0 w1 5 meta1 1.
Proof.
  split; [reflexivity..|intros os; rewrite srcs1; intros [= <-]; apply srcs_ok1|by intros v|by intros k d|done].
Qed.

Lemma drop_b_ok v : v_tables v !! 0 = None -> diff_ok meta2 drop_b v.
Proof.
  intros N. cbn. split; [|by intros r _]. split; cbn; [lia|done|by intros _].
Qed.

Lemma view1_tables : v_tables view1 !! 0 = None.
Proof. by vm_compute. Qed.

Lemma view2_ok : try_ok meta2 1 2 view1.
Proof.
  intros diffs. assert (E : load_diffs meta2 1 (Z.to_nat (2 - 1)) = Ok (Some [drop_b])) by reflexivity.
  rewrite E. intros [= <-]. split; [apply drop_b_ok, view1_tables|by intros r _].
Qed.

Lemma view1_version : v_version view1 = 1.
Proof. by vm_compute. Qed.

Lemma w2_any ts r : fine g1 (world_of ts meta2 r) ts meta2 2.
Proof.
  split; [reflexivity..|intros os; rewrite srcs2; intros [= <-]; apply srcs_ok2| | |done].
  - intros v [= <-]. rewrite view1_version. split; [exact view2_ok|lia].
  - intros k d. cbn. destruct (Z.eqb_spec k 2) as [->|]; [by intros [= <-]|done].
Qed.

Lemma w2_ok : fine g1 w2 6 meta2 2.
Proof. apply w2_any. Qed.

Lemma pair_of_fst {A B} (x : A * B) a : x.1 = a -> x = (a, x.2).
Proof. by destruct x; intros <-. Qed.

Lemma step1 : reload w1 p0 = (Ret tt, p1).
Proof. exact (pair_of_fst _ _ (proj1 reload1)). Qed.
Lemma step2 : reload w2 p1 = (Ret tt, p2).
Proof. exact (pair_of_fst _ _ (proj1 reload2)). Qed.

Lemma load1 : version_load_ meta1 0 1 None = Ok (view1, None, true).
Proof. by vm_compute. Qed.
Lemma load2 : version_load_ meta2 1 2 (Some view1) = Ok (view2, Some change2, false).
Proof. by vm_compute. Qed.

Lemma started1 : isStarted (validator p1) = true.
Proof. by vm_compute. Qed.

Lemma p1_reached : reached p1 g1.
Proof. exact (pr_load _ _ _ _ _ _ _ _ _ p0 g0 w1 5 meta1 1 view1 None true p1 cur1 p0_start w1_ok eq_refl load1 step1 (proj2 reload1)). Qed.

Lemma p2_reached : reached p2 g2.
Proof.
  unfold g2. rewrite <- started1.
  refine (pr_load _ _ _ _ _ _ _ _ _ p1 g1 w2 6 meta2 2 view2 (Some change2) false p2 cur2 p1_reached w2_ok _ _ step2 (proj2 reload2)).
  - change (same_version (v_version view1) 2 = false). by rewrite view1_version.
  - change (version_load_ meta2 (v_version view1) 2 (Some view1) = Ok (view2, Some change2, false)). rewrite view1_version. exact load2.
Qed.

Lemma published1 : (cur1, view1) ∈ g_pub g2.
Proof. right. left. Qed.
Lemma skip2 : g_skip g2 = [(2, [])].
Proof. by vm_compute. Qed.
Lemma check2 : lease (validator p2) = 100 /\ latestSchemaVer (validator p2) = 2 /\
  Check clock (validator p2) 7 1 [10] = Some (None, ResultSucc) /\
  (exists c, Check clock (validator p2) 7 1 [11] = Some (Some c, ResultFail) /\ PhyTblIDS c = [11]).
Proof. split; [by vm_compute|]. split; [by vm_compute|]. split; [by vm_compute|]. eexists. split; by vm_compute. Qed.

Definition w2_down : world := world_of 6 meta2 (Err ErrDatabaseNotExists).

Lemma g1_version : used_version (g_view g1) = 1.
Proof. exact view1_version. Qed.

Lemma load2' : v_version_load code false no_repair [] meta2 (used_version (g_view g1)) 2 (g_view g1) = Ok (view2, Some change2, false).
Proof. rewrite g1_version. exact load2. Qed.

Lemma says1 : says (pt_heap p1) cur1 view1 /\ vinv view1.
Proof.
  pose proof (pi_view _ _ _ _ _ _ (preach_pinv _ schemas_perm _ buckets_perm _ _ _ _ _ _ _ _ _ p1_reached)) as Hv.
  unfold holds_view in Hv. rewrite (proj2 reload1) in Hv. exact Hv.
Qed.

Lemma queue1 : covered (deltaSchemaInfos (validator p1)) 1.
Proof. exists (MkDelta 1 [] []), []. split; [by vm_compute|cbn; lia]. Qed.

Lemma lease1 : lease (validator p1) = 100.
Proof. by vm_compute. Qed.
Lemma expire1 : latestSchemaExpire (validator p1) = 5 + (100 - 1000000).
Proof. by vm_compute. Qed.
Lemma diff2 : v_diff meta2 drop_b view1 = Ok ([11], view2).
Proof. by vm_compute. Qed.
End InfoEx.

Lemma etcd_failure_forgets_witness :
  exists p1 p2, InfoEx.reload InfoEx.w2_down InfoEx.p1 = (Fail ErrDatabaseNotExists, p1) /\ InfoEx.reload InfoEx.w2 p1 = (Ret tt, p2) /\
    Check InfoEx.clock (validator p2) 7 (v_version InfoEx.view1) [11] = Some (None, ResultSucc).
Proof.
  destruct (etcd_failure_forgets _ InfoEx.schemas_perm _ InfoEx.buckets_perm InfoEx.code false InfoEx.no_repair InfoEx.clock [] [] 10
    InfoEx.p1 InfoEx.g1 InfoEx.w2_down 6 InfoEx.meta2 2 InfoEx.view1 InfoEx.view2 (Some InfoEx.change2) ErrDatabaseNotExists
    InfoEx.w2 6 InfoEx.meta2 InfoEx.p1_reached (InfoEx.w2_any 6 _) eq_refl ltac:(rewrite InfoEx.view1_version; lia) InfoEx.load2'
    ltac:(by rewrite InfoEx.view1_version) eq_refl eq_refl eq_refl eq_refl
    ltac:(intros os; rewrite InfoEx.srcs2; intros [= <-]; apply InfoEx.srcs_ok2) InfoEx.started1 ltac:(by rewrite InfoEx.lease1)
    ltac:(rewrite InfoEx.view1_version; exact InfoEx.queue1)) as (p1 & p2 & E1 & E2 & _ & C).
  exists p1, p2. split; [exact E1|]. split; [exact E2|]. by apply C.
Defined.

Lemma restart_forgets_witness :
  exists p', InfoLoad.loop_step map_to_list elements InfoEx.code false InfoEx.no_repair InfoEx.clock [] (OnSyncerDone true [InfoEx.w2]) InfoEx.p1 = (Ret false, p') /\
    Check InfoEx.clock (validator p') (-999895) 1 [11] = Some (None, ResultSucc).
Proof.
  destruct (restart_forgets _ InfoEx.schemas_perm _ InfoEx.buckets_perm InfoEx.code false InfoEx.no_repair InfoEx.clock [] [] 10
    InfoEx.p1 InfoEx.g1 InfoEx.w2 6 InfoEx.meta2 2 InfoEx.view2 (Some InfoEx.change2) InfoEx.p1_reached InfoEx.w2_ok
    ltac:(by rewrite InfoEx.g1_version) InfoEx.load2' eq_refl ltac:(by rewrite InfoEx.lease1)) as (p' & E & _ & C).
  exists p'. split; [exact E|]. apply C; [lia|]. rewrite InfoEx.expire1. unfold InfoEx.clock. lia.
Defined.

Lemma ApplyDiff_copy_on_write_witness :
  exists b h', changed_from map_to_list elements InfoEx.cur1 InfoEx.meta2 InfoEx.drop_b (pt_heap InfoEx.p1) = (Ret (b, [11]), h') /\
    says h' b InfoEx.view2 /\ says h' InfoEx.cur1 InfoEx.view1.
Proof.
  destruct InfoEx.says1 as [Sy Iv].
  pose proof (ApplyDiff_copy_on_write _ InfoEx.schemas_perm _ InfoEx.buckets_perm (pt_heap InfoEx.p1) InfoEx.cur1 InfoEx.view1 InfoEx.meta2
    InfoEx.drop_b Sy Iv (InfoEx.drop_b_ok _ InfoEx.view1_tables)) as R.
  rewrite InfoEx.diff2 in R. destruct R as (b & h' & E & S2 & _ & _ & K). exists b, h'. split; [exact E|]. split; [exact S2|by apply K].
Defined.

Lemma full_load_finds_witness :
  exists b h', load_full false InfoEx.no_repair [] InfoEx.meta1 1 InfoEx.heap0 = (Ret b, h') /\
    exists t, BlockByID b 11 h' = (Ret (Some t), h') /\ Meta t = InfoEx.table 11 "b".
Proof.
  pose proof (full_load_finds false InfoEx.no_repair InfoEx.meta1 1 InfoEx.heap0 [] []) as R. rewrite InfoEx.srcs1 in R.
  specialize (R ltac:(by split) ltac:(split; [done|constructor|constructor]) ltac:(intros os [= <-]; apply InfoEx.srcs_ok1)).
  destruct R as [(e & h' & E & _)|(b & h' & v & E & _ & _ & A & _)].
  - exfalso. assert (N : (load_full false InfoEx.no_repair [] InfoEx.meta1 1 InfoEx.heap0).1 <> Fail e) by (vm_compute; discriminate).
    apply N. by rewrite E.
  - exists b, h'. split; [exact E|]. apply (A (MkSrc (db_head InfoEx.db) [InfoEx.table 10 "a"; InfoEx.table 11 "b"] BlockFromMeta) (InfoEx.table 11 "b"));
      [left|right; left].
Defined.

Lemma Check_same_tables_witness :
  Check InfoEx.clock (validator InfoEx.p2) 7 1 [10] = Some (None, ResultSucc) /\
  exists cur, handles InfoEx.p2 !! infoHandle InfoEx.p2 = Some cur /\
    BlockByID cur 10 (pt_heap InfoEx.p2) = BlockByID InfoEx.cur1 10 (pt_heap InfoEx.p2).
Proof.
  destruct InfoEx.check2 as (L & V & C & _). split; [exact C|]. rewrite <- InfoEx.view1_version in C.
  destruct (Check_same_tables _ InfoEx.schemas_perm _ InfoEx.buckets_perm InfoEx.code false InfoEx.no_repair InfoEx.clock [] [] 10
    InfoEx.p2 InfoEx.g2 InfoEx.cur1 InfoEx.view1 7 [10] None InfoEx.p2_reached InfoEx.published1 ltac:(rewrite L; lia)
    ltac:(rewrite V, InfoEx.view1_version; lia) C) as (_ & cur & Ec & Hc).
  exists cur. split; [exact Ec|]. apply Hc; [left|lia|]. rewrite InfoEx.skip2. intros ver sk Hs _.
  apply list_elem_of_singleton in Hs. injection Hs as -> ->. intros Hn. by inversion Hn.
Defined.
