(* ===== verification/KvUnion.v ===== *)
(** * Reading through a write buffer (solomonkey: union_iter.go, union_store.go,
    iter.go, utils.go)

    A union store reads a buffer of writes over a snapshot; an empty value in
    the buffer is a deletion.  Iterators, getters and the two stores below are
    interfaces in the code, and classes here: the theorems hold for every
    implementation that keeps the laws.  The specification is the merge of the
    two sequences of pairs. *)

From stdpp Require Import base gmap list sorting strings.
From Stdlib Require Import Strings.Byte ZArith Lia Sorted.
From S2P Require Import Prelude.

Open Scope Z_scope.

(** ** Interfaces *)

(** [kv.ErrNotExist], and any other error. *)
Inductive kverror : Type :=
| ErrNotExist
| ErrKv (msg : string).

Abbreviation kvres := (result kverror).

Definition IsErrNotFound (e : kverror) : bool := match e with ErrNotExist => true | _ => false end.

Definition kv_out_of_fuel : kverror := ErrKv "out of fuel".

(** The interface [Iterator]; an iterator whose [Next] failed is not used
    again. *)
Class KvIterator (It : Type) : Type := {
  iter_Valid : It -> bool;
  iter_Key : It -> bytes;
  iter_Value : It -> bytes;
  iter_Next : It -> kvres It;
}.

#[export] Hint Mode KvIterator ! : typeclass_instances.

(** The iterator visits the pairs of the list, without an error. *)
Inductive enumerates {It} `{!KvIterator It} : It -> list (bytes * bytes) -> Prop :=
| enum_end it : iter_Valid it = false -> enumerates it []
| enum_step it it' l :
    iter_Valid it = true -> iter_Next it = Ok it' -> enumerates it' l ->
    enumerates it ((iter_Key it, iter_Value it) :: l).

(** [kv.NextUntil]. *)
Fixpoint NextUntil {It} `{!KvIterator It} (fuel : nat) (it : It) (fn : bytes -> bool) : kvres It :=
  match fuel with
  | O => Err kv_out_of_fuel
  | S fuel' =>
      if iter_Valid it && negb (fn (iter_Key it)) then
        it ← iter_Next it; NextUntil fuel' it fn
      else Ok it
  end.

(** ** UnionIter *)

Section union_iter.
Context {DI SI : Type} `{!KvIterator DI} `{!KvIterator SI}.

Record UnionIter : Type := MkUnionIter {
  dirtyIt : DI;
  snapshotIt : SI;
  dirtyValid : bool;
  snapshotValid : bool;
  curIsDirty : bool;
  isValid : bool;
  ui_reverse : bool;
}.

Definition dirtyNext (iter : UnionIter) : kvres UnionIter :=
  it ← iter_Next (dirtyIt iter);
  Ok (MkUnionIter it (snapshotIt iter) (iter_Valid it) (snapshotValid iter)
        (curIsDirty iter) (isValid iter) (ui_reverse iter)).

Definition snapshotNext (iter : UnionIter) : kvres UnionIter :=
  it ← iter_Next (snapshotIt iter);
  Ok (MkUnionIter (dirtyIt iter) it (dirtyValid iter) (iter_Valid it)
        (curIsDirty iter) (isValid iter) (ui_reverse iter)).

Definition set_cur (iter : UnionIter) (dirty : bool) : UnionIter :=
  MkUnionIter (dirtyIt iter) (snapshotIt iter) (dirtyValid iter) (snapshotValid iter)
    dirty (isValid iter) (ui_reverse iter).
Definition set_valid (iter : UnionIter) (valid : bool) : UnionIter :=
  MkUnionIter (dirtyIt iter) (snapshotIt iter) (dirtyValid iter) (snapshotValid iter)
    (curIsDirty iter) valid (ui_reverse iter).

Definition is_nil (v : bytes) : bool := match v with [] => true | _ => false end.

Fixpoint updateCur_loop (fuel : nat) (iter : UnionIter) : kvres UnionIter :=
  match fuel with
  | O => Err kv_out_of_fuel
  | S fuel' =>
      if negb (dirtyValid iter) && negb (snapshotValid iter) then Ok (set_valid iter false)
      else if negb (dirtyValid iter) then Ok (set_cur iter false)
      else if negb (snapshotValid iter) then
        let iter := set_cur iter true in
        if is_nil (iter_Value (dirtyIt iter)) then
          iter ← dirtyNext iter; updateCur_loop fuel' iter
        else Ok iter
      else
        let cmp := bytes_compare (iter_Key (dirtyIt iter)) (iter_Key (snapshotIt iter)) in
        let cmp := if ui_reverse iter then CompOpp cmp else cmp in
        match cmp with
        | Eq =>
            if is_nil (iter_Value (dirtyIt iter)) then
              iter ← dirtyNext iter;
              iter ← snapshotNext iter;
              updateCur_loop fuel' iter
            else
              iter ← snapshotNext iter;
              Ok (set_cur iter true)
        | Gt => Ok (set_cur iter false)
        | Lt =>
            if is_nil (iter_Value (dirtyIt iter)) then
              iter ← dirtyNext iter; updateCur_loop fuel' iter
            else Ok (set_cur iter true)
        end
  end.

Definition updateCur (fuel : nat) (iter : UnionIter) : kvres UnionIter :=
  updateCur_loop fuel (set_valid iter true).

Definition NewUnionIter (fuel : nat) (d : DI) (s : SI) (rev : bool) : kvres UnionIter :=
  updateCur fuel (MkUnionIter d s (iter_Valid d) (iter_Valid s) false false rev).

Definition union_Next (fuel : nat) (iter : UnionIter) : kvres UnionIter :=
  iter ← (if negb (curIsDirty iter) then snapshotNext iter else dirtyNext iter);
  updateCur fuel iter.

Definition union_Value (iter : UnionIter) : bytes :=
  if negb (curIsDirty iter) then iter_Value (snapshotIt iter) else iter_Value (dirtyIt iter).
Definition union_Key (iter : UnionIter) : bytes :=
  if negb (curIsDirty iter) then iter_Key (snapshotIt iter) else iter_Key (dirtyIt iter).

(** The union iterator is an iterator; [fuel] bounds the deletions in the
    buffer that one step passes over. *)
#[export] Instance union_iterator (fuel : nat) : KvIterator UnionIter := {|
  iter_Valid := isValid;
  iter_Key := union_Key;
  iter_Value := union_Value;
  iter_Next := union_Next fuel;
|}.
End union_iter.
Arguments UnionIter : clear implicits.

(** ** The union store *)

(** [Get], [Iter] and [IterReverse] of the interface [Retriever]. *)
Class Retriever (R It : Type) : Type := {
  ret_Get : R -> bytes -> kvres bytes;
  ret_Iter : R -> bytes -> bytes -> kvres It;
  ret_IterReverse : R -> bytes -> kvres It;
}.

#[export] Hint Mode Retriever ! - : typeclass_instances.

(** The methods of [MemBuffer] that a union store adds: the flag
    [PresumeKeyNotExists] of a key, and its removal. *)
Class MemBufferFlags (B : Type) : Type := {
  buf_PresumeKeyNotExists : B -> bytes -> kvres bool;
  buf_DelPresumeKeyNotExists : B -> bytes -> B;
}.

Section union_store.
Context {B Sn DI SI Val : Type}.
Context `{!KvIterator DI} `{!KvIterator SI} `{!Retriever B DI} `{!Retriever Sn SI} `{!MemBufferFlags B}.

Record unionStore : Type := MkUnionStore {
  memBuffer : B;
  us_snapshot : Sn;
  idxNameCache : gmap (Z * Z) string;
  us_opts : gmap Z Val;
}.

Definition NewUnionStore (empty : B) (snapshot : Sn) : unionStore := MkUnionStore empty snapshot ∅ ∅.

Definition us_Get (us : unionStore) (k : bytes) : kvres bytes :=
  let r := ret_Get (memBuffer us) k in
  let r := match r with
           | Err e => if IsErrNotFound e then ret_Get (us_snapshot us) k else r
           | Ok _ => r
           end in
  v ← r;
  if is_nil v then Err ErrNotExist else Ok v.

Definition us_Iter (fuel : nat) (us : unionStore) (k upperBound : bytes) : kvres (UnionIter DI SI) :=
  bufferIt ← ret_Iter (memBuffer us) k upperBound;
  retrieverIt ← ret_Iter (us_snapshot us) k upperBound;
  NewUnionIter fuel bufferIt retrieverIt false.

Definition us_IterReverse (fuel : nat) (us : unionStore) (k : bytes) : kvres (UnionIter DI SI) :=
  bufferIt ← ret_IterReverse (memBuffer us) k;
  retrieverIt ← ret_IterReverse (us_snapshot us) k;
  NewUnionIter fuel bufferIt retrieverIt true.

Definition HasPresumeKeyNotExists (us : unionStore) (k : bytes) : bool :=
  match buf_PresumeKeyNotExists (memBuffer us) k with Err _ => false | Ok b => b end.

Definition UnmarkPresumeKeyNotExists (us : unionStore) (k : bytes) : unionStore :=
  MkUnionStore (buf_DelPresumeKeyNotExists (memBuffer us) k) (us_snapshot us) (idxNameCache us) (us_opts us).

Definition GetIndexName (us : unionStore) (blockID indexID : Z) : string :=
  default "UNKNOWN"%string (idxNameCache us !! (blockID, indexID)).

Definition CacheIndexName (us : unionStore) (blockID indexID : Z) (name : string) : unionStore :=
  MkUnionStore (memBuffer us) (us_snapshot us) (<[(blockID, indexID) := name]> (idxNameCache us)) (us_opts us).

Definition SetOption (us : unionStore) (opt : Z) (val : Val) : unionStore :=
  MkUnionStore (memBuffer us) (us_snapshot us) (idxNameCache us) (<[opt := val]> (us_opts us)).
Definition DelOption (us : unionStore) (opt : Z) : unionStore :=
  MkUnionStore (memBuffer us) (us_snapshot us) (idxNameCache us) (delete opt (us_opts us)).
Definition GetOption (us : unionStore) (opt : Z) : option Val := us_opts us !! opt.
End union_store.
Arguments unionStore : clear implicits.

(** ** Batches of gets and walks (utils.go) *)

Class BatchGetter (Sn : Type) : Type := {
  snap_BatchGet : Sn -> list bytes -> kvres (gmap bytes bytes);
}.

(** [MemBuffer.Len]. *)
Class MemBufferLen (B : Type) : Type := {
  buf_Len : B -> Z;
}.

(** [WalkMemBuffer]; [f] threads the state that its closure writes. *)
Fixpoint WalkMemBuffer_loop {It A} `{!KvIterator It} (fuel : nat) (it : It)
    (f : A -> bytes -> bytes -> kvres A) (a : A) : kvres A :=
  match fuel with
  | O => Err kv_out_of_fuel
  | S fuel' =>
      if iter_Valid it then
        a ← f a (iter_Key it) (iter_Value it);
        it ← iter_Next it;
        WalkMemBuffer_loop fuel' it f a
      else Ok a
  end.

Definition WalkMemBuffer {R It A} `{!KvIterator It} `{!Retriever R It} (fuel : nat) (memBuf : R)
    (f : A -> bytes -> bytes -> kvres A) (a : A) : kvres A :=
  it ← ret_Iter memBuf [] []; WalkMemBuffer_loop fuel it f a.

Section batch.
Context {B Sn DI : Type} `{!Retriever B DI} `{!MemBufferLen B} `{!BatchGetter Sn}.

(** [midbse] is the [Get] of an optional cache. *)
Record BufferBatchGetter : Type := MkBatchGetter {
  bg_buffer : B;
  bg_midbse : option (bytes -> kvres bytes);
  bg_snapshot : Sn;
}.

(** The values found in front of the snapshot, one per key, and the keys left
    for the snapshot. *)
Fixpoint BatchGet_loop (b : BufferBatchGetter) (keys : list bytes) : kvres (list bytes * list bytes) :=
  match keys with
  | [] => Ok ([], [])
  | key :: keys' =>
      match ret_Get (bg_buffer b) key with
      | Ok val =>
          '(values, shrinkKeys) ← BatchGet_loop b keys'; Ok (val :: values, shrinkKeys)
      | Err e =>
          if negb (IsErrNotFound e) then Err e
          else
            match (match bg_midbse b with Some get => get key | None => Err ErrNotExist end) with
            | Ok val =>
                '(values, shrinkKeys) ← BatchGet_loop b keys'; Ok (val :: values, shrinkKeys)
            | Err _ =>
                '(values, shrinkKeys) ← BatchGet_loop b keys'; Ok ([] :: values, key :: shrinkKeys)
            end
      end
  end.

Fixpoint put_values (keys values : list bytes) (m : gmap bytes bytes) : gmap bytes bytes :=
  match keys, values with
  | key :: keys', v :: values' =>
      put_values keys' values' (if is_nil v then m else <[key := v]> m)
  | _, _ => m
  end.

Definition bg_BatchGet (b : BufferBatchGetter) (keys : list bytes) : kvres (gmap bytes bytes) :=
  if buf_Len (bg_buffer b) =? 0 then snap_BatchGet (bg_snapshot b) keys
  else
    '(bufferValues, shrinkKeys) ← BatchGet_loop b keys;
    storageValues ← snap_BatchGet (bg_snapshot b) shrinkKeys;
    Ok (put_values keys bufferValues storageValues).
End batch.
Arguments BufferBatchGetter : clear implicits.

(** * What a union store reads

    [merge] is the list a union iterator should visit; [updateCur_spec] shows
    that one step of the iterator finds its head.  The theorems say what the
    list is: each key once, in order, the buffer before the snapshot, and
    without the keys the buffer deletes; and that [Get] agrees with it. *)

(** ** Order and merge *)

(** The order of a visit. *)
Definition key_lt (rev : bool) (a b : bytes) : Prop := if rev then b <b a else a <b b.
Definition kv_lt (rev : bool) (p q : bytes * bytes) : Prop := key_lt rev p.1 q.1.
Definition key_cmp (rev : bool) (a b : bytes) : comparison :=
  if rev then CompOpp (bytes_compare a b) else bytes_compare a b.

Lemma key_cmp_spec rev a b :
  CompareSpec (a = b) (key_lt rev a b) (key_lt rev b a) (key_cmp rev a b).
Proof. unfold key_cmp, key_lt. destruct rev, (bytes_compare_spec a b); by constructor. Qed.

Lemma key_lt_trans rev a b c : key_lt rev a b -> key_lt rev b c -> key_lt rev a c.
Proof. unfold key_lt. destruct rev; eauto using blt_trans. Qed.
Lemma key_lt_irrefl rev a : ~ key_lt rev a a.
Proof. unfold key_lt. destruct rev; apply blt_irrefl. Qed.

Fixpoint merge (rev : bool) (d : list (bytes * bytes)) : list (bytes * bytes) -> list (bytes * bytes) :=
  fix merge_s (s : list (bytes * bytes)) : list (bytes * bytes) :=
    match d, s with
    | [], _ => s
    | (kd, vd) :: d', [] => if is_nil vd then merge rev d' [] else (kd, vd) :: merge rev d' []
    | (kd, vd) :: d', (ks, vs) :: s' =>
        match key_cmp rev kd ks with
        | Eq => if is_nil vd then merge rev d' s' else (kd, vd) :: merge rev d' s'
        | Gt => (ks, vs) :: merge_s s'
        | Lt => if is_nil vd then merge rev d' s else (kd, vd) :: merge rev d' s
        end
    end.

Lemma merge_nil rev s : merge rev [] s = s.
Proof. by destruct s. Qed.

Lemma merge_cons rev kd vd d ks vs s :
  merge rev ((kd, vd) :: d) ((ks, vs) :: s) =
  match key_cmp rev kd ks with
  | Eq => if is_nil vd then merge rev d s else (kd, vd) :: merge rev d s
  | Gt => (ks, vs) :: merge rev ((kd, vd) :: d) s
  | Lt => if is_nil vd then merge rev d ((ks, vs) :: s) else (kd, vd) :: merge rev d ((ks, vs) :: s)
  end.
Proof. done. Qed.

Lemma is_nil_true (v : bytes) : is_nil v = true <-> v = [].
Proof. by destruct v. Qed.

(** The pairs that the buffer and the snapshot make together. *)
Definition union_pair (d s : list (bytes * bytes)) (p : bytes * bytes) : Prop :=
  (p ∈ d /\ p.2 <> []) \/ (p ∈ s /\ p.1 ∉ d.*1).

Lemma merge_lower rev d s k :
  Forall (fun p => key_lt rev k p.1) d -> Forall (fun p => key_lt rev k p.1) s ->
  Forall (fun p => key_lt rev k p.1) (merge rev d s).
Proof.
  revert s. induction d as [|[kd vd] d IH]; intros s Fd Fs; [by rewrite merge_nil|].
  apply Forall_cons in Fd as [Hd Fd]. induction s as [|[ks vs] s IHs]; cbn [merge].
  - destruct (is_nil vd); [by apply IH|]. constructor; [done|by apply IH].
  - apply Forall_cons in Fs as Fs'. destruct Fs' as [Hs Fs']. specialize (IHs Fs').
    destruct (key_cmp rev kd ks); [destruct (is_nil vd)|destruct (is_nil vd)|]; auto.
Qed.

Lemma kv_lt_lower rev k v k' l :
  Forall (kv_lt rev (k, v)) l -> key_lt rev k' k -> Forall (fun p => key_lt rev k' p.1) l.
Proof. intros F L. eapply Forall_impl; [exact F|]. intros p Hp. by eapply key_lt_trans. Qed.

Lemma merge_sorted rev d s :
  StronglySorted (kv_lt rev) d -> StronglySorted (kv_lt rev) s -> StronglySorted (kv_lt rev) (merge rev d s).
Proof.
  intros Sd. revert s. induction Sd as [|[kd vd] d Sd IH Fd]; intros s Ss; [by rewrite merge_nil|].
  induction Ss as [|[ks vs] s Ss IHs Fs]; cbn [merge].
  - destruct (is_nil vd); [by apply IH; constructor|]. constructor; [by apply IH; constructor|].
    by apply (merge_lower rev d [] kd).
  - destruct (key_cmp_spec rev kd ks) as [->|L|L].
    + destruct (is_nil vd); [by apply IH|]. constructor; [by apply IH|]. by apply merge_lower.
    + destruct (is_nil vd); [by apply IH; constructor|]. constructor; [by apply IH; constructor|].
      apply merge_lower; [done|]. constructor; [done|]. by eapply kv_lt_lower.
    + constructor; [done|]. apply (merge_lower rev ((kd, vd) :: d) s ks); [|done].
      constructor; [done|]. by eapply kv_lt_lower.
Qed.

Lemma lower_notin rev k (l : list (bytes * bytes)) :
  Forall (fun p => key_lt rev k p.1) l -> k ∉ l.*1.
Proof.
  intros F Hk. apply list_elem_of_fmap in Hk as (p & -> & Hp). rewrite Forall_forall in F.
  by apply F, key_lt_irrefl in Hp.
Qed.

Lemma elem_pair (k v k' v' : bytes) l :
  (k, v) ∈ (k', v') :: l <-> (k = k' /\ v = v') \/ (k, v) ∈ l.
Proof. rewrite elem_of_cons. naive_solver. Qed.

Lemma elem_key (k v : bytes) (l : list (bytes * bytes)) : (k, v) ∈ l -> k ∈ l.*1.
Proof. intros Hk. apply list_elem_of_fmap. by exists (k, v). Qed.

Lemma merge_elem rev d s p :
  StronglySorted (kv_lt rev) d -> StronglySorted (kv_lt rev) s ->
  p ∈ merge rev d s <-> union_pair d s p.
Proof.
  destruct p as [k v]. unfold union_pair. cbn [fst snd].
  intros Sd. revert s. induction Sd as [|[kd vd] d Sd IH Fd]; intros s Ss.
  { rewrite merge_nil. cbn. split; [right; split; [done|by inversion 1]|].
    intros [[A _]|[A _]]; [by inversion A|done]. }
  pose proof (lower_notin rev kd d Fd) as Nd. pose proof (elem_key k v d) as F1.
  induction Ss as [|[ks vs] s Ss IHs Fs]; [cbn [merge]|rewrite merge_cons]; rewrite ?fmap_cons; cbn [fst].
  - pose proof (IH [] ltac:(constructor)) as IH0. pose proof (elem_of_nil (k, v)) as F2.
    rewrite (elem_pair _ _ kd vd d), elem_of_cons.
    destruct vd as [|x vd]; cbn [is_nil]; rewrite ?elem_pair, IH0; clear -F2; naive_solver.
  - pose proof (lower_notin rev ks s Fs) as Ns. pose proof (elem_key k v s) as F2.
    rewrite (elem_pair _ _ kd vd d), (elem_pair _ _ ks vs s), (elem_of_cons _ k kd).
    destruct (key_cmp_spec rev kd ks) as [->|L|L].
    + pose proof (IH s Ss) as IH0. clear -IH0 F1 F2 Nd Ns.
      destruct vd as [|x vd]; cbn [is_nil]; rewrite ?elem_pair, IH0; naive_solver.
    + pose proof (IH ((ks, vs) :: s) ltac:(by constructor)) as IH0.
      assert (kd <> ks /\ kd ∉ s.*1) as [N1 N2].
      { split; [by intros ->; apply key_lt_irrefl in L|].
        apply (lower_notin rev). by eapply kv_lt_lower. }
      rewrite elem_pair in IH0. clear -IH0 F1 F2 Nd N1 N2.
      destruct vd as [|x vd]; cbn [is_nil]; rewrite ?elem_pair, IH0; naive_solver.
    + assert (ks <> kd /\ ks ∉ d.*1) as [N1 N2].
      { split; [by intros ->; apply key_lt_irrefl in L|].
        apply (lower_notin rev). by eapply kv_lt_lower. }
      rewrite fmap_cons, elem_pair, (elem_of_cons _ k kd) in IHs. cbn [fst] in IHs.
      rewrite elem_pair.
      clear -IHs N1 N2. naive_solver.
Qed.

(** ** The iterator visits the merge *)

Section iterator.
Context {DI SI : Type} `{!KvIterator DI} `{!KvIterator SI}.
Context (rev : bool).

Lemma enumerates_valid {It} `{!KvIterator It} (it : It) l :
  enumerates it l -> iter_Valid it = match l with [] => false | _ => true end.
Proof. by intros []. Qed.

Lemma enumerates_cons {It} `{!KvIterator It} (it : It) k v l :
  enumerates it ((k, v) :: l) ->
  iter_Key it = k /\ iter_Value it = v /\ exists it', iter_Next it = Ok it' /\ enumerates it' l.
Proof. intros En. inversion En; subst. eauto. Qed.

Definition some {A} (l : list A) : bool := match l with [] => false | _ => true end.

(** The two iterators have [d] and [s] to visit, and the flags say so. *)
Record ready (it : UnionIter DI SI) (d s : list (bytes * bytes)) : Prop := {
  rd_d : enumerates (dirtyIt it) d;
  rd_s : enumerates (snapshotIt it) s;
  rd_dv : dirtyValid it = some d;
  rd_sv : snapshotValid it = some s;
  rd_rev : ui_reverse it = rev;
}.

(** The iterator stands on the head of [R]. *)
Definition stands (it : UnionIter DI SI) (d s R : list (bytes * bytes)) : Prop :=
  if isValid it then
    if curIsDirty it
    then exists k v d', d = (k, v) :: d' /\ R = (k, v) :: merge rev d' s
    else exists k v s', s = (k, v) :: s' /\ R = (k, v) :: merge rev d s'
  else R = [].

Lemma dirtyNext_ready it k v d s :
  ready it ((k, v) :: d) s ->
  exists it', dirtyNext it = Ok it' /\ ready it' d s /\ isValid it' = isValid it.
Proof.
  intros [Ed Es Vd Vs R]. apply enumerates_cons in Ed as (_ & _ & it' & En & Ed).
  unfold dirtyNext. rewrite En. eexists. split; [reflexivity|]. split; [|done].
  split; [done|done| |done|done]. cbn. by apply enumerates_valid.
Qed.

Lemma snapshotNext_ready it k v d s :
  ready it d ((k, v) :: s) ->
  exists it', snapshotNext it = Ok it' /\ ready it' d s /\ isValid it' = isValid it.
Proof.
  intros [Ed Es Vd Vs R]. apply enumerates_cons in Es as (_ & _ & it' & En & Es).
  unfold snapshotNext. rewrite En. eexists. split; [reflexivity|]. split; [|done].
  split; [done|done|done| |done]. cbn. by apply enumerates_valid.
Qed.

Lemma updateCur_loop_spec fuel it d s :
  ready it d s -> isValid it = true -> (length d < fuel)%nat ->
  exists it' d' s', updateCur_loop fuel it = Ok it' /\ ready it' d' s' /\
    stands it' d' s' (merge rev d s) /\ (length d' <= length d)%nat.
Proof.
  revert it d s. induction fuel as [|fuel IH]; intros it d s Rd Vi Lf; [lia|].
  cbn [updateCur_loop]. pose proof Rd as [Ed Es Vd Vs Rv]. rewrite Vd, Vs.
  assert (forall it2 d2 s2, ready it2 d2 s2 -> isValid it2 = isValid it -> (length d2 < length d)%nat ->
    merge rev d2 s2 = merge rev d s -> exists it' d' s', updateCur_loop fuel it2 = Ok it' /\
      ready it' d' s' /\ stands it' d' s' (merge rev d s) /\ (length d' <= length d)%nat) as Again.
  { intros it2 d2 s2 R2 V2 L2 <-. destruct (IH it2 d2 s2) as (it' & d' & s' & E & R' & St & L');
      [done|congruence|lia|]. exists it', d', s'. split_and!; [done..|lia]. }
  assert (forall b, ready (set_cur it b) d s) as Rset by (by intros b; split).
  destruct d as [|[kd vd] d], s as [|[ks vs] s]; cbn [some negb andb].
  - eexists _, [], []. split; [reflexivity|]. split; [by split|]. split; [done|lia].
  - eexists _, [], _. split; [reflexivity|]. split; [apply Rset|]. split; [|lia].
    unfold stands. cbn [set_cur isValid curIsDirty]. rewrite Vi. exists ks, vs, s. by rewrite !merge_nil.
  - apply enumerates_cons in Ed as (Ek & Ev & _). cbn [set_cur dirtyIt]. rewrite Ev.
    destruct (is_nil vd) eqn:N.
    + destruct (dirtyNext_ready _ _ _ _ _ (Rset true)) as (it2 & E2 & R2 & V2). rewrite E2.
      cbn [mbind result_mbind]. apply (Again it2 d []); [done|done|simpl; lia|]. cbn [merge]. by rewrite N.
    + eexists _, _, []. split; [reflexivity|]. split; [apply Rset|]. split; [|lia].
      unfold stands. cbn [set_cur isValid curIsDirty merge]. rewrite Vi, N. eauto.
  - pose proof Ed as Ed'. apply enumerates_cons in Ed as (Ek & Ev & _).
    apply enumerates_cons in Es as (Ek' & _ & _). rewrite Ek, Ek', Ev, Rv, merge_cons in *.
    change (if rev then CompOpp (bytes_compare kd ks) else bytes_compare kd ks) with (key_cmp rev kd ks).
    destruct (key_cmp rev kd ks) eqn:Ec.
    + destruct (is_nil vd) eqn:N.
      * destruct (dirtyNext_ready _ _ _ _ _ Rd) as (it2 & E2 & R2 & V2). rewrite E2.
        cbn [mbind result_mbind]. destruct (snapshotNext_ready _ _ _ _ _ R2) as (it3 & E3 & R3 & V3).
        rewrite E3. apply (Again it3 d s); [done|congruence|simpl; lia|done].
      * destruct (snapshotNext_ready _ _ _ _ _ Rd) as (it2 & E2 & R2 & V2). rewrite E2.
        cbn [mbind result_mbind]. eexists _, _, _. split; [reflexivity|]. split; [by split; apply R2|].
        split; [|lia]. unfold stands. cbn [set_cur isValid curIsDirty]. rewrite V2, Vi. eauto.
    + destruct (is_nil vd) eqn:N.
      * destruct (dirtyNext_ready _ _ _ _ _ Rd) as (it2 & E2 & R2 & V2). rewrite E2.
        cbn [mbind result_mbind]. apply (Again it2 d ((ks, vs) :: s)); [done|done|simpl; lia|done].
      * eexists _, _, _. split; [reflexivity|]. split; [apply Rset|]. split; [|lia].
        unfold stands. cbn [set_cur isValid curIsDirty]. rewrite Vi. eauto.
    + eexists _, _, _. split; [reflexivity|]. split; [apply Rset|]. split; [|lia].
      unfold stands. cbn [set_cur isValid curIsDirty]. rewrite Vi. eauto.
Qed.

Lemma updateCur_spec fuel it d s :
  ready it d s -> (length d < fuel)%nat ->
  exists it' d' s', updateCur fuel it = Ok it' /\ ready it' d' s' /\
    stands it' d' s' (merge rev d s) /\ (length d' <= length d)%nat.
Proof. intros R L. apply updateCur_loop_spec; [|done|done]. destruct R. by split. Qed.

Lemma stands_enumerates fuel n it d s R :
  (length R <= n)%nat -> ready it d s -> stands it d s R -> (length d < fuel)%nat ->
  @enumerates _ (union_iterator fuel) it R.
Proof.
  revert it d s R. induction n as [|n IH]; intros it d s R Ln Rd St Lf; unfold stands in St;
    (destruct (isValid it) eqn:Vi; [|subst R; by apply (@enum_end _ (union_iterator fuel))]).
  { destruct (curIsDirty it); destruct St as (k & v & ? & _ & ->); simpl in Ln; lia. }
  destruct (curIsDirty it) eqn:Cd.
  - destruct St as (k & v & d' & -> & ->).
    destruct (dirtyNext_ready it k v d' s Rd) as (it2 & E2 & R2 & _).
    destruct (updateCur_spec fuel it2 d' s R2) as (it3 & d3 & s3 & E3 & R3 & S3 & L3); [simpl in Lf; lia|].
    destruct Rd as [Ed _ _ _ _]. apply enumerates_cons in Ed as (Ek & Ev & _).
    assert ((k, v) = (union_Key it, union_Value it)) as Ekv.
    { unfold union_Key, union_Value. rewrite Cd. cbn. by rewrite Ek, Ev. }
    rewrite Ekv. apply (@enum_step _ (union_iterator fuel) it it3); [done| |].
    + cbn. unfold union_Next. rewrite Cd. cbn [negb]. by rewrite E2.
    + apply (IH it3 d3 s3); [simpl in Ln; lia|done|done|simpl in Lf; lia].
  - destruct St as (k & v & s' & -> & ->).
    destruct (snapshotNext_ready it k v d s' Rd) as (it2 & E2 & R2 & _).
    destruct (updateCur_spec fuel it2 d s' R2) as (it3 & d3 & s3 & E3 & R3 & S3 & L3); [done|].
    destruct Rd as [_ Es _ _ _]. apply enumerates_cons in Es as (Ek & Ev & _).
    assert ((k, v) = (union_Key it, union_Value it)) as Ekv.
    { unfold union_Key, union_Value. rewrite Cd. cbn. by rewrite Ek, Ev. }
    rewrite Ekv. apply (@enum_step _ (union_iterator fuel) it it3); [done| |].
    + cbn. unfold union_Next. rewrite Cd. cbn [negb]. by rewrite E2.
    + apply (IH it3 d3 s3); [simpl in Ln; lia|done|done|lia].
Qed.

Lemma NewUnionIter_merge fuel (di : DI) (si : SI) d s :
  enumerates di d -> enumerates si s -> (length d < fuel)%nat ->
  exists it, NewUnionIter fuel di si rev = Ok it /\ @enumerates _ (union_iterator fuel) it (merge rev d s).
Proof.
  intros Ed Es Lf. unfold NewUnionIter.
  destruct (updateCur_spec fuel (MkUnionIter di si (iter_Valid di) (iter_Valid si) false false rev) d s)
    as (it & d' & s' & E & R & St & L); [|done|].
  { split; [done|done|by apply enumerates_valid|by apply enumerates_valid|done]. }
  exists it. split; [done|]. eapply stands_enumerates; [reflexivity|done|done|lia].
Qed.

(** C37: Over two iterators that visit their pairs in key order, a union
    iterator visits, without an error and in that order, each key of the buffer
    that is not deleted, with the buffer's value, and each key of the snapshot
    that the buffer does not hold; for both directions. *)
Theorem UnionIter_union fuel (di : DI) (si : SI) d s :
  enumerates di d -> enumerates si s -> StronglySorted (kv_lt rev) d -> StronglySorted (kv_lt rev) s ->
  (length d < fuel)%nat ->
  exists it R, NewUnionIter fuel di si rev = Ok it /\ @enumerates _ (union_iterator fuel) it R /\
    StronglySorted (kv_lt rev) R /\ forall p, p ∈ R <-> union_pair d s p.
Proof.
  intros Ed Es Sd Ss Lf. destruct (NewUnionIter_merge fuel di si d s Ed Es Lf) as (it & E & En).
  exists it, (merge rev d s). split_and!; [done|done|by apply merge_sorted|].
  intros p. by apply merge_elem.
Qed.
End iterator.

(** ** The laws of a store *)

(** The pairs a reverse iterator from [k] visits: below [k], all for an empty
    [k]. *)
Definition below (k key : bytes) : Prop := k = [] \/ key <b k.
Definition within (k upperBound key : bytes) : Prop :=
  k <=b key /\ (upperBound = [] \/ key <b upperBound).

(** A store without failures reads a finite map. *)
Class RetrieverLaws (R It : Type) `{!KvIterator It} `{!Retriever R It} : Type := {
  ret_contents : R -> gmap bytes bytes;
  ret_Get_spec r k :
    ret_Get r k = match ret_contents r !! k with Some v => Ok v | None => Err ErrNotExist end;
  ret_Iter_spec r k ub : exists it l, ret_Iter r k ub = Ok it /\ enumerates it l /\
    StronglySorted (kv_lt false) l /\
    forall p, p ∈ l <-> ret_contents r !! p.1 = Some p.2 /\ within k ub p.1;
  ret_IterReverse_spec r k : exists it l, ret_IterReverse r k = Ok it /\ enumerates it l /\
    StronglySorted (kv_lt true) l /\
    forall p, p ∈ l <-> ret_contents r !! p.1 = Some p.2 /\ below k p.1;
}.

Section store.
Context {B Sn DI SI Val : Type}.
Context `{!KvIterator DI} `{!KvIterator SI} `{!Retriever B DI} `{!Retriever Sn SI}.
Context `{!RetrieverLaws B DI} `{!RetrieverLaws Sn SI}.

Implicit Types us : unionStore B Sn Val.

(** The value of a key: the buffer's unless it is a deletion, else the
    snapshot's. *)
Definition union_value (buf snap : gmap bytes bytes) (k : bytes) : option bytes :=
  match buf !! k with
  | Some v => if is_nil v then None else Some v
  | None => snap !! k
  end.

Definition us_value us (k : bytes) : option bytes :=
  union_value (ret_contents (memBuffer us)) (ret_contents (us_snapshot us)) k.

Definition no_empty (m : gmap bytes bytes) : Prop := forall k, m !! k <> Some [].

Lemma us_Get_value us k :
  no_empty (ret_contents (us_snapshot us)) ->
  us_Get us k = match us_value us k with Some v => Ok v | None => Err ErrNotExist end.
Proof.
  intros Ne. unfold us_Get, us_value, union_value. rewrite !ret_Get_spec.
  destruct (ret_contents (memBuffer us) !! k) as [v|]; cbn [IsErrNotFound mbind result_mbind].
  - by destruct (is_nil v).
  - destruct (ret_contents (us_snapshot us) !! k) as [v|] eqn:E; [|done]. cbn.
    destruct v; [by apply Ne in E|done].
Qed.

Lemma union_pair_value (buf snap : gmap bytes bytes) (P : bytes -> Prop) d s p :
  (forall q, q ∈ d <-> buf !! q.1 = Some q.2 /\ P q.1) ->
  (forall q, q ∈ s <-> snap !! q.1 = Some q.2 /\ P q.1) ->
  union_pair d s p <-> union_value buf snap p.1 = Some p.2 /\ P p.1.
Proof.
  destruct p as [k v]. intros Hd Hs. unfold union_pair, union_value. cbn [fst snd].
  rewrite Hd, Hs. cbn [fst snd].
  assert (P k -> k ∉ d.*1 <-> buf !! k = None) as Hk.
  { intros Pk. split.
    - intros N. destruct (buf !! k) as [w|] eqn:E; [|done]. destruct N.
      apply (elem_key k w). by apply Hd.
    - intros E Hk. apply list_elem_of_fmap in Hk as ([k' w] & -> & Hk). apply Hd in Hk as [Hk _].
      cbn in Hk, E. congruence. }
  destruct (buf !! k) as [w|] eqn:E.
  - pose proof (is_nil_true w) as N. destruct (is_nil w) eqn:Nw; split.
    + intros [[[[= ->] _] A]|[[_ Pk] A]]; [by destruct A; apply N|]. by apply Hk in A.
    + by intros [? _].
    + intros [[[[= ->] Pk] _]|[[_ Pk] A]]; [done|]. by apply Hk in A.
    + intros [[= ->] Pk]. left. split; [done|]. intros ->. done.
  - split.
    + intros [[[? _] _]|[[? Pk] _]]; done.
    + intros [Es Pk]. right. split; [done|]. by apply Hk.
Qed.

(** The iterators of a union store agree with its [Get]. *)
Lemma us_iterators us k upperBound :
  no_empty (ret_contents (us_snapshot us)) ->
  exists n, forall fuel, (n < fuel)%nat ->
    (exists it R, us_Iter fuel us k upperBound = Ok it /\ @enumerates _ (union_iterator fuel) it R /\
       StronglySorted (kv_lt false) R /\
       forall p, p ∈ R <-> us_Get us p.1 = Ok p.2 /\ within k upperBound p.1) /\
    (exists it R, us_IterReverse fuel us k = Ok it /\ @enumerates _ (union_iterator fuel) it R /\
       StronglySorted (kv_lt true) R /\
       forall p, p ∈ R <-> us_Get us p.1 = Ok p.2 /\ below k p.1).
Proof.
  intros Ne.
  destruct (ret_Iter_spec (memBuffer us) k upperBound) as (d & ld & Ed & Nd & Sd & Md).
  destruct (ret_Iter_spec (us_snapshot us) k upperBound) as (s & ls & Es & Ns & Ss & Ms).
  destruct (ret_IterReverse_spec (memBuffer us) k) as (d' & ld' & Ed' & Nd' & Sd' & Md').
  destruct (ret_IterReverse_spec (us_snapshot us) k) as (s' & ls' & Es' & Ns' & Ss' & Ms').
  assert (forall P p, union_value (ret_contents (memBuffer us)) (ret_contents (us_snapshot us)) p.1 = Some p.2 /\ P p.1
    <-> us_Get us p.1 = Ok p.2 /\ P p.1) as G.
  { intros P p. rewrite us_Get_value by done. unfold us_value.
    destruct (union_value _ _ p.1); naive_solver. }
  exists (length ld + length ld')%nat. intros fuel Lf. split.
  - unfold us_Iter. rewrite Ed, Es. cbn [mbind result_mbind].
    destruct (NewUnionIter_merge false fuel d s ld ls) as (it & E & En); [done|done|lia|].
    exists it, (merge false ld ls). split_and!; [done|done|by apply merge_sorted|].
    intros p. rewrite merge_elem by done. by rewrite (union_pair_value _ _ _ _ _ _ Md Ms), G.
  - unfold us_IterReverse. rewrite Ed', Es'. cbn [mbind result_mbind].
    destruct (NewUnionIter_merge true fuel d' s' ld' ls') as (it & E & En); [done|done|lia|].
    exists it, (merge true ld' ls'). split_and!; [done|done|by apply merge_sorted|].
    intros p. rewrite merge_elem by done. by rewrite (union_pair_value _ _ _ _ _ _ Md' Ms'), G.
Qed.

(** [Iter] of a union store visits, in key order and without an error,
    exactly the pairs that [Get] returns in the range, and [IterReverse] those
    below its key in reverse order, when the snapshot holds no empty value. *)
Theorem UnionStore_Iter_Get us k upperBound :
  no_empty (ret_contents (us_snapshot us)) ->
  exists n, forall fuel, (n < fuel)%nat ->
    (exists it R, us_Iter fuel us k upperBound = Ok it /\ @enumerates _ (union_iterator fuel) it R /\
       StronglySorted (kv_lt false) R /\
       forall p, p ∈ R <-> us_Get us p.1 = Ok p.2 /\ within k upperBound p.1) /\
    (exists it R, us_IterReverse fuel us k = Ok it /\ @enumerates _ (union_iterator fuel) it R /\
       StronglySorted (kv_lt true) R /\
       forall p, p ∈ R <-> us_Get us p.1 = Ok p.2 /\ below k p.1).
Proof. exact (us_iterators us k upperBound). Qed.

(** ** Batches *)

Context `{!MemBufferLen B} `{!BatchGetter Sn}.

(** [Len] counts the entries, and a batch reads the keys it is given. *)
Class BatchLaws : Prop := {
  buf_Len_spec (b : B) : buf_Len b = Z.of_nat (size (ret_contents b));
  snap_BatchGet_spec (sn : Sn) keys : exists m, snap_BatchGet sn keys = Ok m /\
    forall k, m !! k = if decide (k ∈ keys) then ret_contents sn !! k else None;
}.
Context `{!BatchLaws}.

(** What a batch finds for a key: the buffer first, then the cache. *)
Definition bg_value (b : BufferBatchGetter B Sn) (k : bytes) : option bytes :=
  match ret_contents (bg_buffer b) !! k with
  | Some v => if is_nil v then None else Some v
  | None =>
      match (match bg_midbse b with Some get => get k | None => Err ErrNotExist end) with
      | Ok v => if is_nil v then None else Some v
      | Err _ => ret_contents (bg_snapshot b) !! k
      end
  end.

Lemma put_values_lookup keys values m k :
  length values = length keys -> k ∉ keys -> put_values keys values m !! k = m !! k.
Proof.
  revert values m. induction keys as [|key keys IH]; intros values m L N; [by destruct values|].
  destruct values as [|v values]; [done|]. cbn [put_values].
  apply not_elem_of_cons in N as [N1 N2]. rewrite IH; [|simpl in L; lia|done].
  destruct (is_nil v); [done|]. by rewrite lookup_insert_ne.
Qed.

(** The value in front of the snapshot for a key, the empty one if none. *)
Definition front (b : BufferBatchGetter B Sn) (k : bytes) : option bytes :=
  match ret_contents (bg_buffer b) !! k with
  | Some v => Some v
  | None => match (match bg_midbse b with Some get => get k | None => Err ErrNotExist end) with
            | Ok v => Some v
            | Err _ => None
            end
  end.

Lemma BatchGet_loop_spec b keys :
  BatchGet_loop b keys =
    Ok ((fun k => default [] (front b k)) <$> keys, filter (fun k => front b k = None) keys).
Proof.
  induction keys as [|k keys IH]; [done|]. cbn [BatchGet_loop]. rewrite ret_Get_spec, IH.
  rewrite fmap_cons, filter_cons.
  destruct (ret_contents (bg_buffer b) !! k) as [v|] eqn:E1;
    [|destruct (match bg_midbse b with Some get => get k | None => Err ErrNotExist end) as [v|e] eqn:E2];
    cbn [IsErrNotFound negb mbind result_mbind].
  - assert (front b k = Some v) as F by (unfold front; by rewrite E1).
    by rewrite F, decide_False by done.
  - assert (front b k = Some v) as F by (unfold front; by rewrite E1, E2).
    by rewrite F, decide_False by done.
  - assert (front b k = None) as F by (unfold front; by rewrite E1, E2).
    by rewrite F, decide_True by done.
Qed.

Lemma put_values_front b keys m k :
  k ∈ keys ->
  put_values keys ((fun k => default [] (front b k)) <$> keys) m !! k =
    match front b k with Some (x :: v) => Some (x :: v) | _ => m !! k end.
Proof.
  revert m. induction keys as [|key keys IH]; intros m Hk; [by inversion Hk|].
  rewrite fmap_cons. cbn [put_values]. destruct (decide (k ∈ keys)) as [Hin|Nin].
  - rewrite IH by done. destruct (front b k) as [[|x v]|] eqn:E; [| done |];
      (destruct (decide (k = key)) as [<-|N]; [by rewrite E|];
       destruct (is_nil _); [done|]; by rewrite lookup_insert_ne).
  - apply elem_of_cons in Hk as [<-|Hk]; [|done].
    rewrite put_values_lookup by (by rewrite ?length_fmap).
    destruct (front b k) as [[|x v]|]; cbn [default is_nil]; [done| |done]. apply lookup_insert_eq.
Qed.

(** A batch get through a buffer that is not empty returns for every key
    of the batch the buffer's value, the cache's or the snapshot's, in that
    order, and nothing for a key whose first value is a deletion. *)
Theorem BatchGet_value b keys :
  ret_contents (bg_buffer b) <> ∅ ->
  exists m, bg_BatchGet b keys = Ok m /\ forall k, k ∈ keys -> m !! k = bg_value b k.
Proof.
  intros Nb. unfold bg_BatchGet. rewrite buf_Len_spec.
  destruct (Z.of_nat (size (ret_contents (bg_buffer b))) =? 0) eqn:E.
  { apply Z.eqb_eq in E. destruct Nb. apply map_size_empty_inv. lia. }
  rewrite BatchGet_loop_spec. cbn [mbind result_mbind].
  destruct (snap_BatchGet_spec (bg_snapshot b) (filter (fun k => front b k = None) keys)) as (m & -> & Hm).
  cbn [mbind result_mbind]. eexists. split; [reflexivity|]. intros k Hk.
  rewrite put_values_front, Hm by done. unfold bg_value.
  assert (k ∈ filter (fun k => front b k = None) keys <-> front b k = None) as Hf
    by (rewrite list_elem_of_filter; tauto).
  case_decide as D; rewrite Hf in D; revert D; unfold front;
    destruct (ret_contents (bg_buffer b) !! k) as [[|x v]|]; try done;
    destruct (match bg_midbse b with Some get => get k | None => Err ErrNotExist end) as [[|x v]|]; done.
Qed.
End store.
