(* ===== verification/KvKey.v ===== *)
(** * Keys, key ranges and handles (solomonkey/key.go)

    A key is a byte string; a handle identifies a row, by an integer or by the
    encoded columns of its primary key.  The order of keys and what [PrefixNext]
    and [IsPoint] mean in it; the columns of a handle; the handle map as a map. *)

From stdpp Require Import base gmap list strings.
From Stdlib Require Import Strings.Byte ZArith Lia Sorted.
From S2P Require Import Prelude External.

Open Scope Z_scope.

(** ** Keys *)

Definition Key_Next (k : bytes) : bytes := k ++ [x00].

(** [b++] on a byte, which wraps. *)
Definition byte_incr (b : byte) : byte := default x00 (Byte.of_N ((Byte.to_N b + 1) mod 256)).

(** The loop of [PrefixNext] from the last byte on, over the reversed key;
    [None] when it runs off the first byte. *)
Fixpoint prefix_incr (r : bytes) : option bytes :=
  match r with
  | [] => None
  | b :: r' =>
      if decide (byte_incr b = x00) then r'' ← prefix_incr r'; Some (x00 :: r'')
      else Some (byte_incr b :: r')
  end.

Definition PrefixNext (k : bytes) : bytes :=
  match prefix_incr (rev k) with
  | Some r => rev r
  | None => k ++ [x00]
  end.

Definition Key_Cmp (k another : bytes) : Z :=
  match bytes_compare k another with Eq => 0 | Lt => -1 | Gt => 1 end.

(** [bytes.HasPrefix]. *)
Fixpoint HasPrefix (k prefix : bytes) : bool :=
  match prefix, k with
  | [], _ => true
  | b :: prefix', c :: k' => bool_decide (b = c) && HasPrefix k' prefix'
  | _ :: _, [] => false
  end.

Record KeyRange : Type := MkKeyRange {
  kr_StartKey : bytes;
  kr_EndKey : bytes;
}.

(** The loop of [IsPoint] over the two reversed keys of equal length. *)
Fixpoint point_loop (rs re : bytes) : bool :=
  match rs, re with
  | s :: rs', e :: re' =>
      if negb (bool_decide (s = xff)) then bool_decide (byte_incr s = e) && bool_decide (rs' = re')
      else if negb (bool_decide (e = x00)) then false
      else point_loop rs' re'
  | _, _ => false
  end.

Definition IsPoint (r : KeyRange) : bool :=
  let startLen := length (kr_StartKey r) in
  if negb (bool_decide (startLen = length (kr_EndKey r))) then
    bool_decide (startLen + 1 = length (kr_EndKey r))%nat
    && bool_decide (kr_EndKey r !! startLen = Some x00)
    && bool_decide (kr_StartKey r = take startLen (kr_EndKey r))
  else point_loop (rev (kr_StartKey r)) (rev (kr_EndKey r)).

(** ** Handles *)

(** [codec.CutOne] cuts the first encoded column off; [codec.EncodeInt]. *)
Class HandleCodec : Type := {
  CutOne : bytes -> res (bytes * bytes);
  EncodeInt : bytes -> Z -> bytes;
}.

(** The cut column and the rest make up the argument, and some byte is cut. *)
Class HandleCodecLaws `{HandleCodec} : Prop := {
  CutOne_app b col remain : CutOne b = Ok (col, remain) -> b = col ++ remain /\ col <> [];
}.

Inductive Handle : Type :=
| IntHandle (i : Z)
| CommonHandle (encoded : bytes) (colEndOffsets : list Z).

Section handle.
Context `{HandleCodec}.

Definition u16_add (a b : Z) : Z := (a + b) mod 65536.

Fixpoint NewCommonHandle_loop (fuel : nat) (remain : bytes) (endOff : Z) (offsets : list Z)
    : res (list Z) :=
  match fuel with
  | O => Ok offsets
  | S fuel' =>
      match remain with
      | [] => Ok offsets
      | b :: _ =>
          if decide (b = x00) then Ok offsets
          else
            '(col, remain) ← CutOne remain;
            let endOff := u16_add endOff (Z.of_nat (length col) mod 65536) in
            NewCommonHandle_loop fuel' remain endOff (offsets ++ [endOff])
      end
  end.

(** Every turn cuts a byte, so the length is enough fuel. *)
Definition NewCommonHandle (encoded : bytes) : res Handle :=
  let padded := if decide (length encoded < 9)%nat then encoded ++ replicate (9 - length encoded) x00
                else encoded in
  offsets ← NewCommonHandle_loop (length encoded) encoded 0 [];
  Ok (CommonHandle padded offsets).

Definition IsInt (h : Handle) : bool := match h with IntHandle _ => true | CommonHandle _ _ => false end.

(** [None] is the panic. *)
Definition IntValue (h : Handle) : option Z :=
  match h with IntHandle i => Some i | CommonHandle _ _ => None end.

Definition Handle_Next (h : Handle) : Handle :=
  match h with
  | IntHandle i => IntHandle (i64_wrap (i + 1))
  | CommonHandle encoded offs => CommonHandle (PrefixNext encoded) offs
  end.

Definition Encoded (h : Handle) : bytes :=
  match h with IntHandle i => EncodeInt [] i | CommonHandle encoded _ => encoded end.

Definition Handle_Len (h : Handle) : nat :=
  match h with IntHandle _ => 8 | CommonHandle encoded _ => length encoded end.

Definition Handle_Equal (h h' : Handle) : bool :=
  match h, h' with
  | IntHandle i, IntHandle i' => i =? i'
  | CommonHandle e _, CommonHandle e' _ => bool_decide (e = e')
  | _, _ => false
  end.

Definition Handle_Compare (h h' : Handle) : option Z :=
  match h, h' with
  | IntHandle i, IntHandle i' => Some (if i' <? i then 1 else if i <? i' then -1 else 0)
  | CommonHandle e _, CommonHandle e' _ => Some (Key_Cmp e e')
  | _, _ => None
  end.

Definition NumDefCauss (h : Handle) : option nat :=
  match h with IntHandle _ => None | CommonHandle _ offs => Some (length offs) end.

(** [None] is the panic: an integer handle, or an index or a slice out of
    range. *)
Definition EncodedDefCaus (h : Handle) (idx : nat) : option bytes :=
  match h with
  | IntHandle _ => None
  | CommonHandle encoded offs =>
      start ← (if decide (0 < idx)%nat then offs !! (idx - 1)%nat else Some 0);
      end' ← offs !! idx;
      if decide (start <= end' /\ end' <= Z.of_nat (length encoded))
      then Some (take (Z.to_nat (end' - start)) (drop (Z.to_nat start) encoded))
      else None
  end.

(** ** HandleMap *)

Context {Val : Type}.

Record HandleMap : Type := MkHandleMap {
  ints : gmap Z Val;
  strs : gmap bytes (Handle * Val);
}.

Definition NewHandleMap : HandleMap := MkHandleMap ∅ ∅.

Definition hm_Get (m : HandleMap) (h : Handle) : option Val :=
  match h with
  | IntHandle i => ints m !! i
  | CommonHandle e _ => snd <$> strs m !! e
  end.

Definition hm_Set (m : HandleMap) (h : Handle) (val : Val) : HandleMap :=
  match h with
  | IntHandle i => MkHandleMap (<[i := val]> (ints m)) (strs m)
  | CommonHandle e _ => MkHandleMap (ints m) (<[e := (h, val)]> (strs m))
  end.

Definition hm_Delete (m : HandleMap) (h : Handle) : HandleMap :=
  match h with
  | IntHandle i => MkHandleMap (delete i (ints m)) (strs m)
  | CommonHandle e _ => MkHandleMap (ints m) (delete e (strs m))
  end.

Definition hm_Len (m : HandleMap) : nat := (size (ints m) + size (strs m))%nat.

(** The entries in the order of a visit, as [fn] sees them until it returns
    false; [fn] threads the state of its closure. *)
Context (range_ints : gmap Z Val -> list (Z * Val)).
Context (range_strs : gmap bytes (Handle * Val) -> list (bytes * (Handle * Val))).

Fixpoint hm_visit {A} (l : list (Handle * Val)) (fn : A -> Handle -> Val -> A * bool) (a : A) : A :=
  match l with
  | [] => a
  | (h, v) :: l' => let '(a, continue) := fn a h v in if continue then hm_visit l' fn a else a
  end.

Definition hm_Range {A} (m : HandleMap) (fn : A -> Handle -> Val -> A * bool) (a : A) : A :=
  hm_visit (((fun p : Z * Val => (IntHandle p.1, p.2)) <$> range_ints (ints m)) ++
            (range_strs (strs m)).*2) fn a.
End handle.
Arguments HandleMap : clear implicits.

(** * Ranges of keys and columns of handles

    The least key after a key, the range of the keys with a prefix, when a
    range is a point, and what a common handle and a handle map keep. *)

(** ** Bytes *)

Lemma byte_incr_spec b :
  (b = xff /\ byte_incr b = x00) \/ (b <> xff /\ byte_incr b <> x00 /\ Byte.to_N (byte_incr b) = (Byte.to_N b + 1)%N).
Proof. destruct b; vm_compute; auto; right; repeat split; discriminate. Qed.

Lemma compare_cons b k c x :
  bytes_compare (b :: k) (c :: x) =
  match N.compare (Byte.to_N b) (Byte.to_N c) with Eq => bytes_compare k x | o => o end.
Proof. done. Qed.

Lemma HasPrefix_length x k : HasPrefix x k = true -> (length k <= length x)%nat.
Proof.
  revert x. induction k as [|b k IH]; intros x Hx; [simpl; lia|].
  destruct x as [|c x]; [done|]. cbn in Hx. apply andb_true_iff in Hx as [_ Hx].
  apply IH in Hx. simpl. lia.
Qed.

(** ** PrefixNext *)

(** [PrefixNext] from the front: [None] when every byte is 255. *)
Fixpoint next_of (k : bytes) : option bytes :=
  match k with
  | [] => None
  | b :: k' =>
      match next_of k' with
      | Some n => Some (b :: n)
      | None => if decide (byte_incr b = x00) then None
                else Some (byte_incr b :: replicate (length k') x00)
      end
  end.

Lemma prefix_incr_snoc r b :
  prefix_incr (r ++ [b]) =
  match prefix_incr r with
  | Some r' => Some (r' ++ [b])
  | None => if decide (byte_incr b = x00) then None else Some (replicate (length r) x00 ++ [byte_incr b])
  end.
Proof.
  induction r as [|c r IH]; cbn [prefix_incr app length replicate].
  - by case_decide.
  - rewrite IH. destruct (decide (byte_incr c = x00)); [|done].
    destruct (prefix_incr r); [done|]. by case_decide.
Qed.

Lemma prefix_incr_next k : prefix_incr (rev k) = @rev byte <$> next_of k.
Proof.
  induction k as [|b k IH]; [done|]. cbn [rev next_of]. rewrite prefix_incr_snoc, IH, length_rev.
  destruct (next_of k); [done|]. cbn. case_decide; [done|]. cbn. do 2 f_equal. rewrite rev_alt. symmetry. apply reverse_replicate.
Qed.

Lemma PrefixNext_next k :
  PrefixNext k = match next_of k with Some n => n | None => Key_Next k end.
Proof.
  unfold PrefixNext. rewrite prefix_incr_next. destruct (next_of k); [|done].
  cbn. apply rev_involutive.
Qed.

Lemma next_of_None k : next_of k = None <-> Forall (fun b => b = xff) k.
Proof.
  induction k as [|b k IH]; cbn [next_of]; [split; [constructor|done]|]. rewrite Forall_cons, <- IH.
  destruct (next_of k); [naive_solver|].
  destruct (byte_incr_spec b) as [[-> ->]|(N & N' & _)]; [done|]. rewrite decide_False by done. naive_solver.
Qed.

Lemma not_blt_zeros x n : (n <= length x)%nat -> ~ x <b replicate n x00.
Proof.
  revert x. induction n as [|n IH]; intros x L; cbn [replicate].
  - intros A. by apply (proj2 (not_blt x [])) in A; [|apply nil_ble].
  - destruct x as [|c x]; [simpl in L; lia|]. unfold blt. rewrite compare_cons.
    destruct (N.compare_spec (Byte.to_N c) (Byte.to_N x00)) as [E|E|E]; [|cbn in E; lia|done].
    apply IH. simpl in L. lia.
Qed.

Lemma next_of_prefix k x :
  (length k <= length x)%nat ->
  HasPrefix x k = true <-> k <=b x /\ match next_of k with Some n => x <b n | None => True end.
Proof.
  revert x. induction k as [|b k IH]; intros x L.
  { assert (HasPrefix x [] = true) as -> by by destruct x. split; [|done]. intros _. split; [apply nil_ble|done]. }
  destruct x as [|c x]; [simpl in L; lia|]. cbn [HasPrefix next_of].
  specialize (IH x ltac:(simpl in L; lia)). unfold ble. rewrite compare_cons.
  rewrite andb_true_iff, bool_decide_eq_true, IH. unfold ble.
  assert (Byte.to_N b = Byte.to_N c <-> b = c) as Ebc by (split; [apply to_N_inj|congruence]).
  destruct (next_of k) as [n|] eqn:En.
  - unfold blt. rewrite compare_cons, (N.compare_antisym (Byte.to_N b)).
    destruct (N.compare_spec (Byte.to_N b) (Byte.to_N c)) as [E|E|E]; cbn [CompOpp].
    + apply Ebc in E as ->. tauto.
    + split; [intros [-> _]; lia|intros [_ ?]; done].
    + split; [intros [-> _]; lia|intros [? _]; done].
  - destruct (byte_incr_spec b) as [[-> ->]|(N & N' & I)].
    + rewrite decide_True by done.
      destruct (N.compare_spec (Byte.to_N xff) (Byte.to_N c)) as [E|E|E].
      * apply Ebc in E as <-. tauto.
      * exfalso. pose proof (Byte.to_N_bounded c). cbn in E. lia.
      * split; [intros [<- _]; lia|intros [? _]; done].
    + rewrite decide_False by done. unfold blt. rewrite compare_cons, I.
      destruct (N.compare_spec (Byte.to_N b) (Byte.to_N c)) as [E|E|E].
      * apply Ebc in E as ->. rewrite (proj2 (N.compare_lt_iff _ _)) by lia. tauto.
      * split; [intros [-> _]; lia|]. intros [_ A]. exfalso.
        destruct (N.compare_spec (Byte.to_N c) (Byte.to_N b + 1)) as [E'|E'|E']; [|lia|done].
        by apply not_blt_zeros in A; [|simpl in L; lia].
      * split; [intros [-> _]; lia|intros [? _]; done].
Qed.

(** No key lies between a key and [Next]. *)
Lemma between_Next k x : k <=b x -> x <b Key_Next k -> x = k.
Proof.
  revert x. unfold Key_Next, ble, blt. induction k as [|b k IH]; intros x A B.
  - destruct x as [|c x]; [done|]. cbn [app] in B. rewrite compare_cons in B.
    destruct (N.compare_spec (Byte.to_N c) (Byte.to_N x00)) as [E|E|E]; [|cbn in E; lia|done].
    by destruct x.
  - destruct x as [|c x]; [done|]. cbn [app] in B. rewrite compare_cons in A, B.
    rewrite N.compare_antisym in A.
    destruct (N.compare_spec (Byte.to_N c) (Byte.to_N b)) as [E|E|E]; cbn [CompOpp] in A; [|done|done].
    apply to_N_inj in E as ->. f_equal. by apply IH.
Qed.

(** The keys with the prefix [k] are, among the keys at least as long as
    [k], those from [k] up to [PrefixNext k], when some byte of [k] is not 255;
    when every byte is 255, [PrefixNext k] is [Next k] and bounds only [k]
    itself. *)
Theorem PrefixNext_prefix k :
  (Exists (fun b => b <> xff) k ->
     forall x, HasPrefix x k = true <-> (length k <= length x)%nat /\ k <=b x /\ x <b PrefixNext k) /\
  (Forall (fun b => b = xff) k ->
     PrefixNext k = Key_Next k /\ forall x, k <=b x -> x <b PrefixNext k -> x = k).
Proof.
  split.
  - intros Ex x. rewrite PrefixNext_next. destruct (next_of k) as [n|] eqn:En.
    + split.
      * intros Hx. pose proof (HasPrefix_length x k Hx). split; [done|].
        apply (next_of_prefix k x) in Hx; [|done]. by rewrite En in Hx.
      * intros [L A]. apply next_of_prefix; [done|]. by rewrite En.
    + exfalso. apply next_of_None in En. apply Exists_exists in Ex as (b & Hb & N).
      rewrite Forall_forall in En. by apply N, En.
  - intros F. apply next_of_None in F. rewrite PrefixNext_next, F. split; [done|].
    apply between_Next.
Qed.

(** ** IsPoint *)

Lemma point_loop_incr rs re :
  length rs = length re -> point_loop rs re = true <-> prefix_incr rs = Some re.
Proof.
  revert re. induction rs as [|s rs IH]; intros [|e re] L; [done|done|done|].
  cbn [point_loop prefix_incr]. specialize (IH re ltac:(simpl in L; lia)).
  destruct (byte_incr_spec s) as [[-> ->]|(N & N' & _)].
  - rewrite decide_True by done. rewrite bool_decide_eq_true_2 by done. cbn [negb].
    destruct (decide (e = x00)) as [->|Ne].
    + rewrite bool_decide_eq_true_2 by done. cbn [negb]. rewrite IH.
      destruct (prefix_incr rs); cbn; [|done]. split; by intros [= ->].
    + rewrite bool_decide_eq_false_2 by done. cbn [negb].
      destruct (prefix_incr rs); cbn; [|done]. split; [done|by intros [= <-]].
  - rewrite decide_False by done. rewrite bool_decide_eq_false_2 by done. cbn [negb].
    rewrite andb_true_iff, !bool_decide_eq_true. split; [by intros [-> ->]|by intros [= -> ->]].
Qed.

Lemma rev_eq_iff {A} (l l' : list A) : rev l = rev l' <-> l = l'.
Proof. split; [|congruence]. intros E. by rewrite <- (rev_involutive l), E, rev_involutive. Qed.

Lemma next_of_length k n : next_of k = Some n -> length n = length k.
Proof.
  revert n. induction k as [|b k IH]; intros n; cbn [next_of]; [done|].
  destruct (next_of k) as [m|]; [intros [= <-]; cbn; by rewrite (IH m)|].
  case_decide; [done|]. intros [= <-]. cbn. by rewrite length_replicate.
Qed.

(** [IsPoint] compares the end with the two successors of the start. *)
Lemma IsPoint_iff r :
  IsPoint r = true <->
  kr_EndKey r = Key_Next (kr_StartKey r) \/ kr_EndKey r = PrefixNext (kr_StartKey r).
Proof.
  destruct r as [s e]. unfold IsPoint. cbn [kr_StartKey kr_EndKey].
  rewrite PrefixNext_next. pose proof (next_of_length s) as NL.
  destruct (decide (length s = length e)) as [E|N].
  - rewrite bool_decide_eq_true_2 by done. cbn [negb].
    rewrite point_loop_incr by by rewrite !length_rev.
    rewrite prefix_incr_next. unfold Key_Next.
    assert (e <> s ++ [x00]) as Ne by (intros ->; rewrite length_app in E; simpl in E; lia).
    destruct (next_of s) as [n|]; cbn; [|intuition congruence].
    split; [intros [= ->%rev_eq_iff]; by right|]. by intros [?| ->].
  - rewrite bool_decide_eq_false_2 by done. cbn [negb].
    rewrite !andb_true_iff, !bool_decide_eq_true.
    assert (e = Key_Next s <-> ((length s + 1)%nat = length e /\ e !! length s = Some x00) /\
            s = take (length s) e) as <-.
    { unfold Key_Next. split.
      - intros ->. rewrite length_app, lookup_app_r, Nat.sub_diag, take_app_length by lia. done.
      - intros [[L A] B]. rewrite <- (take_drop (length s) e), <- B. f_equal.
        rewrite (drop_S _ x00) by done. rewrite drop_ge by lia. done. }
    destruct (next_of s) as [n|]; [|tauto]. split; [by left|]. intros [->| ->]; [done|].
    exfalso. apply N. by rewrite (NL n).
Qed.

(** [IsPoint] holds of a range exactly when its end is [Next] or
    [PrefixNext] of its start; a key of such a range that is at least as long
    as the start has the start as a prefix. *)
Theorem IsPoint_range r :
  (IsPoint r = true <->
   kr_EndKey r = Key_Next (kr_StartKey r) \/ kr_EndKey r = PrefixNext (kr_StartKey r)) /\
  (IsPoint r = true -> forall x, kr_StartKey r <=b x -> x <b kr_EndKey r ->
   (length (kr_StartKey r) <= length x)%nat -> HasPrefix x (kr_StartKey r) = true).
Proof.
  split; [apply IsPoint_iff|]. intros P x A B L. apply IsPoint_iff in P.
  assert (HasPrefix (kr_StartKey r) (kr_StartKey r) = true) as R.
  { clear. induction (kr_StartKey r) as [|b s IH]; [done|]. cbn. by rewrite bool_decide_eq_true_2, IH. }
  rewrite PrefixNext_next in P.
  destruct (next_of (kr_StartKey r)) as [n|] eqn:En.
  - destruct P as [P|P]; rewrite P in B; [by rewrite (between_Next _ _ A B)|].
    apply next_of_prefix; [done|]. by rewrite En.
  - assert (kr_EndKey r = Key_Next (kr_StartKey r)) as P' by tauto.
    rewrite P' in B. by rewrite (between_Next _ _ A B).
Qed.

(** ** Columns of a common handle *)

Section columns.
Context `{HandleCodecLaws}.

(** The end offsets of columns that start at [off]. *)
Fixpoint ends (off : Z) (cols : list bytes) : list Z :=
  match cols with
  | [] => []
  | c :: cols' => (off + Z.of_nat (length c)) :: ends (off + Z.of_nat (length c)) cols'
  end.

Definition padding (pad : bytes) : Prop := pad = [] \/ exists pad', pad = x00 :: pad'.

Lemma NewCommonHandle_loop_columns fuel remain off offsets offsets' :
  (length remain <= fuel)%nat -> 0 <= off -> off + Z.of_nat (length remain) < 65536 ->
  NewCommonHandle_loop fuel remain off offsets = Ok offsets' ->
  exists cols pad, remain = concat cols ++ pad /\ padding pad /\ Forall (fun c => c <> []) cols /\
    offsets' = offsets ++ ends off cols.
Proof.
  revert remain off offsets. induction fuel as [|fuel IH]; intros [|b remain] off offsets L P M E;
    cbn [NewCommonHandle_loop] in E; simpl in L; try lia.
  1-2: injection E as <-; exists [], []; split_and!; [done|by left|constructor|by rewrite app_nil_r].
  destruct (decide (b = x00)) as [->|N].
  { injection E as <-. exists [], (x00 :: remain).
    split_and!; [done|right; by eexists|constructor|by rewrite app_nil_r]. }
  destruct (CutOne (b :: remain)) as [[col rest]|] eqn:C; [|done]. cbn in E.
  apply CutOne_app in C as [Eb Ne]. rewrite Eb, length_app in M.
  assert (length (b :: remain) = length col + length rest)%nat as Lb by by rewrite Eb, length_app.
  simpl in Lb. destruct col as [|c col]; [done|]. simpl in Lb, M.
  assert (u16_add off (Z.of_nat (length (c :: col)) mod 65536) = off + Z.of_nat (length (c :: col))) as U.
  { unfold u16_add. simpl. rewrite (Z.mod_small (Z.of_nat _)), Z.mod_small by lia. lia. }
  rewrite U in E. apply IH in E as (cols & pad & -> & Pd & F & ->); [|simpl; lia..].
  exists ((c :: col) :: cols), pad. rewrite Eb. cbn [concat ends]. rewrite <- !app_assoc. cbn.
  repeat split; [done|by constructor].
Qed.

Lemma ends_lookup cols off i :
  ends off cols !! i = (fun _ => off + Z.of_nat (length (concat (take (S i) cols)))) <$> cols !! i.
Proof.
  revert off i. induction cols as [|c cols IH]; intros off i; [done|].
  destruct i as [|i]; cbn [ends lookup list_lookup take].
  - cbn. by rewrite app_nil_r.
  - etransitivity; [apply IH|].
    change ((c :: cols) !! S i) with (cols !! i).
    destruct (cols !! i); [|done]. cbn [fmap option_fmap option_map].
    rewrite concat_cons, length_app. f_equal. lia.
Qed.

Lemma ends_length off cols : length (ends off cols) = length cols.
Proof. revert off. induction cols as [|c cols IH]; intros off; cbn; [done|by rewrite IH]. Qed.

Lemma EncodedDefCaus_column cols pad i col :
  cols !! i = Some col ->
  EncodedDefCaus (CommonHandle (concat cols ++ pad) (ends 0 cols)) i = Some col.
Proof.
  intros Hi. cbn [EncodedDefCaus].
  assert ((if decide (0 < i)%nat then ends 0 cols !! (i - 1)%nat else Some 0) =
          Some (Z.of_nat (length (concat (take i cols))))) as ->.
  { case_decide as D; [|by replace i with 0%nat by lia].
    rewrite ends_lookup. replace (S (i - 1)) with i by lia.
    apply lookup_lt_Some in Hi. destruct (lookup_lt_is_Some_2 cols (i - 1)) as [c ->]; [lia|done]. }
  cbn. rewrite ends_lookup, Hi. cbn -[take].
  rewrite (take_S_r _ _ _ Hi), concat_app. cbn [concat]. rewrite app_nil_r.
  assert (concat cols = concat (take i cols) ++ col ++ concat (drop (S i) cols)) as ->.
  { rewrite <- (take_drop_middle cols i col) at 1 by done. by rewrite concat_app. }
  rewrite decide_True by (rewrite !length_app; lia). f_equal.
  rewrite <- !app_assoc. rewrite Nat2Z.id, drop_app_length.
  rewrite length_app, take_app_le by lia. apply take_ge. lia.
Qed.

(** A common handle made of an encoding shorter than 2^16 bytes cuts it
    into non-empty columns followed by nothing or by a zero byte, and
    [EncodedDefCaus] returns each of the columns; the encoding itself is kept,
    padded with zeros to nine bytes. *)
Theorem NewCommonHandle_columns encoded h :
  Z.of_nat (length encoded) < 65536 -> NewCommonHandle encoded = Ok h ->
  exists cols pad,
    encoded = concat cols ++ pad /\ padding pad /\ Forall (fun c => c <> []) cols /\
    Encoded h = encoded ++ replicate (9 - length encoded) x00 /\
    NumDefCauss h = Some (length cols) /\
    forall i col, cols !! i = Some col -> EncodedDefCaus h i = Some col.
Proof.
  intros L. unfold NewCommonHandle.
  destruct (NewCommonHandle_loop (length encoded) encoded 0 []) as [offsets|] eqn:E; [|done].
  step_res. intros [= <-].
  apply NewCommonHandle_loop_columns in E as (cols & pad & Ee & P & F & ->); [|lia..].
  exists cols, pad. cbn [app Encoded NumDefCauss]. rewrite ends_length. split_and!; [done..| |done|].
  - case_decide; [done|]. by rewrite (proj2 (Nat.sub_0_le _ _)), app_nil_r by lia.
  - intros i col Hi. case_decide; rewrite Ee, <- ?app_assoc; by apply EncodedDefCaus_column.
Qed.
End columns.

(** ** HandleMap *)

Section handle_map.
Context `{HandleCodec} {Val : Type}.
Implicit Types m : HandleMap Val.

(** A handle map keeps one value per handle up to [Equal], whether the
    handle is an integer or a string of columns: [Get] after [Set] and [Delete]
    is the lookup of a map, and [Len] counts the handles that have a value. *)
Theorem HandleMap_map m h h' v :
  hm_Get (hm_Set m h v) h' = (if Handle_Equal h h' then Some v else hm_Get m h') /\
  hm_Get (hm_Delete m h) h' = (if Handle_Equal h h' then None else hm_Get m h') /\
  hm_Len (hm_Set m h v) = (if hm_Get m h then hm_Len m else S (hm_Len m)) /\
  hm_Len (hm_Delete m h) = (if hm_Get m h then pred (hm_Len m) else hm_Len m).
Proof.
  destruct m as [im sm].
  assert (forall {K} `{Countable K} {V} (g : gmap K V) k x, size (<[k := x]> g) = if g !! k then size g else S (size g)) as SI.
  { intros. rewrite map_size_insert. by destruct (g !! k). }
  assert (forall {K} `{Countable K} {V} (g : gmap K V) k, size (delete k g) = if g !! k then pred (size g) else size g) as SD.
  { intros. rewrite map_size_delete. by destruct (g !! k). }
  assert (forall {K} `{Countable K} {V} (g : gmap K V) k x, g !! k = Some x -> size g <> 0%nat) as SN.
  { intros * E Z. apply map_size_empty_iff in Z as ->. by rewrite lookup_empty in E. }
  split; [|split; [|split]].
  - destruct h as [i|e o], h' as [i'|e' o']; cbn; try done.
    + destruct (Z.eqb_spec i i') as [->|N]; [by rewrite lookup_insert_eq|by rewrite lookup_insert_ne].
    + case_bool_decide as E; [subst; by rewrite lookup_insert_eq|by rewrite lookup_insert_ne].
  - destruct h as [i|e o], h' as [i'|e' o']; cbn; try done.
    + destruct (Z.eqb_spec i i') as [->|N]; [by rewrite lookup_delete_eq|by rewrite lookup_delete_ne].
    + case_bool_decide as E; [subst; by rewrite lookup_delete_eq|by rewrite lookup_delete_ne].
  - destruct h as [i|e o]; unfold hm_Len; cbn; rewrite SI.
    + destruct (im !! i); lia.
    + destruct (sm !! e); cbn; lia.
  - destruct h as [i|e o]; unfold hm_Len; cbn; rewrite SD.
    + destruct (im !! i) eqn:E; [|lia]. apply SN in E. lia.
    + destruct (sm !! e) eqn:E; cbn; [|lia]. apply SN in E. lia.
Qed.
End handle_map.
