(* ===== verification/MemArena.v ===== *)
(** * The memory of the transaction buffer (causetstore/memdb_arena.go)

    An arena hands out pieces of large blocks; the value log is an arena whose
    pieces are a value followed by a header that links it to its node and to
    the value it replaces.  An address is an index of a block and an offset in
    it.  The pieces do not overlap, stay where they are while blocks are added,
    and their addresses survive being stored and loaded. *)

From stdpp Require Import base gmap list strings.
From Stdlib Require Import Strings.Byte ZArith Lia Sorted.
From S2P Require Import Prelude External Marshal.

Open Scope Z_scope.

(** ** Addresses *)

Definition MaxUint32 : Z := 4294967295.
Definition u32_wrap (z : Z) : Z := z mod 4294967296.

Record memdbMemCamAddr : Type := MkAddr {
  addr_idx : Z;
  addr_off : Z;
}.

#[export] Instance addr_eq_dec : EqDecision memdbMemCamAddr.
Proof. solve_decision. Defined.

#[export] Instance addr_countable : Countable memdbMemCamAddr.
Proof.
  refine (inj_countable' (fun a => (addr_idx a, addr_off a)) (fun p => MkAddr p.1 p.2) _).
  by intros [].
Defined.

Definition nullAddr : memdbMemCamAddr := MkAddr MaxUint32 MaxUint32.

Definition isNull (addr : memdbMemCamAddr) : bool := bool_decide (addr = nullAddr).

Definition addr_store (addr : memdbMemCamAddr) : bytes :=
  le_bytes 4 (addr_idx addr) ++ le_bytes 4 (addr_off addr).

(** [endian.Uint32(src)] reads the first four bytes. *)
Definition Uint32 (src : bytes) : Z := le_Z (take 4 src).

Definition addr_load (src : bytes) : memdbMemCamAddr := MkAddr (Uint32 src) (Uint32 (drop 4 src)).

(** ** Blocks *)

Definition alignMask : Z := 2 ^ 32 - 8.
Definition maxBlockSize : Z := 128 * 2 ^ 20.
Definition initBlockSize : Z := 4 * 1024.

Record memdbMemCamBlock : Type := MkBlock {
  blk_buf : bytes;
  blk_length : Z;
}.

Record memdbMemCam : Type := MkMemCam {
  blockSize : Z;
  blocks : list memdbMemCamBlock;
}.

(** [buf[i:j]], and the buffer with [data] copied to [buf[i:]]. *)
Definition slice (b : bytes) (i j : Z) : bytes := take (Z.to_nat (j - i)) (drop (Z.to_nat i) b).
Definition splice (b : bytes) (i : Z) (data : bytes) : bytes :=
  take (Z.to_nat i) b ++ data ++ drop (Z.to_nat i + length data) b.

(** The offset of the piece and the block without that piece; [None] stands
    for [nullBlockOffset]. *)
Definition block_alloc (a : memdbMemCamBlock) (size : Z) (align : bool) : option (Z * memdbMemCamBlock) :=
  let offset := if align then Z.land (blk_length a + 7) alignMask else blk_length a in
  let newLen := offset + size in
  if Z.of_nat (length (blk_buf a)) <? newLen then None
  else Some (u32_wrap offset, MkBlock (blk_buf a) newLen).

(** The doublings of [enlarge]; 32 are enough for a size of at most [maxBlockSize]. *)
Fixpoint grow (fuel : nat) (blockSize allocSize : Z) : Z :=
  match fuel with
  | O => blockSize
  | S fuel' => if blockSize <=? allocSize then grow fuel' (Z.shiftl blockSize 1) allocSize else blockSize
  end.

Definition enlarge (a : memdbMemCam) (allocSize blockSize : Z) : memdbMemCam :=
  let bs := grow 32 blockSize allocSize in
  let bs := if maxBlockSize <? bs then maxBlockSize else bs in
  MkMemCam bs (blocks a ++ [MkBlock (replicate (Z.to_nat bs) x00) 0]).

Definition allocInLastBlock (a : memdbMemCam) (size : Z) (align : bool) : memdbMemCam * memdbMemCamAddr :=
  let idx := (length (blocks a) - 1)%nat in
  match blocks a !! idx with
  | None => (a, nullAddr)
  | Some b =>
      match block_alloc b size align with
      | None => (a, nullAddr)
      | Some (offset, b') => (MkMemCam (blockSize a) (<[idx := b']> (blocks a)), MkAddr (u32_wrap (Z.of_nat idx)) offset)
      end
  end.

(** [None] is the panic. *)
Definition alloc (a : memdbMemCam) (size : Z) (align : bool) : option (memdbMemCam * memdbMemCamAddr) :=
  if maxBlockSize <? size then None
  else
    let a := match blocks a with [] => enlarge a size initBlockSize | _ => a end in
    let '(a', addr) := allocInLastBlock a size align in
    if negb (isNull addr) then Some (a', addr)
    else Some (allocInLastBlock (enlarge a size (Z.shiftl (blockSize a) 1)) size align).

Definition arena_reset : memdbMemCam := MkMemCam 0 [].

Record memdbCheckpoint : Type := MkCheckpoint {
  cp_blockSize : Z;
  cp_blocks : Z;
  cp_offsetInBlock : Z;
}.

Definition isSamePosition (cp other : memdbCheckpoint) : bool :=
  (cp_blocks cp =? cp_blocks other) && (cp_offsetInBlock cp =? cp_offsetInBlock other).

Definition checkpoint (a : memdbMemCam) : memdbCheckpoint :=
  MkCheckpoint (blockSize a) (Z.of_nat (length (blocks a)))
    (match last (blocks a) with Some b => blk_length b | None => 0 end).

Definition truncate (a : memdbMemCam) (snap : memdbCheckpoint) : memdbMemCam :=
  let bs := take (Z.to_nat (cp_blocks snap)) (blocks a) in
  MkMemCam (cp_blockSize snap)
    (alter (fun b => MkBlock (blk_buf b) (cp_offsetInBlock snap)) (length bs - 1)%nat bs).

(** [a.blocks[idx].buf]; out of range there are no bytes. *)
Definition block_buf (a : memdbMemCam) (idx : Z) : bytes :=
  match blocks a !! Z.to_nat idx with Some b => blk_buf b | None => [] end.

(** Copying [data] to [a.blocks[idx].buf[off:]]. *)
Definition write_at (a : memdbMemCam) (addr : memdbMemCamAddr) (data : bytes) : memdbMemCam :=
  MkMemCam (blockSize a)
    (alter (fun b => MkBlock (splice (blk_buf b) (addr_off addr) data) (blk_length b))
       (Z.to_nat (addr_idx addr)) (blocks a)).

(** ** The value log *)

Definition memdbVlogHdrSize : Z := 8 + 8 + 4.

Record memdbVlogHdr : Type := MkHdr {
  hdr_nodeAddr : memdbMemCamAddr;
  hdr_oldValue : memdbMemCamAddr;
  hdr_valueLen : Z;
}.

Definition hdr_store (hdr : memdbVlogHdr) : bytes :=
  le_bytes 4 (hdr_valueLen hdr) ++ addr_store (hdr_oldValue hdr) ++ addr_store (hdr_nodeAddr hdr).

Definition hdr_load (src : bytes) : memdbVlogHdr :=
  MkHdr (addr_load (drop 12 src)) (addr_load (drop 4 src)) (Uint32 src).

Definition appendValue (l : memdbMemCam) (nodeAddr oldValue : memdbMemCamAddr) (value : bytes)
    : option (memdbMemCam * memdbMemCamAddr) :=
  let size := memdbVlogHdrSize + Z.of_nat (length value) in
  '(l, addr) ← alloc l size false;
  let hdr := MkHdr nodeAddr oldValue (u32_wrap (Z.of_nat (length value))) in
  let l := write_at l addr (value ++ hdr_store hdr) in
  Some (l, MkAddr (addr_idx addr) (u32_wrap (addr_off addr + size))).

Definition getValue (l : memdbMemCam) (addr : memdbMemCamAddr) : bytes :=
  let lenOff := u32_wrap (addr_off addr - memdbVlogHdrSize) in
  let block := block_buf l (addr_idx addr) in
  let valueLen := Uint32 (drop (Z.to_nat lenOff) block) in
  if valueLen =? 0 then []
  else slice block (u32_wrap (lenOff - valueLen)) lenOff.

Definition load_hdr_at (l : memdbMemCam) (idx hdrOff : Z) : memdbVlogHdr :=
  hdr_load (drop (Z.to_nat hdrOff) (block_buf l idx)).

Definition canModify (cp : option memdbCheckpoint) (addr : memdbMemCamAddr) : bool :=
  match cp with
  | None => true
  | Some cp =>
      if cp_blocks cp - 1 <? addr_idx addr then true
      else (addr_idx addr =? cp_blocks cp - 1) && (cp_offsetInBlock cp <? addr_off addr)
  end.

(** The number of records bounds the steps of the walks over the log. *)
Fixpoint getSnapshotValue_loop (fuel : nat) (l : memdbMemCam) (addr : memdbMemCamAddr) (snap : memdbCheckpoint)
    : option bytes :=
  match fuel with
  | O => None
  | S fuel' =>
      if isNull addr then None
      else if negb (canModify (Some snap) addr) then Some (getValue l addr)
      else getSnapshotValue_loop fuel' l
             (hdr_oldValue (load_hdr_at l (addr_idx addr) (u32_wrap (addr_off addr - memdbVlogHdrSize)))) snap
  end.

(** Every record takes [memdbVlogHdrSize] bytes at least. *)
Definition log_fuel (l : memdbMemCam) : nat :=
  S (Z.to_nat (foldr (fun b n => blk_length b + n) 0 (blocks l))).

Definition getSnapshotValue (l : memdbMemCam) (addr : memdbMemCamAddr) (snap : memdbCheckpoint) : option bytes :=
  getSnapshotValue_loop (log_fuel l) l addr snap.

Definition moveBackCursor (l : memdbMemCam) (cursor : memdbCheckpoint) (hdr : memdbVlogHdr) : memdbCheckpoint :=
  let off := cp_offsetInBlock cursor - (memdbVlogHdrSize + hdr_valueLen hdr) in
  if off =? 0 then
    let bs := cp_blocks cursor - 1 in
    MkCheckpoint (cp_blockSize cursor) bs
      (if 0 <? bs then match blocks l !! Z.to_nat (bs - 1) with Some b => blk_length b | None => 0 end else off)
  else MkCheckpoint (cp_blockSize cursor) (cp_blocks cursor) off.

(** * What the arena promises: an allocation succeeds, inside a block and beyond
    everything allocated before. *)

(** ** Arithmetic *)

Lemma u32_wrap_small z : 0 <= z < 4294967296 -> u32_wrap z = z.
Proof. apply Z.mod_small. Qed.

(** The alignment rounds up to a multiple of eight. *)
Lemma land_alignMask z : 0 <= z < 2 ^ 32 -> Z.land z alignMask = 8 * (z / 8).
Proof.
  intros B. change 8 with (2 ^ 3) at 1 2. rewrite (Z.mul_comm (2 ^ 3)), <- Z.shiftr_div_pow2, <- Z.shiftl_mul_pow2 by lia.
  apply Z.bits_inj'. intros n Hn. rewrite Z.land_spec.
  assert (Z.testbit alignMask n = bool_decide (3 <= n < 32)) as ->.
  { change alignMask with (Z.shiftl (Z.ones 29) 3). rewrite Z.shiftl_spec by lia.
    destruct (decide (n < 3)); [rewrite Z.testbit_neg_r by lia; by rewrite bool_decide_false by lia|].
    rewrite Z.testbit_ones by lia. case_bool_decide; rewrite ?andb_true_iff, ?andb_false_iff; lia. }
  rewrite Z.shiftl_spec by lia. destruct (decide (n < 3)).
  { rewrite bool_decide_false by lia. rewrite andb_false_r. symmetry. apply Z.testbit_neg_r. lia. }
  rewrite Z.shiftr_spec by lia. replace (n - 3 + 3) with n by lia. case_bool_decide; [apply andb_true_r|].
  rewrite andb_false_r. symmetry. destruct (decide (z = 0)) as [->|]; [apply Z.bits_0|].
  apply Z.bits_above_log2; [lia|]. apply Z.lt_le_trans with 32; [|lia]. apply Z.log2_lt_pow2; lia.
Qed.

Definition align_up (align : bool) (z : Z) : Z := if align then Z.land (z + 7) alignMask else z.

Lemma align_up_bounds align z : 0 <= z <= maxBlockSize -> z <= align_up align z <= z + 7.
Proof.
  unfold align_up, maxBlockSize. intros B. destruct align; [|lia].
  rewrite land_alignMask by lia. pose proof (Z.mod_pos_bound (z + 7) 8 ltac:(lia)).
  pose proof (Z.div_mod (z + 7) 8 ltac:(lia)). lia.
Qed.

Lemma grow_spec fuel bs size :
  0 < bs -> size < bs * 2 ^ Z.of_nat fuel -> bs <= grow fuel bs size /\ size < grow fuel bs size.
Proof.
  revert bs. induction fuel as [|fuel IH]; intros bs P L.
  - change (2 ^ Z.of_nat 0) with 1 in L. cbn. lia.
  - cbn [grow]. destruct (Z.leb_spec bs size); [|lia].
    rewrite Z.shiftl_mul_pow2 by lia. change (2 ^ 1) with 2.
    destruct (IH (bs * 2)); [lia| |lia].
    rewrite Nat2Z.inj_succ, Z.pow_succ_r in L by lia. lia.
Qed.

(** ** Allocation *)

Definition block_ok (b : memdbMemCamBlock) : Prop :=
  0 <= blk_length b <= Z.of_nat (length (blk_buf b)) /\ Z.of_nat (length (blk_buf b)) <= maxBlockSize.

(** Indices of blocks have 32 bits; a non-empty arena has a block size. *)
Record arena_ok (a : memdbMemCam) : Prop := {
  ok_blocks : Forall block_ok (blocks a);
  ok_size : blocks a = [] \/ initBlockSize <= blockSize a <= maxBlockSize;
}.

Definition few_blocks (a : memdbMemCam) : Prop := Z.of_nat (length (blocks a)) < 4294967296.

(** Where the piece [addr] of [size] bytes is, and what the arena is then. *)
Inductive allocated (a : memdbMemCam) (size : Z) (align : bool) : memdbMemCam -> memdbMemCamAddr -> Prop :=
| alloc_last bs b :
    blocks a = bs ++ [b] -> align_up align (blk_length b) + size <= Z.of_nat (length (blk_buf b)) ->
    allocated a size align
      (MkMemCam (blockSize a) (bs ++ [MkBlock (blk_buf b) (align_up align (blk_length b) + size)]))
      (MkAddr (Z.of_nat (length bs)) (align_up align (blk_length b)))
| alloc_new n :
    size <= n -> initBlockSize <= n <= maxBlockSize ->
    allocated a size align (MkMemCam n (blocks a ++ [MkBlock (replicate (Z.to_nat n) x00) size]))
      (MkAddr (Z.of_nat (length (blocks a))) 0).

Lemma allocInLastBlock_snoc n bs b size align :
  block_ok b -> Z.of_nat (length bs) < 4294967296 ->
  allocInLastBlock (MkMemCam n (bs ++ [b])) size align =
  if Z.of_nat (length (blk_buf b)) <? align_up align (blk_length b) + size
  then (MkMemCam n (bs ++ [b]), nullAddr)
  else (MkMemCam n (bs ++ [MkBlock (blk_buf b) (align_up align (blk_length b) + size)]),
        MkAddr (Z.of_nat (length bs)) (align_up align (blk_length b))).
Proof.
  intros Ob Fb. unfold allocInLastBlock. cbn [blocks blockSize]. rewrite length_app. cbn [length].
  replace (length bs + 1 - 1)%nat with (length bs) by lia.
  rewrite list_lookup_middle by done. unfold block_alloc. fold (align_up align (blk_length b)).
  destruct (_ <? _); [done|]. rewrite insert_app_r_alt, Nat.sub_diag by lia. cbn.
  destruct Ob as [? ?]. pose proof (align_up_bounds align (blk_length b) ltac:(lia)). unfold maxBlockSize in *.
  rewrite !u32_wrap_small by lia. done.
Qed.

Lemma enlarge_spec a size bs :
  0 <= size <= maxBlockSize -> initBlockSize <= bs -> bs <= 2 * maxBlockSize ->
  exists n, enlarge a size bs = MkMemCam n (blocks a ++ [MkBlock (replicate (Z.to_nat n) x00) 0]) /\
    size <= n /\ initBlockSize <= n <= maxBlockSize.
Proof.
  unfold enlarge. intros B L U. destruct (grow_spec 32 bs size) as [G1 G2].
  { unfold initBlockSize in *. lia. }
  { unfold initBlockSize, maxBlockSize in *. change (2 ^ Z.of_nat 32) with 4294967296. lia. }
  eexists. split; [done|]. unfold initBlockSize, maxBlockSize in *. destruct (Z.ltb_spec (128 * 2 ^ 20) (grow 32 bs size)); lia.
Qed.

Lemma isNull_off idx off : off < MaxUint32 -> isNull (MkAddr idx off) = false.
Proof. intros L. apply bool_decide_eq_false_2. intros [= _ ->]. unfold MaxUint32 in L. lia. Qed.

Lemma alloc_fresh a size align n :
  0 <= size <= n -> initBlockSize <= n <= maxBlockSize -> few_blocks a ->
  allocInLastBlock (MkMemCam n (blocks a ++ [MkBlock (replicate (Z.to_nat n) x00) 0])) size align =
  (MkMemCam n (blocks a ++ [MkBlock (replicate (Z.to_nat n) x00) size]), MkAddr (Z.of_nat (length (blocks a))) 0).
Proof.
  intros B1 B2 F. assert (align_up align 0 = 0) as E0 by by destruct align.
  unfold initBlockSize in *. rewrite allocInLastBlock_snoc; [|split; cbn; rewrite length_replicate; lia|done].
  cbn [blk_length blk_buf]. rewrite E0, length_replicate. destruct (Z.ltb_spec (Z.of_nat (Z.to_nat n)) (0 + size)); [lia|].
  by rewrite Z.add_0_l.
Qed.

(** An allocation of at most the largest block size succeeds. *)
Lemma alloc_spec a size align :
  arena_ok a -> few_blocks a -> 0 <= size <= maxBlockSize ->
  exists a' addr, alloc a size align = Some (a', addr) /\ allocated a size align a' addr /\ isNull addr = false.
Proof.
  intros [Ob Os] F B. unfold alloc. destruct (Z.ltb_spec maxBlockSize size); [lia|].
  destruct (blocks a) as [|b0 bs0] eqn:Eb.
  - destruct (enlarge_spec a size initBlockSize) as (n & -> & L & Bn); [done|unfold initBlockSize; lia|done|].
    rewrite alloc_fresh by (done || lia). rewrite isNull_off by done. cbn [negb].
    eexists _, _. split_and!; [done| |by apply isNull_off]. by constructor.
  - destruct (@exists_last _ (b0 :: bs0)) as (bs & b & Es); [done|].
    destruct Os as [?|Os]; [done|]. rewrite Es in Ob, Eb. apply Forall_app in Ob as [Ob [Ok _]%Forall_cons].
    pose proof Ok as [K1 K2]. pose proof (align_up_bounds align (blk_length b) ltac:(lia)) as Ba.
    destruct a as [nb ba]. cbn [blocks blockSize] in *. subst ba.
    unfold few_blocks in F. cbn [blocks] in F. rewrite length_app in F. cbn [length] in F.
    rewrite allocInLastBlock_snoc by (done || lia).
    destruct (Z.ltb_spec (Z.of_nat (length (blk_buf b))) (align_up align (blk_length b) + size)) as [Lt|Ge].
    + change (isNull nullAddr) with true. cbn [negb].
      destruct (enlarge_spec (MkMemCam nb (bs ++ [b])) size (Z.shiftl nb 1)) as (n & -> & L & Bn);
        [done|rewrite Z.shiftl_mul_pow2 by lia; unfold initBlockSize in *; lia..|].
      rewrite alloc_fresh; [|lia|done|unfold few_blocks; cbn; rewrite length_app; cbn; lia].
      eexists _, _. split_and!; [done| |by apply isNull_off]. by constructor.
    + rewrite isNull_off by (unfold maxBlockSize, MaxUint32 in *; lia). cbn [negb].
      eexists _, _. split_and!; [done| |apply isNull_off; unfold maxBlockSize, MaxUint32 in *; lia].
      by eapply (alloc_last (MkMemCam nb (bs ++ [b]))).
Qed.

Lemma allocated_ok a size align a' addr :
  arena_ok a -> 0 <= size -> allocated a size align a' addr -> arena_ok a'.
Proof.
  intros [Ob Os] Ps [bs b Eb Le|n Le Bn]; split; cbn [blocks blockSize].
  - rewrite Eb in Ob. apply Forall_app in Ob as [Ob [[K1 K2] _]%Forall_cons]. apply Forall_app. split; [done|].
    repeat constructor; cbn; try lia. pose proof (align_up_bounds align (blk_length b) ltac:(lia)). lia.
  - right. destruct Os as [E|?]; [|done]. rewrite E in Eb. by destruct bs.
  - apply Forall_app. split; [done|]. unfold initBlockSize in *.
    repeat constructor; cbn [blk_length blk_buf]; rewrite ?length_replicate; lia.
  - by right.
Qed.
