(* ===== verification/MemVlog.v ===== *)
(** * The value log as a list of records

    The log [Vlog l recs] holds the records [recs], each with the address of
    its end: appending adds a record at the end, reading an address of a record
    gives its value and header, a checkpoint is a position between two records,
    walking back goes from a position to the previous one, and truncating at a
    position leaves the records before it. *)

From stdpp Require Import base gmap list sorting strings.
From Stdlib Require Import Strings.Byte ZArith Lia Sorted.
From S2P Require Import Prelude External Marshal MemArena.
Open Scope Z_scope.

Abbreviation maddr := memdbMemCamAddr.

(** ** Headers *)

Definition addr_ok (a : maddr) : Prop := 0 <= addr_idx a < 4294967296 /\ 0 <= addr_off a < 4294967296.

Lemma length_addr_store a : length (addr_store a) = 8%nat.
Proof. unfold addr_store. by rewrite length_app, !length_le_bytes. Qed.

Lemma Uint32_le_bytes z rest : Uint32 (le_bytes 4 z ++ rest) = u32_wrap z.
Proof.
  unfold Uint32. rewrite take_app_le by (rewrite length_le_bytes; lia).
  rewrite take_ge by (rewrite length_le_bytes; lia). by rewrite le_Z_le_bytes.
Qed.

Lemma addr_load_store a rest : addr_ok a -> addr_load (addr_store a ++ rest) = a.
Proof.
  intros [Bi Bo]. unfold addr_load, addr_store. rewrite <- app_assoc, Uint32_le_bytes.
  rewrite drop_app_length' by (by rewrite length_le_bytes). rewrite Uint32_le_bytes, !u32_wrap_small by done.
  by destruct a.
Qed.

Record hdr_ok (h : memdbVlogHdr) : Prop := {
  ho_node : addr_ok (hdr_nodeAddr h);
  ho_old : addr_ok (hdr_oldValue h);
  ho_len : 0 <= hdr_valueLen h < 4294967296;
}.

Lemma length_hdr_store h : length (hdr_store h) = 20%nat.
Proof. unfold hdr_store. by rewrite !length_app, length_le_bytes, !length_addr_store. Qed.

(** A header is read back as it was stored. *)
Lemma hdr_load_store h rest : hdr_ok h -> hdr_load (hdr_store h ++ rest) = h.
Proof.
  intros [On Oo Ol]. unfold hdr_load, hdr_store. rewrite <- !app_assoc.
  rewrite Uint32_le_bytes, u32_wrap_small by done.
  assert (forall x, drop 12 (le_bytes 4 (hdr_valueLen h) ++ addr_store (hdr_oldValue h) ++ x) = x) as ->.
  { intros x. rewrite app_assoc. apply drop_app_length'. by rewrite length_app, length_le_bytes, length_addr_store. }
  rewrite drop_app_length' by (by rewrite length_le_bytes). rewrite !addr_load_store by done. by destruct h.
Qed.

(** ** Records *)

Record vrec : Type := MkRec {
  r_node : maddr;
  r_old : maddr;
  r_val : bytes;
}.

Definition r_hdr (r : vrec) : memdbVlogHdr := MkHdr (r_node r) (r_old r) (Z.of_nat (length (r_val r))).
Definition r_bytes (r : vrec) : bytes := r_val r ++ hdr_store (r_hdr r).
Definition r_size (r : vrec) : Z := memdbVlogHdrSize + Z.of_nat (length (r_val r)).
Definition rec_ok (r : vrec) : Prop := addr_ok (r_node r) /\ addr_ok (r_old r).

Lemma length_r_bytes r : Z.of_nat (length (r_bytes r)) = r_size r.
Proof. unfold r_bytes, r_size, memdbVlogHdrSize. rewrite length_app, length_hdr_store. lia. Qed.

Lemma r_size_pos r : 20 <= r_size r.
Proof. unfold r_size, memdbVlogHdrSize. lia. Qed.

Definition data (rs : list vrec) : bytes := mjoin (r_bytes <$> rs).
Definition data_len (rs : list vrec) : Z := Z.of_nat (length (data rs)).

Lemma data_app rs rs' : data (rs ++ rs') = data rs ++ data rs'.
Proof. unfold data. by rewrite fmap_app, join_app. Qed.

Lemma data_len_app rs rs' : data_len (rs ++ rs') = data_len rs + data_len rs'.
Proof. unfold data_len. rewrite data_app, length_app. lia. Qed.

Lemma data_len_one r : data_len [r] = r_size r.
Proof. unfold data_len, data. cbn. by rewrite app_nil_r, length_r_bytes. Qed.

Lemma data_len_cons r rs : data_len (r :: rs) = r_size r + data_len rs.
Proof. change (r :: rs) with ([r] ++ rs). by rewrite data_len_app, data_len_one. Qed.

Lemma data_len_nonneg rs : 0 <= data_len rs.
Proof. unfold data_len. lia. Qed.

(** The records of a block, and of the blocks, with their addresses. *)
Fixpoint place (idx off : Z) (rs : list vrec) : list (maddr * vrec) :=
  match rs with
  | [] => []
  | r :: rs => (MkAddr idx (off + r_size r), r) :: place idx (off + r_size r) rs
  end.

Fixpoint place_all (idx : Z) (rss : list (list vrec)) : list (maddr * vrec) :=
  match rss with
  | [] => []
  | rs :: rss => place idx 0 rs ++ place_all (idx + 1) rss
  end.

Lemma place_app idx off rs rs' : place idx off (rs ++ rs') = place idx off rs ++ place idx (off + data_len rs) rs'.
Proof.
  revert off. induction rs as [|r rs IH]; intros off; [cbn; by rewrite Z.add_0_r|].
  cbn [app place]. rewrite IH, data_len_cons. by rewrite Z.add_assoc.
Qed.

Lemma place_all_app idx rss rss' :
  place_all idx (rss ++ rss') = place_all idx rss ++ place_all (idx + Z.of_nat (length rss)) rss'.
Proof.
  revert idx. induction rss as [|rs rss IH]; intros idx; [cbn; by rewrite Z.add_0_r|].
  cbn [app place_all length]. rewrite IH, app_assoc. do 2 f_equal. lia.
Qed.

Lemma place_split idx off rs l1 a r l2 :
  place idx off rs = l1 ++ (a, r) :: l2 ->
  exists rs1 rs2, rs = rs1 ++ r :: rs2 /\ l1 = place idx off rs1 /\
    a = MkAddr idx (off + data_len rs1 + r_size r) /\ l2 = place idx (off + data_len rs1 + r_size r) rs2.
Proof.
  revert off l1. induction rs as [|r0 rs IH]; intros off [|x l1] E; try discriminate; cbn [place app] in E.
  - injection E as <- <- <-. exists [], rs. change (data_len []) with 0. by rewrite Z.add_0_r.
  - injection E as <- E. apply IH in E as (rs1 & rs2 & -> & -> & -> & ->). exists (r0 :: rs1), rs2.
    rewrite data_len_cons, Z.add_assoc. done.
Qed.

Lemma place_all_split idx rss l1 a r l2 :
  place_all idx rss = l1 ++ (a, r) :: l2 ->
  exists rss1 rs1 rs2 rss2, rss = rss1 ++ (rs1 ++ r :: rs2) :: rss2 /\
    l1 = place_all idx rss1 ++ place (idx + Z.of_nat (length rss1)) 0 rs1 /\
    a = MkAddr (idx + Z.of_nat (length rss1)) (data_len rs1 + r_size r).
Proof.
  revert idx l1. induction rss as [|rs rss IH]; intros idx l1 E; [by destruct l1|]. cbn [place_all] in E.
  symmetry in E. apply app_eq_app in E as (l & [[-> E]|[E1 E2]]).
  - apply IH in E as (rss1 & rs1 & rs2 & rss2 & -> & -> & ->).
    exists (rs :: rss1), rs1, rs2, rss2. cbn [app place_all length].
    rewrite Nat2Z.inj_succ, <- Z.add_1_r, <- app_assoc. split_and!; [done|do 3 f_equal; lia|f_equal; lia].
  - destruct l as [|x l]; cbn in E2.
    + symmetry in E2. change ((a, r) :: l2) with ([] ++ (a, r) :: l2) in E2.
      apply (IH (idx + 1) []) in E2 as (rss1 & rs1 & rs2 & rss2 & -> & El & ->). rewrite app_nil_r in E1. subst l1.
      exists (rs :: rss1), rs1, rs2, rss2. cbn [app place_all length].
      rewrite Nat2Z.inj_succ, <- Z.add_1_r, <- app_assoc. split_and!; [done| |f_equal; lia].
      replace (idx + (Z.of_nat (length rss1) + 1)) with (idx + 1 + Z.of_nat (length rss1)) by lia.
      by rewrite <- El, app_nil_r.
    + injection E2 as <- ->. apply place_split in E1 as (rs1 & rs2 & -> & -> & -> & ->).
      exists [], rs1, rs2, rss. cbn. by rewrite Z.add_0_r.
Qed.

Lemma elem_of_place idx off rs p :
  p ∈ place idx off rs -> addr_idx p.1 = idx /\ off < addr_off p.1 <= off + data_len rs /\ p.2 ∈ rs.
Proof.
  intros (l1 & l2 & E)%list_elem_of_split. destruct p as [a r].
  apply place_split in E as (rs1 & rs2 & -> & _ & -> & _). cbn. rewrite data_len_app, data_len_cons.
  pose proof (data_len_nonneg rs1). pose proof (data_len_nonneg rs2). pose proof (r_size_pos r).
  split_and!; [done|lia|lia|]. apply elem_of_app. right. left.
Qed.

Lemma elem_of_place_all idx rss p :
  p ∈ place_all idx rss -> idx <= addr_idx p.1 < idx + Z.of_nat (length rss).
Proof.
  intros (l1 & l2 & E)%list_elem_of_split. destruct p as [a r].
  apply place_all_split in E as (rss1 & rs1 & rs2 & rss2 & -> & _ & ->). cbn. rewrite length_app. cbn. lia.
Qed.

(** ** The log *)

Record block_holds (b : memdbMemCamBlock) (rs : list vrec) : Prop := {
  bh_some : rs <> [];
  bh_len : blk_length b = data_len rs;
  bh_buf : exists rest, blk_buf b = data rs ++ rest;
  bh_max : Z.of_nat (length (blk_buf b)) <= maxBlockSize;
}.

Record Vlog (l : memdbMemCam) (recs : list (maddr * vrec)) : Prop := {
  vl_rss : exists rss, Forall2 block_holds (blocks l) rss /\ recs = place_all 0 rss;
  vl_recs : Forall (fun p => rec_ok p.2) recs;
  vl_few : Z.of_nat (length (blocks l)) <= 4294967296;
  vl_size : blocks l = [] \/ initBlockSize <= blockSize l <= maxBlockSize;
}.

Lemma Vlog_nil : Vlog arena_reset [].
Proof. split; [exists []; by split; [constructor|]|constructor|cbn; lia|by left]. Qed.

Lemma block_holds_ok b rs : block_holds b rs -> block_ok b.
Proof.
  intros [_ L (rest & E) M]. split; [|done]. rewrite L, E, length_app. unfold data_len. lia.
Qed.

Lemma Vlog_arena l recs : Vlog l recs -> arena_ok l.
Proof.
  intros [(rss & F & _) _ _ S]. split; [|done]. apply Forall_forall. intros b (i & Hi)%list_elem_of_lookup.
  destruct (Forall2_lookup_l _ _ _ _ _ F Hi) as (rs & _ & H). by eapply block_holds_ok.
Qed.

(** Where a record lies. *)
Record in_block (l : memdbMemCam) (a : maddr) (r : vrec) (pre rest : bytes) : Prop := {
  ib_buf : block_buf l (addr_idx a) = pre ++ r_bytes r ++ rest;
  ib_off : addr_off a = Z.of_nat (length pre) + r_size r;
  ib_max : addr_off a <= maxBlockSize;
  ib_idx : 0 <= addr_idx a < 4294967296;
  ib_rec : rec_ok r;
}.

Lemma Vlog_record l l1 a r l2 : Vlog l (l1 ++ (a, r) :: l2) -> exists pre rest, in_block l a r pre rest.
Proof.
  intros [(rss & F & E) R Fw _]. symmetry in E. apply place_all_split in E as (rss1 & rs1 & rs2 & rss2 & -> & _ & ->).
  rewrite Z.add_0_l. pose proof (Forall2_length _ _ _ F) as Ln. rewrite length_app in Ln. cbn in Ln.
  destruct (Forall2_lookup_r _ _ _ (length rss1) (rs1 ++ r :: rs2) F) as (b & Eb & [_ _ (rest & Er) Mx]).
  { by apply list_lookup_middle. }
  exists (data rs1), (data rs2 ++ rest). change (r :: rs2) with ([r] ++ rs2) in Er. rewrite !data_app in Er.
  assert (data [r] = r_bytes r) as E1 by (unfold data; cbn; by rewrite app_nil_r). rewrite E1 in Er.
  split; cbn [addr_idx addr_off].
  - unfold block_buf. rewrite Nat2Z.id, Eb, Er, <- !app_assoc. done.
  - done.
  - rewrite Er, !length_app in Mx. pose proof (length_r_bytes r). unfold data_len. lia.
  - lia.
  - apply Forall_app in R as [_ [R _]%Forall_cons]. exact R.
Qed.

Lemma in_block_bounds l a r pre rest :
  in_block l a r pre rest -> Z.of_nat (length (r_val r)) < 4294967296 /\ 20 <= addr_off a < MaxUint32.
Proof.
  intros [_ O M _ _]. unfold r_size, memdbVlogHdrSize, maxBlockSize, MaxUint32 in *. lia.
Qed.

Lemma in_block_hdr_ok l a r pre rest : in_block l a r pre rest -> hdr_ok (r_hdr r).
Proof. intros B. destruct (in_block_bounds _ _ _ _ _ B). destruct (ib_rec _ _ _ _ _ B). split; cbn; [done..|lia]. Qed.

Lemma in_block_load l a r pre rest :
  in_block l a r pre rest -> load_hdr_at l (addr_idx a) (addr_off a - memdbVlogHdrSize) = r_hdr r.
Proof.
  intros B. unfold load_hdr_at. rewrite (ib_buf _ _ _ _ _ B), (ib_off _ _ _ _ _ B). unfold r_size, r_bytes.
  rewrite <- !app_assoc, app_assoc, drop_app_length' by (rewrite length_app; lia).
  apply hdr_load_store. by eapply in_block_hdr_ok.
Qed.

Lemma in_block_wrap l a r pre rest :
  in_block l a r pre rest -> u32_wrap (addr_off a - memdbVlogHdrSize) = addr_off a - memdbVlogHdrSize.
Proof.
  intros B. destruct (in_block_bounds _ _ _ _ _ B). apply u32_wrap_small. unfold memdbVlogHdrSize, MaxUint32 in *. lia.
Qed.

Lemma in_block_value l a r pre rest : in_block l a r pre rest -> getValue l a = r_val r.
Proof.
  intros B. unfold getValue. rewrite (in_block_wrap _ _ _ _ _ B). pose proof (in_block_load _ _ _ _ _ B) as H.
  unfold load_hdr_at, hdr_load in H. injection H as _ _ ->. destruct (in_block_bounds _ _ _ _ _ B) as [Bl Bo].
  destruct (Z.eqb_spec (Z.of_nat (length (r_val r))) 0) as [E0|N0]; [destruct (r_val r); [done|cbn in E0; lia]|].
  rewrite u32_wrap_small; rewrite (ib_off _ _ _ _ _ B) in *; unfold r_size, memdbVlogHdrSize, MaxUint32 in *; [|lia].
  unfold slice. rewrite (ib_buf _ _ _ _ _ B). unfold r_bytes. rewrite drop_app_length' by lia.
  rewrite <- app_assoc, take_app_length'; [done|lia].
Qed.

Lemma in_block_nonnull l a r pre rest : in_block l a r pre rest -> isNull a = false.
Proof. intros B%in_block_bounds. destruct a. apply isNull_off. cbn in B. lia. Qed.

Lemma in_block_addr_ok l a r pre rest : in_block l a r pre rest -> addr_ok a.
Proof.
  intros B. pose proof (ib_idx _ _ _ _ _ B). apply in_block_bounds in B as [_ ?]. split; [done|].
  unfold MaxUint32 in *. lia.
Qed.

(** Reading a record of the log. *)
Lemma Vlog_at l recs a r : Vlog l recs -> (a, r) ∈ recs -> exists pre rest, in_block l a r pre rest.
Proof. intros V (l1 & l2 & ->)%list_elem_of_split. by eapply Vlog_record. Qed.

Lemma Vlog_getValue l recs a r : Vlog l recs -> (a, r) ∈ recs -> getValue l a = r_val r.
Proof. intros V H. destruct (Vlog_at _ _ _ _ V H) as (? & ? & B). by eapply in_block_value. Qed.

Lemma Vlog_load l recs a r :
  Vlog l recs -> (a, r) ∈ recs -> load_hdr_at l (addr_idx a) (addr_off a - memdbVlogHdrSize) = r_hdr r.
Proof. intros V H. destruct (Vlog_at _ _ _ _ V H) as (? & ? & B). by eapply in_block_load. Qed.

Lemma Vlog_wrap l recs a r :
  Vlog l recs -> (a, r) ∈ recs -> u32_wrap (addr_off a - memdbVlogHdrSize) = addr_off a - memdbVlogHdrSize.
Proof. intros V H. destruct (Vlog_at _ _ _ _ V H) as (? & ? & B). by eapply in_block_wrap. Qed.

Lemma Vlog_nonnull l recs a r : Vlog l recs -> (a, r) ∈ recs -> a <> nullAddr.
Proof.
  intros V H. destruct (Vlog_at _ _ _ _ V H) as (? & ? & B). apply in_block_nonnull in B.
  intros ->. discriminate.
Qed.

Lemma Vlog_addr_ok l recs a r : Vlog l recs -> (a, r) ∈ recs -> addr_ok a.
Proof. intros V H. destruct (Vlog_at _ _ _ _ V H) as (? & ? & B). by eapply in_block_addr_ok. Qed.

(** ** Positions *)

(** The order of addresses in the log. *)
Definition alt (a b : maddr) : Prop := addr_idx a < addr_idx b \/ addr_idx a = addr_idx b /\ addr_off a < addr_off b.

Lemma alt_irrefl a : ~ alt a a.
Proof. unfold alt. lia. Qed.

Lemma Vlog_before l l1 a r l2 p : Vlog l (l1 ++ (a, r) :: l2) -> p ∈ l1 -> alt p.1 a.
Proof.
  intros [(rss & F & E) _ _ _] Hp. symmetry in E. apply place_all_split in E as (rss1 & rs1 & rs2 & rss2 & -> & -> & ->).
  pose proof (data_len_nonneg rs1). pose proof (r_size_pos r).
  apply elem_of_app in Hp as [Hp%elem_of_place_all|(Hi & Ho & _)%elem_of_place]; unfold alt; cbn; [left; lia|right].
  split; [done|lia].
Qed.

Lemma Vlog_after l l1 a r l2 p : Vlog l (l1 ++ (a, r) :: l2) -> p ∈ l2 -> alt a p.1.
Proof.
  intros V (m1 & m2 & ->)%list_elem_of_split. destruct p as [b r']. cbn.
  apply (Vlog_before l (l1 ++ (a, r) :: m1) b r' m2 (a, r)); [by rewrite <- app_assoc|].
  rewrite elem_of_app, elem_of_cons. auto.
Qed.

Lemma Vlog_NoDup l recs : Vlog l recs -> NoDup recs.*1.
Proof.
  intros V. enough (forall l1 l2, recs = l1 ++ l2 -> NoDup l2.*1) as H by by apply (H []).
  intros l1 l2. revert l1. induction l2 as [|[a r] l2 IH]; intros l1 ->; [constructor|]. constructor.
  - intros ([b r'] & E & Hb)%list_elem_of_fmap. cbn in E. subst b. apply (Vlog_after _ _ _ _ _ _ V), alt_irrefl in Hb. done.
  - apply (IH (l1 ++ [(a, r)])). by rewrite <- app_assoc.
Qed.

(** An address of the log has one record. *)
Lemma Vlog_unique l recs a r r' : Vlog l recs -> (a, r) ∈ recs -> (a, r') ∈ recs -> r = r'.
Proof.
  intros V (l1 & l2 & ->)%list_elem_of_split [H|[[= ->]|H]%elem_of_cons]%elem_of_app; [|done|].
  - apply (Vlog_before _ _ _ _ _ _ V) in H. by apply alt_irrefl in H.
  - apply (Vlog_after _ _ _ _ _ _ V) in H. by apply alt_irrefl in H.
Qed.

(** The block count and the offset of the position after some records. *)
Definition pos (recs : list (maddr * vrec)) : Z * Z :=
  match last recs with
  | Some (a, _) => (addr_idx a + 1, addr_off a)
  | None => (0, 0)
  end.

Record at_pos (cp : memdbCheckpoint) (recs : list (maddr * vrec)) : Prop := {
  ap_pos : (cp_blocks cp, cp_offsetInBlock cp) = pos recs;
  ap_size : recs = [] \/ initBlockSize <= cp_blockSize cp <= maxBlockSize;
}.

Lemma pos_snoc recs a r : pos (recs ++ [(a, r)]) = (addr_idx a + 1, addr_off a).
Proof. unfold pos. by rewrite last_snoc. Qed.

Lemma at_pos_nil cp : at_pos cp [] -> cp_blocks cp = 0 /\ cp_offsetInBlock cp = 0.
Proof. intros [[= -> ->] _]. done. Qed.

Lemma at_pos_snoc cp recs a r :
  at_pos cp (recs ++ [(a, r)]) ->
  cp_blocks cp = addr_idx a + 1 /\ cp_offsetInBlock cp = addr_off a /\ initBlockSize <= cp_blockSize cp <= maxBlockSize.
Proof. intros [E [N|S]]; [by destruct recs|]. rewrite pos_snoc in E. by injection E as -> ->. Qed.

Lemma pos_place rest idx rs : rs <> [] -> pos (rest ++ place idx 0 rs) = (idx + 1, data_len rs).
Proof.
  intros N. destruct (exists_last N) as (rs' & r & ->). rewrite place_app, app_assoc. cbn [place].
  rewrite pos_snoc. cbn. by rewrite data_len_app, data_len_one.
Qed.

(** [canModify]: an address is modifiable when it lies after the position. *)
Lemma canModify_after l l1 l2 cp a r :
  Vlog l (l1 ++ l2) -> at_pos cp l1 -> (a, r) ∈ l2 -> canModify (Some cp) a = true.
Proof.
  intros V A H. pose proof (Vlog_at _ _ a r V ltac:(rewrite elem_of_app; auto)) as (? & ? & B).
  pose proof (ib_idx _ _ _ _ _ B) as Ib. unfold canModify.
  destruct l1 as [|p l1' _] using rev_ind.
  - apply at_pos_nil in A as [-> _]. by destruct (Z.ltb_spec (0 - 1) (addr_idx a)); [|lia].
  - destruct p as [b r']. apply at_pos_snoc in A as (-> & -> & _). rewrite <- app_assoc in V.
    pose proof (Vlog_after _ _ _ _ _ _ V H) as Lt. unfold alt in Lt. cbn in Lt.
    destruct (Z.ltb_spec (addr_idx b + 1 - 1) (addr_idx a)); [done|].
    destruct Lt as [?|[E Lt]]; [lia|]. apply andb_true_iff. split; [apply Z.eqb_eq; lia|by apply Z.ltb_lt].
Qed.

Lemma canModify_before l l1 l2 cp a r :
  Vlog l (l1 ++ l2) -> at_pos cp l1 -> (a, r) ∈ l1 -> canModify (Some cp) a = false.
Proof.
  intros V A H. destruct l1 as [|p l1' _] using rev_ind; [by apply not_elem_of_nil in H|].
  destruct p as [b r']. apply at_pos_snoc in A as (Eb & Eo & _). unfold canModify. rewrite Eb, Eo. rewrite <- app_assoc in V.
  assert (alt a b \/ a = b) as [Lt| ->].
  { apply elem_of_app in H as [H|[= -> _]%list_elem_of_singleton]; [left|by right].
    by apply (Vlog_before _ _ _ _ _ _ V) in H. }
  - unfold alt in Lt. destruct (Z.ltb_spec (addr_idx b + 1 - 1) (addr_idx a)); [lia|].
    apply andb_false_iff. destruct Lt as [?|[_ Lt]]; [left; apply Z.eqb_neq; lia|right; apply Z.ltb_ge; lia].
  - destruct (Z.ltb_spec (addr_idx b + 1 - 1) (addr_idx b)); [lia|].
    apply andb_false_iff. right. apply Z.ltb_ge. lia.
Qed.

(** Positions are the same exactly when no record lies between them. *)
Lemma isSamePosition_spec l l1 l2 rest cp cp' :
  Vlog l (l1 ++ l2 ++ rest) -> at_pos cp l1 -> at_pos cp' (l1 ++ l2) ->
  isSamePosition cp cp' = bool_decide (l2 = []).
Proof.
  intros V A A'. destruct l2 as [|p l2' _] using rev_ind.
  - rewrite app_nil_r in A'. destruct A as [[= E1] _], A' as [[= E2] _]. unfold isSamePosition.
    rewrite bool_decide_true by done. assert ((cp_blocks cp, cp_offsetInBlock cp) = (cp_blocks cp', cp_offsetInBlock cp')) as E by congruence.
    injection E as -> ->. by rewrite !Z.eqb_refl.
  - destruct p as [b r]. rewrite bool_decide_false by by destruct l2'. rewrite app_assoc in A'.
    apply at_pos_snoc in A' as (E1 & E2 & _). unfold isSamePosition. rewrite E1, E2.
    assert (Vlog l ((l1 ++ l2') ++ (b, r) :: rest)) as V' by (rewrite <- !app_assoc in V |- *; exact V).
    destruct l1 as [|[c r'] l1' _] using rev_ind.
    + apply at_pos_nil in A as [-> ->]. destruct (Vlog_record _ _ _ _ _ V') as (? & ? & B).
      pose proof (ib_idx _ _ _ _ _ B). destruct (Z.eqb_spec 0 (addr_idx b + 1)); [lia|done].
    + apply at_pos_snoc in A as (-> & -> & _).
      pose proof (Vlog_before _ _ _ _ _ (c, r') V' ltac:(rewrite !elem_of_app, list_elem_of_singleton; auto)) as Lt.
      unfold alt in Lt. cbn in Lt. apply andb_false_iff. rewrite !Z.eqb_neq. lia.
Qed.

Lemma last_block_pos bs b rss rs :
  Forall2 block_holds bs rss -> block_holds b rs ->
  pos (place_all 0 (rss ++ [rs])) = (Z.of_nat (length bs) + 1, blk_length b).
Proof.
  intros F [N L _ _]. rewrite place_all_app. cbn [place_all]. rewrite app_nil_r, pos_place by done.
  by rewrite L, (Forall2_length _ _ _ F), Z.add_0_l.
Qed.

Lemma checkpoint_at l recs : Vlog l recs -> at_pos (checkpoint l) recs.
Proof.
  intros [(rss & F & ->) _ _ S]. unfold checkpoint. destruct (blocks l) as [|b bs _] eqn:Eb using rev_ind.
  - apply Forall2_nil_inv_l in F as ->. split; [done|by left].
  - apply Forall2_app_inv_l in F as (rss' & rs' & F & (rs & ? & Hb & E0 & ->)%Forall2_cons_inv_l & ->); apply Forall2_nil_inv_l in E0 as ->.
    split; cbn [cp_blocks cp_offsetInBlock cp_blockSize].
    + rewrite last_snoc, length_app, (last_block_pos bs b) by done. cbn. f_equal. lia.
    + destruct S as [?|S]; [by destruct bs|by right].
Qed.

(** ** Walking back *)

Lemma moveBack_at l l1 a r l2 cursor :
  Vlog l (l1 ++ (a, r) :: l2) -> at_pos cursor (l1 ++ [(a, r)]) -> at_pos (moveBackCursor l cursor (r_hdr r)) l1.
Proof.
  intros [(rss & F & E) _ _ _] A. symmetry in E. apply place_all_split in E as (rss1 & rs1 & rs2 & rss2 & -> & -> & ->).
  apply at_pos_snoc in A as (Eb & Eo & S). cbn [addr_idx addr_off] in Eb, Eo. unfold moveBackCursor. rewrite Eb, Eo.
  fold (r_size r). cbn [hdr_valueLen r_hdr]. fold (r_size r). rewrite Z.add_simpl_r, Z.add_simpl_r, Z.add_0_l.
  destruct (Z.eqb_spec (data_len rs1) 0) as [E0|N0].
  - assert (rs1 = []) as ->.
    { destruct rs1 as [|r1 rs1]; [done|]. rewrite data_len_cons in E0. pose proof (r_size_pos r1). pose proof (data_len_nonneg rs1). lia. }
    cbn [place]. rewrite app_nil_r. split; cbn [cp_blocks cp_offsetInBlock cp_blockSize]; [|by right].
    destruct rss1 as [|rs rss1 _] using rev_ind; [done|].
    apply Forall2_app_inv_r in F as (bs' & ? & F & _ & Ebs).
    apply Forall2_app_inv_r in F as (bs & bs2 & F & (b & ? & Hb & En & ->)%Forall2_cons_inv_r & ->).
    apply Forall2_nil_inv_r in En as ->. rewrite (last_block_pos bs b) by done.
    rewrite length_app. cbn [length]. destruct (Z.ltb_spec 0 (Z.of_nat (length rss1 + 1))); [|lia].
    rewrite Ebs, <- app_assoc. replace (Z.to_nat (Z.of_nat (length rss1 + 1) - 1)) with (length bs)
      by (rewrite (Forall2_length _ _ _ F); lia).
    cbn [app]. rewrite list_lookup_middle by done. rewrite (Forall2_length _ _ _ F). f_equal. lia.
  - split; cbn [cp_blocks cp_offsetInBlock cp_blockSize]; [|by right].
    rewrite pos_place; [done|]. by intros ->.
Qed.

Lemma block_holds_prefix b rs1 rs2 :
  block_holds b (rs1 ++ rs2) -> rs1 <> [] -> block_holds (MkBlock (blk_buf b) (data_len rs1)) rs1.
Proof.
  intros [_ _ (rest & E) M] N. split; [done|done| |done]. exists (data rs2 ++ rest). cbn.
  by rewrite E, data_app, app_assoc.
Qed.

(** [truncate] leaves the records before the position. *)
Lemma truncate_Vlog l l1 l2 cp : Vlog l (l1 ++ l2) -> at_pos cp l1 -> Vlog (truncate l cp) l1.
Proof.
  intros [(rss & F & E) R Fw _] A. apply Forall_app in R as [R _].
  destruct l1 as [|p l1 _] using rev_ind.
  - apply at_pos_nil in A as [E1 _]. unfold truncate. rewrite E1. change (Z.to_nat 0) with 0%nat. rewrite take_0. split; cbn; [by exists []|done|lia|by left].
  - destruct p as [a r]. pose proof (at_pos_snoc _ _ _ _ A) as (Eb & Eo & S). rewrite <- app_assoc in E.
    symmetry in E. apply place_all_split in E as (rss1 & rs1 & rs2 & rss2 & -> & -> & ->).
    cbn [addr_idx addr_off] in Eb, Eo. rewrite Z.add_0_l in Eb.
    apply Forall2_app_inv_r in F as (bs & ? & F & (b & bs2 & Hb & F2 & ->)%Forall2_cons_inv_r & Ebs).
    pose proof (Forall2_length _ _ _ F) as Ln. unfold truncate. rewrite Eb, Eo, Ebs.
    assert (take (Z.to_nat (Z.of_nat (length rss1) + 1)) (bs ++ b :: bs2) = bs ++ [b]) as ->.
    { change (b :: bs2) with ([b] ++ bs2). rewrite app_assoc. apply take_app_length'. rewrite length_app. cbn. lia. }
    rewrite length_app. cbn [length]. replace (length bs + 1 - 1)%nat with (length bs + 0)%nat by lia.
    rewrite alter_app_r. cbn [alter list_alter].
    split; cbn [blocks blockSize]; [|exact R| |by right].
    + exists (rss1 ++ [rs1 ++ [r]]). split.
      * apply Forall2_app; [done|]. constructor; [|constructor]. rewrite <- data_len_one, <- data_len_app.
        apply (block_holds_prefix _ _ rs2); [|by destruct rs1]. by rewrite <- app_assoc.
      * rewrite place_all_app. cbn [place_all]. rewrite place_app, app_nil_r, app_assoc. cbn [place].
        by rewrite Z.add_0_l.
    + rewrite Ebs, length_app in Fw. cbn in Fw. rewrite length_app. cbn. lia.
Qed.

(** ** Writing *)

Lemma splice_middle (pre old rest new : bytes) i :
  Z.of_nat (length pre) = i -> length new = length old ->
  splice (pre ++ old ++ rest) i new = pre ++ new ++ rest.
Proof.
  intros Ei El. unfold splice. rewrite take_app_length' by lia. do 2 f_equal.
  rewrite app_assoc, drop_app_length'; [done|]. rewrite length_app. lia.
Qed.

(** The end of a block that still has room for [n] bytes. *)
Lemma block_room b rs n :
  block_holds b rs -> blk_length b + Z.of_nat n <= Z.of_nat (length (blk_buf b)) ->
  exists old rest, blk_buf b = data rs ++ old ++ rest /\ length old = n.
Proof.
  intros [_ L (rest & E) _] Rm. exists (take n rest), (drop n rest). rewrite take_drop. split; [done|].
  rewrite length_take_le; [done|]. rewrite L, E, length_app in Rm. unfold data_len in Rm. lia.
Qed.

Lemma block_holds_snoc b rs r :
  (rs = [] \/ block_holds b rs) -> Z.of_nat (length (blk_buf b)) <= maxBlockSize ->
  data_len rs + r_size r <= Z.of_nat (length (blk_buf b)) -> blk_length b = data_len rs ->
  block_holds (MkBlock (splice (blk_buf b) (data_len rs) (r_bytes r)) (data_len rs + r_size r)) (rs ++ [r]).
Proof.
  intros Hb M Rm L. rewrite <- length_r_bytes in Rm.
  assert (exists old rest, blk_buf b = data rs ++ old ++ rest /\ length old = length (r_bytes r)) as (old & rest & E & El).
  { destruct Hb as [->|Hb]; [|apply block_room; [done|lia]].
    exists (take (length (r_bytes r)) (blk_buf b)), (drop (length (r_bytes r)) (blk_buf b)).
    cbn [app data]. rewrite take_drop. split; [done|]. rewrite length_take_le; [done|].
    change (data_len []) with 0 in Rm. lia. }
  split; cbn [blk_length blk_buf].
  - by destruct rs.
  - by rewrite data_len_app, data_len_one.
  - rewrite E, splice_middle by done. exists rest. rewrite data_app.
    change (data [r]) with (r_bytes r ++ []). by rewrite app_nil_r, app_assoc.
  - rewrite E, splice_middle, !length_app in * by done. lia.
Qed.

(** [appendValue] adds a record at the end of the log. *)
Lemma appendValue_Vlog l recs node old value :
  Vlog l recs -> few_blocks l -> addr_ok node -> addr_ok old ->
  memdbVlogHdrSize + Z.of_nat (length value) <= maxBlockSize ->
  exists l' a, appendValue l node old value = Some (l', a) /\ Vlog l' (recs ++ [(a, MkRec node old value)]).
Proof.
  intros V Fw On Oo Lv. pose proof (Vlog_arena _ _ V) as Ok. set (r := MkRec node old value).
  unfold appendValue. destruct (alloc_spec l (r_size r) false Ok Fw) as (l1 & a & Ea & Al & _).
  { pose proof (r_size_pos r). unfold r_size in *. cbn in *. lia. }
  change (memdbVlogHdrSize + Z.of_nat (length value)) with (r_size r). rewrite Ea. cbn [mbind option_bind].
  rewrite u32_wrap_small by (unfold maxBlockSize, memdbVlogHdrSize in *; lia).
  change (value ++ hdr_store _) with (r_bytes r). eexists _, _. split; [done|].
  destruct V as [(rss & F & ->) R Fl S]. pose proof (r_size_pos r) as Ps.
  assert (Forall (fun p => rec_ok p.2) (place_all 0 rss ++ [(MkAddr (addr_idx a) (u32_wrap (addr_off a + r_size r)), r)])) as R'.
  { apply Forall_app. split; [done|]. apply Forall_singleton. done. }
  unfold few_blocks in Fw. pose proof (Forall2_length _ _ _ F) as Ln.
  destruct Al as [bs b Eb Le|n Le Bn]; cbn [align_up addr_idx addr_off] in *;
    unfold write_at; cbn [blocks blockSize addr_idx addr_off]; rewrite Nat2Z.id, <- (Nat.add_0_r (length _)), alter_app_r;
    cbn [alter list_alter blk_buf blk_length]; rewrite ?Nat.add_0_r.
  - rewrite Eb in F. apply Forall2_app_inv_l in F as (rss' & rs' & F & (rs & ? & Hb & E0 & ->)%Forall2_cons_inv_l & ->).
    apply Forall2_nil_inv_l in E0 as ->. destruct (block_holds_ok _ _ Hb) as [Kb Mb]. pose proof (bh_len _ _ Hb) as L.
    rewrite L in *. rewrite u32_wrap_small in * by (unfold maxBlockSize in *; lia).
    split; cbn [blocks blockSize]; [|exact R'|rewrite Eb in Fl; rewrite length_app in *; cbn in *; lia|].
    + exists (rss' ++ [rs ++ [r]]). split; [apply Forall2_app; [done|constructor; [|constructor]]|].
      * apply block_holds_snoc; [by right|done|lia|done].
      * rewrite !place_all_app. cbn [place_all]. rewrite place_app, !app_nil_r, app_assoc. cbn [place].
        by rewrite Z.add_0_l, Z.add_0_l, (Forall2_length _ _ _ F).
    + destruct S as [E|S]; [rewrite E in Eb; by destruct bs|by right].
  - rewrite Z.add_0_l in *. rewrite u32_wrap_small in * by (unfold maxBlockSize in *; lia).
    split; cbn [blocks blockSize]; [|exact R'|rewrite length_app; cbn; lia|by right].
    exists (rss ++ [[r]]). split; [apply Forall2_app; [done|constructor; [|constructor]]|].
    + apply (block_holds_snoc (MkBlock (replicate (Z.to_nat n) x00) 0) [] r);
        [by left| | |done]; cbn [blk_buf]; rewrite length_replicate; change (data_len []) with 0; unfold initBlockSize in *; lia.
    + rewrite place_all_app. cbn. by rewrite Ln.
Qed.

Lemma place_all_replace idx rss1 rs1 r r' rs2 rss2 l1 l2 a :
  r_size r' = r_size r ->
  place_all idx (rss1 ++ (rs1 ++ r :: rs2) :: rss2) = l1 ++ (a, r) :: l2 ->
  l1 = place_all idx rss1 ++ place (idx + Z.of_nat (length rss1)) 0 rs1 ->
  place_all idx (rss1 ++ (rs1 ++ r' :: rs2) :: rss2) = l1 ++ (a, r') :: l2.
Proof.
  intros Es E ->. rewrite place_all_app in *. cbn [place_all] in *. rewrite place_app, <- !app_assoc in *.
  apply app_inv_head, app_inv_head in E. cbn [place app] in *. injection E as <- <-. by rewrite Es.
Qed.

(** [setValue] may overwrite a value of the same length. *)
Lemma write_at_Vlog l l1 a r l2 value :
  Vlog l (l1 ++ (a, r) :: l2) -> length value = length (r_val r) ->
  Vlog (write_at l (MkAddr (addr_idx a) (addr_off a - memdbVlogHdrSize - Z.of_nat (length (r_val r)))) value)
    (l1 ++ (a, MkRec (r_node r) (r_old r) value) :: l2).
Proof.
  intros [(rss & F & E) R Fw S] Lv. set (r' := MkRec (r_node r) (r_old r) value).
  assert (r_size r' = r_size r) as Es by (unfold r_size; cbn; by rewrite Lv).
  symmetry in E. destruct (place_all_split _ _ _ _ _ _ E) as (rss1 & rs1 & rs2 & rss2 & -> & El & Ea).
  pose proof (place_all_replace 0 rss1 rs1 r r' rs2 rss2 l1 l2 a Es E El) as E'. rewrite <- E'.
  apply Forall2_app_inv_r in F as (bs & ? & F & (b & bs2 & Hb & F2 & ->)%Forall2_cons_inv_r & Ebs).
  unfold write_at. rewrite Ea, Ebs. cbn [addr_idx addr_off]. rewrite Z.add_0_l, Nat2Z.id.
  rewrite <- (Forall2_length _ _ _ F), <- (Nat.add_0_r (length bs)), alter_app_r, ?Nat.add_0_r. cbn [alter list_alter].
  split; cbn [blocks blockSize].
  - exists (rss1 ++ (rs1 ++ r' :: rs2) :: rss2). split.
    + apply Forall2_app; [done|]. constructor; [|done]. destruct Hb as [N L (rest & Er) M].
      change (r :: rs2) with ([r] ++ rs2) in *. rewrite !data_app in Er. change (data [r]) with (r_bytes r ++ []) in Er.
      rewrite app_nil_r in Er. unfold r_bytes in Er.
      assert (splice (blk_buf b) (data_len rs1 + r_size r - memdbVlogHdrSize - Z.of_nat (length (r_val r))) value =
              data rs1 ++ (value ++ hdr_store (r_hdr r)) ++ data rs2 ++ rest) as ->.
      { rewrite Er, <- !app_assoc. apply splice_middle; [|done]. unfold data_len, r_size, memdbVlogHdrSize. lia. }
      split; cbn [blk_buf blk_length].
      * by destruct rs1.
      * rewrite L, !data_len_app, (data_len_cons r'), data_len_one, Es. done.
      * exists rest. change (r' :: rs2) with ([r'] ++ rs2). rewrite !data_app.
        change (data [r']) with (r_bytes r' ++ []). rewrite app_nil_r. unfold r_bytes.
        replace (r_hdr r') with (r_hdr r) by (unfold r_hdr; cbn; by rewrite Lv). by rewrite <- !app_assoc.
      * rewrite Er, !length_app in *. lia.
    + done.
  - rewrite E'. apply Forall_app in R as [R1 [R2 R3]%Forall_cons]. apply Forall_app. split; [done|]. by constructor.
  - rewrite Ebs, length_app in Fw. cbn in Fw. rewrite length_app. cbn. done.
  - destruct S as [S|S]; [rewrite S in Ebs; by destruct bs|by right].
Qed.

(** [getSnapshotValue] and the walks have enough fuel. *)
Lemma data_len_length rs : Z.of_nat (length rs) <= data_len rs.
Proof.
  induction rs as [|r rs IH]; [done|]. rewrite data_len_cons. cbn [length]. pose proof (r_size_pos r). lia.
Qed.

Lemma length_place idx off rs : length (place idx off rs) = length rs.
Proof. revert off. induction rs as [|r rs IH]; intros off; [done|]. cbn. by rewrite IH. Qed.

Lemma Vlog_fuel l recs : Vlog l recs -> (length recs < log_fuel l)%nat.
Proof.
  intros [(rss & F & ->) _ _ _]. unfold log_fuel. apply le_n_S.
  enough (forall idx, Z.of_nat (length (place_all idx rss)) <= foldr (fun b n => blk_length b + n) 0 (blocks l)) as H
    by (specialize (H 0); lia).
  induction F as [|b rs bs rss' [_ L _ _] F IH]; intros idx; [cbn; lia|].
  cbn [place_all foldr]. rewrite length_app, length_place. specialize (IH (idx + 1)). pose proof (data_len_length rs). lia.
Qed.
