(* ===== verification/MemTree.v ===== *)
(** * The red-black tree of the transaction buffer (schemareplicant/memdb.go)

    Nodes live at addresses and are linked by addresses, upwards as well; the
    null address has a node too, whose link upwards [deleteNode] writes.  The
    loops take the number of nodes as fuel. *)

From stdpp Require Import base gmap list strings.
From Stdlib Require Import Strings.Byte ZArith Lia Sorted.
From S2P Require Import Prelude External Marshal MemArena.
Open Scope Z_scope.

(** ** Key flags *)

Definition flagPresumeKNE : Z := 1.
Definition flagKeyLocked : Z := 2.
Definition flagKeyLockedValExist : Z := 4.
Definition flagNeedCheckExists : Z := 8.
Definition flagNoNeedCommit : Z := 16.
Definition persistentFlags : Z := Z.lor flagKeyLocked flagKeyLockedValExist.

Definition nodeDefCausorBit : Z := 128.

(** [^b] of a [uint8]. *)
Definition u8_not (b : Z) : Z := Z.lxor 255 b.
Definition nodeFlagsMask : Z := u8_not nodeDefCausorBit.

Definition has_flag (f flag : Z) : bool := negb (Z.land f flag =? 0).
Definition HasPresumeKeyNotExists (f : Z) : bool := has_flag f flagPresumeKNE.
Definition HasLocked (f : Z) : bool := has_flag f flagKeyLocked.
Definition HasLockedValueExists (f : Z) : bool := has_flag f flagKeyLockedValExist.
Definition HasNeedCheckExists (f : Z) : bool := has_flag f flagNeedCheckExists.
Definition HasNoNeedCommit (f : Z) : bool := has_flag f flagNoNeedCommit.

Inductive FlagsOp : Type :=
| SetPresumeKeyNotExists
| DelPresumeKeyNotExists
| SetKeyLocked
| DelKeyLocked
| SetKeyLockedValueExists
| SetKeyLockedValueNotExists
| DelNeedCheckExists
| SetNoNeedCommit.

Definition applyFlagsOp (origin : Z) (op : FlagsOp) : Z :=
  match op with
  | SetPresumeKeyNotExists => Z.lor origin (Z.lor flagPresumeKNE flagNeedCheckExists)
  | DelPresumeKeyNotExists => Z.land origin (u8_not (Z.lor flagPresumeKNE flagNeedCheckExists))
  | SetKeyLocked => Z.lor origin flagKeyLocked
  | DelKeyLocked => Z.land origin (u8_not flagKeyLocked)
  | SetKeyLockedValueExists => Z.lor origin flagKeyLockedValExist
  | DelNeedCheckExists => Z.land origin (u8_not flagNeedCheckExists)
  | SetKeyLockedValueNotExists => Z.land origin (u8_not flagKeyLockedValExist)
  | SetNoNeedCommit => Z.lor origin flagNoNeedCommit
  end.

Definition applyFlagsOps (origin : Z) (ops : list FlagsOp) : Z := foldl applyFlagsOp origin ops.

(** ** Nodes *)

Abbreviation addr := memdbMemCamAddr.

(** [n_key] is the bytes that follow the node in the arena, of length [klen]. *)
Record memdbNode : Type := MkNode {
  n_up : addr;
  n_left : addr;
  n_right : addr;
  n_vptr : addr;
  n_klen : Z;
  n_flags : Z;
  n_key : bytes;
}.

Definition set_n_up (v : addr) (n : memdbNode) : memdbNode :=
  MkNode v (n_left n) (n_right n) (n_vptr n) (n_klen n) (n_flags n) (n_key n).
Definition set_n_left (v : addr) (n : memdbNode) : memdbNode :=
  MkNode (n_up n) v (n_right n) (n_vptr n) (n_klen n) (n_flags n) (n_key n).
Definition set_n_right (v : addr) (n : memdbNode) : memdbNode :=
  MkNode (n_up n) (n_left n) v (n_vptr n) (n_klen n) (n_flags n) (n_key n).
Definition set_n_vptr (v : addr) (n : memdbNode) : memdbNode :=
  MkNode (n_up n) (n_left n) (n_right n) v (n_klen n) (n_flags n) (n_key n).
Definition set_n_flags (v : Z) (n : memdbNode) : memdbNode :=
  MkNode (n_up n) (n_left n) (n_right n) (n_vptr n) (n_klen n) v (n_key n).

Definition isRed (n : memdbNode) : bool := negb (Z.land (n_flags n) nodeDefCausorBit =? 0).
Definition isBlack (n : memdbNode) : bool := negb (isRed n).
Definition setRed (n : memdbNode) : memdbNode := set_n_flags (Z.lor (n_flags n) nodeDefCausorBit) n.
Definition setBlack (n : memdbNode) : memdbNode := set_n_flags (Z.land (n_flags n) (u8_not nodeDefCausorBit)) n.
Definition getKeyFlags (n : memdbNode) : Z := Z.land (n_flags n) nodeFlagsMask.
Definition setKeyFlags (f : Z) (n : memdbNode) : memdbNode :=
  set_n_flags (Z.lor (Z.land (u8_not nodeFlagsMask) (n_flags n)) f) n.

Definition nullNode : memdbNode := MkNode nullAddr nullAddr nullAddr nullAddr 0 0 [].

(** The root and the nodes of the allocator, the null node among them. *)
Record rbtree : Type := MkTree {
  rb_root : addr;
  rb_nodes : gmap addr memdbNode;
}.

(** Only addresses of nodes are read; elsewhere the value is arbitrary. *)
Definition getNode (t : rbtree) (a : addr) : memdbNode := default nullNode (rb_nodes t !! a).

Definition upd (a : addr) (f : memdbNode -> memdbNode) (t : rbtree) : rbtree :=
  MkTree (rb_root t) (alter f a (rb_nodes t)).
Definition set_root (a : addr) (t : rbtree) : rbtree := MkTree a (rb_nodes t).

Definition up (t : rbtree) (a : addr) : addr := n_up (getNode t a).
Definition left (t : rbtree) (a : addr) : addr := n_left (getNode t a).
Definition right (t : rbtree) (a : addr) : addr := n_right (getNode t a).
Definition red (t : rbtree) (a : addr) : bool := isRed (getNode t a).
Definition black (t : rbtree) (a : addr) : bool := isBlack (getNode t a).

Definition set_up (a v : addr) (t : rbtree) : rbtree := upd a (set_n_up v) t.
Definition set_left (a v : addr) (t : rbtree) : rbtree := upd a (set_n_left v) t.
Definition set_right (a v : addr) (t : rbtree) : rbtree := upd a (set_n_right v) t.
Definition set_red (a : addr) (t : rbtree) : rbtree := upd a setRed t.
Definition set_black (a : addr) (t : rbtree) : rbtree := upd a setBlack t.

Definition eqa (a b : addr) : bool := bool_decide (a = b).

Definition node_fuel (t : rbtree) : nat := S (size (rb_nodes t)).

(** ** Rotations *)

(** The link of [a]'s parent to [a] becomes a link to [b]. *)
Definition replace_child (a b : addr) (t : rbtree) : rbtree :=
  if isNull (up t a) then set_root b t
  else
    let aUp := up t a in
    if eqa a (left t aUp) then set_left aUp b t else set_right aUp b t.

Definition leftRotate (x : addr) (t : rbtree) : rbtree :=
  let y := right t x in
  let t := set_right x (left t y) t in
  let t := if negb (isNull (left t y)) then set_up (left t y) x t else t in
  let t := set_up y (up t x) t in
  let t := replace_child x y t in
  let t := set_left y x t in
  set_up x y t.

Definition rightRotate (y : addr) (t : rbtree) : rbtree :=
  let x := left t y in
  let t := set_left y (right t x) t in
  let t := if negb (isNull (right t x)) then set_up (right t x) y t else t in
  let t := set_up x (up t y) t in
  let t := replace_child y x t in
  let t := set_right x y t in
  set_up y x t.

(** ** Search and insertion *)

(** The walk down of [traverse]: where it stops, its parent, and whether the
    key was found. *)
Fixpoint walk (fuel : nat) (t : rbtree) (key : bytes) (x y : addr) : addr * addr * bool :=
  match fuel with
  | O => (x, y, false)
  | S fuel' =>
      if isNull x then (x, y, false)
      else
        match bytes_compare key (n_key (getNode t x)) with
        | Lt => walk fuel' t key (left t x) x
        | Gt => walk fuel' t key (right t x) x
        | Eq => (x, x, true)
        end
  end.

(** [traverse(key, false)]. *)
Definition find (t : rbtree) (key : bytes) : addr := (walk (node_fuel t) t key (rb_root t) nullAddr).1.1.

(** The rebalancing of [traverse] from the new node on. *)
Fixpoint insert_fix (fuel : nat) (x : addr) (t : rbtree) : rbtree :=
  match fuel with
  | O => t
  | S fuel' =>
      if eqa x (rb_root t) then t
      else
        let xUp := up t x in
        if black t xUp then t
        else
          let xUpUp := up t xUp in
          if eqa (up t x) (left t xUpUp) then
            let y := right t xUpUp in
            if red t y then
              let t := set_red xUpUp (set_black y (set_black xUp t)) in
              insert_fix fuel' (up t xUp) t
            else
              let '(x, t) := if eqa x (right t xUp) then (up t x, leftRotate (up t x) t) else (x, t) in
              let xUp := up t x in
              let xUpUp := up t xUp in
              let t := rightRotate xUpUp (set_red xUpUp (set_black xUp t)) in
              insert_fix fuel' x t
          else
            let y := left t xUpUp in
            if red t y then
              let t := set_red xUpUp (set_black y (set_black xUp t)) in
              insert_fix fuel' (up t xUp) t
            else
              let '(x, t) := if eqa x (left t xUp) then (up t x, rightRotate (up t x) t) else (x, t) in
              let xUp := up t x in
              let xUpUp := up t xUp in
              let t := leftRotate xUpUp (set_red xUpUp (set_black xUp t)) in
              insert_fix fuel' x t
  end.

(** Linking the new node [z] under [y]. *)
Definition link_node (z y : addr) (t : rbtree) : rbtree :=
  let t := set_up z y t in
  let t := if isNull y then set_root z t
           else match bytes_compare (n_key (getNode t z)) (n_key (getNode t y)) with
                | Lt => set_left y z t
                | _ => set_right y z t
                end in
  set_red z (set_right z nullAddr (set_left z nullAddr t)).

Definition insert_node (z y : addr) (t : rbtree) : rbtree :=
  let t := insert_fix (node_fuel t) z (link_node z y t) in
  set_black (rb_root t) t.

(** ** Neighbours *)

Fixpoint leftmost (fuel : nat) (t : rbtree) (y : addr) : addr :=
  match fuel with
  | O => y
  | S fuel' => if negb (isNull (left t y)) then leftmost fuel' t (left t y) else y
  end.

Fixpoint rightmost (fuel : nat) (t : rbtree) (y : addr) : addr :=
  match fuel with
  | O => y
  | S fuel' => if negb (isNull (right t y)) then rightmost fuel' t (right t y) else y
  end.

Fixpoint up_from_right (fuel : nat) (t : rbtree) (x y : addr) : addr :=
  match fuel with
  | O => y
  | S fuel' => if negb (isNull y) && eqa x (right t y) then up_from_right fuel' t y (up t y) else y
  end.

Fixpoint up_from_left (fuel : nat) (t : rbtree) (x y : addr) : addr :=
  match fuel with
  | O => y
  | S fuel' => if negb (isNull y) && eqa x (left t y) then up_from_left fuel' t y (up t y) else y
  end.

Definition successor (t : rbtree) (x : addr) : addr :=
  if negb (isNull (right t x)) then leftmost (node_fuel t) t (right t x)
  else up_from_right (node_fuel t) t x (up t x).

Definition predecessor (t : rbtree) (x : addr) : addr :=
  if negb (isNull (left t x)) then rightmost (node_fuel t) t (left t x)
  else up_from_left (node_fuel t) t x (up t x).

(** ** Deletion *)

Definition replaceNode (old new : addr) (t : rbtree) : rbtree :=
  let t := replace_child old new t in
  let t := set_up new (up t old) t in
  let t := set_up (left t old) new t in
  let t := set_left new (left t old) t in
  let t := set_up (right t old) new t in
  let t := set_right new (right t old) t in
  if black t old then set_black new t else set_red new t.

(** One turn of [deleteNodeFix] for a left and for a right child, once the
    sibling [w] is black: where to go on, and the tree. *)
Definition delete_turn_left (x w : addr) (t : rbtree) : addr * rbtree :=
  if black t (left t w) && black t (right t w) then
    let t := set_red w t in (up t x, t)
  else
    let '(w, t) := if black t (right t w) then
                     let t := rightRotate w (set_red w (set_black (left t w) t)) in (right t (up t x), t)
                   else (w, t) in
    let xUp := up t x in
    let t := if black t xUp then set_black w t else set_red w t in
    let t := set_black xUp t in
    let t := set_black (right t w) t in
    let t := leftRotate xUp t in
    (rb_root t, t).

Definition delete_turn_right (x w : addr) (t : rbtree) : addr * rbtree :=
  if black t (right t w) && black t (left t w) then
    let t := set_red w t in (up t x, t)
  else
    let '(w, t) := if black t (left t w) then
                     let t := leftRotate w (set_red w (set_black (right t w) t)) in (left t (up t x), t)
                   else (w, t) in
    let xUp := up t x in
    let t := if black t xUp then set_black w t else set_red w t in
    let t := set_black xUp t in
    let t := set_black (left t w) t in
    let t := rightRotate xUp t in
    (rb_root t, t).

Fixpoint delete_fix (fuel : nat) (x : addr) (t : rbtree) : addr * rbtree :=
  match fuel with
  | O => (x, t)
  | S fuel' =>
      if eqa x (rb_root t) || red t x then (x, t)
      else
        let xUp := up t x in
        let '(x, t) :=
          if eqa x (left t xUp) then
            let w := right t xUp in
            let '(w, t) := if red t w then
                             let t := leftRotate xUp (set_red xUp (set_black w t)) in (right t (up t x), t)
                           else (w, t) in
            delete_turn_left x w t
          else
            let w := left t xUp in
            let '(w, t) := if red t w then
                             let t := rightRotate xUp (set_red xUp (set_black w t)) in (left t (up t x), t)
                           else (w, t) in
            delete_turn_right x w t in
        delete_fix fuel' x t
  end.

Definition deleteNodeFix (x : addr) (t : rbtree) : rbtree :=
  let '(x, t) := delete_fix (node_fuel t) x t in set_black x t.

(** The tree part of [deleteNode].  A freed node stays in the arena. *)
Definition delete_node (z : addr) (t : rbtree) : rbtree :=
  let y := if isNull (left t z) || isNull (right t z) then z else successor t z in
  let x := if negb (isNull (left t y)) then left t y else right t y in
  let t := set_up x (up t y) t in
  let t := replace_child y x t in
  let needFix := black t y in
  let t := if negb (eqa y z) then replaceNode z y t else t in
  if needFix then deleteNodeFix x t else t.
