(* ===== verification/MemTreeRep.v ===== *)
(** * Trees in the heap

    The nodes of a red-black tree represent an algebraic tree; a context is the
    path from a subtree to the root.  The writes of the code are read off here
    once, for a subtree anywhere in the tree: colours, the two rotations, and
    the links of a new, a spliced and a replaced node. *)

From stdpp Require Import base gmap list strings.
From Stdlib Require Import Strings.Byte ZArith Lia Sorted.
From S2P Require Import Prelude External Marshal MemArena MemTree.
Open Scope Z_scope.

(** ** Writes to one node *)

Definition present (s : rbtree) (a : addr) : Prop := is_Some (rb_nodes s !! a).

#[export] Instance present_dec s a : Decision (present s a).
Proof. unfold present. apply _. Defined.

Lemma getNode_upd s a b f : present s b -> getNode (upd b f s) a = if decide (a = b) then f (getNode s a) else getNode s a.
Proof.
  intros [n Hn]. unfold getNode, upd. cbn [rb_nodes]. case_decide as D.
  - subst. by rewrite lookup_alter_eq, Hn.
  - by rewrite lookup_alter_ne.
Qed.

Lemma getNode_upd_proj {A} (g : memdbNode -> A) s a b f :
  (forall n, g (f n) = g n) -> g (getNode (upd b f s) a) = g (getNode s a).
Proof.
  intros E. unfold getNode, upd. cbn [rb_nodes]. destruct (decide (a = b)) as [->|N].
  - rewrite lookup_alter_eq. destruct (rb_nodes s !! b); cbn; [apply E|done].
  - by rewrite lookup_alter_ne.
Qed.

Lemma present_upd s a b f : present (upd b f s) a <-> present s a.
Proof.
  unfold present, upd. cbn [rb_nodes]. destruct (decide (a = b)) as [->|N].
  - rewrite lookup_alter_eq. by rewrite fmap_is_Some.
  - by rewrite lookup_alter_ne.
Qed.

Lemma isRed_setRed n : isRed (setRed n) = true.
Proof.
  unfold isRed, setRed. cbn. rewrite Z.land_comm, Z.land_lor_distr_r, Z.land_diag.
  apply negb_true_iff, Z.eqb_neq. intros E%Z.lor_eq_0_iff. by destruct E.
Qed.

Lemma isRed_setBlack n : isRed (setBlack n) = false.
Proof.
  unfold isRed, setBlack, u8_not. cbn. rewrite <- Z.land_assoc. cbn. by rewrite Z.land_0_r.
Qed.

(** The reads after a write. *)
Section reads.
Context (s : rbtree) (a b v : addr).

Lemma up_set_up : present s b -> up (set_up b v s) a = if decide (a = b) then v else up s a.
Proof. intros P. unfold up, set_up. rewrite getNode_upd by done. by case_decide. Qed.
Lemma left_set_left : present s b -> left (set_left b v s) a = if decide (a = b) then v else left s a.
Proof. intros P. unfold left, set_left. rewrite getNode_upd by done. by case_decide. Qed.
Lemma right_set_right : present s b -> right (set_right b v s) a = if decide (a = b) then v else right s a.
Proof. intros P. unfold right, set_right. rewrite getNode_upd by done. by case_decide. Qed.
Lemma red_set_red : present s b -> red (set_red b s) a = if decide (a = b) then true else red s a.
Proof. intros P. unfold red, set_red. rewrite getNode_upd by done. case_decide; [apply isRed_setRed|done]. Qed.
Lemma red_set_black : present s b -> red (set_black b s) a = if decide (a = b) then false else red s a.
Proof. intros P. unfold red, set_black. rewrite getNode_upd by done. case_decide; [apply isRed_setBlack|done]. Qed.

Lemma up_set_left : up (set_left b v s) a = up s a. Proof. by apply getNode_upd_proj. Qed.
Lemma up_set_right : up (set_right b v s) a = up s a. Proof. by apply getNode_upd_proj. Qed.
Lemma up_set_red : up (set_red b s) a = up s a. Proof. by apply getNode_upd_proj. Qed.
Lemma up_set_black : up (set_black b s) a = up s a. Proof. by apply getNode_upd_proj. Qed.
Lemma left_set_up : left (set_up b v s) a = left s a. Proof. by apply getNode_upd_proj. Qed.
Lemma left_set_right : left (set_right b v s) a = left s a. Proof. by apply getNode_upd_proj. Qed.
Lemma left_set_red : left (set_red b s) a = left s a. Proof. by apply getNode_upd_proj. Qed.
Lemma left_set_black : left (set_black b s) a = left s a. Proof. by apply getNode_upd_proj. Qed.
Lemma right_set_up : right (set_up b v s) a = right s a. Proof. by apply getNode_upd_proj. Qed.
Lemma right_set_left : right (set_left b v s) a = right s a. Proof. by apply getNode_upd_proj. Qed.
Lemma right_set_red : right (set_red b s) a = right s a. Proof. by apply getNode_upd_proj. Qed.
Lemma right_set_black : right (set_black b s) a = right s a. Proof. by apply getNode_upd_proj. Qed.
Lemma red_set_up : red (set_up b v s) a = red s a. Proof. by apply getNode_upd_proj. Qed.
Lemma red_set_left : red (set_left b v s) a = red s a. Proof. by apply getNode_upd_proj. Qed.
Lemma red_set_right : red (set_right b v s) a = red s a. Proof. by apply getNode_upd_proj. Qed.
End reads.

Lemma black_red s a : black s a = negb (red s a).
Proof. done. Qed.

Section presence.
Context (s : rbtree) (a b v : addr).
Lemma present_set_up : present (set_up b v s) a <-> present s a. Proof. apply present_upd. Qed.
Lemma present_set_left : present (set_left b v s) a <-> present s a. Proof. apply present_upd. Qed.
Lemma present_set_right : present (set_right b v s) a <-> present s a. Proof. apply present_upd. Qed.
Lemma present_set_red : present (set_red b s) a <-> present s a. Proof. apply present_upd. Qed.
Lemma present_set_black : present (set_black b s) a <-> present s a. Proof. apply present_upd. Qed.
Lemma present_set_root : present (set_root b s) a <-> present s a. Proof. done. Qed.
Lemma up_set_root : up (set_root b s) a = up s a. Proof. done. Qed.
Lemma left_set_root : left (set_root b s) a = left s a. Proof. done. Qed.
Lemma right_set_root : right (set_root b s) a = right s a. Proof. done. Qed.
Lemma red_set_root : red (set_root b s) a = red s a. Proof. done. Qed.
Lemma root_set_up : rb_root (set_up b v s) = rb_root s. Proof. done. Qed.
Lemma root_set_left : rb_root (set_left b v s) = rb_root s. Proof. done. Qed.
Lemma root_set_right : rb_root (set_right b v s) = rb_root s. Proof. done. Qed.
Lemma root_set_red : rb_root (set_red b s) = rb_root s. Proof. done. Qed.
Lemma root_set_black : rb_root (set_black b s) = rb_root s. Proof. done. Qed.
Lemma root_set_root : rb_root (set_root b s) = b. Proof. done. Qed.
End presence.

Ltac pres :=
  rewrite ?present_set_up, ?present_set_left, ?present_set_right, ?present_set_red, ?present_set_black,
    ?present_set_root; assumption.

Create Rewrite HintDb heap.
#[export] Hint Rewrite up_set_left up_set_right up_set_red up_set_black left_set_up left_set_right
  left_set_red left_set_black right_set_up right_set_left right_set_red right_set_black
  red_set_up red_set_left red_set_right up_set_root left_set_root right_set_root red_set_root
  root_set_up root_set_left root_set_right root_set_red root_set_black root_set_root
  present_set_up present_set_left present_set_right present_set_red present_set_black present_set_root : heap.
#[export] Hint Rewrite up_set_up left_set_left right_set_right red_set_red red_set_black using pres : heap.

(** ** Trees and contexts *)

Inductive rtree : Type :=
| E
| T (c : bool) (l : rtree) (a : addr) (r : rtree).

Definition root_of (t : rtree) : addr := match t with E => nullAddr | T _ _ a _ => a end.

Fixpoint addrs (t : rtree) : list addr :=
  match t with E => [] | T _ l a r => addrs l ++ a :: addrs r end.

(** A step from a subtree to its parent: the subtree is the left or the right
    child of [a]. *)
Inductive frame : Type :=
| FL (c : bool) (a : addr) (r : rtree)
| FR (c : bool) (l : rtree) (a : addr).

Definition fill (f : frame) (t : rtree) : rtree :=
  match f with FL c a r => T c t a r | FR c l a => T c l a t end.

Fixpoint plug (k : list frame) (t : rtree) : rtree :=
  match k with [] => t | f :: k' => plug k' (fill f t) end.

Definition faddr (f : frame) : addr := match f with FL _ a _ => a | FR _ _ a => a end.
Definition parent (k : list frame) : addr := match k with [] => nullAddr | f :: _ => faddr f end.

(** The addresses before and after the hole of a context. *)
Fixpoint before (k : list frame) : list addr :=
  match k with
  | [] => []
  | FL _ _ _ :: k' => before k'
  | FR _ l a :: k' => before k' ++ addrs l ++ [a]
  end.
Fixpoint after (k : list frame) : list addr :=
  match k with
  | [] => []
  | FL _ a r :: k' => a :: addrs r ++ after k'
  | FR _ _ _ :: k' => after k'
  end.

Lemma addrs_plug k t : addrs (plug k t) = before k ++ addrs t ++ after k.
Proof.
  revert t. induction k as [|[c a r|c l a] k IH]; intros t; cbn [plug before after fill].
  - by rewrite app_nil_r.
  - rewrite IH. cbn [addrs]. by rewrite <- !app_assoc.
  - rewrite IH. cbn [addrs]. by rewrite <- !app_assoc.
Qed.

(** ** Representation *)

Definition node_at (s : rbtree) (a p lc rc : addr) (c : bool) : Prop :=
  a <> nullAddr /\ present s a /\ up s a = p /\ left s a = lc /\ right s a = rc /\ red s a = c.

Fixpoint rep (s : rbtree) (p : addr) (t : rtree) : Prop :=
  match t with
  | E => True
  | T c l a r => node_at s a p (root_of l) (root_of r) c /\ rep s a l /\ rep s a r
  end.

Fixpoint crep (s : rbtree) (k : list frame) (hole : addr) : Prop :=
  match k with
  | [] => rb_root s = hole
  | FL c a r :: k' => node_at s a (parent k') hole (root_of r) c /\ rep s a r /\ crep s k' a
  | FR c l a :: k' => node_at s a (parent k') (root_of l) hole c /\ rep s a l /\ crep s k' a
  end.

(** The heap holds the tree [t] in the context [k]; the null node is black. *)
Record Rep (s : rbtree) (k : list frame) (t : rtree) : Prop := {
  R_ctx : crep s k (root_of t);
  R_tree : rep s (parent k) t;
  R_nodup : NoDup (before k ++ addrs t ++ after k);
  R_null : present s nullAddr /\ red s nullAddr = false;
}.

Lemma Rep_FL s k c l a r : Rep s k (T c l a r) <-> Rep s (FL c a r :: k) l.
Proof.
  split; intros [C Tr N Z]; split; try done; cbn in *; rewrite <- ?app_assoc in *; cbn in *; tauto || done.
Qed.

Lemma Rep_FR s k c l a r : Rep s k (T c l a r) <-> Rep s (FR c l a :: k) r.
Proof.
  split; intros [C Tr N Z]; split; try done; cbn in *; rewrite <- ?app_assoc in *; cbn in *; tauto || done.
Qed.

(** ** What does not change *)

Definition same (s s' : rbtree) (a : addr) : Prop :=
  (present s a -> present s' a) /\ up s' a = up s a /\ left s' a = left s a /\ right s' a = right s a /\
  red s' a = red s a.

Lemma same_refl s a : same s s a.
Proof. done. Qed.

Lemma node_at_same s s' a p lc rc c : same s s' a -> node_at s a p lc rc c -> node_at s' a p lc rc c.
Proof. intros (P & U & L & Rr & C) (N & P' & U' & L' & R' & C'). repeat split; [done|by apply P|congruence..]. Qed.

Lemma rep_same s s' p t : (forall a, a ∈ addrs t -> same s s' a) -> rep s p t -> rep s' p t.
Proof.
  revert p. induction t as [|c l IHl a r IHr]; intros p S; [done|]. cbn. setoid_rewrite elem_of_app in S.
  setoid_rewrite elem_of_cons in S. intros (N & Hl & Hr). split; [|split].
  - eapply node_at_same; [apply S; auto|done].
  - apply IHl; [intros; apply S; auto|done].
  - apply IHr; [intros; apply S; auto|done].
Qed.

(** The root of a subtree may get another parent. *)
Lemma rep_reroot s s' p p' t :
  NoDup (addrs t) -> (forall a, a ∈ addrs t -> a <> root_of t -> same s s' a) ->
  (t <> E -> present s' (root_of t) /\ up s' (root_of t) = p' /\ left s' (root_of t) = left s (root_of t) /\
     right s' (root_of t) = right s (root_of t) /\ red s' (root_of t) = red s (root_of t)) ->
  rep s p t -> rep s' p' t.
Proof.
  destruct t as [|c l a r]; [done|]. cbn [addrs root_of rep]. intros ND S H.
  destruct (H ltac:(done)) as (P & U & L & Rr & C).
  apply NoDup_app in ND as (_ & D & [Na NDr]%NoDup_cons).
  intros ((N & _ & _ & L' & R' & C') & Hl & Hr). split; [repeat split; congruence|]. split.
  - eapply rep_same; [|done]. intros b Hb. apply S; [rewrite elem_of_app; auto|]. intros ->. apply (D a Hb). left.
  - eapply rep_same; [|done]. intros b Hb. apply S; [rewrite elem_of_app, elem_of_cons; auto|]. by intros ->.
Qed.

Lemma rep_root s p t : rep s p t -> t <> E -> root_of t <> nullAddr /\ root_of t ∈ addrs t.
Proof.
  destruct t as [|c l a r]; [done|]. intros ((N & _) & _) _. split; [done|]. cbn.
  rewrite elem_of_app, elem_of_cons. auto.
Qed.

Lemma root_elem s p t : rep s p t -> root_of t = nullAddr \/ root_of t ∈ addrs t.
Proof. intros Tr. destruct t as [|c l a r]; [by left|]. right. by apply (rep_root s p). Qed.

Lemma rep_nonnull s p t a : rep s p t -> a ∈ addrs t -> a <> nullAddr /\ present s a.
Proof.
  revert p. induction t as [|c l IHl b r IHr]; intros p; cbn; [by intros _ []%not_elem_of_nil|].
  intros ((N & P & _) & Hl & Hr). rewrite elem_of_app, elem_of_cons. intros [?|[->|?]]; eauto.
Qed.

Lemma crep_same s s' k h :
  (forall a, a ∈ before k ++ after k -> same s s' a) -> rb_root s' = rb_root s -> crep s k h -> crep s' k h.
Proof.
  revert h. induction k as [|[c a r|c l a] k IH]; intros h S Rt; [cbn; congruence|..]; cbn in *;
    repeat setoid_rewrite elem_of_app in S; setoid_rewrite elem_of_app in IH;
    (setoid_rewrite elem_of_cons in S || setoid_rewrite list_elem_of_singleton in S);
    repeat setoid_rewrite elem_of_app in S; intros (N & Hr & Hc).
  - split; [eapply node_at_same; [apply S; auto|done]|]. split.
    + eapply rep_same; [|done]. intros; apply S; auto.
    + apply IH; [|done|done]. intros b Hb. apply S. tauto.
  - split; [eapply node_at_same; [apply S; auto|done]|]. split.
    + eapply rep_same; [|done]. intros; apply S; auto.
    + apply IH; [|done|done]. intros b Hb. apply S. tauto.
Qed.

(** The hole of a context may get another subtree: only the link to it, in the
    root or in the innermost frame, changes. *)
Definition relinked (s s' : rbtree) (k : list frame) (h : addr) : Prop :=
  match k with
  | [] => rb_root s' = h
  | FL _ a _ :: _ => rb_root s' = rb_root s /\ present s' a /\ up s' a = up s a /\ left s' a = h /\
                     right s' a = right s a /\ red s' a = red s a
  | FR _ _ a :: _ => rb_root s' = rb_root s /\ present s' a /\ up s' a = up s a /\ left s' a = left s a /\
                     right s' a = h /\ red s' a = red s a
  end.

Lemma crep_relinked s s' k h h' :
  NoDup (before k ++ after k) -> (forall a, a ∈ before k ++ after k -> a <> parent k -> same s s' a) ->
  relinked s s' k h' -> crep s k h -> crep s' k h'.
Proof.
  destruct k as [|[c a r|c l a] k]; [by cbn|..]; cbn -[node_at]; intros ND S (Rt & P & U & L & Rr & C) (N & Hs & Hc);
    repeat setoid_rewrite elem_of_app in S;
    (setoid_rewrite elem_of_cons in S || setoid_rewrite list_elem_of_singleton in S);
    repeat setoid_rewrite elem_of_app in S.
  - apply NoDup_app in ND as (NDb & D & [Na NDa]%NoDup_cons).
    split; [destruct N as (? & ? & ? & ? & ? & ?); repeat split; congruence|]. split.
    + eapply rep_same; [|done]. intros b Hb. apply S; [auto|]. intros ->. apply Na. rewrite elem_of_app. auto.
    + eapply crep_same; [|done|done]. intros b [Hb|Hb]%elem_of_app; (apply S; [auto|]); intros ->.
      * apply (D a Hb). left.
      * apply Na. rewrite elem_of_app. auto.
  - rewrite <- !app_assoc in ND. apply NoDup_app in ND as (NDb & D & ND).
    apply NoDup_app in ND as (NDl & D' & [Na NDa]%NoDup_cons).
    split; [destruct N as (? & ? & ? & ? & ? & ?); repeat split; congruence|]. split.
    + eapply rep_same; [|done]. intros b Hb. apply S; [auto|]. intros ->. apply (D' a Hb). left.
    + eapply crep_same; [|done|done]. intros b [Hb|Hb]%elem_of_app; (apply S; [auto|]); intros ->.
      * apply (D a Hb). rewrite elem_of_app. right. left.
      * by apply Na.
Qed.

(** ** The link to a subtree *)

Lemma isNull_spec a : isNull a = true <-> a = nullAddr.
Proof. apply bool_decide_eq_true. Qed.

Lemma isNull_false a : a <> nullAddr -> isNull a = false.
Proof. apply bool_decide_eq_false_2. Qed.

Lemma isNull_null : isNull nullAddr = true.
Proof. done. Qed.

Lemma eqa_true a : eqa a a = true.
Proof. by apply bool_decide_eq_true_2. Qed.

Lemma eqa_false a b : a <> b -> eqa a b = false.
Proof. apply bool_decide_eq_false_2. Qed.

Lemma up_replace_child s a b c : up (replace_child a b s) c = up s c.
Proof. unfold replace_child. destruct (isNull _); [done|]. destruct (eqa _ _); by autorewrite with heap. Qed.
Lemma red_replace_child s a b c : red (replace_child a b s) c = red s c.
Proof. unfold replace_child. destruct (isNull _); [done|]. destruct (eqa _ _); by autorewrite with heap. Qed.
Lemma present_replace_child s a b c : present (replace_child a b s) c <-> present s c.
Proof. unfold replace_child. destruct (isNull _); [done|]. destruct (eqa _ _); by autorewrite with heap. Qed.

Lemma getNode_replace_child s a b c :
  c <> up s a \/ up s a = nullAddr -> getNode (replace_child a b s) c = getNode s c.
Proof.
  unfold replace_child. destruct (decide (up s a = nullAddr)) as [En|Nn]; [by rewrite En|].
  rewrite isNull_false by done. intros [N|?]; [|done].
  unfold set_left, set_right. destruct (eqa _ _); unfold getNode, upd; cbn [rb_nodes]; by rewrite lookup_alter_ne.
Qed.

Lemma same_replace_child s a b c : c <> up s a \/ up s a = nullAddr -> same s (replace_child a b s) c.
Proof.
  intros N. pose proof (getNode_replace_child s a b c N) as G. unfold same, up, left, right, red.
  rewrite G. by rewrite present_replace_child.
Qed.

Lemma relinked_replace_child s k a b :
  crep s k a -> a <> nullAddr -> up s a = parent k -> a ∉ before k ++ after k -> relinked s (replace_child a b s) k b.
Proof.
  intros C Na U Ni. unfold replace_child. rewrite U.
  destruct k as [|[c a0 r|c l a0] k]; cbn [parent faddr relinked]; [done|..];
    destruct C as ((N & P & U' & L' & R' & C') & Hs & _).
  - rewrite isNull_false, L', eqa_true by done. autorewrite with heap. by rewrite decide_True.
  - rewrite isNull_false, L' by done. rewrite eqa_false.
    + autorewrite with heap. by rewrite decide_True.
    + destruct l as [|cl l1 al l2]; [done|]. intros ->. apply Ni. cbn. rewrite !elem_of_app. cbn.
      rewrite ?elem_of_app, elem_of_cons. auto 10.
Qed.

(** The parent of the hole is in the context, or there is none. *)
Lemma parent_elem s k h : crep s k h -> parent k = nullAddr \/ parent k ∈ before k ++ after k.
Proof.
  destruct k as [|[c a r|c l a] k]; [by left|..]; intros _; right; cbn; rewrite ?elem_of_app, elem_of_cons;
    rewrite ?elem_of_app; auto.
Qed.

Lemma crep_parent_null s k h : crep s k h -> parent k = nullAddr -> k = [].
Proof. destruct k as [|[] k]; [done|..]; by intros ((N & _) & _) ?. Qed.

Lemma crep_nonnull s k h a : crep s k h -> a ∈ before k ++ after k -> a <> nullAddr /\ present s a.
Proof.
  revert h. induction k as [|[c b r|c l b] k IH]; intros h; cbn; [by intros _ []%not_elem_of_nil|..];
    intros ((N & P & _) & Hr & Hc); rewrite ?elem_of_app, elem_of_cons, ?elem_of_app;
    specialize (IH _ Hc); rewrite elem_of_app in IH; pose proof (rep_nonnull _ _ _ a Hr);
    rewrite ?elem_of_nil; intros H'; destruct_or!; subst; tauto || naive_solver.
Qed.

Lemma same_trans s s1 s2 a : same s s1 a -> same s1 s2 a -> same s s2 a.
Proof. intros (P & U & L & Rr & C) (P' & U' & L' & R' & C'). repeat split; [auto|congruence..]. Qed.

Lemma relinked_same s s1 s2 s3 k h :
  same s s1 (parent k) -> rb_root s1 = rb_root s -> relinked s1 s2 k h ->
  same s2 s3 (parent k) -> rb_root s3 = rb_root s2 -> relinked s s3 k h.
Proof.
  destruct k as [|[c a r|c l a] k]; cbn [parent faddr relinked]; [congruence|..];
    intros (_ & U & L & Rr & C) Rt (Rt' & P' & U' & L' & R' & C') (P2 & U2 & L2 & R2 & C2) Rt2;
    split_and!; solve [congruence|auto].
Qed.

(** ** The data of the nodes *)

Definition node_data (n : memdbNode) : addr * Z * Z * bytes := (n_vptr n, n_klen n, getKeyFlags n, n_key n).

(** The writes of the tree operations leave the data of all nodes alone. *)
Definition same_data (s s' : rbtree) : Prop :=
  forall a, node_data (getNode s' a) = node_data (getNode s a) /\ (present s' a <-> present s a).

#[export] Instance same_data_refl : Reflexive same_data.
Proof. by intros s a. Qed.
#[export] Instance same_data_trans : Transitive same_data.
Proof. intros s1 s2 s3 H1 H2 a. destruct (H1 a) as [E1 P1], (H2 a) as [E2 P2]. by rewrite E2, E1, P2, P1. Qed.

Lemma same_data_upd s b f : (forall n, node_data (f n) = node_data n) -> same_data s (upd b f s).
Proof. intros F a. split; [by apply getNode_upd_proj|apply present_upd]. Qed.

Lemma getKeyFlags_setRed n : getKeyFlags (setRed n) = getKeyFlags n.
Proof. unfold getKeyFlags, setRed. cbn [n_flags set_n_flags]. by rewrite Z.land_lor_distr_l, Z.lor_0_r. Qed.

Lemma getKeyFlags_setBlack n : getKeyFlags (setBlack n) = getKeyFlags n.
Proof. unfold getKeyFlags, setBlack. cbn [n_flags set_n_flags]. by rewrite <- Z.land_assoc. Qed.

Section data_writes.
Context (s : rbtree) (b v : addr).
Lemma data_set_up : same_data s (set_up b v s). Proof. by apply same_data_upd. Qed.
Lemma data_set_left : same_data s (set_left b v s). Proof. by apply same_data_upd. Qed.
Lemma data_set_right : same_data s (set_right b v s). Proof. by apply same_data_upd. Qed.
Lemma data_set_root : same_data s (set_root b s). Proof. done. Qed.
Lemma data_set_red : same_data s (set_red b s).
Proof. apply same_data_upd. intros n. unfold node_data. by rewrite getKeyFlags_setRed. Qed.
Lemma data_set_black : same_data s (set_black b s).
Proof. apply same_data_upd. intros n. unfold node_data. by rewrite getKeyFlags_setBlack. Qed.
Lemma data_replace_child : same_data s (replace_child b v s).
Proof.
  unfold replace_child. destruct (isNull _); [apply data_set_root|].
  destruct (eqa _ _); by apply same_data_upd.
Qed.
End data_writes.

Lemma data_leftRotate s x : same_data s (leftRotate x s).
Proof.
  unfold leftRotate. cbn zeta.
  etransitivity; [|apply data_set_up]. etransitivity; [|apply data_set_left].
  etransitivity; [|apply data_replace_child]. etransitivity; [|apply data_set_up].
  destruct (negb _); [etransitivity; [|apply data_set_up]|]; apply data_set_right.
Qed.

Lemma data_rightRotate s x : same_data s (rightRotate x s).
Proof.
  unfold rightRotate. cbn zeta.
  etransitivity; [|apply data_set_up]. etransitivity; [|apply data_set_right].
  etransitivity; [|apply data_replace_child]. etransitivity; [|apply data_set_up].
  destruct (negb _); [etransitivity; [|apply data_set_up]|]; apply data_set_left.
Qed.

(** ** Colours *)

Lemma Rep_color s s' k c c' l a r :
  Rep s k (T c l a r) ->
  (forall b, present s' b <-> present s b) -> (forall b, up s' b = up s b) -> (forall b, left s' b = left s b) ->
  (forall b, right s' b = right s b) -> (forall b, b <> a -> red s' b = red s b) -> red s' a = c' ->
  rb_root s' = rb_root s -> Rep s' k (T c' l a r).
Proof.
  intros [C Tr ND [Zp Zr]] P U L Rr Cr Ca Rt. cbn [root_of rep addrs] in *.
  destruct Tr as ((N & Pa & Ua & La & Ra & _) & Hl & Hr).
  assert (forall b, b <> a -> same s s' b) as S.
  { intros b Nb. unfold same. rewrite P, U, L, Rr, Cr by done. done. }
  assert (forall b, b ∈ before k ++ after k -> b <> a) as Nk.
  { intros b Hb ->. apply NoDup_app in ND as (_ & D & ND). rewrite elem_of_app in Hb. destruct Hb as [Hb|Hb].
    - apply (D a Hb). rewrite !elem_of_app, elem_of_cons. auto.
    - apply NoDup_app in ND as (_ & D' & _). apply (D' a); [|done]. rewrite elem_of_app, elem_of_cons. auto. }
  apply NoDup_app in ND as ND'. destruct ND' as (_ & _ & ND').
  apply NoDup_app in ND' as (ND' & _ & _). apply NoDup_app in ND' as (_ & Dl & [Nr _]%NoDup_cons).
  split; cbn [root_of rep addrs].
  - eapply crep_same; [|done|done]. intros b Hb. by apply S, Nk.
  - split; [|split].
    + split; [done|]. rewrite P, U, L, Rr. done.
    + eapply rep_same; [|done]. intros b Hb. apply S. intros ->. apply (Dl a Hb). left.
    + eapply rep_same; [|done]. intros b Hb. apply S. by intros ->.
  - done.
  - rewrite P. split; [done|]. rewrite Cr; [done|congruence].
Qed.

Lemma Rep_present s k t : Rep s k t -> t <> E -> root_of t <> nullAddr /\ present s (root_of t).
Proof. intros [_ Tr _ _] N. destruct t as [|c l a r]; [done|]. destruct Tr as ((? & ? & _) & _). done. Qed.

Lemma Rep_set_red s k c l a r : Rep s k (T c l a r) -> Rep (set_red a s) k (T true l a r).
Proof.
  intros R. destruct (Rep_present _ _ _ R) as [Na P]; [done|]. cbn in Na, P.
  eapply Rep_color; [exact R|..]; try intros b; try intros Nb; autorewrite with heap; try done;
    [by rewrite decide_False|by rewrite decide_True].
Qed.

Lemma Rep_set_black s k c l a r : Rep s k (T c l a r) -> Rep (set_black a s) k (T false l a r).
Proof.
  intros R. destruct (Rep_present _ _ _ R) as [Na P]; [done|]. cbn in Na, P.
  eapply Rep_color; [exact R|..]; try intros b; try intros Nb; autorewrite with heap; try done;
    [by rewrite decide_False|by rewrite decide_True].
Qed.

(** ** Rotations *)

Lemma rotate_nodup k (A B C : list addr) x y :
  NoDup (before k ++ (A ++ x :: B ++ y :: C) ++ after k) ->
  NoDup (x :: y :: A ++ B ++ C ++ before k ++ after k).
Proof.
  intros ND.
  assert (x :: y :: A ++ B ++ C ++ before k ++ after k ≡ₚ before k ++ (A ++ x :: B ++ y :: C) ++ after k) as P;
    [|by rewrite P].
  rewrite (Permutation_app_comm (before k) (_ ++ _)), <- !app_assoc. cbn [app].
  rewrite <- Permutation_middle. constructor. rewrite <- app_assoc. cbn [app]. rewrite (app_assoc A B (y :: _)).
  rewrite <- Permutation_middle. constructor. rewrite <- !app_assoc.
  do 3 f_equiv. apply Permutation_app_comm.
Qed.

(** What holds at a right child [y] of [x], whose left child is [b], below the
    context [k]. *)
Record rotatable (s : rbtree) (k : list frame) (x y b : addr) : Prop := {
  rot_x : x <> nullAddr /\ present s x /\ up s x = parent k /\ right s x = y;
  rot_y : y <> nullAddr /\ present s y /\ left s y = b;
  rot_b : b <> nullAddr -> present s b;
  rot_distinct : x <> y /\ b <> x /\ b <> y;
  rot_ctx : crep s k x;
  rot_fresh : x ∉ before k ++ after k /\ y ∉ before k ++ after k /\ b ∉ before k ++ after k;
}.

Section left_rotate.
Context (s : rbtree) (k : list frame) (x y b : addr).
Abbreviation p := (parent k).
Context (Ro : rotatable s k x y b).

Ltac open_rotatable :=
  destruct Ro as [(Hx & Px & Ux & Rx) (Ny' & Py & Ly) Pb (Hxy & Hbx & Hby) Ck (Nx & Ny & Nb)].

(** The tree before the link from the parent is written. *)
Definition left_rotate_inner : rbtree :=
  let t := set_right x b s in set_up y p (if negb (isNull b) then set_up b x t else t).

Lemma inner_present a : present left_rotate_inner a <-> present s a.
Proof. unfold left_rotate_inner. destruct (negb _); by autorewrite with heap. Qed.
Lemma inner_red a : red left_rotate_inner a = red s a.
Proof. unfold left_rotate_inner. destruct (negb _); by autorewrite with heap. Qed.
Lemma inner_left a : left left_rotate_inner a = left s a.
Proof. unfold left_rotate_inner. destruct (negb _); by autorewrite with heap. Qed.
Lemma inner_right a : right left_rotate_inner a = if decide (a = x) then b else right s a.
Proof. open_rotatable. unfold left_rotate_inner. destruct (negb _); by autorewrite with heap. Qed.
Lemma inner_up a : up left_rotate_inner a =
  if decide (a = y) then p else if decide (a = b /\ b <> nullAddr) then x else up s a.
Proof.
  open_rotatable.
  unfold left_rotate_inner. cbn zeta. destruct (decide (b = nullAddr)) as [Eb|N].
  - rewrite Eb, isNull_null. cbn [negb]. rewrite up_set_up, up_set_right by pres.
    case_decide; [done|]. rewrite decide_False by naive_solver. done.
  - rewrite isNull_false by done. cbn [negb]. specialize (Pb N).
    rewrite up_set_up, up_set_up, up_set_right by pres. repeat case_decide; naive_solver.
Qed.

Lemma leftRotate_inner : leftRotate x s = set_up x y (set_left y x (replace_child x y left_rotate_inner)).
Proof.
  open_rotatable.
  unfold leftRotate. cbn zeta. rewrite Rx, Ly, left_set_right, Ly.
  assert (forall t, (t = set_right x b s \/ t = set_up b x (set_right x b s)) -> up t x = p) as U.
  { intros t [-> | ->].
    - by rewrite up_set_right.
    - unfold set_up, up. unfold getNode, upd. cbn [rb_nodes]. rewrite lookup_alter_ne by done.
      fold (getNode (set_right x b s) x). rewrite <- Ux. by apply up_set_right. }
  unfold left_rotate_inner. f_equal. f_equal. f_equal. f_equal.
  destruct (negb _); apply U; auto.
Qed.

Lemma inner_parent : crep left_rotate_inner k x /\ up left_rotate_inner x = p.
Proof.
  open_rotatable.
  split.
  - eapply (crep_same s); [|unfold left_rotate_inner; by destruct (negb _)|exact Ck]. intros a Ha.
    assert (a <> x /\ a <> y /\ a <> b) as (? & ? & ?) by (split_and!; by intros ->).
    unfold same. rewrite inner_present, inner_up, inner_left, inner_right, inner_red.
    rewrite !decide_False by naive_solver. done.
  - rewrite inner_up. rewrite !decide_False by naive_solver. done.
Qed.

Lemma leftRotate_present a : present (leftRotate x s) a <-> present s a.
Proof.
  open_rotatable. rewrite leftRotate_inner. autorewrite with heap. by rewrite present_replace_child, inner_present. Qed.
Lemma leftRotate_red a : red (leftRotate x s) a = red s a.
Proof.
  open_rotatable. rewrite leftRotate_inner. autorewrite with heap. by rewrite red_replace_child, inner_red. Qed.
Lemma leftRotate_up a : up (leftRotate x s) a =
  if decide (a = x) then y else if decide (a = y) then p
  else if decide (a = b /\ b <> nullAddr) then x else up s a.
Proof.
  open_rotatable.
  rewrite leftRotate_inner, up_set_up by (autorewrite with heap; by rewrite present_replace_child, inner_present).
  case_decide; [done|]. by rewrite up_set_left, up_replace_child, inner_up.
Qed.

Lemma inner_getNode a : a <> p \/ p = nullAddr ->
  getNode (replace_child x y left_rotate_inner) a = getNode left_rotate_inner a.
Proof.
  open_rotatable. intros N. apply getNode_replace_child. by rewrite (proj2 inner_parent). Qed.

Lemma leftRotate_left a : a <> p \/ p = nullAddr ->
  left (leftRotate x s) a = if decide (a = y) then x else left s a.
Proof.
  open_rotatable.
  intros N. rewrite leftRotate_inner, left_set_up, left_set_left by (rewrite present_replace_child; by apply inner_present).
  case_decide; [done|]. unfold left at 1. rewrite inner_getNode by done. apply inner_left.
Qed.
Lemma leftRotate_right a : a <> p \/ p = nullAddr ->
  right (leftRotate x s) a = if decide (a = x) then b else right s a.
Proof.
  open_rotatable.
  intros N. rewrite leftRotate_inner, right_set_up, right_set_left.
  unfold right at 1. rewrite inner_getNode by done. apply inner_right.
Qed.

Lemma leftRotate_relinked : relinked s (leftRotate x s) k y.
Proof.
  open_rotatable.
  rewrite leftRotate_inner. destruct inner_parent as [Ci Ui].
  assert (parent k <> x /\ parent k <> y) as [Npx Npy].
  { destruct (parent_elem _ _ _ Ck) as [->|Hp]; [split; congruence|]. split; intros E; rewrite E in Hp; done. }
  apply (relinked_same s left_rotate_inner (replace_child x y left_rotate_inner)).
  - assert (b <> nullAddr -> parent k <> b) as Npb.
    { intros N Epb. destruct (parent_elem _ _ _ Ck) as [?|Hp]; [congruence|]. by rewrite Epb in Hp. }
    unfold same. rewrite inner_present, inner_up, inner_left, inner_right, inner_red.
    rewrite !decide_False by naive_solver. done.
  - unfold left_rotate_inner. by destruct (negb _).
  - by apply relinked_replace_child.
  - unfold same. rewrite present_set_up, present_set_left, up_set_up, up_set_left, left_set_up, left_set_left,
      right_set_up, right_set_left, red_set_up, red_set_left
      by (autorewrite with heap; rewrite present_replace_child; by apply inner_present).
    by rewrite !decide_False.
  - by autorewrite with heap.
Qed.
Lemma off_parent a : a ∉ before k ++ after k -> a <> p \/ p = nullAddr.
Proof.
  open_rotatable. intros Ha. destruct (parent_elem _ _ _ Ck) as [?|Hp]; [by right|left; by intros ->].
Qed.

Lemma leftRotate_same a :
  a <> x -> a <> y -> a <> b \/ a = nullAddr -> a <> p \/ p = nullAddr -> same s (leftRotate x s) a.
Proof.
  intros N1 N2 N3 N4. unfold same.
  rewrite leftRotate_present, leftRotate_red, leftRotate_up, leftRotate_left, leftRotate_right by done.
  rewrite !decide_False by naive_solver. done.
Qed.
End left_rotate.

Lemma hole_notin s p t (l : list addr) :
  rep s p t -> (forall a, a ∈ addrs t -> a ∉ l) -> nullAddr ∉ l -> root_of t ∉ l.
Proof.
  intros Tr D N. destruct t as [|c t1 a t2]; [done|]. apply D. cbn. rewrite elem_of_app, elem_of_cons. auto.
Qed.

Lemma null_notin s k h : crep s k h -> nullAddr ∉ before k ++ after k.
Proof. intros C Hn. by destruct (crep_nonnull _ _ _ _ C Hn). Qed.

Lemma Rep_rotatable s k cx A x cy B y C :
  Rep s k (T cx A x (T cy B y C)) -> rotatable s k x y (root_of B).
Proof.
  intros [Ck Tr ND _]. cbn [root_of rep addrs] in *. apply rotate_nodup in ND.
  destruct Tr as ((Hx & Px & Ux & _ & Rx & _) & _ & (Hy & Py & _ & Ly & _) & HB & _).
  apply NoDup_cons in ND as [Nx ND]. apply NoDup_cons in ND as [Ny ND].
  apply NoDup_app in ND as (_ & _ & ND). apply NoDup_app in ND as (_ & DB & _).
  rewrite elem_of_cons, !elem_of_app in Nx. rewrite !elem_of_app in Ny. setoid_rewrite elem_of_app in DB.
  assert (forall l, (forall a, a ∈ addrs B -> a ∉ l) -> nullAddr ∉ l -> root_of B ∉ l) as H by
    (intros; by eapply hole_notin).
  split.
  - done.
  - done.
  - intros NB. destruct B; [done|]. by destruct HB as ((_ & ? & _) & _).
  - split; [tauto|]. rewrite <- !list_elem_of_singleton.
    split; (apply H; [intros a Ha ->%list_elem_of_singleton; tauto|rewrite list_elem_of_singleton; congruence]).
  - done.
  - rewrite !(elem_of_app _ _ x), !(elem_of_app _ _ y). do 2 (split; [tauto|]).
    apply H; [|by eapply null_notin]. intros a Ha Hk. apply (DB a Ha). by right.
Qed.

Lemma leftRotate_rep s k cx A x cy B y C :
  Rep s k (T cx A x (T cy B y C)) -> rep (leftRotate x s) (parent k) (T cy (T cx A x B) y C).
Proof.
  intros R. pose proof (Rep_rotatable _ _ _ _ _ _ _ _ _ R) as Ro.
  destruct R as [_ Tr ND _]. cbn [rep addrs] in Tr, ND. apply rotate_nodup in ND.
  destruct Tr as ((Hx & Px & Ux & Lx & Rx & Cx) & HA & (Hy & Py & Uy & Ly & Ry & Cy) & HB & HC).
  apply NoDup_cons in ND as [Nx ND]. apply NoDup_cons in ND as [Ny ND].
  rewrite elem_of_cons, !elem_of_app in Nx. rewrite !elem_of_app in Ny.
  apply NoDup_app in ND as (_ & DA & ND). apply NoDup_app in ND as (NDB & DB & ND).
  apply NoDup_app in ND as (_ & DC & _). repeat setoid_rewrite elem_of_app in DA. repeat setoid_rewrite elem_of_app in DB.
  destruct (rot_distinct _ _ _ _ _ Ro) as (Hxy & Nbx & Nby). destruct (rot_fresh _ _ _ _ _ Ro) as (Nxk & Nyk & Nbk).
  assert (forall a, a ∉ before k ++ after k -> a <> parent k \/ parent k = nullAddr) as Np by (by eapply off_parent).
  assert (forall t q a, rep s q t -> a ∈ addrs t -> (forall c, c ∈ addrs t -> c ∉ addrs B) -> a <> root_of B \/ a = nullAddr) as NB.
  { intros t q a Ht Ha D. destruct (decide (a = root_of B)) as [->|]; [|by left].
    destruct (root_elem _ _ _ HB); [by right|]. by apply D in Ha. }
  cbn [rep root_of]. unfold node_at.
  rewrite !(leftRotate_present _ _ _ _ _ Ro), !(leftRotate_red _ _ _ _ _ Ro), !(leftRotate_up _ _ _ _ _ Ro),
    !(leftRotate_left _ _ _ _ _ Ro), !(leftRotate_right _ _ _ _ _ Ro) by by apply Np.
  split; [|split; [split; [|split]|]].
  - rewrite decide_False, !(decide_True (P := y = y)), (decide_False (P := y = x)) by congruence. done.
  - rewrite !(decide_True (P := x = x)), (decide_False (P := x = y)) by congruence. done.
  - eapply rep_same; [|exact HA]. intros a Ha. pose proof (DA a Ha).
    eapply leftRotate_same; [done|intros ->; tauto|intros ->; tauto| |apply Np; rewrite elem_of_app; tauto].
    eapply NB; [exact HA|done|]. intros c Hc. specialize (DA c Hc). tauto.
  - eapply rep_reroot; [done| | |exact HB].
    + intros a Ha Na. specialize (DB a Ha).
      eapply leftRotate_same; [done|intros ->; tauto|intros ->; tauto|by left|apply Np; rewrite elem_of_app; tauto].
    + intros NE. destruct (rep_root _ _ _ HB NE) as [Nn _].
      rewrite (leftRotate_present _ _ _ _ _ Ro), (leftRotate_red _ _ _ _ _ Ro), (leftRotate_up _ _ _ _ _ Ro),
        (leftRotate_left _ _ _ _ _ Ro), (leftRotate_right _ _ _ _ _ Ro) by by apply Np.
      rewrite !(decide_False (P := root_of B = x)), !(decide_False (P := root_of B = y)), decide_True by done.
      split; [by eapply rot_b|done].
  - eapply rep_same; [|exact HC]. intros a Ha. pose proof (DC a Ha) as H. rewrite elem_of_app in H.
    eapply leftRotate_same; [done|intros ->; tauto|intros ->; tauto| |apply Np; rewrite elem_of_app; tauto].
    eapply NB; [exact HC|done|]. intros c Hc Hb. apply (DB c Hb). tauto.
Qed.

(** The rotation to the left, anywhere in a tree; the null node keeps its link
    upwards. *)
Lemma Rep_leftRotate s k cx A x cy B y C :
  Rep s k (T cx A x (T cy B y C)) ->
  Rep (leftRotate x s) k (T cy (T cx A x B) y C) /\ up (leftRotate x s) nullAddr = up s nullAddr.
Proof.
  intros R. pose proof (Rep_rotatable _ _ _ _ _ _ _ _ _ R) as Ro. pose proof (leftRotate_rep _ _ _ _ _ _ _ _ _ R) as Tr'.
  destruct R as [Ck Tr ND [Zp Zr]].
  destruct (rot_x _ _ _ _ _ Ro) as (Hx & _). destruct (rot_y _ _ _ _ _ Ro) as (Hy & _).
  destruct (rot_fresh _ _ _ _ _ Ro) as (Nxk & Nyk & Nbk). split; [split; [|done|..]|].
  - eapply crep_relinked; [| |by eapply leftRotate_relinked|exact Ck].
    + rewrite (Permutation_app_comm (addrs _)), app_assoc in ND. by apply NoDup_app in ND as (? & _).
    + intros a Ha Na. eapply leftRotate_same; [done|intros ->..| |by left]; try done. left. by intros ->.
  - cbn [addrs] in *. by rewrite <- (app_assoc (addrs A)).
  - by rewrite (leftRotate_present _ _ _ _ _ Ro), (leftRotate_red _ _ _ _ _ Ro).
  - rewrite (leftRotate_up _ _ _ _ _ Ro), !decide_False by naive_solver. done.
Qed.

(** ** Mirror images *)

Definition mir_node (n : memdbNode) : memdbNode :=
  MkNode (n_up n) (n_right n) (n_left n) (n_vptr n) (n_klen n) (n_flags n) (n_key n).
Definition mir (s : rbtree) : rbtree := MkTree (rb_root s) (mir_node <$> rb_nodes s).

Fixpoint mirt (t : rtree) : rtree := match t with E => E | T c l a r => T c (mirt r) a (mirt l) end.
Definition mirf (f : frame) : frame :=
  match f with FL c a r => FR c (mirt r) a | FR c l a => FL c a (mirt l) end.
Definition mirk (k : list frame) : list frame := mirf <$> k.

Lemma getNode_mir s a : getNode (mir s) a = mir_node (getNode s a).
Proof. unfold getNode, mir. cbn [rb_nodes]. rewrite lookup_fmap. by destruct (rb_nodes s !! a). Qed.
Lemma up_mir s a : up (mir s) a = up s a.
Proof. unfold up. by rewrite getNode_mir. Qed.
Lemma left_mir s a : left (mir s) a = right s a.
Proof. unfold left. by rewrite getNode_mir. Qed.
Lemma right_mir s a : right (mir s) a = left s a.
Proof. unfold right. by rewrite getNode_mir. Qed.
Lemma red_mir s a : red (mir s) a = red s a.
Proof. unfold red. by rewrite getNode_mir. Qed.
Lemma present_mir s a : present (mir s) a <-> present s a.
Proof. unfold present, mir. cbn [rb_nodes]. by rewrite lookup_fmap, fmap_is_Some. Qed.

Lemma mir_mir s : mir (mir s) = s.
Proof.
  destruct s as [r m]. unfold mir. cbn. f_equal. rewrite <- map_fmap_compose. rewrite <- (map_fmap_id m) at 2.
  apply map_fmap_ext. by intros a [] _.
Qed.
Lemma mirt_mirt t : mirt (mirt t) = t.
Proof. induction t as [|c l IHl a r IHr]; cbn; congruence. Qed.
Lemma mirk_mirk k : mirk (mirk k) = k.
Proof. induction k as [|[] k IH]; [done|..]; cbn; rewrite mirt_mirt; unfold mirk in IH; congruence. Qed.

Lemma root_of_mir t : root_of (mirt t) = root_of t.
Proof. by destruct t. Qed.
Lemma parent_mir k : parent (mirk k) = parent k.
Proof. by destruct k as [|[] k]. Qed.
Lemma addrs_mir t : addrs (mirt t) = reverse (addrs t).
Proof.
  induction t as [|c l IHl a r IHr]; [done|]. cbn [mirt addrs]. rewrite IHl, IHr, reverse_app, reverse_cons.
  by rewrite <- app_assoc.
Qed.
Lemma before_mir k : before (mirk k) = reverse (after k).
Proof.
  induction k as [|[c a r|c l a] k IH]; [done| |exact IH].
  cbn [mirk fmap list_fmap mirf before after]. fold (mirk k).
  by rewrite reverse_cons, reverse_app, addrs_mir, IH, <- app_assoc.
Qed.
Lemma after_mir k : after (mirk k) = reverse (before k).
Proof.
  induction k as [|[c a r|c l a] k IH]; [done|exact IH|].
  cbn [mirk fmap list_fmap mirf before after]. fold (mirk k).
  by rewrite !reverse_app, addrs_mir, IH, <- app_assoc.
Qed.

Lemma node_at_mir s a p lc rc c : node_at s a p lc rc c <-> node_at (mir s) a p rc lc c.
Proof. unfold node_at. rewrite present_mir, up_mir, left_mir, right_mir, red_mir. tauto. Qed.

Lemma rep_mir s p t : rep s p t <-> rep (mir s) p (mirt t).
Proof.
  revert p. induction t as [|c l IHl a r IHr]; intros p; [done|]. cbn [rep mirt].
  rewrite !root_of_mir, <- node_at_mir, <- IHl, <- IHr. tauto.
Qed.

Lemma crep_mir s k h : crep s k h <-> crep (mir s) (mirk k) h.
Proof.
  revert h. induction k as [|[c a r|c l a] k IH]; intros h; [done|..]; cbn [crep mirk fmap list_fmap mirf];
    fold (mirk k); rewrite parent_mir, root_of_mir, <- node_at_mir, <- rep_mir, <- IH; done.
Qed.

Lemma Rep_mir s k t : Rep s k t <-> Rep (mir s) (mirk k) (mirt t).
Proof.
  assert (NoDup (before (mirk k) ++ addrs (mirt t) ++ after (mirk k)) <-> NoDup (before k ++ addrs t ++ after k)) as ND.
  { rewrite before_mir, after_mir, addrs_mir, <- !reverse_app, reverse_Permutation, <- app_assoc. done. }
  split; intros [C Tr N Z]; split; rewrite ?present_mir, ?red_mir, ?parent_mir, ?root_of_mir in *; try tauto.
  - by rewrite <- crep_mir.
  - by rewrite <- rep_mir.
  - by apply crep_mir.
  - by apply rep_mir.
Qed.

Lemma mir_upd a f g s : (forall n, mir_node (f n) = g (mir_node n)) -> mir (upd a f s) = upd a g (mir s).
Proof.
  intros H. unfold mir, upd. cbn. f_equal. apply map_eq. intros b. rewrite lookup_fmap.
  destruct (decide (b = a)) as [->|N].
  - rewrite !lookup_alter_eq, lookup_fmap. destruct (rb_nodes s !! a); cbn; [by rewrite H|done].
  - by rewrite !lookup_alter_ne, lookup_fmap by done.
Qed.

Lemma mir_set_up a v s : mir (set_up a v s) = set_up a v (mir s).
Proof. by apply mir_upd. Qed.
Lemma mir_set_left a v s : mir (set_left a v s) = set_right a v (mir s).
Proof. by apply mir_upd. Qed.
Lemma mir_set_right a v s : mir (set_right a v s) = set_left a v (mir s).
Proof. by apply mir_upd. Qed.
Lemma mir_set_red a s : mir (set_red a s) = set_red a (mir s).
Proof. by apply mir_upd. Qed.
Lemma mir_set_black a s : mir (set_black a s) = set_black a (mir s).
Proof. by apply mir_upd. Qed.

(** [a] is exactly one of the children of its parent. *)
Definition one_child (s : rbtree) (a : addr) : Prop :=
  up s a = nullAddr \/ (left s (up s a) = a /\ right s (up s a) <> a) \/ (right s (up s a) = a /\ left s (up s a) <> a).

Lemma mir_replace_child a b s : one_child s a -> mir (replace_child a b s) = replace_child a b (mir s).
Proof.
  unfold replace_child. rewrite up_mir. intros [->|H]; [done|]. destruct (isNull _); [done|].
  rewrite left_mir. destruct H as [[L R]|[R L]].
  - rewrite L, eqa_true, eqa_false by congruence. apply mir_set_left.
  - rewrite R, eqa_true, eqa_false by congruence. apply mir_set_right.
Qed.

(** ** The rotation to the right *)

Lemma one_child_mir s a : one_child (mir s) a <-> one_child s a.
Proof. unfold one_child. rewrite up_mir, left_mir, right_mir. tauto. Qed.

Lemma crep_one_child s k a :
  crep s k a -> up s a = parent k -> a <> nullAddr -> a ∉ before k ++ after k -> one_child s a.
Proof.
  intros C U Na Ni. unfold one_child. rewrite U. destruct k as [|[c a0 r|c l a0] k]; [by left|..]; right;
    destruct C as ((N & P & U' & L' & R' & C') & Hs & _); cbn [parent faddr]; rewrite L', R';
    [left|right]; (split; [done|]); intros E'; cbn in Ni; destruct (root_elem _ _ _ Hs) as [?|Hr]; try congruence;
    rewrite E' in Hr; apply Ni; rewrite ?elem_of_app, ?elem_of_cons, ?elem_of_app; auto 10.
Qed.

Lemma rightRotate_mir s k y x b :
  rotatable (mir s) k y x b -> rightRotate y s = mir (leftRotate y (mir s)).
Proof.
  intros Ro. rewrite (leftRotate_inner _ _ _ _ _ Ro). destruct (inner_parent _ _ _ _ _ Ro) as [Ci Ui].
  destruct (rot_x _ _ _ _ _ Ro) as (Hy & Py & Uy & Ry). destruct (rot_y _ _ _ _ _ Ro) as (Hx & Px & Lx).
  destruct (rot_distinct _ _ _ _ _ Ro) as (Nyx & Nby & Nbx). destruct (rot_fresh _ _ _ _ _ Ro) as (Ny & _).
  rewrite mir_set_up, mir_set_left, mir_replace_child by by eapply crep_one_child.
  rewrite up_mir in Uy. rewrite right_mir in Ry. rewrite left_mir in Lx.
  assert (mir (left_rotate_inner (mir s) k y x b) =
          set_up x (parent k) (if negb (isNull b) then set_up b y (set_left y b s) else set_left y b s)) as Ei.
  { unfold left_rotate_inner. cbn zeta. rewrite mir_set_up. f_equal.
    destruct (negb _); by rewrite ?mir_set_up, mir_set_right, mir_mir. }
  unfold rightRotate. cbn zeta. rewrite Ry, Lx, right_set_left, Lx.
  replace (up (if negb (isNull b) then set_up b y (set_left y b s) else set_left y b s) y) with (parent k).
  { by rewrite Ei. }
  symmetry. destruct (negb _); [|by rewrite up_set_left].
  unfold set_up, up, getNode, upd. cbn [rb_nodes]. rewrite lookup_alter_ne by done.
  fold (getNode (set_left y b s) y). rewrite <- Uy. apply up_set_left.
Qed.

Lemma Rep_rightRotate s k cy cx A x B y C :
  Rep s k (T cy (T cx A x B) y C) ->
  Rep (rightRotate y s) k (T cx A x (T cy B y C)) /\ up (rightRotate y s) nullAddr = up s nullAddr.
Proof.
  intros R. apply Rep_mir in R. cbn [mirt] in R. pose proof (Rep_rotatable _ _ _ _ _ _ _ _ _ R) as Ro.
  rewrite (rightRotate_mir _ _ _ _ _ Ro), up_mir.
  apply Rep_leftRotate in R as [R U]. rewrite U, up_mir. split; [|done].
  apply Rep_mir in R. cbn [mirt] in R. by rewrite mirk_mirk, !mirt_mirt in R.
Qed.
