(* ===== verification/MemTreeInsert.v ===== *)
(** * Balance, and insertion

    The colours of a red-black tree, for a tree and for a context; the
    rebalancing of [traverse] takes a red node whose parent may be red to a
    red-black tree with the same nodes in the same order. *)

From stdpp Require Import base gmap list sorting strings.
From Stdlib Require Import Strings.Byte ZArith Lia Sorted.
From S2P Require Import Prelude External Marshal MemArena MemTree MemTreeRep.
Open Scope Z_scope.

(** ** Red-black trees *)

(** [rb t c n]: no red node has a red child, every path has [n] black nodes,
    and the root has colour [c]. *)
Inductive rb : rtree -> bool -> nat -> Prop :=
| rb_E : rb E false 0
| rb_R l a r n : rb l false n -> rb r false n -> rb (T true l a r) true n
| rb_B l a r cl cr n : rb l cl n -> rb r cr n -> rb (T false l a r) false (S n).

(** [rbc k c n]: the context takes a tree with [n] black nodes per path, and
    a black one when [c]; the root of the whole tree is black. *)
Inductive rbc : list frame -> bool -> nat -> Prop :=
| rbc_nil n : rbc [] true n
| rbc_BL a r cr k c n : rb r cr n -> rbc k c (S n) -> rbc (FL false a r :: k) false n
| rbc_BR l cl a k c n : rb l cl n -> rbc k c (S n) -> rbc (FR false l a :: k) false n
| rbc_RL a r k n : rb r false n -> rbc k false n -> rbc (FL true a r :: k) true n
| rbc_RR l a k n : rb l false n -> rbc k false n -> rbc (FR true l a :: k) true n.

(** A tree under a context whose parent is black, or that is itself black. *)
Lemma rb_plug k c n t ct : rbc k c n -> rb t ct n -> (c = true -> ct = false) -> exists n', rb (plug k t) false n'.
Proof.
  intros C. revert t ct. induction C; intros t ct Ht Hc; cbn [plug fill].
  - specialize (Hc eq_refl) as ->. eauto.
  - eapply IHC; [by eapply rb_B|done].
  - eapply IHC; [by eapply rb_B|done].
  - eapply IHC; [|done]. apply rb_R; [|done]. by specialize (Hc eq_refl) as ->.
  - eapply IHC; [|done]. apply rb_R; [done|]. by specialize (Hc eq_refl) as ->.
Qed.

Lemma rb_unplug k t n0 :
  rb (plug k t) false n0 -> exists c n ct, rbc k c n /\ rb t ct n /\ (c = true -> ct = false).
Proof.
  revert t. induction k as [|f k IH]; intros t H; cbn [plug] in H.
  - exists true, n0, false. repeat split; [constructor|done].
  - apply IH in H as (c & n & ct & C & H & Hc). destruct f as [cf a r|cf l a]; cbn [fill] in H; inversion H; subst.
    + exists true, n, false. split_and!; [constructor; [done|]|done..]. destruct c; [by specialize (Hc eq_refl)|done].
    + eexists false, _, _. split_and!; [by econstructor|done..].
    + exists true, n, false. split_and!; [constructor; [done|]|done..]. destruct c; [by specialize (Hc eq_refl)|done].
    + eexists false, _, _. split_and!; [by econstructor|done..].
Qed.

(** The height is at most twice the number of black nodes of a path, plus one. *)
Fixpoint height (t : rtree) : nat := match t with E => 0 | T _ l _ r => S (max (height l) (height r)) end.

Lemma rb_height t c n : rb t c n -> (height t <= 2 * n + (if c then 1 else 0))%nat.
Proof. induction 1 as [|l a r n ? IHl ? IHr|l a r cl cr n ? IHl ? IHr]; cbn; [lia|lia|]. destruct cl, cr; lia. Qed.

Lemma rb_size t c n : rb t c n -> (2 ^ n <= S (length (addrs t)))%nat.
Proof.
  induction 1 as [|l a r n ? IHl ? IHr|l a r cl cr n ? IHl ? IHr]; cbn [addrs]; [done|..];
    rewrite length_app; cbn [length]; rewrite ?Nat.pow_succ_r'; lia.
Qed.

(** ** Reading around the focus *)

Lemma Rep_up_to s k t : Rep s k t -> Rep s [] (plug k t).
Proof.
  revert t. induction k as [|[c a r|c l a] k IH]; intros t R; [done|..]; cbn [plug fill]; apply IH.
  - by apply Rep_FL.
  - by apply Rep_FR.
Qed.

Lemma Rep_down_to s k t : Rep s [] (plug k t) -> Rep s k t.
Proof.
  revert t. induction k as [|[c a r|c l a] k IH]; intros t R; [done|..]; cbn [plug fill] in R; apply IH in R.
  - by apply Rep_FL.
  - by apply Rep_FR.
Qed.

Lemma Rep_root s t : Rep s [] t -> rb_root s = root_of t.
Proof. by intros [C _ _ _]. Qed.

Lemma Rep_node s k c l a r : Rep s k (T c l a r) -> node_at s a (parent k) (root_of l) (root_of r) c.
Proof. by intros [_ (N & _) _ _]. Qed.

(** The colour of a root, the null node being black. *)
Definition color (t : rtree) : bool := match t with E => false | T c _ _ _ => c end.

Lemma Rep_color_root s k t : Rep s k t -> red s (root_of t) = color t.
Proof. intros [_ Tr _ [_ Z]]. destruct t; [exact Z|]. by destruct Tr as ((_ & _ & _ & _ & _ & ?) & _). Qed.

Lemma rb_color t c n : rb t c n -> color t = c.
Proof. by destruct 1. Qed.

(** The nodes at the path and at the focus are different. *)
Lemma Rep_parent_ne s k t : Rep s k t -> k <> [] -> t <> E -> parent k <> root_of t /\ rb_root s <> root_of t.
Proof.
  intros R Nk Nt. destruct t as [|c l a r]; [done|]. cbn [root_of]. pose proof (R_nodup _ _ _ R) as ND.
  assert (a ∉ before k ++ after k) as Na.
  { cbn [addrs] in ND. intros Ha. apply NoDup_app in ND as (_ & D & ND). apply elem_of_app in Ha as [Ha|Ha].
    - apply (D a Ha). rewrite !elem_of_app, elem_of_cons. auto.
    - apply NoDup_app in ND as (_ & D' & _). apply (D' a); [|done]. rewrite elem_of_app, elem_of_cons. auto. }
  assert (forall k h, crep s k h -> k <> [] -> rb_root s ∈ before k ++ after k) as Rt.
  { clear. intros k. induction k as [|f k IH]; [done|]. intros h C _.
    destruct k as [|f' k]; [destruct f as [c a r|c l a]; destruct C as (_ & _ & ->); cbn; rewrite ?elem_of_app, elem_of_cons; auto|].
    assert (rb_root s ∈ before (f' :: k) ++ after (f' :: k)) as Hi
      by (destruct f as [c a r|c l a]; destruct C as (_ & _ & C); by apply (IH _ C)).
    rewrite elem_of_app in *. destruct f as [c a r|c l a]; cbn [before after];
      rewrite ?elem_of_app, ?elem_of_cons, ?elem_of_app; tauto. }
  split.
  - destruct (parent_elem _ _ _ (R_ctx _ _ _ R)) as [Hp|Hp].
    + by apply (crep_parent_null _ _ _ (R_ctx _ _ _ R)) in Hp.
    + by intros <-.
  - intros <-. apply Na. eapply Rt; [apply R|done].
Qed.

Lemma Rep_frame_L s k c a r t :
  Rep s (FL c a r :: k) t -> node_at s a (parent k) (root_of t) (root_of r) c.
Proof. by intros [(N & _) _ _ _]. Qed.

Lemma Rep_frame_R s k c l a t :
  Rep s (FR c l a :: k) t -> node_at s a (parent k) (root_of l) (root_of t) c.
Proof. by intros [(N & _) _ _ _]. Qed.

Lemma Rep_sibling_ne s k c l a t : Rep s (FR c l a :: k) t -> t <> E -> root_of t <> root_of l.
Proof.
  intros R Nt. apply Rep_FR in R. destruct R as [_ Tr ND _]. cbn [rep addrs] in *.
  destruct Tr as (_ & Hl & Ht). destruct (rep_root _ _ _ Ht Nt) as [Nn Hr].
  apply NoDup_app in ND as (_ & _ & ND). apply NoDup_app in ND as (ND & _). apply NoDup_app in ND as (_ & D & _).
  intros E'. destruct (root_elem _ _ _ Hl) as [?|Hl']; [congruence|]. rewrite <- E' in Hl'.
  apply (D _ Hl'). by right.
Qed.

Lemma Rep_sibling_ne' s k c r a t : Rep s (FL c a r :: k) t -> t <> E -> root_of t <> root_of r.
Proof.
  intros R Nt. apply Rep_mir in R. rewrite <- (root_of_mir t), <- (root_of_mir r).
  eapply Rep_sibling_ne; [exact R|by destruct t].
Qed.

(** ** Rebalancing after an insertion *)

(** Recolouring two red siblings and their black parent. *)
Lemma Rep_recolor s k ca cb cg A p B g C y D :
  Rep s k (T cg (T ca A p B) g (T cb C y D)) ->
  Rep (set_red g (set_black y (set_black p s))) k (T true (T false A p B) g (T false C y D)) /\
  Rep (set_red g (set_black p (set_black y s))) k (T true (T false A p B) g (T false C y D)).
Proof.
  intros R. split; apply (Rep_set_red _ _ cg).
  - apply <- Rep_FR. apply (Rep_set_black _ _ cb). apply -> Rep_FR.
    apply <- Rep_FL. apply (Rep_set_black _ _ ca). by apply -> Rep_FL.
  - apply <- Rep_FL. apply (Rep_set_black _ _ ca). apply -> Rep_FL.
    apply <- Rep_FR. apply (Rep_set_black _ _ cb). by apply -> Rep_FR.
Qed.

(** The last rotation, with the colours of parent and grandparent changed. *)
Lemma Rep_swap_right s k cp cg A p B g C :
  Rep s k (T cg (T cp A p B) g C) ->
  Rep (rightRotate g (set_red g (set_black p s))) k (T false A p (T true B g C)).
Proof.
  intros R. apply Rep_rightRotate. apply (Rep_set_red _ _ cg).
  apply <- Rep_FL. apply (Rep_set_black _ _ cp). by apply -> Rep_FL.
Qed.

Lemma Rep_swap_left s k cp cg A g B p C :
  Rep s k (T cg A g (T cp B p C)) ->
  Rep (leftRotate g (set_red g (set_black p s))) k (T false (T true A g B) p C).
Proof.
  intros R. apply Rep_leftRotate. apply (Rep_set_red _ _ cg).
  apply <- Rep_FR. apply (Rep_set_black _ _ cp). by apply -> Rep_FR.
Qed.

Lemma data_swap_right s g p : same_data s (rightRotate g (set_red g (set_black p s))).
Proof. etransitivity; [|apply data_rightRotate]. etransitivity; [|apply data_set_red]. apply data_set_black. Qed.
Lemma data_swap_left s g p : same_data s (leftRotate g (set_red g (set_black p s))).
Proof. etransitivity; [|apply data_leftRotate]. etransitivity; [|apply data_set_red]. apply data_set_black. Qed.
Lemma data_recolor s g y p : same_data s (set_red g (set_black y (set_black p s))).
Proof. etransitivity; [|apply data_set_red]. etransitivity; [|apply data_set_black]. apply data_set_black. Qed.

(** What the rebalancing makes of [s]: a tree of the nodes [l], red-black but
    for the colour of its root. *)
Definition balanced (s s' : rbtree) (l : list addr) : Prop :=
  exists t c n, Rep s' [] t /\ rb t c n /\ addrs t = l /\ same_data s s'.

Lemma balanced_trans s s1 s2 l : same_data s s1 -> balanced s1 s2 l -> balanced s s2 l.
Proof. intros D (t & c & n & R & B & A & D'). exists t, c, n. split_and!; [done..|by etransitivity]. Qed.

(** One turn of the loop. *)
Lemma insert_fix_step fuel x s :
  insert_fix (S fuel) x s =
  if eqa x (rb_root s) then s
  else if black s (up s x) then s
  else if eqa (up s x) (left s (up s (up s x))) then
    let y := right s (up s (up s x)) in
    if red s y then
      let s' := set_red (up s (up s x)) (set_black y (set_black (up s x) s)) in
      insert_fix fuel (up s' (up s x)) s'
    else
      let '(x', s') := if eqa x (right s (up s x)) then (up s x, leftRotate (up s x) s) else (x, s) in
      insert_fix fuel x' (rightRotate (up s' (up s' x')) (set_red (up s' (up s' x')) (set_black (up s' x') s')))
  else
    let y := left s (up s (up s x)) in
    if red s y then
      let s' := set_red (up s (up s x)) (set_black y (set_black (up s x) s)) in
      insert_fix fuel (up s' (up s x)) s'
    else
      let '(x', s') := if eqa x (left s (up s x)) then (up s x, rightRotate (up s x) s) else (x, s) in
      insert_fix fuel x' (leftRotate (up s' (up s' x')) (set_red (up s' (up s' x')) (set_black (up s' x') s'))).
Proof. done. Qed.

Definition fcolor (f : frame) : bool := match f with FL c _ _ => c | FR c _ _ => c end.

(** The colour and the parent of the node of a frame. *)
Lemma Rep_frame s k f t : Rep s (f :: k) t -> red s (faddr f) = fcolor f /\ up s (faddr f) = parent k.
Proof. intros [C _ _ _]. by destruct f; destruct C as ((_ & _ & U & _ & _ & Cf) & _). Qed.

Lemma Rep_fill s k f t : Rep s (f :: k) t <-> Rep s k (fill f t).
Proof. destruct f; symmetry; [apply Rep_FL|apply Rep_FR]. Qed.

Lemma root_fill f t : root_of (fill f t) = faddr f.
Proof. by destruct f. Qed.

(** A turn at a red node [x] under a red parent on the left and on the right of
    [g]: the colour of the uncle [u] decides. *)
Lemma turn_left fuel s k f g x u l r :
  Rep s (f :: FL false g u :: k) (T true l x r) -> fcolor f = true ->
  let p := faddr f in
  insert_fix (S fuel) x s =
  if color u then insert_fix fuel g (set_red g (set_black (root_of u) (set_black p s)))
  else
    let '(x', s') := if eqa x (right s p) then (p, leftRotate p s) else (x, s) in
    insert_fix fuel x' (rightRotate (up s' (up s' x')) (set_red (up s' (up s' x')) (set_black (up s' x') s'))).
Proof.
  intros R Cf p. rewrite insert_fix_step. destruct (Rep_parent_ne _ _ _ R) as [_ Nr]; [done|done|]. cbn [root_of] in Nr.
  rewrite eqa_false by congruence.
  pose proof (Rep_node _ _ _ _ _ _ R) as (_ & _ & Ux & _). cbn [parent] in Ux. rewrite Ux. fold p.
  destruct (Rep_frame _ _ _ _ R) as [Cp Up]. fold p in Cp, Up. cbn [parent faddr] in Up.
  rewrite black_red, Cp, Cf. cbn [negb]. rewrite Up. apply Rep_fill in R.
  pose proof (Rep_frame_L _ _ _ _ _ _ R) as (_ & _ & _ & L & Rr & _). rewrite root_fill in L. fold p in L.
  rewrite L, eqa_true, Rr. apply Rep_FL, Rep_FR, Rep_color_root in R. rewrite R.
  destruct (color u); [|done]. cbn zeta. by rewrite up_set_red, !up_set_black, Up.
Qed.

Lemma turn_right fuel s k f g x u l r :
  Rep s (f :: FR false u g :: k) (T true l x r) -> fcolor f = true ->
  let p := faddr f in
  insert_fix (S fuel) x s =
  if color u then insert_fix fuel g (set_red g (set_black (root_of u) (set_black p s)))
  else
    let '(x', s') := if eqa x (left s p) then (p, rightRotate p s) else (x, s) in
    insert_fix fuel x' (leftRotate (up s' (up s' x')) (set_red (up s' (up s' x')) (set_black (up s' x') s'))).
Proof.
  intros R Cf p. rewrite insert_fix_step. destruct (Rep_parent_ne _ _ _ R) as [_ Nr]; [done|done|]. cbn [root_of] in Nr.
  rewrite eqa_false by congruence.
  pose proof (Rep_node _ _ _ _ _ _ R) as (_ & _ & Ux & _). cbn [parent] in Ux. rewrite Ux. fold p.
  destruct (Rep_frame _ _ _ _ R) as [Cp Up]. fold p in Cp, Up. cbn [parent faddr] in Up.
  rewrite black_red, Cp, Cf. cbn [negb]. rewrite Up. apply Rep_fill in R.
  pose proof (Rep_frame_R _ _ _ _ _ _ R) as (_ & _ & _ & L & Rr & _).
  pose proof (Rep_sibling_ne _ _ _ _ _ _ R) as Ns. rewrite root_fill in Ns. fold p in Ns.
  rewrite L, eqa_false by (apply Ns; by destruct f). apply Rep_FR, Rep_FL, Rep_color_root in R. rewrite R.
  destruct (color u); [|done]. cbn zeta. by rewrite up_set_red, !up_set_black, Up.
Qed.

(** The rotations of a turn with a black uncle: where the loop goes on. *)
Lemma rotate_LL s k x l r p B g C :
  Rep s (FL true p B :: FL false g C :: k) (T true l x r) ->
  let s' := rightRotate (up s (up s x)) (set_red (up s (up s x)) (set_black (up s x) s)) in
  eqa x (right s p) = false /\ Rep s' (FL false p (T true B g C) :: k) (T true l x r).
Proof.
  intros R. destruct (Rep_frame _ _ _ _ R) as [_ Up]. cbn [faddr parent] in Up.
  pose proof (Rep_node _ _ _ _ _ _ R) as (_ & _ & Ux & _). cbn [parent faddr] in Ux. rewrite Ux, Up. split.
  - pose proof (Rep_frame_L _ _ _ _ _ _ R) as (_ & _ & _ & _ & Rr & _). rewrite Rr.
    by apply eqa_false, (Rep_sibling_ne' _ _ _ _ _ _ R).
  - apply -> Rep_FL. eapply Rep_swap_right. apply <- Rep_FL. apply <- Rep_FL. exact R.
Qed.

Lemma rotate_LR s k x l r p B g C :
  Rep s (FR true B p :: FL false g C :: k) (T true l x r) ->
  let s1 := leftRotate p s in
  let s' := rightRotate (up s1 (up s1 p)) (set_red (up s1 (up s1 p)) (set_black (up s1 p) s1)) in
  eqa x (right s p) = true /\ Rep s' (FL false x (T true r g C) :: k) (T true B p l).
Proof.
  intros R s1. split.
  - pose proof (Rep_frame_R _ _ _ _ _ _ R) as (_ & _ & _ & _ & Rr & _). rewrite Rr. apply eqa_true.
  - apply Rep_FR, Rep_leftRotate in R as [R _]. fold s1 in R. apply -> Rep_FL.
    pose proof (proj1 (Rep_FL _ _ _ _ _ _) R) as R'. pose proof (Rep_node _ _ _ _ _ _ R') as (_ & _ & Ux & _).
    destruct (Rep_frame _ _ _ _ R') as [_ Up]. cbn [parent faddr] in Ux, Up. rewrite Ux, Up.
    eapply Rep_swap_right. by apply <- Rep_FL.
Qed.

Lemma rotate_RR s k x l r p B g C :
  Rep s (FR true B p :: FR false C g :: k) (T true l x r) ->
  let s' := leftRotate (up s (up s x)) (set_red (up s (up s x)) (set_black (up s x) s)) in
  eqa x (left s p) = false /\ Rep s' (FR false (T true C g B) p :: k) (T true l x r).
Proof.
  intros R. destruct (Rep_frame _ _ _ _ R) as [_ Up]. cbn [faddr parent] in Up.
  pose proof (Rep_node _ _ _ _ _ _ R) as (_ & _ & Ux & _). cbn [parent faddr] in Ux. rewrite Ux, Up. split.
  - pose proof (Rep_frame_R _ _ _ _ _ _ R) as (_ & _ & _ & Rr & _). rewrite Rr.
    by apply eqa_false, (Rep_sibling_ne _ _ _ _ _ _ R).
  - apply -> Rep_FR. eapply Rep_swap_left. apply <- Rep_FR. apply <- Rep_FR. exact R.
Qed.

Lemma rotate_RL s k x l r p B g C :
  Rep s (FL true p B :: FR false C g :: k) (T true l x r) ->
  let s1 := rightRotate p s in
  let s' := leftRotate (up s1 (up s1 p)) (set_red (up s1 (up s1 p)) (set_black (up s1 p) s1)) in
  eqa x (left s p) = true /\ Rep s' (FR false (T true C g l) x :: k) (T true r p B).
Proof.
  intros R s1. split.
  - pose proof (Rep_frame_L _ _ _ _ _ _ R) as (_ & _ & _ & Rr & _). rewrite Rr. apply eqa_true.
  - apply Rep_FL, Rep_rightRotate in R as [R _]. fold s1 in R. apply -> Rep_FR.
    pose proof (proj1 (Rep_FR _ _ _ _ _ _) R) as R'. pose proof (Rep_node _ _ _ _ _ _ R') as (_ & _ & Ux & _).
    destruct (Rep_frame _ _ _ _ R') as [_ Up]. cbn [parent faddr] in Ux, Up. rewrite Ux, Up.
    eapply Rep_swap_left. by apply <- Rep_FR.
Qed.

Definition black_frame (f : frame) : frame :=
  match f with FL _ a r => FL false a r | FR _ l a => FR false l a end.

(** The recolouring of a turn with a red uncle. *)
Lemma recolor_up s k f g u t :
  Rep s (f :: FL false g u :: k) t -> color u = true ->
  exists u', Rep (set_red g (set_black (root_of u) (set_black (faddr f) s))) k
               (T true (fill (black_frame f) t) g u') /\
    (forall n, rb u true n -> rb u' false (S n)) /\ addrs u' = addrs u.
Proof.
  intros R Cu. destruct u as [|cu C y D]; [done|]. cbn in Cu. subst cu. exists (T false C y D). split_and!.
  - apply Rep_fill in R. apply Rep_FL in R. destruct f as [c a r|c l a]; cbn [fill] in R;
      by apply Rep_recolor in R as [R _].
  - intros n Hu. inversion Hu. by econstructor.
  - done.
Qed.

Lemma recolor_up' s k f g u t :
  Rep s (f :: FR false u g :: k) t -> color u = true ->
  exists u', Rep (set_red g (set_black (root_of u) (set_black (faddr f) s))) k
               (T true u' g (fill (black_frame f) t)) /\
    (forall n, rb u true n -> rb u' false (S n)) /\ addrs u' = addrs u.
Proof.
  intros R Cu. destruct u as [|cu C y D]; [done|]. cbn in Cu. subst cu. exists (T false C y D). split_and!.
  - apply Rep_fill in R. apply Rep_FR in R. destruct f as [c a r|c l a]; cbn [fill] in R;
      by apply Rep_recolor in R as [_ R].
  - intros n Hu. inversion Hu. by econstructor.
  - done.
Qed.

Ltac reassoc :=
  rewrite !addrs_plug; cbn [before after fill addrs black_frame];
  repeat (progress (rewrite <- ?app_assoc; cbn [app])); try done.

(** A red node under a black parent: nothing is left to do. *)
Lemma insert_fix_black_parent fuel s f k l x r n :
  Rep s (f :: k) (T true l x r) -> fcolor f = false -> rb l false n -> rb r false n -> rbc (f :: k) false n ->
  balanced s (insert_fix (S fuel) x s) (addrs (plug (f :: k) (T true l x r))).
Proof.
  intros R Cf Hl Hr C. rewrite insert_fix_step.
  destruct (Rep_parent_ne _ _ _ R) as [_ Nr]; [done|done|]. rewrite eqa_false by (cbn in Nr; congruence).
  pose proof (Rep_node _ _ _ _ _ _ R) as (_ & _ & Ux & _). cbn [parent] in Ux. rewrite Ux.
  destruct (Rep_frame _ _ _ _ R) as [Cp _]. rewrite black_red, Cp, Cf. cbn [negb].
  destruct (rb_plug _ _ _ (T true l x r) true C) as (n' & Hn); [by constructor|done|].
  exists (plug (f :: k) (T true l x r)), false, n'. split_and!; [by apply Rep_up_to|done..].
Qed.

Lemma rbc_parent f k n : rbc (f :: k) true n ->
  fcolor f = true /\ exists c, rbc k false n /\ (c = false) /\
    ((exists a B, f = FL true a B /\ rb B false n) \/ (exists B a, f = FR true B a /\ rb B false n)).
Proof. inversion 1; subst; (split; [done|]); exists false; eauto 10. Qed.

Lemma rbc_black k n : rbc k false n ->
  exists k2 c u cu m, n = m /\ rb u cu m /\ rbc k2 c (S m) /\
    ((exists g, k = FL false g u :: k2) \/ (exists g, k = FR false u g :: k2)).
Proof. inversion 1; subst; eauto 15. Qed.

(** The rebalancing ends in a red-black tree, up to the colour of the root; one
    turn per node of the path, and one more, are enough. *)
Lemma insert_fix_balanced fuel : forall s k l x r c n,
  (length k < fuel)%nat -> Rep s k (T true l x r) -> rb l false n -> rb r false n -> rbc k c n ->
  balanced s (insert_fix fuel x s) (addrs (plug k (T true l x r))).
Proof.
  induction fuel as [|fuel IH]; [lia|]. intros s k l x r c n L R Hl Hr C.
  destruct k as [|f k].
  { rewrite insert_fix_step, (Rep_root _ _ R), eqa_true. exists (T true l x r), true, n.
    split_and!; [done|by constructor|done|done]. }
  destruct c; [|eapply insert_fix_black_parent; [done| |done..]; by inversion C].
  apply rbc_parent in C as (Cf & _ & C & _ & Hf).
  apply rbc_black in C as (k2 & c & u & cu & m & <- & Hu & C & Hg). simpl in L.
  pose proof (rb_color _ _ _ Hu) as Ecu.
  destruct Hg as [[g ->]|[g ->]]; [rewrite (turn_left _ _ _ _ _ _ _ _ _ R Cf)|rewrite (turn_right _ _ _ _ _ _ _ _ _ R Cf)];
    cbn zeta; (destruct (color u) eqn:Eu; [|destruct Hf as [(p & B & -> & HB)|(B & p & -> & HB)]; cbn [faddr]]);
    cbn [length] in L; subst cu.
  - destruct (recolor_up _ _ _ _ _ _ R Eu) as (u' & R' & Hu' & Au).
    eapply balanced_trans; [apply data_recolor|].
    assert (addrs (plug (f :: FL false g u :: k2) (T true l x r)) = addrs (plug k2 (T true (fill (black_frame f) (T true l x r)) g u'))) as ->.
    { destruct f; reassoc; by rewrite Au. }
    eapply (IH _ _ _ _ _ c (S n)); [lia|exact R'| |by apply Hu'|done].
    destruct Hf as [(p & B & -> & HB)|(B & p & -> & HB)]; cbn [black_frame fill]; eapply rb_B; try done; by constructor.
  - destruct (rotate_LL _ _ _ _ _ _ _ _ _ R) as [-> R']. eapply balanced_trans; [apply data_swap_right|].
    replace (addrs _) with (addrs (plug (FL false p (T true B g u) :: k2) (T true l x r))) by (by reassoc).
    eapply IH; [simpl; lia|exact R'|done|done|]. eapply rbc_BL; [by constructor|done].
  - destruct (rotate_LR _ _ _ _ _ _ _ _ _ R) as [-> R'].
    eapply balanced_trans; [etransitivity; [apply data_leftRotate|apply data_swap_right]|].
    replace (addrs _) with (addrs (plug (FL false x (T true r g u) :: k2) (T true B p l))) by (by reassoc).
    eapply IH; [simpl; lia|exact R'|done|done|]. eapply rbc_BL; [by constructor|done].
  - destruct (recolor_up' _ _ _ _ _ _ R Eu) as (u' & R' & Hu' & Au).
    eapply balanced_trans; [apply data_recolor|].
    assert (addrs (plug (f :: FR false u g :: k2) (T true l x r)) = addrs (plug k2 (T true u' g (fill (black_frame f) (T true l x r))))) as ->.
    { destruct f; reassoc; by rewrite Au. }
    eapply (IH _ _ _ _ _ c (S n)); [lia|exact R'|by apply Hu'| |done].
    destruct Hf as [(p & B & -> & HB)|(B & p & -> & HB)]; cbn [black_frame fill]; eapply rb_B; try done; by constructor.
  - destruct (rotate_RL _ _ _ _ _ _ _ _ _ R) as [-> R'].
    eapply balanced_trans; [etransitivity; [apply data_rightRotate|apply data_swap_left]|].
    replace (addrs _) with (addrs (plug (FR false (T true u g l) x :: k2) (T true r p B))) by (by reassoc).
    eapply IH; [simpl; lia|exact R'|done|done|]. eapply rbc_BR; [by constructor|done].
  - destruct (rotate_RR _ _ _ _ _ _ _ _ _ R) as [-> R']. eapply balanced_trans; [apply data_swap_left|].
    replace (addrs _) with (addrs (plug (FR false (T true u g B) p :: k2) (T true l x r))) by (by reassoc).
    eapply IH; [simpl; lia|exact R'|done|done|]. eapply rbc_BR; [by constructor|done].
Qed.

(** ** Fuel *)

Lemma Rep_size s k t :
  Rep s k t -> (length (before k ++ addrs t ++ after k) < size (rb_nodes s))%nat.
Proof.
  intros R. assert (NoDup (nullAddr :: before k ++ addrs t ++ after k)) as ND.
  { constructor; [|apply R]. rewrite !elem_of_app. intros [Hb|[Ht|Ha]].
    - destruct (crep_nonnull _ _ _ nullAddr (R_ctx _ _ _ R)); [rewrite elem_of_app; auto|done].
    - by destruct (rep_nonnull _ _ _ nullAddr (R_tree _ _ _ R) Ht).
    - destruct (crep_nonnull _ _ _ nullAddr (R_ctx _ _ _ R)); [rewrite elem_of_app; auto|done]. }
  assert (list_to_set (nullAddr :: before k ++ addrs t ++ after k) ⊆ dom (rb_nodes s)) as Sub.
  { intros a. rewrite elem_of_list_to_set, elem_of_dom, elem_of_cons, !elem_of_app. intros [->|[Hb|[Ht|Ha]]].
    - apply R.
    - apply (crep_nonnull _ _ _ a (R_ctx _ _ _ R)). rewrite elem_of_app. auto.
    - by apply (rep_nonnull _ _ _ a (R_tree _ _ _ R)).
    - apply (crep_nonnull _ _ _ a (R_ctx _ _ _ R)). rewrite elem_of_app. auto. }
  apply subseteq_size in Sub. rewrite size_list_to_set, size_dom in Sub by done. cbn in Sub. lia.
Qed.

Lemma height_addrs t : (height t <= length (addrs t))%nat.
Proof. induction t as [|c l IHl a r IHr]; cbn; [done|]. rewrite length_app. cbn. lia. Qed.

Lemma length_ctx k : (length k <= length (before k ++ after k))%nat.
Proof.
  induction k as [|[c a r|c l a] k IH]; cbn; [done|..]; rewrite ?length_app in *; cbn; rewrite ?length_app; cbn; lia.
Qed.

Lemma Rep_fuel s k t : Rep s k t -> (length k + height t < node_fuel s)%nat.
Proof.
  intros R. pose proof (Rep_size _ _ _ R) as S. pose proof (height_addrs t). pose proof (length_ctx k).
  unfold node_fuel. rewrite !length_app in *. lia.
Qed.

(** ** Search *)

Definition key_of (s : rbtree) (a : addr) : bytes := n_key (getNode s a).
Definition sorted_keys (s : rbtree) (l : list addr) : Prop := StronglySorted blt (key_of s <$> l).

Lemma sorted_keys_app s l l' :
  sorted_keys s (l ++ l') <->
  (forall a b, a ∈ l -> b ∈ l' -> key_of s a <b key_of s b) /\ sorted_keys s l /\ sorted_keys s l'.
Proof.
  unfold sorted_keys. rewrite fmap_app, StronglySorted_app. split; intros (H & S & S'); split_and!; try done.
  - intros a b Ha Hb. apply H; apply list_elem_of_fmap; eauto.
  - intros ? ? (a & -> & Ha)%list_elem_of_fmap (b & -> & Hb)%list_elem_of_fmap. auto.
Qed.

Lemma sorted_keys_cons s a l :
  sorted_keys s (a :: l) <-> (forall b, b ∈ l -> key_of s a <b key_of s b) /\ sorted_keys s l.
Proof.
  change (a :: l) with ([a] ++ l). rewrite sorted_keys_app. setoid_rewrite list_elem_of_singleton. split.
  - intros (H & _ & S). auto.
  - intros (H & S). split_and!; [naive_solver|repeat constructor|done].
Qed.

(** Where the walk down stops: at the node of the key, or at an empty subtree
    where the key belongs. *)
Lemma walk_spec fuel s key : forall k t,
  (height t < fuel)%nat -> Rep s k t -> sorted_keys s (addrs t) ->
  (forall a, a ∈ before k -> key_of s a <b key) -> (forall a, a ∈ after k -> key <b key_of s a) ->
  (exists k' c l x r, walk fuel s key (root_of t) (parent k) = (x, x, true) /\ plug k' (T c l x r) = plug k t /\
     key_of s x = key) \/
  (exists k', walk fuel s key (root_of t) (parent k) = (nullAddr, parent k', false) /\ plug k' E = plug k t /\
     (forall a, a ∈ before k' -> key_of s a <b key) /\ (forall a, a ∈ after k' -> key <b key_of s a)).
Proof.
  induction fuel as [|fuel IH]; [lia|]. intros k t H R S Hb Ha. cbn [walk].
  destruct t as [|c l x r]; [right; by exists k|]. cbn [root_of].
  pose proof (Rep_node _ _ _ _ _ _ R) as (Nx & _ & _ & Lx & Rx & _). rewrite isNull_false by done.
  cbn [addrs] in S. apply sorted_keys_app in S as (Slx & Sl & [Sxr Sr]%sorted_keys_cons). cbn in H.
  fold (key_of s x). destruct (bytes_compare key (key_of s x)) eqn:Ec.
  - left. exists k, c, l, x, r. apply bytes_compare_eq in Ec. done.
  - rewrite Lx. change x with (parent (FL c x r :: k)) at 1 3.
    apply (IH (FL c x r :: k) l); [lia|by apply Rep_FL|done|done|].
    intros a [->|[Hr|Hk]%elem_of_app]%elem_of_cons; [exact Ec| |by apply Ha].
    eapply blt_trans; [exact Ec|by apply Sxr].
  - rewrite Rx. change x with (parent (FR c l x :: k)) at 1 3.
    apply bytes_compare_Gt in Ec.
    apply (IH (FR c l x :: k) r); [lia|by apply Rep_FR|done| |done].
    intros a [Hk|[Hl| ->%list_elem_of_singleton]%elem_of_app]%elem_of_app; [by apply Hb| |done].
    eapply blt_trans; [|exact Ec]. apply Slx; [done|left].
Qed.

(** ** Insertion *)

(** The key of [z] belongs in the hole of the context. *)
Definition hole_key (s : rbtree) (k : list frame) (z : addr) : Prop :=
  match k with
  | [] => True
  | FL _ y _ :: _ => bytes_compare (key_of s z) (key_of s y) = Lt
  | FR _ _ y :: _ => bytes_compare (key_of s z) (key_of s y) <> Lt
  end.

Lemma key_of_data s s' a : same_data s s' -> key_of s' a = key_of s a.
Proof. intros D. destruct (D a) as [E' _]. unfold key_of. by injection E'. Qed.

Lemma data_link_node z y s : same_data s (link_node z y s).
Proof.
  unfold link_node. etransitivity; [|apply data_set_red]. etransitivity; [|apply data_set_right].
  etransitivity; [|apply data_set_left]. etransitivity; [apply data_set_up|].
  destruct (isNull y); [apply data_set_root|]. destruct (bytes_compare _ _); apply data_set_left || apply data_set_right.
Qed.

(** The link from the hole to the new node. *)
Definition link_hole (z y : addr) (k : list frame) (s : rbtree) : rbtree :=
  match k with [] => set_root z s | FL _ _ _ :: _ => set_left y z s | FR _ _ _ :: _ => set_right y z s end.

Lemma link_node_hole s k z h :
  crep s k h -> hole_key s k z ->
  link_node z (parent k) s =
  set_red z (set_right z nullAddr (set_left z nullAddr (link_hole z (parent k) k (set_up z (parent k) s)))).
Proof.
  intros C K. unfold link_node. cbn zeta. do 3 f_equal.
  assert (forall a, n_key (getNode (set_up z (parent k) s) a) = key_of s a) as Kd.
  { intros a. apply (key_of_data s). apply data_set_up. }
  rewrite !Kd. destruct k as [|[c a r|c l a] k]; [done|..]; cbn [parent faddr link_hole]; destruct C as ((N & _) & _);
    rewrite isNull_false by done; cbn in K; [by rewrite K|]. by destruct (bytes_compare _ _).
Qed.

Lemma getNode_upd_ne s a b f : a <> b -> getNode (upd b f s) a = getNode s a.
Proof. intros N. unfold getNode, upd. cbn [rb_nodes]. by rewrite lookup_alter_ne. Qed.

Lemma same_upd s a b f : a <> b -> same s (upd b f s) a.
Proof.
  intros N. unfold same, up, left, right, red. rewrite getNode_upd_ne by done. by rewrite present_upd.
Qed.

(** Only the link to the hole changes. *)
Lemma link_hole_relinked s k z h :
  crep s k h -> relinked s (link_hole z (parent k) k s) k z /\
  forall a, a <> parent k -> same s (link_hole z (parent k) k s) a.
Proof.
  destruct k as [|[c a0 r|c l a0] k]; cbn [crep parent faddr link_hole relinked]; intros C.
  - split; [done|]. by intros a _.
  - destruct C as ((_ & P & _) & _). split; [|intros a Na; by apply same_upd].
    autorewrite with heap. by rewrite decide_True.
  - destruct C as ((_ & P & _) & _). split; [|intros a Na; by apply same_upd].
    autorewrite with heap. by rewrite decide_True.
Qed.

Lemma Rep_link s k z :
  Rep s k E -> z <> nullAddr -> present s z -> z ∉ before k ++ after k -> hole_key s k z ->
  Rep (link_node z (parent k) s) k (T true E z E).
Proof.
  intros R Nz Pz Fz K. rewrite (link_node_hole _ _ _ _ (R_ctx _ _ _ R) K).
  pose proof (parent_elem _ _ _ (R_ctx _ _ _ R)) as Hp. destruct R as [C _ ND [Zp Zr]].
  assert (z <> parent k) as Npz by (destruct Hp as [->|Hp]; [congruence|by intros ->]).
  assert (forall a, a ∈ before k ++ after k -> a <> z) as Nk by (by intros a Ha ->).
  set (s1 := set_up z (parent k) s).
  assert (crep s1 k (root_of E)) as C1 by (eapply (crep_same s); [intros a Ha; by apply same_upd, Nk|done|exact C]).
  destruct (link_hole_relinked s1 k z _ C1) as [Rl Sl]. set (s2 := link_hole z (parent k) k s1) in *.
  assert (crep s2 k z) as C2 by (eapply (crep_relinked s1); [done|intros a _ Na; by apply Sl|exact Rl|exact C1]).
  assert (present s1 z) as P1 by by apply present_set_up.
  destruct (Sl z Npz) as (P2 & U2 & _). specialize (P2 P1).
  assert (up s2 z = parent k) as U2' by (rewrite U2; unfold s1; rewrite up_set_up, decide_True; done).
  assert (present s2 nullAddr /\ red s2 nullAddr = false) as Z2.
  { assert (present s1 nullAddr /\ red s1 nullAddr = false) as [Z1 Zr1] by (unfold s1; by autorewrite with heap).
    destruct (decide (nullAddr = parent k)) as [En|Nn].
    - symmetry in En. apply (crep_parent_null _ _ _ C1) in En as ->. done.
    - destruct (Sl nullAddr Nn) as (Pn & _ & _ & _ & ->). auto. }
  split; cbn [root_of addrs rep app].
  - eapply (crep_same s2); [|by autorewrite with heap|exact C2]. intros a Ha. apply Nk in Ha.
    do 2 (eapply same_trans; [|by apply same_upd]). by apply same_upd.
  - split; [|done]. split; [done|]. autorewrite with heap.
    rewrite red_set_red, !decide_True by (autorewrite with heap; done). done.
  - rewrite Permutation_app_comm. cbn. constructor; [by rewrite (Permutation_app_comm (after k))|].
    by rewrite (Permutation_app_comm (after k)).
  - autorewrite with heap. rewrite red_set_red by (autorewrite with heap; done).
    rewrite decide_False by done. autorewrite with heap. done.
Qed.

(** A red-black search tree over the nodes [l], in the order of their keys. *)
Definition Tree (s : rbtree) (l : list addr) : Prop :=
  exists t n, Rep s [] t /\ rb t false n /\ addrs t = l /\ sorted_keys s l.

Lemma sorted_keys_data s s' l : same_data s s' -> sorted_keys s l -> sorted_keys s' l.
Proof.
  intros D S. unfold sorted_keys. erewrite list_fmap_ext; [exact S|]. intros i a _. by apply key_of_data.
Qed.

Lemma Tree_keys s l a b : Tree s l -> a ∈ l -> b ∈ l -> key_of s a = key_of s b -> a = b.
Proof.
  intros (_ & _ & _ & _ & _ & S) (l1 & l2 & ->)%list_elem_of_split Hb Ek.
  apply sorted_keys_app in S as (S1 & _ & [S2 _]%sorted_keys_cons).
  apply elem_of_app in Hb as [Hb|[->|Hb]%elem_of_cons]; [|done|].
  - specialize (S1 b a Hb ltac:(left)). rewrite Ek in S1. by apply blt_irrefl in S1.
  - specialize (S2 b Hb). rewrite Ek in S2. by apply blt_irrefl in S2.
Qed.

Lemma Tree_nonnull s l a : Tree s l -> a ∈ l -> a <> nullAddr /\ present s a.
Proof. intros (t & n & R & _ & <- & _) Ha. by apply (rep_nonnull s nullAddr t); [apply R|]. Qed.

Lemma Tree_NoDup s l : Tree s l -> NoDup l.
Proof. intros (t & n & [_ _ ND _] & _ & <- & _). by rewrite app_nil_r in ND. Qed.

Definition blacken (t : rtree) : rtree := match t with E => E | T _ l a r => T false l a r end.

Lemma Rep_black_root s t c n :
  Rep s [] t -> rb t c n ->
  Rep (set_black (rb_root s) s) [] (blacken t) /\ (exists n', rb (blacken t) false n') /\ addrs (blacken t) = addrs t.
Proof.
  intros R B. rewrite (Rep_root _ _ R). destruct t as [|c' l a r]; cbn [root_of blacken].
  - split_and!; [|by eexists; constructor|done]. destruct R as [C _ _ [Zp Zr]]. split; [exact C|done|constructor|].
    autorewrite with heap. split; [done|]. by case_decide.
  - split_and!; [by eapply Rep_set_black| |done]. inversion B; subst; eexists; by econstructor.
Qed.

Lemma Tree_walk s l key :
  Tree s l ->
  (exists x, walk (node_fuel s) s key (rb_root s) nullAddr = (x, x, true) /\ x ∈ l /\ key_of s x = key) \/
  (exists t n k, walk (node_fuel s) s key (rb_root s) nullAddr = (nullAddr, parent k, false) /\
     Rep s [] t /\ rb t false n /\ addrs t = l /\ plug k E = t /\
     (forall a, a ∈ before k -> key_of s a <b key) /\ (forall a, a ∈ after k -> key <b key_of s a)).
Proof.
  intros (t & n & R & B & <- & S). rewrite (Rep_root _ _ R). pose proof (Rep_fuel _ _ _ R) as F.
  destruct (walk_spec (node_fuel s) s key [] t) as [(k' & c & l & x & r & Ew & P & Ek)|(k' & Ew & P & Hb & Ha)];
    [simpl in F; lia|done|done|by intros a []%not_elem_of_nil|by intros a []%not_elem_of_nil|..].
  - left. exists x. split_and!; [exact Ew| |done]. cbn in P. rewrite <- P, addrs_plug. cbn.
    rewrite !elem_of_app, elem_of_cons. auto.
  - right. exists t, n, k'. done.
Qed.

Lemma find_spec s l key :
  Tree s l ->
  (find s key ∈ l /\ key_of s (find s key) = key) \/
  (find s key = nullAddr /\ forall a, a ∈ l -> key_of s a <> key).
Proof.
  intros Tr. unfold find. destruct (Tree_walk s l key Tr) as [(x & -> & Hx & Ek)|(t & n & k & -> & R & B & <- & <- & Hb & Ha)];
    [by left|right]. split; [done|]. intros a. rewrite addrs_plug. cbn. rewrite elem_of_app.
  intros [H|H]; [apply Hb in H|apply Ha in H]; apply blt_neq in H; congruence.
Qed.

(** A fresh node in the heap. *)
Definition add_node (z : addr) (n : memdbNode) (s : rbtree) : rbtree := MkTree (rb_root s) (<[z := n]> (rb_nodes s)).

Lemma getNode_add_ne s z n a : a <> z -> getNode (add_node z n s) a = getNode s a.
Proof. intros N. unfold getNode, add_node. cbn [rb_nodes]. by rewrite lookup_insert_ne. Qed.

Lemma getNode_add s z n : getNode (add_node z n s) z = n.
Proof. unfold getNode, add_node. cbn [rb_nodes]. by rewrite lookup_insert_eq. Qed.

Lemma same_add s z n a : a <> z -> same s (add_node z n s) a.
Proof.
  intros N. unfold same, up, left, right, red. rewrite getNode_add_ne by done. split; [|done].
  unfold present, add_node. cbn [rb_nodes]. by rewrite lookup_insert_ne.
Qed.

Lemma Rep_add s k t z n : Rep s k t -> ~ present s z -> Rep (add_node z n s) k t.
Proof.
  intros R Fz. destruct R as [C Tr ND [Zp Zr]].
  assert (forall a, present s a -> same s (add_node z n s) a) as S by (intros a Pa; apply same_add; by intros ->).
  split; [|..].
  - eapply (crep_same s); [|done|done]. intros a Ha. apply S. by apply (crep_nonnull _ _ _ _ C).
  - eapply rep_same; [|done]. intros a Ha. apply S. by apply (rep_nonnull _ _ _ _ Tr).
  - done.
  - destruct (S nullAddr Zp) as (P & _ & _ & _ & ->). auto.
Qed.

(** Linking and rebalancing a fresh node where the walk for its key stopped. *)
Lemma insert_node_spec s t n k z nd :
  Rep s [] t -> rb t false n -> sorted_keys s (addrs t) -> plug k E = t -> ~ present s z -> z <> nullAddr ->
  (forall a, a ∈ before k -> key_of s a <b n_key nd) -> (forall a, a ∈ after k -> n_key nd <b key_of s a) ->
  let s1 := add_node z nd s in
  Tree (insert_node z (parent k) s1) (before k ++ z :: after k) /\ same_data s1 (insert_node z (parent k) s1).
Proof.
  intros R B S Ep Fz Nz Hb Ha s1. subst t. apply Rep_down_to in R.
  pose proof (Rep_add s k E z nd R Fz) as R1. fold s1 in R1.
  assert (z ∉ before k ++ after k) as Nk.
  { intros Hz. apply (crep_nonnull _ _ _ _ (R_ctx _ _ _ R)) in Hz. tauto. }
  assert (forall a, a ∈ before k ++ after k -> key_of s1 a = key_of s a) as Kd.
  { intros a Ha'. unfold key_of, s1. rewrite getNode_add_ne; [done|]. by intros ->. }
  assert (key_of s1 z = n_key nd) as Kz by (unfold key_of, s1; by rewrite getNode_add).
  assert (hole_key s1 k z) as HK.
  { destruct k as [|[c a r|c l a] k]; [done|..]; cbn [hole_key]; rewrite Kz, Kd by
      (cbn; rewrite ?elem_of_app, elem_of_cons, ?elem_of_app; auto).
    - apply bytes_compare_Lt, Ha. left.
    - intros E'%bytes_compare_Lt. apply (blt_irrefl (n_key nd)). eapply blt_trans; [exact E'|].
      apply Hb. cbn. rewrite !elem_of_app, list_elem_of_singleton. auto. }
  assert (present s1 z) as Pz by (unfold present, s1, add_node; cbn; by rewrite lookup_insert_eq).
  pose proof (Rep_link s1 k z R1 Nz Pz Nk HK) as R2. unfold insert_node.
  destruct (rb_unplug k E n B) as (c & m & ct & C & B' & _). inversion B'; subst.
  assert (length k < node_fuel s1)%nat as F by (pose proof (Rep_fuel _ _ _ R1); lia).
  destruct (insert_fix_balanced _ _ k E z E c 0 F R2 ltac:(constructor) ltac:(constructor) C) as (t' & c' & n' & R' & B2 & A' & D').
  set (s' := insert_fix _ _ _) in *.
  assert (same_data s1 s') as D by (etransitivity; [apply data_link_node|exact D']).
  destruct (Rep_black_root s' t' c' n' R' B2) as (R3 & [n3 B3] & A3).
  split; [|by etransitivity; [exact D|apply data_set_black]].
  rewrite addrs_plug in A'. cbn [addrs app] in A'. exists (blacken t'), n3. rewrite A3, A'. split_and!; [done..|].
  eapply sorted_keys_data; [etransitivity; [exact D|apply data_set_black]|].
  rewrite addrs_plug in S. cbn [addrs app] in S. apply sorted_keys_app in S as (Sba & Sb & Sa).
  assert (forall l, (forall a, a ∈ l -> a ∈ before k ++ after k) -> sorted_keys s l -> sorted_keys s1 l) as Sl.
  { intros l Hl Hs. unfold sorted_keys. replace (key_of s1 <$> l) with (key_of s <$> l); [done|].
    apply list_fmap_ext. intros i a Hi. symmetry. apply Kd, Hl. by eapply list_elem_of_lookup_2. }
  apply sorted_keys_app. split_and!.
  - intros a b Ha' [->|Hb']%elem_of_cons; rewrite ?Kz, !Kd by (rewrite elem_of_app; auto); [by apply Hb|by apply Sba].
  - apply Sl; [|done]. intros a ?. rewrite elem_of_app. auto.
  - apply sorted_keys_cons. split; [|apply Sl; [intros a ?; rewrite elem_of_app; auto|done]].
    intros b Hb'. rewrite Kz, Kd by (rewrite elem_of_app; auto). by apply Ha.
Qed.
