(* ===== verification/MemTreeDelete.v ===== *)
(** * Deletion

    The rebalancing of [deleteNodeFix] takes a subtree that lacks a black node
    to a red-black tree with the same nodes in the same order; [deleteNode]
    takes a node out of the order and leaves the others at their addresses. *)

From stdpp Require Import base gmap list sorting strings.
From Stdlib Require Import Strings.Byte ZArith Lia Sorted.
From S2P Require Import Prelude External Marshal MemArena MemTree MemTreeRep MemTreeInsert.
Open Scope Z_scope.

(** ** A subtree that lacks a black node *)

(** An empty focus is found again by the link of the null node upwards. *)
Definition Focus (s : rbtree) (k : list frame) (t : rtree) : Prop :=
  Rep s k t /\ (t = E -> up s nullAddr = parent k).

Lemma Focus_up s k t : Focus s k t -> up s (root_of t) = parent k.
Proof. intros [R H]. destruct t as [|c l a r]; [by apply H|]. by apply Rep_node in R as (_ & _ & ? & _). Qed.

(** The context wants one more black node than [t] has, or [t] has a red root
    that can be made black. *)
Definition lacks (k : list frame) (t : rtree) : Prop :=
  exists c m, rbc k c (S m) /\
    ((color t = false /\ rb t false m) \/ (color t = true /\ rb (blacken t) false (S m))).

(** Making [x] black completes the tree over [l]. *)
Definition completed (s : rbtree) (xs : addr * rbtree) (l : list addr) : Prop :=
  exists t n, Rep (set_black xs.1 xs.2) [] t /\ rb t false n /\ addrs t = l /\ same_data s xs.2.

Lemma completed_trans s s1 xs l : same_data s s1 -> completed s1 xs l -> completed s xs l.
Proof. intros D (t & n & R & B & A & D'). exists t, n. split_and!; [done..|by etransitivity]. Qed.

(** The loop stops at the root and at a red node. *)
Lemma delete_fix_root fuel s t c n :
  Rep s [] t -> rb t c n -> completed s (delete_fix fuel (root_of t) s) (addrs t).
Proof.
  intros R B. assert (delete_fix fuel (root_of t) s = (root_of t, s)) as ->.
  { destruct fuel; [done|]. cbn [delete_fix]. by rewrite (Rep_root _ _ R), eqa_true. }
  destruct (Rep_black_root s t c n R B) as (R' & [n' B'] & A). rewrite (Rep_root _ _ R) in R'.
  exists (blacken t), n'. done.
Qed.

Lemma delete_fix_red fuel s k l x r m c :
  Rep s k (T true l x r) -> rb (T false l x r) false (S m) -> rbc k c (S m) ->
  completed s (delete_fix fuel x s) (addrs (plug k (T true l x r))).
Proof.
  intros R B C. assert (delete_fix fuel x s = (x, s)) as ->.
  { destruct fuel; [done|]. cbn [delete_fix].
    pose proof (Rep_node _ _ _ _ _ _ R) as (_ & _ & _ & _ & _ & Cx). by rewrite Cx, orb_true_r. }
  destruct (rb_plug k c (S m) (T false l x r) false C B) as [n' B']; [done|].
  exists (plug k (T false l x r)), n'. split_and!; [|done|by rewrite !addrs_plug|done].
  by eapply Rep_up_to, Rep_set_black.
Qed.

(** ** Either side *)

(** Trees, frames, links and rotations with a direction: [near] is the left
    side when [d], and a rotation [rot d] moves a node to the near side. *)
Definition Tn (d c : bool) (near : rtree) (a : addr) (far : rtree) : rtree :=
  if d then T c near a far else T c far a near.
Definition Fn (d c : bool) (a : addr) (far : rtree) : frame := if d then FL c a far else FR c far a.
Definition near (d : bool) (s : rbtree) (a : addr) : addr := if d then left s a else right s a.
Definition rot (d : bool) (x : addr) (s : rbtree) : rbtree := if d then leftRotate x s else rightRotate x s.

Lemma Tn_flip d c l a r : Tn d c l a r = Tn (negb d) c r a l.
Proof. by destruct d. Qed.
Lemma color_Tn d c l a r : color (Tn d c l a r) = c.
Proof. by destruct d. Qed.
Lemma root_Tn d c l a r : root_of (Tn d c l a r) = a.
Proof. by destruct d. Qed.
Lemma Tn_nonempty d c l a r : Tn d c l a r <> E.
Proof. by destruct d. Qed.
Lemma blacken_Tn d c l a r : blacken (Tn d c l a r) = Tn d false l a r.
Proof. by destruct d. Qed.
Lemma parent_Fn d c a r k : parent (Fn d c a r :: k) = a.
Proof. by destruct d. Qed.
Lemma tree_Tn d t : t = E \/ exists l a r, t = Tn d (color t) l a r.
Proof. destruct t as [|c l a r]; [by left|right]. destruct d; [by exists l, a, r|by exists r, a, l]. Qed.

Lemma Rep_near d s k c l a r : Rep s k (Tn d c l a r) <-> Rep s (Fn d c a r :: k) l.
Proof. destruct d; [apply Rep_FL|apply Rep_FR]. Qed.
Lemma Rep_far d s k c l a r : Rep s k (Tn d c l a r) <-> Rep s (Fn (negb d) c a l :: k) r.
Proof. rewrite Tn_flip. apply Rep_near. Qed.

Lemma Rep_node_n d s k c l a r :
  Rep s k (Tn d c l a r) -> near d s a = root_of l /\ near (negb d) s a = root_of r /\ red s a = c.
Proof. destruct d; intros R%Rep_node; destruct R as (_ & _ & _ & ? & ? & ?); done. Qed.

Lemma Rep_set_red_n d s k c l a r : Rep s k (Tn d c l a r) -> Rep (set_red a s) k (Tn d true l a r).
Proof. destruct d; apply Rep_set_red. Qed.
Lemma Rep_set_black_n d s k c l a r : Rep s k (Tn d c l a r) -> Rep (set_black a s) k (Tn d false l a r).
Proof. destruct d; apply Rep_set_black. Qed.

Lemma Rep_rot d s k cx A x cy B y C :
  Rep s k (Tn d cx A x (Tn d cy B y C)) ->
  Rep (rot d x s) k (Tn d cy (Tn d cx A x B) y C) /\ up (rot d x s) nullAddr = up s nullAddr.
Proof. destruct d; [apply Rep_leftRotate|apply Rep_rightRotate]. Qed.

Lemma data_rot d x s : same_data s (rot d x s).
Proof. destruct d; [apply data_leftRotate|apply data_rightRotate]. Qed.

Lemma near_set_red d b s a : near d (set_red b s) a = near d s a.
Proof. destruct d; cbn; by autorewrite with heap. Qed.
Lemma near_set_black d b s a : near d (set_black b s) a = near d s a.
Proof. destruct d; cbn; by autorewrite with heap. Qed.

Lemma rb_Tn_red d l a r n : rb l false n -> rb r false n -> rb (Tn d true l a r) true n.
Proof. destruct d; by constructor. Qed.
Lemma rb_Tn_black d l a r cl cr n : rb l cl n -> rb r cr n -> rb (Tn d false l a r) false (S n).
Proof. destruct d; intros; by econstructor. Qed.
Lemma rb_Tn_inv d c l a r b n :
  rb (Tn d c l a r) b n ->
  b = c /\ exists cl cr m, rb l cl m /\ rb r cr m /\ (if c then n = m /\ cl = false /\ cr = false else n = S m).
Proof. destruct d; inversion 1; subst; (split; [done|]); eauto 10. Qed.

Lemma rbc_Fn_black d a r cr k c n : rb r cr n -> rbc k c (S n) -> rbc (Fn d false a r :: k) false n.
Proof. destruct d; intros; by econstructor. Qed.
Lemma rbc_Fn_red d a r k n : rb r false n -> rbc k false n -> rbc (Fn d true a r :: k) true n.
Proof. destruct d; intros; by constructor. Qed.
Lemma rbc_Fn_inv d cf a r k c n :
  rbc (Fn d cf a r :: k) c n ->
  c = cf /\ exists cr c1, rb r cr n /\ rbc k c1 (if cf then n else S n) /\ (cf = true -> cr = false /\ c1 = false).
Proof. destruct d; inversion 1; subst; (split; [done|]); eexists _, _; (split_and!; [done..|]); done. Qed.

(** ** A turn with a black sibling *)

(** What a turn leads to: the parent lacks a black node, or all is done. *)
Definition turned (s : rbtree) (xs : addr * rbtree) (k : list frame) (cp : bool) (p : addr) (l : list addr) : Prop :=
  same_data s xs.2 /\
  ((exists t, xs.1 = p /\ root_of t = p /\ t <> E /\ color t = cp /\ Rep xs.2 k t /\ lacks k t /\ addrs (plug k t) = l) \/
   (exists t n, xs.1 = root_of t /\ Rep xs.2 [] t /\ rb t false n /\ addrs t = l)).

Lemma turned_trans s s1 xs k cp p l : same_data s s1 -> turned s1 xs k cp p l -> turned s xs k cp p l.
Proof. intros D [D' H]. split; [by etransitivity|done]. Qed.

Ltac reassoc_n d := destruct d; cbn [Tn Fn negb]; reassoc.

Section turn.
Context (d : bool) (s : rbtree) (k : list frame) (cp : bool) (p : addr) (t nw : rtree) (w : addr) (fw : rtree) (n : nat).
Context (Ht : rb t false n).
Abbreviation sibling := (Tn d false nw w fw).

Lemma sibling_colors c :
  rbc (Fn d cp p sibling :: k) c (S n) ->
  exists cl cr c1, rb nw cl n /\ rb fw cr n /\ rbc k c1 (if cp then S n else S (S n)) /\ (cp = true -> c1 = false).
Proof.
  intros C. apply rbc_Fn_inv in C as (_ & cr & c1 & HW & C1 & H1).
  apply rb_Tn_inv in HW as (_ & cl & cf & m & Hl & Hr & [= <-]). exists cl, cf, c1. split_and!; [done..|]. naive_solver.
Qed.

(** Both nephews black: the sibling becomes red. *)
Lemma turn_recolor c :
  Focus s (Fn d cp p sibling :: k) t -> rbc (Fn d cp p sibling :: k) c (S n) ->
  color nw = false -> color fw = false ->
  turned s (p, set_red w s) k cp p (addrs (plug (Fn d cp p sibling :: k) t)).
Proof.
  intros [R _] C Cl Cr. split; [apply data_set_red|]. left. cbn [fst snd].
  exists (Tn d cp t p (Tn d true nw w fw)).
  destruct (sibling_colors _ C) as (cl & cr & c1 & Hl & Hr & C1 & H1).
  rewrite (rb_color _ _ _ Hl) in Cl. rewrite (rb_color _ _ _ Hr) in Cr. subst.
  split_and!; [done|apply root_Tn|apply Tn_nonempty|apply color_Tn| | |by reassoc_n d].
  - apply Rep_near in R. apply <- Rep_far. eapply Rep_set_red_n. apply -> Rep_far. exact R.
  - unfold lacks. setoid_rewrite color_Tn. setoid_rewrite blacken_Tn.
    destruct cp; [exists c1, n|exists c1, (S n)]; (split; [done|]); [right|left]; (split; [done|]);
      eapply rb_Tn_black; done || by apply rb_Tn_red.
Qed.

(** The far nephew red: the last rotation. *)
Lemma turn_last c nl z nr :
  Focus s (Fn d cp p sibling :: k) t -> rbc (Fn d cp p sibling :: k) c (S n) -> fw = Tn d true nl z nr ->
  let s1 := if negb cp then set_black w s else set_red w s in
  let s' := rot d p (set_black z (set_black p s1)) in
  turned s (rb_root s', s') k cp p (addrs (plug (Fn d cp p sibling :: k) t)).
Proof.
  intros [R _] C Ew s1 s'. destruct (sibling_colors _ C) as (cl & cr & c1 & Hl & Hr & C1 & H1). subst fw.
  assert (same_data s s') as D.
  { unfold s', s1. etransitivity; [|apply data_rot]. etransitivity; [|apply data_set_black].
    etransitivity; [|apply data_set_black]. destruct cp; [apply data_set_red|apply data_set_black]. }
  split; [done|]. right. cbn [fst snd].
  assert (Rep s' k (Tn d cp (Tn d false t p nw) w (Tn d false nl z nr))) as R'.
  { apply Rep_rot. apply Rep_near in R.
    assert (Rep s1 k (Tn d cp t p (Tn d cp nw w (Tn d true nl z nr)))) as R1.
    { apply <- Rep_far. apply -> Rep_far in R. unfold s1. destruct cp; [by eapply Rep_set_red_n|by eapply Rep_set_black_n]. }
    apply <- Rep_far. apply <- Rep_far. eapply Rep_set_black_n. apply -> Rep_far. apply -> Rep_far.
    by eapply Rep_set_black_n. }
  apply rb_Tn_inv in Hr as (-> & cnl & cnr & m & Hnl & Hnr & <- & -> & ->).
  assert (exists n', rb (plug k (Tn d cp (Tn d false t p nw) w (Tn d false nl z nr))) false n') as [n' B'].
  { destruct cp; (eapply rb_plug; [exact C1| |]).
    - apply rb_Tn_red; by eapply rb_Tn_black.
    - intros H. by specialize (H1 eq_refl); congruence.
    - eapply rb_Tn_black; by eapply rb_Tn_black.
    - done. }
  exists (plug k (Tn d cp (Tn d false t p nw) w (Tn d false nl z nr))), n'.
  split_and!; [|by apply Rep_up_to|done|by reassoc_n d].
  by rewrite (Rep_root _ _ (Rep_up_to _ _ _ R')).
Qed.
End turn.

(** The rotation that makes the far nephew red. *)
Lemma fix_nephew d s k cp p t a v b w fw n c :
  Focus s (Fn d cp p (Tn d false (Tn d true a v b) w fw) :: k) t ->
  rbc (Fn d cp p (Tn d false (Tn d true a v b) w fw) :: k) c (S n) -> color fw = false ->
  let s0 := rot (negb d) w (set_red w (set_black v s)) in
  Focus s0 (Fn d cp p (Tn d false a v (Tn d true b w fw)) :: k) t /\
  rbc (Fn d cp p (Tn d false a v (Tn d true b w fw)) :: k) c (S n).
Proof.
  intros [R Hu] C Cr s0. unfold Focus. rewrite parent_Fn in *. apply Rep_near in R. apply -> Rep_far in R.
  assert (Rep (set_red w (set_black v s)) (Fn (negb d) cp p t :: k) (Tn d true (Tn d false a v b) w fw)) as R1.
  { eapply Rep_set_red_n. apply <- Rep_near. eapply Rep_set_black_n. by apply -> Rep_near. }
  rewrite Tn_flip, (Tn_flip d) in R1. apply Rep_rot in R1 as [R1 U]. fold s0 in R1, U.
  rewrite <- !Tn_flip in R1. split; [split|].
  - apply -> Rep_near. by apply <- Rep_far.
  - intros Et. rewrite U. autorewrite with heap. auto.
  - assert (forall m, rb (Tn d false (Tn d true a v b) w fw) false m -> rb (Tn d false a v (Tn d true b w fw)) false m) as H.
    { intros m (_ & cl & cr & m' & Hl & Hr & ->)%rb_Tn_inv. rewrite (rb_color _ _ _ Hr) in Cr. subst.
      apply rb_Tn_inv in Hl as (-> & ca & cb & m & Ha & Hb & -> & -> & ->).
      eapply rb_Tn_black; [done|]. by apply rb_Tn_red. }
    apply rbc_Fn_inv in C as (-> & cs & c1 & HW & C1 & H1).
    assert (cs = false) as -> by (by apply rb_Tn_inv in HW as [-> _]).
    destruct cp; [destruct (H1 eq_refl) as [_ ->]; apply rbc_Fn_red|eapply rbc_Fn_black]; eauto.
Qed.

(** Both turns of the code at once. *)
Definition turn_n (d : bool) (x w : addr) (t : rbtree) : addr * rbtree :=
  if black t (near d t w) && black t (near (negb d) t w) then
    let t := set_red w t in (up t x, t)
  else
    let '(w, t) := if black t (near (negb d) t w) then
                     let t := rot (negb d) w (set_red w (set_black (near d t w) t)) in (near (negb d) t (up t x), t)
                   else (w, t) in
    let xUp := up t x in
    let t := if black t xUp then set_black w t else set_red w t in
    let t := set_black xUp t in
    let t := set_black (near (negb d) t w) t in
    let t := rot d xUp t in
    (rb_root t, t).

Lemma turn_n_left x w t : turn_n true x w t = delete_turn_left x w t.
Proof. reflexivity. Qed.
Lemma turn_n_right x w t : turn_n false x w t = delete_turn_right x w t.
Proof. reflexivity. Qed.

Lemma turn_n_spec d s k cp p t nw w fw n c :
  rb t false n -> Focus s (Fn d cp p (Tn d false nw w fw) :: k) t ->
  rbc (Fn d cp p (Tn d false nw w fw) :: k) c (S n) ->
  turned s (turn_n d (root_of t) w s) k cp p (addrs (plug (Fn d cp p (Tn d false nw w fw) :: k) t)).
Proof.
  intros Ht F C. pose proof (Focus_up _ _ _ F) as Ux. rewrite parent_Fn in Ux.
  pose proof (proj1 F) as R. apply Rep_near in R.
  pose proof (Rep_node_n _ _ _ _ _ _ _ R) as (_ & Rp & Cp). apply -> Rep_far in R.
  pose proof (Rep_node_n _ _ _ _ _ _ _ R) as (Lw & Rw & _).
  pose proof (Rep_color_root _ _ _ (proj1 (Rep_near _ _ _ _ _ _ _) R)) as Cl.
  pose proof (Rep_color_root _ _ _ (proj1 (Rep_far _ _ _ _ _ _ _) R)) as Cr.
  unfold turn_n. rewrite !black_red, Lw, Rw, Cl, Cr. cbn zeta.
  destruct (color fw) eqn:Er; [|destruct (color nw) eqn:El]; cbn [negb andb].
  - rewrite andb_false_r. destruct (tree_Tn d fw) as [->|(nl & z & nr & Ew)]; [done|]. rewrite Er in Ew.
    rewrite Ux, black_red, Cp.
    replace (near (negb d) (set_black p (if negb cp then set_black w s else set_red w s)) w) with z.
    + by eapply turn_last.
    + rewrite near_set_black. destruct cp; cbn [negb]; rewrite ?near_set_red, ?near_set_black, Rw, Ew; by rewrite root_Tn.
  - destruct (tree_Tn d nw) as [->|(a & v & b & Ew)]; [done|]. rewrite El in Ew. subst nw. rewrite root_Tn.
    destruct (fix_nephew _ _ _ _ _ _ _ _ _ _ _ _ _ F C Er) as [F0 C0].
    set (s0 := rot (negb d) w (set_red w (set_black v s))) in *.
    eapply (turned_trans s s0).
    { etransitivity; [|apply data_rot]. etransitivity; [|apply data_set_red]. apply data_set_black. }
    pose proof (Focus_up _ _ _ F0) as U0. rewrite parent_Fn in U0. rewrite U0.
    pose proof (proj1 F0) as R0. apply Rep_near in R0.
    pose proof (Rep_node_n _ _ _ _ _ _ _ R0) as (_ & Rp0 & Cp0). rewrite root_Tn in Rp0. rewrite Rp0, black_red, Cp0.
    apply -> Rep_far in R0. pose proof (Rep_node_n _ _ _ _ _ _ _ R0) as (_ & Rv & _). rewrite root_Tn in Rv.
    replace (near (negb d) (set_black p (if negb cp then set_black v s0 else set_red v s0)) v) with w.
    + replace (addrs (plug (Fn d cp p (Tn d false (Tn d true a v b) w fw) :: k) t))
        with (addrs (plug (Fn d cp p (Tn d false a v (Tn d true b w fw)) :: k) t)) by (by reassoc_n d).
      by eapply turn_last.
    + rewrite near_set_black. destruct cp; cbn [negb]; by rewrite ?near_set_red, ?near_set_black, Rv.
  - rewrite up_set_red, Ux. by eapply turn_recolor.
Qed.

(** ** The loop *)

(** A red sibling is rotated away first; then the parent is red. *)
Lemma red_sibling d s k cp p t nw w fw n c :
  Focus s (Fn d cp p (Tn d true nw w fw) :: k) t -> rbc (Fn d cp p (Tn d true nw w fw) :: k) c (S n) ->
  let s0 := rot d p (set_red p (set_black w s)) in
  Focus s0 (Fn d true p nw :: Fn d false w fw :: k) t /\
  rbc (Fn d true p nw :: Fn d false w fw :: k) true (S n) /\ rb nw false (S n).
Proof.
  intros [R Hu] C s0. unfold Focus. rewrite parent_Fn in *. apply Rep_near in R.
  assert (Rep (set_red p (set_black w s)) k (Tn d true t p (Tn d false nw w fw))) as R1.
  { eapply Rep_set_red_n. apply <- Rep_far. eapply Rep_set_black_n. by apply -> Rep_far. }
  apply Rep_rot in R1 as [R1 U]. fold s0 in R1, U.
  apply rbc_Fn_inv in C as (-> & cs & c1 & HW & C1 & H1).
  apply rb_Tn_inv in HW as (-> & cl & cr & m & Hl & Hr & <- & -> & ->).
  destruct cp; [by destruct (H1 eq_refl)|]. split; [split|].
  - apply -> Rep_near. by apply -> Rep_near.
  - intros Et. rewrite U. autorewrite with heap. auto.
  - split; [|done]. apply rbc_Fn_red; [done|]. eapply rbc_Fn_black; [exact Hr|exact C1].
Qed.

Lemma Focus_root_ne s f k t : Focus s (f :: k) t -> rb_root s <> root_of t.
Proof.
  intros [R _]. destruct t as [|c l a r]; [|by apply (Rep_parent_ne _ _ _ R)].
  apply Rep_up_to in R. rewrite (Rep_root _ _ R). cbn [plug] in *. clear -R.
  assert (forall k t, t <> E -> plug k t <> E) as H.
  { clear. intros k. induction k as [|f k IH]; intros t N; [done|]. apply IH. by destruct f. }
  pose proof (H k (fill f E) ltac:(by destruct f)) as N. cbn [root_of]. destruct (plug k (fill f E)) eqn:Ep; [done|].
  by apply Rep_node in R as [? _].
Qed.

Lemma delete_fix_step fuel d s k cp p W t :
  Focus s (Fn d cp p W :: k) t -> W <> E -> color t = false ->
  delete_fix (S fuel) (root_of t) s =
  (let '(w, s') := if color W then
                     let s' := rot d p (set_red p (set_black (root_of W) s)) in (near (negb d) s' (up s' (root_of t)), s')
                   else (root_of W, s) in
   let '(x, s'') := turn_n d (root_of t) w s' in delete_fix fuel x s'').
Proof.
  intros F NW Ct. pose proof (Focus_up _ _ _ F) as Ux. rewrite parent_Fn in Ux.
  cbn [delete_fix]. rewrite eqa_false.
  2: { intros Ex. symmetry in Ex. revert Ex. destruct d; by eapply Focus_root_ne. }
  rewrite (Rep_color_root _ _ _ (proj1 F)), Ct, Ux. cbn [orb]. cbn zeta.
  pose proof (proj1 F) as R. destruct d; cbn [Fn negb near rot] in *.
  - apply Rep_FL in R. pose proof (Rep_node _ _ _ _ _ _ R) as (_ & _ & _ & L & Rr & _). rewrite L, eqa_true, Rr.
    apply -> Rep_FR in R. rewrite (Rep_color_root _ _ _ R). destruct (color W); rewrite <- turn_n_left; done.
  - pose proof (Rep_sibling_ne _ _ _ _ _ _ R) as Ns. apply Rep_FR in R.
    pose proof (Rep_node _ _ _ _ _ _ R) as (_ & _ & _ & L & Rr & _). rewrite L, eqa_false.
    + apply -> Rep_FL in R. rewrite (Rep_color_root _ _ _ R). destruct (color W); rewrite <- turn_n_right; done.
    + destruct t as [|ct tl ta tr]; [|by apply Ns]. apply -> Rep_FL in R.
      destruct (Rep_present _ _ _ R NW) as [? _]. cbn. congruence.
Qed.

Lemma lacks_red k c l a r :
  lacks k (T c l a r) -> c = true -> exists c' m, rbc k c' (S m) /\ rb (T false l a r) false (S m).
Proof. intros (c' & m & C & [[Cc _]|[_ B]]) ->; [done|eauto]. Qed.

(** The rebalancing completes the tree; two turns more than the path is long
    are enough. *)
Lemma delete_fix_completed fuel : forall s k t,
  (S (length k) < fuel)%nat -> Focus s k t -> lacks k t ->
  completed s (delete_fix fuel (root_of t) s) (addrs (plug k t)).
Proof.
  induction fuel as [|fuel IH]; [lia|]. intros s k t L F H. pose proof (proj1 F) as R.
  destruct (color t) eqn:Ct.
  { destruct t as [|ct l a r]; [done|]. cbn in Ct. subst ct.
    apply lacks_red in H as (c' & m & C & B); [|done]. by eapply delete_fix_red. }
  destruct H as (c & m & C & [[_ B]|[? _]]); [|congruence].
  destruct k as [|f k]; [by eapply delete_fix_root|].
  assert (exists d cp p W, f = Fn d cp p W) as (d & cp & p & W & ->).
  { destruct f as [cp p W|cp W p]; [by exists true, cp, p, W|by exists false, cp, p, W]. }
  pose proof (rbc_Fn_inv _ _ _ _ _ _ _ C) as (-> & cs & c1 & HW & _).
  assert (W <> E) as NW by (intros ->; inversion HW). rewrite (delete_fix_step _ _ _ _ _ _ _ _ F NW Ct).
  destruct (tree_Tn d W) as [->|(nw & w & fw & EW)]; [done|]. cbn [length] in L.
  destruct (color W); subst W; rewrite root_Tn.
  - destruct (red_sibling _ _ _ _ _ _ _ _ _ _ _ F C) as (F0 & C0 & Bn). lazy beta iota zeta.
    set (s0 := rot d p _) in *. pose proof (Focus_up _ _ _ F0) as U0. rewrite parent_Fn in U0. rewrite U0.
    assert (same_data s s0) as D0.
    { etransitivity; [|apply data_rot]. etransitivity; [|apply data_set_red]. apply data_set_black. }
    pose proof (proj1 F0) as R0. apply Rep_near in R0. pose proof (Rep_node_n _ _ _ _ _ _ _ R0) as (_ & Rp & _). rewrite Rp.
    destruct (tree_Tn d nw) as [->|(nw1 & w1 & fw1 & Ew)]; [inversion Bn|]. rewrite (rb_color _ _ _ Bn) in Ew.
    rewrite Ew in *. rewrite root_Tn. eapply completed_trans; [exact D0|].
    pose proof (turn_n_spec _ _ _ _ _ _ _ _ _ _ _ B F0 C0) as Tu. destruct (turn_n _ _ _ _) as [x s1].
    destruct Tu as [D [(t1 & Ex & Er & N1 & C1 & R1 & L1 & A1)|(t1 & n1 & Ex & R1 & B1 & A1)]]; cbn [fst snd] in *; subst x.
    + eapply completed_trans; [exact D|].
      replace (addrs _) with (addrs (plug (Fn d false w fw :: k) t1)) by (rewrite A1; by reassoc_n d).
      destruct t1 as [|ct1 l1 a1 r1]; [done|]. cbn in Er, C1. subst a1 ct1.
      apply lacks_red in L1 as (c' & m' & C' & B'); [|done]. by eapply delete_fix_red.
    + eapply completed_trans; [exact D|].
      replace (addrs _) with (addrs t1) by (rewrite A1; by reassoc_n d). by eapply delete_fix_root.
  - pose proof (turn_n_spec _ _ _ _ _ _ _ _ _ _ _ B F C) as Tu. destruct (turn_n _ _ _ _) as [x s1].
    destruct Tu as [D [(t1 & Ex & Er & N1 & C1 & R1 & L1 & A1)|(t1 & n1 & Ex & R1 & B1 & A1)]]; cbn [fst snd] in *; subst x;
      (eapply completed_trans; [exact D|]); rewrite <- A1; [|by eapply delete_fix_root].
    rewrite <- Er. apply IH; [lia|by split|done].
Qed.

(** ** Splicing a node out *)

Lemma focus_nodup k (l r : list addr) a :
  NoDup (before k ++ (l ++ a :: r) ++ after k) -> NoDup (a :: l ++ r ++ before k ++ after k).
Proof.
  intros ND.
  assert (a :: l ++ r ++ before k ++ after k ≡ₚ before k ++ (l ++ a :: r) ++ after k) as P; [|by rewrite P].
  rewrite (Permutation_app_comm (before k) (_ ++ _)), <- !app_assoc. cbn [app].
  rewrite <- Permutation_middle. constructor. do 2 f_equiv. apply Permutation_app_comm.
Qed.

(** What is known at the focus [T c l a r]: the node, and that it is apart. *)
Lemma Rep_apart s k c l a r :
  Rep s k (T c l a r) ->
  a ∉ before k ++ after k /\ a ∉ addrs l /\ a ∉ addrs r /\ NoDup (addrs l) /\ NoDup (addrs r) /\
  (forall b, b ∈ addrs l -> b ∉ addrs r /\ b ∉ before k ++ after k) /\
  (forall b, b ∈ addrs r -> b ∉ before k ++ after k) /\ NoDup (before k ++ after k).
Proof.
  intros [_ _ ND _]. cbn [addrs] in ND. apply focus_nodup in ND. apply NoDup_cons in ND as [Na ND].
  rewrite !elem_of_app in Na. apply NoDup_app in ND as (NDl & Dl & ND). apply NoDup_app in ND as (NDr & Dr & NDk).
  repeat setoid_rewrite elem_of_app in Dl. rewrite !elem_of_app. setoid_rewrite elem_of_app. setoid_rewrite elem_of_app in Dr.
  split_and!; [tauto..|done|done| |done|done]. intros b Hb. specialize (Dl b Hb). tauto.
Qed.

(** The node of [y], with an empty side, makes way for its other subtree. *)
Lemma Rep_splice s k c y t :
  Rep s k (T c E y t) \/ Rep s k (T c t y E) ->
  let s' := replace_child y (root_of t) (set_up (root_of t) (up s y) s) in
  Focus s' k t /\ (forall a, present s' a <-> present s a) /\ red s' y = red s y.
Proof.
  intros R. cbn zeta.
  assert (node_at s y (parent k) (left s y) (right s y) c /\ rep s y t /\ crep s k y /\
          y ∉ before k ++ after k /\ y ∉ addrs t /\ NoDup (addrs t) /\ (forall b, b ∈ addrs t -> b ∉ before k ++ after k) /\
          NoDup (before k ++ after k) /\ (present s nullAddr /\ red s nullAddr = false))
    as ((Ny & Py & Uy & _) & Ht & C & Nyk & Nyt & NDt & Dt & NDk & Z).
  { destruct R as [R|R]; pose proof (Rep_apart _ _ _ _ _ _ R) as (? & ? & ? & ? & ? & H1 & H2 & ?);
      destruct R as [C ((? & ? & ? & ? & ? & ?) & ? & ?) _ Z]; split_and!; try done;
      try (intros b Hb; by apply H1); apply Z. }
  assert (root_of t = nullAddr \/ root_of t ∈ addrs t) as Ht' by by eapply root_elem.
  assert (root_of t ∉ before k ++ after k) as Nx.
  { eapply hole_notin; [exact Ht|done|by eapply null_notin]. }
  assert (present s (root_of t)) as Px.
  { destruct t as [|ct l a r]; [apply Z|]. by destruct Ht as ((_ & ? & _) & _). }
  assert (y <> root_of t) as Nyx by (destruct Ht' as [->|?]; [done|by intros ->]).
  rewrite Uy. set (s1 := set_up (root_of t) (parent k) s). set (s' := replace_child y (root_of t) s1).
  assert (up s1 y = parent k) as U1 by (unfold s1; rewrite up_set_up, decide_False by done; done).
  assert (forall a, a <> root_of t -> same s s1 a) as S1 by (intros a Na; by apply same_upd).
  assert (crep s1 k y) as C1.
  { eapply (crep_same s); [|done|exact C]. intros a Ha. apply S1. by intros ->. }
  assert (relinked s1 s' k (root_of t)) as Rl by by apply relinked_replace_child.
  assert (forall a, a <> parent k \/ parent k = nullAddr -> same s1 s' a) as S2.
  { intros a Ha. apply same_replace_child. by rewrite U1. }
  assert (forall a, a ∉ before k ++ after k -> a <> parent k \/ parent k = nullAddr) as Np.
  { intros a Ha. destruct (parent_elem _ _ _ C) as [?|Hp]; [by right|left; by intros ->]. }
  assert (forall a, present s' a <-> present s a) as P'.
  { intros a. unfold s', s1. by rewrite present_replace_child, present_set_up. }
  split; [split; [split|]|split; [done|]].
  - eapply (crep_relinked s1); [done| |exact Rl|exact C1]. intros a Ha Na. apply S2. by left.
  - eapply (rep_reroot s); [done| | |exact Ht].
    + intros a Ha Na. eapply same_trans; [by apply S1|]. by apply S2, Np, Dt.
    + intros Nt. rewrite P'. split; [done|]. destruct (S2 (root_of t) (Np _ Nx)) as (_ & -> & -> & -> & ->).
      unfold s1. rewrite up_set_up, decide_True by done. by autorewrite with heap.
  - rewrite (Permutation_app_comm (addrs t)), app_assoc. apply NoDup_app. split_and!; [done| |done].
    intros a Ha Ht2. by apply (Dt a).
  - rewrite P'. split; [apply Z|]. unfold s'. rewrite red_replace_child. unfold s1. autorewrite with heap. apply Z.
  - intros ->. cbn [root_of] in *. unfold s'. rewrite up_replace_child. unfold s1. by rewrite up_set_up, decide_True.
  - unfold s'. rewrite red_replace_child. unfold s1. by autorewrite with heap.
Qed.

(** ** Replacing a node *)

Lemma relinked_nil s s1 k h : k = [] -> relinked s s1 k h <-> rb_root s1 = h.
Proof. by intros ->. Qed.

(** The writes of [replaceNode], with the addresses it reads. *)
Definition replace_writes (z y p lr rr : addr) (c : bool) (s : rbtree) : rbtree :=
  let s := set_right y rr (set_up rr y (set_left y lr (set_up lr y (set_up y p (replace_child z y s))))) in
  if c then set_red y s else set_black y s.

Lemma replaceNode_writes s k c l z r y :
  Rep s k (T c l z r) -> z <> y -> replaceNode z y s = replace_writes z y (parent k) (root_of l) (root_of r) c s.
Proof.
  intros R N. pose proof (Rep_node _ _ _ _ _ _ R) as (Nz & Pz & Uz & Lz & Rz & Cz).
  pose proof (Rep_apart _ _ _ _ _ _ R) as (Nk & _). destruct R as [C _ _ _].
  assert (z <> parent k \/ parent k = nullAddr) as Np.
  { destruct (parent_elem _ _ _ C) as [?|Hp]; [by right|left; by intros ->]. }
  pose proof (same_replace_child s z y z) as S. rewrite Uz in S. destruct (S Np) as (_ & U1 & L1 & R1 & C1).
  rewrite Uz in U1. rewrite Lz in L1. rewrite Rz in R1. rewrite Cz in C1.
  unfold replaceNode, replace_writes. cbn zeta. rewrite black_red. autorewrite with heap.
  rewrite U1, L1, R1, C1. by destruct c.
Qed.

Section replace.
Context (s : rbtree) (k : list frame) (c : bool) (l : rtree) (z : addr) (r : rtree) (y : addr).
Context (R : Rep s k (T c l z r)) (Py : present s y) (Ny : y <> nullAddr).
Context (Fk : y ∉ before k ++ after k) (Fl : y ∉ addrs l) (Fr : y ∉ addrs r) (Nyz : y <> z).
Abbreviation s' := (replace_writes z y (parent k) (root_of l) (root_of r) c s).

Lemma replace_present a : present s' a <-> present s a.
Proof.
  unfold replace_writes. destruct c; autorewrite with heap; by rewrite present_replace_child.
Qed.

Lemma replace_same_upd a :
  a <> y -> a <> root_of l -> a <> root_of r -> same (replace_child z y s) s' a.
Proof.
  intros N1 N2 N3. unfold replace_writes.
  destruct c; (eapply same_trans; [|by apply same_upd]);
    do 4 (eapply same_trans; [|by apply same_upd]); by apply same_upd.
Qed.

Lemma replace_same a :
  a <> y -> a <> root_of l -> a <> root_of r -> a <> parent k \/ parent k = nullAddr -> same s s' a.
Proof.
  intros N1 N2 N3 N4. pose proof (Rep_node _ _ _ _ _ _ R) as (_ & _ & Uz & _).
  eapply same_trans; [|by apply replace_same_upd]. apply same_replace_child. by rewrite Uz.
Qed.

(** The roots of the subtrees get a new parent, [r]'s last. *)
Lemma replace_child_root a :
  present s (root_of l) -> present s (root_of r) ->
  a = root_of l \/ a = root_of r -> a <> y -> a <> parent k \/ parent k = nullAddr ->
  up s' a = y /\ left s' a = left s a /\ right s' a = right s a /\ red s' a = red s a.
Proof.
  intros Pl Pr Ha N1 N4. pose proof (Rep_node _ _ _ _ _ _ R) as (_ & _ & Uz & _).
  pose proof (same_replace_child s z y a) as S. rewrite Uz in S. destruct (S N4) as (_ & U1 & L1 & R1 & C1).
  assert (forall b, present s b -> present (replace_child z y s) b) as PP by (intros b; apply present_replace_child).
  unfold replace_writes. destruct c; autorewrite with heap;
    rewrite ?red_set_red, ?red_set_black, ?right_set_right, ?left_set_left by (autorewrite with heap; auto);
    rewrite ?(decide_False (P := a = y)) by done; autorewrite with heap;
    rewrite !up_set_up by (autorewrite with heap; auto); autorewrite with heap;
    rewrite !up_set_up by (autorewrite with heap; auto); rewrite L1, R1, C1;
    repeat case_decide; tauto || naive_solver.
Qed.

Lemma replace_node :
  present s (root_of l) -> present s (root_of r) -> y <> root_of l -> y <> root_of r ->
  node_at s' y (parent k) (root_of l) (root_of r) c.
Proof.
  intros Pl Pr N1 N2. split; [done|]. split; [by apply replace_present|].
  assert (forall b, present s b -> present (replace_child z y s) b) as PP by (intros b; apply present_replace_child).
  unfold replace_writes. destruct c; autorewrite with heap;
    rewrite ?red_set_red, ?red_set_black, ?right_set_right, ?left_set_left by (autorewrite with heap; auto);
    autorewrite with heap; rewrite ?up_set_up by (autorewrite with heap; auto); autorewrite with heap;
    rewrite ?up_set_up by (autorewrite with heap; auto); autorewrite with heap;
    rewrite ?up_set_up by (autorewrite with heap; auto); by repeat case_decide.
Qed.

Lemma Rep_replace :
  Rep s' k (T c l y r) /\ (r = E -> up s' nullAddr = y) /\
  (l <> E -> r <> E -> up s' nullAddr = up s nullAddr) /\ same_data s s'.
Proof.
  pose proof (Rep_node _ _ _ _ _ _ R) as (Nz & Pz & Uz & Lz & Rz & Cz).
  pose proof (Rep_apart _ _ _ _ _ _ R) as (Nk & Nl & Nr & NDl & NDr & Dl & Dr & NDk).
  pose proof (R_tree _ _ _ R) as Tr. cbn [rep] in Tr. destruct Tr as (_ & Hl & Hr). pose proof (R_ctx _ _ _ R) as C. pose proof (R_null _ _ _ R) as [Zp Zr].
  cbn [root_of] in C. pose proof (root_elem _ _ _ Hl) as El. pose proof (root_elem _ _ _ Hr) as Er.
  assert (forall t, rep s z t -> present s (root_of t)) as Pt.
  { intros [|ct tl ta tr]; [done|]. by intros ((_ & ? & _) & _). }
  assert (forall a, a ∉ before k ++ after k -> a <> parent k \/ parent k = nullAddr) as Np.
  { intros a Ha. destruct (parent_elem _ _ _ C) as [?|Hp]; [by right|left; by intros ->]. }
  pose proof (null_notin _ _ _ C) as Nn.
  assert (root_of l ∉ before k ++ after k /\ root_of r ∉ before k ++ after k) as [Nlk Nrk].
  { split; [destruct El as [->|El]; [done|by apply Dl]|destruct Er as [->|Er]; [done|by apply Dr]]. }
  assert (y <> root_of l /\ y <> root_of r) as [Nyl Nyr].
  { split; [destruct El as [->|El]; [done|by intros ->]|destruct Er as [->|Er]; [done|by intros ->]]. }
  assert (same_data s s') as D.
  { unfold replace_writes. etransitivity; [|destruct c; [apply data_set_red|apply data_set_black]].
    etransitivity; [|apply data_set_right]. etransitivity; [|apply data_set_up].
    etransitivity; [|apply data_set_left]. etransitivity; [|apply data_set_up].
    etransitivity; [|apply data_set_up]. apply data_replace_child. }
  assert (forall t, (t = l \/ t = r) -> up s' (root_of t) = y /\ left s' (root_of t) = left s (root_of t) /\
            right s' (root_of t) = right s (root_of t) /\ red s' (root_of t) = red s (root_of t)) as Roots.
  { intros t Ht. apply replace_child_root; [by apply Pt|by apply Pt|destruct Ht as [->| ->]; auto| |];
      destruct Ht as [->| ->]; try done; by apply Np. }
  split_and!.
  - split; cbn [root_of rep addrs].
    + eapply (crep_relinked s); [done| | |exact C].
      * intros a Ha Na. apply replace_same; [by intros ->|by intros ->|by intros ->|by left].
      * assert (relinked s (replace_child z y s) k y) as Rl by by apply relinked_replace_child.
        assert (rb_root s' = rb_root (replace_child z y s)) as Rt by (unfold replace_writes; by destruct c).
        destruct (parent_elem _ _ _ C) as [Hp|Hp].
        { apply (relinked_nil _ _ _ _ (crep_parent_null _ _ _ C Hp)) in Rl. apply relinked_nil; [|congruence].
          by apply (crep_parent_null _ _ _ C). }
        eapply (relinked_same s s); [apply same_refl|done|exact Rl| |exact Rt].
        apply replace_same_upd; intros E'; rewrite E' in Hp; done.
    + split; [|split].
      * apply replace_node; auto.
      * eapply (rep_reroot s); [done| | |exact Hl].
        -- intros a Ha Na. destruct (Dl a Ha) as [Dr' Dk]. apply replace_same; [by intros ->|done| |by apply Np].
           destruct Er as [->|Er]; [|by intros ->]. intros ->. by destruct (rep_nonnull _ _ _ _ Hl Ha).
        -- intros _. split; [apply replace_present, Pt; done|]. apply Roots. by left.
      * eapply (rep_reroot s); [done| | |exact Hr].
        -- intros a Ha Na. apply replace_same; [by intros ->| |done|by apply Np, Dr].
           destruct El as [->|El]; [|intros ->; by destruct (Dl _ El)]. intros ->. by destruct (rep_nonnull _ _ _ _ Hr Ha).
        -- intros _. split; [apply replace_present, Pt; done|]. apply Roots. by right.
    + pose proof (R_nodup _ _ _ R) as ND. cbn [addrs] in ND. apply focus_nodup, NoDup_cons in ND as [_ ND].
      assert (before k ++ (addrs l ++ y :: addrs r) ++ after k ≡ₚ y :: addrs l ++ addrs r ++ before k ++ after k) as P.
      { rewrite (Permutation_app_comm (before k) (_ ++ _)), <- !app_assoc. cbn [app]. rewrite <- Permutation_middle.
        constructor. do 2 f_equiv. apply Permutation_app_comm. }
      rewrite P. constructor; [|done]. rewrite !elem_of_app in *. tauto.
    + rewrite replace_present. split; [done|].
      destruct (decide (nullAddr = root_of l)) as [E1|N1]; [destruct (Roots l) as (_ & _ & _ & Hc); [auto|]; rewrite E1, Hc, <- E1; exact Zr|].
      destruct (decide (nullAddr = root_of r)) as [E1|N2]; [destruct (Roots r) as (_ & _ & _ & Hc); [auto|]; rewrite E1, Hc, <- E1; exact Zr|].
      destruct (replace_same nullAddr) as (_ & _ & _ & _ & Hc); [done..|by apply Np|congruence].
  - intros Er0. assert (nullAddr = root_of r) as -> by by rewrite Er0. apply Roots. by right.
  - intros NE1 NE2. destruct (rep_root _ _ _ Hl NE1) as [? _], (rep_root _ _ _ Hr NE2) as [? _].
    apply replace_same; try done. by apply Np.
  - done.
Qed.
End replace.

(** ** deleteNode *)

Lemma plug_app k1 k2 t : plug (k1 ++ k2) t = plug k2 (plug k1 t).
Proof. revert t. induction k1 as [|f k1 IH]; intros t; [done|]. apply IH. Qed.

Lemma before_app k1 k2 : before (k1 ++ k2) = before k2 ++ before k1.
Proof.
  induction k1 as [|[c a r|c l a] k1 IH]; cbn; [by rewrite app_nil_r|done|]. by rewrite IH, <- app_assoc.
Qed.
Lemma after_app k1 k2 : after (k1 ++ k2) = after k1 ++ after k2.
Proof. induction k1 as [|[c a r|c l a] k1 IH]; cbn; [done| |done]. by rewrite IH, <- app_assoc. Qed.

Lemma Rep_plug s k1 k2 t : Rep s (k1 ++ k2) t <-> Rep s k2 (plug k1 t).
Proof.
  revert t. induction k1 as [|f k1 IH]; intros t; [done|]. cbn [app plug]. by rewrite Rep_fill, IH.
Qed.

Lemma locate z t : z ∈ addrs t -> exists k c l r, plug k (T c l z r) = t.
Proof.
  induction t as [|c l IHl a r IHr]; [by intros []%not_elem_of_nil|]. cbn [addrs].
  rewrite elem_of_app, elem_of_cons. intros [(k & cz & lz & rz & E')%IHl|[->|(k & cz & lz & rz & E')%IHr]].
  - exists (k ++ [FL c a r]), cz, lz, rz. by rewrite plug_app, E'.
  - by exists [], c, l, r.
  - exists (k ++ [FR c l a]), cz, lz, rz. by rewrite plug_app, E'.
Qed.

Lemma split_unique {A} (l1 l2 m1 m2 : list A) z :
  l1 ++ z :: l2 = m1 ++ z :: m2 -> NoDup (m1 ++ z :: m2) -> l1 = m1 /\ l2 = m2.
Proof.
  revert m1. induction l1 as [|x l1 IH]; intros [|y m1]; cbn; intros Eq ND.
  - by injection Eq.
  - injection Eq as -> ->. apply NoDup_cons in ND as [N _]. exfalso. apply N. rewrite elem_of_app, elem_of_cons. auto.
  - injection Eq as <- Eq. rewrite <- Eq in ND. apply NoDup_cons in ND as [N _]. exfalso.
    apply N. rewrite elem_of_app, elem_of_cons. auto.
  - injection Eq as <- Eq. apply NoDup_cons in ND as [_ ND]. destruct (IH _ Eq ND). split; congruence.
Qed.

Lemma deleteNodeFix_spec s k t :
  Focus s k t -> lacks k t ->
  exists t' n, Rep (deleteNodeFix (root_of t) s) [] t' /\ rb t' false n /\ addrs t' = addrs (plug k t) /\
    same_data s (deleteNodeFix (root_of t) s).
Proof.
  intros F H. pose proof (Rep_size _ _ _ (proj1 F)) as Sz. pose proof (length_ctx k) as Lk.
  destruct (delete_fix_completed (node_fuel s) s k t) as (t' & n & R & B & A & D); [|done|done|].
  { unfold node_fuel. rewrite !length_app in *. lia. }
  unfold deleteNodeFix. destruct (delete_fix _ _ _) as [x s1]. cbn [fst snd] in *. exists t', n.
  split_and!; [done..|]. etransitivity; [exact D|apply data_set_black].
Qed.

(** Fixing up, when a black node went: the two outcomes of [delete_node]. *)
Lemma delete_finish s k c t cy :
  Focus s k t -> (exists m, rbc k c m /\ rb t (color t) (if cy : bool then m else pred m) /\
                    (if cy then c = true -> color t = false else (0 < m)%nat)) ->
  let s' := if negb cy then deleteNodeFix (root_of t) s else s in
  exists t' n, Rep s' [] t' /\ rb t' false n /\ addrs t' = addrs (plug k t) /\ same_data s s'.
Proof.
  intros F (m & C & B & H) s'. unfold s'. destruct cy; cbn [negb].
  - destruct (rb_plug k c m t (color t) C B H) as [n' B']. exists (plug k t), n'.
    split_and!; [by apply Rep_up_to, F|done..].
  - apply deleteNodeFix_spec; [done|]. destruct m as [|m]; [lia|]. cbn in B. exists c, m. split; [done|].
    destruct (color t) eqn:Ct; [right|left]; (split; [done|]); [|done].
    inversion B; subst. by econstructor.
Qed.

Lemma data_splice s y x : same_data s (replace_child y x (set_up x (up s y) s)).
Proof. etransitivity; [apply data_set_up|apply data_replace_child]. Qed.

(** A node with an empty side is spliced out. *)
Lemma delete_one s k c z t l r n :
  Rep s k (T c l z r) -> rb (plug k (T c l z r)) false n ->
  (l = E /\ r = t) \/ (l = t /\ r = E) ->
  exists t' n', Rep (delete_node z s) [] t' /\ rb t' false n' /\ addrs t' = addrs (plug k t) /\
    same_data s (delete_node z s).
Proof.
  intros R B Hlr. pose proof (Rep_node _ _ _ _ _ _ R) as (Nz & Pz & Uz & Lz & Rz & Cz).
  destruct (Rep_splice s k c z t) as (F & _ & Cy); [destruct Hlr as [[-> ->]|[-> ->]]; auto|].
  destruct (rb_unplug _ _ _ B) as (c' & m & ct & C & B' & H).
  pose proof (delete_finish _ k c' t c F) as Fin. cbn zeta in Fin.
  unfold delete_node. cbn zeta.
  assert ((if isNull (left s z) || isNull (right s z) then z else successor s z) = z) as ->.
  { rewrite Lz, Rz. destruct Hlr as [[-> _]|[_ ->]]; cbn [root_of]; rewrite isNull_null; [done|by rewrite orb_true_r]. }
  assert ((if negb (isNull (left s z)) then left s z else right s z) = root_of t) as ->.
  { rewrite Lz, Rz. destruct Hlr as [[-> <-]|[<- ->]]; cbn [root_of]; [by rewrite isNull_null|].
    destruct (decide (root_of l = nullAddr)) as [->|N]; [done|by rewrite isNull_false]. }
  rewrite eqa_true, black_red, Cy, Cz. cbn [negb].
  destruct Fin as (t' & n' & R' & B2 & A' & D').
  - exists m. split; [done|]. assert (exists q, rb t (color t) q /\ (if c then q = m /\ color t = false else m = S q)) as (q & Hq & Eq).
    { inversion B' as [|? ? ? ? Bl Br|? ? ? cl cr q Bl Br]; subst; destruct Hlr as [[-> ->]|[-> ->]];
        [exists m|exists m|exists q|exists q]; (split; [|try done]);
        repeat match goal with Hb : rb ?x ?b _ |- context [color ?x] => rewrite (rb_color _ _ _ Hb) end; done. }
    destruct c; [destruct Eq as [-> Ect]|subst m]; (split; [done|]); [done|lia].
  - exists t', n'. split_and!; [done..|]. etransitivity; [apply data_splice|exact D'].
Qed.

(** The leftmost node of a subtree. *)
Lemma leftmost_spec fuel s k c l a r :
  Rep s k (T c l a r) -> (height l < fuel)%nat ->
  exists kr cy y ry, T c l a r = plug kr (T cy E y ry) /\ before kr = [] /\ leftmost fuel s a = y.
Proof.
  revert k c l a r. induction fuel as [|fuel IH]; [lia|]. intros k c l a r R H. cbn [leftmost].
  pose proof (Rep_node _ _ _ _ _ _ R) as (_ & _ & _ & L & _). rewrite L.
  destruct l as [|cl ll la lr].
  - cbn [root_of]. rewrite isNull_null. by exists [], c, a, r.
  - apply Rep_FL in R. destruct (Rep_present _ _ _ R) as [N _]; [done|]. rewrite isNull_false by done. cbn [negb root_of].
    destruct (IH _ _ _ _ _ R) as (kr & cy & y & ry & Ep & Eb & Ey); [cbn in H; lia|].
    exists (kr ++ [FL c a r]), cy, y, ry. rewrite plug_app, <- Ep, before_app, Eb. done.
Qed.

(** The context does not depend on the name of a node. *)
Lemma rbc_relabel kr c l z y k cc n :
  rbc (kr ++ FR c l z :: k) cc n -> rbc (kr ++ FR c l y :: k) cc n.
Proof.
  revert cc n. induction kr as [|f kr IH]; intros cc n C; cbn [app] in *.
  - inversion C; subst; econstructor; eauto.
  - inversion C; subst; econstructor; eauto.
Qed.

(** A node with two children gives its place to its successor. *)
Lemma delete_two s k c l z r n :
  Rep s k (T c l z r) -> rb (plug k (T c l z r)) false n -> l <> E -> r <> E ->
  exists t' n', Rep (delete_node z s) [] t' /\ rb t' false n' /\
    addrs t' = before k ++ (addrs l ++ addrs r) ++ after k /\ same_data s (delete_node z s).
Proof.
  intros R B Nl Nr. pose proof (Rep_node _ _ _ _ _ _ R) as (Nz & Pz & Uz & Lz & Rz & Cz).
  pose proof R as Rr. apply Rep_FR in Rr. pose proof R as Rl. apply Rep_FL in Rl.
  destruct (Rep_present _ _ _ Rl Nl) as [Nln _]. destruct (Rep_present _ _ _ Rr Nr) as [Nrn _].
  destruct r as [|cr r1 ra r2]; [done|]. cbn [root_of] in *.
  destruct (leftmost_spec (node_fuel s) s _ _ _ _ _ Rr) as (kr & cy & y & ry & Er & Eb & Ey).
  { pose proof (Rep_fuel _ _ _ Rr) as Fu. cbn in Fu. lia. }
  assert (successor s z = y) as Sy by (unfold successor; rewrite Rz, isNull_false; done).
  rewrite Er in R, Rr, B. pose proof (Rep_apart _ _ _ _ _ _ R) as (Nzk & _ & Nzr & _ & _ & Dl & Dr & _).
  rewrite addrs_plug, Eb in Nzr, Dl, Dr. cbn [app addrs] in Nzr, Dl, Dr.
  apply Rep_plug in Rr. pose proof (Rep_node _ _ _ _ _ _ Rr) as (Ny & Py & Uy & Ly & Ry & Cy).
  destruct (Rep_splice s (kr ++ FR c l z :: k) cy y ry) as (F2 & P2 & C2); [by left|].
  unfold delete_node. cbn zeta. rewrite Lz, Rz, !isNull_false by done. cbn [orb]. rewrite Sy, Ly, Ry. cbn [root_of]. rewrite isNull_null.
  cbn [negb]. set (s2 := replace_child y (root_of ry) (set_up (root_of ry) (up s y) s)) in *.
  assert (y <> z) as Nyz by (intros ->; apply Nzr; left).
  rewrite eqa_false, black_red, C2, Cy by done. cbn [negb].
  pose proof (proj1 F2) as R2. apply Rep_plug in R2. apply Rep_FR in R2.
  assert (Fr : y ∉ addrs (plug kr ry)).
  { pose proof (Rep_apart _ _ _ _ _ _ Rr) as (N1 & _ & N3 & _). rewrite addrs_plug, Eb. cbn [app].
    rewrite before_app, after_app, !elem_of_app in N1. rewrite elem_of_app. tauto. }
  assert (y ∉ before k ++ after k /\ y ∉ addrs l) as [Fk Fl].
  { split; [apply Dr; left|]. intros Hy. destruct (Dl y Hy) as [H _]. apply H. left. }
  pose proof (Rep_replace s2 k c l z (plug kr ry) y R2 (proj2 (P2 y) Py) Ny Fk Fl Fr Nyz) as (R3 & U3 & U3' & D3).
  rewrite (replaceNode_writes _ _ _ _ _ _ _ R2) by congruence.
  set (s3 := replace_writes z y (parent k) (root_of l) (root_of (plug kr ry)) c s2) in *.
  assert (Focus s3 (kr ++ FR c l y :: k) ry) as F3.
  { split; [by apply Rep_plug, Rep_FR|]. intros ->. destruct kr as [|f kr]; [by apply U3|].
    rewrite U3'; [by apply (proj2 F2)|done|]. cbn [plug]. clear.
    assert (forall k t, t <> E -> plug k t <> E) as H.
    { intros k. induction k as [|g k IH]; intros t N; [done|]. apply IH. by destruct g. }
    apply H. by destruct f. }
  change (plug k (T c l z (plug kr (T cy E y ry)))) with (plug (FR c l z :: k) (plug kr (T cy E y ry))) in B.
  rewrite <- plug_app in B. destruct (rb_unplug _ _ _ B) as (c' & m & ct & C & B' & H).
  apply (rbc_relabel _ _ _ _ y) in C.
  destruct (delete_finish s3 (kr ++ FR c l y :: k) c' ry cy F3) as (t' & n' & R' & B2 & A' & D').
  - inversion B' as [|? ? ? ? Bl Br|? ? ? cl cr' q Bl Br]; subst; eexists; (split; [exact C|]);
      rewrite (rb_color _ _ _ Br); cbn [pred]; (split; [done|]); [done|lia].
  - exists t', n'. split_and!; [done..| |].
    + rewrite A', addrs_plug, before_app, after_app, Er, addrs_plug, Eb. cbn [before after addrs app].
      rewrite app_nil_r. repeat (progress (rewrite <- ?app_assoc; cbn [app])). done.
    + etransitivity; [apply data_splice|]. etransitivity; [exact D3|exact D'].
Qed.

Lemma sorted_keys_remove s l1 z l2 : sorted_keys s (l1 ++ z :: l2) -> sorted_keys s (l1 ++ l2).
Proof.
  rewrite !sorted_keys_app. intros (H & S1 & [_ S2]%sorted_keys_cons). split_and!; [|done|done].
  intros a b Ha Hb. apply H; [done|by right].
Qed.

(** [deleteNode] takes one node out of a red-black search tree; the others keep
    their addresses, keys, values and flags. *)
Lemma delete_node_tree s l1 z l2 :
  Tree s (l1 ++ z :: l2) -> Tree (delete_node z s) (l1 ++ l2) /\ same_data s (delete_node z s).
Proof.
  intros (t & n & R & B & A & S). pose proof (R_nodup _ _ _ R) as ND. cbn in ND. rewrite app_nil_r, A in ND.
  destruct (locate z t) as (k & c & l & r & Et); [rewrite A, elem_of_app, elem_of_cons; auto|]. subst t.
  apply Rep_down_to in R. rewrite addrs_plug in A. cbn [addrs] in A.
  assert (before k ++ addrs l = l1 /\ addrs r ++ after k = l2) as [El Er].
  { apply (split_unique _ _ _ _ z); [|done]. rewrite <- A, <- !app_assoc. done. }
  assert (exists t' n', Rep (delete_node z s) [] t' /\ rb t' false n' /\
            addrs t' = before k ++ (addrs l ++ addrs r) ++ after k /\ same_data s (delete_node z s)) as (t' & n' & R' & B' & A' & D).
  { destruct l as [|cl ll la lr]; [|destruct r as [|cr rl ra rr]].
    - destruct (delete_one s k c z r E r n R B) as (t' & n' & H); [by left|].
      exists t', n'. by rewrite addrs_plug in H.
    - destruct (delete_one s k c z (T cl ll la lr) (T cl ll la lr) E n R B) as (t' & n' & H); [by right|].
      exists t', n'. rewrite addrs_plug in H. cbn [addrs app] in *. by rewrite app_nil_r.
    - by eapply delete_two. }
  split; [|done]. exists t', n'. split_and!; [done|done| |].
  - by rewrite A', <- El, <- Er, <- !app_assoc.
  - eapply sorted_keys_data; [exact D|]. by eapply sorted_keys_remove.
Qed.
