(* ===== verification/Memdb.v ===== *)
(** * The transaction buffer (schemareplicant/memdb.go, causetstore/memdb_iterator.go,
    spacetime/memdb_snapshot.go)

    A buffer is the tree of the keys and the log of their values; stages are
    positions in the log to which the values can be reverted.  [None] is a
    panic. *)

From stdpp Require Import base gmap list strings.
From Stdlib Require Import Strings.Byte ZArith Lia Sorted.
From S2P Require Import Prelude External Marshal KvUnion MemArena MemTree.
Open Scope Z_scope.

(** The errors of the operations that write. *)
Inductive memerror : Type :=
| ErrCannotSetNilValue
| ErrEntryTooLarge (limit size : Z)
| ErrTxnTooLarge (size : Z).

Record memdb : Type := MkMemdb {
  tree : rbtree;
  allocator : memdbMemCam;
  vlog : memdbMemCam;
  entrySizeLimit : Z;
  bufferSizeLimit : Z;
  db_count : Z;
  db_size : Z;
  vlogInvalid : bool;
  db_dirty : bool;
  stages : list memdbCheckpoint;
}.

Definition empty_tree : rbtree := MkTree nullAddr {[ nullAddr := nullNode ]}.

(** The limits are the values of two global variables. *)
Definition newMemDB (TxnEntrySizeLimit TxnTotalSizeLimit : Z) : memdb :=
  MkMemdb empty_tree arena_reset arena_reset TxnEntrySizeLimit TxnTotalSizeLimit 0 0 false false [].

Definition with_tree (t : rbtree) (db : memdb) : memdb :=
  MkMemdb t (allocator db) (vlog db) (entrySizeLimit db) (bufferSizeLimit db) (db_count db) (db_size db)
    (vlogInvalid db) (db_dirty db) (stages db).
Definition with_vlog (l : memdbMemCam) (db : memdb) : memdb :=
  MkMemdb (tree db) (allocator db) l (entrySizeLimit db) (bufferSizeLimit db) (db_count db) (db_size db)
    (vlogInvalid db) (db_dirty db) (stages db).
Definition with_size (n : Z) (db : memdb) : memdb :=
  MkMemdb (tree db) (allocator db) (vlog db) (entrySizeLimit db) (bufferSizeLimit db) (db_count db) n
    (vlogInvalid db) (db_dirty db) (stages db).
Definition with_dirty (d : bool) (db : memdb) : memdb :=
  MkMemdb (tree db) (allocator db) (vlog db) (entrySizeLimit db) (bufferSizeLimit db) (db_count db) (db_size db)
    (vlogInvalid db) d (stages db).
Definition with_stages (st : list memdbCheckpoint) (db : memdb) : memdb :=
  MkMemdb (tree db) (allocator db) (vlog db) (entrySizeLimit db) (bufferSizeLimit db) (db_count db) (db_size db)
    (vlogInvalid db) (db_dirty db) st.

(** ** Nodes *)

Definition nodeHdrSize : Z := 8 * 4 + 2 + 1.

(** The length of the key is kept in 16 bits. *)
Definition allocNode (key : bytes) (db : memdb) : option (memdb * addr) :=
  '(a, x) ← alloc (allocator db) (nodeHdrSize + Z.of_nat (length key)) true;
  let klen := Z.of_nat (length key) mod 65536 in
  let n := MkNode (MkAddr 0 0) (MkAddr 0 0) (MkAddr 0 0) nullAddr klen 0 (take (Z.to_nat klen) key) in
  Some (MkMemdb (MkTree (rb_root (tree db)) (<[x := n]> (rb_nodes (tree db)))) a (vlog db)
          (entrySizeLimit db) (bufferSizeLimit db) (db_count db + 1) (db_size db + Z.of_nat (length key))
          (vlogInvalid db) (db_dirty db) (stages db), x).

(** [traverse(key, true)]. *)
Definition traverse_insert (key : bytes) (db : memdb) : option (memdb * addr) :=
  let '(x, y, found) := walk (node_fuel (tree db)) (tree db) key (rb_root (tree db)) nullAddr in
  if (found : bool) then Some (db, x)
  else
    '(db, z) ← allocNode key db;
    Some (with_tree (insert_node z y (tree db)) db, z).

Definition deleteNode (z : addr) (db : memdb) : memdb :=
  MkMemdb (delete_node z (tree db)) (allocator db) (vlog db) (entrySizeLimit db) (bufferSizeLimit db)
    (db_count db - 1) (db_size db - n_klen (getNode (tree db) z)) (vlogInvalid db) (db_dirty db) (stages db).

(** ** Reading *)

Definition mem_Get (key : bytes) (db : memdb) : option (kvres bytes) :=
  if vlogInvalid db then None
  else
    let x := find (tree db) key in
    if isNull x then Some (Err ErrNotExist)
    else
      let vptr := n_vptr (getNode (tree db) x) in
      if isNull vptr then Some (Err ErrNotExist)
      else Some (Ok (getValue (vlog db) vptr)).

Definition GetFlags (key : bytes) (db : memdb) : kvres Z :=
  let x := find (tree db) key in
  if isNull x then Err ErrNotExist else Ok (getKeyFlags (getNode (tree db) x)).

Definition mem_Len (db : memdb) : Z := db_count db.
Definition Size (db : memdb) : Z := db_size db.
Definition Dirty (db : memdb) : bool := db_dirty db.

(** ** Writing *)

Definition setValue (x : addr) (value : bytes) (db : memdb) : option memdb :=
  let activeCp := last (stages db) in
  let vptr := n_vptr (getNode (tree db) x) in
  let oldVal := if isNull vptr then [] else getValue (vlog db) vptr in
  if (0 <? length oldVal)%nat && canModify activeCp vptr && (length oldVal =? length value)%nat then
    let lenOff := addr_off vptr - memdbVlogHdrSize in
    Some (with_vlog (write_at (vlog db) (MkAddr (addr_idx vptr) (lenOff - Z.of_nat (length oldVal))) value) db)
  else
    '(l, v) ← appendValue (vlog db) x vptr value;
    let db := with_vlog l (with_tree (upd x (set_n_vptr v) (tree db)) db) in
    Some (with_size (db_size db - Z.of_nat (length oldVal) + Z.of_nat (length value)) db).

(** [value] is [None] for a nil value. *)
Definition mem_set (key : bytes) (value : option bytes) (ops : list FlagsOp) (db : memdb)
    : option (memdb * option memerror) :=
  if vlogInvalid db then None
  else
    let size := Z.of_nat (length key) + match value with Some v => Z.of_nat (length v) | None => 0 end in
    if bool_decide (is_Some value) && (entrySizeLimit db <? size) then
      Some (db, Some (ErrEntryTooLarge (entrySizeLimit db) size))
    else
      let db := if bool_decide (stages db = []) then with_dirty true db else db in
      '(db, x) ← traverse_insert key db;
      let db := match ops with
                | [] => db
                | _ =>
                    let flags := applyFlagsOps (getKeyFlags (getNode (tree db) x)) ops in
                    let db := if negb (Z.land flags persistentFlags =? 0) then with_dirty true db else db in
                    with_tree (upd x (setKeyFlags flags) (tree db)) db
                end in
      match value with
      | None => Some (db, None)
      | Some v =>
          db ← setValue x v db;
          if bufferSizeLimit db <? Size db then Some (db, Some (ErrTxnTooLarge (Size db)))
          else Some (db, None)
      end.

Definition UpdateFlags (key : bytes) (ops : list FlagsOp) (db : memdb) : option memdb :=
  '(db, _) ← mem_set key None ops db; Some db.

Definition SetWithFlags (key value : bytes) (ops : list FlagsOp) (db : memdb) : option (memdb * option memerror) :=
  if is_nil value then Some (db, Some ErrCannotSetNilValue) else mem_set key (Some value) ops db.

Definition mem_Set (key value : bytes) (db : memdb) : option (memdb * option memerror) :=
  if is_nil value then Some (db, Some ErrCannotSetNilValue) else mem_set key (Some value) [] db.

Definition mem_Delete (key : bytes) (db : memdb) : option (memdb * option memerror) := mem_set key (Some []) [] db.

(** ** Stages *)

Definition Staging (db : memdb) : memdb * Z :=
  let db := with_stages (stages db ++ [checkpoint (vlog db)]) db in
  (db, Z.of_nat (length (stages db))).

(** [db.stages[:h-1]]. *)
Definition cut_stages (h : Z) (db : memdb) : memdb := with_stages (take (Z.to_nat (h - 1)) (stages db)) db.

Definition Release (h : Z) (db : memdb) : option memdb :=
  if negb (h =? Z.of_nat (length (stages db))) then None
  else
    match stages db with
    | [] => None
    | cp :: _ =>
        let db := if (h =? 1) && negb (isSamePosition cp (checkpoint (vlog db))) then with_dirty true db else db in
        Some (cut_stages h db)
    end.

(** One record of [revertToCheckpoint]. *)
Definition revert_record (hdr : memdbVlogHdr) (db : memdb) : memdb :=
  let node := hdr_nodeAddr hdr in
  let db := with_tree (upd node (set_n_vptr (hdr_oldValue hdr)) (tree db)) db in
  let db := with_size (db_size db - hdr_valueLen hdr) db in
  if isNull (hdr_oldValue hdr) then
    let keptFlags := Z.land (getKeyFlags (getNode (tree db) node)) persistentFlags in
    if keptFlags =? 0 then deleteNode node db
    else with_dirty true (with_tree (upd node (setKeyFlags keptFlags) (tree db)) db)
  else with_size (db_size db + Z.of_nat (length (getValue (vlog db) (hdr_oldValue hdr)))) db.

Fixpoint revert_loop (fuel : nat) (cp cursor : memdbCheckpoint) (db : memdb) : memdb :=
  match fuel with
  | O => db
  | S fuel' =>
      if isSamePosition cp cursor then db
      else
        let hdr := load_hdr_at (vlog db) (cp_blocks cursor - 1) (cp_offsetInBlock cursor - memdbVlogHdrSize) in
        let db := revert_record hdr db in
        revert_loop fuel' cp (moveBackCursor (vlog db) cursor hdr) db
  end.

Definition revertToCheckpoint (cp : memdbCheckpoint) (db : memdb) : memdb :=
  revert_loop (log_fuel (vlog db)) cp (checkpoint (vlog db)) db.

Definition mem_Cleanup (h : Z) (db : memdb) : option memdb :=
  if Z.of_nat (length (stages db)) <? h then Some db
  else if h <? Z.of_nat (length (stages db)) then None
  else
    match last (stages db) with
    | None => None
    | Some cp =>
        let db := if negb (vlogInvalid db) then
                    let db := revertToCheckpoint cp db in with_vlog (truncate (vlog db) cp) db
                  else db in
        Some (cut_stages h db)
    end.

Definition mem_Reset (db : memdb) : memdb :=
  MkMemdb empty_tree arena_reset arena_reset (entrySizeLimit db) (bufferSizeLimit db) 0 0 false false [].

Definition DiscardValues (db : memdb) : memdb :=
  MkMemdb (tree db) (allocator db) arena_reset (entrySizeLimit db) (bufferSizeLimit db) (db_count db) (db_size db)
    true (db_dirty db) (stages db).

(** [inspectKVInLog]; [f] threads the state that its closure writes. *)
Fixpoint inspect_loop {A} (fuel : nat) (db : memdb) (head cursor : memdbCheckpoint)
    (f : A -> bytes -> Z -> bytes -> A) (acc : A) : A :=
  match fuel with
  | O => acc
  | S fuel' =>
      if isSamePosition head cursor then acc
      else
        let cursorAddr := MkAddr (u32_wrap (cp_blocks cursor - 1)) (u32_wrap (cp_offsetInBlock cursor)) in
        let hdrOff := u32_wrap (addr_off cursorAddr - memdbVlogHdrSize) in
        let hdr := load_hdr_at (vlog db) (addr_idx cursorAddr) hdrOff in
        let node := getNode (tree db) (hdr_nodeAddr hdr) in
        let acc := if eqa (n_vptr node) cursorAddr then
                     f acc (n_key node) (getKeyFlags node)
                       (slice (block_buf (vlog db) (addr_idx cursorAddr)) (u32_wrap (hdrOff - hdr_valueLen hdr)) hdrOff)
                   else acc in
        inspect_loop fuel' db head (moveBackCursor (vlog db) cursor hdr) f acc
  end.

Definition InspectStage {A} (handle : Z) (db : memdb) (f : A -> bytes -> Z -> bytes -> A) (acc : A) : option A :=
  head ← (if handle <=? 0 then None else stages db !! Z.to_nat (handle - 1));
  Some (inspect_loop (log_fuel (vlog db)) db head (checkpoint (vlog db)) f acc).

(** ** Iterators *)

(** [it_db] is the buffer the iterator points to, [None] a nil bound. *)
Record memdbIterator : Type := MkIter {
  it_db : memdb;
  it_curr : addr;
  it_start : bytes;
  it_end : option bytes;
  it_reverse : bool;
  it_includeFlags : bool;
}.

Definition set_curr (a : addr) (i : memdbIterator) : memdbIterator :=
  MkIter (it_db i) a (it_start i) (it_end i) (it_reverse i) (it_includeFlags i).

Definition curr_node (i : memdbIterator) : memdbNode := getNode (tree (it_db i)) (it_curr i).

Definition isFlagsOnly (i : memdbIterator) : bool :=
  negb (isNull (it_curr i)) && isNull (n_vptr (curr_node i)).

Definition it_Key (i : memdbIterator) : bytes := n_key (curr_node i).
Definition it_Value (i : memdbIterator) : bytes := getValue (vlog (it_db i)) (n_vptr (curr_node i)).
Definition it_Flags (i : memdbIterator) : Z := getKeyFlags (curr_node i).
Definition HasValue (i : memdbIterator) : bool := negb (isFlagsOnly i).

Definition mem_Valid (i : memdbIterator) : bool :=
  if negb (it_reverse i) then
    negb (isNull (it_curr i)) && match it_end i with None => true | Some e => bltb (it_Key i) e end
  else negb (isNull (it_curr i)).

Fixpoint next_loop (fuel : nat) (i : memdbIterator) : memdbIterator :=
  match fuel with
  | O => i
  | S fuel' =>
      let t := tree (it_db i) in
      let i := set_curr (if it_reverse i then predecessor t (it_curr i) else successor t (it_curr i)) i in
      if it_includeFlags i || negb (isFlagsOnly i) then i else next_loop fuel' i
  end.

Definition mem_Next (i : memdbIterator) : memdbIterator := next_loop (node_fuel (tree (it_db i))) i.

Definition seekToFirst (i : memdbIterator) : memdbIterator :=
  let t := tree (it_db i) in
  set_curr (if isNull (rb_root t) then nullAddr else leftmost (node_fuel t) t (rb_root t)) i.
Definition seekToLast (i : memdbIterator) : memdbIterator :=
  let t := tree (it_db i) in
  set_curr (if isNull (rb_root t) then nullAddr else rightmost (node_fuel t) t (rb_root t)) i.

(** The walk of [seek]: the last node and the last comparison. *)
Fixpoint seek_walk (fuel : nat) (t : rbtree) (key : bytes) (x y : addr) (cmp : comparison) : addr * comparison :=
  match fuel with
  | O => (y, cmp)
  | S fuel' =>
      if isNull x then (y, cmp)
      else
        match bytes_compare key (n_key (getNode t x)) with
        | Lt => seek_walk fuel' t key (left t x) x Lt
        | Gt => seek_walk fuel' t key (right t x) x Gt
        | Eq => (x, Eq)
        end
  end.

Definition seek (key : bytes) (i : memdbIterator) : memdbIterator :=
  let t := tree (it_db i) in
  let '(y, cmp) := seek_walk (node_fuel t) t key (rb_root t) nullAddr Eq in
  if negb (it_reverse i) then
    match cmp with
    | Gt => set_curr (successor t y) i
    | _ => set_curr y i
    end
  else
    if match cmp with Gt => false | _ => true end && negb (isNull y) then set_curr (predecessor t y) i
    else set_curr y i.

Definition it_init (i : memdbIterator) : memdbIterator :=
  let i := if it_reverse i then
             match it_end i with
             | None | Some [] => seekToLast i
             | Some e => seek e i
             end
           else if is_nil (it_start i) then seekToFirst i else seek (it_start i) i in
  if isFlagsOnly i && negb (it_includeFlags i) then mem_Next i else i.

Definition mem_Iter (k : bytes) (upperBound : option bytes) (db : memdb) : memdbIterator :=
  it_init (MkIter db nullAddr k upperBound false false).
Definition mem_IterReverse (k : option bytes) (db : memdb) : memdbIterator :=
  it_init (MkIter db nullAddr [] k true false).
Definition IterWithFlags (k : bytes) (upperBound : option bytes) (db : memdb) : memdbIterator :=
  it_init (MkIter db nullAddr k upperBound false true).
Definition IterReverseWithFlags (k : option bytes) (db : memdb) : memdbIterator :=
  it_init (MkIter db nullAddr [] k true true).

(** ** Snapshots *)

Definition getSnapshot (db : memdb) : memdbCheckpoint :=
  match stages db with cp :: _ => cp | [] => checkpoint (vlog db) end.

(** [Get] of a snapshot getter with the checkpoint [cp]. *)
Definition snap_Get (cp : memdbCheckpoint) (key : bytes) (db : memdb) : kvres bytes :=
  let x := find (tree db) key in
  if isNull x then Err ErrNotExist
  else
    let vptr := n_vptr (getNode (tree db) x) in
    if isNull vptr then Err ErrNotExist
    else match getSnapshotValue (vlog db) vptr cp with Some v => Ok v | None => Err ErrNotExist end.

Record memdbSnapIter : Type := MkSnapIter {
  si_it : memdbIterator;
  si_value : option bytes;
  si_cp : memdbCheckpoint;
}.

(** [setValue] of a snapshot iterator: whether it stands on a value. *)
Definition snap_value (i : memdbIterator) (cp : memdbCheckpoint) : option bytes :=
  if negb (mem_Valid i) then None
  else getSnapshotValue (vlog (it_db i)) (n_vptr (curr_node i)) cp.

Fixpoint snap_next_loop (fuel : nat) (cp : memdbCheckpoint) (i : memdbIterator) : memdbSnapIter :=
  match fuel with
  | O => MkSnapIter i None cp
  | S fuel' =>
      if mem_Valid i then
        let i := mem_Next i in
        match snap_value i cp with
        | Some v => MkSnapIter i (Some v) cp
        | None => snap_next_loop fuel' cp i
        end
      else MkSnapIter i None cp
  end.

Definition snap_Next (i : memdbSnapIter) : memdbSnapIter :=
  snap_next_loop (node_fuel (tree (it_db (si_it i)))) (si_cp i) (si_it i).

Definition SnapshotIter (start : bytes) (end' : option bytes) (db : memdb) : memdbSnapIter :=
  let i := MkIter db nullAddr start end' false false in
  let i := if is_nil start then seekToFirst i else seek start i in
  let cp := getSnapshot db in
  match snap_value i cp with
  | Some v => MkSnapIter i (Some v) cp
  | None => snap_Next (MkSnapIter i None cp)
  end.
