(* ===== verification/MemWalk.v ===== *)
(** * Walking the tree in the order of the keys

    The neighbours of a node are its neighbours in the in-order list, and a
    seek stops at the first node at or above a key, or, backwards, at the last
    one below it; the second part is what the iterators visit. *)

From stdpp Require Import base gmap list sorting strings.
From Stdlib Require Import Strings.Byte ZArith Lia Sorted.
From S2P Require Import Prelude External Marshal KvUnion MemArena MemTree MemTreeRep MemTreeInsert MemTreeDelete Memdb.

Open Scope Z_scope.

(** The nodes of the tree, in order. *)
Definition InOrder (s : rbtree) (l : list addr) : Prop := exists t, Rep s [] t /\ addrs t = l.

Lemma Tree_InOrder s l : Tree s l -> InOrder s l.
Proof. intros (t & _ & R & _ & A & _). by exists t. Qed.

Lemma InOrder_mir s l : InOrder s l -> InOrder (mir s) (reverse l).
Proof.
  intros (t & R & <-). exists (mirt t). split; [|apply addrs_mir]. apply (Rep_mir s []) in R. exact R.
Qed.

(** The first and the last address of a list, or the null address. *)
Definition first_of (l : list addr) : addr := default nullAddr (head l).
Definition last_of (l : list addr) : addr := default nullAddr (last l).

Lemma first_reverse l : first_of (reverse l) = last_of l.
Proof. unfold first_of, last_of. by rewrite head_reverse. Qed.

Lemma last_reverse_of l : last_of (reverse l) = first_of l.
Proof. unfold first_of, last_of. by rewrite last_reverse. Qed.

Lemma first_of_app l l' : first_of (l ++ l') = match l with [] => first_of l' | a :: _ => a end.
Proof. by destruct l. Qed.

Lemma last_of_snoc l a : last_of (l ++ [a]) = a.
Proof. unfold last_of. by rewrite last_snoc. Qed.

(** ** Neighbours *)

Lemma leftmost_first fuel s k c l a r :
  Rep s k (T c l a r) -> (height l < fuel)%nat -> leftmost fuel s a = first_of (addrs (T c l a r)).
Proof.
  intros R H. destruct (leftmost_spec _ _ _ _ _ _ _ R H) as (kr & cy & y & ry & -> & Eb & ->).
  by rewrite addrs_plug, Eb.
Qed.

Lemma up_from_right_spec fuel s : forall k c l a r,
  Rep s k (T c l a r) -> (length k < fuel)%nat -> up_from_right fuel s a (parent k) = first_of (after k).
Proof.
  induction fuel as [|fuel IH]; [lia|]. intros [|[c' p r'|c' l' p] k] c l a r R H; [done|..]; cbn [up_from_right parent faddr length] in *.
  - apply Rep_FL in R. pose proof (Rep_node _ _ _ _ _ _ R) as (Np & _ & _ & _ & Er & _).
    rewrite isNull_false, Er by done. cbn [negb andb after]. rewrite eqa_false; [done|].
    intros Ea. destruct (root_elem _ _ _ (proj2 (proj2 (R_tree _ _ _ R)))) as [E0|E0].
    + apply Rep_FL, Rep_node in R. destruct R as [N _]. congruence.
    + rewrite <- Ea in E0. destruct (Rep_apart _ _ _ _ _ _ R) as (_ & _ & _ & _ & _ & D & _).
      destruct (D a) as [N _]; [|done]. cbn. rewrite elem_of_app, elem_of_cons. auto.
  - apply Rep_FR in R. pose proof (Rep_node _ _ _ _ _ _ R) as (Np & _ & Up & _ & Er & _).
    rewrite isNull_false, Er, Up by done. cbn [negb andb root_of after]. rewrite eqa_true.
    eapply IH; [exact R|lia].
Qed.

Lemma successor_rep s k c l a r : Rep s k (T c l a r) -> successor s a = first_of (addrs r ++ after k).
Proof.
  intros R. pose proof (Rep_fuel _ _ _ R) as F. pose proof (Rep_node _ _ _ _ _ _ R) as (_ & _ & Ua & _ & Ra & _).
  unfold successor. rewrite Ra. destruct r as [|c' l' a' r'].
  - cbn [root_of addrs app]. rewrite isNull_null. cbn [negb]. rewrite Ua. eapply up_from_right_spec; [exact R|lia].
  - apply Rep_FR in R. pose proof (Rep_node _ _ _ _ _ _ R) as (N & _). cbn [root_of]. rewrite isNull_false by done.
    cbn [negb]. rewrite (leftmost_first _ _ _ _ _ _ _ R) by (cbn [height] in F; lia).
    rewrite first_of_app. cbn [addrs]. by destruct (addrs l').
Qed.

(** The successor of a node is the next one in the order. *)
Lemma successor_spec s l1 a l2 : InOrder s (l1 ++ a :: l2) -> successor s a = first_of l2.
Proof.
  intros (t & R & A). destruct (locate a t) as (k & c & l & r & <-); [rewrite A, elem_of_app, elem_of_cons; auto|].
  pose proof (R_nodup _ _ _ R) as ND. cbn in ND. rewrite app_nil_r, A in ND.
  apply Rep_down_to in R. rewrite (successor_rep _ _ _ _ _ _ R). f_equal.
  rewrite addrs_plug in A. cbn [addrs] in A. rewrite <- app_assoc in A. cbn [app] in A. rewrite app_assoc in A.
  by destruct (split_unique _ _ _ _ _ A ND).
Qed.

(** Mirrored, going left is going right. *)
Lemma rightmost_mir fuel s y : rightmost fuel s y = leftmost fuel (mir s) y.
Proof.
  revert y. induction fuel as [|fuel IH]; intros y; [done|]. cbn [rightmost leftmost]. rewrite left_mir, IH. done.
Qed.

Lemma up_from_left_mir fuel s x y : up_from_left fuel s x y = up_from_right fuel (mir s) x y.
Proof.
  revert x y. induction fuel as [|fuel IH]; intros x y; [done|]. cbn [up_from_left up_from_right].
  rewrite right_mir, up_mir, IH. done.
Qed.

Lemma node_fuel_mir s : node_fuel (mir s) = node_fuel s.
Proof. unfold node_fuel, mir. cbn [rb_nodes]. by rewrite map_size_fmap. Qed.

Lemma predecessor_mir s x : predecessor s x = successor (mir s) x.
Proof.
  unfold predecessor, successor.
  by rewrite right_mir, up_mir, node_fuel_mir, rightmost_mir, up_from_left_mir.
Qed.

Lemma predecessor_spec s l1 a l2 : InOrder s (l1 ++ a :: l2) -> predecessor s a = last_of l1.
Proof.
  intros I. apply InOrder_mir in I. rewrite reverse_app, reverse_cons, <- app_assoc in I.
  rewrite predecessor_mir, (successor_spec _ _ _ _ I). apply first_reverse.
Qed.

(** The ends of the tree. *)
Lemma first_node s l : InOrder s l -> (if isNull (rb_root s) then nullAddr else leftmost (node_fuel s) s (rb_root s)) = first_of l.
Proof.
  intros (t & R & <-). rewrite (Rep_root _ _ R). destruct t as [|c l a r].
  - cbn [root_of]. by rewrite isNull_null.
  - pose proof (Rep_node _ _ _ _ _ _ R) as (N & _). pose proof (Rep_fuel _ _ _ R) as F. cbn [root_of height] in *.
    rewrite isNull_false by done. eapply leftmost_first; [exact R|lia].
Qed.

Lemma last_node s l : InOrder s l -> (if isNull (rb_root s) then nullAddr else rightmost (node_fuel s) s (rb_root s)) = last_of l.
Proof.
  intros I%InOrder_mir. apply first_node in I. rewrite first_reverse, node_fuel_mir, <- rightmost_mir in I. exact I.
Qed.

(** ** Seeking *)

(** Where the walk of [seek] ends: at the node of the key, or at an empty
    subtree where the key belongs, with the last comparison. *)
Lemma seek_walk_spec fuel s key : forall k t c0,
  (height t < fuel)%nat -> Rep s k t -> sorted_keys s (addrs t) ->
  (forall a, a ∈ before k -> key_of s a <b key) -> (forall a, a ∈ after k -> key <b key_of s a) ->
  c0 = (match k with [] => Eq | FL _ _ _ :: _ => Lt | FR _ _ _ :: _ => Gt end) ->
  (exists k' c l x r, seek_walk fuel s key (root_of t) (parent k) c0 = (x, Eq) /\ plug k' (T c l x r) = plug k t /\
     key_of s x = key) \/
  (exists k', seek_walk fuel s key (root_of t) (parent k) c0 =
       (parent k', match k' with [] => Eq | FL _ _ _ :: _ => Lt | FR _ _ _ :: _ => Gt end) /\
     plug k' E = plug k t /\
     (forall a, a ∈ before k' -> key_of s a <b key) /\ (forall a, a ∈ after k' -> key <b key_of s a)).
Proof.
  induction fuel as [|fuel IH]; [lia|]. intros k t c0 H R S Hb Ha ->. cbn [seek_walk].
  destruct t as [|c l x r]; [right; by exists k|]. cbn [root_of].
  pose proof (Rep_node _ _ _ _ _ _ R) as (Nx & _ & _ & Lx & Rx & _). rewrite isNull_false by done.
  cbn [addrs] in S. apply sorted_keys_app in S as (Slx & Sl & [Sxr Sr]%sorted_keys_cons). cbn in H.
  fold (key_of s x). destruct (bytes_compare key (key_of s x)) eqn:Ec.
  - left. exists k, c, l, x, r. apply bytes_compare_eq in Ec. done.
  - rewrite Lx. change x with (parent (FL c x r :: k)) at 1 3.
    apply (IH (FL c x r :: k) l); [lia|by apply Rep_FL|done|done| |done].
    intros a [->|[Hr|Hk]%elem_of_app]%elem_of_cons; [exact Ec| |by apply Ha].
    eapply blt_trans; [exact Ec|by apply Sxr].
  - rewrite Rx. change x with (parent (FR c l x :: k)) at 1 3.
    apply bytes_compare_Gt in Ec.
    apply (IH (FR c l x :: k) r); [lia|by apply Rep_FR|done| |done|done].
    intros a [Hk|[Hl| ->%list_elem_of_singleton]%elem_of_app]%elem_of_app; [by apply Hb| |done].
    eapply blt_trans; [|exact Ec]. apply Slx; [done|left].
Qed.

(** A seek goes to the first node at or above the key, or, backwards, to the
    last node below it. *)
Lemma seek_spec i l key :
  Tree (tree (it_db i)) l ->
  exists l1 l2, l = l1 ++ l2 /\
    (forall a, a ∈ l1 -> key_of (tree (it_db i)) a <b key) /\
    (forall a, a ∈ l2 -> key <=b key_of (tree (it_db i)) a) /\
    seek key i = set_curr (if it_reverse i then last_of l1 else first_of l2) i.
Proof.
  intros Tr. pose proof (Tree_InOrder _ _ Tr) as I. destruct Tr as (t & n & R & B & A & S).
  set (s := tree (it_db i)) in *. unfold seek. cbn zeta. fold s. rewrite (Rep_root _ _ R). subst l.
  pose proof (Rep_fuel _ _ _ R) as F.
  destruct (seek_walk_spec (node_fuel s) s key [] t Eq) as [(k & c & l & x & r & E & P & Ek)|(k & E & P & Hb & Ha)];
    [cbn in F; lia|done|done|by intros a []%not_elem_of_nil|by intros a []%not_elem_of_nil|done|..];
    cbn [parent plug] in E, P; rewrite E; subst t; rewrite addrs_plug in *; cbn [addrs app] in *.
  - rewrite <- app_assoc in *. cbn [app] in *. rewrite app_assoc in *. exists (before k ++ addrs l), (x :: addrs r ++ after k).
    apply sorted_keys_app in S as (S1 & _ & [S2 _]%sorted_keys_cons). split_and!; [done|..].
    + intros a Ha. rewrite <- Ek. apply S1; [done|left].
    + intros a [->|Ha]%elem_of_cons; rewrite <- Ek; [apply ble_refl|by apply blt_ble, S2].
    + destruct (it_reverse i); cbn [negb]; [|done].
      assert (x <> nullAddr) as N.
      { apply Rep_down_to, Rep_node in R. by destruct R as (N & _). }
      rewrite isNull_false by done. cbn [andb negb]. by rewrite (predecessor_spec _ _ _ _ I).
  - exists (before k), (after k). split_and!; [done|done|by intros a ?%Ha; apply blt_ble|].
    destruct k as [|[c y r|c l y] k]; cbn [parent faddr before after] in *.
    + cbn. by destruct (it_reverse i).
    + apply Rep_down_to, Rep_FL, Rep_node in R. destruct R as (N & _).
      destruct (it_reverse i); cbn [negb andb]; [|done].
      rewrite isNull_false by done. cbn [negb]. by rewrite (predecessor_spec _ _ _ _ I).
    + rewrite !app_assoc, <- (app_assoc (before k ++ addrs l)) in *. cbn [app] in I.
      destruct (it_reverse i); cbn [negb andb].
      * by rewrite last_of_snoc.
      * by rewrite (successor_spec _ _ _ _ I).
Qed.

(** ** The order as a function *)

Fixpoint inorder_from (fuel : nat) (s : rbtree) (x : addr) : list addr :=
  match fuel with
  | O => []
  | S fuel' => if isNull x then [] else inorder_from fuel' s (left s x) ++ x :: inorder_from fuel' s (right s x)
  end.

Definition inorder (s : rbtree) : list addr := inorder_from (node_fuel s) s (rb_root s).

Lemma inorder_from_spec fuel s : forall k t,
  Rep s k t -> (height t < fuel)%nat -> inorder_from fuel s (root_of t) = addrs t.
Proof.
  induction fuel as [|fuel IH]; [lia|]. intros k t R H. cbn [inorder_from]. destruct t as [|c l a r].
  - cbn [root_of]. by rewrite isNull_null.
  - pose proof (Rep_node _ _ _ _ _ _ R) as (N & _ & _ & L & Rr & _). cbn [root_of]. rewrite isNull_false by done.
    rewrite L, Rr. cbn in H. cbn [addrs]. rewrite (IH (FL c a r :: k) l), (IH (FR c l a :: k) r); [done|..];
      by apply Rep_FR || by apply Rep_FL || lia.
Qed.

Lemma inorder_spec s l : InOrder s l -> inorder s = l.
Proof.
  intros (t & R & <-). unfold inorder. rewrite (Rep_root _ _ R). pose proof (Rep_fuel _ _ _ R).
  eapply inorder_from_spec; [exact R|]. cbn in *. lia.
Qed.

(** * What the iterators of the transaction buffer visit

    An iterator visits, in the order of the keys or against it, the nodes of its
    range: all of them, or those with a value. *)

#[export] Instance mem_iterator : KvIterator memdbIterator := {|
  iter_Valid := mem_Valid;
  iter_Key := it_Key;
  iter_Value := it_Value;
  iter_Next i := Ok (mem_Next i);
|}.

(** The iterator visits the nodes of the list. *)
Inductive visits : memdbIterator -> list addr -> Prop :=
| visits_end i : mem_Valid i = false -> visits i []
| visits_step i l : mem_Valid i = true -> visits (mem_Next i) l -> visits i (it_curr i :: l).

Section iter.
Context (db : memdb) (l : list addr).
Context (Tr : Tree (tree db) l).

Definition has_value (a : addr) : Prop := n_vptr (getNode (tree db) a) <> nullAddr.
Definition visible (flags : bool) (a : addr) : Prop := flags = true \/ has_value a.
#[global] Instance has_value_dec a : Decision (has_value a).
Proof. unfold has_value. apply _. Defined.
#[global] Instance visible_dec flags a : Decision (visible flags a).
Proof. unfold visible. apply _. Defined.

(** The end of the range, which only iterators forward check. *)
Definition before_end (reverse : bool) (e : option bytes) (a : addr) : Prop :=
  reverse = true \/ match e with None => True | Some e => key_of (tree db) a <b e end.
#[global] Instance before_end_dec reverse e a : Decision (before_end reverse e a).
Proof. unfold before_end. destruct e; apply _. Defined.

(** The nodes of the range that the iterator shows. *)
Definition passes (i : memdbIterator) (a : addr) : Prop :=
  visible (it_includeFlags i) a /\ before_end (it_reverse i) (it_end i) a.
#[global] Instance passes_dec i a : Decision (passes i a).
Proof. unfold passes. apply _. Defined.

Lemma filter_passes i (m : list addr) :
  filter (passes i) m = filter (before_end (it_reverse i) (it_end i)) (filter (visible (it_includeFlags i)) m).
Proof. by apply filter_both. Qed.

Definition directed (rev : bool) (m : list addr) : list addr := if rev then reverse m else m.

(** The iterator stands at the first node of [rest], or after all of them. *)
Record stands (i : memdbIterator) (rest : list addr) : Prop := {
  st_db : it_db i = db;
  st_at : exists pre, directed (it_reverse i) l = pre ++ rest;
  st_curr : it_curr i = first_of rest;
}.

Definition shown (i : memdbIterator) (rest : list addr) : Prop :=
  match rest with [] => True | a :: _ => visible (it_includeFlags i) a end.

Lemma stands_elem i rest a : stands i rest -> a ∈ rest -> a ∈ l.
Proof.
  intros [_ [pre E] _] Ha. assert (a ∈ directed (it_reverse i) l) as H by (rewrite E, elem_of_app; auto).
  unfold directed in H. destruct (it_reverse i); [by rewrite elem_of_reverse in H|done].
Qed.

Lemma isNull_elem a : a ∈ l -> isNull a = false.
Proof. intros H. apply isNull_false. by destruct (Tree_nonnull _ _ _ Tr H). Qed.

Lemma first_of_null (rest : list addr) : (forall a, a ∈ rest -> a ∈ l) -> isNull (first_of rest) = bool_decide (rest = []).
Proof. intros H. destruct rest as [|a rest]; [done|]. rewrite bool_decide_false by done. apply isNull_elem, H, elem_of_cons. by left. Qed.

Lemma neighbour i a rest :
  stands i (a :: rest) ->
  (if it_reverse i then predecessor (tree (it_db i)) (it_curr i) else successor (tree (it_db i)) (it_curr i)) = first_of rest.
Proof.
  intros [-> [pre E] ->]. unfold directed in E. pose proof (Tree_InOrder _ _ Tr) as I. change (first_of (a :: rest)) with a.
  destruct (it_reverse i).
  - apply (f_equal reverse) in E. rewrite reverse_involutive, reverse_app, reverse_cons, <- app_assoc in E.
    rewrite E in I. rewrite (predecessor_spec _ _ _ _ I). apply last_reverse_of.
  - rewrite E in I. apply (successor_spec _ _ _ _ I).
Qed.

Lemma stands_next i a rest : stands i (a :: rest) -> stands (set_curr (first_of rest) i) rest.
Proof.
  intros [D [pre E] _]. split; [done| |done]. exists (pre ++ [a]). cbn [set_curr it_reverse]. by rewrite <- app_assoc.
Qed.

Lemma isFlagsOnly_spec i rest :
  stands i rest ->
  isFlagsOnly i = match rest with [] => false | a :: _ => negb (bool_decide (has_value a)) end.
Proof.
  intros S. unfold isFlagsOnly, curr_node. rewrite (st_curr _ _ S), (st_db _ _ S). destruct rest as [|a rest]; [done|].
  rewrite first_of_null by (intros b; by apply (stands_elem i)). cbn. unfold has_value, isNull.
  by destruct (decide (n_vptr (getNode (tree db) a) = nullAddr)) as [E|E]; repeat case_bool_decide.
Qed.

(** [Next] skips the nodes that are not shown. *)
Lemma next_loop_spec fuel : forall i a rest,
  stands i (a :: rest) -> (length rest < fuel)%nat ->
  exists rest', next_loop fuel i = set_curr (first_of rest') i /\ stands (next_loop fuel i) rest' /\
    shown i rest' /\ (length rest' <= length rest)%nat /\
    filter (visible (it_includeFlags i)) rest' = filter (visible (it_includeFlags i)) rest.
Proof.
  induction fuel as [|fuel IH]; intros i a rest S H; [lia|]. cbn [next_loop]. rewrite (neighbour _ _ _ S).
  pose proof (stands_next _ _ _ S) as S'. rewrite (isFlagsOnly_spec _ _ S'). cbn [set_curr it_includeFlags].
  destruct rest as [|b rest]; [exists []; by rewrite orb_true_r|].
  destruct (decide (visible (it_includeFlags i) b)) as [V|V].
  - assert (it_includeFlags i || negb (negb (bool_decide (has_value b))) = true) as ->.
    { destruct V as [-> | V]; [done|]. by rewrite bool_decide_true, orb_true_r. }
    exists (b :: rest). done.
  - assert (it_includeFlags i || negb (negb (bool_decide (has_value b))) = false) as ->.
    { unfold visible in V. destruct (it_includeFlags i); [tauto|]. rewrite bool_decide_false; [done|tauto]. }
    destruct (IH _ _ _ S') as (rest' & E & St & Sh & L & Fe); [cbn in H; lia|].
    exists rest'. split_and!; [by rewrite E|done|done|cbn; lia|].
    cbn [set_curr it_includeFlags] in Fe. by rewrite Fe, filter_cons_False.
Qed.

Lemma length_fuel rest i : stands i rest -> (length rest < node_fuel (tree (it_db i)))%nat.
Proof.
  intros [-> [pre E] _]. destruct Tr as (t & n & R & _ & A & _). apply Rep_size in R. cbn in R. rewrite app_nil_r, A in R.
  assert (length (directed (it_reverse i) l) = length l) as El by (unfold directed; destruct (it_reverse i); by rewrite ?length_reverse).
  rewrite E, length_app in El. unfold node_fuel. lia.
Qed.

Lemma Next_spec i a rest :
  stands i (a :: rest) ->
  exists rest', mem_Next i = set_curr (first_of rest') i /\ stands (mem_Next i) rest' /\
    shown i rest' /\ (length rest' <= length rest)%nat /\
    filter (visible (it_includeFlags i)) rest' = filter (visible (it_includeFlags i)) rest.
Proof. intros S. apply (next_loop_spec _ i a); [done|]. apply length_fuel in S. cbn in S. lia. Qed.

Lemma Valid_spec i rest :
  stands i rest ->
  mem_Valid i = match rest with [] => false | a :: _ => bool_decide (before_end (it_reverse i) (it_end i) a) end.
Proof.
  intros S. unfold mem_Valid, it_Key, curr_node. rewrite (st_curr _ _ S), (st_db _ _ S).
  destruct rest as [|a rest].
  { by destruct (it_reverse i). }
  rewrite first_of_null by (intros b; by apply (stands_elem i)).
  change (n_key (getNode (tree db) (first_of (a :: rest)))) with (key_of (tree db) a). cbn [negb bool_decide decide_rel].
  unfold before_end. destruct (it_reverse i); cbn [negb]; [symmetry; apply bool_decide_true; by left|].
  destruct (it_end i) as [e|]; [|symmetry; apply bool_decide_true; by right].
  rewrite bool_decide_false by done. cbn [negb andb].
  destruct (bltb_spec (key_of (tree db) a) e); symmetry; [apply bool_decide_true; by right|].
  apply bool_decide_false. by intros [?|?].
Qed.

(** The keys of the directed list, from its first node on, in its order. *)
Definition ahead (rev : bool) (a b : addr) : Prop :=
  if rev then key_of (tree db) b <b key_of (tree db) a else key_of (tree db) a <b key_of (tree db) b.

Lemma directed_sorted rev : StronglySorted (ahead rev) (directed rev l).
Proof.
  destruct Tr as (_ & _ & _ & _ & _ & S). unfold sorted_keys in S.
  assert (StronglySorted (ahead false) l) as S'.
  { clear Tr. induction l as [|a m IH]; [constructor|]. apply sorted_keys_cons in S as [H S]. constructor; [by apply IH|].
    by apply Forall_forall. }
  destruct rev; [|exact S']. unfold directed. apply (StronglySorted_rev (ahead false)) in S'.
  rewrite rev_alt in S'. exact S'.
Qed.

Lemma stands_sorted i rest : stands i rest -> StronglySorted (ahead (it_reverse i)) rest.
Proof.
  intros [_ [pre E] _]. pose proof (directed_sorted (it_reverse i)) as S. rewrite E in S.
  by apply StronglySorted_app in S as (_ & _ & S).
Qed.

(** Past the end of the range everything is past it. *)
Lemma past_end rev e a rest :
  StronglySorted (ahead rev) (a :: rest) -> ~ before_end rev e a -> forall b, b ∈ rest -> ~ before_end rev e b.
Proof.
  intros S Na b Hb. apply StronglySorted_inv in S as [_ F]. rewrite Forall_forall in F. specialize (F b Hb).
  unfold before_end in *. destruct rev; [tauto|]. destruct e as [e|]; [|tauto]. cbn in F.
  intros [?|Lt]; [done|]. apply Na. right. by eapply blt_trans.
Qed.

Lemma visits_stands n : forall i rest,
  (length rest <= n)%nat -> stands i rest -> shown i rest ->
  visits i (filter (passes i) rest).
Proof.
  induction n as [|n IH]; intros i rest L S Sh.
  { destruct rest; [|cbn in L; lia]. constructor. by rewrite (Valid_spec _ _ S). }
  pose proof (Valid_spec _ _ S) as V. destruct rest as [|a rest]; [by constructor|].
  destruct (decide (before_end (it_reverse i) (it_end i) a)) as [B|B].
  - rewrite bool_decide_true in V by done. rewrite filter_cons_True by done.
    pose proof (st_curr _ _ S) as Ec. cbn in Ec. rewrite <- Ec at 1. constructor; [done|].
    destruct (Next_spec _ _ _ S) as (rest' & En & S' & Sh' & L' & F).
    rewrite En in *. rewrite filter_passes, <- F, <- filter_passes.
    apply (IH (set_curr (first_of rest') i) rest'); [cbn in L; lia|done|exact Sh'].
  - rewrite bool_decide_false in V by done. rewrite filter_none; [by constructor|].
    intros b [->|Hb]%elem_of_cons; [by intros [_ ?]|]. intros [_ Bb].
    by apply (past_end _ _ _ _ (stands_sorted _ _ S) B b Hb).
Qed.

(** ** Starting *)

(** The nodes that a seek does not pass. *)
Definition sought (rev : bool) (key : bytes) (a : addr) : Prop :=
  if rev then key_of (tree db) a <b key else key <=b key_of (tree db) a.
#[global] Instance sought_dec rev key a : Decision (sought rev key a).
Proof. unfold sought. destruct rev; apply _. Defined.

Lemma seek_stands i key :
  it_db i = db ->
  stands (seek key i) (filter (sought (it_reverse i) key) (directed (it_reverse i) l)) /\
  seek key i = set_curr (it_curr (seek key i)) i.
Proof.
  intros D. destruct (seek_spec i l key) as (l1 & l2 & El & H1 & H2 & E); [by rewrite D|]. rewrite D in *.
  split; [|by rewrite E]. rewrite E.
  assert (filter (sought true key) l2 = []) as F2 by (apply filter_none; intros a Ha%H2; by apply not_blt).
  assert (filter (sought false key) l1 = []) as F1 by (apply filter_none; intros a Ha%H1; by apply not_ble).
  assert (filter (sought true key) l1 = l1) as G1 by by apply filter_every.
  assert (filter (sought false key) l2 = l2) as G2 by by apply filter_every.
  split; cbn [set_curr it_db it_reverse it_curr]; [done|..]; unfold directed; destruct (it_reverse i).
  - rewrite filter_reverse, El, reverse_app, filter_app, F2, G1, app_nil_r. by exists (reverse l2).
  - rewrite El, filter_app, F1, G2. by exists l1.
  - rewrite filter_reverse, El, filter_app, F2, G1, app_nil_r. by rewrite first_reverse.
  - by rewrite El, filter_app, F1, G2.
Qed.

Lemma seekToFirst_stands i :
  it_db i = db -> it_reverse i = false -> stands (seekToFirst i) l /\ seekToFirst i = set_curr (first_of l) i.
Proof.
  intros D R. assert (seekToFirst i = set_curr (first_of l) i) as E.
  { unfold seekToFirst. cbn zeta. rewrite D, (first_node _ l); [done|]. by apply Tree_InOrder. }
  split; [|done]. rewrite E. split; cbn [set_curr it_db it_reverse it_curr]; rewrite ?R; [done|by exists []|done].
Qed.

Lemma seekToLast_stands i :
  it_db i = db -> it_reverse i = true -> stands (seekToLast i) (reverse l) /\ seekToLast i = set_curr (last_of l) i.
Proof.
  intros D R. assert (seekToLast i = set_curr (last_of l) i) as E.
  { unfold seekToLast. cbn zeta. rewrite D, (last_node _ l); [done|]. by apply Tree_InOrder. }
  split; [|done]. rewrite E. split; cbn [set_curr it_db it_reverse it_curr]; rewrite ?R;
    [done|by exists []|by rewrite first_reverse].
Qed.

(** The nodes from the start of the range on. *)
Definition from_start (rev : bool) (start : bytes) (e : option bytes) (a : addr) : Prop :=
  sought rev (if rev then default [] e else start) a \/ (rev = true /\ default [] e = []).
#[global] Instance from_start_dec rev start e a : Decision (from_start rev start e a).
Proof. unfold from_start. apply _. Defined.

Lemma init_seek i :
  it_db i = db ->
  let i' := if it_reverse i then match it_end i with None | Some [] => seekToLast i | Some e => seek e i end
            else if is_nil (it_start i) then seekToFirst i else seek (it_start i) i in
  stands i' (filter (from_start (it_reverse i) (it_start i) (it_end i)) (directed (it_reverse i) l)) /\
  i' = set_curr (it_curr i') i.
Proof.
  intros D i'. unfold i', from_start. destruct (it_reverse i) eqn:R.
  - assert ((it_end i = None \/ it_end i = Some []) \/ exists x e, it_end i = Some (x :: e)) as [E|(x & e & E)].
    { destruct (it_end i) as [[|x e]|]; eauto. }
    + destruct (seekToLast_stands i D R) as [S Es]. rewrite filter_every by (destruct E as [-> | ->]; auto).
      destruct E as [-> | ->]; rewrite Es in S |- *; done.
    + rewrite E. destruct (seek_stands i (x :: e) D) as [S Es]. rewrite R in S. cbn [default]. split; [|done].
      erewrite list_filter_iff; [exact S|]. intros a. split; [by intros [?|[_ ?]]|by left].
  - destruct (it_start i) as [|x k]; cbn [is_nil].
    + destruct (seekToFirst_stands i D R) as [S Es]. rewrite filter_every; [by rewrite Es in S |- *|].
      intros a _. left. apply nil_ble.
    + destruct (seek_stands i (x :: k) D) as [S Es]. rewrite R in S. split; [|done].
      erewrite list_filter_iff; [exact S|]. intros a. split; [by intros [?|[? _]]|by left].
Qed.

(** An iterator visits the nodes of its range that it shows. *)
Lemma init_visits i :
  it_db i = db ->
  visits (it_init i)
    (filter (passes i) (filter (from_start (it_reverse i) (it_start i) (it_end i)) (directed (it_reverse i) l))).
Proof.
  intros D. destruct (init_seek i D) as [S E]. unfold it_init. cbn zeta in *.
  set (i' := if it_reverse i then _ else _) in *. set (rest := filter _ _) in S.
  assert (exists rest', stands (if isFlagsOnly i' && negb (it_includeFlags i') then mem_Next i' else i') rest' /\
    (if isFlagsOnly i' && negb (it_includeFlags i') then mem_Next i' else i') = set_curr (first_of rest') i /\
    shown i rest' /\ filter (visible (it_includeFlags i)) rest' = filter (visible (it_includeFlags i)) rest) as (r & S' & E' & Sh & F).
  { assert (it_includeFlags i' = it_includeFlags i) as Ei by by rewrite E.
    rewrite (isFlagsOnly_spec _ _ S), Ei. destruct rest as [|a rest'].
    - exists []. cbn [andb]. split_and!; [done| |done|done]. rewrite E. by rewrite (st_curr _ _ S).
    - destruct (decide (visible (it_includeFlags i) a)) as [V|V].
      + assert (negb (bool_decide (has_value a)) && negb (it_includeFlags i) = false) as ->.
        { destruct V as [-> | V]; [by rewrite andb_false_r|]. by rewrite bool_decide_true. }
        exists (a :: rest'). split_and!; [done| |done|done]. rewrite E. by rewrite (st_curr _ _ S).
      + assert (negb (bool_decide (has_value a)) && negb (it_includeFlags i) = true) as ->.
        { unfold visible in V. destruct (it_includeFlags i); [tauto|]. rewrite bool_decide_false; [done|tauto]. }
        destruct (Next_spec _ _ _ S) as (rest'' & En & S' & Sh & _ & F). exists rest''. rewrite filter_cons_False by done.
        split_and!; [done| | |]; [rewrite En, E; done|rewrite E in Sh; exact Sh|rewrite <- Ei; exact F]. }
  rewrite E' in *.
  pose proof (visits_stands (length r) (set_curr (first_of r) i) r ltac:(lia) S' Sh) as V.
  fold rest. rewrite filter_passes, <- F, <- filter_passes. exact V.
Qed.
End iter.
