(* ===== verification/MemInv.v ===== *)
(** * The invariant of the transaction buffer

    The tree holds the nodes in the order of their keys; the log holds the
    records of the values, each linked to the previous record of its node; a
    node points to its newest record; the counters count. *)

From stdpp Require Import base gmap list sorting strings.
From Stdlib Require Import Strings.Byte ZArith Lia Sorted.
From S2P Require Import Prelude External Marshal KvUnion MemArena MemVlog MemTree MemTreeRep MemTreeInsert MemTreeDelete Memdb MemWalk.
Open Scope Z_scope.

Abbreviation logrec := (addr * vrec)%type.

(** ** The newest record of a node *)

Definition of_node (n : addr) (p : logrec) : Prop := r_node p.2 = n.
#[export] Instance of_node_dec n p : Decision (of_node n p).
Proof. unfold of_node. apply _. Defined.
#[global] Typeclasses Opaque of_node.

Definition newest (recs : list logrec) (n : addr) : option logrec := last (filter (of_node n) recs).
Definition latest (recs : list logrec) (n : addr) : addr := default nullAddr (fst <$> newest recs n).
Definition value_of (recs : list logrec) (n : addr) : option bytes := (fun p => r_val p.2) <$> newest recs n.

Lemma newest_app l1 l2 n : newest (l1 ++ l2) n = match newest l2 n with Some p => Some p | None => newest l1 n end.
Proof.
  unfold newest. rewrite filter_app. destruct (filter (of_node n) l2) as [|p l _] using rev_ind; [by rewrite app_nil_r|].
  by rewrite app_assoc, !last_snoc.
Qed.

Lemma newest_one p n : newest [p] n = if decide (r_node p.2 = n) then Some p else None.
Proof.
  unfold newest. case_decide as E; [rewrite filter_cons_True by done|rewrite filter_cons_False by done]; by rewrite filter_nil.
Qed.

Lemma newest_snoc l p n : newest (l ++ [p]) n = if decide (r_node p.2 = n) then Some p else newest l n.
Proof. rewrite newest_app, newest_one. by case_decide. Qed.

Lemma newest_Some l n p : newest l n = Some p -> p ∈ l /\ r_node p.2 = n.
Proof. unfold newest. intros H%last_Some_elem_of. apply list_elem_of_filter in H as [? ?]. done. Qed.

Lemma newest_None l n : newest l n = None <-> forall p, p ∈ l -> r_node p.2 <> n.
Proof.
  unfold newest. rewrite last_None. split.
  - intros E p Hp En. assert (p ∈ filter (of_node n) l) as H by (rewrite list_elem_of_filter; done).
    rewrite E in H. by apply not_elem_of_nil in H.
  - intros H. by apply filter_none.
Qed.

(** A record gives way to one of the same node. *)
Lemma newest_replace l1 a r r' l2 n :
  r_node r' = r_node r ->
  newest (l1 ++ (a, r') :: l2) n =
  match newest l2 n with Some p => Some p | None => if decide (r_node r = n) then Some (a, r') else newest l1 n end.
Proof.
  intros E. change ((a, r') :: l2) with ([(a, r')] ++ l2). rewrite !newest_app, newest_one. cbn. rewrite E.
  destruct (newest l2 n); [done|]. by case_decide.
Qed.

Lemma latest_replace l1 a r r' l2 n :
  r_node r' = r_node r -> latest (l1 ++ (a, r') :: l2) n = latest (l1 ++ (a, r) :: l2) n.
Proof.
  intros E. unfold latest. rewrite (newest_replace _ _ r), (newest_replace _ _ r) by done.
  destruct (newest l2 n); [done|]. by case_decide.
Qed.

Lemma latest_snoc l p n : latest (l ++ [p]) n = if decide (r_node p.2 = n) then p.1 else latest l n.
Proof. unfold latest. rewrite newest_snoc. by case_decide. Qed.

(** ** The writes of a list of records *)

Section writes.
Context (kf : addr -> bytes).

Definition writes (recs : list logrec) : gmap bytes bytes :=
  foldl (fun m p => <[kf (r_node p.2) := r_val p.2]> m) ∅ recs.

Lemma writes_snoc recs p : writes (recs ++ [p]) = <[kf (r_node p.2) := r_val p.2]> (writes recs).
Proof. unfold writes. by rewrite foldl_app. Qed.

Lemma writes_app l1 l2 : writes (l1 ++ l2) = writes l2 ∪ writes l1.
Proof.
  induction l2 as [|p l2 IH] using rev_ind; [rewrite app_nil_r; symmetry; apply (left_id_L ∅ (∪))|].
  by rewrite app_assoc, !writes_snoc, IH, insert_union_l.
Qed.

Lemma writes_key recs k : is_Some (writes recs !! k) <-> exists p, p ∈ recs /\ kf (r_node p.2) = k.
Proof.
  induction recs as [|p recs IH] using rev_ind.
  { split; [by intros [? ?]|by intros (? & ?%not_elem_of_nil & _)]. }
  rewrite writes_snoc, lookup_insert_is_Some. setoid_rewrite elem_of_app. setoid_rewrite list_elem_of_singleton. split.
  - intros [E|[_ H]]; [eauto|]. apply IH in H as (q & Hq & E). eauto.
  - intros (q & [Hq| ->] & E); [|by left]. destruct (decide (kf (r_node p.2) = k)); [by left|right].
    split; [done|]. apply IH. eauto.
Qed.

(** The nodes of the records have distinct keys: what a key holds is the value
    of the newest record of its node. *)
Lemma writes_value recs n :
  (forall p, p ∈ recs -> kf (r_node p.2) = kf n -> r_node p.2 = n) -> writes recs !! kf n = value_of recs n.
Proof.
  unfold value_of. induction recs as [|p recs IH] using rev_ind; intros U; [done|].
  rewrite writes_snoc, newest_snoc. destruct (decide (r_node p.2 = n)) as [E|N].
  - rewrite E, lookup_insert_eq. done.
  - rewrite lookup_insert_ne.
    + apply IH. intros q Hq. apply U. rewrite elem_of_app. by left.
    + intros E. apply N, U; [|done]. rewrite elem_of_app, list_elem_of_singleton. by right.
Qed.
End writes.

Lemma writes_ext kf kf' recs : (forall p, p ∈ recs -> kf (r_node p.2) = kf' (r_node p.2)) -> writes kf recs = writes kf' recs.
Proof.
  induction recs as [|p recs IH] using rev_ind; intros H; [done|]. setoid_rewrite elem_of_app in H.
  setoid_rewrite list_elem_of_singleton in H. rewrite !writes_snoc, H, IH; auto.
Qed.

(** ** Sums *)

Definition sum_of (f : addr -> Z) (l : list addr) : Z := foldr (fun a n => f a + n) 0 l.

Lemma sum_app f l1 l2 : sum_of f (l1 ++ l2) = sum_of f l1 + sum_of f l2.
Proof. induction l1 as [|a l1 IH]; [done|]. cbn. fold (sum_of f (l1 ++ l2)) (sum_of f l1). lia. Qed.

Lemma sum_middle f l1 a l2 : sum_of f (l1 ++ a :: l2) = f a + sum_of f (l1 ++ l2).
Proof. rewrite !sum_app. cbn. fold (sum_of f l2). lia. Qed.

Lemma sum_ext f g l : (forall a, a ∈ l -> f a = g a) -> sum_of f l = sum_of g l.
Proof.
  induction l as [|a l IH]; intros H; [done|]. cbn. rewrite (H a) by left. f_equal. apply IH. intros b Hb. apply H. by right.
Qed.

(** ** The invariant *)

Definition placed (arena : memdbMemCam) (a : addr) : Prop :=
  exists b, 0 <= addr_idx a /\ blocks arena !! Z.to_nat (addr_idx a) = Some b /\ 0 <= addr_off a < blk_length b.

Abbreviation node db a := (getNode (tree db) a).

Definition entry_size (db : memdb) (recs : list logrec) (a : addr) : Z :=
  Z.of_nat (length (n_key (node db a))) + Z.of_nat (length (default [] (value_of recs a))).

(** Every record is linked to the previous record of its node. *)
Definition old_ok (l : list addr) (recs : list logrec) : Prop :=
  forall l1 a r l2, recs = l1 ++ (a, r) :: l2 -> r_old r = latest l1 (r_node r) /\ r_node r ∈ l.

(** The log holds the records [recs], and after them the records [junk] that a
    cleanup has undone. *)
Record Inv (db : memdb) (l : list addr) (recs junk : list logrec) : Prop := {
  iv_tree : Tree (tree db) l;
  iv_count : db_count db = Z.of_nat (length l);
  iv_keys a : a ∈ l -> n_klen (node db a) = Z.of_nat (length (n_key (node db a))) /\
                       Z.of_nat (length (n_key (node db a))) < 65536;
  iv_arena : arena_ok (allocator db);
  iv_few : Z.of_nat (length (blocks (allocator db))) <= 4294967296;
  iv_nodes a : present (tree db) a -> a = nullAddr \/ placed (allocator db) a;
  iv_log : Vlog (vlog db) (recs ++ junk);
  iv_ptr a : a ∈ l -> n_vptr (node db a) = latest recs a;
  iv_old : old_ok l recs;
  iv_size : db_size db = sum_of (entry_size db recs) l;
  iv_valid : vlogInvalid db = false;
}.

(** ** Consequences *)

Lemma Inv_newest db l recs junk n p : Inv db l recs junk -> newest recs n = Some p ->
  p ∈ recs /\ r_node p.2 = n /\ n ∈ l /\ getValue (vlog db) p.1 = r_val p.2 /\ p.1 <> nullAddr.
Proof.
  intros I H. apply newest_Some in H as [Hp En]. split; [done|]. split; [done|]. destruct p as [a r]. cbn in *.
  pose proof Hp as Hj. apply list_elem_of_split in Hp as (l1 & l2 & E). destruct (iv_old _ _ _ _ I _ _ _ _ E) as [_ Hn].
  rewrite En in Hn. split; [done|].
  assert ((a, r) ∈ recs ++ junk) as Ha by (rewrite elem_of_app; by left).
  split; [by eapply Vlog_getValue; [apply I|]|by eapply Vlog_nonnull; [apply I|]].
Qed.

(** A node has a value or has none. *)
Lemma Inv_value db l recs junk a : Inv db l recs junk -> a ∈ l ->
  (n_vptr (node db a) = nullAddr /\ value_of recs a = None) \/
  (exists p, newest recs a = Some p /\ p ∈ recs /\ r_node p.2 = a /\ n_vptr (node db a) = p.1 /\ p.1 <> nullAddr /\
     value_of recs a = Some (r_val p.2) /\ getValue (vlog db) p.1 = r_val p.2).
Proof.
  intros I Ha. rewrite (iv_ptr _ _ _ _ I a Ha). unfold latest, value_of. destruct (newest recs a) as [p|] eqn:E; [right|by left].
  destruct (Inv_newest _ _ _ _ _ _ I E) as (? & ? & ? & ? & ?). exists p. done.
Qed.

(** The value as the code reads it. *)
Lemma Inv_oldVal db l recs junk a : Inv db l recs junk -> a ∈ l ->
  (if isNull (n_vptr (node db a)) then [] else getValue (vlog db) (n_vptr (node db a))) = default [] (value_of recs a).
Proof.
  intros I Ha. destruct (Inv_value _ _ _ _ _ I Ha) as [[-> ->]|(p & _ & _ & _ & -> & N & -> & E)]; [done|].
  by rewrite isNull_false.
Qed.

Lemma placed_addr_ok arena a : arena_ok arena -> Z.of_nat (length (blocks arena)) <= 4294967296 -> placed arena a -> addr_ok a.
Proof.
  intros [Ob _] Fw (b & P & Hb & O). pose proof (lookup_lt_Some _ _ _ Hb) as Lt.
  eapply (Forall_lookup_1 _ _ _ _ Ob) in Hb as [B1 B2]. unfold maxBlockSize in *. split; lia.
Qed.

Lemma Inv_addr_ok db l recs junk a : Inv db l recs junk -> a ∈ l -> addr_ok a.
Proof.
  intros I Ha. destruct (Tree_nonnull _ _ _ (iv_tree _ _ _ _ I) Ha) as [N P].
  apply (iv_nodes _ _ _ _ I) in P as [?|P]; [done|]. eapply placed_addr_ok; [apply I..|done].
Qed.

Lemma latest_addr_ok db l recs junk n : Inv db l recs junk -> addr_ok (latest recs n).
Proof.
  intros I. unfold latest. destruct (newest recs n) as [[a r]|] eqn:E; [|by split].
  apply newest_Some in E as [Hp _]. eapply (Vlog_addr_ok _ _ a r); [apply I|]. rewrite elem_of_app. by left.
Qed.

(** Writes to a node that keep its links, its color and its key keep the tree. *)
Definition keeps_links (f : memdbNode -> memdbNode) : Prop :=
  forall n, n_up (f n) = n_up n /\ n_left (f n) = n_left n /\ n_right (f n) = n_right n /\ isRed (f n) = isRed n /\
    n_key (f n) = n_key n /\ n_klen (f n) = n_klen n.

Lemma keeps_same s a b f : keeps_links f -> same s (upd b f s) a.
Proof.
  intros K. unfold same, up, left, right, red.
  assert (forall A (g : memdbNode -> A), (forall n, g (f n) = g n) -> g (getNode (upd b f s) a) = g (getNode s a)) as P.
  { intros A g H. by apply getNode_upd_proj. }
  split; [by rewrite present_upd|]. rewrite !P by (intros n; destruct (K n) as (? & ? & ? & ? & _); done). done.
Qed.

Lemma Tree_upd s l b f : keeps_links f -> Tree s l -> Tree (upd b f s) l.
Proof.
  intros K (t & n & [C R ND [Zp Zr]] & B & A & S). exists t, n. split_and!; [|done|done|].
  - split; [|by eapply rep_same; [intros; by apply keeps_same|]|done|].
    + eapply crep_same; [intros; by apply keeps_same|done|done].
    + destruct (keeps_same s nullAddr b f K) as (P & _ & _ & _ & ->). auto.
  - unfold sorted_keys in *. erewrite list_fmap_ext; [exact S|]. intros i a _. unfold key_of.
    apply getNode_upd_proj. intros m. by destruct (K m) as (_ & _ & _ & _ & ? & _).
Qed.

Lemma keeps_vptr v : keeps_links (set_n_vptr v).
Proof. done. Qed.

Lemma keeps_flags f : Z.land f nodeDefCausorBit = 0 -> keeps_links (setKeyFlags f).
Proof.
  intros E n. split_and!; try done. unfold isRed, setKeyFlags. cbn [n_flags set_n_flags]. do 2 f_equal.
  rewrite Z.land_lor_distr_l, E, Z.lor_0_r, Z.land_comm, Z.land_assoc.
  change (Z.land nodeDefCausorBit (u8_not nodeFlagsMask)) with nodeDefCausorBit. apply Z.land_comm.
Qed.

(** Key flags have seven bits. *)
Definition flags_ok (f : Z) : Prop := Z.land f nodeFlagsMask = f.

Lemma flags_ok_color f : flags_ok f -> Z.land f nodeDefCausorBit = 0.
Proof. intros <-. rewrite <- Z.land_assoc. change (Z.land nodeFlagsMask nodeDefCausorBit) with 0. apply Z.land_0_r. Qed.

Lemma flags_ok_get n : flags_ok (getKeyFlags n).
Proof. unfold flags_ok, getKeyFlags. by rewrite <- Z.land_assoc, Z.land_diag. Qed.

Lemma flags_ok_land f g : flags_ok f -> flags_ok (Z.land f g).
Proof. unfold flags_ok. intros E. by rewrite (Z.land_comm f g), <- Z.land_assoc, E. Qed.

Lemma flags_ok_lor f g : flags_ok f -> flags_ok g -> flags_ok (Z.lor f g).
Proof. unfold flags_ok. intros E1 E2. by rewrite Z.land_lor_distr_l, E1, E2. Qed.

Lemma flags_ok_apply ops f : flags_ok f -> flags_ok (applyFlagsOps f ops).
Proof.
  revert f. induction ops as [|op ops IH]; intros f H; [done|]. cbn. apply IH.
  destruct op; cbn; (apply flags_ok_lor || apply flags_ok_land); done.
Qed.

Lemma getKeyFlags_set f n : flags_ok f -> getKeyFlags (setKeyFlags f n) = f.
Proof.
  intros H. unfold getKeyFlags, setKeyFlags. cbn [n_flags set_n_flags]. rewrite Z.land_lor_distr_l, H.
  rewrite (Z.land_comm (u8_not nodeFlagsMask)), <- Z.land_assoc.
  change (Z.land (u8_not nodeFlagsMask) nodeFlagsMask) with 0. by rewrite Z.land_0_r.
Qed.

(** ** Finding and adding a node *)

(** The keys of the buffer and their flags. *)
Record flags_are (s : rbtree) (l : list addr) (F : gmap bytes Z) : Prop := {
  fl_node a : a ∈ l -> F !! key_of s a = Some (getKeyFlags (getNode s a));
  fl_key k f : F !! k = Some f -> exists a, a ∈ l /\ key_of s a = k;
}.

(** What the operations on nodes leave alone. *)
Record same_rest (db db' : memdb) : Prop := {
  sr_vlog : vlog db' = vlog db;
  sr_entry : entrySizeLimit db' = entrySizeLimit db;
  sr_buffer : bufferSizeLimit db' = bufferSizeLimit db;
  sr_dirty : db_dirty db' = db_dirty db;
  sr_stages : stages db' = stages db;
}.

Lemma placed_mono arena size align arena' x :
  arena_ok arena -> 0 < size -> allocated arena size align arena' x ->
  (forall a, placed arena a -> placed arena' a) /\ placed arena' x /\ ~ placed arena x.
Proof.
  intros [Ob _] Ps [bs b Eb Le|n Le Bn].
  - rewrite Eb in Ob. apply Forall_app in Ob as [_ [[K1 K2] _]%Forall_cons].
    pose proof (align_up_bounds align (blk_length b) ltac:(lia)) as B. split_and!.
    + intros a (b' & P & Hb & O). unfold placed. cbn [blocks]. rewrite Eb in Hb.
      apply lookup_snoc_Some in Hb as [[Lt Hb]|[E <-]].
      * exists b'. by rewrite lookup_app_l.
      * eexists. rewrite E, list_lookup_middle by done. split_and!; [done|done|lia|cbn; lia].
    + eexists. cbn [addr_idx addr_off blocks]. rewrite Nat2Z.id, list_lookup_middle by done. split_and!; [lia|done|lia|cbn; lia].
    + intros (b' & P & Hb & O). cbn [addr_idx addr_off] in *. rewrite Nat2Z.id, Eb, list_lookup_middle in Hb by done.
      injection Hb as <-. lia.
  - split_and!.
    + intros a (b' & P & Hb & O). exists b'. cbn [blocks]. by rewrite lookup_app_l by (by eapply lookup_lt_Some).
    + eexists. cbn [addr_idx addr_off blocks]. rewrite Nat2Z.id, list_lookup_middle by done. split_and!; [lia|done|lia|cbn; lia].
    + intros (b' & P & Hb & O). cbn [addr_idx addr_off] in *. rewrite Nat2Z.id in Hb. apply lookup_lt_Some in Hb. lia.
Qed.

Lemma allocated_few arena size align arena' x :
  few_blocks arena -> allocated arena size align arena' x -> Z.of_nat (length (blocks arena')) <= 4294967296.
Proof. unfold few_blocks. intros F [bs b Eb _|n _ _]; [rewrite Eb in F|]; cbn; rewrite ?length_app in *; cbn in *; lia. Qed.

Lemma present_add s z n a : present (add_node z n s) a <-> a = z \/ present s a.
Proof.
  unfold present, add_node. cbn [rb_nodes]. rewrite lookup_insert_is_Some. destruct (decide (z = a)); naive_solver.
Qed.

(** The node that [allocNode] makes. *)
Definition new_node (key : bytes) : memdbNode :=
  MkNode (MkAddr 0 0) (MkAddr 0 0) (MkAddr 0 0) nullAddr (Z.of_nat (length key)) 0 key.

Lemma allocNode_spec key db :
  arena_ok (allocator db) -> few_blocks (allocator db) -> Z.of_nat (length key) < 65536 ->
  exists a x, allocNode key db =
    Some (MkMemdb (add_node x (new_node key) (tree db)) a (vlog db) (entrySizeLimit db) (bufferSizeLimit db)
            (db_count db + 1) (db_size db + Z.of_nat (length key)) (vlogInvalid db) (db_dirty db) (stages db), x) /\
    allocated (allocator db) (nodeHdrSize + Z.of_nat (length key)) true a x /\ x <> nullAddr.
Proof.
  intros Ok Fw Lk. destruct (alloc_spec _ (nodeHdrSize + Z.of_nat (length key)) true Ok Fw) as (a & x & E & Al & N).
  { unfold nodeHdrSize, maxBlockSize. lia. }
  exists a, x. unfold allocNode. rewrite E. cbn [mbind option_bind]. rewrite Z.mod_small by lia.
  rewrite Nat2Z.id, firstn_all. split_and!; [done|done|]. by intros ->.
Qed.

Lemma node_data_eq s s' a : same_data s s' -> node_data (getNode s' a) = node_data (getNode s a).
Proof. intros D. by destruct (D a). Qed.

Lemma data_fields s s' a : same_data s s' ->
  n_vptr (getNode s' a) = n_vptr (getNode s a) /\ n_klen (getNode s' a) = n_klen (getNode s a) /\
  getKeyFlags (getNode s' a) = getKeyFlags (getNode s a) /\ n_key (getNode s' a) = n_key (getNode s a).
Proof. intros D%(node_data_eq _ _ a). by injection D as -> -> -> ->. Qed.

Lemma newest_unknown db l recs junk x : Inv db l recs junk -> x ∉ l -> newest recs x = None.
Proof.
  intros I N. destruct (newest recs x) as [p|] eqn:E; [|done].
  by destruct (Inv_newest _ _ _ _ _ _ I E) as (_ & _ & ? & _).
Qed.

(** Adding a node in the order of the keys. *)
Lemma add_Inv db db' l1 l2 recs junk key x a :
  Inv db (l1 ++ l2) recs junk -> Z.of_nat (length key) < 65536 -> few_blocks (allocator db) ->
  allocated (allocator db) (nodeHdrSize + Z.of_nat (length key)) true a x -> x <> nullAddr ->
  Tree (tree db') (l1 ++ x :: l2) -> same_data (add_node x (new_node key) (tree db)) (tree db') ->
  allocator db' = a -> vlog db' = vlog db -> db_count db' = db_count db + 1 ->
  db_size db' = db_size db + Z.of_nat (length key) -> vlogInvalid db' = vlogInvalid db ->
  Inv db' (l1 ++ x :: l2) recs junk.
Proof.
  intros I Lk Fw Al Nx Tr D Ea El Ec Es Ev. assert (0 < nodeHdrSize + Z.of_nat (length key)) as Ps by (unfold nodeHdrSize; lia).
  destruct (placed_mono _ _ _ _ _ (iv_arena _ _ _ _ I) Ps Al) as (Pm & Px & Np).
  assert (~ present (tree db) x) as Fx by (intros [?|?]%(iv_nodes _ _ _ _ I); done).
  assert (x ∉ l1 ++ l2) as Nl by (intros H; by apply (Tree_nonnull _ _ _ (iv_tree _ _ _ _ I)) in H as [_ ?]).
  assert (forall b, b ∈ l1 ++ l2 -> b <> x) as Ne by by intros b Hb ->.
  assert (forall b, b ∈ l1 ++ x :: l2 <-> b = x \/ b ∈ l1 ++ l2) as Mem.
  { intros b. rewrite !elem_of_app, elem_of_cons. tauto. }
  assert (forall b, b <> x -> n_vptr (node db' b) = n_vptr (node db b) /\ n_klen (node db' b) = n_klen (node db b) /\
            getKeyFlags (node db' b) = getKeyFlags (node db b) /\ n_key (node db' b) = n_key (node db b)) as Dne.
  { intros b Nb. pose proof (data_fields _ _ b D) as H. by rewrite getNode_add_ne in H. }
  pose proof (data_fields _ _ x D) as (Xv & Xl & _ & Xk). rewrite getNode_add in Xv, Xl, Xk. cbn in Xv, Xl, Xk.
  split; rewrite ?Ea, ?El; try apply I; try done.
  - rewrite Ec, (iv_count _ _ _ _ I), !length_app. cbn. lia.
  - intros b [->|Hb]%Mem; [rewrite Xl, Xk; done|]. destruct (Dne b (Ne b Hb)) as (_ & -> & _ & ->). by apply I.
  - eapply allocated_ok; [apply I| |exact Al]. unfold nodeHdrSize. lia.
  - by eapply allocated_few.
  - intros b Pb. apply (D b) in Pb. apply present_add in Pb as [->|Pb]; [by right|].
    apply (iv_nodes _ _ _ _ I) in Pb as [?|?]; [by left|right; auto].
  - intros b [->|Hb]%Mem; [|destruct (Dne b (Ne b Hb)) as (-> & _); by apply I].
    rewrite Xv. unfold latest. by rewrite (newest_unknown _ _ _ _ _ I Nl).
  - intros m1 b r m2 E. destruct (iv_old _ _ _ _ I _ _ _ _ E) as [-> H]. split; [done|]. apply Mem. by right.
  - rewrite Es, sum_middle, (iv_size _ _ _ _ I). unfold entry_size at 2. unfold value_of.
    rewrite (newest_unknown _ _ _ _ _ I Nl), Xk. cbn. rewrite (sum_ext (entry_size db' recs) (entry_size db recs)); [lia|].
    intros b Hb. unfold entry_size. by destruct (Dne b (Ne b Hb)) as (_ & _ & _ & ->).
  - by rewrite Ev, (iv_valid _ _ _ _ I).
Qed.

Lemma add_flags s s' l1 l2 x key F :
  flags_are s (l1 ++ l2) F -> Tree s' (l1 ++ x :: l2) -> ~ present s x -> x ∉ l1 ++ l2 ->
  same_data (add_node x (new_node key) s) s' -> F !! key = None ->
  flags_are s' (l1 ++ x :: l2) (<[key := 0]> F).
Proof.
  intros [N K] Tr Px Nx D Nk.
  assert (forall b, b ∈ l1 ++ x :: l2 <-> b = x \/ b ∈ l1 ++ l2) as Mem.
  { intros b. rewrite !elem_of_app, elem_of_cons. tauto. }
  pose proof (data_fields _ _ x D) as (_ & _ & Xf & Xk). rewrite getNode_add in Xf, Xk. cbn in Xk.
  assert (forall b, b ∈ l1 ++ l2 -> getKeyFlags (getNode s' b) = getKeyFlags (getNode s b) /\ key_of s' b = key_of s b) as Dne.
  { intros b Hb. pose proof (data_fields _ _ b D) as (_ & _ & H1 & H2). rewrite getNode_add_ne in H1, H2 by by intros ->. done. }
  split.
  - intros b [->|Hb]%Mem.
    + unfold key_of. by rewrite Xk, lookup_insert_eq, Xf.
    + destruct (Dne b Hb) as [-> ->]. rewrite lookup_insert_ne; [by apply N|]. intros E. rewrite E, (N b Hb) in Nk. done.
  - intros k f [[<- <-]|[Ne H]]%lookup_insert_Some.
    + exists x. split; [apply Mem; by left|exact Xk].
    + destruct (K k f H) as (b & Hb & <-). exists b. split; [apply Mem; by right|by apply Dne].
Qed.

(** [traverse(key, true)] finds the node of the key or adds one without flags
    and value. *)
Lemma traverse_insert_Inv db l recs junk F key :
  Inv db l recs junk -> flags_are (tree db) l F -> few_blocks (allocator db) -> Z.of_nat (length key) < 65536 ->
  exists db' x l', traverse_insert key db = Some (db', x) /\ Inv db' l' recs junk /\ x ∈ l' /\
    key_of (tree db') x = key /\ flags_are (tree db') l' (<[key := default 0 (F !! key)]> F) /\
    same_rest db db' /\ (forall a, a ∈ l -> key_of (tree db') a = key_of (tree db) a).
Proof.
  intros I Fl Fw Lk. unfold traverse_insert.
  destruct (Tree_walk _ _ key (iv_tree _ _ _ _ I)) as [(x & -> & Hx & Ek)|(t & n & k & -> & R & B & A & P & Hb & Ha)].
  - exists db, x, l. split_and!; try done. rewrite <- Ek, (fl_node _ _ _ Fl x Hx). cbn.
    rewrite insert_id; [done|]. by apply Fl.
  - destruct (allocNode_spec key db (iv_arena _ _ _ _ I) Fw Lk) as (a & x & -> & Al & Nx). cbn [mbind option_bind].
    assert (sorted_keys (tree db) (addrs t)) as S by (rewrite A; destruct (iv_tree _ _ _ _ I) as (_ & _ & _ & _ & _ & S); exact S).
    assert (l = before k ++ after k) as El by (by rewrite <- A, <- P, addrs_plug).
    assert (0 < nodeHdrSize + Z.of_nat (length key)) as Ps by (unfold nodeHdrSize; lia).
    destruct (placed_mono _ _ _ _ _ (iv_arena _ _ _ _ I) Ps Al) as (_ & _ & Np).
    assert (~ present (tree db) x) as Fx by (intros [?|?]%(iv_nodes _ _ _ _ I); done).
    destruct (insert_node_spec (tree db) t n k x (new_node key) R B S P Fx Nx Hb Ha) as [Tr D]. clear A. subst l.
    assert (x ∉ before k ++ after k) as Nl by (intros H; by apply (Tree_nonnull _ _ _ (iv_tree _ _ _ _ I)) in H as [_ ?]).
    assert (F !! key = None) as Nk.
    { destruct (F !! key) as [f|] eqn:Ef; [|done]. apply (fl_key _ _ _ Fl) in Ef as (b & Hab & Eb).
      apply elem_of_app in Hab as [H%Hb|H%Ha]; rewrite Eb in H; by apply blt_irrefl in H. }
    eexists _, x, (before k ++ x :: after k). split; [done|]. rewrite Nk. split_and!.
    + eapply add_Inv; [exact I|exact Lk|exact Fw|exact Al|exact Nx|exact Tr|exact D|done..].
    + rewrite elem_of_app, elem_of_cons. auto.
    + change (n_key (getNode (insert_node x (parent k) (add_node x (new_node key) (tree db))) x) = key).
      rewrite (proj2 (proj2 (proj2 (data_fields _ _ x D)))), getNode_add. done.
    + eapply add_flags; [exact Fl|exact Tr|done..].
    + done.
    + intros b Hb'. change (n_key (getNode (insert_node x (parent k) (add_node x (new_node key) (tree db))) b) = key_of (tree db) b).
      rewrite (proj2 (proj2 (proj2 (data_fields _ _ b D)))), getNode_add_ne; [done|]. by intros ->.
Qed.

(** ** Flags *)

Lemma upd_fields b f s a : present s b ->
  getNode (upd b f s) a = if decide (a = b) then f (getNode s a) else getNode s a.
Proof. apply getNode_upd. Qed.

Lemma setKeyFlags_Inv db l recs junk F x f :
  Inv db l recs junk -> flags_are (tree db) l F -> x ∈ l -> flags_ok f ->
  let db' := with_tree (upd x (setKeyFlags f) (tree db)) db in
  Inv db' l recs junk /\ flags_are (tree db') l (<[key_of (tree db) x := f]> F) /\
  (forall a, key_of (tree db') a = key_of (tree db) a).
Proof.
  intros I Fl Hx Hf db'. pose proof (iv_tree _ _ _ _ I) as Tr. destruct (Tree_nonnull _ _ _ Tr Hx) as [Nx Px].
  assert (forall A (g : memdbNode -> A), (forall n, g (setKeyFlags f n) = g n) -> forall a, g (node db' a) = g (node db a)) as G.
  { intros A g H a. by apply getNode_upd_proj. }
  assert (forall a, key_of (tree db') a = key_of (tree db) a) as Ek by (intros a; by apply (G _ n_key)).
  assert (Tree (tree db') l) as Tr' by (apply Tree_upd; [by apply keeps_flags, flags_ok_color|done]).
  split_and!; [| |done].
  - split; try apply I; [done|..].
    + intros a Ha. rewrite (G _ n_klen), (G _ n_key) by done. by apply I.
    + intros a Pa. apply (iv_nodes _ _ _ _ I). by apply present_upd in Pa.
    + intros a Ha. rewrite (G _ n_vptr) by done. by apply I.
    + change (db_size db') with (db_size db). rewrite (iv_size _ _ _ _ I). apply sum_ext. intros a _. unfold entry_size.
      by rewrite (G _ n_key).
  - split.
    + intros a Ha. rewrite Ek. cbn [db' with_tree tree]. rewrite upd_fields by done. case_decide as E.
      * subst a. by rewrite lookup_insert_eq, getKeyFlags_set.
      * rewrite lookup_insert_ne; [by apply Fl|]. intros Eq. apply E. symmetry. exact (Tree_keys _ _ _ _ Tr Hx Ha Eq).
    + intros k g [[<- <-]|[Ne H]]%lookup_insert_Some; [exists x; by rewrite Ek|].
      destruct (fl_key _ _ _ Fl k g H) as (a & Ha & <-). exists a. by rewrite Ek.
Qed.

(** ** Values *)

Lemma old_ok_snoc l recs a r :
  old_ok l (recs ++ [(a, r)]) <-> old_ok l recs /\ r_old r = latest recs (r_node r) /\ r_node r ∈ l.
Proof.
  split.
  - intros O. split; [|by apply (O recs a r [])]. intros l1 b rb l2 ->. apply (O l1 b rb (l2 ++ [(a, r)])). by rewrite <- app_assoc.
  - intros (O & H) l1 b rb l2 E. destruct l2 as [|q l2 _] using rev_ind.
    + apply app_inj_tail in E as [<- [= <- <-]]. exact H.
    + rewrite app_comm_cons, app_assoc in E. apply app_inj_tail in E as [-> _]. exact (O _ _ _ _ eq_refl).
Qed.

Lemma old_ok_replace l l1 a r v l2 :
  old_ok l (l1 ++ (a, r) :: l2) -> old_ok l (l1 ++ (a, MkRec (r_node r) (r_old r) v) :: l2).
Proof.
  set (r' := MkRec (r_node r) (r_old r) v). assert (r_node r' = r_node r) as En by done.
  induction l2 as [|[b rb] l2 IH] using rev_ind; intros O.
  - apply old_ok_snoc in O as (O & H). by apply old_ok_snoc.
  - rewrite app_comm_cons, app_assoc in *. apply old_ok_snoc in O as (O & H & Hn). apply old_ok_snoc.
    rewrite (latest_replace _ _ r) by done. auto.
Qed.

Lemma newest_split recs n p : newest recs n = Some p ->
  exists s1 s2, recs = s1 ++ p :: s2 /\ newest s2 n = None /\ r_node p.2 = n.
Proof.
  induction recs as [|q recs IH] using rev_ind; [done|]. rewrite newest_snoc. case_decide as E.
  - intros [= <-]. by exists recs, [].
  - intros H. destruct (IH H) as (s1 & s2 & -> & N & Ep). exists s1, (s2 ++ [q]). rewrite newest_snoc, decide_False by done.
    by rewrite <- app_assoc.
Qed.

Lemma value_of_replace l1 a r v l2 n :
  newest l2 (r_node r) = None ->
  value_of (l1 ++ (a, MkRec (r_node r) (r_old r) v) :: l2) n =
  if decide (n = r_node r) then Some v else value_of (l1 ++ (a, r) :: l2) n.
Proof.
  intros N. unfold value_of. rewrite (newest_replace _ _ r), (newest_replace _ _ r) by done.
  destruct (decide (n = r_node r)) as [->|E]; [by rewrite N, decide_True|]. destruct (newest l2 n); [done|].
  by rewrite !decide_False by congruence.
Qed.

Lemma sum_update f g l x : NoDup l -> x ∈ l -> (forall a, a ∈ l -> a <> x -> g a = f a) ->
  sum_of g l = sum_of f l - f x + g x.
Proof.
  intros ND (l1 & l2 & ->)%list_elem_of_split H. rewrite !sum_middle. rewrite (sum_ext g f); [lia|].
  apply NoDup_app in ND as (_ & D & ND). apply NoDup_cons in ND as [Nx _].
  intros a Ha%elem_of_app. apply H; [rewrite elem_of_app, elem_of_cons; tauto|].
  intros ->. destruct Ha as [Ha|Ha]; [|done]. apply (D x Ha). by left.
Qed.

(** The records since the last checkpoint. *)
Definition active (db : memdb) (lo : list logrec) : Prop :=
  match last (stages db) with None => lo = [] | Some cp => at_pos cp lo end.

(** What the operations on values leave alone. *)
Record same_nodes (db db' : memdb) : Prop := {
  sn_key a : key_of (tree db') a = key_of (tree db) a;
  sn_flags a : getKeyFlags (node db' a) = getKeyFlags (node db a);
  sn_arena : allocator db' = allocator db;
  sn_entry : entrySizeLimit db' = entrySizeLimit db;
  sn_buffer : bufferSizeLimit db' = bufferSizeLimit db;
  sn_dirty : db_dirty db' = db_dirty db;
  sn_stages : stages db' = stages db;
}.

(** Overwriting in place. *)
Lemma modify_Inv db l lo s1 a r s2 x v :
  Inv db l (lo ++ s1 ++ (a, r) :: s2) [] -> r_node r = x -> newest s2 x = None -> length v = length (r_val r) ->
  let db' := with_vlog (write_at (vlog db)
               (MkAddr (addr_idx a) (addr_off a - memdbVlogHdrSize - Z.of_nat (length (r_val r)))) v) db in
  Inv db' l (lo ++ s1 ++ (a, MkRec (r_node r) (r_old r) v) :: s2) [].
Proof.
  intros I En N Lv db'. pose proof (iv_log _ _ _ _ I) as V. rewrite app_nil_r in V. rewrite app_assoc in *.
  assert (x ∈ l) as Hx by (destruct (iv_old _ _ _ _ I _ _ _ _ eq_refl) as [_ H]; by rewrite En in H).
  split; try apply I; try done.
  - rewrite app_nil_r. by apply write_at_Vlog.
  - intros b Hb. rewrite (latest_replace _ _ r) by done. by apply I.
  - apply old_ok_replace, I.
  - change (db_size db') with (db_size db). rewrite (iv_size _ _ _ _ I). apply sum_ext. intros b Hb. unfold entry_size.
    rewrite value_of_replace by by rewrite En. case_decide as E; [|done]. subst b x.
    unfold value_of at 1. rewrite (newest_replace _ _ r), N, decide_True by done. cbn. by rewrite Lv.
Qed.

(** Appending a record. *)
Lemma append_Inv db l recs x v :
  Inv db l recs [] -> x ∈ l -> few_blocks (vlog db) -> memdbVlogHdrSize + Z.of_nat (length v) <= maxBlockSize ->
  exists vl a, appendValue (vlog db) x (n_vptr (node db x)) v = Some (vl, a) /\
    let db1 := with_vlog vl (with_tree (upd x (set_n_vptr a) (tree db)) db) in
    let db' := with_size (db_size db1 - Z.of_nat (length (default [] (value_of recs x))) + Z.of_nat (length v)) db1 in
    Inv db' l (recs ++ [(a, MkRec x (latest recs x) v)]) [] /\ same_nodes db db'.
Proof.
  intros I Hx Fw Lv. pose proof (iv_log _ _ _ _ I) as V. rewrite app_nil_r in V. pose proof (iv_tree _ _ _ _ I) as Tr.
  rewrite (iv_ptr _ _ _ _ I x Hx).
  destruct (appendValue_Vlog _ _ x (latest recs x) v V Fw) as (vl & a & E & V'); [by eapply Inv_addr_ok|by eapply latest_addr_ok|done|].
  exists vl, a. split; [done|]. cbn zeta. destruct (Tree_nonnull _ _ _ Tr Hx) as [Nx Px].
  set (db' := with_size _ _).
  assert (forall A (g : memdbNode -> A), (forall n, g (set_n_vptr a n) = g n) -> forall b, g (node db' b) = g (node db b)) as G.
  { intros A g H b. by apply getNode_upd_proj. }
  split.
  - split; try apply I; try done.
    + apply Tree_upd; [apply keeps_vptr|done].
    + intros b Hb. rewrite (G _ n_klen), (G _ n_key) by done. by apply I.
    + intros b Pb. apply (iv_nodes _ _ _ _ I). by apply present_upd in Pb.
    + by rewrite app_nil_r.
    + intros b Hb. rewrite latest_snoc. cbn [fst snd r_node db' with_size with_vlog with_tree tree].
      rewrite upd_fields by done. destruct (decide (b = x)) as [->|N]; [by rewrite decide_True|].
      rewrite decide_False by done. by apply I.
    + apply old_ok_snoc. split; [apply I|done].
    + cbn [db' with_size db_size with_vlog with_tree]. rewrite (iv_size _ _ _ _ I).
      rewrite (sum_update (entry_size db recs) (entry_size db' (recs ++ _)) l x) by
        (done || by eapply Tree_NoDup || (intros b _ N; unfold entry_size, value_of; rewrite newest_snoc, decide_False by done;
          by rewrite (G _ n_key))).
      unfold entry_size, value_of. rewrite (G _ n_key) by done. rewrite newest_snoc, decide_True by done. cbn. lia.
  - split; try done; intros b; by apply (G _ n_key) || by apply (G _ getKeyFlags).
Qed.

(** [setValue] changes the records since the last checkpoint only, and among
    them the value of its node. *)
Lemma setValue_Inv db l lo seg x v :
  Inv db l (lo ++ seg) [] -> active db lo -> x ∈ l -> few_blocks (vlog db) ->
  memdbVlogHdrSize + Z.of_nat (length v) <= maxBlockSize ->
  exists db' seg', setValue x v db = Some db' /\ Inv db' l (lo ++ seg') [] /\ same_nodes db db' /\
    writes (key_of (tree db)) seg' = <[key_of (tree db) x := v]> (writes (key_of (tree db)) seg).
Proof.
  intros I A Hx Fw Lv. set (kf := key_of (tree db)). unfold setValue. rewrite (Inv_oldVal _ _ _ _ _ I Hx). cbn zeta.
  pose proof (iv_log _ _ _ _ I) as V. rewrite app_nil_r in V.
  destruct ((0 <? length (default [] (value_of (lo ++ seg) x)))%nat && _ && _) eqn:C.
  - apply andb_true_iff in C as [C C3%Nat.eqb_eq]. apply andb_true_iff in C as [C1%Nat.ltb_lt C2].
    destruct (Inv_value _ _ _ _ _ I Hx) as [[_ Ev]|([a r] & Ep & Hp & En & Eptr & _ & Ev & _)]; rewrite Ev in *; [cbn in C1; lia|].
    cbn in C1, C3, En, Eptr. rewrite Eptr in *.
    assert (exists p, newest seg x = Some p) as [p Ep'].
    { rewrite newest_app in Ep. destruct (newest seg x) as [p|] eqn:E; [by exists p|]. apply newest_Some in Ep as [Hlo _].
      unfold active in A. destruct (last (stages db)) as [cp|]; [|subst lo; by apply not_elem_of_nil in Hlo].
      by rewrite (canModify_before _ _ _ _ _ _ V A Hlo) in C2. }
    rewrite newest_app, Ep' in Ep. injection Ep as ->. apply newest_split in Ep' as (s1 & s2 & -> & N & _).
    eexists _, (s1 ++ (a, MkRec (r_node r) (r_old r) v) :: s2). split; [done|]. split_and!.
    + cbn [default]. by eapply modify_Inv.
    + done.
    + change ((a, MkRec (r_node r) (r_old r) v) :: s2) with ([(a, MkRec (r_node r) (r_old r) v)] ++ s2).
      change ((a, r) :: s2) with ([(a, r)] ++ s2). rewrite !app_assoc, !(writes_app kf (s1 ++ _)), !writes_snoc. cbn [fst snd r_node r_val].
      rewrite En.
      assert (writes kf s2 !! kf x = None) as Nk.
      { apply eq_None_not_Some. intros (q & Hq & Ek)%writes_key. apply (proj1 (newest_None _ _) N q Hq).
        destruct q as [b rb]. apply list_elem_of_split in Hq as (q1 & q2 & Eq).
        destruct (iv_old _ _ _ _ I (lo ++ s1 ++ (a, r) :: q1) b rb q2) as [_ Hb].
        { rewrite Eq, <- !app_assoc. done. }
        cbn. exact (Tree_keys _ _ _ _ (iv_tree _ _ _ _ I) Hb Hx Ek). }
      by rewrite (insert_union_r (writes kf s2)), insert_insert_eq by done.
  - destruct (append_Inv _ _ _ _ v I Hx Fw Lv) as (vl & a & -> & I' & Sn). cbn [mbind option_bind].
    eexists _, (seg ++ [(a, MkRec x (latest (lo ++ seg) x) v)]). split; [done|]. split_and!; [|exact Sn|].
    + by rewrite app_assoc.
    + by rewrite writes_snoc.
Qed.
