(* ===== verification/MemSpec.v ===== *)
(** * What a transaction buffer is: flags and a stack of maps

    The abstract buffer keeps the flags of every key and a map of values per
    open stage over a base; a read takes the topmost value, a write goes to the
    top, a cleanup drops the top.  A key that loses its last value keeps its
    persistent flags, and goes when it has none. *)

From stdpp Require Import base gmap list sorting strings.
From Stdlib Require Import Strings.Byte ZArith Lia Sorted.
From S2P Require Import Prelude External KvUnion MemTree Memdb.
Open Scope Z_scope.

(** [b_levels] is the maps from the top to the base. *)
Record membuf : Type := MkMembuf {
  b_flags : gmap bytes Z;
  b_levels : list (gmap bytes bytes);
  b_dirty : bool;
  b_entryLimit : Z;
  b_totalLimit : Z;
}.

Definition view (levels : list (gmap bytes bytes)) : gmap bytes bytes := foldr (∪) ∅ levels.
Definition b_view (b : membuf) : gmap bytes bytes := view (b_levels b).

Definition b_empty (entryLimit totalLimit : Z) : membuf := MkMembuf ∅ [∅] false entryLimit totalLimit.

(** ** Reading *)

Definition b_Get (key : bytes) (b : membuf) : kvres bytes :=
  match b_view b !! key with Some v => Ok v | None => Err ErrNotExist end.

Definition b_GetFlags (key : bytes) (b : membuf) : kvres Z :=
  match b_flags b !! key with Some f => Ok f | None => Err ErrNotExist end.

Definition b_Len (b : membuf) : Z := Z.of_nat (size (b_flags b)).

Definition key_size (vs : gmap bytes bytes) (p : bytes * Z) : Z :=
  Z.of_nat (length p.1) + Z.of_nat (length (default [] (vs !! p.1))).

(** The bytes of the keys and of their values. *)
Definition b_Size (b : membuf) : Z :=
  foldr (fun p n => key_size (b_view b) p + n) 0 (map_to_list (b_flags b)).

(** ** Writing *)

Definition put (key value : bytes) (levels : list (gmap bytes bytes)) : list (gmap bytes bytes) :=
  match levels with [] => [] | m :: ms => <[key := value]> m :: ms end.

Definition persistent (f : Z) : bool := negb (Z.land f persistentFlags =? 0).

Definition b_set (key : bytes) (value : option bytes) (ops : list FlagsOp) (b : membuf) : membuf * option memerror :=
  let size := Z.of_nat (length key) + match value with Some v => Z.of_nat (length v) | None => 0 end in
  if bool_decide (is_Some value) && (b_entryLimit b <? size) then (b, Some (ErrEntryTooLarge (b_entryLimit b) size))
  else
    let f := applyFlagsOps (default 0 (b_flags b !! key)) ops in
    let dirty := b_dirty b || bool_decide (length (b_levels b) = 1%nat) ||
                 (negb (bool_decide (ops = [])) && persistent f) in
    let levels := match value with Some v => put key v (b_levels b) | None => b_levels b end in
    let b := MkMembuf (<[key := f]> (b_flags b)) levels dirty (b_entryLimit b) (b_totalLimit b) in
    (b, if bool_decide (is_Some value) && (b_totalLimit b <? b_Size b) then Some (ErrTxnTooLarge (b_Size b)) else None).

(** ** Stages *)

Definition b_stages (b : membuf) : Z := Z.of_nat (length (b_levels b)) - 1.

Definition b_Staging (b : membuf) : membuf * Z :=
  let b := MkMembuf (b_flags b) (∅ :: b_levels b) (b_dirty b) (b_entryLimit b) (b_totalLimit b) in (b, b_stages b).

Definition b_Release (h : Z) (b : membuf) : option membuf :=
  if negb (h =? b_stages b) then None
  else
    match b_levels b with
    | m :: m' :: ms =>
        let dirty := b_dirty b || ((h =? 1) && negb (bool_decide (m = ∅))) in
        Some (MkMembuf (b_flags b) (m ∪ m' :: ms) dirty (b_entryLimit b) (b_totalLimit b))
    | _ => None
    end.

(** The key [k] loses its last value when [m] is dropped from over [rest]. *)
Definition loses (m rest : gmap bytes bytes) (k : bytes) : Prop := is_Some (m !! k) /\ rest !! k = None.
#[export] Instance loses_dec m rest k : Decision (loses m rest k).
Proof. unfold loses. apply _. Defined.

Definition drop_flags (m rest : gmap bytes bytes) (flags : gmap bytes Z) : gmap bytes Z :=
  map_imap (fun k f => if decide (loses m rest k) then
                         if persistent f then Some (Z.land f persistentFlags) else None
                       else Some f) flags.

(** Whether some key keeps its flags without a value. *)
Definition keeps_some (m rest : gmap bytes bytes) (flags : gmap bytes Z) : Prop :=
  exists k f, flags !! k = Some f /\ loses m rest k /\ persistent f = true.

Definition keeps_someb (m rest : gmap bytes bytes) (flags : gmap bytes Z) : bool :=
  existsb (fun p => bool_decide (loses m rest p.1) && persistent p.2) (map_to_list flags).

Definition b_Cleanup (h : Z) (b : membuf) : option membuf :=
  if b_stages b <? h then Some b
  else if h <? b_stages b then None
  else
    match b_levels b with
    | m :: m' :: ms =>
        let rest := view (m' :: ms) in
        Some (MkMembuf (drop_flags m rest (b_flags b)) (m' :: ms)
                (b_dirty b || keeps_someb m rest (b_flags b)) (b_entryLimit b) (b_totalLimit b))
    | _ => None
    end.

Definition b_Reset (b : membuf) : membuf := b_empty (b_entryLimit b) (b_totalLimit b).

(** ** Operations *)

Inductive memop : Type :=
| OpSet (key value : bytes)
| OpSetWithFlags (key value : bytes) (ops : list FlagsOp)
| OpDelete (key : bytes)
| OpUpdateFlags (key : bytes) (ops : list FlagsOp)
| OpStaging
| OpRelease (h : Z)
| OpCleanup (h : Z)
| OpReset.

Inductive memout : Type :=
| OutErr (e : option memerror)
| OutHandle (h : Z).

Definition no_out {A} (a : A) : A * memout := (a, OutErr None).
Definition err_out {A} (p : A * option memerror) : A * memout := (p.1, OutErr p.2).

(** An operation of the code and what it promises; [None] is a panic. *)
Definition run_op (op : memop) (db : memdb) : option (memdb * memout) :=
  match op with
  | OpSet key value => err_out <$> mem_Set key value db
  | OpSetWithFlags key value ops => err_out <$> SetWithFlags key value ops db
  | OpDelete key => err_out <$> mem_Delete key db
  | OpUpdateFlags key ops => no_out <$> UpdateFlags key ops db
  | OpStaging => let '(db, h) := Staging db in Some (db, OutHandle h)
  | OpRelease h => no_out <$> Release h db
  | OpCleanup h => no_out <$> mem_Cleanup h db
  | OpReset => Some (no_out (mem_Reset db))
  end.

Definition spec_op (op : memop) (b : membuf) : option (membuf * memout) :=
  match op with
  | OpSet key value =>
      Some (err_out (if is_nil value then (b, Some ErrCannotSetNilValue) else b_set key (Some value) [] b))
  | OpSetWithFlags key value ops =>
      Some (err_out (if is_nil value then (b, Some ErrCannotSetNilValue) else b_set key (Some value) ops b))
  | OpDelete key => Some (err_out (b_set key (Some []) [] b))
  | OpUpdateFlags key ops => Some (no_out (b_set key None ops b).1)
  | OpStaging => let '(b, h) := b_Staging b in Some (b, OutHandle h)
  | OpRelease h => no_out <$> b_Release h b
  | OpCleanup h => no_out <$> b_Cleanup h b
  | OpReset => Some (no_out (b_Reset b))
  end.

(** ** Facts *)

Lemma view_cons m ms : view (m :: ms) = m ∪ view ms.
Proof. done. Qed.

Lemma keeps_someb_spec m rest flags : keeps_someb m rest flags = true <-> keeps_some m rest flags.
Proof.
  unfold keeps_someb, keeps_some. rewrite existsb_exists. split.
  - intros ([k f] & Hp & [H1%bool_decide_eq_true_1 H2]%andb_true_iff). exists k, f.
    apply list_elem_of_In, elem_of_map_to_list in Hp. done.
  - intros (k & f & Hp & H1 & H2). exists (k, f). split; [by apply list_elem_of_In, elem_of_map_to_list|].
    cbn. by rewrite H2, bool_decide_true.
Qed.

Lemma lookup_drop_flags m rest flags k :
  drop_flags m rest flags !! k =
  f ← flags !! k;
  if decide (loses m rest k) then if persistent f then Some (Z.land f persistentFlags) else None else Some f.
Proof. apply map_lookup_imap. Qed.
