(* ===== verification/MemRefine.v ===== *)
(** * The transaction buffer implements the stack of maps

    [refines db b]: the tree, the log and the checkpoints of [db] hold the
    flags and the maps of [b]. *)

From stdpp Require Import base gmap list sorting strings.
From Stdlib Require Import Strings.Byte ZArith Lia Sorted.
From S2P Require Import Prelude External Marshal KvUnion MemArena MemVlog MemTree MemTreeRep MemTreeInsert MemTreeDelete Memdb MemWalk MemInv MemSpec.
Open Scope Z_scope.

(** ** The relation *)

(** The records of the segments, the top segment first. *)
Definition flat (segs : list (list logrec)) : list logrec := mjoin (reverse segs).
#[global] Arguments flat : simpl never.

Lemma flat_cons seg segs : flat (seg :: segs) = flat segs ++ seg.
Proof. unfold flat. rewrite reverse_cons, join_app. cbn. by rewrite app_nil_r. Qed.

(** The checkpoints, the last one first, cut the records into segments. *)
Inductive staged : list memdbCheckpoint -> list (list logrec) -> Prop :=
| staged_base seg : staged [] [seg]
| staged_push cp cps seg segs : at_pos cp (flat segs) -> staged cps segs -> staged (cp :: cps) (seg :: segs).

(** An entry of the largest allowed size fits in a block. *)
Definition entry_fits (db : memdb) : Prop := entrySizeLimit db + memdbVlogHdrSize <= maxBlockSize.

Record refined (db : memdb) (b : membuf) (l : list addr) (segs : list (list logrec)) : Prop := {
  rf_inv : Inv db l (flat segs) [];
  rf_staged : staged (reverse (stages db)) segs;
  rf_levels : b_levels b = writes (key_of (tree db)) <$> segs;
  rf_flags : flags_are (tree db) l (b_flags b);
  rf_dirty : b_dirty b = db_dirty db;
  rf_entry : b_entryLimit b = entrySizeLimit db;
  rf_total : b_totalLimit b = bufferSizeLimit db;
  rf_fits : entry_fits db;
}.

Definition refines (db : memdb) (b : membuf) : Prop := exists l segs, refined db b l segs.

(** There is room for one more block in the arenas. *)
Definition room (db : memdb) : Prop := few_blocks (allocator db) /\ few_blocks (vlog db).

Lemma staged_length cps segs : staged cps segs -> length segs = S (length cps).
Proof. induction 1; cbn; lia. Qed.

Lemma staged_active db segs : staged (reverse (stages db)) segs ->
  exists seg rest, segs = seg :: rest /\ active db (flat rest).
Proof.
  intros S. unfold active. destruct (stages db) as [|cp cps _] using rev_ind.
  - inversion S; subst. by exists seg, [].
  - rewrite reverse_snoc in S. inversion S; subst. rewrite last_snoc. by exists seg, segs0.
Qed.

Lemma staged_top cps seg seg' rest : staged cps (seg :: rest) -> staged cps (seg' :: rest).
Proof. inversion 1; subst; by constructor. Qed.

(** ** Reading *)

Lemma view_writes kf segs : view (writes kf <$> segs) = writes kf (flat segs).
Proof.
  induction segs as [|seg segs IH]; [done|]. cbn [fmap list_fmap]. by rewrite view_cons, flat_cons, writes_app, IH.
Qed.

Lemma Inv_view db l recs junk a : Inv db l recs junk -> a ∈ l ->
  writes (key_of (tree db)) recs !! key_of (tree db) a = value_of recs a.
Proof.
  intros I Ha. apply writes_value. intros p Hp Ek. destruct p as [c r]. apply list_elem_of_split in Hp as (l1 & l2 & E).
  destruct (iv_old _ _ _ _ I _ _ _ _ E) as [_ Hn]. exact (Tree_keys _ _ _ _ (iv_tree _ _ _ _ I) Hn Ha Ek).
Qed.

Lemma Inv_view_key db l recs junk k v : Inv db l recs junk ->
  writes (key_of (tree db)) recs !! k = Some v -> exists a, a ∈ l /\ key_of (tree db) a = k.
Proof.
  intros I H. assert (is_Some (writes (key_of (tree db)) recs !! k)) as ((c & r) & Hp & Ek)%writes_key by eauto.
  apply list_elem_of_split in Hp as (l1 & l2 & E). destruct (iv_old _ _ _ _ I _ _ _ _ E) as [_ Hn]. by exists (r_node r).
Qed.

Lemma refined_view db b l segs : refined db b l segs -> b_view b = writes (key_of (tree db)) (flat segs).
Proof. intros R. unfold b_view. rewrite (rf_levels _ _ _ _ R). apply view_writes. Qed.

Lemma Get_refined db b key : refines db b -> mem_Get key db = Some (b_Get key b).
Proof.
  intros (l & segs & R). pose proof (rf_inv _ _ _ _ R) as I. unfold mem_Get, b_Get.
  rewrite (iv_valid _ _ _ _ I), (refined_view _ _ _ _ R). cbn zeta.
  destruct (find_spec _ _ key (iv_tree _ _ _ _ I)) as [[Hx Ek]|[-> Nk]].
  - destruct (Tree_nonnull _ _ _ (iv_tree _ _ _ _ I) Hx) as [N _]. rewrite isNull_false by done.
    rewrite <- Ek at 3. rewrite (Inv_view _ _ _ _ _ I Hx).
    destruct (Inv_value _ _ _ _ _ I Hx) as [[-> ->]|(p & _ & _ & _ & -> & Np & -> & ->)]; [done|].
    by rewrite isNull_false.
  - rewrite isNull_null. destruct (_ !! key) as [v|] eqn:E; [|done].
    destruct (Inv_view_key _ _ _ _ _ _ I E) as (a & Ha & Ea). by apply Nk in Ha.
Qed.

Lemma GetFlags_refined db b key : refines db b -> GetFlags key db = b_GetFlags key b.
Proof.
  intros (l & segs & R). pose proof (rf_inv _ _ _ _ R) as I. pose proof (rf_flags _ _ _ _ R) as Fl.
  unfold GetFlags, b_GetFlags. cbn zeta.
  destruct (find_spec _ _ key (iv_tree _ _ _ _ I)) as [[Hx Ek]|[-> Nk]].
  - destruct (Tree_nonnull _ _ _ (iv_tree _ _ _ _ I) Hx) as [N _]. rewrite isNull_false by done.
    rewrite <- Ek at 2. by rewrite (fl_node _ _ _ Fl _ Hx).
  - rewrite isNull_null. destruct (_ !! key) as [f|] eqn:E; [|done].
    destruct (fl_key _ _ _ Fl _ _ E) as (a & Ha & Ea). by apply Nk in Ha.
Qed.

(** ** Counting *)

Lemma Tree_keys_NoDup s l : Tree s l -> NoDup (key_of s <$> l).
Proof.
  intros (_ & _ & _ & _ & _ & S). unfold sorted_keys in S. induction S as [|k ks S IH F]; [constructor|].
  constructor; [|done]. intros H. rewrite Forall_forall in F. by apply F, blt_irrefl in H.
Qed.

Lemma flags_Permutation s l F : Tree s l -> flags_are s l F ->
  map_to_list F ≡ₚ (fun a => (key_of s a, getKeyFlags (getNode s a))) <$> l.
Proof.
  intros Tr [N K]. apply NoDup_Permutation.
  - apply NoDup_map_to_list.
  - apply (NoDup_fmap_1 fst). rewrite <- list_fmap_compose. by apply Tree_keys_NoDup.
  - intros [k f]. rewrite elem_of_map_to_list, list_elem_of_fmap. split.
    + intros H. destruct (K k f H) as (a & Ha & <-). exists a. split; [|done]. rewrite (N a Ha) in H. by injection H as ->.
    + intros (a & [= -> ->] & Ha). by apply N.
Qed.

Lemma foldr_sum_perm {A} (f : A -> Z) (l l' : list A) : l ≡ₚ l' -> foldr (fun a n => f a + n) 0 l = foldr (fun a n => f a + n) 0 l'.
Proof. induction 1; cbn; lia. Qed.

Lemma Size_refined db b : refines db b -> Size db = b_Size b.
Proof.
  intros (l & segs & R). pose proof (rf_inv _ _ _ _ R) as I. unfold Size, b_Size.
  rewrite (foldr_sum_perm _ _ _ (flags_Permutation _ _ _ (iv_tree _ _ _ _ I) (rf_flags _ _ _ _ R))).
  rewrite (iv_size _ _ _ _ I), (refined_view _ _ _ _ R). unfold sum_of.
  assert (forall m, (forall a, a ∈ m -> a ∈ l) -> foldr (fun a n => entry_size db (flat segs) a + n) 0 m =
    foldr (fun p n => key_size (writes (key_of (tree db)) (flat segs)) p + n) 0
      ((fun a => (key_of (tree db) a, getKeyFlags (node db a))) <$> m)) as H; [|by apply H].
  induction m as [|a m IH]; intros Sub; [done|]. cbn [fmap list_fmap foldr].
  rewrite IH by (intros c Hc; apply Sub; by right). f_equal. unfold entry_size, key_size. cbn.
  rewrite (Inv_view _ _ _ _ _ I); [done|]. apply Sub. by left.
Qed.

Lemma Len_refined db b : refines db b -> mem_Len db = b_Len b.
Proof.
  intros (l & segs & R). pose proof (rf_inv _ _ _ _ R) as I. unfold mem_Len, b_Len.
  rewrite (iv_count _ _ _ _ I), <- length_map_to_list.
  by rewrite (flags_Permutation _ _ _ (iv_tree _ _ _ _ I) (rf_flags _ _ _ _ R)), length_fmap.
Qed.

(** ** Writing *)

Lemma Inv_dirty db l recs junk d : Inv db l recs junk -> Inv (with_dirty d db) l recs junk.
Proof. intros []. by constructor. Qed.

Lemma Inv_stages db l recs junk st : Inv db l recs junk -> Inv (with_stages st db) l recs junk.
Proof. intros []. by constructor. Qed.

Lemma old_ok_node l recs p : old_ok l recs -> p ∈ recs -> r_node p.2 ∈ l.
Proof. destruct p as [a r]. intros O (l1 & l2 & ->)%list_elem_of_split. by destruct (O l1 a r l2 eq_refl). Qed.

Lemma elem_of_flat segs seg p : seg ∈ segs -> p ∈ seg -> p ∈ flat segs.
Proof.
  intros Hs Hp. induction segs as [|s segs IH]; [by apply not_elem_of_nil in Hs|].
  rewrite flat_cons, elem_of_app. apply elem_of_cons in Hs as [->|Hs]; auto.
Qed.

(** The levels do not depend on the tree, as long as the nodes keep their keys. *)
Lemma levels_ext l kf kf' segs :
  old_ok l (flat segs) -> (forall a, a ∈ l -> kf' a = kf a) -> writes kf' <$> segs = writes kf <$> segs.
Proof.
  intros O E. apply list_fmap_ext. intros i seg Hs. apply writes_ext. intros p Hp. apply E, (old_ok_node _ (flat segs)); [done|].
  eapply elem_of_flat; [|done]. by eapply list_elem_of_lookup_2.
Qed.

Lemma is_base db b l segs : refined db b l segs -> bool_decide (stages db = []) = bool_decide (length (b_levels b) = 1%nat).
Proof.
  intros R. pose proof (staged_length _ _ (rf_staged _ _ _ _ R)) as L. rewrite (rf_levels _ _ _ _ R), length_fmap, L, length_reverse.
  apply bool_decide_ext. destruct (stages db); cbn; split; (done || lia).
Qed.

(** The part of [set] before the value: the dirty mark, the node, the flags. *)
Definition set_flags (ops : list FlagsOp) (x : addr) (db : memdb) : memdb :=
  match ops with
  | [] => db
  | _ =>
      let flags := applyFlagsOps (getKeyFlags (getNode (tree db) x)) ops in
      let db := if negb (Z.land flags persistentFlags =? 0) then with_dirty true db else db in
      with_tree (upd x (setKeyFlags flags) (tree db)) db
  end.

Definition set_node (key : bytes) (ops : list FlagsOp) (db : memdb) : option (memdb * addr) :=
  let db := if bool_decide (stages db = []) then with_dirty true db else db in
  '(db, x) ← traverse_insert key db;
  Some (set_flags ops x db, x).

Lemma mem_set_node key value ops db :
  mem_set key value ops db =
  if vlogInvalid db then None
  else
    let size := Z.of_nat (length key) + match value with Some v => Z.of_nat (length v) | None => 0 end in
    if bool_decide (is_Some value) && (entrySizeLimit db <? size) then
      Some (db, Some (ErrEntryTooLarge (entrySizeLimit db) size))
    else
      '(db, x) ← set_node key ops db;
      match value with
      | None => Some (db, None)
      | Some v =>
          db ← setValue x v db;
          if bufferSizeLimit db <? Size db then Some (db, Some (ErrTxnTooLarge (Size db)))
          else Some (db, None)
      end.
Proof.
  unfold mem_set, set_node. destruct (vlogInvalid db); [done|]. cbn zeta. destruct (_ && _); [done|].
  destruct (traverse_insert _ _) as [[db1 x]|]; done.
Qed.

Lemma set_node_refined key ops db b l segs :
  refined db b l segs -> few_blocks (allocator db) -> Z.of_nat (length key) < 65536 ->
  let f := applyFlagsOps (default 0 (b_flags b !! key)) ops in
  let dirty := b_dirty b || bool_decide (length (b_levels b) = 1%nat) || (negb (bool_decide (ops = [])) && persistent f) in
  exists db' x l', set_node key ops db = Some (db', x) /\ x ∈ l' /\ key_of (tree db') x = key /\ vlog db' = vlog db /\
    refined db' (MkMembuf (<[key := f]> (b_flags b)) (b_levels b) dirty (b_entryLimit b) (b_totalLimit b)) l' segs.
Proof.
  intros R Fw Lk f dirty. unfold set_node. cbn zeta. rewrite (is_base _ _ _ _ R).
  set (db0 := if bool_decide _ then _ else _).
  assert (Inv db0 l (flat segs) [] /\ flags_are (tree db0) l (b_flags b) /\ few_blocks (allocator db0) /\
    key_of (tree db0) = key_of (tree db) /\ vlog db0 = vlog db /\
    entrySizeLimit db0 = entrySizeLimit db /\ bufferSizeLimit db0 = bufferSizeLimit db /\ stages db0 = stages db /\
    db_dirty db0 = db_dirty db || bool_decide (length (b_levels b) = 1%nat)) as (I0 & F0 & Fw0 & K0 & V0 & E0 & B0 & S0 & D0).
  { unfold db0. destruct R. case_bool_decide; split_and!; try done; [by apply Inv_dirty|..]; cbn; by rewrite ?orb_true_r, ?orb_false_r. }
  clearbody db0.
  destruct (traverse_insert_Inv _ _ _ _ _ key I0 F0 Fw0 Lk) as (db1 & x & l' & -> & I1 & Hx & Kx & F1 & [V1 E1 B1 D1 S1] & K1).
  cbn [mbind option_bind].
  assert (exists db2, set_flags ops x db1 = db2 /\
    Inv db2 l' (flat segs) [] /\ flags_are (tree db2) l' (<[key := f]> (b_flags b)) /\ key_of (tree db2) x = key /\
    (forall a, a ∈ l -> key_of (tree db2) a = key_of (tree db) a) /\ same_rest (with_dirty dirty db) db2) as (db2 & -> & I2 & F2 & K2 & A2 & [V2 E2 B2 D2 S2]).
  { assert (getKeyFlags (getNode (tree db1) x) = default 0 (b_flags b !! key)) as Ef.
    { pose proof (fl_node _ _ _ F1 x Hx) as H. rewrite Kx, lookup_insert_eq in H. by injection H. }
    assert (forall a, a ∈ l -> key_of (tree db1) a = key_of (tree db) a) as A1 by (intros a Ha; rewrite (K1 a Ha); by rewrite K0).
    unfold dirty. rewrite (rf_dirty _ _ _ _ R). destruct ops as [|op ops].
    - exists db1. split_and!; try done. split; cbn; try congruence. rewrite orb_false_r. congruence.
    - unfold set_flags. cbn zeta. rewrite Ef. fold f. set (db1' := if negb _ then _ else _).
      assert (Inv db1' l' (flat segs) [] /\ tree db1' = tree db1 /\ vlog db1' = vlog db1 /\ entrySizeLimit db1' = entrySizeLimit db1 /\
        bufferSizeLimit db1' = bufferSizeLimit db1 /\ stages db1' = stages db1 /\ db_dirty db1' = db_dirty db1 || persistent f) as (I1' & T' & V' & E' & B' & S' & D').
      { unfold db1', persistent. destruct (negb (Z.land f persistentFlags =? 0)); split_and!; try done; [by apply Inv_dirty|..]; cbn; by rewrite ?orb_true_r, ?orb_false_r. }
      clearbody db1'.
      assert (flags_ok f) as Of by (apply flags_ok_apply; rewrite <- Ef; apply flags_ok_get).
      rewrite <- T' in F1, Kx, A1. destruct (setKeyFlags_Inv _ _ _ _ _ x f I1' F1 Hx Of) as (I2 & F2 & K2).
      eexists. split; [done|]. split_and!; [exact I2| |by rewrite K2|intros a Ha; by rewrite K2, A1|].
      + rewrite Kx, insert_insert_eq in F2. exact F2.
      + split; cbn [with_tree vlog entrySizeLimit bufferSizeLimit db_dirty stages with_dirty]; try congruence.
        rewrite D', D1, D0. done. }
  exists db2, x, l'. cbn in V2, E2, B2, D2, S2. split_and!; [done..|]. destruct R. split; cbn; try done.
  - by rewrite S2.
  - rewrite rf_levels0. symmetry. eapply levels_ext; [apply rf_inv0|]. done.
  - congruence.
  - congruence.
  - unfold entry_fits in *. congruence.
Qed.

Lemma setValue_refined x v db b l segs :
  refined db b l segs -> few_blocks (vlog db) -> x ∈ l -> memdbVlogHdrSize + Z.of_nat (length v) <= maxBlockSize ->
  exists db', setValue x v db = Some db' /\ bufferSizeLimit db' = bufferSizeLimit db /\
    refines db' (MkMembuf (b_flags b) (put (key_of (tree db) x) v (b_levels b)) (b_dirty b) (b_entryLimit b) (b_totalLimit b)).
Proof.
  intros [I St Lv Fl Di En To Fi] Fw Hx Bv. destruct (staged_active _ _ St) as (seg & rest & -> & A).
  rewrite flat_cons in I. destruct (setValue_Inv _ _ _ _ _ _ I A Hx Fw Bv) as (db' & seg' & E & I' & S & W).
  exists db'. split; [done|]. split; [apply S|]. exists l, (seg' :: rest).
  assert (forall kf, (forall a, kf a = key_of (tree db) a) -> forall s, writes kf s = writes (key_of (tree db)) s) as We.
  { intros kf Ek s. apply writes_ext. intros p _. apply Ek. }
  split; cbn [b_levels b_flags b_dirty b_entryLimit b_totalLimit].
  - by rewrite flat_cons.
  - rewrite (sn_stages _ _ S). by eapply staged_top.
  - rewrite Lv. cbn [fmap list_fmap put]. rewrite (We _ (sn_key _ _ S)), W. f_equal.
    apply list_fmap_ext. intros i s _. symmetry. apply (We _ (sn_key _ _ S)).
  - destruct Fl as [N K]. split.
    + intros a Ha. rewrite (sn_key _ _ S), (sn_flags _ _ S). by apply N.
    + intros k f H. destruct (K k f H) as (a & Ha & Ek). exists a. by rewrite (sn_key _ _ S).
  - by rewrite Di, (sn_dirty _ _ S).
  - by rewrite En, (sn_entry _ _ S).
  - by rewrite To, (sn_buffer _ _ S).
  - unfold entry_fits. by rewrite (sn_entry _ _ S).
Qed.

Lemma mem_set_refined key value ops db b :
  refines db b -> room db -> Z.of_nat (length key) < 65536 ->
  exists db', mem_set key value ops db = Some (db', (b_set key value ops b).2) /\ refines db' (b_set key value ops b).1.
Proof.
  intros (l & segs & R) [Fa Fv] Lk. rewrite mem_set_node, (iv_valid _ _ _ _ (rf_inv _ _ _ _ R)). unfold b_set. cbn zeta.
  rewrite (rf_entry _ _ _ _ R).
  destruct (bool_decide (is_Some value) && (entrySizeLimit db <? _)) eqn:Ec; [exists db; split; [done|by exists l, segs]|].
  destruct (set_node_refined key ops db b l segs R Fa Lk) as (db1 & x & l1 & -> & Hx & Kx & V1 & R1). cbn [mbind option_bind].
  set (f := applyFlagsOps _ _) in *. set (dirty := b_dirty b || _ || _) in *.
  rewrite (rf_entry _ _ _ _ R) in R1.
  destruct value as [v|]; [|exists db1; split; [done|by exists l1, segs]].
  destruct (setValue_refined x v db1 _ l1 segs R1) as (db2 & -> & B2 & R2).
  { by rewrite V1. }
  { done. }
  { pose proof (rf_fits _ _ _ _ R) as Fi. unfold entry_fits in Fi. rewrite bool_decide_true in Ec by eauto.
    apply Z.ltb_ge in Ec. lia. }
  cbn [mbind option_bind b_flags b_levels b_dirty b_entryLimit b_totalLimit] in *. rewrite Kx in R2.
  rewrite (bool_decide_true (is_Some (Some v))) by eauto. cbn [andb].
  rewrite B2, (Size_refined _ _ R2), <- (rf_total _ _ _ _ R1). cbn [b_totalLimit].
  exists db2. cbn [fst snd]. split; [|exact R2]. by destruct (b_totalLimit b <? _).
Qed.

(** ** Stages *)

Lemma refined_stages db b l segs : refined db b l segs -> Z.of_nat (length (stages db)) = b_stages b.
Proof.
  intros R. pose proof (staged_length _ _ (rf_staged _ _ _ _ R)) as L. unfold b_stages.
  rewrite (rf_levels _ _ _ _ R), length_fmap, L, length_reverse. lia.
Qed.

Lemma Vlog_of db l recs : Inv db l recs [] -> Vlog (vlog db) recs.
Proof. intros I. pose proof (iv_log _ _ _ _ I) as V. by rewrite app_nil_r in V. Qed.

Lemma Staging_refined db b : refines db b -> (Staging db).2 = (b_Staging b).2 /\ refines (Staging db).1 (b_Staging b).1.
Proof.
  intros (l & segs & R). pose proof (refined_stages _ _ _ _ R) as E. split.
  - cbn. unfold b_stages in *. cbn [b_levels length]. rewrite length_app. cbn. lia.
  - exists l, ([] :: segs). destruct R. split; cbn; try done.
    + rewrite flat_cons, app_nil_r. by apply Inv_stages.
    + change (staged (reverse (stages db ++ [checkpoint (vlog db)])) ([] :: segs)). rewrite reverse_snoc. constructor; [|done]. by eapply checkpoint_at, Vlog_of.
    + by rewrite rf_levels0.
Qed.

Lemma writes_nil kf recs : writes kf recs = ∅ <-> recs = [].
Proof.
  split; [|by intros ->]. intros E. destruct recs as [|p recs]; [done|].
  assert (is_Some (writes kf (p :: recs) !! kf (r_node p.2))) as H by (apply writes_key; exists p; split; [left|done]).
  rewrite E, lookup_empty in H. by destruct H.
Qed.

Lemma staged_pop cps cp seg segs : staged (cp :: cps) (seg :: segs) ->
  at_pos cp (flat segs) /\ staged cps segs /\ exists seg' rest, segs = seg' :: rest.
Proof. inversion 1 as [|? ? ? ? A S]; subst. split_and!; [done|done|]. inversion S; subst; eauto. Qed.

(** The stages are none, or some with a last one. *)
Lemma stages_cases db b l segs : refined db b l segs ->
  (stages db = [] /\ exists seg, segs = [seg]) \/
  (exists cps cp seg seg' rest, stages db = cps ++ [cp] /\ segs = seg :: seg' :: rest /\
     at_pos cp (flat (seg' :: rest)) /\ staged (reverse cps) (seg' :: rest)).
Proof.
  intros R. pose proof (rf_staged _ _ _ _ R) as S. destruct (stages db) as [|cp cps _] using rev_ind.
  - left. inversion S; subst. split; [done|by eexists].
  - right. rewrite reverse_snoc in S. inversion S as [|? ? seg segs' A S']; subst.
    destruct (staged_pop _ _ _ _ S) as (_ & _ & seg' & rest & ->). by exists cps, cp, seg, seg', rest.
Qed.

Lemma Release_refined h db b : refines db b ->
  match Release h db, b_Release h b with
  | Some db', Some b' => refines db' b'
  | None, None => True
  | _, _ => False
  end.
Proof.
  intros (l & segs & R). unfold Release, b_Release. rewrite (refined_stages _ _ _ _ R).
  destruct (Z.eqb_spec h (b_stages b)) as [->|]; [|done]. cbn [negb]. rewrite (rf_levels _ _ _ _ R).
  destruct (stages_cases _ _ _ _ R) as [(Es & seg & ->)|(cps & cp & seg & seg' & rest & Es & -> & A & S)].
  - by rewrite Es.
  - pose proof (refined_stages _ _ _ _ R) as El. rewrite Es, length_app in El. cbn in El.
    assert (exists cp0 cps', stages db = cp0 :: cps' /\ (b_stages b = 1 -> cp0 = cp /\ cps = [])) as (cp0 & cps' & E0 & H0).
    { rewrite Es. destruct cps as [|cp0 cps]; [by exists cp, []|]. exists cp0, (cps ++ [cp]). cbn in El. split; [done|lia]. }
    rewrite E0. cbn [fmap list_fmap]. exists l, ((seg' ++ seg) :: rest).
    assert (Hd : (b_stages b =? 1) && negb (isSamePosition cp0 (checkpoint (vlog db))) =
                 (b_stages b =? 1) && negb (bool_decide (writes (key_of (tree db)) seg = ∅))).
    { destruct (Z.eqb_spec (b_stages b) 1) as [E1|]; [|done]. destruct (H0 E1) as [-> _]. cbn [andb]. f_equal.
      pose proof (Vlog_of _ _ _ (rf_inv _ _ _ _ R)) as V. pose proof (checkpoint_at _ _ V) as C. rewrite flat_cons in V, C.
      rewrite (isSamePosition_spec (vlog db) (flat (seg' :: rest)) seg [] _ _) by (rewrite ?app_nil_r; done).
      apply bool_decide_ext. by rewrite writes_nil. }
    rewrite Hd. clear Hd. set (db0 := if _ && _ then _ else _).
    assert (Inv db0 l (flat (seg :: seg' :: rest)) [] /\ tree db0 = tree db /\ entrySizeLimit db0 = entrySizeLimit db /\
      bufferSizeLimit db0 = bufferSizeLimit db /\ stages db0 = stages db /\
      db_dirty db0 = db_dirty db || ((b_stages b =? 1) && negb (bool_decide (writes (key_of (tree db)) seg = ∅))))
      as (I0 & T0 & En0 & B0 & S0 & D0).
    { unfold db0. destruct R. destruct (_ && _); split_and!; try done; [by apply Inv_dirty|..]; cbn; by rewrite ?orb_true_r, ?orb_false_r. }
    clearbody db0. destruct R. split; cbn [cut_stages with_stages tree stages db_dirty entrySizeLimit bufferSizeLimit b_flags b_levels b_dirty b_entryLimit b_totalLimit].
    + apply Inv_stages. rewrite !flat_cons in I0. by rewrite flat_cons, app_assoc.
    + rewrite S0, Es, take_app_length' by lia. by eapply staged_top.
    + rewrite T0. cbn [fmap list_fmap]. by rewrite writes_app.
    + by rewrite T0.
    + by rewrite D0, rf_dirty0.
    + by rewrite En0.
    + by rewrite B0.
    + unfold entry_fits, cut_stages. cbn. by rewrite En0.
Qed.

Lemma empty_Tree : Tree empty_tree [].
Proof.
  exists E, 0%nat. split_and!; [|constructor|done|constructor]. split; cbn; [done|done|constructor|].
  split; [by exists nullNode|done].
Qed.

(** A buffer as it is made, and as [Reset] leaves it. *)
Lemma empty_refines entryLimit totalLimit :
  entryLimit + memdbVlogHdrSize <= maxBlockSize -> refines (newMemDB entryLimit totalLimit) (b_empty entryLimit totalLimit).
Proof.
  intros Fi. exists [], [[]]. split; try done.
  - split; try done.
    + apply empty_Tree.
    + by intros a ?%not_elem_of_nil.
    + split; [constructor|by left].
    + intros a [n H]. apply (lookup_singleton_Some nullAddr a nullNode n) in H as [<- _]. by left.
    + apply Vlog_nil.
    + by intros a ?%not_elem_of_nil.
    + by intros [|? ?] ? ? ?.
  - constructor.
  - split; [by intros a ?%not_elem_of_nil|]. intros k f H. exfalso. exact (lookup_empty_Some k f H).
Qed.
