(* ===== verification/MemCleanup.v ===== *)
(** * Undoing a stage, iterators and snapshots

    [revertToCheckpoint] takes the records back one by one, from the newest to
    the checkpoint; what is left is the buffer without its top map.  Iterators
    visit the contents of the specification, and a snapshot reads what was there
    before the stages. *)

From stdpp Require Import base gmap list sorting strings.
From Stdlib Require Import Strings.Byte ZArith Lia Sorted.
From S2P Require Import Prelude External Marshal KvUnion MemArena MemVlog MemTree MemTreeRep MemTreeInsert MemTreeDelete Memdb MemWalk MemInv MemSpec MemRefine.

Open Scope Z_scope.

(** ** One record *)

(** The node of the last record points to the record before. *)
Definition unlink (r : vrec) (old_len : Z) (db : memdb) : memdb :=
  with_size (db_size db - Z.of_nat (length (r_val r)) + old_len)
    (with_tree (upd (r_node r) (set_n_vptr (r_old r)) (tree db)) db).

Lemma unlink_Inv db l recs a r junk :
  Inv db l (recs ++ [(a, r)]) junk ->
  let db' := unlink r (Z.of_nat (length (default [] (value_of recs (r_node r))))) db in
  Inv db' l recs ((a, r) :: junk) /\ same_nodes db db'.
Proof.
  intros I db'. pose proof (iv_tree _ _ _ _ I) as Tr. pose proof (iv_old _ _ _ _ I) as O.
  apply old_ok_snoc in O as (O & Eo & Hn). destruct (Tree_nonnull _ _ _ Tr Hn) as [_ Pn].
  assert (forall A (g : memdbNode -> A), (forall n, g (set_n_vptr (r_old r) n) = g n) -> forall b, g (node db' b) = g (node db b)) as G.
  { intros A g H b. by apply getNode_upd_proj. }
  split.
  - split; try apply I; try done.
    + apply Tree_upd; [apply keeps_vptr|done].
    + intros b Hb. rewrite (G _ n_klen), (G _ n_key) by done. by apply I.
    + intros b Pb. apply (iv_nodes _ _ _ _ I). by apply present_upd in Pb.
    + pose proof (iv_log _ _ _ _ I) as V. by rewrite <- app_assoc in V.
    + intros b Hb. cbn [db' unlink with_size with_tree tree]. rewrite upd_fields by done.
      case_decide as E; [by subst b|]. rewrite (iv_ptr _ _ _ _ I b Hb), latest_snoc, decide_False; [done|]. cbn. congruence.
    + cbn [db' unlink with_size db_size with_tree]. rewrite (iv_size _ _ _ _ I).
      rewrite (sum_update (entry_size db (recs ++ [(a, r)])) (entry_size db' recs) l (r_node r));
        [|by eapply Tree_NoDup|done|].
      * unfold entry_size. rewrite (G _ n_key) by done. unfold value_of. rewrite newest_snoc, decide_True by done. cbn. lia.
      * intros b _ N. unfold entry_size, value_of. rewrite (G _ n_key) by done. rewrite newest_snoc, decide_False; [done|].
        cbn. congruence.
  - split; try done; intros b; by apply (G _ n_key) || by apply (G _ getKeyFlags).
Qed.

(** A node without a value goes. *)
Lemma delete_Inv db l recs junk n :
  Inv db l recs junk -> n ∈ l -> newest recs n = None ->
  exists l', Inv (deleteNode n db) l' recs junk /\ (forall a, a ∈ l' <-> a ∈ l /\ a <> n) /\
    same_data (tree db) (tree (deleteNode n db)).
Proof.
  intros I Hn Nn. pose proof (iv_tree _ _ _ _ I) as Tr. pose proof (Tree_NoDup _ _ Tr) as ND.
  apply list_elem_of_split in Hn as (l1 & l2 & ->). destruct (delete_node_tree _ _ _ _ Tr) as [Tr' D].
  assert (forall a, a ∈ l1 ++ l2 <-> a ∈ l1 ++ n :: l2 /\ a <> n) as Mem.
  { intros a. rewrite !elem_of_app, elem_of_cons. apply NoDup_app in ND as (_ & D1 & [D2 _]%NoDup_cons). split.
    - intros [H|H]; (split; [tauto|]); intros ->; [apply (D1 n H); left|done].
    - tauto. }
  exists (l1 ++ l2). split_and!; [|done|done].
  pose proof (data_fields _ _ n D) as _. split; try apply I; try done.
  - cbn [deleteNode db_count]. rewrite (iv_count _ _ _ _ I), !length_app. cbn. lia.
  - intros a [Ha _]%Mem. cbn [deleteNode tree]. destruct (data_fields _ _ a D) as (_ & -> & _ & ->). by apply I.
  - intros a Pa. apply (iv_nodes _ _ _ _ I). by apply (D a).
  - intros a [Ha _]%Mem. cbn [deleteNode tree]. destruct (data_fields _ _ a D) as (-> & _). by apply I.
  - intros m1 b r m2 E. destruct (iv_old _ _ _ _ I _ _ _ _ E) as [Eo Hb]. split; [done|]. apply Mem. split; [done|].
    intros En. apply (proj1 (newest_None _ _) Nn (b, r)); [|done]. rewrite E, elem_of_app, elem_of_cons. auto.
  - cbn [deleteNode db_size]. rewrite (iv_size _ _ _ _ I), sum_middle.
    destruct (iv_keys _ _ _ _ I n) as [-> _]; [rewrite elem_of_app, elem_of_cons; auto|].
    unfold entry_size at 1. unfold value_of. rewrite Nn. cbn.
    rewrite (sum_ext (entry_size (deleteNode n db) recs) (entry_size db recs)); [lia|].
    intros a _. unfold entry_size. cbn [deleteNode tree]. by destruct (data_fields _ _ a D) as (_ & _ & _ & ->).
Qed.

(** What the flags become when the record of a node is the last that goes. *)
Definition lost_flags (k : bytes) (F : gmap bytes Z) : gmap bytes Z :=
  match F !! k with
  | Some f => if persistent f then <[k := Z.land f persistentFlags]> F else delete k F
  | None => F
  end.

Definition kept (k : bytes) (F : gmap bytes Z) : bool :=
  match F !! k with Some f => persistent f | None => false end.

(** What the loop leaves alone. *)
Record same_frame (db db' : memdb) : Prop := {
  sf_key a : key_of (tree db') a = key_of (tree db) a;
  sf_vlog : vlog db' = vlog db;
  sf_entry : entrySizeLimit db' = entrySizeLimit db;
  sf_buffer : bufferSizeLimit db' = bufferSizeLimit db;
  sf_stages : stages db' = stages db;
}.

#[export] Instance same_frame_trans : Transitive same_frame.
Proof. intros a b c [] []. split; try congruence. Qed.

Lemma flags_are_delete s s' l l' n F :
  Tree s l -> flags_are s l F -> n ∈ l -> (forall a, a ∈ l' <-> a ∈ l /\ a <> n) -> same_data s s' ->
  flags_are s' l' (delete (key_of s n) F).
Proof.
  intros Tr [N K] Hn Mem D. split.
  - intros a [Ha Na]%Mem. rewrite (key_of_data _ _ a D). destruct (data_fields _ _ a D) as (_ & _ & -> & _).
    rewrite lookup_delete_ne; [by apply N|]. intros E. apply Na. symmetry. exact (Tree_keys _ _ _ _ Tr Hn Ha E).
  - intros k f [Nk H]%lookup_delete_Some. destruct (K k f H) as (a & Ha & <-). exists a.
    rewrite (key_of_data _ _ a D). split; [|done]. apply Mem. split; [done|]. by intros ->.
Qed.

Lemma flags_are_nodes db db' l F : same_nodes db db' -> flags_are (tree db) l F -> flags_are (tree db') l F.
Proof.
  intros S [N K]. split.
  - intros a Ha. rewrite (sn_key _ _ S), (sn_flags _ _ S). by apply N.
  - intros k f H. destruct (K k f H) as (a & Ha & E). exists a. by rewrite (sn_key _ _ S).
Qed.

Lemma revert_record_unlink r db :
  revert_record (r_hdr r) db =
  if isNull (r_old r) then
    let db := unlink r 0 db in
    let keptFlags := Z.land (getKeyFlags (node db (r_node r))) persistentFlags in
    if keptFlags =? 0 then deleteNode (r_node r) db
    else with_dirty true (with_tree (upd (r_node r) (setKeyFlags keptFlags) (tree db)) db)
  else unlink r (Z.of_nat (length (getValue (vlog db) (r_old r)))) db.
Proof. unfold revert_record, unlink. cbn zeta. rewrite Z.add_0_r. cbn [hdr_oldValue r_hdr]. destruct (isNull (r_old r)); reflexivity. Qed.

(** Taking one record back. *)
Lemma revert_record_spec db l recs a r junk F :
  Inv db l (recs ++ [(a, r)]) junk -> flags_are (tree db) l F ->
  let db' := revert_record (r_hdr r) db in
  let k := key_of (tree db) (r_node r) in
  let lost := bool_decide (newest recs (r_node r) = None) in
  exists l', Inv db' l' recs ((a, r) :: junk) /\ (forall b, b ∈ l' -> b ∈ l) /\
    flags_are (tree db') l' (if lost then lost_flags k F else F) /\ same_frame db db' /\
    db_dirty db' = db_dirty db || (lost && kept k F).
Proof.
  intros I Fl. cbn zeta. destruct (unlink_Inv _ _ _ _ _ _ I) as [I1 S1]. rewrite revert_record_unlink.
  pose proof (iv_old _ _ _ _ I) as O. apply old_ok_snoc in O as (O & Eo & Hn).
  pose proof (flags_are_nodes _ _ _ _ S1 Fl) as F1. unfold latest in Eo. unfold value_of in *.
  destruct (newest recs (r_node r)) as [[b rb]|] eqn:En; cbn [fmap option_fmap option_map default fst snd] in *; unfold id in *.
  - rewrite (bool_decide_false (Some _ = None)) by done.
    destruct (Inv_newest _ _ _ _ _ _ I1 En) as (_ & _ & _ & Ev & Nb). cbn in Ev, Nb. rewrite Eo, isNull_false by done.
    assert (getValue (vlog db) b = r_val rb) as -> by exact Ev.
    exists l. split_and!; [done|done|done| |by rewrite orb_false_r]. split; try done. apply S1.
  - rewrite bool_decide_true by done. rewrite Eo, isNull_null. cbn [andb length Z.of_nat] in *. set (db1 := unlink r 0 db) in *.
    unfold lost_flags, kept. rewrite (fl_node _ _ _ Fl _ Hn), (sn_flags _ _ S1). cbn zeta.
    assert (persistent (getKeyFlags (node db (r_node r))) = negb (Z.land (getKeyFlags (node db (r_node r))) persistentFlags =? 0)) as Ep by done.
    rewrite Ep. clear Ep. destruct (_ =? 0); cbn [negb].
    + destruct (delete_Inv _ _ _ _ _ I1 Hn En) as (l' & I2 & Mem & D). exists l'.
      split_and!; [exact I2|by intros b [? _]%Mem| | |by rewrite orb_false_r].
      * rewrite <- (sn_key _ _ S1). eapply flags_are_delete; [apply I1|exact F1|done|done|exact D].
      * split; try done. intros b. transitivity (key_of (tree db1) b); [exact (key_of_data _ _ b D)|apply S1].
    + destruct (setKeyFlags_Inv db1 l recs ((a, r) :: junk) F (r_node r) (Z.land (getKeyFlags (node db (r_node r))) persistentFlags)
        I1 F1 Hn) as (I2 & F2 & K2); [apply flags_ok_land, flags_ok_get|].
      exists l. split_and!; [by apply Inv_dirty|done| | |by rewrite orb_true_r].
      * rewrite <- (sn_key _ _ S1). exact F2.
      * split; try done. intros b. transitivity (key_of (tree db1) b); [exact (K2 b)|apply S1].
Qed.

(** ** All the records of a stage *)

Lemma newest_writes db l recs junk n : Inv db l recs junk -> n ∈ l ->
  newest recs n = None <-> writes (key_of (tree db)) recs !! key_of (tree db) n = None.
Proof. intros I Hn. rewrite (Inv_view _ _ _ _ _ I Hn). unfold value_of. by destruct (newest recs n). Qed.

Lemma loses_insert m rest k v k' :
  loses (<[k := v]> m) rest k' <-> (k' = k /\ rest !! k = None) \/ loses m rest k'.
Proof.
  unfold loses. rewrite lookup_insert_is_Some. destruct (decide (k = k')) as [->|N]; [|naive_solver]. split; [tauto|].
  intros [[_ ?]|[? ?]]; auto.
Qed.

(** The flags, one record at a time. *)
Lemma drop_flags_step m rest k v F :
  drop_flags m rest (if bool_decide ((m ∪ rest) !! k = None) then lost_flags k F else F) = drop_flags (<[k := v]> m) rest F.
Proof.
  apply map_eq. intros k'. rewrite !lookup_drop_flags. pose proof (loses_insert m rest k v k') as E. case_bool_decide as L.
  - apply lookup_union_None in L as [Lm Lr]. unfold lost_flags. destruct (decide (k' = k)) as [->|N].
    + assert (~ loses m rest k) as Nl by (unfold loses; rewrite Lm; by intros [[? ?] _]).
      destruct (F !! k) as [f|] eqn:Ef; [|by rewrite Ef]. cbn [mbind option_bind].
      rewrite (decide_True (P := loses (<[k := v]> m) rest k)) by (apply E; auto).
      destruct (persistent f); rewrite ?lookup_insert_eq, ?lookup_delete_eq; cbn [mbind option_bind]; [|done].
      by rewrite decide_False.
    + assert ((match F !! k with Some f => if persistent f then <[k := Z.land f persistentFlags]> F else delete k F | None => F end) !! k' = F !! k') as ->.
      { destruct (F !! k) as [f|]; [|done]. destruct (persistent f); by rewrite ?lookup_insert_ne, ?lookup_delete_ne. }
      destruct (F !! k') as [f|]; [|done]. cbn [mbind option_bind].
      destruct (decide (loses m rest k')), (decide (loses (<[k := v]> m) rest k')); tauto.
  - rewrite lookup_union_None in L. destruct (F !! k') as [f|]; [|done]. cbn [mbind option_bind].
    assert (loses (<[k := v]> m) rest k' <-> loses m rest k') as E'.
    { rewrite E. split; [|auto]. intros [[-> Nr]|?]; [|done]. split; [|done]. apply not_eq_None_Some. tauto. }
    destruct (decide (loses m rest k')), (decide (loses (<[k := v]> m) rest k')); tauto.
Qed.

Lemma keeps_step m rest k v F :
  keeps_some m rest (if bool_decide ((m ∪ rest) !! k = None) then lost_flags k F else F) \/
  bool_decide ((m ∪ rest) !! k = None) && kept k F = true <-> keeps_some (<[k := v]> m) rest F.
Proof.
  unfold keeps_some. setoid_rewrite loses_insert. case_bool_decide as L.
  - apply lookup_union_None in L as [Lm Lr]. cbn [andb]. unfold kept, lost_flags.
    assert (forall k', loses m rest k' -> k' <> k) as Nk by (intros k' [[? Hs] _] ->; congruence).
    assert (forall k', k' <> k -> (match F !! k with Some f => if persistent f then <[k := Z.land f persistentFlags]> F else delete k F | None => F end) !! k' = F !! k') as Ne.
    { intros k' N. destruct (F !! k) as [f|]; [|done]. destruct (persistent f); by rewrite ?lookup_insert_ne, ?lookup_delete_ne. }
    split.
    + intros [(k' & f & Hf & Lo & P)|H].
      * exists k', f. rewrite Ne in Hf by auto. auto.
      * destruct (F !! k) as [f|] eqn:Ef; [|done]. exists k, f. auto.
    + intros (k' & f & Hf & [[-> _]|Lo] & P); [right; by rewrite Hf|left]. exists k', f. rewrite Ne by auto. auto.
  - cbn [andb]. rewrite lookup_union_None in L. split.
    + intros [(k' & f & Hf & Lo & P)|]; [|done]. exists k', f. auto.
    + intros (k' & f & Hf & Lo & P). left. exists k', f. split_and!; [done| |done].
      destruct Lo as [[-> Nr]|?]; [|done]. split; [|done]. apply not_eq_None_Some. tauto.
Qed.

Lemma not_loses_empty rest k : ~ loses ∅ rest k.
Proof. intros [[v Hv] _]. by rewrite lookup_empty in Hv. Qed.

Lemma drop_flags_empty rest F : drop_flags ∅ rest F = F.
Proof.
  apply map_eq. intros k. rewrite lookup_drop_flags. destruct (F !! k); [|done]. cbn [mbind option_bind].
  rewrite decide_False; [done|apply not_loses_empty].
Qed.

(** The loop, from a cursor after the records [seg] of the stage. *)
Lemma revert_loop_spec fuel cp lo : forall seg db l junk F cursor,
  Inv db l (lo ++ seg) junk -> flags_are (tree db) l F -> at_pos cp lo -> at_pos cursor (lo ++ seg) ->
  (length seg < fuel)%nat ->
  let db' := revert_loop fuel cp cursor db in
  let kf := key_of (tree db) in
  exists l', Inv db' l' lo (seg ++ junk) /\ flags_are (tree db') l' (drop_flags (writes kf seg) (writes kf lo) F) /\
    same_frame db db' /\
    (db_dirty db' = true <-> db_dirty db = true \/ keeps_some (writes kf seg) (writes kf lo) F).
Proof.
  induction fuel as [|fuel IH]; [lia|]. intros seg db l junk F cursor I Fl A C L. cbn [revert_loop]. cbn zeta.
  pose proof (iv_log _ _ _ _ I) as V.
  rewrite (isSamePosition_spec (vlog db) lo seg junk cp cursor) by (rewrite ?app_assoc; done).
  destruct seg as [|[a r] seg _] using rev_ind.
  - rewrite bool_decide_true by done. rewrite app_nil_r in I. exists l.
    change (writes (key_of (tree db)) []) with (∅ : gmap bytes bytes). rewrite drop_flags_empty.
    split_and!; [done|done|done|]. split; [by left|]. intros [?|(k & f & _ & H & _)]; [done|]. by apply not_loses_empty in H.
  - rewrite bool_decide_false by by destruct seg. rewrite app_assoc in I, C, V. rewrite <- app_assoc in V. cbn [app] in V.
    destruct (at_pos_snoc _ _ _ _ C) as (Cb & Co & _). rewrite Cb, Co, Z.add_simpl_r.
    assert ((a, r) ∈ (lo ++ seg) ++ (a, r) :: junk) as Ha by (rewrite elem_of_app, elem_of_cons; auto).
    rewrite (Vlog_load _ _ _ _ V Ha).
    destruct (revert_record_spec db l (lo ++ seg) a r junk F I Fl) as (l1 & I1 & _ & F1 & S1 & D1). cbn zeta in *.
    pose proof (moveBack_at _ _ _ _ _ _ V C) as C1. rewrite <- (sf_vlog _ _ S1) in C1.
    set (db1 := revert_record (r_hdr r) db) in *. rewrite length_app in L. cbn in L.
    destruct (IH seg db1 l1 ((a, r) :: junk) _ _ I1 F1 A C1 ltac:(lia)) as (l2 & I2 & F2 & S2 & D2). cbn zeta in *.
    assert (forall s, writes (key_of (tree db1)) s = writes (key_of (tree db)) s) as We.
    { intros s. apply writes_ext. intros p _. apply S1. }
    rewrite !We in F2, D2.
    assert (r_node r ∈ l) as Hn by (destruct (iv_old _ _ _ _ I _ _ _ _ eq_refl); done).
    assert (bool_decide (newest (lo ++ seg) (r_node r) = None) =
            bool_decide ((writes (key_of (tree db)) seg ∪ writes (key_of (tree db)) lo) !! key_of (tree db) (r_node r) = None)) as El.
    { apply bool_decide_ext. rewrite <- writes_app. pose proof (iv_old _ _ _ _ I) as O. apply old_ok_snoc in O as (O & _).
      rewrite (writes_value (key_of (tree db)) (lo ++ seg) (r_node r)).
      - unfold value_of. by destruct (newest _ _).
      - intros p Hp Ek. exact (Tree_keys _ _ _ _ (iv_tree _ _ _ _ I) (old_ok_node _ _ _ O Hp) Hn Ek). }
    rewrite El in F2, D1, D2. rewrite (drop_flags_step _ _ _ (r_val r)) in F2.
    exists l2. rewrite writes_snoc. cbn [snd]. split_and!; [by rewrite <- app_assoc|exact F2|by etransitivity|].
    rewrite D2, D1, orb_true_iff, <- (keeps_step _ _ _ (r_val r)). tauto.
Qed.

(** [Cleanup] drops the top map. *)
Lemma Cleanup_refined h db b : refines db b ->
  match mem_Cleanup h db, b_Cleanup h b with
  | Some db', Some b' => refines db' b'
  | None, None => True
  | _, _ => False
  end.
Proof.
  intros (l & segs & R). unfold mem_Cleanup, b_Cleanup. rewrite (refined_stages _ _ _ _ R).
  destruct (Z.ltb_spec (b_stages b) h) as [|Hh']; [by exists l, segs|]. destruct (Z.ltb_spec h (b_stages b)) as [|Hh]; [done|].
  rewrite (rf_levels _ _ _ _ R), (iv_valid _ _ _ _ (rf_inv _ _ _ _ R)).
  destruct (stages_cases _ _ _ _ R) as [(Es & seg & ->)|(cps & cp & seg & seg' & rest & Es & -> & A & S)].
  { by rewrite Es. }
  rewrite Es, last_snoc. cbn [fmap list_fmap negb].
  pose proof (rf_inv _ _ _ _ R) as I. pose proof (checkpoint_at _ _ (Vlog_of _ _ _ I)) as C.
  pose proof (Vlog_fuel _ _ (Vlog_of _ _ _ I)) as Fu. rewrite flat_cons in I, C, Fu. rewrite length_app in Fu.
  destruct (revert_loop_spec (log_fuel (vlog db)) cp (flat (seg' :: rest)) seg db l [] _ _ I (rf_flags _ _ _ _ R) A C ltac:(lia))
    as (l' & I' & F' & Sf & D'). cbn zeta in *. fold (revertToCheckpoint cp db) in *. set (db1 := revertToCheckpoint cp db) in *.
  exists l', (seg' :: rest). pose proof (refined_stages _ _ _ _ R) as Ls. rewrite Es, length_app in Ls. cbn in Ls.
  pose proof (iv_log _ _ _ _ I') as V'. rewrite app_nil_r in V', I'.
  change (writes (key_of (tree db)) seg' :: (writes (key_of (tree db)) <$> rest)) with (writes (key_of (tree db)) <$> (seg' :: rest)).
  rewrite view_writes. split; cbn [cut_stages with_stages with_vlog tree stages db_dirty entrySizeLimit bufferSizeLimit
    b_flags b_levels b_dirty b_entryLimit b_totalLimit].
  - apply Inv_stages. pose proof (truncate_Vlog _ _ _ _ V' A) as Vt. destruct I'. split; try done. by rewrite app_nil_r.
  - rewrite (sf_stages _ _ Sf), Es, take_app_length'; [done|lia].
  - apply list_fmap_ext. intros i s _. apply writes_ext. intros p _. symmetry. apply Sf.
  - exact F'.
  - rewrite (rf_dirty _ _ _ _ R). apply eq_true_iff_eq. rewrite orb_true_iff, keeps_someb_spec. symmetry. exact D'.
  - rewrite (sf_entry _ _ Sf). apply R.
  - rewrite (sf_buffer _ _ Sf). apply R.
  - change (entrySizeLimit db1 + memdbVlogHdrSize <= maxBlockSize). rewrite (sf_entry _ _ Sf). apply R.
Qed.

(** * Reading the transaction buffer: iterators and snapshots

    The buffer is a [Retriever] of the union store: its iterators enumerate the
    view in order.  A snapshot reads the base, beneath every stage. *)

(** ** Pairs *)

Definition pair_at (db : memdb) (a : addr) : bytes * bytes := (key_of (tree db) a, getValue (vlog db) (n_vptr (node db a))).

(** The pairs that iterators read, in order, as a map. *)
Definition contents (db : memdb) : gmap bytes bytes :=
  list_to_map (pair_at db <$> filter (has_value db) (inorder (tree db))).

Lemma Next_db i : it_db (mem_Next i) = it_db i.
Proof.
  unfold mem_Next. generalize (node_fuel (tree (it_db i))). intros fuel. revert i.
  induction fuel as [|fuel IH]; intros i; [done|]. cbn [next_loop]. destruct (_ || _); [done|]. by rewrite IH.
Qed.

Lemma seek_db key i : it_db (seek key i) = it_db i.
Proof.
  unfold seek. cbn zeta. destruct (seek_walk _ _ _ _ _ _) as [y c].
  destruct (it_reverse i), c; cbn [negb andb]; try done; by destruct (negb (isNull y)).
Qed.

Lemma init_db i : it_db (it_init i) = it_db i.
Proof.
  unfold it_init. cbn zeta. set (i' := if it_reverse i then _ else _).
  assert (it_db i' = it_db i) as E.
  { unfold i'. destruct (it_reverse i); [destruct (it_end i) as [[|? ?]|]|destruct (is_nil (it_start i))]; done || apply seek_db. }
  destruct (_ && _); [by rewrite Next_db|done].
Qed.

Lemma visits_enumerates i m : visits i m -> enumerates i (pair_at (it_db i) <$> m).
Proof.
  induction 1 as [i V|i m V H IH]; [by constructor|]. cbn [fmap list_fmap].
  change (pair_at (it_db i) (it_curr i)) with (iter_Key i, iter_Value i).
  apply (enum_step i (mem_Next i)); [done|done|]. by rewrite Next_db in IH.
Qed.

Lemma pair_at_view db l recs junk b a : Inv db l recs junk -> b_view b = writes (key_of (tree db)) recs ->
  a ∈ l -> has_value db a -> b_view b !! key_of (tree db) a = Some (getValue (vlog db) (n_vptr (node db a))).
Proof.
  intros I E Ha Hv. rewrite E, (Inv_view _ _ _ _ _ I Ha).
  by destruct (Inv_value _ _ _ _ _ I Ha) as [[? _]|(p & _ & _ & _ & -> & _ & -> & ->)].
Qed.

(** The pairs of the nodes with a value are the pairs of the view. *)
Lemma elem_of_pairs db b l segs (P : addr -> Prop) `{forall a, Decision (P a)} (Q : bytes -> Prop) p :
  refined db b l segs -> (forall a, P a <-> has_value db a /\ Q (key_of (tree db) a)) ->
  p ∈ pair_at db <$> filter P l <-> b_view b !! p.1 = Some p.2 /\ Q p.1.
Proof.
  intros R E. pose proof (rf_inv _ _ _ _ R) as I. pose proof (refined_view _ _ _ _ R) as Ev.
  rewrite list_elem_of_fmap. setoid_rewrite list_elem_of_filter. split.
  - intros (a & -> & Pa & Ha). apply E in Pa as [Hv Hq]. cbn. split; [|done]. by eapply pair_at_view.
  - intros [Hv Hq]. destruct p as [k v]. cbn in *. rewrite Ev in Hv. destruct (Inv_view_key _ _ _ _ _ _ I Hv) as (a & Ha & <-).
    rewrite (Inv_view _ _ _ _ _ I Ha) in Hv. exists a. unfold pair_at, has_value in *.
    destruct (Inv_value _ _ _ _ _ I Ha) as [[_ En]|(q & _ & _ & _ & Eq & Nq & Ev' & Eg)]; [by rewrite En in Hv|].
    rewrite Ev' in Hv. injection Hv as <-. rewrite Eq, Eg. split_and!; [done| |done]. apply E. split; [|done]. unfold has_value. by rewrite Eq.
Qed.

Lemma refined_inorder db b l segs : refined db b l segs -> inorder (tree db) = l.
Proof. intros R. apply inorder_spec, Tree_InOrder. apply (rf_inv _ _ _ _ R). Qed.

Lemma contents_view db b : refines db b -> contents db = b_view b.
Proof.
  intros (l & segs & R). unfold contents. rewrite (refined_inorder _ _ _ _ R).
  assert (NoDup (pair_at db <$> filter (has_value db) l).*1) as ND.
  { rewrite <- list_fmap_compose. change (fst ∘ pair_at db) with (key_of (tree db)).
    pose proof (Tree_keys_NoDup _ _ (iv_tree _ _ _ _ (rf_inv _ _ _ _ R))) as N.
    apply NoDup_fmap_2_strong; [|apply NoDup_filter; by eapply Tree_NoDup, R].
    intros x y [_ Hx]%list_elem_of_filter [_ Hy]%list_elem_of_filter. by eapply Tree_keys, Hy; [apply R|]. }
  apply map_eq. intros k. apply option_eq. intros v.
  rewrite <- (elem_of_list_to_map _ k v ND).
  rewrite (elem_of_pairs db b l segs (has_value db) (fun _ => True) (k, v) R); [|tauto]. cbn. tauto.
Qed.

(** ** Iterators *)

Definition pair_lt (rev : bool) (p q : bytes * bytes) : Prop := kv_lt rev p q.

Lemma directed_pairs db l rev (P : addr -> Prop) `{forall a, Decision (P a)} :
  Tree (tree db) l -> StronglySorted (kv_lt rev) (pair_at db <$> filter P (directed rev l)).
Proof.
  intros Tr. pose proof (StronglySorted_filter _ P _ (directed_sorted db l Tr rev)) as S.
  induction S as [|a m S IH F]; [constructor|]. cbn [fmap list_fmap]. constructor; [done|].
  apply Forall_forall. intros q (c & -> & Hc)%list_elem_of_fmap. rewrite Forall_forall in F. specialize (F c Hc).
  unfold kv_lt, key_lt. by destruct rev.
Qed.

(** What an iterator over the values shows. *)
Definition shows (rev : bool) (start : bytes) (e : option bytes) (key : bytes) : Prop :=
  if rev then match e with None | Some [] => True | Some e => key <b e end
  else start <=b key /\ match e with None => True | Some e => key <b e end.

Lemma iterator_spec db b start e rev :
  refines db b ->
  exists L, enumerates (it_init (MkIter db nullAddr start e rev false)) L /\ StronglySorted (kv_lt rev) L /\
    forall p, p ∈ L <-> b_view b !! p.1 = Some p.2 /\ shows rev start e p.1.
Proof.
  intros (l & segs & R). pose proof (iv_tree _ _ _ _ (rf_inv _ _ _ _ R)) as Tr.
  pose proof (visits_enumerates _ _ (init_visits db l Tr (MkIter db nullAddr start e rev false) eq_refl)) as En.
  cbn [it_db it_reverse it_start it_end] in En. set (i := MkIter db nullAddr start e rev false) in *.
  set (P := fun a => passes db i a /\ from_start db rev start e a).
  assert (forall a, Decision (P a)) as Dec by (intros a; unfold P; apply _).
  rewrite <- (filter_both (from_start db rev start e) (passes db i) P) in En by (intros a; unfold P; tauto).
  rewrite init_db in En. change (it_db i) with db in En. eexists. split; [exact En|]. split; [by apply directed_pairs|]. intros p.
  assert (p ∈ pair_at db <$> filter P (directed rev l) <-> p ∈ pair_at db <$> filter P l) as ->.
  { rewrite !list_elem_of_fmap. setoid_rewrite list_elem_of_filter. unfold directed. destruct rev; [|done].
    setoid_rewrite elem_of_reverse. done. }
  apply (elem_of_pairs db b l segs P (shows rev start e) p R). intros a. unfold P, passes, visible, before_end, from_start, sought, shows.
  cbn [i it_includeFlags it_reverse it_end]. destruct rev; [destruct e as [[|x e]|]; cbn [default id]|]; naive_solver.
Qed.

(** ** The buffer of a union store *)

(** A buffer that implements some stack of maps. *)
Definition buffer : Type := { db : memdb | exists b, refines db b }.

(** An empty bound stands for a nil one, as the callers of the union store
    pass it; the panic of [Get] is out of reach. *)
Definition bound (k : bytes) : option bytes := if is_nil k then None else Some k.

#[export] Instance memdb_retriever : Retriever buffer memdbIterator := {|
  ret_Get r k := default (Err (ErrKv "panic")) (mem_Get k (proj1_sig r));
  ret_Iter r k ub := Ok (mem_Iter k (bound ub) (proj1_sig r));
  ret_IterReverse r k := Ok (mem_IterReverse (bound k) (proj1_sig r));
|}.

#[export] Instance memdb_retriever_laws : RetrieverLaws buffer memdbIterator.
Proof.
  refine {| ret_contents r := contents (proj1_sig r) |}; intros [db [b R]]; cbn [proj1_sig ret_Get ret_Iter ret_IterReverse memdb_retriever];
    rewrite (contents_view _ _ R).
  - intros k. rewrite (Get_refined _ _ _ R). done.
  - intros k ub. destruct (iterator_spec db b k (bound ub) false R) as (L & En & S & Ml). eexists _, L.
    split_and!; [done|exact En|exact S|]. intros p. rewrite Ml. unfold shows, within, bound. destruct ub; cbn; naive_solver.
  - intros k. destruct (iterator_spec db b [] (bound k) true R) as (L & En & S & Ml). eexists _, L.
    split_and!; [done|exact En|exact S|]. intros p. rewrite Ml. unfold shows, below, bound. destruct k; cbn; naive_solver.
Defined.

(** ** Snapshots *)

(** The walk from the newest record of a node among [lo ++ hi] to the newest
    one that lies before the position. *)
Lemma getSnapshotValue_loop_spec fuel db l lo hi rest cp n :
  Inv db l (lo ++ hi ++ rest) [] -> at_pos cp lo -> (length hi < fuel)%nat ->
  getSnapshotValue_loop fuel (vlog db) (latest (lo ++ hi) n) cp = value_of lo n.
Proof.
  intros I A. revert hi rest I. induction fuel as [|fuel IH]; intros hi rest I L; [lia|]. cbn [getSnapshotValue_loop].
  pose proof (Vlog_of _ _ _ I) as V. unfold latest, value_of. rewrite newest_app.
  destruct (newest hi n) as [[a r]|] eqn:Eh.
  - pose proof (newest_split _ _ _ Eh) as (h1 & h2 & -> & _ & En). cbn [fmap option_fmap option_map default fst snd] in *. unfold id.
    assert ((a, r) ∈ lo ++ (h1 ++ (a, r) :: h2) ++ rest) as Ha by (rewrite !elem_of_app, elem_of_cons; auto).
    rewrite isNull_false by by eapply Vlog_nonnull.
    rewrite (canModify_after _ _ _ _ _ r V A) by (rewrite !elem_of_app, elem_of_cons; auto). cbn [negb].
    rewrite (Vlog_wrap _ _ _ _ V Ha), (Vlog_load _ _ _ _ V Ha). cbn [r_hdr hdr_oldValue].
    destruct (iv_old _ _ _ _ I (lo ++ h1) a r (h2 ++ rest)) as [-> _]; [by rewrite <- !app_assoc|]. cbn in En. rewrite En.
    apply (IH h1 ((a, r) :: h2 ++ rest)); [by rewrite <- !app_assoc in I|]. rewrite length_app in L. cbn in L. lia.
  - destruct (newest lo n) as [[a r]|] eqn:El; [|done]. cbn [fmap option_fmap option_map default fst snd]. unfold id.
    apply newest_Some in El as [Hl _].
    assert ((a, r) ∈ lo ++ hi ++ rest) as Ha by (rewrite elem_of_app; auto).
    rewrite isNull_false by by eapply Vlog_nonnull.
    rewrite (canModify_before _ _ _ _ _ r V A Hl). cbn [negb]. by rewrite (Vlog_getValue _ _ _ _ V Ha).
Qed.

Lemma getSnapshotValue_spec db l lo hi cp a :
  Inv db l (lo ++ hi) [] -> at_pos cp lo -> a ∈ l ->
  getSnapshotValue (vlog db) (n_vptr (node db a)) cp = value_of lo a.
Proof.
  intros I A Ha. rewrite (iv_ptr _ _ _ _ I a Ha). unfold getSnapshotValue.
  apply (getSnapshotValue_loop_spec _ db l lo hi [] cp a); [by rewrite app_nil_r|done|].
  pose proof (Vlog_fuel _ _ (Vlog_of _ _ _ I)) as F. rewrite length_app in F. lia.
Qed.

(** The map under every stage. *)
Definition b_base (b : membuf) : gmap bytes bytes := default ∅ (last (b_levels b)).

Lemma staged_bottom cps segs : staged cps segs ->
  exists base hi, last segs = Some base /\ flat segs = base ++ hi /\
    match last cps with Some cp => at_pos cp base | None => hi = [] end.
Proof.
  induction 1 as [seg|cp cps seg segs A S (base & hi & El & Ef & Hc)].
  - exists seg, []. rewrite flat_cons, app_nil_r. done.
  - destruct segs as [|s segs]; [by inversion S|]. exists base, (hi ++ seg). rewrite flat_cons, Ef, <- app_assoc.
    split; [exact El|]. split; [done|]. destruct cps as [|c cps];
      [|rewrite last_cons_cons; destruct (last (c :: cps)) eqn:E; [exact Hc|by apply last_None in E]]. cbn in *. subst hi. rewrite Ef, app_nil_r in A. exact A.
Qed.

Lemma snapshot_pos db b l segs : refined db b l segs ->
  exists base hi, flat segs = base ++ hi /\ at_pos (getSnapshot db) base /\ b_base b = writes (key_of (tree db)) base.
Proof.
  intros R. destruct (staged_bottom _ _ (rf_staged _ _ _ _ R)) as (base & hi & El & Ef & Hc). exists base, hi.
  split; [done|]. split.
  - unfold getSnapshot. destruct (stages db) as [|cp cps] eqn:Es.
    + cbn in Hc. subst hi. rewrite app_nil_r in Ef. rewrite <- Ef. by eapply checkpoint_at, Vlog_of, R.
    + rewrite last_reverse in Hc. exact Hc.
  - unfold b_base. rewrite (rf_levels _ _ _ _ R), fmap_last, El. done.
Qed.

Lemma base_value db b l segs base hi a : refined db b l segs -> flat segs = base ++ hi -> a ∈ l ->
  writes (key_of (tree db)) base !! key_of (tree db) a = value_of base a.
Proof.
  intros R Ef Ha. pose proof (rf_inv _ _ _ _ R) as I. apply writes_value. intros p Hp Ek.
  assert (p ∈ flat segs) as Hp' by (rewrite Ef, elem_of_app; auto).
  exact (Tree_keys _ _ _ _ (iv_tree _ _ _ _ I) (old_ok_node _ _ _ (iv_old _ _ _ _ I) Hp') Ha Ek).
Qed.

(** A snapshot of the buffer reads the base. *)
Lemma snap_Get_spec db b key : refines db b ->
  snap_Get (getSnapshot db) key db = match b_base b !! key with Some v => Ok v | None => Err ErrNotExist end.
Proof.
  intros (l & segs & R). pose proof (rf_inv _ _ _ _ R) as I. destruct (snapshot_pos _ _ _ _ R) as (base & hi & Ef & A & ->).
  unfold snap_Get. cbn zeta. destruct (find_spec _ _ key (iv_tree _ _ _ _ I)) as [[Hx Ek]|[-> Nk]].
  - destruct (Tree_nonnull _ _ _ (iv_tree _ _ _ _ I) Hx) as [N _]. rewrite isNull_false by done.
    rewrite Ef in I. rewrite (getSnapshotValue_spec _ _ _ _ _ _ I A Hx).
    rewrite <- Ek at 3. rewrite (base_value _ _ _ _ _ _ _ R Ef Hx). unfold isNull. case_bool_decide as Nv; [|done].
    rewrite (iv_ptr _ _ _ _ I _ Hx) in Nv. unfold value_of. destruct (newest base (find (tree db) key)) as [[c r]|] eqn:Eb; [|done].
    exfalso. assert (exists p, newest (base ++ hi) (find (tree db) key) = Some p) as [p Ep].
    { rewrite newest_app. destruct (newest hi _); eauto. }
    unfold latest in Nv. rewrite Ep in Nv. destruct (Inv_newest _ _ _ _ _ _ I Ep) as (_ & _ & _ & _ & Np). done.
  - rewrite isNull_null. destruct (writes _ base !! key) as [v|] eqn:E; [|done].
    assert (is_Some (writes (key_of (tree db)) base !! key)) as ((c & r) & Hp & Ek)%writes_key by eauto.
    assert ((c, r) ∈ flat segs) as Hp' by (rewrite Ef, elem_of_app; auto).
    by apply (Nk _ (old_ok_node _ _ _ (iv_old _ _ _ _ I) Hp')) in Ek.
Qed.
