(* ===== verification/MemdbSpec.v ===== *)
(** * What the transaction buffer promises

    Every operation does to the tree, the log and the checkpoints what its
    promise does to the flags and the stack of maps; reads, iterators and
    snapshots read that stack; a cleanup restores what its stage found; search
    takes logarithmically many steps; the arena never hands out memory twice. *)

From stdpp Require Import base gmap list sorting strings.
From Stdlib Require Import Strings.Byte ZArith Lia Sorted.
From S2P Require Import Prelude External Marshal KvUnion MemArena MemVlog MemTree MemTreeRep MemTreeInsert MemTreeDelete Memdb MemWalk MemInv MemSpec MemRefine MemCleanup.
Open Scope Z_scope.

(** ** Operations *)

(** The keys that the operation writes fit the 16 bits of their length. *)
Definition op_ok (op : memop) : Prop :=
  match op with
  | OpSet key _ | OpSetWithFlags key _ _ | OpDelete key | OpUpdateFlags key _ => Z.of_nat (length key) < 65536
  | _ => True
  end.

(** Both panic, or both give the same output and related states. *)
Definition simulates (r : option (memdb * memout)) (s : option (membuf * memout)) : Prop :=
  match r, s with
  | Some (db, o), Some (b, o') => o = o' /\ refines db b
  | None, None => True
  | _, _ => False
  end.

Lemma set_simulates key value ops db b :
  refines db b -> room db -> Z.of_nat (length key) < 65536 ->
  simulates (err_out <$> mem_set key value ops db) (Some (err_out (b_set key value ops b))).
Proof. intros R Rm Lk. destruct (mem_set_refined key value ops db b R Rm Lk) as (db' & -> & R'). done. Qed.

Lemma run_op_simulates op db b : refines db b -> room db -> op_ok op -> simulates (run_op op db) (spec_op op b).
Proof.
  intros R Rm Ok. destruct op as [key value|key value ops|key|key ops| |h|h|]; cbn [run_op spec_op].
  - unfold mem_Set. destruct (is_nil value); [done|by apply set_simulates].
  - unfold SetWithFlags. destruct (is_nil value); [done|by apply set_simulates].
  - by apply set_simulates.
  - unfold UpdateFlags. destruct (mem_set_refined key None ops db b R Rm Ok) as (db' & -> & R'). done.
  - destruct (Staging_refined db b R) as [E R']. destruct (Staging db), (b_Staging b). cbn in *. by subst.
  - pose proof (Release_refined h db b R) as H. destruct (Release h db), (b_Release h b); done.
  - pose proof (Cleanup_refined h db b R) as H. destruct (mem_Cleanup h db), (b_Cleanup h b); done.
  - cbn. split; [done|]. destruct R as (l & segs & R). unfold b_Reset. rewrite (rf_entry _ _ _ _ R), (rf_total _ _ _ _ R).
    change (mem_Reset db) with (newMemDB (entrySizeLimit db) (bufferSizeLimit db)). apply empty_refines, R.
Qed.

(** C13: The transaction buffer refines a stack of maps with flags: in related
    states every operation, with a key of less than 65536 bytes and room for
    one more block, panics exactly when the promise has no result, and otherwise
    returns the same error or handle and leads to related states. *)
Theorem memdb_refines op db b :
  refines db b -> room db -> op_ok op ->
  match run_op op db, spec_op op b with
  | Some (db', o), Some (b', o') => o = o' /\ refines db' b'
  | None, None => True
  | _, _ => False
  end.
Proof. exact (run_op_simulates op db b). Qed.

(** In related states the buffer reads as the stack of maps: [Get] the
    topmost value of the key, [GetFlags] its flags, [Len] the number of keys,
    [Size] the bytes of the keys and of their topmost values, [Dirty] the mark. *)
Theorem memdb_reads db b key :
  refines db b ->
  mem_Get key db = Some (b_Get key b) /\ GetFlags key db = b_GetFlags key b /\
  mem_Len db = b_Len b /\ Size db = b_Size b /\ Dirty db = b_dirty b.
Proof.
  intros R. split_and!; [by apply Get_refined|by apply GetFlags_refined|by apply Len_refined|by apply Size_refined|].
  destruct R as (l & segs & R). by rewrite (rf_dirty _ _ _ _ R).
Qed.

(** ** Reachable buffers *)

Inductive reached (entryLimit totalLimit : Z) : memdb -> membuf -> Prop :=
| reached_new : reached entryLimit totalLimit (newMemDB entryLimit totalLimit) (b_empty entryLimit totalLimit)
| reached_op op db b db' b' o :
    reached entryLimit totalLimit db b -> room db -> op_ok op ->
    run_op op db = Some (db', o) -> spec_op op b = Some (b', o) -> reached entryLimit totalLimit db' b'.

Lemma reached_refines entryLimit totalLimit db b :
  entryLimit + memdbVlogHdrSize <= maxBlockSize -> reached entryLimit totalLimit db b -> refines db b.
Proof.
  intros Fi. induction 1 as [|op db b db' b' o H IH Rm Ok E1 E2]; [by apply empty_refines|].
  pose proof (run_op_simulates op db b IH Rm Ok) as S. rewrite E1, E2 in S. by destruct S.
Qed.

(** ** Cleanup *)

(** The operations that leave the stage [h] and those under it open. *)
Definition above (h : Z) (op : memop) : Prop :=
  match op with
  | OpRelease h' | OpCleanup h' => h < h'
  | OpReset => False
  | _ => True
  end.

Fixpoint spec_ops (ops : list memop) (b : membuf) : option membuf :=
  match ops with
  | [] => Some b
  | op :: ops => '(b, _) ← spec_op op b; spec_ops ops b
  end.

(** [run_ops] with room for each operation on the way. *)
Fixpoint run_ops (ops : list memop) (db : memdb) : option memdb :=
  match ops with
  | [] => Some db
  | op :: ops => '(db, _) ← run_op op db; run_ops ops db
  end.

Fixpoint rooms (ops : list memop) (db : memdb) : Prop :=
  match ops with
  | [] => True
  | op :: ops => room db /\ op_ok op /\ match run_op op db with Some (db', _) => rooms ops db' | None => True end
  end.

Lemma run_ops_refines ops db b db' :
  refines db b -> rooms ops db -> run_ops ops db = Some db' -> exists b', spec_ops ops b = Some b' /\ refines db' b'.
Proof.
  revert db b. induction ops as [|op ops IH]; intros db b R Rm E; cbn [run_ops spec_ops rooms] in *.
  - injection E as <-. by exists b.
  - destruct Rm as (Rm & Ok & Rms). pose proof (run_op_simulates op db b R Rm Ok) as S. unfold simulates in S.
    destruct (run_op op db) as [[db1 o]|]; [|done]. destruct (spec_op op b) as [[b1 o']|]; [|done]. destruct S as [_ R1].
    cbn in E |- *. by apply (IH db1 b1).
Qed.

(** The levels over [ms] change, those of [ms] stay. *)
Definition over (ms levels : list (gmap bytes bytes)) : Prop := exists xs, xs <> [] /\ levels = xs ++ ms.

Lemma put_over k v ms levels : over ms levels -> over ms (put k v levels).
Proof. intros ([|x xs] & N & ->); [done|]. by exists (<[k := v]> x :: xs). Qed.

Lemma b_set_over k v ops b ms : over ms (b_levels b) -> over ms (b_levels (b_set k v ops b).1).
Proof. intros H. unfold b_set. destruct (_ && _); [done|]. destruct v; [by apply put_over|done]. Qed.

Lemma Some_pair_fst {A B} (p : A * B) a b : Some p = Some (a, b) -> p.1 = a.
Proof. by intros [= ->]. Qed.

(** The operation with the result [None] would panic. *)
Lemma spec_op_over h op b b' o ms :
  Z.of_nat (length ms) = h -> over ms (b_levels b) -> above h op -> spec_op op b = Some (b', o) -> over ms (b_levels b').
Proof.
  intros Lh H A E. destruct op as [key value|key value ops|key|key ops| |h'|h'|]; cbn [spec_op above] in *; try done.
  - apply Some_pair_fst in E. rewrite <- E. destruct (is_nil value); [done|by apply b_set_over].
  - apply Some_pair_fst in E. rewrite <- E. destruct (is_nil value); [done|by apply b_set_over].
  - apply Some_pair_fst in E. rewrite <- E. by apply b_set_over.
  - apply Some_pair_fst in E. rewrite <- E. by apply b_set_over.
  - injection E as <- _. destruct H as (xs & N & ->). by exists (∅ :: xs).
  - unfold b_Release, b_stages in E. destruct (Z.eqb_spec h' (Z.of_nat (length (b_levels b)) - 1)) as [Eh|]; [|done]. cbn [negb] in E.
    destruct H as ([|x [|y xs]] & N & El); [done|..]; rewrite El in *.
    + cbn [app length] in Eh. lia.
    + cbn in E. injection E as <- _. by exists (x ∪ y :: xs).
  - unfold b_Cleanup, b_stages in E. destruct (Z.ltb_spec (Z.of_nat (length (b_levels b)) - 1) h') as [|Eh']; [by injection E as <- _|].
    destruct (Z.ltb_spec h' (Z.of_nat (length (b_levels b)) - 1)) as [|Eh]; [done|].
    destruct H as ([|x [|y xs]] & N & El); [done|..]; rewrite El in *.
    + cbn [app length] in *. lia.
    + cbn in E. injection E as <- _. by exists (y :: xs).
Qed.

Lemma spec_ops_over h ops b b' ms :
  Z.of_nat (length ms) = h -> over ms (b_levels b) -> Forall (above h) ops -> spec_ops ops b = Some b' -> over ms (b_levels b').
Proof.
  intros Lh. revert b. induction ops as [|op ops IH]; intros b H A E; cbn [spec_ops] in E.
  - by injection E as <-.
  - apply Forall_cons in A as [A1 A2]. destruct (spec_op op b) as [[b1 o]|] eqn:E1; [|done]. cbn in E.
    apply (IH b1); [by eapply spec_op_over|done|done].
Qed.

(** C14: Cleaning up a stage restores what every key held when the stage was
    opened, whatever was written, staged, released or cleaned up above it. *)
Theorem Cleanup_restores db b ops db' key :
  refines db b -> let h := (Staging db).2 in
  Forall (above h) ops -> rooms ops (Staging db).1 -> run_ops ops (Staging db).1 = Some db' ->
  Z.of_nat (length (stages db')) = h ->
  exists db'', mem_Cleanup h db' = Some db'' /\ mem_Get key db'' = mem_Get key db.
Proof.
  intros R h A Rm E Lh. destruct (Staging_refined db b R) as [Eh R1].
  destruct (run_ops_refines ops _ _ _ R1 Rm E) as (b' & Eb & R').
  assert (Z.of_nat (length (b_levels b)) = h) as Ll.
  { unfold h. rewrite Eh. unfold b_Staging, b_stages. cbn [snd b_levels length]. lia. }
  destruct (spec_ops_over h ops (b_Staging b).1 b' (b_levels b) Ll) as (xs & N & El); [by exists [∅]|done|done|].
  destruct R' as (l & segs & Rf). pose proof (refined_stages _ _ _ _ Rf) as Es. unfold b_stages in Es. rewrite El, length_app in Es.
  destruct xs as [|x [|y xs]]; [done| |cbn in Es; lia].
  pose proof (Cleanup_refined h db' b' (ex_intro _ l (ex_intro _ segs Rf))) as C. unfold b_Cleanup, b_stages in C. rewrite El in C.
  cbn [app length] in C. destruct (Z.ltb_spec (Z.of_nat (S (length (b_levels b))) - 1) h) as [|_]; [lia|].
  destruct (Z.ltb_spec h (Z.of_nat (S (length (b_levels b))) - 1)) as [|_]; [lia|].
  destruct (b_levels b) as [|m ms] eqn:Em; [destruct R as (l0 & segs0 & R0); rewrite (rf_levels _ _ _ _ R0) in Em;
    pose proof (staged_length _ _ (rf_staged _ _ _ _ R0)); destruct segs0; [cbn in *; lia|done]|].
  destruct (mem_Cleanup h db') as [db''|]; [|done]. exists db''. split; [done|].
  rewrite (Get_refined _ _ _ C), (Get_refined _ _ _ R). unfold b_Get, b_view. cbn [b_levels]. by rewrite Em.
Qed.

(** ** Search *)

Lemma rb_height_log t n : rb t false n -> (height t <= 2 * Nat.log2 (S (length (addrs t))))%nat.
Proof.
  intros B. pose proof (rb_height _ _ _ B) as H. pose proof (rb_size _ _ _ B) as Sz.
  apply Nat.log2_le_mono in Sz. rewrite Nat.log2_pow2 in Sz by lia. cbn iota in H. lia.
Qed.

(** C39: In every buffer reached from a new one, the tree is a search tree over
    as many nodes as [Len] counts, and a search takes at most twice the binary
    logarithm of that number plus one steps, and then finds the node of the key
    exactly when there is one. *)
Theorem traverse_logarithmic entryLimit totalLimit db b key fuel :
  entryLimit + memdbVlogHdrSize <= maxBlockSize -> reached entryLimit totalLimit db b ->
  (2 * Nat.log2 (S (Z.to_nat (mem_Len db))) < fuel)%nat ->
  let s := tree db in
  let l := inorder s in
  mem_Len db = Z.of_nat (length l) /\ StronglySorted blt (key_of s <$> l) /\
  ((exists x, walk fuel s key (rb_root s) nullAddr = (x, x, true) /\ x ∈ l /\ key_of s x = key) \/
   (exists y, walk fuel s key (rb_root s) nullAddr = (nullAddr, y, false) /\ forall a, a ∈ l -> key_of s a <> key)).
Proof.
  intros Fi R F s l. apply reached_refines in R as (l' & segs & R); [|done]. pose proof (rf_inv _ _ _ _ R) as I.
  assert (l = l') as El by by eapply refined_inorder. clearbody l. subst l'.
  unfold mem_Len in *. rewrite (iv_count _ _ _ _ I) in *. split; [done|].
  destruct (iv_tree _ _ _ _ I) as (t & n & Rp & B & A & S). split; [done|]. fold s in Rp, S.
  pose proof (rb_height_log _ _ B) as H. rewrite A in H. rewrite Nat2Z.id in F. rewrite (Rep_root _ _ Rp).
  destruct (walk_spec fuel s key [] t) as [(k & c & tl & x & tr & E & P & Ek)|(k & E & P & Hb & Ha)];
    [lia|done|by rewrite A|by intros a []%not_elem_of_nil|by intros a []%not_elem_of_nil|left|right].
  - exists x. split_and!; [exact E| |done]. rewrite <- A. cbn in P. rewrite <- P, addrs_plug. cbn.
    rewrite !elem_of_app, elem_of_cons. auto.
  - exists (parent k). split; [exact E|]. intros a Hm. rewrite <- A in Hm. cbn in P. rewrite <- P, addrs_plug in Hm. cbn in Hm.
    apply elem_of_app in Hm as [Hm%Hb|Hm%Ha]; apply blt_neq in Hm; congruence.
Qed.

(** C40: [deleteNode] takes its node out of a red-black search tree and leaves a
    red-black search tree over the other nodes, in the same order, at the same
    addresses and with the same keys, flags and values. *)
Theorem deleteNode_red_black s l1 z l2 :
  Tree s (l1 ++ z :: l2) ->
  Tree (delete_node z s) (l1 ++ l2) /\ inorder (delete_node z s) = l1 ++ l2 /\ same_data s (delete_node z s).
Proof.
  intros Tr. destruct (delete_node_tree _ _ _ _ Tr) as [Tr' D]. split_and!; [done|by apply inorder_spec, Tree_InOrder|done].
Qed.

(** ** Iterators and snapshots *)

(** The iterators over the values enumerate, without an error, the pairs of
    the stack of maps in their range, in increasing order of the keys or, for
    [IterReverse], in decreasing order. *)
Theorem mem_Iter_view db b start e :
  refines db b ->
  (exists L, enumerates (mem_Iter start e db) L /\ StronglySorted (kv_lt false) L /\
     forall p, p ∈ L <-> b_view b !! p.1 = Some p.2 /\ start <=b p.1 /\ match e with None => True | Some e => p.1 <b e end) /\
  (exists L, enumerates (mem_IterReverse e db) L /\ StronglySorted (kv_lt true) L /\
     forall p, p ∈ L <-> b_view b !! p.1 = Some p.2 /\ match e with None | Some [] => True | Some e => p.1 <b e end).
Proof. intros R. split; [exact (iterator_spec db b start e false R)|exact (iterator_spec db b [] e true R)]. Qed.

(** A snapshot of a buffer reads the map under every stage, whatever the
    open stages hold. *)
Theorem snap_Get_base db b key :
  refines db b ->
  snap_Get (getSnapshot db) key db = match b_base b !! key with Some v => Ok v | None => Err ErrNotExist end.
Proof. exact (snap_Get_spec db b key). Qed.

Section over_buffer.
Context {Sn SI Val : Type} `{!KvIterator SI} `{!Retriever Sn SI} `{!RetrieverLaws Sn SI}.

(** C15: A union store whose buffer is a transaction buffer, over a snapshot
    without empty values: [Get] is the
    topmost value of the stages, or else the value of the snapshot, an empty
    value being a deletion; its iterators enumerate in order exactly the pairs
    that [Get] returns. *)
Theorem UnionStore_over_memdb (us : unionStore buffer Sn Val) b k upperBound :
  refines (proj1_sig (memBuffer us)) b -> no_empty (ret_contents (us_snapshot us)) ->
  (forall key, us_Get us key =
     match (b_view b ∪ ret_contents (us_snapshot us)) !! key with
     | Some v => if is_nil v then Err ErrNotExist else Ok v
     | None => Err ErrNotExist
     end) /\
  exists n, forall fuel, (n < fuel)%nat ->
    (exists it R, us_Iter fuel us k upperBound = Ok it /\ @enumerates _ (union_iterator fuel) it R /\
       StronglySorted (kv_lt false) R /\
       forall p, p ∈ R <-> us_Get us p.1 = Ok p.2 /\ within k upperBound p.1) /\
    (exists it R, us_IterReverse fuel us k = Ok it /\ @enumerates _ (union_iterator fuel) it R /\
       StronglySorted (kv_lt true) R /\
       forall p, p ∈ R <-> us_Get us p.1 = Ok p.2 /\ below k p.1).
Proof.
  intros R Ne. split; [|exact (us_iterators us k upperBound Ne)]. intros key. unfold us_Get.
  rewrite (ret_Get_spec (memBuffer us)), (ret_Get_spec (us_snapshot us)). change (ret_contents (memBuffer us)) with (contents (proj1_sig (memBuffer us))).
  rewrite (contents_view _ _ R), lookup_union. destruct (b_view b !! key) as [v|], (ret_contents (us_snapshot us) !! key) as [w|]; done.
Qed.
End over_buffer.

(** ** Memory *)

(** An allocation of at most the largest block size succeeds, at an aligned
    offset when asked for, inside its block and beyond everything the block
    held; it moves no earlier piece.  A larger one panics. *)
Theorem alloc_disjoint a size align :
  arena_ok a -> few_blocks a -> 0 <= size ->
  if maxBlockSize <? size then alloc a size align = None
  else exists a' x b', alloc a size align = Some (a', x) /\ arena_ok a' /\ x <> nullAddr /\
    blocks a' !! Z.to_nat (addr_idx x) = Some b' /\ blk_length b' = addr_off x + size /\
    blk_length b' <= Z.of_nat (length (blk_buf b')) /\ (align = true -> addr_off x mod 8 = 0) /\
    (forall i b, blocks a !! i = Some b -> exists b2, blocks a' !! i = Some b2 /\ blk_buf b2 = blk_buf b /\
       blk_length b <= blk_length b2 /\ (i = Z.to_nat (addr_idx x) -> blk_length b <= addr_off x)).
Proof.
  intros Ok Fw Ps. destruct (Z.ltb_spec maxBlockSize size) as [L|L]; [unfold alloc; by destruct (Z.ltb_spec maxBlockSize size); [|lia]|].
  destruct (alloc_spec a size align Ok Fw ltac:(lia)) as (a' & x & E & Al & N).
  pose proof (allocated_ok _ _ _ _ _ Ok Ps Al) as Ok'.
  assert (x <> nullAddr) as Nx by by intros ->.
  destruct Al as [bs b Eb Le|n Le Bn]; eexists _, _, _; (split; [exact E|]); (split; [exact Ok'|]); (split; [exact Nx|]);
    cbn [blocks addr_idx addr_off]; rewrite Nat2Z.id, list_lookup_middle by done.
  - destruct Ok as [Ob _]. rewrite Eb in Ob. apply Forall_app in Ob as [_ [[K1 K2] _]%Forall_cons].
    pose proof (align_up_bounds align (blk_length b) ltac:(lia)) as B.
    split_and!; [done|done|done| |].
    + intros ->. unfold align_up. rewrite land_alignMask by (unfold maxBlockSize in *; lia). rewrite Z.mul_comm. apply Z_mod_mult.
    + intros i c Hc. rewrite Eb in Hc. apply lookup_snoc_Some in Hc as [[Lt Hc]|[-> <-]].
      * exists c. rewrite lookup_app_l by done. split_and!; [done|done|lia|lia].
      * eexists. rewrite list_lookup_middle by done. split_and!; [done|done|cbn; lia|cbn; lia].
  - split_and!; [done|cbn; lia|cbn; rewrite length_replicate; unfold initBlockSize in *; lia|done|].
    intros i c Hc. pose proof (lookup_lt_Some _ _ _ Hc) as Lt. exists c. rewrite lookup_app_l by done. split_and!; [done|done|lia|lia].
Qed.

(** A value appended to the log is read back from its address, and its
    header links it to its node and to the value before; every earlier record
    is read as before. *)
Theorem appendValue_getValue l recs node old value :
  Vlog l recs -> few_blocks l -> addr_ok node -> addr_ok old ->
  memdbVlogHdrSize + Z.of_nat (length value) <= maxBlockSize ->
  exists l' a, appendValue l node old value = Some (l', a) /\ a ∉ recs.*1 /\ getValue l' a = value /\
    load_hdr_at l' (addr_idx a) (addr_off a - memdbVlogHdrSize) = MkHdr node old (Z.of_nat (length value)) /\
    forall b r, (b, r) ∈ recs -> getValue l' b = getValue l b.
Proof.
  intros V Fw On Oo Lv. destruct (appendValue_Vlog l recs node old value V Fw On Oo Lv) as (l' & a & E & V').
  exists l', a. split; [done|]. assert ((a, MkRec node old value) ∈ recs ++ [(a, MkRec node old value)]) as Ha.
  { rewrite elem_of_app, list_elem_of_singleton. auto. }
  split_and!.
  - intros ([c r] & Ec & Hc)%list_elem_of_fmap. cbn in Ec. subst c. apply (Vlog_before _ _ _ _ _ _ V') in Hc. by apply alt_irrefl in Hc.
  - by rewrite (Vlog_getValue _ _ _ _ V' Ha).
  - by rewrite (Vlog_load _ _ _ _ V' Ha).
  - intros c r Hc. rewrite (Vlog_getValue _ _ _ _ V Hc). apply (Vlog_getValue _ _ _ _ V'). rewrite elem_of_app. auto.
Qed.

(** ** Runs *)

Lemma run_ops_reached e t ops db b db' b' :
  e + memdbVlogHdrSize <= maxBlockSize -> reached e t db b -> rooms ops db ->
  run_ops ops db = Some db' -> spec_ops ops b = Some b' -> reached e t db' b'.
Proof.
  intros Fi. revert db b. induction ops as [|op ops IH]; intros db b R Rm E1 E2; cbn [run_ops spec_ops rooms] in *.
  - injection E1 as <-. by injection E2 as <-.
  - destruct Rm as (Rm & Ok & Rms). pose proof (run_op_simulates op db b (reached_refines _ _ _ _ Fi R) Rm Ok) as S. unfold simulates in S.
    destruct (run_op op db) as [[db1 o]|] eqn:D1; [|done]. destruct (spec_op op b) as [[b1 o']|] eqn:D2; [|done].
    destruct S as [<- _]. cbn in E1, E2 |- *. apply (IH db1 b1); [|done..]. by eapply (reached_op e t op db b).
Qed.

(** ** Long keys *)

(** The length of a key is kept in 16 bits: a node holds the key up to the
    remainder of its length, which is nothing of a key of 65536 bytes. *)
Lemma allocNode_long_key key db db' x :
  allocNode key db = Some (db', x) ->
  n_key (node db' x) = take (Z.to_nat (Z.of_nat (length key) mod 65536)) key.
Proof.
  unfold allocNode. destruct (alloc _ _ _) as [[a y]|]; [|done]. intros [= <- ->]. unfold getNode. cbn.
  by rewrite lookup_insert_eq.
Qed.
