(* ===== verification/MemWitness.v ===== *)
(** * Concrete operations of the transaction buffer and the union store

    The witnesses of the theorems on both, and on handles. *)

From stdpp Require Import base gmap list sorting strings.
From Stdlib Require Import Strings.Byte ZArith Lia Sorted.
From S2P Require Import Prelude External Marshal Concrete KvUnion KvKey MemArena MemVlog MemTree MemTreeRep MemTreeInsert Memdb MemWalk MemInv MemSpec MemRefine MemCleanup MemdbSpec.

Open Scope Z_scope.

(** * Concrete stores for the union store, and a codec of handle columns

    A finite map whose iterators are lists of pairs keeps the laws of
    [Retriever]; the witnesses read one map over another, and cut handles whose columns
    start with their length. *)

#[export] Instance list_iterator : KvIterator (list (bytes * bytes)) := {|
  iter_Valid l := match l with [] => false | _ => true end;
  iter_Key l := match l with [] => [] | p :: _ => p.1 end;
  iter_Value l := match l with [] => [] | p :: _ => p.2 end;
  iter_Next l := Ok (tail l);
|}.

Lemma list_enumerates (l : list (bytes * bytes)) : enumerates l l.
Proof.
  induction l as [|[k v] l IH]; [by apply enum_end|].
  exact (enum_step ((k, v) :: l) l l eq_refl eq_refl IH).
Qed.

#[export] Instance within_dec k ub key : Decision (within k ub key).
Proof. unfold within. apply _. Defined.
#[export] Instance below_dec k key : Decision (below k key).
Proof. unfold below. apply _. Defined.

#[export] Instance map_retriever : Retriever (gmap bytes bytes) (list (bytes * bytes)) := {|
  ret_Get m k := match m !! k with Some v => Ok v | None => Err ErrNotExist end;
  ret_Iter m k ub := Ok (filter (fun p => within k ub p.1) (sorted_pairs m));
  ret_IterReverse m k := Ok (filter (fun p => below k p.1) (rev (sorted_pairs m)));
|}.

Lemma elem_of_sorted_pairs m p : p ∈ sorted_pairs m <-> m !! p.1 = Some p.2.
Proof.
  unfold sorted_pairs. rewrite merge_sort_Permutation. destruct p. apply elem_of_map_to_list.
Qed.

#[export] Instance map_retriever_laws : RetrieverLaws (gmap bytes bytes) (list (bytes * bytes)).
Proof.
  refine {| ret_contents m := m |}.
  - done.
  - intros m k ub. eexists _, _. split; [reflexivity|]. split; [apply list_enumerates|]. split.
    + apply StronglySorted_filter. apply sorted_pairs_strict.
    + intros p. rewrite list_elem_of_filter, elem_of_sorted_pairs. tauto.
  - intros m k. eexists _, _. split; [reflexivity|]. split; [apply list_enumerates|]. split.
    + apply StronglySorted_filter. apply (StronglySorted_rev External.pair_lt), sorted_pairs_strict.
    + intros p. rewrite list_elem_of_filter, elem_of_rev, elem_of_sorted_pairs. tauto.
Defined.

#[export] Instance map_len : MemBufferLen (gmap bytes bytes) := {| buf_Len m := Z.of_nat (size m) |}.
#[export] Instance map_batch : BatchGetter (gmap bytes bytes) := {|
  snap_BatchGet m keys := Ok (filter (fun p => p.1 ∈ keys) m);
|}.

#[export] Instance map_batch_laws : BatchLaws (B := gmap bytes bytes) (Sn := gmap bytes bytes).
Proof.
  split; [done|]. intros m keys. eexists. split; [reflexivity|]. intros k.
  case_decide as D.
  - change (ret_contents m !! k) with (m !! k). destruct (m !! k) as [v|] eqn:E.
    + by apply map_lookup_filter_Some.
    + apply map_lookup_filter_None. by left.
  - apply map_lookup_filter_None. by right.
Qed.

Definition ka : bytes := [x61].
Definition kb : bytes := [x62].
Definition kc : bytes := [x63].

Definition ex_buffer : gmap bytes bytes := <[ka := [x31]]> {[ kb := [] ]}.
Definition ex_snapshot : gmap bytes bytes := <[kb := [x32]]> {[ kc := [x33] ]}.

Definition ex_us : unionStore (gmap bytes bytes) (gmap bytes bytes) unit :=
  NewUnionStore ex_buffer ex_snapshot.

Lemma UnionIter_union_witness :
  let d := [(ka, [x31]); (kb, [])] in
  let s := [(kb, [x32]); (kc, [x33])] in
  exists it R, NewUnionIter 3 d s false = Ok it /\ @enumerates _ (union_iterator 3) it R /\
    StronglySorted (kv_lt false) R /\ forall p, p ∈ R <-> union_pair d s p.
Proof.
  intros d s. apply (UnionIter_union false 3 d s d s);
    [apply list_enumerates|apply list_enumerates|repeat constructor|repeat constructor|simpl; lia].
Defined.

Lemma ex_no_empty : no_empty ex_snapshot.
Proof.
  intros k. unfold ex_snapshot. intros [[_ ?]|[_ [_ ?]%lookup_singleton_Some]]%lookup_insert_Some; done.
Qed.

Lemma UnionStore_Iter_Get_witness :
  no_empty ex_snapshot /\ us_Get ex_us kb = Err ErrNotExist /\ us_Get ex_us kc = Ok [x33] /\
  exists n, forall fuel, (n < fuel)%nat ->
    (exists it R, us_Iter fuel ex_us ka kc = Ok it /\ @enumerates _ (union_iterator fuel) it R /\
       StronglySorted (kv_lt false) R /\
       forall p, p ∈ R <-> us_Get ex_us p.1 = Ok p.2 /\ within ka kc p.1) /\
    (exists it R, us_IterReverse fuel ex_us ka = Ok it /\ @enumerates _ (union_iterator fuel) it R /\
       StronglySorted (kv_lt true) R /\
       forall p, p ∈ R <-> us_Get ex_us p.1 = Ok p.2 /\ below ka p.1).
Proof.
  split; [apply ex_no_empty|]. split; [by vm_compute|]. split; [by vm_compute|].
  exact (UnionStore_Iter_Get ex_us ka kc ex_no_empty).
Defined.

Lemma BatchGet_value_witness :
  let b : BufferBatchGetter (gmap bytes bytes) (gmap bytes bytes) := MkBatchGetter ex_buffer None ex_snapshot in
  exists m, bg_BatchGet b [ka; kb; kc] = Ok m /\ forall k, k ∈ [ka; kb; kc] -> m !! k = bg_value b k.
Proof.
  intros b. apply (BatchGet_value b [ka; kb; kc]). apply insert_non_empty.
Defined.

(** ** Keys and handles *)

(** A column is a byte with the length of its content, and the content. *)
#[export] Instance length_codec : HandleCodec := {|
  CutOne b :=
    match b with
    | [] => Err (ErrExternal "insufficient bytes")
    | n :: _ =>
        let l := S (N.to_nat (Byte.to_N n)) in
        if decide (l <= length b)%nat then Ok (take l b, drop l b)
        else Err (ErrExternal "insufficient bytes")
    end;
  EncodeInt b i := b ++ be_bytes 8 (u64_wrap i);
|}.

#[export] Instance length_codec_laws : HandleCodecLaws.
Proof.
  constructor. intros [|n b] col remain; cbn -[take drop]; [done|].
  case_decide; [|done]. intros [= <- <-]. split; [|done].
  exact (eq_sym (take_drop (S (N.to_nat (Byte.to_N n))) (n :: b))).
Defined.

Lemma PrefixNext_prefix_witness :
  (HasPrefix [x61; xff; x05] [x61; xff] = true <->
   (2 <= 3)%nat /\ [x61; xff] <=b [x61; xff; x05] /\ [x61; xff; x05] <b PrefixNext [x61; xff]) /\
  PrefixNext [xff; xff] = [xff; xff; x00].
Proof.
  split.
  - apply (PrefixNext_prefix [x61; xff]). by left.
  - apply (PrefixNext_prefix [xff; xff]). by repeat constructor.
Defined.

Lemma IsPoint_range_witness :
  let r := MkKeyRange [x61; xff] [x62; x00] in
  IsPoint r = true /\ HasPrefix [x61; xff; x05] [x61; xff] = true.
Proof.
  split; [by vm_compute|].
  apply (proj2 (IsPoint_range (MkKeyRange [x61; xff] [x62; x00])) eq_refl [x61; xff; x05]);
    [by vm_compute|by vm_compute|simpl; lia].
Defined.

Definition ex_encoded : bytes := [x01; x61; x02; x62; x63; x00].

Lemma NewCommonHandle_columns_witness :
  let h := CommonHandle (ex_encoded ++ [x00; x00; x00]) [2; 5] in
  NewCommonHandle ex_encoded = Ok h /\
  exists cols pad,
    ex_encoded = concat cols ++ pad /\ padding pad /\ Forall (fun c => c <> []) cols /\
    Encoded h = ex_encoded ++ replicate (9 - length ex_encoded) x00 /\
    NumDefCauss h = Some (length cols) /\
    forall i col, cols !! i = Some col -> EncodedDefCaus h i = Some col.
Proof. split; [by vm_compute|]. apply NewCommonHandle_columns; [simpl; lia|by vm_compute]. Defined.

(** * The transaction buffer *)

Module MemEx.
Definition db0 : memdb := newMemDB 6291456 104857600.
Definition b0 : membuf := b_empty 6291456 104857600.

(** Three keys, a stage that overwrites one and deletes another, and in it a
    stage that is cleaned up. *)
Definition before_stage : list memop := [OpSet ka [x31]; OpSet kb [x32]; OpSet kc [x33]].
Definition in_stage : list memop :=
  [OpSet kb [x34; x35]; OpStaging; OpSet kc [x36]; OpCleanup 2; OpDelete ka; OpUpdateFlags [x64] [SetKeyLocked]].

Definition db1 : memdb := default db0 (run_ops before_stage db0).
Definition b1 : membuf := default b0 (spec_ops before_stage b0).
Definition db2 : memdb := default db1 (run_ops in_stage (Staging db1).1).
Definition b2 : membuf := default b1 (spec_ops in_stage (b_Staging b1).1).

Lemma ex_fits : 6291456 + memdbVlogHdrSize <= maxBlockSize.
Proof. by vm_compute. Qed.

Lemma ex_rooms1 : rooms before_stage db0.
Proof. vm_compute. tauto. Qed.
Lemma ex_rooms2 : rooms in_stage (Staging db1).1.
Proof. vm_compute. tauto. Qed.

Lemma reached1 : reached 6291456 104857600 db1 b1.
Proof.
  apply (run_ops_reached _ _ before_stage db0 b0 db1 b1 ex_fits (reached_new _ _) ex_rooms1); by vm_compute.
Qed.

Lemma refines1 : refines db1 b1.
Proof. exact (reached_refines _ _ _ _ ex_fits reached1). Qed.

Lemma refines2 : refines db2 b2.
Proof.
  destruct (run_ops_refines in_stage (Staging db1).1 (b_Staging b1).1 db2) as (b & E & R);
    [apply Staging_refined, refines1|apply ex_rooms2|by vm_compute|].
  unfold b2. by rewrite E.
Qed.
End MemEx.

Lemma memdb_refines_witness :
  match run_op (OpCleanup 1) MemEx.db2, spec_op (OpCleanup 1) MemEx.b2 with
  | Some (db', o), Some (b', o') => o = o' /\ refines db' b'
  | None, None => True
  | _, _ => False
  end /\ b_view MemEx.b2 !! kb = Some [x34; x35].
Proof.
  split; [|by vm_compute].
  apply (memdb_refines (OpCleanup 1) MemEx.db2 MemEx.b2 MemEx.refines2); [split; by vm_compute|exact I].
Defined.

Lemma memdb_reads_witness :
  mem_Get ka MemEx.db2 = Some (Ok []) /\ mem_Get ka MemEx.db2 = Some (b_Get ka MemEx.b2) /\
  Size MemEx.db2 = b_Size MemEx.b2.
Proof.
  split; [by vm_compute|]. destruct (memdb_reads MemEx.db2 MemEx.b2 ka MemEx.refines2) as (G & _ & _ & S & _).
  split; [exact G|exact S].
Defined.

Lemma Cleanup_restores_witness :
  mem_Get kb MemEx.db2 = Some (Ok [x34; x35]) /\
  exists db'', mem_Cleanup (Staging MemEx.db1).2 MemEx.db2 = Some db'' /\ mem_Get kb db'' = mem_Get kb MemEx.db1.
Proof.
  split; [by vm_compute|].
  apply (Cleanup_restores MemEx.db1 MemEx.b1 MemEx.in_stage MemEx.db2 kb MemEx.refines1).
  - repeat constructor.
  - exact MemEx.ex_rooms2.
  - by vm_compute.
  - by vm_compute.
Defined.

Lemma traverse_logarithmic_witness :
  let s := tree MemEx.db1 in
  mem_Len MemEx.db1 = Z.of_nat (length (inorder s)) /\ StronglySorted blt (key_of s <$> inorder s) /\
  ((exists x, walk 5 s kb (rb_root s) nullAddr = (x, x, true) /\ x ∈ inorder s /\ key_of s x = kb) \/
   (exists y, walk 5 s kb (rb_root s) nullAddr = (nullAddr, y, false) /\ forall a, a ∈ inorder s -> key_of s a <> kb)).
Proof.
  apply (traverse_logarithmic 6291456 104857600 MemEx.db1 MemEx.b1 kb 5 MemEx.ex_fits MemEx.reached1).
  apply Nat.ltb_lt. by vm_compute.
Defined.

Lemma ex_tree : Tree (tree MemEx.db1) [MkAddr 0 0; MkAddr 0 40; MkAddr 0 80].
Proof.
  destruct MemEx.refines1 as (l & segs & R). pose proof (iv_tree _ _ _ _ (rf_inv _ _ _ _ R)) as Tr.
  rewrite <- (refined_inorder _ _ _ _ R) in Tr. exact Tr.
Qed.

Lemma deleteNode_red_black_witness :
  let s := delete_node (MkAddr 0 40) (tree MemEx.db1) in
  Tree s [MkAddr 0 0; MkAddr 0 80] /\ inorder s = [MkAddr 0 0; MkAddr 0 80] /\ same_data (tree MemEx.db1) s.
Proof.
  exact (deleteNode_red_black (tree MemEx.db1) [MkAddr 0 0] (MkAddr 0 40) [MkAddr 0 80] ex_tree).
Defined.

Lemma mem_Iter_view_witness :
  (exists L, enumerates (mem_Iter kb None MemEx.db2) L /\ StronglySorted (kv_lt false) L /\
     forall p, p ∈ L <-> b_view MemEx.b2 !! p.1 = Some p.2 /\ kb <=b p.1 /\ True) /\
  it_Value (mem_Iter kb None MemEx.db2) = [x34; x35].
Proof.
  split; [|by vm_compute]. exact (proj1 (mem_Iter_view MemEx.db2 MemEx.b2 kb None MemEx.refines2)).
Defined.

Lemma snap_Get_base_witness :
  snap_Get (getSnapshot MemEx.db2) kb MemEx.db2 = Ok [x32] /\
  snap_Get (getSnapshot MemEx.db2) kb MemEx.db2 = match b_base MemEx.b2 !! kb with Some v => Ok v | None => Err ErrNotExist end.
Proof. split; [by vm_compute|]. exact (snap_Get_base MemEx.db2 MemEx.b2 kb MemEx.refines2). Defined.

Definition mem_us : unionStore buffer (gmap bytes bytes) unit :=
  MkUnionStore (exist _ MemEx.db2 (ex_intro _ MemEx.b2 MemEx.refines2)) ex_snapshot ∅ ∅.

Lemma UnionStore_over_memdb_witness :
  no_empty ex_snapshot /\
  us_Get mem_us ka = match (b_view MemEx.b2 ∪ ex_snapshot) !! ka with
                     | Some v => if is_nil v then Err ErrNotExist else Ok v
                     | None => Err ErrNotExist
                     end.
Proof.
  split; [exact ex_no_empty|].
  exact (proj1 (UnionStore_over_memdb mem_us MemEx.b2 ka kc MemEx.refines2 ex_no_empty) ka).
Defined.

Lemma alloc_disjoint_witness :
  let a := allocator MemEx.db1 in
  exists a' x b', alloc a 36 true = Some (a', x) /\ arena_ok a' /\ x <> nullAddr /\
    blocks a' !! Z.to_nat (addr_idx x) = Some b' /\ blk_length b' = addr_off x + 36 /\
    blk_length b' <= Z.of_nat (length (blk_buf b')) /\ (true = true -> addr_off x mod 8 = 0) /\
    (forall i b, blocks a !! i = Some b -> exists b2, blocks a' !! i = Some b2 /\ blk_buf b2 = blk_buf b /\
       blk_length b <= blk_length b2 /\ (i = Z.to_nat (addr_idx x) -> blk_length b <= addr_off x)).
Proof.
  apply (alloc_disjoint (allocator MemEx.db1) 36 true).
  - destruct MemEx.refines1 as (l & segs & R). apply (iv_arena _ _ _ _ (rf_inv _ _ _ _ R)).
  - by vm_compute.
  - lia.
Defined.

Lemma appendValue_getValue_witness :
  exists l' a, appendValue arena_reset (MkAddr 0 0) nullAddr [x31; x32] = Some (l', a) /\ a ∉ ([] : list logrec).*1 /\
    getValue l' a = [x31; x32] /\
    load_hdr_at l' (addr_idx a) (addr_off a - memdbVlogHdrSize) = MkHdr (MkAddr 0 0) nullAddr 2 /\
    forall b r, (b, r) ∈ ([] : list logrec) -> getValue l' b = getValue arena_reset b.
Proof.
  apply (appendValue_getValue arena_reset [] (MkAddr 0 0) nullAddr [x31; x32]).
  - exact Vlog_nil.
  - by vm_compute.
  - split; split; by vm_compute.
  - split; split; by vm_compute.
  - by vm_compute.
Defined.
