(* ===== verification/Interlock.v ===== *)
(** * The executors of pushed-down queries (mockeinsteindb/interlocking_directorate.go,
    topn.go, aggregate.go)

    A query that runs at the store is a chain of executors: a scan of a table
    or of an index at the bottom, and above it selections, aggregations, a top-N
    or a limit.  [Next] of an executor gives its next row, or [nil] at the end.

    The values of SQL, their codecs, expressions and aggregate functions are
    packages that are not in the repository: they are the classes below.  The
    statistics of an execution (times and counts of calls) and the warnings of
    the statement context are left out. *)

From stdpp Require Import base gmap list option strings.
From Stdlib Require Import Strings.Byte ZArith Lia.
From S2P Require Import Prelude External GoMonad Mvcc KvKey GoHeap.

Local Open Scope Z_scope.

(** ** Packages that are not in the repository *)

(** A row is a list of encoded columns, [None] for a [nil] one; a row can be
    [nil] itself, which is not the row without columns. *)
Abbreviation row := (list (option bytes)).

(** types, codec and statement context. *)
Class Datums : Type := {
  Causet : Type;
  ZeroCauset : Causet;
  FieldType : Type;
  Location : Type;
  StmtCtx : Type;
  TimeZone : StmtCtx -> Location;
  IsNull : Causet -> bool;
  NewIntCauset : Z -> Causet;
  NewUintCauset : Z -> Causet;
  CompareCauset : StmtCtx -> Causet -> Causet -> res Z;
  ToBool : StmtCtx -> Causet -> Z * option goerror;
  EncodeValue : option StmtCtx -> Causet -> res bytes;
  DecodeDeferredCausetValue : option bytes -> FieldType -> Location -> Causet * option goerror;
}.

(** blockcodec, rowcodec and the flags of a column. *)
Class RowCodec : Type := {
  BytesDecoder : Type;
  IsNewFormat : bytes -> bool;
  DecodeToBytes : BytesDecoder -> gmap Z nat -> Handle -> bytes -> res (option row);
  CutRowNew : bytes -> gmap Z nat -> res (option row);
  DecodeRowKey : bytes -> res Handle;
  TruncateToRowKeyLen : bytes -> bytes;
  HandleStatus : Type;
  DefCausInfo : Type;
  DecodeIndexKV : bytes -> bytes -> nat -> HandleStatus -> list DefCausInfo -> res (option row);
  HasUnsignedFlag : Z -> bool;
  HasNotNullFlag : Z -> bool;
  NilFlag : byte;
  ExtraHandleID : Z;
}.

(** expression. *)
Class Expressions `{Datums} : Type := {
  Expression : Type;
  Eval : Expression -> list Causet -> res Causet;
  HandleOverflowOnSelection : StmtCtx -> Z -> option goerror -> res Z;
}.

(** expression/aggregation; [UFIDelate] changes its context. *)
Class Aggregations `{Datums} : Type := {
  Aggregation : Type;
  AggEvaluateContext : Type;
  CreateContext : Aggregation -> StmtCtx -> AggEvaluateContext;
  UFIDelate : Aggregation -> AggEvaluateContext -> StmtCtx -> list Causet ->
    option goerror * AggEvaluateContext;
  GetPartialResult : Aggregation -> AggEvaluateContext -> list Causet;
}.

(** The [MVCCStore] interface as far as the scans use it. *)
Class MVCCStore : Type := {
  Store : Type;
  st_Get : Store -> bytes -> Z -> Z -> list Z -> res (option bytes);
  st_Scan : Store -> bytes -> bytes -> Z -> Z -> Z -> list Z -> list Pair;
  st_ReverseScan : Store -> bytes -> bytes -> Z -> Z -> Z -> list Z -> option (list Pair);
}.

(** The fields of [fidelpb.DeferredCausetInfo] that the code reads; [None] is a
    [nil] default value. *)
Record DeferredCausetInfo : Type := MkColumn {
  col_DeferredCausetId : Z;
  col_PkHandle : bool;
  col_Flag : Z;
  col_DefaultVal : option bytes;
  col_Tp : Z;
  col_DeferredCausetLen : Z;
  col_Decimal : Z;
  col_Elems : list string;
  col_DefCauslation : Z;
}.

Section interlock.
Context `{Datums} `{HC : HandleCodec} `{RowCodec} `{!Expressions} `{!Aggregations} `{Sorter} `{MVCCStore}.

(** ** Rows of a table (getRowData) *)

Definition hasDefCausVal (data : row) (colIDs : gmap Z nat) (id : Z) : option bool :=
  match colIDs !! id with
  | None => Some false
  | Some offset => c ← data !! offset; Some (bool_decide (c <> None))
  end.

(** [colIDs[id]] of a missing column is 0. *)
Definition col_offset (colIDs : gmap Z nat) (id : Z) : nat := default 0%nat (colIDs !! id).

Fixpoint fill_columns {S} (columns : list DeferredCausetInfo) (colIDs : gmap Z nat) (handle : Z)
    (values : row) : M S row :=
  match columns with
  | [] => ret values
  | col :: columns =>
      let id := col_DeferredCausetId col in
      let offset := Z.of_nat (col_offset colIDs id) in
      if col_PkHandle col || (id =? ExtraHandleID) then
        let handleCauset := if HasUnsignedFlag (u64_wrap (col_Flag col)) then NewUintCauset (u64_wrap handle)
                            else NewIntCauset handle in
        handleData ← lift_res (EncodeValue None handleCauset);
        values ← lift_opt (put_ values offset (Some handleData));
        fill_columns columns colIDs handle values
      else
        has ← lift_opt (hasDefCausVal values colIDs id);
        if has : bool then fill_columns columns colIDs handle values
        else if decide (0 < length (default [] (col_DefaultVal col)))%nat then
          values ← lift_opt (put_ values offset (col_DefaultVal col));
          fill_columns columns colIDs handle values
        else if HasNotNullFlag (u64_wrap (col_Flag col)) then fail (ErrOther "Miss column"%string)
        else
          values ← lift_opt (put_ values offset (Some [NilFlag]));
          fill_columns columns colIDs handle values
  end.

Definition getRowData {S} (columns : list DeferredCausetInfo) (colIDs : gmap Z nat) (handle : Z)
    (value : bytes) (rd : BytesDecoder) : M S (option row) :=
  if IsNewFormat value
  then lift_res (DecodeToBytes rd colIDs (IntHandle handle) value)
  else
    values ← lift_res (CutRowNew value colIDs);
    let values := default (replicate (size colIDs) None) values in
    values ← fill_columns columns colIDs handle values;
    ret (Some values).

(** ** Scans (blockScanExec, indexScanExec)

    Both scans walk a list of key ranges in the same way; they differ in the
    decoding of a pair, in which ranges are read as points, and in the key
    from which a descending scan goes on.  [scanExec] holds the fields that
    both have. *)

Record scanExec : Type := MkScan {
  sc_Desc : bool;
  sc_kvRanges : list KeyRange;
  sc_startTS : Z;
  sc_isolationLevel : Z;
  sc_resolvedLocks : list Z;
  sc_cursor : nat;
  sc_seekKey : option bytes;
  sc_start : nat;
  sc_counts : option (list Z);
}.

Definition set_cursor (c : nat) (s : scanExec) : scanExec :=
  MkScan (sc_Desc s) (sc_kvRanges s) (sc_startTS s) (sc_isolationLevel s) (sc_resolvedLocks s)
    c (sc_seekKey s) (sc_start s) (sc_counts s).
Definition set_seekKey (k : option bytes) (s : scanExec) : scanExec :=
  MkScan (sc_Desc s) (sc_kvRanges s) (sc_startTS s) (sc_isolationLevel s) (sc_resolvedLocks s)
    (sc_cursor s) k (sc_start s) (sc_counts s).
Definition set_start (n : nat) (s : scanExec) : scanExec :=
  MkScan (sc_Desc s) (sc_kvRanges s) (sc_startTS s) (sc_isolationLevel s) (sc_resolvedLocks s)
    (sc_cursor s) (sc_seekKey s) n (sc_counts s).
Definition set_counts (c : option (list Z)) (s : scanExec) : scanExec :=
  MkScan (sc_Desc s) (sc_kvRanges s) (sc_startTS s) (sc_isolationLevel s) (sc_resolvedLocks s)
    (sc_cursor s) (sc_seekKey s) (sc_start s) c.

(** [if e.counts != nil { e.counts[i]++ }]. *)
Definition count_row (i : nat) : M scanExec unit :=
  s ← get;
  match sc_counts s with
  | None => ret tt
  | Some c => x ← lift_opt (c !! i); modify (set_counts (Some (<[i := x + 1]> c)))
  end.

Section scan.
Context (st : Store) (isPoint : KeyRange -> bool) (trunc : bytes -> bytes)
  (decode : bytes -> bytes -> M scanExec (option row)).

Definition getRowFromPoint (ran : KeyRange) : M scanExec (option row) :=
  s ← get;
  val ← lift_res (st_Get st (kr_StartKey ran) (sc_startTS s) (sc_isolationLevel s) (sc_resolvedLocks s));
  match val with
  | None | Some [] => ret None
  | Some val => decode (kr_StartKey ran) val
  end.

Definition getRowFromRange (ran : KeyRange) : M scanExec (option row) :=
  s ← get;
  let seekKey := default (if sc_Desc s then kr_EndKey ran else kr_StartKey ran) (sc_seekKey s) in
  modify (set_seekKey (Some seekKey));;
  pairs ← (if sc_Desc s
    then lift_opt (st_ReverseScan st (kr_StartKey ran) seekKey 1 (sc_startTS s) (sc_isolationLevel s)
                     (sc_resolvedLocks s))
    else ret (st_Scan st seekKey (kr_EndKey ran) 1 (sc_startTS s) (sc_isolationLevel s)
                (sc_resolvedLocks s)));
  match pairs with
  | [] => ret None
  | p :: _ =>
      match pair_Err p with
      | Some e => fail e
      | None =>
          if sc_Desc s then
            if bltb (pair_Key p) (kr_StartKey ran) then ret None else
            modify (set_seekKey (Some (trunc (pair_Key p))));;
            decode (pair_Key p) (default [] (pair_Value p))
          else
            if bleb (kr_EndKey ran) (pair_Key p) then ret None else
            modify (set_seekKey (Some (PrefixNext (pair_Key p))));;
            decode (pair_Key p) (default [] (pair_Value p))
      end
  end.

(** One turn passes a range or returns: the ranges left and one more turn
    are enough. *)
Fixpoint scan_loop (turns : nat) : M scanExec (option row) :=
  match turns with
  | O => fun s => (NoFuel, s)
  | S turns =>
      s ← get;
      match sc_kvRanges s !! sc_cursor s with
      | None => ret None
      | Some ran =>
          if isPoint ran then
            value ← getRowFromPoint ran;
            modify (fun s => set_cursor (S (sc_cursor s)) s);;
            match value with
            | None => scan_loop turns
            | Some _ => s ← get; count_row (sc_cursor s - 1);; ret value
            end
          else
            value ← getRowFromRange ran;
            match value with
            | None => modify (fun s => set_cursor (S (sc_cursor s)) (set_seekKey None s));; scan_loop turns
            | Some _ => s ← get; count_row (sc_cursor s);; ret value
            end
      end
  end.

Definition scan_Next : M scanExec (option row) :=
  s ← get; scan_loop (S (length (sc_kvRanges s) - sc_cursor s)).
End scan.

(** [None] is the panic of an index or a slice out of range. *)
Definition scan_ResetCounts (s : scanExec) : option scanExec :=
  match sc_counts s with
  | None => Some s
  | Some c =>
      if decide (sc_cursor s < length c)%nat
      then Some (set_counts (Some (<[sc_cursor s := 0]> c)) (set_start (sc_cursor s) s))
      else None
  end.

Definition slice {A} (l : list A) (lo hi : nat) : option (list A) :=
  if decide (lo <= hi <= length l)%nat then Some (take (hi - lo) (drop lo l)) else None.

Definition scan_Counts (s : scanExec) : option (list Z) :=
  match sc_counts s with
  | None => Some []
  | Some c => slice c (sc_start s) (match sc_seekKey s with None => sc_cursor s | Some _ => S (sc_cursor s) end)
  end.

Definition scan_Cursor (isPoint : KeyRange -> bool) (s : scanExec) : option (bytes * bool) :=
  match sc_seekKey s with
  | Some (b :: k) => Some (b :: k, sc_Desc s)
  | _ =>
      match sc_kvRanges s !! sc_cursor s with
      | Some ran =>
          if isPoint ran then Some (kr_StartKey ran, sc_Desc s)
          else if sc_Desc s then Some (kr_EndKey ran, sc_Desc s)
          else Some (kr_StartKey ran, sc_Desc s)
      | None =>
          ran ← last (sc_kvRanges s);
          Some (if sc_Desc s then kr_StartKey ran else kr_EndKey ran, sc_Desc s)
      end
  end.

Record blockScanExec : Type := MkBlockScan {
  bs_DeferredCausets : list DeferredCausetInfo;
  bs_colIDs : gmap Z nat;
  bs_rd : BytesDecoder;
  bs_scan : scanExec;
}.

Definition block_decode {S} (e : blockScanExec) (key value : bytes) : M S (option row) :=
  handle ← lift_res (DecodeRowKey key);
  i ← lift_opt (IntValue handle);
  getRowData (bs_DeferredCausets e) (bs_colIDs e) i value (bs_rd e).

Definition blockScan_Next (st : Store) : M blockScanExec (option row) :=
  e ← get;
  zoom bs_scan (fun s e => MkBlockScan (bs_DeferredCausets e) (bs_colIDs e) (bs_rd e) s)
    (scan_Next st IsPoint TruncateToRowKeyLen (block_decode e)).

Record indexScanExec : Type := MkIndexScan {
  is_Unique : bool;
  is_defcausLen : nat;
  is_hdStatus : HandleStatus;
  is_colInfos : list DefCausInfo;
  is_scan : scanExec;
}.

Definition index_isPoint (e : indexScanExec) (ran : KeyRange) : bool := IsPoint ran && is_Unique e.

Definition index_decode {S} (e : indexScanExec) (key value : bytes) : M S (option row) :=
  lift_res (DecodeIndexKV key value (is_defcausLen e) (is_hdStatus e) (is_colInfos e)).

Definition indexScan_Next (st : Store) : M indexScanExec (option row) :=
  e ← get;
  zoom is_scan (fun s e => MkIndexScan (is_Unique e) (is_defcausLen e) (is_hdStatus e) (is_colInfos e) s)
    (scan_Next st (index_isPoint e) id (index_decode e)).
End interlock.
