(* ===== verification/InterlockExec.v ===== *)
(** * Selections, aggregations, top-N and limits (mockeinsteindb/interlocking_directorate.go,
    topn.go, aggregate.go)

    Each executor asks its source for rows.  The source is a parameter of the
    definitions until [executor] ties the knot: an executor of any kind, with
    another one below it. *)

From stdpp Require Import base gmap list option strings.
From Stdlib Require Import Strings.Byte ZArith Lia.
From S2P Require Import Prelude External Mvcc KvKey GoHeap GoMonad Interlock.

Local Open Scope Z_scope.

Section exec.
Context `{Datums} `{HC : HandleCodec} `{RowCodec} `{!Expressions} `{!Aggregations} `{Sorter} `{MVCCStore}.

(** ** The evaluation context (interlocking_handler_dag.go)

    One object per request, which all its executors share; nothing writes it
    once the executors are built, so they take it as an argument. *)
Record evalContext : Type := MkEvalCtx {
  ec_colIDs : gmap Z nat;
  ec_columnInfos : list DeferredCausetInfo;
  ec_fieldTps : list FieldType;
  ec_sc : StmtCtx;
}.

Context (ctx : evalContext).

(** Decodes the columns at some offsets into the buffer of the executor, the
    state. *)
Fixpoint decodeRelatedDeferredCausetVals (offsets : list Z) (value : row) : M (list Causet) unit :=
  match offsets with
  | [] => ret tt
  | offset :: offsets =>
      v ← lift_opt (at_ value offset);
      ft ← lift_opt (at_ (ec_fieldTps ctx) offset);
      let '(d, err) := DecodeDeferredCausetValue v ft (TimeZone (ec_sc ctx)) in
      event ← get;
      event ← lift_opt (put_ event offset d);
      modify (fun _ => event);;
      match err with
      | Some e => fail e
      | None => decodeRelatedDeferredCausetVals offsets value
      end
  end.

(** ** Selection *)

Fixpoint evalBool (exprs : list Expression) (event : list Causet) (sc : StmtCtx) : res bool :=
  match exprs with
  | [] => Ok true
  | expr :: exprs =>
      data ← Eval expr event;
      if IsNull data then Ok false else
      let '(isBool, err) := ToBool sc data in
      isBool ← HandleOverflowOnSelection sc isBool err;
      if isBool =? 0 then Ok false else evalBool exprs event sc
  end.

(** [src] is [nil] until [SetSrcExec]. *)
Record selectionExec (E : Type) : Type := MkSelection {
  sel_conditions : list Expression;
  sel_relatedDefCausOffsets : list Z;
  sel_event : list Causet;
  sel_src : option E;
}.
Arguments MkSelection {E}.
Arguments sel_conditions {E}.
Arguments sel_relatedDefCausOffsets {E}.
Arguments sel_event {E}.
Arguments sel_src {E}.

Definition sel_set_event {E} (ev : list Causet) (e : selectionExec E) : selectionExec E :=
  MkSelection (sel_conditions e) (sel_relatedDefCausOffsets e) ev (sel_src e).
Definition sel_set_src {E} (src : option E) (e : selectionExec E) : selectionExec E :=
  MkSelection (sel_conditions e) (sel_relatedDefCausOffsets e) (sel_event e) src.

(** A call of a method of [src]: a panic when it is [nil]. *)
Definition on_src {E A} (m : M E A) : M (option E) A := fun src =>
  match src with
  | None => (Panic, None)
  | Some e => let '(o, e) := m e in (o, Some e)
  end.

(** ** Top-N (topn.go) *)

(** [data] is filled after the row is accepted; nothing reads it in between,
    so that here the row has it from the start. *)
Record sortRow : Type := MkSortRow { sr_key : list Causet; sr_data : option row }.

(** [fidelpb.ByItem]: its expression is evaluated apart. *)
Record topNHeap : Type := MkTopNHeap {
  th_orderByItems : list bool;
  th_rows : list sortRow;
  th_err : option goerror;
  th_totalCount : Z;
  th_heapSize : nat;
}.

Definition th_set (rows : list sortRow) (err : option goerror) (size : nat) (t : topNHeap) : topNHeap :=
  MkTopNHeap (th_orderByItems t) rows err (th_totalCount t) size.

(** The comparison of two keys from column [index] on: the result and the
    error it leaves; [None] is an index out of range.  [before ret] decides
    for a result other than 0. *)
Fixpoint key_less (before : Z -> bool) (items : list bool) (k1 k2 : list Causet)
    : option (bool * option goerror) :=
  match items with
  | [] => Some (false, None)
  | desc :: items =>
      match k1, k2 with
      | v1 :: k1, v2 :: k2 =>
          match CompareCauset (ec_sc ctx) v1 v2 with
          | Err e => Some (true, Some e)
          | Ok c =>
              let c := if desc : bool then - c else c in
              if before c then Some (true, None)
              else if c =? 0 then key_less before items k1 k2
              else Some (false, None)
          end
      | _, _ => None
      end
  end.

(** [topNSorter.Less] on two rows; its error is not looked at after the sort. *)
Definition sorter_less (items : list bool) (x y : sortRow) : bool :=
  match key_less (fun c => c <? 0) items (sr_key x) (sr_key y) with
  | Some (b, _) => b
  | None => false
  end.

(** [topNHeap.Less] sets [t.err] when a comparison fails. *)
Definition th_Less (i j : nat) (t : topNHeap) : option (bool * topNHeap) :=
  x ← th_rows t !! i; y ← th_rows t !! j;
  '(b, err) ← key_less (fun c => 0 <? c) (th_orderByItems t) (sr_key x) (sr_key y);
  Some (b : bool, match err with
           | Some _ => th_set (th_rows t) err (th_heapSize t) t
           | None => t
           end).

Definition th_Swap (i j : nat) (t : topNHeap) : option topNHeap :=
  x ← th_rows t !! i; y ← th_rows t !! j;
  Some (th_set (<[j := x]> (<[i := y]> (th_rows t))) (th_err t) (th_heapSize t) t).

Definition th_Push (x : sortRow) (t : topNHeap) : topNHeap :=
  th_set (th_rows t ++ [x]) (th_err t) (S (th_heapSize t)) t.

#[export] Instance topN_heap : HeapInterface topNHeap sortRow := {
  Len := th_heapSize; Less := th_Less; Swap := th_Swap; Push := th_Push; Pop := fun t => Some (None, t) }.

(** [None] is a panic. *)
Definition tryToAddRow (event : sortRow) (t : topNHeap) : option (bool * topNHeap) :=
  if Z.of_nat (th_heapSize t) =? th_totalCount t then
    let t := th_set (th_rows t ++ [event]) (th_err t) (th_heapSize t) t in
    '(less, t) ← th_Less 0 (th_heapSize t) t;
    '(success, t) ← (if less : bool
      then t ← th_Swap 0 (th_heapSize t) t; t ← heap_Fix 0 t; Some (true, t)
      else Some (false, t));
    Some (success, th_set (take (th_heapSize t) (th_rows t)) (th_err t) (th_heapSize t) t)
  else t ← heap_Push event t; Some (true, t).

Record topNExec (E : Type) : Type := MkTopN {
  tn_heap : topNHeap;
  tn_relatedDefCausOffsets : list Z;
  tn_orderByExprs : list Expression;
  tn_event : list Causet;
  tn_cursor : nat;
  tn_executed : bool;
  tn_src : option E;
}.
Arguments MkTopN {E}.
Arguments tn_heap {E}.
Arguments tn_relatedDefCausOffsets {E}.
Arguments tn_orderByExprs {E}.
Arguments tn_event {E}.
Arguments tn_cursor {E}.
Arguments tn_executed {E}.
Arguments tn_src {E}.

Definition tn_set_heap {E} (h : topNHeap) (e : topNExec E) : topNExec E :=
  MkTopN h (tn_relatedDefCausOffsets e) (tn_orderByExprs e) (tn_event e) (tn_cursor e) (tn_executed e)
    (tn_src e).
Definition tn_set_event {E} (ev : list Causet) (e : topNExec E) : topNExec E :=
  MkTopN (tn_heap e) (tn_relatedDefCausOffsets e) (tn_orderByExprs e) ev (tn_cursor e) (tn_executed e)
    (tn_src e).
Definition tn_set_cursor {E} (c : nat) (e : topNExec E) : topNExec E :=
  MkTopN (tn_heap e) (tn_relatedDefCausOffsets e) (tn_orderByExprs e) (tn_event e) c (tn_executed e)
    (tn_src e).
Definition tn_set_executed {E} (e : topNExec E) : topNExec E :=
  MkTopN (tn_heap e) (tn_relatedDefCausOffsets e) (tn_orderByExprs e) (tn_event e) (tn_cursor e) true
    (tn_src e).
Definition tn_set_src {E} (src : option E) (e : topNExec E) : topNExec E :=
  MkTopN (tn_heap e) (tn_relatedDefCausOffsets e) (tn_orderByExprs e) (tn_event e) (tn_cursor e)
    (tn_executed e) src.

Fixpoint eval_all (exprs : list Expression) (event : list Causet) : res (list Causet) :=
  match exprs with
  | [] => Ok []
  | expr :: exprs => d ← Eval expr event; ds ← eval_all exprs event; Ok (d :: ds)
  end.

(** [append(nil, value...)] is [nil] for a row without columns. *)
Definition appended (value : row) : option row :=
  match value with [] => None | _ => Some value end.

Definition evalTopN {E} (value : row) : M (topNExec E) unit :=
  e ← get;
  zoom tn_event tn_set_event (decodeRelatedDeferredCausetVals (tn_relatedDefCausOffsets e) value);;
  e ← get;
  key ← lift_res (eval_all (tn_orderByExprs e) (tn_event e));
  '(_, heap) ← lift_opt (tryToAddRow (MkSortRow key (appended value)) (tn_heap e));
  modify (tn_set_heap heap);;
  match th_err heap with
  | Some err => fail err
  | None => ret tt
  end.

(** ** Limit *)

Record limitExec (E : Type) : Type := MkLimit { lm_limit : Z; lm_cursor : Z; lm_src : option E }.
Arguments MkLimit {E}.
Arguments lm_limit {E}.
Arguments lm_cursor {E}.
Arguments lm_src {E}.

Definition lm_set_src {E} (src : option E) (e : limitExec E) : limitExec E :=
  MkLimit (lm_limit e) (lm_cursor e) src.

(** ** Hash aggregation (aggregate.go) *)

Record hashAggExec (E : Type) : Type := MkHashAgg {
  ha_aggExprs : list Aggregation;
  ha_aggCtxsMap : gmap bytes (list AggEvaluateContext);
  ha_groupByExprs : list Expression;
  ha_relatedDefCausOffsets : list Z;
  ha_event : list Causet;
  ha_groups : gset bytes;
  ha_groupKeys : list bytes;
  ha_groupKeyRows : list row;
  ha_executed : bool;
  ha_currGroupIdx : nat;
  ha_src : option E;
}.
Arguments MkHashAgg {E}.
Arguments ha_aggExprs {E}.
Arguments ha_aggCtxsMap {E}.
Arguments ha_groupByExprs {E}.
Arguments ha_relatedDefCausOffsets {E}.
Arguments ha_event {E}.
Arguments ha_groups {E}.
Arguments ha_groupKeys {E}.
Arguments ha_groupKeyRows {E}.
Arguments ha_executed {E}.
Arguments ha_currGroupIdx {E}.
Arguments ha_src {E}.

Definition ha_set_ctxs {E} m (e : hashAggExec E) : hashAggExec E :=
  MkHashAgg (ha_aggExprs e) m (ha_groupByExprs e) (ha_relatedDefCausOffsets e) (ha_event e) (ha_groups e)
    (ha_groupKeys e) (ha_groupKeyRows e) (ha_executed e) (ha_currGroupIdx e) (ha_src e).
Definition ha_set_event {E} ev (e : hashAggExec E) : hashAggExec E :=
  MkHashAgg (ha_aggExprs e) (ha_aggCtxsMap e) (ha_groupByExprs e) (ha_relatedDefCausOffsets e) ev
    (ha_groups e) (ha_groupKeys e) (ha_groupKeyRows e) (ha_executed e) (ha_currGroupIdx e) (ha_src e).
Definition ha_add_group {E} gk keyRow (e : hashAggExec E) : hashAggExec E :=
  MkHashAgg (ha_aggExprs e) (ha_aggCtxsMap e) (ha_groupByExprs e) (ha_relatedDefCausOffsets e) (ha_event e)
    ({[gk]} ∪ ha_groups e) (ha_groupKeys e ++ [gk]) (ha_groupKeyRows e ++ [keyRow]) (ha_executed e)
    (ha_currGroupIdx e) (ha_src e).
Definition ha_set_executed {E} (e : hashAggExec E) : hashAggExec E :=
  MkHashAgg (ha_aggExprs e) (ha_aggCtxsMap e) (ha_groupByExprs e) (ha_relatedDefCausOffsets e) (ha_event e)
    (ha_groups e) (ha_groupKeys e) (ha_groupKeyRows e) true (ha_currGroupIdx e) (ha_src e).
Definition ha_set_idx {E} n (e : hashAggExec E) : hashAggExec E :=
  MkHashAgg (ha_aggExprs e) (ha_aggCtxsMap e) (ha_groupByExprs e) (ha_relatedDefCausOffsets e) (ha_event e)
    (ha_groups e) (ha_groupKeys e) (ha_groupKeyRows e) (ha_executed e) n (ha_src e).
Definition ha_set_src {E} src (e : hashAggExec E) : hashAggExec E :=
  MkHashAgg (ha_aggExprs e) (ha_aggCtxsMap e) (ha_groupByExprs e) (ha_relatedDefCausOffsets e) (ha_event e)
    (ha_groups e) (ha_groupKeys e) (ha_groupKeyRows e) (ha_executed e) (ha_currGroupIdx e) src.

Fixpoint encode_all (ds : list Causet) : res (list bytes) :=
  match ds with
  | [] => Ok []
  | d :: ds => b ← EncodeValue (Some (ec_sc ctx)) d; bs ← encode_all ds; Ok (b :: bs)
  end.

(** The encoded group-by columns; the key is their concatenation. *)
Fixpoint group_columns (exprs : list Expression) (event : list Causet) : res (list bytes) :=
  match exprs with
  | [] => Ok []
  | item :: exprs =>
      v ← Eval item event;
      b ← EncodeValue (Some (ec_sc ctx)) v;
      bs ← group_columns exprs event;
      Ok (b :: bs)
  end.

Definition getGroupKey {E} (e : hashAggExec E) : res (bytes * row) :=
  cols ← group_columns (ha_groupByExprs e) (ha_event e);
  Ok (concat cols, Some <$> cols).

Definition new_contexts (aggs : list Aggregation) : list AggEvaluateContext :=
  (fun agg => CreateContext agg (ec_sc ctx)) <$> aggs.

Definition getContexts {E} (groupKey : bytes) : M (hashAggExec E) (list AggEvaluateContext) :=
  e ← get;
  match ha_aggCtxsMap e !! groupKey with
  | Some aggCtxs => ret aggCtxs
  | None =>
      let aggCtxs := new_contexts (ha_aggExprs e) in
      modify (ha_set_ctxs (<[groupKey := aggCtxs]> (ha_aggCtxsMap e)));;
      ret aggCtxs
  end.

(** One [UFIDelate] per aggregate on its context; the first error stops. *)
Fixpoint update_contexts (aggs : list Aggregation) (ctxs : list AggEvaluateContext) (event : list Causet)
    : out unit * list AggEvaluateContext :=
  match aggs, ctxs with
  | [], _ => (Ret tt, ctxs)
  | _ :: _, [] => (Panic, [])
  | agg :: aggs, c :: ctxs =>
      let '(err, c) := UFIDelate agg c (ec_sc ctx) event in
      match err with
      | Some e => (Fail e, c :: ctxs)
      | None => let '(o, ctxs) := update_contexts aggs ctxs event in (o, c :: ctxs)
      end
  end.

Definition ha_aggregate {E} (value : row) : M (hashAggExec E) unit :=
  e ← get;
  zoom ha_event ha_set_event (decodeRelatedDeferredCausetVals (ha_relatedDefCausOffsets e) value);;
  e ← get;
  '(gk, gbyKeyRow) ← lift_res (getGroupKey e);
  (if decide (gk ∈ ha_groups e) then ret tt else modify (ha_add_group gk gbyKeyRow));;
  aggCtxs ← getContexts gk;
  e ← get;
  let '(o, aggCtxs) := update_contexts (ha_aggExprs e) aggCtxs (ha_event e) in
  modify (ha_set_ctxs (<[gk := aggCtxs]> (ha_aggCtxsMap e)));;
  lift_out o.

(** The partial results of the aggregates, encoded. *)
Fixpoint partial_results (aggs : list Aggregation) (ctxs : list AggEvaluateContext) : out (list bytes) :=
  match aggs, ctxs with
  | [], _ => Ret []
  | _ :: _, [] => Panic
  | agg :: aggs, c :: ctxs =>
      match encode_all (GetPartialResult agg c) with
      | Err e => Fail e
      | Ok bs =>
          match partial_results aggs ctxs with
          | Ret rest => Ret (bs ++ rest)
          | o => o
          end
      end
  end.

(** The part of [Next] after the rows of the source are aggregated. *)
Definition ha_emit {E} : M (hashAggExec E) (option row) :=
  e ← get;
  if decide (size (ha_groups e) <= ha_currGroupIdx e)%nat then ret None else
  gk ← lift_opt (ha_groupKeys e !! ha_currGroupIdx e);
  aggCtxs ← getContexts gk;
  value ← lift_out (partial_results (ha_aggExprs e) aggCtxs);
  keyRow ← lift_opt (ha_groupKeyRows e !! ha_currGroupIdx e);
  modify (fun e => ha_set_idx (S (ha_currGroupIdx e)) e);;
  ret (Some ((Some <$> value) ++ keyRow)).

(** ** Stream aggregation *)

(** [nextGroupByRow] is [nil] or the same slice as [tmpGroupByRow]: once it
    is set, a call writes its columns while it compares with them.  [sa_next]
    says whether it is set, [sa_row] is the slice. *)
Record streamAggExec (E : Type) : Type := MkStreamAgg {
  sa_aggExprs : list Aggregation;
  sa_aggCtxs : list AggEvaluateContext;
  sa_groupByExprs : list Expression;
  sa_relatedDefCausOffsets : list Z;
  sa_event : list Causet;
  sa_row : list Causet;
  sa_next : bool;
  sa_currGroupByRow : list Causet;
  sa_executed : bool;
  sa_hasData : bool;
  sa_src : option E;
}.
Arguments MkStreamAgg {E}.
Arguments sa_aggExprs {E}.
Arguments sa_aggCtxs {E}.
Arguments sa_groupByExprs {E}.
Arguments sa_relatedDefCausOffsets {E}.
Arguments sa_event {E}.
Arguments sa_row {E}.
Arguments sa_next {E}.
Arguments sa_currGroupByRow {E}.
Arguments sa_executed {E}.
Arguments sa_hasData {E}.
Arguments sa_src {E}.

Definition sa_set_ctxs {E} c (e : streamAggExec E) : streamAggExec E :=
  MkStreamAgg (sa_aggExprs e) c (sa_groupByExprs e) (sa_relatedDefCausOffsets e) (sa_event e) (sa_row e)
    (sa_next e) (sa_currGroupByRow e) (sa_executed e) (sa_hasData e) (sa_src e).
Definition sa_set_event {E} ev (e : streamAggExec E) : streamAggExec E :=
  MkStreamAgg (sa_aggExprs e) (sa_aggCtxs e) (sa_groupByExprs e) (sa_relatedDefCausOffsets e) ev (sa_row e)
    (sa_next e) (sa_currGroupByRow e) (sa_executed e) (sa_hasData e) (sa_src e).
Definition sa_set_row {E} r (e : streamAggExec E) : streamAggExec E :=
  MkStreamAgg (sa_aggExprs e) (sa_aggCtxs e) (sa_groupByExprs e) (sa_relatedDefCausOffsets e) (sa_event e) r
    (sa_next e) (sa_currGroupByRow e) (sa_executed e) (sa_hasData e) (sa_src e).
Definition sa_set_next {E} (e : streamAggExec E) : streamAggExec E :=
  MkStreamAgg (sa_aggExprs e) (sa_aggCtxs e) (sa_groupByExprs e) (sa_relatedDefCausOffsets e) (sa_event e)
    (sa_row e) true (sa_currGroupByRow e) (sa_executed e) (sa_hasData e) (sa_src e).
Definition sa_set_curr {E} r (e : streamAggExec E) : streamAggExec E :=
  MkStreamAgg (sa_aggExprs e) (sa_aggCtxs e) (sa_groupByExprs e) (sa_relatedDefCausOffsets e) (sa_event e)
    (sa_row e) (sa_next e) r (sa_executed e) (sa_hasData e) (sa_src e).
Definition sa_set_executed {E} (e : streamAggExec E) : streamAggExec E :=
  MkStreamAgg (sa_aggExprs e) (sa_aggCtxs e) (sa_groupByExprs e) (sa_relatedDefCausOffsets e) (sa_event e)
    (sa_row e) (sa_next e) (sa_currGroupByRow e) true (sa_hasData e) (sa_src e).
Definition sa_set_hasData {E} (e : streamAggExec E) : streamAggExec E :=
  MkStreamAgg (sa_aggExprs e) (sa_aggCtxs e) (sa_groupByExprs e) (sa_relatedDefCausOffsets e) (sa_event e)
    (sa_row e) (sa_next e) (sa_currGroupByRow e) (sa_executed e) true (sa_src e).
Definition sa_set_src {E} src (e : streamAggExec E) : streamAggExec E :=
  MkStreamAgg (sa_aggExprs e) (sa_aggCtxs e) (sa_groupByExprs e) (sa_relatedDefCausOffsets e) (sa_event e)
    (sa_row e) (sa_next e) (sa_currGroupByRow e) (sa_executed e) (sa_hasData e) src.

(** The aggregates' results; their contexts start again.  When an encoding
    fails the contexts of the aggregates before it have been replaced. *)
Fixpoint take_results (aggs : list Aggregation) (ctxs : list AggEvaluateContext)
    : out (list bytes) * list AggEvaluateContext :=
  match aggs, ctxs with
  | [], _ => (Ret [], ctxs)
  | _ :: _, [] => (Panic, [])
  | agg :: aggs, c :: ctxs =>
      match encode_all (GetPartialResult agg c) with
      | Err e => (Fail e, c :: ctxs)
      | Ok bs =>
          let '(o, ctxs) := take_results aggs ctxs in
          (match o with Ret rest => Ret (bs ++ rest) | o => o end, CreateContext agg (ec_sc ctx) :: ctxs)
      end
  end.

Definition getPartialResult {E} : M (streamAggExec E) row :=
  e ← get;
  let '(o, ctxs) := take_results (sa_aggExprs e) (sa_aggCtxs e) in
  modify (sa_set_ctxs ctxs);;
  value ← lift_out o;
  groupValues ← lift_res (encode_all (sa_currGroupByRow e));
  modify (fun e => sa_set_curr (if sa_next e then sa_row e else []) e);;
  ret (Some <$> (value ++ groupValues)).

(** The loop of [meetNewGroup] over the group-by expressions from [i] on: the
    columns are written to the slice, and compared while [matched]. *)
Fixpoint group_loop (exprs : list Expression) (i : nat) (event : list Causet) (next : bool) (matched : bool)
    : M (list Causet) bool :=
  match exprs with
  | [] => ret matched
  | item :: exprs =>
      d ← lift_res (Eval item event);
      row ← get;
      matched ← (if matched then
                   n ← lift_opt (row !! i);
                   c ← lift_res (CompareCauset (ec_sc ctx) d n);
                   ret (c =? 0)
                 else ret false);
      modify (fun row => if next then <[i := d]> row else row ++ [d]);;
      group_loop exprs (S i) event next matched
  end.

Definition meetNewGroup {E} : M (streamAggExec E) bool :=
  e ← get;
  match sa_groupByExprs e with
  | [] => ret false
  | exprs =>
      let firstGroup := negb (sa_next e) in
      (if firstGroup then modify (sa_set_row []) else ret tt);;
      matched ← zoom sa_row sa_set_row (group_loop exprs 0 (sa_event e) (sa_next e) (negb firstGroup));
      (if firstGroup then modify (fun e => sa_set_curr (sa_row e) e) else ret tt);;
      if matched : bool then ret false else
      modify sa_set_next;;
      ret (negb firstGroup)
  end.

(** ** Next of the executors, over the [Next] of their source *)

Section source.
Context {E : Type} (src_Next : M E (option row)).

Fixpoint selection_Next (fuel : nat) : M (selectionExec E) (option row) :=
  match fuel with
  | O => fun e => (NoFuel, e)
  | S fuel =>
      value ← zoom sel_src sel_set_src (on_src src_Next);
      match value with
      | None => ret None
      | Some value =>
          e ← get;
          zoom sel_event sel_set_event
            (decodeRelatedDeferredCausetVals (sel_relatedDefCausOffsets e) value);;
          e ← get;
          matched ← lift_res (evalBool (sel_conditions e) (sel_event e) (ec_sc ctx));
          if matched : bool then ret (Some value) else selection_Next fuel
      end
  end.

(** The loop over [innerNext]. *)
Fixpoint topN_loop (fuel : nat) : M (topNExec E) unit :=
  match fuel with
  | O => fun e => (NoFuel, e)
  | S fuel =>
      value ← zoom tn_src tn_set_src (on_src src_Next);
      match value with
      | None =>
          modify (fun e => tn_set_heap (th_set (sort_Sort (sorter_less (th_orderByItems (tn_heap e)))
                    (th_rows (tn_heap e))) (th_err (tn_heap e)) (th_heapSize (tn_heap e)) (tn_heap e)) e)
      | Some value => evalTopN value;; topN_loop fuel
      end
  end.

Definition topN_Next (fuel : nat) : M (topNExec E) (option row) :=
  e ← get;
  (if tn_executed e then ret tt else topN_loop fuel;; modify tn_set_executed);;
  e ← get;
  match th_rows (tn_heap e) !! tn_cursor e with
  | None => ret None
  | Some event => modify (fun e => tn_set_cursor (S (tn_cursor e)) e);; ret (sr_data event)
  end.

Definition limit_Next : M (limitExec E) (option row) :=
  e ← get;
  if lm_limit e <=? lm_cursor e then ret None else
  value ← zoom lm_src lm_set_src (on_src src_Next);
  match value with
  | None => ret None
  | Some value =>
      modify (fun e => MkLimit (lm_limit e) (u64_add (lm_cursor e) 1) (lm_src e));;
      ret (Some value)
  end.

Fixpoint hashAgg_loop (fuel : nat) : M (hashAggExec E) unit :=
  match fuel with
  | O => fun e => (NoFuel, e)
  | S fuel =>
      values ← zoom ha_src ha_set_src (on_src src_Next);
      match values with
      | None => ret tt
      | Some values => ha_aggregate values;; hashAgg_loop fuel
      end
  end.

Definition hashAgg_Next (fuel : nat) : M (hashAggExec E) (option row) :=
  e ← get;
  (if ha_executed e then ret tt else hashAgg_loop fuel;; modify ha_set_executed);;
  ha_emit.

Definition sa_update : M (streamAggExec E) unit :=
  e ← get;
  let '(o, ctxs) := update_contexts (sa_aggExprs e) (sa_aggCtxs e) (sa_event e) in
  modify (sa_set_ctxs ctxs);;
  lift_out o.

Fixpoint streamAgg_loop (fuel : nat) : M (streamAggExec E) (option row) :=
  match fuel with
  | O => fun e => (NoFuel, e)
  | S fuel =>
      values ← zoom sa_src sa_set_src (on_src src_Next);
      match values with
      | None =>
          modify sa_set_executed;;
          e ← get;
          if negb (sa_hasData e) && bool_decide (0 < length (sa_groupByExprs e))%nat then ret None
          else r ← getPartialResult; ret (Some r)
      | Some values =>
          modify sa_set_hasData;;
          e ← get;
          zoom sa_event sa_set_event
            (decodeRelatedDeferredCausetVals (sa_relatedDefCausOffsets e) values);;
          newGroup ← meetNewGroup;
          retRow ← (if newGroup : bool then r ← getPartialResult; ret (Some r) else ret None);
          sa_update;;
          if newGroup : bool then ret retRow else streamAgg_loop fuel
      end
  end.

Definition streamAgg_Next (fuel : nat) : M (streamAggExec E) (option row) :=
  e ← get;
  if sa_executed e then ret None else streamAgg_loop fuel.
End source.

(** ** The interface value [executor] *)

Inductive executor : Type :=
| XTableScan (e : blockScanExec)
| XIndexScan (e : indexScanExec)
| XSelection (e : selectionExec executor)
| XHashAgg (e : hashAggExec executor)
| XStreamAgg (e : streamAggExec executor)
| XTopN (e : topNExec executor)
| XLimit (e : limitExec executor).

(** [m] on the state of one kind of executor. *)
Definition wrap {S A} (c : S -> executor) (m : M S A) (e : S) : out A * executor :=
  let '(o, e) := m e in (o, c e).

(** The fuel bounds the height of the chain and each of its loops. *)
Fixpoint Next (st : Store) (fuel : nat) (e : executor) : out (option row) * executor :=
  match fuel with
  | O => (NoFuel, e)
  | S fuel =>
      let src := (Next st fuel : M executor (option row)) in
      match e with
      | XTableScan e => wrap XTableScan (blockScan_Next st) e
      | XIndexScan e => wrap XIndexScan (indexScan_Next st) e
      | XSelection e => wrap XSelection (selection_Next src fuel) e
      | XHashAgg e => wrap XHashAgg (hashAgg_Next src fuel) e
      | XStreamAgg e => wrap XStreamAgg (streamAgg_Next src fuel) e
      | XTopN e => wrap XTopN (topN_Next src fuel) e
      | XLimit e => wrap XLimit (limit_Next src) e
      end
  end.

(** [SetSrcExec]: a scan stores a source too, and never reads it. *)
Definition SetSrcExec (src : option executor) (e : executor) : executor :=
  match e with
  | XTableScan e => XTableScan e
  | XIndexScan e => XIndexScan e
  | XSelection e => XSelection (sel_set_src src e)
  | XHashAgg e => XHashAgg (ha_set_src src e)
  | XStreamAgg e => XStreamAgg (sa_set_src src e)
  | XTopN e => XTopN (tn_set_src src e)
  | XLimit e => XLimit (lm_set_src src e)
  end.

(** [ResetCounts], [Counts] and [Cursor] go down to the scan; the last one
    panics in the executors that do not keep the order of the scan. *)
Fixpoint ResetCounts (e : executor) : option executor :=
  match e with
  | XTableScan e =>
      s ← scan_ResetCounts (bs_scan e);
      Some (XTableScan (MkBlockScan (bs_DeferredCausets e) (bs_colIDs e) (bs_rd e) s))
  | XIndexScan e =>
      s ← scan_ResetCounts (is_scan e);
      Some (XIndexScan (MkIndexScan (is_Unique e) (is_defcausLen e) (is_hdStatus e) (is_colInfos e) s))
  | XSelection e =>
      match sel_src e with
      | Some src => src ← ResetCounts src; Some (XSelection (sel_set_src (Some src) e))
      | None => None
      end
  | XHashAgg e =>
      match ha_src e with
      | Some src => src ← ResetCounts src; Some (XHashAgg (ha_set_src (Some src) e))
      | None => None
      end
  | XStreamAgg e =>
      match sa_src e with
      | Some src => src ← ResetCounts src; Some (XStreamAgg (sa_set_src (Some src) e))
      | None => None
      end
  | XTopN e =>
      match tn_src e with
      | Some src => src ← ResetCounts src; Some (XTopN (tn_set_src (Some src) e))
      | None => None
      end
  | XLimit e =>
      match lm_src e with
      | Some src => src ← ResetCounts src; Some (XLimit (lm_set_src (Some src) e))
      | None => None
      end
  end.

Fixpoint Counts (e : executor) : option (list Z) :=
  match e with
  | XTableScan e => scan_Counts (bs_scan e)
  | XIndexScan e => scan_Counts (is_scan e)
  | XSelection e => match sel_src e with Some src => Counts src | None => None end
  | XHashAgg e => match ha_src e with Some src => Counts src | None => None end
  | XStreamAgg e => match sa_src e with Some src => Counts src | None => None end
  | XTopN e => match tn_src e with Some src => Counts src | None => None end
  | XLimit e => match lm_src e with Some src => Counts src | None => None end
  end.

Fixpoint Cursor (e : executor) : option (bytes * bool) :=
  match e with
  | XTableScan e => scan_Cursor IsPoint (bs_scan e)
  | XIndexScan e => scan_Cursor (index_isPoint e) (is_scan e)
  | XSelection e => match sel_src e with Some src => Cursor src | None => None end
  | XLimit e => match lm_src e with Some src => Cursor src | None => None end
  | XHashAgg _ | XStreamAgg _ | XTopN _ => None
  end.
End exec.


Arguments MkSelection {H H1 E} _ _ _ _.
Arguments sel_conditions {H H1 E} _.
Arguments sel_relatedDefCausOffsets {H H1 E} _.
Arguments sel_event {H H1 E} _.
Arguments sel_src {H H1 E} _.
Arguments MkTopN {H H1 E} _ _ _ _ _ _ _.
Arguments tn_heap {H H1 E} _.
Arguments tn_relatedDefCausOffsets {H H1 E} _.
Arguments tn_orderByExprs {H H1 E} _.
Arguments tn_event {H H1 E} _.
Arguments tn_cursor {H H1 E} _.
Arguments tn_executed {H H1 E} _.
Arguments tn_src {H H1 E} _.
Arguments MkLimit {E} _ _ _.
Arguments lm_limit {E} _.
Arguments lm_cursor {E} _.
Arguments lm_src {E} _.
Arguments MkHashAgg {H H1 H2 E} _ _ _ _ _ _ _ _ _ _ _.
Arguments ha_aggExprs {H H1 H2 E} _.
Arguments ha_aggCtxsMap {H H1 H2 E} _.
Arguments ha_groupByExprs {H H1 H2 E} _.
Arguments ha_relatedDefCausOffsets {H H1 H2 E} _.
Arguments ha_event {H H1 H2 E} _.
Arguments ha_groups {H H1 H2 E} _.
Arguments ha_groupKeys {H H1 H2 E} _.
Arguments ha_groupKeyRows {H H1 H2 E} _.
Arguments ha_executed {H H1 H2 E} _.
Arguments ha_currGroupIdx {H H1 H2 E} _.
Arguments ha_src {H H1 H2 E} _.
Arguments MkStreamAgg {H H1 H2 E} _ _ _ _ _ _ _ _ _ _ _.
Arguments sa_aggExprs {H H1 H2 E} _.
Arguments sa_aggCtxs {H H1 H2 E} _.
Arguments sa_groupByExprs {H H1 H2 E} _.
Arguments sa_relatedDefCausOffsets {H H1 H2 E} _.
Arguments sa_event {H H1 H2 E} _.
Arguments sa_row {H H1 H2 E} _.
Arguments sa_next {H H1 H2 E} _.
Arguments sa_currGroupByRow {H H1 H2 E} _.
Arguments sa_executed {H H1 H2 E} _.
Arguments sa_hasData {H H1 H2 E} _.
Arguments sa_src {H H1 H2 E} _.
