(* ===== verification/InterlockRuns.v ===== *)
(** * What an executor yields: selections and limits

    [yields st e rows e'] says that the calls of [Next] on [e] give the rows of
    the list one after the other, and then the end of the rows or an error.  A
    selection yields the rows of its source that satisfy it, a limit the first
    of them. *)

From stdpp Require Import base gmap list option strings.
From Stdlib Require Import Strings.Byte ZArith Lia.
From S2P Require Import Prelude External Mvcc KvKey GoHeap GoMonad Interlock InterlockExec.

Local Open Scope Z_scope.

Section runs.
Context `{Datums} `{HC : HandleCodec} `{RowCodec} `{!Expressions} `{!Aggregations} `{Sorter} `{MVCCStore}.
Context (ctx : evalContext) (st : Store).

(** [Next] gives [o] and leaves [e'], with any fuel from some amount on. *)
Definition steps (e : executor) (o : out (option row)) (e' : executor) : Prop :=
  exists f0, forall f, (f0 <= f)%nat -> Next ctx st f e = (o, e').

Inductive yields : executor -> list row -> option goerror -> Prop :=
| yields_end e e' : steps e (Ret None) e' -> yields e [] None
| yields_fail e e' er : steps e (Fail er) e' -> yields e [] (Some er)
| yields_row e e' r rows er :
    steps e (Ret (Some r)) e' -> yields e' rows er -> yields e (r :: rows) er.

(** ** The buffer of decoded columns *)

Definition agree_off (offs : list Z) (ev ev0 : list Causet) : Prop :=
  length ev = length ev0 /\ forall i, Z.of_nat i ∉ offs -> ev !! i = ev0 !! i.

Lemma agree_off_refl offs ev : agree_off offs ev ev.
Proof. done. Qed.

Lemma put_agree offs (ev ev0 : list Causet) o d :
  agree_off (o :: offs) ev ev0 ->
  match put_ ev o d, put_ ev0 o d with
  | Some ev1, Some ev2 => agree_off offs ev1 ev2
  | None, None => True
  | _, _ => False
  end.
Proof.
  intros [L A]. unfold put_. rewrite L. case_decide as D; [|done]. split.
  - by rewrite !length_insert.
  - intros i Hi. destruct (decide (i = Z.to_nat o)) as [->|Hne].
    + rewrite !list_lookup_insert_eq by lia. done.
    + rewrite !list_lookup_insert_ne by done. apply A. intros [E|]%elem_of_cons; [lia|done].
Qed.

Lemma put_agree_self offs (ev ev1 : list Causet) o d :
  put_ ev o d = Some ev1 -> agree_off (o :: offs) ev1 ev.
Proof.
  unfold put_. case_decide as D; [|done]. intros [= <-]. split; [by rewrite length_insert|].
  intros i Hi. rewrite list_lookup_insert_ne; [done|]. intros <-. apply Hi.
  rewrite Z2Nat.id by lia. left.
Qed.

(** What the decoding gives depends on the buffer only off the decoded
    columns, and leaves those as they are. *)
Lemma decode_agree value : forall offs ev ev0,
  agree_off offs ev ev0 ->
  (decodeRelatedDeferredCausetVals ctx offs value ev).1 =
    (decodeRelatedDeferredCausetVals ctx offs value ev0).1 /\
  ((decodeRelatedDeferredCausetVals ctx offs value ev0).1 = Ret tt ->
   (decodeRelatedDeferredCausetVals ctx offs value ev).2 =
     (decodeRelatedDeferredCausetVals ctx offs value ev0).2).
Proof.
  induction offs as [|o offs IH]; intros ev ev0 A.
  - split; [done|]. intros _. destruct A as [L A]. cbn. apply list_eq. intros i. apply A. apply not_elem_of_nil.
  - cbn [decodeRelatedDeferredCausetVals]. destruct (at_ value o) as [v|]; [|done]. step_exec.
    destruct (at_ (ec_fieldTps ctx) o) as [ft|]; [|done]. step_exec.
    destruct (DecodeDeferredCausetValue v ft (TimeZone (ec_sc ctx))) as [d err]. step_exec.
    pose proof (put_agree offs ev ev0 o d A) as P.
    destruct (put_ ev o d) as [ev1|], (put_ ev0 o d) as [ev2|]; try done. step_exec.
    destruct err as [er|]; [done|]. by apply IH.
Qed.

Lemma decode_keeps value : forall offs ev,
  agree_off offs (decodeRelatedDeferredCausetVals ctx offs value ev).2 ev.
Proof.
  induction offs as [|o offs IH]; intros ev; [done|].
  cbn [decodeRelatedDeferredCausetVals]. destruct (at_ value o) as [v|]; [|done]. step_exec.
  destruct (at_ (ec_fieldTps ctx) o) as [ft|]; [|done]. step_exec.
  destruct (DecodeDeferredCausetValue v ft (TimeZone (ec_sc ctx))) as [d err]. step_exec.
  destruct (put_ ev o d) as [ev1|] eqn:E; [|done]. step_exec.
  pose proof (put_agree_self offs _ _ _ _ E) as [L1 A1].
  destruct err as [er|]; [by split|]. destruct (IH ev1) as [L2 A2]. split; [congruence|].
  intros i Hi. rewrite A2; [by apply A1|]. intros ?. apply Hi. by right.
Qed.

(** The decoded columns of a row, over the buffer [ev0]. *)
Definition row_event (offs : list Z) (ev0 : list Causet) (value : row) : out (list Causet) :=
  match decodeRelatedDeferredCausetVals ctx offs value ev0 with
  | (Ret _, ev) => Ret ev
  | (Fail e, _) => Fail e
  | (Panic, _) => Panic
  | (NoFuel, _) => NoFuel
  end.

Lemma decode_row_event offs ev ev0 value :
  agree_off offs ev ev0 ->
  match row_event offs ev0 value with
  | Ret ev1 => decodeRelatedDeferredCausetVals ctx offs value ev = (Ret tt, ev1) /\ agree_off offs ev1 ev0
  | Fail e => exists ev1, decodeRelatedDeferredCausetVals ctx offs value ev = (Fail e, ev1) /\
                agree_off offs ev1 ev0
  | _ => True
  end.
Proof.
  intros A. destruct (decode_agree value offs ev ev0 A) as [E1 E2].
  pose proof (decode_keeps value offs ev) as [L K]. pose proof A as [La Ka].
  assert (A' : agree_off offs (decodeRelatedDeferredCausetVals ctx offs value ev).2 ev0).
  { split; [congruence|]. intros i Hi. rewrite K by done. by apply Ka. }
  unfold row_event. destruct (decodeRelatedDeferredCausetVals ctx offs value ev) as [o ev1].
  destruct (decodeRelatedDeferredCausetVals ctx offs value ev0) as [o0 ev2]. cbn in *. subst o0.
  destruct o as [[]|e| |]; try done; [|by exists ev1]. rewrite (E2 eq_refl) in A' |- *. done.
Qed.

(** ** Selection *)

(** Whether a selection with an empty buffer [ev0] keeps the row. *)
Definition selected (conds : list Expression) (offs : list Z) (ev0 : list Causet) (value : row) : out bool :=
  match row_event offs ev0 value with
  | Ret ev => match evalBool conds ev (ec_sc ctx) with Ok b => Ret b | Err e => Fail e end
  | Fail e => Fail e
  | Panic => Panic
  | NoFuel => NoFuel
  end.

(** The rows that pass, up to the first error: one of the test, or at the end
    that of the source. *)
Fixpoint filter_rows (test : row -> out bool) (rows : list row) (er : option goerror)
    : list row * option goerror :=
  match rows with
  | [] => ([], er)
  | r :: rows =>
      match test r with
      | Ret true => let '(rs, er) := filter_rows test rows er in (r :: rs, er)
      | Ret false => filter_rows test rows er
      | Fail e => ([], Some e)
      | Panic | NoFuel => ([], None)
      end
  end.

Definition decides (test : row -> out bool) (r : row) : Prop :=
  match test r with Ret _ | Fail _ => True | _ => False end.

Definition first_step (p : list row * option goerror) : out (option row) :=
  match p with
  | (r :: _, _) => Ret (Some r)
  | ([], None) => Ret None
  | ([], Some e) => Fail e
  end.

(** A loop over the source gives [o] and leaves [e'], once the fuel of the
    source and of the loop is enough. *)
Definition loop_steps {E A} (loop : M executor (option row) -> nat -> M E A) (e : E) (o : out A) (e' : E)
    : Prop :=
  exists f0, forall f g, (f0 <= f)%nat -> (f0 <= g)%nat -> loop (Next ctx st f) g e = (o, e').

(** The first call of the loop on its source. *)
Lemma on_src_steps {E} (part : E -> option executor) (put : option executor -> E -> E) e src o src' :
  part e = Some src -> steps src o src' ->
  exists f0, forall f, (f0 <= f)%nat ->
    zoom part put (on_src (Next ctx st f : M executor (option row))) e = (o, put (Some src') e).
Proof.
  intros Hp [f0 S]. exists f0. intros f Hf. unfold zoom, on_src. rewrite Hp. by rewrite S.
Qed.

Lemma loop_steps_XSelection e o e' :
  loop_steps (selection_Next ctx) e o e' -> steps (XSelection e) o (XSelection e').
Proof.
  intros [f0 S]. exists (1 + f0)%nat. intros [|f] Hf; [lia|]. cbn [Next]. unfold wrap. by rewrite S by lia.
Qed.

Lemma selection_stop conds offs ev src src' o :
  steps src o src' -> (forall r, o <> Ret (Some r)) ->
  loop_steps (selection_Next ctx) (MkSelection conds offs ev (Some src)) o
    (MkSelection conds offs ev (Some src')).
Proof.
  intros S Ho. destruct (on_src_steps sel_src sel_set_src
    (MkSelection conds offs ev (Some src)) src o src' eq_refl S) as [f0 E].
  exists (1 + f0)%nat. intros f [|g] Hf Hg; [lia|]. cbn [selection_Next].
  unfold mbind, M_bind at 1. rewrite E by lia.
  destruct o as [[r|]|er| |]; try done. by destruct (Ho r).
Qed.

(** A row from the source: the decision on it, or one more turn. *)
Lemma selection_row conds offs ev ev0 src src' r :
  steps src (Ret (Some r)) src' -> agree_off offs ev ev0 ->
  exists ev', agree_off offs ev' ev0 /\
  let e' := MkSelection conds offs ev' (Some src') in
  match selected conds offs ev0 r with
  | Ret true => loop_steps (selection_Next ctx) (MkSelection conds offs ev (Some src)) (Ret (Some r)) e'
  | Ret false => forall o e'', loop_steps (selection_Next ctx) e' o e'' ->
      loop_steps (selection_Next ctx) (MkSelection conds offs ev (Some src)) o e''
  | Fail er => loop_steps (selection_Next ctx) (MkSelection conds offs ev (Some src)) (Fail er) e'
  | _ => True
  end.
Proof.
  intros S A. destruct (on_src_steps sel_src sel_set_src
    (MkSelection conds offs ev (Some src)) src _ src' eq_refl S) as [f0 E].
  pose proof (decode_row_event offs ev ev0 r A) as D. unfold selected.
  destruct (row_event offs ev0 r) as [ev1|er| |]; [| |by exists ev|by exists ev].
  - destruct D as [D A1]. exists ev1. split; [done|].
    assert (Turn : forall f g, (f0 <= f)%nat ->
      selection_Next ctx (Next ctx st f) (Datatypes.S g) (MkSelection conds offs ev (Some src)) =
      match evalBool conds ev1 (ec_sc ctx) with
      | Ok true => (Ret (Some r), MkSelection conds offs ev1 (Some src'))
      | Ok false => selection_Next ctx (Next ctx st f) g (MkSelection conds offs ev1 (Some src'))
      | Err er => (Fail er, MkSelection conds offs ev1 (Some src'))
      end).
    { intros f g Hf. cbn [selection_Next]. erewrite bind_Ret by by apply E. cbn [sel_set_src].
      step_exec. cbn. rewrite D. cbn. by destruct (evalBool conds ev1 (ec_sc ctx)) as [[]|]. }
    destruct (evalBool conds ev1 (ec_sc ctx)) as [[]|er].
    + exists (1 + f0)%nat. intros f [|g] Hf Hg; [lia|]. by rewrite Turn by lia.
    + intros o e'' [f1 L]. exists (1 + f0 + f1)%nat. intros f [|g] Hf Hg; [lia|].
      rewrite Turn by lia. apply L; lia.
    + exists (1 + f0)%nat. intros f [|g] Hf Hg; [lia|]. by rewrite Turn by lia.
  - destruct D as (ev1 & D & A1). exists ev1. split; [done|].
    exists (1 + f0)%nat. intros f [|g] Hf Hg; [lia|]. cbn [selection_Next].
    erewrite bind_Ret by (apply E; lia). step_exec. cbn. by rewrite D.
Qed.

(** A selection yields the rows of its source that pass its test. *)
Lemma selection_yields conds offs ev0 src rows er :
  yields src rows er -> Forall (decides (selected conds offs ev0)) rows ->
  forall ev, agree_off offs ev ev0 ->
  let p := filter_rows (selected conds offs ev0) rows er in
  yields (XSelection (MkSelection conds offs ev (Some src))) p.1 p.2.
Proof.
  intros Y D.
  assert (L : forall ev, agree_off offs ev ev0 ->
    exists o e', loop_steps (selection_Next ctx) (MkSelection conds offs ev (Some src)) o e' /\
      let p := filter_rows (selected conds offs ev0) rows er in
      match o with
      | Ret (Some r) => exists rs, p.1 = r :: rs /\ yields (XSelection e') rs p.2
      | Ret None => p = ([], None)
      | Fail e => p = ([], Some e)
      | _ => False
      end).
  { induction Y as [src src' S|src src' er S|src src' r rows er S Y IH]; intros ev A.
    - eexists _, _. split; [by eapply selection_stop|]. done.
    - eexists _, _. split; [by eapply selection_stop|]. done.
    - apply Forall_cons in D as [Dr D]. specialize (IH D).
      destruct (selection_row conds offs ev ev0 src src' r S A) as (ev' & A' & R). cbn [filter_rows].
      unfold decides in Dr. destruct (selected conds offs ev0 r) as [[]|e| |]; try done.
      + eexists _, _. split; [exact R|]. cbn.
        destruct (filter_rows (selected conds offs ev0) rows er) as [rs er'] eqn:Ef. cbn.
        exists rs. split; [done|]. destruct (IH ev' A') as (o & e'' & L & P). cbn in P.
        apply loop_steps_XSelection in L.
        destruct o as [[r'|]|e| |]; try done.
        * destruct P as (rs' & -> & Y'). by eapply yields_row.
        * injection P as -> ->. by eapply yields_end.
        * injection P as -> ->. by eapply yields_fail.
      + destruct (IH ev' A') as (o & e'' & L & P). exists o, e''. split; [by apply R|done].
      + eexists _, _. split; [exact R|]. done. }
  intros ev A. destruct (L ev A) as (o & e' & Lo & P). apply loop_steps_XSelection in Lo. cbn in P |- *.
  destruct (filter_rows _ _ _) as [rs er']. cbn in *. destruct o as [[r|]|e| |]; try done.
  - destruct P as (rs' & -> & Y'). by eapply yields_row.
  - injection P as -> ->. by eapply yields_end.
  - injection P as -> ->. by eapply yields_fail.
Qed.

(** ** Limit *)

Lemma limit_steps_done n c src : n <= c ->
  steps (XLimit (MkLimit n c src)) (Ret None) (XLimit (MkLimit n c src)).
Proof.
  intros Hn. exists 1%nat. intros [|f] Hf; [lia|]. cbn [Next]. unfold wrap, limit_Next. step_exec. cbn.
  by rewrite (proj2 (Z.leb_le n c)).
Qed.

Lemma limit_steps n c src o src' : c < n -> u64 n -> 0 <= c -> steps src o src' ->
  steps (XLimit (MkLimit n c (Some src))) o
    (XLimit (MkLimit n (match o with Ret (Some _) => c + 1 | _ => c end) (Some src'))).
Proof.
  intros Hc Hn Hc0 [f0 S]. exists (1 + f0)%nat. intros [|f] Hf; [lia|]. cbn [Next].
  unfold wrap, limit_Next. step_exec. cbn [lm_limit lm_cursor]. rewrite (proj2 (Z.leb_gt n c)) by lia.
  unfold zoom, on_src. cbn [lm_src]. rewrite S by lia.
  destruct o as [[r|]|e| |]; try done. cbn. repeat f_equal.
  unfold u64_add, u64_wrap. apply Z.mod_small. unfold u64, u64_mod in *. lia.
Qed.

(** A limit yields the first rows of its source, and its error only if it
    comes before the limit. *)
Lemma limit_yields n src rows er : u64 n -> yields src rows er -> forall c, 0 <= c ->
  yields (XLimit (MkLimit n c (Some src))) (take (Z.to_nat (n - c)) rows)
    (if decide (Z.of_nat (length rows) < n - c) then er else None).
Proof.
  intros Hn Y. induction Y as [src src' S|src src' er S|src src' r rows er S Y IH]; intros c Hc.
  - rewrite take_nil. destruct (decide (c < n)).
    + case_decide; (eapply yields_end; by apply (limit_steps n c src (Ret None) src')).
    + case_decide; (eapply yields_end; apply limit_steps_done; lia).
  - rewrite take_nil. cbn. case_decide as D.
    + eapply yields_fail. by apply (limit_steps n c src (Fail er) src'); try lia.
    + eapply yields_end. apply limit_steps_done. lia.
  - destruct (decide (c < n)) as [L|L].
    + replace (Z.to_nat (n - c)) with (Datatypes.S (Z.to_nat (n - (c + 1)))) by lia. cbn [take].
      eapply yields_row; [by apply (limit_steps n c src (Ret (Some r)) src')|].
      specialize (IH (c + 1) ltac:(lia)). cbn [length].
      repeat case_decide; try lia; done.
    + replace (Z.to_nat (n - c)) with 0%nat by lia. rewrite take_0, decide_False by (cbn; lia).
      eapply yields_end. apply limit_steps_done. lia.
Qed.
End runs.
