(* ===== verification/InterlockTopN.v ===== *)
(** * What a top-N yields (mockeinsteindb/topn.go)

    Where the values of every key column can be compared, the comparison of
    keys is a total preorder, the heap holds the first rows of what was added,
    and the executor yields them in order. *)

From stdpp Require Import base gmap list sorting option strings.
From Stdlib Require Import Strings.Byte ZArith Lia.
From S2P Require Import Prelude External Mvcc KvKey GoHeap GoMonad Interlock InterlockExec InterlockRuns.

Local Open Scope Z_scope.

Section order.
Context `{Datums} (ctx : evalContext).

(** ** The order of the keys *)

(** The values with [P] can be compared: no error, and a total preorder. *)
Record comparable (P : Causet -> Prop) : Prop := {
  cmp_ok x y : P x -> P y -> exists c, CompareCauset (ec_sc ctx) x y = Ok c;
  cmp_flip x y c d : P x -> P y -> CompareCauset (ec_sc ctx) x y = Ok c ->
    CompareCauset (ec_sc ctx) y x = Ok d -> Z.sgn d = - Z.sgn c;
  cmp_trans x y z c d e : P x -> P y -> P z -> CompareCauset (ec_sc ctx) x y = Ok c ->
    CompareCauset (ec_sc ctx) y z = Ok d -> CompareCauset (ec_sc ctx) x z = Ok e ->
    c <= 0 -> d <= 0 -> e <= 0;
}.

(** One predicate per key column. *)
Definition good_key (Ps : list (Causet -> Prop)) (k : list Causet) : Prop :=
  Forall2 (fun (P : Causet -> Prop) v => P v) Ps k.

(** The sign of the comparison: the first column that differs decides. *)
Fixpoint key_compare (items : list bool) (k1 k2 : list Causet) : Z :=
  match items, k1, k2 with
  | desc :: items, v1 :: k1, v2 :: k2 =>
      match CompareCauset (ec_sc ctx) v1 v2 with
      | Ok c =>
          let c := Z.sgn (if desc : bool then - c else c) in
          if c =? 0 then key_compare items k1 k2 else c
      | Err _ => 0
      end
  | _, _, _ => 0
  end.

Lemma key_less_compare (before : Z -> bool) : (forall c, before (Z.sgn c) = before c) -> before 0 = false ->
  forall items Ps k1 k2, length items = length Ps -> Forall comparable Ps ->
  good_key Ps k1 -> good_key Ps k2 ->
  key_less ctx before items k1 k2 = Some (before (key_compare items k1 k2), None).
Proof.
  intros Hs H0. induction items as [|desc items IH]; intros [|P Ps] k1 k2 L C G1 G2; try done.
  - cbn. by rewrite H0.
  - apply Forall_cons in C as [CP C].
    apply Forall2_cons_inv_l in G1 as (v1 & k1' & P1 & G1 & ->).
    apply Forall2_cons_inv_l in G2 as (v2 & k2' & P2 & G2 & ->).
    destruct (cmp_ok _ CP v1 v2 P1 P2) as [c E]. cbn. rewrite E. cbn in L.
    set (c' := if desc then - c else c). rewrite <- (Hs c').
    destruct (Z.eqb_spec c' 0) as [Ec|Nc].
    + rewrite Ec. cbn. rewrite H0. apply (IH Ps); [lia|done..].
    + rewrite (proj2 (Z.eqb_neq (Z.sgn c') 0)) by lia. by destruct (before (Z.sgn c')).
Qed.

Lemma key_compare_flip : forall items Ps k1 k2, length items = length Ps -> Forall comparable Ps ->
  good_key Ps k1 -> good_key Ps k2 -> key_compare items k2 k1 = - key_compare items k1 k2.
Proof.
  induction items as [|desc items IH]; intros [|P Ps] k1 k2 L C G1 G2; try done.
  apply Forall_cons in C as [CP C].
  apply Forall2_cons_inv_l in G1 as (v1 & k1' & P1 & G1 & ->).
  apply Forall2_cons_inv_l in G2 as (v2 & k2' & P2 & G2 & ->).
  destruct (cmp_ok _ CP v1 v2 P1 P2) as [c Ec], (cmp_ok _ CP v2 v1 P2 P1) as [d Ed].
  pose proof (cmp_flip _ CP _ _ _ _ P1 P2 Ec Ed) as F. cbn. rewrite Ec, Ed. cbn in L.
  assert (Fs : Z.sgn (if desc then - d else d) = - Z.sgn (if desc then - c else c))
    by (destruct desc; lia).
  rewrite Fs. destruct (Z.eqb_spec (Z.sgn (if desc then - c else c)) 0) as [E0|E0].
  - rewrite E0. cbn. apply (IH Ps); [lia|done..].
  - by rewrite (proj2 (Z.eqb_neq _ 0)) by lia.
Qed.

(** Three comparisons: both directions of transitivity, and when it is strict. *)
Lemma compare3 P x y z c12 c23 c13 :
  comparable P -> P x -> P y -> P z -> CompareCauset (ec_sc ctx) x y = Ok c12 ->
  CompareCauset (ec_sc ctx) y z = Ok c23 -> CompareCauset (ec_sc ctx) x z = Ok c13 ->
  (c12 <= 0 -> c23 <= 0 -> c13 <= 0 /\ (c13 = 0 -> c12 = 0 /\ c23 = 0)) /\
  (0 <= c12 -> 0 <= c23 -> 0 <= c13 /\ (c13 = 0 -> c12 = 0 /\ c23 = 0)).
Proof.
  intros CP P1 P2 P3 E12 E23 E13.
  destruct (cmp_ok _ CP y x P2 P1) as [c21 E21], (cmp_ok _ CP z y P3 P2) as [c32 E32].
  destruct (cmp_ok _ CP z x P3 P1) as [c31 E31].
  assert (F1 : Z.sgn c21 = - Z.sgn c12) by (by apply (cmp_flip _ CP x y)).
  assert (F2 : Z.sgn c32 = - Z.sgn c23) by (by apply (cmp_flip _ CP y z)).
  assert (F3 : Z.sgn c31 = - Z.sgn c13) by (by apply (cmp_flip _ CP x z)).
  assert (G1 : c21 <= 0 <-> 0 <= c12) by (clear -F1; lia).
  assert (G2 : c32 <= 0 <-> 0 <= c23) by (clear -F2; lia).
  assert (G3 : c31 <= 0 <-> 0 <= c13) by (clear -F3; lia).
  pose proof (cmp_trans _ CP x y z _ _ _ P1 P2 P3 E12 E23 E13) as T.
  pose proof (cmp_trans _ CP z y x _ _ _ P3 P2 P1 E32 E21 E31) as T'.
  pose proof (cmp_trans _ CP y z x _ _ _ P2 P3 P1 E23 E31 E21) as U.
  pose proof (cmp_trans _ CP z x y _ _ _ P3 P1 P2 E31 E12 E32) as V.
  pose proof (cmp_trans _ CP y x z _ _ _ P2 P1 P3 E21 E13 E23) as U'.
  pose proof (cmp_trans _ CP x z y _ _ _ P1 P3 P2 E13 E32 E12) as V'.
  clear -G1 G2 G3 T T' U V U' V'. lia.
Qed.

Lemma key_compare_trans : forall items Ps k1 k2 k3, length items = length Ps -> Forall comparable Ps ->
  good_key Ps k1 -> good_key Ps k2 -> good_key Ps k3 ->
  key_compare items k1 k2 <= 0 -> key_compare items k2 k3 <= 0 -> key_compare items k1 k3 <= 0.
Proof.
  induction items as [|desc items IH]; intros [|P Ps] k1 k2 k3 L C G1 G2 G3; try done.
  apply Forall_cons in C as [CP C].
  apply Forall2_cons_inv_l in G1 as (v1 & k1' & P1 & G1 & ->).
  apply Forall2_cons_inv_l in G2 as (v2 & k2' & P2 & G2 & ->).
  apply Forall2_cons_inv_l in G3 as (v3 & k3' & P3 & G3 & ->).
  destruct (cmp_ok _ CP v1 v2 P1 P2) as [c12 E12], (cmp_ok _ CP v2 v3 P2 P3) as [c23 E23].
  destruct (cmp_ok _ CP v1 v3 P1 P3) as [c13 E13].
  destruct (compare3 P v1 v2 v3 _ _ _ CP P1 P2 P3 E12 E23 E13) as [T1 T2].
  cbn. rewrite E12, E23, E13. injection L as L. specialize (IH Ps k1' k2' k3' L C G1 G2 G3).
  assert (T : let s c := Z.sgn (if desc then - c else c) in
    s c12 <= 0 -> s c23 <= 0 -> s c13 <= 0 /\ (s c13 = 0 <-> s c12 = 0 /\ s c23 = 0)).
  { clear -T1 T2. destruct desc; cbn; lia. }
  cbn in T. revert IH T. clear. generalize (Z.sgn (if desc then - c12 else c12)) as s12.
  intros s12. generalize (Z.sgn (if desc then - c23 else c23)) as s23.
  intros s23. generalize (Z.sgn (if desc then - c13 else c13)) as s13. intros s13 IH T.
  destruct (Z.eqb_spec s12 0), (Z.eqb_spec s23 0), (Z.eqb_spec s13 0); lia.
Qed.

(** ** The order of the rows *)

Context (items : list bool) (Ps : list (Causet -> Prop)).
Context (Hlen : length items = length Ps) (Hcmp : Forall comparable Ps).

Definition good_row (r : sortRow) : Prop := good_key Ps (sr_key r).

(** Whether [x] comes after [y], as the heap asks. *)
Definition heap_less (x y : sortRow) : bool :=
  match key_less ctx (fun c => 0 <? c) items (sr_key x) (sr_key y) with
  | Some (b, _) => b
  | None => false
  end.

Lemma sgn_pos c : (0 <? Z.sgn c) = (0 <? c).
Proof. destruct c; done. Qed.

Lemma sgn_neg c : (Z.sgn c <? 0) = (c <? 0).
Proof. destruct c; done. Qed.

Lemma key_less_heap x y : good_row x -> good_row y ->
  key_less ctx (fun c => 0 <? c) items (sr_key x) (sr_key y) = Some (heap_less x y, None).
Proof.
  intros Gx Gy. unfold heap_less.
  by rewrite (key_less_compare (fun c => 0 <? c) sgn_pos eq_refl items Ps) by done.
Qed.

Lemma heap_less_compare x y : good_row x -> good_row y ->
  heap_less x y = (0 <? key_compare items (sr_key x) (sr_key y)).
Proof.
  intros Gx Gy. unfold heap_less.
  by rewrite (key_less_compare (fun c => 0 <? c) sgn_pos eq_refl items Ps) by done.
Qed.

Lemma sorter_less_compare x y : good_row x -> good_row y ->
  sorter_less ctx items x y = (key_compare items (sr_key x) (sr_key y) <? 0).
Proof.
  intros Gx Gy. unfold sorter_less.
  by rewrite (key_less_compare (fun c => c <? 0) sgn_neg eq_refl items Ps) by done.
Qed.

Lemma heap_sorter x y : good_row x -> good_row y -> heap_less x y = sorter_less ctx items y x.
Proof.
  intros Gx Gy. rewrite heap_less_compare, sorter_less_compare by done.
  rewrite (key_compare_flip items Ps (sr_key x) (sr_key y)) by done.
  destruct (Z.ltb_spec 0 (key_compare items (sr_key x) (sr_key y)));
    destruct (Z.ltb_spec (- key_compare items (sr_key x) (sr_key y)) 0); lia || done.
Qed.

#[local] Instance sorter_weak : StrictWeak good_row (sorter_less ctx items).
Proof.
  split.
  - intros x y Gx Gy. rewrite !sorter_less_compare by done.
    rewrite (key_compare_flip items Ps (sr_key x) (sr_key y)) by done. rewrite Z.ltb_lt, Z.ltb_ge. lia.
  - intros x y z Gx Gy Gz. rewrite !sorter_less_compare by done. rewrite !Z.ltb_ge. intros H1 H2.
    pose proof (key_compare_trans items Ps (sr_key x) (sr_key y) (sr_key z) Hlen Hcmp Gx Gy Gz) as T.
    rewrite (key_compare_flip items Ps (sr_key x) (sr_key y)) in H1 by done.
    rewrite (key_compare_flip items Ps (sr_key y) (sr_key z)) in H2 by done.
    rewrite (key_compare_flip items Ps (sr_key x) (sr_key z)) by done. lia.
Qed.

#[local] Instance heap_weak : StrictWeak good_row heap_less.
Proof.
  split.
  - intros x y Gx Gy. rewrite !heap_sorter by done. by apply sw_asym.
  - intros x y z Gx Gy Gz. rewrite !heap_sorter by done. intros H1 H2. by apply (sw_trans z y x).
Qed.
(** ** The heap *)

Context (N : Z).

Definition th_inv (t : topNHeap) : Prop :=
  th_orderByItems t = items /\ th_err t = None /\ th_totalCount t = N /\ Forall good_row (th_rows t).

#[local] Instance ctx_heap : HeapInterface topNHeap sortRow := topN_heap ctx.

#[local] Instance ctx_heap_laws : HeapLaws th_rows heap_less good_row th_inv.
Proof.
  split.
  - by intros t (_ & _ & _ & ?).
  - intros t i j x y (Ei & Ee & EN & G) Hx Hy. exists t. split; [|done].
    change (th_Less ctx i j t = Some (heap_less x y, t)). unfold th_Less. rewrite Hx, Hy, Ei. step_opt.
    rewrite key_less_heap by (by eapply (Forall_lookup_1 good_row)). done.
  - intros t i j l (Ei & Ee & EN & G) E. pose proof (swap_perm _ _ _ _ E) as P.
    exists (th_set l (th_err t) (th_heapSize t) t). unfold swap in E.
    change (th_Swap i j t = Some (th_set l (th_err t) (th_heapSize t) t) /\
      th_inv (th_set l (th_err t) (th_heapSize t) t) /\ l = l /\ th_heapSize t = th_heapSize t).
    unfold th_Swap. destruct (th_rows t !! i); [|done]. destruct (th_rows t !! j); [|done]. step_opt.
    cbn in E. injection E as <-. repeat split; try done. cbn. by rewrite P.
Qed.

(** The heap after any number of additions. *)
Definition th_ok (t : topNHeap) : Prop :=
  th_inv t /\ th_heapSize t = length (th_rows t) /\ Z.of_nat (length (th_rows t)) <= N /\
  is_heap heap_less (length (th_rows t)) (th_rows t).

Lemma th_root t x y : th_ok t -> th_rows t !! 0%nat = Some x -> y ∈ th_rows t -> heap_less y x = false.
Proof.
  intros ((_ & _ & _ & G) & _ & _ & Hh) Hx [i Hi]%list_elem_of_lookup.
  pose proof (lookup_lt_Some _ _ _ Hi).
  by apply (heap_root good_row heap_less _ _ G (Nat.le_refl _) Hh i ltac:(lia) x y).
Qed.

(** The heap with one more row behind its end. *)
Definition th_extended (event : sortRow) (t : topNHeap) : topNHeap :=
  th_set (th_rows t ++ [event]) (th_err t) (th_heapSize t) t.

Lemma th_extended_inv event t : th_inv t -> good_row event -> th_inv (th_extended event t).
Proof. intros (Ei & Ee & EN & G) Ge. repeat split; try done. apply Forall_app. auto. Qed.

Lemma th_extended_length event t : length (th_rows (th_extended event t)) = S (length (th_rows t)).
Proof. cbn. rewrite length_app. cbn. lia. Qed.

(** [tryToAddRow] swaps the top with the row behind the end, and repairs. *)
Lemma replace_root event root t :
  th_ok t -> good_row event -> th_rows t !! 0%nat = Some root ->
  exists t3 t4, th_Swap 0 (length (th_rows t)) (th_extended event t) = Some t3 /\
    heap_Fix 0 t3 = Some t4 /\ th_inv t4 /\ th_heapSize t4 = length (th_rows t) /\
    is_heap heap_less (length (th_rows t)) (th_rows t4) /\
    th_rows t ++ [event] ≡ₚ th_rows t4 /\ th_rows t4 !! length (th_rows t) = Some root.
Proof.
  intros (I & Hs & _ & Hh) Ge Er. pose proof (lookup_lt_Some _ _ _ Er) as Hpos.
  pose proof (th_extended_inv event t I Ge) as I1. pose proof (th_extended_length event t) as L1.
  destruct (swap_is_Some 0 (length (th_rows t)) (th_rows (th_extended event t))) as [l Es]; [lia..|].
  destruct (swap_law _ 0 (length (th_rows t)) l I1 Es) as (t3 & E3 & I3 & R3 & L3).
  change (Len t3) with (th_heapSize t3) in L3. change (Len (th_extended event t)) with (th_heapSize t) in L3.
  pose proof (swap_length _ _ _ _ Es) as Ll.
  destruct (heap_Fix_root th_rows heap_less good_row th_inv t3 I3) as (t4 & E4 & (I4 & L4 & P4 & K4) & H4).
  { change (Len t3) with (th_heapSize t3). rewrite R3. lia. }
  { change (Len t3) with (th_heapSize t3). rewrite L3, R3, Hs. split; [|lia].
    intros m Hm _ Hp. pose proof (parent_lt m ltac:(lia)). eapply swap_le_at; [done|].
    unfold transp. repeat case_decide; try lia. intros x y Hx Hy. cbn in Hx, Hy.
    rewrite lookup_app_l in Hx by lia. rewrite lookup_app_l in Hy by lia.
    by apply (Hh m ltac:(lia) ltac:(lia) x y). }
  change (Len t4) with (th_heapSize t4) in L4. change (Len t3) with (th_heapSize t3) in *.
  exists t3, t4. split; [done|]. split; [done|]. split; [done|]. split; [lia|]. rewrite L3, Hs in H4, K4.
  split; [done|]. split.
  - rewrite P4, R3. symmetry. apply (swap_perm _ _ _ _ Es).
  - rewrite K4 by lia. rewrite R3, (swap_lookup _ _ _ _ Es). unfold transp.
    repeat case_decide; try lia. cbn. by rewrite lookup_app_l by lia.
Qed.

(** What [tryToAddRow] drops when the heap is full: the new row, or the row that
    was on top. *)
Lemma tryToAddRow_full event t :
  th_ok t -> good_row event -> Z.of_nat (length (th_rows t)) = N ->
  exists b t' gone, tryToAddRow ctx event t = Some (b, t') /\ th_ok t' /\
    event :: th_rows t ≡ₚ gone :: th_rows t' /\
    forall y, y ∈ th_rows t' -> heap_less y gone = false.
Proof.
  intros Ok Ge Hn. pose proof Ok as ((Ei & Ee & EN & G) & Hs & _ & Hh).
  pose proof (th_extended_inv event t (proj1 Ok) Ge) as I1.
  unfold tryToAddRow. rewrite Hs, Hn, EN, Z.eqb_refl. rewrite <- Hs.
  change (th_set (th_rows t ++ [event]) (th_err t) (th_heapSize t) t) with (th_extended event t).
  assert (El : th_rows (th_extended event t) !! length (th_rows t) = Some event)
    by (by apply list_lookup_middle).
  destruct (lookup_lt_is_Some_2 (th_rows (th_extended event t)) 0) as [root Er];
    [rewrite th_extended_length; lia|].
  assert (Gr : good_row root) by (eapply Forall_lookup_1; [apply I1|done]).
  change (th_heapSize (th_extended event t)) with (th_heapSize t). rewrite Hs.
  assert (E2 : th_Less ctx 0 (length (th_rows t)) (th_extended event t) =
    Some (heap_less root event, th_extended event t)).
  { unfold th_Less. rewrite Er, El. change (th_orderByItems (th_extended event t)) with (th_orderByItems t).
    rewrite Ei. step_opt. by rewrite key_less_heap. }
  rewrite E2. step_opt. destruct (heap_less root event) eqn:Less.
  - destruct (decide (th_rows t = [])) as [Enil|Hne].
    { cbn in Er. rewrite Enil in Er. injection Er as <-. pose proof (sw_asym _ _ Ge Ge Less). congruence. }
    assert (Er' : th_rows t !! 0%nat = Some root).
    { cbn in Er. by rewrite lookup_app_l in Er by (destruct (th_rows t); [done|cbn; lia]). }
    destruct (replace_root event root t Ok Ge Er') as (t3 & t4 & E3 & E4 & I4 & S4 & H4 & P4 & Elast).
    change (th_heapSize (th_extended event t)) with (th_heapSize t). rewrite Hs, E3. step_opt. change (@heap_Fix topNHeap sortRow (topN_heap ctx)) with (@heap_Fix topNHeap sortRow ctx_heap).
    rewrite E4. step_opt. pose proof (Permutation_length P4) as L4. rewrite length_app in L4. cbn in L4.
    assert (Split : th_rows t4 = take (length (th_rows t)) (th_rows t4) ++ [root]).
    { rewrite <- (take_drop (length (th_rows t)) (th_rows t4)) at 1. f_equal.
      rewrite (drop_S _ root) by done. f_equal. apply drop_ge. lia. }
    assert (Pall : event :: th_rows t ≡ₚ root :: take (length (th_rows t)) (th_rows t4)).
    { transitivity (th_rows t ++ [event]); [apply Permutation_cons_append|].
      rewrite P4, Split at 1. symmetry. apply Permutation_cons_append. }
    eexists _, _, root. split; [done|]. rewrite S4. cbn [th_rows th_set]. split; [|split; [done|]].
    + destruct I4 as (O4 & Er4 & N4 & G4). split; [|split; [|split]]; cbn; rewrite ?length_take_le by lia.
      * repeat split; try done. cbn. by apply Forall_take.
      * done.
      * lia.
      * intros m Hm _ x y Hx Hy. pose proof (parent_lt m ltac:(lia)).
        rewrite lookup_take_lt in Hx by lia. rewrite lookup_take_lt in Hy by lia.
        by apply (H4 m ltac:(lia) ltac:(lia) x y).
    + intros y Hy. assert (Hy' : y ∈ event :: th_rows t) by (rewrite Pall; by right).
      apply elem_of_cons in Hy' as [->|Hy']; [|by apply (th_root t)]. by apply sw_asym.
  - eexists _, _, event. split; [done|]. unfold th_ok. cbn. rewrite Hs, take_app_length. split; [|split; [done|]].
    + split; [by repeat split|]. split; [done|]. split; [lia|done].
    + intros y Hy. destruct (decide (th_rows t = [])) as [Enil|Hne]; [rewrite Enil in Hy; by apply elem_of_nil in Hy|].
      assert (Er' : th_rows t !! 0%nat = Some root).
      { cbn in Er. by rewrite lookup_app_l in Er by (destruct (th_rows t); [done|cbn; lia]). }
      assert (Gy : good_row y) by (rewrite Forall_forall in G; by apply G).
      apply (sw_trans event root y); [done..|by apply (th_root t)].
Qed.
Lemma tryToAddRow_room event t :
  th_ok t -> good_row event -> Z.of_nat (length (th_rows t)) <> N ->
  exists t', tryToAddRow ctx event t = Some (true, t') /\ th_ok t' /\ event :: th_rows t ≡ₚ th_rows t'.
Proof.
  intros ((Ei & Ee & EN & G) & Hs & Hl & Hh) Ge Hn.
  unfold tryToAddRow. rewrite Hs, EN, (proj2 (Z.eqb_neq _ _)) by done.
  assert (L1 : length (th_rows (th_Push event t)) = S (length (th_rows t)))
    by (cbn; rewrite length_app; cbn; lia).
  destruct (heap_Push_spec (HI := ctx_heap) th_rows heap_less good_row th_inv event t (th_Push event t) eq_refl)
    as (t' & E & (I' & S' & P' & _) & H').
  - repeat split; try done. cbn. apply Forall_app. auto.
  - change (Len (th_Push event t)) with (S (th_heapSize t)). lia.
  - change (Len (th_Push event t)) with (S (th_heapSize t)). lia.
  - change (Len (th_Push event t)) with (S (th_heapSize t)). rewrite Hs.
    intros j Hj _ x y Hx Hy. pose proof (parent_lt j ltac:(lia)). cbn in Hx, Hy.
    rewrite lookup_app_l in Hx by lia. rewrite lookup_app_l in Hy by lia.
    by apply (Hh j ltac:(lia) ltac:(lia) x y).
  - change (@heap_Push topNHeap sortRow (topN_heap ctx)) with (@heap_Push topNHeap sortRow ctx_heap).
    rewrite E. step_opt. exists t'. split; [done|].
    change (Len (th_Push event t)) with (S (th_heapSize t)) in *. change (Len t') with (th_heapSize t') in S'.
    pose proof (Permutation_length P') as L'. split.
    + split; [done|]. rewrite S', L', L1, Hs. split; [done|]. split; [lia|]. by rewrite <- Hs.
    + rewrite P'. cbn. apply Permutation_cons_append.
Qed.

(** The heap [t] holds the first rows of [rows]. *)
Definition top_rows (rows : list sortRow) (t : topNHeap) : Prop :=
  exists gone, rows ≡ₚ th_rows t ++ gone /\
    forall d, d ∈ gone -> Z.of_nat (length (th_rows t)) = N /\
      forall y, y ∈ th_rows t -> heap_less y d = false.

Lemma tryToAddRow_ok event t rows :
  th_ok t -> Forall good_row rows -> good_row event -> top_rows rows t ->
  exists b t', tryToAddRow ctx event t = Some (b, t') /\ th_ok t' /\ top_rows (rows ++ [event]) t'.
Proof.
  intros Ok Gr Ge (gone & P & T). destruct (decide (Z.of_nat (length (th_rows t)) = N)) as [Hn|Hn].
  - destruct (tryToAddRow_full event t Ok Ge Hn) as (b & t' & g & E & Ok' & P' & T').
    exists b, t'. split; [done|]. split; [done|]. exists (g :: gone).
    pose proof (Permutation_length P') as L'. cbn in L'. split.
    { rewrite <- Permutation_cons_append, P, app_comm_cons, P'. cbn. apply Permutation_middle. }
    assert (Hg : good_row g).
    { assert (Hi : g ∈ event :: th_rows t) by (rewrite P'; by left).
      apply elem_of_cons in Hi as [->|Hi]; [done|]. rewrite Forall_forall in Gr. apply Gr.
      rewrite P. apply elem_of_app. by left. }
    intros d [->|Hd]%elem_of_cons; [split; [lia|done]|]. split; [lia|]. intros y Hy.
    destruct (T d Hd) as [_ Td].
    assert (Hi : g ∈ event :: th_rows t) by (rewrite P'; by left).
    apply elem_of_cons in Hi as [->|Hi].
    { apply Td. apply Permutation_cons_inv in P'. by rewrite P'. }
    rewrite Forall_forall in Gr. destruct Ok' as ((_ & _ & _ & G') & _). rewrite Forall_forall in G'.
    apply (sw_trans d g y); [|done|by apply G'|by apply Td|by apply T'].
    apply Gr. rewrite P. apply elem_of_app. by right.
  - destruct (tryToAddRow_room event t Ok Ge Hn) as (t' & E & Ok' & P').
    exists true, t'. split; [done|]. split; [done|]. exists gone. split.
    { by rewrite <- Permutation_cons_append, P, app_comm_cons, P'. }
    intros d Hd. by destruct (T d Hd).
Qed.
End order.

Section yields.
Context `{Datums} `{HC : HandleCodec} `{RowCodec} `{!Expressions} `{!Aggregations} `{Sorter}
  `{!SorterLaws} `{MVCCStore}.
Context (ctx : evalContext) (st : Store).
Context (items : list bool) (Ps : list (Causet -> Prop)) (N : Z).
Context (Hlen : length items = length Ps) (Hcmp : Forall (comparable ctx) Ps).
Context (offs : list Z) (exprs : list Expression) (ev0 : list Causet).

(** The key of a row. *)
Definition row_key (value : row) : out (list Causet) :=
  match row_event ctx offs ev0 value with
  | Ret ev => match eval_all exprs ev with Ok k => Ret k | Err e => Fail e end
  | Fail e => Fail e
  | Panic => Panic
  | NoFuel => NoFuel
  end.

(** The rows that the top-N is for: their keys evaluate, to values that can be
    compared, and they have columns. *)
Definition sortable (value : row) : Prop :=
  value <> [] /\ exists k, row_key value = Ret k /\ good_key Ps k.

Definition key_of (value : row) : list Causet :=
  match row_key value with Ret k => k | _ => [] end.

Definition sort_row (value : row) : sortRow := MkSortRow (key_of value) (Some value).

Definition topN_state (t : topNHeap) (ev : list Causet) (c : nat) (x : bool) (src : executor)
    : topNExec executor := MkTopN t offs exprs ev c x (Some src).

Lemma evalTopN_ok t ev c x src value rows :
  sortable value -> Forall (good_row Ps) rows -> agree_off offs ev ev0 -> th_ok ctx items Ps N t ->
  top_rows ctx items N rows t ->
  exists t' ev', evalTopN ctx value (topN_state t ev c x src) = (Ret tt, topN_state t' ev' c x src) /\
    agree_off offs ev' ev0 /\ th_ok ctx items Ps N t' /\ top_rows ctx items N (rows ++ [sort_row value]) t'.
Proof.
  intros (Hv & k & Ek & Gk) Gr A Ok T. unfold row_key in Ek.
  pose proof (decode_row_event ctx offs ev ev0 value A) as D.
  destruct (row_event ctx offs ev0 value) as [ev1|e| |] eqn:Er; try done. destruct D as [D A1].
  destruct (eval_all exprs ev1) as [k'|e] eqn:Ev; [|done]. injection Ek as ->.
  assert (Es : sort_row value = MkSortRow k (appended value)).
  { unfold sort_row, key_of, row_key. rewrite Er, Ev. by destruct value. }
  assert (Ge : good_row Ps (sort_row value)) by (by rewrite Es).
  destruct (tryToAddRow_ok ctx items Ps Hlen Hcmp N (sort_row value) t rows Ok Gr Ge T)
    as (b & t' & E & Ok' & T').
  exists t', ev1. split; [|done]. rewrite Es in E.
  unfold evalTopN, topN_state. step_exec. cbn. rewrite D. cbn. rewrite Ev. step_exec. cbn. rewrite E. cbn.
  destruct Ok' as ((_ & -> & _) & _). done.
Qed.
(** The heap after the rows are sorted. *)
Definition sorted_heap (t : topNHeap) : topNHeap :=
  th_set (sort_Sort (sorter_less ctx (th_orderByItems t)) (th_rows t)) (th_err t) (th_heapSize t) t.

Lemma topN_loop_row t ev c x src src' value rows :
  steps ctx st src (Ret (Some value)) src' ->
  sortable value -> Forall (good_row Ps) rows -> agree_off offs ev ev0 -> th_ok ctx items Ps N t ->
  top_rows ctx items N rows t ->
  exists t' ev', agree_off offs ev' ev0 /\ th_ok ctx items Ps N t' /\
    top_rows ctx items N (rows ++ [sort_row value]) t' /\
    forall o e', loop_steps ctx st (topN_loop ctx) (topN_state t' ev' c x src') o e' ->
      loop_steps ctx st (topN_loop ctx) (topN_state t ev c x src) o e'.
Proof.
  intros S Hv Gr A Ok T. destruct (evalTopN_ok t ev c x src' value rows Hv Gr A Ok T)
    as (t' & ev' & E & A' & Ok' & T').
  exists t', ev'. split; [done|]. split; [done|]. split; [done|]. intros o e' [f1 L].
  destruct (on_src_steps ctx st tn_src tn_set_src (topN_state t ev c x src) src _ src' eq_refl S) as [f0 Es].
  exists (1 + f0 + f1)%nat. intros f [|g] Hf Hg; [lia|]. cbn [topN_loop].
  erewrite bind_Ret by (apply Es; lia). change (tn_set_src (Some src') (topN_state t ev c x src)) with
    (topN_state t ev c x src'). cbn beta iota. erewrite bind_Ret by apply E. apply L; lia.
Qed.

Lemma topN_loop_stop t ev c x src src' er :
  steps ctx st src (match er with None => Ret None | Some e => Fail e end) src' ->
  loop_steps ctx st (topN_loop ctx) (topN_state t ev c x src)
    (match er with None => Ret tt | Some e => Fail e end)
    (topN_state (match er with None => sorted_heap t | Some _ => t end) ev c x src').
Proof.
  intros S.
  destruct (on_src_steps ctx st tn_src tn_set_src (topN_state t ev c x src) src _ src' eq_refl S) as [f0 Es].
  exists (1 + f0)%nat. intros f [|g] Hf Hg; [lia|]. cbn [topN_loop]. destruct er as [e|].
  - by erewrite bind_Fail by (apply Es; lia).
  - by erewrite bind_Ret by (apply Es; lia).
Qed.

Lemma topN_loop_ok src rows er :
  yields ctx st src rows er -> Forall sortable rows ->
  forall t ev c x rows0, Forall (good_row Ps) rows0 -> agree_off offs ev ev0 -> th_ok ctx items Ps N t ->
  top_rows ctx items N rows0 t ->
  exists t' ev' src', th_ok ctx items Ps N t' /\ top_rows ctx items N (rows0 ++ (sort_row <$> rows)) t' /\
    loop_steps ctx st (topN_loop ctx) (topN_state t ev c x src)
      (match er with None => Ret tt | Some e => Fail e end)
      (topN_state (match er with None => sorted_heap t' | Some _ => t' end) ev' c x src').
Proof.
  intros Y. induction Y as [src src' S|src src' er S|src src' r rows er S Y IH];
    intros F t ev c x rows0 G A Ok T.
  - exists t, ev, src'. rewrite app_nil_r. split; [done|]. split; [done|].
    by apply (topN_loop_stop t ev c x src src' None).
  - exists t, ev, src'. rewrite app_nil_r. split; [done|]. split; [done|].
    by apply (topN_loop_stop t ev c x src src' (Some er)).
  - apply Forall_cons in F as [Fr F].
    destruct (topN_loop_row t ev c x src src' r rows0 S Fr G A Ok T) as (t1 & ev1 & A1 & Ok1 & T1 & L).
    assert (G1 : Forall (good_row Ps) (rows0 ++ [sort_row r])).
    { apply Forall_app. split; [done|]. constructor; [|done]. destruct Fr as (_ & k & Ek & Gk).
      unfold good_row, sort_row, key_of. cbn. by rewrite Ek. }
    destruct (IH F t1 ev1 c x _ G1 A1 Ok1 T1) as (t' & ev' & src1 & Ok' & T' & L').
    exists t', ev', src1. split; [done|]. split; [|by apply L].
    rewrite fmap_cons. by rewrite <- app_assoc in T'.
Qed.

(** After the loop the rows of the heap are given one after the other. *)
Lemma topN_emits t ev src : forall vs c, drop c (th_rows t) = sort_row <$> vs ->
  yields ctx st (XTopN (topN_state t ev c true src)) vs None.
Proof.
  induction vs as [|v vs IH]; intros c E.
  - eapply yields_end. exists 1%nat. intros [|f] Hf; [lia|]. cbn [Next]. unfold wrap, topN_Next. step_exec. cbn.
    rewrite (proj2 (lookup_ge_None _ _)); [done|]. rewrite fmap_nil in E.
    pose proof (f_equal length E) as L. rewrite length_drop in L. cbn in L. lia.
  - assert (Ec : th_rows t !! c = Some (sort_row v)).
    { rewrite <- (Nat.add_0_r c), <- lookup_drop, E. done. }
    eapply (yields_row _ _ _ (XTopN (topN_state t ev (S c) true src))).
    + exists 1%nat. intros [|f] Hf; [lia|]. cbn [Next]. unfold wrap, topN_Next. step_exec. cbn. by rewrite Ec.
    + apply IH. rewrite (drop_S _ _ _ Ec) in E. by injection E.
Qed.

(** The executor as it is built. *)
Definition new_topN (src : executor) : executor :=
  XTopN (topN_state (MkTopNHeap items [] None N 0) ev0 0 false src).

(** [x] comes strictly before [y]. *)
Definition before (x y : row) : Prop := sorter_less ctx items (sort_row x) (sort_row y) = true.

#[export] Instance before_dec x y : Decision (before x y).
Proof. unfold before. apply _. Defined.

Lemma sortable_good value : sortable value -> good_row Ps (sort_row value).
Proof. intros (_ & k & Ek & Gk). unfold good_row, sort_row, key_of. cbn. by rewrite Ek. Qed.

Lemma new_heap_ok : 0 <= N ->
  th_ok ctx items Ps N (MkTopNHeap items [] None N 0) /\
  top_rows ctx items N [] (MkTopNHeap items [] None N 0).
Proof.
  intros HN. split.
  - split; [by repeat split|]. split; [done|]. split; [cbn; lia|]. intros j Hj. cbn in Hj. lia.
  - exists []. split; [done|]. by intros d []%elem_of_nil.
Qed.

Lemma topN_start src o e' :
  loop_steps ctx st (topN_loop ctx) (topN_state (MkTopNHeap items [] None N 0) ev0 0 false src) o e' ->
  exists f0, forall f, (f0 <= f)%nat -> Next ctx st f (new_topN src) =
    match o with
    | Ret _ => Next ctx st f (XTopN (tn_set_executed e'))
    | Fail e => (Fail e, XTopN e')
    | Panic => (Panic, XTopN e')
    | NoFuel => (NoFuel, XTopN e')
    end.
Proof.
  intros [f0 L]. exists (1 + f0)%nat. intros [|f] Hf; [lia|]. cbn [Next new_topN]. unfold wrap, topN_Next.
  step_exec. cbn [topN_state tn_executed]. unfold topN_state in L. rewrite L by lia. by destruct o.
Qed.

Lemma topN_yields_end src rows :
  0 <= N -> yields ctx st src rows None -> Forall sortable rows ->
  exists top rest, yields ctx st (new_topN src) top None /\ rows ≡ₚ top ++ rest /\
    length top = Nat.min (Z.to_nat N) (length rows) /\
    StronglySorted (fun x y => ~ before y x) top /\
    forall x y, x ∈ top -> y ∈ rest -> ~ before y x.
Proof.
  intros HN Y F. set (t0 := MkTopNHeap items [] None N 0).
  destruct (topN_loop_ok src rows None Y F t0 ev0 0 false []) as (t' & ev' & src' & Ok & T & L).
  { done. }
  { done. }
  { by apply new_heap_ok. }
  { by apply new_heap_ok. }
  destruct T as (gone & P & Tg). cbn [app] in P.
  pose proof Ok as ((Ei & _ & EN & G) & _ & Hl & _).
  (* the rows of the heap are rows of the source *)
  pose proof (sort_perm (sorter_less ctx items) (th_rows t')) as Ps'.
  assert (P' : sort_Sort (sorter_less ctx items) (th_rows t') ++ gone ≡ₚ map sort_row rows) by (by rewrite Ps'; symmetry).
  apply Permutation_map_inv in P' as (l3 & E3 & P3).
  symmetry in E3. apply map_eq_app in E3 as (top & rest & -> & Et & Er).
  exists top, rest. split; [|split; [done|split; [|split]]].
  - destruct (topN_start src (Ret tt) _ L) as [f0 St].
    assert (Y' : yields ctx st (XTopN (topN_state (sorted_heap t') ev' 0 true src')) top None).
    { apply topN_emits. cbn. by rewrite Ei, <- Et. }
    inversion Y' as [? e1 [f1 S1]| |? e1 r rows' ? [f1 S1] Y1]; subst.
    + eapply yields_end. exists (f0 + f1)%nat. intros f Hf. rewrite St by lia. apply S1. lia.
    + eapply yields_row; [|exact Y1]. exists (f0 + f1)%nat. intros f Hf. rewrite St by lia. apply S1. lia.
  - pose proof (Permutation_length P) as LP. rewrite length_fmap, length_app in LP.
    pose proof (Permutation_length Ps') as LS. rewrite <- Et, length_map in LS. rewrite LS.
    destruct gone as [|g gone]; [cbn in LP; lia|]. destruct (Tg g) as [Lg _]; [by left|]. cbn in LP. lia.
  - pose proof (sort_sorted (good_row Ps) (sorter_less ctx items) (th_rows t')
      (sorter_weak ctx items Ps Hlen Hcmp) G) as Ss. rewrite <- Et in Ss. clear -Ss.
    induction top as [|x top IH]; [constructor|]. cbn in Ss. apply StronglySorted_inv in Ss as [Ss Fx].
    constructor; [by apply IH|]. apply Forall_map in Fx. eapply Forall_impl; [exact Fx|].
    intros y Hy B. unfold before in B. cbn in Hy. congruence.
  - intros x y Hx Hy B. destruct (Tg (sort_row y)) as [_ Ty].
    { rewrite <- Er. by apply (list_elem_of_fmap_2 sort_row). }
    assert (Hx' : sort_row x ∈ th_rows t').
    { rewrite <- Ps', <- Et. by apply (list_elem_of_fmap_2 sort_row). }
    specialize (Ty _ Hx'). rewrite (heap_sorter ctx items Ps Hlen Hcmp) in Ty; [unfold before in B; congruence|..];
      apply sortable_good; rewrite Forall_forall in F; apply F; rewrite P3; apply elem_of_app; auto.
Qed.

Lemma topN_yields_fail src rows er :
  0 <= N -> yields ctx st src rows (Some er) -> Forall sortable rows ->
  yields ctx st (new_topN src) [] (Some er).
Proof.
  intros HN Y F. set (t0 := MkTopNHeap items [] None N 0).
  destruct (topN_loop_ok src rows (Some er) Y F t0 ev0 0 false []) as (t' & ev' & src' & Ok & T & L).
  { done. }
  { done. }
  { by apply new_heap_ok. }
  { by apply new_heap_ok. }
  destruct (topN_start src (Fail er) _ L) as [f0 St]. eapply yields_fail. exists f0. exact St.
Qed.
End yields.
