(* ===== verification/InterlockAgg.v ===== *)
(** * What an aggregation yields (mockeinsteindb/aggregate.go)

    A hash aggregation yields one row per group, in the order in which the
    groups first appear in the rows of its source: the partial results of its
    aggregates after the rows of the group, one after the other, and the
    group-by columns of the first of them. *)

From stdpp Require Import base gmap list option strings.
From Stdlib Require Import Strings.Byte ZArith Lia.
From S2P Require Import Prelude External Mvcc KvKey GoHeap GoMonad Interlock InterlockExec InterlockRuns.

Local Open Scope Z_scope.

Section agg.
Context `{Datums} `{HC : HandleCodec} `{RowCodec} `{!Expressions} `{!Aggregations} `{Sorter} `{MVCCStore}.
Context (ctx : evalContext) (st : Store).
Context (aggs : list Aggregation) (exprs : list Expression) (offs : list Z) (ev0 : list Causet).

(** The decoded columns of a row and its encoded group-by columns. *)
Definition row_group (value : row) : option (list Causet * list bytes) :=
  match row_event ctx offs ev0 value with
  | Ret ev => match group_columns ctx exprs ev with Ok cols => Some (ev, cols) | Err _ => None end
  | _ => None
  end.

Definition event_of (value : row) : list Causet := default [] (fst <$> row_group value).
Definition columns_of (value : row) : list bytes := default [] (snd <$> row_group value).
Definition key_of_row (value : row) : bytes := concat (columns_of value).

(** The keys of the groups, in the order of their first rows. *)
Definition group_keys (rows : list row) : list bytes :=
  foldl (fun keys r => if decide (key_of_row r ∈ keys) then keys else keys ++ [key_of_row r]) [] rows.

(** The group-by columns of the first row of a group. *)
Fixpoint first_columns (rows : list row) (key : bytes) : row :=
  match rows with
  | [] => []
  | r :: rows => if decide (key_of_row r = key) then Some <$> columns_of r else first_columns rows key
  end.

(** The contexts of the aggregates after the rows of a group; [None] if an
    aggregate fails. *)
Definition update_all (ctxs : option (list AggEvaluateContext)) (value : row) : option (list AggEvaluateContext) :=
  cs ← ctxs;
  match update_contexts ctx aggs cs (event_of value) with
  | (Ret _, cs) => Some cs
  | _ => None
  end.

Definition group_contexts (rows : list row) (key : bytes) : option (list AggEvaluateContext) :=
  foldl update_all (Some (new_contexts ctx aggs)) (filter (fun r => key_of_row r = key) rows).

(** The row of a group, if its results can be encoded. *)
Definition group_row (rows : list row) (key : bytes) : option row :=
  cs ← group_contexts rows key;
  match partial_results ctx aggs cs with
  | Ret value => Some ((Some <$> value) ++ first_columns rows key)
  | _ => None
  end.

Lemma group_keys_snoc rows r :
  group_keys (rows ++ [r]) =
    if decide (key_of_row r ∈ group_keys rows) then group_keys rows else group_keys rows ++ [key_of_row r].
Proof. unfold group_keys. by rewrite foldl_app. Qed.

Lemma elem_of_group_keys rows key : key ∈ group_keys rows <-> exists r, r ∈ rows /\ key_of_row r = key.
Proof.
  induction rows as [|r rows IH] using rev_ind.
  - split; [by inversion 1|]. by intros (r & []%elem_of_nil & _).
  - rewrite group_keys_snoc. split.
    + intros Hk. assert (key ∈ group_keys rows \/ key = key_of_row r) as [Hk'| ->].
      { case_decide; [by left|]. apply elem_of_app in Hk as [|Hk]; [by left|].
        apply list_elem_of_singleton in Hk. by right. }
      * apply IH in Hk' as (r' & Hr & <-). exists r'. rewrite elem_of_app. auto.
      * exists r. split; [|done]. apply elem_of_app. right. by left.
    + intros (r' & Hr & E). apply elem_of_app in Hr as [Hr|Hr].
      * assert (key ∈ group_keys rows) by (apply IH; eauto). case_decide; [done|]. apply elem_of_app. by left.
      * apply list_elem_of_singleton in Hr as ->. rewrite E. case_decide; [done|]. apply elem_of_app. right. by left.
Qed.

Lemma group_keys_NoDup rows : NoDup (group_keys rows).
Proof.
  induction rows as [|r rows IH] using rev_ind; [constructor|]. rewrite group_keys_snoc. case_decide; [done|].
  apply NoDup_app. split; [done|]. split; [|apply NoDup_singleton].
  intros k Hk ->%list_elem_of_singleton. done.
Qed.

Lemma first_columns_app rows r key : key ∈ group_keys rows ->
  first_columns (rows ++ [r]) key = first_columns rows key.
Proof.
  rewrite elem_of_group_keys. intros (r' & Hr & E). induction rows as [|x rows IH]; [by inversion Hr|].
  cbn [app first_columns]. case_decide; [done|]. apply IH. apply elem_of_cons in Hr as [->|]; done.
Qed.

Lemma first_columns_new rows r : key_of_row r ∉ group_keys rows ->
  first_columns (rows ++ [r]) (key_of_row r) = Some <$> columns_of r.
Proof.
  rewrite elem_of_group_keys. intros N. induction rows as [|x rows IH]; cbn [app first_columns].
  - by rewrite decide_True.
  - rewrite decide_False; [apply IH; intros (y & Hy & E); apply N; exists y; split; [by right|done]|].
    intros E. apply N. exists x. split; [by left|done].
Qed.

Lemma group_contexts_snoc rows r key :
  group_contexts (rows ++ [r]) key =
    if decide (key_of_row r = key) then update_all (group_contexts rows key) r else group_contexts rows key.
Proof.
  unfold group_contexts. rewrite filter_app, filter_cons, filter_nil. case_decide.
  - by rewrite foldl_app.
  - by rewrite app_nil_r.
Qed.

(** A group without rows has new contexts. *)
Lemma group_contexts_new rows key : key ∉ group_keys rows ->
  group_contexts rows key = Some (new_contexts ctx aggs).
Proof.
  rewrite elem_of_group_keys. intros N. unfold group_contexts. rewrite list_filter_none; [done|].
  intros r Hr E. apply N. eauto.
Qed.

Lemma group_contexts_prefix rows rest key cs :
  group_contexts (rows ++ rest) key = Some cs -> exists cs', group_contexts rows key = Some cs'.
Proof.
  revert cs. induction rest as [|r rest IH] using rev_ind; intros cs.
  - rewrite app_nil_r. eauto.
  - rewrite app_assoc, group_contexts_snoc. case_decide; [|by apply IH].
    destruct (group_contexts (rows ++ rest) key) as [cs'|]; [by intros _; eapply IH|done].
Qed.

(** ** The loop *)

Definition agg_state (m : gmap bytes (list AggEvaluateContext)) (ev : list Causet) (rows : list row) (x : bool)
    (i : nat) (src : executor) : hashAggExec executor :=
  MkHashAgg aggs m exprs offs ev (list_to_set (group_keys rows)) (group_keys rows)
    (first_columns rows <$> group_keys rows) x i (Some src).

(** The contexts of the groups of the rows. *)
Definition contexts_ok (m : gmap bytes (list AggEvaluateContext)) (rows : list row) : Prop :=
  forall key, m !! key = if decide (key ∈ group_keys rows) then group_contexts rows key else None.

Lemma group_rows_snoc rows r :
  first_columns (rows ++ [r]) <$> group_keys (rows ++ [r]) =
    if decide (key_of_row r ∈ group_keys rows) then first_columns rows <$> group_keys rows
    else (first_columns rows <$> group_keys rows) ++ [Some <$> columns_of r].
Proof.
  rewrite group_keys_snoc.
  assert (E : first_columns (rows ++ [r]) <$> group_keys rows = first_columns rows <$> group_keys rows).
  { apply list_fmap_ext. intros i k Hk. apply first_columns_app. by eapply list_elem_of_lookup_2. }
  case_decide as D; [done|]. by rewrite fmap_app, E, fmap_cons, fmap_nil, first_columns_new.
Qed.

Lemma contexts_ok_snoc m rows r cs cs' :
  contexts_ok m rows -> group_contexts rows (key_of_row r) = Some cs ->
  update_contexts ctx aggs cs (event_of r) = (Ret tt, cs') ->
  contexts_ok (<[key_of_row r := cs']> m) (rows ++ [r]).
Proof.
  intros C G U key. rewrite group_contexts_snoc. destruct (decide (key_of_row r = key)) as [<-|Nk].
  - rewrite lookup_insert_eq, decide_True.
    + rewrite G. unfold update_all. step_opt. by rewrite U.
    + apply elem_of_group_keys. exists r. split; [|done]. apply elem_of_app. right. by left.
  - rewrite lookup_insert_ne, C by done. rewrite group_keys_snoc. destruct (decide (key_of_row r ∈ group_keys rows)); [done|].
    apply decide_ext. rewrite elem_of_app, list_elem_of_singleton. naive_solver.
Qed.

Lemma getContexts_ok m ev rows x i src key cs :
  contexts_ok m rows -> group_contexts rows key = Some cs ->
  exists m', getContexts ctx key (agg_state m ev rows x i src) = (Ret cs, agg_state m' ev rows x i src) /\
    forall cs', <[key := cs']> m' = <[key := cs']> m.
Proof.
  intros C G. unfold getContexts. erewrite bind_Ret by done. cbn [agg_state ha_aggCtxsMap]. rewrite C.
  destruct (decide (key ∈ group_keys rows)) as [D|D].
  - rewrite G. by exists m.
  - rewrite group_contexts_new in G by done. injection G as <-.
    exists (<[key := new_contexts ctx aggs]> m). split; [done|]. intros cs'. apply insert_insert_eq.
Qed.

(** One more row: with a new group the keys, their rows and the set grow. *)
Lemma add_group_ok m ev rows x i src r :
  (if decide (key_of_row r ∈ (list_to_set (group_keys rows) : gset bytes)) then ret tt
   else modify (ha_add_group (key_of_row r) (Some <$> columns_of r))) (agg_state m ev rows x i src)
  = (Ret tt, agg_state m ev (rows ++ [r]) x i src).
Proof.
  unfold agg_state. rewrite group_rows_snoc, group_keys_snoc.
  destruct (decide (key_of_row r ∈ group_keys rows)) as [D|D].
  - rewrite decide_True by by apply elem_of_list_to_set. done.
  - rewrite decide_False by by rewrite elem_of_list_to_set. unfold modify. do 2 f_equal.
    unfold ha_add_group. cbn. f_equal. rewrite list_to_set_app_L. set_solver.
Qed.

Lemma ha_aggregate_ok m ev rows x i src r cs' :
  is_Some (row_group r) -> agree_off offs ev ev0 -> contexts_ok m rows ->
  group_contexts (rows ++ [r]) (key_of_row r) = Some cs' ->
  exists m' ev', ha_aggregate ctx r (agg_state m ev rows x i src) = (Ret tt, agg_state m' ev' (rows ++ [r]) x i src) /\
    agree_off offs ev' ev0 /\ contexts_ok m' (rows ++ [r]).
Proof.
  intros [[ev1 cols] Rg] A C G'.
  rewrite group_contexts_snoc, decide_True in G' by done.
  destruct (group_contexts rows (key_of_row r)) as [cs|] eqn:G; [|done].
  assert (Ee : event_of r = ev1) by (unfold event_of; by rewrite Rg).
  assert (Ec : columns_of r = cols) by (unfold columns_of; by rewrite Rg).
  unfold update_all in G'. cbn in G'. rewrite Ee in G'.
  destruct (update_contexts ctx aggs cs ev1) as [o cs1] eqn:U.
  destruct o as [[]| | |]; try done. injection G' as ->.
  unfold row_group in Rg. pose proof (decode_row_event ctx offs ev ev0 r A) as D.
  destruct (row_event ctx offs ev0 r) as [ev2| | |]; try done.
  destruct (group_columns ctx exprs ev2) as [cols2|] eqn:Gc; [|done]. injection Rg as -> ->.
  destruct D as [D A1].
  (* the contexts are looked up after the group was added: the map is the same *)
  assert (Gx : exists m', getContexts ctx (key_of_row r) (agg_state m ev1 (rows ++ [r]) x i src) =
     (Ret cs, agg_state m' ev1 (rows ++ [r]) x i src) /\ forall c, <[key_of_row r := c]> m' = <[key_of_row r := c]> m).
  { destruct (getContexts_ok m ev1 rows x i src (key_of_row r) cs C G) as (m' & E & I). exists m'. split; [|done].
    revert E. unfold getContexts. step_exec. cbn [agg_state ha_aggCtxsMap].
    destruct (m !! key_of_row r) as [c|]; cbn; unfold agg_state; by intros [= -> ->]. }
  destruct Gx as (m' & Eg & I). exists (<[key_of_row r := cs']> m), ev1.
  split; [|split; [done|]; by eapply contexts_ok_snoc; [| |rewrite Ee]].
  unfold ha_aggregate. erewrite bind_Ret by done.
  erewrite bind_Ret by (unfold zoom; cbn [agg_state ha_event ha_relatedDefCausOffsets]; rewrite D; done).
  erewrite bind_Ret by done. erewrite bind_Ret.
  2:{ unfold getGroupKey. cbn [agg_state ha_set_event ha_groupByExprs ha_event]. rewrite Gc. done. }
  replace (concat cols) with (key_of_row r) by (unfold key_of_row; by rewrite Ec). rewrite <- Ec.
  erewrite bind_Ret by apply (add_group_ok m ev1 rows x i src r).
  erewrite bind_Ret by exact Eg. erewrite bind_Ret by done. cbn [agg_state ha_aggExprs ha_event].
  rewrite U. erewrite bind_Ret by done. unfold lift_out. cbn. by rewrite <- I.
Qed.

(** The aggregates take every row. *)
Definition aggregates (rows : list row) : Prop :=
  Forall (fun r => is_Some (row_group r)) rows /\ forall key, is_Some (group_contexts rows key).

Lemma hashAgg_loop_ok src rest er : yields ctx st src rest er ->
  forall m ev rows x i, aggregates (rows ++ rest) -> agree_off offs ev ev0 -> contexts_ok m rows ->
  exists m' ev' src', contexts_ok m' (rows ++ rest) /\
    loop_steps ctx st (hashAgg_loop ctx) (agg_state m ev rows x i src)
      (match er with None => Ret tt | Some e => Fail e end) (agg_state m' ev' (rows ++ rest) x i src').
Proof.
  intros Y. induction Y as [src src' S|src src' er S|src src' r rest er S Y IH]; intros m ev rows x i Ag A C.
  - exists m, ev, src'. rewrite app_nil_r. split; [done|].
    destruct (on_src_steps ctx st ha_src ha_set_src (agg_state m ev rows x i src) src _ src' eq_refl S) as [f0 Es].
    exists (1 + f0)%nat. intros f [|g] Hf Hg; [lia|]. cbn [hashAgg_loop]. by erewrite bind_Ret by (apply Es; lia).
  - exists m, ev, src'. rewrite app_nil_r. split; [done|].
    destruct (on_src_steps ctx st ha_src ha_set_src (agg_state m ev rows x i src) src _ src' eq_refl S) as [f0 Es].
    exists (1 + f0)%nat. intros f [|g] Hf Hg; [lia|]. cbn [hashAgg_loop]. by erewrite bind_Fail by (apply Es; lia).
  - replace (rows ++ r :: rest) with ((rows ++ [r]) ++ rest) in * by by rewrite <- app_assoc.
    destruct Ag as [F G]. destruct (G (key_of_row r)) as [cs Gr].
    apply group_contexts_prefix in Gr as [cs' Gr].
    assert (Rg : is_Some (row_group r)).
    { rewrite Forall_forall in F. apply F. rewrite !elem_of_app. left. right. by left. }
    destruct (ha_aggregate_ok m ev rows x i src' r cs' Rg A C Gr) as (m1 & ev1 & E1 & A1 & C1).
    destruct (IH m1 ev1 (rows ++ [r]) x i (conj F G) A1 C1) as (m' & ev' & src1 & C' & [f1 L]).
    exists m', ev', src1. split; [done|].
    destruct (on_src_steps ctx st ha_src ha_set_src (agg_state m ev rows x i src) src _ src' eq_refl S) as [f0 Es].
    exists (1 + f0 + f1)%nat. intros f [|g] Hf Hg; [lia|]. cbn [hashAgg_loop].
    erewrite bind_Ret by (apply Es; lia). cbn beta iota. erewrite bind_Ret by exact E1. apply L; lia.
Qed.

(** After the loop the rows of the groups are given one after the other. *)
Lemma hashAgg_emits m ev rows src : aggregates rows -> contexts_ok m rows ->
  (forall key, key ∈ group_keys rows -> is_Some (group_row rows key)) ->
  forall keys i vs, drop i (group_keys rows) = keys ->
  Forall2 (fun key v => group_row rows key = Some v) keys vs ->
  yields ctx st (XHashAgg (agg_state m ev rows true i src)) vs None.
Proof.
  intros Ag C R. induction keys as [|key keys IH]; intros i vs Ek F.
  - apply Forall2_nil_inv_l in F as ->. eapply yields_end. exists 1%nat. intros [|f] Hf; [lia|].
    cbn [Next]. unfold wrap, hashAgg_Next. step_exec. cbn [agg_state ha_executed]. unfold ha_emit. step_exec.
    cbn [agg_state ha_groups ha_currGroupIdx]. rewrite decide_True; [done|].
    rewrite size_list_to_set by apply group_keys_NoDup. pose proof (f_equal length Ek) as L.
    rewrite length_drop in L. cbn in L. lia.
  - apply Forall2_cons_inv_l in F as (v & vs' & Gv & F & ->).
    assert (Hi : group_keys rows !! i = Some key).
    { rewrite <- (Nat.add_0_r i), <- lookup_drop, Ek. done. }
    assert (Ek' : drop (S i) (group_keys rows) = keys) by (rewrite (drop_S _ _ _ Hi) in Ek; congruence).
    eapply (yields_row _ _ _ (XHashAgg (agg_state m ev rows true (S i) src))); [|by apply IH].
    exists 1%nat. intros [|f] Hf; [lia|]. cbn [Next]. unfold wrap, hashAgg_Next.
    erewrite bind_Ret by done. cbn [agg_state ha_executed]. erewrite bind_Ret by done.
    unfold ha_emit. erewrite bind_Ret by done. cbn [agg_state ha_groups ha_currGroupIdx ha_groupKeys].
    rewrite decide_False.
    2:{ rewrite size_list_to_set by apply group_keys_NoDup. apply lookup_lt_Some in Hi. lia. }
    unfold group_row in Gv. destruct (group_contexts rows key) as [cs|] eqn:Gc; [|done]. cbn in Gv.
    destruct (partial_results ctx aggs cs) as [bs| | |] eqn:Pr; try done. injection Gv as <-.
    rewrite Hi. erewrite bind_Ret by done.
    assert (Gx : getContexts ctx key (agg_state m ev rows true i src) = (Ret cs, agg_state m ev rows true i src)).
    { unfold getContexts. erewrite bind_Ret by done. cbn [agg_state ha_aggCtxsMap]. rewrite C, decide_True, Gc; [done|].
      by eapply list_elem_of_lookup_2. }
    erewrite bind_Ret by exact Gx. cbn [agg_state ha_aggExprs ha_groupKeyRows]. rewrite Pr.
    erewrite bind_Ret by done. rewrite list_lookup_fmap, Hi. cbn [fmap option_fmap option_map lift_opt].
    erewrite bind_Ret by done. erewrite bind_Ret by done. done.
Qed.

(** The executor as it is built. *)
Definition new_hashAgg (src : executor) : executor := XHashAgg (agg_state ∅ ev0 [] false 0 src).

Lemma hashAgg_start src rows er : yields ctx st src rows er -> aggregates rows ->
  exists m ev src', contexts_ok m rows /\ exists f0, forall f, (f0 <= f)%nat ->
    Next ctx st f (new_hashAgg src) =
      match er with
      | None => Next ctx st f (XHashAgg (agg_state m ev rows true 0 src'))
      | Some e => (Fail e, XHashAgg (agg_state m ev rows false 0 src'))
      end.
Proof.
  intros Y Ag. destruct (hashAgg_loop_ok src rows er Y ∅ ev0 [] false 0 Ag) as (m & ev & src' & C & f0 & L).
  { done. }
  { intros key. rewrite lookup_empty, decide_False; [done|]. apply not_elem_of_nil. }
  exists m, ev, src'. split; [done|]. exists (1 + f0)%nat. intros [|f] Hf; [lia|]. cbn [Next new_hashAgg].
  unfold wrap, hashAgg_Next. step_exec. cbn [agg_state ha_executed]. unfold agg_state in L. rewrite L by lia.
  by destruct er.
Qed.

(** A hash aggregation yields the rows of the groups. *)
Lemma hashAgg_yields src rows vs : yields ctx st src rows None -> aggregates rows ->
  Forall2 (fun key v => group_row rows key = Some v) (group_keys rows) vs ->
  yields ctx st (new_hashAgg src) vs None.
Proof.
  intros Y Ag F. destruct (hashAgg_start src rows None Y Ag) as (m & ev & src' & C & f0 & St).
  assert (Y' : yields ctx st (XHashAgg (agg_state m ev rows true 0 src')) vs None).
  { eapply hashAgg_emits; [done|done| |by rewrite drop_0|done].
    intros key Hk. apply list_elem_of_lookup_1 in Hk as [i Hi].
    destruct (Forall2_lookup_l _ _ _ _ _ F Hi) as (v & _ & Gv). by exists v. }
  inversion Y' as [? e1 [f1 S1]| |? e1 r rows' ? [f1 S1] Y1]; subst.
  - eapply yields_end. exists (f0 + f1)%nat. intros f Hf. rewrite St by lia. apply S1. lia.
  - eapply yields_row; [|exact Y1]. exists (f0 + f1)%nat. intros f Hf. rewrite St by lia. apply S1. lia.
Qed.

(** An error of the source is the only result. *)
Lemma hashAgg_fails src rows er : yields ctx st src rows (Some er) -> aggregates rows ->
  yields ctx st (new_hashAgg src) [] (Some er).
Proof.
  intros Y Ag. destruct (hashAgg_start src rows (Some er) Y Ag) as (m & ev & src' & C & f0 & St).
  eapply yields_fail. exists f0. exact St.
Qed.
End agg.
