(* ===== verification/InterlockStore.v ===== *)
(** * What the executors rely on in the store

    [holds st ks] says that the reads of a store agree with the keys [ks] it
    holds; [MVCCStoreLaws] is the promise that there are such keys, and the
    store over LevelDB keeps it where its empty values are the deletions.  Then
    come the keys that are left after one of them was read, for a scan in
    either direction. *)

From stdpp Require Import base gmap list sorting option strings.
From Stdlib Require Import Strings.Byte ZArith Lia Sorted.
From S2P Require Import Prelude External Marshal Mvcc MvccOps MvccView MvccRead MvccScan MvccReverse KvKey GoHeap GoMonad Interlock InterlockExec InterlockRuns.

Local Open Scope Z_scope.

(** ** What the scans rely on *)

Section laws.
Context `{MVCCStore}.

(** The pairs of some keys, in their order. *)
Definition pairs_of (st : Store) (ts iso : Z) (rl : list Z) (ks : list bytes) : list Pair :=
  ks ≫= (fun k => pair_of k (st_Get st k ts iso rl)).

(** [ks] are the keys of the store: the scans are reads of those in range. *)
Record holds (st : Store) (ks : list bytes) : Prop := {
  hd_sorted : StronglySorted blt ks;
  hd_Scan s e limit ts iso rl :
    st_Scan st s e limit ts iso rl =
      take (Z.to_nat limit) (pairs_of st ts iso rl (filter (key_range s e) ks));
  hd_ReverseScan s e limit ts iso rl :
    st_ReverseScan st s e limit ts iso rl =
      Some (take (Z.to_nat limit) (pairs_of st ts iso rl (rev (filter (key_range s e) ks))));
  hd_absent k ts iso rl : k ∉ ks -> st_Get st k ts iso rl = Ok None;
  hd_value k ts iso rl : st_Get st k ts iso rl <> Ok (Some []);
}.
End laws.

(** What a store promises to the executors. *)
Class MVCCStoreLaws `{MVCCStore} (valid : Store -> Prop) : Prop := {
  store_keys st : valid st -> exists ks, holds st ks;
}.

(** ** The store over LevelDB *)

Section leveldb.
Context `{CodecLaws} `{LevelDBLaws} `{Kvrpcpb} `{Oracle} `{Deadlock}.

#[export] Instance leveldb_store : MVCCStore := {
  Store := MVCCLevelDB; st_Get := Get; st_Scan := Scan; st_ReverseScan := ReverseScan }.

#[export] Instance blt_antisymm : AntiSymm (=) blt.
Proof. intros x y A B. exfalso. apply (blt_irrefl x). by eapply blt_trans. Qed.

Lemma blt_sorted_NoDup l : StronglySorted blt l -> NoDup l.
Proof.
  induction 1 as [|x l _ IH F]; constructor; [|done]. intros Hx. rewrite Forall_forall in F.
  by apply (blt_irrefl x), F.
Qed.

(** The keys of a range, from all of them. *)
Lemma range_keys_filter db s e ks ks' :
  range_keys db [] [] ks -> range_keys db s e ks' -> ks' = filter (key_range s e) ks.
Proof.
  intros [S M] [S' M'].
  assert (S2 : StronglySorted blt (filter (key_range s e) ks)) by by apply StronglySorted_filter.
  apply (StronglySorted_unique blt); [done..|].
  apply NoDup_Permutation; [by apply blt_sorted_NoDup..|]. intros k.
  rewrite list_elem_of_filter, M, M'. unfold key_range. pose proof (nil_ble k). tauto.
Qed.

(** A key without a lock or a version reads as absent. *)
Lemma getValue_absent mvcc k ts iso rl :
  wf (EDB mvcc) -> ~ present (EDB mvcc) k -> getValue mvcc k ts iso rl = Ok None.
Proof.
  intros W N. destruct (getValue_read mvcc k ts iso rl W) as (vs & [_ V] & ->).
  destruct (lock_at (EDB mvcc) k) as [l|] eqn:El.
  { destruct N. by exists (ILock k l). }
  destruct vs as [|v vs]; [done|]. destruct N. exists (IVal k v). split; [|done].
  cbn. apply V. by left.
Qed.

(** On plain values a read never gives the empty value. *)
Lemma getValue_nonempty mvcc k ts iso rl :
  wf (EDB mvcc) -> plain_values (EDB mvcc) -> getValue mvcc k ts iso rl <> Ok (Some []).
Proof.
  intros W P. destruct (getValue_read mvcc k ts iso rl W) as (vs & [_ V] & ->).
  unfold read_key. destruct (read_ts _ _ _ _ _) as [ts'|er]; step_res; [|done].
  unfold read_value. destruct (find_visible ts' vs) as [v|] eqn:Ev; [|done].
  unfold find_visible in Ev. apply List.find_some in Ev as [Hv D]. apply andb_true_iff in D as [D _].
  apply list_elem_of_In, V in Hv. destruct (P _ _ _ Hv D) as [_ Pv].
  destruct (Z.eqb_spec (val_valueType v) typeDelete) as [|Nd]; [done|]. intros [= E]. auto.
Qed.

(** All the keys of a well-formed store. *)
Lemma all_keys db : wf db -> exists ks, range_keys db [] [] ks.
Proof.
  intros W. destruct (range_groups db [] [] W) as (G & _ & V).
  exists (g_key <$> G). by apply range_view_keys.
Qed.

Lemma leveldb_holds (mvcc : MVCCLevelDB) ks :
  wf (EDB mvcc) -> plain_values (EDB mvcc) -> range_keys (EDB mvcc) [] [] ks ->
  @holds leveldb_store mvcc ks.
Proof.
  intros W P K. split.
  - apply K.
  - intros s e limit ts iso rl. cbn [st_Scan leveldb_store].
    destruct (Scan_reads mvcc s e limit ts iso rl W) as (ks' & K' & ->).
    by rewrite <- (range_keys_filter _ _ _ _ _ K K').
  - intros s e limit ts iso rl. cbn [st_ReverseScan leveldb_store].
    destruct (ReverseScan_reads mvcc s e limit ts iso rl W P) as (ks' & K' & ->).
    by rewrite <- (range_keys_filter _ _ _ _ _ K K').
  - intros k ts iso rl Hk. apply getValue_absent; [done|]. intros Pk. apply Hk. apply K.
    split; [|done]. split; [apply nil_ble|by left].
  - intros k ts iso rl. by apply getValue_nonempty.
Qed.

#[export] Instance leveldb_store_laws :
  @MVCCStoreLaws leveldb_store (fun mvcc => wf (EDB mvcc) /\ plain_values (EDB mvcc)).
Proof.
  split. intros mvcc [W P]. destruct (all_keys (EDB mvcc) W) as (ks & K). exists ks. by apply leveldb_holds.
Qed.
End leveldb.

(** ** Keys in order *)

Lemma HasPrefix_refl k : HasPrefix k k = true.
Proof. induction k as [|b k IH]; [done|]. cbn [HasPrefix]. by rewrite bool_decide_eq_true_2. Qed.

Lemma Key_Next_gt k : k <b Key_Next k.
Proof.
  unfold Key_Next, blt. induction k as [|b k IH]; [done|]. cbn [app]. rewrite compare_cons.
  by rewrite N.compare_refl.
Qed.

Lemma PrefixNext_gt k : k <b PrefixNext k.
Proof.
  rewrite PrefixNext_next. pose proof (next_of_prefix k k (Nat.le_refl _)) as N.
  destruct (next_of k) as [n|]; [|apply Key_Next_gt]. by apply N, HasPrefix_refl.
Qed.

(** A scan in key order goes on from [PrefixNext] of the key it got: the next
    keys must not be before that. *)
Definition seekable (ks : list bytes) : Prop :=
  forall k q, k ∈ ks -> q ∈ ks -> k <b q -> PrefixNext k <=b q.

(** It is so for the keys of the rows of a table, which have one length. *)
Lemma same_length_seekable n ks : Forall (fun k => length k = n) ks -> seekable ks.
Proof.
  intros F k q Hk Hq L. rewrite Forall_forall in F. pose proof (F k Hk) as Lk. pose proof (F q Hq) as Lq.
  rewrite PrefixNext_next. pose proof (next_of_prefix k q ltac:(lia)) as N.
  assert (HasPrefix q k = false) as Hp.
  { apply not_true_is_false. intros Hp. assert (q = k) as ->; [|by apply blt_irrefl in L].
    clear N F Hk Hq L. subst n. revert q Lq Hp. induction k as [|b k IH]; intros [|c q] Lq Hp; try done.
    cbn [HasPrefix] in Hp. apply andb_true_iff in Hp as [Hb Hp]. apply bool_decide_eq_true in Hb as ->.
    f_equal. apply IH; [simpl in Lq; lia|done]. }
  rewrite Hp in N. destruct (next_of k) as [m|].
  - apply not_blt. intros Lm. assert (false = true); [|done]. apply N. split; [|done]. apply ble_iff. by left.
  - exfalso. assert (false = true); [|done]. apply N. split; [|done]. apply ble_iff. by left.
Qed.

Section keys.
Context `{MVCCStore}.
Context (st : Store) (ts iso : Z) (rl : list Z).

(** The key of the first pair, and what comes after it. *)
Lemma pairs_cons ks p ps : pairs_of st ts iso rl ks = p :: ps ->
  exists l1 l2, ks = l1 ++ pair_Key p :: l2 /\ pairs_of st ts iso rl l1 = [] /\
    pairs_of st ts iso rl l2 = ps.
Proof.
  unfold pairs_of. induction ks as [|k ks IH]; [done|]. cbn [mbind list_bind].
  destruct (pair_of k (st_Get st k ts iso rl)) as [|p' l] eqn:E.
  - intros Hp. destruct (IH Hp) as (l1 & l2 & -> & E1 & E2). exists (k :: l1), l2.
    split; [done|]. split; [|done]. cbn [mbind list_bind]. by rewrite E.
  - pose proof (length_pair_of k (st_Get st k ts iso rl)) as L. rewrite E in L.
    destruct l as [|]; [|simpl in L; lia]. intros Hp. injection Hp as <- <-. exists [], ks.
    split; [|done]. cbn. f_equal. destruct (st_Get st k ts iso rl) as [[v|]|e]; by inversion E.
Qed.

(** The keys left after [k], in key order. *)
Lemma keys_after lo hi ks l1 k l2 :
  StronglySorted blt ks -> filter (key_range lo hi) ks = l1 ++ k :: l2 ->
  seekable (l1 ++ k :: l2) -> filter (key_range (PrefixNext k) hi) ks = l2.
Proof.
  intros S E Sk. pose proof (StronglySorted_filter blt (key_range lo hi) ks S) as S'. rewrite E in S'.
  assert (Hk : k ∈ filter (key_range lo hi) ks) by (rewrite E; apply elem_of_app; right; left).
  apply list_elem_of_filter in Hk as [[Lk _] _].
  assert (filter (key_range (PrefixNext k) hi) ks = filter (fun q => PrefixNext k <=b q) (l1 ++ k :: l2)) as ->.
  { rewrite <- E, list_filter_filter. apply list_filter_iff. intros q. unfold key_range.
    split; [|tauto]. intros [A B]. split; [done|]. split; [|done].
    eapply ble_trans; [exact Lk|]. eapply ble_trans; [|exact A]. apply ble_iff. left. apply PrefixNext_gt. }
  apply StronglySorted_app in S' as (C & S1 & S2). apply StronglySorted_inv in S2 as [S2 F].
  rewrite Forall_forall in F.
  rewrite filter_app, list_filter_none, filter_cons, decide_False.
  - cbn. apply list_filter_all. intros q Hq. apply Sk; [..|by apply F].
    + apply elem_of_app. right. by left.
    + apply elem_of_app. right. by right.
  - apply not_ble. apply PrefixNext_gt.
  - intros q Hq. apply not_ble. eapply blt_trans; [|apply PrefixNext_gt].
    apply C; [done|by left].
Qed.

(** The keys left after [k], in reverse. *)
Lemma keys_before lo hi ks l1 k l2 :
  StronglySorted blt ks -> k <> [] -> rev (filter (key_range lo hi) ks) = l1 ++ k :: l2 ->
  rev (filter (key_range lo k) ks) = l2.
Proof.
  intros S Nk E. pose proof (StronglySorted_rev blt _ (StronglySorted_filter blt (key_range lo hi) ks S)) as S'.
  rewrite E in S'.
  assert (Hk : k ∈ rev (filter (key_range lo hi) ks)) by (rewrite E; apply elem_of_app; right; left).
  rewrite elem_of_rev in Hk. apply list_elem_of_filter in Hk as [[_ Lk] _].
  assert (rev (filter (key_range lo k) ks) = filter (fun q => q <b k) (l1 ++ k :: l2)) as ->.
  { rewrite <- E, filter_rev, list_filter_filter. f_equal. apply list_filter_iff. intros q. unfold key_range.
    split; [|tauto]. intros [A [B|B]]; [done|]. split; [done|]. split; [done|].
    destruct Lk as [->|Lk]; [by left|right; by eapply blt_trans]. }
  apply StronglySorted_app in S' as (C & S1 & S2). apply StronglySorted_inv in S2 as [S2 F].
  rewrite Forall_forall in F.
  rewrite filter_app, list_filter_none, filter_cons, decide_False.
  - cbn. by apply list_filter_all.
  - apply blt_irrefl.
  - intros q Hq L. apply (blt_irrefl q). eapply blt_trans; [exact L|]. apply C; [done|by left].
Qed.
End keys.
