(* ===== verification/InterlockScan.v ===== *)
(** * What a scan yields (mockeinsteindb/interlocking_directorate.go)

    A scan asks the store for one pair at a time and goes on after the key it
    got.  It yields the decoded pairs of its ranges one after the other, each
    range in key order or in reverse, and stops at the first error. *)

From stdpp Require Import base gmap list sorting option strings.
From Stdlib Require Import Strings.Byte ZArith Lia Sorted.
From S2P Require Import Prelude External Mvcc MvccScan KvKey GoHeap GoMonad Interlock InterlockExec InterlockRuns InterlockStore.

Local Open Scope Z_scope.

(** The rows of some pairs, up to the first error. *)
Fixpoint read_rows (dec : bytes -> bytes -> out (option row)) (ps : list Pair)
    : list row * option goerror :=
  match ps with
  | [] => ([], None)
  | p :: ps =>
      match pair_Err p with
      | Some e => ([], Some e)
      | None =>
          match dec (pair_Key p) (default [] (pair_Value p)) with
          | Ret (Some r) => let '(rs, er) := read_rows dec ps in (r :: rs, er)
          | Fail e => ([], Some e)
          | _ => ([], None)
          end
      end
  end.

(** A pair that has a row: the decoder gives one, or an error. *)
Definition has_row (dec : bytes -> bytes -> out (option row)) (p : Pair) : Prop :=
  pair_Err p = None ->
  match dec (pair_Key p) (default [] (pair_Value p)) with
  | Ret (Some _) | Fail _ => True
  | _ => False
  end.

Section scan.
Context `{MVCCStore}.
Context (st : Store) (ks : list bytes) (Hks : holds st ks).
Context (isPoint : KeyRange -> bool) (trunc : bytes -> bytes).
Context (decode : bytes -> bytes -> M scanExec (option row)) (dec : bytes -> bytes -> out (option row)).
Context (Hdec : forall k v s, decode k v s = (dec k v, s)).

(** The keys of a range in the order of the scan. *)
Definition keys_in (desc : bool) (lo hi : bytes) : list bytes :=
  let l := filter (key_range lo hi) ks in if desc then rev l else l.

Definition range_read (desc : bool) (ran : KeyRange) : list bytes :=
  keys_in desc (kr_StartKey ran) (kr_EndKey ran).

(** A range that the scan reads completely. *)
Record range_ok (desc : bool) (ran : KeyRange) : Prop := {
  ro_end : kr_EndKey ran <> [];
  ro_point : isPoint ran = true -> key_range (kr_StartKey ran) (kr_EndKey ran) (kr_StartKey ran) /\
    forall k, k ∈ ks -> key_range (kr_StartKey ran) (kr_EndKey ran) k -> k = kr_StartKey ran;
  ro_seek : desc = false -> seekable (range_read desc ran);
  ro_trunc : desc = true -> forall k, k ∈ range_read desc ran -> k <> [] /\ trunc k = k;
}.

(** The keys left in the current range. *)
Definition left_keys (s : scanExec) (ran : KeyRange) : list bytes :=
  match sc_seekKey s with
  | None => range_read (sc_Desc s) ran
  | Some k => if sc_Desc s then keys_in true (kr_StartKey ran) k else keys_in false k (kr_EndKey ran)
  end.

Definition left_ranges (s : scanExec) (n : nat) : list bytes :=
  drop n (sc_kvRanges s) ≫= range_read (sc_Desc s).

Definition unread (s : scanExec) : list bytes :=
  match sc_kvRanges s !! sc_cursor s with
  | None => []
  | Some ran => left_keys s ran ++ left_ranges s (S (sc_cursor s))
  end.

Definition scan_pairs (s : scanExec) (l : list bytes) : list Pair :=
  pairs_of st (sc_startTS s) (sc_isolationLevel s) (sc_resolvedLocks s) l.

Record scan_ok (s : scanExec) : Prop := {
  so_ranges : Forall (range_ok (sc_Desc s)) (sc_kvRanges s);
  so_counts c : sc_counts s = Some c -> length c = length (sc_kvRanges s);
  so_seek k ran : sc_seekKey s = Some k -> sc_kvRanges s !! sc_cursor s = Some ran ->
    isPoint ran = false /\ k <> [] /\ left_keys s ran `suffix_of` range_read (sc_Desc s) ran;
}.

(** What a scan never changes. *)
Definition same_scan (s s' : scanExec) : Prop :=
  sc_Desc s' = sc_Desc s /\ sc_kvRanges s' = sc_kvRanges s /\ sc_startTS s' = sc_startTS s /\
  sc_isolationLevel s' = sc_isolationLevel s /\ sc_resolvedLocks s' = sc_resolvedLocks s.

Lemma keys_in_range desc lo hi k : k ∈ keys_in desc lo hi -> key_range lo hi k /\ k ∈ ks.
Proof. unfold keys_in. destruct desc; rewrite ?elem_of_rev, list_elem_of_filter; done. Qed.

Lemma seekable_suffix l l' : l' `suffix_of` l -> seekable l -> seekable l'.
Proof. intros [l0 ->] S k q Hk Hq. apply S; apply elem_of_app; by right. Qed.

(** What the decoder makes of a pair. *)
Definition pair_out (p : Pair) : out (option row) :=
  match pair_Err p with
  | Some e => Fail e
  | None => dec (pair_Key p) (default [] (pair_Value p))
  end.

(** ** One range *)

Definition seek_of (s : scanExec) (ran : KeyRange) : bytes :=
  default (if sc_Desc s then kr_EndKey ran else kr_StartKey ran) (sc_seekKey s).

Lemma left_keys_seek s ran :
  left_keys s ran = if sc_Desc s then keys_in true (kr_StartKey ran) (seek_of s ran)
                    else keys_in false (seek_of s ran) (kr_EndKey ran).
Proof.
  unfold left_keys, seek_of, range_read. by destruct (sc_seekKey s), (sc_Desc s).
Qed.

Lemma left_keys_suffix s ran : scan_ok s -> sc_kvRanges s !! sc_cursor s = Some ran ->
  left_keys s ran `suffix_of` range_read (sc_Desc s) ran.
Proof.
  intros Ok Hr. destruct (sc_seekKey s) as [k|] eqn:Ek.
  - by destruct (so_seek _ Ok k ran Ek Hr) as (_ & _ & Sf).
  - unfold left_keys. rewrite Ek. done.
Qed.

(** The pairs of the store for the request of one turn. *)
Lemma range_request s ran :
  (if sc_Desc s
   then lift_opt (st_ReverseScan st (kr_StartKey ran) (seek_of s ran) 1 (sc_startTS s) (sc_isolationLevel s)
                    (sc_resolvedLocks s))
   else ret (st_Scan st (seek_of s ran) (kr_EndKey ran) 1 (sc_startTS s) (sc_isolationLevel s)
               (sc_resolvedLocks s)))
  = (ret (take 1 (scan_pairs s (left_keys s ran))) : M scanExec _).
Proof.
  rewrite left_keys_seek. unfold scan_pairs, keys_in. destruct (sc_Desc s).
  - by rewrite (hd_ReverseScan _ _ Hks).
  - by rewrite (hd_Scan _ _ Hks).
Qed.

(** The seek key after the key [k], and the keys that are left then. *)
Definition next_seek (s : scanExec) (k : bytes) : bytes :=
  if sc_Desc s then trunc k else PrefixNext k.

Lemma next_left s ran p ps : scan_ok s -> sc_kvRanges s !! sc_cursor s = Some ran -> isPoint ran = false ->
  scan_pairs s (left_keys s ran) = p :: ps ->
  let s' := set_seekKey (Some (next_seek s (pair_Key p))) s in
  pair_Key p ∈ range_read (sc_Desc s) ran /\ scan_ok s' /\ scan_pairs s' (left_keys s' ran) = ps.
Proof.
  intros Ok Hr NP E s'. pose proof (left_keys_suffix s ran Ok Hr) as Sf.
  pose proof (so_ranges _ Ok) as Fr. rewrite Forall_lookup in Fr. specialize (Fr _ _ Hr).
  apply pairs_cons in E as (l1 & l2 & E & E1 & E2).
  set (k := pair_Key p) in *. rewrite E in Sf.
  assert (Hk : k ∈ range_read (sc_Desc s) ran).
  { destruct Sf as [l0 ->]. rewrite !elem_of_app. right. right. by left. }
  assert (EL : left_keys s' ran = l2 /\ next_seek s k <> []).
  { rewrite left_keys_seek in E. unfold left_keys, s', next_seek. cbn [set_seekKey sc_seekKey sc_Desc].
    destruct (sc_Desc s) eqn:ED.
    - destruct (ro_trunc _ _ Fr eq_refl k Hk) as [Nk ->]. split; [|done].
      by eapply keys_before; [apply Hks|..].
    - split; [|pose proof (PrefixNext_gt k) as L; intros E0; rewrite E0 in L; by destruct k].
      eapply keys_after; [apply Hks|exact E|].
      eapply seekable_suffix; [exact Sf|]. by apply (ro_seek _ _ Fr). }
  destruct EL as [EL Nn]. split; [done|]. split.
  - destruct Ok as [Or Oc Os]. split; [done|done|]. intros k' ran' [= <-] Hr'.
    cbn in Hr'. rewrite Hr in Hr'. injection Hr' as <-. split; [done|]. split; [done|].
    rewrite EL. destruct Sf as [l0 Sf]. exists (l0 ++ l1 ++ [k]).
    change (sc_Desc s') with (sc_Desc s). by rewrite Sf, <- !app_assoc.
  - rewrite EL. exact E2.
Qed.

Lemma getRowFromRange_ok s ran : scan_ok s -> sc_kvRanges s !! sc_cursor s = Some ran -> isPoint ran = false ->
  match scan_pairs s (left_keys s ran) with
  | [] => exists s', getRowFromRange st trunc decode ran s = (Ret None, s') /\
            s' = set_seekKey (sc_seekKey s') s
  | p :: _ => exists s', getRowFromRange st trunc decode ran s = (pair_out p, s') /\
      (pair_Err p = None -> s' = set_seekKey (Some (next_seek s (pair_Key p))) s)
  end.
Proof.
  intros Ok Hr NP. pose proof (range_request s ran) as Rq.
  assert (Run : getRowFromRange st trunc decode ran s =
    match take 1 (scan_pairs s (left_keys s ran)) with
    | [] => (Ret None, set_seekKey (Some (seek_of s ran)) s)
    | p :: _ => match pair_Err p with
                | Some e => (Fail e, set_seekKey (Some (seek_of s ran)) s)
                | None => (dec (pair_Key p) (default [] (pair_Value p)),
                           set_seekKey (Some (next_seek s (pair_Key p))) s)
                end
    end).
  { unfold getRowFromRange. unfold seek_of in Rq |- *. erewrite bind_Ret by done. cbv zeta.
    erewrite bind_Ret by done. erewrite bind_Ret by (rewrite Rq; done).
    destruct (take 1 _) as [|p l] eqn:Et; [done|]. destruct (pair_Err p) as [e|] eqn:Ee; [done|].
    destruct (scan_pairs s (left_keys s ran)) as [|p' l'] eqn:Ep; [done|]. cbn in Et. injection Et as <- <-.
    destruct (next_left s ran p' l' Ok Hr NP Ep) as (Hk & _).
    apply keys_in_range in Hk as [[L1 L2] _].
    pose proof (so_ranges _ Ok) as Fr. rewrite Forall_lookup in Fr. specialize (Fr _ _ Hr).
    destruct L2 as [L2|L2]; [by destruct (ro_end _ _ Fr)|]. unfold next_seek.
    destruct (sc_Desc s).
    - destruct (bltb_spec (pair_Key p') (kr_StartKey ran)) as [B|_]; [by apply not_blt in L1|]. erewrite bind_Ret by done. by rewrite Hdec.
    - destruct (bleb_spec (kr_EndKey ran) (pair_Key p')) as [B|_]; [by apply not_ble in L2|]. erewrite bind_Ret by done. by rewrite Hdec. }
  rewrite Run. destruct (scan_pairs s (left_keys s ran)) as [|p l]; [by eexists|]. cbn [take].
  unfold pair_out. destruct (pair_Err p) as [e|]; by eexists.
Qed.

(** A point range is one read. *)
Lemma point_pairs s ran : range_ok (sc_Desc s) ran -> isPoint ran = true ->
  scan_pairs s (range_read (sc_Desc s) ran) =
    pair_of (kr_StartKey ran) (st_Get st (kr_StartKey ran) (sc_startTS s) (sc_isolationLevel s)
      (sc_resolvedLocks s)).
Proof.
  intros Fr P. destruct (ro_point _ _ Fr P) as [Hs Hu].
  assert (E : filter (key_range (kr_StartKey ran) (kr_EndKey ran)) ks =
    if decide (kr_StartKey ran ∈ ks) then [kr_StartKey ran] else []).
  { pose proof (StronglySorted_filter blt (key_range (kr_StartKey ran) (kr_EndKey ran)) ks (hd_sorted _ _ Hks)) as S.
    apply blt_sorted_NoDup in S.
    assert (M : forall k, k ∈ filter (key_range (kr_StartKey ran) (kr_EndKey ran)) ks <->
      k = kr_StartKey ran /\ kr_StartKey ran ∈ ks).
    { intros k. rewrite list_elem_of_filter. split; [intros [A B]|by intros [-> B]].
      rewrite (Hu k B A) in B |- *. done. }
    case_decide as D.
    - apply Permutation_singleton_r. apply NoDup_Permutation; [done|apply NoDup_singleton|].
      intros k. rewrite M, list_elem_of_singleton. tauto.
    - destruct (filter _ ks) as [|k l]; [done|]. exfalso. apply D, (M k). by left. }
  unfold scan_pairs, range_read, keys_in. rewrite E. case_decide as D.
  - destruct (sc_Desc s); cbn; by rewrite app_nil_r.
  - rewrite (hd_absent _ _ Hks) by done. by destruct (sc_Desc s).
Qed.

Lemma getRowFromPoint_ok s ran : range_ok (sc_Desc s) ran -> isPoint ran = true ->
  getRowFromPoint st decode ran s =
    match scan_pairs s (range_read (sc_Desc s) ran) with [] => (Ret None, s) | p :: _ => (pair_out p, s) end.
Proof.
  intros Fr P. rewrite point_pairs by done. unfold getRowFromPoint. erewrite bind_Ret by done.
  pose proof (hd_value _ _ Hks (kr_StartKey ran) (sc_startTS s) (sc_isolationLevel s) (sc_resolvedLocks s)) as N.
  destruct (st_Get st (kr_StartKey ran) _ _ _) as [[v|]|e]; [|done..].
  erewrite bind_Ret by done. destruct v as [|b v]; [done|]. cbn. by rewrite Hdec.
Qed.

(** ** The loop *)

(** The next range, nothing read of it yet. *)
Lemma unread_next s : sc_seekKey s = None -> unread s = left_ranges s (sc_cursor s).
Proof.
  intros E. unfold unread, left_ranges. destruct (sc_kvRanges s !! sc_cursor s) as [ran|] eqn:Er.
  - rewrite (drop_S _ _ _ Er). cbn [mbind list_bind]. unfold left_keys. by rewrite E.
  - apply lookup_ge_None in Er. by rewrite drop_ge.
Qed.

Definition pass_range (s : scanExec) : scanExec := set_cursor (S (sc_cursor s)) (set_seekKey None s).

Lemma pass_range_ok s : scan_ok s -> scan_ok (pass_range s) /\ unread (pass_range s) = left_ranges s (S (sc_cursor s)).
Proof. intros [Or Oc Os]. split; [by split|]. by rewrite unread_next. Qed.

(** Counting a row changes nothing else. *)
Lemma count_row_ok s i : scan_ok s -> (i < length (sc_kvRanges s))%nat ->
  exists s', count_row i s = (Ret tt, s') /\ scan_ok s' /\ same_scan s s' /\ unread s' = unread s.
Proof.
  intros Ok Hi. unfold count_row. erewrite bind_Ret by done. pose proof (so_counts _ Ok) as Hc.
  destruct (sc_counts s) as [c|] eqn:Ec; [|by exists s].
  destruct (lookup_lt_is_Some_2 c i) as [x Hx]; [by rewrite (Hc c)|]. rewrite Hx. erewrite bind_Ret by done.
  eexists. split; [done|]. split; [|done]. destruct Ok as [Or Oc Os]. split; [done| |done].
  intros c' [= <-]. rewrite length_insert. by apply Hc.
Qed.

Lemma same_scan_pairs s s' l : same_scan s s' -> scan_pairs s' l = scan_pairs s l.
Proof. intros (_ & _ & E1 & E2 & E3). unfold scan_pairs. by rewrite E1, E2, E3. Qed.

(** What one call of [Next] does, from the pairs that are left. *)
Definition scan_result (s : scanExec) (o : out (option row)) (s' : scanExec) : Prop :=
  match scan_pairs s (unread s) with
  | [] => o = Ret None
  | p :: ps => o = pair_out p /\
      forall r, o = Ret (Some r) -> scan_ok s' /\ same_scan s s' /\ scan_pairs s (unread s') = ps
  end.

Lemma pairs_app s l l' : scan_pairs s (l ++ l') = scan_pairs s l ++ scan_pairs s l'.
Proof. apply bind_app. Qed.

(** A row of the current range was found: it is counted and returned. *)
Lemma found_row (s s1 : scanExec) i (r : row) p ps (m : M scanExec (option row)) :
  scan_ok s1 -> same_scan s s1 -> (i < length (sc_kvRanges s))%nat ->
  scan_pairs s (unread s) = p :: ps -> pair_out p = Ret (Some r) -> scan_pairs s (unread s1) = ps ->
  m s = (count_row i;; ret (Some r)) s1 -> exists o s', m s = (o, s') /\ scan_result s o s'.
Proof.
  intros Ok1 Sm Hi Ep Er E1 Em. pose proof Sm as (_ & E & _).
  destruct (count_row_ok s1 i Ok1) as (s2 & E2 & Ok2 & Sm2 & U2); [by rewrite E|].
  exists (Ret (Some r)), s2. split; [rewrite Em; by erewrite bind_Ret by exact E2|].
  unfold scan_result. rewrite Ep. split; [done|]. intros r' _. split; [done|]. split; [|by rewrite U2].
  destruct Sm as (? & ? & ? & ? & ?), Sm2 as (? & ? & ? & ? & ?). unfold same_scan. split_and!; congruence.
Qed.

(** One turn: read from the current range, then pass it or return the row. *)
Definition read_range (ran : KeyRange) : M scanExec (option row) :=
  if isPoint ran then getRowFromPoint st decode ran else getRowFromRange st trunc decode ran.

Definition after_none (ran : KeyRange) (s : scanExec) : scanExec :=
  if isPoint ran then set_cursor (S (sc_cursor s)) s else pass_range s.

Definition after_row (ran : KeyRange) (s : scanExec) : scanExec :=
  if isPoint ran then set_cursor (S (sc_cursor s)) s else s.

Lemma scan_turn turns s ran : sc_kvRanges s !! sc_cursor s = Some ran ->
  scan_loop st isPoint trunc decode (S turns) s =
    match read_range ran s with
    | (Ret None, s1) => scan_loop st isPoint trunc decode turns (after_none ran s1)
    | (Ret (Some r), s1) => (count_row (sc_cursor s1);; ret (Some r)) (after_row ran s1)
    | (Fail e, s1) => (Fail e, s1)
    | (Panic, s1) => (Panic, s1)
    | (NoFuel, s1) => (NoFuel, s1)
    end.
Proof.
  intros Hr. cbn [scan_loop]. erewrite bind_Ret by done. rewrite Hr.
  unfold read_range, after_none, after_row. destruct (isPoint ran).
  - unfold mbind at 1, M_bind at 1. destruct (getRowFromPoint st decode ran s) as [[[r|]|e| |] s1]; try done.
    erewrite bind_Ret by done. erewrite bind_Ret by done. cbn [set_cursor sc_cursor]. by rewrite Nat.sub_1_r.
  - unfold mbind at 1, M_bind at 1. by destruct (getRowFromRange st trunc decode ran s) as [[[r|]|e| |] s1].
Qed.

(** A point range is read from the start. *)
Lemma point_seek s ran : scan_ok s -> sc_kvRanges s !! sc_cursor s = Some ran -> isPoint ran = true ->
  sc_seekKey s = None.
Proof.
  intros Ok Hr P. destruct (sc_seekKey s) as [k|] eqn:Ek; [|done].
  destruct (so_seek _ Ok k ran Ek Hr). congruence.
Qed.

Lemma read_range_ok s ran : scan_ok s -> sc_kvRanges s !! sc_cursor s = Some ran ->
  exists s1, match scan_pairs s (left_keys s ran) with
  | [] => read_range ran s = (Ret None, s1) /\ after_none ran s1 = pass_range s
  | p :: ps => read_range ran s = (pair_out p, s1) /\
      (pair_Err p = None -> sc_cursor s1 = sc_cursor s /\ scan_ok (after_row ran s1) /\
        same_scan s (after_row ran s1) /\
        scan_pairs s (unread (after_row ran s1)) = ps ++ scan_pairs s (left_ranges s (S (sc_cursor s))))
  end.
Proof.
  intros Ok Hr. pose proof (so_ranges _ Ok) as Fr. rewrite Forall_lookup in Fr. specialize (Fr _ _ Hr).
  unfold read_range, after_none, after_row. destruct (isPoint ran) eqn:P.
  - pose proof (point_seek s ran Ok Hr P) as Es. exists s.
    assert (set_cursor (S (sc_cursor s)) s = pass_range s) as Ep by (destruct s; cbn in Es; by subst).
    rewrite getRowFromPoint_ok by done. unfold left_keys. rewrite Es, Ep.
    destruct (scan_pairs s (range_read (sc_Desc s) ran)) as [|p ps] eqn:El; [done|]. split; [done|]. intros _.
    assert (ps = []) as ->.
    { rewrite point_pairs in El by done. pose proof (length_pair_of (kr_StartKey ran)
        (st_Get st (kr_StartKey ran) (sc_startTS s) (sc_isolationLevel s) (sc_resolvedLocks s))) as L.
      rewrite El in L. destruct ps; [done|simpl in L; lia]. }
    destruct (pass_range_ok s Ok) as [Ok1 U1]. rewrite U1. by split_and!.
  - pose proof (getRowFromRange_ok s ran Ok Hr P) as G.
    destruct (scan_pairs s (left_keys s ran)) as [|p ps] eqn:El; destruct G as (s1 & G & E1); exists s1;
      (split; [done|]); [by rewrite E1|]. intros Ep. rewrite (E1 Ep).
    destruct (next_left s ran p ps Ok Hr P El) as (_ & Ok2 & E2). split; [done|]. split; [done|].
    split; [done|]. unfold unread. cbn [sc_kvRanges set_seekKey sc_cursor]. rewrite Hr, pairs_app. f_equal. exact E2.
Qed.

Lemma scan_loop_ok turns : forall s, scan_ok s -> (length (sc_kvRanges s) - sc_cursor s < turns)%nat ->
  Forall (has_row dec) (scan_pairs s (unread s)) ->
  exists o s', scan_loop st isPoint trunc decode turns s = (o, s') /\ scan_result s o s'.
Proof.
  induction turns as [|turns IH]; intros s Ok Ht HR; [lia|].
  destruct (sc_kvRanges s !! sc_cursor s) as [ran|] eqn:Hr.
  2:{ exists (Ret None), s. split; [cbn [scan_loop]; erewrite bind_Ret by done; by rewrite Hr|].
      unfold scan_result, unread. by rewrite Hr. }
  rewrite (scan_turn _ _ _ Hr). pose proof (lookup_lt_Some _ _ _ Hr) as Hi.
  assert (Eu : scan_pairs s (unread s) =
    scan_pairs s (left_keys s ran) ++ scan_pairs s (left_ranges s (S (sc_cursor s)))).
  { unfold unread. by rewrite Hr, pairs_app. }
  destruct (read_range_ok s ran Ok Hr) as (s1 & R).
  destruct (scan_pairs s (left_keys s ran)) as [|p ps]; cbn [app] in Eu; destruct R as [R1 R2]; rewrite R1.
  - rewrite R2. destruct (pass_range_ok s Ok) as [Ok1 U1].
    destruct (IH (pass_range s)) as (o & s' & E & Rs); [done|cbn; lia| |].
    + rewrite U1. change (scan_pairs (pass_range s)) with (scan_pairs s). by rewrite <- Eu.
    + exists o, s'. split; [done|]. unfold scan_result in *. rewrite U1 in Rs. by rewrite Eu.
  - rewrite Eu in HR. apply Forall_cons in HR as [Hp _]. unfold has_row in Hp.
    assert (Fl : forall e, pair_out p = Fail e -> scan_result s (Fail e) s1).
    { intros e Ee. unfold scan_result. rewrite Eu, Ee. done. }
    unfold pair_out in *. destruct (pair_Err p) as [e|] eqn:Ee; [eexists _, _; split; [done|by apply Fl]|].
    specialize (Hp eq_refl). destruct (R2 eq_refl) as (Ec & Ok1 & Sm & U1).
    destruct (dec _ _) as [[r|]|e| |] eqn:Ed; try done; [|eexists _, _; split; [done|by apply Fl]].
    eapply (found_row s (after_row ran s1) (sc_cursor s) r p _
      (fun _ => (count_row (sc_cursor s1);; ret (Some r)) (after_row ran s1))).
    + done.
    + done.
    + done.
    + exact Eu.
    + unfold pair_out. by rewrite Ee, Ed.
    + done.
    + by rewrite Ec.
Qed.

Lemma scan_Next_ok s : scan_ok s -> Forall (has_row dec) (scan_pairs s (unread s)) ->
  exists o s', scan_Next st isPoint trunc decode s = (o, s') /\ scan_result s o s'.
Proof.
  intros Ok HR. unfold scan_Next. erewrite bind_Ret by done. apply scan_loop_ok; [done|lia|done].
Qed.
End scan.

(** ** The executors *)

Section yields.
Context `{Datums} `{HC : HandleCodec} `{RowCodec} `{!Expressions} `{!Aggregations} `{Sorter} `{MVCCStore}.
Context (ctx : evalContext) (st : Store) (ks : list bytes) (Hks : holds st ks).

(** Decoding a row does not look at the state of the scan. *)
Lemma fill_columns_state {S} columns colIDs handle : forall values (s : S),
  fill_columns columns colIDs handle values s = ((fill_columns columns colIDs handle values tt).1, s).
Proof.
  induction columns as [|col columns IH]; intros values s; [done|]. cbn [fill_columns].
  destruct (col_PkHandle col || _).
  - destruct (EncodeValue _ _) as [d|e]; do 2 step_exec; [|done].
    destruct (put_ _ _ _) as [v|]; do 2 step_exec; [apply IH|done].
  - destruct (hasDefCausVal _ _ _) as [[]|]; do 2 step_exec; [apply IH| |done].
    case_decide.
    + destruct (put_ _ _ _) as [v|]; do 2 step_exec; [apply IH|done].
    + destruct (HasNotNullFlag _); do 2 step_exec; [done|].
      destruct (put_ _ _ _) as [v|]; do 2 step_exec; [apply IH|done].
Qed.

Definition block_dec (e : blockScanExec) (k v : bytes) : out (option row) := (block_decode e k v tt).1.

Lemma block_decode_state {S} e k v (s : S) : block_decode e k v s = (block_dec e k v, s).
Proof.
  unfold block_dec, block_decode. destruct (DecodeRowKey k) as [h|er]; do 2 step_exec; [|done].
  destruct (IntValue h) as [i|]; do 2 step_exec; [|done]. unfold getRowData.
  destruct (IsNewFormat v); do 2 step_exec; [by destruct (DecodeToBytes _ _ _ _)|].
  destruct (CutRowNew _ _) as [vs|er]; do 2 step_exec; [|done].
  rewrite fill_columns_state. by destruct (fill_columns _ _ _ _ tt) as [[] []].
Qed.

Definition index_dec (e : indexScanExec) (k v : bytes) : out (option row) := (index_decode e k v tt).1.

Lemma index_decode_state {S} e k v (s : S) : index_decode e k v s = (index_dec e k v, s).
Proof. unfold index_dec, index_decode. by destruct (DecodeIndexKV _ _ _ _ _). Qed.

(** Executors that run a scan. *)
Lemma scan_yields (c : scanExec -> executor) isPoint trunc decode dec :
  (forall k v s, decode k v s = (dec k v, s)) ->
  (forall f s, Next ctx st (S f) (c s) = wrap c (scan_Next st isPoint trunc decode) s) ->
  forall ps s, scan_ok ks isPoint trunc s -> scan_pairs st s (unread ks s) = ps -> Forall (has_row dec) ps ->
  yields ctx st (c s) (read_rows dec ps).1 (read_rows dec ps).2.
Proof.
  intros Hd Hn. induction ps as [|p ps IH]; intros s Ok E F.
  - destruct (scan_Next_ok st ks Hks isPoint trunc decode dec Hd s Ok) as (o & s' & En & R); [by rewrite E|].
    unfold scan_result in R. rewrite E in R. subst o. apply (yields_end _ _ _ (c s')). exists 1%nat.
    intros [|f] Hf; [lia|]. rewrite Hn. unfold wrap. by rewrite En.
  - destruct (scan_Next_ok st ks Hks isPoint trunc decode dec Hd s Ok) as (o & s' & En & R); [by rewrite E|].
    unfold scan_result in R. rewrite E in R. destruct R as [Eo R].
    assert (St : steps ctx st (c s) o (c s')).
    { exists 1%nat. intros [|f] Hf; [lia|]. rewrite Hn. unfold wrap. by rewrite En. }
    apply Forall_cons in F as [Fp F]. cbn [read_rows]. unfold has_row in Fp. unfold pair_out in Eo.
    destruct (pair_Err p) as [e|]; [subst o; by eapply yields_fail|]. specialize (Fp eq_refl).
    destruct (dec _ _) as [[r|]|e| |]; try done; subst o; [|by eapply yields_fail].
    destruct (R r eq_refl) as (Ok' & Sm & E'). rewrite <- (same_scan_pairs st s s') in E' by done.
    specialize (IH s' Ok' E' F). destruct (read_rows dec ps) as [rs er]. by eapply yields_row.
Qed.

(** A scan as it is built. *)
Definition new_scan (desc : bool) (ranges : list KeyRange) (ts iso : Z) (rl : list Z) (counted : bool) : scanExec :=
  MkScan desc ranges ts iso rl 0 None 0 (if counted then Some (replicate (length ranges) 0) else None).

Lemma new_scan_ok isPoint trunc desc ranges ts iso rl counted :
  Forall (range_ok ks isPoint trunc desc) ranges ->
  scan_ok ks isPoint trunc (new_scan desc ranges ts iso rl counted) /\
  unread ks (new_scan desc ranges ts iso rl counted) = ranges ≫= range_read ks desc.
Proof.
  intros F. split.
  - split; [done| |done]. intros c. destruct counted; [|done]. intros [= <-]. apply length_replicate.
  - rewrite unread_next by done. unfold left_ranges, new_scan. cbn [sc_kvRanges sc_cursor sc_Desc]. by rewrite drop_0.
Qed.

(** The pairs of the ranges of a scan. *)
Definition ranges_pairs (desc : bool) (ranges : list KeyRange) (ts iso : Z) (rl : list Z) : list Pair :=
  pairs_of st ts iso rl (ranges ≫= range_read ks desc).

Lemma blockScan_yields cols ids rd desc ranges ts iso rl counted :
  let e := MkBlockScan cols ids rd (new_scan desc ranges ts iso rl counted) in
  let ps := ranges_pairs desc ranges ts iso rl in
  Forall (range_ok ks IsPoint TruncateToRowKeyLen desc) ranges -> Forall (has_row (block_dec e)) ps ->
  yields ctx st (XTableScan e) (read_rows (block_dec e) ps).1 (read_rows (block_dec e) ps).2.
Proof.
  intros e ps Fr Fp. destruct (new_scan_ok IsPoint TruncateToRowKeyLen desc ranges ts iso rl counted Fr) as [Ok U].
  apply (scan_yields (fun s => XTableScan (MkBlockScan cols ids rd s)) IsPoint TruncateToRowKeyLen (block_decode e)).
  - intros k v s. apply block_decode_state.
  - intros f s. cbn [Next]. unfold wrap, blockScan_Next. step_exec. cbn [bs_scan].
    change (@block_decode _ _ scanExec (MkBlockScan cols ids rd s)) with (@block_decode _ _ scanExec e).
    by destruct (scan_Next _ _ _ _ s).
  - done.
  - by rewrite U.
  - done.
Qed.

Lemma indexScan_yields unique n hs infos desc ranges ts iso rl counted :
  let e := MkIndexScan unique n hs infos (new_scan desc ranges ts iso rl counted) in
  let ps := ranges_pairs desc ranges ts iso rl in
  Forall (range_ok ks (index_isPoint e) id desc) ranges -> Forall (has_row (index_dec e)) ps ->
  yields ctx st (XIndexScan e) (read_rows (index_dec e) ps).1 (read_rows (index_dec e) ps).2.
Proof.
  intros e ps Fr Fp. destruct (new_scan_ok (index_isPoint e) id desc ranges ts iso rl counted Fr) as [Ok U].
  apply (scan_yields (fun s => XIndexScan (MkIndexScan unique n hs infos s)) (index_isPoint e) id (index_decode e)).
  - intros k v s. apply index_decode_state.
  - intros f s. cbn [Next]. unfold wrap, indexScan_Next. step_exec. cbn [is_scan].
    change (@index_decode _ scanExec (MkIndexScan unique n hs infos s)) with (@index_decode _ scanExec e).
    change (index_isPoint (MkIndexScan unique n hs infos s)) with (index_isPoint e).
    by destruct (scan_Next _ _ _ _ s).
  - done.
  - by rewrite U.
  - done.
Qed.
End yields.
