(* ===== verification/InterlockKeeps.v ===== *)
(** * What executors keep

    An executor changes the scan at the bottom of its chain only through [Next]
    of the scan: what a scan keeps, the chain keeps, whatever it returns. *)

From stdpp Require Import base gmap list option strings.
From Stdlib Require Import Strings.Byte ZArith Lia.
From S2P Require Import Prelude External Mvcc KvKey GoHeap GoMonad Interlock InterlockExec InterlockRuns InterlockScan.

Local Open Scope Z_scope.

Section executors.
Context `{Datums} `{HC : HandleCodec} `{RowCodec} `{!Expressions} `{!Aggregations} `{Sorter} `{MVCCStore}.
Context (ctx : evalContext) (st : Store).

(** ** Scans *)

(** A scan keeps what does not depend on its position, when it has no counts. *)
Definition uncounted (ranges : list KeyRange) (desc : bool) (s : scanExec) : Prop :=
  sc_counts s = None /\ sc_kvRanges s = ranges /\ sc_Desc s = desc.

Lemma count_row_keeps ranges desc i : keeps (uncounted ranges desc) (count_row i).
Proof. intros s (E & Hs). unfold count_row. erewrite bind_Ret by done. by rewrite E. Qed.
#[local] Hint Resolve count_row_keeps : keeps.

Context (isPoint : KeyRange -> bool) (trunc : bytes -> bytes) (decode : bytes -> bytes -> M scanExec (option row)).
Context (Hdec : forall k v s, (decode k v s).2 = s).

Lemma decode_keeps_all Q k v : keeps Q (decode k v).
Proof. intros s Hs. by rewrite Hdec. Qed.
#[local] Hint Resolve decode_keeps_all : keeps.

Lemma getRowFromPoint_keeps ranges desc ran : keeps (uncounted ranges desc) (getRowFromPoint st decode ran).
Proof. unfold getRowFromPoint. step_keeps. Qed.

Lemma getRowFromRange_keeps ranges desc ran : keeps (uncounted ranges desc) (getRowFromRange st trunc decode ran).
Proof. unfold getRowFromRange. step_keeps. Qed.
#[local] Hint Resolve getRowFromPoint_keeps getRowFromRange_keeps : keeps.

Lemma scan_loop_keeps ranges desc turns : keeps (uncounted ranges desc) (scan_loop st isPoint trunc decode turns).
Proof. induction turns as [|turns IH]; [apply keeps_nofuel|]. cbn [scan_loop]. step_keeps. Qed.

Lemma scan_Next_keeps ranges desc : keeps (uncounted ranges desc) (scan_Next st isPoint trunc decode).
Proof. unfold scan_Next. apply keeps_bind; [apply keeps_get|intros s]. apply scan_loop_keeps. Qed.
End executors.

(** ** Chains *)

Section chains.
Context `{Datums} `{HC : HandleCodec} `{RowCodec} `{!Expressions} `{!Aggregations} `{Sorter} `{MVCCStore}.
Context (ctx : evalContext) (st : Store).

(** [P] of the scan at the bottom of a chain; unless [any], only of chains that
    keep the order of the scan. *)
Fixpoint bottom (any : bool) (P : scanExec -> Prop) (e : executor) : Prop :=
  match e with
  | XTableScan e => P (bs_scan e)
  | XIndexScan e => P (is_scan e)
  | XSelection e => match sel_src e with Some src => bottom any P src | None => False end
  | XHashAgg e => any = true /\ match ha_src e with Some src => bottom any P src | None => False end
  | XStreamAgg e => any = true /\ match sa_src e with Some src => bottom any P src | None => False end
  | XTopN e => any = true /\ match tn_src e with Some src => bottom any P src | None => False end
  | XLimit e => match lm_src e with Some src => bottom any P src | None => False end
  end.

Definition src_bottom (any : bool) (P : scanExec -> Prop) (src : option executor) : Prop :=
  match src with Some e => bottom any P e | None => False end.

Lemma bottom_any P : forall e, bottom false P e -> bottom true P e.
Proof.
  fix IH 1. intros [e|e|[? ? ? [src|]]|?|?|?|[? ? [src|]]]; cbn; try done; try (by intros [[=] _]); apply IH.
Qed.

(** A call on the source keeps what holds of the source. *)
Lemma keeps_src {E A} (R : executor -> Prop) (part : E -> option executor) (put : option executor -> E -> E)
    (m : M executor A) :
  (forall src e, part (put src e) = src) -> keeps R m ->
  keeps (fun e => match part e with Some src => R src | None => False end) (zoom part put (on_src m)).
Proof.
  intros Pp K e Hs. unfold zoom, on_src. destruct (part e) as [src|]; [|done]. specialize (K src Hs).
  destruct (m src) as [o src']. cbn. by rewrite Pp.
Qed.

Lemma wrap_keeps {E A} (c : E -> executor) (m : M E A) any P :
  keeps (fun e => bottom any P (c e)) m -> forall e, bottom any P (c e) -> bottom any P (wrap c m e).2.
Proof. intros K e He. specialize (K e He). unfold wrap. by destruct (m e). Qed.

Lemma keeps_and {E A} (R : Prop) (Q : E -> Prop) (m : M E A) : keeps Q m -> keeps (fun e => R /\ Q e) m.
Proof. intros K e [HR HQ]. split; [done|by apply K]. Qed.

Context (next : M executor (option row)) (any : bool) (P : scanExec -> Prop) (Hnext : keeps (bottom any P) next).

Local Notation on_source part := (fun e => src_bottom any P (part e)).

Lemma sel_src_keeps : keeps (on_source sel_src) (zoom sel_src sel_set_src (on_src next)).
Proof. by apply (keeps_src (bottom any P)). Qed.
Lemma tn_src_keeps : keeps (on_source tn_src) (zoom tn_src tn_set_src (on_src next)).
Proof. by apply (keeps_src (bottom any P)). Qed.
Lemma lm_src_keeps : keeps (on_source lm_src) (zoom lm_src lm_set_src (on_src next)).
Proof. by apply (keeps_src (bottom any P)). Qed.
Lemma ha_src_keeps : keeps (on_source ha_src) (zoom ha_src ha_set_src (on_src next)).
Proof. by apply (keeps_src (bottom any P)). Qed.
Lemma sa_src_keeps : keeps (on_source sa_src) (zoom sa_src sa_set_src (on_src next)).
Proof. by apply (keeps_src (bottom any P)). Qed.
#[local] Hint Resolve sel_src_keeps tn_src_keeps lm_src_keeps ha_src_keeps sa_src_keeps : keeps.

Lemma selection_Next_keeps fuel : keeps (on_source sel_src) (selection_Next ctx next fuel).
Proof. induction fuel as [|fuel IH]; [apply keeps_nofuel|]. cbn [selection_Next]. step_keeps. Qed.

Lemma evalTopN_keeps value : keeps (on_source tn_src) (evalTopN ctx value).
Proof. unfold evalTopN. step_keeps. Qed.
#[local] Hint Resolve evalTopN_keeps : keeps.

Lemma topN_loop_keeps fuel : keeps (on_source tn_src) (topN_loop ctx next fuel).
Proof. induction fuel as [|fuel IH]; [apply keeps_nofuel|]. cbn [topN_loop]. step_keeps. Qed.
#[local] Hint Resolve topN_loop_keeps : keeps.

Lemma topN_Next_keeps fuel : keeps (on_source tn_src) (topN_Next ctx next fuel).
Proof. unfold topN_Next. step_keeps. Qed.

Lemma limit_Next_keeps : keeps (on_source lm_src) (limit_Next next).
Proof. unfold limit_Next. step_keeps. Qed.

Lemma getContexts_keeps key : keeps (on_source ha_src) (getContexts ctx key).
Proof. unfold getContexts. step_keeps. Qed.
#[local] Hint Resolve getContexts_keeps : keeps.

Lemma ha_aggregate_keeps value : keeps (on_source ha_src) (ha_aggregate ctx value).
Proof. unfold ha_aggregate. step_keeps. Qed.

Lemma ha_emit_keeps : keeps (on_source ha_src) (ha_emit ctx).
Proof. unfold ha_emit. step_keeps. Qed.
#[local] Hint Resolve ha_aggregate_keeps ha_emit_keeps : keeps.

Lemma hashAgg_loop_keeps fuel : keeps (on_source ha_src) (hashAgg_loop ctx next fuel).
Proof. induction fuel as [|fuel IH]; [apply keeps_nofuel|]. cbn [hashAgg_loop]. step_keeps. Qed.
#[local] Hint Resolve hashAgg_loop_keeps : keeps.

Lemma hashAgg_Next_keeps fuel : keeps (on_source ha_src) (hashAgg_Next ctx next fuel).
Proof. unfold hashAgg_Next. step_keeps. Qed.

Lemma getPartialResult_keeps : keeps (on_source sa_src) (getPartialResult ctx).
Proof. unfold getPartialResult. step_keeps. Qed.

Lemma meetNewGroup_keeps : keeps (on_source sa_src) (meetNewGroup ctx).
Proof. unfold meetNewGroup. step_keeps. Qed.

Lemma sa_update_keeps : keeps (on_source sa_src) (sa_update ctx).
Proof. unfold sa_update. step_keeps. Qed.
#[local] Hint Resolve getPartialResult_keeps meetNewGroup_keeps sa_update_keeps : keeps.

Lemma streamAgg_loop_keeps fuel : keeps (on_source sa_src) (streamAgg_loop ctx next fuel).
Proof. induction fuel as [|fuel IH]; [apply keeps_nofuel|]. cbn [streamAgg_loop]. step_keeps. Qed.
#[local] Hint Resolve streamAgg_loop_keeps : keeps.

Lemma streamAgg_Next_keeps fuel : keeps (on_source sa_src) (streamAgg_Next ctx next fuel).
Proof. unfold streamAgg_Next. step_keeps. Qed.
End chains.

Section next.
Context `{Datums} `{HC : HandleCodec} `{RowCodec} `{!Expressions} `{!Aggregations} `{Sorter} `{MVCCStore}.
Context (ctx : evalContext) (st : Store) (P : scanExec -> Prop).
Context (Hblock : forall e, keeps P (scan_Next st IsPoint TruncateToRowKeyLen (block_decode e))).
Context (Hindex : forall e, keeps P (scan_Next st (index_isPoint e) id (index_decode e))).

(** Whatever [Next] returns, the scan at the bottom keeps what scans keep. *)
Lemma Next_keeps any fuel : keeps (bottom any P) (Next ctx st fuel).
Proof.
  induction fuel as [|fuel IH]; [by intros e He|]. intros e. cbn [Next]. destruct e as [e|e|e|e|e|e|e].
  - intros He. specialize (Hblock e (bs_scan e) He). unfold wrap, blockScan_Next. step_exec.
    by destruct (scan_Next _ _ _ _ _).
  - intros He. specialize (Hindex e (is_scan e) He). unfold wrap, indexScan_Next. step_exec.
    by destruct (scan_Next _ _ _ _ _).
  - apply wrap_keeps. by apply (selection_Next_keeps ctx (Next ctx st fuel)).
  - apply wrap_keeps, keeps_and. by apply (hashAgg_Next_keeps ctx (Next ctx st fuel)).
  - apply wrap_keeps, keeps_and. by apply (streamAgg_Next_keeps ctx (Next ctx st fuel)).
  - apply wrap_keeps, keeps_and. by apply (topN_Next_keeps ctx (Next ctx st fuel)).
  - apply wrap_keeps. by apply (limit_Next_keeps (Next ctx st fuel)).
Qed.
End next.

Section uncounted.
Context `{Datums} `{HC : HandleCodec} `{RowCodec} `{!Expressions} `{!Aggregations} `{Sorter} `{MVCCStore}.
Context (ctx : evalContext) (st : Store).

Lemma Next_uncounted any ranges desc fuel : keeps (bottom any (uncounted ranges desc)) (Next ctx st fuel).
Proof.
  apply Next_keeps.
  - intros e. apply scan_Next_keeps. intros k v s. by rewrite block_decode_state.
  - intros e. apply scan_Next_keeps. intros k v s. by rewrite index_decode_state.
Qed.

(** Without counts the counts are empty, and there is nothing to reset; the
    position is known while the chain keeps the order of the scan. *)
Lemma Counts_uncounted any ranges desc : forall e, bottom any (uncounted ranges desc) e -> Counts e = Some [].
Proof.
  fix IH 1. intros [e|e|[? ? ? [src|]]|[? ? ? ? ? ? ? ? ? ? [src|]]|[? ? ? ? ? ? ? ? ? ? [src|]]|[? ? ? ? ? ? [src|]]|[? ? [src|]]];
    cbn; try (intros []; done); try (intros [_ []]; done);
    first [by intros (_ & B); apply (IH src B)|by apply (IH src)|unfold scan_Counts; by intros (-> & _)].
Qed.

Lemma ResetCounts_uncounted any ranges desc : forall e, bottom any (uncounted ranges desc) e -> ResetCounts e = Some e.
Proof.
  fix IH 1. intros [[? ? ? s]|[? ? ? ? s]|[? ? ? [src|]]|[? ? ? ? ? ? ? ? ? ? [src|]]|[? ? ? ? ? ? ? ? ? ? [src|]]|[? ? ? ? ? ? [src|]]|[? ? [src|]]];
    cbn; try (intros []; done); try (intros [_ []]; done);
    first [by intros (_ & B); rewrite (IH src B)|by intros B; rewrite (IH src B)|unfold scan_ResetCounts; by intros (-> & _)].
Qed.

Lemma Cursor_uncounted ranges desc : ranges <> [] ->
  forall e, bottom false (uncounted ranges desc) e -> exists k, Cursor e = Some (k, desc).
Proof.
  intros Nr. assert (Hs : forall isPoint s, uncounted ranges desc s -> exists k, scan_Cursor isPoint s = Some (k, desc)).
  { intros isPoint s (_ & Er & Ed). unfold scan_Cursor. rewrite Er, Ed.
    assert (N : exists k, match ranges !! sc_cursor s with
      | Some ran => if isPoint ran then Some (kr_StartKey ran, desc)
                    else if desc then Some (kr_EndKey ran, desc) else Some (kr_StartKey ran, desc)
      | None => ran ← last ranges; Some (if desc then kr_StartKey ran else kr_EndKey ran, desc)
      end = Some (k, desc)).
    { destruct (ranges !! sc_cursor s) as [ran|]; [destruct (isPoint ran), desc; eauto|].
      destruct (last ranges) as [ran|] eqn:El; [cbn; eauto|]. by apply last_None in El. }
    destruct (sc_seekKey s) as [[|b k]|]; [done|eauto|done]. }
  fix IH 1. intros [e|e|[? ? ? [src|]]|?|?|?|[? ? [src|]]]; cbn; try done; try (by intros [[=] _]); first [apply Hs|apply IH].
Qed.
End uncounted.
