(* ===== verification/InterlockDag.v ===== *)
(** * Requests for pushed-down queries (mockeinsteindb/interlocking_handler_dag.go)

    A request carries a plan and key ranges.  The handler clips the ranges to
    its region, builds the chain of executors of the plan, draws all its rows
    and encodes them into chunks; or it hands out a stream that draws up to 64
    rows at a time and reports the key range that they cover.

    Protobuf messages are records of the fields that the code reads.  Warnings
    and execution summaries are left out, and the messages of errors are
    without their arguments. *)

From stdpp Require Import base gmap list option strings.
From Stdlib Require Import Strings.Byte ZArith Lia.
From S2P Require Import Prelude External Mvcc Rpc KvKey GoHeap GoMonad Interlock InterlockExec.

Local Open Scope Z_scope.

(** ** Messages *)

Record PbFieldType : Type := MkPbFieldType {
  ft_Tp : Z; ft_Flag : Z; ft_Flen : Z; ft_Decimal : Z; ft_DefCauslate : Z; ft_Charset : string }.

Inductive PbExpr : Type :=
| MkPbExpr (tp : Z) (val : bytes) (children : list PbExpr) (ft : option PbFieldType).

(** [fidelpb.ByItem]: a key and whether it descends. *)
Record ByItem : Type := MkByItem { by_Expr : option PbExpr; by_Desc : bool }.

(** [fidelpb.Executor] with the field that its type asks for. *)
Inductive PbExecutor : Type :=
| PbTableScan (columns : list DeferredCausetInfo) (desc : bool)
| PbIndexScan (columns : list DeferredCausetInfo) (desc unique : bool)
| PbSelection (conditions : list PbExpr) (child : option PbExecutor)
| PbAggregation (aggFunc groupBy : list PbExpr) (child : option PbExecutor)
| PbStreamAgg (aggFunc groupBy : list PbExpr) (child : option PbExecutor)
| PbTopN (orderBy : list ByItem) (limit : Z) (child : option PbExecutor)
| PbLimit (limit : Z) (child : option PbExecutor)
| PbOther (tp : Z).

Record PosetDagRequest : Type := MkDagRequest {
  dr_Executors : list PbExecutor;
  dr_RootExecutor : option PbExecutor;
  dr_TimeZoneName : string;
  dr_TimeZoneOffset : Z;
  dr_Flags : Z;
  dr_OutputOffsets : list Z;
  dr_EncodeType : Z;
  dr_StartTsFallback : Z;
  dr_DefCauslectRangeCounts : bool;
}.

(** [interlock.Request]; a range is its two keys. *)
Record Request : Type := MkRequest {
  rq_Tp : Z;
  rq_Data : bytes;
  rq_StartTs : Z;
  rq_Ranges : list (bytes * bytes);
}.

Record PbError : Type := MkPbError { pe_Code : Z; pe_Msg : string }.

Record SelectResponse : Type := MkSelect {
  sel_Error : option PbError;
  sel_OutputCounts : list Z;
  sel_Chunks : list bytes;
  sel_EncodeType : Z;
}.

Record StreamResponse : Type := MkStream {
  str_Error : option PbError;
  str_Data : bytes;
  str_OutputCounts : list Z;
}.

Record LockedInfo : Type := MkLocked {
  li_Key : bytes; li_PrimaryLock : bytes; li_LockVersion : Z; li_LockTtl : Z }.

(** [interlock.Response]. *)
Record Response : Type := MkResponse {
  rs_Data : bytes;
  rs_OtherError : string;
  rs_Locked : option LockedInfo;
  rs_Range : option (bytes * bytes);
}.

(** ** Packages that are not in the repository *)

Class Plans `{Datums} `{!RowCodec} `{!Expressions} `{!Aggregations} : Type := {
  ReqTypePosetDag : Z;
  ExprType_DeferredCausetRef : Z;
  EncodeType_TypeDefault : Z;
  EncodeType_TypeChunk : Z;
  FlagIgnoreTruncate : Z;
  FlagTruncateAsWarning : Z;
  FlagInInsertStmt : Z;
  FlagInSelectStmt : Z;
  FlagInUFIDelateOrDeleteStmt : Z;
  FlagOverflowAsWarning : Z;
  FlagIgnoreZeroInDate : Z;
  FlagDividedByZeroAsWarning : Z;
  UnmarshalPosetDag : bytes -> res PosetDagRequest;
  MarshalSelect : SelectResponse -> res bytes;
  MarshalStream : StreamResponse -> res bytes;
  MarshalChunk : bytes -> res bytes;
  ConstructTimeZone : string -> Z -> res Location;
  (** A statement context with its eight flags and its time zone. *)
  NewStatementContext : list bool -> Location -> StmtCtx;
  (** A field type with type, flag, length, decimal, elements and collation. *)
  NewFieldTypeOf : Z -> Z -> Z -> Z -> list string -> string -> FieldType;
  DefCauslationName : Z -> string;
  PBToExpr : option PbExpr -> list FieldType -> StmtCtx -> res Expression;
  NewDistAggFunc : PbExpr -> list FieldType -> StmtCtx -> res Aggregation;
  codec_DecodeInt : bytes -> res (bytes * Z);
  MkDefCausInfo : Z -> FieldType -> bool -> DefCausInfo;
  NewByteDecoder : list DefCausInfo -> list Z -> (nat -> option (option bytes)) -> BytesDecoder;
  HandleNotNeeded : HandleStatus;
  HandleIsUnsigned : HandleStatus;
  HandleDefault : HandleStatus;
  terror_of : goerror -> option (Z * string);
  (** chunk: an empty chunk, a value decoded into a column, the encoding. *)
  Chunk : Type;
  NewChunk : list FieldType -> Chunk;
  DecodeOne : Location -> Chunk -> option bytes -> nat -> FieldType -> res Chunk;
  EncodeChunk : list FieldType -> Chunk -> bytes;
  NumRows : Chunk -> nat;
  ExprType_Avg : Z;
  TypeLonglong : Z;
  NewFieldType : Z -> FieldType;
  PbTypeToFieldType : option PbFieldType -> FieldType;
}.

(** The fields of the request handler that the interlock commands use. *)
Record dagHandler : Type := MkDagHandler {
  dh_rawStartKey : bytes;
  dh_rawEndKey : bytes;
  dh_isolationLevel : Z;
  dh_resolvedLocks : list Z;
}.

Section dag.
Context `{Datums} `{HC : HandleCodec} `{!RowCodec} `{!Expressions} `{!Aggregations} `{Sorter} `{MVCCStore}
  `{!Plans} `{GoFmt}.

(** ** Ranges *)

Definition maxStartKey (rangeStartKey regionStartKey : bytes) : bytes :=
  if bltb regionStartKey rangeStartKey then rangeStartKey else regionStartKey.

Definition minEndKey (rangeEndKey regionEndKey : bytes) : bytes :=
  if decide (length regionEndKey = 0%nat) then rangeEndKey
  else if bltb rangeEndKey regionEndKey then rangeEndKey else regionEndKey.

(** The loop of [extractKVRanges]. *)
Fixpoint extract_loop (h : dagHandler) (keyRanges : list (bytes * bytes)) (kvRanges : list KeyRange)
    : res (list KeyRange) :=
  match keyRanges with
  | [] => Ok kvRanges
  | (lowerKey, upperKey) :: keyRanges =>
      if bleb upperKey lowerKey then Err (ErrOther "invalid range, start should be smaller than end"%string)
      else if bleb upperKey (dh_rawStartKey h) then extract_loop h keyRanges kvRanges
      else if negb (bool_decide (length (dh_rawEndKey h) = 0%nat)) && bleb (dh_rawEndKey h) lowerKey
      then Ok kvRanges
      else extract_loop h keyRanges
             (kvRanges ++ [MkKeyRange (maxStartKey lowerKey (dh_rawStartKey h)) (minEndKey upperKey (dh_rawEndKey h))])
  end.

(** The swaps of [reverseKVRanges] from both ends, [i] up to the middle. *)
Fixpoint reverse_ranges (todo i : nat) (l : list KeyRange) : list KeyRange :=
  match todo with
  | O => l
  | S todo =>
      let j := (length l - i - 1)%nat in
      match l !! i, l !! j with
      | Some a, Some b => reverse_ranges todo (S i) (<[j := a]> (<[i := b]> l))
      | _, _ => l
      end
  end.

Definition reverseKVRanges (l : list KeyRange) : list KeyRange := reverse_ranges (length l / 2) 0 l.

Definition extractKVRanges (h : dagHandler) (keyRanges : list (bytes * bytes)) (descScan : bool)
    : res (list KeyRange) :=
  match extract_loop h keyRanges [] with
  | Ok kvRanges => Ok (if descScan then reverseKVRanges kvRanges else kvRanges)
  | Err e => Err e
  end.

(** ** The evaluation context *)

Definition flagsToStatementContext (flags : Z) (tz : Location) : StmtCtx :=
  let bit f := negb (Z.land flags f =? 0) in
  NewStatementContext [bit FlagIgnoreTruncate; bit FlagTruncateAsWarning; bit FlagInInsertStmt;
    bit FlagInSelectStmt; bit FlagInUFIDelateOrDeleteStmt; bit FlagOverflowAsWarning;
    bit FlagIgnoreZeroInDate; bit FlagDividedByZeroAsWarning] tz.

Definition fieldTypeFromPBDeferredCauset (col : DeferredCausetInfo) : FieldType :=
  NewFieldTypeOf (col_Tp col mod 256) (u64_wrap (col_Flag col)) (col_DeferredCausetLen col) (col_Decimal col)
    (col_Elems col) (DefCauslationName (col_DefCauslation col)).

(** The offset of each column; the last one of an identifier counts. *)
Fixpoint column_ids (i : nat) (cols : list DeferredCausetInfo) (ids : gmap Z nat) : gmap Z nat :=
  match cols with
  | [] => ids
  | col :: cols => column_ids (S i) cols (<[col_DeferredCausetId col := i]> ids)
  end.

Definition setDeferredCausetInfo (defcaus : list DeferredCausetInfo) (e : evalContext) : evalContext :=
  MkEvalCtx (column_ids 0 defcaus ∅) defcaus (fieldTypeFromPBDeferredCauset <$> defcaus) (ec_sc e).

(** ** Column references *)

Fixpoint isDuplicated (offsets : list Z) (offset : Z) : bool :=
  match offsets with
  | [] => false
  | idx :: offsets => if idx =? offset then true else isDuplicated offsets offset
  end.

Fixpoint extract_offsets (expr : PbExpr) (collector : list Z) : res (list Z) :=
  let '(MkPbExpr tp val children _) := expr in
  if tp =? ExprType_DeferredCausetRef then
    '(_, idx) ← codec_DecodeInt val;
    Ok (if isDuplicated collector idx then collector else collector ++ [idx])
  else
    (fix loop (children : list PbExpr) (collector : list Z) : res (list Z) :=
       match children with
       | [] => Ok collector
       | child :: children => collector ← extract_offsets child collector; loop children collector
       end) children collector.

(** A [nil] expression loses what was collected. *)
Definition extractOffsetsInExpr (expr : option PbExpr) (collector : list Z) : res (list Z) :=
  match expr with None => Ok [] | Some expr => extract_offsets expr collector end.

Fixpoint extractOffsets (exprs : list (option PbExpr)) (collector : list Z) : res (list Z) :=
  match exprs with
  | [] => Ok collector
  | expr :: exprs => collector ← extractOffsetsInExpr expr collector; extractOffsets exprs collector
  end.

Fixpoint convertToExprs (sc : StmtCtx) (fieldTps : list FieldType) (pbExprs : list (option PbExpr))
    : res (list Expression) :=
  match pbExprs with
  | [] => Ok []
  | expr :: pbExprs =>
      e ← PBToExpr expr fieldTps sc; es ← convertToExprs sc fieldTps pbExprs; Ok (e :: es)
  end.

(** ** Executors

    [dagCtx] is what the builders read; the evaluation context is the state
    that the builders of the scans set. *)

Record dagCtx : Type := MkDagCtx {
  dc_req : PosetDagRequest;
  dc_keyRanges : list (bytes * bytes);
  dc_startTS : Z;
}.

(** The buffer of decoded columns: one zero value per column. *)
Definition new_event (e : evalContext) : list Causet := replicate (length (ec_columnInfos e)) ZeroCauset.

Definition scan_startTS (c : dagCtx) : Z :=
  if dc_startTS c =? 0 then dr_StartTsFallback (dc_req c) else dc_startTS c.

Definition build_scan (h : dagHandler) (c : dagCtx) (desc : bool) (ranges : list KeyRange) : scanExec :=
  MkScan desc ranges (scan_startTS c) (dh_isolationLevel h) (dh_resolvedLocks h) 0 None 0
    (if dr_DefCauslectRangeCounts (dc_req c) then Some (replicate (length ranges) 0) else None).

(** One [rowcodec.DefCausInfo] per column. *)
Definition defcaus_infos (columns : list DeferredCausetInfo) (fieldTps : list FieldType) : list DefCausInfo :=
  zip_with (fun col ft => MkDefCausInfo (col_DeferredCausetId col) ft (col_PkHandle col)) columns fieldTps.

(** The default of a column for the row decoder: a panic, [nil] or a value. *)
Definition default_value (columns : list DeferredCausetInfo) (i : nat) : option (option bytes) :=
  col ← columns !! i;
  match col_DefaultVal col with
  | None => Some None
  | Some [] => None
  | Some v => Some (Some v)
  end.

Definition buildTableScan (h : dagHandler) (c : dagCtx) (columns : list DeferredCausetInfo) (desc : bool)
    : M evalContext executor :=
  modify (setDeferredCausetInfo columns);;
  ranges ← lift_res (extractKVRanges h (dc_keyRanges c) desc);
  e ← get;
  let rd := NewByteDecoder (defcaus_infos columns (ec_fieldTps e)) [-1] (default_value columns) in
  ret (XTableScan (MkBlockScan columns (ec_colIDs e) rd (build_scan h c desc ranges))).

(** The status of the handle, and the columns without it. *)
Definition handle_status (columns : list DeferredCausetInfo) (last : DeferredCausetInfo)
    : HandleStatus * list DeferredCausetInfo :=
  if col_PkHandle last
  then (if HasUnsignedFlag (u64_wrap (col_Flag last)) then HandleIsUnsigned else HandleDefault, removelast columns)
  else if col_DeferredCausetId last =? ExtraHandleID then (HandleNotNeeded, removelast columns)
  else (HandleNotNeeded, columns).

Definition buildIndexScan (h : dagHandler) (c : dagCtx) (columns : list DeferredCausetInfo) (desc unique : bool)
    : M evalContext executor :=
  modify (setDeferredCausetInfo columns);;
  last ← lift_opt (last columns);
  let '(hdStatus, columns) := handle_status columns last in
  ranges ← lift_res (extractKVRanges h (dc_keyRanges c) desc);
  e ← get;
  ret (XIndexScan (MkIndexScan unique (length columns) hdStatus (defcaus_infos columns (ec_fieldTps e))
         (build_scan h c desc ranges))).

Definition buildSelection (conditions : list PbExpr) : M evalContext executor :=
  e ← get;
  offsets ← lift_res (extractOffsets (Some <$> conditions) []);
  conds ← lift_res (convertToExprs (ec_sc e) (ec_fieldTps e) (Some <$> conditions));
  ret (XSelection (MkSelection conds offsets (new_event e) None)).

(** The loop over the aggregates, then the one over the group-by items. *)
Fixpoint agg_loop (e : evalContext) (aggFunc : list PbExpr) (aggs : list Aggregation) (offsets : list Z)
    : res (list Aggregation * list Z) :=
  match aggFunc with
  | [] => Ok (aggs, offsets)
  | expr :: aggFunc =>
      aggExpr ← NewDistAggFunc expr (ec_fieldTps e) (ec_sc e);
      offsets ← extractOffsetsInExpr (Some expr) offsets;
      agg_loop e aggFunc (aggs ++ [aggExpr]) offsets
  end.

Definition getAggInfo (e : evalContext) (aggFunc groupBy : list PbExpr)
    : res (list Aggregation * list Expression * list Z) :=
  '(aggs, offsets) ← agg_loop e aggFunc [] [];
  offsets ← extractOffsets (Some <$> groupBy) offsets;
  groupBys ← convertToExprs (ec_sc e) (ec_fieldTps e) (Some <$> groupBy);
  Ok (aggs, groupBys, offsets).

Definition buildHashAgg (aggFunc groupBy : list PbExpr) : M evalContext executor :=
  e ← get;
  '(aggs, groupBys, offsets) ← lift_res (getAggInfo e aggFunc groupBy);
  ret (XHashAgg (MkHashAgg aggs ∅ groupBys offsets (new_event e) ∅ [] [] false 0 None)).

Definition buildStreamAgg (aggFunc groupBy : list PbExpr) : M evalContext executor :=
  e ← get;
  '(aggs, groupBys, offsets) ← lift_res (getAggInfo e aggFunc groupBy);
  ret (XStreamAgg (MkStreamAgg aggs (new_contexts e aggs) groupBys offsets (new_event e) [] false [] false false None)).

Definition buildTopN (orderBy : list ByItem) (limit : Z) : M evalContext executor :=
  e ← get;
  offsets ← lift_res (extractOffsets (by_Expr <$> orderBy) []);
  conds ← lift_res (convertToExprs (ec_sc e) (ec_fieldTps e) (by_Expr <$> orderBy));
  ret (XTopN (MkTopN (MkTopNHeap (by_Desc <$> orderBy) [] None (signed_of 64 limit) 0) offsets conds
         (new_event e) 0 false None)).

Definition buildExec (h : dagHandler) (c : dagCtx) (curr : PbExecutor)
    : M evalContext (executor * option PbExecutor) :=
  match curr with
  | PbTableScan columns desc => e ← buildTableScan h c columns desc; ret (e, None)
  | PbIndexScan columns desc unique => e ← buildIndexScan h c columns desc unique; ret (e, None)
  | PbSelection conditions child => e ← buildSelection conditions; ret (e, child)
  | PbAggregation aggFunc groupBy child => e ← buildHashAgg aggFunc groupBy; ret (e, child)
  | PbStreamAgg aggFunc groupBy child => e ← buildStreamAgg aggFunc groupBy; ret (e, child)
  | PbTopN orderBy limit child => e ← buildTopN orderBy limit; ret (e, child)
  | PbLimit limit child => ret (XLimit (MkLimit limit 0 None), child)
  | PbOther tp => fail (ErrOther "this exec type doesn't support yet."%string)
  end.

(** The parent is built before its child. *)
Fixpoint buildPosetDagForTiFlash (h : dagHandler) (c : dagCtx) (farther : PbExecutor) : M evalContext executor :=
  '(curr, _) ← buildExec h c farther;
  let with_child (child : option PbExecutor) :=
    match child with
    | None => ret curr
    | Some child => childExec ← buildPosetDagForTiFlash h c child; ret (SetSrcExec (Some childExec) curr)
    end in
  match farther with
  | PbTableScan _ _ | PbIndexScan _ _ _ | PbOther _ => ret curr
  | PbSelection _ child | PbAggregation _ _ child | PbStreamAgg _ _ child | PbTopN _ _ child | PbLimit _ child =>
      with_child child
  end.

Fixpoint build_chain (h : dagHandler) (c : dagCtx) (executors : list PbExecutor) (src : option executor)
    : M evalContext (option executor) :=
  match executors with
  | [] => ret src
  | ex :: executors =>
      '(curr, _) ← buildExec h c ex;
      build_chain h c executors (Some (SetSrcExec src curr))
  end.

Definition buildPosetDag (h : dagHandler) (c : dagCtx) (executors : list PbExecutor)
    : M evalContext (option executor) := build_chain h c executors None.

(** The executor, the evaluation context it runs in and the plan. *)
Definition buildPosetDagExecutor (h : dagHandler) (req : Request)
    : out (executor * evalContext * PosetDagRequest) :=
  if decide (length (rq_Ranges req) = 0%nat) then Fail (ErrOther "request range is null"%string) else
  if negb (rq_Tp req =? ReqTypePosetDag) then Fail (ErrOther "unsupported request type"%string) else
  match UnmarshalPosetDag (rq_Data req) with
  | Err err => Fail err
  | Ok dagReq =>
      match ConstructTimeZone (dr_TimeZoneName dagReq) (signed_of 64 (dr_TimeZoneOffset dagReq)) with
      | Err err => Fail err
      | Ok tz =>
          let c := MkDagCtx dagReq (rq_Ranges req) (rq_StartTs req) in
          let e0 := MkEvalCtx ∅ [] [] (flagsToStatementContext (dr_Flags dagReq) tz) in
          let build : M evalContext executor :=
            match dr_Executors dagReq with
            | [] => root ← lift_opt (dr_RootExecutor dagReq); buildPosetDagForTiFlash h c root
            | executors => e ← buildPosetDag h c executors; lift_opt e
            end in
          match build e0 with
          | (Ret e, ec) => Ret (e, ec, dagReq)
          | (Fail err, _) => Fail err
          | (Panic, _) => Panic
          | (NoFuel, _) => NoFuel
          end
      end
  end.

(** ** The response *)

(** All the rows of an executor, and the error that ended them. *)
Fixpoint drain (next : M executor (option row)) (fuel : nat) (rows : list row)
    : M executor (list row * option goerror) := fun e =>
  match fuel with
  | O => (NoFuel, e)
  | S fuel =>
      match next e with
      | (Ret (Some event), e) => drain next fuel (rows ++ [event]) e
      | (Ret None, e) => (Ret (rows, None), e)
      | (Fail err, e) => (Ret (rows, Some err), e)
      | (Panic, e) => (Panic, e)
      | (NoFuel, e) => (NoFuel, e)
      end
  end.

Definition rowsPerChunk : nat := 64.

(** [requestedRow]: the columns that the request asks for. *)
Fixpoint requested_row (event : row) (colOrdinal : list Z) : option bytes :=
  match colOrdinal with
  | [] => Some []
  | ordinal :: colOrdinal =>
      col ← at_ event ordinal; rest ← requested_row event colOrdinal; Some (default [] col ++ rest)
  end.

(** The data of the last chunk grows. *)
Definition appendRow (chunks : list bytes) (data : bytes) (rowCnt : nat) : option (list bytes) :=
  let chunks := if decide (rowCnt mod rowsPerChunk = 0)%nat then chunks ++ [[]] else chunks in
  cur ← last chunks;
  Some (removelast chunks ++ [cur ++ data]).

Fixpoint encode_default (rows : list row) (i : nat) (colOrdinal : list Z) (chunks : list bytes)
    : option (list bytes) :=
  match rows with
  | [] => Some chunks
  | event :: rows =>
      data ← requested_row event colOrdinal;
      chunks ← appendRow chunks data i;
      encode_default rows (S i) colOrdinal chunks
  end.

Definition encodeDefault (rows : list row) (colOrdinal : list Z) : option (list bytes) :=
  encode_default rows 0 colOrdinal [].

(** The columns of a row, decoded into the chunk. *)
Fixpoint chunk_row (loc : Location) (colTypes : list FieldType) (event : row) (colOrdinal : list Z) (j : nat)
    (chk : Chunk) : out Chunk :=
  match colOrdinal with
  | [] => Ret chk
  | ordinal :: colOrdinal =>
      match at_ event ordinal, at_ colTypes ordinal with
      | Some col, Some ft =>
          match DecodeOne loc chk col j ft with
          | Ok chk => chunk_row loc colTypes event colOrdinal (S j) chk
          | Err e => Fail e
          end
      | _, _ => Panic
      end
  end.

Fixpoint chunk_rows (loc : Location) (colTypes fts : list FieldType) (colOrdinal : list Z) (rows : list row)
    (i : nat) (chk : Chunk) (chunks : list bytes) : out (list bytes) :=
  match rows with
  | [] => Ret (if decide (0 < NumRows chk)%nat then chunks ++ [EncodeChunk fts chk] else chunks)
  | event :: rows =>
      match chunk_row loc colTypes event colOrdinal 0 chk with
      | Ret chk =>
          if decide (i mod rowsPerChunk = rowsPerChunk - 1)%nat
          then chunk_rows loc colTypes fts colOrdinal rows (S i) (NewChunk fts) (chunks ++ [EncodeChunk fts chk])
          else chunk_rows loc colTypes fts colOrdinal rows (S i) chk chunks
      | Fail e => Fail e
      | Panic => Panic
      | NoFuel => NoFuel
      end
  end.

Definition encodeChunk (rows : list row) (colTypes : list FieldType) (colOrdinal : list Z) (loc : Location)
    : out (list bytes) :=
  match mapM (at_ colTypes) colOrdinal with
  | None => Panic
  | Some fts => chunk_rows loc colTypes fts colOrdinal rows 0 (NewChunk fts) []
  end.

(** The types of the columns of the root executor. *)
Definition agg_schema (aggFunc groupBy : list PbExpr) : list FieldType :=
  (aggFunc ≫= fun '(MkPbExpr tp _ _ ft) =>
     (if tp =? ExprType_Avg then [NewFieldType TypeLonglong] else []) ++ [PbTypeToFieldType ft]) ++
  ((fun '(MkPbExpr _ _ _ ft) => PbTypeToFieldType ft) <$> groupBy).

Definition constructRespSchema (dagReq : PosetDagRequest) (ec : evalContext) : option (list FieldType) :=
  root ← match dr_Executors dagReq with [] => dr_RootExecutor dagReq | executors => last executors end;
  match root with
  | PbAggregation aggFunc groupBy _ | PbStreamAgg aggFunc groupBy _ => Some (agg_schema aggFunc groupBy)
  | _ => Some (ec_fieldTps ec)
  end.

Definition toPBError (err : goerror) : PbError :=
  match terror_of err with
  | Some (code, msg) => MkPbError code msg
  | None => MkPbError 1 (error_string err)
  end.

Definition initSelectResponse (err : option goerror) (counts : list Z) : SelectResponse :=
  MkSelect (toPBError <$> err) counts [] EncodeType_TypeDefault.

Definition fillUFIDelata4SelectResponse (selResp : SelectResponse) (dagReq : PosetDagRequest) (ec : evalContext)
    (rows : list row) : out SelectResponse :=
  let fill chunks tp := MkSelect (sel_Error selResp) (sel_OutputCounts selResp) chunks tp in
  if dr_EncodeType dagReq =? EncodeType_TypeDefault then
    match encodeDefault rows (dr_OutputOffsets dagReq) with
    | Some chunks => Ret (fill chunks EncodeType_TypeDefault)
    | None => Panic
    end
  else if dr_EncodeType dagReq =? EncodeType_TypeChunk then
    match constructRespSchema dagReq ec with
    | None => Panic
    | Some colTypes =>
        match encodeChunk rows colTypes (dr_OutputOffsets dagReq) (TimeZone (ec_sc ec)) with
        | Ret chunks => Ret (fill chunks EncodeType_TypeChunk)
        | Fail e => Fail e
        | Panic => Panic
        | NoFuel => NoFuel
        end
    end
  else Ret selResp.

Definition locked_info (err : option goerror) : option LockedInfo :=
  match err with
  | Some (ErrLocked Key Primary StartTS _ TTL _ _) => Some (MkLocked Key Primary StartTS TTL)
  | _ => None
  end.

Definition buildResp (selResp : SelectResponse) (err : option goerror) : Response :=
  match MarshalSelect selResp with
  | Err e => MkResponse [] (error_string e) (locked_info err) None
  | Ok data => MkResponse data EmptyString (locked_info err) None
  end.

(** The error of a response that could not be filled is not among its data. *)
Definition handleCoFIDelAGRequest (st : Store) (fuel : nat) (h : dagHandler) (req : Request) : out Response :=
  match buildPosetDagExecutor h req with
  | Fail err => Ret (MkResponse [] (error_string err) None None)
  | Panic => Panic
  | NoFuel => NoFuel
  | Ret (e, ec, dagReq) =>
      match drain (Next ec st fuel) fuel [] e with
      | (Ret (rows, err), e) =>
          match Counts e with
          | None => Panic
          | Some counts =>
              let selResp := initSelectResponse err counts in
              match err with
              | Some err => Ret (buildResp selResp (Some err))
              | None =>
                  match fillUFIDelata4SelectResponse selResp dagReq ec rows with
                  | Ret selResp => Ret (buildResp selResp None)
                  | Fail e => Ret (buildResp selResp (Some e))
                  | Panic => Panic
                  | NoFuel => NoFuel
                  end
              end
          end
      | (Fail err, _) => Fail err
      | (Panic, _) => Panic
      | (NoFuel, _) => NoFuel
      end
  end.

(** ** Streams *)

Record streamClient : Type := MkStreamClient {
  sc_req : PosetDagRequest;
  sc_exec : executor;
  sc_evalCtx : evalContext;
  sc_finished : bool;
}.

Definition handleINTERLOCKStream (h : dagHandler) (req : Request) : out streamClient :=
  match buildPosetDagExecutor h req with
  | Ret (e, ec, dagReq) => Ret (MkStreamClient dagReq e ec false)
  | Fail err => Fail err
  | Panic => Panic
  | NoFuel => NoFuel
  end.

(** Up to [count] rows, appended to the data of the chunk: the data, and
    whether the rows ended, or the error that ended them. *)
Fixpoint read_block (next : M executor (option row)) (offsets : list Z) (count : nat) (data : bytes)
    : M executor (bytes * (bool + goerror)) := fun e =>
  match count with
  | O => (Ret (data, inl false), e)
  | S count =>
      match next e with
      | (Ret (Some event), e) =>
          match requested_row event offsets with
          | None => (Panic, e)
          | Some d => read_block next offsets count (data ++ d) e
          end
      | (Ret None, e) => (Ret (data, inl true), e)
      | (Fail err, e) => (Ret (data, inr err), e)
      | (Panic, e) => (Panic, e)
      | (NoFuel, e) => (NoFuel, e)
      end
  end.

(** What [readBlockFromExecutor] returns besides the error. *)
Record blockRead : Type := MkBlock {
  bl_chunk : bytes;
  bl_finish : bool;
  bl_range : bytes * bytes;
  bl_counts : list Z;
  bl_err : option goerror;
}.

Definition readBlockFromExecutor (st : Store) (fuel : nat) (ec : evalContext) (offsets : list Z)
    : M executor blockRead :=
  e ← get;
  e ← lift_opt (ResetCounts e);
  modify (fun _ => e);;
  '(start, desc) ← lift_opt (Cursor e);
  '(chunk, finish) ← read_block (Next ec st fuel) offsets rowsPerChunk [];
  e ← get;
  '(end_, _) ← lift_opt (Cursor e);
  match finish with
  | inr err => ret (MkBlock chunk false (start, end_) [] (Some err))
  | inl finish =>
      counts ← lift_opt (Counts e);
      ret (MkBlock chunk finish (if desc : bool then (end_, start) else (start, end_)) counts None)
  end.

Inductive recvResult : Type :=
| EOF
| Cancelled (e : goerror)
| Received (r : Response).

(** The response to a block that was read. *)
Definition stream_response (b : blockRead) : Response :=
  let resp data other locked := MkResponse data other locked (Some (bl_range b)) in
  match bl_err b with
  | Some err =>
      match locked_info (Some err) with
      | Some l => resp [] EmptyString (Some l)
      | None => resp [] (error_string err) None
      end
  | None =>
      match MarshalChunk (bl_chunk b) with
      | Err e => resp [] (error_string e) None
      | Ok data =>
          match MarshalStream (MkStream None data (bl_counts b)) with
          | Err e => resp [] (error_string e) None
          | Ok data => resp data EmptyString None
          end
      end
  end.

(** [cancelled] is the error of a context that is done. *)
Definition Recv (st : Store) (fuel : nat) (cancelled : option goerror) : M streamClient recvResult :=
  mock ← get;
  match cancelled with
  | Some e => ret (Cancelled e)
  | None =>
      if sc_finished mock then ret EOF else
      b ← zoom sc_exec (fun e mock => MkStreamClient (sc_req mock) e (sc_evalCtx mock) (sc_finished mock))
            (readBlockFromExecutor st fuel (sc_evalCtx mock) (dr_OutputOffsets (sc_req mock)));
      (if bl_finish b : bool
       then modify (fun mock => MkStreamClient (sc_req mock) (sc_exec mock) (sc_evalCtx mock) true)
       else ret tt);;
      ret (Received (stream_response b))
  end.
End dag.
