(* ===== verification/InterlockRange.v ===== *)
(** * The ranges of a request (mockeinsteindb/interlocking_handler_dag.go)

    The handler clips the ranges of a request to its region.  The ranges it
    scans hold exactly the keys of the request's ranges that are in the
    region, each range once, in the order of the scan.  The second part is about
    responses and streams, the third about the commands that carry them. *)

From stdpp Require Import base gmap list sorting option strings.
From Stdlib Require Import Strings.Byte ZArith Lia Sorted.
From S2P Require Import Prelude External Mvcc MvccOps MvccScan MvccReverse Cluster Rpc GoHeap GoMonad KvKey Interlock InterlockExec InterlockRuns InterlockStore InterlockScan InterlockKeeps InterlockDag.

Local Open Scope Z_scope.

Lemma reverse_ranges_lookup todo : forall i (l : list KeyRange) n,
  (i + todo <= length l / 2)%nat -> (n < length l)%nat ->
  reverse_ranges todo i l !! n =
    if decide ((i <= n < i + todo)%nat \/ (i <= length l - n - 1 < i + todo)%nat)
    then l !! (length l - n - 1)%nat else l !! n.
Proof.
  induction todo as [|todo IH]; intros i l n Ht Hn; [rewrite decide_False by lia; done|].
  cbn [reverse_ranges]. pose proof (Nat.div_mod_eq (length l) 2) as D.
  pose proof (Nat.mod_upper_bound (length l) 2 ltac:(lia)) as U.
  destruct (lookup_lt_is_Some_2 l i) as [a Ha]; [lia|].
  destruct (lookup_lt_is_Some_2 l (length l - i - 1)) as [b Hb]; [lia|].
  rewrite Ha, Hb. rewrite IH; rewrite !length_insert; [|lia|lia].
  destruct (decide (n = i)) as [->|Ni].
  { rewrite decide_False, decide_True by lia. rewrite list_lookup_insert_ne by lia.
    rewrite list_lookup_insert_eq by lia. done. }
  destruct (decide (n = length l - i - 1)%nat) as [->|Nj].
  { rewrite decide_False, decide_True by lia. rewrite list_lookup_insert_eq by (rewrite length_insert; lia).
    rewrite <- Ha. f_equal. lia. }
  rewrite !list_lookup_insert_ne by lia. repeat case_decide; try done; lia.
Qed.

Lemma length_reverse_ranges todo : forall i l, length (reverse_ranges todo i l) = length l.
Proof.
  induction todo as [|todo IH]; intros i l; [done|]. cbn [reverse_ranges].
  destruct (l !! i); [|done]. destruct (l !! _); [|done]. by rewrite IH, !length_insert.
Qed.

Lemma reverseKVRanges_rev l : reverseKVRanges l = rev l.
Proof.
  apply list_eq. intros n. unfold reverseKVRanges.
  pose proof (Nat.div_mod_eq (length l) 2) as D. pose proof (Nat.mod_upper_bound (length l) 2 ltac:(lia)) as U.
  destruct (decide (n < length l)%nat) as [L|L].
  - rewrite reverse_ranges_lookup, rev_lookup by lia. case_decide; f_equal; lia.
  - rewrite !lookup_ge_None_2; [done|rewrite length_rev; lia|].
    rewrite length_reverse_ranges. lia.
Qed.

(** ** Clipping *)

Section clip.
Context (h : dagHandler).

(** A range of keys with a bound. *)
Definition proper (r : bytes * bytes) : Prop := r.1 <b r.2.

Definition in_region (k : bytes) : Prop := key_range (dh_rawStartKey h) (dh_rawEndKey h) k.

Definition clip (r : bytes * bytes) : KeyRange :=
  MkKeyRange (maxStartKey r.1 (dh_rawStartKey h)) (minEndKey r.2 (dh_rawEndKey h)).

(** The two ranges share a key. *)
Definition meets (r : bytes * bytes) : Prop :=
  dh_rawStartKey h <b r.2 /\ (dh_rawEndKey h = [] \/ r.1 <b dh_rawEndKey h).

#[export] Instance meets_dec r : Decision (meets r).
Proof. unfold meets. apply _. Defined.

Lemma max_ble a b k : maxStartKey a b <=b k <-> a <=b k /\ b <=b k.
Proof.
  unfold maxStartKey. destruct (bltb_spec b a) as [L|L].
  - split; [|tauto]. intros K. split; [done|]. eapply ble_trans; [|exact K]. by apply blt_ble.
  - apply not_blt in L. split; [|tauto]. intros K. split; [by eapply ble_trans|done].
Qed.

Lemma min_blt a b k : a <> [] -> k <b minEndKey a b <-> k <b a /\ (b = [] \/ k <b b).
Proof.
  intros Na. unfold minEndKey. case_decide as D.
  - apply nil_length_inv in D as ->. tauto.
  - assert (b <> []) by (by intros ->). destruct (bltb_spec a b) as [L|L].
    + split; [|tauto]. intros K. split; [done|]. right. by eapply blt_trans.
    + apply not_blt in L. split; [|naive_solver]. intros K. split; [by eapply blt_ble_trans|by right].
Qed.

Lemma proper_end r : proper r -> r.2 <> [].
Proof. unfold proper. intros P E. rewrite E in P. by destruct (r.1). Qed.

Lemma min_end_nonempty a b : a <> [] -> minEndKey a b <> [].
Proof.
  intros Na. unfold minEndKey. case_decide as D; [done|]. destruct (bltb_spec a b); [done|].
  intros ->. by apply D.
Qed.

Lemma clip_keys r k : proper r ->
  key_range (kr_StartKey (clip r)) (kr_EndKey (clip r)) k <-> in_region k /\ r.1 <=b k /\ k <b r.2.
Proof.
  intros P. pose proof (proper_end r P) as Ne. unfold in_region, key_range, clip. cbn [kr_StartKey kr_EndKey].
  rewrite max_ble, min_blt by done. pose proof (min_end_nonempty r.2 (dh_rawEndKey h) Ne). tauto.
Qed.

(** The ranges of a request are in order and do not overlap. *)
Definition in_order (ranges : list (bytes * bytes)) : Prop :=
  Forall proper ranges /\ StronglySorted (fun a b => a.2 <=b b.1) ranges.

Lemma extract_loop_clip ranges : in_order ranges -> forall acc,
  extract_loop h ranges acc = Ok (acc ++ (clip <$> filter meets ranges)).
Proof.
  intros [F S]. induction S as [|[lo hi] ranges S IH Fs]; intros acc; [by rewrite app_nil_r|].
  apply Forall_cons in F as [P F]. cbn [extract_loop]. unfold proper in P. cbn in P.
  destruct (bleb_spec hi lo) as [L|_]; [by apply not_blt in L|].
  destruct (bleb_spec hi (dh_rawStartKey h)) as [L|L].
  { rewrite IH by done. rewrite filter_cons, decide_False; [done|]. intros [M _]. by apply not_ble in M. }
  apply not_ble in L.
  destruct (bool_decide_reflect (length (dh_rawEndKey h) = 0%nat)) as [E|E]; cbn [negb andb].
  - apply nil_length_inv in E. rewrite IH by done. rewrite filter_cons, decide_True by (split; [done|by left]).
    rewrite fmap_cons. by rewrite <- app_assoc.
  - assert (dh_rawEndKey h <> []) as Ne by by intros E'; rewrite E' in E.
    destruct (bleb_spec (dh_rawEndKey h) lo) as [L2|L2].
    + rewrite list_filter_none; [by rewrite app_nil_r|]. intros [lo' hi'] Hr [_ [M|M]]; [done|]. cbn in M.
      apply elem_of_cons in Hr as [[= -> ->]|Hr]; [by apply not_blt in M|].
      rewrite Forall_forall in Fs. specialize (Fs _ Hr). cbn in Fs. apply (blt_irrefl lo').
      eapply blt_trans; [exact M|]. eapply ble_blt_trans; [exact L2|]. by eapply blt_ble_trans.
    + apply not_ble in L2. rewrite IH by done. rewrite filter_cons, decide_True by (split; [done|by right]).
      rewrite fmap_cons. by rewrite <- app_assoc.
Qed.

Lemma extractKVRanges_clip ranges desc : in_order ranges ->
  extractKVRanges h ranges desc =
    Ok (if desc then rev (clip <$> filter meets ranges) else clip <$> filter meets ranges).
Proof.
  intros O. unfold extractKVRanges. rewrite extract_loop_clip by done. cbn [app].
  destruct desc; [|done]. by rewrite reverseKVRanges_rev.
Qed.

(** A range that meets the region in a key is among those clipped. *)
Lemma in_region_meets r k : in_region k -> r.1 <=b k -> k <b r.2 -> meets r.
Proof.
  intros [A B] C D. split; [by eapply ble_blt_trans|]. destruct B as [B|B]; [by left|right]. by eapply ble_blt_trans.
Qed.

Lemma clip_sorted l : Forall proper l -> StronglySorted (fun a b => a.2 <=b b.1) l ->
  StronglySorted (fun a b => kr_EndKey a <=b kr_StartKey b) (clip <$> l).
Proof.
  intros F S. induction S as [|a r S IH Fs]; [constructor|]. apply Forall_cons in F as [P F].
  rewrite fmap_cons. constructor; [by apply IH|].
  apply Forall_fmap. eapply Forall_impl; [exact Fs|]. intros b Hb. cbn in Hb.
  apply not_blt. intros L. unfold clip in L. cbn in L. apply min_blt in L as [L _]; [|by apply proper_end].
  apply (blt_irrefl (maxStartKey b.1 (dh_rawStartKey h))). eapply blt_ble_trans; [exact L|].
  eapply ble_trans; [exact Hb|]. apply (max_ble b.1 (dh_rawStartKey h)). apply ble_refl.
Qed.

Lemma proper_meets ranges : Forall proper ranges -> Forall proper (filter meets ranges).
Proof.
  rewrite !Forall_forall. intros F q Hq. apply list_elem_of_filter in Hq as [_ Hq]. by apply F.
Qed.

(** The keys of the clipped ranges. *)
Lemma clipped_members ranges k : Forall proper ranges ->
  (exists r, r ∈ clip <$> filter meets ranges /\ key_range (kr_StartKey r) (kr_EndKey r) k) <->
  in_region k /\ exists q, q ∈ ranges /\ q.1 <=b k /\ k <b q.2.
Proof.
  rewrite Forall_forall. intros F. split.
  - intros (r & Hr & K). apply list_elem_of_fmap in Hr as (q & -> & Hq). apply list_elem_of_filter in Hq as [_ Hq].
    apply clip_keys in K as [K1 K2]; [|by apply F]. eauto.
  - intros (K & q & Hq & A & B). exists (clip q). split; [|apply clip_keys; [by apply F|done]].
    apply list_elem_of_fmap. exists q. split; [done|]. apply list_elem_of_filter. split; [|done].
    by eapply in_region_meets.
Qed.

(** C12: Of a request whose ranges are proper, sorted and disjoint, and for a
    region that is not empty, the ranges that are scanned hold exactly the keys of the region
    that are in some range of the request; they are proper ranges, in the order
    of the scan, and do not overlap. *)
Theorem extractKVRanges_exact ranges desc :
  in_order ranges -> dh_rawEndKey h = [] \/ dh_rawStartKey h <b dh_rawEndKey h ->
  exists kvs, extractKVRanges h ranges desc = Ok kvs /\
    (forall k, (exists r, r ∈ kvs /\ key_range (kr_StartKey r) (kr_EndKey r) k) <->
      in_region k /\ exists q, q ∈ ranges /\ q.1 <=b k /\ k <b q.2) /\
    Forall (fun r => kr_StartKey r <b kr_EndKey r) kvs /\
    StronglySorted (fun a b => if desc then kr_EndKey b <=b kr_StartKey a else kr_EndKey a <=b kr_StartKey b) kvs.
Proof.
  intros O Hr. eexists. split; [by apply extractKVRanges_clip|].
  pose proof O as [F S]. set (l := clip <$> filter meets ranges).
  assert (El : forall r, r ∈ (if desc then rev l else l) <-> r ∈ l) by (intros r; destruct desc; [apply elem_of_rev|done]).
  split; [|split].
  - intros k. setoid_rewrite El. by apply clipped_members.
  - apply Forall_forall. intros r Hr'. apply El in Hr'. apply list_elem_of_fmap in Hr' as (q & -> & Hq).
    apply list_elem_of_filter in Hq as [[M1 M2] Hq]. rewrite Forall_forall in F.
    specialize (F q Hq). unfold clip. cbn [kr_StartKey kr_EndKey]. apply min_blt; [by apply proper_end|].
    unfold maxStartKey. destruct (bltb_spec (dh_rawStartKey h) q.1); tauto.
  - assert (Sl : StronglySorted (fun a b => kr_EndKey a <=b kr_StartKey b) l).
    { apply clip_sorted; [by apply proper_meets|by apply StronglySorted_filter]. }
    destruct desc; [|done]. by apply StronglySorted_rev in Sl.
Qed.
End clip.

(** * Responses and streams (mockeinsteindb/interlocking_handler_dag.go)

    The handler answers with the requested columns of all the rows that the
    executor of the plan yields, 64 rows to a chunk; a stream serves the same
    chunks one at a time, with adjacent key ranges; and the commands of the RPC
    client that carry a query, a stream or a batch of queries. *)

(** ** Chunks *)

(** The data of chunk [j], and of all the chunks. *)
Definition chunk_at (ds : list bytes) (j : nat) : bytes :=
  concat (take rowsPerChunk (drop (rowsPerChunk * j) ds)).

Definition all_chunks (ds : list bytes) : list bytes :=
  chunk_at ds <$> seq 0 ((length ds + (rowsPerChunk - 1)) / rowsPerChunk).

Lemma chunk_at_old ds d j : (rowsPerChunk * S j <= length ds)%nat -> chunk_at (ds ++ [d]) j = chunk_at ds j.
Proof.
  intros L. unfold chunk_at. f_equal. rewrite drop_app_le by lia.
  rewrite take_app_le; [done|]. rewrite length_drop. lia.
Qed.

Lemma chunk_at_last ds d j : (rowsPerChunk * j <= length ds < rowsPerChunk * S j)%nat ->
  chunk_at (ds ++ [d]) j = chunk_at ds j ++ d.
Proof.
  intros L. unfold chunk_at. rewrite drop_app_le by lia.
  rewrite !take_ge by (rewrite ?length_app, length_drop; cbn [length]; unfold rowsPerChunk in *; lia).
  rewrite concat_app. cbn. by rewrite app_nil_r.
Qed.

(** Full chunks, and what does not fill one. *)
Lemma all_chunks_eq ds q r : length ds = (rowsPerChunk * q + r)%nat -> (r < rowsPerChunk)%nat ->
  all_chunks ds = (chunk_at ds <$> seq 0 q) ++ (if decide (r = 0)%nat then [] else [chunk_at ds q]).
Proof.
  intros L Hr. unfold all_chunks. rewrite L. case_decide as D.
  - replace ((rowsPerChunk * q + r + (rowsPerChunk - 1)) / rowsPerChunk)%nat with q.
    + by rewrite app_nil_r.
    + subst r. rewrite Nat.mul_comm, Nat.add_0_r, Nat.div_add_l by done. unfold rowsPerChunk. cbn. lia.
  - replace ((rowsPerChunk * q + r + (rowsPerChunk - 1)) / rowsPerChunk)%nat with (S q).
    + by rewrite seq_S, fmap_app.
    + replace (rowsPerChunk * q + r + (rowsPerChunk - 1))%nat with (S q * rowsPerChunk + (r - 1))%nat by (unfold rowsPerChunk in *; lia).
      rewrite Nat.div_add_l, (Nat.div_small (r - 1)) by (unfold rowsPerChunk in *; lia). lia.
Qed.

Lemma chunks_full ds d n : (rowsPerChunk * n <= length ds)%nat ->
  chunk_at (ds ++ [d]) <$> seq 0 n = chunk_at ds <$> seq 0 n.
Proof.
  intros L. apply list_fmap_ext. intros i j Hj. apply lookup_seq in Hj as [-> Hj].
  apply chunk_at_old. unfold rowsPerChunk in *. lia.
Qed.

Lemma appendRow_chunks ds d : appendRow (all_chunks ds) d (length ds) = Some (all_chunks (ds ++ [d])).
Proof.
  pose proof (Nat.div_mod_eq (length ds) rowsPerChunk) as D.
  pose proof (Nat.mod_upper_bound (length ds) rowsPerChunk ltac:(done)) as U.
  set (q := (length ds / rowsPerChunk)%nat) in *. set (r := (length ds mod rowsPerChunk)%nat) in *.
  unfold appendRow. fold r. rewrite (all_chunks_eq ds q r D U).
  destruct (decide (r = 0)%nat) as [R|R].
  - rewrite app_nil_r, last_snoc. step_opt. rewrite removelast_last.
    rewrite (all_chunks_eq (ds ++ [d]) q 1), decide_False by (rewrite ?length_app; cbn [length]; unfold rowsPerChunk in *; lia).
    rewrite chunks_full by lia. rewrite chunk_at_last by (unfold rowsPerChunk in *; lia).
    unfold chunk_at. by rewrite (drop_ge ds) by lia.
  - rewrite last_snoc. step_opt. rewrite removelast_last, <- chunk_at_last by (unfold rowsPerChunk in *; lia).
    destruct (decide (r = rowsPerChunk - 1)%nat) as [F|F].
    + rewrite (all_chunks_eq (ds ++ [d]) (S q) 0), decide_True
        by (rewrite ?length_app; cbn [length]; unfold rowsPerChunk in *; lia).
      rewrite seq_S, fmap_app, chunks_full by lia. by rewrite app_nil_r.
    + rewrite (all_chunks_eq (ds ++ [d]) q (S r)), decide_False
        by (rewrite ?length_app; cbn [length]; unfold rowsPerChunk in *; lia).
      by rewrite chunks_full by lia.
Qed.

(** The chunks hold the rows in their order. *)
Lemma concat_chunks ds : concat (all_chunks ds) = concat ds.
Proof.
  induction ds as [|d ds IH] using rev_ind; [done|].
  pose proof (appendRow_chunks ds d) as E. unfold appendRow in E. rewrite concat_app. cbn [concat]. rewrite app_nil_r, <- IH.
  set (cs := if decide _ then _ else _) in E. destruct (last cs) as [c|] eqn:El; [|done].
  injection E as <-. apply last_Some in El as [l El]. rewrite El, removelast_last, concat_app. cbn [concat].
  rewrite app_nil_r, app_assoc. f_equal. transitivity (concat cs).
  - rewrite El, concat_app. cbn [concat]. by rewrite app_nil_r.
  - unfold cs. case_decide; [|done]. rewrite concat_app. cbn [concat]. by rewrite app_nil_r.
Qed.

Lemma chunks_cons ds : (rowsPerChunk <= length ds)%nat ->
  all_chunks ds = concat (take rowsPerChunk ds) :: all_chunks (drop rowsPerChunk ds).
Proof.
  intros L. unfold all_chunks. rewrite length_drop.
  replace ((length ds + (rowsPerChunk - 1)) / rowsPerChunk)%nat with
    (S ((length ds - rowsPerChunk + (rowsPerChunk - 1)) / rowsPerChunk)).
  2:{ replace (length ds + (rowsPerChunk - 1))%nat with (1 * rowsPerChunk + (length ds - rowsPerChunk + (rowsPerChunk - 1)))%nat
        by (unfold rowsPerChunk in *; lia). by rewrite Nat.div_add_l by done. }
  cbn [seq]. rewrite fmap_cons. f_equal.
  rewrite <- seq_shift, <- list_fmap_compose. apply list_fmap_ext. intros i j _. cbn. unfold chunk_at.
  rewrite drop_drop. do 3 f_equal. lia.
Qed.

Section resp.
Context `{Datums} `{HC : HandleCodec} `{!RowCodec} `{!Expressions} `{!Aggregations} `{Sorter} `{MVCCStore}
  `{!Plans} `{GoFmt}.
Context (st : Store).

(** The requested columns of all the rows. *)
Definition requested (offsets : list Z) (rows : list row) : option (list bytes) :=
  mapM (fun r => requested_row r offsets) rows.

Lemma encode_default_ok offsets rows ds : requested offsets rows = Some ds ->
  forall pre, encode_default rows (length pre) offsets (all_chunks pre) = Some (all_chunks (pre ++ ds)).
Proof.
  revert ds. induction rows as [|r rows IH]; intros ds E pre.
  - injection E as <-. by rewrite app_nil_r.
  - unfold requested in E. cbn in E. destruct (requested_row r offsets) as [d|] eqn:Ed; [|done].
    cbn in E. destruct (mapM _ rows) as [ds'|] eqn:Er; [|done]. injection E as <-.
    cbn [encode_default]. rewrite Ed. step_opt. rewrite appendRow_chunks. step_opt.
    specialize (IH ds' Er (pre ++ [d])). rewrite length_app, Nat.add_1_r in IH. rewrite IH.
    by rewrite <- app_assoc.
Qed.

Lemma encodeDefault_ok offsets rows ds : requested offsets rows = Some ds ->
  encodeDefault rows offsets = Some (all_chunks ds).
Proof. intros E. exact (encode_default_ok offsets rows ds E []). Qed.

(** ** Drawing the rows *)

Lemma drain_ok ec e rows er : yields ec st e rows er ->
  forall P any, (forall f, keeps (bottom any P) (Next ec st f)) -> bottom any P e ->
  exists f0 e', bottom any P e' /\ forall f g acc, (f0 <= f)%nat -> (f0 <= g)%nat ->
    drain (Next ec st f) g acc e = (Ret (acc ++ rows, er), e').
Proof.
  intros Y P any K. induction Y as [e e' [f0 S]|e e' er [f0 S]|e e' r rows er [f0 S] Y IH]; intros B.
  - assert (B' : bottom any P e') by (specialize (K f0 e B); by rewrite S in K).
    exists (1 + f0)%nat, e'. split; [done|]. intros f [|g] acc Hf Hg; [lia|]. cbn [drain].
    rewrite S by lia. by rewrite app_nil_r.
  - assert (B' : bottom any P e') by (specialize (K f0 e B); by rewrite S in K).
    exists (1 + f0)%nat, e'. split; [done|]. intros f [|g] acc Hf Hg; [lia|]. cbn [drain].
    rewrite S by lia. by rewrite app_nil_r.
  - assert (B' : bottom any P e') by (specialize (K f0 e B); by rewrite S in K).
    destruct (IH B') as (f1 & e1 & B1 & D). exists (1 + f0 + f1)%nat, e1. split; [done|].
    intros f [|g] acc Hf Hg; [lia|]. cbn [drain]. rewrite S, D by lia. by rewrite <- app_assoc.
Qed.

(** The response for the rows of the plan. *)
Definition select_response (offsets : list Z) (ds : list bytes) (er : option goerror) : Response :=
  match er with
  | None => buildResp (MkSelect None [] (all_chunks ds) EncodeType_TypeDefault) None
  | Some e => buildResp (MkSelect (Some (toPBError e)) [] [] EncodeType_TypeDefault) (Some e)
  end.

Lemma handle_ok h req e ec plan rows er ds ranges desc :
  buildPosetDagExecutor h req = Ret (e, ec, plan) -> bottom true (uncounted ranges desc) e ->
  dr_EncodeType plan = EncodeType_TypeDefault -> yields ec st e rows er ->
  requested (dr_OutputOffsets plan) rows = Some ds ->
  exists f0, forall f, (f0 <= f)%nat ->
    handleCoFIDelAGRequest st f h req = Ret (select_response (dr_OutputOffsets plan) ds er).
Proof.
  intros Eb B Et Y Ed. destruct (drain_ok ec e rows er Y _ true (Next_uncounted ec st true ranges desc) B)
    as (f0 & e' & B' & D).
  exists f0. intros f Hf. unfold handleCoFIDelAGRequest. rewrite Eb, D by done. cbn [app].
  rewrite (Counts_uncounted _ _ _ e' B'). destruct er as [er|]; [done|].
  unfold fillUFIDelata4SelectResponse. rewrite Et, Z.eqb_refl.
  by rewrite (encodeDefault_ok _ _ _ Ed).
Qed.

(** ** Streams *)

Lemma requested_cons offsets r rows ds : requested offsets (r :: rows) = Some ds ->
  exists d ds', ds = d :: ds' /\ requested_row r offsets = Some d /\ requested offsets rows = Some ds'.
Proof.
  unfold requested. cbn. destruct (requested_row r offsets) as [d|]; [|done]. cbn.
  destruct (mapM _ rows) as [ds'|]; [|done]. intros [= <-]. eauto.
Qed.

(** A block: all that is left, or the next rows and an executor that yields the rest. *)
Lemma read_block_ok ec offsets ranges desc count : forall e rows ds data,
  yields ec st e rows None -> requested offsets rows = Some ds -> bottom false (uncounted ranges desc) e ->
  exists f0 e', bottom false (uncounted ranges desc) e' /\
    (forall f, (f0 <= f)%nat -> read_block (Next ec st f) offsets count data e =
      (Ret (data ++ concat (take count ds), inl (bool_decide (length rows < count)%nat)), e')) /\
    ((count <= length rows)%nat -> yields ec st e' (drop count rows) None /\
      requested offsets (drop count rows) = Some (drop count ds)).
Proof.
  induction count as [|count IH]; intros e rows ds data Y Ed B.
  - exists 0%nat, e. split; [done|]. split; [|by rewrite !drop_0]. intros f _. cbn. by rewrite app_nil_r.
  - inversion Y as [? e' [f0 S]| |? e' r rows' ? [f0 S] Y']; subst;
      assert (B' : bottom false (uncounted ranges desc) e')
        by (pose proof (Next_uncounted ec st false ranges desc f0 e B) as K; by rewrite S in K).
    + injection Ed as <-. exists f0, e'. split; [done|]. split; [|intros L; simpl in L; lia].
      intros f Hf. cbn [read_block]. rewrite S by done. cbn. by rewrite app_nil_r.
    + apply requested_cons in Ed as (d & ds' & -> & Er & Ed).
      destruct (IH e' rows' ds' (data ++ d) Y' Ed B') as (f1 & e1 & B1 & R & N).
      exists (f0 + f1)%nat, e1. split; [done|]. split; [|intros L; apply N; simpl in L; lia].
      intros f Hf. cbn [read_block]. rewrite S, Er, R by lia. cbn [take concat length]. rewrite app_assoc.
      repeat f_equal. apply bool_decide_ext. lia.
Qed.

Definition block_range (desc : bool) (p p' : bytes) : bytes * bytes := if desc then (p', p) else (p, p').

(** The blocks of a stream: full ones while 64 rows are left, then the rest;
    the range of each starts where the one before ended. *)
Inductive served (desc : bool) : list bytes -> bytes -> list blockRead -> Prop :=
| served_last ds p p' : (length ds < rowsPerChunk)%nat ->
    served desc ds p [MkBlock (concat ds) true (block_range desc p p') [] None]
| served_more ds p p' bs : (rowsPerChunk <= length ds)%nat -> served desc (drop rowsPerChunk ds) p' bs ->
    served desc ds p (MkBlock (concat (take rowsPerChunk ds)) false (block_range desc p p') [] None :: bs).

(** The blocks are the chunks of the response; a stream whose rows fill its
    last chunk ends with an empty one. *)
Lemma served_chunks desc ds p bs : served desc ds p bs ->
  bl_chunk <$> bs = all_chunks ds ++ (if decide (length ds mod rowsPerChunk = 0)%nat then [[]] else []).
Proof.
  induction 1 as [ds p p' L|ds p p' bs L Sv IH].
  - rewrite (all_chunks_eq ds 0 (length ds)) by (unfold rowsPerChunk in *; lia).
    rewrite Nat.mod_small by done. cbn [seq fmap list_fmap bl_chunk]. case_decide as D.
    + by apply nil_length_inv in D as ->.
    + cbn [app]. unfold chunk_at. by rewrite Nat.mul_0_r, drop_0, take_ge by lia.
  - rewrite fmap_cons, IH, (chunks_cons ds) by done. cbn [bl_chunk app]. rewrite length_drop.
    assert ((length ds - rowsPerChunk) mod rowsPerChunk = length ds mod rowsPerChunk)%nat as ->; [|done].
    replace (length ds) with (length ds - rowsPerChunk + 1 * rowsPerChunk)%nat at 2 by (unfold rowsPerChunk in *; lia).
    by rewrite Nat.Div0.mod_add.
Qed.

(** Calls of [Recv] until the stream ends. *)
Fixpoint receive (f n : nat) : M streamClient (list recvResult) :=
  match n with
  | O => fun c => (NoFuel, c)
  | S n =>
      r ← Recv st f None;
      match r with
      | EOF => ret [EOF]
      | r => rs ← receive f n; ret (r :: rs)
      end
  end.

Lemma readBlock_ok ec e rows ds offsets ranges desc p :
  yields ec st e rows None -> requested offsets rows = Some ds -> ranges <> [] ->
  bottom false (uncounted ranges desc) e -> Cursor e = Some (p, desc) ->
  exists f0 e' p', bottom false (uncounted ranges desc) e' /\ Cursor e' = Some (p', desc) /\
    (forall f, (f0 <= f)%nat -> readBlockFromExecutor st f ec offsets e =
      (Ret (MkBlock (concat (take rowsPerChunk ds)) (bool_decide (length rows < rowsPerChunk)%nat)
              (block_range desc p p') [] None), e')) /\
    ((rowsPerChunk <= length rows)%nat -> yields ec st e' (drop rowsPerChunk rows) None /\
      requested offsets (drop rowsPerChunk rows) = Some (drop rowsPerChunk ds)).
Proof.
  intros Y Ed Nr B C. destruct (read_block_ok ec offsets ranges desc rowsPerChunk e rows ds [] Y Ed B)
    as (f0 & e' & B' & R & N).
  destruct (Cursor_uncounted ranges desc Nr e' B') as [p' C']. exists f0, e', p'.
  split; [done|]. split; [done|]. split; [|done]. intros f Hf. unfold readBlockFromExecutor.
  erewrite bind_Ret by done. erewrite bind_Ret by by rewrite (ResetCounts_uncounted false ranges desc e B).
  erewrite bind_Ret by done. erewrite bind_Ret by by rewrite C. cbn beta iota.
  erewrite bind_Ret by by apply R. cbn beta iota. erewrite bind_Ret by done.
  erewrite bind_Ret by by rewrite C'. cbn beta iota.
  erewrite bind_Ret by by rewrite (Counts_uncounted false ranges desc e' B'). done.
Qed.

Lemma Recv_block f plan ec e b e' :
  readBlockFromExecutor st f ec (dr_OutputOffsets plan) e = (Ret b, e') ->
  Recv st f None (MkStreamClient plan e ec false) =
    (Ret (Received (stream_response b)), MkStreamClient plan e' ec (bl_finish b)).
Proof.
  intros R. unfold Recv. erewrite bind_Ret by done. cbn [sc_finished].
  erewrite bind_Ret by (unfold zoom; cbn [sc_exec sc_evalCtx sc_req]; rewrite R; done).
  destruct (bl_finish b); by erewrite bind_Ret.
Qed.

Lemma receive_more f n c c' r rs :
  Recv st f None c = (Ret (Received r), c') -> (receive f n c').1 = Ret rs ->
  (receive f (S n) c).1 = Ret (Received r :: rs).
Proof.
  intros R Rs. cbn [receive]. erewrite bind_Ret by exact R. cbn beta iota.
  unfold mbind, M_bind. destruct (receive f n c') as [o c1]. cbn in Rs. by subst o.
Qed.

Lemma receive_end f n plan e ec : (receive f (S n) (MkStreamClient plan e ec true)).1 = Ret [EOF].
Proof. done. Qed.

Lemma receive_ok plan ec ranges desc n : ranges <> [] -> forall e rows ds p,
  (length rows < rowsPerChunk * S n)%nat -> yields ec st e rows None ->
  requested (dr_OutputOffsets plan) rows = Some ds -> bottom false (uncounted ranges desc) e ->
  Cursor e = Some (p, desc) ->
  exists bs f0, served desc ds p bs /\ forall f, (f0 <= f)%nat ->
    (receive f (S (S n)) (MkStreamClient plan e ec false)).1 =
      Ret (((fun b => Received (stream_response b)) <$> bs) ++ [EOF]).
Proof.
  intros Nr. induction n as [|n IH]; intros e rows ds p Ln Y Ed B C;
    destruct (readBlock_ok ec e rows ds (dr_OutputOffsets plan) ranges desc p Y Ed Nr B C)
      as (f0 & e' & p' & B' & C' & R & N);
    assert (Ll : length ds = length rows) by (symmetry; apply mapM_Some_1, Forall2_length in Ed; done);
    destruct (decide (length rows < rowsPerChunk)%nat) as [L|L]; [|lia| |].
  1,2: rewrite bool_decide_eq_true_2, take_ge in R by lia;
    eexists [MkBlock (concat ds) true (block_range desc p p') [] None], f0;
    (split; [constructor; lia|]); intros f Hf; rewrite fmap_cons;
    eapply receive_more; [eapply Recv_block, R, Hf|apply receive_end].
  destruct N as [Y' Ed']; [lia|]. rewrite bool_decide_eq_false_2 in R by done.
  destruct (IH e' (drop rowsPerChunk rows) (drop rowsPerChunk ds) p') as (bs & f1 & Sv & Rv); [|done..|].
  { rewrite length_drop. lia. }
  exists (MkBlock (concat (take rowsPerChunk ds)) false (block_range desc p p') [] None :: bs), (f0 + f1)%nat.
  split; [constructor; [lia|done]|]. intros f Hf. rewrite fmap_cons.
  eapply receive_more; [eapply Recv_block, R; lia|apply Rv; lia].
Qed.
End resp.

(** * Serving pushed-down queries (mockeinsteindb/rpc.go)

    The commands that carry queries: a query of one region, which is checked
    against the region before its ranges are clipped to it, and a batch of
    queries of several regions, which a TiFlash store answers with a chunk for
    each. *)

(** ** A batch of queries *)

Section batch.
Context `{Datums} `{HC : HandleCodec} `{!RowCodec} `{!Expressions} `{!Aggregations} `{Sorter} `{MVCCStore}
  `{!Plans} `{GoFmt}.

(** The data of a chunk with all the rows. *)
Fixpoint drainRowsFromExecutor (next : M executor (option row)) (fuel : nat) (offsets : list Z) (chunk : bytes)
    : M executor bytes := fun e =>
  match fuel with
  | O => (NoFuel, e)
  | S fuel =>
      match next e with
      | (Ret (Some event), e) =>
          match requested_row event offsets with
          | None => (Panic, e)
          | Some d => drainRowsFromExecutor next fuel offsets (chunk ++ d) e
          end
      | (Ret None, e) => (Ret chunk, e)
      | (Fail err, e) => (Fail err, e)
      | (Panic, e) => (Panic, e)
      | (NoFuel, e) => (NoFuel, e)
      end
  end.

(** [interlock.BatchRequest]: the ranges of each region. *)
Record BatchRequest : Type := MkBatchRequest {
  br_Data : bytes;
  br_StartTs : Z;
  br_Regions : list (list (bytes * bytes));
}.

Record mockBatchCoFIDelataClient : Type := MkBatchClient { bc_chunks : list bytes; bc_idx : nat }.

Definition region_request (req : BatchRequest) (ranges : list (bytes * bytes)) : Request :=
  MkRequest ReqTypePosetDag (br_Data req) (br_StartTs req) ranges.

Fixpoint batch_chunks (st : Store) (fuel : nat) (h : dagHandler) (req : BatchRequest)
    (regions : list (list (bytes * bytes))) (chunks : list bytes) : out (list bytes) :=
  match regions with
  | [] => Ret chunks
  | ri :: regions =>
      match buildPosetDagExecutor h (region_request req ri) with
      | Ret (exec, ec, dagReq) =>
          match drainRowsFromExecutor (Next ec st fuel) fuel (dr_OutputOffsets dagReq) [] exec with
          | (Ret chunk, _) => batch_chunks st fuel h req regions (chunks ++ [chunk])
          | (Fail err, _) => Fail err
          | (Panic, _) => Panic
          | (NoFuel, _) => NoFuel
          end
      | Fail err => Fail err
      | Panic => Panic
      | NoFuel => NoFuel
      end
  end.

Definition handleBatchINTERLOCKRequest (st : Store) (fuel : nat) (h : dagHandler) (req : BatchRequest)
    : out mockBatchCoFIDelataClient :=
  match batch_chunks st fuel h req (br_Regions req) [] with
  | Ret chunks => Ret (MkBatchClient chunks 0)
  | Fail err => Fail err
  | Panic => Panic
  | NoFuel => NoFuel
  end.

(** The data of the next response, [None] at the end. *)
Definition batch_Recv : M mockBatchCoFIDelataClient (option bytes) := fun mock =>
  match bc_chunks mock !! bc_idx mock with
  | Some chunk =>
      match MarshalSelect (MkSelect None [] [chunk] 0) with
      | Ok raw => (Ret (Some raw), MkBatchClient (bc_chunks mock) (S (bc_idx mock)))
      | Err e => (Fail e, mock)
      end
  | None => (Ret None, mock)
  end.
End batch.

(** ** The commands *)

Section serve.
Context `{Datums} `{HC : HandleCodec} `{!RowCodec} `{!Expressions} `{!Aggregations} `{Sorter} `{!Plans}.
Context `{Codec} `{LevelDB} `{Kvrpcpb} `{Oracle} `{Deadlock} `{Metapb} `{GoFmt}.
Context (range_regions : gmap Z Region -> list (Z * Region)).

#[local] Existing Instance leveldb_store.

(** [handler.rawStartKey = MvccKey(handler.startKey).Raw()], and the end. *)
Definition dag_handler (h : rpcHandler) : option dagHandler :=
  rawStartKey ← MvccKey_Raw (h_startKey h);
  rawEndKey ← MvccKey_Raw (h_endKey h);
  Some (MkDagHandler rawStartKey rawEndKey (h_isolationLevel h) (h_resolvedLocks h)).

(** The answer to a query ([ReqTypePosetDag]), or the error of its region. *)
Definition CmdINTERLOCK (fuel : nat) (h : rpcHandler) (ctx : Context) (req : Request)
    : out (InterlockDag.Response + RegionError) :=
  match checkRequestContext range_regions h ctx with
  | (Some err, _) => Ret (inr err)
  | (None, h) =>
      match dag_handler h with
      | None => Panic
      | Some dh =>
          match handleCoFIDelAGRequest (h_mvcc h : Store) fuel dh req with
          | Ret res => Ret (inl res)
          | Fail err => Fail err
          | Panic => Panic
          | NoFuel => NoFuel
          end
      end
  end.

(** The stream after its first response, whose error is the command's. *)
Definition CmdINTERLOCKStream (fuel : nat) (h : rpcHandler) (ctx : Context) (req : Request)
    : out (InterlockDag.Response * streamClient + RegionError) :=
  match checkRequestContext range_regions h ctx with
  | (Some err, _) => Ret (inr err)
  | (None, h) =>
      match dag_handler h with
      | None => Panic
      | Some dh =>
          match handleINTERLOCKStream dh req with
          | Ret c =>
              match Recv (h_mvcc h : Store) fuel None c with
              | (Ret (Received first), c) => Ret (inl (first, c))
              | (Ret (Cancelled err), _) => Fail err
              | (Ret EOF, _) => Fail (ErrOther "EOF"%string)
              | (Fail err, _) => Fail err
              | (Panic, _) => Panic
              | (NoFuel, _) => NoFuel
              end
          | Fail err => Fail err
          | Panic => Panic
          | NoFuel => NoFuel
          end
      end
  end.

(** A batch is not clipped: the handler's raw keys are unset.  An empty batch
    ends with [io.EOF] as the command's error. *)
Definition CmdBatchINTERLOCK (fuel : nat) (h : rpcHandler) (ctx : Context) (req : BatchRequest)
    : out (bytes * mockBatchCoFIDelataClient + RegionError) :=
  match checkRequestContext range_regions h ctx with
  | (Some err, _) => Ret (inr err)
  | (None, h) =>
      let dh := MkDagHandler [] [] (h_isolationLevel h) (h_resolvedLocks h) in
      match handleBatchINTERLOCKRequest (h_mvcc h : Store) fuel dh req with
      | Ret c =>
          match batch_Recv c with
          | (Ret (Some first), c) => Ret (inl (first, c))
          | (Ret None, _) => Fail (ErrOther "EOF"%string)
          | (Fail err, _) => Fail err
          | (Panic, _) => Panic
          | (NoFuel, _) => NoFuel
          end
      | Fail err => Fail err
      | Panic => Panic
      | NoFuel => NoFuel
      end
  end.
End serve.
