(* ===== verification/InterlockSpec.v ===== *)
(** * Pushed-down queries: the theorems

    What a client of the store gets from the executors and from the handler of
    their requests, over the store of [MvccOps]. *)

From stdpp Require Import base gmap list sorting option strings.
From Stdlib Require Import Strings.Byte ZArith Lia Sorted.
From S2P Require Import Prelude External Marshal Mvcc MvccOps MvccView MvccRead MvccScan MvccReverse Rpc KvKey GoHeap GoMonad Interlock InterlockExec InterlockRuns InterlockTopN InterlockAgg InterlockStore InterlockScan InterlockKeeps InterlockDag InterlockRange.

Local Open Scope Z_scope.

(** ** Keys of one length *)

Lemma prefix_same_length x k : length x = length k -> HasPrefix x k = true -> x = k.
Proof.
  revert x. induction k as [|b k IH]; intros [|c x] L P; try done. cbn [HasPrefix] in P.
  apply andb_true_iff in P as [Hb P]. apply bool_decide_eq_true in Hb as ->. f_equal. apply IH; [simpl in L; lia|done].
Qed.

(** A range that a scan with the truncation [trunc] reads completely: the keys
    of the store in it have one length, that of the key of a point range. *)
Record uniform (trunc : bytes -> bytes) (n : nat) (ks : list bytes) (r : KeyRange) : Prop := {
  un_proper : kr_StartKey r <b kr_EndKey r;
  un_point : IsPoint r = true -> length (kr_StartKey r) = n;
  un_keys k : k ∈ ks -> key_range (kr_StartKey r) (kr_EndKey r) k -> length k = n /\ trunc k = k;
}.

Lemma uniform_range_ok `{MVCCStore} isPoint trunc n ks r desc :
  (forall r, isPoint r = true -> IsPoint r = true) -> n <> 0%nat ->
  uniform trunc n ks r -> range_ok ks isPoint trunc desc r.
Proof.
  intros Hp Nn [P Pt K]. assert (Ne : kr_EndKey r <> []) by (intros E; rewrite E in P; by destruct (kr_StartKey r)).
  assert (Kr : forall k, k ∈ range_read ks desc r -> length k = n /\ trunc k = k).
  { intros k Hk. apply keys_in_range in Hk as [R I]. by apply K. }
  split; [done| | |].
  - intros Pr. apply Hp in Pr. split; [split; [apply ble_refl|by right]|]. intros k I R.
    destruct (K k I R) as [Lk _]. destruct R as [A [B|B]]; [done|]. rewrite <- (Pt Pr) in Lk.
    apply prefix_same_length; [done|]. apply (proj2 (IsPoint_range r)); [done..|lia].
  - intros _. apply (same_length_seekable n). apply Forall_forall. intros k Hk. by apply Kr.
  - intros _ k Hk. destruct (Kr k Hk) as [Lk Tk]. split; [|done]. intros ->. by subst n.
Qed.

(** ** Scans over the store *)

Section store.
Context `{CodecLaws} `{LevelDBLaws} `{Kvrpcpb} `{Oracle} `{Deadlock}.

(** The keys of some ranges, range by range in the order of a scan. *)
Definition keys_of_ranges (db : DB) (desc : bool) (ranges : list KeyRange) (ks : list bytes) : Prop :=
  exists kss, Forall2 (fun r l => range_keys db (kr_StartKey r) (kr_EndKey r) l) ranges kss /\
    ks = concat (if desc then rev (A := bytes) <$> kss else kss).

Lemma ranges_pairs_BatchGet mvcc ks desc ranges ts iso rl :
  range_keys (EDB mvcc) [] [] ks ->
  exists l, keys_of_ranges (EDB mvcc) desc ranges l /\
    @ranges_pairs leveldb_store mvcc ks desc ranges ts iso rl = BatchGet mvcc l ts iso rl.
Proof.
  intros K. exists (ranges ≫= range_read ks desc). split; [|by rewrite BatchGet_bind].
  exists ((fun r => filter (key_range (kr_StartKey r) (kr_EndKey r)) ks) <$> ranges). split.
  - apply Forall2_fmap_r, Forall_Forall2_diag, Forall_forall. intros r _. split.
    + apply StronglySorted_filter, K.
    + intros k. destruct K as [_ K]. rewrite list_elem_of_filter, K. unfold key_range.
      pose proof (nil_ble k). tauto.
  - unfold range_read, keys_in. induction ranges as [|r ranges IH]; [by destruct desc|].
    cbn [mbind list_bind]. rewrite fmap_cons. destruct desc; rewrite ?fmap_cons; cbn [concat]; f_equal; exact IH.
Qed.

Lemma Forall2_rev {A B} (P : A -> B -> Prop) l k : Forall2 P l k -> Forall2 P (rev l) (rev k).
Proof.
  induction 1 as [|x y l k Hxy F IH]; [constructor|]. cbn [rev]. apply Forall2_app; [done|by repeat constructor].
Qed.

(** The keys of ranges that are in order are in order. *)
Lemma range_keys_concat db ranges kss :
  Forall (fun r => kr_EndKey r <> []) ranges ->
  StronglySorted (fun a b => kr_EndKey a <=b kr_StartKey b) ranges ->
  Forall2 (fun r l => range_keys db (kr_StartKey r) (kr_EndKey r) l) ranges kss ->
  StronglySorted blt (concat kss) /\
  forall k, k ∈ concat kss <-> present db k /\ exists r, r ∈ ranges /\ key_range (kr_StartKey r) (kr_EndKey r) k.
Proof.
  intros Ne S F. revert Ne S. induction F as [|r l ranges kss [Sl Ml] F IH]; intros Ne S.
  { split; [constructor|]. intros k. split; [by inversion 1|]. by intros (_ & r & []%elem_of_nil & _). }
  apply Forall_cons in Ne as [Nr Ne]. apply StronglySorted_inv in S as [S Fs].
  destruct (IH Ne S) as [Sc Mc]. rewrite Forall_forall in Fs. cbn [concat]. split.
  - apply StronglySorted_app_2; [|done|done]. intros k q Hk Hq. apply Ml in Hk as [[_ Rk] _].
    apply Mc in Hq as (_ & r' & Hr' & [Rq _]). destruct Rk as [Rk|Rk]; [done|].
    eapply blt_ble_trans; [exact Rk|]. eapply ble_trans; [by apply Fs|done].
  - intros k. rewrite elem_of_app, Ml, Mc. split.
    + intros [[R P]|(P & r' & Hr' & R)]; (split; [done|]); [exists r|exists r']; (split; [|done]); [by left|by right].
    + intros (P & r' & Hr' & R). apply elem_of_cons in Hr' as [->|Hr']; [by left|right]. eauto.
Qed.

(** The keys that a scan reads for a request, in its order. *)
Definition scanned_keys (h : dagHandler) (db : DB) (desc : bool) (ranges : list (bytes * bytes)) (ks : list bytes) : Prop :=
  StronglySorted (fun a b => if desc then b <b a else a <b b) ks /\
  forall k, k ∈ ks <-> present db k /\ in_region h k /\ exists q, q ∈ ranges /\ q.1 <=b k /\ k <b q.2.

Lemma clipped_keys h db desc ranges ks :
  in_order ranges -> keys_of_ranges db desc (if desc then rev (clip h <$> filter (meets h) ranges)
                                            else clip h <$> filter (meets h) ranges) ks ->
  scanned_keys h db desc ranges ks.
Proof.
  intros [F S] (kss & F2 & ->). set (kvs := clip h <$> filter (meets h) ranges) in *.
  assert (Fm : Forall proper (filter (meets h) ranges)) by by apply proper_meets.
  assert (Ne : Forall (fun r => kr_EndKey r <> []) kvs).
  { apply Forall_fmap. eapply Forall_impl; [exact Fm|]. intros q P. cbn. by apply min_end_nonempty, proper_end. }
  assert (Sk : StronglySorted (fun a b => kr_EndKey a <=b kr_StartKey b) kvs)
    by (apply clip_sorted; [done|by apply StronglySorted_filter]).
  assert (Up : forall l, Forall2 (fun r l => range_keys db (kr_StartKey r) (kr_EndKey r) l) kvs l ->
    StronglySorted blt (concat l) /\ forall k, k ∈ concat l <->
      present db k /\ in_region h k /\ exists q, q ∈ ranges /\ q.1 <=b k /\ k <b q.2).
  { intros l Fl. destruct (range_keys_concat db kvs l Ne Sk Fl) as [Sc Mc]. split; [done|].
    intros k. by rewrite Mc, <- clipped_members. }
  destruct desc; [|by apply Up].
  assert (F3 : Forall2 (fun r l => range_keys db (kr_StartKey r) (kr_EndKey r) l) kvs (rev kss)).
  { apply Forall2_rev in F2. by rewrite rev_involutive in F2. }
  destruct (Up _ F3) as [Sc Mc].
  assert (concat (rev (A := bytes) <$> kss) = rev (concat (rev kss))) as ->.
  { clear. induction kss as [|l kss IH]; [done|]. rewrite fmap_cons. cbn [concat rev].
    rewrite concat_app, rev_app_distr, IH. cbn [concat]. by rewrite app_nil_r. }
  split; [by apply StronglySorted_rev in Sc|]. intros k. by rewrite elem_of_rev.
Qed.

(** The ranges of a scan of rows: uniform for the keys that are present. *)
Definition uniform_ranges (trunc : bytes -> bytes) (n : nat) (db : DB) (ranges : list KeyRange) : Prop :=
  Forall (fun r => kr_StartKey r <b kr_EndKey r /\ (IsPoint r = true -> length (kr_StartKey r) = n) /\
    forall k, present db k -> key_range (kr_StartKey r) (kr_EndKey r) k -> length k = n /\ trunc k = k) ranges.

Lemma uniform_ranges_ok db ks isPoint trunc n desc ranges :
  range_keys db [] [] ks -> (forall r, isPoint r = true -> IsPoint r = true) -> n <> 0%nat ->
  uniform_ranges trunc n db ranges -> Forall (range_ok ks isPoint trunc desc) ranges.
Proof.
  intros [_ K] Hp Nn U. eapply Forall_impl; [exact U|]. intros r (P & Pt & Kr).
  apply (uniform_range_ok (H := leveldb_store) isPoint trunc n); [done|done|]. split; [done|done|].
  intros k I R. apply Kr; [|done]. by apply K.
Qed.

Section executors.
Context `{Datums} `{HC : HandleCodec} `{!RowCodec} `{!Expressions} `{!Aggregations} `{Sorter}.

#[local] Existing Instance leveldb_store.

Lemma TableScan_yields ctx (mvcc : MVCCLevelDB) n cols ids rd desc ranges ts iso rl counted :
  wf (EDB mvcc) -> plain_values (EDB mvcc) -> n <> 0%nat ->
  uniform_ranges TruncateToRowKeyLen n (EDB mvcc) ranges ->
  exists ks, keys_of_ranges (EDB mvcc) desc ranges ks /\
    let e := MkBlockScan cols ids rd (new_scan desc ranges ts iso rl counted) in
    let ps := BatchGet mvcc ks ts iso rl in
    Forall (has_row (block_dec e)) ps ->
    yields ctx (mvcc : Store) (XTableScan e) (read_rows (block_dec e) ps).1 (read_rows (block_dec e) ps).2.
Proof.
  intros W P Nn U. destruct (all_keys (EDB mvcc) W) as (all & K).
  destruct (ranges_pairs_BatchGet mvcc all desc ranges ts iso rl K) as (ks & Kr & E). exists ks.
  split; [done|]. cbv zeta. rewrite <- E. apply blockScan_yields; [by apply leveldb_holds|].
  by eapply uniform_ranges_ok.
Qed.

(** ** A whole request *)

Context `{!Plans} `{GoFmt}.

(** A plan that selects the rows of a table that satisfy [conds], [n] at most,
    of a request that can be built. *)
Record select_plan (h : dagHandler) (req : Request) (plan : PosetDagRequest) (tz : Location)
    (cols : list DeferredCausetInfo) (desc : bool) (conds : list PbExpr) (n : Z)
    (ec : evalContext) (offs : list Z) (exprs : list Expression) : Prop := {
  sp_tp : rq_Tp req = ReqTypePosetDag;
  sp_nonempty : rq_Ranges req <> [];
  sp_ranges : in_order (rq_Ranges req);
  sp_data : UnmarshalPosetDag (rq_Data req) = Ok plan;
  sp_tz : ConstructTimeZone (dr_TimeZoneName plan) (signed_of 64 (dr_TimeZoneOffset plan)) = Ok tz;
  sp_execs : dr_Executors plan = [PbTableScan cols desc; PbSelection conds None; PbLimit n None];
  sp_counts : dr_DefCauslectRangeCounts plan = false;
  sp_encode : dr_EncodeType plan = EncodeType_TypeDefault;
  sp_ctx : ec = setDeferredCausetInfo cols (MkEvalCtx ∅ [] [] (flagsToStatementContext (dr_Flags plan) tz));
  sp_offs : extractOffsets (Some <$> conds) [] = Ok offs;
  sp_exprs : convertToExprs (ec_sc ec) (ec_fieldTps ec) (Some <$> conds) = Ok exprs;
}.

(** The ranges that the scan of a request reads. *)
Definition request_ranges (h : dagHandler) (req : Request) (desc : bool) : list KeyRange :=
  let l := clip h <$> filter (meets h) (rq_Ranges req) in if desc then rev l else l.

Definition request_ts (req : Request) (plan : PosetDagRequest) : Z :=
  if rq_StartTs req =? 0 then dr_StartTsFallback plan else rq_StartTs req.

Definition request_scan (h : dagHandler) (req : Request) (plan : PosetDagRequest) (ec : evalContext)
    (cols : list DeferredCausetInfo) (desc : bool) : blockScanExec :=
  MkBlockScan cols (ec_colIDs ec) (NewByteDecoder (defcaus_infos cols (ec_fieldTps ec)) [-1] (default_value cols))
    (new_scan desc (request_ranges h req desc) (request_ts req plan) (dh_isolationLevel h) (dh_resolvedLocks h) false).

(** The executor of the plan is the chain that it describes. *)
Lemma select_plan_built h req plan tz cols desc conds n ec offs exprs :
  select_plan h req plan tz cols desc conds n ec offs exprs ->
  buildPosetDagExecutor h req =
    Ret (XLimit (MkLimit n 0 (Some (XSelection (MkSelection exprs offs (replicate (length cols) ZeroCauset)
           (Some (XTableScan (request_scan h req plan ec cols desc))))))), ec, plan).
Proof.
  intros [Tp Ne Or Ud Tz Ex Rc En -> Of Xs]. unfold buildPosetDagExecutor.
  rewrite decide_False by (intros E; by apply nil_length_inv in E).
  rewrite Tp, Z.eqb_refl. cbn [negb]. rewrite Ud, Tz, Ex. unfold buildPosetDag. cbn [build_chain buildExec].
  unfold buildTableScan. rewrite extractKVRanges_clip by done. cbn [ec_sc ec_fieldTps setDeferredCausetInfo] in Xs.
  do 2 step_exec. unfold buildSelection. do 2 step_exec. rewrite Of. do 2 step_exec.
  cbn [ec_sc ec_fieldTps setDeferredCausetInfo]. rewrite Xs. do 2 step_exec.
  unfold build_scan. cbn [dc_req dc_startTS dc_keyRanges]. rewrite Rc. done.
Qed.

(** What the chain yields from the rows of the scan. *)
Definition select_rows (ec : evalContext) (exprs : list Expression) (offs : list Z) (width : nat) (n : Z)
    (rows : list row * option goerror) : list row * option goerror :=
  let p := filter_rows (selected ec exprs offs (replicate width ZeroCauset)) rows.1 rows.2 in
  (take (Z.to_nat n) p.1, if decide (Z.of_nat (length p.1) < n) then p.2 else None).

(** What the handler answers when its scan yields the rows of the keys [ks]. *)
Lemma select_served h req plan tz cols desc conds n ec offs exprs (mvcc : MVCCLevelDB) ks :
  u64 n -> select_plan h req plan tz cols desc conds n ec offs exprs ->
  let ps := BatchGet mvcc ks (request_ts req plan) (dh_isolationLevel h) (dh_resolvedLocks h) in
  let dec := block_dec (request_scan h req plan ec cols desc) in
  let rows := read_rows dec ps in
  let answer := select_rows ec exprs offs (length cols) n rows in
  (Forall (has_row dec) ps -> yields ec (mvcc : Store) (XTableScan (request_scan h req plan ec cols desc)) rows.1 rows.2) ->
  forall ds, Forall (has_row dec) ps ->
  Forall (decides (selected ec exprs offs (replicate (length cols) ZeroCauset))) rows.1 ->
  requested (dr_OutputOffsets plan) answer.1 = Some ds ->
  exists f0, forall f, (f0 <= f)%nat ->
    handleCoFIDelAGRequest (mvcc : Store) f h req = Ret (select_response (dr_OutputOffsets plan) ds answer.2).
Proof.
  intros Hn Sp ps dec rows answer Y ds Hr Hd Ed. specialize (Y Hr).
  pose proof (selection_yields ec mvcc exprs offs (replicate (length cols) ZeroCauset) _ _ _ Y Hd _
    (agree_off_refl offs _)) as Y1. cbv zeta in Y1.
  pose proof (limit_yields ec mvcc n _ _ _ Hn Y1 0 ltac:(lia)) as Y2. rewrite Z.sub_0_r in Y2.
  eapply handle_ok; [by eapply select_plan_built| |apply Sp|exact Y2|exact Ed].
  cbn. by split.
Qed.

(** The scan of a request yields the rows of the keys of its ranges in the region. *)
Lemma request_scan_yields h req plan tz cols desc conds n ec offs exprs (mvcc : MVCCLevelDB) len :
  wf (EDB mvcc) -> plain_values (EDB mvcc) -> len <> 0%nat ->
  select_plan h req plan tz cols desc conds n ec offs exprs ->
  uniform_ranges TruncateToRowKeyLen len (EDB mvcc) (request_ranges h req desc) ->
  exists ks, scanned_keys h (EDB mvcc) desc (rq_Ranges req) ks /\
    let ps := BatchGet mvcc ks (request_ts req plan) (dh_isolationLevel h) (dh_resolvedLocks h) in
    let dec := block_dec (request_scan h req plan ec cols desc) in
    Forall (has_row dec) ps ->
    yields ec (mvcc : Store) (XTableScan (request_scan h req plan ec cols desc)) (read_rows dec ps).1 (read_rows dec ps).2.
Proof.
  intros W P Nl Sp U. destruct (TableScan_yields ec mvcc len cols (ec_colIDs ec)
    (NewByteDecoder (defcaus_infos cols (ec_fieldTps ec)) [-1] (default_value cols)) desc
    (request_ranges h req desc) (request_ts req plan) (dh_isolationLevel h) (dh_resolvedLocks h) false W P Nl U)
    as (ks & Kr & Y).
  exists ks. split; [by apply clipped_keys; [apply Sp|]|]. exact Y.
Qed.

(** ** Theorems *)

(** C6: A request for the rows of a table that satisfy a condition, a limit of
    them, is answered with the encoded columns that it asks for, of the first
    rows that the condition keeps, read with [BatchGet] at the timestamp of the
    request from exactly the keys of the region that are in its ranges, in key
    order or in reverse; an error of a read or of the condition is the answer
    if it comes before the limit.  The handler returns, with enough fuel. *)
Theorem select_where_limit h req plan tz cols desc conds n ec offs exprs (mvcc : MVCCLevelDB) len :
  wf (EDB mvcc) -> plain_values (EDB mvcc) -> u64 n -> len <> 0%nat ->
  select_plan h req plan tz cols desc conds n ec offs exprs ->
  uniform_ranges TruncateToRowKeyLen len (EDB mvcc) (request_ranges h req desc) ->
  exists ks, scanned_keys h (EDB mvcc) desc (rq_Ranges req) ks /\
    let ps := BatchGet mvcc ks (request_ts req plan) (dh_isolationLevel h) (dh_resolvedLocks h) in
    let dec := block_dec (request_scan h req plan ec cols desc) in
    let rows := read_rows dec ps in
    let answer := select_rows ec exprs offs (length cols) n rows in
    forall ds, Forall (has_row dec) ps ->
    Forall (decides (selected ec exprs offs (replicate (length cols) ZeroCauset))) rows.1 ->
    requested (dr_OutputOffsets plan) answer.1 = Some ds ->
    exists f0, forall f, (f0 <= f)%nat ->
      handleCoFIDelAGRequest (mvcc : Store) f h req = Ret (select_response (dr_OutputOffsets plan) ds answer.2).
Proof.
  intros W P Hn Nl Sp U. destruct (request_scan_yields _ _ _ _ _ _ _ _ _ _ _ _ _ W P Nl Sp U) as (ks & Sk & Y).
  exists ks. split; [done|]. intros ps dec rows answer. by eapply select_served.
Qed.
End executors.
End store.

Section generic.
Context `{Datums} `{HC : HandleCodec} `{!RowCodec} `{!Expressions} `{!Aggregations} `{Sorter} `{!SorterLaws}
  `{MVCCStore} `{!Plans} `{GoFmt}.
Context (st : Store).

(** C10: Of a plan in the default encoding, whose scan has a range of the region
    and does not count the rows of its ranges, with nothing above the scan but
    selections and limits, and whose rows end without an error: a stream serves
    these rows in blocks of 64, the last one shorter, with key ranges that join;
    its blocks are the chunks of the response to the same request, and one empty
    block more when the rows fill the last chunk.  The stream ends after the
    block that says so.  (Without a range, with counts or in the other encodings
    the stream is different, or panics.) *)
Theorem Stream_chunks h req e ec plan rows ds ranges desc :
  buildPosetDagExecutor h req = Ret (e, ec, plan) -> dr_EncodeType plan = EncodeType_TypeDefault ->
  ranges <> [] -> bottom false (uncounted ranges desc) e ->
  yields ec st e rows None -> requested (dr_OutputOffsets plan) rows = Some ds ->
  exists c p bs f0, handleINTERLOCKStream h req = Ret c /\ Cursor e = Some (p, desc) /\ served desc ds p bs /\
    bl_chunk <$> bs = all_chunks ds ++ (if decide (length ds mod rowsPerChunk = 0)%nat then [[]] else []) /\
    forall f, (f0 <= f)%nat ->
      (receive st f (S (S (length rows / rowsPerChunk))) c).1 =
        Ret (((fun b => Received (stream_response b)) <$> bs) ++ [EOF]) /\
      handleCoFIDelAGRequest st f h req =
        Ret (buildResp (MkSelect None [] (all_chunks ds) EncodeType_TypeDefault) None).
Proof.
  intros Eb Et Nr B Y Ed. destruct (Cursor_uncounted ranges desc Nr e B) as [p C].
  destruct (receive_ok st plan ec ranges desc (length rows / rowsPerChunk) Nr e rows ds p) as (bs & f0 & Sv & Rv);
    [|done..|].
  { pose proof (Nat.div_mod_eq (length rows) rowsPerChunk).
    pose proof (Nat.mod_upper_bound (length rows) rowsPerChunk ltac:(done)). unfold rowsPerChunk in *. lia. }
  destruct (handle_ok st h req e ec plan rows None ds ranges desc Eb (bottom_any _ _ B) Et Y Ed) as [f1 Hd].
  exists (MkStreamClient plan e ec false), p, bs, (f0 + f1)%nat.
  split; [unfold handleINTERLOCKStream; by rewrite Eb|]. split; [done|]. split; [done|].
  split; [by eapply served_chunks|]. intros f Hf. split; [apply Rv; lia|apply Hd; lia].
Qed.

(** C8: Where the values of its key columns can be compared, a top-N yields
    the first [N] rows of its source in the order of its keys, all of them if
    there are fewer, and no row that it leaves out comes before one that it
    yields; an error of its source is all that it yields. *)
Theorem TopN_first ctx items Ps N offs exprs ev0 src rows er :
  length items = length Ps -> Forall (comparable ctx) Ps -> 0 <= N ->
  yields ctx st src rows er -> Forall (sortable ctx Ps offs exprs ev0) rows ->
  match er with
  | Some e => yields ctx st (new_topN items N offs exprs ev0 src) [] (Some e)
  | None => exists top rest, yields ctx st (new_topN items N offs exprs ev0 src) top None /\
      rows ≡ₚ top ++ rest /\ length top = Nat.min (Z.to_nat N) (length rows) /\
      StronglySorted (fun x y => ~ before ctx items offs exprs ev0 y x) top /\
      forall x y, x ∈ top -> y ∈ rest -> ~ before ctx items offs exprs ev0 y x
  end.
Proof. intros L C HN Y F. destruct er; [by eapply topN_yields_fail|by eapply topN_yields_end]. Qed.

(** C9: A hash aggregation yields one row per group of the rows of its source,
    in the order in which the groups first appear: the partial results of its
    aggregates, each updated with the rows of the group in their order, and
    the group-by columns of the first of them.  No key appears twice. *)
Theorem HashAgg_groups ctx aggs exprs offs ev0 src rows vs :
  yields ctx st src rows None -> aggregates ctx aggs exprs offs ev0 rows ->
  Forall2 (fun key v => group_row ctx aggs exprs offs ev0 rows key = Some v) (group_keys ctx exprs offs ev0 rows) vs ->
  yields ctx st (new_hashAgg ctx aggs exprs offs ev0 src) vs None /\
  NoDup (group_keys ctx exprs offs ev0 rows) /\
  forall key, key ∈ group_keys ctx exprs offs ev0 rows <-> exists r, r ∈ rows /\ key_of_row ctx exprs offs ev0 r = key.
Proof.
  intros Y Ag F. split; [by eapply hashAgg_yields|]. split; [apply group_keys_NoDup|].
  intros key. apply elem_of_group_keys.
Qed.
End generic.
