(* ===== verification/InterlockQuery.v ===== *)
(** * Queries of several regions

    A query that is sent to every region of a cluster, and a batch of queries
    that is sent to one TiFlash store. *)

From stdpp Require Import base gmap list sorting option strings.
From Stdlib Require Import Strings.Byte ZArith Lia Sorted.
From S2P Require Import Prelude External Mvcc MvccOps MvccView MvccRead MvccScan MvccReverse Cluster ClusterRegions ClusterSplit Rpc RpcGuard KvKey GoHeap GoMonad Interlock InterlockExec InterlockRuns InterlockTopN InterlockAgg InterlockStore InterlockScan InterlockKeeps InterlockDag InterlockRange InterlockSpec.

Local Open Scope Z_scope.

Section regions.
Context `{CodecLaws} `{LevelDBLaws} `{Kvrpcpb} `{Oracle} `{Deadlock} `{Metapb} `{GoFmt}.
Context `{Datums} `{HC : HandleCodec} `{!RowCodec} `{!Expressions} `{!Aggregations} `{Sorter} `{!Plans}.
Context (range_regions : gmap Z Region -> list (Z * Region)).

#[local] Existing Instance leveldb_store.

Lemma NewMvccKey_ble a b : NewMvccKey a <=b NewMvccKey b <-> a <=b b.
Proof.
  split; [|apply NewMvccKey_le]. intros L. apply not_blt. intros L'. apply NewMvccKey_lt in L'.
  by apply not_blt in L.
Qed.

Lemma NewMvccKey_blt a b : NewMvccKey a <b NewMvccKey b <-> a <b b.
Proof.
  split; [|apply NewMvccKey_lt]. intros L. apply not_ble. intros L'. apply NewMvccKey_le in L'.
  by apply not_ble in L.
Qed.

Lemma NewMvccKey_nil e : NewMvccKey e = [] <-> e = [].
Proof. unfold NewMvccKey. case_decide; [done|]. split; [by intros ?%EncodeBytes_nonempty|done]. Qed.

(** The bounds of the region are encoded keys. *)
Definition encoded_bounds (r : Region) : Prop :=
  exists s e, rm_StartKey (Meta r) = NewMvccKey s /\ rm_EndKey (Meta r) = NewMvccKey e.

(** The handler of a query to the region. *)
Definition region_dag (iso : Z) (rl : list Z) (r : Region) : option dagHandler :=
  s ← MvccKey_Raw (rm_StartKey (Meta r));
  e ← MvccKey_Raw (rm_EndKey (Meta r));
  Some (MkDagHandler s e iso rl).

Lemma region_dag_owns iso rl r : encoded_bounds r ->
  exists dh, region_dag iso rl r = Some dh /\
    forall k, in_region dh k <-> region_contains r (NewMvccKey k) = true.
Proof.
  intros (s & e & Es & Ee). exists (MkDagHandler s e iso rl). unfold region_dag. rewrite Es, Ee, !MvccKey_Raw_New.
  split; [done|]. intros k. rewrite region_contains_spec, Es, Ee, NewMvccKey_ble, NewMvccKey_blt, NewMvccKey_nil.
  done.
Qed.

Lemma scanned_keys_NoDup dh db desc ranges ks : scanned_keys dh db desc ranges ks -> NoDup ks.
Proof.
  intros [S _]. destruct desc; [|by apply blt_sorted_NoDup].
  rewrite <- (rev_involutive ks). apply NoDup_ListNoDup, List.NoDup_rev, NoDup_ListNoDup.
  apply blt_sorted_NoDup. apply StronglySorted_rev in S. exact S.
Qed.

(** The keys that a region scans are those of the ranges that it owns. *)
Lemma scanned_owned iso rl db desc ranges r ks dh : encoded_bounds r ->
  region_dag iso rl r = Some dh -> scanned_keys dh db desc ranges ks ->
  NoDup ks /\ forall k, k ∈ ks <-> (present db k /\ exists q, q ∈ ranges /\ q.1 <=b k /\ k <b q.2) /\
    region_contains r (NewMvccKey k) = true.
Proof.
  intros B D K. destruct (region_dag_owns iso rl r B) as (dh' & D' & O). assert (dh' = dh) as -> by congruence.
  split; [by eapply scanned_keys_NoDup|]. intros k. destruct K as [_ K]. rewrite K, O. tauto.
Qed.

(** A key for every region, made into a map. *)
Lemma map_choice {A B} (P : Z -> A -> B -> Prop) (m : gmap Z A) :
  (forall i x, m !! i = Some x -> exists y, P i x y) -> exists m' : gmap Z B, map_Forall2 P m m'.
Proof.
  induction m as [|i x m N IH] using map_ind; intros F; [exists ∅; apply map_Forall2_empty|].
  destruct (F i x) as [y Hy]; [by rewrite lookup_insert_eq|]. destruct IH as [m' Hm].
  { intros j z E. apply F. rewrite lookup_insert_ne; [done|]. intros ->. congruence. }
  exists (<[i := y]> m'). by apply map_Forall2_insert_2.
Qed.

(** Lists of keys, one for every region, of the keys of [all] that it owns,
    have each key of [all] once. *)
Lemma owned_once (regions : gmap Z Region) (kss : gmap Z (list bytes)) (all : bytes -> Prop) : partition regions ->
  map_Forall2 (fun _ r ks => NoDup ks /\ forall k, k ∈ ks <-> all k /\ region_contains r (NewMvccKey k) = true) regions kss ->
  NoDup (map_to_list kss ≫= snd) /\ forall k, k ∈ (map_to_list kss ≫= snd) <-> all k.
Proof.
  intros [_ Cv] K.
  assert (R : forall id ks, kss !! id = Some ks -> exists r, regions !! id = Some r /\ NoDup ks /\
    forall k, k ∈ ks <-> all k /\ region_contains r (NewMvccKey k) = true).
  { intros id ks E. pose proof (K id) as Ki. rewrite E in Ki. inversion Ki as [r ? Kr Er|]; subst. by exists r. }
  split.
  - apply NoDup_bind; [| |apply NoDup_map_to_list].
    + intros [id1 ks1] [id2 ks2] k M1%elem_of_map_to_list M2%elem_of_map_to_list K1 K2. cbn in K1, K2.
      destruct (R _ _ M1) as (r1 & E1 & _ & O1), (R _ _ M2) as (r2 & E2 & _ & O2).
      apply O1 in K1 as [_ K1]. apply O2 in K2 as [_ K2].
      assert (id1 = id2) as -> by (eapply (cover_unique _ _ Cv (NewMvccKey k)); [by exists r1|by exists r2]).
      congruence.
    + intros [id ks] M%elem_of_map_to_list. by destruct (R _ _ M) as (r & _ & N & _).
  - intros k. rewrite list_elem_of_bind. split.
    + intros ([id ks] & Hk & M%elem_of_map_to_list). destruct (R _ _ M) as (r & _ & _ & O). by apply O in Hk as [Hk _].
    + intros Hk. destruct (proj1 (cover_in _ _ Cv (NewMvccKey k)) I) as (id & r & Er & Or).
      pose proof (K id) as Ki. rewrite Er in Ki. inversion Ki as [r0 ks Kr Er0 E|]; subst. symmetry in E.
      destruct (R _ _ E) as (r' & Er' & _ & O). exists (id, ks). split; [|by apply elem_of_map_to_list].
      apply O. split; [done|]. congruence.
Qed.

Lemma select_plan_any h h' req plan tz cols desc conds n ec offs exprs :
  select_plan h req plan tz cols desc conds n ec offs exprs -> select_plan h' req plan tz cols desc conds n ec offs exprs.
Proof. by intros []. Qed.

(** What a region answers to the query, when the keys that it reads are [ks]. *)
Definition region_answer (mvcc : MVCCLevelDB) (dh : dagHandler) (req : Request) (plan : PosetDagRequest)
    (cols : list DeferredCausetInfo) (desc : bool) (n : Z) (ec : evalContext) (offs : list Z) (exprs : list Expression)
    (ks : list bytes) (resp : InterlockDag.Response) : Prop :=
  let ps := BatchGet mvcc ks (request_ts req plan) (dh_isolationLevel dh) (dh_resolvedLocks dh) in
  let dec := block_dec (request_scan dh req plan ec cols desc) in
  let rows := read_rows dec ps in
  let answer := select_rows ec exprs offs (length cols) n rows in
  exists ds, Forall (has_row dec) ps /\
    Forall (decides (selected ec exprs offs (replicate (length cols) ZeroCauset))) rows.1 /\
    requested (dr_OutputOffsets plan) answer.1 = Some ds /\
    resp = select_response (dr_OutputOffsets plan) ds answer.2.

(** C7: A query for the rows of a table that satisfy a condition, a limit of
    them, is sent to every region of a cluster whose regions partition the
    keys.  There are keys for every region such that, over all regions, every
    key of the store that is in a range of the query occurs exactly once; and a
    command that passes the check of its region reads just the keys of that
    region, which it owns, in the order of the scan, and is answered with the
    rows that [BatchGet] gives of them and the condition and the limit keep.  A command that does not pass is answered with the region
    error, whatever the fuel. *)
Theorem Query_all_regions c iso rl req plan tz cols desc conds n ec offs exprs len :
  let db := EDB (c_mvccStore c) in
  partition (c_regions c) -> map_Forall (fun _ r => encoded_bounds r) (c_regions c) ->
  wf db -> plain_values db -> u64 n -> len <> 0%nat ->
  select_plan (MkDagHandler [] [] iso rl) req plan tz cols desc conds n ec offs exprs ->
  (forall id r dh, c_regions c !! id = Some r -> region_dag iso rl r = Some dh ->
    uniform_ranges TruncateToRowKeyLen len db (request_ranges dh req desc)) ->
  exists kss : gmap Z (list bytes),
    dom kss = dom (c_regions c) /\ NoDup (map_to_list kss ≫= snd) /\
    (forall k, k ∈ (map_to_list kss ≫= snd) <-> present db k /\ exists q, q ∈ rq_Ranges req /\ q.1 <=b k /\ k <b q.2) /\
    forall storeID ctx, ctx_IsolationLevel ctx = iso -> ctx_ResolvedLocks ctx = rl ->
    let h := MkHandler c storeID [] [] 0 [] in
    match checkRequestContext range_regions h ctx with
    | (Some err, _) => forall fuel, CmdINTERLOCK range_regions fuel h ctx req = Ret (inr err)
    | (None, _) => exists r dh ks, admitted c storeID ctx r /\ region_dag iso rl r = Some dh /\
        kss !! ctx_RegionId ctx = Some ks /\ scanned_keys dh db desc (rq_Ranges req) ks /\
        forall resp, region_answer (c_mvccStore c) dh req plan cols desc n ec offs exprs ks resp ->
        exists f0, forall fuel, (f0 <= fuel)%nat -> CmdINTERLOCK range_regions fuel h ctx req = Ret (inl resp)
    end.
Proof.
  intros db P B W Pv Hn Nl Sp U.
  destruct (map_choice (fun id r ks => exists dh, region_dag iso rl r = Some dh /\
      scanned_keys dh db desc (rq_Ranges req) ks /\
      let ps := BatchGet (c_mvccStore c) ks (request_ts req plan) (dh_isolationLevel dh) (dh_resolvedLocks dh) in
      let dec := block_dec (request_scan dh req plan ec cols desc) in
      (Forall (has_row dec) ps -> yields ec (c_mvccStore c : @Store leveldb_store) (XTableScan (request_scan dh req plan ec cols desc))
        (read_rows dec ps).1 (read_rows dec ps).2)) (c_regions c)) as [kss K].
  { intros id r Er. destruct (region_dag_owns iso rl r (B id r Er)) as (dh & D & _).
    destruct (request_scan_yields dh _ _ _ _ _ _ _ _ _ _ _ _ W Pv Nl (select_plan_any _ dh _ _ _ _ _ _ _ _ _ _ Sp) (U id r dh Er D))
      as (ks & Sk & Y). by exists ks, dh. }
  exists kss. split; [symmetry; by eapply map_Forall2_dom_L|]. apply and_assoc. split.
  - eapply owned_once; [exact P|]. intros id. pose proof (K id) as Ki.
    destruct (c_regions c !! id) as [r|] eqn:Er, (kss !! id) as [ks|]; inversion Ki as [? ? (dh & D & Sk & _)|]; subst; [|constructor].
    constructor. eapply scanned_owned; [by eapply B|exact D|exact Sk].
  - intros storeID ctx Ei El h. destruct (checkRequestContext_spec range_regions h ctx) as [(err & E)|(r & E & A)].
    + rewrite E. intros fuel. unfold CmdINTERLOCK. by rewrite E.
    + rewrite E. pose proof (ad_region _ _ _ _ A) as Er. pose proof (K (ctx_RegionId ctx)) as Ki. cbn [h_cluster h] in Er.
      rewrite Er in Ki. inversion Ki as [? ks (dh & D & Sk & Y) Er0 Ek|]; subst. exists r, dh, ks.
      split; [done|]. split; [done|]. split; [done|]. split; [done|]. intros resp (ds & Hr & Hd & Ed & ->).
      destruct (select_served dh _ _ _ _ _ _ _ _ _ _ (c_mvccStore c) ks Hn (select_plan_any _ dh _ _ _ _ _ _ _ _ _ _ Sp) Y ds Hr Hd Ed)
        as [f0 F]. exists f0. intros fuel Hf. unfold CmdINTERLOCK. rewrite E. unfold dag_handler, set_region.
      cbn [h_startKey h_endKey h_isolationLevel h_resolvedLocks]. unfold region_dag in D. rewrite D. unfold h_mvcc.
      cbn [h_cluster]. by rewrite F.
Qed.
End regions.

(** ** Batches *)

Section batch.
Context `{Datums} `{HC : HandleCodec} `{!RowCodec} `{!Expressions} `{!Aggregations} `{Sorter} `{!SorterLaws}
  `{MVCCStore} `{!Plans} `{GoFmt}.
Context (st : Store).






(** A stream over a scan that has no range of its region panics at once, where
    the response to the same request has no rows. *)
Lemma Stream_no_range desc c f :
  bottom false (fun s => uncounted [] desc s /\ sc_seekKey s = None) (sc_exec c) -> sc_finished c = false ->
  (Recv st f None c).1 = Panic.
Proof.
  intros B F. assert (Hc : forall e, bottom false (fun s => uncounted [] desc s /\ sc_seekKey s = None) e ->
    ResetCounts e = Some e /\ Cursor e = None).
  { assert (Hs : forall isPoint s, uncounted [] desc s /\ sc_seekKey s = None ->
      scan_ResetCounts s = Some s /\ scan_Cursor isPoint s = None).
    { intros isPoint s [(E1 & E2 & _) E3]. unfold scan_ResetCounts, scan_Cursor. by rewrite E1, E2, E3. }
    fix IH 1. intros [[? ? ? s]|[? ? ? ? s]|[? ? ? [src|]]|?|?|?|[? ? [src|]]]; cbn; try done; try (by intros [[=] _]);
      intros Hb; first [rewrite (proj1 (Hs IsPoint s Hb)); split; [done|by apply Hs]|by destruct (IH src Hb) as [-> ->]]. }
  destruct (Hc _ B) as [R C]. unfold Recv. erewrite bind_Ret by done. rewrite F.
  unfold mbind, M_bind, zoom, readBlockFromExecutor, mbind, M_bind. cbn. rewrite R. cbn. by rewrite C.
Qed.

End batch.
