(* ===== verification/InterlockWitness.v ===== *)
(** * Pushed-down queries on a concrete store

    The store of [MvccExample], whose values are rows of one-byte columns, with
    the simplest values, expressions and plans; the witnesses of
    [InterlockSpec]. *)

From stdpp Require Import base gmap list sorting option strings.
From Stdlib Require Import Strings.Byte ZArith Lia Sorted.
From S2P Require Import Prelude External Concrete Marshal Mvcc MvccOps MvccView MvccRead MvccScan MvccReverse MvccExample MvccWitness Cluster ClusterRegions ClusterWitness Rpc KvKey MemWitness GoHeap GoMonad Interlock InterlockExec InterlockRuns InterlockTopN InterlockAgg InterlockStore InterlockScan InterlockKeeps InterlockDag InterlockRange InterlockSpec InterlockQuery.

Local Open Scope Z_scope.

#[local] Existing Instance insertion_sorter.
#[local] Existing Instance insertion_sorter_laws.
#[local] Existing Instance leveldb_store.

Definition byte_of (z : Z) : byte := default x00 (Byte.of_N (Z.to_N (z mod 256))).

(** Values are integers or NULL, encoded as a flag and a byte. *)
#[local] Instance int_datums : Datums := {
  Causet := option Z;
  ZeroCauset := None;
  FieldType := unit;
  Location := unit;
  StmtCtx := unit;
  TimeZone := fun _ => tt;
  IsNull := fun d => bool_decide (d = None);
  NewIntCauset := Some;
  NewUintCauset := Some;
  CompareCauset := fun _ a b => Ok (default (-1) a - default (-1) b);
  ToBool := fun _ d => (default 0 d, None);
  EncodeValue := fun _ d => Ok (match d with None => [x00] | Some z => [x01; byte_of z] end);
  DecodeDeferredCausetValue := fun v _ _ =>
    match v with Some [x01; b] => (Some (Z.of_N (Byte.to_N b)), None) | _ => (None, None) end;
}.

(** A value of the store is a row: a byte per column. *)
#[local] Instance byte_rows : RowCodec := {
  BytesDecoder := unit;
  IsNewFormat := fun _ => false;
  DecodeToBytes := fun _ _ _ _ => Ok None;
  CutRowNew := fun v _ => Ok (Some ((fun b => Some [x01; b]) <$> v));
  DecodeRowKey := fun _ => Ok (IntHandle 1);
  TruncateToRowKeyLen := id;
  HandleStatus := unit;
  DefCausInfo := unit;
  DecodeIndexKV := fun _ _ _ _ _ => Ok None;
  HasUnsignedFlag := fun _ => false;
  HasNotNullFlag := fun _ => false;
  NilFlag := x00;
  ExtraHandleID := -1;
}.

(** The first column, or whether it is odd. *)
Inductive column_expr : Type := ColumnValue | OddColumn.

#[local] Instance column_expressions : Expressions := {
  Expression := column_expr;
  Eval := fun f (event : list (option Z)) =>
    Ok (match event !! 0%nat with
        | Some (Some z) => Some (match f with ColumnValue => z | OddColumn => z mod 2 end)
        | _ => None
        end);
  HandleOverflowOnSelection := fun _ b _ => Ok b;
}.

(** The one aggregate counts rows. *)
#[local] Instance count_aggregations : Aggregations := {
  Aggregation := unit;
  AggEvaluateContext := nat;
  CreateContext := fun _ _ => 0%nat;
  UFIDelate := fun _ n _ _ => (None, S n);
  GetPartialResult := fun _ n => [Some (Z.of_nat n)];
}.

Definition the_column : DeferredCausetInfo := MkColumn 1 false 0 None 0 0 0 [] 0.

(** The plan: the rows with an odd column, at most five of them. *)
Definition the_plan : PosetDagRequest :=
  MkDagRequest [PbTableScan [the_column] true; PbSelection [MkPbExpr 1 [x00] [] None] None; PbLimit 5 None] None
    EmptyString 0 0 [0] 0 25 false.

#[local] Instance simple_plans : Plans := {
  ReqTypePosetDag := 103;
  ExprType_DeferredCausetRef := 1;
  EncodeType_TypeDefault := 0;
  EncodeType_TypeChunk := 1;
  FlagIgnoreTruncate := 1;
  FlagTruncateAsWarning := 2;
  FlagInInsertStmt := 8;
  FlagInSelectStmt := 32;
  FlagInUFIDelateOrDeleteStmt := 16;
  FlagOverflowAsWarning := 64;
  FlagIgnoreZeroInDate := 128;
  FlagDividedByZeroAsWarning := 256;
  UnmarshalPosetDag := fun _ => Ok the_plan;
  MarshalSelect := fun r => Ok (concat (sel_Chunks r));
  MarshalStream := fun r => Ok (str_Data r);
  MarshalChunk := Ok;
  ConstructTimeZone := fun _ _ => Ok tt;
  NewStatementContext := fun _ _ => tt;
  NewFieldTypeOf := fun _ _ _ _ _ _ => tt;
  DefCauslationName := fun _ => EmptyString;
  PBToExpr := fun _ _ _ => Ok OddColumn;
  NewDistAggFunc := fun _ _ _ => Ok tt;
  codec_DecodeInt := fun b => Ok ([], 0);
  MkDefCausInfo := fun _ _ _ => tt;
  NewByteDecoder := fun _ _ _ => tt;
  HandleNotNeeded := tt;
  HandleIsUnsigned := tt;
  HandleDefault := tt;
  terror_of := fun _ => None;
  Chunk := list bytes;
  NewChunk := fun _ => [];
  DecodeOne := fun _ c b _ _ => Ok (c ++ [default [] b]);
  EncodeChunk := fun _ c => concat c;
  NumRows := fun c => length c;
  ExprType_Avg := 2;
  TypeLonglong := 8;
  NewFieldType := fun _ => tt;
  PbTypeToFieldType := fun _ => tt;
}.

Definition the_handler : dagHandler := MkDagHandler [] [] IsolationLevel_SI [].
Definition the_request : Request := MkRequest 103 [] 0 [(key_a, key_d)].
Definition the_ctx : evalContext :=
  setDeferredCausetInfo [the_column] (MkEvalCtx ∅ [] [] (flagsToStatementContext 0 tt)).

Lemma the_select_plan :
  select_plan the_handler the_request the_plan tt [the_column] true [MkPbExpr 1 [x00] [] None] 5 the_ctx [0] [OddColumn].
Proof.
  split; try reflexivity; [done|]. split; [|repeat constructor]. repeat constructor.
Qed.

Lemma the_uniform :
  uniform_ranges TruncateToRowKeyLen 1 (EDB ex_mvcc) (request_ranges the_handler the_request true).
Proof.
  repeat constructor. all: intros; apply ex_present in H; rewrite !elem_of_cons in H;
    destruct H as [->|[->|[->|H]]]; try done; by inversion H.
Qed.

Lemma the_key_present k : k ∈ [key_c; key_b; key_a] -> present (EDB ex_mvcc) k.
Proof.
  rewrite !elem_of_cons, elem_of_nil. intros [->|[->|[->|[]]]].
  - exists (IVal key_c (MkValue typePut 5 8 [x77])). split; [by vm_compute|done].
  - exists (IVal key_b (MkValue typePut 11 15 [x79])). split; [by vm_compute|done].
  - exists (IVal key_a (MkValue typePut 5 10 [x78])). split; [by vm_compute|done].
Qed.

(** The keys that the request reads of a region. *)
Lemma region_keys dh l ks : StronglySorted (fun a b => b <b a) l ->
  Forall (fun k => k ∈ [key_c; key_b; key_a]) l ->
  Forall (fun k => bool_decide (k ∈ l) = bool_decide (key_range (dh_rawStartKey dh) (dh_rawEndKey dh) k)) [key_c; key_b; key_a] ->
  scanned_keys dh (EDB ex_mvcc) true (rq_Ranges the_request) ks -> ks = l.
Proof.
  intros Sl Fl Hl Sc. pose proof (scanned_keys_NoDup _ _ _ _ _ Sc) as Nd. destruct Sc as [S M]. cbn in S.
  rewrite Forall_forall in Fl, Hl.
  assert (AntiSymm (=) (fun a b : bytes => b <b a)) by (intros x y A B; by apply (anti_symm blt)).
  apply (StronglySorted_unique (fun a b => b <b a)); [done..|]. apply NoDup_Permutation; [done| |].
  - clear -Sl. induction Sl as [|x l S IH F]; constructor; [|done]. intros Hx. rewrite Forall_forall in F.
    specialize (F x Hx). by apply blt_irrefl in F.
  - intros k. rewrite M. split.
    + intros (P & R & _). apply ex_present in P. assert (Hk : k ∈ [key_c; key_b; key_a]) by (rewrite !elem_of_cons in *; naive_solver).
      specialize (Hl k Hk). rewrite (bool_decide_eq_true_2 (key_range _ _ k)) in Hl by done. by apply bool_decide_eq_true in Hl.
    + intros Hk. pose proof (Fl k Hk) as Hi. split; [by apply the_key_present|]. split.
      * specialize (Hl k Hi). rewrite (bool_decide_eq_true_2 (k ∈ l)) in Hl by done. symmetry in Hl. by apply bool_decide_eq_true in Hl.
      * exists (key_a, key_d). split; [by left|]. rewrite !elem_of_cons, elem_of_nil in Hi.
        destruct Hi as [->|[->|[->|[]]]]; by vm_compute.
Qed.

Ltac region_keys := apply region_keys;
  [by repeat constructor|repeat constructor; rewrite !elem_of_cons; tauto|repeat constructor; by vm_compute].

Lemma the_keys ks : scanned_keys the_handler (EDB ex_mvcc) true (rq_Ranges the_request) ks -> ks = [key_c; key_b; key_a].
Proof. region_keys. Qed.

Lemma five_u64 : u64 5.
Proof. by vm_compute. Qed.

(** The scan reads the rows of c, b and a in reverse; c is deleted at the
    timestamp and the column of a is even. *)
Lemma select_where_limit_witness :
  exists f0, forall f, (f0 <= f)%nat ->
    handleCoFIDelAGRequest (ex_mvcc : Store) f the_handler the_request = Ret (MkResponse [x01; x79] EmptyString None None).
Proof.
  destruct (select_where_limit _ _ _ _ _ _ _ _ _ _ _ ex_mvcc 1 ex_wf ex_plain five_u64 (Nat.neq_succ_0 0)
    the_select_plan the_uniform) as (ks & Sk & R).
  apply the_keys in Sk. subst ks. apply (R [[x01; x79]]).
  - vm_compute. repeat constructor.
  - vm_compute. repeat constructor.
  - vm_compute. reflexivity.
Defined.

(** ** Executors over a scan in key order *)

Definition the_store : @Store leveldb_store := ex_mvcc.

Definition the_scan : executor := XTableScan (request_scan the_handler the_request the_plan the_ctx [the_column] false).

Definition count : @Aggregation int_datums count_aggregations := tt.

Definition value_expr : @Expression int_datums column_expressions := ColumnValue.

Definition odd_expr : @Expression int_datums column_expressions := OddColumn.

Definition NULL : @Causet int_datums := None.

Definition row_x : row := [Some [x01; x78]].
Definition row_y : row := [Some [x01; x79]].

(** [Next] with any fuel, evaluated. *)
Ltac run_step := exists 1%nat; intros [|f] Hf; [lia|]; vm_compute; reflexivity.

Lemma the_scan_yields : yields the_ctx the_store the_scan [row_x; row_y] None.
Proof. eapply yields_row; [run_step|]. eapply yields_row; [run_step|]. eapply yields_end. run_step. Qed.

Lemma all_comparable : comparable the_ctx (fun _ => True).
Proof.
  split.
  - intros x y _ _. cbn. eauto.
  - cbn. intros x y c d _ _ [= <-] [= <-]. lia.
  - cbn. intros x y z c d e _ _ _ [= <-] [= <-] [= <-]. lia.
Qed.

(** The largest column of the two. *)
Lemma TopN_first_witness :
  exists top, yields the_ctx the_store (new_topN [true] 1 [0] [value_expr] [NULL] the_scan) top None /\
    length top = 1%nat.
Proof.
  destruct (TopN_first the_store the_ctx [true] [fun _ => True] 1 [0] [value_expr] [NULL] the_scan
    [row_x; row_y] None) as (top & rest & Y & _ & L & _).
  - reflexivity.
  - constructor; [apply all_comparable|constructor].
  - lia.
  - apply the_scan_yields.
  - repeat constructor; try done; eexists; (split; [vm_compute; reflexivity|]); repeat constructor.
  - exists top. split; [exact Y|exact L].
Defined.

Lemma the_aggregates : aggregates the_ctx [count] [odd_expr] [0] [NULL] [row_x; row_y].
Proof.
  split.
  - repeat constructor; vm_compute; eauto.
  - intros key. unfold group_contexts. rewrite !filter_cons, filter_nil. repeat case_decide; vm_compute; eauto.
Qed.

(** One row with an even column, one with an odd one. *)
Lemma HashAgg_groups_witness :
  yields the_ctx the_store (new_hashAgg the_ctx [count] [odd_expr] [0] [NULL] the_scan)
    [[Some [x01; x01]; Some [x01; x00]]; [Some [x01; x01]; Some [x01; x01]]] None.
Proof.
  destruct (HashAgg_groups the_store the_ctx [count] [odd_expr] [0] [NULL] the_scan [row_x; row_y]
    [[Some [x01; x01]; Some [x01; x00]]; [Some [x01; x01]; Some [x01; x01]]]) as (Y & _).
  - apply the_scan_yields.
  - apply the_aggregates.
  - repeat constructor; vm_compute; reflexivity.
  - exact Y.
Defined.

(** The request again, as a stream: one block, then the end. *)
Definition the_back_scan : executor := XTableScan (request_scan the_handler the_request the_plan the_ctx [the_column] true).

Definition the_chain : executor :=
  XLimit (MkLimit 5 0 (Some (XSelection (MkSelection [odd_expr] [0] [NULL] (Some the_back_scan))))).

Lemma the_back_scan_yields : yields the_ctx the_store the_back_scan [row_y; row_x] None.
Proof. eapply yields_row; [run_step|]. eapply yields_row; [run_step|]. eapply yields_end. run_step. Qed.

Lemma the_chain_yields : yields the_ctx the_store the_chain [row_y] None.
Proof.
  refine (limit_yields the_ctx the_store 5 _ [row_y] None five_u64 _ 0 (Z.le_refl 0)).
  refine (selection_yields the_ctx the_store [odd_expr] [0] [NULL] _ _ None the_back_scan_yields _ _ (agree_off_refl _ _)).
  repeat constructor; vm_compute; eauto.
Qed.

Lemma Stream_chunks_witness :
  exists c f0, handleINTERLOCKStream the_handler the_request = Ret c /\ forall f, (f0 <= f)%nat ->
    exists r, (receive the_store f 2 c).1 = Ret [Received r; EOF].
Proof.
  destruct (Stream_chunks the_store the_handler the_request the_chain the_ctx the_plan [row_y] [[x01; x79]]
    [MkKeyRange key_a key_d] true) as (c & p & bs & f0 & Hc & _ & _ & Bs & Rv).
  - vm_compute. reflexivity.
  - reflexivity.
  - discriminate.
  - vm_compute. repeat split.
  - apply the_chain_yields.
  - vm_compute. reflexivity.
  - exists c, f0. split; [exact Hc|]. intros f Hf. destruct (Rv f Hf) as [R _].
    destruct bs as [|b [|b' bs]]; [discriminate| |discriminate].
    exists (stream_response b). exact R.
Defined.

(** Two ranges and a region in the middle of them. *)
Definition mid_handler : dagHandler := MkDagHandler [x62] [x64] IsolationLevel_SI [].

Lemma extractKVRanges_exact_witness :
  exists kvs, extractKVRanges mid_handler [([x61], [x63]); ([x63], [x65])] true = Ok kvs /\
    kvs = [MkKeyRange [x63] [x64]; MkKeyRange [x62] [x63]] /\ Forall (fun r => kr_StartKey r <b kr_EndKey r) kvs.
Proof.
  destruct (extractKVRanges_exact mid_handler [([x61], [x63]); ([x63], [x65])] true) as (kvs & E & _ & F & _).
  - split; [repeat constructor|]. repeat constructor. vm_compute. discriminate.
  - right. reflexivity.
  - exists kvs. split; [exact E|]. split; [|exact F]. vm_compute in E. injection E as <-. reflexivity.
Defined.

(** ** Several regions *)

(** Two regions that meet at the encoded key b. *)
Definition two_encoded : gmap Z Region := two_regions_at (NewMvccKey key_b).

Lemma two_encoded_bounds : map_Forall (fun _ r => encoded_bounds r) two_encoded.
Proof.
  apply map_Forall_insert_2; [exists [], key_b; by split|].
  apply map_Forall_singleton. exists key_b, []. by split.
Qed.

(** A command for the second region, at its leader. *)
Definition ctx5 : Rpc.Context := MkContext 5 None (Some (MkPeer 2 1)) IsolationLevel_SI [].

Definition rpc5 : rpcHandler := MkHandler (ex_cluster two_encoded) 1 [] [] 0 [].

Lemma two_uniform id r dh : two_encoded !! id = Some r -> region_dag IsolationLevel_SI [] r = Some dh ->
  uniform_ranges TruncateToRowKeyLen 1 (EDB ex_mvcc) (request_ranges dh the_request true).
Proof.
  intros Er D. assert (A : forall k, present (EDB ex_mvcc) k -> length k = 1%nat).
  { intros k P. apply ex_present in P. rewrite !elem_of_cons, elem_of_nil in P. by destruct P as [->|[->|[->|[]]]]. }
  unfold two_encoded, two_regions_at in Er. apply lookup_insert_Some in Er as [[_ <-]|[_ [_ <-]%lookup_singleton_Some]];
    vm_compute in D; injection D as <-; repeat constructor; try done; by intros; apply A.
Qed.

(** The second region has b and c; it answers with the row of b. *)
Lemma Query_all_regions_witness :
  exists kss : gmap Z (list bytes), (map_to_list kss ≫= snd) ≡ₚ [key_c; key_b; key_a] /\
  exists f0, forall f, (f0 <= f)%nat ->
    CmdINTERLOCK visit_regions f rpc5 ctx5 the_request = Ret (inl (MkResponse [x01; x79] EmptyString None None)).
Proof.
  destruct (Query_all_regions visit_regions (ex_cluster two_encoded) IsolationLevel_SI [] the_request the_plan _ [the_column] true
    _ 5 the_ctx [0] _ 1 ltac:(by apply two_partition_at) two_encoded_bounds ex_wf ex_plain
    five_u64 (Nat.neq_succ_0 0) the_select_plan two_uniform) as (kss & _ & Nd & Once & A).
  exists kss. split.
  - apply NoDup_Permutation; [exact Nd|repeat constructor; rewrite ?elem_of_cons, ?elem_of_nil; naive_solver|].
    intros k. rewrite Once. split.
    + intros (P & _). apply ex_present in P. rewrite !elem_of_cons in *. naive_solver.
    + intros Hk. split; [by apply the_key_present|]. exists (key_a, key_d). split; [by left|].
      rewrite !elem_of_cons, elem_of_nil in Hk. destruct Hk as [->|[->|[->|[]]]]; by vm_compute.
  - specialize (A 1 ctx5 eq_refl eq_refl). cbv zeta in A. fold rpc5 in A.
    assert (E : (checkRequestContext visit_regions rpc5 ctx5).1 = None) by (vm_compute; reflexivity).
    destruct (checkRequestContext visit_regions rpc5 ctx5) as [[err|] h]; cbn [fst] in E; [discriminate E|].
    destruct A as (r & dh & ks & Ad & D & _ & Sk & Ans).
    pose proof (RpcGuard.ad_region _ _ _ _ Ad) as Er. vm_compute in Er. injection Er as <-. vm_compute in D. injection D as <-.
    assert (ks = [key_c; key_b]) as -> by (revert Sk; region_keys).
    apply Ans. exists [[x01; x79]]. vm_compute. repeat split; repeat constructor.
Defined.



